(* ===== verification/_CoqProject ===== *)
-Q . S2P
Prelude.v
KeyedOrder.v
EdgeSet.v
Kernel.v
KernelWalk.v
KernelCorrect.v
KernelSafety.v
Reactive.v
Temporal.v
RateShape.v
Merge.v
Windowing.v
Resilience.v
Coordination.v
Hlc.v
Crdt.v
TextCrdt.v
Membership.v
Presence.v
Queue.v
Topic.v
WorkQueue.v
Outbox.v
Sync.v
Liveness.v
Statechart.v
StateMachine.v
Projection.v
Bytes.v
Json.v
Msgpack.v
Ipc.v
JsonCodec.v
Framing.v
DurableClient.v
Receipt.v
Command.v
Plane.v
Relay.v
Replay.v
Ingress.v
IngressCell.v
KernelClear.v
Reconcile.v
Family.v
SourceTree.v
Service.v
Signaling.v
Transport.v
ShmWriters.v
Timers.v
RwLock.v
StableId.v
LosslessTree.v
TreeConverge.v
