(* ===== verification/Prelude.v ===== *)
(** * lazily-cpp: a verification development

    lazily-cpp (src/include/lazily/) is a header-only C++17 library of
    reactive state: an engine of cells, memoised computations and effects, and
    on top of it clocks, windows, fault-tolerance and coordination primitives,
    queues, replicated data types and a reliable sync protocol.  This library
    models the parts below, one file each, and proves what makes them correct.
    Every definition that models code carries a comment with the file, the
    lines and the name it translates.

    ** Conventions

    This file holds the shared vocabulary: 64-bit arithmetic ([u64], [+64]),
    bounded queues ([trim]), [core_run], which drives a step function through a
    list of inputs, tactics ([dmatch], [cases], [zify_bools]) and hint databases
    ([lazily], [u64]).  [uint64_t] is Z with its reduction written out;
    [int64_t] is Z, and theorems state the range.  [std::map] and the hash maps
    are [gmap]; where the code depends on iteration order the model sorts by
    the key's order.  C++ exceptions, failed assertions and undefined behaviour
    are values of a result type.  Closures given by the user are section
    variables or, in the engine, programs ([Kernel.prog]).  Locks that are held
    for the whole of an operation are left out.

    ** The engine (context.hpp, cell.hpp, types.hpp)

    EdgeSet: [EdgeSet.EdgeSet] is a node's edge vector with the hash index it
    promotes to past a size, [EdgeSet.PendingQueue] the queue of scheduled
    effects; both refine the plain container.  Kernel: the arena of slots,
    cells and effects ([Ctx]), the edges, the marking and clearing walks, reads,
    writes, recomputation, effects, batches, disposal and scopes; a state monad
    with the outcomes of C++ ([Val], thrown, crashed, [OutOfFuel]).
    KernelWalk: the walks terminate on every graph, within [mark_fuel] turns.
    KernelCorrect: a graph of sources and pure computed cells answers every
    sequence of operations as recomputation from scratch does
    ([engine_refines_recomputation]); a budget linear in the number of cells is
    proved enough.  KernelSafety: with arbitrary closures, effects, scopes and
    disposal the graph stays well formed, stale handles stay fenced and scopes
    dispose what they own.

    ** The interface between the engine and its clients

    Reactive: the class [SourceContext] and its laws say what a client relies
    on (a context with sources that are created, set and read); the kernel
    implements it ([kernel_sources_laws]).  Three client patterns are proved
    once against the class: publishing a core's emissions, mirroring a view of
    it on an edge, and refreshing it after every operation.  The cells of
    Temporal, RateShape, Merge, Windowing, Resilience, Coordination, Membership
    and Presence are instances, written out operation by operation.

    ** Cores over a logical clock

    Temporal (temporal.hpp): timers, intervals, cron sources, deadlines.
    RateShape (rateshape.hpp): debounce, throttle, samplers.  Merge (merge.hpp):
    the merge policies and the merge cell.  Windowing (windowing.hpp): tumbling,
    sliding and session windows.  Resilience (resilience.hpp): breaker, retry,
    bulkhead, timeout.  Coordination (coordination.hpp): leases with fencing,
    leader, lock, semaphore, barrier, quorum.  Membership (membership.hpp): the
    phi-accrual detector on IEEE doubles ([SpecFloat]; [std::exp] and
    [std::log10] are arguments, since the language does not fix their rounding)
    and the SWIM state machine.  Presence (presence.hpp): values and maps that
    expire.  The theorems describe each core by the history
    of its inputs, not by its state.

    ** Queues (queue.hpp, work_queue.hpp, keyed_order.hpp)

    KeyedOrder: the ordered key/value map.  Queue: the storage contract as a
    class with laws, the deque that implements it, and the reactive queue, which
    refines a bounded channel over any conforming storage.  A memoised reader is
    its cached value ([reader_get], [fresh]).  Topic: the broadcast log refines
    the log that forgets nothing, and restarts from its snapshot.  WorkQueue:
    items are conserved and delivered at most the limit.  Projection
    (latest_durable_projection*.hpp): per key the newest wanted value, the one a
    sink holds under a generation, and how far it is durable; core and reactive
    shell answer as a ledger that keeps every accepted value, and the newest one
    reaches the sink.

    ** Keyed collections (reactive_family.hpp, collections.hpp)

    KernelClear: clearing caches below a node is invisible to every reader.
    Reconcile: the longest increasing subsequence, which is longest, and the
    difference of two keyed sequences.  Family: the reactive map, generic in its
    handles ([MapHandleTraits] and its laws), which both sources and computed
    cells of the engine implement; a map of sources refines a keyed order of
    values, its two signals move exactly with the key set and the order, and a
    computed map reads the same minted early or late.  SourceTree: nodes on a
    heap, whose child vector, index and reactive order agree.

    ** Ingress (ingress.hpp)

    Ingress: envelopes, scopes and the admission core; whatever the order of
    arrival, a generation is delivered in order, each number once.  Every
    transition returns the set of readers it changes; [unreported] lists
    exactly the transitions that change one they do not name.  IngressCell: the
    reactive shell, which answers as the core without memoised readers on every
    history without those, and only on those.

    ** Statecharts (statechart.hpp, state_machine.hpp)

    Statechart: the builders and their checks, the engine that computes what an
    event exits and enters, with guards, actions and history, and the chart over
    a source.  Charts that are trees without history, whose transitions respect
    parallel states ([plain_chart], decidable), stay in legal configurations
    ([legal]), also when several regions move at once; concrete charts outside
    that class show what goes wrong there.  StateMachine: a source guarded by a
    transition function answers as its automaton.

    ** Replication

    Hlc (hlc.hpp): hybrid clocks, stamps and the frontier.  Crdt (crdt.hpp):
    registers, the counter, fractional keys and the sequence.  TextCrdt
    (crdt.hpp): the text with its cached order, merge, delta sync and
    collection.  Outbox and Sync (reliable_sync.hpp): the byte stores, with the
    journal on the bytes of its file and torn writes; the outbox protocol over
    any store; the receiver's coordinator; the driver, which loses no frame and
    resends after a reconnect.  The codec of messages is the class
    [FrameCodec]: Sync and Outbox are proved against its round-trip law.
    Liveness (reliable_sync.hpp): the tag set and the wire register converge.
    Plane (command.hpp): the distributed plane with its log, winners, frontier
    and families; two replicas that exchange operations show the same entries.
    Relay (relay.hpp): the relay cell folds what is merged under a policy until
    it is drained, on the engine's contexts; any schedule of drains converges.
    The spill store replays every page that was not acknowledged; transports
    are a record of operations with two implementations.

    ** Commands and receipts (durable_client.hpp, receipt.hpp, command.hpp)

    DurableClient: validation, deduplication and the projection client; whatever
    is repeated or arrives early, the history is applied in order, each change
    once.  Receipt: receipts with one terminal outcome per causation, and the
    mirror, whose delta tells the last thing said of each node.  Command: the
    fold of submissions, cancellations, events and receipts into entries, whose
    phase only advances and which only a terminal receipt finishes; an image
    restores the entries.

    ** Replay proofs (replay.hpp)

    Replay: values with their canonical bytes, which agree exactly for equal
    values, event logs, fingerprints, and the harness, over any graph whose
    operations act on a world.  A verification returns exactly if two replays
    observed the same, and otherwise names the first checkpoint and its labels.

    ** Messages and codecs (ipc.hpp, json*.hpp, msgpack*.hpp, codec*.hpp)

    Bytes: strings as bytes, readers ([reads], what a reader gives back;
    [consumes], why it ends).  Json: the document model, the writer and the
    parser, which reads back what is written and ends on every input.  Msgpack:
    the packer, the unpacker and the bridge to documents, with its round trip,
    skipping, and the packer's choice of the shortest integer.  Ipc: node keys,
    snapshots, deltas and replication frames, permissions, the blob arena (a
    descriptor reads its bytes back until the epoch advances) and capability
    negotiation, which is symmetric.  JsonCodec: messages as externally tagged
    documents and back; over a negotiated session a message arrives as it was
    sent, or is too long for both sides; decoding any bytes ends with a message
    or the documented exception.  Framing: the private frames of the outbox, as
    maps and as positional arrays, read back by one decoder; the map form is the
    instance of [FrameCodec].

    ** Fuel

    Loops that the code bounds by data recurse on the data.  The rest take
    fuel, with a theorem that a stated amount is enough: the walks
    ([KernelWalk]), the engine's recursion ([KernelCorrect]), probing of the
    hash index ([EdgeSet]), the text's traversal ([TextCrdt.under_eq]), the
    loops along a chart's parents (one turn per declared state,
    [Statechart.chain_bound]; a cyclic chart never ends), the
    parsers (one level per byte, [Json.json_parse_turns],
    [Msgpack.msgpack_decoding_ends]), the
    journal's reader (the number of bytes, [Outbox.records_app]) and the
    driver's receive loop (more than the source holds,
    [Sync.receive_loop_accepts]).

    ** What modelling showed

    An effect that throws disables all later effects, and in a batch ends the
    program; a tracked read of a disposed node leaves half an edge; fractional
    keys collide or fall on the wrong side at the edges of the byte range; a
    zero retry base jumps to the cap; a half-open breaker allows every probe; a
    tumbling window never returns at the last clock value; collecting a topic
    overtakes ephemeral subscribers; a record appended after a torn one is lost;
    a transition into a region of a parallel state leaves the other regions
    inactive, a self-transition enters without exiting, and a chart with cyclic
    parents is accepted; a time to live near the clock's end wraps; a double
    without a fraction is parsed back as an integer, and a double where an
    integer is due is converted unchecked; a blob descriptor whose checksum is
    above the half of its word fails its own validation; the private readers cut
    a discriminator to 32 bits and leave a missing node id uninitialised; a
    durable envelope that failed to decode is never retried, and a buffered
    update escapes the version check; two replicas of the plane mint the same
    node for different keys, and a write behind the frontier is lost;
    spilling into an acknowledged page loses the window, the relay's low
    watermark is never read, credits wrap; a short preview throws, and
    fingerprints are verified whatever sequence numbers they carry; opening an
    ingress scope at a newer generation keeps the old window, and five kinds of
    transition leave a memoised reader stale; a reconciliation that both moves
    and inserts can end in another order than the one asked for.
    Each is a lemma next to the code it is about.

    ** Not modelled

    Thread-safe and async contexts (locks and thread pools around the engine),
    signaling, transport, the C bindings and the file system calls of the
    journal: I/O and scheduling outside the values the model speaks of.
    small_any, small_fn, small_vec, rc_ptr: memory layout.  Printing and reading
    doubles in JSON are arguments.  Of the state machine, the effect and the
    eager cell over its state.  The benchmark functions of command.hpp.  Not yet
    modelled, in the order planned: tree CRDTs, services. *)
From stdpp Require Export sorting.
From stdpp Require Export base tactics option numbers list fin_maps gmap sets.
#[export] Set Default Goal Selector "!".

Declare Scope lazily_scope.
Delimit Scope lazily_scope with lazily.

(** ** Machine integers

    [uint64_t] values are integers in [[0, 2^64)], and every arithmetic
    operation of the code on them is followed by the reduction [u64].
    [int64_t] values are plain integers: signed overflow is undefined
    behaviour in C++, so the theorems that involve signed arithmetic state the
    range in which the code stays defined. *)
Definition two64 : Z := 18446744073709551616.
Definition u64_max : Z := 18446744073709551615.
Definition u64 (z : Z) : Z := z mod two64.
Definition is_u64 (z : Z) : Prop := (0 ≤ z < two64)%Z.
Definition two32 : Z := 4294967296.
Definition u32_max : Z := 4294967295.
Definition i64_min : Z := -9223372036854775808.
Definition i64_max : Z := 9223372036854775807.
Definition is_i64 (z : Z) : Prop := (i64_min ≤ z ≤ i64_max)%Z.

Notation "a +64 b" := (u64 (a + b)) (at level 50, left associativity) : lazily_scope.
Notation "a -64 b" := (u64 (a - b)) (at level 50, left associativity) : lazily_scope.
Notation "a *64 b" := (u64 (a * b)) (at level 40, left associativity) : lazily_scope.

(** Assembling a word from its bytes: the highest last, and the highest first. *)
Section words.
#[local] Open Scope Z_scope.

Lemma word_step v k : 0 ≤ k →
  Z.lor (v mod 2 ^ k) (Z.shiftl (Z.land (Z.shiftr v k) 255) k) = v mod 2 ^ (k + 8).
Proof.
  intros Hk. apply Z.bits_inj'. intros n Hn. change 255 with (Z.ones 8).
  rewrite Z.lor_spec, Z.shiftl_spec by lia. destruct (Z_lt_le_dec n k) as [Hlt|Hge].
  - rewrite (Z.testbit_neg_r _ (n - k)) by lia. rewrite !Z.mod_pow2_bits_low by lia. apply orb_false_r.
  - rewrite Z.mod_pow2_bits_high, Z.land_spec, Z.shiftr_spec by lia. replace (n - k + k) with n by lia.
    destruct (Z_lt_le_dec n (k + 8)).
    + rewrite Z.ones_spec_low, Z.mod_pow2_bits_low by lia. by rewrite andb_true_r.
    + rewrite Z.ones_spec_high, Z.mod_pow2_bits_high by lia. by rewrite andb_false_r.
Qed.

Lemma word_step_high v k s : 0 ≤ k → 0 ≤ s →
  Z.lor (Z.shiftl (Z.shiftr v (s + 8) mod 2 ^ k) 8) (Z.land (Z.shiftr v s) 255) = Z.shiftr v s mod 2 ^ (k + 8).
Proof.
  intros Hk Hs. apply Z.bits_inj'. intros n Hn. change 255 with (Z.ones 8).
  rewrite Z.lor_spec, Z.shiftl_spec, Z.land_spec by lia. destruct (Z_lt_le_dec n 8) as [Hlt|Hge].
  - rewrite (Z.testbit_neg_r _ (n - 8)), Z.ones_spec_low by lia. rewrite Z.mod_pow2_bits_low by lia. simpl. apply andb_true_r.
  - rewrite Z.ones_spec_high, andb_false_r, orb_false_r by lia. destruct (Z_lt_le_dec n (k + 8)).
    + rewrite !Z.mod_pow2_bits_low, !Z.shiftr_spec by lia. f_equal. lia.
    + rewrite !Z.mod_pow2_bits_high by lia. done.
Qed.

End words.

Lemma u64_small z : is_u64 z → u64 z = z.
Proof. unfold is_u64, u64. intros. by rewrite Z.mod_small. Qed.

Lemma u64_range z : is_u64 (u64 z).
Proof. unfold is_u64, u64, two64. apply Z.mod_pos_bound. lia. Qed.

Lemma u64_le z : (0 ≤ z)%Z → (u64 z ≤ z)%Z.
Proof. intros. unfold u64. apply Z.mod_le; [done | by unfold two64]. Qed.

Create HintDb lazily discriminated.
Create HintDb u64 discriminated.
#[export] Hint Resolve u64_range : lazily.

#[export] Hint Rewrite u64_small using (solve [eauto with lazily | unfold is_u64, two64 in *; lia]) : u64.

(** ** Tactics *)

(** Case analysis on the scrutinee of a [match] or [if] of the goal. *)
Ltac dmatch :=
  match goal with
  | |- context [match ?x with _ => _ end] =>
      lazymatch x with context [match _ with _ => _ end] => fail | _ => destruct x eqn:? end
  end.

(** The same on a hypothesis. *)
Ltac dmatch_in H :=
  match type of H with
  | context [match ?x with _ => _ end] =>
      lazymatch x with context [match _ with _ => _ end] => fail | _ => destruct x eqn:? end
  end.

(** Split every case of the goal, then close what is routine. *)
Ltac cases := repeat (dmatch; simplify_eq/=); try done.

(** Reflect the boolean comparisons of [Z] and [nat] in hypotheses. *)
Ltac zify_bools :=
  repeat match goal with
  | H : (_ <? _)%Z = true |- _ => apply Z.ltb_lt in H
  | H : (_ <? _)%Z = false |- _ => apply Z.ltb_ge in H
  | H : (_ <=? _)%Z = true |- _ => apply Z.leb_le in H
  | H : (_ <=? _)%Z = false |- _ => apply Z.leb_gt in H
  | H : (_ =? _)%Z = true |- _ => apply Z.eqb_eq in H
  | H : (_ =? _)%Z = false |- _ => apply Z.eqb_neq in H
  | H : (_ <? _)%nat = true |- _ => apply Nat.ltb_lt in H
  | H : (_ <? _)%nat = false |- _ => apply Nat.ltb_ge in H
  | H : (_ <=? _)%nat = true |- _ => apply Nat.leb_le in H
  | H : (_ <=? _)%nat = false |- _ => apply Nat.leb_gt in H
  | H : (_ =? _)%nat = true |- _ => apply Nat.eqb_eq in H
  | H : (_ =? _)%nat = false |- _ => apply Nat.eqb_neq in H
  | H : bool_decide _ = true |- _ => apply bool_decide_eq_true in H
  | H : bool_decide _ = false |- _ => apply bool_decide_eq_false in H
  | H : _ && _ = true |- _ => apply andb_true_iff in H as [? ?]
  | H : _ || _ = false |- _ => apply orb_false_iff in H as [? ?]
  | H : negb _ = true |- _ => apply negb_true_iff in H
  | H : negb _ = false |- _ => apply negb_false_iff in H
  end.

(** ** Lists *)

(** Position of the first element equal to [x], the scan [for (i = 0; i < n; ++i) if (v[i] == x)]. *)
Fixpoint index_of {A} `{EqDecision A} (x : A) (l : list A) : option nat :=
  match l with
  | [] => None
  | y :: l => if decide (y = x) then Some 0 else S <$> index_of x l
  end.

Section index_of.
  Context {A : Type} `{EqDecision A}.
  Implicit Types (x y : A) (l : list A).

Lemma index_of_Some_lookup x l i : index_of x l = Some i → l !! i = Some x.
Proof.
  revert i. induction l as [|y l IH]; intros i; simpl; [done|].
  case_decide; [by intros [= <-]; subst|].
  destruct (index_of x l) eqn:E; simpl; intros [= <-]. by apply IH.
Qed.

Lemma index_of_None x l : index_of x l = None ↔ x ∉ l.
Proof.
  induction l as [|y l IH]; simpl; [set_solver|].
  case_decide; [set_solver|]. rewrite not_elem_of_cons, fmap_None, IH. naive_solver.
Qed.

Lemma index_of_elem x l : x ∈ l → ∃ i, index_of x l = Some i.
Proof.
  intros Hx. destruct (index_of x l) eqn:E; [eauto|]. by apply index_of_None in E.
Qed.

Lemma index_of_lt x l i : index_of x l = Some i → i < length l.
Proof. intros H%index_of_Some_lookup. by eapply lookup_lt_Some. Qed.

Lemma index_of_NoDup x l i : NoDup l → l !! i = Some x → index_of x l = Some i.
Proof.
  intros Hnd Hi. destruct (index_of_elem x l) as [j Hj]; [by eapply list_elem_of_lookup_2|].
  rewrite Hj. f_equal. eapply NoDup_lookup; eauto using index_of_Some_lookup.
Qed.

End index_of.

Lemma list_filter_id {A} (P : A → Prop) `{!∀ x, Decision (P x)} (l : list A) :
  (∀ x, x ∈ l → P x) → filter P l = l.
Proof.
  induction l as [|x l IH]; intros Hl; [done|].
  rewrite filter_cons_True by (apply Hl; left). f_equal. apply IH. intros y Hy. apply Hl. by right.
Qed.

Lemma list_filter_iff' {A} (P Q : A → Prop) `{!∀ x, Decision (P x), !∀ x, Decision (Q x)} (l : list A) :
  (∀ x, x ∈ l → P x ↔ Q x) → filter P l = filter Q l.
Proof.
  induction l as [|x l IH]; intros Hl; [done|]. rewrite !filter_cons, IH by (intros; apply Hl; by right).
  specialize (Hl x ltac:(left)). by repeat case_decide; try tauto.
Qed.

(** ** Vectors used as ordered sets *)

(** [v.pop_back()]. *)
Definition pop_back {A} (l : list A) : list A := take (length l - 1) l.

(** [v[i] = v.back(); v.pop_back()], removal that does not keep the order. *)
Definition swap_remove {A} (i : nat) (l : list A) : list A :=
  match last l with
  | Some x => pop_back (<[i := x]> l)
  | None => l
  end.

(** Append unless present, the linear scan followed by [push_back]. *)
Definition vec_insert {A} `{EqDecision A} (x : A) (l : list A) : bool * list A :=
  match index_of x l with Some _ => (false, l) | None => (true, l ++ [x]) end.

(** Remove the first occurrence by swapping the last element into its place. *)
Definition vec_remove {A} `{EqDecision A} (x : A) (l : list A) : bool * list A :=
  match index_of x l with Some i => (true, swap_remove i l) | None => (false, l) end.

Lemma pop_back_snoc {A} (l : list A) x : pop_back (l ++ [x]) = l.
Proof.
  unfold pop_back. rewrite length_app. simpl.
  replace (length l + 1 - 1) with (length l) by lia. by rewrite take_app_length.
Qed.

Lemma length_pop_back {A} (l : list A) : length (pop_back l) = length l - 1.
Proof. unfold pop_back. rewrite length_take. lia. Qed.

Lemma lookup_pop_back {A} (l : list A) i : i < length l - 1 → pop_back l !! i = l !! i.
Proof. intros. unfold pop_back. by rewrite lookup_take_lt. Qed.

Lemma swap_remove_spec {A} (l : list A) x i : l !! i = Some x → x :: swap_remove i l ≡ₚ l.
Proof.
  intros Hi. destruct l as [|y l' _] using rev_ind; [done|].
  unfold swap_remove. rewrite last_snoc.
  destruct (decide (i < length l')) as [Hlt|Hge].
  - rewrite insert_app_l, pop_back_snoc by done. rewrite lookup_app_l in Hi by done.
    rewrite <- (take_drop_middle l' i x) at 2 by done.
    rewrite insert_take_drop, <- !Permutation_middle by done.
    rewrite (Permutation_app_comm (x :: _)). simpl. apply perm_swap.
  - pose proof (lookup_lt_Some _ _ _ Hi) as Hl. rewrite length_app in Hl. simpl in Hl.
    assert (i = length l') as -> by lia.
    rewrite list_lookup_middle in Hi by done. injection Hi as ->.
    rewrite insert_app_r_alt by lia. replace (length l' - length l') with 0 by lia.
    simpl. rewrite pop_back_snoc. by rewrite Permutation_cons_append.
Qed.

Lemma length_swap_remove {A} (l : list A) i : length (swap_remove i l) = length l - 1.
Proof.
  unfold swap_remove. destruct (last l) eqn:E.
  - by rewrite length_pop_back, length_insert.
  - by apply last_None in E as ->.
Qed.

Section vec_set.
  Context {A : Type} `{EqDecision A}.
  Implicit Types (x y : A) (l : list A).

Lemma vec_remove_perm x l : x ∈ l → x :: (vec_remove x l).2 ≡ₚ l.
Proof.
  intros [i Hi]%index_of_elem. unfold vec_remove. rewrite Hi. simpl.
  by apply swap_remove_spec, index_of_Some_lookup.
Qed.

Lemma vec_remove_notin x l : x ∉ l → (vec_remove x l).2 = l.
Proof. intros Hx%index_of_None. unfold vec_remove. by rewrite Hx. Qed.

Lemma vec_remove_NoDup x l : NoDup l → NoDup (vec_remove x l).2.
Proof.
  intros Hnd. destruct (decide (x ∈ l)) as [Hx|Hx]; [|by rewrite vec_remove_notin].
  rewrite <- (vec_remove_perm x l Hx) in Hnd. by apply NoDup_cons in Hnd as [_ ?].
Qed.

Lemma elem_of_vec_remove x y l : NoDup l → y ∈ (vec_remove x l).2 ↔ y ∈ l ∧ y ≠ x.
Proof.
  intros Hnd. destruct (decide (x ∈ l)) as [Hx|Hx].
  - pose proof (vec_remove_perm x l Hx) as Hp. revert Hp Hnd. generalize (vec_remove x l).2.
    intros l' Hp Hnd. rewrite <- Hp in Hnd. rewrite <- Hp.
    apply NoDup_cons in Hnd as [? _]. set_solver.
  - rewrite vec_remove_notin by done. split; [|tauto]. intros; split; [done|]. by intros ->.
Qed.

Lemma elem_of_vec_insert x y l : y ∈ (vec_insert x l).2 ↔ y ∈ l ∨ y = x.
Proof.
  unfold vec_insert. destruct (index_of x l) eqn:E; simpl; [|set_solver].
  apply index_of_Some_lookup, list_elem_of_lookup_2 in E. naive_solver.
Qed.

Lemma vec_insert_NoDup x l : NoDup l → NoDup (vec_insert x l).2.
Proof.
  intros Hnd. unfold vec_insert. destruct (index_of x l) eqn:E; simpl; [done|].
  apply index_of_None in E. apply NoDup_app; split_and!; [done| |apply NoDup_singleton]. set_solver.
Qed.

End vec_set.

(** ** Counting and searching *)

(** How many elements satisfy [P]. *)
Definition occ {A} (P : A → Prop) `{!∀ x, Decision (P x)} (l : list A) : nat := length (filter P l).

Lemma occ_insert {A} (P : A → Prop) `{!∀ x, Decision (P x)} (l : list A) i x y :
  l !! i = Some x →
  occ P (<[i := y]> l) + (if decide (P x) then 1 else 0) = occ P l + (if decide (P y) then 1 else 0).
Proof.
  intros Hi. pose proof (lookup_lt_Some _ _ _ Hi). unfold occ.
  rewrite <- (take_drop_middle l i x) at 2 by done. rewrite insert_take_drop by done.
  rewrite !filter_app, !filter_cons, !length_app. repeat case_decide; simpl; lia.
Qed.

Lemma occ_lt_elem {A} (P : A → Prop) `{!∀ x, Decision (P x)} (l : list A) :
  occ P l < length l → ∃ i x, l !! i = Some x ∧ ¬ P x.
Proof.
  unfold occ. induction l as [|x l IH]; simpl; [lia|].
  destruct (decide (P x)) as [Hp|Hp]; [|by exists 0, x].
  rewrite filter_cons_True by done. simpl. intros (i & y & ? & ?)%Nat.succ_lt_mono%IH.
  by exists (S i), y.
Qed.

Lemma occ_replicate {A} (P : A → Prop) `{!∀ x, Decision (P x)} n x :
  ¬ P x → occ P (replicate n x) = 0.
Proof. intros Hx. unfold occ. induction n; simpl; [done|]. by rewrite filter_cons_False. Qed.

(** The least witness of a decidable predicate. *)
Lemma least_such (P : nat → Prop) `{!∀ n, Decision (P n)} j0 :
  P j0 → ∃ j, j ≤ j0 ∧ P j ∧ ∀ m, m < j → ¬ P m.
Proof.
  intros H0. assert (Hn : ∀ n, (∀ m, m < n → ¬ P m) ∨ ∃ j, j < n ∧ P j ∧ ∀ m, m < j → ¬ P m).
  { induction n as [|n [IH|(j & ? & ? & ?)]]; [left; lia| |right; exists j; auto with lia].
    destruct (decide (P n)); [right; exists n; auto with lia|left].
    intros m Hm. destruct (decide (m = n)) as [->|]; [done|]. apply IH. lia. }
  destruct (Hn (S j0)) as [Hno|(j & ? & ? & ?)]; [by destruct (Hno j0); [lia|]|].
  exists j. auto with lia.
Qed.

(** ** Bounded queues *)

(** [while (q.size() > size) q.pop_front()]. *)
Fixpoint trim {A} (size : Z) (q : list A) : list A :=
  match q with
  | [] => []
  | _ :: rest => if (size <? Z.of_nat (length q))%Z then trim size rest else q
  end.

(** The last [size] elements. *)
Definition last_elems {A} (size : Z) (l : list A) : list A := drop (length l - Z.to_nat size) l.

Lemma trim_last {A} size (l : list A) : (0 ≤ size)%Z → trim size l = last_elems size l.
Proof.
  intros Hs. induction l as [|v l IH]; [done|]. change (trim size (v :: l)) with
    (if (size <? Z.of_nat (length (v :: l)))%Z then trim size l else v :: l).
  unfold last_elems in *. simpl length. destruct (_ <? _)%Z eqn:E; zify_bools.
  - rewrite IH. replace (S (length l) - Z.to_nat size) with (S (length l - Z.to_nat size)) by lia. done.
  - replace (S (length l) - Z.to_nat size) with O by lia. done.
Qed.

Lemma last_elems_snoc {A} size (l : list A) v :
  (1 ≤ size)%Z → last_elems size (last_elems size l ++ [v]) = last_elems size (l ++ [v]).
Proof.
  intros Hs. unfold last_elems. rewrite !length_app, length_drop. simpl.
  rewrite !drop_app_le by (rewrite ?length_drop; lia). rewrite drop_drop. do 2 f_equal. lia.
Qed.

Lemma at_least_one n : (if (n <? 1)%Z then 1%Z else n) = Z.max n 1.
Proof. destruct (n <? 1)%Z eqn:E; zify_bools; lia. Qed.

(** ** Running a core

    A core alone, driven through a list of inputs: what it answers, and the
    state it ends in. *)
Section core_run.
  Context {O S I : Type} (step : S → I → O * S).

Fixpoint core_run (s : S) (ins : list I) : list O * S :=
  match ins with
  | [] => ([], s)
  | i :: ins => let '(e, s) := step s i in let '(es, s) := core_run s ins in (e :: es, s)
  end.

Lemma core_run_snoc s ins i :
  core_run s (ins ++ [i]) =
    ((core_run s ins).1 ++ [(step (core_run s ins).2 i).1], (step (core_run s ins).2 i).2).
Proof.
  revert s. induction ins as [|j ins IH]; intros s; simpl; [by destruct (step s i)|].
  destruct (step s j) as [e s1]. rewrite IH. destruct (core_run s1 ins) as [es s2]. done.
Qed.

Lemma length_core_run s ins : length (core_run s ins).1 = length ins.
Proof.
  induction ins as [|i ins IH] using rev_ind; [done|].
  rewrite core_run_snoc. simpl. rewrite !length_app, IH. done.
Qed.

(** The [i]-th emission is the step from the state its prefix leads to. *)
Lemma core_run_lookup s ins i e :
  (core_run s ins).1 !! i = Some e ↔
  ∃ x, ins !! i = Some x ∧ e = (step (core_run s (take i ins)).2 x).1.
Proof.
  induction ins as [|y ins IH] using rev_ind; [rewrite lookup_nil; simpl; rewrite lookup_nil; naive_solver|].
  rewrite core_run_snoc. simpl. destruct (decide (i < length ins)) as [Hlt|Hge].
  - rewrite !lookup_app_l by (rewrite ?length_core_run; done). rewrite IH, take_app_le by lia. done.
  - destruct (decide (i = length ins)) as [->|Hne].
    + rewrite list_lookup_middle by (by rewrite length_core_run).
      rewrite list_lookup_middle by done. rewrite take_app_length. naive_solver.
    + rewrite !lookup_ge_None_2 by (rewrite length_app, ?length_core_run; simpl; lia). naive_solver.
Qed.

End core_run.

(** ** Finite maps *)

Lemma alter_Some {K} `{Countable K} {A} (f : A → A) (m : gmap K A) i x :
  m !! i = Some x → alter f i m = <[i := f x]> m.
Proof.
  intros Hi. apply map_eq. intros j. destruct (decide (j = i)) as [->|].
  - by rewrite lookup_alter_eq, lookup_insert_eq, Hi.
  - by rewrite lookup_alter_ne, lookup_insert_ne by done.
Qed.

Section map_sum.
  Context {K : Type} `{Countable K} {A : Type}.
  Implicit Types (w : A → nat) (m : gmap K A).

Definition map_sum (w : A → nat) (m : gmap K A) : nat := map_fold (λ _ x acc, w x + acc) 0 m.

Lemma map_sum_empty w : map_sum w ∅ = 0.
Proof. apply map_fold_empty. Qed.

Lemma map_sum_insert_fresh w m i x : m !! i = None → map_sum w (<[i := x]> m) = w x + map_sum w m.
Proof. intros. unfold map_sum. rewrite (map_fold_insert_L (λ _ x acc, w x + acc)); [done| |done]. intros. lia. Qed.

Lemma map_sum_insert w m i x y :
  m !! i = Some x → map_sum w (<[i := y]> m) + w x = map_sum w m + w y.
Proof.
  intros Hi. rewrite <- (insert_delete_id m i x) at 2 by done. rewrite <- insert_delete_eq.
  rewrite !map_sum_insert_fresh by apply lookup_delete_eq. lia.
Qed.

Lemma map_sum_le w1 w2 m : (∀ x, w1 x ≤ w2 x) → map_sum w1 m ≤ map_sum w2 m.
Proof.
  intros Hw. induction m as [|i x m Hi IH] using map_ind; [by rewrite !map_sum_empty|].
  rewrite !map_sum_insert_fresh by done. specialize (Hw x). lia.
Qed.

Lemma map_sum_scale n w m : map_sum (λ x, n * w x) m = n * map_sum w m.
Proof.
  induction m as [|i x m Hi IH] using map_ind; [rewrite !map_sum_empty; lia|].
  rewrite !map_sum_insert_fresh by done. lia.
Qed.

End map_sum.
