(* ===== verification/KeyedOrder.v ===== *)
(** * KeyedOrder: the present set of a keyed map and its authoritative order

    Models include/lazily/keyed_order.hpp: [entries_] is a finite map, [order_]
    the key list, and every mutator is a function returning the new state with
    the code's result. *)
From S2P Require Import Prelude.

(* include/lazily/keyed_order.hpp:41-48, MapMutation *)
Inductive MapMutation := MutNone | Inserted | Removed.

(* include/lazily/keyed_order.hpp:55-62, MapMove *)
Inductive MapMove := Missing | Unchanged | Reordered.

#[export] Instance MapMutation_eq_dec : EqDecision MapMutation.
Proof. solve_decision. Defined.
#[export] Instance MapMove_eq_dec : EqDecision MapMove.
Proof. solve_decision. Defined.

(* include/lazily/keyed_order.hpp:50-50, mutation_changed *)
Definition mutation_changed (m : MapMutation) : bool := bool_decide (m ≠ MutNone).

(* include/lazily/keyed_order.hpp:65-65, move_applied *)
Definition move_applied (m : MapMove) : bool := bool_decide (m ≠ Missing).

(* include/lazily/keyed_order.hpp:68-68, move_changed *)
Definition move_changed (m : MapMove) : bool := bool_decide (m = Reordered).

(** [std::rotate(begin + f, begin + m, begin + e)] on a vector: the range
    [[m, e)] comes first, then [[f, m)]. *)
Definition std_rotate {A} (l : list A) (f m e : nat) : list A :=
  take f l ++ take (e - m) (drop m l) ++ take (m - f) (drop f l) ++ drop e l.

Section KeyedOrder.
  Context {K H : Type} `{Countable K}.

(* include/lazily/keyed_order.hpp:175-179, KeyedOrder *)
Record KeyedOrder := mkKeyedOrder {
  entries_ : gmap K H;
  order_ : list K;
}.

(* include/lazily/keyed_order.hpp:72-72, KeyedOrder::KeyedOrder *)
Definition empty_order : KeyedOrder := mkKeyedOrder ∅ [].

(* include/lazily/keyed_order.hpp:76-80, KeyedOrder::get *)
Definition get (o : KeyedOrder) (key : K) : option H := entries_ o !! key.

(* include/lazily/keyed_order.hpp:82-82, KeyedOrder::contains *)
Definition contains (o : KeyedOrder) (key : K) : bool := bool_decide (is_Some (entries_ o !! key)).

(* include/lazily/keyed_order.hpp:85-85, KeyedOrder::keys *)
Definition keys (o : KeyedOrder) : list K := order_ o.

(* include/lazily/keyed_order.hpp:87-87, KeyedOrder::len *)
Definition len (o : KeyedOrder) : nat := length (order_ o).

(* include/lazily/keyed_order.hpp:90-95, KeyedOrder::position *)
Definition position (o : KeyedOrder) (key : K) : option nat := index_of key (order_ o).

(* include/lazily/keyed_order.hpp:102-108, KeyedOrder::insert *)
Definition insert (o : KeyedOrder) (key : K) (handle : H) : (H * MapMutation) * KeyedOrder :=
  match entries_ o !! key with
  | Some h => ((h, MutNone), o)
  | None => ((handle, Inserted), mkKeyedOrder (<[key := handle]> (entries_ o)) (order_ o ++ [key]))
  end.

(* include/lazily/keyed_order.hpp:112-119, KeyedOrder::remove *)
Definition remove (o : KeyedOrder) (key : K) : (option H * MapMutation) * KeyedOrder :=
  match entries_ o !! key with
  | None => ((None, MutNone), o)
  | Some handle =>
      ((Some handle, Removed),
       mkKeyedOrder (delete key (entries_ o)) (filter (λ k, k ≠ key) (order_ o)))
  end.

(* include/lazily/keyed_order.hpp:164-173, KeyedOrder::rotate_within *)
Definition rotate_within (o : KeyedOrder) (from to : nat) : KeyedOrder :=
  mkKeyedOrder (entries_ o)
    (if from <? to then std_rotate (order_ o) from (from + 1) (to + 1)
     else std_rotate (order_ o) to from (from + 1)).

(* include/lazily/keyed_order.hpp:126-134, KeyedOrder::move_to *)
Definition move_to (o : KeyedOrder) (key : K) (index : nat) : MapMove * KeyedOrder :=
  match position o key with
  | None => (Missing, o)
  | Some from =>
      let to := Nat.min index (length (order_ o) - 1) in
      if from =? to then (Unchanged, o) else (Reordered, rotate_within o from to)
  end.

(* include/lazily/keyed_order.hpp:143-149, KeyedOrder::move_before *)
Definition move_before (o : KeyedOrder) (key anchor : K) : MapMove * KeyedOrder :=
  match position o anchor, position o key with
  | Some anchor_idx, Some from =>
      let target := if from <? anchor_idx then anchor_idx - 1 else anchor_idx in
      move_to o key target
  | _, _ => (Missing, o)
  end.

(* include/lazily/keyed_order.hpp:152-158, KeyedOrder::move_after *)
Definition move_after (o : KeyedOrder) (key anchor : K) : MapMove * KeyedOrder :=
  match position o anchor, position o key with
  | Some anchor_idx, Some from =>
      let target := if from <=? anchor_idx then anchor_idx else anchor_idx + 1 in
      move_to o key target
  | _, _ => (Missing, o)
  end.

(** One mutation of the present set or of the order. *)
Inductive KeyedOrderOp :=
  | OpInsert (key : K) (handle : H)
  | OpRemove (key : K)
  | OpMoveTo (key : K) (index : nat)
  | OpMoveBefore (key anchor : K)
  | OpMoveAfter (key anchor : K).

Definition apply_op (o : KeyedOrder) (op : KeyedOrderOp) : KeyedOrder :=
  match op with
  | OpInsert k h => (insert o k h).2
  | OpRemove k => (remove o k).2
  | OpMoveTo k i => (move_to o k i).2
  | OpMoveBefore k a => (move_before o k a).2
  | OpMoveAfter k a => (move_after o k a).2
  end.

(** ** The lockstep invariant: every key of [entries_] appears exactly once in
    [order_] and vice versa. *)
Definition lockstep (o : KeyedOrder) : Prop :=
  NoDup (order_ o) ∧ ∀ k, k ∈ order_ o ↔ is_Some (entries_ o !! k).

End KeyedOrder.
Arguments KeyedOrder : clear implicits.
Arguments KeyedOrder K H {_ _}.
Arguments KeyedOrderOp : clear implicits.

(** ** Rotation *)

Lemma take_drop_middle4 {A} (l1 l2 l3 : list A) x i j :
  i = length l1 → j = length l1 + 1 + length l2 →
  std_rotate (l1 ++ x :: l2 ++ l3) i (i + 1) j = l1 ++ l2 ++ x :: l3.
Proof.
  intros -> ->. unfold std_rotate.
  rewrite take_app_length. f_equal.
  replace (length l1 + 1 + length l2 - (length l1 + 1)) with (length l2) by lia.
  replace (length l1 + 1 - length l1) with 1 by lia.
  rewrite drop_app_length.
  rewrite (drop_app_ge l1) by lia. replace (length l1 + 1 - length l1) with 1 by lia.
  rewrite (drop_app_ge l1) by lia.
  replace (length l1 + 1 + length l2 - length l1) with (S (length l2)) by lia.
  simpl. by rewrite drop_0, take_app_length, drop_app_length.
Qed.

Lemma std_rotate_back {A} (l1 l2 l3 : list A) x i j :
  i = length l1 → j = length l1 + length l2 →
  std_rotate (l1 ++ l2 ++ x :: l3) i j (j + 1) = l1 ++ x :: l2 ++ l3.
Proof.
  intros -> ->. unfold std_rotate.
  rewrite take_app_length. f_equal.
  replace (length l1 + length l2 + 1 - (length l1 + length l2)) with 1 by lia.
  replace (length l1 + length l2 - length l1) with (length l2) by lia.
  rewrite drop_app_length, (drop_app_ge l1), (drop_app_ge l1) by lia.
  replace (length l1 + length l2 - length l1) with (length l2) by lia.
  replace (length l1 + length l2 + 1 - length l1) with (length l2 + 1) by lia.
  rewrite drop_app_length, take_app_length, (drop_app_ge l2) by lia.
  replace (length l2 + 1 - length l2) with 1 by lia. simpl. by rewrite drop_0.
Qed.

(** Moving the element at the end of [l1] to position [i] of the list without it. *)
Definition rotate_to {A} (l : list A) (from to : nat) : list A :=
  if from <? to then std_rotate l from (from + 1) (to + 1) else std_rotate l to from (from + 1).

Lemma rotate_to_spec {A} (l1 l2 : list A) x i :
  i ≤ length (l1 ++ l2) → i ≠ length l1 →
  rotate_to (l1 ++ x :: l2) (length l1) i = take i (l1 ++ l2) ++ (x :: drop i (l1 ++ l2)).
Proof.
  intros Hi Hne. unfold rotate_to. rewrite length_app in Hi.
  destruct (Nat.ltb_spec (length l1) i).
  - rewrite <- (take_drop (i - length l1) l2) at 1.
    rewrite take_drop_middle4; [|done|rewrite length_take; lia].
    by rewrite take_app_ge, drop_app_ge, <- app_assoc by lia.
  - rewrite <- (take_drop i l1) at 1. rewrite <- app_assoc.
    rewrite std_rotate_back; rewrite ?length_take, ?length_drop; [|lia|lia].
    by rewrite take_app_le, drop_app_le by lia.
Qed.

Section lemmas.
  Context {K H : Type} `{Countable K}.
  Implicit Types (o : KeyedOrder K H) (k a : K).

Lemma order_split o k :
  lockstep o → is_Some (entries_ o !! k) →
  ∃ l1 l2, order_ o = l1 ++ k :: l2 ∧ k ∉ l1 ∧ k ∉ l2 ∧ position o k = Some (length l1) ∧
    filter (λ k', k' ≠ k) (order_ o) = l1 ++ l2.
Proof.
  intros [Hnd Hin] Hk%Hin. destruct (index_of_elem k (order_ o) Hk) as [i Hi].
  pose proof (index_of_Some_lookup _ _ _ Hi) as Hl.
  apply list_elem_of_split_length in Hl as (l1 & l2 & Ho & ->).
  rewrite Ho in Hnd. apply NoDup_app in Hnd as (? & Hd & Hnd2). apply NoDup_cons in Hnd2 as [??].
  assert (k ∉ l1) by (intros ?; apply (Hd k); [done|left]).
  exists l1, l2. split_and!; try done. rewrite Ho, filter_app, filter_cons_False by naive_solver.
  rewrite !list_filter_id; [done|..]; intros ? ??; congruence.
Qed.

Lemma position_None o k : lockstep o → position o k = None ↔ entries_ o !! k = None.
Proof.
  intros [_ Hin]. unfold position. rewrite index_of_None, Hin. by rewrite <- eq_None_not_Some.
Qed.

Lemma move_to_order o k i :
  lockstep o → is_Some (entries_ o !! k) →
  let rest := filter (λ k', k' ≠ k) (order_ o) in
  let i' := Nat.min i (length rest) in
  (move_to o k i).2 = mkKeyedOrder (entries_ o) (take i' rest ++ (k :: drop i' rest)).
Proof.
  intros Hl Hk. destruct (order_split o k Hl Hk) as (l1 & l2 & Ho & _ & _ & Hp & Hf).
  unfold move_to. rewrite Hp, Hf, Ho. simpl.
  replace (length (l1 ++ k :: l2) - 1) with (length (l1 ++ l2)) by (rewrite !length_app; simpl; lia).
  set (i' := Nat.min i (length (l1 ++ l2))).
  destruct (Nat.eqb_spec (length l1) i') as [Heq|Hne]; simpl.
  - rewrite <- Heq, take_app_length, drop_app_length. destruct o; simpl in *; congruence.
  - unfold rotate_within. f_equal. rewrite Ho.
    rewrite <- rotate_to_spec by (subst i'; lia). done.
Qed.

Lemma reorder_lockstep o k i :
  lockstep o → is_Some (entries_ o !! k) →
  let rest := filter (λ k', k' ≠ k) (order_ o) in
  lockstep (mkKeyedOrder (H := H) (entries_ o) (take i rest ++ (k :: drop i rest))).
Proof.
  intros Hl Hk. destruct (order_split o k Hl Hk) as (l1 & l2 & Ho & ?&?& _ & Hf).
  destruct Hl as [Hnd Hin]. cbv zeta. rewrite Hf.
  assert (Hp : take i (l1 ++ l2) ++ (k :: drop i (l1 ++ l2)) ≡ₚ order_ o).
  { rewrite Ho, <- !Permutation_middle. by rewrite take_drop. }
  split; simpl; [by rewrite Hp|]. intros k'. rewrite Hp. apply Hin.
Qed.

Lemma move_to_lockstep o k i : lockstep o → lockstep (move_to o k i).2.
Proof.
  intros Hl. destruct (entries_ o !! k) eqn:Hk.
  - rewrite move_to_order by eauto. by apply reorder_lockstep; eauto.
  - apply (position_None o k Hl) in Hk. unfold move_to. by rewrite Hk.
Qed.

Lemma insert_lockstep o k h : lockstep o → lockstep (insert o k h).2.
Proof.
  intros [Hnd Hin]. unfold insert. destruct (entries_ o !! k) eqn:Hk; [done|].
  assert (k ∉ order_ o) by (rewrite Hin, Hk; by intros []%is_Some_None).
  split; simpl.
  - apply NoDup_app. split_and!; [done| |apply NoDup_singleton]. set_solver.
  - intros k'. rewrite elem_of_app, list_elem_of_singleton, Hin.
    destruct (decide (k' = k)) as [->|]; simplify_map_eq; naive_solver.
Qed.

Lemma remove_lockstep o k : lockstep o → lockstep (remove o k).2.
Proof.
  intros [Hnd Hin]. unfold remove. destruct (entries_ o !! k) eqn:Hk; [|done].
  split; simpl; [by apply NoDup_filter|].
  intros k'. rewrite list_elem_of_filter, Hin.
  destruct (decide (k' = k)) as [->|]; simplify_map_eq; [|naive_solver].
  split; [naive_solver|]. by intros []%is_Some_None.
Qed.

Lemma apply_op_lockstep o op : lockstep o → lockstep (apply_op o op).
Proof.
  intros Hl. destruct op; simpl; unfold move_before, move_after; repeat case_match; simpl;
    auto using insert_lockstep, remove_lockstep, move_to_lockstep.
Qed.

Lemma empty_lockstep : lockstep (@empty_order K H _ _).
Proof.
  split; simpl; [constructor|]. intros k. rewrite lookup_empty.
  split; [by intros ?%elem_of_nil|by intros []%is_Some_None].
Qed.

Lemma ops_lockstep (ops : list (KeyedOrderOp K H)) o : lockstep o → lockstep (foldl apply_op o ops).
Proof. revert o. induction ops; simpl; auto using apply_op_lockstep. Qed.

(** Whatever sequence of inserts, removes and moves is applied to a fresh
    [KeyedOrder], including the ones that fail, [entries_] and [order_] stay in
    lockstep: every present key is in the order exactly once, and no other key is. *)
Theorem keyed_order_lockstep (ops : list (KeyedOrderOp K H)) :
  lockstep (foldl apply_op empty_order ops).
Proof. apply ops_lockstep, empty_lockstep. Qed.

(** Where the anchor sits once the moved key is lifted out. *)
Lemma anchor_split o k a :
  lockstep o → k ≠ a → is_Some (entries_ o !! k) → is_Some (entries_ o !! a) →
  ∃ from p q, position o k = Some from ∧
    filter (λ k', k' ≠ k) (order_ o) = p ++ a :: q ∧
    position o a = Some (if from <=? length p then S (length p) else length p).
Proof.
  intros Hl Hne Hk Ha. destruct (order_split o k Hl Hk) as (l1 & l2 & Ho & ?&?& Hp & Hf).
  destruct Hl as [Hnd Hin].
  assert (Hp' : ∀ i, order_ o !! i = Some a → position o a = Some i).
  { intros i Hi. by apply index_of_NoDup. }
  assert (a ∈ order_ o) as Hao by by apply Hin.
  rewrite Hf. rewrite Ho in Hao. apply elem_of_app in Hao as [Hao|Hao].
  - apply list_elem_of_split in Hao as (p & q & ->).
    exists (length (p ++ a :: q)), p, (q ++ l2).
    rewrite <- !app_assoc. split_and!; try done.
    destruct (Nat.leb_spec (length (p ++ a :: q)) (length p)) as [Hle|].
    { rewrite length_app in Hle. simpl in Hle. lia. }
    apply Hp'. rewrite Ho, <- app_assoc. simpl. by rewrite list_lookup_middle.
  - apply elem_of_cons in Hao as [->|Hao]; [done|].
    apply list_elem_of_split in Hao as (p & q & ->).
    exists (length l1), (l1 ++ p), q. rewrite <- !app_assoc. split_and!; try done.
    destruct (Nat.leb_spec (length l1) (length (l1 ++ p))) as [_|Hle].
    2: { rewrite length_app in Hle. lia. }
    apply Hp'. rewrite Ho. change (k :: p ++ a :: q) with ((k :: p) ++ a :: q).
    rewrite app_assoc, list_lookup_middle; [done|]. rewrite !length_app. simpl. lia.
Qed.

Lemma move_to_status o k i :
  is_Some (position o k) → move_applied (move_to o k i).1 = true ∧
  (move_changed (move_to o k i).1 = false → (move_to o k i).2 = o).
Proof. intros [from Hp]. unfold move_to. rewrite Hp. by case_match. Qed.

(** Both [move_before] and [move_after] insert the key at a position of the
    list without it. *)
Lemma move_to_at o k p q :
  lockstep o → is_Some (entries_ o !! k) → filter (λ k', k' ≠ k) (order_ o) = p ++ q →
  (move_to o k (length p)).2 = mkKeyedOrder (entries_ o) (p ++ k :: q).
Proof.
  intros Hl Hk Hf. rewrite move_to_order, Hf by done.
  rewrite Nat.min_l by (rewrite length_app; lia). by rewrite take_app_length, drop_app_length.
Qed.

Lemma move_missing o k a :
  lockstep o → entries_ o !! k = None ∨ entries_ o !! a = None →
  move_before o k a = (Missing, o) ∧ move_after o k a = (Missing, o).
Proof.
  intros Hl Hn. unfold move_before, move_after.
  rewrite <- !(position_None o) in Hn by done.
  destruct Hn as [->| ->]; [|done]. by destruct (position o a).
Qed.

(** [move_before] on two distinct present keys lands the key immediately
    before its anchor, keeps the relative order of all other keys and every
    handle, and reports that it applied (and [Unchanged] only if nothing
    changed); with an absent key or anchor it changes nothing and reports
    [Missing]. *)
Theorem move_before_spec o k a :
  lockstep o → k ≠ a →
  match entries_ o !! k, entries_ o !! a with
  | Some _, Some _ =>
      let '(m, o') := move_before o k a in
      ∃ l1 l2, keys o' = l1 ++ k :: a :: l2 ∧
        l1 ++ a :: l2 = filter (λ k', k' ≠ k) (keys o) ∧
        entries_ o' = entries_ o ∧ move_applied m = true ∧
        (move_changed m = false → o' = o)
  | _, _ => move_before o k a = (Missing, o)
  end.
Proof.
  intros Hl Hne. destruct (entries_ o !! k) eqn:Hk; [|by apply move_missing; eauto].
  destruct (entries_ o !! a) eqn:Ha; [|by apply move_missing; eauto].
  destruct (anchor_split o k a) as (from & p & q & Hp & Hf & Hpa); eauto.
  assert (move_before o k a = move_to o k (length p)) as ->.
  { unfold move_before. rewrite Hp, Hpa. f_equal.
    destruct (Nat.leb_spec from (length p)), (Nat.ltb_spec from (S (length p))),
      (Nat.ltb_spec from (length p)); lia. }
  pose proof (move_to_at o k p (a :: q) Hl ltac:(eauto) Hf) as Hm.
  destruct (move_to_status o k (length p)) as [Hs1 Hs2]; [eauto|].
  destruct (move_to o k (length p)) as [m o']; simpl in *; subst o'.
  exists p, q. unfold keys; simpl. by rewrite Hf.
Qed.

(** [move_after] on two distinct present keys lands the key immediately
    after its anchor, keeping the relative order of the others and the handles. *)
Lemma move_after_spec o k a :
  lockstep o → k ≠ a →
  match entries_ o !! k, entries_ o !! a with
  | Some _, Some _ =>
      let '(m, o') := move_after o k a in
      ∃ l1 l2, keys o' = l1 ++ a :: k :: l2 ∧
        l1 ++ a :: l2 = filter (λ k', k' ≠ k) (keys o) ∧
        entries_ o' = entries_ o ∧ move_applied m = true ∧
        (move_changed m = false → o' = o)
  | _, _ => move_after o k a = (Missing, o)
  end.
Proof.
  intros Hl Hne. destruct (entries_ o !! k) eqn:Hk; [|by apply move_missing; eauto].
  destruct (entries_ o !! a) eqn:Ha; [|by apply move_missing; eauto].
  destruct (anchor_split o k a) as (from & p & q & Hp & Hf & Hpa); eauto.
  assert (Hlen : S (length p) = length (p ++ [a])) by (rewrite length_app; simpl; lia).
  assert (move_after o k a = move_to o k (length (p ++ [a]))) as ->.
  { unfold move_after. rewrite Hp, Hpa, <- Hlen. f_equal.
    destruct (Nat.leb_spec from (length p)), (Nat.leb_spec from (S (length p))),
      (Nat.leb_spec from (length p)); lia. }
  pose proof (move_to_at o k (p ++ [a]) q Hl ltac:(eauto) ltac:(by rewrite <- app_assoc)) as Hm.
  destruct (move_to_status o k (length (p ++ [a]))) as [Hs1 Hs2]; [eauto|].
  destruct (move_to o k (length (p ++ [a]))) as [m o']; simpl in *; subst o'.
  exists p, q. unfold keys; simpl. split_and!; [by rewrite <- app_assoc|by rewrite Hf|done..].
Qed.
End lemmas.

Lemma move_before_spec_witness :
  let o := foldl apply_op empty_order
    [OpInsert 1 10; OpInsert 2 20; OpInsert 3 30; OpInsert 4 40; OpRemove 2; OpInsert 2 21] in
  keys o = [1; 3; 4; 2] ∧ keys (move_before o 1 4).2 = [3; 1; 4; 2] ∧
  ∃ l1 l2, keys (move_before o 1 4).2 = l1 ++ 1 :: 4 :: l2.
Proof.
  split; [reflexivity|]. split; [reflexivity|].
  assert (Hne : 1 ≠ 4) by lia.
  destruct (move_before_spec (K := nat) (H := nat) (foldl apply_op empty_order
    [OpInsert 1 10; OpInsert 2 20; OpInsert 3 30; OpInsert 4 40; OpRemove 2; OpInsert 2 21]) 1 4
    (ops_lockstep _ _ empty_lockstep) Hne) as (l1 & l2 & Hm & _).
  exists l1, l2. exact Hm.
Defined.
