(* ===== verification/EdgeSet.v ===== *)
(** * EdgeSet and PendingQueue: the kernel's indexed containers

    Models the two containers of include/lazily/context.hpp that the reactive
    graph keeps its edges and its effect schedule in. [EdgeSet] is a vector of
    distinct ids that promotes itself to an open-addressing hash index;
    [PendingQueue] is a deque with an optional position index. Both are related
    to their index-free readings ([vec_insert], [vec_remove]): the index changes
    the cost and never the contents. *)
From S2P Require Import Prelude.
Local Open Scope Z_scope.

Module EdgeSet.

(* include/lazily/context.hpp:136-138, LAZILY_EDGE_INDEX_PROMOTE *)
Definition kPromote : nat := 32.
(* include/lazily/context.hpp:146-148, LAZILY_EDGE_INDEX_DEMOTE *)
Definition kDemote : nat := 8.
(* include/lazily/context.hpp:302-302, EdgeSet::kTomb *)
Definition kTomb : Z := 0xFFFFFFFF.
(* include/lazily/context.hpp:303-303, EdgeSet::kPosMax *)
Definition kPosMax : Z := 0xFFFFFFFE.

(** Hash slots are [uint32_t]: 0 = empty, [kTomb] = deleted, else position + 1. *)
(* include/lazily/context.hpp:292-295, EdgeSet::Index *)
Record Index := mkIndex { slots : list Z; live : nat; tomb : nat }.

(* include/lazily/context.hpp:357-361, EdgeSet *)
Record EdgeSet := mkEdgeSet { edges_ : list Z; index_ : option Index }.

Definition empty : EdgeSet := mkEdgeSet [] None.

(* include/lazily/context.hpp:296-298, EdgeSet::Index::needs_rehash *)
Definition needs_rehash (ix : Index) : bool :=
  (length (slots ix) <=? (live ix + tomb ix) * 2)%nat || (length (slots ix) <=? tomb ix * 4)%nat.

(* include/lazily/context.hpp:308-315, EdgeSet::mix *)
Definition mix (x : Z) : Z :=
  let x := Z.lxor x (Z.shiftr x 33) in
  let x := u64 (x * 0xff51afd7ed558ccd) in
  let x := Z.lxor x (Z.shiftr x 29) in
  let x := u64 (x * 0xc4ceb9fe1a85ec53) in
  Z.lxor x (Z.shiftr x 32).

(** [size_t(mix(id.value)) & mask]. *)
Definition start (cap : nat) (id : Z) : nat := Z.to_nat (Z.land (mix id) (Z.of_nat cap - 1)).

(** [(i + 1) & mask]. *)
Definition next (cap : nat) (i : nat) : nat := Z.to_nat (Z.land (Z.of_nat i + 1) (Z.of_nat cap - 1)).

(** The probe loop: [None] is a loop that has not returned within the fuel,
    [Some None] is [kNpos]. *)
Fixpoint probe_from (fuel : nat) (edges : list Z) (sl : list Z) (id : Z) (i : nat) : option (option nat) :=
  match fuel with
  | O => None
  | S fuel =>
      match sl !! i with
      | None => None
      | Some v =>
          if v =? 0 then Some None
          else if negb (v =? kTomb) && bool_decide (edges !! Z.to_nat (v - 1) = Some id) then Some (Some i)
          else probe_from fuel edges sl id (next (length sl) i)
      end
  end.

(* include/lazily/context.hpp:319-328, EdgeSet::probe *)
Definition probe (edges : list Z) (ix : Index) (id : Z) : option (option nat) :=
  probe_from (length (slots ix)) edges (slots ix) id (start (length (slots ix)) id).

(* include/lazily/context.hpp:330-333, EdgeSet::lookup *)
Definition lookup (edges : list Z) (ix : Index) (id : Z) : option (option Z) :=
  match probe edges ix id with
  | None => None
  | Some None => Some None
  | Some (Some slot) => Some ((λ v, v - 1) <$> slots ix !! slot)
  end.

Fixpoint place_from (fuel : nat) (sl : list Z) (i : nat) : option nat :=
  match fuel with
  | O => None
  | S fuel =>
      match sl !! i with
      | None => None
      | Some v => if (v =? 0) || (v =? kTomb) then Some i else place_from fuel sl (next (length sl) i)
      end
  end.

(** [static_cast<uint32_t>(pos + 1)]. *)
Definition slot_value (pos : nat) : Z := (Z.of_nat pos + 1) mod two32.

(* include/lazily/context.hpp:336-343, EdgeSet::place *)
Definition place (ix : Index) (id : Z) (pos : nat) : option Index :=
  i ← place_from (length (slots ix)) (slots ix) (start (length (slots ix)) id);
  Some (mkIndex (<[i := slot_value pos]> (slots ix)) (live ix)
    (if bool_decide (slots ix !! i = Some kTomb) then (tomb ix - 1)%nat else tomb ix)).

(** [while (cap < edges_.size() * 4) cap <<= 1]; the fuel bounds the doublings. *)
Fixpoint grow (fuel cap n : nat) : nat :=
  match fuel with
  | O => cap
  | S fuel => if (cap <? n * 4)%nat then grow fuel (cap * 2) n else cap
  end.

Fixpoint place_all (ix : Index) (edges : list Z) (i : nat) : option Index :=
  match edges with
  | [] => Some ix
  | id :: edges => ix' ← place ix id i; place_all ix' edges (S i)
  end.

(* include/lazily/context.hpp:345-355, EdgeSet::rebuild_index *)
Definition rebuild_index (edges : list Z) : option Index :=
  let cap := grow (length edges) 16 (length edges) in
  place_all (mkIndex (replicate cap 0) (length edges) 0) edges 0.

(* include/lazily/context.hpp:212-231, EdgeSet::insert *)
Definition insert (e : EdgeSet) (id : Z) : option (bool * EdgeSet) :=
  match index_ e with
  | Some ix =>
      found ← lookup (edges_ e) ix id;
      if found is Some _ then Some (false, e)
      else
        let edges := edges_ e ++ [id] in
        ix ← place (mkIndex (slots ix) (S (live ix)) (tomb ix)) id (length edges - 1);
        if needs_rehash ix then
          ix' ← rebuild_index edges; Some (true, mkEdgeSet edges (Some ix'))
        else Some (true, mkEdgeSet edges (Some ix))
  | None =>
      if bool_decide (id ∈ edges_ e) then Some (false, e)
      else
        let edges := edges_ e ++ [id] in
        if ((kPromote <=? length edges)%nat && (Z.of_nat (length edges) <? kPosMax))%bool then
          ix ← rebuild_index edges; Some (true, mkEdgeSet edges (Some ix))
        else Some (true, mkEdgeSet edges None)
  end.

(* include/lazily/context.hpp:234-289, EdgeSet::remove *)
Definition remove (e : EdgeSet) (id : Z) : option (bool * EdgeSet) :=
  match index_ e with
  | None =>
      match index_of id (edges_ e) with
      | Some i => Some (true, mkEdgeSet (swap_remove i (edges_ e)) None)
      | None => Some (false, e)
      end
  | Some ix =>
      slot ← probe (edges_ e) ix id;
      match slot with
      | None => Some (false, e)
      | Some slot =>
          v ← slots ix !! slot;
          let pos := Z.to_nat (v - 1) in
          (* tombstone the departing id before the swap *)
          let ix := mkIndex (<[slot := kTomb]> (slots ix)) (live ix - 1) (S (tomb ix)) in
          let last_ := (length (edges_ e) - 1)%nat in
          r ← (if (pos =? last_)%nat then Some (edges_ e, ix)
               else
                 moved ← edges_ e !! last_;
                 let edges := <[pos := moved]> (edges_ e) in
                 moved_slot ← probe edges ix moved;
                 Some (edges,
                   match moved_slot with
                   | Some ms => mkIndex (<[ms := slot_value pos]> (slots ix)) (live ix) (tomb ix)
                   | None => ix
                   end));
          let '(edges, ix) := r in
          let edges := pop_back edges in
          if (length edges <=? kDemote)%nat then Some (true, mkEdgeSet edges None)
          else if needs_rehash ix then
            ix' ← rebuild_index edges; Some (true, mkEdgeSet edges (Some ix'))
          else Some (true, mkEdgeSet edges (Some ix))
      end
  end.

(* include/lazily/context.hpp:206-209, EdgeSet::clear *)
Definition clear (e : EdgeSet) : EdgeSet := empty.

(** ** Correctness of the index *)

(** The [j]-th slot of the probe sequence that starts at [h]. *)
Definition at_ (cap h j : nat) : nat := ((h + j) mod cap)%nat.

(** What the index promises about the vector it indexes: every slot is empty,
    a tombstone or a position; a position is held by one slot only; and every
    element is reached from its start without crossing an empty slot. *)
Record idx_inv (edges : list Z) (sl : list Z) : Prop := {
  inv_cap : ∃ k, length sl = (2 ^ k)%nat;
  inv_len : Z.of_nat (length edges) < kPosMax;
  inv_nodup : NoDup edges;
  inv_valid : ∀ i v, sl !! i = Some v → v = 0 ∨ v = kTomb ∨ 1 ≤ v ≤ Z.of_nat (length edges);
  inv_uniq : ∀ i j v, sl !! i = Some v → sl !! j = Some v → v ≠ 0 → v ≠ kTomb → i = j;
  inv_reach : ∀ p id, edges !! p = Some id → ∃ j, (j < length sl)%nat ∧
    sl !! at_ (length sl) (start (length sl) id) j = Some (slot_value p) ∧
    ∀ m, (m < j)%nat → sl !! at_ (length sl) (start (length sl) id) m ≠ Some 0;
}.

(** The counters are exact and leave room for a probe to stop. *)
Definition index_ok (edges : list Z) (ix : Index) : Prop :=
  idx_inv edges (slots ix) ∧ live ix = length edges ∧
  occ (λ v, v ≠ 0) (slots ix) = (live ix + tomb ix)%nat ∧
  occ (λ v, v = kTomb) (slots ix) = tomb ix ∧ needs_rehash ix = false.

Definition edge_set_ok (e : EdgeSet) : Prop :=
  match index_ e with Some ix => index_ok (edges_ e) ix | None => NoDup (edges_ e) end.

Implicit Types (edges sl : list Z) (id v : Z) (e : EdgeSet) (ix : Index).

Lemma slot_value_small edges p :
  Z.of_nat (length edges) < kPosMax → (p < length edges)%nat → slot_value p = Z.of_nat p + 1.
Proof. unfold slot_value, kPosMax, two32. intros. rewrite Z.mod_small; lia. Qed.

Lemma land_mask k x : Z.to_nat (Z.land x (Z.of_nat (2 ^ k) - 1)) = Z.to_nat (x mod 2 ^ Z.of_nat k).
Proof.
  f_equal. rewrite <- Z.land_ones by lia. f_equal. rewrite Z.ones_equiv.
  rewrite Nat2Z.inj_pow. lia.
Qed.

Lemma start_lt cap id k : cap = (2 ^ k)%nat → (start cap id < cap)%nat.
Proof.
  intros ->. unfold start. rewrite land_mask.
  pose proof (Z.mod_pos_bound (mix id) (2 ^ Z.of_nat k) (Z.pow_pos_nonneg 2 (Z.of_nat k) ltac:(lia) ltac:(lia))).
  pose proof (Nat2Z.inj_pow 2 k). lia.
Qed.

Lemma next_at cap h j k : cap = (2 ^ k)%nat → next cap (at_ cap h j) = at_ cap h (S j).
Proof.
  intros ->. unfold next, at_. rewrite land_mask.
  assert (Hs : ((h + S j) mod 2 ^ k = ((h + j) mod 2 ^ k + 1) mod 2 ^ k)%nat).
  { rewrite Nat.Div0.add_mod_idemp_l. f_equal. lia. }
  rewrite Hs. set (x := ((h + j) mod 2 ^ k)%nat). apply Nat2Z.inj.
  rewrite Z2Nat.id by (apply Z.mod_pos_bound, Z.pow_pos_nonneg; lia).
  by rewrite Nat2Z.inj_mod, Nat2Z.inj_pow, Nat2Z.inj_add.
Qed.

Lemma at_lt cap h j k : cap = (2 ^ k)%nat → (at_ cap h j < cap)%nat.
Proof. intros ->. apply Nat.mod_upper_bound. by apply Nat.pow_nonzero. Qed.

Lemma at_0 cap h : (h < cap)%nat → at_ cap h 0 = h.
Proof. intros. unfold at_. by rewrite Nat.add_0_r, Nat.mod_small. Qed.

Lemma at_inj cap h i j : (i < cap)%nat → (j < cap)%nat → at_ cap h i = at_ cap h j → i = j.
Proof.
  unfold at_. intros Hi Hj Heq.
  pose proof (Nat.div_mod_eq (h + i) cap). pose proof (Nat.div_mod_eq (h + j) cap).
  rewrite Heq in *. set (q1 := ((h + i) / cap)%nat) in *. set (q2 := ((h + j) / cap)%nat) in *.
  destruct (Nat.lt_total q1 q2) as [Hq|[Hq|Hq]]; [|by rewrite Hq in *; lia|].
  - pose proof (Nat.mul_le_mono_l (S q1) q2 cap Hq). lia.
  - pose proof (Nat.mul_le_mono_l (S q2) q1 cap Hq). lia.
Qed.

(** Every slot lies on every probe sequence. *)
Lemma at_onto cap h i : (h < cap)%nat → (i < cap)%nat → ∃ j, (j < cap)%nat ∧ at_ cap h j = i.
Proof.
  intros Hh Hi. destruct (decide (h ≤ i)%nat).
  - exists (i - h)%nat. split; [lia|]. unfold at_.
    replace (h + (i - h))%nat with i by lia. by apply Nat.mod_small.
  - exists (i + cap - h)%nat. split; [lia|]. unfold at_.
    replace (h + (i + cap - h))%nat with (i + 1 * cap)%nat by lia.
    rewrite Nat.Div0.mod_add. by apply Nat.mod_small.
Qed.

(** The two loops stop at the first slot of the sequence they are looking for. *)
Definition hits (edges : list Z) (id v : Z) : Prop :=
  v ≠ kTomb ∧ edges !! Z.to_nat (v - 1) = Some id.

#[local] Instance hits_dec edges id v : Decision (hits edges id v).
Proof. unfold hits. apply _. Defined.

Lemma probe_from_first edges sl id k h j v fuel :
  length sl = (2 ^ k)%nat → (h < length sl)%nat → (j < fuel)%nat →
  (∀ m, (m < j)%nat → ∃ v, sl !! at_ (length sl) h m = Some v ∧ v ≠ 0 ∧ ¬ hits edges id v) →
  sl !! at_ (length sl) h j = Some v → v = 0 ∨ hits edges id v →
  probe_from fuel edges sl id h =
    Some (if decide (v = 0) then None else Some (at_ (length sl) h j)).
Proof.
  intros Hc Hh Hf Hbefore Hj Hv.
  cut (∀ n, (n ≤ j)%nat → probe_from (fuel - n) edges sl id (at_ (length sl) h n) =
    Some (if decide (v = 0) then None else Some (at_ (length sl) h j))).
  { intros Hn. specialize (Hn 0%nat). rewrite Nat.sub_0_r, at_0 in Hn by done. apply Hn. lia. }
  intros n Hn. remember (j - n)%nat as d eqn:Hd. revert n Hn Hd.
  induction d as [|d IH]; intros n Hn Hd; destruct (fuel - n)%nat as [|f] eqn:Hfn; try lia; simpl.
  - assert (n = j) as -> by lia. rewrite Hj. destruct (Z.eqb_spec v 0); [by rewrite decide_True|].
    rewrite decide_False by done. destruct Hv as [?|[Ht He]]; [done|].
    rewrite (proj2 (Z.eqb_neq v kTomb) Ht), bool_decide_eq_true_2 by done. done.
  - destruct (Hbefore n) as (w & Hw & Hw0 & Hwh); [lia|]. rewrite Hw.
    destruct (Z.eqb_spec w 0); [done|].
    assert ((negb (w =? kTomb) && bool_decide (edges !! Z.to_nat (w - 1) = Some id)) = false) as ->.
    { apply andb_false_iff. destruct (Z.eqb_spec w kTomb); [by left|right].
      apply bool_decide_eq_false. intros ?. by apply Hwh. }
    rewrite (next_at _ h n k) by done. specialize (IH (S n) ltac:(lia) ltac:(lia)).
    by replace (fuel - S n)%nat with f in IH by lia.
Qed.

Lemma place_from_first sl k h j v fuel :
  length sl = (2 ^ k)%nat → (h < length sl)%nat → (j < fuel)%nat →
  (∀ m, (m < j)%nat → ∃ v, sl !! at_ (length sl) h m = Some v ∧ v ≠ 0 ∧ v ≠ kTomb) →
  sl !! at_ (length sl) h j = Some v → v = 0 ∨ v = kTomb →
  place_from fuel sl h = Some (at_ (length sl) h j).
Proof.
  intros Hc Hh Hf Hbefore Hj Hv.
  cut (∀ n, (n ≤ j)%nat → place_from (fuel - n) sl (at_ (length sl) h n) = Some (at_ (length sl) h j)).
  { intros Hn. specialize (Hn 0%nat). rewrite Nat.sub_0_r, at_0 in Hn by done. apply Hn. lia. }
  intros n Hn. remember (j - n)%nat as d eqn:Hd. revert n Hn Hd.
  induction d as [|d IH]; intros n Hn Hd; destruct (fuel - n)%nat as [|f] eqn:Hfn; try lia; simpl.
  - assert (n = j) as -> by lia. rewrite Hj. destruct Hv as [-> | ->]; [done|].
    by rewrite Z.eqb_refl, orb_true_r.
  - destruct (Hbefore n) as (w & Hw & Hw0 & Hwt); [lia|]. rewrite Hw.
    rewrite (proj2 (Z.eqb_neq _ _) Hw0), (proj2 (Z.eqb_neq _ _) Hwt). simpl.
    rewrite (next_at _ h n k) by done. specialize (IH (S n) ltac:(lia) ltac:(lia)).
    by replace (fuel - S n)%nat with f in IH by lia.
Qed.

Lemma slot_lookup_at sl h m k : length sl = (2 ^ k)%nat → ∃ v, sl !! at_ (length sl) h m = Some v.
Proof. intros Hk. apply lookup_lt_is_Some_2. by eapply at_lt. Qed.

Section probe.
  Context (edges sl : list Z) (Hinv : idx_inv edges sl).

Lemma idx_hits_uniq p id i v :
  edges !! p = Some id → sl !! i = Some v → v ≠ 0 → hits edges id v → v = slot_value p.
Proof.
  intros Hp Hi Hv0 [Ht He]. pose proof (inv_valid _ _ Hinv i v Hi) as [?|[?|Hv]]; [done..|].
  pose proof (NoDup_lookup _ _ _ _ (inv_nodup _ _ Hinv) He Hp) as <-.
  rewrite (slot_value_small edges); [lia|apply Hinv|lia].
Qed.

Lemma slot_value_pos p : (p < length edges)%nat → slot_value p ≠ 0 ∧ slot_value p ≠ kTomb.
Proof.
  intros Hp. rewrite (slot_value_small edges) by (done || apply Hinv).
  pose proof (inv_len _ _ Hinv). unfold kPosMax, kTomb in *. lia.
Qed.

Lemma slot_value_hits p id : edges !! p = Some id → hits edges id (slot_value p).
Proof.
  intros Hp. pose proof (lookup_lt_Some _ _ _ Hp) as Hl. split; [by apply slot_value_pos|].
  rewrite (slot_value_small edges) by (done || apply Hinv). by replace (Z.to_nat _) with p by lia.
Qed.

(** An element is found at the slot that holds its position. *)
Lemma probe_present ix p id :
  slots ix = sl → edges !! p = Some id →
  ∃ i, probe edges ix id = Some (Some i) ∧ sl !! i = Some (slot_value p).
Proof.
  intros Hs Hp. destruct (inv_cap _ _ Hinv) as [k Hk].
  destruct (inv_reach _ _ Hinv p id Hp) as (j & Hj & Hsj & Hbefore).
  pose proof (lookup_lt_Some _ _ _ Hp) as Hpl. destruct (slot_value_pos p Hpl) as [Hn0 Hnt].
  exists (at_ (length sl) (start (length sl) id) j). split; [|done].
  unfold probe. rewrite Hs. rewrite (probe_from_first _ _ _ k _ j (slot_value p)); try done.
  - by rewrite decide_False.
  - by eapply start_lt.
  - intros m Hm. destruct (slot_lookup_at sl (start (length sl) id) m k Hk) as [v Hv].
    exists v. split_and!; [done| |].
    + intros ->. by apply (Hbefore m).
    + intros Hh. assert (v ≠ 0) as Hv0 by (intros ->; by apply (Hbefore m)).
      rewrite (idx_hits_uniq p id _ v Hp Hv Hv0 Hh) in Hv.
      pose proof (inv_uniq _ _ Hinv _ _ _ Hv Hsj Hn0 Hnt) as Heq.
      apply at_inj in Heq; lia.
  - right. by apply slot_value_hits.
Qed.

(** An absent element is reported absent, as soon as one slot is empty. *)
Lemma probe_absent ix id :
  slots ix = sl → id ∉ edges → (∃ i, sl !! i = Some 0) → probe edges ix id = Some None.
Proof.
  intros Hs Hid [i0 Hi0]. destruct (inv_cap _ _ Hinv) as [k Hk].
  set (h := start (length sl) id). assert (Hh : (h < length sl)%nat) by by eapply start_lt.
  destruct (at_onto (length sl) h i0 Hh (lookup_lt_Some _ _ _ Hi0)) as (j0 & Hj0 & Hat).
  destruct (least_such (λ j, sl !! at_ (length sl) h j = Some 0) j0) as (j & Hjle & Hj & Hbefore);
    [by rewrite Hat|].
  unfold probe. rewrite Hs. fold h. rewrite (probe_from_first _ _ _ k _ j 0); try done; [lia| |by left].
  intros m Hm. destruct (slot_lookup_at sl h m k Hk) as [v Hv]. exists v.
  split_and!; [done|intros ->; by apply (Hbefore m)|].
  intros [_ He]. apply list_elem_of_lookup_2 in He. done.
Qed.

(** Placing a new last element keeps the promise of the index. *)
Lemma place_inv ix id :
  slots ix = sl → id ∉ edges → Z.of_nat (S (length edges)) < kPosMax → (∃ i, sl !! i = Some 0) →
  ∃ i x, sl !! i = Some x ∧ (x = 0 ∨ x = kTomb) ∧
    place ix id (length edges) = Some (mkIndex (<[i := slot_value (length edges)]> sl) (live ix)
      (if decide (x = kTomb) then (tomb ix - 1)%nat else tomb ix)) ∧
    idx_inv (edges ++ [id]) (<[i := slot_value (length edges)]> sl).
Proof.
  intros Hs Hid Hlen [i0 Hi0]. destruct (inv_cap _ _ Hinv) as [k Hk].
  set (h := start (length sl) id). assert (Hh : (h < length sl)%nat) by by eapply start_lt.
  destruct (at_onto (length sl) h i0 Hh (lookup_lt_Some _ _ _ Hi0)) as (j0 & Hj0 & Hat).
  destruct (least_such (λ j, sl !! at_ (length sl) h j = Some 0 ∨ sl !! at_ (length sl) h j = Some kTomb) j0)
    as (j & Hjle & Hj & Hbefore); [left; by rewrite Hat|].
  set (i := at_ (length sl) h j) in *. destruct (slot_lookup_at sl h j k Hk) as [x Hx]. fold i in Hx.
  assert (Hx' : x = 0 ∨ x = kTomb) by (rewrite Hx in Hj; naive_solver).
  assert (Hil : (i < length sl)%nat) by by eapply lookup_lt_Some.
  assert (Hsv : slot_value (length edges) = Z.of_nat (length edges) + 1).
  { apply (slot_value_small (edges ++ [id])); rewrite length_app; simpl; lia. }
  exists i, x. split_and!; [done|done| |].
  - unfold place. rewrite Hs. fold h. rewrite (place_from_first sl k h j x); try done; [|lia|].
    + simpl. fold i. rewrite Hx. do 2 f_equal. case_bool_decide; case_decide; naive_solver.
    + intros m Hm. destruct (slot_lookup_at sl h m k Hk) as [v Hv]. exists v. specialize (Hbefore m Hm).
      rewrite Hv in Hbefore. split_and!; [done|naive_solver..].
  - constructor; rewrite ?length_insert.
    + eauto.
    + rewrite length_app. simpl. lia.
    + apply NoDup_app. split_and!; [apply Hinv| |apply NoDup_singleton].
      intros y ? ->%list_elem_of_singleton. done.
    + intros i' v. rewrite length_app, list_lookup_insert. case_decide as Hd.
      * intros [= <-]. right; right. simpl. lia.
      * intros [?|[?|?]]%(inv_valid _ _ Hinv); simpl; auto. right; right. lia.
    + intros a b v. rewrite !list_lookup_insert. 
      assert (Hfresh : ∀ c, sl !! c ≠ Some (slot_value (length edges))).
      { intros c Hc. apply (inv_valid _ _ Hinv) in Hc. unfold kTomb, kPosMax in *. lia. }
      repeat case_decide; [by destruct_and?; subst|..].
      * intros [= <-] Hb. by apply Hfresh in Hb.
      * intros Ha [= <-]. by apply Hfresh in Ha.
      * apply (inv_uniq _ _ Hinv).
    + intros p id' Hp. apply lookup_app_Some in Hp as [Hp|[Hge Hp]].
      * destruct (inv_reach _ _ Hinv p id' Hp) as (j' & Hj' & Hsj & Hb). exists j'. split; [done|].
        destruct (slot_value_pos p (lookup_lt_Some _ _ _ Hp)).
        split.
        { rewrite list_lookup_insert_ne; [done|]. intros Heq. rewrite <- Heq in Hsj.
          rewrite Hx in Hsj. injection Hsj as ->. by destruct Hx'. }
        intros m Hm. rewrite list_lookup_insert. case_decide; [|by apply Hb].
        intros [= Hz]. lia.
      * apply list_lookup_singleton_Some in Hp as [Hp ->]. assert (p = length edges) as -> by lia.
        exists j. split; [lia|]. fold h. fold i. split; [by rewrite list_lookup_insert_eq|].
        intros m Hm. rewrite list_lookup_insert. case_decide; [intros [= Hz]; lia|].
        intros Hz. apply (Hbefore m); auto.
Qed.

End probe.

Lemma empty_slot_exists sl n :
  occ (λ v, v ≠ 0) sl = n → (n < length sl)%nat → ∃ i, sl !! i = Some 0.
Proof.
  intros <- Hlt. apply occ_lt_elem in Hlt as (i & x & Hi & Hx).
  exists i. apply dec_stable in Hx. by subst.
Qed.

Lemma needs_rehash_false ix :
  needs_rehash ix = false → ((live ix + tomb ix) * 2 < length (slots ix))%nat ∧
    (tomb ix * 4 < length (slots ix))%nat.
Proof. unfold needs_rehash. intros [H1 H2]%orb_false_iff. zify_bools. lia. Qed.

(** ** Rebuilding *)

Lemma grow_spec fuel cap n :
  (4 * n ≤ cap * 2 ^ fuel)%nat → ∃ k, grow fuel cap n = (cap * 2 ^ k)%nat ∧ (4 * n ≤ grow fuel cap n)%nat.
Proof.
  revert cap. induction fuel as [|fuel IH]; intros cap Hn; simpl in *.
  - exists 0%nat. simpl. lia.
  - destruct (Nat.ltb_spec cap (n * 4)); [|exists 0%nat; simpl; lia].
    destruct (IH (cap * 2)%nat) as (k & -> & ?); [lia|]. exists (S k). simpl. lia.
Qed.

Lemma place_all_spec rest : ∀ edges ix,
  idx_inv edges (slots ix) → NoDup (edges ++ rest) → Z.of_nat (length (edges ++ rest)) < kPosMax →
  occ (λ v, v ≠ 0) (slots ix) = length edges → occ (λ v, v = kTomb) (slots ix) = 0%nat → tomb ix = 0%nat →
  (length (edges ++ rest) < length (slots ix))%nat →
  ∃ ix', place_all ix rest (length edges) = Some ix' ∧ idx_inv (edges ++ rest) (slots ix') ∧
    occ (λ v, v ≠ 0) (slots ix') = length (edges ++ rest) ∧ occ (λ v, v = kTomb) (slots ix') = 0%nat ∧
    tomb ix' = 0%nat ∧ live ix' = live ix ∧ length (slots ix') = length (slots ix).
Proof.
  induction rest as [|id rest IH]; intros edges ix Hinv Hnd Hlen Hnz Ht Htomb Hcap.
  { rewrite app_nil_r in *. simpl. eauto 10. }
  rewrite length_app in Hlen, Hcap. simpl in Hlen, Hcap.
  assert (Hid : id ∉ edges).
  { apply NoDup_app in Hnd as (_ & Hd & _). intros Hin. apply (Hd id Hin). by left. }
  destruct (place_inv edges (slots ix) Hinv ix id) as (i & x & Hi & Hx & Hpl & Hinv'); [done|done|lia|apply (empty_slot_exists _ _ Hnz); lia|].
  assert (x = 0) as ->.
  { destruct Hx as [?|Hx]; [done|]. exfalso. subst.
    assert (kTomb ∈ filter (λ v, v = kTomb) (slots ix)) as Hin.
    { apply list_elem_of_filter. split; [done|]. by eapply list_elem_of_lookup_2. }
    unfold occ in Ht. apply nil_length_inv in Ht. rewrite Ht in Hin. by apply elem_of_nil in Hin. }
  simpl. rewrite Hpl. simpl.
  destruct (slot_value_pos (edges ++ [id]) _ Hinv' (length edges)) as [Hs0 Hst];
    [rewrite length_app; simpl; lia|].
  pose proof (occ_insert (λ v, v ≠ 0) _ _ _ (slot_value (length edges)) Hi) as Ho1.
  pose proof (occ_insert (λ v, v = kTomb) _ _ _ (slot_value (length edges)) Hi) as Ho2.
  repeat case_decide; try done; [].
  destruct (IH (edges ++ [id]) (mkIndex (<[i:=slot_value (length edges)]> (slots ix)) (live ix) (tomb ix)))
    as (ix' & Hall & ? & ? & ? & ? & ? & Hl); simpl; rewrite <- ?app_assoc; simpl; try done.
  - rewrite length_app. simpl. lia.
  - rewrite length_app. simpl. lia.
  - lia.
  - rewrite length_insert, length_app. simpl. lia.
  - exists ix'. rewrite length_app in Hall. simpl in Hall. rewrite Nat.add_1_r in Hall.
    rewrite <- app_assoc in *. simpl in *. rewrite length_insert in Hl. eauto 10.
Qed.

Lemma rebuild_ok edges :
  NoDup edges → Z.of_nat (length edges) < kPosMax → ∃ ix, rebuild_index edges = Some ix ∧ index_ok edges ix.
Proof.
  intros Hnd Hlen. unfold rebuild_index. set (n := length edges) in *.
  destruct (grow_spec n 16 n) as (k & Hk & Hge).
  { pose proof (Nat.pow_gt_lin_r 2 n). lia. }
  set (cap := grow n 16 n) in *. assert (16 ≤ cap)%nat by (pose proof (Nat.pow_nonzero 2 k ltac:(done)); nia).
  destruct (place_all_spec edges [] (mkIndex (replicate cap 0) n 0)) as (ix' & Hall & Hinv & Hnz & Ht & Htm & Hlv & Hl);
    simpl; rewrite ?length_replicate; try done.
  - constructor; rewrite ?length_replicate; simpl; try (lia || by constructor).
    + exists (4 + k)%nat. rewrite Hk, Nat.pow_add_r. simpl. lia.
    + intros i v [-> _]%lookup_replicate. by left.
    + intros i j v [-> _]%lookup_replicate. done.
    + done.
  - apply occ_replicate. tauto.
  - by apply occ_replicate.
  - fold n. lia.
  - exists ix'. split; [done|]. simpl in *. split_and!; try done.
    + rewrite Hnz, Hlv, Htm. simpl. unfold n. lia.
    + by rewrite Ht, Htm.
    + unfold needs_rehash. rewrite Hl, Hlv, Htm. apply orb_false_iff.
      rewrite length_replicate. split; apply Nat.leb_gt; simpl; lia.
Qed.

Lemma rehash_ok edges ix :
  idx_inv edges (slots ix) → live ix = length edges →
  occ (λ v, v ≠ 0) (slots ix) = (live ix + tomb ix)%nat → occ (λ v, v = kTomb) (slots ix) = tomb ix →
  ∃ e, (if needs_rehash ix then ix' ← rebuild_index edges; Some (true, mkEdgeSet edges (Some ix'))
        else Some (true, mkEdgeSet edges (Some ix))) = Some (true, e) ∧ edges_ e = edges ∧ edge_set_ok e.
Proof.
  intros Hinv Hl Hnz Ht. destruct (needs_rehash ix) eqn:Hr; [|by eexists; split_and!].
  destruct (rebuild_ok edges) as (ix' & -> & Hok); [apply Hinv..|]. by eexists; split_and!.
Qed.

(** ** The operations refine the index-free ones *)

Lemma edge_set_nodup e : edge_set_ok e → NoDup (edges_ e).
Proof. unfold edge_set_ok. destruct (index_ e); [by intros [[] _]|done]. Qed.

Lemma insert_refines e id :
  edge_set_ok e → Z.of_nat (S (length (edges_ e))) < kPosMax →
  ∃ e', insert e id = Some ((vec_insert id (edges_ e)).1, e') ∧
    edges_ e' = (vec_insert id (edges_ e)).2 ∧ edge_set_ok e'.
Proof.
  unfold insert, vec_insert. destruct e as [edges [ix|]]; simpl; intros Hok Hlen.
  - pose proof Hok as (Hinv & Hl & Hnz & Ht & Hr). cbn [edges_] in *. apply needs_rehash_false in Hr.
    unfold lookup. destruct (index_of id edges) as [p|] eqn:Hid; simpl.
    + apply index_of_Some_lookup in Hid.
      destruct (probe_present _ _ Hinv ix p id eq_refl Hid) as (i & -> & Hi). simpl.
      rewrite Hi. by eexists; split_and!.
    + apply index_of_None in Hid. assert (∃ i, slots ix !! i = Some 0) as Hz.
      { apply (empty_slot_exists _ _ Hnz). lia. }
      rewrite (probe_absent _ _ Hinv) by done. simpl.
      destruct (place_inv _ _ Hinv (mkIndex (slots ix) (S (live ix)) (tomb ix)) id)
        as (i & x & Hi & Hx & Hpl & Hinv'); [done..|].
      replace (length (edges ++ [id]) - 1)%nat with (length edges) by (rewrite length_app; simpl; lia).
      rewrite Hpl. simpl.
      destruct (slot_value_pos _ _ Hinv' (length edges)) as [Hs0 Hst]; [rewrite length_app; simpl; lia|].
      pose proof (occ_insert (λ v, v ≠ 0) _ _ _ (slot_value (length edges)) Hi) as Ho1.
      pose proof (occ_insert (λ v, v = kTomb) _ _ _ (slot_value (length edges)) Hi) as Ho2.
      apply rehash_ok; simpl; [done|rewrite length_app; simpl; lia|..];
        destruct Hx as [-> | ->]; repeat case_decide; try done; lia.
  - destruct (index_of id edges) as [p|] eqn:Hid.
    + apply index_of_Some_lookup, list_elem_of_lookup_2 in Hid. rewrite bool_decide_eq_true_2 by done.
      by eexists; split_and!.
    + apply index_of_None in Hid. rewrite bool_decide_eq_false_2 by done.
      assert (NoDup (edges ++ [id])).
      { apply NoDup_app. split_and!; [done| |apply NoDup_singleton]. by intros y ? ->%list_elem_of_singleton. }
      case_match; [|by eexists; split_and!].
      destruct (rebuild_ok (edges ++ [id])) as (ix & -> & Hok'); [done|rewrite length_app; simpl; lia|].
      by eexists; split_and!.
Qed.

(** Tombstoning the slot of the element at position [p]. *)
Lemma tombstone_slot edges sl slot p id :
  idx_inv edges sl → edges !! p = Some id → sl !! slot = Some (slot_value p) →
  ∀ q, q ≠ p → (q < length edges)%nat → ∀ i, sl !! i = Some (slot_value q) →
    <[slot := kTomb]> sl !! i = Some (slot_value q).
Proof.
  intros Hinv Hp Hs q Hq Hql i Hi. rewrite list_lookup_insert_ne; [done|]. intros ->.
  rewrite Hi in Hs. injection Hs as Heq. pose proof (lookup_lt_Some _ _ _ Hp).
  rewrite !(slot_value_small edges) in Heq by (done || apply Hinv). lia.
Qed.

(** The index with the slot of position [p] deleted and the last position renamed to [p]. *)
Lemma remove_inv_last edges sl slot id :
  idx_inv (edges ++ [id]) sl → sl !! slot = Some (slot_value (length edges)) →
  idx_inv edges (<[slot := kTomb]> sl).
Proof.
  intros Hinv Hs. pose proof (inv_len _ _ Hinv) as Hlen. rewrite length_app in Hlen. simpl in Hlen.
  assert (Hp : (edges ++ [id]) !! length edges = Some id) by by rewrite list_lookup_middle.
  assert (Hsv : slot_value (length edges) = Z.of_nat (length edges) + 1).
  { apply (slot_value_small (edges ++ [id])); rewrite length_app; simpl; lia. }
  constructor; rewrite ?length_insert.
  - apply Hinv.
  - lia.
  - pose proof (inv_nodup _ _ Hinv) as Hnd. by apply NoDup_app in Hnd as [? _].
  - intros i v. rewrite list_lookup_insert. case_decide as Hd; [intros [= <-]; auto|].
    intros Hv. destruct (inv_valid _ _ Hinv i v Hv) as [?|[?|Hr]]; [by auto..|].
    rewrite length_app in Hr. simpl in Hr. right; right. split; [lia|].
    destruct (decide (v = slot_value (length edges))) as [->|]; [|lia].
    exfalso. apply Hd. split; [|by eapply lookup_lt_Some]. 
    apply (inv_uniq _ _ Hinv _ _ _ Hs Hv); unfold kTomb, kPosMax in *; lia.
  - intros i j v. rewrite !list_lookup_insert. repeat case_decide; try naive_solver. apply (inv_uniq _ _ Hinv).
  - intros q id' Hq. pose proof (lookup_lt_Some _ _ _ Hq) as Hql.
    destruct (inv_reach _ _ Hinv q id') as (j & Hj & Hsj & Hb); [by rewrite lookup_app_l|].
    exists j. split_and!; [done| |].
    + eapply tombstone_slot; [done|done|done|lia|rewrite length_app; simpl; lia|done].
    + intros m Hm. rewrite list_lookup_insert. case_decide; [done|]. by apply Hb.
Qed.

Section swap.
  Context (edges sl : list Z) (pos slot ms : nat) (id moved : Z).
  Context (Hinv : idx_inv edges sl) (Hpos : edges !! pos = Some id)
    (Hslot : sl !! slot = Some (slot_value pos)).
  Context (Hlast : edges !! (length edges - 1)%nat = Some moved) (Hne : pos ≠ (length edges - 1)%nat).

Lemma swap_pos_lt : (pos < length edges - 1)%nat.
Proof. pose proof (lookup_lt_Some _ _ _ Hpos). lia. Qed.

Lemma swap_slot_value q : (q < length edges)%nat → slot_value q = Z.of_nat q + 1.
Proof. intros. apply (slot_value_small edges); [apply Hinv|done]. Qed.

(** The probe for the moved element, run after the tombstone and the swap. *)
Lemma probe_moved ix :
  slots ix = <[slot := kTomb]> sl →
  ∃ ms, probe (<[pos := moved]> edges) ix moved = Some (Some ms) ∧
    sl !! ms = Some (slot_value (length edges - 1)) ∧ ms ≠ slot ∧
    ∃ j, (j < length sl)%nat ∧ at_ (length sl) (start (length sl) moved) j = ms ∧
      ∀ m, (m < j)%nat → sl !! at_ (length sl) (start (length sl) moved) m ≠ Some 0.
Proof.
  intros Hs. pose proof swap_pos_lt as Hlt. pose proof (inv_len _ _ Hinv) as Hlen.
  destruct (inv_cap _ _ Hinv) as [k Hk].
  destruct (inv_reach _ _ Hinv _ _ Hlast) as (j & Hj & Hsj & Hb).
  set (at' := at_ (length sl) (start (length sl) moved)) in *.
  assert (Hsl : at' j ≠ slot).
  { intros Heq. rewrite <- Heq, Hsj in Hslot. injection Hslot as Heq'.
    rewrite !swap_slot_value in Heq' by lia. lia. }
  exists (at' j). split_and!; [|done|done|by exists j].
  unfold probe. rewrite Hs, length_insert.
  rewrite (probe_from_first _ _ _ k _ j (slot_value (length edges - 1))); rewrite ?length_insert; try done.
  - rewrite decide_False; [done|]. rewrite swap_slot_value; lia.
  - by eapply start_lt.
  - intros m Hm. destruct (slot_lookup_at sl (start (length sl) moved) m k Hk) as [v Hv]. fold (at' m) in Hv.
    rewrite list_lookup_insert. case_decide as Hd.
    { exists kTomb. split_and!; [done|done|]. by intros [? _]. }
    exists v. fold (at' m). split_and!; [done|intros ->; by apply (Hb m)|]. intros [Ht He].
    destruct (inv_valid _ _ Hinv _ _ Hv) as [->|[?|Hr]]; [by apply (Hb m)|done|].
    rewrite list_lookup_insert in He. case_decide as Hd'.
    + destruct Hd' as [Hd' _]. apply Hd. split; [|by eapply lookup_lt_Some].
      eapply (inv_uniq _ _ Hinv); [exact Hslot|..]; [|rewrite swap_slot_value; unfold kTomb, kPosMax in *; lia..].
      etrans; [exact Hv|]. rewrite swap_slot_value by lia. f_equal. lia.
    + pose proof (NoDup_lookup _ _ _ _ (inv_nodup _ _ Hinv) He Hlast) as Heq.
      assert (Hvl : v = slot_value (length edges - 1)) by (rewrite swap_slot_value by lia; lia).
      assert (at' m = at' j) as Hat.
      { eapply (inv_uniq _ _ Hinv); [exact Hv|by rewrite Hvl|..]; rewrite Hvl, ?swap_slot_value;
        unfold kTomb, kPosMax in *; lia. }
      apply at_inj in Hat; lia.
  - by rewrite list_lookup_insert_ne.
  - right. split; [rewrite swap_slot_value; unfold kTomb, kPosMax in *; lia|].
    rewrite swap_slot_value by lia. replace (Z.to_nat _) with (length edges - 1)%nat by lia.
    by rewrite list_lookup_insert_ne.
Qed.

Lemma remove_inv_swap ms' :
  sl !! ms' = Some (slot_value (length edges - 1)) → ms' ≠ slot →
  (∃ j, (j < length sl)%nat ∧ at_ (length sl) (start (length sl) moved) j = ms' ∧
      ∀ m, (m < j)%nat → sl !! at_ (length sl) (start (length sl) moved) m ≠ Some 0) →
  idx_inv (swap_remove pos edges) (<[ms' := slot_value pos]> (<[slot := kTomb]> sl)).
Proof.
  intros Hms Hmne (j & Hj & Hjms & Hb). pose proof swap_pos_lt as Hlt. pose proof (inv_len _ _ Hinv) as Hlen.
  assert (Hsp : slot_value pos = Z.of_nat pos + 1) by (apply swap_slot_value; lia).
  assert (Hslst : slot_value (length edges - 1) = Z.of_nat (length edges)) by (rewrite swap_slot_value; lia).
  pose proof (lookup_lt_Some _ _ _ Hslot) as Hsll. pose proof (lookup_lt_Some _ _ _ Hms) as Hmsl.
  assert (Hlk : ∀ i, <[ms' := slot_value pos]> (<[slot := kTomb]> sl) !! i =
    if decide (i = ms') then Some (slot_value pos) else if decide (i = slot) then Some kTomb else sl !! i).
  { intros i. rewrite !list_lookup_insert, !length_insert. repeat case_decide; naive_solver. }
  assert (Hold : ∀ i v, sl !! i = Some v → i ≠ ms' → i ≠ slot → v ≠ 0 → v ≠ kTomb →
    v ≠ slot_value pos ∧ v ≠ slot_value (length edges - 1)).
  { intros i v Hv H1 H2 H3 H4. split; intros ->.
    - apply H2. by apply (inv_uniq _ _ Hinv _ _ _ Hv Hslot).
    - apply H1. by apply (inv_uniq _ _ Hinv _ _ _ Hv Hms). }
  assert (Hswl : ∀ q, (q < length edges - 1)%nat →
    swap_remove pos edges !! q = if decide (q = pos) then Some moved else edges !! q).
  { intros q Hq. unfold swap_remove. rewrite last_lookup, <- Nat.sub_1_r, Hlast.
    rewrite lookup_pop_back by (rewrite length_insert; lia). rewrite list_lookup_insert.
    repeat case_decide; try done; naive_solver lia. }
  constructor; rewrite ?length_insert, ?length_swap_remove.
  - apply Hinv.
  - lia.
  - pose proof (inv_nodup _ _ Hinv) as Hnd. rewrite <- (swap_remove_spec _ _ _ Hpos) in Hnd.
    by apply NoDup_cons in Hnd as [_ ?].
  - intros i v. rewrite Hlk. repeat case_decide; [intros [= <-]; lia|intros [= <-]; auto|].
    intros Hv. destruct (inv_valid _ _ Hinv i v Hv) as [?|[?|Hr]]; [by auto..|].
    destruct (Hold i v) as [_ Hv']; [done..|unfold kTomb, kPosMax in *; lia|unfold kTomb, kPosMax in *; lia|].
    rewrite Hslst in Hv'. right; right. lia.
  - intros i i' v. rewrite !Hlk. intros H1 H2 Hv0 Hvt.
    repeat case_decide; simplify_eq/=; first
      [ done | by edestruct Hold | by apply (inv_uniq _ _ Hinv _ _ v) ].
  - intros q id' Hq. pose proof (lookup_lt_Some _ _ _ Hq) as Hql. rewrite length_swap_remove in Hql.
    rewrite Hswl in Hq by done.
    assert (Hnz : ∀ i, sl !! i ≠ Some 0 →
      <[ms' := slot_value pos]> (<[slot := kTomb]> sl) !! i ≠ Some 0).
    { intros i Hi. rewrite Hlk. destruct (decide (i = ms')); [rewrite Hsp; intros [= ?]; lia|].
      by destruct (decide (i = slot)). }
    case_decide as Hqp.
    + injection Hq as <-. subst q. exists j. split_and!; [done|rewrite Hlk; by rewrite decide_True|].
      intros m Hm. by apply Hnz, Hb.
    + destruct (inv_reach _ _ Hinv q id' Hq) as (j' & Hj' & Hsj & Hb'). exists j'.
      split_and!; [done| |intros m Hm; by apply Hnz, Hb'].
      rewrite Hlk. pose proof (swap_slot_value q ltac:(lia)) as Hsq.
      destruct (decide (_ = ms')) as [Hd|_]; [|destruct (decide (_ = slot)) as [Hd|_]; [|done]].
      * rewrite Hd, Hms in Hsj. injection Hsj. lia.
      * rewrite Hd, Hslot in Hsj. injection Hsj. lia.
Qed.
End swap.

(** Overwriting a slot that holds a position by a tombstone, or by another position. *)
Lemma overwrite_counts sl i x y :
  sl !! i = Some x → x ≠ 0 → x ≠ kTomb → y ≠ 0 →
  occ (λ v, v ≠ 0) (<[i := y]> sl) = occ (λ v, v ≠ 0) sl ∧
  occ (λ v, v = kTomb) (<[i := y]> sl) =
    (occ (λ v, v = kTomb) sl + (if bool_decide (y = kTomb) then 1 else 0))%nat.
Proof.
  intros Hi ???. pose proof (occ_insert (λ v, v ≠ 0) _ _ _ y Hi).
  pose proof (occ_insert (λ v, v = kTomb) _ _ _ y Hi).
  case_bool_decide; repeat case_decide; try done; lia.
Qed.

(** The end of [remove]: demote, rehash or keep the index. *)
Lemma remove_finish edges ix :
  idx_inv edges (slots ix) → live ix = length edges →
  occ (λ v, v ≠ 0) (slots ix) = (live ix + tomb ix)%nat → occ (λ v, v = kTomb) (slots ix) = tomb ix →
  ∃ e, (if (length edges <=? kDemote)%nat then Some (true, mkEdgeSet edges None)
        else if needs_rehash ix then ix' ← rebuild_index edges; Some (true, mkEdgeSet edges (Some ix'))
        else Some (true, mkEdgeSet edges (Some ix))) = Some (true, e) ∧ edges_ e = edges ∧ edge_set_ok e.
Proof.
  intros Hinv **. case_match; [|by apply rehash_ok]. eexists; split_and!; [done..|].
  unfold edge_set_ok. simpl. apply Hinv.
Qed.

Lemma swap_remove_last edges id :
  edges !! (length edges - 1)%nat = Some id →
  swap_remove (length edges - 1) edges = pop_back edges ∧ edges = pop_back edges ++ [id].
Proof.
  intros Hid. unfold swap_remove. rewrite last_lookup, <- Nat.sub_1_r, Hid, list_insert_id by done.
  split; [done|]. unfold pop_back. pose proof (lookup_lt_Some _ _ _ Hid).
  rewrite <- (take_drop (length edges - 1) edges) at 1. f_equal.
  rewrite (drop_S _ id) by done. f_equal. rewrite drop_ge; [done|lia].
Qed.

Lemma remove_refines e id :
  edge_set_ok e →
  ∃ e', remove e id = Some ((vec_remove id (edges_ e)).1, e') ∧
    edges_ e' = (vec_remove id (edges_ e)).2 ∧ edge_set_ok e'.
Proof.
  intros Hok. pose proof (vec_remove_NoDup id _ (edge_set_nodup e Hok)) as Hnd'. revert Hok Hnd'.
  unfold remove, vec_remove. destruct e as [edges [ix|]]; simpl; intros Hok Hnd'.
  2: { case_match; by eexists; split_and!. }
  pose proof Hok as (Hinv & Hl & Hnz & Ht & Hr). cbn [edges_] in *. apply needs_rehash_false in Hr.
  destruct (index_of id edges) as [pos|] eqn:Hid; simpl in *.
  2: { apply index_of_None in Hid. rewrite (probe_absent _ _ Hinv); [by eexists; split_and!|done|done|].
       apply (empty_slot_exists _ _ Hnz). lia. }
  apply index_of_Some_lookup in Hid. pose proof (lookup_lt_Some _ _ _ Hid) as Hlt.
  destruct (probe_present _ _ Hinv ix pos id eq_refl Hid) as (slot & -> & Hslot). simpl. rewrite Hslot. simpl.
  assert (Hsv : slot_value pos = Z.of_nat pos + 1) by by apply (slot_value_small edges); [apply Hinv|].
  rewrite Hsv. replace (Z.to_nat (Z.of_nat pos + 1 - 1)) with pos by lia.
  destruct (slot_value_pos _ _ Hinv pos Hlt) as [Hs0 Hst]. 
  destruct (overwrite_counts _ _ _ kTomb Hslot) as [Ho1 Ho2]; [done..|].
  rewrite bool_decide_eq_true_2 in Ho2 by done.
  destruct (Nat.eqb_spec pos (length edges - 1)) as [Hpl|Hpl]; simpl.
  - subst pos. destruct (swap_remove_last edges id Hid) as [-> Hsplit].
    apply remove_finish; simpl; rewrite ?length_pop_back; [|lia..].
    rewrite Hsplit in Hinv. apply (remove_inv_last _ _ _ id Hinv).
    by rewrite length_pop_back.
  - destruct (edges !! (length edges - 1)%nat) as [moved|] eqn:Hlast.
    2: { apply lookup_ge_None in Hlast. lia. }
    simpl. destruct (probe_moved _ _ _ _ _ _ Hinv Hid Hslot Hlast Hpl
      (mkIndex (<[slot:=kTomb]> (slots ix)) (live ix - 1) (S (tomb ix))) eq_refl)
      as (ms & -> & Hms & Hmne & Hreach).
    simpl. 
    assert (pop_back (<[pos:=moved]> edges) = swap_remove pos edges) as ->.
    { unfold swap_remove. by rewrite last_lookup, <- Nat.sub_1_r, Hlast. }
    assert (Hms' : <[slot:=kTomb]> (slots ix) !! ms = Some (slot_value (length edges - 1)))
      by by rewrite list_lookup_insert_ne.
    destruct (slot_value_pos _ _ Hinv (length edges - 1)) as [Hm0 Hmt]; [lia|].
    destruct (overwrite_counts _ _ _ (slot_value pos) Hms') as [Ho3 Ho4]; [done..|].
    rewrite bool_decide_eq_false_2 in Ho4 by done.
    apply remove_finish; simpl; rewrite ?length_swap_remove; [|lia..].
    by apply (remove_inv_swap edges _ pos slot id moved).
Qed.

(** A sequence of edge registrations and removals. *)
Inductive EdgeOp := EdgeInsert (id : Z) | EdgeRemove (id : Z).

Definition run_edge_op (e : EdgeSet) (op : EdgeOp) : option (bool * EdgeSet) :=
  match op with EdgeInsert id => insert e id | EdgeRemove id => remove e id end.

Fixpoint run_edge_ops (e : EdgeSet) (ops : list EdgeOp) : option (list bool * EdgeSet) :=
  match ops with
  | [] => Some ([], e)
  | op :: ops => '(b, e) ← run_edge_op e op; '(bs, e) ← run_edge_ops e ops; Some (b :: bs, e)
  end.

(** The same sequence on the bare vector. *)
Definition spec_edge_op (l : list Z) (op : EdgeOp) : bool * list Z :=
  match op with EdgeInsert id => vec_insert id l | EdgeRemove id => vec_remove id l end.

Fixpoint spec_edge_ops (l : list Z) (ops : list EdgeOp) : list bool * list Z :=
  match ops with
  | [] => ([], l)
  | op :: ops => let '(b, l) := spec_edge_op l op in let '(bs, l) := spec_edge_ops l ops in (b :: bs, l)
  end.

Lemma run_edge_ops_refine ops : ∀ e, edge_set_ok e →
  Z.of_nat (length (edges_ e) + length ops) < kPosMax →
  ∃ e', run_edge_ops e ops = Some ((spec_edge_ops (edges_ e) ops).1, e') ∧
    edges_ e' = (spec_edge_ops (edges_ e) ops).2 ∧ edge_set_ok e'.
Proof.
  induction ops as [|op ops IH]; intros e Hok Hlen; simpl; [by eexists; split_and!|].
  assert (Hop : ∃ e', run_edge_op e op = Some ((spec_edge_op (edges_ e) op).1, e') ∧
    edges_ e' = (spec_edge_op (edges_ e) op).2 ∧ edge_set_ok e' ∧
    (length (edges_ e') ≤ S (length (edges_ e)))%nat).
  { simpl in Hlen. destruct op as [id|id]; simpl.
    - destruct (insert_refines e id) as (e' & -> & He & ?); [done|lia|]. exists e'.
      split_and!; try done. rewrite He. unfold vec_insert. case_match; simpl; rewrite ?length_app; simpl; lia.
    - destruct (remove_refines e id) as (e' & -> & He & ?); [done|]. exists e'.
      split_and!; try done. rewrite He. unfold vec_remove. case_match; simpl; rewrite ?length_swap_remove; lia. }
  destruct Hop as (e1 & -> & He1 & Hok1 & Hle). simpl.
  destruct (IH e1 Hok1) as (e2 & Hrun & He2 & Hok2); [simpl in Hlen; lia|].
  rewrite Hrun. simpl. rewrite He1 in *. 
  destruct (spec_edge_op (edges_ e) op) as [b l]; simpl in *.
  destruct (spec_edge_ops l ops) as [bs l']; simpl in *. by eexists; split_and!.
Qed.

(** C28: The hash index of [EdgeSet] is invisible: any sequence of fewer than
    2^32 - 2 insertions and removals, across promotion, rehashing, tombstones
    and demotion, terminates, returns the same booleans and leaves the same
    vector of edges, in the same order, as a plain vector scanned linearly;
    the result holds no duplicates. *)
Theorem edge_set_refines_vector (ops : list EdgeOp) :
  Z.of_nat (length ops) < kPosMax →
  ∃ e', run_edge_ops empty ops = Some ((spec_edge_ops [] ops).1, e') ∧
    edges_ e' = (spec_edge_ops [] ops).2 ∧ NoDup (edges_ e').
Proof.
  intros Hlen. destruct (run_edge_ops_refine ops empty) as (e' & ? & ? & Hok); simpl; [constructor|lia|].
  exists e'. split_and!; try done. by apply edge_set_nodup.
Qed.

(** Forty edges promote the set to its index; removing all but four demotes it. *)
Definition churn : list EdgeOp :=
  (EdgeInsert <$> seqZ 0 40) ++ (EdgeInsert <$> [7; 39]) ++ (EdgeRemove <$> seqZ 2 36) ++ [EdgeRemove 5].

Lemma edge_set_refines_vector_witness :
  Z.of_nat (length churn) < kPosMax ∧
  (match run_edge_ops empty (EdgeInsert <$> seqZ 0 40) with
   | Some (_, e) => bool_decide (is_Some (index_ e)) | None => false end) = true ∧
  ∃ e', run_edge_ops empty churn = Some ((spec_edge_ops [] churn).1, e') ∧
    edges_ e' = (spec_edge_ops [] churn).2 ∧ NoDup (edges_ e').
Proof.
  split; [reflexivity|]. split; [vm_compute; reflexivity|].
  exact (edge_set_refines_vector churn eq_refl).
Defined.

End EdgeSet.

(** ** The effect schedule *)

Module PendingQueue.

(* include/lazily/context.hpp:453-453, PendingQueue::kPromote *)
Definition kPromote : nat := 64.
(* include/lazily/context.hpp:454-454, PendingQueue::kDemote *)
Definition kDemote : nat := 16.

(** Positions in the index are absolute: [base_] counts the pops. *)
(* include/lazily/context.hpp:464-469, PendingQueue *)
Record PendingQueue := mkQueue { q_ : list Z; base_ : Z; index_ : option (gmap Z Z) }.

Definition empty : PendingQueue := mkQueue [] 0 None.

(* include/lazily/context.hpp:390-390, PendingQueue::empty *)
Definition is_empty (p : PendingQueue) : bool := bool_decide (q_ p = []).

(* include/lazily/context.hpp:393-399, PendingQueue::push_back *)
Definition push_back (p : PendingQueue) (id : Z) : PendingQueue :=
  let q := q_ p ++ [id] in
  mkQueue q (base_ p)
    ((λ ix, <[id := u64 (base_ p + Z.of_nat (length q) - 1)]> ix) <$> index_ p).

(** [pop_front] on an empty queue is undefined behaviour: [None]. *)
(* include/lazily/context.hpp:401-410, PendingQueue::pop_front *)
Definition pop_front (p : PendingQueue) : option (Z * PendingQueue) :=
  match q_ p with
  | [] => None
  | id :: q =>
      Some (id, mkQueue q (u64 (base_ p + 1))
        (ix ← index_ p; if (length q <=? kDemote)%nat then None else Some (delete id ix)))
  end.

Fixpoint index_from (base : Z) (i : nat) (q : list Z) : gmap Z Z → gmap Z Z :=
  λ ix, match q with
  | [] => ix
  | id :: q => index_from base (S i) q (<[id := u64 (base + Z.of_nat i)]> ix)
  end.

(* include/lazily/context.hpp:456-462, PendingQueue::build_index *)
Definition build_index (p : PendingQueue) : gmap Z Z := index_from (base_ p) 0 (q_ p) ∅.

(** The part of [erase] after the index is known to exist. *)
Definition erase_indexed (p : PendingQueue) (ix : gmap Z Z) (id : Z) : PendingQueue :=
  match ix !! id with
  | None => mkQueue (q_ p) (base_ p) (Some ix)
  | Some abs =>
      let last_abs := u64 (base_ p + Z.of_nat (length (q_ p)) - 1) in
      let '(q, ix) :=
        match last (q_ p) with
        | Some moved =>
            if negb (abs =? last_abs)
            then (<[Z.to_nat (u64 (abs - base_ p)) := moved]> (q_ p), <[moved := abs]> ix)
            else (q_ p, ix)
        | None => (q_ p, ix)
        end in
      let q := pop_back q in
      mkQueue q (base_ p) (if (length q <=? kDemote)%nat then None else Some (delete id ix))
  end.

(* include/lazily/context.hpp:414-442, PendingQueue::erase *)
Definition erase (p : PendingQueue) (id : Z) : PendingQueue :=
  match index_ p with
  | None =>
      if (length (q_ p) <? kPromote)%nat then
        match index_of id (q_ p) with
        | Some i => mkQueue (swap_remove i (q_ p)) (base_ p) None
        | None => p
        end
      else erase_indexed p (build_index p) id
  | Some ix => erase_indexed p ix id
  end.

(** ** The index holds exactly the absolute positions *)

Definition index_exact (base : Z) (q : list Z) (ix : gmap Z Z) : Prop :=
  ∀ id, ix !! id = (λ i, u64 (base + Z.of_nat i)) <$> index_of id q.

Definition queue_ok (p : PendingQueue) : Prop :=
  NoDup (q_ p) ∧ Z.of_nat (length (q_ p)) < two64 ∧
  match index_ p with Some ix => index_exact (base_ p) (q_ p) ix | None => True end.

Lemma u64_sub_base base i : 0 ≤ i < two64 → u64 (u64 (base + i) - base) = i.
Proof.
  intros Hi. unfold u64. rewrite Zminus_mod_idemp_l. replace (base + i - base) with i by lia.
  by apply Z.mod_small.
Qed.

Lemma u64_base_inj base i j :
  0 ≤ i < two64 → 0 ≤ j < two64 → u64 (base + i) = u64 (base + j) → i = j.
Proof. intros Hi Hj Heq. by rewrite <- (u64_sub_base base i), Heq, u64_sub_base. Qed.

Lemma index_of_app {A} `{EqDecision A} (x : A) l k :
  index_of x (l ++ k) = match index_of x l with Some i => Some i | None => Nat.add (length l) <$> index_of x k end.
Proof.
  induction l as [|y l IH]; simpl; [by destruct (index_of x k)|].
  case_decide; [done|]. rewrite IH. destruct (index_of x l); simpl; [done|]. by destruct (index_of x k).
Qed.

Lemma index_of_iff {A} `{EqDecision A} (x : A) l i :
  NoDup l → index_of x l = Some i ↔ l !! i = Some x.
Proof. split; [apply index_of_Some_lookup|by apply index_of_NoDup]. Qed.

Lemma index_from_exact base i q ix id :
  NoDup q → index_from base i q ix !! id =
    match index_of id q with Some j => Some (u64 (base + Z.of_nat (i + j))) | None => ix !! id end.
Proof.
  revert i ix. induction q as [|x q IH]; intros i ix Hnd; simpl; [done|].
  apply NoDup_cons in Hnd as [Hx Hnd]. rewrite IH by done. case_decide; subst.
  - rewrite (proj2 (index_of_None _ _) Hx), lookup_insert_eq. by rewrite Nat.add_0_r.
  - destruct (index_of id q); simpl; [by rewrite Nat.add_succ_r|]. by rewrite lookup_insert_ne.
Qed.

Lemma build_index_exact p : NoDup (q_ p) → index_exact (base_ p) (q_ p) (build_index p).
Proof.
  intros Hnd id. unfold build_index. rewrite index_from_exact by done.
  rewrite lookup_empty. by destruct (index_of id (q_ p)).
Qed.

Lemma push_back_ok p id :
  queue_ok p → id ∉ q_ p → Z.of_nat (S (length (q_ p))) < two64 →
  q_ (push_back p id) = q_ p ++ [id] ∧ queue_ok (push_back p id).
Proof.
  intros (Hnd & Hlen & Hix) Hid Hl. split; [done|]. split_and!; simpl.
  - apply NoDup_app. split_and!; [done| |apply NoDup_singleton]. by intros y ? ->%list_elem_of_singleton.
  - rewrite length_app. simpl. lia.
  - destruct (index_ p) as [ix|]; simpl; [|done]. intros id'. rewrite index_of_app. simpl.
    destruct (decide (id' = id)) as [->|Hne].
    + rewrite lookup_insert_eq, (proj2 (index_of_None _ _) Hid), decide_True by done. simpl.
      rewrite length_app. simpl. do 2 f_equal. lia.
    + rewrite lookup_insert_ne, decide_False, Hix by done. by destruct (index_of id' (q_ p)).
Qed.

Lemma pop_front_ok p id q :
  queue_ok p → q_ p = id :: q →
  ∃ p', pop_front p = Some (id, p') ∧ q_ p' = q ∧ queue_ok p'.
Proof.
  unfold queue_ok, pop_front. intros (Hnd & Hlen & Hix) Hq. rewrite Hq in *. eexists; split_and!; try done; simpl in *.
  - by apply NoDup_cons in Hnd as [_ ?].
  - lia.
  - destruct (index_ p) as [ix|]; [|done]. unfold mbind, option_bind. destruct (length q <=? kDemote)%nat; [done|]. intros id'.
    apply NoDup_cons in Hnd as [Hid Hnd]. destruct (decide (id' = id)) as [->|Hne].
    + by rewrite lookup_delete_eq, (proj2 (index_of_None _ _) Hid).
    + rewrite lookup_delete_ne, Hix by done. simpl. rewrite decide_False by done.
      destruct (index_of id' q); simpl; [|done]. f_equal. unfold u64. rewrite Zplus_mod_idemp_l. f_equal. lia.
Qed.

(** Positions after a swap-removal. *)
Lemma index_of_swap_remove (q : list Z) id i moved id' :
  NoDup q → q !! i = Some id → last q = Some moved →
  index_of id' (swap_remove i q) =
    if decide (id' = id) then None else if decide (id' = moved) then Some i else index_of id' q.
Proof.
  intros Hnd Hi Hlast. pose proof (swap_remove_spec _ _ _ Hi) as Hp.
  assert (Hnd' : NoDup (id :: swap_remove i q)) by by rewrite Hp. apply NoDup_cons in Hnd' as [Hid Hnd'].
  pose proof (lookup_lt_Some _ _ _ Hi) as Hil. rewrite last_lookup, <- Nat.sub_1_r in Hlast.
  case_decide as Hd; [by subst; apply index_of_None|].
  assert (Hlk : ∀ j, (j < length q - 1)%nat → swap_remove i q !! j = if decide (j = i) then Some moved else q !! j).
  { intros j Hj. unfold swap_remove. rewrite last_lookup, <- Nat.sub_1_r, Hlast.
    rewrite lookup_pop_back by (rewrite length_insert; lia).
    destruct (decide (j = i)) as [->|]; [by rewrite list_lookup_insert_eq|by rewrite list_lookup_insert_ne]. }
  case_decide as Hd'.
  - subst. apply index_of_iff; [done|]. rewrite Hlk; [by rewrite decide_True|].
    destruct (decide (i = length q - 1)%nat) as [->|]; [congruence|lia].
  - destruct (index_of id' q) as [j|] eqn:Hj.
    + apply index_of_iff in Hj; [|done]. apply index_of_iff; [done|].
      pose proof (lookup_lt_Some _ _ _ Hj). rewrite Hlk; [rewrite decide_False; [done|]|].
      * intros ->. congruence.
      * destruct (decide (j = length q - 1)%nat) as [->|]; [congruence|lia].
    + apply index_of_None. apply index_of_None in Hj. intros Hin. apply Hj. rewrite <- Hp. by right.
Qed.

Lemma erase_indexed_ok p ix id :
  NoDup (q_ p) → Z.of_nat (length (q_ p)) < two64 → index_exact (base_ p) (q_ p) ix →
  q_ (erase_indexed p ix id) = (vec_remove id (q_ p)).2 ∧ queue_ok (erase_indexed p ix id).
Proof.
  intros Hnd Hlen Hix. unfold erase_indexed, vec_remove. rewrite Hix.
  destruct (index_of id (q_ p)) as [i|] eqn:Hi; simpl; [|done].
  pose proof (index_of_lt _ _ _ Hi) as Hlt. apply index_of_Some_lookup in Hi.
  destruct (last (q_ p)) as [moved|] eqn:Hlast.
  2: { apply last_None in Hlast. rewrite Hlast in Hlt; simpl in Hlt; lia. }
  pose proof Hlast as Hl. rewrite last_lookup, <- Nat.sub_1_r in Hl.
  rewrite u64_sub_base by lia. rewrite Nat2Z.id.
  set (q' := pop_back (<[i := moved]> (q_ p))).
  assert (Hq' : swap_remove i (q_ p) = q') by (unfold swap_remove; by rewrite Hlast).
  replace (base_ p + Z.of_nat (length (q_ p)) - 1) with (base_ p + Z.of_nat (length (q_ p) - 1)) by lia.
  assert (Hnd' : NoDup q').
  { rewrite <- (swap_remove_spec _ _ _ Hi), Hq' in Hnd. by apply NoDup_cons in Hnd as [_ ?]. }
  assert (Hlen' : (length q' = length (q_ p) - 1)%nat) by by rewrite <- Hq', length_swap_remove.
  assert (Hex : ∀ ix', (∀ id', id' ≠ id → ix' !! id' =
      if decide (id' = moved) then Some (u64 (base_ p + Z.of_nat i)) else ix !! id') →
    index_exact (base_ p) q' (delete id ix')).
  { intros ix' Hix' id'. rewrite <- Hq', (index_of_swap_remove _ id i moved) by done.
    rewrite lookup_delete. destruct (decide (id' = id)) as [->|]; [by rewrite decide_True|].
    rewrite decide_False, Hix' by done. case_decide; [done|]. by rewrite Hix. }
  destruct (Z.eqb_spec (u64 (base_ p + Z.of_nat i)) (u64 (base_ p + Z.of_nat (length (q_ p) - 1)))) as [Heq|Hne]; simpl.
  - apply u64_base_inj in Heq; [|lia..]. assert (i = (length (q_ p) - 1)%nat) as Hil by lia.
    rewrite Hil, Hl in Hi. injection Hi as ->.
    assert (pop_back (q_ p) = q') as -> by (unfold q'; rewrite Hil, list_insert_id by done; done).
    split; [done|]. split_and!; simpl; [done|lia|]. destruct (length _ <=? kDemote)%nat; [done|]. apply Hex. intros id' Hid'.
    rewrite decide_False by done. done.
  - fold q'. split; [done|]. split_and!; simpl; [done|lia|]. destruct (length _ <=? kDemote)%nat; [done|]. apply Hex. intros id' Hid'.
    rewrite lookup_insert. repeat case_decide; naive_solver.
Qed.

Lemma erase_ok p id :
  queue_ok p → q_ (erase p id) = (vec_remove id (q_ p)).2 ∧ queue_ok (erase p id).
Proof.
  intros (Hnd & Hlen & Hix). unfold erase. destruct (index_ p) as [ix|] eqn:Hp; [by apply erase_indexed_ok|].
  case_match; [|by apply erase_indexed_ok, build_index_exact].
  pose proof (vec_remove_NoDup id _ Hnd) as Hnd'. unfold vec_remove in *.
  destruct (index_of id (q_ p)) eqn:Hid; simpl in *; [|by unfold queue_ok; rewrite Hp].
  split; [done|]. split_and!; simpl; [done|rewrite length_swap_remove; lia|done].
Qed.

(** One use of the schedule by the kernel; [push] is only ever called for an
    effect whose scheduled bit is clear. *)
Inductive QueueOp := QPush (id : Z) | QPop | QErase (id : Z).

Definition run_queue_op (p : PendingQueue) (op : QueueOp) : option Z * PendingQueue :=
  match op with
  | QPush id => (None, if bool_decide (id ∈ q_ p) then p else push_back p id)
  | QPop => match pop_front p with Some (id, p) => (Some id, p) | None => (None, p) end
  | QErase id => (None, erase p id)
  end.

Definition spec_queue_op (q : list Z) (op : QueueOp) : option Z * list Z :=
  match op with
  | QPush id => (None, (vec_insert id q).2)
  | QPop => match q with id :: q => (Some id, q) | [] => (None, q) end
  | QErase id => (None, (vec_remove id q).2)
  end.

Fixpoint run_queue_ops (p : PendingQueue) (ops : list QueueOp) : list (option Z) * PendingQueue :=
  match ops with
  | [] => ([], p)
  | op :: ops => let '(r, p) := run_queue_op p op in let '(rs, p) := run_queue_ops p ops in (r :: rs, p)
  end.

Fixpoint spec_queue_ops (q : list Z) (ops : list QueueOp) : list (option Z) * list Z :=
  match ops with
  | [] => ([], q)
  | op :: ops => let '(r, q) := spec_queue_op q op in let '(rs, q) := spec_queue_ops q ops in (r :: rs, q)
  end.

Lemma run_queue_op_refines p op :
  queue_ok p → Z.of_nat (S (length (q_ p))) < two64 →
  let r := run_queue_op p op in
  r.1 = (spec_queue_op (q_ p) op).1 ∧ q_ r.2 = (spec_queue_op (q_ p) op).2 ∧ queue_ok r.2 ∧
  (length (q_ r.2) ≤ S (length (q_ p)))%nat.
Proof.
  intros Hok Hlen. destruct op as [id| |id]; simpl.
  - unfold vec_insert. case_bool_decide as Hin.
    + destruct (index_of_elem id _ Hin) as [i ->]. simpl. auto with lia.
    + rewrite (proj2 (index_of_None _ _) Hin). simpl. destruct (push_back_ok p id Hok Hin Hlen) as [? ?].
      split_and!; try done. rewrite length_app. simpl. lia.
  - destruct (q_ p) as [|id q] eqn:Hq.
    + unfold pop_front. rewrite Hq. simpl. rewrite Hq. auto with lia.
    + destruct (pop_front_ok p id q Hok Hq) as (p' & -> & Hq' & Hok'). simpl. rewrite Hq'. auto with lia.
  - destruct (erase_ok p id Hok) as [He ?]. rewrite He. split_and!; try done.
    unfold vec_remove. case_match; simpl; rewrite ?length_swap_remove; lia.
Qed.

(** The position index of [PendingQueue] is invisible: any sequence of
    pushes, pops and erasures, whatever part of it runs with the index built,
    pops the same ids in the same order and leaves the same queue as a plain
    deque with linear search, for fewer than 2^64 operations. *)
Theorem pending_queue_refines_deque (ops : list QueueOp) :
  Z.of_nat (length ops) < two64 - 1 →
  let r := run_queue_ops empty ops in
  r.1 = (spec_queue_ops [] ops).1 ∧ q_ r.2 = (spec_queue_ops [] ops).2.
Proof.
  intros Hlen. change [] with (q_ empty). assert (Hok : queue_ok empty) by (split_and!; [constructor|done|done]).
  assert (Hl : Z.of_nat (length (q_ empty) + length ops) < two64 - 1) by (simpl; lia).
  clear Hlen. revert Hok Hl. generalize empty. induction ops as [|op ops IH]; intros p Hok Hl; simpl in *; [done|].
  destruct (run_queue_op_refines p op Hok) as (H1 & H2 & Hok' & Hle); [lia|].
  destruct (run_queue_op p op) as [r p'], (spec_queue_op (q_ p) op) as [r' q']; simpl in *; subst.
  specialize (IH p' Hok' ltac:(lia)). destruct (run_queue_ops p' ops), (spec_queue_ops (q_ p') ops); simpl in *.
  by destruct IH; subst.
Qed.

Definition teardown : list QueueOp :=
  (QPush <$> seqZ 0 70) ++ [QErase 3; QPop; QErase 69; QPush 3; QErase 5; QPop; QPop] ++ (QErase <$> seqZ 10 55) ++ [QPop].

Lemma pending_queue_refines_deque_witness :
  Z.of_nat (length teardown) < two64 - 1 ∧
  (run_queue_ops empty teardown).1 = (spec_queue_ops [] teardown).1.
Proof.
  split; [reflexivity|]. exact (proj1 (pending_queue_refines_deque teardown eq_refl)).
Defined.

End PendingQueue.
