(* ===== verification/Kernel.v ===== *)
(** * Kernel: the reactive graph engine

    Models [ContextImpl], [ComputeImpl] and [TeardownScopeImpl] of
    include/lazily/context.hpp and the handle operations of
    include/lazily/cell.hpp.

    - The arena [nodes_] is a finite map: an id that is out of range and an id
      whose entry is [EmptyNode] are both absent, which is what [get_node] tells
      its callers.
    - Values of every cell type are drawn from one type [V], whose decidable
      equality is the code's [operator==].
    - A compute or effect closure is a [prog]: the tree of the operations it
      performs on the [Compute] view it receives, with the answers bound by
      functions. A cleanup callback and the outside effects of a closure are
      labels, recorded in the trace [log] in the order they happen.
    - A step of the engine is a function [Ctx → outcome A * Ctx]: the state
      survives a C++ exception, [Crash] is a failed [assert] or
      [std::terminate], and [OutOfFuel] an unfinished loop or recursion.
    - Edge sets and the effect schedule are the vectors that [EdgeSet] and
      [PendingQueue] refine (file EdgeSet.v). *)
From S2P Require Import Prelude.

(* include/lazily/types.hpp:18-27, SlotId *)
Definition SlotId : Type := nat.

(** Every public handle is an id with the generation of its occupant. *)
(* include/lazily/context.hpp:478-487, Effect *)
Record Handle := mkHandle { h_id : SlotId; h_generation : nat }.

#[export] Instance Handle_eq_dec : EqDecision Handle.
Proof. solve_decision. Defined.

(* include/lazily/context.hpp:85-90, DisposedError *)
Inductive exn := DisposedError | BadOptionalAccess | UserExn (n : nat).

#[export] Instance exn_eq_dec : EqDecision exn.
Proof. solve_decision. Defined.

Inductive outcome (A : Type) := Val (a : A) | Exn (e : exn) | Crash | OutOfFuel.
Arguments Val {_} _.
Arguments Exn {_} _.
Arguments Crash {_}.
Arguments OutOfFuel {_}.

(** How a derived cell decides that a recompute did not change it. *)
Inductive guard (V : Type) :=
  | Unguarded                            (* slot *)
  | GuardEq                              (* computed *)
  | RippleWhen (changed : V → V → bool). (* computed_ripple_when *)
Arguments Unguarded {_}.
Arguments GuardEq {_}.
Arguments RippleWhen {_} _.

(** The operations of the compute view; [tracked = false] goes through [untracked()]. *)
(* include/lazily/context.hpp:1804-1863, ComputeImpl *)
Inductive prog (V R : Type) : Type :=
  | Ret (r : R)
  | Raise (e : exn)
  | Get (tracked : bool) (h : Handle) (k : V → prog V R)
  | GetComputed (tracked : bool) (h : Handle) (k : V → prog V R)
  | PeekCell (h : Handle) (k : option V → prog V R)
  | SetCell (h : Handle) (v : V) (k : prog V R)
  | NewSource (v : V) (k : Handle → prog V R)
  | NewSlot (g : guard V) (body : prog V V) (k : Handle → prog V R)
  | NewSignal (body : prog V V) (k : Handle → prog V R)
  | NewEffect (body : prog V (option nat)) (k : Handle → prog V R)
  | Batch (body : prog V unit) (k : prog V R)
  | DisposeSlot (h : Handle) (k : prog V R)
  | DisposeCell (h : Handle) (k : prog V R)
  | DisposeEffect (h : Handle) (k : prog V R)
  | DisposeId (id : SlotId) (k : prog V R)
  | Log (label : nat) (k : prog V R).
Arguments Ret {_ _} _.
Arguments Raise {_ _} _.
Arguments Get {_ _} _ _ _.
Arguments GetComputed {_ _} _ _ _.
Arguments PeekCell {_ _} _ _.
Arguments SetCell {_ _} _ _ _.
Arguments NewSource {_ _} _ _.
Arguments NewSlot {_ _} _ _ _.
Arguments NewSignal {_ _} _ _.
Arguments NewEffect {_ _} _ _.
Arguments Batch {_ _} _ _.
Arguments DisposeSlot {_ _} _ _.
Arguments DisposeCell {_ _} _ _.
Arguments DisposeEffect {_ _} _ _.
Arguments DisposeId {_ _} _ _.
Arguments Log {_ _} _ _.

(** ** State *)

(* include/lazily/context.hpp:520-544, ContextImpl::SlotNode *)
Record SlotNode (V : Type) := mkSlot {
  s_value : option V;
  s_compute : prog V V;
  s_equals : bool;
  s_dependencies : list SlotId;
  s_dependents : list SlotId;
  s_dirty : bool;
  s_force_recompute : bool;
  s_in_progress : bool;
  s_eager : bool;
}.

(* include/lazily/context.hpp:546-559, ContextImpl::CellNode *)
Record CellNode (V : Type) := mkCell { c_value : V; c_dependents : list SlotId }.

(* include/lazily/context.hpp:561-568, ContextImpl::EffectNode *)
Record EffectNode (V : Type) := mkEffect {
  e_run : prog V (option nat);
  e_dependencies : list SlotId;
  e_cleanup : option nat;
  e_force_run : bool;
}.
Arguments mkSlot {_} _ _ _ _ _ _ _ _ _.
Arguments mkCell {_} _ _.
Arguments mkEffect {_} _ _ _ _.
Arguments s_value {_} _.
Arguments s_compute {_} _.
Arguments s_equals {_} _.
Arguments s_dependencies {_} _.
Arguments s_dependents {_} _.
Arguments s_dirty {_} _.
Arguments s_force_recompute {_} _.
Arguments s_in_progress {_} _.
Arguments s_eager {_} _.
Arguments c_value {_} _.
Arguments c_dependents {_} _.
Arguments e_run {_} _.
Arguments e_dependencies {_} _.
Arguments e_cleanup {_} _.
Arguments e_force_run {_} _.

(** [EmptyNode] is absence from the arena. *)
(* include/lazily/context.hpp:583-585, ContextImpl::Node *)
Inductive Node (V : Type) := NSlot (s : SlotNode V) | NCell (c : CellNode V) | NEffect (e : EffectNode V).
Arguments NSlot {_} _.
Arguments NCell {_} _.
Arguments NEffect {_} _.

(** [free_ids_] and the [BatchSet]s are kept most recent first; a [BatchSet]'s
    mark bit of an id is its membership in [order], and [effect_scheduled_] is the
    set of its true bits. *)
(* include/lazily/context.hpp:1083-1129, ContextImpl *)
Record Ctx (V : Type) := mkCtx {
  nodes : gmap SlotId (Node V);
  next_id : nat;
  free_ids : list nat;
  eager_by : gmap SlotId Handle;
  ripple_by : gmap SlotId (V → V → bool);
  pending_effects : list SlotId;
  effect_scheduled : gset SlotId;
  flushing_effects : bool;
  batch_depth : nat;
  batched_cells : list SlotId;
  batched_cell_clears : list SlotId;
  batched_slots : list SlotId;
  generations : gmap SlotId nat;
  log : list nat;
}.
Arguments mkCtx {_} _ _ _ _ _ _ _ _ _ _ _ _ _ _.
Arguments nodes {_} _.
Arguments next_id {_} _.
Arguments free_ids {_} _.
Arguments eager_by {_} _.
Arguments ripple_by {_} _.
Arguments pending_effects {_} _.
Arguments effect_scheduled {_} _.
Arguments flushing_effects {_} _.
Arguments batch_depth {_} _.
Arguments batched_cells {_} _.
Arguments batched_cell_clears {_} _.
Arguments batched_slots {_} _.
Arguments generations {_} _.
Arguments log {_} _.

(** The engine's monad. *)
Definition M (V A : Type) : Type := Ctx V → outcome A * Ctx V.

#[export] Instance M_ret V : MRet (M V) := λ A a c, (Val a, c).
#[export] Instance M_bind V : MBind (M V) := λ A B f m c,
  match m c with
  | (Val a, c) => f a c
  | (Exn e, c) => (Exn e, c)
  | (Crash, c) => (Crash, c)
  | (OutOfFuel, c) => (OutOfFuel, c)
  end.

Section engine.
  Context {V : Type} `{EqDecision V}.
  Implicit Types (c : Ctx V) (id : SlotId) (h : Handle).

Definition modify (f : Ctx V → Ctx V) : M V unit := λ c, (Val tt, f c).
Definition gets {A} (f : Ctx V → A) : M V A := λ c, (Val (f c), c).
Definition throw {A} (e : exn) : M V A := λ c, (Exn e, c).
Definition crash {A} : M V A := λ c, (Crash, c).
(** Continue with the current state. *)
Definition with_state {A} (f : Ctx V → outcome A * Ctx V) : M V A := f.
Definition out_of_fuel {A} : M V A := λ c, (OutOfFuel, c).

(** A scope guard whose destructor runs [f] when the scope is left by a value or
    by an exception. *)
Definition with_guard {A} (m : M V A) (f : Ctx V → Ctx V) : M V A := λ c,
  match m c with
  | (Val a, c) => (Val a, f c)
  | (Exn e, c) => (Exn e, f c)
  | r => r
  end.

(** Field updates. *)
Definition set_nodes (n : gmap SlotId (Node V)) c : Ctx V :=
  mkCtx n (next_id c) (free_ids c) (eager_by c) (ripple_by c) (pending_effects c) (effect_scheduled c)
    (flushing_effects c) (batch_depth c) (batched_cells c) (batched_cell_clears c) (batched_slots c)
    (generations c) (log c).
Definition set_ids (n : nat) (f : list nat) c : Ctx V :=
  mkCtx (nodes c) n f (eager_by c) (ripple_by c) (pending_effects c) (effect_scheduled c)
    (flushing_effects c) (batch_depth c) (batched_cells c) (batched_cell_clears c) (batched_slots c)
    (generations c) (log c).
Definition set_eager_by (e : gmap SlotId Handle) c : Ctx V :=
  mkCtx (nodes c) (next_id c) (free_ids c) e (ripple_by c) (pending_effects c) (effect_scheduled c)
    (flushing_effects c) (batch_depth c) (batched_cells c) (batched_cell_clears c) (batched_slots c)
    (generations c) (log c).
Definition set_ripple_by (r : gmap SlotId (V → V → bool)) c : Ctx V :=
  mkCtx (nodes c) (next_id c) (free_ids c) (eager_by c) r (pending_effects c) (effect_scheduled c)
    (flushing_effects c) (batch_depth c) (batched_cells c) (batched_cell_clears c) (batched_slots c)
    (generations c) (log c).
Definition set_schedule (p : list SlotId) (s : gset SlotId) c : Ctx V :=
  mkCtx (nodes c) (next_id c) (free_ids c) (eager_by c) (ripple_by c) p s
    (flushing_effects c) (batch_depth c) (batched_cells c) (batched_cell_clears c) (batched_slots c)
    (generations c) (log c).
Definition set_flushing (b : bool) c : Ctx V :=
  mkCtx (nodes c) (next_id c) (free_ids c) (eager_by c) (ripple_by c) (pending_effects c) (effect_scheduled c)
    b (batch_depth c) (batched_cells c) (batched_cell_clears c) (batched_slots c) (generations c) (log c).
Definition set_batch_depth (d : nat) c : Ctx V :=
  mkCtx (nodes c) (next_id c) (free_ids c) (eager_by c) (ripple_by c) (pending_effects c) (effect_scheduled c)
    (flushing_effects c) d (batched_cells c) (batched_cell_clears c) (batched_slots c) (generations c) (log c).
Definition set_batched (b1 b2 b3 : list SlotId) c : Ctx V :=
  mkCtx (nodes c) (next_id c) (free_ids c) (eager_by c) (ripple_by c) (pending_effects c) (effect_scheduled c)
    (flushing_effects c) (batch_depth c) b1 b2 b3 (generations c) (log c).
Definition set_generations (g : gmap SlotId nat) c : Ctx V :=
  mkCtx (nodes c) (next_id c) (free_ids c) (eager_by c) (ripple_by c) (pending_effects c) (effect_scheduled c)
    (flushing_effects c) (batch_depth c) (batched_cells c) (batched_cell_clears c) (batched_slots c) g (log c).
Definition add_log (l : nat) c : Ctx V :=
  mkCtx (nodes c) (next_id c) (free_ids c) (eager_by c) (ripple_by c) (pending_effects c) (effect_scheduled c)
    (flushing_effects c) (batch_depth c) (batched_cells c) (batched_cell_clears c) (batched_slots c)
    (generations c) (log c ++ [l]).

Definition set_node id (n : Node V) c : Ctx V := set_nodes (<[id := n]> (nodes c)) c.

(* include/lazily/context.hpp:590-592, ContextImpl::ContextImpl *)
Definition empty_ctx : Ctx V := mkCtx ∅ 0 [] ∅ ∅ [] ∅ false 0 [] [] [] ∅ [].

(** ** Arena access *)

(* include/lazily/context.hpp:1136-1142, ContextImpl::get_node *)
Definition get_node c id : option (Node V) := nodes c !! id.

(* include/lazily/context.hpp:1144-1150, ContextImpl::get_slot_node *)
Definition get_slot_node c id : option (SlotNode V) :=
  match get_node c id with Some (NSlot s) => Some s | _ => None end.

(* include/lazily/context.hpp:1152-1158, ContextImpl::get_cell_node *)
Definition get_cell_node c id : option (CellNode V) :=
  match get_node c id with Some (NCell cell) => Some cell | _ => None end.

Definition get_effect_node c id : option (EffectNode V) :=
  match get_node c id with Some (NEffect e) => Some e | _ => None end.

(* include/lazily/context.hpp:1451-1454, ContextImpl::is_slot_node *)
Definition is_slot_node c id : bool := bool_decide (is_Some (get_slot_node c id)).

(* include/lazily/context.hpp:1168-1174, ContextImpl::dependent_count_id *)
Definition dependent_count c id : nat :=
  match get_node c id with
  | Some (NSlot s) => length (s_dependents s)
  | Some (NCell cell) => length (c_dependents cell)
  | _ => 0
  end.

(* include/lazily/context.hpp:1176-1182, ContextImpl::dependency_count_id *)
Definition dependency_count c id : nat :=
  match get_node c id with
  | Some (NSlot s) => length (s_dependencies s)
  | Some (NEffect e) => length (e_dependencies e)
  | _ => 0
  end.

(* include/lazily/context.hpp:1263-1267, ContextImpl::node_generation *)
Definition node_generation c id : nat := default 0 (generations c !! id).

(* include/lazily/context.hpp:1268-1273, ContextImpl::bump_generation *)
Definition bump_generation id c : Ctx V :=
  set_generations (<[id := S (node_generation c id)]> (generations c)) c.

(* include/lazily/context.hpp:1065-1072, ContextImpl::alloc_id *)
Definition alloc_id : M V SlotId := λ c,
  match free_ids c with
  | id :: f => (Val id, set_ids (next_id c) f c)
  | [] => (Val (next_id c), set_ids (S (next_id c)) [] c)
  end.

(* include/lazily/context.hpp:1247-1252, ContextImpl::insert_node *)
Definition insert_node id (n : Node V) c : Ctx V := set_node id n c.

(** The arena entry becomes [EmptyNode] and the id goes back to the free list. *)
Definition release_id id c : Ctx V :=
  set_ids (next_id c) (id :: free_ids c) (set_nodes (delete id (nodes c)) (bump_generation id c)).

(** ** Edges *)

(* include/lazily/context.hpp:364-364, edge_insert *)
Definition edge_insert (id : SlotId) (l : list SlotId) : list SlotId := (vec_insert id l).2.

(* include/lazily/context.hpp:366-366, edge_remove *)
Definition edge_remove (id : SlotId) (l : list SlotId) : list SlotId := (vec_remove id l).2.

Definition slot_set_dependencies (d : list SlotId) (s : SlotNode V) : SlotNode V :=
  mkSlot (s_value s) (s_compute s) (s_equals s) d (s_dependents s) (s_dirty s)
    (s_force_recompute s) (s_in_progress s) (s_eager s).
Definition slot_set_dependents (d : list SlotId) (s : SlotNode V) : SlotNode V :=
  mkSlot (s_value s) (s_compute s) (s_equals s) (s_dependencies s) d (s_dirty s)
    (s_force_recompute s) (s_in_progress s) (s_eager s).
Definition slot_set_value (v : option V) (s : SlotNode V) : SlotNode V :=
  mkSlot v (s_compute s) (s_equals s) (s_dependencies s) (s_dependents s) (s_dirty s)
    (s_force_recompute s) (s_in_progress s) (s_eager s).
Definition slot_set_flags (dirty force : bool) (s : SlotNode V) : SlotNode V :=
  mkSlot (s_value s) (s_compute s) (s_equals s) (s_dependencies s) (s_dependents s) dirty
    force (s_in_progress s) (s_eager s).
Definition slot_set_in_progress (b : bool) (s : SlotNode V) : SlotNode V :=
  mkSlot (s_value s) (s_compute s) (s_equals s) (s_dependencies s) (s_dependents s) (s_dirty s)
    (s_force_recompute s) b (s_eager s).
Definition slot_set_eager (b : bool) (s : SlotNode V) : SlotNode V :=
  mkSlot (s_value s) (s_compute s) (s_equals s) (s_dependencies s) (s_dependents s) (s_dirty s)
    (s_force_recompute s) (s_in_progress s) b.

(** Update a slot in place, when the id names one. *)
Definition upd_slot (f : SlotNode V → SlotNode V) id c : Ctx V :=
  match get_slot_node c id with Some s => set_node id (NSlot (f s)) c | None => c end.

(** Update the reverse edges of a slot or cell, the forward edges of a slot or effect. *)
Definition upd_dependents (f : list SlotId → list SlotId) id c : Ctx V :=
  match get_node c id with
  | Some (NSlot s) => set_node id (NSlot (slot_set_dependents (f (s_dependents s)) s)) c
  | Some (NCell cell) => set_node id (NCell (mkCell (c_value cell) (f (c_dependents cell)))) c
  | _ => c
  end.
Definition upd_dependencies (f : list SlotId → list SlotId) id c : Ctx V :=
  match get_node c id with
  | Some (NSlot s) => set_node id (NSlot (slot_set_dependencies (f (s_dependencies s)) s)) c
  | Some (NEffect e) =>
      set_node id (NEffect (mkEffect (e_run e) (f (e_dependencies e)) (e_cleanup e) (e_force_run e))) c
  | _ => c
  end.

(* include/lazily/context.hpp:1275-1291, ContextImpl::register_dependency *)
Definition register_dependency (dependency_id dependent_id : SlotId) c : Ctx V :=
  if dependency_id =? dependent_id then c
  else upd_dependencies (edge_insert dependency_id) dependent_id
         (upd_dependents (edge_insert dependent_id) dependency_id c).

(* include/lazily/context.hpp:1293-1301, ContextImpl::remove_dependent_edge *)
Definition remove_dependent_edge (dependency_id dependent_id : SlotId) c : Ctx V :=
  upd_dependents (edge_remove dependent_id) dependency_id c.

(* include/lazily/context.hpp:1310-1318, ContextImpl::remove_dependency_edge *)
Definition remove_dependency_edge (dependent_id dependency_id : SlotId) c : Ctx V :=
  upd_dependencies (edge_remove dependency_id) dependent_id c.

(** The loops [for (auto dep_id : deps) remove_dependent_edge(dep_id, id)] and
    [for (auto dpt_id : dependents) remove_dependency_edge(dpt_id, id)]. *)
Definition detach_upstream (deps : list SlotId) id c : Ctx V :=
  foldl (λ c dep, remove_dependent_edge dep id c) c deps.
Definition detach_downstream (dependents : list SlotId) id c : Ctx V :=
  foldl (λ c dpt, remove_dependency_edge dpt id c) c dependents.

(** ** Invalidation *)

(** The stack of the walk has its top first; [for (...) push_back] leaves the
    last element on top. *)
Definition push_all {A} (l stack : list A) : list A := rev l ++ stack.

(** One iteration of the walk for the node popped from the stack. *)
Definition mark_step (ns : gmap SlotId (Node V)) (id : SlotId) (force : bool)
    (stack : list (SlotId * bool)) (effects : list (SlotId * bool)) :
    gmap SlotId (Node V) * list (SlotId * bool) * list (SlotId * bool) :=
  match ns !! id with
  | Some (NSlot s) =>
      let should_propagate := negb (s_dirty s) || (force && negb (s_force_recompute s)) in
      (<[id := NSlot (slot_set_flags true (force || s_force_recompute s) s)]> ns,
       if should_propagate then push_all ((λ d, (d, false)) <$> s_dependents s) stack else stack,
       effects)
  | Some (NEffect _) => (ns, stack, effects ++ [(id, force)])
  | _ => (ns, stack, effects)
  end.

Fixpoint mark_loop (fuel : nat) (ns : gmap SlotId (Node V)) (stack effects : list (SlotId * bool)) :
    option (list (SlotId * bool) * gmap SlotId (Node V)) :=
  match stack with
  | [] => Some (effects, ns)
  | (id, force) :: stack =>
      match fuel with
      | O => None
      | S fuel =>
          let '(ns, stack, effects) := mark_step ns id force stack effects in
          mark_loop fuel ns stack effects
      end
  end.

(** Every push comes from a slot whose flags grow; a slot's flags grow at most twice. *)
Definition node_degree (n : Node V) : nat :=
  match n with NSlot s => length (s_dependents s) | _ => 0 end.
Definition total_degree (ns : gmap SlotId (Node V)) : nat :=
  map_sum node_degree ns.
Definition mark_fuel (ns : gmap SlotId (Node V)) (roots : list SlotId) : nat :=
  length roots + 2 * total_degree ns.

(* include/lazily/context.hpp:1524-1555, ContextImpl::mark_frontier_locked *)
Definition mark_frontier_locked (roots : list SlotId) : M V (list (SlotId * bool)) := λ c,
  match mark_loop (mark_fuel (nodes c) roots) (nodes c) (push_all ((λ r, (r, true)) <$> roots) []) [] with
  | Some (effects, ns) => (Val effects, set_nodes ns c)
  | None => (OutOfFuel, c)
  end.

Definition clear_step (ns : gmap SlotId (Node V)) (id : SlotId)
    (stack : list SlotId) (effects : list (SlotId * bool)) :
    gmap SlotId (Node V) * list SlotId * list (SlotId * bool) :=
  match ns !! id with
  | Some (NSlot s) =>
      if bool_decide (s_value s = None) && negb (s_dirty s) then (ns, stack, effects)
      else (<[id := NSlot (slot_set_flags false false (slot_set_value None s))]> ns,
            push_all (s_dependents s) stack, effects)
  | Some (NEffect _) => (ns, stack, effects ++ [(id, true)])
  | _ => (ns, stack, effects)
  end.

Fixpoint clear_loop (fuel : nat) (ns : gmap SlotId (Node V)) (stack : list SlotId)
    (effects : list (SlotId * bool)) : option (list (SlotId * bool) * gmap SlotId (Node V)) :=
  match stack with
  | [] => Some (effects, ns)
  | id :: stack =>
      match fuel with
      | O => None
      | S fuel =>
          let '(ns, stack, effects) := clear_step ns id stack effects in
          clear_loop fuel ns stack effects
      end
  end.

(* include/lazily/context.hpp:1560-1585, ContextImpl::clear_frontier_locked *)
Definition clear_frontier_locked (roots : list SlotId) : M V (list (SlotId * bool)) := λ c,
  match clear_loop (mark_fuel (nodes c) roots) (nodes c) (push_all roots []) [] with
  | Some (effects, ns) => (Val effects, set_nodes ns c)
  | None => (OutOfFuel, c)
  end.

(** ** The effect schedule *)

(* include/lazily/context.hpp:1628-1639, ContextImpl::schedule_effect *)
Definition schedule_effect id (force : bool) c : Ctx V :=
  match get_effect_node c id with
  | None => c
  | Some e =>
      let c := if force then set_node id (NEffect (mkEffect (e_run e) (e_dependencies e) (e_cleanup e) true)) c else c in
      if decide (id ∈ effect_scheduled c) then c
      else set_schedule (pending_effects c ++ [id]) ({[id]} ∪ effect_scheduled c) c
  end.

Definition schedule_all (effects : list (SlotId * bool)) c : Ctx V :=
  foldl (λ c e, schedule_effect e.1 e.2 c) c effects.

(* include/lazily/context.hpp:1641-1643, ContextImpl::unschedule_effect *)
Definition unschedule_effect id c : Ctx V :=
  set_schedule (pending_effects c) (effect_scheduled c ∖ {[id]}) c.

(* include/lazily/context.hpp:1645-1655, ContextImpl::remove_pending_effect *)
Definition remove_pending_effect id c : Ctx V :=
  if decide (id ∈ effect_scheduled c)
  then unschedule_effect id (set_schedule (vec_remove id (pending_effects c)).2 (effect_scheduled c) c)
  else c.

(* include/lazily/context.hpp:1592-1610, ContextImpl::invalidate_dependents_now *)
Definition invalidate_dependents_now id : M V bool := λ c,
  let walk (roots : list SlotId) :=
    match roots with
    | [] => (Val false, c)
    | _ =>
        (effects ← mark_frontier_locked roots;
         modify (schedule_all effects);;
         mret (negb (bool_decide (effects = [])))) c
    end in
  match get_node c id with
  | Some (NCell cell) => walk (c_dependents cell)
  | Some (NSlot s) => walk (s_dependents s)
  | _ => (Val false, c)
  end.

(* include/lazily/context.hpp:1612-1618, ContextImpl::clear_cell_dependents_now *)
Definition clear_cell_dependents_now id : M V unit := λ c,
  match get_cell_node c id with
  | None => (Val tt, c)
  | Some cell => (effects ← clear_frontier_locked (c_dependents cell); modify (schedule_all effects)) c
  end.

(* include/lazily/context.hpp:1620-1626, ContextImpl::clear_slot_now *)
Definition clear_slot_now id : M V unit :=
  effects ← clear_frontier_locked [id]; modify (schedule_all effects).

(* include/lazily/context.hpp:732-732, ContextImpl::is_batching *)
Definition is_batching c : bool := 0 <? batch_depth c.

(* include/lazily/context.hpp:1112-1122, ContextImpl::BatchSet::insert *)
Definition batch_insert id (order : list SlotId) : list SlotId := (vec_insert id order).2.

(** ** Disposal *)

(* include/lazily/context.hpp:1341-1345, ContextImpl::invalidate_disposed_dependents *)
Definition invalidate_disposed_dependents (dependents : list SlotId) : M V unit :=
  match dependents with
  | [] => mret tt
  | _ => _ ← mark_frontier_locked dependents; mret tt
  end.

Definition run_cleanup (cleanup : option nat) c : Ctx V :=
  match cleanup with Some l => add_log l c | None => c end.

(* include/lazily/context.hpp:772-795, ContextImpl::dispose_effect *)
Definition dispose_effect h : M V unit := λ c,
  match get_node c (h_id h) with
  | None => (Val tt, c)
  | Some n =>
      if negb (node_generation c (h_id h) =? h_generation h) then (Val tt, c)
      else
        match n with
        | NEffect e =>
            let c := remove_pending_effect (h_id h) c in
            let c := release_id (h_id h) c in
            let c := detach_upstream (e_dependencies e) (h_id h) c in
            (Val tt, run_cleanup (e_cleanup e) c)
        | _ => (Val tt, c)
        end
  end.

(* include/lazily/context.hpp:1184-1226, ContextImpl::dispose_slot_id *)
Definition dispose_slot_id id : M V unit := λ c,
  match get_slot_node c id with
  | None => (Val tt, c)
  | Some s =>
      let deps := s_dependencies s in
      let dependents := s_dependents s in
      let puller := if s_eager s then eager_by c !! id else None in
      let c := upd_slot (λ s, slot_set_eager false (slot_set_dependents [] (slot_set_dependencies [] s))) id c in
      let c := if s_eager s then set_eager_by (delete id (eager_by c)) c else c in
      let c := set_ripple_by (delete id (ripple_by c)) c in
      (match puller with Some e => dispose_effect e | None => mret tt end;;
       modify (detach_upstream deps id);;
       modify (detach_downstream dependents id);;
       invalidate_disposed_dependents dependents;;
       modify (release_id id)) c
  end.

(* include/lazily/context.hpp:1228-1245, ContextImpl::dispose_cell_id *)
Definition dispose_cell_id id : M V unit := λ c,
  match get_cell_node c id with
  | None => (Val tt, c)
  | Some cell =>
      let dependents := c_dependents cell in
      let c := set_node id (NCell (mkCell (c_value cell) [])) c in
      (modify (detach_downstream dependents id);;
       invalidate_disposed_dependents dependents;;
       modify (release_id id)) c
  end.

(* include/lazily/context.hpp:826-829, ContextImpl::dispose_slot *)
Definition dispose_slot h : M V unit := λ c,
  if negb (node_generation c (h_id h) =? h_generation h) then (Val tt, c) else dispose_slot_id (h_id h) c.

(* include/lazily/context.hpp:836-839, ContextImpl::dispose_cell *)
Definition dispose_cell h : M V unit := λ c,
  if negb (node_generation c (h_id h) =? h_generation h) then (Val tt, c) else dispose_cell_id (h_id h) c.

(* include/lazily/context.hpp:847-857, ContextImpl::dispose_id *)
Definition dispose_id id : M V unit := λ c,
  match get_node c id with
  | None => (Val tt, c)
  | Some (NSlot _) => dispose_slot_id id c
  | Some (NCell _) => dispose_cell_id id c
  | Some (NEffect _) => dispose_effect (mkHandle id (node_generation c id)) c
  end.

(** ** Construction and unguarded reads *)

(* include/lazily/context.hpp:1372-1381, ContextImpl::make_cell_node *)
Definition make_cell_node (v : V) : M V SlotId :=
  id ← alloc_id; modify (insert_node id (NCell (mkCell v [])));; mret id.

(* include/lazily/context.hpp:937-948, ContextImpl::source *)
Definition source (v : V) : M V Handle :=
  id ← make_cell_node v; g ← gets (λ c, node_generation c id); mret (mkHandle id g).

(* include/lazily/context.hpp:1347-1368, ContextImpl::slot_with_equals *)
Definition slot_with_equals (compute : prog V V) (eq : bool) : M V Handle :=
  id ← alloc_id;
  modify (insert_node id (NSlot (mkSlot None compute eq [] [] false false false false)));;
  g ← gets (λ c, node_generation c id); mret (mkHandle id g).

(* include/lazily/context.hpp:605-607, ContextImpl::slot *)
Definition slot (compute : prog V V) : M V Handle := slot_with_equals compute false.

(* include/lazily/context.hpp:961-966, ContextImpl::computed *)
Definition computed (compute : prog V V) : M V Handle := slot_with_equals compute true.

(** The stored guard is [!changed(old, new)]: true suppresses. *)
(* include/lazily/context.hpp:983-992, ContextImpl::computed_ripple_when *)
Definition computed_ripple_when (compute : prog V V) (changed : V → V → bool) : M V Handle :=
  h ← slot_with_equals compute false;
  modify (λ c, set_ripple_by (<[h_id h := λ old new, negb (changed old new)]> (ripple_by c)) c);;
  mret h.

Definition new_slot (g : guard V) (compute : prog V V) : M V Handle :=
  match g with
  | Unguarded => slot compute
  | GuardEq => computed compute
  | RippleWhen changed => computed_ripple_when compute changed
  end.

(* include/lazily/context.hpp:613-618, ContextImpl::read_cell *)
Definition read_cell id : M V V := λ c,
  match get_cell_node c id with Some cell => (Val (c_value cell), c) | None => (Exn DisposedError, c) end.

(* include/lazily/context.hpp:712-720, ContextImpl::peek_cell *)
Definition peek_cell h c : option V := c_value <$> get_cell_node c (h_id h).

(* include/lazily/context.hpp:702-710, ContextImpl::try_get_cached *)
Definition try_get_cached h c : option V :=
  match get_slot_node c (h_id h) with
  | Some s => if s_dirty s || s_force_recompute s then None else s_value s
  | None => None
  end.

(* include/lazily/context.hpp:1039-1042, ContextImpl::is_set *)
Definition is_set h c : bool :=
  match get_slot_node c (h_id h) with
  | Some s => bool_decide (is_Some (s_value s)) && negb (s_dirty s)
  | None => false
  end.

(* include/lazily/context.hpp:1033-1036, ContextImpl::is_eager *)
Definition is_eager id c : bool :=
  match get_slot_node c id with Some s => s_eager s | None => false end.

(* include/lazily/context.hpp:797-801, ContextImpl::is_effect_active *)
Definition is_effect_active h c : bool :=
  (node_generation c (h_id h) =? h_generation h) && bool_decide (is_Some (get_effect_node c (h_id h))).

(* include/lazily/context.hpp:1869-1872, ComputeImpl::track *)
Definition track (node : SlotId) (gen : nat) (dep : SlotId) c : Ctx V :=
  if node_generation c node =? gen then register_dependency dep node c else c.

(* include/lazily/context.hpp:1443-1449, ContextImpl::enter_refresh *)
Definition enter_refresh id : M V bool := λ c,
  match get_slot_node c id with
  | None => (Val false, c)
  | Some s => if s_in_progress s then (Crash, c) else (Val true, upd_slot (slot_set_in_progress true) id c)
  end.

(* include/lazily/context.hpp:1456-1461, ContextImpl::clear_slot_dirty_flags *)
Definition clear_slot_dirty_flags id c : Ctx V := upd_slot (slot_set_flags false false) id c.

(** ** The recursive part: refreshing, running closures, flushing effects

    These functions call each other through [refresh_slot] and
    [flush_effects]; they are written over those two, and the recursion is tied
    below with a fuel argument. *)
Section open_recursion.
  Context (refresh : SlotId → M V bool) (flush : M V unit).

(* include/lazily/context.hpp:1383-1390, ContextImpl::get_slot *)
Definition get_slot_with id : M V V :=
  _ ← refresh id;
  with_state (λ c,
    match get_slot_node c id with
    | None => (Exn DisposedError, c)
    | Some s => match s_value s with Some v => (Val v, c) | None => (Crash, c) end
    end).

(* include/lazily/context.hpp:636-656, ContextImpl::write_cell *)
Definition write_cell_with id (new_value : V) : M V unit := λ c,
  match get_cell_node c id with
  | None => (Crash, c)
  | Some cell =>
      if decide (c_value cell = new_value) then (Val tt, c)
      else
        let c := set_node id (NCell (mkCell new_value (c_dependents cell))) c in
        if is_batching c
        then (Val tt, set_batched (batch_insert id (batched_cells c)) (batched_cell_clears c) (batched_slots c) c)
        else (b ← invalidate_dependents_now id; if (b : bool) then flush else mret tt) c
  end.

(* include/lazily/context.hpp:735-751, ContextImpl::effect *)
Definition effect_with (run : prog V (option nat)) : M V Handle :=
  id ← alloc_id;
  modify (insert_node id (NEffect (mkEffect run [] None true)));;
  modify (schedule_effect id false);;
  flush;;
  g ← gets (λ c, node_generation c id); mret (mkHandle id g).

(* include/lazily/context.hpp:753-770, ContextImpl::effect_void *)
Definition effect_void_with (run : prog V (option nat)) : M V Handle := effect_with run.

(* include/lazily/context.hpp:1007-1019, ContextImpl::make_eager *)
Definition make_eager_with id : M V unit := λ c,
  match get_slot_node c id with
  | None => (Val tt, c)
  | Some s =>
      if s_eager s then (Val tt, c)
      else
        let slot_handle := mkHandle id (node_generation c id) in
        (eff ← effect_void_with (GetComputed true slot_handle (λ _, Ret None));
         modify (upd_slot (slot_set_eager true) id);;
         modify (λ c, set_eager_by (<[id := eff]> (eager_by c)) c)) c
  end.

(* include/lazily/context.hpp:923-927, ContextImpl::signal *)
Definition signal_with (compute : prog V V) : M V Handle :=
  h ← computed compute; make_eager_with (h_id h);; mret h.

(** One list of the batch is handled after the other; the lists are emptied. *)
Fixpoint for_each (f : SlotId → M V unit) (ids : list SlotId) : M V unit :=
  match ids with [] => mret tt | id :: ids => f id;; for_each f ids end.

(* include/lazily/context.hpp:1733-1750, ContextImpl::flush_batched_invalidations *)
Definition flush_batched_invalidations_with : M V unit :=
  cells ← gets batched_cells;
  for_each (λ id, _ ← invalidate_dependents_now id; mret tt) cells;;
  modify (λ c, set_batched [] (batched_cell_clears c) (batched_slots c) c);;
  clears ← gets batched_cell_clears;
  for_each clear_cell_dependents_now clears;;
  modify (λ c, set_batched [] [] (batched_slots c) c);;
  slots ← gets batched_slots;
  for_each clear_slot_now slots;;
  modify (set_batched [] [] []);;
  flush.

(* include/lazily/context.hpp:1727-1731, ContextImpl::finish_batch *)
Definition finish_batch_with : M V unit := λ c,
  match batch_depth c with
  | O => (Crash, c)
  | S d =>
      let c := set_batch_depth d c in
      if d =? 0 then flush_batched_invalidations_with c else (Val tt, c)
  end.

(** The guard's destructor runs [finish_batch] on both exits; an exception that
    leaves a destructor terminates the program. *)
(* include/lazily/context.hpp:723-730, ContextImpl::batch *)
Definition batch_with {A} (run : M V A) : M V A := λ c,
  let finish (r : outcome A) (c : Ctx V) :=
    match finish_batch_with c with
    | (Val _, c) => (r, c)
    | (Exn _, c) | (Crash, c) => (Crash, c)
    | (OutOfFuel, c) => (OutOfFuel, c)
    end in
  match run (set_batch_depth (S (batch_depth c)) c) with
  | (Val a, c) => finish (Val a) c
  | (Exn e, c) => finish (Exn e) c
  | r => r
  end.

(** Running a closure on the view of [node] at generation [gen]. *)
Fixpoint run_prog {R} (node : SlotId) (gen : nat) (p : prog V R) {struct p} : M V R :=
  match p with
  | Ret r => mret r
  | Raise e => throw e
  | Get tracked h k =>
      (if tracked then modify (track node gen (h_id h)) else mret tt);;
      v ← read_cell (h_id h); run_prog node gen (k v)
  | GetComputed tracked h k =>
      (if tracked then modify (track node gen (h_id h)) else mret tt);;
      v ← get_slot_with (h_id h); run_prog node gen (k v)
  | PeekCell h k => o ← gets (peek_cell h); run_prog node gen (k o)
  | SetCell h v k => write_cell_with (h_id h) v;; run_prog node gen k
  | NewSource v k => h ← source v; run_prog node gen (k h)
  | NewSlot g body k => h ← new_slot g body; run_prog node gen (k h)
  | NewSignal body k => h ← signal_with body; run_prog node gen (k h)
  | NewEffect body k => h ← effect_with body; run_prog node gen (k h)
  | Batch body k => batch_with (run_prog node gen body);; run_prog node gen k
  | DisposeSlot h k => dispose_slot h;; run_prog node gen k
  | DisposeCell h k => dispose_cell h;; run_prog node gen k
  | DisposeEffect h k => dispose_effect h;; run_prog node gen k
  | DisposeId id k => dispose_id id;; run_prog node gen k
  | Log l k => modify (add_log l);; run_prog node gen k
  end.

(** Whether the recomputed value counts as the old one. *)
Definition unchanged_by c id (s : SlotNode V) (old new : V) : bool :=
  match ripple_by c !! id with
  | Some suppress => suppress old new
  | None => s_equals s && bool_decide (old = new)
  end.

(* include/lazily/context.hpp:1463-1515, ContextImpl::recompute_slot_now *)
Definition recompute_slot_now_with id : M V bool := λ c,
  match get_slot_node c id with
  | None => (Val false, c)
  | Some s =>
      let old_deps := s_dependencies s in
      let c := upd_slot (slot_set_dependencies []) id c in
      let c := detach_upstream old_deps id c in
      (result ← run_prog id (node_generation c id) (s_compute s);
       with_state (λ c,
         match get_slot_node c id with
         | None => (Val false, c)
         | Some s =>
             let unchanged := match s_value s with Some old => unchanged_by c id s old result | None => false end in
             let had_value := bool_decide (is_Some (s_value s)) in
             let s := slot_set_flags false false s in
             let s := if unchanged then s else slot_set_value (Some result) s in
             let changed := negb unchanged && had_value in
             let c := set_node id (NSlot s) c in
             (if changed then invalidate_dependents_now id;; mret true else mret false) c
         end)) c
  end.

Fixpoint refresh_dependencies (deps : list SlotId) : M V bool :=
  match deps with
  | [] => mret false
  | dep :: deps =>
      is_slot ← gets (λ c, is_slot_node c dep);
      b ← (if (is_slot : bool) then refresh dep else mret false);
      rest ← refresh_dependencies deps;
      mret ((b : bool) || rest)
  end.

(* include/lazily/context.hpp:1392-1441, ContextImpl::refresh_slot *)
Definition refresh_slot_with id : M V bool := λ c,
  let clean := match get_slot_node c id with
    | Some s => bool_decide (is_Some (s_value s)) && negb (s_dirty s) && negb (s_force_recompute s)
    | None => false
    end in
  if clean then (Val false, c)
  else
    (entered ← enter_refresh id;
     if negb entered then mret false
     else with_guard
       (o ← gets (λ c, get_slot_node c id);
        match o with
        | None => mret false
        | Some s =>
            dependency_changed ← refresh_dependencies (s_dependencies s);
            o ← gets (λ c, get_slot_node c id);
            match o with
            | None => mret false
            | Some s =>
                if bool_decide (s_value s = None) || s_force_recompute s || (dependency_changed : bool)
                then recompute_slot_now_with id
                else modify (clear_slot_dirty_flags id);; mret false
            end
        end)
       (upd_slot (slot_set_in_progress false) id)) c.

Fixpoint any_dependency_changed (deps : list SlotId) : M V bool :=
  match deps with
  | [] => mret false
  | dep :: deps =>
      is_slot ← gets (λ c, is_slot_node c dep);
      b ← (if (is_slot : bool) then refresh dep else mret false);
      if (b : bool) then mret true else any_dependency_changed deps
  end.

(* include/lazily/context.hpp:1715-1725, ContextImpl::effect_should_run *)
Definition effect_should_run_with id : M V bool := λ c,
  match get_effect_node c id with
  | None => (Val false, c)
  | Some e => if e_force_run e then (Val true, c) else any_dependency_changed (e_dependencies e) c
  end.

(* include/lazily/context.hpp:1674-1713, ContextImpl::run_effect *)
Definition run_effect_with id : M V unit :=
  should ← effect_should_run_with id;
  if negb should then mret tt
  else
    modify (remove_pending_effect id);;
    with_state (λ c,
      match get_effect_node c id with
      | None => (Val tt, c)
      | Some e =>
          let c := set_node id (NEffect (mkEffect (e_run e) [] None false)) c in
          let c := detach_upstream (e_dependencies e) id c in
          let c := run_cleanup (e_cleanup e) c in
          (next_cleanup ← run_prog id (node_generation c id) (e_run e);
           with_state (λ c,
             match get_effect_node c id with
             | Some e =>
                 (Val tt, set_node id (NEffect (mkEffect (e_run e) (e_dependencies e) next_cleanup (e_force_run e))) c)
             | None => (Val tt, run_cleanup next_cleanup c)
             end)) c
      end).

End open_recursion.

(** ** Tying the recursion *)

Fixpoint refresh_slot (fuel : nat) (id : SlotId) : M V bool :=
  match fuel with
  | O => out_of_fuel
  | S fuel => refresh_slot_with (refresh_slot fuel) (flush_effects fuel) id
  end
(** The loop of [flush_effects] once [flushing_effects_] is set. *)
with flush_loop (fuel : nat) : M V unit :=
  match fuel with
  | O => out_of_fuel
  | S fuel => λ c,
      match pending_effects c with
      | [] => (Val tt, set_flushing false c)
      | id :: rest =>
          let c := unschedule_effect id (set_schedule rest (effect_scheduled c) c) in
          (run_effect_with (refresh_slot fuel) (flush_effects fuel) id;; flush_loop fuel) c
      end
  end
with flush_effects (fuel : nat) : M V unit :=
  match fuel with
  | O => out_of_fuel
  | S fuel => λ c,
      if flushing_effects c then (Val tt, c) else flush_loop fuel (set_flushing true c)
  end.

Lemma refresh_slot_S fuel id :
  refresh_slot (S fuel) id = refresh_slot_with (refresh_slot fuel) (flush_effects fuel) id.
Proof. reflexivity. Qed.

Lemma flush_loop_S fuel c :
  flush_loop (S fuel) c =
    match pending_effects c with
    | [] => (Val tt, set_flushing false c)
    | id :: rest =>
        (run_effect_with (refresh_slot fuel) (flush_effects fuel) id;; flush_loop fuel)
          (unschedule_effect id (set_schedule rest (effect_scheduled c) c))
    end.
Proof. reflexivity. Qed.

Lemma flush_effects_S fuel c :
  flush_effects (S fuel) c =
    if flushing_effects c then (Val tt, c) else flush_loop fuel (set_flushing true c).
Proof. reflexivity. Qed.

(** ** The public operations

    [fuel] bounds the nesting of refreshes and effect runs. *)

(* include/lazily/context.hpp:666-668, ContextImpl::get(Source) *)
Definition get_source h : M V V := read_cell (h_id h).

(* include/lazily/context.hpp:669-669, ContextImpl::get(Computed) *)
Definition get_computed (fuel : nat) h : M V V := get_slot_with (refresh_slot fuel) (h_id h).

(* include/lazily/context.hpp:676-678, ContextImpl::set *)
Definition set_source (fuel : nat) h (v : V) : M V unit := write_cell_with (flush_effects fuel) (h_id h) v.

Definition effect (fuel : nat) (run : prog V (option nat)) : M V Handle := effect_with (flush_effects fuel) run.

Definition make_eager (fuel : nat) id : M V unit := make_eager_with (flush_effects fuel) id.

Definition signal (fuel : nat) (compute : prog V V) : M V Handle := signal_with (flush_effects fuel) compute.

Definition batch {A} (fuel : nat) (run : M V A) : M V A := batch_with (flush_effects fuel) run.

(* include/lazily/context.hpp:1023-1030, ContextImpl::make_lazy *)
Definition make_lazy id : M V unit := λ c,
  match eager_by c !! id with
  | None => (Val tt, c)
  | Some eff =>
      let c := set_eager_by (delete id (eager_by c)) c in
      dispose_effect eff (upd_slot (slot_set_eager false) id c)
  end.

(* include/lazily/context.hpp:1044-1050, ContextImpl::clear_slot *)
Definition clear_slot id : M V unit := λ c,
  if is_batching c
  then (Val tt, set_batched (batched_cells c) (batched_cell_clears c) (batch_insert id (batched_slots c)) c)
  else clear_slot_now id c.

(* include/lazily/context.hpp:1052-1054, ContextImpl::flush_effects_after_invalidation *)
Definition flush_effects_after_invalidation (fuel : nat) : M V unit := λ c,
  if is_batching c then (Val tt, c) else flush_effects fuel c.

(* include/lazily/context.hpp:1056-1063, ContextImpl::clear_cell_dependents *)
Definition clear_cell_dependents (fuel : nat) id : M V unit := λ c,
  if is_batching c
  then (Val tt, set_batched (batched_cells c) (batch_insert id (batched_cell_clears c)) (batched_slots c) c)
  else (clear_cell_dependents_now id;; flush_effects fuel) c.

(** [Source::merge] folds the operation into the value it peeks; the optional of
    a disposed cell makes [value()] throw. *)
(* include/lazily/cell.hpp:114-118, Source::merge *)
Definition source_merge (fuel : nat) (fold : V → V → V) h (op : V) : M V unit :=
  old ← gets (peek_cell h);
  match old with
  | None => throw BadOptionalAccess
  | Some old => set_source fuel h (fold old op)
  end.

(* include/lazily/cell.hpp:189-192, Computed::clear *)
Definition computed_clear (fuel : nat) h : M V unit :=
  clear_slot (h_id h);; flush_effects_after_invalidation fuel.

(** ** Teardown scopes *)

Inductive OwnedKind := OwnedSource | OwnedComputed | OwnedEffect.

Definition dispose_owned (o : OwnedKind * Handle) : M V unit :=
  match o.1 with
  | OwnedSource => dispose_cell o.2
  | OwnedComputed => dispose_slot o.2
  | OwnedEffect => dispose_effect o.2
  end.

Fixpoint dispose_all (l : list (OwnedKind * Handle)) : M V unit :=
  match l with [] => mret tt | o :: l => dispose_owned o;; dispose_all l end.

(** The scope is the vector of what it owns, in creation order. *)
(* include/lazily/context.hpp:1946-1976, TeardownScopeImpl::computed, slot, source, effect, effect_void *)
Definition scope_create (kind : OwnedKind) (make : M V Handle) (owned : list (OwnedKind * Handle)) :
    M V (Handle * list (OwnedKind * Handle)) :=
  h ← make; mret (h, owned ++ [(kind, h)]).

(* include/lazily/context.hpp:1997-2020, TeardownScopeImpl::end *)
Definition scope_end (owned : list (OwnedKind * Handle)) : M V (list (OwnedKind * Handle)) :=
  dispose_all (rev owned);; mret [].

End engine.
