(* ===== verification/KernelWalk.v ===== *)
(** * KernelWalk: the invalidation walks

    [mark_frontier_locked] and [clear_frontier_locked] loop over an explicit
    stack on a graph that may contain cycles.  They always finish within
    [mark_fuel], and the flags they leave are those of a reachability closure. *)
From S2P Require Import Prelude Kernel.

Section walk.
  Context {V : Type} `{EqDecision V}.
  Implicit Types (c : Ctx V) (ns : gmap SlotId (Node V)) (id : SlotId).

(** ** Termination *)

Definition flag (b : bool) : nat := if b then 0 else 1.

(** Every push of the marking walk is paid by a flag that was false and becomes true. *)
Definition mark_credit (n : Node V) : nat :=
  match n with
  | NSlot s => (flag (s_dirty s) + flag (s_force_recompute s)) * length (s_dependents s)
  | _ => 0
  end.

Lemma length_push_all {A} (l st : list A) : length (push_all l st) = length l + length st.
Proof. unfold push_all. by rewrite length_app, length_rev. Qed.

Lemma mark_step_credit ns id force st eff ns' st' eff' :
  mark_step ns id force st eff = (ns', st', eff') →
  length st' + map_sum mark_credit ns' ≤ length st + map_sum mark_credit ns.
Proof.
  unfold mark_step. destruct (ns !! id) as [[s|?|?]|] eqn:E; intros [= <- <- <-]; try lia.
  pose proof (map_sum_insert mark_credit ns id (NSlot s)
    (NSlot (slot_set_flags true (force || s_force_recompute s) s)) E) as Hs.
  unfold mark_credit in Hs at 2 4. simpl in Hs.
  destruct (s_dirty s), force, (s_force_recompute s); simpl in *;
    rewrite ?length_push_all, ?length_fmap; lia.
Qed.

Lemma mark_loop_total fuel : ∀ ns st eff,
  length st + map_sum mark_credit ns ≤ fuel → is_Some (mark_loop fuel ns st eff).
Proof.
  induction fuel as [|fuel IH]; intros ns [|[id force] st] eff Hf; simpl in *; eauto; [lia|].
  destruct (mark_step _ _ _ _ _) as [[ns' st'] eff'] eqn:E.
  apply mark_step_credit in E. apply IH. lia.
Qed.

Lemma mark_credit_total ns : map_sum mark_credit ns ≤ 2 * total_degree ns.
Proof.
  unfold total_degree. rewrite <- map_sum_scale. apply map_sum_le. intros [s| |]; simpl; try lia.
  destruct (s_dirty s), (s_force_recompute s); simpl; lia.
Qed.

Lemma mark_loop_fuel ns roots eff :
  is_Some (mark_loop (mark_fuel ns roots) ns (push_all ((λ r, (r, true)) <$> roots) []) eff).
Proof.
  apply mark_loop_total. rewrite length_push_all, length_fmap. simpl. unfold mark_fuel.
  pose proof (mark_credit_total ns). lia.
Qed.

Definition clear_credit (n : Node V) : nat :=
  match n with
  | NSlot s => (if bool_decide (s_value s = None) && negb (s_dirty s) then 0 else 1) * length (s_dependents s)
  | _ => 0
  end.

Lemma clear_step_credit ns id st eff ns' st' eff' :
  clear_step ns id st eff = (ns', st', eff') →
  length st' + map_sum clear_credit ns' ≤ length st + map_sum clear_credit ns.
Proof.
  unfold clear_step. destruct (ns !! id) as [[s|?|?]|] eqn:E; try (intros [= <- <- <-]; lia).
  destruct (bool_decide _ && _) eqn:Eb; intros [= <- <- <-]; [lia|].
  pose proof (map_sum_insert clear_credit ns id (NSlot s)
    (NSlot (slot_set_flags false false (slot_set_value None s))) E) as Hs.
  unfold clear_credit in Hs at 2 4. rewrite Eb in Hs. simpl in Hs.
  rewrite length_push_all. lia.
Qed.

Lemma clear_loop_total fuel : ∀ ns st eff,
  length st + map_sum clear_credit ns ≤ fuel → is_Some (clear_loop fuel ns st eff).
Proof.
  induction fuel as [|fuel IH]; intros ns [|id st] eff Hf; simpl in *; eauto; [lia|].
  destruct (clear_step _ _ _ _) as [[ns' st'] eff'] eqn:E.
  apply clear_step_credit in E. apply IH. lia.
Qed.

Lemma clear_loop_fuel ns roots eff : is_Some (clear_loop (mark_fuel ns roots) ns (push_all roots []) eff).
Proof.
  apply clear_loop_total. rewrite length_push_all. simpl. unfold mark_fuel, total_degree. rewrite <- map_sum_scale.
  pose proof (map_sum_le clear_credit (λ n, 2 * node_degree n) ns) as Hle.
  rewrite Nat.add_0_r. apply Nat.add_le_mono_l, Hle. intros [s| |]; simpl; try lia.
  destruct (bool_decide _ && _); lia.
Qed.

(** C4: The invalidation walks terminate on every graph, cyclic ones included:
    marking and clearing from any roots return a list of effects, change
    nothing but the node table, and never run out of the walk's budget. *)
Theorem invalidation_walks_terminate (roots : list SlotId) (c : Ctx V) :
  (∃ effects ns, mark_frontier_locked roots c = (Val effects, set_nodes ns c)) ∧
  (∃ effects ns, clear_frontier_locked roots c = (Val effects, set_nodes ns c)).
Proof.
  unfold mark_frontier_locked, clear_frontier_locked. split.
  - destruct (mark_loop_fuel (nodes c) roots []) as [[eff ns] ->]. eauto.
  - destruct (clear_loop_fuel (nodes c) roots []) as [[eff ns] ->]. eauto.
Qed.

(** ** What marking does to the flags *)

(** A clean slot answers a read from its cache; [refresh_slot] tests this first. *)
Definition s_clean (s : SlotNode V) : bool :=
  bool_decide (is_Some (s_value s)) && negb (s_dirty s) && negb (s_force_recompute s).

Definition clean ns id : Prop := ∀ s, ns !! id = Some (NSlot s) → s_clean s = true.
Definition stale ns id : Prop := ∀ s, ns !! id = Some (NSlot s) → s_clean s = false.

(** A forced slot is dirty. *)
Definition force_dirty ns : Prop :=
  ∀ id s, ns !! id = Some (NSlot s) → s_force_recompute s = true → s_dirty s = true.

(** Staleness reaches every dependent. *)
Definition stale_up ns : Prop :=
  ∀ id s d, ns !! id = Some (NSlot s) → s_clean s = false → d ∈ s_dependents s → stale ns d.

(** Marking only raises flags of slots. *)
Definition flags_grow ns ns' : Prop := ∀ id,
  ns' !! id = ns !! id ∨
  ∃ s f, ns !! id = Some (NSlot s) ∧ ns' !! id = Some (NSlot (slot_set_flags true f s)) ∧
    (s_force_recompute s = true → f = true).

Definition no_effect_nodes ns : Prop := ∀ id e, ns !! id ≠ Some (NEffect e).

Lemma s_clean_true s :
  s_clean s = true ↔ is_Some (s_value s) ∧ s_dirty s = false ∧ s_force_recompute s = false.
Proof. unfold s_clean. rewrite !andb_true_iff, !negb_true_iff, bool_decide_eq_true. tauto. Qed.

Lemma s_clean_dirty s : s_dirty s = true → s_clean s = false.
Proof. intros Hd. unfold s_clean. rewrite Hd. by rewrite andb_false_r. Qed.

Lemma flags_grow_refl ns : flags_grow ns ns.
Proof. by left. Qed.

Lemma flags_grow_trans ns1 ns2 ns3 : flags_grow ns1 ns2 → flags_grow ns2 ns3 → flags_grow ns1 ns3.
Proof.
  intros H1 H2 id. destruct (H1 id) as [E1|(s & f & Hs & Hs' & Hf)], (H2 id) as [E2|(s2 & f2 & Hs2 & Hs2' & Hf2)].
  - left. congruence.
  - right. exists s2, f2. rewrite <- E1. auto.
  - right. exists s, f. rewrite E2. auto.
  - right. rewrite Hs' in Hs2. simplify_eq. exists s, f2. split_and!; auto.
Qed.

Lemma flags_grow_slot ns ns' id s' :
  flags_grow ns ns' → ns' !! id = Some (NSlot s') →
  ∃ s, ns !! id = Some (NSlot s) ∧ s' = slot_set_flags (s_dirty s') (s_force_recompute s') s ∧
    (s_dirty s = true → s_dirty s' = true) ∧ (s_force_recompute s = true → s_force_recompute s' = true) ∧
    (s_clean s = false → s_clean s' = false).
Proof.
  intros Hg Hi. destruct (Hg id) as [E|(s & f & Hs & Hs' & Hf)].
  - exists s'. rewrite <- E. split_and!; auto. by destruct s'.
  - exists s. rewrite Hi in Hs'. simplify_eq. split_and!; auto. intros _. by apply s_clean_dirty.
Qed.

Lemma flags_grow_slot_fwd ns ns' id s :
  flags_grow ns ns' → ns !! id = Some (NSlot s) →
  ∃ d f, ns' !! id = Some (NSlot (slot_set_flags d f s)) ∧
    (s_dirty s = true → d = true) ∧ (s_force_recompute s = true → f = true).
Proof.
  intros Hg Hi. destruct (Hg id) as [E|(s1 & f & Hs & Hs' & Hf)].
  - exists (s_dirty s), (s_force_recompute s). split_and!; auto. rewrite E, Hi. by destruct s.
  - simplify_eq. eauto.
Qed.

Lemma flags_grow_other ns ns' id n :
  flags_grow ns ns' → (∀ s, n ≠ NSlot s) → ns !! id = Some n ↔ ns' !! id = Some n.
Proof. intros Hg Hn. destruct (Hg id) as [->|(s & f & -> & -> & _)]; [done|]. naive_solver. Qed.

Lemma flags_grow_stale ns ns' id : flags_grow ns ns' → stale ns id → stale ns' id.
Proof. intros Hg Hs s' Hi. destruct (flags_grow_slot _ _ _ _ Hg Hi) as (s & ? & ? & ? & ? & Hc). eauto. Qed.

(** The invariant of the loop: the dependents of a dirty slot are stale, or wait on the stack. *)
Definition walk_inv ns (st : list (SlotId * bool)) : Prop :=
  ∀ id s d, ns !! id = Some (NSlot s) → s_dirty s = true → d ∈ s_dependents s →
    stale ns d ∨ d ∈ st.*1.

(** A set of nodes that contains the dependents of its members. *)
Definition up_closed (U : SlotId → Prop) ns : Prop :=
  ∀ id s d, ns !! id = Some (NSlot s) → U id → d ∈ s_dependents s → U d.

Lemma elem_of_push_all {A} (l st : list A) x : x ∈ push_all l st ↔ x ∈ l ∨ x ∈ st.
Proof. unfold push_all. by rewrite elem_of_app, !list_elem_of_In, <- in_rev. Qed.

Lemma fst_push_all (l : list SlotId) (st : list (SlotId * bool)) b x :
  x ∈ (push_all ((λ d, (d, b)) <$> l) st).*1 ↔ x ∈ l ∨ x ∈ st.*1.
Proof.
  rewrite !list_elem_of_fmap. split.
  - intros (y & -> & [(d & -> & Hd)%list_elem_of_fmap|Hy]%elem_of_push_all); eauto.
  - intros [Hx|(y & -> & Hy)].
    + exists (x, b). split; [done|]. apply elem_of_push_all. left. apply list_elem_of_fmap. eauto.
    + exists y. split; [done|]. apply elem_of_push_all. by right.
Qed.

Lemma mark_step_inv ns id force st eff ns' st' eff' :
  mark_step ns id force st eff = (ns', st', eff') →
  walk_inv ns ((id, force) :: st) → force_dirty ns →
  flags_grow ns ns' ∧ force_dirty ns' ∧ walk_inv ns' st' ∧
  (∀ x, x ∈ st → x ∈ st') ∧
  (∀ s, force = true → ns' !! id = Some (NSlot s) → s_force_recompute s = true).
Proof.
  intros Hstep Hw Hfd. unfold mark_step in Hstep.
  destruct (ns !! id) as [[s|cl|e]|] eqn:E; simplify_eq.
  2-4: split_and!; [apply flags_grow_refl|done| |done|intros; congruence];
    intros j sj d Hj Hdj Hd; destruct (Hw j sj d Hj Hdj Hd) as [?|[->|?]%elem_of_cons];
    simpl in *; auto; left; intros s Hs; congruence.
  assert (Hg : flags_grow ns (<[id:=NSlot (slot_set_flags true (force || s_force_recompute s) s)]> ns)).
  { intros k. destruct (decide (k = id)) as [->|]; [|left; by rewrite lookup_insert_ne].
    right. exists s, (force || s_force_recompute s). rewrite lookup_insert_eq.
    split_and!; [done|done|]. intros ->. apply orb_true_r. }
  split_and!; [done| | | |].
  - intros k sk. destruct (decide (k = id)) as [->|]; [rewrite lookup_insert_eq|rewrite lookup_insert_ne by done].
    + by intros [= <-].
    + eauto.
  - intros j sj d Hj Hdj Hd.
    assert (Hnew : d = id → stale (<[id:=NSlot (slot_set_flags true (force || s_force_recompute s) s)]> ns) d).
    { intros ->. intros s'. rewrite lookup_insert_eq. intros [= <-]. by apply s_clean_dirty. }
    destruct (decide (d = id)) as [Hdid|Hdid]; [by left; apply Hnew|].
    assert (Hold : stale ns d ∨ d ∈ st.*1 → stale (<[id:=NSlot (slot_set_flags true (force || s_force_recompute s) s)]> ns) d ∨
      d ∈ (if negb (s_dirty s) || force && negb (s_force_recompute s)
           then push_all ((λ d, (d, false)) <$> s_dependents s) st else st).*1).
    { intros [?|?]; [left; by eapply flags_grow_stale|right].
      destruct (negb _ || _); [rewrite fst_push_all|]; auto. }
    destruct (decide (j = id)) as [->|Hj'].
    + rewrite lookup_insert_eq in Hj. injection Hj as <-. simpl in Hd.
      destruct (s_dirty s) eqn:Hds; simpl.
      * simpl in Hold. apply Hold.
        destruct (Hw id s d E Hds Hd) as [?|[?|?]%elem_of_cons]; auto. by simpl in *.
      * right. apply fst_push_all. by left.
    + rewrite lookup_insert_ne in Hj by done. apply Hold.
      destruct (Hw j sj d Hj Hdj Hd) as [?|[?|?]%elem_of_cons]; auto. by simpl in *.
  - intros x Hx. destruct (negb _ || _); [apply elem_of_push_all; by right|done].
  - intros s' ->. rewrite lookup_insert_eq. by intros [= <-].
Qed.

Lemma mark_step_frame (U : SlotId → Prop) ns id force st eff ns' st' eff' :
  mark_step ns id force st eff = (ns', st', eff') →
  up_closed U ns → (∀ x, x ∈ ((id, force) :: st).*1 → U x) →
  up_closed U ns' ∧ (∀ x, x ∈ st'.*1 → U x) ∧ (∀ k, ¬ U k → ns' !! k = ns !! k).
Proof.
  intros Hstep Hup HU. simpl in HU. assert (HUid : U id) by (apply HU; left).
  assert (HUst : ∀ x, x ∈ st.*1 → U x) by (intros; apply HU; by right).
  unfold mark_step in Hstep. destruct (ns !! id) as [[s|cl|e]|] eqn:E; simplify_eq; auto.
  split_and!.
  - intros j sj d. destruct (decide (j = id)) as [->|]; [rewrite lookup_insert_eq|rewrite lookup_insert_ne by done].
    + intros [= <-]. simpl. intros. by eapply Hup.
    + eauto.
  - intros x. destruct (negb _ || _); [rewrite fst_push_all|]; eauto. intros [?|?]; eauto.
  - intros k Hk. rewrite lookup_insert_ne; [done|]. by intros <-.
Qed.

Lemma mark_loop_spec fuel : ∀ ns st eff eff' ns',
  mark_loop fuel ns st eff = Some (eff', ns') → walk_inv ns st → force_dirty ns →
  flags_grow ns ns' ∧ force_dirty ns' ∧ walk_inv ns' [] ∧
  (∀ r s, (r, true) ∈ st → ns' !! r = Some (NSlot s) → s_force_recompute s = true) ∧
  (∀ U, up_closed U ns → (∀ x, x ∈ st.*1 → U x) → ∀ k, ¬ U k → ns' !! k = ns !! k) ∧
  (no_effect_nodes ns → eff' = eff).
Proof.
  induction fuel as [|fuel IH]; intros ns [|[id force] st] eff eff' ns' Hl Hw Hfd; simpl in Hl; simplify_eq.
  1-2: split_and!; auto using flags_grow_refl; intros r s Hr; by apply elem_of_nil in Hr.
  destruct (mark_step _ _ _ _ _) as [[ns1 st1] eff1] eqn:E.
  destruct (mark_step_inv _ _ _ _ _ _ _ _ E Hw Hfd) as (Hg & Hfd1 & Hw1 & Hst & Hforce).
  destruct (IH _ _ _ _ _ Hl Hw1 Hfd1) as (Hg' & ? & ? & Hroots & Hframe & Heff).
  split_and!; [by eapply flags_grow_trans|done|done| | |].
  - intros r s [[= -> <-]|Hr]%elem_of_cons Hs; [|eauto].
    destruct (flags_grow_slot _ _ _ _ Hg' Hs) as (s1 & Hs1 & _ & _ & Hf & _). eauto.
  - intros U Hup HU k Hk.
    destruct (mark_step_frame U _ _ _ _ _ _ _ _ E Hup HU) as (? & ? & Hf1).
    rewrite (Hframe U), Hf1; auto.
  - intros Hne. rewrite Heff.
    + unfold mark_step in E. destruct (ns !! id) as [[]|] eqn:Hid; simplify_eq; auto. by destruct (Hne id e).
    + intros k e. destruct (Hg k) as [->|(? & ? & _ & -> & _)]; auto.
Qed.

(** The effect of [mark_frontier_locked] on a graph without effects. *)
Lemma mark_frontier_spec c roots :
  no_effect_nodes (nodes c) → force_dirty (nodes c) → stale_up (nodes c) →
  ∃ ns, mark_frontier_locked roots c = (Val [], set_nodes ns c) ∧
    flags_grow (nodes c) ns ∧ force_dirty ns ∧ stale_up ns ∧
    (∀ r s, r ∈ roots → ns !! r = Some (NSlot s) → s_force_recompute s = true) ∧
    (∀ U, up_closed U (nodes c) → (∀ x, x ∈ roots → U x) → ∀ k, ¬ U k → ns !! k = nodes c !! k).
Proof.
  intros Hne Hfd Hup. unfold mark_frontier_locked.
  destruct (mark_loop_fuel (nodes c) roots []) as [[eff ns] E]. rewrite E.
  apply mark_loop_spec in E as (Hg & Hfd' & Hw & Hroots & Hframe & Heff); [| |done].
  - rewrite Heff by done. exists ns. split_and!; [done|done|done| | |].
    + intros j s d Hj Hst Hd. destruct (s_dirty s) eqn:Hds.
      { destruct (Hw j s d Hj Hds Hd) as [?|?]; [done|set_solver]. }
      destruct (flags_grow_slot _ _ _ _ Hg Hj) as (s0 & Hs0 & Heq & Hd0 & _ & _).
      assert (Hv : s_value s = s_value s0) by (by rewrite Heq).
      assert (Hdp : s_dependents s = s_dependents s0) by (by rewrite Heq).
      eapply flags_grow_stale; [done|]. rewrite Hdp in Hd. eapply Hup; [done| |done].
      unfold s_clean in *. rewrite Hv, Hds in Hst. destruct (bool_decide _); [|done].
      destruct (s_force_recompute s) eqn:Hf; [|done]. by rewrite (Hfd' _ _ Hj) in Hds.
    + intros r s Hr. apply Hroots, elem_of_push_all. left. apply list_elem_of_fmap. eauto.
    + intros U HU Hr. apply Hframe; [done|]. intros x. rewrite fst_push_all. intros [?|?]; [auto|set_solver].
  - intros j s d Hj Hds Hd. left. eapply Hup; [done| |done]. by apply s_clean_dirty.
Qed.

End walk.
