(* ===== verification/KernelCorrect.v ===== *)
(** * KernelCorrect: incremental recomputation agrees with recomputing everything

    The specification of the reactive graph keeps no cache: a read evaluates the
    formula it asks for over the current values of the sources.  The theorem at
    the end of the file says that the engine of Kernel.v, with its caches, dirty
    flags, dynamic edges and batches, gives the same answers on every sequence of
    operations, as long as the formulas are pure: they read only through the
    tracking view, and only cells that existed when they were created. *)
From S2P Require Import Prelude Kernel KernelWalk.

Section pure.
  Context {V : Type} `{EqDecision V}.
  Implicit Types (c : Ctx V) (ns : gmap SlotId (Node V)) (i j : SlotId).

(** ** Specification *)

Inductive spec_node := SSource (v : V) | SComputed (p : prog V V).
Implicit Types (g : list spec_node).

(** The value of a formula over the values of the cells. *)
Fixpoint eval {R} (rho : SlotId → option V) (p : prog V R) : option R :=
  match p with
  | Ret r => Some r
  | Get _ h k | GetComputed _ h k =>
      match rho (h_id h) with Some v => eval rho (k v) | None => None end
  | _ => None
  end.

Definition spec_node_value (vs : list (option V)) (n : spec_node) : option V :=
  match n with
  | SSource v => Some v
  | SComputed p => eval (λ i, mjoin (vs !! i)) p
  end.
Definition spec_values g : list (option V) :=
  foldl (λ vs n, vs ++ [spec_node_value vs n]) [] g.
Definition spec_get g i : option V := mjoin (spec_values g !! i).

(** A pure formula reads, through the view, cells older than its own. *)
Definition is_source g i : Prop := match g !! i with Some (SSource _) => True | _ => False end.
Definition is_computed g i : Prop := match g !! i with Some (SComputed _) => True | _ => False end.

Inductive reads_ok g (n : SlotId) : prog V V → Prop :=
  | reads_ret v : reads_ok g n (Ret v)
  | reads_get h k :
      h_id h < n → is_source g (h_id h) → (∀ v, reads_ok g n (k v)) → reads_ok g n (Get true h k)
  | reads_get_computed h k :
      h_id h < n → is_computed g (h_id h) → (∀ v, reads_ok g n (k v)) → reads_ok g n (GetComputed true h k).

Definition graph_ok g : Prop := ∀ i p, g !! i = Some (SComputed p) → reads_ok g i p.

Lemma spec_values_snoc g n : spec_values (g ++ [n]) = spec_values g ++ [spec_node_value (spec_values g) n].
Proof. unfold spec_values. by rewrite foldl_app. Qed.

Lemma length_spec_values g : length (spec_values g) = length g.
Proof.
  induction g as [|n g IH] using rev_ind; [done|].
  rewrite spec_values_snoc, !length_app, IH. done.
Qed.

Lemma spec_values_prefix g g' : spec_values g `prefix_of` spec_values (g ++ g').
Proof.
  induction g' as [|n g' IH] using rev_ind; [by rewrite app_nil_r|].
  rewrite app_assoc, spec_values_snoc. by apply prefix_app_r.
Qed.

Lemma spec_get_app g g' i : i < length g → spec_get (g ++ g') i = spec_get g i.
Proof.
  intros Hi. unfold spec_get. destruct (spec_values_prefix g g') as [l ->].
  rewrite lookup_app_l; [done|]. by rewrite length_spec_values.
Qed.

Lemma spec_get_unfold g i n :
  g !! i = Some n → spec_get g i = spec_node_value (spec_values (take i g)) n.
Proof.
  intros Hi. pose proof (lookup_lt_Some _ _ _ Hi) as Hlt.
  rewrite <- (take_drop_middle g i n Hi) at 1. rewrite cons_middle, app_assoc.
  assert (Hl : length (take i g) = i) by (rewrite length_take; lia).
  rewrite spec_get_app by (rewrite length_app; simpl; lia).
  unfold spec_get. rewrite spec_values_snoc, list_lookup_middle; [done|].
  by rewrite length_spec_values.
Qed.

Lemma spec_get_take g i j : j < i → i ≤ length g → spec_get (take i g) j = spec_get g j.
Proof.
  intros. rewrite <- (take_drop i g) at 2. rewrite spec_get_app; [done|].
  rewrite length_take. lia.
Qed.

Lemma spec_get_source g i v : g !! i = Some (SSource v) → spec_get g i = Some v.
Proof. intros Hi. by rewrite (spec_get_unfold _ _ _ Hi). Qed.

(** ** Evaluation over cached values *)

(** [p] evaluates to [v] reading only cells of [ds]. *)
Inductive evals (rho : SlotId → option V) (ds : list SlotId) : prog V V → V → Prop :=
  | evals_ret v : evals rho ds (Ret v) v
  | evals_get t h k x v : h_id h ∈ ds → rho (h_id h) = Some x → evals rho ds (k x) v → evals rho ds (Get t h k) v
  | evals_get_computed t h k x v :
      h_id h ∈ ds → rho (h_id h) = Some x → evals rho ds (k x) v → evals rho ds (GetComputed t h k) v.

Lemma evals_mono rho rho' ds ds' p v :
  evals rho ds p v → (∀ j, j ∈ ds → j ∈ ds') →
  (∀ j x, j ∈ ds → rho j = Some x → rho' j = Some x) → evals rho' ds' p v.
Proof. intros He Hds Hr. induction He; econstructor; eauto. Qed.

Lemma evals_eval rho rho' ds p v :
  evals rho ds p v → (∀ j x, j ∈ ds → rho j = Some x → rho' j = Some x) → eval rho' p = Some v.
Proof. intros He Hr. induction He; simpl; [done|by erewrite Hr by eauto..]. Qed.

(** ** The invariant *)

Definition deps_of ns i : list SlotId :=
  match ns !! i with Some (NSlot s) => s_dependencies s | _ => [] end.
Definition dpts_of ns i : list SlotId :=
  match ns !! i with
  | Some (NSlot s) => s_dependents s
  | Some (NCell cell) => c_dependents cell
  | _ => []
  end.
Definition cval ns i : option V :=
  match ns !! i with
  | Some (NSlot s) => s_value s
  | Some (NCell cell) => Some (c_value cell)
  | _ => None
  end.

Record edges_ok ns : Prop := {
  edges_sym : ∀ i j, j ∈ deps_of ns i ↔ i ∈ dpts_of ns j;
  edges_lt : ∀ i j, j ∈ deps_of ns i → j < i;
  edges_nodup_deps : ∀ i, NoDup (deps_of ns i);
  edges_nodup_dpts : ∀ i, NoDup (dpts_of ns i);
}.

Definition node_matches (n : option spec_node) (m : option (Node V)) : Prop :=
  match n, m with
  | Some (SSource v), Some (NCell cell) => c_value cell = v
  | Some (SComputed p), Some (NSlot s) => s_compute s = p
  | None, None => True
  | _, _ => False
  end.

(** [X] holds the slots whose closure is running; [E] the cells whose change has
    not been announced to their dependents. *)
Record Inv (g : list spec_node) (X E : SlotId → Prop) ns : Prop := {
  inv_ok : graph_ok g;
  inv_dom : ∀ i, node_matches (g !! i) (ns !! i);
  inv_edges : edges_ok ns;
  inv_fd : force_dirty ns;
  inv_up : stale_up ns;
  inv_cache : ∀ i s v,
    ns !! i = Some (NSlot s) → ¬ X i → s_value s = Some v → s_force_recompute s = false →
    (∀ j, E j → j ∉ s_dependencies s) → evals (cval ns) (s_dependencies s) (s_compute s) v;
}.

Definition none (i : SlotId) : Prop := False.

Lemma Inv_weaken g (X X' E E' : SlotId → Prop) ns :
  Inv g X E ns → (∀ i, X i → X' i) → (∀ i, E i → E' i) → Inv g X' E' ns.
Proof. intros [] HX HE. split; auto. intros. eapply inv_cache0; eauto. Qed.

Lemma inv_no_effects g X E ns : Inv g X E ns → no_effect_nodes ns.
Proof.
  intros HI i e Hi. pose proof (inv_dom _ _ _ _ HI i) as Hd. rewrite Hi in Hd.
  unfold node_matches in Hd. by destruct (g !! i) as [[]|].
Qed.

Lemma inv_slot g X E ns i : Inv g X E ns → is_computed g i → ∃ s, ns !! i = Some (NSlot s).
Proof.
  intros HI Hi. pose proof (inv_dom _ _ _ _ HI i) as Hd. unfold is_computed, node_matches in *.
  destruct (g !! i) as [[]|], (ns !! i) as [[]|]; naive_solver.
Qed.

Lemma inv_cell g X E ns i : Inv g X E ns → is_source g i → ∃ cell, ns !! i = Some (NCell cell).
Proof.
  intros HI Hi. pose proof (inv_dom _ _ _ _ HI i) as Hd. unfold is_source, node_matches in *.
  destruct (g !! i) as [[]|], (ns !! i) as [[]|]; naive_solver.
Qed.

Lemma inv_compute g X E ns i s :
  Inv g X E ns → ns !! i = Some (NSlot s) → g !! i = Some (SComputed (s_compute s)).
Proof.
  intros HI Hi. pose proof (inv_dom _ _ _ _ HI i) as Hd. rewrite Hi in Hd.
  unfold node_matches in Hd. destruct (g !! i) as [[]|]; naive_solver.
Qed.

Lemma clean_dep g X E ns i j s :
  Inv g X E ns → ns !! i = Some (NSlot s) → s_clean s = true → j ∈ s_dependencies s → clean ns j.
Proof.
  intros HI Hi Hc Hj sj Hsj. destruct (s_clean sj) eqn:E1; [done|].
  rewrite <- Hc. symmetry. eapply (inv_up _ _ _ _ HI); [done|done| |done].
  pose proof (edges_sym _ (inv_edges _ _ _ _ HI) i j) as Hs.
  unfold deps_of, dpts_of in Hs. rewrite Hi, Hsj in Hs. by apply Hs.
Qed.

(** A clean cache holds the value of the specification. *)
Lemma clean_value g ns i s :
  Inv g none none ns → ns !! i = Some (NSlot s) → s_clean s = true → s_value s = spec_get g i.
Proof.
  intros HI. revert s. induction (lt_wf i) as [i _ IH]. intros s Hi Hc.
  pose proof (inv_compute _ _ _ _ _ _ HI Hi) as Hg. rewrite (spec_get_unfold _ _ _ Hg). simpl.
  apply s_clean_true in Hc as Hc'. destruct Hc' as ([v Hv] & _ & Hf). rewrite Hv. symmetry.
  eapply evals_eval; [by eapply (inv_cache _ _ _ _ HI); eauto|].
  intros j x Hj Hx. assert (Hlt : j < i).
  { eapply (edges_lt _ (inv_edges _ _ _ _ HI) i). unfold deps_of. by rewrite Hi. }
  pose proof (lookup_lt_Some _ _ _ Hg). fold (spec_get (take i g) j). rewrite spec_get_take by lia.
  unfold cval in Hx. destruct (ns !! j) as [[sj|cell|?]|] eqn:Ej; simplify_eq.
  - rewrite <- (IH j Hlt sj Ej); [done|]. by apply (clean_dep _ _ _ _ i j s HI Hi Hc Hj).
  - pose proof (inv_dom _ _ _ _ HI j) as Hd. rewrite Ej in Hd. unfold node_matches in Hd.
    destruct (g !! j) as [[w|?]|] eqn:Egj; try done. by rewrite (spec_get_source _ _ _ Egj), Hd.
Qed.

(** ** State changes as updates of single nodes *)

Definition map_dpts (f : list SlotId → list SlotId) (n : Node V) : Node V :=
  match n with
  | NSlot s => NSlot (slot_set_dependents (f (s_dependents s)) s)
  | NCell cell => NCell (mkCell (c_value cell) (f (c_dependents cell)))
  | NEffect e => NEffect e
  end.
Definition map_deps (f : list SlotId → list SlotId) (n : Node V) : Node V :=
  match n with
  | NSlot s => NSlot (slot_set_dependencies (f (s_dependencies s)) s)
  | NEffect e => NEffect (mkEffect (e_run e) (f (e_dependencies e)) (e_cleanup e) (e_force_run e))
  | NCell cell => NCell cell
  end.
Definition map_slot (f : SlotNode V → SlotNode V) (n : Node V) : Node V :=
  match n with NSlot s => NSlot (f s) | _ => n end.

Lemma set_nodes_id c : set_nodes (nodes c) c = c.
Proof. by destruct c. Qed.

Lemma set_nodes_same ns c : ns = nodes c → c = set_nodes ns c.
Proof. intros ->. by rewrite set_nodes_id. Qed.

Lemma upd_dependents_eq f i c : upd_dependents f i c = set_nodes (alter (map_dpts f) i (nodes c)) c.
Proof.
  unfold upd_dependents, get_node. destruct (nodes c !! i) as [n|] eqn:E.
  - rewrite (alter_Some _ _ _ _ E).
    destruct n; simpl; [done..|]. rewrite (insert_id _ _ _ E). by rewrite set_nodes_id.
  - rewrite alter_id; [by rewrite set_nodes_id|]. congruence.
Qed.

Lemma upd_dependencies_eq f i c : upd_dependencies f i c = set_nodes (alter (map_deps f) i (nodes c)) c.
Proof.
  unfold upd_dependencies, get_node. destruct (nodes c !! i) as [n|] eqn:E.
  - rewrite (alter_Some _ _ _ _ E).
    destruct n; simpl; [done| |done]. rewrite (insert_id _ _ _ E). by rewrite set_nodes_id.
  - rewrite alter_id; [by rewrite set_nodes_id|]. congruence.
Qed.

Lemma upd_slot_eq f i c : upd_slot f i c = set_nodes (alter (map_slot f) i (nodes c)) c.
Proof.
  unfold upd_slot, get_slot_node, get_node. destruct (nodes c !! i) as [n|] eqn:E.
  - rewrite (alter_Some _ _ _ _ E).
    destruct n; simpl; [done|rewrite (insert_id _ _ _ E); by rewrite set_nodes_id..].
  - rewrite alter_id; [by rewrite set_nodes_id|]. congruence.
Qed.

Definition detach_nodes (deps : list SlotId) i ns : gmap SlotId (Node V) :=
  foldl (λ ns dep, alter (map_dpts (edge_remove i)) dep ns) ns deps.

Lemma detach_upstream_eq deps i c : detach_upstream deps i c = set_nodes (detach_nodes deps i (nodes c)) c.
Proof.
  unfold detach_upstream, detach_nodes. revert c. induction deps as [|d deps IH]; intros c; simpl.
  { by rewrite set_nodes_id. }
  rewrite IH. unfold remove_dependent_edge. by rewrite upd_dependents_eq.
Qed.

(** Nodes up to their reverse edges. *)
Definition redep ns ns' i : Prop := ∃ d, ns' !! i = map_dpts (λ _, d) <$> ns !! i.

Lemma redep_refl ns ns' i : ns' !! i = ns !! i → redep ns ns' i.
Proof. intros E. exists (dpts_of ns i). unfold dpts_of. rewrite E. by destruct (ns !! i) as [[[]|[]|[]]|]. Qed.

Lemma redep_trans ns1 ns2 ns3 i : redep ns1 ns2 i → redep ns2 ns3 i → redep ns1 ns3 i.
Proof. intros [d1 H1] [d2 H2]. exists d2. rewrite H2, H1. by destruct (ns1 !! i) as [[]|]. Qed.

Lemma redep_alter f j ns i : redep ns (alter (map_dpts f) j ns) i.
Proof.
  destruct (decide (i = j)) as [->|].
  - exists (f (dpts_of ns j)). rewrite lookup_alter_eq. unfold dpts_of. by destruct (ns !! j) as [[]|].
  - apply redep_refl. by rewrite lookup_alter_ne.
Qed.

Lemma detach_nodes_redep deps i ns k : redep ns (detach_nodes deps i ns) k.
Proof.
  unfold detach_nodes. revert ns. induction deps as [|d deps IH]; intros ns; simpl; [by apply redep_refl|].
  eapply redep_trans; [apply redep_alter|apply IH].
Qed.

Lemma redep_deps_of ns ns' i : redep ns ns' i → deps_of ns' i = deps_of ns i.
Proof. intros [d E]. unfold deps_of. rewrite E. by destruct (ns !! i) as [[]|]. Qed.

Lemma redep_cval ns ns' i : redep ns ns' i → cval ns' i = cval ns i.
Proof. intros [d E]. unfold cval. rewrite E. by destruct (ns !! i) as [[]|]. Qed.

Lemma redep_slot ns ns' i s' :
  redep ns ns' i → ns' !! i = Some (NSlot s') →
  ∃ s, ns !! i = Some (NSlot s) ∧ s' = slot_set_dependents (s_dependents s') s.
Proof.
  intros [d E] Hi. rewrite Hi in E. destruct (ns !! i) as [[s| |]|]; simplify_eq/=. by exists s.
Qed.

Lemma redep_slot_fwd ns ns' i s :
  redep ns ns' i → ns !! i = Some (NSlot s) → ∃ d, ns' !! i = Some (NSlot (slot_set_dependents d s)).
Proof. intros [d E] Hi. exists d. by rewrite E, Hi. Qed.

Lemma dpts_alter f j ns k :
  dpts_of (alter (map_dpts f) j ns) k =
    if decide (k = j) then match ns !! k with Some (NSlot _) | Some (NCell _) => f (dpts_of ns k) | _ => [] end
    else dpts_of ns k.
Proof.
  unfold dpts_of. case_decide as Hk.
  - subst. rewrite lookup_alter_eq. by destruct (ns !! j) as [[]|].
  - by rewrite lookup_alter_ne.
Qed.

Lemma dpts_detach deps i ns k x :
  (∀ k, NoDup (dpts_of ns k)) →
  NoDup (dpts_of (detach_nodes deps i ns) k) ∧
  (x ∈ dpts_of (detach_nodes deps i ns) k ↔ x ∈ dpts_of ns k ∧ (k ∈ deps → x ≠ i)).
Proof.
  unfold detach_nodes. revert ns. induction deps as [|d deps IH]; intros ns Hnd; simpl.
  { split; [done|]. set_solver. }
  destruct (IH (alter (map_dpts (edge_remove i)) d ns)) as [Hnd' Hx'].
  { intros k'. rewrite dpts_alter. case_decide; [|done]. unfold edge_remove.
    destruct (ns !! k') as [[]|]; auto using vec_remove_NoDup, NoDup_nil_2. }
  split; [done|]. rewrite Hx', dpts_alter. case_decide as Hk; [|set_solver].
  subst k. unfold edge_remove. unfold dpts_of at 2 3. unfold dpts_of in Hnd. specialize (Hnd d).
  unfold dpts_of. destruct (ns !! d) as [[]|]; rewrite ?elem_of_vec_remove by done; set_solver.
Qed.

(** ** Frames: what an operation on slots below [n] leaves alone *)

Record frame (n : SlotId) ns ns' : Prop := {
  fr_cell : ∀ k cell, ns !! k = Some (NCell cell) → ∃ d, ns' !! k = Some (NCell (mkCell (c_value cell) d));
  fr_clean : ∀ k s, ns !! k = Some (NSlot s) → s_clean s = true →
    ∃ d, ns' !! k = Some (NSlot (slot_set_dependents d s));
  fr_above : ∀ (k : SlotId) s, ns !! k = Some (NSlot s) → n ≤ k →
    ∃ d df ff, ns' !! k = Some (NSlot (slot_set_flags df ff (slot_set_dependents d s))) ∧
      (s_dirty s = true → df = true) ∧ (s_force_recompute s = true → ff = true);
}.

(** The cycle guards are as before. *)
Definition prog_same ns ns' : Prop := ∀ k s, ns !! k = Some (NSlot s) →
  ∃ s', ns' !! k = Some (NSlot s') ∧ s_in_progress s' = s_in_progress s.

(** The running slot keeps its old value and its staleness. *)
Definition own i ns ns' : Prop := ∀ s, ns !! i = Some (NSlot s) →
  ∃ s', ns' !! i = Some (NSlot s') ∧ s_value s' = s_value s ∧
    (s_dirty s = true → s_dirty s' = true) ∧ (s_force_recompute s = true → s_force_recompute s' = true).

Lemma stale_grow (s s' : SlotNode V) :
  s_value s' = s_value s → (s_dirty s = true → s_dirty s' = true) →
  (s_force_recompute s = true → s_force_recompute s' = true) → s_clean s = false → s_clean s' = false.
Proof.
  unfold s_clean. intros -> Hd Hf. destruct (bool_decide _), (s_dirty s), (s_force_recompute s); simpl; try done;
    intros _; rewrite ?Hd, ?Hf by done; rewrite ?andb_false_r; done.
Qed.

Lemma frame_trans n ns1 ns2 ns3 : frame n ns1 ns2 → frame n ns2 ns3 → frame n ns1 ns3.
Proof.
  intros [C1 L1 A1] [C2 L2 A2]. split.
  - intros k cell Hk. destruct (C1 _ _ Hk) as [d1 H1]. by apply C2 in H1.
  - intros k s Hk Hc. destruct (L1 _ _ Hk Hc) as [d1 H1]. by apply L2 in H1.
  - intros k s Hk Hn. destruct (A1 _ _ Hk Hn) as (d1 & df1 & ff1 & H1 & Hd1 & Hf1).
    destruct (A2 _ _ H1 Hn) as (d2 & df2 & ff2 & H2 & Hd2 & Hf2). simpl in *.
    exists d2, df2, ff2. split_and!; auto.
Qed.

Lemma frame_mono n m ns ns' : frame n ns ns' → n ≤ m → frame m ns ns'.
Proof. intros [] Hle. split; auto. intros k s Hk Hm. apply fr_above0; [done|lia]. Qed.

Lemma prog_same_trans ns1 ns2 ns3 : prog_same ns1 ns2 → prog_same ns2 ns3 → prog_same ns1 ns3.
Proof.
  intros H1 H2 k s Hk. destruct (H1 _ _ Hk) as (s1 & Hk1 & E1).
  destruct (H2 _ _ Hk1) as (s2 & Hk2 & E2). exists s2. split; [done|congruence].
Qed.

Lemma own_trans i ns1 ns2 ns3 : own i ns1 ns2 → own i ns2 ns3 → own i ns1 ns3.
Proof.
  intros H1 H2 s Hk. destruct (H1 _ Hk) as (s1 & Hk1 & E1 & ? & ?).
  destruct (H2 _ Hk1) as (s2 & Hk2 & E2 & ? & ?). exists s2. split_and!; auto; congruence.
Qed.

Lemma own_stale i ns ns' : own i ns ns' → (∃ s, ns !! i = Some (NSlot s)) → stale ns i → stale ns' i.
Proof.
  intros Ho [s Hs] Hst s' Hs'. destruct (Ho s Hs) as (s1 & Hs1 & Hv & Hd & Hf). simplify_eq.
  eapply stale_grow; eauto.
Qed.

Lemma frame_own n i ns ns' : frame n ns ns' → n ≤ i → own i ns ns'.
Proof.
  intros Hfr Hn s Hs. destruct (fr_above _ _ _ Hfr _ _ Hs Hn) as (d & df & ff & Hs' & ? & ?).
  eexists. split; [done|]. by split_and!.
Qed.

Lemma frame_clean n ns ns' k : frame n ns ns' → (∃ s, ns !! k = Some (NSlot s)) → clean ns k → clean ns' k.
Proof.
  intros Hfr [s Hs] Hc s' Hs'. specialize (Hc _ Hs). destruct (fr_clean _ _ _ Hfr _ _ Hs Hc) as [d Hd].
  by simplify_eq.
Qed.

(** Marking from stale roots is a frame. *)
Lemma flags_grow_frame n ns ns' :
  flags_grow ns ns' → (∀ k, (∃ s, ns !! k = Some (NSlot s) ∧ s_clean s = true) → ns' !! k = ns !! k) →
  frame n ns ns' ∧ prog_same ns ns'.
Proof.
  intros Hg Hc. split; [split|].
  - intros k cell Hk. exists (c_dependents cell).
    apply (flags_grow_other _ _ _ (NCell cell) Hg) in Hk; [|congruence]. rewrite Hk. by destruct cell.
  - intros k s Hk Hcl. exists (s_dependents s). rewrite Hc by eauto. rewrite Hk. by destruct s.
  - intros k s Hk _. destruct (flags_grow_slot_fwd _ _ _ _ Hg Hk) as (d & f & Hk' & ? & ?).
    exists (s_dependents s), d, f. split_and!; auto.
  - intros k s Hk. destruct (flags_grow_slot_fwd _ _ _ _ Hg Hk) as (d & f & Hk' & ? & ?). eauto.
Qed.

(** ** Rewiring the edges of the running slot *)

Definition rewire i ns ns' : Prop :=
  (∀ k, k ≠ i → redep ns ns' k) ∧
  ∃ s d ds, ns !! i = Some (NSlot s) ∧ ns' !! i = Some (NSlot (slot_set_dependencies ds (slot_set_dependents d s))).

Lemma rewire_slot i ns ns' k s' :
  rewire i ns ns' → ns' !! k = Some (NSlot s') →
  ∃ s d ds, ns !! k = Some (NSlot s) ∧ s' = slot_set_dependencies ds (slot_set_dependents d s) ∧
    (k ≠ i → ds = s_dependencies s).
Proof.
  intros [Hr (s & d & ds & Hi & Hi')] Hk. destruct (decide (k = i)) as [->|Hne].
  - simplify_eq. exists s, d, ds. naive_solver.
  - destruct (redep_slot _ _ _ _ (Hr k Hne) Hk) as (s0 & Hs0 & ->).
    exists s0, (s_dependents s'), (s_dependencies s0). split_and!; auto.
Qed.

Lemma rewire_cval i ns ns' k : rewire i ns ns' → cval ns' k = cval ns k.
Proof.
  intros [Hr (s & d & ds & Hi & Hi')]. destruct (decide (k = i)) as [->|]; [|by apply redep_cval, Hr].
  unfold cval. by rewrite Hi, Hi'.
Qed.

Lemma rewire_inv g X E i ns ns' :
  Inv g X E ns → rewire i ns ns' → edges_ok ns' → X i → stale ns i → Inv g X E ns'.
Proof.
  intros HI Hrw He HX Hst. split; [apply HI| |done| | |].
  - intros k. pose proof (inv_dom _ _ _ _ HI k) as Hd. destruct Hrw as [Hr (s & d & ds & Hi & Hi')].
    destruct (decide (k = i)) as [->|Hne]; [by rewrite Hi in Hd; rewrite Hi'|].
    destruct (Hr k Hne) as [d' ->]. by destruct (ns !! k) as [[]|].
  - intros k s' Hk Hf. destruct (rewire_slot _ _ _ _ _ Hrw Hk) as (s & d & ds & Hs & -> & _).
    exact (inv_fd _ _ _ _ HI k s Hs Hf).
  - intros k s' d Hk Hc Hd. intros sd' Hsd'.
    destruct (rewire_slot _ _ _ _ _ Hrw Hsd') as (sd & d1 & ds1 & Hsd & -> & Hds1).
    destruct (rewire_slot _ _ _ _ _ Hrw Hk) as (s & d2 & ds2 & Hs & -> & _).
    change (s_clean sd = false). change (s_clean s = false) in Hc.
    destruct (decide (d = i)) as [->|Hne]; [by apply Hst|].
    assert (Hdk : k ∈ deps_of ns' d).
    { apply (edges_sym _ He). unfold dpts_of. by rewrite Hk. }
    assert (Hdk' : k ∈ deps_of ns d).
    { destruct Hrw as [Hr _]. by rewrite (redep_deps_of _ _ _ (Hr d Hne)) in Hdk. }
    apply (edges_sym _ (inv_edges _ _ _ _ HI)) in Hdk'. unfold dpts_of in Hdk'. rewrite Hs in Hdk'.
    eapply (inv_up _ _ _ _ HI); eauto.
  - intros k s' v Hk HnX Hv Hf HE.
    destruct (rewire_slot _ _ _ _ _ Hrw Hk) as (s & d & ds & Hs & -> & Hds).
    rewrite Hds in * by naive_solver. simpl in *.
    eapply evals_mono; [by eapply (inv_cache _ _ _ _ HI)|done|].
    intros j x _. by rewrite (rewire_cval _ _ _ _ Hrw).
Qed.

Lemma rewire_frame i ns ns' :
  rewire i ns ns' → stale ns i → frame (S i) ns ns' ∧ prog_same ns ns' ∧ own i ns ns'.
Proof.
  intros [Hr (s0 & d0 & ds0 & Hi & Hi')] Hst. split_and!; [split| |].
  - intros k cell Hk. assert (k ≠ i) by congruence. destruct (Hr k) as [d E]; [done|].
    exists d. by rewrite E, Hk.
  - intros k s Hk Hc. assert (k ≠ i). { intros ->. by rewrite (Hst _ Hk) in Hc. }
    by apply (redep_slot_fwd _ _ _ _ (Hr k ltac:(done))).
  - intros k s Hk Hle. destruct (redep_slot_fwd _ _ _ _ (Hr k ltac:(lia)) Hk) as [d Hd].
    exists d, (s_dirty s), (s_force_recompute s). split_and!; auto.
  - intros k s Hk. destruct (decide (k = i)) as [->|Hne]; [simplify_eq; eauto|].
    destruct (redep_slot_fwd _ _ _ _ (Hr k Hne) Hk) as [d Hd]. eauto.
  - intros s Hk. simplify_eq. by exists (slot_set_dependencies ds0 (slot_set_dependents d0 s0)).
Qed.

Lemma deps_alter_dpts f j ns k : deps_of (alter (map_dpts f) j ns) k = deps_of ns k.
Proof. apply redep_deps_of, redep_alter. Qed.

Lemma deps_alter f j ns k :
  deps_of (alter (map_deps f) j ns) k =
    if decide (k = j) then match ns !! k with Some (NSlot _) => f (deps_of ns k) | _ => [] end
    else deps_of ns k.
Proof.
  unfold deps_of. case_decide as Hk.
  - subst. rewrite lookup_alter_eq. by destruct (ns !! j) as [[]|].
  - by rewrite lookup_alter_ne.
Qed.

Lemma dpts_alter_deps f j ns k : dpts_of (alter (map_deps f) j ns) k = dpts_of ns k.
Proof.
  unfold dpts_of. destruct (decide (k = j)) as [->|]; [|by rewrite lookup_alter_ne].
  rewrite lookup_alter_eq. by destruct (ns !! j) as [[]|].
Qed.

(** Dropping the old edges of a slot about to recompute. *)
Definition unlinked i (s : SlotNode V) ns : gmap SlotId (Node V) :=
  detach_nodes (s_dependencies s) i (alter (map_deps (λ _, [])) i ns).

Lemma unlinked_ok i s ns :
  edges_ok ns → ns !! i = Some (NSlot s) →
  rewire i ns (unlinked i s ns) ∧ edges_ok (unlinked i s ns) ∧ deps_of (unlinked i s ns) i = [].
Proof.
  intros He Hi. unfold unlinked. set (ns1 := alter (map_deps (λ _, [])) i ns).
  assert (Hdeps : ∀ k, deps_of (detach_nodes (s_dependencies s) i ns1) k = if decide (k = i) then [] else deps_of ns k).
  { intros k. rewrite (redep_deps_of ns1) by apply detach_nodes_redep. unfold ns1. rewrite deps_alter.
    case_decide; [|done]. subst. by rewrite Hi. }
  assert (Hdp1 : ∀ k, dpts_of ns1 k = dpts_of ns k) by (intros; apply dpts_alter_deps).
  assert (Hdpts : ∀ k x, NoDup (dpts_of (detach_nodes (s_dependencies s) i ns1) k) ∧
    (x ∈ dpts_of (detach_nodes (s_dependencies s) i ns1) k ↔ x ∈ dpts_of ns k ∧ (k ∈ deps_of ns i → x ≠ i))).
  { intros k x. rewrite <- Hdp1. unfold deps_of at 1. rewrite Hi. apply dpts_detach.
    intros k'. rewrite Hdp1. apply He. }
  split_and!; [split| split|].
  - intros k Hk. eapply redep_trans; [|apply detach_nodes_redep].
    apply redep_refl. unfold ns1. by rewrite lookup_alter_ne.
  - assert (Hi1 : ns1 !! i = Some (NSlot (slot_set_dependencies [] s))).
    { unfold ns1. by rewrite lookup_alter_eq, Hi. }
    destruct (redep_slot_fwd _ _ _ _ (detach_nodes_redep (s_dependencies s) i ns1 i) Hi1) as [d Hd].
    exists s, d, []. split; [done|]. by rewrite Hd.
  - intros a b. rewrite Hdeps, (proj2 (Hdpts b a)), <- (edges_sym _ He). case_decide; [subst|]; set_solver.
  - intros a b. rewrite Hdeps. case_decide; [set_solver|apply He].
  - intros a. rewrite Hdeps. case_decide; [apply NoDup_nil_2|apply He].
  - intros a. apply (Hdpts a a).
  - rewrite Hdeps. by rewrite decide_True.
Qed.

(** Recording that slot [i] read [j]. *)
Definition linked j i ns : gmap SlotId (Node V) :=
  alter (map_deps (edge_insert j)) i (alter (map_dpts (edge_insert i)) j ns).

Lemma linked_ok j i s ns :
  edges_ok ns → ns !! i = Some (NSlot s) → j < i →
  match ns !! j with Some (NSlot _) | Some (NCell _) => True | _ => False end →
  rewire i ns (linked j i ns) ∧ edges_ok (linked j i ns) ∧
  (∀ x, x ∈ deps_of (linked j i ns) i ↔ x ∈ deps_of ns i ∨ x = j).
Proof.
  intros He Hi Hlt Hj. unfold linked. set (ns1 := alter (map_dpts (edge_insert i)) j ns).
  assert (Hi1 : ns1 !! i = Some (NSlot s)).
  { unfold ns1. rewrite lookup_alter_ne; [done|lia]. }
  assert (Hdeps : ∀ k, deps_of (alter (map_deps (edge_insert j)) i ns1) k =
    if decide (k = i) then edge_insert j (deps_of ns i) else deps_of ns k).
  { intros k. rewrite deps_alter. unfold ns1 at 2 3. rewrite !deps_alter_dpts. case_decide; [|done]. subst. by rewrite Hi1. }
  assert (Hdpts : ∀ k, dpts_of (alter (map_deps (edge_insert j)) i ns1) k =
    if decide (k = j) then edge_insert i (dpts_of ns j) else dpts_of ns k).
  { intros k. rewrite dpts_alter_deps. unfold ns1. rewrite dpts_alter. case_decide; [|done]. subst.
    by destruct (ns !! j) as [[]|]. }
  assert (Hin : ∀ x l y, y ∈ edge_insert x l ↔ y ∈ l ∨ y = x).
  { intros. apply elem_of_vec_insert. }
  split_and!; [split|split|].
  - intros k Hk. eapply redep_trans; [apply redep_alter|]. apply redep_refl. by rewrite lookup_alter_ne.
  - exists s, (s_dependents s), (edge_insert j (s_dependencies s)). split; [done|].
    rewrite lookup_alter_eq, Hi1. by destruct s.
  - intros a b. pose proof (edges_sym _ He a b). rewrite Hdeps, Hdpts.
    repeat case_decide; subst; rewrite ?Hin; naive_solver.
  - intros a b. rewrite Hdeps. case_decide; [|apply He]. rewrite Hin. intros [Hb| ->]; [|lia].
    subst. by apply He.
  - intros a. rewrite Hdeps. case_decide; [apply vec_insert_NoDup|]; apply He.
  - intros a. rewrite Hdpts. case_decide; [apply vec_insert_NoDup|]; apply He.
  - intros x. rewrite Hdeps, decide_True by done. apply Hin.
Qed.

Lemma register_dependency_eq j i c : j ≠ i → register_dependency j i c = set_nodes (linked j i (nodes c)) c.
Proof.
  intros Hne. unfold register_dependency, linked.
  destruct (j =? i) eqn:E; [apply Nat.eqb_eq in E; done|].
  by rewrite upd_dependents_eq, upd_dependencies_eq.
Qed.

(** ** Announcing a change *)

Lemma flags_grow_cval ns ns' k : flags_grow ns ns' → cval ns' k = cval ns k.
Proof. intros Hg. unfold cval. by destruct (Hg k) as [->|(s & f & -> & -> & _)]. Qed.

Lemma flags_grow_deps ns ns' k : flags_grow ns ns' → deps_of ns' k = deps_of ns k.
Proof. intros Hg. unfold deps_of. by destruct (Hg k) as [->|(s & f & -> & -> & _)]. Qed.

Lemma flags_grow_dpts ns ns' k : flags_grow ns ns' → dpts_of ns' k = dpts_of ns k.
Proof. intros Hg. unfold dpts_of. by destruct (Hg k) as [->|(s & f & -> & -> & _)]. Qed.

Lemma flags_grow_edges ns ns' : flags_grow ns ns' → edges_ok ns → edges_ok ns'.
Proof.
  intros Hg []. split; intros *; rewrite ?(flags_grow_deps _ _ _ Hg), ?(flags_grow_dpts _ _ _ Hg); auto.
Qed.

(** After marking, the slots that read [j] are forced, so [j] is announced. *)
Lemma mark_inv g X E j ns ns' :
  Inv g X E ns → flags_grow ns ns' → force_dirty ns' → stale_up ns' →
  (∀ r s, r ∈ dpts_of ns j → ns' !! r = Some (NSlot s) → s_force_recompute s = true) →
  Inv g X (λ k, E k ∧ k ≠ j) ns'.
Proof.
  intros HI Hg Hfd Hup Hroots. split; [apply HI| |by eapply flags_grow_edges, HI|done|done|].
  - intros k. pose proof (inv_dom _ _ _ _ HI k) as Hd.
    by destruct (Hg k) as [->|(s & f & Hs & -> & _)]; [|rewrite Hs in Hd].
  - intros k s' v Hk HX Hv Hf HE.
    destruct (flags_grow_slot _ _ _ _ Hg Hk) as (s & Hs & Heq & _ & Hfs & _).
    assert (s_dependencies s' = s_dependencies s ∧ s_compute s' = s_compute s ∧ s_value s' = s_value s)
      as (Hds & Hcs & Hvs) by (by rewrite Heq).
    rewrite Hds, Hcs. eapply evals_mono; [eapply (inv_cache _ _ _ _ HI k s v); auto| done|].
    + by rewrite <- Hvs.
    + destruct (s_force_recompute s); [|done]. by rewrite Hfs in Hf.
    + intros l Hl Hin. destruct (decide (l = j)) as [->|Hne].
      * rewrite (Hroots k s') in Hf; [done| |done]. apply (edges_sym _ (inv_edges _ _ _ _ HI)).
        unfold deps_of. by rewrite Hs.
      * apply (HE l); [done|]. by rewrite Hds.
    + intros l x _. by rewrite (flags_grow_cval _ _ _ Hg).
Qed.

Lemma invalidate_ok g X E j c :
  Inv g X E (nodes c) →
  ∃ ns, invalidate_dependents_now j c = (Val false, set_nodes ns c) ∧
    Inv g X (λ k, E k ∧ k ≠ j) ns ∧ flags_grow (nodes c) ns ∧
    (∀ U, up_closed U (nodes c) → (∀ x, x ∈ dpts_of (nodes c) j → U x) → ∀ k, ¬ U k → ns !! k = nodes c !! k).
Proof.
  intros HI.
  destruct (mark_frontier_spec c (dpts_of (nodes c) j)) as (ns & Hm & Hg & Hfd & Hup & Hroots & Hframe);
    [by eapply inv_no_effects|apply HI|apply HI|].
  destruct (dpts_of (nodes c) j) as [|r rs] eqn:Er.
  - exists (nodes c). split_and!; [|eapply mark_inv; eauto using flags_grow_refl; try apply HI|apply flags_grow_refl|done].
    + rewrite set_nodes_id. unfold invalidate_dependents_now, get_node. unfold dpts_of in Er.
      destruct (nodes c !! j) as [[]|]; by rewrite ?Er.
    + rewrite Er. set_solver.
  - exists ns. split_and!; [|eapply mark_inv; eauto; by rewrite Er|done|done].
    unfold invalidate_dependents_now, get_node. unfold dpts_of in Er.
    destruct (nodes c !! j) as [[]|]; try done; rewrite Er; unfold mbind, M_bind; by rewrite Hm.
Qed.

(** ** Storing a result *)

Definition settled (v : V) (s : SlotNode V) : SlotNode V := slot_set_value (Some v) (slot_set_flags false false s).

Lemma settle_inv g X ns i s v :
  Inv g (λ k, X k ∨ k = i) none ns → ns !! i = Some (NSlot s) →
  (∀ j, j ∈ s_dependencies s → clean ns j) →
  evals (cval ns) (s_dependencies s) (s_compute s) v →
  Inv g X (λ k, k = i ∧ is_Some (s_value s) ∧ s_value s ≠ Some v) (<[i := NSlot (settled v s)]> ns).
Proof.
  intros HI Hi Hcl Hev. pose proof (inv_edges _ _ _ _ HI) as He.
  assert (Hdeps : ∀ k, deps_of (<[i:=NSlot (settled v s)]> ns) k = deps_of ns k).
  { intros k. unfold deps_of. destruct (decide (k = i)) as [->|]; [by rewrite lookup_insert_eq, Hi|by rewrite lookup_insert_ne]. }
  assert (Hdpts : ∀ k, dpts_of (<[i:=NSlot (settled v s)]> ns) k = dpts_of ns k).
  { intros k. unfold dpts_of. destruct (decide (k = i)) as [->|]; [by rewrite lookup_insert_eq, Hi|by rewrite lookup_insert_ne]. }
  assert (Hii : i ∉ s_dependencies s).
  { intros Hin. assert (i < i); [|lia]. apply (edges_lt _ He). unfold deps_of. by rewrite Hi. }
  assert (Hcv : ∀ k, k ≠ i → cval (<[i:=NSlot (settled v s)]> ns) k = cval ns k).
  { intros k Hk. unfold cval. by rewrite lookup_insert_ne. }
  split; [apply HI| | | | |].
  - intros k. pose proof (inv_dom _ _ _ _ HI k) as Hd. destruct (decide (k = i)) as [->|].
    + rewrite lookup_insert_eq. by rewrite Hi in Hd.
    + by rewrite lookup_insert_ne.
  - destruct He. split; intros *; rewrite ?Hdeps, ?Hdpts; auto.
  - intros k sk. destruct (decide (k = i)) as [->|]; [rewrite lookup_insert_eq|rewrite lookup_insert_ne by done].
    + by intros [= <-].
    + apply (inv_fd _ _ _ _ HI).
  - intros k sk d. destruct (decide (k = i)) as [->|Hki]; [rewrite lookup_insert_eq|rewrite lookup_insert_ne by done].
    + by intros [= <-].
    + intros Hk Hst Hd sd. destruct (decide (d = i)) as [->|]; [|rewrite lookup_insert_ne by done; by eapply (inv_up _ _ _ _ HI)].
      rewrite lookup_insert_eq. intros [= <-]. exfalso.
      assert (Hin : k ∈ deps_of ns i). { apply (edges_sym _ He). unfold dpts_of. by rewrite Hk. }
      unfold deps_of in Hin. rewrite Hi in Hin. specialize (Hcl _ Hin _ Hk). congruence.
  - intros k sk w. destruct (decide (k = i)) as [->|Hki]; [rewrite lookup_insert_eq|rewrite lookup_insert_ne by done].
    + intros [= <-] _ [= <-] _ _. simpl. eapply evals_mono; [done|done|].
      intros j x Hj. rewrite Hcv; [done|]. by intros ->.
    + intros Hk HX Hw Hf HE. eapply evals_mono; [apply (inv_cache _ _ _ _ HI k sk w); [done|naive_solver|done|done|by intros ? []]|done|].
      intros j x Hj Hx. destruct (decide (j = i)) as [->|]; [|by rewrite Hcv].
      unfold cval in *. rewrite lookup_insert_eq. rewrite Hi in Hx. simpl.
      destruct (decide (v = x)) as [->|Hne]; [done|]. exfalso. apply (HE i); [|done].
      rewrite Hx. split_and!; eauto. congruence.
Qed.

(** ** Running a closure *)

(** No disposal has happened and no custom ripple guard is installed. *)
Definition quiet c : Prop := generations c = ∅ ∧ ripple_by c = ∅.

Definition guarded_from (n : SlotId) ns : Prop :=
  ∀ (k : SlotId) s, ns !! k = Some (NSlot s) → s_in_progress s = true → n ≤ k.

Lemma guarded_same n g X X' E E' ns ns' :
  Inv g X E ns → Inv g X' E' ns' → prog_same ns ns' → guarded_from n ns → guarded_from n ns'.
Proof.
  intros HI HI' Hp Hg k s' Hk Hs. destruct (inv_slot _ _ _ _ k HI) as [s Hs0].
  { unfold is_computed. by rewrite (inv_compute _ _ _ _ _ _ HI' Hk). }
  destruct (Hp _ _ Hs0) as (s1 & Hs1 & E1). rewrite Hk in Hs1. injection Hs1 as <-.
  eapply Hg; [done|]. by rewrite <- E1.
Qed.

Lemma guarded_mono n m ns : n ≤ m → guarded_from m ns → guarded_from n ns.
Proof. intros Hle Hg k s Hk Hs. specialize (Hg k s Hk Hs). lia. Qed.

(** What a refresh of slot [j] promises. *)
Definition refresh_good g (R : SlotId → M V bool) j : Prop := ∀ c X,
  quiet c → Inv g X none (nodes c) → (∀ x, X x → j < x) → guarded_from (S j) (nodes c) → is_computed g j →
  ∃ b ns, R j c = (Val b, set_nodes ns c) ∧ Inv g X none ns ∧
    frame (S j) (nodes c) ns ∧ prog_same (nodes c) ns ∧ clean ns j.

Lemma set_nodes_twice ns ns' c : set_nodes ns (set_nodes ns' c) = set_nodes ns c.
Proof. done. Qed.

Lemma get_slot_ok g R c X j :
  refresh_good g R j →
  quiet c → Inv g X none (nodes c) → (∀ x, X x → j < x) → guarded_from (S j) (nodes c) → is_computed g j →
  ∃ v ns, get_slot_with R j c = (Val v, set_nodes ns c) ∧ Inv g X none ns ∧
    frame (S j) (nodes c) ns ∧ prog_same (nodes c) ns ∧ clean ns j ∧ cval ns j = Some v.
Proof.
  intros HR Hq HI HX Hg Hj. destruct (HR c X Hq HI HX Hg Hj) as (b & ns & E & HI' & Hfr & Hp & Hcl).
  destruct (inv_slot _ _ _ _ j HI' Hj) as [s Hs]. specialize (Hcl s Hs) as Hc.
  apply s_clean_true in Hc as ([v Hv] & _ & _). exists v, ns.
  split_and!; [|done..|unfold cval; by rewrite Hs].
  unfold get_slot_with, mbind, M_bind, with_state. rewrite E. unfold get_slot_node, get_node. simpl.
  by rewrite Hs, Hv.
Qed.

(** Where the closure of slot [i] stands: its node is stale and guarded. *)
Record ready g X i c : Prop := {
  rd_quiet : quiet c;
  rd_inv : Inv g X none (nodes c);
  rd_comp : is_computed g i;
  rd_running : X i;
  rd_above : ∀ x, X x → i ≤ x;
  rd_guard : guarded_from i (nodes c);
  rd_stale : stale (nodes c) i;
  rd_clean : ∀ j, j ∈ deps_of (nodes c) i → clean (nodes c) j;
}.

(** What a part of the closure did. *)
Record reach g X i c ns : Prop := {
  rc_inv : Inv g X none ns;
  rc_frame : frame (S i) (nodes c) ns;
  rc_prog : prog_same (nodes c) ns;
  rc_own : own i (nodes c) ns;
  rc_deps : ∀ j, j ∈ deps_of (nodes c) i → j ∈ deps_of ns i;
}.

Lemma flags_refl ns : frame 0 ns ns ∧ prog_same ns ns.
Proof. apply flags_grow_frame; [apply flags_grow_refl|done]. Qed.

Lemma reach_refl g X i c : Inv g X none (nodes c) → reach g X i c (nodes c).
Proof.
  intros HI. destruct (flags_refl (nodes c)) as [Hf Hp].
  split; [done|eapply frame_mono; [done|lia]|done| |done]. eapply frame_own; [done|lia].
Qed.

Lemma reach_trans g X i c ns1 ns2 : reach g X i c ns1 → reach g X i (set_nodes ns1 c) ns2 → reach g X i c ns2.
Proof.
  intros [] []. split; simpl in *; eauto using frame_trans, prog_same_trans, own_trans.
Qed.

Lemma clean_same n g X X' E E' ns ns' j :
  Inv g X E ns → Inv g X' E' ns' → frame n ns ns' → clean ns j → clean ns' j.
Proof.
  intros HI HI' Hfr Hc s' Hs'. destruct (inv_slot _ _ _ _ j HI) as [s Hs].
  { unfold is_computed. by rewrite (inv_compute _ _ _ _ _ _ HI' Hs'). }
  destruct (fr_clean _ _ _ Hfr _ _ Hs (Hc _ Hs)) as [d Hd]. rewrite Hs' in Hd. injection Hd as ->. by apply Hc in Hs.
Qed.

Lemma reach_ready g X i c ns :
  ready g X i c → reach g X i c ns → (∀ j, j ∈ deps_of ns i → j ∈ deps_of (nodes c) i ∨ clean ns j) →
  ready g X i (set_nodes ns c).
Proof.
  intros [Hq HI Hci HXi HX Hg Hst Hcl] [HI' Hf Hp Ho Hd] Hnew. split; simpl; try done.
  - exact (guarded_same _ _ _ _ _ _ _ _ HI HI' Hp Hg).
  - eapply own_stale; [done|by eapply inv_slot|done].
  - intros j Hj. destruct (Hnew j Hj); [|done]. eapply clean_same; [exact HI|done..|]. auto.
Qed.

(** Linking an edge keeps the invariant of a running slot. *)
Lemma link_ok g X i j c :
  ready g X i c → j < i → (is_source g j ∨ is_computed g j) →
  ∃ ns, register_dependency j i c = set_nodes ns c ∧ reach g X i c ns ∧
    (∀ x, x ∈ deps_of ns i ↔ x ∈ deps_of (nodes c) i ∨ x = j).
Proof.
  intros [Hq HI Hci HXi HX Hg Hst Hcl] Hlt Hj. destruct (inv_slot _ _ _ _ i HI Hci) as [s Hs].
  destruct (linked_ok j i s (nodes c)) as (Hrw & He & Hd); [apply HI|done|done| |].
  { destruct Hj as [Hj|Hj]; [destruct (inv_cell _ _ _ _ j HI Hj) as [? ->]|destruct (inv_slot _ _ _ _ j HI Hj) as [? ->]]; done. }
  exists (linked j i (nodes c)). destruct (rewire_frame _ _ _ Hrw Hst) as (? & ? & ?).
  split_and!; [apply register_dependency_eq; lia|split; try done|done].
  - by eapply rewire_inv.
  - intros x Hx. apply Hd. by left.
Qed.

Lemma cval_frame n ns ns' j v :
  frame n ns ns' → clean ns j → no_effect_nodes ns → cval ns j = Some v → cval ns' j = Some v.
Proof.
  intros Hfr Hcl Hne. unfold cval. destruct (ns !! j) as [[s|cell|e]|] eqn:E; [| |naive_solver|done].
  - intros Hv. destruct (fr_clean _ _ _ Hfr _ _ E (Hcl _ E)) as [d ->]. done.
  - destruct (fr_cell _ _ _ Hfr _ _ E) as [d ->]. done.
Qed.

Lemma track_quiet i j c : quiet c → track i 0 j c = register_dependency j i c.
Proof. intros [Hg _]. unfold track, node_generation. by rewrite Hg, lookup_empty. Qed.

(** One tracked read brings its dependency up to date. *)
Definition tracked_read g X i c j x ns : Prop :=
  reach g X i c ns ∧ j ∈ deps_of ns i ∧ clean ns j ∧ cval ns j = Some x ∧
  (∀ y, y ∈ deps_of ns i → y ∈ deps_of (nodes c) i ∨ y = j).

Lemma read_source_ok g X i j c :
  ready g X i c → j < i → is_source g j →
  ∃ ns x, tracked_read g X i c j x ns ∧
    (modify (track i 0 j);; read_cell j) c = (Val x, set_nodes ns c).
Proof.
  intros Hrd Hlt Hj. destruct (link_ok _ _ _ j _ Hrd Hlt) as (ns & Hreg & Hr & Hd); [by left|].
  destruct (inv_cell _ _ _ _ j (rc_inv _ _ _ _ _ Hr) Hj) as [cell Hc].
  exists ns, (c_value cell). split.
  - split_and!; [done|apply Hd; by right|intros s; congruence|unfold cval; by rewrite Hc|apply Hd].
  - unfold mbind, M_bind, modify, read_cell. rewrite (track_quiet _ _ _ (rd_quiet _ _ _ _ Hrd)), Hreg. unfold get_cell_node, get_node. simpl. by rewrite Hc.
 Qed.

Lemma read_computed_ok g R X i j c :
  refresh_good g R j → ready g X i c → j < i → is_computed g j →
  ∃ ns x, tracked_read g X i c j x ns ∧
    (modify (track i 0 j);; get_slot_with R j) c = (Val x, set_nodes ns c).
Proof.
  intros HR Hrd Hlt Hj. destruct (link_ok _ _ _ j _ Hrd Hlt) as (ns & Hreg & Hr & Hd); [by right|].
  destruct (inv_slot _ _ _ _ i (rc_inv _ _ _ _ _ Hr) (rd_comp _ _ _ _ Hrd)) as [s Hs].
  destruct (get_slot_ok g R (set_nodes ns c) X j) as (x & ns2 & E2 & HI2 & Hf2 & Hp2 & Hc2 & Hv2);
    [done|apply Hrd|apply Hr| | |done|].
  { intros x Hx%(rd_above _ _ _ _ Hrd). lia. }
  { apply (guarded_mono (S j) i); [lia|].
    eapply guarded_same; [exact (rd_inv _ _ _ _ Hrd)|apply Hr|apply Hr|apply Hrd]. }
  destruct (fr_above _ _ _ Hf2 _ _ Hs) as (d & df & ff & Hs2 & _ & _); [lia|].
  assert (Hdeps : deps_of ns2 i = deps_of ns i) by (unfold deps_of; simpl in Hs2; by rewrite Hs2, Hs).
  exists ns2, x. split; [split_and!| ].
  - eapply reach_trans; [done|]. split; [done|eapply frame_mono; [done|lia]|done|eapply frame_own; [done|lia]|].
    simpl. by rewrite Hdeps.
  - rewrite Hdeps. apply Hd. by right.
  - done.
  - done.
  - intros y. rewrite Hdeps. apply Hd.
  - unfold mbind, M_bind, modify. rewrite (track_quiet _ _ _ (rd_quiet _ _ _ _ Hrd)), Hreg. by rewrite E2.
Qed.

Lemma run_ok g R F i (p : prog V V) :
  (∀ j, j < i → refresh_good g R j) → reads_ok g i p →
  ∀ c X, ready g X i c →
  ∃ v ns, run_prog R F i 0 p c = (Val v, set_nodes ns c) ∧ reach g X i c ns ∧
    (∀ j, j ∈ deps_of ns i → clean ns j) ∧ evals (cval ns) (deps_of ns i) p v.
Proof.
  intros HR Hreads.
  assert (Hstep : ∀ (read : M V V) j q (k : V → prog V V) c X ns x,
    ready g X i c → tracked_read g X i c j x ns → read c = (Val x, set_nodes ns c) →
    (∀ ds rho v, j ∈ ds → rho j = Some x → evals rho ds (k x) v → evals rho ds q v) →
    (∀ c X, ready g X i c → ∃ v ns, run_prog R F i 0 (k x) c = (Val v, set_nodes ns c) ∧ reach g X i c ns ∧
      (∀ j, j ∈ deps_of ns i → clean ns j) ∧ evals (cval ns) (deps_of ns i) (k x) v) →
    ∃ v ns, (v ← read; run_prog R F i 0 (k v)) c = (Val v, set_nodes ns c) ∧ reach g X i c ns ∧
      (∀ j, j ∈ deps_of ns i → clean ns j) ∧ evals (cval ns) (deps_of ns i) q v).
  { intros read j q k c X ns x Hrd (Hr & Hj & Hcl & Hcv & Hd) Hread Hq IH.
    destruct (IH (set_nodes ns c) X) as (v & ns2 & E2 & Hr2 & Hcl2 & Hev2).
    { eapply reach_ready; [done..|]. intros y Hy. destruct (Hd y Hy) as [?| ->]; auto. }
    exists v, ns2. split_and!; [|by eapply reach_trans|done|].
    - unfold mbind, M_bind. by rewrite Hread, E2.
    - apply Hq; [by apply (rc_deps _ _ _ _ _ Hr2)| |done].
      eapply cval_frame; [apply Hr2|done| |done]. eapply inv_no_effects, Hr. }
  induction Hreads as [r|h k Hlt Hsrc _ IH|h k Hlt Hcomp _ IH]; intros c X Hrd.
  - exists r, (nodes c). rewrite set_nodes_id. split_and!; [done|apply reach_refl, Hrd|apply Hrd|constructor].
  - destruct (read_source_ok _ _ _ _ _ Hrd Hlt Hsrc) as (ns & x & Ht & Hread).
    destruct (Hstep _ _ (Get true h k) k _ _ _ _ Hrd Ht Hread) as (v & ns' & E & Hrest);
      [intros; by econstructor|apply IH|].
    exists v, ns'. split; [|done]. rewrite <- E. simpl. unfold mbind, M_bind, modify. by destruct (read_cell _ _) as [[] ?].
  - destruct (read_computed_ok _ R _ _ _ _ (HR _ Hlt) Hrd Hlt Hcomp) as (ns & x & Ht & Hread).
    destruct (Hstep _ _ (GetComputed true h k) k _ _ _ _ Hrd Ht Hread) as (v & ns' & E & Hrest);
      [intros; by econstructor|apply IH|].
    exists v, ns'. split; [|done]. rewrite <- E. simpl. unfold mbind, M_bind, modify. by destruct (get_slot_with _ _ _) as [[] ?].
Qed.

(** ** Recomputing and refreshing *)

Lemma frame_insert i s s' ns :
  ns !! i = Some (NSlot s) → s_clean s = false → s_in_progress s' = s_in_progress s →
  frame (S i) ns (<[i := NSlot s']> ns) ∧ prog_same ns (<[i := NSlot s']> ns).
Proof.
  intros Hi Hc Hp. split; [split|].
  - intros k cell Hk. exists (c_dependents cell). rewrite lookup_insert_ne by congruence. rewrite Hk. by destruct cell.
  - intros k sk Hk Hck. exists (s_dependents sk). rewrite lookup_insert_ne by congruence. rewrite Hk. by destruct sk.
  - intros k sk Hk Hle. exists (s_dependents sk), (s_dirty sk), (s_force_recompute sk).
    rewrite lookup_insert_ne by lia. rewrite Hk. by destruct sk.
  - intros k sk Hk. destruct (decide (k = i)) as [->|]; [rewrite lookup_insert_eq; simplify_eq; eauto|].
    rewrite lookup_insert_ne by done. eauto.
Qed.

(** The slot's node once the closure returned [v]. *)
Definition stored_node c i (v : V) (s : SlotNode V) : SlotNode V :=
  let unchanged := match s_value s with Some old => unchanged_by c i s old v | None => false end in
  let s := slot_set_flags false false s in
  if unchanged then s else slot_set_value (Some v) s.

Lemma unchanged_eq c i s old v : quiet c → unchanged_by c i s old v = true → old = v.
Proof.
  intros [_ Hr]. unfold unchanged_by. rewrite Hr, lookup_empty.
  intros [_ Hb]%andb_true_iff. by apply bool_decide_eq_true in Hb.
Qed.

Lemma stored_settled c i v s : quiet c → stored_node c i v s = settled v s.
Proof.
  intros Hq. unfold stored_node, settled. destruct (s_value s) as [old|] eqn:Ev; [|done].
  destruct (unchanged_by c i s old v) eqn:Eu; [|done].
  rewrite <- (unchanged_eq _ _ _ _ _ Hq Eu), <- Ev. by destruct s.
Qed.

Lemma settle_ok g X i c s v :
  quiet c → Inv g (λ k, X k ∨ k = i) none (nodes c) → nodes c !! i = Some (NSlot s) → s_clean s = false →
  (∀ j, j ∈ s_dependencies s → clean (nodes c) j) →
  evals (cval (nodes c)) (s_dependencies s) (s_compute s) v →
  ∃ b ns,
    (let unchanged := match s_value s with Some old => unchanged_by c i s old v | None => false end in
     let changed := negb unchanged && bool_decide (is_Some (s_value s)) in
     (if changed then _ ← invalidate_dependents_now i; mret true else mret false)
       (set_node i (NSlot (stored_node c i v s)) c)) = (Val b, set_nodes ns c) ∧
    Inv g X none ns ∧ frame (S i) (nodes c) ns ∧ prog_same (nodes c) ns ∧ clean ns i.
Proof.
  intros Hq HI Hi Hst Hcl Hev. rewrite stored_settled by done.
  pose proof (settle_inv _ _ _ _ _ _ HI Hi Hcl Hev) as HI3.
  destruct (frame_insert i s (settled v s) (nodes c) Hi Hst eq_refl) as [Hf3 Hp3].
  set (ns3 := <[i:=NSlot (settled v s)]> (nodes c)) in *.
  assert (Hi3 : ns3 !! i = Some (NSlot (settled v s))) by apply lookup_insert_eq.
  assert (Hc3 : clean ns3 i). { intros s3 Hs3. rewrite Hi3 in Hs3. by injection Hs3 as <-. }
  assert (Hc3' : s_clean (settled v s) = true) by (by apply Hc3).
  cbv zeta. change (set_node i (NSlot (settled v s)) c) with (set_nodes ns3 c).
  destruct (negb _ && _) eqn:Echg.
  - destruct (invalidate_ok _ _ _ i (set_nodes ns3 c) HI3) as (ns4 & E4 & HI4 & Hg4 & Hu4). simpl in *.
    assert (Hcl4 : ∀ k, (∃ sk, ns3 !! k = Some (NSlot sk) ∧ s_clean sk = true) → ns4 !! k = ns3 !! k).
    { intros k Hk. apply (Hu4 (λ k, ¬ ∃ sk, ns3 !! k = Some (NSlot sk) ∧ s_clean sk = true)); [| |tauto].
      - intros j sj d Hj Hnj Hd (sd & Hsd & Hcd). destruct (s_clean sj) eqn:Ej; [eauto|].
        by rewrite (inv_up _ _ _ _ HI3 _ _ _ Hj Ej Hd _ Hsd) in Hcd.
      - intros d Hd (sd & Hsd & Hcd). destruct (decide (d = i)) as [->|Hdi].
        + apply (edges_sym _ (inv_edges _ _ _ _ HI3)), (edges_lt _ (inv_edges _ _ _ _ HI3)) in Hd. lia.
        + unfold ns3 in Hsd. rewrite lookup_insert_ne in Hsd by done.
          unfold dpts_of in Hd. rewrite Hi3 in Hd. simpl in Hd.
          by rewrite (inv_up _ _ _ _ HI _ _ _ Hi Hst Hd _ Hsd) in Hcd. }
    destruct (flags_grow_frame (S i) _ _ Hg4 Hcl4) as [Hf4 Hp4].
    exists true, ns4. split_and!; [| |by eapply frame_trans|by eapply prog_same_trans|].
    + unfold mbind, M_bind. by rewrite E4.
    + eapply Inv_weaken; [done|done|]. unfold none. naive_solver.
    + intros s4. rewrite Hcl4 by eauto. rewrite Hi3. by intros [= <-].
  - exists false, ns3. split_and!; try done. eapply Inv_weaken; [done|done|].
    intros k (-> & [old Ho] & Hne). rewrite Ho in *. destruct (unchanged_by c i s old v) eqn:Eu.
    + apply (unchanged_eq _ _ _ _ _ Hq) in Eu. by subst.
    + by rewrite bool_decide_true in Echg by eauto.
Qed.

Lemma recompute_ok g R F X i c :
  (∀ j, j < i → refresh_good g R j) → quiet c → Inv g X none (nodes c) → (∀ x, X x → i < x) →
  guarded_from i (nodes c) → is_computed g i → stale (nodes c) i →
  ∃ b ns, recompute_slot_now_with R F i c = (Val b, set_nodes ns c) ∧ Inv g X none ns ∧
    frame (S i) (nodes c) ns ∧ prog_same (nodes c) ns ∧ clean ns i.
Proof.
  intros HR Hq HI HX Hg Hci Hst. destruct (inv_slot _ _ _ _ i HI Hci) as [s Hs].
  pose proof (inv_compute _ _ _ _ _ _ HI Hs) as Hgi.
  destruct (unlinked_ok i s (nodes c) (inv_edges _ _ _ _ HI) Hs) as (Hrw & He1 & Hd1).
  set (ns1 := unlinked i s (nodes c)) in *.
  destruct (rewire_frame _ _ _ Hrw Hst) as (Hf1 & Hp1 & Ho1).
  assert (HI1 : Inv g (λ k, X k ∨ k = i) none ns1).
  { eapply rewire_inv; eauto. eapply Inv_weaken; [exact HI|auto|done]. }
  assert (Hrd : ready g (λ k, X k ∨ k = i) i (set_nodes ns1 c)).
  { split; simpl; try done; auto.
    - intros x [?%HX| ->]; lia.
    - exact (guarded_same _ _ _ _ _ _ _ _ HI HI1 Hp1 Hg).
    - eapply own_stale; eauto.
    - rewrite Hd1. by intros j ?%elem_of_nil. }
  destruct (run_ok g R F i (s_compute s) HR (inv_ok _ _ _ _ HI _ _ Hgi) _ _ Hrd)
    as (v & ns2 & E2 & Hr2 & Hcl2 & Hev2).
  destruct (inv_slot _ _ _ _ i (rc_inv _ _ _ _ _ Hr2) Hci) as [s2 Hs2].
  assert (Hcomp : s_compute s2 = s_compute s).
  { pose proof (inv_compute _ _ _ _ _ _ (rc_inv _ _ _ _ _ Hr2) Hs2). congruence. }
  assert (Hds2 : deps_of ns2 i = s_dependencies s2) by (unfold deps_of; by rewrite Hs2).
  destruct (settle_ok g X i (set_nodes ns2 c) s2 v) as (b & ns & E & HI' & Hf & Hp & Hc);
    [done|apply Hr2|done| | | |].
  { eapply (own_stale i (nodes c) ns2); [|by eauto|done|done]. eapply own_trans; [done|apply Hr2]. }
  { rewrite <- Hds2. done. }
  { by rewrite <- Hds2, Hcomp. }
  exists b, ns. split_and!; [|done| | |done].
  - unfold recompute_slot_now_with, get_slot_node, get_node. rewrite Hs.
    rewrite upd_slot_eq, detach_upstream_eq. simpl.
    assert (Hun : alter (map_slot (slot_set_dependencies [])) i (nodes c) = alter (map_deps (λ _, [])) i (nodes c)).
    { by rewrite !(alter_Some _ _ _ _ Hs). }
    rewrite Hun. fold (unlinked i s (nodes c)). fold ns1. rewrite set_nodes_twice.
    assert (Hgen : node_generation (set_nodes ns1 c) i = 0).
    { unfold node_generation. simpl. by rewrite (proj1 Hq), lookup_empty. }
    rewrite Hgen. unfold mbind at 1, M_bind at 1. rewrite E2, set_nodes_twice.
    unfold with_state. simpl. rewrite Hs2. exact E.
  - eapply frame_trans; [exact Hf1|]. eapply frame_trans; [apply Hr2|done].
  - eapply prog_same_trans; [exact Hp1|]. eapply prog_same_trans; [apply Hr2|done].
Qed.

Lemma refresh_dependencies_ok g R X i deps : ∀ c,
  (∀ j, j < i → refresh_good g R j) → quiet c → Inv g X none (nodes c) → (∀ x, X x → i < x) →
  guarded_from i (nodes c) → (∀ j, j ∈ deps → j < i) →
  ∃ b ns, refresh_dependencies R deps c = (Val b, set_nodes ns c) ∧ Inv g X none ns ∧
    frame i (nodes c) ns ∧ prog_same (nodes c) ns ∧ (∀ j, j ∈ deps → clean ns j).
Proof.
  induction deps as [|d deps IH]; intros c HR Hq HI HX Hg Hlt.
  { exists false, (nodes c). rewrite set_nodes_id. destruct (flags_refl (nodes c)) as [Hf Hp].
    split_and!; try done; [eapply frame_mono; [done|lia]|]. by intros j ?%elem_of_nil. }
  assert (Hd : d < i) by (apply Hlt; left).
  assert (Hread : ∃ b ns1, (if is_slot_node c d then R d else mret false) c = (Val b, set_nodes ns1 c) ∧
    Inv g X none ns1 ∧ frame i (nodes c) ns1 ∧ prog_same (nodes c) ns1 ∧ clean ns1 d).
  { destruct (is_slot_node c d) eqn:E.
    - unfold is_slot_node in E. apply bool_decide_eq_true in E as [s Hs].
      unfold get_slot_node, get_node in Hs. destruct (nodes c !! d) as [[s'| |]|] eqn:Ed; simplify_eq.
      destruct (HR d Hd c X) as (b & ns & E1 & HI1 & Hf1 & Hp1 & Hc1); [done|done| | | |].
      + intros x ?%HX. lia.
      + eapply guarded_mono; [|done]. lia.
      + unfold is_computed. by rewrite (inv_compute _ _ _ _ _ _ HI Ed).
      + exists b, ns. split_and!; try done. eapply frame_mono; [done|lia].
    - exists false, (nodes c). rewrite set_nodes_id. destruct (flags_refl (nodes c)) as [Hf Hp].
      split_and!; try done; [eapply frame_mono; [done|lia]|].
      intros s Hs. unfold is_slot_node, get_slot_node, get_node in E. rewrite Hs in E.
      by rewrite bool_decide_true in E by eauto. }
  destruct Hread as (b1 & ns1 & E1 & HI1 & Hf1 & Hp1 & Hc1).
  destruct (IH (set_nodes ns1 c)) as (b2 & ns2 & E2 & HI2 & Hf2 & Hp2 & Hc2); try done.
  { exact (guarded_same _ _ _ _ _ _ _ _ HI HI1 Hp1 Hg). }
  { intros j Hj. apply Hlt. by right. }
  exists (b1 || b2), ns2. split_and!; [|done|by eapply frame_trans|by eapply prog_same_trans|].
  - simpl. unfold gets, mbind, M_bind. rewrite E1, E2. by destruct b1, b2.
  - intros j [->|Hj]%elem_of_cons; [|auto]. exact (clean_same _ _ _ _ _ _ _ _ _ HI1 HI2 Hf2 Hc1).
Qed.

(** Raising or lowering the cycle guard of a slot changes nothing else. *)
Lemma progress_inv g X i s b ns :
  Inv g X none ns → ns !! i = Some (NSlot s) →
  Inv g X none (<[i := NSlot (slot_set_in_progress b s)]> ns).
Proof.
  intros HI Hi. set (ns' := <[i := _]> ns).
  assert (Hl : ∀ k s', ns' !! k = Some (NSlot s') → ∃ s0 b0, ns !! k = Some (NSlot s0) ∧ s' = slot_set_in_progress b0 s0).
  { intros k s'. unfold ns'. destruct (decide (k = i)) as [->|]; [rewrite lookup_insert_eq|rewrite lookup_insert_ne by done].
    - intros [= <-]. eauto.
    - intros Hk. exists s', (s_in_progress s'). split; [done|]. by destruct s'. }
  assert (Hdeps : ∀ k, deps_of ns' k = deps_of ns k).
  { intros k. unfold deps_of, ns'. destruct (decide (k = i)) as [->|]; [by rewrite lookup_insert_eq, Hi|by rewrite lookup_insert_ne]. }
  assert (Hdpts : ∀ k, dpts_of ns' k = dpts_of ns k).
  { intros k. unfold dpts_of, ns'. destruct (decide (k = i)) as [->|]; [by rewrite lookup_insert_eq, Hi|by rewrite lookup_insert_ne]. }
  assert (Hcv : ∀ k, cval ns' k = cval ns k).
  { intros k. unfold cval, ns'. destruct (decide (k = i)) as [->|]; [by rewrite lookup_insert_eq, Hi|by rewrite lookup_insert_ne]. }
  split; [apply HI| | | | |].
  - intros k. pose proof (inv_dom _ _ _ _ HI k) as Hd. unfold ns'. destruct (decide (k = i)) as [->|].
    + rewrite lookup_insert_eq. by rewrite Hi in Hd.
    + by rewrite lookup_insert_ne.
  - destruct (inv_edges _ _ _ _ HI). split; intros *; rewrite ?Hdeps, ?Hdpts; auto.
  - intros k s' Hk Hf. destruct (Hl _ _ Hk) as (s0 & b0 & Hs0 & ->). exact (inv_fd _ _ _ _ HI _ _ Hs0 Hf).
  - intros k s' d Hk Hc Hd sd Hsd. destruct (Hl _ _ Hk) as (s0 & b0 & Hs0 & ->), (Hl _ _ Hsd) as (s1 & b1 & Hs1 & ->).
    exact (inv_up _ _ _ _ HI _ _ _ Hs0 Hc Hd _ Hs1).
  - intros k s' v Hk HX Hv Hf HE. destruct (Hl _ _ Hk) as (s0 & b0 & Hs0 & ->).
    eapply evals_mono; [exact (inv_cache _ _ _ _ HI _ _ _ Hs0 HX Hv Hf HE)|done|]. intros. by rewrite Hcv.
Qed.

(** Nothing needs recomputing: the cached value is still right. *)
Lemma revalidate_ok g X i c s :
  Inv g X none (nodes c) → ¬ X i → nodes c !! i = Some (NSlot s) → s_clean s = false →
  (∀ j, j ∈ s_dependencies s → clean (nodes c) j) → is_Some (s_value s) → s_force_recompute s = false →
  ∃ ns, clear_slot_dirty_flags i c = set_nodes ns c ∧ Inv g X none ns ∧
    frame (S i) (nodes c) ns ∧ prog_same (nodes c) ns ∧ clean ns i.
Proof.
  intros HI HX Hi Hst Hcl [v Hv] Hf.
  assert (Heq : settled v s = slot_set_flags false false s) by (unfold settled; rewrite <- Hv; by destruct s).
  exists (<[i := NSlot (settled v s)]> (nodes c)).
  destruct (frame_insert i s (settled v s) (nodes c) Hi Hst eq_refl) as [Hf3 Hp3].
  split_and!; [| |done|done|].
  - unfold clear_slot_dirty_flags. rewrite upd_slot_eq, (alter_Some _ _ _ _ Hi). simpl. by rewrite Heq.
  - eapply Inv_weaken; [apply (settle_inv g X)| |]; [eapply Inv_weaken; [exact HI|auto|done]|done|done| |done|].
    + eapply (inv_cache _ _ _ _ HI); eauto.
    + intros k (-> & _ & Hne). by rewrite Hv in Hne.
  - intros s'. rewrite lookup_insert_eq. by intros [= <-].
Qed.

Lemma frame_patch i s n ns ns' :
  ns !! i = Some (NSlot s) → s_clean s = false → frame (S i) ns ns' → frame (S i) ns (<[i := n]> ns').
Proof.
  intros Hi Hc [Fc Fl Fa]. split.
  - intros k cell Hk. rewrite lookup_insert_ne by congruence. eauto.
  - intros k sk Hk Hck. rewrite lookup_insert_ne by congruence. eauto.
  - intros k sk Hk Hle. rewrite lookup_insert_ne by lia. eauto.
Qed.

(** What happens between the entry and the exit of the cycle guard. *)
Lemma refresh_body_ok g R F X i c :
  (∀ j, j < i → refresh_good g R j) → quiet c → Inv g X none (nodes c) → (∀ x, X x → i < x) →
  guarded_from i (nodes c) → is_computed g i → stale (nodes c) i →
  ∃ b ns,
    (o ← gets (λ c, get_slot_node c i);
     match o with
     | None => mret false
     | Some s =>
         dependency_changed ← refresh_dependencies R (s_dependencies s);
         o ← gets (λ c, get_slot_node c i);
         match o with
         | None => mret false
         | Some s =>
             if bool_decide (s_value s = None) || s_force_recompute s || (dependency_changed : bool)
             then recompute_slot_now_with R F i
             else modify (clear_slot_dirty_flags i);; mret false
         end
     end) c = (Val b, set_nodes ns c) ∧ Inv g X none ns ∧
    frame (S i) (nodes c) ns ∧ prog_same (nodes c) ns ∧ clean ns i.
Proof.
  intros HR Hq HI HX Hg Hci Hst. destruct (inv_slot _ _ _ _ i HI Hci) as [s Hs].
  assert (Hdeps : deps_of (nodes c) i = s_dependencies s) by (unfold deps_of; by rewrite Hs).
  destruct (refresh_dependencies_ok g R X i (s_dependencies s) c HR Hq HI HX Hg)
    as (b1 & ns1 & E1 & HI1 & Hf1 & Hp1 & Hc1).
  { intros j Hj. apply (edges_lt _ (inv_edges _ _ _ _ HI)). by rewrite Hdeps. }
  destruct (fr_above _ _ _ Hf1 _ _ Hs) as (d & df & ff & Hs1 & _ & _); [lia|].
  set (s1 := slot_set_flags df ff (slot_set_dependents d s)) in *.
  assert (Hst1 : stale ns1 i).
  { eapply own_stale; [by eapply frame_own|by eauto|done]. }
  unfold mbind at 1, M_bind at 1, gets at 1. unfold get_slot_node at 1, get_node at 1. rewrite Hs.
  unfold mbind at 1, M_bind at 1. rewrite E1.
  assert (Hg1 : get_slot_node (set_nodes ns1 c) i = Some s1) by (unfold get_slot_node, get_node; simpl; by rewrite Hs1).
  unfold mbind at 1, M_bind at 1, gets at 1. rewrite Hg1.
  destruct (bool_decide (s_value s1 = None) || s_force_recompute s1 || b1) eqn:Eneed.
  - destruct (recompute_ok g R F X i (set_nodes ns1 c)) as (b & ns & E & HI2 & Hf2 & Hp2 & Hc2); try done.
    { exact (guarded_same _ _ _ _ _ _ _ _ HI HI1 Hp1 Hg). }
    exists b, ns. split_and!; [exact E|done| |by eapply prog_same_trans|done].
    eapply frame_trans; [eapply frame_mono; [exact Hf1|lia]|exact Hf2].
  - apply orb_false_iff in Eneed as [[Ev Ef]%orb_false_iff _]. apply bool_decide_eq_false in Ev.
    destruct (revalidate_ok g X i (set_nodes ns1 c) s1) as (ns & E & HI2 & Hf2 & Hp2 & Hc2); try done.
    { intros ?%HX. lia. }
    { by apply Hst1. }
    { by apply not_eq_None_Some. }
    exists false, ns. split_and!; [|done| |by eapply prog_same_trans|done].
    + unfold mbind, M_bind, modify. rewrite E. done.
    + eapply frame_trans; [eapply frame_mono; [exact Hf1|lia]|exact Hf2].
Qed.

Lemma with_guard_val {A} (m : M V A) f c a c' : m c = (Val a, c') → with_guard m f c = (Val a, f c').
Proof. intros E. unfold with_guard. by rewrite E. Qed.

Lemma refresh_with_ok g R F i :
  (∀ j, j < i → refresh_good g R j) → refresh_good g (refresh_slot_with R F) i.
Proof.
  intros HR c X Hq HI HX Hg Hci. destruct (inv_slot _ _ _ _ i HI Hci) as [s Hs].
  unfold refresh_slot_with. unfold get_slot_node at 1, get_node at 1. rewrite Hs.
  fold (s_clean s). destruct (s_clean s) eqn:Ecl.
  { exists false, (nodes c). rewrite set_nodes_id. destruct (flags_refl (nodes c)) as [Hf Hp].
    split_and!; try done; [eapply frame_mono; [done|lia]|]. intros s' Hs'. congruence. }
  assert (Hnp : s_in_progress s = false).
  { destruct (s_in_progress s) eqn:Ep; [|done]. specialize (Hg _ _ Hs Ep). lia. }
  set (s1 := slot_set_in_progress true s). set (ns1 := <[i := NSlot s1]> (nodes c)).
  assert (HI1 : Inv g X none ns1) by (by apply progress_inv).
  assert (Hf1 : frame (S i) (nodes c) ns1).
  { eapply frame_patch; [done..|]. eapply frame_mono; [apply flags_refl|lia]. }
  assert (Henter : enter_refresh i c = (Val true, set_nodes ns1 c)).
  { unfold enter_refresh. unfold get_slot_node, get_node. rewrite Hs, Hnp.
    by rewrite upd_slot_eq, (alter_Some _ _ _ _ Hs). }
  destruct (refresh_body_ok g R F X i (set_nodes ns1 c)) as (b & ns2 & E2 & HI2 & Hf2 & Hp2 & Hc2); try done.
  { intros k sk. simpl. unfold ns1. destruct (decide (k = i)) as [->|]; [lia|].
    rewrite lookup_insert_ne by done. intros Hk Hpk. specialize (Hg _ _ Hk Hpk). lia. }
  { intros s' Hs'. simpl in Hs'. unfold ns1 in Hs'. rewrite lookup_insert_eq in Hs'. by injection Hs' as <-. }
  destruct (inv_slot _ _ _ _ i HI2 Hci) as [s2 Hs2].
  exists b, (<[i := NSlot (slot_set_in_progress false s2)]> ns2). split_and!.
  - unfold mbind at 1, M_bind at 1. rewrite Henter. etransitivity; [exact (with_guard_val _ _ _ _ _ E2)|].
    rewrite upd_slot_eq. simpl nodes. by rewrite (alter_Some _ _ _ _ Hs2).
  - by apply progress_inv.
  - eapply frame_patch; [done..|]. by eapply frame_trans.
  - intros k sk Hk. destruct (decide (k = i)) as [->|Hne].
    + rewrite lookup_insert_eq. rewrite Hs in Hk. injection Hk as <-. eexists. split; [done|]. done.
    + rewrite lookup_insert_ne by done. apply Hp2. simpl. unfold ns1. by rewrite lookup_insert_ne.
  - intros s' Hs'. rewrite lookup_insert_eq in Hs'. injection Hs' as <-. exact (Hc2 _ Hs2).
Qed.

Lemma refresh_slot_ok g fuel : ∀ i, i < fuel → refresh_good g (refresh_slot fuel) i.
Proof.
  induction fuel as [|fuel IH]; intros i Hi; [lia|].
  assert (Hgood : refresh_good g (refresh_slot_with (refresh_slot fuel) (flush_effects fuel)) i).
  { apply refresh_with_ok. intros j Hj. apply IH. lia. }
  intros c X. rewrite refresh_slot_S. exact (Hgood c X).
Qed.

(** ** Writing and creating *)

Lemma reads_ok_kinds g g' n p :
  (∀ j, is_source g j → is_source g' j) → (∀ j, is_computed g j → is_computed g' j) →
  reads_ok g n p → reads_ok g' n p.
Proof. intros Hs Hc Hr. induction Hr; constructor; auto. Qed.

Lemma kinds_insert g i v j :
  is_source g i →
  (is_source (<[i := SSource v]> g) j ↔ is_source g j) ∧ (is_computed (<[i := SSource v]> g) j ↔ is_computed g j).
Proof.
  intros Hi. unfold is_source, is_computed in *. destruct (decide (j = i)) as [->|Hne].
  - destruct (g !! i) as [[]|] eqn:E; try done.
    by rewrite list_lookup_insert_eq by (by eapply lookup_lt_Some).
  - by rewrite list_lookup_insert_ne.
Qed.

Lemma kinds_app g n j :
  (is_source g j → is_source (g ++ [n]) j) ∧ (is_computed g j → is_computed (g ++ [n]) j).
Proof.
  unfold is_source, is_computed. destruct (g !! j) eqn:E; [|done]. by rewrite (lookup_app_l_Some _ _ _ _ E).
Qed.

Lemma write_inv g X (E : SlotId → Prop) ns i v v0 d :
  Inv g X E ns → ns !! i = Some (NCell (mkCell v0 d)) →
  Inv (<[i := SSource v]> g) X (λ k, E k ∨ k = i) (<[i := NCell (mkCell v d)]> ns).
Proof.
  intros HI Hi. set (ns' := <[i := NCell (mkCell v d)]> ns).
  assert (Hgi : g !! i = Some (SSource v0)).
  { pose proof (inv_dom _ _ _ _ HI i) as Hd. rewrite Hi in Hd. unfold node_matches in Hd.
    destruct (g !! i) as [[]|]; naive_solver. }
  assert (Hsrc : is_source g i) by (unfold is_source; by rewrite Hgi).
  assert (Hl : ∀ k s, ns' !! k = Some (NSlot s) ↔ ns !! k = Some (NSlot s)).
  { intros k s. unfold ns'. destruct (decide (k = i)) as [->|]; [rewrite lookup_insert_eq, Hi; naive_solver|by rewrite lookup_insert_ne]. }
  assert (Hdeps : ∀ k, deps_of ns' k = deps_of ns k).
  { intros k. unfold deps_of, ns'. destruct (decide (k = i)) as [->|]; [by rewrite lookup_insert_eq, Hi|by rewrite lookup_insert_ne]. }
  assert (Hdpts : ∀ k, dpts_of ns' k = dpts_of ns k).
  { intros k. unfold dpts_of, ns'. destruct (decide (k = i)) as [->|]; [by rewrite lookup_insert_eq, Hi|by rewrite lookup_insert_ne]. }
  split.
  - intros k p Hk. destruct (decide (k = i)) as [->|Hne].
    { rewrite list_lookup_insert_eq in Hk by (by eapply lookup_lt_Some). done. }
    rewrite list_lookup_insert_ne in Hk by done. eapply reads_ok_kinds; [| |by apply (inv_ok _ _ _ _ HI)];
      intros j; by apply (kinds_insert g i v j).
  - intros k. pose proof (inv_dom _ _ _ _ HI k) as Hd. unfold ns'. destruct (decide (k = i)) as [->|].
    + rewrite list_lookup_insert_eq by (by eapply lookup_lt_Some). by rewrite lookup_insert_eq.
    + by rewrite list_lookup_insert_ne, lookup_insert_ne.
  - destruct (inv_edges _ _ _ _ HI). split; intros *; rewrite ?Hdeps, ?Hdpts; auto.
  - intros k s. rewrite Hl. apply (inv_fd _ _ _ _ HI).
  - intros k s dd. rewrite Hl. intros Hk Hc Hd sd. rewrite Hl. eapply (inv_up _ _ _ _ HI); eauto.
  - intros k s w. rewrite Hl. intros Hk HX Hw Hf HE.
    eapply evals_mono; [eapply (inv_cache _ _ _ _ HI); eauto|done|].
    intros j x Hj. assert (j ≠ i) by (intros ->; apply (HE i); auto).
    unfold cval, ns'. by rewrite lookup_insert_ne.
Qed.

Lemma fresh_deps g X E ns i : Inv g X E ns → g !! i = None → ns !! i = None ∧ ∀ k, i ∉ deps_of ns k ∧ i ∉ dpts_of ns k.
Proof.
  intros HI Hi. assert (Hns : ns !! i = None).
  { pose proof (inv_dom _ _ _ _ HI i) as Hd. rewrite Hi in Hd. unfold node_matches in Hd. by destruct (ns !! i). }
  split; [done|]. intros k. rewrite <- (edges_sym _ (inv_edges _ _ _ _ HI)), (edges_sym _ (inv_edges _ _ _ _ HI)).
  unfold deps_of, dpts_of. rewrite Hns. set_solver.
Qed.

(** A node without edges can be added. *)
Lemma create_inv g X ns n m :
  Inv g X none ns → node_matches (Some n) (Some m) →
  (∀ p, n = SComputed p → reads_ok (g ++ [n]) (length g) p) →
  match m with
  | NSlot s => s_value s = None ∧ s_dependencies s = [] ∧ s_dependents s = [] ∧ s_force_recompute s = false
  | NCell cell => c_dependents cell = []
  | NEffect _ => False
  end →
  Inv (g ++ [n]) X none (<[length g := m]> ns).
Proof.
  intros HI Hm Hok Hnew. set (i := length g). set (ns' := <[i := m]> ns).
  assert (Hgi : g !! i = None) by (apply lookup_ge_None; unfold i; lia).
  destruct (fresh_deps _ _ _ _ _ HI Hgi) as [Hi Hfresh].
  assert (Hdeps : ∀ k, deps_of ns' k = deps_of ns k).
  { intros k. unfold deps_of, ns'. destruct (decide (k = i)) as [->|]; [|by rewrite lookup_insert_ne].
    rewrite lookup_insert_eq, Hi. by destruct m as [s|cell|]; [destruct Hnew as (_ & ? & _)|..]. }
  assert (Hdpts : ∀ k, dpts_of ns' k = dpts_of ns k).
  { intros k. unfold dpts_of, ns'. destruct (decide (k = i)) as [->|]; [|by rewrite lookup_insert_ne].
    rewrite lookup_insert_eq, Hi. by destruct m as [s|cell|]; [destruct Hnew as (_ & _ & ? & _)|..]. }
  split.
  - intros k p Hk. destruct (decide (k = i)) as [->|Hne].
    + unfold i in Hk. rewrite list_lookup_middle in Hk by done. apply Hok. congruence.
    + assert (Hk' : g !! k = Some (SComputed p)).
      { apply lookup_app_Some in Hk as [?|[? Hk]]; [done|]. apply list_lookup_singleton_Some in Hk. unfold i in Hne. lia. }
      eapply reads_ok_kinds; [| |by apply (inv_ok _ _ _ _ HI)]; intros j; by apply kinds_app.
  - intros k. pose proof (inv_dom _ _ _ _ HI k) as Hd. unfold ns'. destruct (decide (k = i)) as [->|Hne].
    + rewrite lookup_insert_eq. unfold i. by rewrite list_lookup_middle.
    + rewrite lookup_insert_ne by done. destruct (decide (k < i)).
      * by rewrite lookup_app_l.
      * rewrite (lookup_ge_None_2 g) in Hd by (unfold i in *; lia).
        rewrite (lookup_ge_None_2 (g ++ [n])); [done|]. rewrite length_app. simpl. unfold i in *. lia.
  - destruct (inv_edges _ _ _ _ HI). split; intros *; rewrite ?Hdeps, ?Hdpts; auto.
  - intros k s. unfold ns'. destruct (decide (k = i)) as [->|]; [rewrite lookup_insert_eq|rewrite lookup_insert_ne by done; apply (inv_fd _ _ _ _ HI)].
    intros [= ->]. destruct Hnew as (_ & _ & _ & ->). done.
  - intros k s d Hk Hc Hd sd Hsd. assert (Hk' : ns' !! k = Some (NSlot s)) by done. revert Hk Hsd. unfold ns'.
    destruct (decide (k = i)) as [->|]; [rewrite lookup_insert_eq|rewrite lookup_insert_ne by done].
    { intros [= ->]. destruct Hnew as (_ & _ & Hnil & _). by rewrite Hnil in Hd; apply elem_of_nil in Hd. }
    intros Hk. destruct (decide (d = i)) as [->|]; [|rewrite lookup_insert_ne by done; by eapply (inv_up _ _ _ _ HI)].
    destruct (Hfresh k) as [_ Hno]. exfalso. apply Hno. unfold dpts_of. by rewrite Hk.
  - intros k s w. unfold ns' at 1. destruct (decide (k = i)) as [->|]; [rewrite lookup_insert_eq|rewrite lookup_insert_ne by done].
    { intros [= ->]. destruct Hnew as (Hnil & _). congruence. }
    intros Hk HX Hw Hf HE. eapply evals_mono; [eapply (inv_cache _ _ _ _ HI); eauto|done|].
    intros j x Hj. assert (j ≠ i).
    { intros ->. apply (proj1 (Hfresh k)). unfold deps_of. by rewrite Hk. }
    unfold cval, ns'. by rewrite lookup_insert_ne.
Qed.

(** ** Operation sequences *)

Inductive graph_op :=
  | OpSource (v : V)
  | OpComputed (guarded : bool) (p : prog V V)
  | OpSet (i : SlotId) (v : V)
  | OpGet (i : SlotId)
  | OpGetComputed (i : SlotId)
  | OpBatch (writes : list (SlotId * V)).

Inductive answer := Created (h : Handle) | Value (v : V) | Done.

Definition handle i : Handle := mkHandle i 0.

Fixpoint write_all (fuel : nat) (writes : list (SlotId * V)) : M V unit :=
  match writes with
  | [] => mret tt
  | w :: writes => set_source fuel (handle w.1) w.2;; write_all fuel writes
  end.

Definition run_op (fuel : nat) (op : graph_op) : M V answer :=
  match op with
  | OpSource v => h ← source v; mret (Created h)
  | OpComputed guarded p => h ← (if guarded then computed p else slot p); mret (Created h)
  | OpSet i v => set_source fuel (handle i) v;; mret Done
  | OpGet i => v ← get_source (handle i); mret (Value v)
  | OpGetComputed i => v ← get_computed fuel (handle i); mret (Value v)
  | OpBatch writes => batch fuel (write_all fuel writes);; mret Done
  end.

Definition spec_write g (w : SlotId * V) : list spec_node := <[w.1 := SSource w.2]> g.
Definition spec_op (op : graph_op) g : option (answer * list spec_node) :=
  match op with
  | OpSource v => Some (Created (handle (length g)), g ++ [SSource v])
  | OpComputed _ p => Some (Created (handle (length g)), g ++ [SComputed p])
  | OpSet i v => Some (Done, spec_write g (i, v))
  | OpGet i | OpGetComputed i => v ← spec_get g i; Some (Value v, g)
  | OpBatch writes => Some (Done, foldl spec_write g writes)
  end.

(** The operation names cells that exist, and its formula is pure. *)
Definition op_ok (op : graph_op) g : Prop :=
  match op with
  | OpSource _ => True
  | OpComputed _ p => reads_ok g (length g) p
  | OpSet i _ | OpGet i => is_source g i
  | OpGetComputed i => is_computed g i
  | OpBatch writes => ∀ w, w ∈ writes → is_source g w.1
  end.

Fixpoint run_ops (fuel : nat) (ops : list graph_op) : M V (list answer) :=
  match ops with
  | [] => mret []
  | op :: ops => a ← run_op fuel op; l ← run_ops fuel ops; mret (a :: l)
  end.

Fixpoint spec_ops (ops : list graph_op) g : option (list answer) :=
  match ops with
  | [] => Some []
  | op :: ops =>
      match spec_op op g with
      | Some (a, g) => l ← spec_ops ops g; Some (a :: l)
      | None => None
      end
  end.

(** Every operation of the sequence is admissible where it stands. *)
Fixpoint ops_ok (ops : list graph_op) g : Prop :=
  match ops with
  | [] => True
  | op :: ops => op_ok op g ∧ ∀ a g', spec_op op g = Some (a, g') → ops_ok ops g'
  end.

(** The state between two operations of a client that uses no effects. *)
Record settled_ctx g c : Prop := {
  st_inv : Inv g none none (nodes c);
  st_quiet : quiet c;
  st_guards : ∀ i s, nodes c !! i = Some (NSlot s) → s_in_progress s = false;
  st_ids : next_id c = length g ∧ free_ids c = [];
  st_idle : pending_effects c = [] ∧ flushing_effects c = false;
  st_batch : batch_depth c = 0 ∧ batched_cells c = [] ∧ batched_cell_clears c = [] ∧ batched_slots c = [];
}.

Lemma empty_settled : settled_ctx [] empty_ctx.
Proof.
  split; try done. split; try done.
  split; unfold deps_of, dpts_of; simpl; try (intros *; rewrite ?lookup_empty; set_solver).
  - intros i. rewrite lookup_empty. apply NoDup_nil_2.
  - intros i. rewrite lookup_empty. apply NoDup_nil_2.
Qed.

Lemma settled_nodes g g' c ns :
  settled_ctx g c → Inv g' none none ns → length g' = length g →
  (∀ i s, ns !! i = Some (NSlot s) → s_in_progress s = false) → settled_ctx g' (set_nodes ns c).
Proof. intros [] HI Hl Hg. split; simpl; try done. by rewrite Hl. Qed.

Definition idle_guards ns : Prop := ∀ i s, ns !! i = Some (NSlot s) → s_in_progress s = false.

Lemma idle_same ns ns' : prog_same ns' ns → idle_guards ns → idle_guards ns'.
Proof. intros Hp Hi k s Hk. destruct (Hp _ _ Hk) as (s' & Hk' & <-). eauto. Qed.

Lemma idle_guarded n ns : idle_guards ns → guarded_from n ns.
Proof. intros Hi k s Hk Hs. rewrite (Hi _ _ Hk) in Hs. done. Qed.

Lemma flags_grow_idle ns ns' : flags_grow ns ns' → idle_guards ns → idle_guards ns'.
Proof.
  intros Hg Hi k s Hk. destruct (flags_grow_slot _ _ _ _ Hg Hk) as (s0 & Hs0 & -> & _). apply (Hi _ _ Hs0).
Qed.

Lemma insert_cell_idle i cell ns : idle_guards ns → idle_guards (<[i := NCell cell]> ns).
Proof.
  intros Hi k s. destruct (decide (k = i)) as [->|]; [by rewrite lookup_insert_eq|].
  rewrite lookup_insert_ne by done. apply Hi.
Qed.

Lemma source_cell g X E ns i :
  Inv g X E ns → is_source g i → ∃ v d, ns !! i = Some (NCell (mkCell v d)) ∧ g !! i = Some (SSource v).
Proof.
  intros HI Hi. destruct (inv_cell _ _ _ _ i HI Hi) as [[v d] Hc].
  pose proof (inv_dom _ _ _ _ HI i) as Hd. rewrite Hc in Hd. unfold node_matches in Hd.
  destruct (g !! i) as [[w|]|] eqn:Hg; naive_solver.
Qed.

(** Writing a source outside a batch stores the value and announces it. *)
Lemma set_now_ok g fuel i v c :
  is_batching c = false → Inv g none none (nodes c) → idle_guards (nodes c) → is_source g i →
  ∃ ns, set_source fuel (handle i) v c = (Val tt, set_nodes ns c) ∧
    Inv (spec_write g (i, v)) none none ns ∧ idle_guards ns.
Proof.
  intros Hb HI Hid Hi. destruct (source_cell _ _ _ _ i HI Hi) as (v0 & d & Hc & Hg).
  unfold set_source, write_cell_with, get_cell_node, get_node, spec_write. simpl. rewrite Hc. simpl.
  case_decide as Hv.
  { subst. exists (nodes c). rewrite set_nodes_id, list_insert_id by done. done. }
  set (c1 := set_node i (NCell (mkCell v d)) c). change (is_batching c1) with (is_batching c). rewrite Hb.
  pose proof (write_inv g none none _ i v v0 d HI Hc) as HI1.
  destruct (invalidate_ok _ _ _ i c1 HI1) as (ns & E1 & HI2 & Hg2 & _).
  exists ns. split_and!.
  - unfold mbind, M_bind. by rewrite E1.
  - eapply Inv_weaken; [exact HI2|done|]. unfold none. tauto.
  - eapply flags_grow_idle; [done|]. by apply insert_cell_idle.
Qed.

(** Inside a batch a write only stores; the cell is remembered. *)
Definition in_batch c ns batched : Ctx V := set_batched batched [] [] (set_batch_depth 1 (set_nodes ns c)).

Lemma set_batched_ok g fuel i v c ns batched :
  Inv g none (λ k, k ∈ batched) ns → idle_guards ns → is_source g i →
  ∃ ns' batched', set_source fuel (handle i) v (in_batch c ns batched) = (Val tt, in_batch c ns' batched') ∧
    Inv (spec_write g (i, v)) none (λ k, k ∈ batched') ns' ∧ idle_guards ns'.
Proof.
  intros HI Hid Hi. destruct (source_cell _ _ _ _ i HI Hi) as (v0 & d & Hc & Hg).
  unfold set_source, write_cell_with, get_cell_node, get_node, spec_write. simpl. rewrite Hc. simpl.
  case_decide as Hv.
  { subst. exists ns, batched. by rewrite list_insert_id. }
  exists (<[i := NCell (mkCell v d)]> ns), (batch_insert i batched). split_and!; [done| |by apply insert_cell_idle].
  eapply Inv_weaken; [exact (write_inv g none _ _ i v v0 d HI Hc)|done|].
  intros k Hk. by apply elem_of_vec_insert.
Qed.

Lemma spec_write_source g w i : is_source g w.1 → is_source g i → is_source (spec_write g w) i.
Proof. intros Hw Hi. by apply (kinds_insert g w.1 w.2 i Hw). Qed.

Lemma write_all_ok fuel c writes : ∀ g ns batched,
  Inv g none (λ k, k ∈ batched) ns → idle_guards ns → (∀ w, w ∈ writes → is_source g w.1) →
  ∃ ns' batched', write_all fuel writes (in_batch c ns batched) = (Val tt, in_batch c ns' batched') ∧
    Inv (foldl spec_write g writes) none (λ k, k ∈ batched') ns' ∧ idle_guards ns'.
Proof.
  induction writes as [|[i v] writes IH]; intros g ns batched HI Hid Hok; [by exists ns, batched|].
  assert (Hi : is_source g i) by (apply (Hok (i, v)); left).
  destruct (set_batched_ok g fuel i v c ns batched) as (ns1 & b1 & E1 & HI1 & Hid1); [done..|].
  destruct (IH _ _ _ HI1 Hid1) as (ns2 & b2 & E2 & HI2 & Hid2).
  { intros w' Hw'. apply spec_write_source; [done|]. apply Hok. by right. }
  exists ns2, b2. split_and!; [|done|done].
  simpl. unfold mbind, M_bind. by rewrite E1, E2.
Qed.

(** The end of the batch announces the remembered cells one after the other. *)
Lemma announce_all_ok g cells : ∀ (E : SlotId → Prop) c,
  Inv g none (λ k, E k ∧ k ∈ cells) (nodes c) → idle_guards (nodes c) →
  ∃ ns, for_each (λ id, _ ← invalidate_dependents_now id; mret tt) cells c = (Val tt, set_nodes ns c) ∧
    Inv g none none ns ∧ idle_guards ns.
Proof.
  induction cells as [|i cells IH]; intros E c HI Hid.
  { exists (nodes c). rewrite set_nodes_id. split_and!; try done. eapply Inv_weaken; [exact HI|done|]. set_solver. }
  destruct (invalidate_ok _ _ _ i c HI) as (ns1 & E1 & HI1 & Hg1 & _).
  destruct (IH (λ k, E k ∧ k ≠ i) (set_nodes ns1 c)) as (ns2 & E2 & HI2 & Hid2).
  { eapply Inv_weaken; [exact HI1|done|]. intros k [[? ?%elem_of_cons] ?]. naive_solver. }
  { by eapply flags_grow_idle. }
  exists ns2. split_and!; [|done|done]. simpl. unfold mbind at 1, M_bind at 1. unfold mbind at 1, M_bind at 1. rewrite E1. exact E2.
Qed.

Lemma flush_idle fuel c :
  pending_effects c = [] → flushing_effects c = false → flush_effects (S (S fuel)) c = (Val tt, c).
Proof.
  intros Hp Hf. rewrite flush_effects_S, Hf, flush_loop_S. simpl. rewrite Hp. destruct c; simpl in *. by subst.
Qed.

Lemma flush_batched_ok g fuel cells c :
  batched_cells c = cells → batched_cell_clears c = [] → batched_slots c = [] →
  pending_effects c = [] → flushing_effects c = false →
  Inv g none (λ k, k ∈ cells) (nodes c) → idle_guards (nodes c) →
  ∃ ns, flush_batched_invalidations_with (flush_effects (S (S fuel))) c =
      (Val tt, set_batched [] [] [] (set_nodes ns c)) ∧
    Inv g none none ns ∧ idle_guards ns.
Proof.
  intros Hc Hc2 Hc3 Hp Hf HI Hid.
  destruct (announce_all_ok g cells (λ k, k ∈ cells) c) as (ns & E & HI2 & Hid2); [|done|].
  { eapply Inv_weaken; [exact HI|done|]. auto. }
  exists ns. split_and!; [|done|done].
  unfold flush_batched_invalidations_with. unfold mbind at 1, M_bind at 1, gets at 1. rewrite Hc.
  unfold mbind at 1, M_bind at 1. rewrite E. unfold modify, gets, mbind, M_bind. simpl. rewrite Hc2. simpl.
  rewrite Hc3.
  exact (flush_idle fuel (set_batched [] [] [] (set_nodes ns c)) Hp Hf).
Qed.

Lemma batch_ok g fuel writes c :
  settled_ctx g c → (∀ w, w ∈ writes → is_source g w.1) →
  ∃ ns, batch (S (S fuel)) (write_all (S (S fuel)) writes) c = (Val tt, set_nodes ns c) ∧
    Inv (foldl spec_write g writes) none none ns ∧ idle_guards ns.
Proof.
  intros [HI Hq Hg [Hn Hfree] [Hp Hf] (Hbd & Hb1 & Hb2 & Hb3)] Hok.
  destruct (write_all_ok (S (S fuel)) c writes g (nodes c) []) as (ns1 & b1 & E1 & HI1 & Hid1); [|done|done|].
  { eapply Inv_weaken; [exact HI|done|]. intros k []. }
  destruct (flush_batched_ok (foldl spec_write g writes) fuel b1 (set_batch_depth 0 (in_batch c ns1 b1)))
    as (ns2 & E2 & HI2 & Hid2); [done..|].
  exists ns2. split_and!; [|done|done].
  assert (Hstart : set_batch_depth (S (batch_depth c)) c = in_batch c (nodes c) []).
  { unfold in_batch. rewrite Hbd, set_nodes_id. destruct c; simpl in *. by subst. }
  unfold batch, batch_with. rewrite Hstart, E1. unfold finish_batch_with.
  change (batch_depth (in_batch c ns1 b1)) with 1. cbv iota.
  change (0 =? 0) with true. cbv iota. rewrite E2.
  unfold in_batch, set_batched, set_batch_depth, set_nodes. simpl. destruct c; simpl in *. by subst.
Qed.

(** A read of a computed cell answers the specification. *)
Lemma get_computed_ok g fuel i c :
  settled_ctx g c → is_computed g i → length g ≤ fuel →
  ∃ v ns, get_computed fuel (handle i) c = (Val v, set_nodes ns c) ∧ spec_get g i = Some v ∧
    settled_ctx g (set_nodes ns c).
Proof.
  intros Hs Hi Hfuel. pose proof (st_inv _ _ Hs) as HI.
  assert (Hlt : i < length g).
  { unfold is_computed in Hi. destruct (g !! i) eqn:E; [|done]. by eapply lookup_lt_Some. }
  destruct (get_slot_ok g (refresh_slot fuel) c none i) as (v & ns & E & HI' & Hf & Hp & Hcl & Hv).
  { apply refresh_slot_ok. lia. }
  { apply Hs. }
  { done. }
  { done. }
  { apply idle_guarded. exact (st_guards _ _ Hs). }
  { done. }
  exists v, ns. split_and!; [exact E| |].
  - destruct (inv_slot _ _ _ _ i HI' Hi) as [s Hsi]. rewrite <- (clean_value _ _ _ _ HI' Hsi (Hcl _ Hsi)).
    unfold cval in Hv. by rewrite Hsi in Hv.
  - eapply settled_nodes; [done|done|done|]. intros k s' Hk.
    destruct (inv_slot _ _ _ _ k HI) as [s0 Hs0].
    { unfold is_computed. by rewrite (inv_compute _ _ _ _ _ _ HI' Hk). }
    destruct (Hp _ _ Hs0) as (s1 & Hs1 & Hpr). rewrite Hk in Hs1. injection Hs1 as <-.
    rewrite Hpr. by eapply st_guards.
Qed.

Lemma create_settled g c n m :
  settled_ctx g c → node_matches (Some n) (Some m) →
  (∀ p, n = SComputed p → reads_ok g (length g) p) →
  match m with
  | NSlot s => s_value s = None ∧ s_dependencies s = [] ∧ s_dependents s = [] ∧ s_force_recompute s = false ∧
      s_in_progress s = false
  | NCell cell => c_dependents cell = []
  | NEffect _ => False
  end →
  ∃ c', (id ← alloc_id; modify (insert_node id m);; g ← gets (λ c, node_generation c id); mret (mkHandle id g)) c =
      (Val (handle (length g)), c') ∧ settled_ctx (g ++ [n]) c'.
Proof.
  intros Hs Hm Hok Hnew. pose proof Hs as [HI [Hq1 Hq2] Hg [Hn Hfree] Hidle Hbatch].
  assert (Hlen : length (g ++ [n]) = S (length g)) by (rewrite length_app; simpl; lia).
  exists (set_ids (S (length g)) [] (set_nodes (<[length g := m]> (nodes c)) c)). split.
  - unfold mbind, M_bind, alloc_id. rewrite Hfree, Hn. unfold modify, gets, node_generation. simpl.
    by rewrite Hq1, lookup_empty.
  - split; simpl; try done.
    + apply create_inv; [done|done| |].
      * intros p Hp. eapply reads_ok_kinds; [| |by apply Hok]; intros j; by apply kinds_app.
      * destruct m as [s|cell|]; [|done..]. naive_solver.
    + intros i s. destruct (decide (i = length g)) as [->|]; [rewrite lookup_insert_eq|rewrite lookup_insert_ne by done; apply Hg].
      intros [= ->]. naive_solver.
Qed.

Lemma run_op_ok g fuel op c :
  settled_ctx g c → op_ok op g → 2 ≤ fuel → length g ≤ fuel →
  ∃ a g' c', run_op fuel op c = (Val a, c') ∧ spec_op op g = Some (a, g') ∧ settled_ctx g' c' ∧
    length g' ≤ S (length g).
Proof.
  intros Hs Hok H2 Hf. assert (Hlw : ∀ ws g0, length (foldl spec_write g0 ws) = length g0).
  { induction ws as [|w ws IH]; intros g0; simpl; [done|]. rewrite IH. apply length_insert. }
  destruct op as [v|guarded p|i v|i|i|writes]; simpl in Hok.
  - destruct (create_settled g c (SSource v) (NCell (mkCell v []))) as (c' & E & Hc'); try done.
    exists (Created (handle (length g))), (g ++ [SSource v]), c'. split_and!; [|done|done|rewrite length_app; simpl; lia].
    revert E. unfold run_op, source, make_cell_node, mbind, M_bind. destruct (alloc_id c) as [[] ?]; try done.
    unfold modify, gets, mret, M_ret. congruence.
  - assert (Hb : ∀ eq, ∃ c', slot_with_equals p eq c = (Val (handle (length g)), c') ∧ settled_ctx (g ++ [SComputed p]) c').
    { intros eq. apply (create_settled g c (SComputed p) (NSlot (mkSlot None p eq [] [] false false false false))); try done.
      by intros ? [= <-]. }
    destruct (Hb guarded) as (c' & E & Hc').
    exists (Created (handle (length g))), (g ++ [SComputed p]), c'. split_and!; [|done|done|rewrite length_app; simpl; lia].
    unfold run_op. destruct guarded; unfold computed, slot, mbind, M_bind; by rewrite E.
  - destruct (set_now_ok g fuel i v c) as (ns & E & HI & Hid); [by unfold is_batching; rewrite (proj1 (st_batch _ _ Hs))|apply Hs|exact (st_guards _ _ Hs)|done|].
    exists Done, (spec_write g (i, v)), (set_nodes ns c). split_and!; [|done| |rewrite (Hlw [(i, v)] g : length (spec_write g (i, v)) = length g); lia].
    + unfold run_op, mbind, M_bind. by rewrite E.
    + eapply settled_nodes; [done|done|apply (Hlw [(i, v)] g)|done].
  - destruct (source_cell _ _ _ _ i (st_inv _ _ Hs) Hok) as (v & d & Hc & Hg).
    exists (Value v), g, c. split_and!; [| |done|lia].
    + unfold run_op, get_source, read_cell, get_cell_node, get_node, mbind, M_bind. simpl. by rewrite Hc.
    + simpl. by rewrite (spec_get_source _ _ _ Hg).
  - destruct (get_computed_ok g fuel i c Hs Hok Hf) as (v & ns & E & Hv & Hs').
    exists (Value v), g, (set_nodes ns c). split_and!; [|simpl; by rewrite Hv|done|lia].
    unfold run_op, mbind, M_bind. by rewrite E.
  - destruct fuel as [|[|fuel]]; [lia..|]. destruct (batch_ok g fuel writes c Hs Hok) as (ns & E & HI & Hid).
    exists Done, (foldl spec_write g writes), (set_nodes ns c). split_and!; [|done| |by rewrite Hlw; lia].
    + unfold run_op, mbind, M_bind. by rewrite E.
    + eapply settled_nodes; [done|done|apply Hlw|done].
Qed.

Lemma run_ops_ok fuel ops : ∀ g c,
  settled_ctx g c → ops_ok ops g → 2 ≤ fuel → length g + length ops ≤ fuel →
  ∃ answers c', run_ops fuel ops c = (Val answers, c') ∧ spec_ops ops g = Some answers.
Proof.
  induction ops as [|op ops IH]; intros g c Hs Hok H2 Hf; [by exists [], c|].
  simpl in Hok, Hf. destruct Hok as [Hok Hrest].
  destruct (run_op_ok g fuel op c Hs Hok H2) as (a & g' & c' & E & Es & Hs' & Hl); [lia|].
  destruct (IH g' c' Hs' (Hrest _ _ Es) H2) as (l & c2 & E2 & Es2); [lia|].
  exists (a :: l), c2. split.
  - simpl. unfold mbind, M_bind. by rewrite E, E2.
  - simpl. by rewrite Es, Es2.
Qed.

(** C1: Glitch-free recomputation.  Any sequence of operations on a fresh
    context (creating sources and pure computed cells, guarded or not, writing
    sources, alone or in batches, and reading) returns, without an assertion
    failure, an exception or an exhausted loop, exactly the answers of the
    specification that keeps no cache and evaluates every formula from scratch
    over the current sources. *)
Theorem engine_refines_recomputation (ops : list graph_op) (fuel : nat) :
  ops_ok ops [] → 2 + length ops ≤ fuel →
  ∃ answers c, run_ops fuel ops empty_ctx = (Val answers, c) ∧ spec_ops ops [] = Some answers.
Proof. intros Hok Hf. apply (run_ops_ok fuel ops [] empty_ctx); [apply empty_settled|done|lia|simpl; lia]. Qed.

End pure.

(** A diamond: two readers of one source joined by a third, whose choice of
    dependencies depends on a value. *)
Module Diamond.

Definition double : prog nat nat := Get true (handle 0) (λ a, Ret (a + a)).
Definition parity : prog nat nat := Get true (handle 0) (λ a, Ret (a mod 2)).
Definition join : prog nat nat :=
  GetComputed true (handle 2) (λ p,
    if p =? 0 then GetComputed true (handle 1) (λ d, Ret (d + 100)) else Get true (handle 3) (λ z, Ret z)).

Definition ops : list (graph_op (V:=nat)) :=
  [OpSource 4; OpComputed true double; OpComputed true parity; OpSource 7; OpComputed false join;
   OpGetComputed 4; OpSet 0 5; OpGetComputed 4; OpSet 0 9; OpGetComputed 4;
   OpBatch [(0, 6); (3, 8); (0, 10)]; OpGetComputed 4; OpSet 3 1; OpGetComputed 4; OpGet 0].

Lemma ops_admissible : ops_ok ops [].
Proof.
  unfold ops. repeat (split; [try done|intros ? ? [= <- <-]]); try done.
  - by repeat constructor.
  - by repeat constructor.
  - constructor; [vm_compute; lia|done|]. intros v. destruct (v =? 0); simpl; by repeat constructor.
  - intros w Hw. repeat (apply elem_of_cons in Hw as [->|Hw]; [done|]). by apply elem_of_nil in Hw.
Qed.

Lemma engine_refines_recomputation_witness :
  spec_ops ops [] = Some [Created (handle 0); Created (handle 1); Created (handle 2); Created (handle 3);
    Created (handle 4); Value 108; Done; Value 7; Done; Value 7; Done; Value 120; Done; Value 120; Value 10] ∧
  ∃ answers c, run_ops 20 ops empty_ctx = (Val answers, c) ∧ spec_ops ops [] = Some answers.
Proof. split; [reflexivity|apply (engine_refines_recomputation ops 20); [exact ops_admissible|vm_compute; lia]]. Defined.

End Diamond.
