(* ===== verification/KernelSafety.v ===== *)
(** * KernelSafety: well-formedness of the graph under arbitrary closures

    Closures here are arbitrary: they may create and dispose nodes, write cells,
    open batches, throw, and read nodes that no longer exist.  Whatever they do,
    and however an operation ends, the arena and the edges stay well formed, and
    an id changes occupant only together with its generation. *)
From S2P Require Import Prelude Kernel KernelWalk KernelCorrect.

Section safety.
  Context {V : Type} `{EqDecision V}.
  Implicit Types (c : Ctx V) (ns : gmap SlotId (Node V)) (i j k id : SlotId).

Inductive kind := KSlot | KCell | KEffect.
Definition kind_of (n : Node V) : kind :=
  match n with NSlot _ => KSlot | NCell _ => KCell | NEffect _ => KEffect end.
Definition node_deps (n : Node V) : list SlotId :=
  match n with NSlot s => s_dependencies s | NCell _ => [] | NEffect e => e_dependencies e end.
Definition node_dpts (n : Node V) : list SlotId :=
  match n with NSlot s => s_dependents s | NCell cell => c_dependents cell | NEffect _ => [] end.
Definition all_deps ns i : list SlotId := match ns !! i with Some n => node_deps n | None => [] end.
Definition all_dpts ns i : list SlotId := match ns !! i with Some n => node_dpts n | None => [] end.

(** Reverse edges have their forward half, except the pairs that [D] excuses
    while a node is being unlinked; edge lists have no duplicates; the ids in
    use, the free ids and the ids never handed out are apart. *)
Record wfx (D : SlotId → SlotId → Prop) c : Prop := {
  wf_rev : ∀ i j, i ∈ all_dpts (nodes c) j → j ∈ all_deps (nodes c) i ∨ D i j;
  wf_nodup : ∀ i, NoDup (all_deps (nodes c) i) ∧ NoDup (all_dpts (nodes c) i);
  wf_ids : ∀ id n, nodes c !! id = Some n → id < next_id c ∧ id ∉ free_ids c;
  wf_free : NoDup (free_ids c) ∧ ∀ id, id ∈ free_ids c → id < next_id c;
}.

Definition no_excuse (i j : SlotId) : Prop := False.
Definition graph_wf c : Prop := wfx no_excuse c.

(** Generations only grow, and an id keeps its kind of occupant while its
    generation stays. *)
Definition evolves c c' : Prop := ∀ id,
  node_generation c id ≤ node_generation c' id ∧
  (node_generation c' id = node_generation c id →
   ∀ n, nodes c !! id = Some n → ∃ n', nodes c' !! id = Some n' ∧ kind_of n' = kind_of n).

Lemma evolves_refl c : evolves c c.
Proof. intros id. eauto. Qed.

Lemma evolves_trans c1 c2 c3 : evolves c1 c2 → evolves c2 c3 → evolves c1 c3.
Proof.
  intros H1 H2 id. destruct (H1 id) as [G1 K1], (H2 id) as [G2 K2]. split; [lia|].
  intros Hg n Hn. destruct (K1 ltac:(lia) n Hn) as (n1 & Hn1 & E1).
  destruct (K2 ltac:(lia) n1 Hn1) as (n2 & Hn2 & E2). exists n2. split; [done|congruence].
Qed.

(** ** Changes that leave the shape of the graph alone *)

Definition shape (n : Node V) : kind * list SlotId * list SlotId := (kind_of n, node_deps n, node_dpts n).
Definition same_shape c c' : Prop :=
  (∀ k, shape <$> nodes c' !! k = shape <$> nodes c !! k) ∧
  next_id c' = next_id c ∧ free_ids c' = free_ids c ∧ generations c' = generations c.

Lemma same_shape_refl c : same_shape c c.
Proof. done. Qed.

Lemma same_shape_trans c1 c2 c3 : same_shape c1 c2 → same_shape c2 c3 → same_shape c1 c3.
Proof. intros (S1 & ? & ? & ?) (S2 & ? & ? & ?). split_and!; [|congruence..]. intros k. by rewrite S2. Qed.

Lemma shape_deps ns ns' k : shape <$> ns' !! k = shape <$> ns !! k → all_deps ns' k = all_deps ns k ∧ all_dpts ns' k = all_dpts ns k.
Proof. unfold all_deps, all_dpts. destruct (ns !! k), (ns' !! k); simpl; intros; by simplify_eq/=. Qed.

Lemma same_shape_wf D c c' : same_shape c c' → wfx D c → wfx D c' ∧ evolves c c'.
Proof.
  intros (Hs & Hn & Hf & Hg) []. split; [split|].
  - intros i j. rewrite (proj2 (shape_deps _ _ j (Hs j))), (proj1 (shape_deps _ _ i (Hs i))). apply wf_rev0.
  - intros i. destruct (shape_deps _ _ i (Hs i)) as [-> ->]. apply wf_nodup0.
  - intros id n Hid. rewrite Hn, Hf. specialize (Hs id). rewrite Hid in Hs.
    destruct (nodes c !! id) eqn:E; [|done]. eauto.
  - by rewrite Hn, Hf.
  - intros id. unfold node_generation. rewrite Hg. split; [done|]. intros _ n Hid. specialize (Hs id).
    rewrite Hid in Hs. destruct (nodes c' !! id) as [n'|]; [|done]. exists n'.
    unfold shape in Hs. simpl in Hs. split; [done|]. congruence.
Qed.

Lemma same_shape_set_node k n n' c :
  nodes c !! k = Some n → shape n' = shape n → same_shape c (set_node k n' c).
Proof.
  intros Hk Hs. split_and!; [|done..]. intros j. simpl.
  destruct (decide (j = k)) as [->|]; [by rewrite lookup_insert_eq, Hk; simpl; rewrite Hs|by rewrite lookup_insert_ne].
Qed.

Lemma same_shape_upd_slot f k c : (∀ s, shape (NSlot (f s)) = shape (NSlot s)) → same_shape c (upd_slot f k c).
Proof.
  intros Hf. unfold upd_slot, get_slot_node, get_node. destruct (nodes c !! k) as [[s| |]|] eqn:E; try done.
  by eapply same_shape_set_node.
Qed.

Lemma mark_loop_shape fuel : ∀ ns st eff eff' ns',
  mark_loop fuel ns st eff = Some (eff', ns') → ∀ k, shape <$> ns' !! k = shape <$> ns !! k.
Proof.
  induction fuel as [|fuel IH]; intros ns [|[id force] st] eff eff' ns' Hl k; simpl in Hl; simplify_eq; try done.
  destruct (mark_step ns id force st eff) as [[ns1 st1] eff1] eqn:E. rewrite (IH _ _ _ _ _ Hl).
  unfold mark_step in E. destruct (ns !! id) as [[s| |]|] eqn:Hid; simplify_eq; try done.
  destruct (decide (k = id)) as [->|]; [by rewrite lookup_insert_eq, Hid|by rewrite lookup_insert_ne].
Qed.

Lemma clear_loop_shape fuel : ∀ ns st eff eff' ns',
  clear_loop fuel ns st eff = Some (eff', ns') → ∀ k, shape <$> ns' !! k = shape <$> ns !! k.
Proof.
  induction fuel as [|fuel IH]; intros ns [|id st] eff eff' ns' Hl k; simpl in Hl; simplify_eq; try done.
  destruct (clear_step ns id st eff) as [[ns1 st1] eff1] eqn:E. rewrite (IH _ _ _ _ _ Hl).
  unfold clear_step in E. destruct (ns !! id) as [[s| |]|] eqn:Hid; simplify_eq; try done.
  destruct (bool_decide _ && _); simplify_eq; [done|].
  destruct (decide (k = id)) as [->|]; [by rewrite lookup_insert_eq, Hid|by rewrite lookup_insert_ne].
Qed.

Lemma schedule_effect_shape id force c : same_shape c (schedule_effect id force c).
Proof.
  unfold schedule_effect, get_effect_node, get_node.
  destruct (nodes c !! id) as [[| |e]|] eqn:E; [apply same_shape_refl..| |apply same_shape_refl].
  assert (Hforce : same_shape c (if force then
    set_node id (NEffect (mkEffect (e_run e) (e_dependencies e) (e_cleanup e) true)) c else c)).
  { destruct force; [by eapply same_shape_set_node|apply same_shape_refl]. }
  case_decide; [done|]. eapply same_shape_trans; [exact Hforce|]. done.
Qed.

Lemma schedule_all_shape l c : same_shape c (schedule_all l c).
Proof.
  unfold schedule_all. revert c. induction l as [|e l IH]; intros c; simpl; [apply same_shape_refl|].
  eapply same_shape_trans; [apply schedule_effect_shape|apply IH].
Qed.

Lemma remove_pending_shape id c : same_shape c (remove_pending_effect id c).
Proof. unfold remove_pending_effect. by case_decide. Qed.

(** ** Safe computations *)

(** A node that a running closure names is alive while its generation lasts. *)
Definition alive (node : SlotId) (gen : nat) c : Prop :=
  gen ≤ node_generation c node ∧
  (node_generation c node = gen → ∃ n, nodes c !! node = Some n ∧ kind_of n ≠ KCell).

Lemma alive_evolves node gen c c' : evolves c c' → alive node gen c → alive node gen c'.
Proof.
  intros He [Hle Hn]. destruct (He node) as [Hg Hk]. split; [lia|]. intros Hg'.
  destruct (Hn ltac:(lia)) as (n & Hnn & Hc). destruct (Hk ltac:(lia) n Hnn) as (n' & Hn' & E).
  exists n'. split; [done|congruence].
Qed.

(** [L] is what the continuation may use; it must survive evolution. *)
Definition safe {A} (L : Ctx V → Prop) (m : M V A) : Prop :=
  ∀ c, graph_wf c → L c → graph_wf (m c).2 ∧ evolves c (m c).2.
Definition stable (L : Ctx V → Prop) : Prop := ∀ c c', evolves c c' → L c → L c'.
Definition anything (c : Ctx V) : Prop := True.

Lemma safe_weaken {A} (L : Ctx V → Prop) (m : M V A) : safe anything m → safe L m.
Proof. intros Hm c Hc _. by apply Hm. Qed.

Lemma safe_bind {A B} (L : Ctx V → Prop) (m : M V A) (f : A → M V B) :
  stable L → safe L m → (∀ a, safe L (f a)) → safe L (m ≫= f).
Proof.
  intros HL Hm Hf c Hc HLc. destruct (Hm c Hc HLc) as [Hc1 He1].
  unfold mbind, M_bind. destruct (m c) as [[a|e| |] c1]; simpl in *; [|done..].
  destruct (Hf a c1 Hc1) as [Hc2 He2]; [by eapply HL|]. split; [done|by eapply evolves_trans].
Qed.

Lemma safe_same {A} L (m : M V A) : (∀ c, same_shape c (m c).2) → safe L m.
Proof. intros Hm c Hc _. by apply same_shape_wf. Qed.

Lemma stable_anything : stable anything.
Proof. done. Qed.

Lemma alive_stable node gen : stable (alive node gen).
Proof. intros c c'. apply alive_evolves. Qed.

Lemma safe_ret {A} L (a : A) : safe L (mret a : M V A).
Proof. apply safe_same. intros c. apply same_shape_refl. Qed.

Lemma safe_gets {A} L (f : Ctx V → A) : safe L (gets f).
Proof. apply safe_same. intros c. apply same_shape_refl. Qed.

Lemma safe_modify L f : (∀ c, same_shape c (f c)) → safe L (modify f : M V unit).
Proof. intros Hf. by apply safe_same. Qed.

Lemma safe_if {A} L (b : bool) (m1 m2 : M V A) : safe L m1 → safe L m2 → safe L (if b then m1 else m2).
Proof. by destruct b. Qed.

(** ** Edge updates *)

Lemma all_deps_alter_deps f i ns k :
  all_deps (alter (map_deps f) i ns) k =
    if decide (k = i) then match ns !! k with Some (NSlot _) | Some (NEffect _) => f (all_deps ns k) | _ => [] end
    else all_deps ns k.
Proof.
  unfold all_deps. case_decide as Hk; [subst; rewrite lookup_alter_eq; by destruct (ns !! i) as [[]|]|].
  by rewrite lookup_alter_ne.
Qed.

Lemma all_dpts_alter_deps f i ns k : all_dpts (alter (map_deps f) i ns) k = all_dpts ns k.
Proof.
  unfold all_dpts. destruct (decide (k = i)) as [->|]; [|by rewrite lookup_alter_ne].
  rewrite lookup_alter_eq. by destruct (ns !! i) as [[]|].
Qed.

Lemma all_dpts_alter_dpts f i ns k :
  all_dpts (alter (map_dpts f) i ns) k =
    if decide (k = i) then match ns !! k with Some (NSlot _) | Some (NCell _) => f (all_dpts ns k) | _ => [] end
    else all_dpts ns k.
Proof.
  unfold all_dpts. case_decide as Hk; [subst; rewrite lookup_alter_eq; by destruct (ns !! i) as [[]|]|].
  by rewrite lookup_alter_ne.
Qed.

Lemma all_deps_alter_dpts f i ns k : all_deps (alter (map_dpts f) i ns) k = all_deps ns k.
Proof.
  unfold all_deps. destruct (decide (k = i)) as [->|]; [|by rewrite lookup_alter_ne].
  rewrite lookup_alter_eq. by destruct (ns !! i) as [[]|].
Qed.

(** The arena has the same occupants. *)
Definition same_occupants c c' : Prop :=
  (∀ k, kind_of <$> nodes c' !! k = kind_of <$> nodes c !! k) ∧
  next_id c' = next_id c ∧ free_ids c' = free_ids c ∧ generations c' = generations c.

Lemma same_occupants_trans c1 c2 c3 : same_occupants c1 c2 → same_occupants c2 c3 → same_occupants c1 c3.
Proof. intros (S1 & ? & ? & ?) (S2 & ? & ? & ?). split_and!; [|congruence..]. intros k. by rewrite S2. Qed.

Lemma same_occupants_evolves c c' : same_occupants c c' → evolves c c'.
Proof.
  intros (Hs & _ & _ & Hg) id. unfold node_generation. rewrite Hg. split; [done|]. intros _ n Hn.
  specialize (Hs id). rewrite Hn in Hs. destruct (nodes c' !! id) as [n'|]; simplify_eq/=. eauto.
Qed.

Lemma same_shape_occupants c c' : same_shape c c' → same_occupants c c'.
Proof.
  intros (Hs & ? & ? & ?). split_and!; [|done..]. intros k. specialize (Hs k).
  destruct (nodes c !! k), (nodes c' !! k); simplify_eq/=; try done. unfold shape in Hs. simpl. congruence.
Qed.

Lemma occupants_alter f i c :
  (∀ n, kind_of (f n) = kind_of n) → same_occupants c (set_nodes (alter f i (nodes c)) c).
Proof.
  intros Hf. split_and!; [|done..]. intros k. simpl. destruct (decide (k = i)) as [->|].
  - rewrite lookup_alter_eq. destruct (nodes c !! i); simpl; [by rewrite Hf|done].
  - by rewrite lookup_alter_ne.
Qed.

(** Rebuilding the invariant when the occupants stay and the edges change. *)
Lemma wfx_edges D D' c c' :
  wfx D c → same_occupants c c' →
  (∀ i j, i ∈ all_dpts (nodes c') j → j ∈ all_deps (nodes c') i ∨ D' i j) →
  (∀ i, NoDup (all_deps (nodes c') i) ∧ NoDup (all_dpts (nodes c') i)) →
  wfx D' c'.
Proof.
  intros [] (Hk & Hn & Hf & _) Hrev Hnd. split; [done|done| |by rewrite Hn, Hf].
  intros id n Hid. rewrite Hn, Hf. specialize (Hk id). rewrite Hid in Hk.
  destruct (nodes c !! id) eqn:E; [|done]. eauto.
Qed.

Lemma register_safe dep node c :
  graph_wf c → (∃ n, nodes c !! node = Some n ∧ kind_of n ≠ KCell) →
  graph_wf (register_dependency dep node c) ∧ same_occupants c (register_dependency dep node c).
Proof.
  intros Hwf (n & Hn & Hk). destruct (decide (dep = node)) as [->|Hne].
  { unfold register_dependency. rewrite Nat.eqb_refl. split; [done|]. done. }
  rewrite register_dependency_eq by done.
  assert (Hocc : same_occupants c (set_nodes (linked dep node (nodes c)) c)).
  { eapply same_occupants_trans; [apply (occupants_alter (map_dpts (edge_insert node)) dep); by intros []|].
    apply (occupants_alter (map_deps (edge_insert dep)) node (set_nodes _ c)). by intros []. }
  split; [|done]. pose proof Hwf as [Hrev Hnd _ _].
  assert (Hdeps : ∀ k, all_deps (linked dep node (nodes c)) k =
    if decide (k = node) then edge_insert dep (all_deps (nodes c) k) else all_deps (nodes c) k).
  { intros k. unfold linked. rewrite all_deps_alter_deps, all_deps_alter_dpts. case_decide; [|done]. subst.
    rewrite lookup_alter_ne, Hn by done. by destruct n. }
  assert (Hdpts : ∀ k x, x ∈ all_dpts (linked dep node (nodes c)) k → x ∈ all_dpts (nodes c) k ∨ (x = node ∧ k = dep)).
  { intros k x. unfold linked. rewrite all_dpts_alter_deps, all_dpts_alter_dpts. case_decide; [|by left]. subst.
    destruct (nodes c !! dep) as [[]|]; intros Hx; try (by apply elem_of_nil in Hx);
      apply elem_of_vec_insert in Hx as [?|?]; auto. }
  eapply wfx_edges; [exact Hwf|exact Hocc| |]; simpl.
  - intros i j Hi. left. rewrite Hdeps. destruct (Hdpts _ _ Hi) as [Hi'|[-> ->]].
    + destruct (Hrev _ _ Hi') as [Hj|[]]. case_decide; [|done]. apply elem_of_vec_insert. by left.
    + rewrite decide_True by done. apply elem_of_vec_insert. by right.
  - intros i. rewrite Hdeps. specialize (Hnd i) as [? ?]. split; [case_decide; [by apply vec_insert_NoDup|done]|].
    unfold linked. rewrite all_dpts_alter_deps, all_dpts_alter_dpts.
    case_decide; [|done]. destruct (nodes c !! i) as [[]|]; try apply NoDup_nil_2; by apply vec_insert_NoDup.
Qed.

(** Dropping reverse edges one by one discharges the excuses. *)
Lemma detach_upstream_safe D l i : ∀ c,
  wfx (λ a b, D a b ∨ (a = i ∧ b ∈ l)) c →
  wfx D (detach_upstream l i c) ∧ same_occupants c (detach_upstream l i c) ∧
  (∀ k, all_deps (nodes (detach_upstream l i c)) k = all_deps (nodes c) k) ∧
  (∀ k, all_dpts (nodes c) k = [] → all_dpts (nodes (detach_upstream l i c)) k = []).
Proof.
  unfold detach_upstream. induction l as [|d l IH]; intros c Hwf; simpl.
  { split_and!; try done. destruct Hwf. split; try done. intros a b Hab. destruct (wf_rev0 _ _ Hab) as [?|[?|[_ Hb]]]; auto.
    by apply elem_of_nil in Hb. }
  unfold remove_dependent_edge at 2 4 6 8. rewrite upd_dependents_eq.
  set (c1 := set_nodes (alter (map_dpts (edge_remove i)) d (nodes c)) c).
  assert (Hocc : same_occupants c c1) by (apply occupants_alter; by intros []).
  assert (Hdeps : ∀ k, all_deps (nodes c1) k = all_deps (nodes c) k) by (intros; apply all_deps_alter_dpts).
  assert (Hnil : ∀ k, all_dpts (nodes c) k = [] → all_dpts (nodes c1) k = []).
  { intros k Hk. unfold c1. simpl. rewrite all_dpts_alter_dpts, Hk. case_decide; [|done]. by destruct (nodes c !! k) as [[]|]. }
  destruct (IH c1) as (Hwf2 & Hocc2 & Hd2 & Hn2).
  - pose proof Hwf as [Hrev Hnd _ _]. eapply wfx_edges; [exact Hwf|done| |].
    + intros a b. rewrite Hdeps. unfold c1. simpl. rewrite all_dpts_alter_dpts. case_decide as Hb; intros Ha.
      * subst b. assert (Ha' : a ∈ all_dpts (nodes c) d ∧ a ≠ i).
        { destruct (nodes c !! d) as [[]|]; try (by apply elem_of_nil in Ha);
            by apply elem_of_vec_remove in Ha; [|apply Hnd]. }
        destruct Ha' as [Ha' Hai]. destruct (Hrev _ _ Ha') as [?|[?|[? _]]]; auto. done.
      * destruct (Hrev _ _ Ha) as [?|[?|[-> Hin]]]; auto. right. right. split; [done|].
        apply elem_of_cons in Hin as [->|?]; done.
    + intros k. rewrite Hdeps. split; [apply Hnd|]. unfold c1. simpl. rewrite all_dpts_alter_dpts.
      case_decide; [|apply Hnd]. destruct (nodes c !! k) as [[]|]; try apply NoDup_nil_2; apply vec_remove_NoDup, Hnd.
  - split_and!; [done|by eapply same_occupants_trans| |auto]. intros k. by rewrite Hd2.
Qed.

(** Dropping forward edges to a node without reverse edges. *)
Lemma detach_downstream_safe D l i : ∀ c,
  wfx D c → all_dpts (nodes c) i = [] →
  wfx D (detach_downstream l i c) ∧ same_occupants c (detach_downstream l i c) ∧
  (∀ k, all_dpts (nodes (detach_downstream l i c)) k = all_dpts (nodes c) k) ∧
  (∀ k, all_deps (nodes c) k = [] → all_deps (nodes (detach_downstream l i c)) k = []).
Proof.
  unfold detach_downstream. induction l as [|d l IH]; intros c Hwf Hi; simpl; [done|].
  unfold remove_dependency_edge at 2 4 6 8. rewrite upd_dependencies_eq.
  set (c1 := set_nodes (alter (map_deps (edge_remove i)) d (nodes c)) c).
  assert (Hocc : same_occupants c c1) by (apply occupants_alter; by intros []).
  assert (Hdpts : ∀ k, all_dpts (nodes c1) k = all_dpts (nodes c) k) by (intros; apply all_dpts_alter_deps).
  assert (Hnil : ∀ k, all_deps (nodes c) k = [] → all_deps (nodes c1) k = []).
  { intros k Hk. unfold c1. simpl. rewrite all_deps_alter_deps, Hk. case_decide; [|done]. by destruct (nodes c !! k) as [[]|]. }
  destruct (IH c1) as (Hwf2 & Hocc2 & Hd2 & Hn2); [|by rewrite Hdpts|].
  - pose proof Hwf as [Hrev Hnd _ _]. eapply wfx_edges; [exact Hwf|done| |].
    + intros a b. rewrite Hdpts. intros Ha. assert (Hbi : b ≠ i).
      { intros ->. rewrite Hi in Ha. by apply elem_of_nil in Ha. }
      destruct (Hrev _ _ Ha) as [Hb|?]; [left|by right]. unfold c1. simpl. rewrite all_deps_alter_deps.
      case_decide; [|done]. subst. unfold all_deps in *.
      destruct (nodes c !! d) as [[]|] eqn:E; try done; apply elem_of_vec_remove; auto;
        specialize (Hnd d) as [Hnd _]; unfold all_deps in Hnd; by rewrite E in Hnd.
    + intros k. rewrite Hdpts. split; [|apply Hnd]. unfold c1. simpl. rewrite all_deps_alter_deps.
      case_decide; [|apply Hnd]. destruct (nodes c !! k) as [[]|]; try apply NoDup_nil_2; apply vec_remove_NoDup, Hnd.
  - split_and!; [done|by eapply same_occupants_trans| |auto]. intros k. by rewrite Hd2.
Qed.

(** ** Freeing and allocating ids *)

Lemma generation_release id j c :
  node_generation (release_id id c) j = if decide (j = id) then S (node_generation c id) else node_generation c j.
Proof.
  unfold release_id, node_generation, bump_generation. simpl. case_decide; subst;
    [by rewrite lookup_insert_eq|by rewrite lookup_insert_ne].
Qed.

Lemma release_safe D id n c :
  wfx D c → nodes c !! id = Some n →
  wfx (λ a b, D a b ∨ (a = id ∧ b ∈ node_deps n)) (release_id id c) ∧ evolves c (release_id id c) ∧
  (∀ k, k ≠ id → nodes (release_id id c) !! k = nodes c !! k).
Proof.
  intros [Hrev Hnd Hids Hfree] Hid. destruct (Hids _ _ Hid) as [Hlt Hnf].
  assert (Hk : ∀ k, k ≠ id → nodes (release_id id c) !! k = nodes c !! k).
  { intros k Hk. simpl. by rewrite lookup_delete_ne. }
  split_and!; [split| |done].
  - intros a b Ha. unfold all_dpts in Ha. destruct (decide (b = id)) as [->|Hb].
    { simpl in Ha. rewrite lookup_delete_eq in Ha. by apply elem_of_nil in Ha. }
    rewrite Hk in Ha by done. destruct (Hrev a b Ha) as [Hd|?]; [|by auto].
    destruct (decide (a = id)) as [->|Hne].
    + right. right. split; [done|]. unfold all_deps in Hd. by rewrite Hid in Hd.
    + left. unfold all_deps. by rewrite Hk.
  - intros k. unfold all_deps, all_dpts. destruct (decide (k = id)) as [->|Hne]; [|rewrite Hk by done; apply Hnd].
    simpl. rewrite lookup_delete_eq. split; apply NoDup_nil_2.
  - intros k n'. simpl. destruct (decide (k = id)) as [->|Hne]; [by rewrite lookup_delete_eq|].
    rewrite lookup_delete_ne by done. intros Hn. destruct (Hids _ _ Hn). split; [done|].
    by rewrite not_elem_of_cons.
  - simpl. destruct Hfree as [Hf1 Hf2]. split; [by apply NoDup_cons|].
    intros k [->|?]%elem_of_cons; auto.
  - intros k. rewrite generation_release. case_decide; subst; [split; [lia|]; intros; lia|].
    split; [done|]. intros _ n' Hn'. exists n'. by rewrite Hk.
Qed.

(** A fresh node has no edges and an id nobody uses. *)
Lemma alloc_insert_safe n c :
  graph_wf c → node_deps n = [] → node_dpts n = [] →
  ∃ id c', alloc_id c = (Val id, c') ∧ graph_wf (insert_node id n c') ∧ evolves c (insert_node id n c') ∧
    nodes c !! id = None.
Proof.
  intros [Hrev Hnd Hids [Hf1 Hf2]] Hdeps Hdpts.
  assert (Hmk : ∀ id next free, nodes c !! id = None → next_id c ≤ next → id < next → id ∉ free →
    NoDup free → (∀ k, k ∈ free → k ∈ free_ids c) →
    graph_wf (insert_node id n (set_ids next free c)) ∧ evolves c (insert_node id n (set_ids next free c))).
  { intros id next free Hid Hnext Hlt Hni Hndf Hsub. split; [split|]; simpl.
    - intros a b Ha. unfold all_dpts, all_deps in *. simpl in *. destruct (decide (b = id)) as [->|Hb].
      { rewrite lookup_insert_eq, Hdpts in Ha. by apply elem_of_nil in Ha. }
      rewrite lookup_insert_ne in Ha by done. destruct (Hrev _ _ Ha) as [Hd|[]]. left.
      destruct (decide (a = id)) as [->|Hne]; [by unfold all_deps in Hd; rewrite Hid in Hd; apply elem_of_nil in Hd|].
      by rewrite lookup_insert_ne.
    - intros k. unfold all_dpts, all_deps. destruct (decide (k = id)) as [->|Hne].
      + rewrite lookup_insert_eq, Hdeps, Hdpts. split; apply NoDup_nil_2.
      + rewrite lookup_insert_ne by done. apply Hnd.
    - intros k n'. destruct (decide (k = id)) as [->|Hne]; [done|].
      rewrite lookup_insert_ne by done. intros Hn. destruct (Hids _ _ Hn). split; [lia|naive_solver].
    - split; [done|]. intros k Hk. apply Hsub, Hf2 in Hk. lia.
    - intros k. split; [done|]. intros _ n' Hn'. exists n'. split; [|done].
      simpl. rewrite lookup_insert_ne; [done|]. intros ->. congruence. }
  unfold alloc_id. destruct (free_ids c) as [|id free] eqn:E.
  - assert (Hnone : nodes c !! next_id c = None).
    { destruct (nodes c !! next_id c) eqn:En; [|done]. destruct (Hids _ _ En). lia. }
    exists (next_id c), (set_ids (S (next_id c)) [] c).
    destruct (Hmk (next_id c) (S (next_id c)) []) as [? ?];
      [done|lia|lia|apply not_elem_of_nil|apply NoDup_nil_2|done|]. by split_and!.
  - assert (Hnone : nodes c !! id = None).
    { destruct (nodes c !! id) eqn:En; [|done]. destruct (Hids _ _ En) as [_ Hn]. exfalso. apply Hn. left. }
    apply NoDup_cons in Hf1 as [Hni Hndf].
    exists id, (set_ids (next_id c) free c).
    destruct (Hmk id (next_id c) free) as [? ?]; [done|lia|apply Hf2; left|done|done|intros k Hk; by right|].
    by split_and!.
Qed.

(** ** Disposal *)

Lemma run_cleanup_shape o c : same_shape c (run_cleanup o c).
Proof. by destruct o. Qed.

(** A node stripped of its edges, which only its own release will touch. *)
Definition stripped i c : Prop :=
  ∃ n, nodes c !! i = Some n ∧ node_deps n = [] ∧ node_dpts n = [] ∧ kind_of n ≠ KEffect.

Lemma stripped_nil i c : stripped i c → all_deps (nodes c) i = [] ∧ all_dpts (nodes c) i = [].
Proof. intros (n & Hn & ? & ? & _). unfold all_deps, all_dpts. by rewrite Hn. Qed.

Lemma stripped_same i c c' : same_occupants c c' →
  all_deps (nodes c') i = [] → all_dpts (nodes c') i = [] → stripped i c → stripped i c'.
Proof.
  intros (Hk & _) Hd Hp (n & Hn & _ & _ & Hne). specialize (Hk i). rewrite Hn in Hk.
  unfold all_deps, all_dpts in *. destruct (nodes c' !! i) as [n'|] eqn:En; [|done].
  exists n'. injection Hk as Hk. split_and!; congruence.
Qed.

Lemma stripped_shape i c c' : same_shape c c' → stripped i c → stripped i c'.
Proof.
  intros Hs Hst. destruct (shape_deps _ _ i (proj1 Hs i)) as [Hd Hp]. destruct (stripped_nil _ _ Hst).
  eapply stripped_same; [by apply same_shape_occupants|congruence..|done].
Qed.

Lemma dispose_effect_safe D h c :
  wfx D c →
  wfx D (dispose_effect h c).2 ∧ evolves c (dispose_effect h c).2 ∧
  (∀ i, stripped i c → stripped i (dispose_effect h c).2) ∧ is_Some (match (dispose_effect h c).1 with Val _ => Some tt | _ => None end).
Proof.
  intros Hwf. unfold dispose_effect, get_node.
  destruct (nodes c !! h_id h) as [n|] eqn:E; [|by eauto using evolves_refl].
  destruct (negb _); [by eauto using evolves_refl|]. destruct n as [| |e]; [by eauto using evolves_refl..|].
  set (c1 := remove_pending_effect (h_id h) c).
  assert (Hs1 : same_shape c c1) by apply remove_pending_shape.
  destruct (same_shape_wf D _ _ Hs1 Hwf) as [Hwf1 He1].
  assert (E1 : nodes c1 !! h_id h = Some (NEffect e)) by (unfold c1, remove_pending_effect; by case_decide).
  destruct (release_safe D _ _ _ Hwf1 E1) as (Hwf2 & He2 & Hk2).
  destruct (detach_upstream_safe D (e_dependencies e) (h_id h) _ Hwf2) as (Hwf3 & Ho3 & Hd3 & Hn3).
  set (c3 := detach_upstream _ _ _) in *. simpl.
  destruct (same_shape_wf D _ _ (run_cleanup_shape (e_cleanup e) c3) Hwf3) as [Hwf4 He4].
  split_and!; [done| | |by eauto].
  - eapply evolves_trans; [exact He1|]. eapply evolves_trans; [exact He2|].
    eapply evolves_trans; [by apply same_occupants_evolves|done].
  - intros i Hi. apply (stripped_shape i c3); [apply run_cleanup_shape|].
    apply (stripped_shape _ _ _ Hs1) in Hi.
    assert (Hne : i ≠ h_id h). { intros ->. destruct Hi as (n & Hn & _ & _ & Hk). rewrite E1 in Hn. by injection Hn as <-. }
    assert (Hi2 : stripped i (release_id (h_id h) c1)).
    { destruct Hi as (n & Hn & Hrest). exists n. by rewrite Hk2. }
    destruct (stripped_nil _ _ Hi2). eapply stripped_same; [exact Ho3|by rewrite Hd3|by apply Hn3|done].
Qed.

(** The tail of every disposal: detach downstream, dirty the survivors, free the id. *)
Lemma dispose_tail_safe l i c :
  graph_wf c → stripped i c →
  ∃ c', (modify (detach_downstream l i);; invalidate_disposed_dependents l;; modify (release_id i)) c = (Val tt, c') ∧
    graph_wf c' ∧ evolves c c' ∧ nodes c' !! i = None ∧ node_generation c' i = S (node_generation c i).
Proof.
  intros Hwf Hst. destruct (stripped_nil _ _ Hst) as [Hd Hp].
  destruct (detach_downstream_safe _ l i c Hwf Hp) as (Hwf1 & Ho1 & Hp1 & Hd1).
  set (c1 := detach_downstream l i c) in *.
  assert (Hst1 : stripped i c1).
  { eapply stripped_same; [exact Ho1|by apply Hd1|by rewrite Hp1|done]. }
  assert (Hmark : ∃ c2, invalidate_disposed_dependents l c1 = (Val tt, c2) ∧ same_shape c1 c2).
  { unfold invalidate_disposed_dependents. destruct l as [|d l]; [exists c1; done|].
    unfold mark_frontier_locked, mbind, M_bind. destruct (mark_loop_fuel (nodes c1) (d :: l) []) as [[eff ns] Em].
    rewrite Em. exists (set_nodes ns c1). split; [done|]. split_and!; [|done..]. simpl. by eapply mark_loop_shape. }
  destruct Hmark as (c2 & Em & Hs2).
  destruct (same_shape_wf _ _ _ Hs2 Hwf1) as [Hwf2 He2]. apply (stripped_shape _ _ _ Hs2) in Hst1 as Hst2.
  destruct Hst2 as (n & Hn & Hnd & _).
  destruct (release_safe _ _ _ _ Hwf2 Hn) as (Hwf3 & He3 & _).
  exists (release_id i c2). split_and!.
  - unfold mbind, M_bind, modify. fold c1. by rewrite Em.
  - destruct Hwf3 as [Hrev ? ? ?]. split; try done. intros a b Ha. destruct (Hrev a b Ha) as [?|[[]|[_ Hb]]]; [by left|].
    rewrite Hnd in Hb. by apply elem_of_nil in Hb.
  - eapply evolves_trans; [by apply same_occupants_evolves|]. by eapply evolves_trans.
  - simpl. apply lookup_delete_eq.
  - rewrite generation_release, decide_True by done. f_equal. unfold node_generation.
    rewrite (proj2 (proj2 (proj2 Hs2))), (proj2 (proj2 (proj2 Ho1))). done.
Qed.

(** Emptying the edge lists of a slot before it is disposed. *)
Lemma strip_slot_safe id s c :
  graph_wf c → nodes c !! id = Some (NSlot s) →
  let c1 := upd_slot (λ s, slot_set_eager false (slot_set_dependents [] (slot_set_dependencies [] s))) id c in
  wfx (λ a b, no_excuse a b ∨ (a = id ∧ b ∈ s_dependencies s)) c1 ∧ same_occupants c c1 ∧ stripped id c1.
Proof.
  intros Hwf Hid. cbv zeta. rewrite upd_slot_eq, (alter_Some _ _ _ _ Hid). simpl.
  set (c1 := set_nodes _ c).
  assert (Hid1 : nodes c1 !! id = Some (NSlot (slot_set_eager false (slot_set_dependents [] (slot_set_dependencies [] s))))).
  { unfold c1. simpl. by rewrite lookup_insert_eq. }
  assert (Hk : ∀ k, k ≠ id → nodes c1 !! k = nodes c !! k).
  { intros k Hk. unfold c1. simpl. by rewrite lookup_insert_ne. }
  assert (Hocc : same_occupants c c1).
  { split_and!; [|done..]. intros k. destruct (decide (k = id)) as [->|]; [by rewrite Hid1, Hid|by rewrite Hk]. }
  split_and!; [|done|eexists; by split_and!]. pose proof Hwf as [Hrev Hnd _ _].
  eapply wfx_edges; [exact Hwf|done| |]; unfold all_deps, all_dpts in *.
  - intros a b. destruct (decide (b = id)) as [->|Hb]; [rewrite Hid1; by intros ?%elem_of_nil|].
    rewrite (Hk b) by done. intros Ha. destruct (Hrev a b Ha) as [Hd|[]].
    destruct (decide (a = id)) as [->|Hne]; [rewrite Hid in Hd; auto|rewrite Hk by done; auto].
  - intros k. destruct (decide (k = id)) as [->|]; [rewrite Hid1; split; apply NoDup_nil_2|rewrite Hk by done; apply Hnd].
Qed.

Lemma wfx_same_fields c c' :
  nodes c' = nodes c → next_id c' = next_id c → free_ids c' = free_ids c → generations c' = generations c →
  same_shape c c'.
Proof. intros Hn ? ? ?. split_and!; [|done..]. intros k. by rewrite Hn. Qed.

Lemma dispose_slot_id_safe id c :
  graph_wf c →
  ∃ c', dispose_slot_id id c = (Val tt, c') ∧ graph_wf c' ∧ evolves c c' ∧
    (∀ s, nodes c !! id = Some (NSlot s) → nodes c' !! id = None ∧ node_generation c id < node_generation c' id).
Proof.
  intros Hwf. unfold dispose_slot_id. unfold get_slot_node at 1, get_node at 1.
  destruct (nodes c !! id) as [[s| |]|] eqn:Hid;
    [|exists c; split_and!; [done|done|apply evolves_refl|done]..].
  destruct (strip_slot_safe id s c Hwf Hid) as (Hwf1 & Ho1 & Hst1). cbv zeta.
  set (c1 := upd_slot _ id c) in *.
  set (c2 := if s_eager s then set_eager_by (delete id (eager_by c1)) c1 else c1).
  set (c3 := set_ripple_by (delete id (ripple_by c2)) c2).
  assert (Hs3 : same_shape c1 c3).
  { unfold c3, c2. destruct (s_eager s); by apply wfx_same_fields. }
  destruct (same_shape_wf _ _ _ Hs3 Hwf1) as [Hwf3 _]. apply (stripped_shape _ _ _ Hs3) in Hst1.
  assert (He3 : evolves c c3).
  { eapply evolves_trans; [by apply same_occupants_evolves|by apply same_occupants_evolves, same_shape_occupants]. }
  set (puller := if s_eager s then eager_by c !! id else None).
  set (m := match puller with Some e => dispose_effect e | None => mret () end).
  assert (Hm : ∃ c4, m c3 = (Val tt, c4) ∧ wfx (λ a b, no_excuse a b ∨ (a = id ∧ b ∈ s_dependencies s)) c4 ∧
    evolves c3 c4 ∧ stripped id c4).
  { unfold m. destruct puller as [e|]; [|exists c3; split_and!; [done|done|apply evolves_refl|done]].
    destruct (dispose_effect_safe _ e c3 Hwf3) as (? & ? & Hs & Hv).
    destruct (dispose_effect e c3) as [[[]| | |] c4]; simpl in *; [|by destruct Hv as [? [=]]..].
    exists c4. split_and!; auto. }
  destruct Hm as (c4 & Em & Hwf4 & He4 & Hst4).
  destruct (detach_upstream_safe _ _ _ _ Hwf4) as (Hwf5 & Ho5 & Hd5 & Hp5).
  destruct (stripped_nil _ _ Hst4) as [Hd4 Hp4].
  assert (Hst5 : stripped id (detach_upstream (s_dependencies s) id c4)).
  { eapply stripped_same; [exact Ho5|by rewrite Hd5|by apply Hp5|done]. }
  destruct (dispose_tail_safe (s_dependents s) id _ Hwf5 Hst5) as (c6 & E6 & Hwf6 & He6 & Hn6 & Hg6).
  assert (He5 : evolves c (detach_upstream (s_dependencies s) id c4)).
  { eapply evolves_trans; [exact He3|]. eapply evolves_trans; [exact He4|]. by apply same_occupants_evolves. }
  exists c6. split_and!; [|done|by eapply evolves_trans|].
  - unfold mbind at 1, M_bind at 1. rewrite Em. exact E6.
  - intros _ _. split; [done|]. rewrite Hg6. destruct (He5 id). lia.
Qed.

Lemma dispose_cell_id_safe id c :
  graph_wf c →
  ∃ c', dispose_cell_id id c = (Val tt, c') ∧ graph_wf c' ∧ evolves c c' ∧
    (∀ cell, nodes c !! id = Some (NCell cell) → nodes c' !! id = None ∧ node_generation c id < node_generation c' id).
Proof.
  intros Hwf. unfold dispose_cell_id. unfold get_cell_node at 1, get_node at 1.
  destruct (nodes c !! id) as [[|cell|]|] eqn:Hid;
    [exists c; split_and!; [done|done|apply evolves_refl|done]| |exists c; split_and!; [done|done|apply evolves_refl|done]..].
  cbv zeta. set (c1 := set_node id (NCell (mkCell (c_value cell) [])) c).
  assert (Hid1 : nodes c1 !! id = Some (NCell (mkCell (c_value cell) []))) by apply lookup_insert_eq.
  assert (Hk : ∀ k, k ≠ id → nodes c1 !! k = nodes c !! k).
  { intros k Hk. unfold c1. simpl. by rewrite lookup_insert_ne. }
  assert (Ho1 : same_occupants c c1).
  { split_and!; [|done..]. intros k. destruct (decide (k = id)) as [->|]; [by rewrite Hid1, Hid|by rewrite Hk]. }
  assert (Hdeps : ∀ k, all_deps (nodes c1) k = all_deps (nodes c) k).
  { intros k. unfold all_deps. destruct (decide (k = id)) as [->|]; [by rewrite Hid1, Hid|by rewrite Hk]. }
  assert (Hwf1 : graph_wf c1).
  { pose proof Hwf as [Hrev Hnd _ _]. eapply wfx_edges; [exact Hwf|done| |].
    - intros a b. rewrite Hdeps. unfold all_dpts.
      destruct (decide (b = id)) as [->|]; [rewrite Hid1; by intros ?%elem_of_nil|rewrite Hk by done; apply Hrev].
    - intros k. rewrite Hdeps. split; [apply Hnd|]. unfold all_dpts.
      destruct (decide (k = id)) as [->|]; [rewrite Hid1; apply NoDup_nil_2|rewrite Hk by done; apply Hnd]. }
  destruct (dispose_tail_safe (c_dependents cell) id c1 Hwf1) as (c2 & E2 & Hwf2 & He2 & Hn2 & Hg2); [by eexists; split_and!|].
  exists c2. split_and!; [exact E2|done| |].
  - eapply evolves_trans; [by apply same_occupants_evolves|done].
  - intros _ _. split; [done|]. change (node_generation c1 id) with (node_generation c id) in Hg2. lia.
Qed.

(** ** Every operation is safe *)

Lemma exact_safe (m : M V unit) c : (∃ c', m c = (Val tt, c') ∧ graph_wf c' ∧ evolves c c') →
  graph_wf (m c).2 ∧ evolves c (m c).2.
Proof. intros (c' & -> & ? & ?). done. Qed.

Lemma safe_dispose_effect L h : safe L (dispose_effect h).
Proof. intros c Hc _. destruct (dispose_effect_safe _ h c Hc) as (? & ? & _). done. Qed.

Lemma safe_dispose_slot L h : safe L (dispose_slot h).
Proof.
  intros c Hc _. unfold dispose_slot. destruct (negb _); [by split; [|apply evolves_refl]|].
  apply exact_safe. destruct (dispose_slot_id_safe (h_id h) c Hc) as (c' & ? & ? & ? & _). eauto.
Qed.

Lemma safe_dispose_cell L h : safe L (dispose_cell h).
Proof.
  intros c Hc _. unfold dispose_cell. destruct (negb _); [by split; [|apply evolves_refl]|].
  apply exact_safe. destruct (dispose_cell_id_safe (h_id h) c Hc) as (c' & ? & ? & ? & _). eauto.
Qed.

Lemma safe_dispose_id L id : safe L (dispose_id id).
Proof.
  intros c Hc HL. unfold dispose_id. destruct (get_node c id) as [[| |]|].
  - apply exact_safe. destruct (dispose_slot_id_safe id c Hc) as (c' & ? & ? & ? & _). eauto.
  - apply exact_safe. destruct (dispose_cell_id_safe id c Hc) as (c' & ? & ? & ? & _). eauto.
  - by apply (safe_dispose_effect L).
  - by split; [|apply evolves_refl].
Qed.

Lemma safe_invalidate L id : safe L (invalidate_dependents_now id).
Proof.
  apply safe_same. intros c. unfold invalidate_dependents_now.
  assert (Hw : ∀ l, same_shape c ((effects ← mark_frontier_locked l; modify (schedule_all effects);;
      mret (negb (bool_decide (effects = [])))) c).2).
  { intros l. unfold mark_frontier_locked, mbind, M_bind.
    destruct (mark_loop _ _ _ _) as [[eff ns]|] eqn:E; [|apply same_shape_refl]. simpl.
    eapply same_shape_trans; [|apply schedule_all_shape]. split_and!; [|done..]. by eapply mark_loop_shape. }
  destruct (get_node c id) as [[s|cell|]|]; try apply same_shape_refl;
    [destruct (s_dependents s); [apply same_shape_refl|apply Hw]|destruct (c_dependents cell); [apply same_shape_refl|apply Hw]].
Qed.

Lemma clear_frontier_shape roots c :
  same_shape c ((effects ← clear_frontier_locked roots; modify (schedule_all effects)) c).2.
Proof.
  unfold clear_frontier_locked, mbind, M_bind.
  destruct (clear_loop _ _ _ _) as [[eff ns]|] eqn:E; [|apply same_shape_refl]. simpl.
  eapply same_shape_trans; [|apply schedule_all_shape]. split_and!; [|done..]. by eapply clear_loop_shape.
Qed.

Lemma safe_clear_slot_now L id : safe L (clear_slot_now id).
Proof. apply safe_same. intros c. apply clear_frontier_shape. Qed.

Lemma safe_clear_cell_dependents_now L id : safe L (clear_cell_dependents_now id).
Proof.
  apply safe_same. intros c. unfold clear_cell_dependents_now.
  destruct (get_cell_node c id); [apply clear_frontier_shape|apply same_shape_refl].
Qed.

Lemma safe_with_node {A} L (f : Ctx V → outcome A * Ctx V) :
  (∀ c, graph_wf c → L c → graph_wf (f c).2 ∧ evolves c (f c).2) → safe L (with_state f).
Proof. done. Qed.

Lemma safe_here {A} L (m : M V A) c : safe L m → graph_wf c → L c → graph_wf (m c).2 ∧ evolves c (m c).2.
Proof. intros Hm. apply Hm. Qed.

(** Continue after a change that keeps the shape. *)
Lemma safe_after {A} L (m : M V A) c c' :
  stable L → same_shape c c' → safe L m → graph_wf c → L c → graph_wf (m c').2 ∧ evolves c (m c').2.
Proof.
  intros HL Hs Hm Hc HLc. destruct (same_shape_wf _ _ _ Hs Hc) as [Hc' He].
  destruct (Hm c' Hc') as [? ?]; [by eapply HL|]. split; [done|by eapply evolves_trans].
Qed.

Lemma safe_nothing {A} c (r : outcome A) : graph_wf c → graph_wf (r, c).2 ∧ evolves c (r, c).2.
Proof. split; [done|apply evolves_refl]. Qed.

Lemma safe_alloc_insert {A} L n (f : SlotId → M V A) :
  stable L → node_deps n = [] → node_dpts n = [] → (∀ id, safe L (f id)) →
  safe L (id ← alloc_id; modify (insert_node id n);; f id).
Proof.
  intros HL Hd Hp Hf c Hc HLc. destruct (alloc_insert_safe n c Hc Hd Hp) as (id & c' & E & Hc' & He & _).
  unfold mbind, M_bind, modify. rewrite E. destruct (Hf id _ Hc') as [? ?]; [by eapply HL|].
  split; [done|by eapply evolves_trans].
Qed.

Lemma safe_handle L id : safe L (g ← gets (λ c, node_generation c id); mret (mkHandle id g)).
Proof. apply safe_same. intros c. apply same_shape_refl. Qed.

Lemma safe_source L v : stable L → safe L (source v).
Proof.
  intros HL. apply safe_bind; [done| |intros; apply safe_handle].
  apply safe_alloc_insert; [done..|intros; apply safe_ret].
Qed.

Lemma safe_slot_with_equals L p eq : stable L → safe L (slot_with_equals p eq).
Proof. intros HL. apply safe_alloc_insert; [done..|intros; apply safe_handle]. Qed.

Lemma safe_new_slot L g p : stable L → safe L (new_slot g p).
Proof.
  intros HL. destruct g; simpl; [by apply safe_slot_with_equals..|].
  apply safe_bind; [done|by apply safe_slot_with_equals|]. intros h.
  apply safe_bind; [done|by apply safe_modify|intros; apply safe_ret].
Qed.

Section open_recursion.
  Context (R : SlotId → M V bool) (F : M V unit).
  Context (HR : ∀ id, safe anything (R id)) (HF : safe anything F).

Lemma safe_get_slot L id : stable L → safe L (get_slot_with R id).
Proof.
  intros HL. apply safe_bind; [done|apply safe_weaken, HR|]. intros _. apply safe_same. intros c.
  unfold with_state. destruct (get_slot_node c id) as [s|]; [destruct (s_value s)|]; apply same_shape_refl.
Qed.

Lemma safe_write_cell L id v : stable L → safe L (write_cell_with F id v).
Proof.
  intros HL c Hc HLc. unfold write_cell_with, get_cell_node, get_node.
  destruct (nodes c !! id) as [[|cell|]|] eqn:E; [by apply safe_nothing| |by apply safe_nothing..].
  case_decide; [by apply safe_nothing|]. cbv zeta.
  assert (Hs : same_shape c (set_node id (NCell (mkCell v (c_dependents cell))) c)) by (by eapply same_shape_set_node).
  destruct (is_batching _).
  - destruct (same_shape_wf _ _ _ Hs Hc). split; [|done]. simpl. by apply (same_shape_wf _ (set_node id (NCell (mkCell v (c_dependents cell))) c)).
  - eapply safe_after; [exact HL|exact Hs| |done|done].
    apply safe_bind; [done|apply safe_invalidate|]. intros b. apply safe_if; [by apply safe_weaken|apply safe_ret].
Qed.

Lemma safe_effect L p : stable L → safe L (effect_with F p).
Proof.
  intros HL. apply safe_alloc_insert; [done..|]. intros id.
  apply safe_bind; [done|apply safe_modify; intros; apply schedule_effect_shape|]. intros _.
  apply safe_bind; [done|by apply safe_weaken|intros; apply safe_handle].
Qed.

Lemma safe_make_eager L id : stable L → safe L (make_eager_with F id).
Proof.
  intros HL c Hc HLc. unfold make_eager_with. destruct (get_slot_node c id) as [s|]; [|by apply safe_nothing].
  destruct (s_eager s); [by apply safe_nothing|]. apply (safe_here L); [|done|done].
  apply safe_bind; [done|by apply safe_effect|]. intros e.
  apply safe_bind; [done|apply safe_modify; intros; by apply same_shape_upd_slot|]. intros _. by apply safe_modify.
Qed.

Lemma safe_signal L p : stable L → safe L (signal_with F p).
Proof.
  intros HL. apply safe_bind; [done|by apply safe_slot_with_equals|]. intros h.
  apply safe_bind; [done|by apply safe_make_eager|intros; apply safe_ret].
Qed.

Lemma safe_for_each L (f : SlotId → M V unit) ids : stable L → (∀ id, safe L (f id)) → safe L (for_each f ids).
Proof.
  intros HL Hf. induction ids as [|id ids IH]; simpl; [apply safe_ret|].
  apply safe_bind; [done|apply Hf|]. intros _. apply IH.
Qed.

Lemma safe_flush_batched L : stable L → safe L (flush_batched_invalidations_with F).
Proof.
  intros HL. unfold flush_batched_invalidations_with.
  repeat (apply safe_bind; [done|first [apply safe_gets|by apply safe_modify|apply safe_for_each; [done|]]|intros ?]);
    [|apply safe_clear_cell_dependents_now|apply safe_clear_slot_now|by apply safe_weaken].
  intros id. apply safe_bind; [done|apply safe_invalidate|intros; apply safe_ret].
Qed.

Lemma safe_batch {A} L (m : M V A) : stable L → safe L m → safe L (batch_with F m).
Proof.
  intros HL Hm c Hc HLc. unfold batch_with.
  assert (Hs0 : same_shape c (set_batch_depth (S (batch_depth c)) c)) by done.
  pose proof (safe_after L m c _ HL Hs0 Hm Hc HLc) as [Hc1 He1].
  assert (Hfin : ∀ c1, graph_wf c1 → L c1 → graph_wf (finish_batch_with F c1).2 ∧ evolves c1 (finish_batch_with F c1).2).
  { intros c1 Hwf1 HL1. unfold finish_batch_with. destruct (batch_depth c1) as [|d]; [by apply safe_nothing|]. cbv zeta.
    assert (Hs1 : same_shape c1 (set_batch_depth d c1)) by done.
    destruct (d =? 0); [|by apply same_shape_wf].
    eapply safe_after; [exact HL|exact Hs1|by apply safe_flush_batched|done|done]. }
  destruct (m _) as [r c1]. simpl in Hc1, He1. destruct (Hfin c1 Hc1) as [Hc2 He2]; [by eapply HL|].
  destruct r as [a|e| |]; try done; destruct (finish_batch_with F c1) as [[?|?| |] c2];
    (split; [done|by eapply evolves_trans]).
Qed.

Lemma safe_track node gen dep : safe (alive node gen) (modify (track node gen dep) : M V unit).
Proof.
  intros c Hc [Hle Hal]. unfold modify, track. simpl.
  destruct (node_generation c node =? gen) eqn:E; [|by split; [|apply evolves_refl]].
  apply Nat.eqb_eq in E. destruct (register_safe dep node c Hc (Hal E)) as [? ?].
  split; [done|by apply same_occupants_evolves].
Qed.

Lemma safe_run_prog {A} node gen (p : prog V A) : safe (alive node gen) (run_prog R F node gen p).
Proof.
  pose proof (alive_stable node gen) as HL.
  induction p; simpl;
    try (apply safe_bind; [done| |intros; auto]);
    auto using safe_ret, safe_gets, safe_write_cell, safe_source, safe_new_slot, safe_signal, safe_effect, safe_batch,
      safe_dispose_slot, safe_dispose_cell, safe_dispose_effect, safe_dispose_id.
  - apply safe_same. intros c. apply same_shape_refl.
  - destruct tracked; [apply safe_track|apply safe_ret].
  - apply safe_bind; [done| |intros; auto]. apply safe_same. intros c. unfold read_cell.
    destruct (get_cell_node c (h_id h)); apply same_shape_refl.
  - destruct tracked; [apply safe_track|apply safe_ret].
  - apply safe_bind; [done|by apply safe_get_slot|intros; auto].
  - apply safe_modify. done.
Qed.

(** A slot or effect drops its forward edges, then the reverse ones. *)
Lemma drop_deps_safe id (n : Node V) f c :
  graph_wf c → nodes c !! id = Some n → kind_of (f n) = kind_of n → node_dpts (f n) = node_dpts n → node_deps (f n) = [] →
  graph_wf (detach_upstream (node_deps n) id (set_node id (f n) c)) ∧
  evolves c (detach_upstream (node_deps n) id (set_node id (f n) c)).
Proof.
  intros Hwf Hid Hkind Hdp Hd. set (c1 := set_node id (f n) c).
  assert (Hid1 : nodes c1 !! id = Some (f n)) by apply lookup_insert_eq.
  assert (Hk : ∀ k, k ≠ id → nodes c1 !! k = nodes c !! k).
  { intros k Hk. unfold c1. simpl. by rewrite lookup_insert_ne. }
  assert (Hocc : same_occupants c c1).
  { split_and!; [|done..]. intros k. destruct (decide (k = id)) as [->|]; [by rewrite Hid1, Hid; simpl; rewrite Hkind|by rewrite Hk]. }
  assert (Hdpts : ∀ k, all_dpts (nodes c1) k = all_dpts (nodes c) k).
  { intros k. unfold all_dpts. destruct (decide (k = id)) as [->|]; [by rewrite Hid1, Hid|by rewrite Hk]. }
  destruct (detach_upstream_safe no_excuse (node_deps n) id c1) as (Hwf2 & Ho2 & _).
  - pose proof Hwf as [Hrev Hnd _ _]. eapply wfx_edges; [exact Hwf|done| |].
    + intros a b. rewrite Hdpts. intros Ha. destruct (Hrev a b Ha) as [Hab|[]]. unfold all_deps in *.
      destruct (decide (a = id)) as [->|]; [rewrite Hid in Hab; auto|left; by rewrite Hk].
    + intros k. rewrite Hdpts. split; [|apply Hnd]. unfold all_deps.
      destruct (decide (k = id)) as [->|]; [rewrite Hid1, Hd; apply NoDup_nil_2|rewrite Hk by done; apply Hnd].
  - split; [done|]. apply same_occupants_evolves. by eapply same_occupants_trans.
Qed.

Lemma safe_store L id v :
  stable L →
  safe L (with_state (λ c,
    match get_slot_node c id with
    | None => (Val false, c)
    | Some s =>
        let unchanged := match s_value s with Some old => unchanged_by c id s old v | None => false end in
        let had_value := bool_decide (is_Some (s_value s)) in
        let s := slot_set_flags false false s in
        let s := if unchanged then s else slot_set_value (Some v) s in
        let changed := negb unchanged && had_value in
        let c := set_node id (NSlot s) c in
        (if changed then invalidate_dependents_now id;; mret true else mret false) c
    end)).
Proof.
  intros HL c Hc HLc. unfold with_state, get_slot_node, get_node.
  destruct (nodes c !! id) as [[s| |]|] eqn:E; [|by apply safe_nothing..]. cbv zeta.
  match goal with |- context [set_node id (NSlot ?s') c] => set (s1 := s') end.
  assert (Hs : same_shape c (set_node id (NSlot s1) c)).
  { eapply same_shape_set_node; [exact E|]. unfold s1. by destruct (match s_value s with Some _ => _ | None => _ end). }
  destruct (negb _ && _).
  - eapply safe_after; [exact HL|exact Hs| |done|done]. apply safe_bind; [done|apply safe_invalidate|intros; apply safe_ret].
  - eapply safe_after; [exact HL|exact Hs|apply safe_ret|done|done].
Qed.

Lemma safe_recompute L id : stable L → safe L (recompute_slot_now_with R F id).
Proof.
  intros HL c Hc HLc. unfold recompute_slot_now_with.
  destruct (get_slot_node c id) as [s|] eqn:E; [|by apply safe_nothing].
  assert (Hid : nodes c !! id = Some (NSlot s)).
  { unfold get_slot_node, get_node in E. destruct (nodes c !! id) as [[]|]; naive_solver. }
  cbv zeta. rewrite upd_slot_eq, (alter_Some _ _ _ _ Hid). change (set_nodes _ c) with
    (set_node id (map_slot (slot_set_dependencies []) (NSlot s)) c).
  destruct (drop_deps_safe id (NSlot s) (map_slot (slot_set_dependencies [])) c Hc Hid) as [Hwf1 He1]; [done..|].
  simpl node_deps in *. set (c1 := detach_upstream _ _ _) in *.
  assert (Hal : alive id (node_generation c1 id) c1).
  { split; [done|]. intros _. assert (Hgen : node_generation c1 id = node_generation c id).
    { unfold c1. rewrite detach_upstream_eq. done. }
    destruct (proj2 (He1 id) Hgen _ Hid) as (n & Hn & Hk). exists n. split; [done|]. by rewrite Hk. }
  set (L' := λ c', L c' ∧ alive id (node_generation c1 id) c').
  assert (HL' : stable L').
  { intros a b' Hab [? ?]. split; [by eapply HL|by eapply alive_stable]. }
  assert (Hsafe : safe L' (result ← run_prog R F id (node_generation c1 id) (s_compute s); with_state (λ c,
    match get_slot_node c id with
    | None => (Val false, c)
    | Some s =>
        let unchanged := match s_value s with Some old => unchanged_by c id s old result | None => false end in
        let had_value := bool_decide (is_Some (s_value s)) in
        let s := slot_set_flags false false s in
        let s := if unchanged then s else slot_set_value (Some result) s in
        let changed := negb unchanged && had_value in
        let c := set_node id (NSlot s) c in
        (if changed then invalidate_dependents_now id;; mret true else mret false) c
    end))).
  { apply safe_bind; [done| |intros v; by apply safe_store]. intros c' Hc' [_ Ha]. by apply safe_run_prog. }
  destruct (Hsafe c1 Hwf1) as [? ?].
  - split; [by eapply HL|done].
  - split; [done|by eapply evolves_trans].
Qed.

Lemma safe_refresh_dependencies L deps : stable L → safe L (refresh_dependencies R deps).
Proof.
  intros HL. induction deps as [|d deps IH]; simpl; [apply safe_ret|].
  apply safe_bind; [done|apply safe_gets|]. intros b.
  apply safe_bind; [done|apply safe_if; [apply safe_weaken, HR|apply safe_ret]|]. intros b'.
  apply safe_bind; [done|done|intros; apply safe_ret].
Qed.

Lemma safe_any_dependency L deps : stable L → safe L (any_dependency_changed R deps).
Proof.
  intros HL. induction deps as [|d deps IH]; simpl; [apply safe_ret|].
  apply safe_bind; [done|apply safe_gets|]. intros b.
  apply safe_bind; [done|apply safe_if; [apply safe_weaken, HR|apply safe_ret]|]. intros b'.
  apply safe_if; [apply safe_ret|done].
Qed.

Lemma safe_with_guard {A} L (m : M V A) f :
  (∀ c, same_shape c (f c)) → safe L m → safe L (with_guard m f).
Proof.
  intros Hf Hm c Hc HLc. destruct (Hm c Hc HLc) as [Hc1 He1]. unfold with_guard.
  destruct (m c) as [[a|e| |] c1]; simpl in *; try done;
    (destruct (same_shape_wf _ _ _ (Hf c1) Hc1); split; [done|by eapply evolves_trans]).
Qed.

Lemma safe_refresh L id : stable L → safe L (refresh_slot_with R F id).
Proof.
  intros HL c Hc HLc. unfold refresh_slot_with. destruct (match get_slot_node c id with Some _ => _ | None => _ end);
    [by apply safe_nothing|].
  apply (safe_here L); [|done|done]. apply safe_bind; [done| |].
  - apply safe_same. intros c'. unfold enter_refresh. destruct (get_slot_node c' id) as [s|]; [|apply same_shape_refl].
    destruct (s_in_progress s); [apply same_shape_refl|by apply same_shape_upd_slot].
  - intros b. apply safe_if; [apply safe_ret|]. apply safe_with_guard; [intros; by apply same_shape_upd_slot|].
    apply safe_bind; [done|apply safe_gets|]. intros [s|]; [|apply safe_ret].
    apply safe_bind; [done|by apply safe_refresh_dependencies|]. intros ch.
    apply safe_bind; [done|apply safe_gets|]. intros [s'|]; [|apply safe_ret].
    apply safe_if; [by apply safe_recompute|].
    apply safe_bind; [done|apply safe_modify; intros; by apply same_shape_upd_slot|intros; apply safe_ret].
Qed.

Lemma safe_effect_should_run L id : stable L → safe L (effect_should_run_with R id).
Proof.
  intros HL c Hc HLc. unfold effect_should_run_with. destruct (get_effect_node c id) as [e|]; [|by apply safe_nothing].
  destruct (e_force_run e); [by apply safe_nothing|]. by apply (safe_any_dependency L).
Qed.

Lemma safe_store_cleanup L id cl :
  safe L (with_state (λ c,
    match get_effect_node c id with
    | Some e => (Val tt, set_node id (NEffect (mkEffect (e_run e) (e_dependencies e) cl (e_force_run e))) c)
    | None => (Val tt, run_cleanup cl c)
    end) : M V unit).
Proof.
  apply safe_same. intros c. unfold with_state, get_effect_node, get_node.
  destruct (nodes c !! id) as [[| |e]|] eqn:E; try apply run_cleanup_shape. by eapply same_shape_set_node.
Qed.

Lemma safe_run_effect L id : stable L → safe L (run_effect_with R F id).
Proof.
  intros HL. apply safe_bind; [done|by apply safe_effect_should_run|]. intros b.
  apply safe_if; [apply safe_ret|].
  apply safe_bind; [done|apply safe_modify; intros; apply remove_pending_shape|]. intros _ c Hc HLc.
  unfold with_state. destruct (get_effect_node c id) as [e|] eqn:E; [|by apply safe_nothing].
  assert (Hid : nodes c !! id = Some (NEffect e)).
  { unfold get_effect_node, get_node in E. destruct (nodes c !! id) as [[]|]; naive_solver. }
  cbv zeta.
  destruct (drop_deps_safe id (NEffect e) (λ _, NEffect (mkEffect (e_run e) [] None false)) c Hc Hid) as [Hwf1 He1]; [done..|].
  simpl node_deps in *. set (c1 := detach_upstream _ _ _) in *.
  destruct (same_shape_wf _ _ _ (run_cleanup_shape (e_cleanup e) c1) Hwf1) as [Hwf2 He2].
  set (c2 := run_cleanup (e_cleanup e) c1) in *.
  assert (He : evolves c c2) by (by eapply evolves_trans).
  assert (Hal : alive id (node_generation c2 id) c2).
  { split; [done|]. intros _. assert (Hgen : node_generation c2 id = node_generation c id).
    { unfold c2, c1. rewrite detach_upstream_eq. by destruct (e_cleanup e). }
    destruct (proj2 (He id) Hgen _ Hid) as (n & Hn & Hk). exists n. split; [done|]. by rewrite Hk. }
  set (L' := λ c', L c' ∧ alive id (node_generation c2 id) c').
  assert (HL' : stable L').
  { intros a b' Hab [? ?]. split; [by eapply HL|by eapply alive_stable]. }
  assert (Hsafe : safe L' (next_cleanup ← run_prog R F id (node_generation c2 id) (e_run e);
    with_state (λ c,
    match get_effect_node c id with
    | Some e => (Val tt, set_node id (NEffect (mkEffect (e_run e) (e_dependencies e) next_cleanup (e_force_run e))) c)
    | None => (Val tt, run_cleanup next_cleanup c)
    end))).
  { apply safe_bind; [done| |intros; apply safe_store_cleanup]. intros c' Hc' [_ Ha]. by apply safe_run_prog. }
  destruct (Hsafe c2 Hwf2) as [? ?].
  - split; [by eapply HL|done].
  - split; [done|by eapply evolves_trans].
Qed.

End open_recursion.

(** ** Tying the knot *)

Lemma engine_safe fuel :
  (∀ id, safe anything (refresh_slot fuel id)) ∧ safe anything (flush_loop fuel) ∧ safe anything (flush_effects fuel).
Proof.
  induction fuel as [|fuel (HR & HL & HF)].
  { split_and!; intros; apply safe_same; intros; apply same_shape_refl. }
  split_and!.
  - intros id. rewrite refresh_slot_S. by apply safe_refresh.
  - intros c Hc _. rewrite flush_loop_S. destruct (pending_effects c) as [|id rest]; [by apply same_shape_wf|].
    eapply safe_after; [exact stable_anything| | |done|done].
    + done.
    + apply safe_bind; [done|by apply safe_run_effect|]. intros _. exact HL.
  - intros c Hc _. rewrite flush_effects_S. destruct (flushing_effects c); [by apply safe_nothing|].
    by eapply safe_after; [exact stable_anything| |exact HL| |].
Qed.

(** The operations a client can call, with arbitrary closures. *)
Inductive client_op :=
  | CSource (v : V)
  | CNewSlot (g : guard V) (p : prog V V)
  | CSignal (p : prog V V)
  | CEffect (p : prog V (option nat))
  | CSet (h : Handle) (v : V)
  | CMerge (fold : V → V → V) (h : Handle) (v : V)
  | CGet (h : Handle)
  | CGetComputed (h : Handle)
  | CMakeEager (h : Handle)
  | CMakeLazy (h : Handle)
  | CClear (h : Handle)
  | CClearDependents (h : Handle)
  | CDisposeSlot (h : Handle)
  | CDisposeCell (h : Handle)
  | CDisposeEffect (h : Handle)
  | CDisposeId (id : SlotId)
  | CBatch (ops : list client_op).

Definition ignore {A} (m : M V A) : M V unit := _ ← m; mret tt.

Fixpoint run_client (fuel : nat) (op : client_op) : M V unit :=
  match op with
  | CSource v => ignore (source v)
  | CNewSlot g p => ignore (new_slot g p)
  | CSignal p => ignore (signal fuel p)
  | CEffect p => ignore (effect fuel p)
  | CSet h v => set_source fuel h v
  | CMerge fold h v => source_merge fuel fold h v
  | CGet h => ignore (get_source h)
  | CGetComputed h => ignore (get_computed fuel h)
  | CMakeEager h => make_eager fuel (h_id h)
  | CMakeLazy h => make_lazy (h_id h)
  | CClear h => computed_clear fuel h
  | CClearDependents h => clear_cell_dependents fuel (h_id h)
  | CDisposeSlot h => dispose_slot h
  | CDisposeCell h => dispose_cell h
  | CDisposeEffect h => dispose_effect h
  | CDisposeId id => dispose_id id
  | CBatch ops =>
      batch fuel ((fix go (ops : list client_op) : M V unit :=
                     match ops with [] => mret tt | op :: ops => run_client fuel op;; go ops end) ops)
  end.

(** The client catches exceptions and goes on. *)
Fixpoint run_clients (fuel : nat) (ops : list client_op) (c : Ctx V) : Ctx V :=
  match ops with [] => c | op :: ops => run_clients fuel ops (run_client fuel op c).2 end.

Lemma safe_ignore {A} L (m : M V A) : stable L → safe L m → safe L (ignore m).
Proof. intros HL Hm. apply safe_bind; [done|done|intros; apply safe_ret]. Qed.

Lemma safe_client fuel : ∀ op, safe anything (run_client fuel op).
Proof.
  destruct (engine_safe fuel) as (HR & HL & HF). pose proof stable_anything as HS.
  assert (Hset : ∀ h v, safe anything (set_source fuel h v)) by (intros; by apply safe_write_cell).
  assert (Hclear : ∀ id, safe anything (clear_slot id)).
  { intros id c Hc _. unfold clear_slot. destruct (is_batching c); [by apply same_shape_wf|by apply (safe_clear_slot_now anything)]. }
  fix IH 1. intros op. destruct op as [v|g p|p|p|h v|f h v|h|h|h|h|h|h|h|h|h|id|ops]; simpl.
  - by apply safe_ignore, safe_source.
  - by apply safe_ignore, safe_new_slot.
  - apply safe_ignore; [done|]. by apply safe_signal.
  - apply safe_ignore; [done|]. by apply safe_effect.
  - apply Hset.
  - apply safe_bind; [done|apply safe_gets|]. intros [old|]; [apply Hset|]. apply safe_same. intros; apply same_shape_refl.
  - apply safe_ignore; [done|]. apply safe_same. intros c. unfold get_source, read_cell.
    destruct (get_cell_node c (h_id h)); apply same_shape_refl.
  - apply safe_ignore; [done|]. by apply safe_get_slot.
  - by apply safe_make_eager.
  - intros c Hc HLc. unfold make_lazy. destruct (eager_by c !! h_id h) as [e|]; [|by apply safe_nothing]. cbv zeta.
    apply (safe_after anything (dispose_effect e) c); [done| |apply safe_dispose_effect|done|done].
    apply (same_shape_trans _ (set_eager_by (delete (h_id h) (eager_by c)) c)); [done|by apply same_shape_upd_slot].
  - apply safe_bind; [done|apply Hclear|]. intros _ c Hc HLc. unfold flush_effects_after_invalidation.
    destruct (is_batching c); [by apply safe_nothing|by apply HF].
  - intros c Hc HLc. unfold clear_cell_dependents. destruct (is_batching c); [by apply same_shape_wf|].
    apply (safe_here anything); [|done|done]. apply safe_bind; [done|apply safe_clear_cell_dependents_now|]. intros _. exact HF.
  - apply safe_dispose_slot.
  - apply safe_dispose_cell.
  - apply safe_dispose_effect.
  - apply safe_dispose_id.
  - apply safe_batch; [done|done|]. induction ops as [|op ops IHops]; [apply safe_ret|].
    apply safe_bind; [done|apply IH|]. intros _. exact IHops.
Qed.

Lemma run_clients_safe fuel ops : ∀ c, graph_wf c → graph_wf (run_clients fuel ops c) ∧ evolves c (run_clients fuel ops c).
Proof.
  induction ops as [|op ops IH]; intros c Hc; simpl; [split; [done|apply evolves_refl]|].
  destruct (safe_client fuel op c Hc I) as [Hc1 He1]. destruct (IH _ Hc1) as [Hc2 He2].
  split; [done|by eapply evolves_trans].
Qed.

Lemma empty_wf : graph_wf empty_ctx.
Proof.
  split; simpl.
  - intros i j. unfold all_dpts. simpl. rewrite lookup_empty. by intros ?%elem_of_nil.
  - intros i. unfold all_dpts, all_deps. simpl. rewrite lookup_empty. split; apply NoDup_nil_2.
  - intros id n. by rewrite lookup_empty.
  - split; [apply NoDup_nil_2|]. by intros id ?%elem_of_nil.
Qed.


(** Nothing done through a handle of a past occupant touches the node. *)
Definition fenced h c : Prop :=
  dispose_slot h c = (Val tt, c) ∧ dispose_cell h c = (Val tt, c) ∧ dispose_effect h c = (Val tt, c) ∧
  is_effect_active h c = false ∧ ∀ dep, track (h_id h) (h_generation h) dep c = c.

Lemma past_generation_fenced h c : h_generation h < node_generation c (h_id h) → fenced h c.
Proof.
  intros Hlt. assert (Hne : (node_generation c (h_id h) =? h_generation h) = false) by (apply Nat.eqb_neq; lia).
  unfold fenced, dispose_slot, dispose_cell, dispose_effect, is_effect_active, track. rewrite Hne. simpl.
  split_and!; try done. unfold get_node. by destruct (nodes c !! h_id h).
Qed.


(** ** Teardown scopes *)

Definition owned_kind (k : OwnedKind) : kind :=
  match k with OwnedSource => KCell | OwnedComputed => KSlot | OwnedEffect => KEffect end.

(** The handle names a live node of the recorded kind. *)
Definition current (o : OwnedKind * Handle) c : Prop :=
  node_generation c (h_id o.2) = h_generation o.2 ∧
  ∃ n, nodes c !! h_id o.2 = Some n ∧ kind_of n = owned_kind o.1.

Lemma dispose_effect_bumps h c e :
  graph_wf c → nodes c !! h_id h = Some (NEffect e) → node_generation c (h_id h) = h_generation h →
  ∃ c', dispose_effect h c = (Val tt, c') ∧ node_generation c' (h_id h) = S (node_generation c (h_id h)).
Proof.
  intros Hwf Hn Hg. unfold dispose_effect, get_node. rewrite Hn, Hg, Nat.eqb_refl. simpl negb. cbv iota zeta.
  eexists. split; [done|]. rewrite detach_upstream_eq.
  assert (Hr : ∀ o ns c0 i, node_generation (run_cleanup o (set_nodes ns c0)) i = node_generation c0 i) by (by intros []).
  rewrite Hr, generation_release, decide_True by done. f_equal.
  unfold remove_pending_effect. by case_decide.
Qed.

Lemma dispose_owned_safe o c :
  graph_wf c → ∃ c', dispose_owned o c = (Val tt, c') ∧ graph_wf c' ∧ evolves c c' ∧
    (current o c → h_generation o.2 < node_generation c' (h_id o.2)).
Proof.
  destruct o as [k h]. intros Hwf. unfold dispose_owned, current. simpl. destruct k; simpl.
  - unfold dispose_cell. destruct (node_generation c (h_id h) =? h_generation h) eqn:E; simpl.
    + destruct (dispose_cell_id_safe (h_id h) c Hwf) as (c' & E' & ? & ? & Hb). exists c'. split_and!; try done.
      intros (<- & n & Hn & Hk). destruct n; try done. by apply (Hb c0).
    + exists c. split_and!; [done|done|apply evolves_refl|]. intros (Hg & _). by rewrite Hg, Nat.eqb_refl in E.
  - unfold dispose_slot. destruct (node_generation c (h_id h) =? h_generation h) eqn:E; simpl.
    + destruct (dispose_slot_id_safe (h_id h) c Hwf) as (c' & E' & ? & ? & Hb). exists c'. split_and!; try done.
      intros (<- & n & Hn & Hk). destruct n; try done. by apply (Hb s).
    + exists c. split_and!; [done|done|apply evolves_refl|]. intros (Hg & _). by rewrite Hg, Nat.eqb_refl in E.
  - destruct (dispose_effect_safe no_excuse h c Hwf) as (Hwf' & He & _ & Hv).
    destruct (dispose_effect h c) as [[[]| | |] c'] eqn:E; simpl in *; [|by destruct Hv as [? [=]]..].
    exists c'. split_and!; [done..|]. intros (Hg & n & Hn & Hk). destruct n; try done.
    destruct (dispose_effect_bumps h c e Hwf Hn Hg) as (c1 & E1 & Hb). rewrite E in E1. injection E1 as <-. lia.
Qed.

Lemma dispose_all_safe l : ∀ c, graph_wf c →
  ∃ c', dispose_all l c = (Val tt, c') ∧ graph_wf c' ∧ evolves c c' ∧
    (∀ o, o ∈ l → current o c → h_generation o.2 < node_generation c' (h_id o.2)).
Proof.
  induction l as [|o l IH]; intros c Hwf.
  { exists c. split_and!; [done|done|apply evolves_refl|]. by intros o ?%elem_of_nil. }
  destruct (dispose_owned_safe o c Hwf) as (c1 & E1 & Hwf1 & He1 & Hb1).
  destruct (IH c1 Hwf1) as (c2 & E2 & Hwf2 & He2 & Hb2).
  exists c2. split_and!; [|done|by eapply evolves_trans|].
  - simpl. unfold mbind, M_bind. by rewrite E1.
  - intros o' [->|Ho]%elem_of_cons Hcur; [specialize (Hb1 Hcur); destruct (He2 (h_id o.2)); lia|].
    destruct Hcur as [Hg (n & Hn & Hk)]. destruct (He1 (h_id o'.2)) as [Hle Hsame].
    destruct (decide (node_generation c1 (h_id o'.2) = node_generation c (h_id o'.2))) as [Heq|Hne].
    + apply Hb2; [done|]. destruct (Hsame Heq n Hn) as (n' & Hn' & Hk'). split; [lia|]. exists n'. split; [done|congruence].
    + destruct (He2 (h_id o'.2)). lia.
Qed.

(** A teardown scope ends with nothing left.  After any history, ending a
    scope over any list of owned handles (stale ones included) succeeds, empties
    the scope, keeps the graph well formed, and every owned node that was alive
    is gone for good: its handle is fenced after whatever happens next. *)
Theorem scope_end_disposes_everything (fuel : nat) (before after : list client_op) (owned : list (OwnedKind * Handle)) :
  let c := run_clients fuel before empty_ctx in
  ∃ c', scope_end owned c = (Val [], c') ∧ graph_wf c' ∧
    ∀ o, o ∈ owned → current o c → fenced o.2 (run_clients fuel after c').
Proof.
  intros c. destruct (run_clients_safe fuel before _ empty_wf) as [Hc _]. fold c in Hc.
  destruct (dispose_all_safe (rev owned) c Hc) as (c' & E & Hc' & He & Hb).
  exists c'. split_and!; [|done|].
  - unfold scope_end, mbind, M_bind. by rewrite E.
  - intros o Ho Hcur. apply past_generation_fenced. destruct (run_clients_safe fuel after c' Hc') as [_ He2].
    destruct (He2 (h_id o.2)). assert (Hor : o ∈ rev owned) by (by rewrite list_elem_of_In, <- in_rev, <- list_elem_of_In).
    specialize (Hb o Hor Hcur). lia.
Qed.

End safety.

(** A history with recycling: slot 1 is disposed while slot 2 reads it, its id
    goes to a new slot, and an effect disposes a node while it runs. *)
Module Recycling.

Definition hd i := mkHandle i 0.
Definition before : list (client_op (V:=nat)) :=
  [CSource 3; CNewSlot GuardEq (Get true (hd 0) (λ v, Ret (v + 1)));
   CNewSlot GuardEq (GetComputed true (hd 1) (λ v, Ret (v * 2))); CGetComputed (hd 2);
   CEffect (GetComputed true (hd 2) (λ v, Log v (NewSource 9 (λ h, DisposeCell h (Ret (Some 7))))))].
Definition after : list (client_op (V:=nat)) :=
  [CNewSlot Unguarded (Ret 5); CGetComputed (hd 2); CSet (hd 0) 4; CDisposeId 1; CNewSlot GuardEq (Ret 6)].


(** A closure that reads a disposed node records the forward half of an edge
    before the read throws; when the id is recycled the reader names an
    unrelated node that does not know it. *)
Lemma dangling_forward_edge :
  let c := run_clients 20 ([CSource 3; CNewSlot GuardEq (Get true (hd 0) Ret);
    CNewSlot GuardEq (GetComputed true (hd 1) Ret); CGetComputed (hd 2); CDisposeSlot (hd 1);
    CGetComputed (hd 2); CNewSlot GuardEq (Ret 8)] : list (client_op (V:=nat))) empty_ctx in
  dependency_count c 2 = 1 ∧ dependent_count c 1 = 0 ∧ is_slot_node c 1 = true.
Proof. vm_compute. done. Qed.

(** An effect that throws leaves the flush flag set: no effect ever runs again,
    neither a new one nor one whose source changes. *)
Lemma throwing_effect_disables_effects :
  let c := run_clients 20 ([CSource 3; CEffect (Get true (hd 0) (λ v, Log v (Ret None)));
    CEffect (Raise (UserExn 1)); CSet (hd 0) 4; CSet (hd 0) 5;
    CEffect (Log 99 (Ret None))] : list (client_op (V:=nat))) empty_ctx in
  log c = [3] ∧ flushing_effects c = true ∧ pending_effects c = [1; 3].
Proof. vm_compute. done. Qed.

(** An effect that throws while a batch closes terminates the program, because
    the batch is closed by a destructor. *)
Lemma throwing_effect_in_batch_terminates :
  (run_client 20 (CBatch [CSet (hd 0) 4] : client_op (V:=nat))
    (run_clients 20 [CSource 3; CEffect (Get true (hd 0) (λ v, if v =? 4 then Raise (UserExn 1) else Ret None))] empty_ctx)).1
  = Crash.
Proof. vm_compute. done. Qed.

End Recycling.
