(* ===== verification/Reactive.v ===== *)
(** * Reactive: the source interface between cells and the engine

    The time, rate, window, resilience and coordination classes are a pure core
    and one or more [Source]s of the context, onto which they publish.  Of the
    engine they use four operations: create a source, read it, peek at it, write it.  The
    classes below state what they rely on; the instance at the end discharges
    it for the engine of Kernel.v on graphs of sources and pure computed cells.
    [None] stands for an operation that does not return normally. *)
From S2P Require Import Prelude Kernel KernelWalk KernelCorrect.

Class SourceContext (C H T : Type) := {
  ctx_ok : C → Prop;
  holds : C → H → T → Prop;
  ctx_source : T → C → option (H * C);
  ctx_get : H → C → option T;
  ctx_peek : H → C → option T;
  ctx_set : H → T → C → option C;
}.

Class SourceContextLaws (C H T : Type) `{SC : SourceContext C H T} : Prop := {
  ctx_source_ok c v : ctx_ok c →
    ∃ h c', ctx_source v c = Some (h, c') ∧ ctx_ok c' ∧ holds c' h v ∧
      ∀ h' v', holds c h' v' → h' ≠ h ∧ holds c' h' v';
  ctx_set_ok c h v v0 : ctx_ok c → holds c h v0 →
    ∃ c', ctx_set h v c = Some c' ∧ ctx_ok c' ∧ holds c' h v ∧
      ∀ h' v', h' ≠ h → holds c h' v' → holds c' h' v';
  ctx_get_ok c h v : holds c h v → ctx_get h c = Some v;
  ctx_peek_ok c h v : holds c h v → ctx_peek h c = Some v;
}.

(** ** Publishing the emissions of a core *)

Section publish.
  Context {C H T : Type} `{SourceContext C H (option T)}.
  Context {S I : Type} (step : S → I → option T * S).

(** A present emission is written to the cell, an absent one touches nothing:
    the projection shared by the rate-shaping and windowing cells. *)
Definition publish (h : H) (emitted : option T) (c : C) : option C :=
  match emitted with Some v => ctx_set h (Some v) c | None => Some c end.

(** A core next to its output source. *)
Record Projected := mkProjected { core_ : S; output_ : H }.

Definition projected_new (s : S) (c : C) : option (Projected * C) :=
  '(h, c) ← ctx_source None c; Some (mkProjected s h, c).

Definition projected_step (cell : Projected) (i : I) (c : C) : option (option T * Projected * C) :=
  let '(emitted, s) := step (core_ cell) i in
  c ← publish (output_ cell) emitted c; Some (emitted, mkProjected s (output_ cell), c).

Definition projected_output (cell : Projected) (c : C) : option (option T) := ctx_get (output_ cell) c.

Fixpoint projected_run (cell : Projected) (ins : list I) (c : C) : option (list (option T) * Projected * C) :=
  match ins with
  | [] => Some ([], cell, c)
  | i :: ins =>
      '(e, cell, c) ← projected_step cell i c;
      '(es, cell, c) ← projected_run cell ins c; Some (e :: es, cell, c)
  end.

(** The last emission, or what was there before. *)
Definition last_emitted (o : option T) (es : list (option T)) : option T :=
  foldl (λ o e, match e with Some v => Some v | None => o end) o es.

Context `{!SourceContextLaws C H (option T)}.

Lemma publish_ok h e o c :
  ctx_ok c → holds c h o →
  ∃ c', publish h e c = Some c' ∧ ctx_ok c' ∧ holds c' h (last_emitted o [e]) ∧
    ∀ h' v', h' ≠ h → holds c h' v' → holds c' h' v'.
Proof. intros Hc Hh. destruct e as [v|]; simpl; [by eapply ctx_set_ok|]. by exists c. Qed.

Lemma projected_run_ok ins : ∀ cell o c,
  ctx_ok c → holds c (output_ cell) o →
  ∃ c', projected_run cell ins c =
      Some ((core_run step (core_ cell) ins).1, mkProjected (core_run step (core_ cell) ins).2 (output_ cell), c') ∧
    ctx_ok c' ∧ holds c' (output_ cell) (last_emitted o (core_run step (core_ cell) ins).1) ∧
    ∀ h' v', h' ≠ output_ cell → holds c h' v' → holds c' h' v'.
Proof.
  induction ins as [|i ins IH]; intros [s h] o c Hc Hh; simpl in *; [by exists c|].
  unfold projected_step. simpl. destruct (step s i) as [e s1].
  destruct (publish_ok h e o c Hc Hh) as (c1 & E1 & Hc1 & Hh1 & Ho1).
  destruct (IH (mkProjected s1 h) _ c1 Hc1 Hh1) as (c2 & E2 & Hc2 & Hh2 & Ho2). simpl in *.
  exists c2. rewrite E1. simpl. rewrite E2. destruct (core_run step s1 ins) as [es s2]. simpl in *.
  split_and!; auto.
Qed.

(** The cell emits what its core emits, and its output reads the last emission. *)
Lemma projected_mirrors_core s ins c :
  ctx_ok c →
  ∃ cell c1 c2, projected_new s c = Some (cell, c1) ∧
    projected_run cell ins c1 = Some ((core_run step s ins).1, mkProjected (core_run step s ins).2 (output_ cell), c2) ∧
    ctx_ok c2 ∧ projected_output (mkProjected (core_run step s ins).2 (output_ cell)) c2 = Some (last_emitted None (core_run step s ins).1) ∧
    ∀ h v, holds c h v → holds c2 h v.
Proof.
  intros Hc. destruct (ctx_source_ok c None Hc) as (h & c1 & E1 & Hc1 & Hh1 & Ho1).
  destruct (projected_run_ok ins (mkProjected s h) None c1 Hc1 Hh1) as (c2 & E2 & Hc2 & Hh2 & Ho2).
  exists (mkProjected s h), c1, c2. unfold projected_new. rewrite E1. simpl. split_and!; [done|done|done| |].
  - by apply ctx_get_ok.
  - intros h' v Hv. destruct (Ho1 _ _ Hv). by apply Ho2.
Qed.

End publish.

(** A cell written out operation by operation, driven through a list of inputs. *)
Section feed.
  Context {C H T : Type} `{SourceContext C H (option T)} {S I : Type}.
  Implicit Types (cstep : Projected (H:=H) (S:=S) → I → C → option (option T * Projected (H:=H) (S:=S) * C)).

Definition feed cstep :=
  fix go (cell : Projected (H:=H) (S:=S)) (ins : list I) (c : C) : option (list (option T) * Projected * C) :=
    match ins with
    | [] => Some ([], cell, c)
    | i :: ins => '(o, cell, c) ← cstep cell i c; '(os, cell, c) ← go cell ins c; Some (o :: os, cell, c)
    end.

Lemma feed_eq (step : S → I → option T * S) cstep :
  (∀ cell i c, cstep cell i c = projected_step step cell i c) →
  ∀ ins cell c, feed cstep cell ins c = projected_run step cell ins c.
Proof.
  intros Ht. induction ins as [|i ins IH]; intros cell c; simpl; [done|]. rewrite Ht.
  destruct (projected_step step cell i c) as [[[o cell'] c']|]; simpl; [|done]. by rewrite IH.
Qed.

Context `{!SourceContextLaws C H (option T)}.

Lemma feed_mirrors_core (step : S → I → option T * S) cstep s ins c :
  ctx_ok c → (∀ cell i c, cstep cell i c = projected_step step cell i c) →
  ∃ cell c1 c2 cell', projected_new s c = Some (cell, c1) ∧
    feed cstep cell ins c1 = Some ((core_run step s ins).1, cell', c2) ∧
    ctx_get (output_ cell') c2 = Some (last_emitted None (core_run step s ins).1) ∧
    ∀ h v, holds c h v → holds c2 h v.
Proof.
  intros Hc Heq. destruct (projected_mirrors_core step s ins c Hc) as (cell & c1 & c2 & E1 & E2 & _ & E3 & Hrest).
  exists cell, c1, c2, (mkProjected (core_run step s ins).2 (output_ cell)).
  rewrite (feed_eq step cstep Heq). by split_and!.
Qed.

End feed.

(** ** Mirroring a view of a core

    The other pattern: a cell holds [view core], and is written when the step
    reports an edge.  It is right when a step without an edge keeps the view. *)
Section mirror.
  Context {C H T : Type} `{SourceContext C H T}.
  Context {S I : Type} (step : S → I → bool * S) (view : S → T).

Record Mirrored := mkMirrored { mcore_ : S; mcell_ : H }.

Definition mirrored_new (s : S) (c : C) : option (Mirrored * C) :=
  '(h, c) ← ctx_source (view s) c; Some (mkMirrored s h, c).

Definition mirrored_step (cell : Mirrored) (i : I) (c : C) : option (bool * Mirrored * C) :=
  let '(edge, s) := step (mcore_ cell) i in
  c ← (if edge then ctx_set (mcell_ cell) (view s) c else Some c);
  Some (edge, mkMirrored s (mcell_ cell), c).

Definition mirrored_read (cell : Mirrored) (c : C) : option T := ctx_get (mcell_ cell) c.

Fixpoint mirrored_run (cell : Mirrored) (ins : list I) (c : C) : option (list bool * Mirrored * C) :=
  match ins with
  | [] => Some ([], cell, c)
  | i :: ins =>
      '(e, cell, c) ← mirrored_step cell i c;
      '(es, cell, c) ← mirrored_run cell ins c; Some (e :: es, cell, c)
  end.

Context `{!SourceContextLaws C H T}.
Context (Hview : ∀ s i, (step s i).1 = false → view (step s i).2 = view s).

Lemma mirrored_run_ok ins : ∀ cell c,
  ctx_ok c → holds c (mcell_ cell) (view (mcore_ cell)) →
  ∃ c', mirrored_run cell ins c =
      Some ((core_run step (mcore_ cell) ins).1, mkMirrored (core_run step (mcore_ cell) ins).2 (mcell_ cell), c') ∧
    ctx_ok c' ∧ holds c' (mcell_ cell) (view (core_run step (mcore_ cell) ins).2) ∧
    ∀ h' v', h' ≠ mcell_ cell → holds c h' v' → holds c' h' v'.
Proof.
  induction ins as [|i ins IH]; intros [s h] c Hc Hh; simpl in *; [by exists c|].
  unfold mirrored_step. simpl. specialize (Hview s i). destruct (step s i) as [e s1]. simpl in *.
  assert (Hpub : ∃ c1, (if e then ctx_set h (view s1) c else Some c) = Some c1 ∧ ctx_ok c1 ∧
    holds c1 h (view s1) ∧ ∀ h' v', h' ≠ h → holds c h' v' → holds c1 h' v').
  { destruct e; [by eapply ctx_set_ok|]. exists c. by rewrite Hview. }
  destruct Hpub as (c1 & E1 & Hc1 & Hh1 & Ho1).
  destruct (IH (mkMirrored s1 h) c1 Hc1 Hh1) as (c2 & E2 & Hc2 & Hh2 & Ho2). simpl in *.
  exists c2. rewrite E1. simpl. rewrite E2. destruct (core_run step s1 ins) as [es s2]. simpl in *.
  split_and!; auto.
Qed.

Lemma mirrored_mirrors_core s ins c :
  ctx_ok c →
  ∃ cell c1 c2, mirrored_new s c = Some (cell, c1) ∧
    mirrored_run cell ins c1 = Some ((core_run step s ins).1, mkMirrored (core_run step s ins).2 (mcell_ cell), c2) ∧
    ctx_ok c2 ∧ mirrored_read (mkMirrored (core_run step s ins).2 (mcell_ cell)) c2 = Some (view (core_run step s ins).2) ∧
    ∀ h v, holds c h v → holds c2 h v.
Proof.
  intros Hc. destruct (ctx_source_ok c (view s) Hc) as (h & c1 & E1 & Hc1 & Hh1 & Ho1).
  destruct (mirrored_run_ok ins (mkMirrored s h) c1 Hc1 Hh1) as (c2 & E2 & Hc2 & Hh2 & Ho2).
  exists (mkMirrored s h), c1, c2. unfold mirrored_new. rewrite E1. simpl. split_and!; [done|done|done| |].
  - by apply ctx_get_ok.
  - intros h' v Hv. destruct (Ho1 _ _ Hv). by apply Ho2.
Qed.

End mirror.

(** ** Refreshing a view of a core

    The third pattern: every operation writes a [view] of its input, its answer
    and the new state to the cell, changed or not, and answers what the core
    answers. *)
Section refresh.
  Context {C H T : Type} `{SourceContext C H T}.
  Context {O S I : Type} (step : S → I → O * S) (view : I → O → S → T).
  Implicit Types (cstep : Mirrored (H:=H) (S:=S) → I → C → option (O * Mirrored (H:=H) (S:=S) * C)).

Definition refreshed_step (cell : Mirrored (H:=H) (S:=S)) (i : I) (c : C) : option (O * Mirrored * C) :=
  let '(o, s) := step (mcore_ cell) i in
  c ← ctx_set (mcell_ cell) (view i o s) c; Some (o, mkMirrored s (mcell_ cell), c).

(** A cell written out operation by operation, driven through a list of inputs. *)
Definition drive cstep :=
  fix go (cell : Mirrored (H:=H) (S:=S)) (ins : list I) (c : C) : option (list O * Mirrored * C) :=
    match ins with
    | [] => Some ([], cell, c)
    | i :: ins => '(o, cell, c) ← cstep cell i c; '(os, cell, c) ← go cell ins c; Some (o :: os, cell, c)
    end.

(** What the clients of such a cell can rely on: created on [c] around the
    state [s] and driven through [ops] it succeeds and answers as its core
    alone, its source then reads what [shown] makes of the answers and the
    final state, and the other sources of [c] keep their values. *)
Definition cell_mirrors (c : C) (made : option (Mirrored (H:=H) (S:=S) * C)) cstep
    (s : S) (ops : list I) (shown : list O → S → T) : Prop :=
  let run := core_run step s ops in
  ∃ h c1 c2, made = Some (mkMirrored s h, c1) ∧
    drive cstep (mkMirrored s h) ops c1 = Some (run.1, mkMirrored run.2 h, c2) ∧
    ctx_get h c2 = Some (shown run.1 run.2) ∧ ∀ h' v, holds c h' v → holds c2 h' v.

(** The view at the last input, [v0] before any. *)
Definition last_view (v0 : T) (ops : list I) (os : list O) (s : S) : T :=
  match last ops, last os with Some i, Some o => view i o s | _, _ => v0 end.

Context `{!SourceContextLaws C H T}.

Lemma refreshed_run_ok cstep ops : (∀ cell i c, cstep cell i c = refreshed_step cell i c) →
  ∀ s h v0 c, ctx_ok c → holds c h v0 →
  let run := core_run step s ops in
  ∃ c', drive cstep (mkMirrored s h) ops c = Some (run.1, mkMirrored run.2 h, c') ∧
    holds c' h (last_view v0 ops run.1 run.2) ∧ ∀ h' v', h' ≠ h → holds c h' v' → holds c' h' v'.
Proof.
  intros Heq. induction ops as [|i ops IH]; intros s h v0 c Hc Hh; [by exists c|].
  simpl. rewrite Heq. unfold refreshed_step. simpl. destruct (step s i) as [o s1].
  destruct (ctx_set_ok c h (view i o s1) v0 Hc Hh) as (c1 & E1 & Hc1 & Hh1 & Ho1).
  destruct (IH s1 h _ c1 Hc1 Hh1) as (c2 & E2 & Hh2 & Ho2). exists c2. rewrite E1. simpl. rewrite E2. simpl.
  pose proof (length_core_run step s1 ops) as Hlen. destruct ops as [|j ops]; [simpl in *; split_and!; [done|exact Hh2|auto]|].
  set (r := core_run step s1 (j :: ops)) in *. destruct r as [os s2]. simpl in Hlen, E2, Hh2, Ho2. simpl.
  split_and!; [done| |auto]. unfold last_view in *. destruct os as [|o' os]; [done|]. rewrite !last_cons_cons.
  destruct (last (j :: ops)) eqn:El, (last (o' :: os)) eqn:El'; solve [exact Hh2|by apply last_None in El|by apply last_None in El'].
Qed.

Lemma refreshed_mirrors_core made cstep s v0 ops c :
  ctx_ok c →
  made = ('(h, c) ← ctx_source v0 c; Some (mkMirrored s h, c)) →
  (∀ cell i c, cstep cell i c = refreshed_step cell i c) →
  cell_mirrors c made cstep s ops (last_view v0 ops).
Proof.
  intros Hc -> Heq. destruct (ctx_source_ok c v0 Hc) as (h & c1 & E1 & Hc1 & Hh1 & Ho1).
  destruct (refreshed_run_ok cstep ops Heq s h v0 c1 Hc1 Hh1) as (c2 & E2 & Hh2 & Ho2).
  exists h, c1, c2. rewrite E1. split_and!; [done|done|by apply ctx_get_ok|].
  intros h' v Hv. destruct (Ho1 _ _ Hv). auto.
Qed.

(** The same with the shown value described otherwise. *)
Lemma cell_mirrors_shown c made cstep s ops shown shown' :
  shown (core_run step s ops).1 (core_run step s ops).2 = shown' (core_run step s ops).1 (core_run step s ops).2 →
  cell_mirrors c made cstep s ops shown → cell_mirrors c made cstep s ops shown'.
Proof. intros E (h & c1 & c2 & ? & ? & Hg & ?). exists h, c1, c2. rewrite E in Hg. by split_and!. Qed.

End refresh.

(** A view of the state alone, which the initial value already shows. *)
Lemma refreshed_view {C H T O S I : Type} `{SourceContextLaws C H T} (step : S → I → O * S) (view : S → T) made cstep s ops c :
  ctx_ok c →
  made = ('(h, c) ← ctx_source (view s) c; Some (mkMirrored s h, c)) →
  (∀ cell i c, cstep cell i c = refreshed_step step (λ _ _, view) cell i c) →
  cell_mirrors step c made cstep s ops (λ _, view).
Proof.
  intros Hc Hm Heq. eapply cell_mirrors_shown; [|by eapply refreshed_mirrors_core]. unfold last_view.
  pose proof (length_core_run step s ops) as Hlen. destruct ops as [|i ops]; [done|].
  destruct (last (i :: ops)) eqn:E; [|by apply last_None in E].
  destruct (last (core_run step s (i :: ops)).1) eqn:E'; [done|]. apply last_None in E'. by rewrite E' in Hlen.
Qed.

(** ** The engine implements the interface *)

(** The engine's cells are typed one by one, the model draws their values from
    one type; a cell type is a part of it. *)
Class Embed (T V : Type) := { inj : T → V; proj : V → option T; proj_inj t : proj (inj t) = Some t }.

#[export] Instance embed_self {V} : Embed V V | 10 := { inj v := v; proj := Some; proj_inj t := eq_refl }.
#[export, refine] Instance embed_inl {T A B} `{Embed T A} : Embed T (A + B) | 20 :=
  { inj t := inl (inj t); proj v := match v with inl a => proj a | _ => None end; proj_inj _ := _ }.
Proof. apply proj_inj. Defined.
#[export, refine] Instance embed_inr {T A B} `{Embed T B} : Embed T (A + B) | 20 :=
  { inj t := inr (inj t); proj v := match v with inr b => proj b | _ => None end; proj_inj _ := _ }.
Proof. apply proj_inj. Defined.

Section kernel.
  Context {V : Type} `{EqDecision V} {T : Type} `{Embed T V}.

(** The budget of a write that schedules no effect. *)
Definition write_fuel : nat := 2.

Definition cell_holds (c : Ctx V) (h : Handle) (v : V) : Prop :=
  h_generation h = 0 ∧ ∃ d, get_cell_node c (h_id h) = Some (mkCell v d).

#[export] Instance kernel_sources : SourceContext (Ctx V) Handle T := {
  ctx_ok (c : Ctx V) := ∃ g, settled_ctx g c;
  holds (c : Ctx V) h (v : T) := cell_holds c h (inj v);
  ctx_source (v : T) (c : Ctx V) := match source (inj v) c with (Val h, c) => Some (h, c) | _ => None end;
  ctx_get h (c : Ctx V) := match get_source h c with (Val v, _) => proj v | _ => None end;
  ctx_peek h (c : Ctx V) := peek_cell h c ≫= proj;
  ctx_set h (v : T) (c : Ctx V) := match set_source write_fuel h (inj v) c with (Val _, c) => Some c | _ => None end;
}.

Lemma settled_holds (g : list (spec_node (V:=V))) (c : Ctx V) (i : SlotId) (v : V) : settled_ctx g c →
  g !! i = Some (SSource v) ↔ ∃ d, get_cell_node c i = Some (mkCell v d).
Proof.
  intros Hs. unfold get_cell_node, get_node. pose proof (inv_dom _ _ _ _ (st_inv _ _ Hs) i) as Hd. unfold node_matches in Hd.
  destruct (g !! i) as [[w|p]|], (nodes c !! i) as [[s|[w' d]|e]|]; simpl in *; try naive_solver.
Qed.

Lemma source_settled g (c : Ctx V) (v : V) : settled_ctx g c →
  ∃ c', source v c = (Val (handle (length g)), c') ∧ settled_ctx (g ++ [SSource v]) c'.
Proof.
  intros Hs. destruct (run_op_ok g (2 + length g) (OpSource v) c Hs I) as (a & g' & c' & E & Es & Hs' & _); [lia|lia|].
  simpl in Es. injection Es as <- <-. unfold run_op, mbind, M_bind in E.
  destruct (source v c) as [[h| | |] c1] eqn:E1; try done. injection E as -> ->. eauto.
Qed.

Lemma set_settled g (c : Ctx V) (i : SlotId) (v v0 : V) : settled_ctx g c → g !! i = Some (SSource v0) →
  ∃ c', set_source write_fuel (handle i) v c = (Val tt, c') ∧ settled_ctx (spec_write g (i, v)) c'.
Proof.
  intros Hs Hgi. assert (Hi : is_source g i) by (unfold is_source; by rewrite Hgi).
  destruct (set_now_ok g write_fuel i v c) as (ns & E2 & HI & Hid);
    [|apply Hs|exact (st_guards _ _ Hs)|done|].
  { unfold is_batching. by rewrite (proj1 (st_batch _ _ Hs)). }
  exists (set_nodes ns c). split; [exact E2|]. eapply settled_nodes; [done|done|apply length_insert|done].
Qed.

#[export] Instance kernel_sources_laws : SourceContextLaws (Ctx V) Handle T.
Proof.
  split.
  - intros c v [g Hs]. destruct (source_settled g c (inj v) Hs) as (c' & E & Hs').
    exists (handle (length g)), c'. unfold ctx_source. simpl. rewrite E. split_and!; [done|by eexists| |].
    + split; [done|]. simpl. apply (settled_holds _ _ _ _ Hs'). by apply list_lookup_middle.
    + intros h v' (Hg & d & Hh). assert (Hg' : g !! h_id h = Some (SSource (inj v'))) by (apply (settled_holds _ _ _ _ Hs); eauto).
      pose proof (lookup_lt_Some _ _ _ Hg'). split; [intros ->; simpl in *; lia|].
      split; [done|]. apply (settled_holds _ _ _ _ Hs'). by apply lookup_app_l_Some.
  - intros c h v v0 [g Hs] (Hg & Hh). apply (settled_holds _ _ _ _ Hs) in Hh as Hgi.
    destruct h as [i gen]. simpl in *. subst gen.
    destruct (set_settled g c i (inj v) (inj v0) Hs Hgi) as (c' & E & Hs').
    exists c'. unfold ctx_set. simpl. change (mkHandle i 0) with (handle i). rewrite E.
    split_and!; [done|by eexists| |].
    + split; [done|]. apply (settled_holds _ _ _ _ Hs'). unfold spec_write. simpl.
      by rewrite list_lookup_insert_eq by (by eapply lookup_lt_Some).
    + intros [j gj] v' Hne (Hgj & Hh'). simpl in *. subst gj. split; [done|].
      apply (settled_holds _ _ _ _ Hs'). unfold spec_write. simpl.
      rewrite list_lookup_insert_ne by (intros ->; by apply Hne). by apply (settled_holds _ _ _ _ Hs).
  - intros c h v (_ & d & Hh). unfold ctx_get. simpl. unfold get_source, read_cell. rewrite Hh. apply proj_inj.
  - intros c h v (_ & d & Hh). unfold ctx_peek. simpl. unfold peek_cell. rewrite Hh. apply proj_inj.
Qed.

Lemma empty_ctx_ok : ctx_ok (empty_ctx : Ctx V).
Proof. exists []. apply empty_settled. Qed.

End kernel.
