(* ===== verification/Temporal.v ===== *)
(** * Temporal: logical-clock sources

    Models include/lazily/temporal.hpp: the timer, interval, cron and deadline
    cores over unsigned 64-bit times, and the cells that publish them. *)
From S2P Require Import Prelude Kernel KernelCorrect Reactive.
#[local] Open Scope Z_scope.

(** ** Cores *)

(* include/lazily/temporal.hpp:53-53, ManualClock (data members) *)
Record ManualClock := mkClock { now_ : Z }.

(* include/lazily/temporal.hpp:47-50, ManualClock::advance *)
Definition clock_advance (c : ManualClock) (now : Z) : Z * ManualClock :=
  let now := Z.max (now_ c) now in (now, mkClock now).

(* include/lazily/temporal.hpp:83-84, TimerCore (data members) *)
Record TimerCore := mkTimer { fire_at_ : Z; fired_ : bool }.

(* include/lazily/temporal.hpp:64-64, TimerCore::TimerCore *)
Definition timer_new (fire_at : Z) : TimerCore := mkTimer fire_at false.

(* include/lazily/temporal.hpp:68-72, TimerCore::tick *)
Definition timer_tick (t : TimerCore) (now : Z) : bool * TimerCore :=
  if fired_ t || (now <? fire_at_ t) then (false, t) else (true, mkTimer (fire_at_ t) true).

(* include/lazily/temporal.hpp:74-77, TimerCore::next_fire *)
Definition timer_next_fire (t : TimerCore) : option Z := if fired_ t then None else Some (fire_at_ t).

(* include/lazily/temporal.hpp:160-162, IntervalCore (data members) *)
Record IntervalCore := mkInterval { period_ : Z; next_ : Z; count_ : Z }.

(* include/lazily/temporal.hpp:133-134, IntervalCore::IntervalCore *)
Definition interval_new (period : Z) : IntervalCore := mkInterval (Z.max period 1) (Z.max period 1) 0.

(* include/lazily/temporal.hpp:155-158, IntervalCore::fires_this_tick *)
Definition fires_this_tick (t : IntervalCore) (now : Z) : Z :=
  if now <? next_ t then 0 else u64 (u64 (now - next_ t) / period_ t + 1).

(* include/lazily/temporal.hpp:138-144, IntervalCore::tick *)
Definition interval_tick (t : IntervalCore) (now : Z) : bool * IntervalCore :=
  let fires := fires_this_tick t now in
  if fires =? 0 then (false, t)
  else (true, mkInterval (period_ t) (u64 (next_ t + u64 (fires * period_ t))) (u64 (count_ t + fires))).

(* include/lazily/temporal.hpp:146-146, IntervalCore::next_fire *)
Definition interval_next_fire (t : IntervalCore) : option Z := Some (next_ t).

(* include/lazily/temporal.hpp:196-200, cron_count_upto *)
Definition cron_count_upto (n o cycle : Z) : Z :=
  if o =? 0 then n / cycle else if o <=? n then u64 ((n - o) / cycle + 1) else 0.

(** [std::unique] keeps the first of every run of equal elements. *)
Fixpoint unique (l : list Z) : list Z :=
  match l with
  | x :: (y :: _) as l => if x =? y then unique l else x :: unique l
  | l => l
  end.

(* include/lazily/temporal.hpp:261-264, CronCore (data members) *)
Record CronCore := mkCron { cycle_ : Z; offsets_ : list Z; cursor_ : Z; cron_count_ : Z }.

(* include/lazily/temporal.hpp:208-216, CronCore::CronCore *)
Definition cron_new (cycle : Z) (offsets : list Z) : CronCore :=
  let cycle := Z.max cycle 1 in
  mkCron cycle (unique (merge_sort Z.le ((λ o, o mod cycle) <$> offsets))) 0 0.

(* include/lazily/temporal.hpp:254-259, CronCore::matches_in *)
Definition matches_in (t : CronCore) (lo hi : Z) : Z :=
  foldl (λ total o, u64 (total + u64 (cron_count_upto hi o (cycle_ t) - cron_count_upto lo o (cycle_ t)))) 0 (offsets_ t).

(* include/lazily/temporal.hpp:220-230, CronCore::tick *)
Definition cron_tick (t : CronCore) (now : Z) : bool * CronCore :=
  if now <=? cursor_ t
  then (false, mkCron (cycle_ t) (offsets_ t) (Z.max (cursor_ t) now) (cron_count_ t))
  else
    let fires := matches_in t (cursor_ t) now in
    if fires =? 0 then (false, mkCron (cycle_ t) (offsets_ t) now (cron_count_ t))
    else (true, mkCron (cycle_ t) (offsets_ t) now (u64 (cron_count_ t + fires))).

(** The first offset of the block whose candidate is not before [start]. *)
Fixpoint first_candidate (block start : Z) (offsets : list Z) : option Z :=
  match offsets with
  | [] => None
  | o :: offsets =>
      let cand := u64 (block + o) in
      if start <=? cand then Some cand else first_candidate block start offsets
  end.

(* include/lazily/temporal.hpp:232-246, CronCore::next_fire *)
Definition cron_next_fire (t : CronCore) : option Z :=
  if bool_decide (offsets_ t = []) then None
  else
    let start := u64 (cursor_ t + 1) in
    let base := u64 (start / cycle_ t * cycle_ t) in
    match first_candidate (u64 (base + u64 (0 * cycle_ t))) start (offsets_ t) with
    | Some cand => Some cand
    | None => first_candidate (u64 (base + u64 (1 * cycle_ t))) start (offsets_ t)
    end.

(* include/lazily/temporal.hpp:297-315, Deadlined *)
Inductive Deadlined (T : Type) := Live (value : T) | Expired (value : T).
Arguments Live {_} _.
Arguments Expired {_} _.

(* include/lazily/temporal.hpp:319-334, DeadlineCore *)
Definition DeadlineCore : Type := TimerCore.

(* include/lazily/temporal.hpp:325-325, DeadlineCore::tick *)
Definition deadline_tick : DeadlineCore → Z → bool * DeadlineCore := timer_tick.

(** ** Cells

    A cell is its core and the source it publishes to. *)
Section cells.
  Context {C H : Type} `{SourceContext C H bool} `{SourceContext C H Z}.

(* include/lazily/temporal.hpp:91-93, TimerCell::TimerCell *)
Definition timer_cell_new (fire_at : Z) (c : C) : option (Mirrored (H:=H) (S:=TimerCore) * C) :=
  '(fired, c) ← ctx_source false c; Some (mkMirrored (timer_new fire_at) fired, c).

(* include/lazily/temporal.hpp:97-101, TimerCell::tick *)
Definition timer_cell_tick (cell : Mirrored (H:=H)) (now : Z) (c : C) : option (bool * Mirrored * C) :=
  let '(edge, core) := timer_tick (mcore_ cell) now in
  c ← (if edge then ctx_set (mcell_ cell) true c else Some c);
  Some (edge, mkMirrored core (mcell_ cell), c).

(* include/lazily/temporal.hpp:104-104, TimerCell::has_fired *)
Definition timer_cell_has_fired (cell : Mirrored (H:=H) (S:=TimerCore)) (c : C) : option bool := ctx_get (mcell_ cell) c.

(* include/lazily/temporal.hpp:109-112, TimerCell::value *)
Definition timer_cell_value (cell : Mirrored (H:=H) (S:=TimerCore)) (c : C) : option (option bool) :=
  fired ← ctx_get (mcell_ cell) c; Some (if (fired : bool) then Some true else None).

(* include/lazily/temporal.hpp:167-169, IntervalCell::IntervalCell *)
Definition interval_cell_new (period : Z) (c : C) : option (Mirrored (H:=H) (S:=IntervalCore) * C) :=
  '(count, c) ← ctx_source 0 c; Some (mkMirrored (interval_new period) count, c).

(* include/lazily/temporal.hpp:173-177, IntervalCell::tick *)
Definition interval_cell_tick (cell : Mirrored (H:=H)) (now : Z) (c : C) : option (bool * Mirrored * C) :=
  let '(edge, core) := interval_tick (mcore_ cell) now in
  c ← (if edge then ctx_set (mcell_ cell) (count_ core) c else Some c);
  Some (edge, mkMirrored core (mcell_ cell), c).

(* include/lazily/temporal.hpp:268-271, CronCell::CronCell *)
Definition cron_cell_new (cycle : Z) (offsets : list Z) (c : C) : option (Mirrored (H:=H) (S:=CronCore) * C) :=
  '(count, c) ← ctx_source 0 c; Some (mkMirrored (cron_new cycle offsets) count, c).

(* include/lazily/temporal.hpp:273-277, CronCell::tick *)
Definition cron_cell_tick (cell : Mirrored (H:=H)) (now : Z) (c : C) : option (bool * Mirrored * C) :=
  let '(edge, core) := cron_tick (mcore_ cell) now in
  c ← (if edge then ctx_set (mcell_ cell) (cron_count_ core) c else Some c);
  Some (edge, mkMirrored core (mcell_ cell), c).

(* include/lazily/temporal.hpp:338-348, DeadlineCell::tick *)
Definition deadline_cell_tick (cell : Mirrored (H:=H)) (now : Z) (c : C) : option (bool * Mirrored * C) :=
  let '(edge, core) := deadline_tick (mcore_ cell) now in
  c ← (if edge then ctx_set (mcell_ cell) true c else Some c);
  Some (edge, mkMirrored core (mcell_ cell), c).

(** The preserved value is a field of the cell. *)
(* include/lazily/temporal.hpp:351-354, DeadlineCell::state *)
Definition deadline_cell_state {T} (value : T) (cell : Mirrored (H:=H) (S:=DeadlineCore)) (c : C) : option (Deadlined T) :=
  expired ← ctx_get (mcell_ cell) c; Some (if (expired : bool) then Expired value else Live value).

End cells.

(** ** Timers fire exactly once *)

Lemma timer_fired_run nows fire_at : core_run timer_tick (mkTimer fire_at true) nows =
  (replicate (length nows) false, mkTimer fire_at true).
Proof. induction nows as [|now nows IH]; simpl; [done|]. by rewrite IH. Qed.

Lemma timer_run_edges nows : ∀ fire_at i,
  (core_run timer_tick (timer_new fire_at) nows).1 !! i = Some true ↔
  (∃ now, nows !! i = Some now ∧ fire_at ≤ now) ∧ ∀ j now, (j < i)%nat → nows !! j = Some now → now < fire_at.
Proof.
  induction nows as [|now nows IH]; intros fire_at i.
  { simpl. rewrite lookup_nil. naive_solver. }
  cbn [core_run]. unfold timer_tick at 1. simpl. destruct (now <? fire_at) eqn:E; zify_bools.
  - change (mkTimer fire_at false) with (timer_new fire_at). specialize (IH fire_at).
    unfold timer_new in *. destruct (core_run timer_tick (mkTimer fire_at false) nows) as [es t]. simpl in *.
    destruct i as [|i]; simpl.
    + split; [done|]. intros [(? & [= <-] & ?) _]. lia.
    + rewrite IH. split; intros [Hi Hj]; (split; [done|]).
      * intros [|j] now' Hlt Hl; simpl in Hl; [by simplify_eq|]. apply (Hj j); [lia|done].
      * intros j now' Hlt Hl. apply (Hj (S j)); [lia|done].
  - rewrite timer_fired_run. simpl. destruct i as [|i]; simpl.
    + split; [|done]. intros _. split; [eauto|]. intros; lia.
    + split.
      * intros Hi%list_elem_of_lookup_2%elem_of_replicate. by destruct Hi.
      * intros [_ Hj]. specialize (Hj 0%nat now ltac:(lia) eq_refl). lia.
Qed.

(** ** Intervals count boundaries *)

Definition latest (nows : list Z) : Z := foldl Z.max 0 nows.

Lemma latest_snoc nows now : latest (nows ++ [now]) = Z.max (latest nows) now.
Proof. unfold latest. by rewrite foldl_app. Qed.

Lemma latest_nonneg nows : 0 ≤ latest nows.
Proof. induction nows as [|now nows IH] using rev_ind; [done|]. rewrite latest_snoc. lia. Qed.

(** The frontier of an interval whose clock has reached [m]. *)
Definition interval_at (p m : Z) : IntervalCore := mkInterval p ((m / p + 1) * p) (m / p).

Lemma interval_tick_at p m now :
  1 ≤ p → 0 ≤ m → 0 ≤ now → m + p < two64 → now + p < two64 →
  interval_tick (interval_at p m) now = (m / p <? Z.max m now / p, interval_at p (Z.max m now)).
Proof.
  intros Hp Hm Hnow Hmb Hnb. unfold interval_tick, fires_this_tick, interval_at. simpl.
  assert (Hq : 0 ≤ m / p) by (apply Z.div_pos; lia).
  assert (Hmp : m / p * p ≤ m) by (rewrite Z.mul_comm; apply Z.mul_div_le; lia).
  destruct (now <? (m / p + 1) * p) eqn:E; zify_bools.
  - rewrite Z.eqb_refl. assert (Hsame : Z.max m now / p = m / p).
    { destruct (Z.max_spec m now) as [[? ->]|[? ->]]; [|done]. symmetry.
      apply Z.div_unique with (r := now - p * (m / p)); [|lia]. left.
      pose proof (Z.mod_pos_bound m p ltac:(lia)). pose proof (Z.div_mod m p ltac:(lia)). lia. }
    rewrite Hsame. f_equal. symmetry. apply Z.ltb_ge. lia.
  - assert (Hmax : Z.max m now = now).
    { apply Z.max_r. pose proof (Z.mod_pos_bound m p ltac:(lia)). pose proof (Z.div_mod m p ltac:(lia)). nia. }
    rewrite Hmax.
    assert (Hsub : u64 (now - (m / p + 1) * p) = now - (m / p + 1) * p) by (apply u64_small; unfold is_u64; nia).
    assert (Hdiv : (now - (m / p + 1) * p) / p = now / p - (m / p + 1)).
    { replace (now - (m / p + 1) * p) with (now + (- (m / p + 1)) * p) by lia. rewrite Z.div_add by lia. lia. }
    assert (Hge : m / p + 1 ≤ now / p) by (apply Z.div_le_lower_bound; lia).
    assert (Hnp : now / p * p ≤ now) by (rewrite Z.mul_comm; apply Z.mul_div_le; lia).
    assert (Hle : now / p ≤ now) by (apply Z.div_le_upper_bound; nia).
    rewrite Hsub, Hdiv. rewrite (u64_small (_ + 1)) by (unfold is_u64; lia).
    replace (now / p - (m / p + 1) + 1) with (now / p - m / p) by lia.
    destruct (now / p - m / p =? 0) eqn:E0; zify_bools; [lia|].
    rewrite (u64_small ((now / p - m / p) * p)) by (unfold is_u64; nia).
    rewrite !u64_small by (unfold is_u64; nia).
    f_equal; [symmetry; apply Z.ltb_lt; lia|]. f_equal; nia.
Qed.

Lemma interval_run_at period nows :
  is_u64 period → (∀ now, now ∈ nows → 0 ≤ now ∧ now + Z.max period 1 < two64) →
  (core_run interval_tick (interval_new period) nows).2 = interval_at (Z.max period 1) (latest nows) ∧
  latest nows + Z.max period 1 < two64.
Proof.
  intros Hp. unfold is_u64, two64 in Hp. induction nows as [|now nows IH] using rev_ind; intros Hn.
  { unfold latest, interval_at, interval_new, two64. simpl. rewrite Z.div_0_l by lia. split; [|lia]. f_equal; lia. }
  destruct IH as [IH Hb]; [intros; apply Hn; set_solver|].
  destruct (Hn now) as [Hnow Hnb]; [set_solver|].
  rewrite core_run_snoc. destruct (core_run interval_tick (interval_new period) nows) as [es t]. simpl in IH. subst t. cbn [fst snd].
  rewrite latest_snoc, interval_tick_at; [|lia|apply latest_nonneg|lia..]. simpl. split; [done|lia].
Qed.

(** An interval counts every boundary exactly once.  After any sequence of
    ticks, backwards ones and jumps over many boundaries included, the count is
    the number of multiples of the period up to the latest time seen and the
    next fire is the following multiple; and a further tick reports an edge
    exactly when it crosses a boundary. *)
Theorem interval_counts_boundaries (period : Z) (nows : list Z) (now : Z) :
  is_u64 period → (∀ t, t ∈ now :: nows → 0 ≤ t ∧ t + Z.max period 1 < two64) →
  let p := Z.max period 1 in
  let core := (core_run interval_tick (interval_new period) nows).2 in
  count_ core = latest nows / p ∧
  interval_next_fire core = Some ((latest nows / p + 1) * p) ∧
  (interval_tick core now).1 = (latest nows / p <? Z.max (latest nows) now / p).
Proof.
  intros Hp Hn p core. destruct (interval_run_at period nows Hp) as [Hc Hb].
  { intros t Ht. apply Hn. by right. }
  unfold core. rewrite Hc. destruct (Hn now) as [Hnow Hnb]; [left|].
  rewrite interval_tick_at; [done|lia|apply latest_nonneg|lia..].
Qed.

Lemma interval_counts_boundaries_witness :
  let core := (core_run interval_tick (interval_new 10) [7; 35; 20]).2 in
  count_ core = 35 / 10 ∧ interval_next_fire core = Some ((35 / 10 + 1) * 10) ∧
  (interval_tick core 40).1 = (35 / 10 <? 40 / 10).
Proof.
  apply (interval_counts_boundaries 10 [7; 35; 20] 40); [unfold is_u64, two64; lia|].
  intros t Ht. repeat (apply elem_of_cons in Ht as [->|Ht]; [unfold two64; lia|]). by apply elem_of_nil in Ht.
Defined.

(** A timer fires exactly once, at the first tick that reaches its time:
    the [i]-th tick reports the edge if and only if it is the first one at or
    after [fire_at]. *)
Theorem timer_fires_exactly_once (fire_at : Z) (nows : list Z) (i : nat) :
  (core_run timer_tick (timer_new fire_at) nows).1 !! i = Some true ↔
  (∃ now, nows !! i = Some now ∧ fire_at ≤ now) ∧ ∀ j now, (j < i)%nat → nows !! j = Some now → now < fire_at.
Proof. apply timer_run_edges. Qed.

(** ** Cron *)

(** The fire times: positive, with a residue among the offsets. *)
Definition cron_match (cycle : Z) (offsets : list Z) (m : Z) : Prop := 1 ≤ m ∧ m mod cycle ∈ offsets.

#[export] Instance cron_match_dec cycle offsets m : Decision (cron_match cycle offsets m).
Proof. unfold cron_match. apply _. Defined.

Definition cron_matches (cycle : Z) (offsets : list Z) (n : Z) : Z :=
  Z.of_nat (occ (cron_match cycle offsets) (seqZ 1 n)).

Lemma seqZ_snoc n : 0 ≤ n → seqZ 1 (n + 1) = seqZ 1 n ++ [n + 1].
Proof. intros. rewrite seqZ_app by lia. f_equal. rewrite seqZ_cons by lia. f_equal; lia. Qed.

Lemma cron_matches_succ cycle offsets n :
  0 ≤ n → cron_matches cycle offsets (n + 1) =
    cron_matches cycle offsets n + (if decide ((n + 1) mod cycle ∈ offsets) then 1 else 0).
Proof.
  intros Hn. unfold cron_matches, occ. rewrite seqZ_snoc by done. rewrite filter_app, length_app, filter_cons, filter_nil.
  assert (Hiff : cron_match cycle offsets (n + 1) ↔ (n + 1) mod cycle ∈ offsets) by (unfold cron_match; intuition lia).
  repeat case_decide; simpl; try tauto; lia.
Qed.

Lemma div_succ n c : 0 < c → (n + 1) / c = n / c + (if decide ((n + 1) mod c = 0) then 1 else 0).
Proof.
  intros Hc. pose proof (Z.div_mod n c ltac:(lia)). pose proof (Z.mod_pos_bound n c Hc).
  destruct (decide (n mod c = c - 1)) as [Heq|Hne].
  - assert (Hd : (n + 1) / c = n / c + 1) by (symmetry; apply Z.div_unique with (r := 0); [left; lia|lia]).
    rewrite decide_True; [done|]. pose proof (Z.div_mod (n + 1) c ltac:(lia)). nia.
  - assert (Hd : (n + 1) / c = n / c) by (symmetry; apply Z.div_unique with (r := n mod c + 1); [left; lia|lia]).
    rewrite decide_False; [lia|]. pose proof (Z.div_mod (n + 1) c ltac:(lia)). nia.
Qed.

Lemma cron_count_succ n o c :
  0 < c → 0 ≤ o < c → 0 ≤ n → n + 1 < two64 →
  cron_count_upto (n + 1) o c = cron_count_upto n o c + (if decide ((n + 1) mod c = o) then 1 else 0).
Proof.
  intros Hc Ho Hn Hb. unfold cron_count_upto. destruct (o =? 0) eqn:E0; zify_bools; [subst; by apply div_succ|].
  assert (Hq : ∀ x, 0 ≤ x ≤ n + 1 → 0 ≤ x / c ≤ x).
  { intros x Hx. split; [apply Z.div_pos; lia|apply Z.div_le_upper_bound; nia]. }
  destruct (o <=? n) eqn:E1; zify_bools.
  - destruct (o <=? n + 1) eqn:E2; zify_bools; [|lia].
    pose proof (Hq (n - o) ltac:(lia)). pose proof (Hq (n + 1 - o) ltac:(lia)).
    rewrite !u64_small by (unfold is_u64; lia).
    replace (n + 1 - o) with (n - o + 1) by lia. rewrite div_succ by done.
    assert (Hiff : (n - o + 1) mod c = 0 ↔ (n + 1) mod c = o).
    { replace (n - o + 1) with (n + 1 - o) by lia. pose proof (Z.mod_pos_bound (n + 1) c Hc).
      rewrite Zminus_mod, (Z.mod_small o) by lia. split.
      - intros Hz. apply Z.mod_divide in Hz as [q Hq']; [|lia]. assert (q = 0) as -> by nia. lia.
      - intros ->. by rewrite Z.sub_diag, Z.mod_0_l by lia. }
    repeat case_decide; try tauto; lia.
  - destruct (o <=? n + 1) eqn:E2; zify_bools.
    + assert (o = n + 1) as -> by lia. rewrite Z.sub_diag, Z.div_0_l by lia.
      rewrite (Z.mod_small (n + 1)) by lia. rewrite decide_True by done. rewrite u64_small; [lia|].
      unfold is_u64, two64. lia.
    + rewrite (Z.mod_small (n + 1)) by lia. rewrite decide_False; lia.
Qed.

Definition zsum (l : list Z) : Z := foldr Z.add 0 l.

Lemma foldl_u64_sum {A} (f : A → Z) l a : foldl (λ t x, u64 (t + u64 (f x))) (u64 a) l = u64 (a + zsum (f <$> l)).
Proof.
  revert a. induction l as [|x l IH]; intros a; csimpl; [f_equal; lia|].
  assert (E : u64 (u64 a + u64 (f x)) = u64 (a + f x)) by (unfold u64; by rewrite <- Zplus_mod).
  rewrite E, IH. f_equal. unfold zsum. simpl. lia.
Qed.

Lemma zsum_indicator (l : list Z) x : NoDup l →
  zsum ((λ o, if decide (x = o) then 1 else 0) <$> l) = if decide (x ∈ l) then 1 else 0.
Proof.
  induction 1 as [|y l Hy Hnd IH]; csimpl; [done|]. unfold zsum at 1. simpl. fold (zsum ((λ o, if decide (x = o) then 1 else 0) <$> l)).
  rewrite IH. repeat case_decide; subst; set_solver.
Qed.

Lemma zsum_add {A} (f g : A → Z) l : zsum ((λ x, f x + g x) <$> l) = zsum (f <$> l) + zsum (g <$> l).
Proof. induction l as [|x l IH]; csimpl; [done|]. unfold zsum in *. simpl. lia. Qed.

Lemma zsum_ext {A} (f g : A → Z) l : (∀ x, x ∈ l → f x = g x) → zsum (f <$> l) = zsum (g <$> l).
Proof.
  induction l as [|x l IH]; csimpl; intros Hl; [done|]. unfold zsum in *. simpl. rewrite (Hl x) by left.
  rewrite IH; [done|]. intros; apply Hl; by right.
Qed.

Lemma zsum_zero {A} (l : list A) : zsum ((λ _, 0) <$> l) = 0.
Proof. induction l as [|x l IH]; csimpl; [done|]. unfold zsum in *. simpl. lia. Qed.

(** The arithmetic count over all offsets is the number of matches. *)
Lemma cron_sum_matches c offsets n :
  0 < c → NoDup offsets → (∀ o, o ∈ offsets → 0 ≤ o < c) → 0 ≤ n → n < two64 →
  zsum ((λ o, cron_count_upto n o c) <$> offsets) = cron_matches c offsets n.
Proof.
  intros Hc Hnd Ho Hn. revert n Hn. refine (natlike_ind _ _ _).
  - intros _. unfold cron_matches, occ. simpl.
    assert (E : zsum ((λ o, cron_count_upto 0 o c) <$> offsets) = zsum ((λ _, 0) <$> offsets)).
    { apply zsum_ext. intros o Hin. destruct (Ho o Hin). unfold cron_count_upto.
      destruct (o =? 0) eqn:E0; zify_bools; [by rewrite Z.div_0_l by lia|].
      destruct (o <=? 0) eqn:E1; zify_bools; [lia|done]. }
    rewrite E. apply zsum_zero.
  - intros n Hn IH Hb. rewrite <- Z.add_1_r in *. rewrite cron_matches_succ, <- IH by lia.
    rewrite <- zsum_indicator, <- zsum_add by done. apply zsum_ext. intros o Hin. apply cron_count_succ; auto; lia.
Qed.

Lemma unique_elem l x : x ∈ unique l ↔ x ∈ l.
Proof.
  induction l as [|y [|z l] IH]; [done..|]. cbn [unique]. destruct (y =? z) eqn:E; zify_bools.
  - subst. rewrite IH. set_solver.
  - rewrite !elem_of_cons, IH. set_solver.
Qed.

Lemma unique_sorted l : StronglySorted Z.le l → StronglySorted Z.lt (unique l).
Proof.
  induction l as [|y [|z l] IH]; intros Hs; [constructor|by repeat constructor|].
  apply StronglySorted_inv in Hs as [Hs Hy].
  change (unique (y :: z :: l)) with (if y =? z then unique (z :: l) else y :: unique (z :: l)). destruct (y =? z) eqn:E; zify_bools; [by apply IH|].
  constructor; [by apply IH|]. apply Forall_forall. intros x Hx. apply (proj1 (unique_elem (z :: l) x)) in Hx.
  rewrite Forall_forall in Hy. pose proof (Hy z ltac:(left)). apply StronglySorted_inv in Hs as [_ Hz].
  rewrite Forall_forall in Hz. apply elem_of_cons in Hx as [->|Hx]; [lia|]. specialize (Hz x Hx). lia.
Qed.

Lemma sorted_lt_nodup l : StronglySorted Z.lt l → NoDup l.
Proof.
  induction 1 as [|x l Hs IH Hx]; constructor; [|done]. intros Hin. rewrite Forall_forall in Hx.
  specialize (Hx x Hin). lia.
Qed.

(** The reduced offsets: the residues, in increasing order. *)
Definition reduced (c : Z) (offsets : list Z) : list Z := unique (merge_sort Z.le ((λ o, o mod c) <$> offsets)).

Lemma reduced_elem c offsets o : o ∈ reduced c offsets ↔ ∃ x, o = x mod c ∧ x ∈ offsets.
Proof. unfold reduced. rewrite unique_elem, merge_sort_Permutation. apply list_elem_of_fmap. Qed.

Lemma reduced_range c offsets o : 0 < c → o ∈ reduced c offsets → 0 ≤ o < c.
Proof. intros Hc (x & -> & _)%reduced_elem. by apply Z.mod_pos_bound. Qed.

Lemma reduced_sorted c offsets : StronglySorted Z.lt (reduced c offsets).
Proof. apply unique_sorted, (StronglySorted_merge_sort Z.le). Qed.

Definition cron_at (c : Z) (offs : list Z) (m : Z) : CronCore := mkCron c offs m (cron_matches c offs m).

Lemma cron_matches_mono c offs m n : 0 ≤ m → m ≤ n → cron_matches c offs m ≤ cron_matches c offs n ≤ cron_matches c offs m + (n - m).
Proof.
  intros Hm Hmn. replace n with (m + (n - m)) by lia. assert (Hd : 0 ≤ n - m) by lia. revert Hd.
  generalize (n - m). clear n Hmn. refine (natlike_ind _ _ _).
  - rewrite Z.add_0_r. lia.
  - intros k Hk IH. rewrite <- Z.add_1_r, Z.add_assoc, cron_matches_succ by lia. case_decide; lia.
Qed.

Lemma cron_matches_bound c offs n : 0 ≤ n → 0 ≤ cron_matches c offs n ≤ n.
Proof.
  intros Hn. pose proof (cron_matches_mono c offs 0 n ltac:(lia) Hn).
  assert (E : cron_matches c offs 0 = 0) by done. lia.
Qed.

Lemma matches_in_spec c offs k m now :
  0 < c → NoDup offs → (∀ o, o ∈ offs → 0 ≤ o < c) → 0 ≤ m → m ≤ now → now < two64 →
  matches_in (mkCron c offs m k) m now = cron_matches c offs now - cron_matches c offs m.
Proof.
  intros Hc Hnd Ho Hm Hmn Hb. unfold matches_in. simpl. change 0 with (u64 0) at 1.
  rewrite (foldl_u64_sum (λ o, cron_count_upto now o c - cron_count_upto m o c)), Z.add_0_l.
  assert (E : zsum ((λ o, cron_count_upto now o c - cron_count_upto m o c) <$> offs) =
    cron_matches c offs now - cron_matches c offs m).
  { rewrite <- !cron_sum_matches by (done || lia).
    assert (Ha := zsum_add (λ o, cron_count_upto now o c - cron_count_upto m o c) (λ o, cron_count_upto m o c) offs).
    cbn beta in Ha. erewrite (zsum_ext _ (λ o, cron_count_upto now o c)) in Ha; [lia|]. intros. simpl. lia. }
  rewrite E. apply u64_small. pose proof (cron_matches_mono c offs m now Hm Hmn). unfold is_u64. lia.
Qed.

Lemma cron_tick_at c offs m now :
  0 < c → NoDup offs → (∀ o, o ∈ offs → 0 ≤ o < c) → 0 ≤ m < two64 → 0 ≤ now < two64 →
  cron_tick (cron_at c offs m) now = (cron_matches c offs m <? cron_matches c offs (Z.max m now), cron_at c offs (Z.max m now)).
Proof.
  intros Hc Hnd Ho Hm Hnow. unfold cron_tick, cron_at. simpl. destruct (now <=? m) eqn:E; zify_bools.
  - rewrite Z.max_l by lia. by rewrite Z.ltb_irrefl.
  - rewrite Z.max_r, matches_in_spec by (done || lia).
    pose proof (cron_matches_mono c offs m now ltac:(lia) ltac:(lia)).
    pose proof (cron_matches_bound c offs now ltac:(lia)). pose proof (cron_matches_bound c offs m ltac:(lia)).
    destruct (_ =? 0) eqn:E0; zify_bools.
    + assert (Hs : cron_matches c offs now = cron_matches c offs m) by lia. rewrite Hs.
      by rewrite Z.ltb_irrefl.
    + rewrite u64_small by (unfold is_u64; lia). f_equal; [symmetry; apply Z.ltb_lt; lia|]. f_equal. lia.
Qed.

Lemma cron_run_at cycle offsets nows :
  (∀ now, now ∈ nows → is_u64 now) →
  (core_run cron_tick (cron_new cycle offsets) nows).2 =
    cron_at (Z.max cycle 1) (reduced (Z.max cycle 1) offsets) (latest nows) ∧ latest nows < two64.
Proof.
  set (c := Z.max cycle 1). assert (Hc : 0 < c) by (unfold c; lia).
  induction nows as [|now nows IH] using rev_ind; intros Hn; [done|].
  destruct IH as [IH Hb]; [intros; apply Hn; set_solver|].
  destruct (Hn now) as [Hnow Hnb]; [set_solver|].
  rewrite core_run_snoc. destruct (core_run cron_tick (cron_new cycle offsets) nows) as [es t]. simpl in IH. subst t. cbn [fst snd].
  pose proof (latest_nonneg nows).
  rewrite latest_snoc, cron_tick_at; [|done|apply sorted_lt_nodup, reduced_sorted|intros o; by apply reduced_range|lia|lia].
  simpl. split; [done|lia].
Qed.

(** A cron source counts every matching time exactly once.  After any
    sequence of ticks, jumps of any size included, the count is the number of
    times [m] from 1 up to the latest one seen whose residue modulo the cycle is
    one of the (reduced) offsets, although the code computes it arithmetically
    in the number of offsets; a further tick reports an edge exactly when it
    passes a match. *)
Theorem cron_counts_matches (cycle : Z) (offsets nows : list Z) (now : Z) :
  (∀ t, t ∈ now :: nows → is_u64 t) →
  let c := Z.max cycle 1 in
  let core := (core_run cron_tick (cron_new cycle offsets) nows).2 in
  let matches n := Z.of_nat (occ (λ m, Exists (λ o, m mod c = o mod c) offsets) (seqZ 1 n)) in
  cursor_ core = latest nows ∧
  cron_count_ core = matches (latest nows) ∧
  (cron_tick core now).1 = (matches (latest nows) <? matches (Z.max (latest nows) now)).
Proof.
  intros Hn c core matches.
  destruct (cron_run_at cycle offsets nows) as [Hrun Hb]; [intros; apply Hn; by right|].
  assert (Hm : ∀ n, 0 ≤ n → cron_matches c (reduced c offsets) n = matches n).
  { intros n Hn0. unfold cron_matches, matches, occ. f_equal. f_equal. apply list_filter_iff'.
    intros m Hm%elem_of_seqZ. unfold cron_match. rewrite reduced_elem, Exists_exists. split.
    - intros [_ (x & Hx & ?)]. eauto.
    - intros (x & ? & ?). split; [lia|eauto]. }
  unfold core. rewrite Hrun. fold c. destruct (Hn now ltac:(left)) as [Hnow Hnb]. pose proof (latest_nonneg nows).
  rewrite cron_tick_at; [|unfold c; lia|apply sorted_lt_nodup, reduced_sorted|intros o; apply reduced_range; unfold c; lia|lia|lia].
  simpl. rewrite !Hm by lia. done.
Qed.

Lemma cron_counts_matches_witness :
  let core := (core_run cron_tick (cron_new 10 [3; 17; 13]) [5; 40; 12]).2 in
  let matches n := Z.of_nat (occ (λ m, Exists (λ o, m mod 10 = o mod 10) [3; 17; 13]) (seqZ 1 n)) in
  cron_count_ core = 8 ∧
  cursor_ core = latest [5; 40; 12] ∧ cron_count_ core = matches (latest [5; 40; 12]) ∧
  (cron_tick core 43).1 = (matches (latest [5; 40; 12]) <? matches (Z.max (latest [5; 40; 12]) 43)).
Proof.
  split; [reflexivity|]. apply (cron_counts_matches 10 [3; 17; 13] [5; 40; 12] 43).
  intros t Ht. repeat (apply elem_of_cons in Ht as [->|Ht]; [unfold is_u64, two64; lia|]). by apply elem_of_nil in Ht.
Defined.

(** ** The next fire of a cron source *)

Lemma first_candidate_spec block start offs :
  StronglySorted Z.lt offs → (∀ o, o ∈ offs → is_u64 (block + o)) →
  match first_candidate block start offs with
  | Some m => start ≤ m ∧ (m - block) ∈ offs ∧ ∀ o, o ∈ offs → start ≤ block + o → m ≤ block + o
  | None => ∀ o, o ∈ offs → block + o < start
  end.
Proof.
  induction offs as [|o offs IH]; intros Hs Hb; simpl; [by intros o ?%elem_of_nil|].
  apply StronglySorted_inv in Hs as [Hs Ho]. rewrite Forall_forall in Ho.
  rewrite u64_small by (apply Hb; left). destruct (start <=? block + o) eqn:E; zify_bools.
  - split_and!; [done|replace (block + o - block) with o by lia; left|].
    intros o' [->|Hin]%elem_of_cons _; [lia|]. specialize (Ho o' Hin). lia.
  - specialize (IH Hs ltac:(intros; apply Hb; by right)).
    destruct (first_candidate block start offs) as [m|].
    + destruct IH as (? & ? & Hmin). split_and!; [done|by right|].
      intros o' [->|Hin]%elem_of_cons ?; [lia|auto].
    + intros o' [->|Hin]%elem_of_cons; [done|auto].
Qed.

(** The next fire of a cron source is right: it is the least matching time
    after the cursor, and there is none exactly when there are no offsets. *)
Theorem cron_next_fire_least (cycle : Z) (offsets nows : list Z) :
  (∀ t, t ∈ nows → 0 ≤ t ∧ t + 2 * Z.max cycle 1 + 1 < two64) → 2 * Z.max cycle 1 + 1 < two64 →
  let c := Z.max cycle 1 in
  let core := (core_run cron_tick (cron_new cycle offsets) nows).2 in
  match cron_next_fire core with
  | None => offsets = []
  | Some m => cursor_ core < m ∧ Exists (λ o, m mod c = o mod c) offsets ∧
      ∀ k, cursor_ core < k → Exists (λ o, k mod c = o mod c) offsets → m ≤ k
  end.
Proof.
  intros Hn H0 c core. assert (Hc : 1 ≤ c) by (unfold c; lia).
  destruct (cron_run_at cycle offsets nows) as [Hrun _].
  { intros t Ht. destruct (Hn t Ht). unfold is_u64. lia. }
  unfold core. rewrite Hrun. fold c. fold c in Hn, H0.
  assert (Hlat : latest nows + 2 * c + 1 < two64).
  { clear Hrun core. induction nows as [|t ts IH] using rev_ind; [unfold latest; simpl; lia|].
    rewrite latest_snoc. destruct (Hn t); [set_solver|]. specialize (IH ltac:(intros; apply Hn; set_solver)). lia. }
  set (m0 := latest nows) in *. assert (Hm0 : 0 ≤ m0) by apply latest_nonneg. clearbody m0. clear Hrun core Hn nows.
  set (offs := reduced c offsets).
  assert (Hmem : ∀ k, Exists (λ o, k mod c = o mod c) offsets ↔ k mod c ∈ offs).
  { intros k. unfold offs. rewrite reduced_elem, Exists_exists. naive_solver. }
  assert (Hoff : ∀ o, o ∈ offs → 0 ≤ o < c) by (intros; apply (reduced_range c offsets); [lia|done]).
  unfold cron_next_fire. simpl. case_bool_decide as Hnil.
  { destruct offsets as [|o offsets]; [done|]. exfalso. apply (not_elem_of_nil (o mod c)). rewrite <- Hnil.
    apply Hmem. by left. }
  rewrite (u64_small (m0 + 1)) by (unfold is_u64; lia). set (start := m0 + 1). set (base := start / c * c).
  assert (Hbase : 0 ≤ base ∧ base ≤ start ∧ start < base + c).
  { unfold base. pose proof (Z.mod_pos_bound start c ltac:(lia)). pose proof (Z.div_mod start c ltac:(lia)).
    assert (0 ≤ start / c) by (apply Z.div_pos; unfold start; lia). nia. }
  assert (Hbm : ∀ q o, 0 ≤ o < c → (base + q * c + o) mod c = o).
  { intros q o Ho. unfold base. replace (start / c * c + q * c + o) with (o + (start / c + q) * c) by lia.
    rewrite Z.mod_add, Z.mod_small by lia. done. }
  assert (Hk : ∀ k, start ≤ k → (∃ o, k = base + o ∧ o = k mod c) ∨ base + c + k mod c ≤ k).
  { intros k Hsk. pose proof (Z.div_mod k c ltac:(lia)). assert (Hq : start / c ≤ k / c) by (apply Z.div_le_mono; lia).
    destruct (decide (k / c = start / c)) as [E|Hne]; [left; exists (k mod c); split; [unfold base; nia|done]|right].
    unfold base. nia. }
  rewrite (u64_small base) by (unfold is_u64; unfold start in *; lia).
  rewrite (u64_small (0 * c)), (u64_small (1 * c)) by (unfold is_u64; lia).
  rewrite (u64_small (base + 0 * c)), (u64_small (base + 1 * c)) by (unfold is_u64; unfold start in *; lia).
  pose proof (first_candidate_spec (base + 0 * c) start offs (reduced_sorted c offsets)) as H1.
  pose proof (first_candidate_spec (base + 1 * c) start offs (reduced_sorted c offsets)) as H2.
  destruct (first_candidate (base + 0 * c) start offs) as [m|].
  - destruct H1 as (Hs1 & Hin & Hmin).
    { intros o Ho%Hoff. unfold is_u64, start in *. lia. }
    split_and!; [unfold start in *; lia| |].
    + apply Hmem. replace m with (base + 0 * c + (m - (base + 0 * c))) by lia. rewrite Hbm; auto.
    + intros k Hlt Hex%Hmem. destruct (Hk k) as [(o & -> & Ho)|Hge]; [unfold start; lia| |].
      * specialize (Hmin o). rewrite <- Ho in Hex. specialize (Hmin Hex). unfold start in *. lia.
      * pose proof (Hoff _ Hin). pose proof (Hoff _ Hex). lia.
  - assert (H1' : ∀ o, o ∈ offs → base + 0 * c + o < start).
    { apply H1. intros o Ho%Hoff. unfold is_u64, start in *. lia. }
    assert (H2' := H2 ltac:(intros o Ho%Hoff; unfold is_u64, start in *; lia)).
    destruct (first_candidate (base + 1 * c) start offs) as [m|].
    + destruct H2' as (Hs2 & Hin & Hmin). split_and!; [unfold start in *; lia| |].
      * apply Hmem. replace m with (base + 1 * c + (m - (base + 1 * c))) by lia. rewrite Hbm; auto.
      * intros k Hlt Hex%Hmem. destruct (Hk k) as [(o & -> & Ho)|Hge]; [unfold start; lia| |].
        { rewrite <- Ho in Hex. specialize (H1' o Hex). unfold start in *. lia. }
        specialize (Hmin (k mod c) Hex). pose proof (Hoff _ Hex). unfold start in *. lia.
    + exfalso. destruct offs as [|o offs']; [done|]. specialize (H2' o ltac:(left)).
      pose proof (Hoff o ltac:(left)). lia.
Qed.

Lemma cron_next_fire_least_witness :
  match cron_next_fire (core_run cron_tick (cron_new 10 [3; 17]) [5; 38]).2 with
  | None => [3; 17] = []
  | Some m => cursor_ (core_run cron_tick (cron_new 10 [3; 17]) [5; 38]).2 < m ∧ Exists (λ o, m mod 10 = o mod 10) [3; 17] ∧
      ∀ k, cursor_ (core_run cron_tick (cron_new 10 [3; 17]) [5; 38]).2 < k → Exists (λ o, k mod 10 = o mod 10) [3; 17] → m ≤ k
  end.
Proof.
  apply (cron_next_fire_least 10 [3; 17] [5; 38]); [|unfold two64; lia].
  intros t Ht. repeat (apply elem_of_cons in Ht as [->|Ht]; [unfold two64; lia|]). by apply elem_of_nil in Ht.
Defined.

(** ** The cells *)

Section cells_correct.
  Context {C H : Type} `{HB : SourceContext C H bool} `{!SourceContextLaws C H bool}.
  Context `{HZ : SourceContext C H Z} `{!SourceContextLaws C H Z}.

Lemma timer_cell_tick_eq (cell : Mirrored (H:=H)) now (c : C) :
  timer_cell_tick cell now c = mirrored_step timer_tick fired_ cell now c.
Proof. unfold timer_cell_tick, mirrored_step, timer_tick. by destruct (_ || _). Qed.

Lemma timer_view t now : (timer_tick t now).1 = false → fired_ (timer_tick t now).2 = fired_ t.
Proof. unfold timer_tick. by destruct (_ || _). Qed.

Lemma interval_view t now : (interval_tick t now).1 = false → count_ (interval_tick t now).2 = count_ t.
Proof. unfold interval_tick. by destruct (_ =? 0). Qed.

Lemma cron_view t now : (cron_tick t now).1 = false → cron_count_ (cron_tick t now).2 = cron_count_ t.
Proof. unfold cron_tick. destruct (_ <=? _); [done|]. by destruct (_ =? 0). Qed.

(** A cell driven through a list of ticks. *)
Definition tick_all {S} (tick : Mirrored (H:=H) (S:=S) → Z → C → option (bool * Mirrored * C)) :=
  fix go (cell : Mirrored) (nows : list Z) (c : C) : option (list bool * Mirrored * C) :=
    match nows with
    | [] => Some ([], cell, c)
    | now :: nows => '(e, cell, c) ← tick cell now c; '(es, cell, c) ← go cell nows c; Some (e :: es, cell, c)
    end.

Lemma tick_all_eq {S T} `{SourceContext C H T} (step : S → Z → bool * S) (view : S → T) tick :
  (∀ cell now c, tick cell now c = mirrored_step step view cell now c) →
  ∀ nows cell c, tick_all tick cell nows c = mirrored_run step view cell nows c.
Proof.
  intros Ht. induction nows as [|now nows IH]; intros cell c; simpl; [done|]. rewrite Ht.
  destruct (mirrored_step step view cell now c) as [[[e cell'] c']|]; simpl; [|done]. by rewrite IH.
Qed.

(** The temporal cells publish their cores.  Over any implementation of the
    context's sources, a timer, interval or cron cell driven through any ticks
    always succeeds and reports its core's edges; reading it afterwards gives
    the fired flag or the count of the core, and the other sources of the
    context keep their values. *)
Theorem temporal_cells_publish (fire_at period cycle : Z) (offsets nows : list Z) (c : C) :
  ctx_ok (T:=bool) c → ctx_ok (T:=Z) c →
  (∃ cell c1 c2 cell', timer_cell_new fire_at c = Some (cell, c1) ∧
    tick_all timer_cell_tick cell nows c1 = Some ((core_run timer_tick (timer_new fire_at) nows).1, cell', c2) ∧
    timer_cell_has_fired cell' c2 = Some (fired_ (core_run timer_tick (timer_new fire_at) nows).2) ∧
    ∀ h v, holds (T:=bool) c h v → holds c2 h v) ∧
  (∃ cell c1 c2 cell', interval_cell_new period c = Some (cell, c1) ∧
    tick_all interval_cell_tick cell nows c1 = Some ((core_run interval_tick (interval_new period) nows).1, cell', c2) ∧
    ctx_get (mcell_ cell') c2 = Some (count_ (core_run interval_tick (interval_new period) nows).2) ∧
    ∀ h v, holds (T:=Z) c h v → holds c2 h v) ∧
  (∃ cell c1 c2 cell', cron_cell_new cycle offsets c = Some (cell, c1) ∧
    tick_all cron_cell_tick cell nows c1 = Some ((core_run cron_tick (cron_new cycle offsets) nows).1, cell', c2) ∧
    ctx_get (mcell_ cell') c2 = Some (cron_count_ (core_run cron_tick (cron_new cycle offsets) nows).2) ∧
    ∀ h v, holds (T:=Z) c h v → holds c2 h v).
Proof.
  intros Hcb Hcz. split_and!.
  - destruct (mirrored_mirrors_core timer_tick fired_ timer_view (timer_new fire_at) nows c Hcb)
      as (cell & c1 & c2 & E1 & E2 & _ & E3 & Hrest).
    exists cell, c1, c2, (mkMirrored (core_run timer_tick (timer_new fire_at) nows).2 (mcell_ cell)).
    split_and!; [exact E1| |exact E3|exact Hrest].
    rewrite (tick_all_eq timer_tick fired_ _ timer_cell_tick_eq). exact E2.
  - destruct (mirrored_mirrors_core interval_tick count_ interval_view (interval_new period) nows c Hcz)
      as (cell & c1 & c2 & E1 & E2 & _ & E3 & Hrest).
    exists cell, c1, c2, (mkMirrored (core_run interval_tick (interval_new period) nows).2 (mcell_ cell)).
    split_and!; [exact E1| |exact E3|exact Hrest].
    rewrite (tick_all_eq interval_tick count_ interval_cell_tick); [exact E2|done].
  - destruct (mirrored_mirrors_core cron_tick cron_count_ cron_view (cron_new cycle offsets) nows c Hcz)
      as (cell & c1 & c2 & E1 & E2 & _ & E3 & Hrest).
    exists cell, c1, c2, (mkMirrored (core_run cron_tick (cron_new cycle offsets) nows).2 (mcell_ cell)).
    split_and!; [exact E1| |exact E3|exact Hrest].
    rewrite (tick_all_eq cron_tick cron_count_ cron_cell_tick); [exact E2|done].
Qed.

End cells_correct.

(** Over the engine: a context whose cells hold integers and booleans. *)
Lemma temporal_cells_publish_witness :
  let c : Ctx (Z + bool) := empty_ctx in
  (∃ cell c1 c2 cell', timer_cell_new 10 c = Some (cell, c1) ∧
    tick_all timer_cell_tick cell [4; 12; 15] c1 = Some ([false; true; false], cell', c2) ∧
    timer_cell_has_fired cell' c2 = Some true ∧ ∀ h v, holds (T:=bool) c h v → holds c2 h v) ∧
  (∃ cell c1 c2 cell', interval_cell_new 5 c = Some (cell, c1) ∧
    tick_all interval_cell_tick cell [4; 12; 15] c1 = Some ([false; true; true], cell', c2) ∧
    ctx_get (mcell_ cell') c2 = Some 3 ∧ ∀ h v, holds (T:=Z) c h v → holds c2 h v) ∧
  (∃ cell c1 c2 cell', cron_cell_new 4 [1; 5] c = Some (cell, c1) ∧
    tick_all cron_cell_tick cell [4; 12; 15] c1 = Some ([true; true; true], cell', c2) ∧
    ctx_get (mcell_ cell') c2 = Some 4 ∧ ∀ h v, holds (T:=Z) c h v → holds c2 h v).
Proof.
  exact (temporal_cells_publish (C := Ctx (Z + bool)) (H := Handle) 10 5 4 [1; 5] [4; 12; 15] empty_ctx
    (empty_ctx_ok (T:=bool)) (empty_ctx_ok (T:=Z))).
Defined.
