(* ===== verification/RateShape.v ===== *)
(** * RateShape: rate-shaping operators

    Models include/lazily/rateshape.hpp: debounce, throttle, deterministic and
    probabilistic sampling over logical 64-bit times, and their cells. *)
From Stdlib Require Import QArith.
From S2P Require Import Prelude Kernel KernelCorrect Reactive.
#[local] Open Scope Z_scope.

(** ** Cores *)
Section cores.
  Context {T : Type}.
  Implicit Types (v : T).

(* include/lazily/rateshape.hpp:65-68, DebounceCore (data members) *)
Record DebounceCore := mkDebounce { quiet_ : Z; d_pending_ : option T; fire_at_ : Z; armed_ : bool }.

(* include/lazily/rateshape.hpp:44-44, DebounceCore::DebounceCore *)
Definition debounce_new (quiet : Z) : DebounceCore := mkDebounce quiet None 0 false.

(* include/lazily/rateshape.hpp:47-51, DebounceCore::input *)
Definition debounce_input (d : DebounceCore) (now : Z) v : DebounceCore :=
  mkDebounce (quiet_ d) (Some v) (u64 (now + quiet_ d)) true.

(* include/lazily/rateshape.hpp:54-62, DebounceCore::tick *)
Definition debounce_tick (d : DebounceCore) (now : Z) : option T * DebounceCore :=
  if armed_ d && bool_decide (is_Some (d_pending_ d)) && (fire_at_ d <=? now)
  then (d_pending_ d, mkDebounce (quiet_ d) None (fire_at_ d) false)
  else (None, d).

(* include/lazily/rateshape.hpp:96-101, ThrottleEdge *)
Inductive ThrottleEdge := Leading | Trailing.

(* include/lazily/rateshape.hpp:135-139, ThrottleCore (data members) *)
Record ThrottleCore := mkThrottle {
  edge_ : ThrottleEdge; window_ : Z;
  window_end_ : option Z; window_start_ : option Z; t_pending_ : option T;
}.

(* include/lazily/rateshape.hpp:106-106, ThrottleCore::ThrottleCore *)
Definition throttle_new (edge : ThrottleEdge) (window : Z) : ThrottleCore := mkThrottle edge window None None None.

(* include/lazily/rateshape.hpp:109-119, ThrottleCore::input *)
Definition throttle_input (t : ThrottleCore) (now : Z) v : option T * ThrottleCore :=
  match edge_ t with
  | Leading =>
      if match window_end_ t with Some e => now <? e | None => false end then (None, t)
      else (Some v, mkThrottle (edge_ t) (window_ t) (Some (u64 (now + window_ t))) (window_start_ t) (t_pending_ t))
  | Trailing =>
      let start := match window_start_ t with Some s => s | None => now end in
      (None, mkThrottle (edge_ t) (window_ t) (window_end_ t) (Some start) (Some v))
  end.

(* include/lazily/rateshape.hpp:122-132, ThrottleCore::tick *)
Definition throttle_tick (t : ThrottleCore) (now : Z) : option T * ThrottleCore :=
  match edge_ t, window_start_ t with
  | Leading, _ | _, None => (None, t)
  | Trailing, Some start =>
      if (u64 (start + window_ t) <=? now) && bool_decide (is_Some (t_pending_ t))
      then (t_pending_ t, mkThrottle (edge_ t) (window_ t) (window_end_ t) None None)
      else (None, t)
  end.

(* include/lazily/rateshape.hpp:171-184, SampleMode *)
Inductive SampleMode := Count (n : Z) | Time (period : Z).

(* include/lazily/rateshape.hpp:219-222, SampleCore (data members) *)
Record SampleCore := mkSample { mode_ : SampleMode; counter_ : Z; next_ : Z; held_ : option T }.

(* include/lazily/rateshape.hpp:189-191, SampleCore::SampleCore *)
Definition sample_new (mode : SampleMode) : SampleCore :=
  mkSample mode 0 (match mode with Time p => if p <? 1 then 1 else p | Count _ => 0 end) None.

(* include/lazily/rateshape.hpp:195-205, SampleCore::input *)
Definition sample_input (s : SampleCore) v : option T * SampleCore :=
  match mode_ s with
  | Count k =>
      let n := if k <? 1 then 1 else k in
      let counter := u64 (counter_ s + 1) in
      (if counter mod n =? 0 then Some v else None, mkSample (mode_ s) counter (next_ s) (held_ s))
  | Time _ => (None, mkSample (mode_ s) (counter_ s) (next_ s) (Some v))
  end.

(* include/lazily/rateshape.hpp:208-216, SampleCore::tick *)
Definition sample_tick (s : SampleCore) (now : Z) : option T * SampleCore :=
  match mode_ s with
  | Count _ => (None, s)
  | Time p =>
      let period := if p <? 1 then 1 else p in
      if now <? next_ s then (None, s)
      else
        let fires := u64 (u64 (now - next_ s) / period + 1) in
        (held_ s, mkSample (mode_ s) (counter_ s) (u64 (next_ s + u64 (fires * period))) (held_ s))
  end.

(** What a client feeds an operator. *)
Inductive Event := Input (now : Z) (v : T) | Tick (now : Z).

Definition debounce_step (d : DebounceCore) (e : Event) : option T * DebounceCore :=
  match e with Input now v => (None, debounce_input d now v) | Tick now => debounce_tick d now end.
Definition throttle_step (t : ThrottleCore) (e : Event) : option T * ThrottleCore :=
  match e with Input now v => throttle_input t now v | Tick now => throttle_tick t now end.
Definition sample_step (s : SampleCore) (e : Event) : option T * SampleCore :=
  match e with Input _ v => sample_input s v | Tick now => sample_tick s now end.

End cores.
Arguments DebounceCore : clear implicits.
Arguments ThrottleCore : clear implicits.
Arguments SampleCore : clear implicits.
Arguments Event : clear implicits.

(** ** Probabilistic sampling

    A double is modelled by the rational it denotes. *)
Inductive double := Finite (q : Q) | Infinity (negative : bool) | NaN.

Definition double_lt (a b : double) : bool :=
  match a, b with
  | NaN, _ | _, NaN => false
  | Finite p, Finite q => negb (Qle_bool q p)
  | Infinity n, Infinity m => n && negb m
  | Infinity n, Finite _ => n
  | Finite _, Infinity m => negb m
  end.

(* include/lazily/rateshape.hpp:279-279, Lcg (data members) *)
Record Lcg := mkLcg { state_ : Z }.

(** [next_f64] returns the mantissa over [2^53]; both conversions and the
    division are exact on doubles. *)
(* include/lazily/rateshape.hpp:267-276, Lcg::next_f64 *)
Definition next_mantissa (g : Lcg) : Z * Lcg :=
  let s := u64 (state_ g + 0x9E3779B97F4A7C15) in
  let z := s in
  let z := u64 (Z.lxor z (Z.shiftr z 30) * 0xBF58476D1CE4E5B9) in
  let z := u64 (Z.lxor z (Z.shiftr z 27) * 0x94D049BB133111EB) in
  let z := Z.lxor z (Z.shiftr z 31) in
  (Z.shiftr z 11, mkLcg s).
Definition next_f64 (g : Lcg) : double * Lcg :=
  let '(m, g) := next_mantissa g in (Finite (m # 9007199254740992), g).

(* include/lazily/rateshape.hpp:284-296, ProbabilisticSampleCore *)
Record ProbabilisticSampleCore := mkProbabilistic { rate_ : double }.

(* include/lazily/rateshape.hpp:286-287, ProbabilisticSampleCore::ProbabilisticSampleCore *)
Definition probabilistic_new (rate : double) : ProbabilisticSampleCore :=
  mkProbabilistic (if double_lt rate (Finite 0) then Finite 0
                   else if double_lt (Finite 1) rate then Finite 1 else rate).

(* include/lazily/rateshape.hpp:292-292, ProbabilisticSampleCore::decide *)
Definition decide_draw (p : ProbabilisticSampleCore) (draw : double) : bool := double_lt draw (rate_ p).

(** ** Cells *)
Section cells.
  Context {C H T : Type} `{SourceContext C H (option T)}.

(* include/lazily/rateshape.hpp:33-36, rateshape_set_output *)
Definition rateshape_set_output (cell : H) (emitted : option T) (c : C) : option C :=
  match emitted with Some v => ctx_set cell (Some v) c | None => Some c end.

(** A core next to its output source. *)
(* include/lazily/rateshape.hpp:72-75, DebounceCell::DebounceCell *)
Definition debounce_cell_new (quiet : Z) (c : C) : option (Projected (H:=H) (S:=DebounceCore T) * C) :=
  '(output, c) ← ctx_source None c; Some (mkProjected (debounce_new quiet) output, c).

(* include/lazily/rateshape.hpp:77-83, DebounceCell::input, tick *)
Definition debounce_cell_step (cell : Projected (H:=H) (S:=DebounceCore T)) (e : Event T) (c : C) : option (option T * Projected * C) :=
  match e with
  | Input now v => Some (None, mkProjected (debounce_input (core_ cell) now v) (output_ cell), c)
  | Tick now =>
      let '(emitted, core) := debounce_tick (core_ cell) now in
      c ← rateshape_set_output (output_ cell) emitted c; Some (emitted, mkProjected core (output_ cell), c)
  end.

(* include/lazily/rateshape.hpp:143-146, ThrottleCell::ThrottleCell *)
Definition throttle_cell_new (edge : ThrottleEdge) (window : Z) (c : C) : option (Projected (H:=H) (S:=ThrottleCore T) * C) :=
  '(output, c) ← ctx_source None c; Some (mkProjected (throttle_new edge window) output, c).

(* include/lazily/rateshape.hpp:148-158, ThrottleCell::input, tick *)
Definition throttle_cell_step (cell : Projected (H:=H) (S:=ThrottleCore T)) (e : Event T) (c : C) : option (option T * Projected * C) :=
  let '(emitted, core) :=
    match e with
    | Input now v => throttle_input (core_ cell) now v
    | Tick now => throttle_tick (core_ cell) now
    end in
  c ← rateshape_set_output (output_ cell) emitted c; Some (emitted, mkProjected core (output_ cell), c).

(* include/lazily/rateshape.hpp:226-229, SampleCell::SampleCell *)
Definition sample_cell_new (mode : SampleMode) (c : C) : option (Projected (H:=H) (S:=SampleCore T) * C) :=
  '(output, c) ← ctx_source None c; Some (mkProjected (sample_new mode) output, c).

(* include/lazily/rateshape.hpp:231-241, SampleCell::input, tick *)
Definition sample_cell_step (cell : Projected (H:=H) (S:=SampleCore T)) (e : Event T) (c : C) : option (option T * Projected * C) :=
  let '(emitted, core) :=
    match e with
    | Input now v => sample_input (core_ cell) v
    | Tick now => sample_tick (core_ cell) now
    end in
  c ← rateshape_set_output (output_ cell) emitted c; Some (emitted, mkProjected core (output_ cell), c).

(** The generator is a field of the cell. *)
(* include/lazily/rateshape.hpp:305-317, ProbabilisticSampleCell::input, input_with_draw *)
Definition probabilistic_cell_input (core : ProbabilisticSampleCore) (rng : Lcg) (output : H) (v : T) (c : C) :
    option (option T * Lcg * C) :=
  let '(draw, rng) := next_f64 rng in
  if decide_draw core draw
  then c ← ctx_set output (Some v) c; Some (Some v, rng, c)
  else Some (None, rng, c).

Context `{!SourceContextLaws C H (option T)}.

(** The rate-shaping cells publish exactly what their cores emit.  Over any
    implementation of the context's sources, a debounce, throttle or sample cell
    fed any events always succeeds, returns its core's emissions, and its output
    then reads the last value emitted ([nullopt] before the first); dropped and
    held inputs leave it alone, and no other source changes. *)
Theorem rateshape_cells_publish (quiet window : Z) (edge : ThrottleEdge) (mode : SampleMode) (es : list (Event T)) (c : C) :
  ctx_ok c →
  (∃ cell c1 c2 cell', debounce_cell_new quiet c = Some (cell, c1) ∧
    feed debounce_cell_step cell es c1 = Some ((core_run debounce_step (debounce_new quiet) es).1, cell', c2) ∧
    ctx_get (output_ cell') c2 = Some (last_emitted None (core_run debounce_step (debounce_new quiet) es).1) ∧
    ∀ h v, holds c h v → holds c2 h v) ∧
  (∃ cell c1 c2 cell', throttle_cell_new edge window c = Some (cell, c1) ∧
    feed throttle_cell_step cell es c1 = Some ((core_run throttle_step (throttle_new edge window) es).1, cell', c2) ∧
    ctx_get (output_ cell') c2 = Some (last_emitted None (core_run throttle_step (throttle_new edge window) es).1) ∧
    ∀ h v, holds c h v → holds c2 h v) ∧
  (∃ cell c1 c2 cell', sample_cell_new mode c = Some (cell, c1) ∧
    feed sample_cell_step cell es c1 = Some ((core_run sample_step (sample_new mode) es).1, cell', c2) ∧
    ctx_get (output_ cell') c2 = Some (last_emitted None (core_run sample_step (sample_new mode) es).1) ∧
    ∀ h v, holds c h v → holds c2 h v).
Proof.
  intros Hc. split_and!; (eapply feed_mirrors_core; [done|]).
  - intros cell [now v|now] c'; [done|]. unfold debounce_cell_step, projected_step. simpl. by destruct (debounce_tick _ _).
  - intros cell [now v|now] c'; done.
  - intros cell [now v|now] c'; done.
Qed.

End cells.

(** Over the engine: a context whose cells hold optional integers. *)
Lemma rateshape_cells_publish_witness :
  let c : Ctx (option Z) := empty_ctx in
  let es := [Input 0 7; Tick 2; Input 3 8; Tick 9] in
  (∃ cell c1 c2 cell', debounce_cell_new 5 c = Some (cell, c1) ∧
    feed debounce_cell_step cell es c1 = Some ([None; None; None; Some 8], cell', c2) ∧
    ctx_get (output_ cell') c2 = Some (Some 8) ∧ ∀ h v, holds (T:=option Z) c h v → holds c2 h v) ∧
  (∃ cell c1 c2 cell', throttle_cell_new Leading 10 c = Some (cell, c1) ∧
    feed throttle_cell_step cell es c1 = Some ([Some 7; None; None; None], cell', c2) ∧
    ctx_get (output_ cell') c2 = Some (Some 7) ∧ ∀ h v, holds (T:=option Z) c h v → holds c2 h v) ∧
  (∃ cell c1 c2 cell', sample_cell_new (Count 2) c = Some (cell, c1) ∧
    feed sample_cell_step cell es c1 = Some ([None; None; Some 8; None], cell', c2) ∧
    ctx_get (output_ cell') c2 = Some (Some 8) ∧ ∀ h v, holds (T:=option Z) c h v → holds c2 h v).
Proof.
  exact (rateshape_cells_publish (C := Ctx (option Z)) (H := Handle) 5 10 Leading (Count 2)
    [Input 0 7; Tick 2; Input 3 8; Tick 9] empty_ctx empty_ctx_ok).
Defined.

(** ** Debounce *)
Section debounce.
  Context {T : Type}.
  Implicit Types (es : list (Event T)).

(** The input that waits to be emitted after the events [es]. *)
Definition waiting (quiet : Z) es : option (Z * T) :=
  foldl (λ w e, match e with
    | Input t v => Some (t, v)
    | Tick now => match w with Some (t, v) => if t + quiet <=? now then None else w | None => None end
    end) None es.

(** The [j]-th event is an input that no later input replaces and no later tick emits. *)
Definition waits (quiet : Z) es (j : nat) (t : Z) (v : T) : Prop :=
  es !! j = Some (Input t v) ∧
  ∀ k e, (j < k)%nat → es !! k = Some e → match e with Input _ _ => False | Tick now => now < t + quiet end.

Lemma waiting_snoc quiet es e :
  waiting quiet (es ++ [e]) =
    match e with
    | Input t v => Some (t, v)
    | Tick now => match waiting quiet es with Some (t, v) => if t + quiet <=? now then None else Some (t, v) | None => None end
    end.
Proof. unfold waiting. rewrite foldl_app. simpl. destruct e; [done|]. by destruct (foldl _ _ _) as [[]|]. Qed.

Lemma waits_snoc_tick quiet es now j t v :
  waits quiet (es ++ [Tick now]) j t v ↔ waits quiet es j t v ∧ now < t + quiet.
Proof.
  unfold waits. split.
  - intros [Hj Hk]. assert (Hlt : (j < length es)%nat).
    { pose proof (lookup_lt_Some _ _ _ Hj) as Hl. rewrite length_app in Hl. simpl in Hl.
      destruct (decide (j = length es)) as [->|]; [|lia]. by rewrite list_lookup_middle in Hj. }
    rewrite lookup_app_l in Hj by done. split_and!; [done| |].
    + intros k e Hk1 Hk2. apply (Hk k); [done|]. by apply lookup_app_l_Some.
    + by apply (Hk (length es) (Tick now) Hlt), list_lookup_middle.
  - intros [[Hj Hk] Hnow]. split; [by apply lookup_app_l_Some|]. intros k e Hk1 Hk2.
    apply lookup_app_Some in Hk2 as [Hk2|[_ Hk2]]; [by apply (Hk k)|].
    apply list_lookup_singleton_Some in Hk2 as [_ <-]. done.
Qed.

Lemma waits_snoc_input quiet es t0 v0 j t v :
  waits quiet (es ++ [Input t0 v0]) j t v ↔ j = length es ∧ t = t0 ∧ v = v0.
Proof.
  unfold waits. split.
  - intros [Hj Hk]. apply lookup_app_Some in Hj as [Hj|[Hle Hj]].
    + exfalso. apply (Hk (length es) (Input t0 v0)); [by eapply lookup_lt_Some|by apply list_lookup_middle].
    + apply list_lookup_singleton_Some in Hj as [Hj [= -> ->]]. split_and!; [lia|done..].
  - intros (-> & -> & ->). split; [by apply list_lookup_middle|]. intros k e Hk Hl.
    apply lookup_lt_Some in Hl. rewrite length_app in Hl. simpl in Hl. lia.
Qed.

Lemma waiting_iff quiet es t v : waiting quiet es = Some (t, v) ↔ ∃ j, waits quiet es j t v.
Proof.
  revert t v. induction es as [|e es IH] using rev_ind; intros t v.
  { split; [done|]. intros (j & Hj & _). by rewrite lookup_nil in Hj. }
  rewrite waiting_snoc. destruct e as [t0 v0|now].
  - setoid_rewrite waits_snoc_input. naive_solver.
  - setoid_rewrite waits_snoc_tick. destruct (waiting quiet es) as [[t1 v1]|] eqn:E.
    + destruct (t1 + quiet <=? now) eqn:Eq; zify_bools.
      * split; [done|]. intros (j & Hj & Hlt). assert (Hw : Some (t1, v1) = Some (t, v)) by (apply IH; eauto).
        injection Hw as <- <-. lia.
      * split.
        -- intros [= <- <-]. destruct (proj1 (IH t1 v1) eq_refl) as [j Hj]. eauto.
        -- intros (j & Hj & _). apply IH. eauto.
    + split; [done|]. intros (j & Hj & _). apply IH. eauto.
Qed.

Lemma debounce_state quiet es :
  (∀ t v, Input t v ∈ es → is_u64 (t + quiet)) →
  let d := (core_run debounce_step (debounce_new quiet) es).2 in
  quiet_ d = quiet ∧
  match waiting quiet es with
  | Some (t, v) => d_pending_ d = Some v ∧ fire_at_ d = t + quiet ∧ armed_ d = true
  | None => d_pending_ d = None ∧ armed_ d = false
  end.
Proof.
  induction es as [|e es IH] using rev_ind; intros Hb; [done|]. rewrite core_run_snoc, waiting_snoc. simpl.
  destruct IH as [Hq IH]; [intros t v Hin; apply (Hb t v); set_solver|].
  destruct e as [t v|now]; simpl.
  - rewrite Hq, u64_small; [done|]. apply (Hb t v). set_solver.
  - unfold debounce_tick. destruct (waiting quiet es) as [[t v]|].
    + destruct IH as (Hp & Hf & Ha). rewrite Hp, Hf, Ha. simpl.
      destruct (t + quiet <=? now) eqn:E; simpl; [done|]. by rewrite Hp, Hf, Ha.
    + destruct IH as [Hp Ha]. rewrite Ha. simpl. by rewrite Hp, Ha.
Qed.

(** Debounce emits the latest value of a burst, once, after the quiet
    period.  Event [i] emits [v] if and only if it is a tick at a time that is
    at least [quiet] after an input of [v] which no other input followed and no
    earlier tick had already emitted. *)
Theorem debounce_emits_after_quiet (quiet : Z) (es : list (Event T)) (i : nat) (v : T) :
  (∀ t v, Input t v ∈ es → is_u64 (t + quiet)) →
  (core_run debounce_step (debounce_new quiet) es).1 !! i = Some (Some v) ↔
  ∃ now j t, es !! i = Some (Tick now) ∧ waits quiet (take i es) j t v ∧ t + quiet ≤ now.
Proof.
  intros Hb. rewrite core_run_lookup.
  pose proof (debounce_state quiet (take i es)) as [Hq Hs].
  { intros t w Hin. apply (Hb t w). rewrite <- (take_drop i es). set_solver. }
  split.
  - intros ([t w|now] & Hi & He); [done|]. simpl in He. unfold debounce_tick in He.
    destruct (waiting quiet (take i es)) as [[t w]|] eqn:Ew.
    + destruct Hs as (Hp & Hf & Ha). rewrite Hp, Hf, Ha in He. simpl in He.
      destruct (t + quiet <=? now) eqn:E; [|done]. zify_bools. injection He as <-.
      apply waiting_iff in Ew as [j Hj]. exists now, j, t. done.
    + destruct Hs as [Hp Ha]. by rewrite Ha in He.
  - intros (now & j & t & Hi & Hj & Hle). exists (Tick now). split; [done|].
    assert (Ew : waiting quiet (take i es) = Some (t, v)) by (apply waiting_iff; eauto).
    rewrite Ew in Hs. destruct Hs as (Hp & Hf & Ha). simpl. unfold debounce_tick. rewrite Hp, Hf, Ha. simpl.
    destruct (t + quiet <=? now) eqn:E; [done|]. zify_bools. lia.
Qed.

End debounce.

Definition burst : list (Event Z) := [Input 0 1; Input 3 2; Tick 5; Tick 8; Tick 20; Input 21 3].

Lemma debounce_emits_after_quiet_witness :
  (core_run debounce_step (debounce_new 5) burst).1 = [None; None; None; Some 2; None; None] ∧
  ((core_run debounce_step (debounce_new 5) burst).1 !! 3%nat = Some (Some 2) ↔
   ∃ now j t, burst !! 3%nat = Some (Tick now) ∧ waits 5 (take 3 burst) j t 2 ∧ t + 5 ≤ now).
Proof.
  split; [reflexivity|]. apply (debounce_emits_after_quiet 5 burst 3%nat 2).
  intros t v Hin. unfold burst in Hin.
  repeat (apply elem_of_cons in Hin as [Hin|Hin]; [simplify_eq; unfold is_u64, two64; lia|]).
  by apply elem_of_nil in Hin.
Defined.

(** ** Throttle *)
Section throttle.
  Context {T : Type}.
  Implicit Types (es : list (Event T)).

(** The [j]-th event of [es] is the last one that emitted, at time [t]. *)
Definition last_pass (outs : list (option T)) es (j : nat) (t : Z) : Prop :=
  (∃ v, es !! j = Some (Input t v) ∧ outs !! j = Some (Some v)) ∧
  ∀ k o, (j < k)%nat → outs !! k = Some o → o = None.

Lemma leading_state window es :
  (∀ t v, Input t v ∈ es → is_u64 (t + window)) →
  let r := core_run throttle_step (throttle_new Leading window) es in
  edge_ r.2 = Leading ∧ window_ r.2 = window ∧ window_start_ r.2 = None ∧
  match window_end_ r.2 with
  | Some e => ∃ j t, last_pass r.1 es j t ∧ e = t + window
  | None => ∀ k o, r.1 !! k = Some o → o = None
  end.
Proof.
  induction es as [|e es IH] using rev_ind; intros Hb; [done|]. rewrite core_run_snoc. simpl.
  destruct IH as (He & Hw & Hs & IH); [intros t v Hin; apply (Hb t v); set_solver|].
  set (r := core_run throttle_step (throttle_new Leading window) es) in *.
  assert (Hlen : length r.1 = length es) by apply length_core_run.
  (* an event that emits nothing keeps what is known *)
  assert (Hkeep : ∀ x, match window_end_ r.2 with
    | Some e => ∃ j t, last_pass (r.1 ++ [None]) (es ++ [x]) j t ∧ e = t + window
    | None => ∀ k o, (r.1 ++ [None]) !! k = Some o → o = None
    end).
  { intros x. destruct (window_end_ r.2) as [w|].
    - destruct IH as (j & t & [(v & Hj & Ho) Hk] & ->). exists j, t. split; [split|done].
      + exists v. split; by apply lookup_app_l_Some.
      + intros k o Hlt Hl. apply lookup_app_Some in Hl as [Hl|[_ Hl]]; [by eapply Hk|].
        by apply list_lookup_singleton_Some in Hl as [_ <-].
    - intros k o Hl. apply lookup_app_Some in Hl as [Hl|[_ Hl]]; [by eapply IH|].
      by apply list_lookup_singleton_Some in Hl as [_ <-]. }
  destruct e as [t v|now]; simpl.
  - unfold throttle_input. rewrite He. destruct (match window_end_ r.2 with Some _ => _ | None => _ end); simpl.
    { split_and!; [done..|]. apply Hkeep. }
    split_and!; [done..|]. exists (length es), t. split; [split|].
    + exists v. split; [by apply list_lookup_middle|]. rewrite <- Hlen. by apply list_lookup_middle.
    + intros k o Hlt Hl. apply lookup_lt_Some in Hl. rewrite length_app in Hl. simpl in Hl. lia.
    + rewrite Hw. apply u64_small. apply (Hb t v). set_solver.
  - unfold throttle_tick. rewrite He. simpl. split_and!; [done..|]. apply Hkeep.
Qed.

(** A leading throttle lets the first input of every window through and
    drops the rest.  The input at position [i] is emitted if and only if
    nothing was emitted before it or the last emission is at least a window
    old; ticks emit nothing. *)
Theorem leading_throttle_passes_first (window : Z) (es : list (Event T)) (i : nat) (v : T) :
  (∀ t v, Input t v ∈ es → is_u64 (t + window)) →
  let outs := (core_run throttle_step (throttle_new Leading window) es).1 in
  outs !! i = Some (Some v) ↔
  ∃ now, es !! i = Some (Input now v) ∧ ∀ j t, last_pass (take i outs) (take i es) j t → t + window ≤ now.
Proof.
  intros Hb outs. unfold outs. rewrite core_run_lookup.
  assert (Htake : take i (core_run throttle_step (throttle_new Leading window) es).1 =
    (core_run throttle_step (throttle_new Leading window) (take i es)).1).
  { clear. revert i. generalize (throttle_new (T:=T) Leading window). induction es as [|e es IH]; intros s i.
    - by destruct i.
    - destruct i as [|i]; [done|]. simpl. specialize (IH (throttle_step s e).2 i).
      destruct (throttle_step s e) as [o s1]. simpl in IH.
      destruct (core_run throttle_step s1 es), (core_run throttle_step s1 (take i es)). simpl in *. by rewrite IH. }
  rewrite Htake.
  destruct (leading_state window (take i es)) as (He & Hw & Hs & Hstate).
  { intros t w Hin. apply (Hb t w). rewrite <- (take_drop i es). set_solver. }
  set (r := core_run throttle_step (throttle_new Leading window) (take i es)) in *. clearbody r.
  assert (Huniq : ∀ j t j' t', last_pass r.1 (take i es) j t → last_pass r.1 (take i es) j' t' → t = t').
  { intros j t j' t' [(w & Hj & Ho) Hk] [(w' & Hj' & Ho') Hk'].
    destruct (lt_eq_lt_dec j j') as [[Hlt| ->]|Hlt]; [by specialize (Hk _ _ Hlt Ho')| |by specialize (Hk' _ _ Hlt Ho)].
    rewrite Hj in Hj'. by injection Hj' as ->. }
  split.
  - intros ([now w|now] & Hi & Hout); simpl in Hout.
    + unfold throttle_input in Hout. rewrite He in Hout. destruct (window_end_ r.2) as [e|].
      * destruct (now <? e) eqn:E; [done|]. zify_bools. injection Hout as <-. exists now. split; [done|].
        intros j t Hl. destruct Hstate as (j' & t' & Hl' & ->). by rewrite (Huniq _ _ _ _ Hl Hl').
      * injection Hout as <-. exists now. split; [done|]. intros j t [(w & _ & Ho) _]. by specialize (Hstate _ _ Ho).
    + unfold throttle_tick in Hout. by rewrite He in Hout.
  - intros (now & Hi & Hl). exists (Input now v). split; [done|]. simpl. unfold throttle_input. rewrite He.
    destruct (window_end_ r.2) as [e|]; [|done]. destruct Hstate as (j & t & Hl' & ->). specialize (Hl j t Hl').
    destruct (now <? t + window) eqn:E; [zify_bools; lia|done].
Qed.

End throttle.

Lemma leading_throttle_passes_first_witness :
  let es := [Input 0 1; Input 4 2; Tick 6; Input 10 3; Input 12 4] in
  let outs := (core_run throttle_step (throttle_new Leading 10) es).1 in
  outs = [Some 1; None; None; Some 3; None] ∧
  (outs !! 3%nat = Some (Some 3) ↔
   ∃ now, es !! 3%nat = Some (Input now 3) ∧ ∀ j t, last_pass (take 3 outs) (take 3 es) j t → t + 10 ≤ now).
Proof.
  split; [reflexivity|]. apply (leading_throttle_passes_first 10 [Input 0 1; Input 4 2; Tick 6; Input 10 3; Input 12 4] 3 3).
  intros t v Hin.
  repeat (apply elem_of_cons in Hin as [Hin|Hin]; [simplify_eq; unfold is_u64, two64; lia|]).
  by apply elem_of_nil in Hin.
Defined.

(** ** Sampling *)
Section sampling.
  Context {T : Type}.
  Implicit Types (vs : list T).

Lemma sample_counter n vs :
  Z.of_nat (length vs) < two64 →
  let s := (core_run sample_input (sample_new (Count n)) vs).2 in
  mode_ s = Count n ∧ counter_ s = Z.of_nat (length vs).
Proof.
  induction vs as [|v vs IH] using rev_ind; intros Hb; [done|]. rewrite length_app in *. simpl in Hb.
  destruct IH as [Hm Hc]; [lia|]. rewrite core_run_snoc. destruct (core_run sample_input (sample_new (Count n)) vs) as [os s]. simpl in *.
  unfold sample_input. rewrite Hm. simpl. rewrite Hc, u64_small by (unfold is_u64; lia). split; [done|]. lia.
Qed.

(** Counting samplers keep every [n]-th input, and only those: input number
    [i] (from 0) is emitted if and only if [i + 1] is a multiple of [n], where a
    count of 0 means 1. *)
Theorem count_sampler_keeps_every_nth (n : Z) (vs : list T) (i : nat) (v : T) :
  Z.of_nat (length vs) < two64 →
  (core_run sample_input (sample_new (Count n)) vs).1 !! i = Some (Some v) ↔
  vs !! i = Some v ∧ Z.of_nat (S i) mod Z.max n 1 = 0.
Proof.
  intros Hb. rewrite core_run_lookup.
  assert (Hn : (if n <? 1 then 1 else n) = Z.max n 1) by (destruct (n <? 1) eqn:E; zify_bools; lia).
  assert (Hstep : ∀ w, vs !! i = Some w →
    (sample_input (core_run sample_input (sample_new (Count n)) (take i vs)).2 w).1 =
    if Z.of_nat (S i) mod Z.max n 1 =? 0 then Some w else None).
  { intros w Hw. pose proof (lookup_lt_Some _ _ _ Hw) as Hlt.
    assert (Hl : length (take i vs) = i) by (rewrite length_take; lia).
    destruct (sample_counter n (take i vs)) as [Hm Hc]; [lia|].
    destruct (core_run sample_input (sample_new (Count n)) (take i vs)) as [os s]. simpl in *.
    unfold sample_input. rewrite Hm, Hc, Hn, Hl, u64_small by (unfold is_u64; lia). simpl.
    by replace (Z.of_nat i + 1) with (Z.of_nat (S i)) by lia. }
  split.
  - intros (w & Hw & He). rewrite (Hstep w Hw) in He. destruct (_ =? 0) eqn:E; [|done]. zify_bools.
    injection He as <-. done.
  - intros [Hv Hm]. exists v. split; [done|]. rewrite (Hstep v Hv), Hm. done.
Qed.

End sampling.

Lemma count_sampler_keeps_every_nth_witness :
  (core_run sample_input (sample_new (Count 3)) [10; 20; 30; 40]).1 !! 2%nat = Some (Some 30) ↔
  [10; 20; 30; 40] !! 2%nat = Some 30 ∧ Z.of_nat 3 mod Z.max 3 1 = 0.
Proof. apply (count_sampler_keeps_every_nth 3 [10; 20; 30; 40] 2 30). unfold two64. simpl. lia. Defined.

Lemma lxor_range a b n : 0 ≤ n → 0 ≤ a < 2 ^ n → 0 ≤ b < 2 ^ n → 0 ≤ Z.lxor a b < 2 ^ n.
Proof.
  intros Hn Ha Hb. assert (Hpos : 0 ≤ Z.lxor a b) by (apply Z.lxor_nonneg; lia). split; [done|].
  destruct (decide (Z.lxor a b = 0)) as [->|Hne]; [apply Z.pow_pos_nonneg; lia|].
  apply Z.log2_lt_pow2; [lia|]. pose proof (Z.log2_lxor a b ltac:(lia) ltac:(lia)).
  assert (Hlog : ∀ x, 0 ≤ x < 2 ^ n → Z.log2 x < n ∨ n = 0).
  { intros x Hx. destruct (decide (x = 0)) as [->|]; [change (Z.log2 0) with 0; lia|]. left. apply Z.log2_lt_pow2; lia. }
  destruct (decide (n = 0)) as [->|]; [exfalso; apply Hne; change (2 ^ 0) with 1 in *; replace a with 0 by lia; by replace b with 0 by lia|].
  destruct (Hlog a Ha), (Hlog b Hb); lia.
Qed.

Lemma mantissa_range seed : 0 ≤ (next_mantissa (mkLcg seed)).1 < 2 ^ 53 ∧ is_u64 (state_ (next_mantissa (mkLcg seed)).2).
Proof.
  unfold next_mantissa. simpl fst. simpl snd. simpl state_. split; [|apply u64_range].
  set (z := u64 (Z.lxor (u64 _) _ * 0x94D049BB133111EB)).
  assert (Hz : 0 ≤ z < 2 ^ 64) by apply u64_range.
  assert (Hs : 0 ≤ Z.shiftr z 31 < 2 ^ 64).
  { rewrite Z.shiftr_div_pow2 by lia. split; [apply Z.div_pos; lia|]. apply Z.div_lt_upper_bound; lia. }
  pose proof (lxor_range _ _ 64 ltac:(lia) Hz Hs) as Hx. rewrite Z.shiftr_div_pow2 by lia.
  split; [apply Z.div_pos; lia|]. apply Z.div_lt_upper_bound; [lia|]. change (2 ^ 11 * 2 ^ 53) with (2 ^ 64). lia.
Qed.

(** The generator stays in range and the extreme rates are exact: from any
    seed, every draw is [m / 2^53] with [0 <= m < 2^53], so a rate of at least
    1 (or infinity) samples every draw, and a rate of at most 0 (or a NaN) none. *)
Theorem probabilistic_extremes (seed : Z) (q : Q) :
  let '(m, g) := next_mantissa (mkLcg seed) in
  0 ≤ m < 2 ^ 53 ∧ is_u64 (state_ g) ∧ (next_f64 (mkLcg seed)).1 = Finite (m # 2 ^ 53) ∧
  ((1 <= q)%Q → decide_draw (probabilistic_new (Finite q)) (next_f64 (mkLcg seed)).1 = true) ∧
  ((q <= 0)%Q → decide_draw (probabilistic_new (Finite q)) (next_f64 (mkLcg seed)).1 = false) ∧
  decide_draw (probabilistic_new (Infinity false)) (next_f64 (mkLcg seed)).1 = true ∧
  decide_draw (probabilistic_new NaN) (next_f64 (mkLcg seed)).1 = false.
Proof.
  pose proof (mantissa_range seed) as [Hm Hg]. unfold next_f64. destruct (next_mantissa (mkLcg seed)) as [m g]. simpl in *.
  assert (Hlt1 : Qle_bool 1 (m # 9007199254740992) = false).
  { destruct (Qle_bool _ _) eqn:E; [|done]. apply Qle_bool_iff in E. unfold Qle in E. simpl in E. lia. }
  assert (Hge0 : Qle_bool 0 (m # 9007199254740992) = true).
  { apply Qle_bool_iff. unfold Qle. simpl. lia. }
  assert (Hrate : decide_draw (probabilistic_new (Finite q)) (Finite (m # 9007199254740992)) =
    negb (Qle_bool (if negb (Qle_bool 0 q) then 0 else if negb (Qle_bool q 1) then 1 else q)%Q (m # 9007199254740992))).
  { unfold decide_draw, probabilistic_new. unfold double_lt at 2 3. simpl rate_.
    destruct (Qle_bool 0 q); simpl; [destruct (Qle_bool q 1)|]; reflexivity. }
  split_and!; [lia|lia|done|done| | | |].
  - intros Hq. etransitivity; [exact Hrate|].
    assert (E0 : Qle_bool 0 q = true) by (apply Qle_bool_iff; eapply Qle_trans; [|exact Hq]; done).
    rewrite E0. simpl. destruct (Qle_bool q 1) eqn:E1; simpl; [|by rewrite Hlt1].
    destruct (Qle_bool q (m # 9007199254740992)) eqn:E2; [|done].
    apply Qle_bool_iff in E2. assert (E3 : (1 <= m # 9007199254740992)%Q) by (eapply Qle_trans; eauto).
    apply Qle_bool_iff in E3. congruence.
  - intros Hq. etransitivity; [exact Hrate|].
    destruct (Qle_bool 0 q) eqn:E0; simpl; [|by rewrite Hge0].
    assert (E1 : Qle_bool q 1 = true) by (apply Qle_bool_iff; eapply Qle_trans; [exact Hq|]; done).
    rewrite E1. simpl. assert (E2 : Qle_bool q (m # 9007199254740992) = true); [|by rewrite E2].
    apply Qle_bool_iff. eapply Qle_trans; [exact Hq|]. by apply Qle_bool_iff.
  - unfold probabilistic_new, decide_draw. simpl. by rewrite Hlt1.
  - done.
Qed.
