(* ===== verification/Merge.v ===== *)
(** * Merge: the merge algebra

    Models include/lazily/merge.hpp: the five merge policies with the flags they
    declare, and the cell whose write is a merge. *)
From S2P Require Import Prelude Kernel KernelCorrect Reactive.

(** ** Policies *)

(** What the code asks of a policy type: the fold and its three flags. *)
Class MergePolicy (T : Type) := {
  merge : T → T → T;
  commutative : bool;
  idempotent : bool;
  conflates : bool;
}.

(** The laws behind the flags; associativity is required of every policy. *)
Class MergeLaws (T : Type) `{MP : MergePolicy T} : Prop := {
  merge_assoc (a b c : T) : merge a (merge b c) = merge (merge a b) c;
  merge_comm : commutative = true → ∀ a b : T, merge a b = merge b a;
  merge_idem : idempotent = true → ∀ a b : T, merge (merge a b) b = merge a b;
}.

(* include/lazily/merge.hpp:29-35, KeepLatest *)
Definition KeepLatest {T} : MergePolicy T :=
  {| merge a b := b; commutative := false; idempotent := true; conflates := true |}.

(** On [uint64_t]. *)
(* include/lazily/merge.hpp:38-44, Sum *)
Definition Sum : MergePolicy Z :=
  {| merge a b := u64 (a + b); commutative := true; idempotent := false; conflates := true |}.

(* include/lazily/merge.hpp:47-53, Max *)
Definition Max : MergePolicy Z :=
  {| merge a b := if (a <? b)%Z then b else a; commutative := true; idempotent := true; conflates := true |}.

(* include/lazily/merge.hpp:56-66, SetUnion *)
Definition SetUnion {K} `{Countable K} : MergePolicy (gset K) :=
  {| merge a b := a ∪ b; commutative := true; idempotent := true; conflates := true |}.

(* include/lazily/merge.hpp:70-80, RawFifo *)
Definition RawFifo {T} : MergePolicy (list T) :=
  {| merge a b := a ++ b; commutative := false; idempotent := false; conflates := false |}.

(** Folding a sequence of operations into a value. *)
Definition fold_merge {T} `{MergePolicy T} (v : T) (ops : list T) : T := foldl merge v ops.

(** ** MergeCell *)
Section merge_cell.
  Context {C H T : Type} `{SourceContext C H T} `{MergePolicy T}.

(* include/lazily/merge.hpp:87-97, MergeCell::MergeCell *)
Definition merge_cell_new (initial : T) (c : C) : option (H * C) := ctx_source initial c.

(* include/lazily/merge.hpp:106-109, MergeCell::get *)
Definition merge_cell_get (cell : H) (c : C) : option T := ctx_get cell c.

(* include/lazily/merge.hpp:112-112, MergeCell::set *)
Definition merge_cell_set (cell : H) (v : T) (c : C) : option C := ctx_set cell v c.

(* include/lazily/merge.hpp:115-119, MergeCell::merge *)
Definition merge_cell_merge (cell : H) (op : T) (c : C) : option C :=
  old ← ctx_peek cell c; ctx_set cell (merge old op) c.

Fixpoint merge_all (cell : H) (ops : list T) (c : C) : option C :=
  match ops with [] => Some c | op :: ops => c ← merge_cell_merge cell op c; merge_all cell ops c end.

Context `{!SourceContextLaws C H T}.

Lemma merge_all_ok cell ops : ∀ v c, ctx_ok c → holds c cell v →
  ∃ c', merge_all cell ops c = Some c' ∧ ctx_ok c' ∧ holds c' cell (fold_merge v ops) ∧
    ∀ h' v', h' ≠ cell → holds c h' v' → holds c' h' v'.
Proof.
  induction ops as [|op ops IH]; intros v c Hc Hv; simpl; [by exists c|].
  unfold merge_cell_merge. rewrite (ctx_peek_ok c cell v Hv). simpl.
  destruct (ctx_set_ok c cell (merge v op) v Hc Hv) as (c1 & E1 & Hc1 & Hv1 & Ho1). rewrite E1. simpl.
  destruct (IH _ c1 Hc1 Hv1) as (c2 & E2 & Hc2 & Hv2 & Ho2). exists c2. split_and!; auto.
Qed.

End merge_cell.

(** ** Laws *)

#[local] Instance Max_laws : @MergeLaws Z Max.
Proof.
  split; simpl.
  - intros a b c. destruct (Z.ltb_spec b c), (Z.ltb_spec a b);
      repeat match goal with |- context [(?x <? ?y)%Z] => destruct (Z.ltb_spec x y) end; lia.
  - intros _ a b. destruct (Z.ltb_spec a b), (Z.ltb_spec b a); lia.
  - intros _ a b. destruct (a <? b)%Z eqn:E; [by rewrite Z.ltb_irrefl|by rewrite E].
Qed.


Lemma fold_merge_perm {T} `{MergeLaws T} (v : T) ops ops' :
  commutative = true → ops ≡ₚ ops' → fold_merge v ops = fold_merge v ops'.
Proof.
  intros Hc Hp. revert v. unfold fold_merge. induction Hp as [|x l l' Hp IH|x y l|l1 l2 l3 _ IH1 _ IH2]; intros v; simpl; auto.
  - f_equal. rewrite <- !merge_assoc. f_equal. by apply merge_comm.
  - by rewrite IH1.
Qed.

(** An operation already folded in is absorbed, wherever it was. *)
Lemma fold_merge_absorb {T} `{MergeLaws T} (v : T) ops op :
  commutative = true → idempotent = true → op ∈ ops → merge (fold_merge v ops) op = fold_merge v ops.
Proof.
  intros Hc Hi Hin. apply list_elem_of_split in Hin as (l1 & l2 & ->).
  assert (Hp : l1 ++ op :: l2 ≡ₚ l1 ++ l2 ++ [op]) by (by rewrite Permutation_cons_append, app_assoc).
  rewrite (fold_merge_perm v _ _ Hc Hp). unfold fold_merge. rewrite app_assoc, foldl_app. simpl.
  by apply merge_idem.
Qed.

Lemma fold_merge_repeat {T} `{MergeLaws T} (v : T) ops repeated :
  commutative = true → idempotent = true → (∀ op, op ∈ repeated → op ∈ ops) →
  fold_merge v (ops ++ repeated) = fold_merge v ops.
Proof.
  intros Hc Hi. unfold fold_merge at 1. rewrite foldl_app. fold (fold_merge v ops).
  induction repeated as [|op repeated IH]; intros Hr; simpl; [done|].
  rewrite fold_merge_absorb by (auto; apply Hr; by left). apply IH. intros. apply Hr. by right.
Qed.

(** A merge cell converges to the fold of its operations.  Over any
    implementation of the context's sources, merging a sequence of operations
    leaves the fold of the sequence in the cell; under a commutative policy any
    other order of delivery leaves the same value, and under a commutative and
    idempotent one so does delivering some of the operations again. *)
Theorem merge_cell_converges {C H T : Type} `{SourceContext C H T} `{!SourceContextLaws C H T} `{MergeLaws T}
    (initial : T) (ops reordered repeated : list T) (c : C) :
  ctx_ok c → ops ≡ₚ reordered → (∀ op, op ∈ repeated → op ∈ ops) →
  ∃ cell c1 c2, merge_cell_new initial c = Some (cell, c1) ∧ merge_all cell ops c1 = Some c2 ∧
    merge_cell_get cell c2 = Some (fold_merge initial ops) ∧
    (commutative = true → ∃ c3, merge_all cell reordered c1 = Some c3 ∧ merge_cell_get cell c3 = merge_cell_get cell c2) ∧
    (commutative = true → idempotent = true →
     ∃ c3, merge_all cell (ops ++ repeated) c1 = Some c3 ∧ merge_cell_get cell c3 = merge_cell_get cell c2).
Proof.
  intros Hc Hp Hr. destruct (ctx_source_ok c initial Hc) as (cell & c1 & E1 & Hc1 & Hv1 & _).
  destruct (merge_all_ok cell ops initial c1 Hc1 Hv1) as (c2 & E2 & Hc2 & Hv2 & _).
  exists cell, c1, c2. unfold merge_cell_new, merge_cell_get. rewrite (ctx_get_ok c2 cell _ Hv2).
  split_and!; [done|done|done| |].
  - intros Hcomm. destruct (merge_all_ok cell reordered initial c1 Hc1 Hv1) as (c3 & E3 & Hc3 & Hv3 & _).
    exists c3. split; [done|]. rewrite (ctx_get_ok c3 cell _ Hv3). f_equal. symmetry. by apply fold_merge_perm.
  - intros Hcomm Hidem. destruct (merge_all_ok cell (ops ++ repeated) initial c1 Hc1 Hv1) as (c3 & E3 & Hc3 & Hv3 & _).
    exists c3. split; [done|]. rewrite (ctx_get_ok c3 cell _ Hv3). f_equal. by apply fold_merge_repeat.
Qed.

Lemma merge_cell_converges_witness :
  ∃ cell c1 c2, merge_cell_new (C := Ctx Z) 3%Z empty_ctx = Some (cell, c1) ∧
    @merge_all _ _ _ _ Max cell [5; 2; 9]%Z c1 = Some c2 ∧
    merge_cell_get cell c2 = Some 9%Z ∧
    (true = true → ∃ c3, @merge_all _ _ _ _ Max cell [9; 5; 2]%Z c1 = Some c3 ∧ merge_cell_get cell c3 = merge_cell_get cell c2) ∧
    (true = true → true = true → ∃ c3, @merge_all _ _ _ _ Max cell ([5; 2; 9] ++ [2; 2])%Z c1 = Some c3 ∧
       merge_cell_get cell c3 = merge_cell_get cell c2).
Proof.
  refine (merge_cell_converges (C := Ctx Z) (H := Handle) (MP := Max) 3%Z [5; 2; 9]%Z [9; 5; 2]%Z [2; 2]%Z empty_ctx _ _ _).
  - apply empty_ctx_ok.
  - apply (Permutation_app_comm [5; 2]%Z [9]%Z).
  - set_solver.
Defined.
