(* ===== verification/Windowing.v ===== *)
(** * Windowing: stream windows over the merge algebra

    Models include/lazily/windowing.hpp: tumbling windows by count and by time,
    sliding windows and sessions, each a core folding its elements with a
    [MergePolicy] and a cell that publishes the emitted aggregates. *)
From S2P Require Import Prelude Kernel KernelCorrect Reactive Merge.
#[local] Open Scope Z_scope.

(** ** Cores *)
Section cores.
  Context {T : Type} `{MergePolicy T}.
  Implicit Types (v : T) (acc : option T).

(* include/lazily/windowing.hpp:37-43, window_merge_into *)
Definition window_merge_into acc v : option T :=
  match acc with None => Some v | Some a => Some (merge a v) end.

(* include/lazily/windowing.hpp:46-51, window_fold *)
Definition window_fold (items : list T) : option T := foldl window_merge_into None items.

(* include/lazily/windowing.hpp:54-58, take_opt *)
Definition take_opt acc : option T * option T := (acc, None).

(* include/lazily/windowing.hpp:81-83, TumblingCountCore (data members) *)
Record TumblingCountCore := mkTumblingCount { n_ : Z; tc_acc_ : option T; tc_count_ : Z }.

(* include/lazily/windowing.hpp:67-67, TumblingCountCore::TumblingCountCore *)
Definition tumbling_count_new (n : Z) : TumblingCountCore := mkTumblingCount (if n <? 1 then 1 else n) None 0.

(* include/lazily/windowing.hpp:70-78, TumblingCountCore::push *)
Definition tumbling_count_push (w : TumblingCountCore) v : option T * TumblingCountCore :=
  let acc := window_merge_into (tc_acc_ w) v in
  let count := u64 (tc_count_ w + 1) in
  if n_ w <=? count
  then let '(out, acc) := take_opt acc in (out, mkTumblingCount (n_ w) acc 0)
  else (None, mkTumblingCount (n_ w) acc count).

(* include/lazily/windowing.hpp:108-110, TumblingTimeCore (data members) *)
Record TumblingTimeCore := mkTumblingTime { period_ : Z; next_ : Z; tt_acc_ : option T }.

(* include/lazily/windowing.hpp:93-94, TumblingTimeCore::TumblingTimeCore *)
Definition tumbling_time_new (period : Z) : TumblingTimeCore :=
  mkTumblingTime (if period <? 1 then 1 else period) (if period <? 1 then 1 else period) None.

(* include/lazily/windowing.hpp:97-97, TumblingTimeCore::push *)
Definition tumbling_time_push (w : TumblingTimeCore) (now : Z) v : TumblingTimeCore :=
  mkTumblingTime (period_ w) (next_ w) (window_merge_into (tt_acc_ w) v).

(** [while (next_ <= now) next_ += period_], [None] when the fuel runs out. *)
(* include/lazily/windowing.hpp:102-103, TumblingTimeCore::tick *)
Fixpoint advance (fuel : nat) (period next now : Z) : option Z :=
  match fuel with
  | O => None
  | S fuel => if next <=? now then advance fuel period (u64 (next + period)) now else Some next
  end.

(* include/lazily/windowing.hpp:100-105, TumblingTimeCore::tick *)
Definition tumbling_time_tick (fuel : nat) (w : TumblingTimeCore) (now : Z) : option (option T * TumblingTimeCore) :=
  if now <? next_ w then Some (None, w)
  else
    next ← advance fuel (period_ w) (next_ w) now;
    let '(out, acc) := take_opt (tt_acc_ w) in Some (out, mkTumblingTime (period_ w) next acc).

(* include/lazily/windowing.hpp:138-141, SlidingCore (data members) *)
Record SlidingCore := mkSliding { size_ : Z; slide_ : Z; buffer_ : list T; since_ : Z }.

(* include/lazily/windowing.hpp:121-122, SlidingCore::SlidingCore *)
Definition sliding_new (size slide : Z) : SlidingCore :=
  mkSliding (if size <? 1 then 1 else size) (if slide <? 1 then 1 else slide) [] 0.

(* include/lazily/windowing.hpp:125-135, SlidingCore::push *)
Definition sliding_push (w : SlidingCore) v : option T * SlidingCore :=
  let buffer := trim (size_ w) (buffer_ w ++ [v]) in
  let since := u64 (since_ w + 1) in
  if slide_ w <=? since
  then (window_fold buffer, mkSliding (size_ w) (slide_ w) buffer 0)
  else (None, mkSliding (size_ w) (slide_ w) buffer since).

(* include/lazily/windowing.hpp:181-183, SessionCore (data members) *)
Record SessionCore := mkSession { gap_ : Z; ss_acc_ : option T; last_ : option Z }.

(* include/lazily/windowing.hpp:151-151, SessionCore::SessionCore *)
Definition session_new (gap : Z) : SessionCore := mkSession gap None None.

(* include/lazily/windowing.hpp:175-179, SessionCore::idle *)
Definition idle (s : SessionCore) (now : Z) : bool :=
  match last_ s with
  | None => false
  | Some l => let delta := if l <=? now then u64 (now - l) else 0 in gap_ s <? delta
  end.

(* include/lazily/windowing.hpp:155-165, SessionCore::push *)
Definition session_push (s : SessionCore) (now : Z) v : option T * SessionCore :=
  if idle s now && bool_decide (is_Some (ss_acc_ s))
  then let '(emit, _) := take_opt (ss_acc_ s) in (emit, mkSession (gap_ s) (Some v) (Some now))
  else (None, mkSession (gap_ s) (window_merge_into (ss_acc_ s) v) (Some now)).

(* include/lazily/windowing.hpp:168-171, SessionCore::flush *)
Definition session_flush (s : SessionCore) (now : Z) : option T * SessionCore :=
  if idle s now && bool_decide (is_Some (ss_acc_ s))
  then let '(out, acc) := take_opt (ss_acc_ s) in (out, mkSession (gap_ s) acc (last_ s))
  else (None, s).

(** What a client feeds a timed window: an element, or a [tick] / [flush]. *)
Inductive WindowEvent := Push (now : Z) (v : T) | Close (now : Z).

Definition session_step (s : SessionCore) (e : WindowEvent) : option T * SessionCore :=
  match e with Push now v => session_push s now v | Close now => session_flush s now end.

End cores.
Arguments TumblingCountCore : clear implicits.
Arguments TumblingTimeCore : clear implicits.
Arguments SlidingCore : clear implicits.
Arguments SessionCore : clear implicits.
Arguments WindowEvent : clear implicits.

(** ** Cells *)
Section cells.
  Context {C H T : Type} `{SourceContext C H (option T)} `{MergePolicy T}.

(* include/lazily/windowing.hpp:191-195, window_set_output *)
Definition window_set_output (cell : H) (emitted : option T) (c : C) : option C :=
  match emitted with Some v => ctx_set cell (Some v) c | None => Some c end.

(* include/lazily/windowing.hpp:198-201, TumblingCountWindow::TumblingCountWindow *)
Definition tumbling_count_window_new (n : Z) (c : C) : option (Projected (H:=H) (S:=TumblingCountCore T) * C) :=
  '(output, c) ← ctx_source None c; Some (mkProjected (tumbling_count_new n) output, c).

(* include/lazily/windowing.hpp:203-207, TumblingCountWindow::push *)
Definition tumbling_count_window_push (w : Projected (H:=H) (S:=TumblingCountCore T)) (v : T) (c : C) :=
  let '(e, core) := tumbling_count_push (core_ w) v in
  c ← window_set_output (output_ w) e c; Some (e, mkProjected core (output_ w), c).

(* include/lazily/windowing.hpp:217-220, TumblingTimeWindow::TumblingTimeWindow *)
Definition tumbling_time_window_new (period : Z) (c : C) : option (Projected (H:=H) (S:=TumblingTimeCore T) * C) :=
  '(output, c) ← ctx_source None c; Some (mkProjected (tumbling_time_new period) output, c).

(* include/lazily/windowing.hpp:222-227, TumblingTimeWindow::push, tick *)
Definition tumbling_time_window_step (fuel : nat) (w : Projected (H:=H) (S:=TumblingTimeCore T)) (e : WindowEvent T) (c : C) :
    option (option T * Projected (H:=H) (S:=TumblingTimeCore T) * C) :=
  match e with
  | Push now v => Some (None, mkProjected (tumbling_time_push (core_ w) now v) (output_ w), c)
  | Close now =>
      '(e, core) ← tumbling_time_tick fuel (core_ w) now;
      c ← window_set_output (output_ w) e c; Some (e, mkProjected core (output_ w), c)
  end.

(* include/lazily/windowing.hpp:237-240, SlidingWindow::SlidingWindow *)
Definition sliding_window_new (size slide : Z) (c : C) : option (Projected (H:=H) (S:=SlidingCore T) * C) :=
  '(output, c) ← ctx_source None c; Some (mkProjected (sliding_new size slide) output, c).

(* include/lazily/windowing.hpp:242-246, SlidingWindow::push *)
Definition sliding_window_push (w : Projected (H:=H) (S:=SlidingCore T)) (v : T) (c : C) :=
  let '(e, core) := sliding_push (core_ w) v in
  c ← window_set_output (output_ w) e c; Some (e, mkProjected core (output_ w), c).

(* include/lazily/windowing.hpp:256-258, SessionWindow::SessionWindow *)
Definition session_window_new (gap : Z) (c : C) : option (Projected (H:=H) (S:=SessionCore T) * C) :=
  '(output, c) ← ctx_source None c; Some (mkProjected (session_new gap) output, c).

(* include/lazily/windowing.hpp:260-269, SessionWindow::push, flush *)
Definition session_window_step (w : Projected (H:=H) (S:=SessionCore T)) (e : WindowEvent T) (c : C) :=
  let '(e, core) := match e with
    | Push now v => session_push (core_ w) now v
    | Close now => session_flush (core_ w) now
    end in
  c ← window_set_output (output_ w) e c; Some (e, mkProjected core (output_ w), c).

End cells.

(** ** Folding *)
Section folding.
  Context {T : Type} `{MergePolicy T}.
  Implicit Types (vs : list T).

Lemma window_fold_snoc vs v : window_fold (vs ++ [v]) = window_merge_into (window_fold vs) v.
Proof. unfold window_fold. by rewrite foldl_app. Qed.

Lemma window_fold_cons v vs : window_fold (v :: vs) = Some (fold_merge v vs).
Proof.
  induction vs as [|w vs IH] using rev_ind; [done|].
  rewrite app_comm_cons, window_fold_snoc, IH. unfold fold_merge. by rewrite foldl_app.
Qed.

Lemma window_fold_None vs : window_fold vs = None ↔ vs = [].
Proof. destruct vs; [done|]. by rewrite window_fold_cons. Qed.

End folding.

(** Position in a cycle, one step on. *)
Lemma mod_succ k n : 0 < n → 0 ≤ k →
  (n ≤ k mod n + 1 ∧ (k + 1) mod n = 0) ∨ (k mod n + 1 < n ∧ (k + 1) mod n = k mod n + 1).
Proof.
  intros Hn Hk. pose proof (Z.mod_pos_bound k n Hn).
  destruct (decide (k mod n + 1 < n)); [right; split; [done|]|left; split; [lia|]].
  - symmetry. apply (Z.mod_unique _ _ (k / n)); [lia|]. pose proof (Z.div_mod k n). lia.
  - symmetry. apply (Z.mod_unique _ _ (k / n + 1)); [lia|]. pose proof (Z.div_mod k n). lia.
Qed.

(** ** Tumbling by count *)
Section tumbling_count.
  Context {T : Type} `{MergePolicy T}.
  Implicit Types (vs : list T).

(** The elements pushed since the last multiple of [n]. *)
Definition since_multiple (n : Z) vs : list T :=
  drop (length vs - Z.to_nat (Z.of_nat (length vs) mod n)) vs.

Lemma since_multiple_snoc n vs v :
  0 < n → since_multiple n (vs ++ [v]) =
    if decide (Z.of_nat (S (length vs)) mod n = 0) then [] else since_multiple n vs ++ [v].
Proof.
  intros Hn. unfold since_multiple.
  replace (length (vs ++ [v])) with (S (length vs)) by (rewrite length_app; simpl; lia).
  replace (Z.of_nat (S (length vs))) with (Z.of_nat (length vs) + 1) by lia.
  pose proof (Z.mod_pos_bound (Z.of_nat (length vs)) n Hn) as Hb.
  pose proof (Z.mod_le (Z.of_nat (length vs)) n ltac:(lia) Hn) as Hle.
  destruct (mod_succ (Z.of_nat (length vs)) n Hn ltac:(lia)) as [[Hw Hz]|[Hw Hz]]; rewrite Hz.
  - rewrite decide_True by done. apply drop_ge. rewrite length_app. simpl. lia.
  - rewrite decide_False by lia. rewrite drop_app_le by lia. do 2 f_equal. lia.
Qed.

Lemma tumbling_count_state n vs :
  is_u64 n →
  let w := (core_run tumbling_count_push (tumbling_count_new n) vs).2 in
  n_ w = Z.max n 1 ∧ tc_count_ w = Z.of_nat (length vs) mod Z.max n 1 ∧
  tc_acc_ w = window_fold (since_multiple (Z.max n 1) vs).
Proof.
  intros Hu. induction vs as [|v vs IH] using rev_ind; [unfold tumbling_count_new; simpl; rewrite at_least_one, Z.mod_0_l by lia; done|].
  rewrite core_run_snoc. destruct (core_run tumbling_count_push (tumbling_count_new n) vs) as [os w]. simpl in *.
  destruct IH as (Hn & Hc & Ha). unfold tumbling_count_push. rewrite Hn, Hc, Ha, length_app. simpl.
  pose proof (Z.mod_pos_bound (Z.of_nat (length vs)) (Z.max n 1) ltac:(lia)) as Hb. unfold is_u64 in Hu.
  rewrite u64_small by (unfold is_u64, two64 in *; lia). rewrite since_multiple_snoc by lia.
  replace (Z.of_nat (length vs + 1)) with (Z.of_nat (length vs) + 1) by lia.
  replace (Z.of_nat (S (length vs))) with (Z.of_nat (length vs) + 1) by lia.
  destruct (mod_succ (Z.of_nat (length vs)) (Z.max n 1) ltac:(lia) ltac:(lia)) as [[Hw Hz]|[Hw Hz]]; rewrite Hz.
  - rewrite decide_True by done. destruct (_ <=? _) eqn:E; zify_bools; [done|lia].
  - rewrite decide_False by lia. destruct (_ <=? _) eqn:E; zify_bools; [lia|]. by rewrite window_fold_snoc.
Qed.

(** A tumbling window by count emits the fold of every [n] consecutive
    elements, and nothing else: push number [i] (from 0) emits the fold of the
    elements at [i + 1 - n .. i] when [i + 1] is a multiple of [n], and nothing
    otherwise, a count of 0 meaning 1. *)
Theorem tumbling_count_folds_chunks (n : Z) vs (i : nat) (o : option T) :
  is_u64 n →
  (core_run tumbling_count_push (tumbling_count_new n) vs).1 !! i = Some o ↔
  (i < length vs)%nat ∧
  o = if decide (Z.of_nat (S i) mod Z.max n 1 = 0)
      then window_fold (take (Z.to_nat (Z.max n 1)) (drop (S i - Z.to_nat (Z.max n 1)) vs))
      else None.
Proof.
  intros Hu. rewrite core_run_lookup.
  assert (Hstep : ∀ v, vs !! i = Some v →
    (tumbling_count_push (core_run tumbling_count_push (tumbling_count_new n) (take i vs)).2 v).1 =
    if decide (Z.of_nat (S i) mod Z.max n 1 = 0)
    then window_fold (take (Z.to_nat (Z.max n 1)) (drop (S i - Z.to_nat (Z.max n 1)) vs)) else None).
  { intros v Hv. pose proof (lookup_lt_Some _ _ _ Hv) as Hlt.
    assert (Hl : length (take i vs) = i) by (rewrite length_take; lia).
    destruct (tumbling_count_state n (take i vs) Hu) as (Hn & Hc & Ha).
    destruct (core_run tumbling_count_push (tumbling_count_new n) (take i vs)) as [os w]. simpl in Hn, Hc, Ha. simpl snd.
    unfold tumbling_count_push. rewrite Hn, Hc, Ha, Hl. set (m := Z.max n 1) in *.
    assert (Hm : 0 < m) by lia. pose proof (Z.mod_pos_bound (Z.of_nat i) m Hm) as Hb.
    rewrite u64_small by (unfold is_u64, two64 in *; lia).
    replace (Z.of_nat (S i)) with (Z.of_nat i + 1) by lia.
    destruct (mod_succ (Z.of_nat i) m Hm ltac:(lia)) as [[Hw Hz]|[Hw Hz]]; rewrite Hz.
    - rewrite decide_True by done. destruct (_ <=? _) eqn:E; zify_bools; [|lia]. cbn [fst take_opt].
      rewrite <- window_fold_snoc. f_equal. unfold since_multiple. rewrite Hl.
      assert (Hmi : Z.of_nat i mod m = m - 1) by lia.
      pose proof (Z.mod_le (Z.of_nat i) m ltac:(lia) Hm) as Hle. rewrite Hmi.
      rewrite <- drop_app_le by (rewrite Hl; lia). rewrite <- take_S_r by done.
      rewrite skipn_firstn_comm. f_equal; [lia|]. f_equal. lia.
    - rewrite decide_False by lia. destruct (_ <=? _) eqn:E; zify_bools; [lia|]. done. }
  split.
  - intros (v & Hv & ->). split; [by eapply lookup_lt_Some|]. by apply Hstep.
  - intros [[v Hv]%lookup_lt_is_Some ->]. exists v. split; [done|]. symmetry. by apply Hstep.
Qed.

End tumbling_count.

Lemma tumbling_count_folds_chunks_witness :
  (@core_run _ _ _ (@tumbling_count_push Z Sum) (tumbling_count_new 3) [1; 2; 3; 4; 5; 6]).1 =
    [None; None; Some 6; None; None; Some 15] ∧
  ((@core_run _ _ _ (@tumbling_count_push Z Sum) (tumbling_count_new 3) [1; 2; 3; 4; 5; 6]).1 !! 5%nat = Some (Some 15) ↔
   (5 < 6)%nat ∧ Some 15 = if decide (6 mod 3 = 0) then @window_fold Z Sum (take 3 (drop 3 [1; 2; 3; 4; 5; 6])) else None).
Proof.
  split; [reflexivity|].
  apply (@tumbling_count_folds_chunks Z Sum 3 [1; 2; 3; 4; 5; 6] 5%nat (Some 15)). unfold is_u64, two64. lia.
Defined.

(** ** Sliding *)
Section sliding.
  Context {T : Type} `{MergePolicy T}.
  Implicit Types (vs : list T).

Lemma sliding_state size slide vs :
  is_u64 slide →
  let w := (core_run sliding_push (sliding_new size slide) vs).2 in
  size_ w = Z.max size 1 ∧ slide_ w = Z.max slide 1 ∧
  since_ w = Z.of_nat (length vs) mod Z.max slide 1 ∧ buffer_ w = last_elems (Z.max size 1) vs.
Proof.
  intros Hu. induction vs as [|v vs IH] using rev_ind; [unfold sliding_new; simpl; rewrite !at_least_one, Z.mod_0_l by lia; done|].
  rewrite core_run_snoc. destruct (core_run sliding_push (sliding_new size slide) vs) as [os w]. simpl in *.
  destruct IH as (Hn & Hs & Hc & Hb). unfold sliding_push. rewrite Hn, Hs, Hc, Hb, length_app. simpl.
  pose proof (Z.mod_pos_bound (Z.of_nat (length vs)) (Z.max slide 1) ltac:(lia)) as Hr. unfold is_u64 in Hu.
  rewrite u64_small by (unfold is_u64, two64 in *; lia).
  rewrite trim_last, last_elems_snoc by lia.
  replace (Z.of_nat (length vs + 1)) with (Z.of_nat (length vs) + 1) by lia.
  destruct (mod_succ (Z.of_nat (length vs)) (Z.max slide 1) ltac:(lia) ltac:(lia)) as [[Hw Hz]|[Hw Hz]]; rewrite Hz;
    (destruct (_ <=? _) eqn:E; zify_bools; [|]); try lia; done.
Qed.

(** A sliding window emits, at every [slide]-th push, the fold of the last
    [size] elements (of all of them while there are fewer), and nothing at the
    other pushes; sizes and slides of 0 mean 1. *)
Theorem sliding_folds_last_elements (size slide : Z) vs (i : nat) (o : option T) :
  is_u64 slide →
  (core_run sliding_push (sliding_new size slide) vs).1 !! i = Some o ↔
  (i < length vs)%nat ∧
  o = if decide (Z.of_nat (S i) mod Z.max slide 1 = 0)
      then window_fold (drop (S i - Z.to_nat (Z.max size 1)) (take (S i) vs))
      else None.
Proof.
  intros Hu. rewrite core_run_lookup.
  assert (Hstep : ∀ v, vs !! i = Some v →
    (sliding_push (core_run sliding_push (sliding_new size slide) (take i vs)).2 v).1 =
    if decide (Z.of_nat (S i) mod Z.max slide 1 = 0)
    then window_fold (drop (S i - Z.to_nat (Z.max size 1)) (take (S i) vs)) else None).
  { intros v Hv. pose proof (lookup_lt_Some _ _ _ Hv) as Hlt.
    assert (Hl : length (take i vs) = i) by (rewrite length_take; lia).
    destruct (sliding_state size slide (take i vs) Hu) as (Hn & Hs & Hc & Hb).
    destruct (core_run sliding_push (sliding_new size slide) (take i vs)) as [os w]. simpl in Hn, Hs, Hc, Hb. simpl snd.
    unfold sliding_push. rewrite Hn, Hs, Hc, Hb, Hl, trim_last, last_elems_snoc, <- take_S_r by (done || lia).
    pose proof (Z.mod_pos_bound (Z.of_nat i) (Z.max slide 1) ltac:(lia)) as Hr. unfold is_u64 in Hu.
    rewrite u64_small by (unfold is_u64, two64 in *; lia).
    replace (Z.of_nat (S i)) with (Z.of_nat i + 1) by lia. unfold last_elems. rewrite length_take_le by lia.
    destruct (mod_succ (Z.of_nat i) (Z.max slide 1) ltac:(lia) ltac:(lia)) as [[Hw Hz]|[Hw Hz]]; rewrite Hz.
    - rewrite decide_True by done. destruct (_ <=? _) eqn:E; zify_bools; [done|lia].
    - rewrite decide_False by lia. destruct (_ <=? _) eqn:E; zify_bools; [lia|done]. }
  split.
  - intros (v & Hv & ->). split; [by eapply lookup_lt_Some|]. by apply Hstep.
  - intros [[v Hv]%lookup_lt_is_Some ->]. exists v. split; [done|]. symmetry. by apply Hstep.
Qed.

End sliding.

Lemma sliding_folds_last_elements_witness :
  (@core_run _ _ _ (@sliding_push Z Max) (sliding_new 3 2) [9; 2; 3; 4; 5; 1]).1 =
    [None; Some 9; None; Some 4; None; Some 5] ∧
  ((@core_run _ _ _ (@sliding_push Z Max) (sliding_new 3 2) [9; 2; 3; 4; 5; 1]).1 !! 3%nat = Some (Some 4) ↔
   (3 < 6)%nat ∧ Some 4 = if decide (4 mod 2 = 0) then @window_fold Z Max (drop 1 (take 4 [9; 2; 3; 4; 5; 1])) else None).
Proof.
  split; [reflexivity|].
  apply (@sliding_folds_last_elements Z Max 3 2 [9; 2; 3; 4; 5; 1] 3%nat (Some 4)). unfold is_u64, two64. lia.
Defined.

(** ** Tumbling by time *)
Section tumbling_time.
  Context {T : Type} `{MergePolicy T}.
  Implicit Types (es : list (WindowEvent T)).

(** The reference window: it keeps the elements of the open window and the
    last period boundary passed, and at a tick beyond the next boundary it
    emits the fold of all of them. *)
Record OpenWindow := mkOpen { passed : Z; elements : list T }.
Definition spec_step (p : Z) (w : OpenWindow) (e : WindowEvent T) : option T * OpenWindow :=
  match e with
  | Push _ v => (None, mkOpen (passed w) (elements w ++ [v]))
  | Close now =>
      if passed w <? now / p then (window_fold (elements w), mkOpen (now / p) []) else (None, w)
  end.

Definition time_step (fuel : nat) (w : TumblingTimeCore T) (e : WindowEvent T) : option (option T * TumblingTimeCore T) :=
  match e with
  | Push now v => Some (None, tumbling_time_push w now v)
  | Close now => tumbling_time_tick fuel w now
  end.
Fixpoint time_run (fuel : nat) (w : TumblingTimeCore T) es : option (list (option T) * TumblingTimeCore T) :=
  match es with
  | [] => Some ([], w)
  | e :: es => '(o, w) ← time_step fuel w e; '(os, w) ← time_run fuel w es; Some (o :: os, w)
  end.

(** The core that has folded what the reference window keeps. *)
Definition folded (p : Z) (w : OpenWindow) : TumblingTimeCore T :=
  mkTumblingTime p (p * (passed w + 1)) (window_fold (elements w)).

Lemma advance_ok fuel p k now :
  0 < p → 0 ≤ k → p * k ≤ now + p → 0 ≤ now → now + p < two64 → (Z.to_nat (now / p + 2 - k) ≤ fuel)%nat →
  advance fuel p (p * k) now = Some (p * Z.max k (now / p + 1)).
Proof.
  intros Hp. revert k. induction fuel as [|fuel IH]; intros k Hk Hle Hn Hb Hf.
  - assert (k < now / p + 2) by (assert (k - 1 <= now / p) by (apply Z.div_le_lower_bound; lia); lia). lia.
  - simpl. destruct (p * k <=? now) eqn:E; zify_bools.
    + assert (k <= now / p) by (apply Z.div_le_lower_bound; lia).
      rewrite u64_small by (unfold is_u64; lia). replace (p * k + p) with (p * (k + 1)) by lia.
      rewrite IH by lia. do 2 f_equal. lia.
    + assert (now / p < k) by (apply Z.div_lt_upper_bound; lia). do 2 f_equal. lia.
Qed.

Definition fits (p : Z) (fuel : nat) (e : WindowEvent T) : Prop :=
  match e with Push _ _ => True | Close now => 0 ≤ now ∧ now + p < two64 ∧ (Z.to_nat (now / p) < fuel)%nat end.

Lemma time_step_ok fuel p w e :
  0 < p → 0 ≤ passed w → fits p fuel e →
  time_step fuel (folded p w) e = Some ((spec_step p w e).1, folded p (spec_step p w e).2) ∧
  0 ≤ passed (spec_step p w e).2.
Proof.
  intros Hp Hw. destruct e as [now v|now]; simpl.
  - intros _. split; [|done]. unfold tumbling_time_push, folded. simpl. by rewrite window_fold_snoc.
  - intros (Hn & Hb & Hf). unfold tumbling_time_tick. simpl. pose proof (Z.div_pos now p Hn Hp).
    destruct (passed w <? now / p) eqn:E; zify_bools; simpl.
    + assert (p * (passed w + 1) <= now) by (etransitivity; [|apply (Z.mul_div_le now p Hp)]; nia).
      destruct (now <? _) eqn:E'; zify_bools; [lia|]. rewrite advance_ok by lia. simpl. split; [|lia].
      unfold folded. simpl. do 3 f_equal. lia.
    + assert (now < p * (passed w + 1)).
      { pose proof (Z.mul_succ_div_gt now p Hp). nia. }
      destruct (now <? _) eqn:E'; zify_bools; [done|lia].
Qed.

Lemma time_run_ok fuel p es : ∀ w,
  0 < p → 0 ≤ passed w → Forall (fits p fuel) es →
  time_run fuel (folded p w) es = Some ((core_run (spec_step p) w es).1, folded p (core_run (spec_step p) w es).2).
Proof.
  induction es as [|e es IH]; intros w Hp Hw Hes; [done|]. apply Forall_cons in Hes as [He Hes]. simpl.
  destruct (time_step_ok fuel p w e Hp Hw He) as [E Hw']. rewrite E. simpl. destruct (spec_step p w e) as [o w'].
  simpl in *. rewrite (IH w') by done. by destruct (core_run (spec_step p) w' es).
Qed.

(** A tumbling window by time returns from every tick whose boundary fits
    in 64 bits, and refines the window that keeps all its elements: at the
    first tick in a later period it emits the fold of everything pushed since
    the last such tick, otherwise nothing, whatever the order of the times. *)
Theorem tumbling_time_refines_open_window (period : Z) (fuel : nat) es :
  let p := Z.max period 1 in
  Forall (fits p fuel) es →
  ∃ w, time_run fuel (tumbling_time_new period) es = Some ((core_run (spec_step p) (mkOpen 0 []) es).1, w) ∧
    tt_acc_ w = window_fold (elements (core_run (spec_step p) (mkOpen 0 []) es).2).
Proof.
  intros p Hes. exists (folded p (core_run (spec_step p) (mkOpen 0 []) es).2). split; [|done].
  rewrite <- (time_run_ok fuel) by (done || lia). f_equal. unfold tumbling_time_new, folded.
  rewrite !at_least_one. simpl. f_equal. unfold p. lia.
Qed.

(** At the top of the clock the loop of [tick] never leaves. *)
Lemma tick_never_returns fuel (w : TumblingTimeCore T) :
  next_ w ≤ u64_max → tumbling_time_tick fuel w u64_max = None.
Proof.
  intros Hn. unfold tumbling_time_tick. destruct (u64_max <? next_ w) eqn:E; zify_bools; [lia|].
  assert (Hl : ∀ f next, next ≤ u64_max → advance f (period_ w) next u64_max = None); [|by rewrite Hl].
  induction f as [|f IH]; intros next Hle; [done|]. simpl. destruct (next <=? u64_max) eqn:E'; zify_bools; [|lia].
  apply IH. pose proof (u64_range (next + period_ w)). unfold is_u64, two64, u64_max in *. lia.
Qed.

End tumbling_time.
Arguments OpenWindow : clear implicits.

Lemma tumbling_time_refines_open_window_witness :
  let es := [Push 0 1; Push 3 2; Close 4; Close 12; Push 13 5; Push 19 7; Close 45; Close 46; Close 50] in
  @fits Z (Z.max 10 1) 6 (Close 45) ∧
  ∃ w, @time_run Z Sum 6 (tumbling_time_new 10) es =
      Some ([None; None; None; Some 3; None; None; Some 12; None; None], w) ∧ tt_acc_ w = None.
Proof.
  split; [unfold fits, two64; split_and!; [done|done|by vm_compute; lia]|].
  refine (@tumbling_time_refines_open_window Z Sum 10 6
    [Push 0 1; Push 3 2; Close 4; Close 12; Push 13 5; Push 19 7; Close 45; Close 46; Close 50] _).
  repeat (apply Forall_cons; split; [first [exact I|unfold fits, two64; split_and!; [done|done|by vm_compute; lia]]|]). by apply Forall_nil.
Defined.

(** ** Sessions *)
Section sessions.
  Context {T : Type} `{MergePolicy T}.
  Implicit Types (es : list (WindowEvent T)) (ps : list (Z * T)).

Definition time_of (e : WindowEvent T) : Z := match e with Push now _ | Close now => now end.
Definition pushes es : list (Z * T) :=
  omap (λ e, match e with Push now v => Some (now, v) | Close _ => None end) es.
Definition in_order es : Prop := StronglySorted (λ a b, time_of a ≤ time_of b) es ∧ Forall (λ e, is_u64 (time_of e)) es.

(** Splitting a timed sequence where two neighbours are more than [gap] apart:
    the sessions closed so far and the open one. *)
Definition session_add (gap : Z) (so_far : list (list (Z * T)) * list (Z * T)) (p : Z * T) :
    list (list (Z * T)) * list (Z * T) :=
  let '(closed, current) := so_far in
  match last current with
  | Some q => if gap <? p.1 - q.1 then (closed ++ [current], [p]) else (closed, current ++ [p])
  | None => (closed, [p])
  end.
Definition split_sessions (gap : Z) ps := foldl (session_add gap) ([], []) ps.
Definition sessions (gap : Z) ps : list (list (Z * T)) := let '(closed, current) := split_sessions gap ps in closed ++ [current].
Definition aggregates (ss : list (list (Z * T))) : list T := omap (λ s, window_fold s.*2) ss.

Lemma aggregates_snoc ss s : aggregates (ss ++ [s]) = aggregates ss ++ option_list (window_fold s.*2).
Proof. unfold aggregates. by rewrite omap_app. Qed.

Lemma split_sessions_snoc gap ps p : split_sessions gap (ps ++ [p]) = session_add gap (split_sessions gap ps) p.
Proof. unfold split_sessions. by rewrite foldl_app. Qed.

Lemma split_sessions_last gap ps : last (split_sessions gap ps).2 = last ps.
Proof.
  induction ps as [|p ps IH] using rev_ind; [done|]. rewrite split_sessions_snoc, last_snoc.
  unfold session_add. destruct (split_sessions gap ps) as [closed current]. simpl in *.
  destruct (last current) as [q|]; [|done]. destruct (gap <? p.1 - q.1); [done|]. simpl. by rewrite last_snoc.
Qed.

Lemma sessions_concat gap ps : concat (sessions gap ps) = ps.
Proof.
  unfold sessions. induction ps as [|p ps IH] using rev_ind; [done|].
  rewrite split_sessions_snoc. unfold session_add. pose proof (split_sessions_last gap ps) as Hl.
  destruct (split_sessions gap ps) as [closed current]. simpl in *. rewrite concat_app in IH. simpl in IH. rewrite app_nil_r in IH.
  destruct (last current) as [q|] eqn:E; [destruct (gap <? p.1 - q.1)|]; rewrite !concat_app; simpl; rewrite ?app_nil_r.
  - by rewrite IH.
  - by rewrite app_assoc, IH.
  - apply last_None in E as ->. rewrite app_nil_r in IH. by rewrite IH.
Qed.

Lemma pushes_snoc es e :
  pushes (es ++ [e]) = pushes es ++ match e with Push now v => [(now, v)] | Close _ => [] end.
Proof. unfold pushes. rewrite omap_app. f_equal. by destruct e. Qed.

Definition session_inv (gap : Z) es (os : list (option T)) (s : SessionCore T) : Prop :=
  let '(closed, current) := split_sessions gap (pushes es) in
  gap_ s = gap ∧ last_ s = fst <$> last (pushes es) ∧
  (ss_acc_ s = window_fold current.*2 ∧ omap id os = aggregates closed ∨
   ss_acc_ s = None ∧ omap id os = aggregates (closed ++ [current]) ∧
   ∃ l e, last_ s = Some l ∧ e ∈ es ∧ gap < time_of e - l).

Lemma idle_spec gap (s : SessionCore T) now l :
  0 ≤ gap → gap_ s = gap → last_ s = Some l → l ≤ now → is_u64 l → is_u64 now → idle s now = (gap <? now - l).
Proof.
  intros Hg Hgs Hl Hle Hu Hu'. unfold idle. rewrite Hl, Hgs. unfold is_u64 in *.
  destruct (l <=? now) eqn:E; zify_bools; [|lia]. rewrite u64_small by (unfold is_u64; lia). done.
Qed.

Lemma in_order_snoc es e : in_order (es ++ [e]) → in_order es ∧ is_u64 (time_of e) ∧ ∀ e', e' ∈ es → time_of e' ≤ time_of e ∧ is_u64 (time_of e').
Proof.
  intros [Hs Hu]. apply Forall_app in Hu as [Hu Hu']. rewrite Forall_singleton in Hu'.
  apply StronglySorted_app in Hs as (Hlt & Hs & _). split_and!; [by split|done|].
  intros e' He'. split; [apply Hlt; set_solver|]. rewrite Forall_forall in Hu. by apply Hu.
Qed.

Lemma last_push_elem es p : last (pushes es) = Some p → ∃ e, e ∈ es ∧ time_of e = p.1.
Proof.
  intros Hl. rewrite last_lookup in Hl. apply list_elem_of_lookup_2, list_elem_of_omap in Hl as (e & He & Hp).
  exists e. split; [done|]. destruct e; by simplify_eq/=.
Qed.

Lemma session_inv_ok gap es :
  0 ≤ gap → in_order es → let r := core_run session_step (session_new gap) es in session_inv gap es r.1 r.2.
Proof.
  intros Hg. induction es as [|e es IH] using rev_ind; intros Ho; [by split_and!; [done|done|left]|].
  apply in_order_snoc in Ho as (Ho & Hue & Hle). specialize (IH Ho). rewrite core_run_snoc.
  destruct (core_run session_step (session_new gap) es) as [os s]. simpl in *.
  unfold session_inv in *. rewrite pushes_snoc. pose proof (split_sessions_last gap (pushes es)) as Hlast.
  assert (Hidle : match last (pushes es) with Some q => idle s (time_of e) = (gap <? time_of e - q.1) | None => idle s (time_of e) = false end).
  { destruct (last (pushes es)) as [q|] eqn:Eq; destruct (split_sessions _ _), IH as (Hgs & Hl & _);
      [|unfold idle; by rewrite Hl].
    destruct (last_push_elem es q Eq) as (e' & He' & Ht). destruct (Hle e' He'). apply idle_spec; try done; congruence. }
  assert (Hmono : ∀ l, (∃ e', e' ∈ es ∧ gap < time_of e' - l) → gap < time_of e - l).
  { intros l (e' & He' & ?). destruct (Hle e' He'). lia. }
  destruct e as [now v|now]; simpl in Hidle, Hmono.
  - rewrite split_sessions_snoc, last_snoc. destruct (split_sessions gap (pushes es)) as [closed current]. simpl in Hlast.
    destruct IH as (Hgs & Hl & Hst). unfold session_add. rewrite Hlast. simpl. unfold session_push.
    destruct (last (pushes es)) as [q|] eqn:Eq; rewrite Hidle.
    + simpl in Hl. assert (Hne : current ≠ []) by (by intros ->).
      destruct Hst as [[Hacc Hos]|(Hacc & Hos & l & e' & Hl' & He' & Hgap)].
      * assert (Hsome : bool_decide (is_Some (ss_acc_ s)) = true).
        { apply bool_decide_eq_true, not_eq_None_Some. rewrite Hacc. intros Hn%window_fold_None%fmap_nil_inv. done. }
        rewrite Hsome. destruct (gap <? now - q.1); simpl; rewrite omap_app, Hos; simpl.
        -- split_and!; [done|done|left]. split; [done|]. rewrite aggregates_snoc, Hacc. simpl. by destruct (window_fold _).
        -- split_and!; [done|done|left]. rewrite fmap_app, app_nil_r. simpl. rewrite window_fold_snoc, Hacc. done.
      * assert (gap < now - q.1) by (rewrite Hl in Hl'; injection Hl' as <-; apply Hmono; eauto).
        destruct (gap <? now - q.1) eqn:E; zify_bools; [|lia]. rewrite Hacc. simpl. rewrite omap_app, app_nil_r.
        split_and!; [done|done|left]. by rewrite Hos.
    + assert (current = []) as -> by (by apply last_None). simpl in Hl |- *. rewrite omap_app, app_nil_r.
      destruct Hst as [[Hacc Hos]|(_ & _ & l & _ & Hl' & _)]; [|congruence].
      split_and!; [done|done|left]. rewrite Hacc. done.
  - rewrite app_nil_r. destruct (split_sessions gap (pushes es)) as [closed current]. simpl in Hlast.
    destruct IH as (Hgs & Hl & Hst). simpl. unfold session_flush. destruct (idle s now && bool_decide (is_Some (ss_acc_ s))) eqn:E; simpl; rewrite omap_app; simpl.
    + apply andb_true_iff in E as [Ei Es]. zify_bools.
      destruct Hst as [[Hacc Hos]|(Hacc & _)]; [|rewrite Hacc in Es; by destruct Es].
      split_and!; [done|done|right]. rewrite Hos, Hacc, aggregates_snoc.
      split_and!; [done|by destruct (window_fold _)|].
      destruct (last (pushes es)) as [q|]; [|congruence]. exists q.1, (Close now). simpl in *.
      split_and!; [done|set_solver|]. rewrite Hidle in Ei. by zify_bools.
    + rewrite app_nil_r. split_and!; [done|done|].
      destruct Hst as [?|(? & ? & l & e' & ? & ? & ?)]; [by left|right]. split_and!; [done|done|].
      exists l, e'. split_and!; [done|set_solver|done].
Qed.

(** A session window partitions its elements by gaps.  For events in time
    order, with any flushes in between, and a last flush more than [gap] after
    the last element, the emitted aggregates are exactly the folds of the
    sessions, one each and in order; the sessions cut the elements where two
    neighbours are more than [gap] apart and lose none. *)
Theorem session_window_partitions (gap : Z) es (now : Z) :
  0 ≤ gap → in_order (es ++ [Close now]) → (∀ t v, last (pushes es) = Some (t, v) → gap < now - t) →
  omap id (core_run session_step (session_new gap) (es ++ [Close now])).1 = aggregates (sessions gap (pushes es)) ∧
  concat (sessions gap (pushes es)) = pushes es.
Proof.
  intros Hg Ho Hend. split; [|apply sessions_concat].
  pose proof (session_inv_ok gap _ Hg Ho) as Hi. simpl in Hi.
  pose proof (split_sessions_last gap (pushes es)) as Hlast.
  destruct (core_run session_step (session_new gap) (es ++ [Close now])) as [os s] eqn:Er.
  unfold session_inv in Hi. rewrite pushes_snoc, app_nil_r in Hi. unfold sessions. simpl in *.
  destruct (split_sessions gap (pushes es)) as [closed current]. simpl in Hlast.
  destruct Hi as (Hgs & Hl & [[Hacc Hos]|(_ & Hos & _)]); [|done].
  rewrite Hos, aggregates_snoc, <- Hacc.
  enough (ss_acc_ s = None) as ->; [by rewrite app_nil_r|].
  apply in_order_snoc in Ho as (Ho & Hun & Hle).
  pose proof (session_inv_ok gap es Hg Ho) as Hj. rewrite core_run_snoc in Er. simpl in Er, Hj.
  destruct (core_run session_step (session_new gap) es) as [os' s']. simpl in *. injection Er as <- <-.
  unfold session_inv in Hj. destruct (split_sessions gap (pushes es)) as [closed' current'].
  destruct Hj as (Hgs' & Hl' & _). unfold session_flush.
  destruct (last (pushes es)) as [[t v]|] eqn:Eq.
  - destruct (last_push_elem es (t, v) Eq) as (e' & He' & Ht). destruct (Hle e' He') as [? ?]. simpl in *.
    rewrite (idle_spec gap s' now t) by (done || congruence).
    specialize (Hend t v eq_refl). destruct (gap <? now - t) eqn:E; zify_bools; [|lia]. simpl.
    destruct (ss_acc_ s') eqn:Ea; simpl; [done|]. done.
  - unfold session_flush in Hacc. destruct (idle s' now && bool_decide (is_Some (ss_acc_ s'))) eqn:E; [done|].
    simpl in *. rewrite Hacc. apply last_None in Hlast as ->. done.
Qed.

End sessions.

Lemma session_window_partitions_witness :
  let es := [Push 0 1; Push 3 2; Close 6; Push 20 5; Push 24 7; Close 40; Push 41 9] in
  omap id (@core_run _ _ _ (@session_step Z Sum) (session_new 5) (es ++ [Close 50])).1 = [3; 12; 9] ∧
  @aggregates Z Sum (sessions 5 (pushes es)) = [3; 12; 9] ∧
  concat (sessions 5 (pushes es)) = pushes es.
Proof.
  destruct (@session_window_partitions Z Sum 5 [Push 0 1; Push 3 2; Close 6; Push 20 5; Push 24 7; Close 40; Push 41 9] 50)
    as [_ Hc]; [done| | |split_and!; [reflexivity|reflexivity|exact Hc]].
  - split; [repeat constructor; simpl; lia|]. repeat constructor; simpl; lia.
  - intros t v [= <- <-]. lia.
Defined.

(** ** The cells *)
Section cells_correct.
  Context {C H T : Type} `{SourceContext C H (option T)} `{!SourceContextLaws C H (option T)} `{MergePolicy T}.
  Implicit Types (es : list (WindowEvent T)).

(** The cell next to the reference window instead of the core. *)
Lemma time_window_run_ok fuel p es : ∀ w h o c,
  0 < p → 0 ≤ passed w → Forall (fits p fuel) es → ctx_ok c → holds c h o →
  ∃ cell c', feed (tumbling_time_window_step fuel) (mkProjected (folded p w) h) es c =
      Some ((core_run (spec_step p) w es).1, cell, c') ∧
    output_ cell = h ∧ holds c' h (last_emitted o (core_run (spec_step p) w es).1) ∧
    ∀ h' v', h' ≠ h → holds c h' v' → holds c' h' v'.
Proof.
  induction es as [|e es IH]; intros w h o c Hp Hw Hes Hc Hh; [by exists (mkProjected (folded p w) h), c|].
  apply Forall_cons in Hes as [He Hes]. destruct (time_step_ok fuel p w e Hp Hw He) as [E Hw'].
  destruct (publish_ok h (spec_step p w e).1 o c Hc Hh) as (c1 & E1 & Hc1 & Hh1 & Ho1).
  destruct (IH _ h _ c1 Hp Hw' Hes Hc1 Hh1) as (cell & c2 & E2 & Hout & Hh2 & Ho2).
  assert (Es : tumbling_time_window_step fuel (mkProjected (folded p w) h) e c =
    Some ((spec_step p w e).1, mkProjected (folded p (spec_step p w e).2) h, c1)).
  { destruct e as [now v|now]; simpl in E |- *.
    - simpl in E1. injection E1 as <-.
      by assert (tumbling_time_push (folded p w) now v = folded p (spec_step p w (Push now v)).2) as -> by (simpl; congruence).
    - rewrite E. simpl. simpl in E1. unfold window_set_output. unfold publish in E1. by rewrite E1. }
  exists cell, c2. simpl. rewrite Es. simpl. rewrite E2. simpl.
  destruct (spec_step p w e) as [o' w']. simpl in *. destruct (core_run (spec_step p) w' es). simpl in *.
  split_and!; auto.
Qed.

(** The windows publish what they emit.  Over any implementation of the
    context's sources, each of the four windows driven through any inputs (the
    timed one through any whose boundaries fit in 64 bits) always succeeds and
    returns its core's emissions, its output then reads the last aggregate
    emitted, and no other source changes. *)
Theorem windows_publish (n size slide gap period : Z) (fuel : nat) (vs : list T) es (c : C) :
  ctx_ok c → Forall (fits (Z.max period 1) fuel) es →
  let mirrors {S I} (made : option (Projected (H:=H) (S:=S) * C)) (step : Projected → I → C → option (option T * Projected * C)) ins outs :=
    ∃ cell c1 c2 cell', made = Some (cell, c1) ∧ feed step cell ins c1 = Some (outs, cell', c2) ∧
      ctx_get (output_ cell') c2 = Some (last_emitted None outs) ∧ ∀ h v, holds c h v → holds c2 h v in
  mirrors (tumbling_count_window_new n c) tumbling_count_window_push vs (core_run tumbling_count_push (tumbling_count_new n) vs).1 ∧
  mirrors (sliding_window_new size slide c) sliding_window_push vs (core_run sliding_push (sliding_new size slide) vs).1 ∧
  mirrors (session_window_new gap c) session_window_step es (core_run session_step (session_new gap) es).1 ∧
  mirrors (tumbling_time_window_new period c) (tumbling_time_window_step fuel) es
    (core_run (spec_step (Z.max period 1)) (mkOpen 0 []) es).1.
Proof.
  intros Hc Hes mirrors. split_and!.
  - by apply feed_mirrors_core.
  - by apply feed_mirrors_core.
  - apply feed_mirrors_core; [done|]. by intros cell [now v|now] c'.
  - destruct (ctx_source_ok c None Hc) as (h & c1 & E1 & Hc1 & Hh1 & Ho1).
    destruct (time_window_run_ok fuel (Z.max period 1) es (mkOpen 0 []) h None c1 ltac:(lia) ltac:(done) Hes Hc1 Hh1)
      as (cell & c2 & E2 & Hout & Hh2 & Ho2).
    unfold mirrors, tumbling_time_window_new. rewrite E1. simpl.
    exists (mkProjected (tumbling_time_new period) h), c1, c2, cell. split_and!; [done| | |].
    + rewrite <- E2. do 2 f_equal. unfold tumbling_time_new, folded. rewrite !at_least_one. simpl. f_equal. lia.
    + rewrite Hout. by apply ctx_get_ok.
    + intros h' v Hv. destruct (Ho1 _ _ Hv). auto.
Qed.

End cells_correct.

Lemma windows_publish_witness :
  let c : Ctx (option Z) := empty_ctx in
  let mirrors {S I} (made : option (Projected (H:=Handle) (S:=S) * Ctx (option Z))) (step : Projected → I → _ → option (option Z * Projected * _)) ins outs :=
    ∃ cell c1 c2 cell', made = Some (cell, c1) ∧ feed step cell ins c1 = Some (outs, cell', c2) ∧
      ctx_get (output_ cell') c2 = Some (last_emitted None outs) ∧ ∀ h v, holds (T:=option Z) c h v → holds c2 h v in
  mirrors (tumbling_count_window_new 2 c) (@tumbling_count_window_push _ _ _ _ Sum) [1; 2; 3] [None; Some 3; None] ∧
  mirrors (sliding_window_new 2 1 c) (@sliding_window_push _ _ _ _ Sum) [1; 2; 3] [Some 1; Some 3; Some 5] ∧
  mirrors (session_window_new 5 c) (@session_window_step _ _ _ _ Sum) [Push 0 1; Push 9 2; Close 20] [None; Some 1; Some 2] ∧
  mirrors (tumbling_time_window_new 10 c) (@tumbling_time_window_step _ _ _ _ Sum 3) [Push 0 1; Push 9 2; Close 20] [None; None; Some 3].
Proof.
  refine (@windows_publish (Ctx (option Z)) Handle Z _ _ Sum 2 2 1 5 10 3 [1; 2; 3] [Push 0 1; Push 9 2; Close 20] empty_ctx _ _).
  - apply empty_ctx_ok.
  - repeat (apply Forall_cons; split; [first [exact I|unfold fits, two64; split_and!; [done|done|by vm_compute; lia]]|]).
    by apply Forall_nil.
Defined.
