(* ===== verification/Resilience.v ===== *)
(** * Resilience: circuit breaker, retry, bulkhead, timeout

    Models include/lazily/resilience.hpp: four fault-tolerance cores over a
    logical 64-bit clock, and the cells that refresh a source after every
    operation. *)
From S2P Require Import Prelude Kernel KernelCorrect Reactive.
#[local] Open Scope Z_scope.

(** ** Circuit breaker *)

(* include/lazily/resilience.hpp:28-35, BreakerState *)
Inductive BreakerState := Closed | Open | HalfOpen.
#[export] Instance BreakerState_eq_dec : EqDecision BreakerState.
Proof. solve_decision. Defined.

(* include/lazily/resilience.hpp:101-106, CircuitBreakerCore (data members) *)
Record CircuitBreakerCore := mkBreaker {
  b_window : Z; failure_threshold : Z; reset_timeout : Z;
  state_ : BreakerState; outcomes : list bool; open_until : Z;
}.

(* include/lazily/resilience.hpp:42-45, CircuitBreakerCore::CircuitBreakerCore *)
Definition breaker_new (window failure_threshold reset_timeout : Z) : CircuitBreakerCore :=
  mkBreaker (if window <? 1 then 1 else window) (if failure_threshold <? 1 then 1 else failure_threshold)
    reset_timeout Closed [] 0.

Definition with_state (b : CircuitBreakerCore) (s : BreakerState) (o : list bool) (until : Z) : CircuitBreakerCore :=
  mkBreaker (b_window b) (failure_threshold b) (reset_timeout b) s o until.

(* include/lazily/resilience.hpp:51-65, CircuitBreakerCore::allow *)
Definition breaker_allow (b : CircuitBreakerCore) (now : Z) : bool * CircuitBreakerCore :=
  match state_ b with
  | Closed => (true, b)
  | Open =>
      if open_until b <=? now then (true, with_state b HalfOpen (outcomes b) (open_until b)) else (false, b)
  | HalfOpen => (true, b)
  end.

(* include/lazily/resilience.hpp:94-99, CircuitBreakerCore::failures *)
Fixpoint failures (outcomes : list bool) : Z :=
  match outcomes with
  | [] => 0
  | s :: rest => if s then failures rest else failures rest + 1
  end.

(* include/lazily/resilience.hpp:68-91, CircuitBreakerCore::record *)
Definition breaker_record (b : CircuitBreakerCore) (success : bool) (now : Z) : CircuitBreakerCore :=
  match state_ b with
  | HalfOpen =>
      if success then with_state b Closed [] (open_until b)
      else with_state b Open (outcomes b) (u64 (now + reset_timeout b))
  | Closed =>
      let o := trim (b_window b) (outcomes b ++ [success]) in
      if failure_threshold b <=? failures o
      then with_state b Open o (u64 (now + reset_timeout b))
      else with_state b Closed o (open_until b)
  | Open => b
  end.

Inductive BreakerOp := Allow (now : Z) | Outcome (success : bool) (now : Z).

Definition breaker_step (b : CircuitBreakerCore) (op : BreakerOp) : option bool * CircuitBreakerCore :=
  match op with
  | Allow now => let '(r, b) := breaker_allow b now in (Some r, b)
  | Outcome success now => (None, breaker_record b success now)
  end.

(** ** Retry *)

(* include/lazily/resilience.hpp:167-169, RetryPolicyCore (data members) *)
Record RetryPolicyCore := mkRetry { base_ : Z; cap_ : Z; attempt_ : Z }.

(* include/lazily/resilience.hpp:145-145, RetryPolicyCore::RetryPolicyCore *)
Definition retry_new (base cap : Z) : RetryPolicyCore := mkRetry base cap 0.

(* include/lazily/resilience.hpp:148-155, RetryPolicyCore::delay *)
Definition retry_delay (r : RetryPolicyCore) (attempt : Z) : Z :=
  if 64 <=? attempt then cap_ r
  else
    let shifted := u64 (Z.shiftl (base_ r) attempt) in
    if negb (Z.shiftr shifted attempt =? base_ r) then cap_ r
    else if shifted <? cap_ r then shifted else cap_ r.

(* include/lazily/resilience.hpp:158-162, RetryPolicyCore::next_delay *)
Definition retry_next_delay (r : RetryPolicyCore) : Z * RetryPolicyCore :=
  (retry_delay r (attempt_ r),
   if negb (attempt_ r =? u32_max) then mkRetry (base_ r) (cap_ r) (attempt_ r + 1) else r).

(* include/lazily/resilience.hpp:164-164, RetryPolicyCore::reset *)
Definition retry_reset (r : RetryPolicyCore) : RetryPolicyCore := mkRetry (base_ r) (cap_ r) 0.

Inductive RetryOp := NextDelay | ResetAttempts.

Definition retry_step (r : RetryPolicyCore) (op : RetryOp) : option Z * RetryPolicyCore :=
  match op with
  | NextDelay => let '(d, r) := retry_next_delay r in (Some d, r)
  | ResetAttempts => (None, retry_reset r)
  end.

(** ** Bulkhead *)

(* include/lazily/resilience.hpp:221-222, BulkheadCore (data members) *)
Record BulkheadCore := mkBulkhead { capacity_ : Z; in_use_ : Z }.

(* include/lazily/resilience.hpp:204-204, BulkheadCore::BulkheadCore *)
Definition bulkhead_new (capacity : Z) : BulkheadCore := mkBulkhead capacity 0.

(* include/lazily/resilience.hpp:208-214, BulkheadCore::acquire *)
Definition bulkhead_acquire (b : BulkheadCore) : bool * BulkheadCore :=
  if in_use_ b <? capacity_ b then (true, mkBulkhead (capacity_ b) (u64 (in_use_ b + 1))) else (false, b).

(* include/lazily/resilience.hpp:216-218, BulkheadCore::release *)
Definition bulkhead_release (b : BulkheadCore) : BulkheadCore :=
  if 0 <? in_use_ b then mkBulkhead (capacity_ b) (u64 (in_use_ b - 1)) else b.

Inductive BulkheadOp := Acquire | Release.

Definition bulkhead_step (b : BulkheadCore) (op : BulkheadOp) : option bool * BulkheadCore :=
  match op with
  | Acquire => let '(r, b) := bulkhead_acquire b in (Some r, b)
  | Release => (None, bulkhead_release b)
  end.

(** ** Timeout *)

(* include/lazily/resilience.hpp:280-282, TimeoutCore (data members) *)
Record TimeoutCore := mkTimeout { deadline_ : Z; armed_ : bool; timed_out_ : bool }.

(* include/lazily/resilience.hpp:259-259, TimeoutCore::TimeoutCore *)
Definition timeout_new : TimeoutCore := mkTimeout 0 false false.

(* include/lazily/resilience.hpp:262-266, TimeoutCore::arm *)
Definition timeout_arm (t : TimeoutCore) (now timeout : Z) : TimeoutCore := mkTimeout (u64 (now + timeout)) true false.

(* include/lazily/resilience.hpp:269-275, TimeoutCore::tick *)
Definition timeout_tick (t : TimeoutCore) (now : Z) : bool * TimeoutCore :=
  if armed_ t && negb (timed_out_ t) && (deadline_ t <=? now)
  then (true, mkTimeout (deadline_ t) (armed_ t) true)
  else (false, t).

Inductive TimeoutOp := Arm (now timeout : Z) | TickTimeout (now : Z).

Definition timeout_step (t : TimeoutCore) (op : TimeoutOp) : option bool * TimeoutCore :=
  match op with
  | Arm now timeout => (None, timeout_arm t now timeout)
  | TickTimeout now => let '(r, t) := timeout_tick t now in (Some r, t)
  end.

(** ** Cells *)
Section cells.
  Context {C H : Type} `{!SourceContext C H BreakerState} `{!SourceContext C H Z} `{!SourceContext C H bool}.

(* include/lazily/resilience.hpp:131-131, CircuitBreakerCell::refresh *)
Definition breaker_refresh (cell : Mirrored (H:=H) (S:=CircuitBreakerCore)) (c : C) : option C :=
  ctx_set (mcell_ cell) (state_ (mcore_ cell)) c.

(* include/lazily/resilience.hpp:112-114, CircuitBreakerCell::CircuitBreakerCell *)
Definition breaker_cell_new (window threshold timeout : Z) (c : C) : option (Mirrored (H:=H) (S:=CircuitBreakerCore) * C) :=
  '(h, c) ← ctx_source Closed c; Some (mkMirrored (breaker_new window threshold timeout) h, c).

(* include/lazily/resilience.hpp:116-125, CircuitBreakerCell::allow, record *)
Definition breaker_cell_step (cell : Mirrored (H:=H) (S:=CircuitBreakerCore)) (op : BreakerOp) (c : C) :
    option (option bool * Mirrored * C) :=
  match op with
  | Allow now =>
      let '(r, core) := breaker_allow (mcore_ cell) now in
      let cell := mkMirrored core (mcell_ cell) in
      c ← breaker_refresh cell c; Some (Some r, cell, c)
  | Outcome success now =>
      let cell := mkMirrored (breaker_record (mcore_ cell) success now) (mcell_ cell) in
      c ← breaker_refresh cell c; Some (None, cell, c)
  end.

(* include/lazily/resilience.hpp:175-176, RetryPolicyCell::RetryPolicyCell *)
Definition retry_cell_new (base cap : Z) (c : C) : option (Mirrored (H:=H) (S:=RetryPolicyCore) * C) :=
  '(h, c) ← ctx_source 0 c; Some (mkMirrored (retry_new base cap) h, c).

(* include/lazily/resilience.hpp:178-187, RetryPolicyCell::next_delay, reset *)
Definition retry_cell_step (cell : Mirrored (H:=H) (S:=RetryPolicyCore)) (op : RetryOp) (c : C) :
    option (option Z * Mirrored (H:=H) (S:=RetryPolicyCore) * C) :=
  match op with
  | NextDelay =>
      let '(d, core) := retry_next_delay (mcore_ cell) in
      c ← ctx_set (mcell_ cell) d c; Some (Some d, mkMirrored core (mcell_ cell), c)
  | ResetAttempts =>
      let core := retry_reset (mcore_ cell) in
      c ← ctx_set (mcell_ cell) 0 c; Some (None, mkMirrored core (mcell_ cell), c)
  end.

(* include/lazily/resilience.hpp:228-229, BulkheadCell::BulkheadCell *)
Definition bulkhead_cell_new (capacity : Z) (c : C) : option (Mirrored (H:=H) (S:=BulkheadCore) * C) :=
  '(h, c) ← ctx_source 0 c; Some (mkMirrored (bulkhead_new capacity) h, c).

(* include/lazily/resilience.hpp:246-246, BulkheadCell::refresh *)
Definition bulkhead_refresh (cell : Mirrored (H:=H) (S:=BulkheadCore)) (c : C) : option C :=
  ctx_set (mcell_ cell) (in_use_ (mcore_ cell)) c.

(* include/lazily/resilience.hpp:231-240, BulkheadCell::acquire, release *)
Definition bulkhead_cell_step (cell : Mirrored (H:=H) (S:=BulkheadCore)) (op : BulkheadOp) (c : C) :
    option (option bool * Mirrored * C) :=
  match op with
  | Acquire =>
      let '(r, core) := bulkhead_acquire (mcore_ cell) in
      let cell := mkMirrored core (mcell_ cell) in
      c ← bulkhead_refresh cell c; Some (Some r, cell, c)
  | Release =>
      let cell := mkMirrored (bulkhead_release (mcore_ cell)) (mcell_ cell) in
      c ← bulkhead_refresh cell c; Some (None, cell, c)
  end.

(* include/lazily/resilience.hpp:288-288, TimeoutCell::TimeoutCell *)
Definition timeout_cell_new (c : C) : option (Mirrored (H:=H) (S:=TimeoutCore) * C) :=
  '(h, c) ← ctx_source false c; Some (mkMirrored timeout_new h, c).

(* include/lazily/resilience.hpp:305-305, TimeoutCell::refresh *)
Definition timeout_refresh (cell : Mirrored (H:=H) (S:=TimeoutCore)) (c : C) : option C :=
  ctx_set (mcell_ cell) (timed_out_ (mcore_ cell)) c.

(* include/lazily/resilience.hpp:290-299, TimeoutCell::arm, tick *)
Definition timeout_cell_step (cell : Mirrored (H:=H) (S:=TimeoutCore)) (op : TimeoutOp) (c : C) :
    option (option bool * Mirrored * C) :=
  match op with
  | Arm now timeout =>
      let cell := mkMirrored (timeout_arm (mcore_ cell) now timeout) (mcell_ cell) in
      c ← timeout_refresh cell c; Some (None, cell, c)
  | TickTimeout now =>
      let '(r, core) := timeout_tick (mcore_ cell) now in
      let cell := mkMirrored core (mcell_ cell) in
      c ← timeout_refresh cell c; Some (Some r, cell, c)
  end.

End cells.

(** ** The breaker *)

(** The reference breaker forgets nothing: while closed it keeps every outcome
    recorded since it last closed. *)
Inductive HistoryBreaker := RClosed (recorded : list bool) | ROpen (until : Z) | RHalfOpen.

Definition history_state (r : HistoryBreaker) : BreakerState :=
  match r with RClosed _ => Closed | ROpen _ => Open | RHalfOpen => HalfOpen end.

(** At least [threshold] of the last [window] outcomes are failures. *)
Definition tripped (window threshold : Z) (recorded : list bool) : Prop :=
  threshold ≤ failures (last_elems window recorded).
#[export] Instance tripped_dec window threshold recorded : Decision (tripped window threshold recorded).
Proof. unfold tripped. apply _. Defined.

Definition history_step (window threshold timeout : Z) (r : HistoryBreaker) (op : BreakerOp) : option bool * HistoryBreaker :=
  match op, r with
  | Allow now, ROpen until => if decide (until ≤ now) then (Some true, RHalfOpen) else (Some false, r)
  | Allow _, _ => (Some true, r)
  | Outcome ok now, RClosed recorded =>
      (None, if decide (tripped window threshold (recorded ++ [ok])) then ROpen (u64 (now + timeout))
             else RClosed (recorded ++ [ok]))
  | Outcome ok now, RHalfOpen => (None, if ok then RClosed [] else ROpen (u64 (now + timeout)))
  | Outcome _ _, ROpen _ => (None, r)
  end.

Definition follows (window threshold timeout : Z) (b : CircuitBreakerCore) (r : HistoryBreaker) : Prop :=
  b_window b = window ∧ failure_threshold b = threshold ∧ reset_timeout b = timeout ∧
  state_ b = history_state r ∧ (Z.of_nat (length (outcomes b)) ≤ window) ∧
  match r with
  | RClosed recorded => outcomes b = last_elems window recorded
  | ROpen until => open_until b = until
  | RHalfOpen => True
  end.

Lemma length_last_elems {A} size (l : list A) : 0 ≤ size → Z.of_nat (length (last_elems size l)) ≤ size.
Proof. intros. unfold last_elems. rewrite length_drop. lia. Qed.

Lemma breaker_step_follows window threshold timeout b r op :
  1 ≤ window → follows window threshold timeout b r →
  (breaker_step b op).1 = (history_step window threshold timeout r op).1 ∧
  follows window threshold timeout (breaker_step b op).2 (history_step window threshold timeout r op).2.
Proof.
  intros Hw (Ew & Et & Eto & Es & Hlen & Hr). unfold follows. destruct op as [now|ok now]; simpl.
  - unfold breaker_allow. rewrite Es. destruct r as [rec|until|]; simpl; [done| |done]. rewrite Hr.
    destruct (until <=? now) eqn:E; zify_bools.
    + rewrite decide_True by done. done.
    + rewrite decide_False by lia. done.
  - split; [by destruct r|]. unfold breaker_record. rewrite Es. destruct r as [rec|until|]; simpl; [|done|].
    + rewrite Ew, Et, Hr, trim_last, last_elems_snoc by lia.
      pose proof (length_last_elems window (rec ++ [ok]) ltac:(lia)).
      destruct (threshold <=? _) eqn:E; zify_bools.
      * rewrite decide_True by done. simpl. by rewrite Eto.
      * rewrite decide_False by (unfold tripped; lia). done.
    + destruct ok; simpl; [|by rewrite Eto]. split_and!; try done. lia.
Qed.

(** The breaker trips on the outcomes of its window and nothing else.  It
    answers every call and moves between its states as the breaker that
    remembers all the outcomes since it last closed: closed, it opens when the
    last [window] outcomes hold [threshold] failures; half open, one success
    closes it with an empty history and one failure opens it again; and it
    never keeps more than [window] outcomes. *)
Theorem breaker_refines_history (window threshold timeout : Z) (ops : list BreakerOp) :
  let run := core_run breaker_step (breaker_new window threshold timeout) ops in
  let spec := core_run (history_step (Z.max window 1) (Z.max threshold 1) timeout) (RClosed []) ops in
  run.1 = spec.1 ∧ state_ run.2 = history_state spec.2 ∧ Z.of_nat (length (outcomes run.2)) ≤ Z.max window 1.
Proof.
  enough (Hf : let run := core_run breaker_step (breaker_new window threshold timeout) ops in
    let spec := core_run (history_step (Z.max window 1) (Z.max threshold 1) timeout) (RClosed []) ops in
    run.1 = spec.1 ∧ follows (Z.max window 1) (Z.max threshold 1) timeout run.2 spec.2).
  { simpl in *. destruct Hf as (H1 & _ & _ & _ & H2 & H3 & _). done. }
  induction ops as [|op ops IH] using rev_ind.
  - unfold follows, breaker_new. simpl. rewrite !at_least_one. split_and!; done || lia.
  - rewrite !core_run_snoc. destruct (core_run breaker_step _ ops) as [os b], (core_run (history_step _ _ _) _ ops) as [os' r].
    simpl in IH. destruct IH as [-> IH]. cbn [fst snd].
    destruct (breaker_step_follows (Z.max window 1) _ _ b r op ltac:(lia) IH) as [-> Hf]. done.
Qed.

Lemma failures_app l l' : failures (l ++ l') = failures l + failures l'.
Proof. induction l as [|[] l IH]; simpl; lia. Qed.

Lemma failures_nonneg l : 0 ≤ failures l.
Proof. induction l as [|[] l IH]; simpl; lia. Qed.

Lemma failures_last_elems size l : failures (last_elems size l) ≤ failures l.
Proof.
  unfold last_elems. rewrite <- (take_drop (length l - Z.to_nat size) l) at 3. rewrite failures_app.
  pose proof (failures_nonneg (take (length l - Z.to_nat size) l)). lia.
Qed.

(** What never changes, and what holds while closed: a success cannot trip it. *)
Definition breaker_inv (timeout : Z) (b : CircuitBreakerCore) : Prop :=
  reset_timeout b = timeout ∧ 0 ≤ b_window b ∧ 0 < failure_threshold b ∧
  (state_ b = Closed → failures (outcomes b) < failure_threshold b).

Lemma breaker_step_inv timeout b op : breaker_inv timeout b → breaker_inv timeout (breaker_step b op).2.
Proof.
  intros (Ht & Hw & Hth & Hc). destruct op as [now|ok now]; simpl; unfold breaker_allow, breaker_record.
  - destruct (state_ b) eqn:Eb; try destruct (_ <=? _); by (split_and!; simpl; auto; congruence).
  - destruct (state_ b) eqn:Eb; [destruct (_ <=? _) eqn:E; zify_bools| |destruct ok];
      (split_and!; simpl; auto; congruence).
Qed.

Lemma breaker_run_inv window threshold timeout ops :
  0 ≤ window → breaker_inv timeout (core_run breaker_step (breaker_new window threshold timeout) ops).2.
Proof.
  intros Hw. induction ops as [|op ops IH] using rev_ind.
  - unfold breaker_inv, breaker_new. simpl. rewrite !at_least_one. split_and!; [done|lia|lia|intros; lia].
  - rewrite core_run_snoc. by apply breaker_step_inv.
Qed.

(** A step into [Open] is a failure recorded then; staying there is a refusal. *)
Lemma breaker_step_open timeout b op :
  breaker_inv timeout b → state_ (breaker_step b op).2 = Open →
  (state_ b ≠ Open ∧ ∃ t, op = Outcome false t ∧ open_until (breaker_step b op).2 = u64 (t + timeout)) ∨
  (state_ b = Open ∧ (breaker_step b op).2 = b ∧
   ∀ now, op = Allow now → now < open_until b ∧ (breaker_step b op).1 = Some false).
Proof.
  intros (Ht & Hw & Hth & Hc). destruct op as [now|ok now]; simpl; unfold breaker_allow, breaker_record.
  - destruct (state_ b) eqn:Eb; try (simpl; congruence). destruct (_ <=? now) eqn:E; zify_bools; [done|].
    intros _. right. split_and!; [done|done|]. by intros ? [= <-].
  - destruct (state_ b) eqn:Eb; simpl.
    + destruct (_ <=? _) eqn:E; zify_bools; [|done]. intros _. left. split; [done|]. exists now. simpl. rewrite Ht.
      split; [|done]. f_equal. destruct ok; [|done]. exfalso. specialize (Hc eq_refl).
      rewrite trim_last in E by done. pose proof (failures_last_elems (b_window b) (outcomes b ++ [true])) as Hf.
      rewrite failures_app in Hf. simpl in Hf. lia.
    + intros _. right. split_and!; [done|done|]. by intros ? [=].
    + destruct ok; [done|]. intros _. left. split; [done|]. exists now. simpl. by rewrite Ht.
Qed.

(** An open breaker fails fast until its deadline.  When the breaker is open
    after some operations, it was tripped by a failure recorded at some time
    [t], every call asked for since then came before [t + reset_timeout] and was
    refused, and the next call is allowed, half opening the breaker, exactly
    when that deadline has come. *)
Theorem open_breaker_fails_fast (window threshold timeout : Z) (ops : list BreakerOp) (now : Z) :
  let run := core_run breaker_step (breaker_new window threshold timeout) ops in
  0 ≤ window → state_ run.2 = Open →
  ∃ i t, ops !! i = Some (Outcome false t) ∧
    (∀ j now, (i < j)%nat → ops !! j = Some (Allow now) → now < u64 (t + timeout) ∧ run.1 !! j = Some (Some false)) ∧
    ((breaker_step run.2 (Allow now)).1 = Some true ↔ u64 (t + timeout) ≤ now) ∧
    (u64 (t + timeout) ≤ now → state_ (breaker_step run.2 (Allow now)).2 = HalfOpen).
Proof.
  intros run Hw Ho.
  enough (Hinv : ∃ i t, ops !! i = Some (Outcome false t) ∧ open_until run.2 = u64 (t + timeout) ∧
    ∀ j now, (i < j)%nat → ops !! j = Some (Allow now) → now < u64 (t + timeout) ∧ run.1 !! j = Some (Some false)).
  { destruct Hinv as (i & t & Hi & Hu & Hj). exists i, t. simpl. unfold breaker_allow. rewrite Ho, Hu.
    split_and!; [done|done| |]; destruct (_ <=? now) eqn:E; zify_bools; simpl; split || intros; done || lia. }
  revert Ho. unfold run. clear run now. induction ops as [|op ops IH] using rev_ind; [done|].
  pose proof (breaker_run_inv window threshold timeout ops Hw) as Hinv. rewrite core_run_snoc.
  pose proof (length_core_run breaker_step (breaker_new window threshold timeout) ops) as Hlen.
  destruct (core_run breaker_step _ ops) as [os b]. cbn [fst snd] in *. intros Ho.
  destruct (breaker_step_open timeout b op Hinv Ho) as [(_ & t & -> & Hu)|(Hb & Es & Ha)].
  - exists (length ops), t. split_and!; [by apply list_lookup_middle|done|].
    intros j now Hlt Hl. apply lookup_lt_Some in Hl. rewrite length_app in Hl. simpl in Hl. lia.
  - destruct (IH Hb) as (i & t & Hi & Hu & Hj). exists i, t. rewrite Es. split_and!; [by apply lookup_app_l_Some|done|].
    intros j now Hlt Hl. apply lookup_app_Some in Hl as [Hl|[Hge Hl]].
    + destruct (Hj j now Hlt Hl) as [? ?]. split; [done|]. by apply lookup_app_l_Some.
    + apply list_lookup_singleton_Some in Hl as [Hz ->]. destruct (Ha now eq_refl) as [? ->].
      split; [congruence|]. assert (j = length os) as -> by lia. by apply list_lookup_middle.
Qed.

Lemma open_breaker_fails_fast_witness :
  let ops := [Outcome true 1; Outcome false 2; Outcome false 3; Allow 5; Outcome true 6; Allow 12] in
  let run := core_run breaker_step (breaker_new 3 2 10) ops in
  run.1 = [None; None; None; Some false; None; Some false] ∧
  ∃ i t, ops !! i = Some (Outcome false t) ∧
    (∀ j now, (i < j)%nat → ops !! j = Some (Allow now) → now < u64 (t + 10) ∧ run.1 !! j = Some (Some false)) ∧
    ((breaker_step run.2 (Allow 13)).1 = Some true ↔ u64 (t + 10) ≤ 13) ∧
    (u64 (t + 10) ≤ 13 → state_ (breaker_step run.2 (Allow 13)).2 = HalfOpen).
Proof.
  split; [reflexivity|].
  apply (open_breaker_fails_fast 3 2 10 [Outcome true 1; Outcome false 2; Outcome false 3; Allow 5; Outcome true 6; Allow 12] 13);
    [lia|reflexivity].
Defined.

(** [HalfOpen] admits any number of calls, not one probe. *)
Lemma half_open_allows_every_probe b nows :
  state_ b = HalfOpen → core_run breaker_step b (Allow <$> nows) = (replicate (length nows) (Some true), b).
Proof. intros Hb. induction nows as [|now nows IH]; [done|]. csimpl. unfold breaker_allow. by rewrite Hb, IH. Qed.

(** ** Retry *)

Lemma retry_delay_spec r a :
  0 < base_ r < two64 → is_u64 (cap_ r) → 0 ≤ a → retry_delay r a = Z.min (cap_ r) (base_ r * 2 ^ a).
Proof.
  intros Hb Hc Ha. unfold retry_delay, is_u64 in *. destruct (64 <=? a) eqn:E; zify_bools.
  - assert (2 ^ 64 ≤ 2 ^ a) by (apply Z.pow_le_mono_r; lia). change (2 ^ 64) with two64 in *. nia.
  - rewrite Z.shiftl_mul_pow2, Z.shiftr_div_pow2 by lia. assert (Hp : 0 < 2 ^ a) by (apply Z.pow_pos_nonneg; lia).
    destruct (decide (base_ r * 2 ^ a < two64)) as [Hs|Hs].
    + rewrite u64_small by (unfold is_u64; nia). rewrite Z.div_mul by lia. rewrite Z.eqb_refl. simpl.
      destruct (_ <? _) eqn:E'; zify_bools; lia.
    + destruct (_ =? base_ r) eqn:E'; zify_bools; simpl; [|lia].
      pose proof (u64_range (base_ r * 2 ^ a)) as Hr. unfold is_u64 in Hr.
      pose proof (Z.mul_div_le (u64 (base_ r * 2 ^ a)) (2 ^ a) Hp). nia.
Qed.

(** Attempts since the last reset. *)
Definition attempts (ops : list RetryOp) : nat :=
  foldl (λ k op, match op with NextDelay => S k | ResetAttempts => O end) O ops.

Lemma retry_state base cap ops :
  (core_run retry_step (retry_new base cap) ops).2 = mkRetry base cap (Z.min (Z.of_nat (attempts ops)) u32_max).
Proof.
  induction ops as [|op ops IH] using rev_ind; [done|]. unfold attempts. rewrite core_run_snoc, foldl_app.
  fold (attempts ops). destruct (core_run retry_step _ ops) as [os r]. cbn [fst snd] in *. subst r.
  destruct op; simpl; [|done]. unfold retry_next_delay. simpl.
  destruct (_ =? u32_max) eqn:E; zify_bools; simpl; f_equal; lia.
Qed.

(** A retry policy backs off exponentially, without overflow.  The delay
    answered to the [k]-th attempt since the last reset (counting from 0) is
    [min cap (base * 2^k)] on the integers, for every positive 64-bit base, any
    cap and any number of attempts, also past the width of the shift and of the
    attempt counter. *)
Theorem retry_backs_off_exponentially (base cap : Z) (ops : list RetryOp) (i : nat) :
  0 < base < two64 → is_u64 cap → ops !! i = Some NextDelay →
  (core_run retry_step (retry_new base cap) ops).1 !! i =
    Some (Some (Z.min cap (base * 2 ^ Z.of_nat (attempts (take i ops))))).
Proof.
  intros Hb Hc Hi. apply core_run_lookup. exists NextDelay. split; [done|]. rewrite retry_state. simpl.
  f_equal. rewrite retry_delay_spec by (simpl; done || (unfold u32_max; lia)). simpl.
  destruct (decide (Z.of_nat (attempts (take i ops)) ≤ u32_max)) as [Hle|Hgt]; [by rewrite (Z.min_l (Z.of_nat _)) by done|].
  rewrite (Z.min_r (Z.of_nat _)) by lia. unfold is_u64 in Hc.
  assert (Hbig : ∀ a, u32_max ≤ a → two64 ≤ 2 ^ a).
  { intros a Ha. change two64 with (2 ^ 64). apply Z.pow_le_mono_r; unfold u32_max in Ha; lia. }
  pose proof (Hbig (Z.of_nat (attempts (take i ops))) ltac:(lia)). pose proof (Hbig u32_max ltac:(lia)).
  rewrite !Z.min_l by nia. done.
Qed.

Lemma retry_backs_off_exponentially_witness :
  let ops := [NextDelay; NextDelay; ResetAttempts; NextDelay; NextDelay; NextDelay; NextDelay] in
  (core_run retry_step (retry_new 100 500) ops).1 !! 5%nat = Some (Some (Z.min 500 (100 * 2 ^ Z.of_nat 2))).
Proof.
  apply (retry_backs_off_exponentially 100 500 [NextDelay; NextDelay; ResetAttempts; NextDelay; NextDelay; NextDelay; NextDelay] 5);
    [unfold two64; lia|unfold is_u64, two64; lia|done].
Defined.

(** With a base of 0 every delay should be 0; from attempt 64 on it is the cap. *)
Lemma zero_base_jumps_to_cap cap : retry_delay (retry_new 0 cap) 64 = cap ∧ (0 ≤ cap → Z.min cap (0 * 2 ^ 64) = 0).
Proof. split; [done|]. lia. Qed.

(** ** Bulkhead *)

Lemma bulkhead_bounded capacity ops :
  is_u64 capacity →
  let b := (core_run bulkhead_step (bulkhead_new capacity) ops).2 in
  capacity_ b = capacity ∧ 0 ≤ in_use_ b ≤ capacity ∧
  in_use_ b = foldl (λ n op, match op with Acquire => Z.min capacity (n + 1) | Release => Z.max 0 (n - 1) end) 0 ops.
Proof.
  intros Hc. unfold is_u64 in Hc. induction ops as [|op ops IH] using rev_ind; [simpl; lia|].
  rewrite core_run_snoc, foldl_app. destruct (core_run bulkhead_step _ ops) as [os b]. cbn [fst snd foldl] in *.
  destruct IH as (Hcap & Hb & Hn). rewrite <- Hn. destruct op; simpl; unfold bulkhead_acquire, bulkhead_release.
  - rewrite Hcap. destruct (_ <? _) eqn:E; zify_bools; simpl; [rewrite u64_small by (unfold is_u64; lia)|]; lia.
  - destruct (_ <? _) eqn:E; zify_bools; simpl; [rewrite u64_small by (unfold is_u64; lia)|]; lia.
Qed.

(** ** Timeout *)

(** The arming in force is the [j]-th operation, with its deadline. *)
Definition armed_at (ops : list TimeoutOp) (j : nat) (deadline : Z) : Prop :=
  ∃ t d, ops !! j = Some (Arm t d) ∧ deadline = u64 (t + d) ∧ ∀ k t' d', (j < k)%nat → ops !! k ≠ Some (Arm t' d').

Lemma armed_at_snoc_tick ops j deadline now : armed_at ops j deadline → armed_at (ops ++ [TickTimeout now]) j deadline.
Proof.
  intros (t & d & Hj & -> & Hk). exists t, d. split_and!; [by apply lookup_app_l_Some|done|].
  intros k t' d' Hlt [Hl|[_ Hl]]%lookup_app_Some; [by eapply Hk|]. by apply list_lookup_singleton_Some in Hl as [_ ?].
Qed.

Lemma timeout_state ops :
  let t := (core_run timeout_step timeout_new ops).2 in
  if armed_ t then
    ∃ j, armed_at ops j (deadline_ t) ∧
      (timed_out_ t = true ↔ ∃ k now, (j < k)%nat ∧ ops !! k = Some (TickTimeout now) ∧ deadline_ t ≤ now)
  else ∀ k t' d', ops !! k ≠ Some (Arm t' d').
Proof.
  induction ops as [|op ops IH] using rev_ind; [done|]. rewrite core_run_snoc.
  destruct (core_run timeout_step timeout_new ops) as [os t]. cbn [fst snd] in *. destruct op as [now d|now]; simpl.
  - exists (length ops). split.
    + exists now, d. split_and!; [by apply list_lookup_middle|done|].
      intros k t' d' Hlt Hl%lookup_lt_Some. rewrite length_app in Hl. simpl in Hl. lia.
    + split; [done|]. intros (k & now' & Hlt & Hl%lookup_lt_Some & _). rewrite length_app in Hl. simpl in Hl. lia.
  - unfold timeout_tick. destruct (armed_ t) eqn:Ea; simpl.
    + destruct IH as (j & Hj & Hiff).
      assert (Hlt : (j < length ops)%nat) by (destruct Hj as (? & ? & Hl & _); by eapply lookup_lt_Some).
      assert (Hext : (∃ k now', (j < k)%nat ∧ (ops ++ [TickTimeout now]) !! k = Some (TickTimeout now') ∧ deadline_ t ≤ now') ↔
        timed_out_ t = true ∨ deadline_ t ≤ now).
      { rewrite Hiff. split.
        - intros (k & now' & Hjk & [Hl|[_ Hl]]%lookup_app_Some & Hle); [left; eauto|].
          apply list_lookup_singleton_Some in Hl as [_ [= ->]]. by right.
        - intros [(k & now' & ? & ? & ?)|Hle].
          + exists k, now'. split_and!; [done|by apply lookup_app_l_Some|done].
          + exists (length ops), now. split_and!; [done|by apply list_lookup_middle|done]. }
      destruct (timed_out_ t) eqn:Et; simpl; [|destruct (deadline_ t <=? now) eqn:E; zify_bools; simpl];
        rewrite ?Ea; exists j; (split; [by apply armed_at_snoc_tick|]); rewrite Hext, ?Et; naive_solver lia.
    + rewrite Ea. intros k t' d' [Hl|[_ Hl]]%lookup_app_Some; [by eapply IH|].
      by apply list_lookup_singleton_Some in Hl as [_ ?].
Qed.

Lemma armed_at_unique ops j d j' d' : armed_at ops j d → armed_at ops j' d' → j = j' ∧ d = d'.
Proof.
  intros (t & e & Hj & -> & Hk) (t' & e' & Hj' & -> & Hk').
  destruct (lt_eq_lt_dec j j') as [[Hlt| ->]|Hlt]; [by destruct (Hk _ t' e' Hlt)| |by destruct (Hk' _ t e Hlt)].
  rewrite Hj in Hj'. by injection Hj' as -> ->.
Qed.

(** A timeout fires once per arming, at the first tick that reaches its
    deadline.  Operation [i] reports the edge if and only if it is a tick at or
    past the deadline of the latest arming before it, and no tick in between
    had reached that deadline; a timeout never armed never fires. *)
Theorem timeout_fires_once_per_arming (ops : list TimeoutOp) (i : nat) :
  (core_run timeout_step timeout_new ops).1 !! i = Some (Some true) ↔
  ∃ now j deadline, ops !! i = Some (TickTimeout now) ∧ armed_at (take i ops) j deadline ∧ deadline ≤ now ∧
    ∀ k now', (j < k < i)%nat → ops !! k = Some (TickTimeout now') → now' < deadline.
Proof.
  rewrite core_run_lookup. pose proof (timeout_state (take i ops)) as Hs.
  destruct (core_run timeout_step timeout_new (take i ops)) as [os t]. simpl in Hs. simpl snd. split.
  - intros ([now d|now] & Hi & He); [done|]. simpl in He. unfold timeout_tick in He.
    destruct (armed_ t); [|done]. destruct (timed_out_ t) eqn:Et; [done|]. simpl in He.
    destruct (deadline_ t <=? now) eqn:E; [|done]. zify_bools.
    destruct Hs as (j & Hj & Hiff). exists now, j, (deadline_ t). split_and!; [done|done|done|].
    intros k now' [Hjk Hki] Hl. destruct (decide (now' < deadline_ t)) as [|Hge]; [done|]. exfalso.
    enough (false = true) by done. apply Hiff. exists k, now'. split_and!; [done|by rewrite lookup_take_lt|lia].
  - intros (now & j & deadline & Hi & Hj & Hle & Hk). exists (TickTimeout now). split; [done|]. simpl. unfold timeout_tick.
    destruct (armed_ t).
    + destruct Hs as (j' & Hj' & Hiff). destruct (armed_at_unique _ _ _ _ _ Hj Hj') as [<- ->].
      destruct (timed_out_ t).
      * destruct Hiff as [Hiff _]. destruct (Hiff eq_refl) as (k & now' & Hjk & Hl & Hd).
        apply lookup_take_Some in Hl as [Hl Hki]. specialize (Hk k now' ltac:(lia) Hl). lia.
      * simpl. destruct (_ <=? now) eqn:E; zify_bools; [done|lia].
    + destruct Hj as (t' & d & Hl & _). by destruct (Hs _ _ _ Hl).
Qed.

(** ** The cells *)
Section cells_correct.
  Context {C H : Type}.
  Context `{!SourceContext C H BreakerState, !SourceContextLaws C H BreakerState}.
  Context `{!SourceContext C H Z, !SourceContextLaws C H Z}.
  Context `{!SourceContext C H bool, !SourceContextLaws C H bool}.

(** What the retry cell shows: the last delay answered, 0 after a reset. *)
Definition shown_delay (answers : list (option Z)) : Z := default 0 (default None (last answers)).

(** The resilience cells mirror their cores.  Over any implementation of the
    context's sources, a breaker, retry, bulkhead or timeout cell driven
    through any operations always succeeds and answers as its core, and its
    source then reads the core's state, the last delay answered (0 after a
    reset), the permits in use or the timed-out flag; no other source changes. *)
Theorem resilience_cells_mirror (window threshold timeout base cap capacity : Z)
    (bops : list BreakerOp) (rops : list RetryOp) (kops : list BulkheadOp) (tops : list TimeoutOp) (c : C) :
  ctx_ok (T:=BreakerState) c → ctx_ok (T:=Z) c → ctx_ok (T:=bool) c →
  cell_mirrors breaker_step c (breaker_cell_new window threshold timeout c) breaker_cell_step
    (breaker_new window threshold timeout) bops (λ _, state_) ∧
  cell_mirrors retry_step c (retry_cell_new base cap c) retry_cell_step (retry_new base cap) rops (λ answers _, shown_delay answers) ∧
  cell_mirrors bulkhead_step c (bulkhead_cell_new capacity c) bulkhead_cell_step (bulkhead_new capacity) kops (λ _, in_use_) ∧
  cell_mirrors timeout_step c (timeout_cell_new c) timeout_cell_step timeout_new tops (λ _, timed_out_).
Proof.
  intros Hcs Hcz Hcb. split_and!.
  - apply (refreshed_view breaker_step state_); [done|done|]. intros cell [now|ok now] c'; [|done].
    unfold refreshed_step. simpl. unfold breaker_refresh. by destruct (breaker_allow _ _).
  - eapply cell_mirrors_shown;
      [|apply (refreshed_mirrors_core retry_step (λ _ d _, default 0 d)); [done|done|]; by intros cell [|] c'].
    unfold last_view, shown_delay. pose proof (length_core_run retry_step (retry_new base cap) rops) as Hlen.
    destruct rops as [|op rops]; [done|]. destruct (last (op :: rops)) eqn:E; [|by apply last_None in E].
    by destruct (last (core_run retry_step (retry_new base cap) (op :: rops)).1).
  - apply (refreshed_view bulkhead_step in_use_); [done|done|]. intros cell [|] c'; [|done].
    unfold refreshed_step. simpl. unfold bulkhead_refresh. by destruct (bulkhead_acquire _).
  - apply (refreshed_view timeout_step timed_out_); [done|done|]. intros cell [now d|now] c'; [done|].
    unfold refreshed_step. simpl. unfold timeout_refresh. by destruct (timeout_tick _ _).
Qed.

End cells_correct.

(** Over the engine: a context whose cells hold integers, flags and breaker states. *)
Lemma resilience_cells_mirror_witness :
  let c : Ctx (Z + (bool + BreakerState)) := empty_ctx in
  cell_mirrors (H:=Handle) breaker_step c (breaker_cell_new 3 1 10 c) breaker_cell_step (breaker_new 3 1 10)
    [Outcome false 4; Allow 5] (λ _, state_) ∧
  cell_mirrors (H:=Handle) retry_step c (retry_cell_new 10 50 c) retry_cell_step (retry_new 10 50) [NextDelay; NextDelay]
    (λ answers _, shown_delay answers) ∧
  cell_mirrors (H:=Handle) bulkhead_step c (bulkhead_cell_new 1 c) bulkhead_cell_step (bulkhead_new 1) [Acquire; Acquire] (λ _, in_use_) ∧
  cell_mirrors (H:=Handle) timeout_step c (timeout_cell_new c) timeout_cell_step timeout_new [Arm 0 5; TickTimeout 6] (λ _, timed_out_).
Proof.
  exact (resilience_cells_mirror (C := Ctx (Z + (bool + BreakerState))) (H := Handle) 3 1 10 10 50 1
    [Outcome false 4; Allow 5] [NextDelay; NextDelay] [Acquire; Acquire] [Arm 0 5; TickTimeout 6] empty_ctx
    (empty_ctx_ok (T:=BreakerState)) (empty_ctx_ok (T:=Z)) (empty_ctx_ok (T:=bool))).
Defined.
