(* ===== verification/Coordination.v ===== *)
(** * Coordination: leases, leadership, locks, semaphores, quorums

    Models include/lazily/coordination.hpp: the lease with its fencing token, the
    cells built on it (lease, leader, lock), the permit pool and the wait-for-N
    gate.  Peers are of any type with decidable equality. *)
From S2P Require Import Prelude Kernel KernelCorrect Reactive.
#[local] Open Scope Z_scope.

(** ** Lease *)
Section lease.
  Context {P : Type} `{Countable P}.

(* include/lazily/coordination.hpp:89-91, LeaseCore (data members) *)
Record LeaseCore := mkLease { holder_ : option P; expiry_ : Z; fence_ : Z }.

(* include/lazily/coordination.hpp:33-33, LeaseCore::LeaseCore *)
Definition lease_new : LeaseCore := mkLease None 0 0.

(* include/lazily/coordination.hpp:87-87, LeaseCore::is_expired *)
Definition is_expired (l : LeaseCore) (now : Z) : bool := bool_decide (is_Some (holder_ l)) && (expiry_ l <=? now).

(* include/lazily/coordination.hpp:36-36, LeaseCore::is_held *)
Definition is_held (l : LeaseCore) (now : Z) : bool := bool_decide (is_Some (holder_ l)) && negb (is_expired l now).

(* include/lazily/coordination.hpp:39-42, LeaseCore::holder *)
Definition lease_holder (l : LeaseCore) (now : Z) : option P := if is_held l now then holder_ l else None.

(* include/lazily/coordination.hpp:48-61, LeaseCore::acquire *)
Definition lease_acquire (l : LeaseCore) (peer : P) (now ttl : Z) : option Z * LeaseCore :=
  let free := negb (bool_decide (is_Some (holder_ l))) || is_expired l now in
  if free then
    let fence := u64 (fence_ l + 1) in (Some fence, mkLease (Some peer) (u64 (now + ttl)) fence)
  else if decide (holder_ l = Some peer) then (Some (fence_ l), mkLease (holder_ l) (u64 (now + ttl)) (fence_ l))
  else (None, l).

(* include/lazily/coordination.hpp:64-70, LeaseCore::renew *)
Definition lease_renew (l : LeaseCore) (peer : P) (now ttl : Z) : bool * LeaseCore :=
  if is_held l now && bool_decide (holder_ l = Some peer)
  then (true, mkLease (holder_ l) (u64 (now + ttl)) (fence_ l)) else (false, l).

(* include/lazily/coordination.hpp:73-75, LeaseCore::release *)
Definition lease_release (l : LeaseCore) (peer : P) : LeaseCore :=
  if decide (holder_ l = Some peer) then mkLease None (expiry_ l) (fence_ l) else l.

(* include/lazily/coordination.hpp:78-84, LeaseCore::tick *)
Definition lease_tick (l : LeaseCore) (now : Z) : bool * LeaseCore :=
  if is_expired l now then (true, mkLease None (expiry_ l) (fence_ l)) else (false, l).

(** Every operation at its time; [release] takes one for the cell's refresh. *)
Inductive LeaseOp :=
  | LAcquire (peer : P) (now ttl : Z)
  | LRenew (peer : P) (now ttl : Z)
  | LRelease (peer : P) (now : Z)
  | LTick (now : Z).
Inductive LeaseAnswer := Token (fence : option Z) | Flag (b : bool) | Done.

Definition lease_step (l : LeaseCore) (op : LeaseOp) : LeaseAnswer * LeaseCore :=
  match op with
  | LAcquire peer now ttl => let '(r, l) := lease_acquire l peer now ttl in (Token r, l)
  | LRenew peer now ttl => let '(r, l) := lease_renew l peer now ttl in (Flag r, l)
  | LRelease peer _ => (Done, lease_release l peer)
  | LTick now => let '(r, l) := lease_tick l now in (Flag r, l)
  end.

Definition op_time (op : LeaseOp) : Z :=
  match op with LAcquire _ now _ | LRenew _ now _ | LRelease _ now | LTick now => now end.

(* include/lazily/coordination.hpp:140-144, LeaderRole *)
Inductive LeaderRole := Leader | Follower | Candidate.

(* include/lazily/coordination.hpp:174-178, LeaderCell::role *)
Definition leader_role (l : LeaseCore) (me : P) (now : Z) : LeaderRole :=
  match lease_holder l now with
  | None => Candidate
  | Some h => if decide (h = me) then Leader else Follower
  end.

(* include/lazily/coordination.hpp:218-218, LockCell::validate *)
Definition lock_validate (l : LeaseCore) (fence : Z) : bool := fence_ l =? fence.

End lease.
Arguments LeaseCore : clear implicits.
Arguments LeaseOp : clear implicits.

(** ** Permits and gates *)

(* include/lazily/coordination.hpp:255-256, SemaphoreCore (data members) *)
Record SemaphoreCore := mkSemaphore { capacity_ : Z; acquired_ : Z }.

(* include/lazily/coordination.hpp:238-238, SemaphoreCore::SemaphoreCore *)
Definition semaphore_new (capacity : Z) : SemaphoreCore := mkSemaphore capacity 0.

(* include/lazily/coordination.hpp:240-240, SemaphoreCore::available *)
Definition available (s : SemaphoreCore) : Z := u64 (capacity_ s - acquired_ s).

(* include/lazily/coordination.hpp:242-248, SemaphoreCore::acquire *)
Definition semaphore_acquire (s : SemaphoreCore) : bool * SemaphoreCore :=
  if acquired_ s <? capacity_ s then (true, mkSemaphore (capacity_ s) (u64 (acquired_ s + 1))) else (false, s).

(* include/lazily/coordination.hpp:250-252, SemaphoreCore::release *)
Definition semaphore_release (s : SemaphoreCore) : SemaphoreCore :=
  if 0 <? acquired_ s then mkSemaphore (capacity_ s) (u64 (acquired_ s - 1)) else s.

Inductive SemaphoreOp := SAcquire | SRelease.

Definition semaphore_step (s : SemaphoreCore) (op : SemaphoreOp) : option bool * SemaphoreCore :=
  match op with
  | SAcquire => let '(r, s) := semaphore_acquire s in (Some r, s)
  | SRelease => (None, semaphore_release s)
  end.

(** The gate of a quorum over [total] voters. *)
(* include/lazily/coordination.hpp:319-319, BarrierCell::quorum *)
Definition majority (total : Z) : Z := u64 (total / 2 + 1).

Section barrier.
  Context {P : Type} `{Countable P}.

(* include/lazily/coordination.hpp:306-307, BarrierCore (data members) *)
Record BarrierCore := mkBarrier { required_ : Z; arrived_ : gset P }.

(* include/lazily/coordination.hpp:293-293, BarrierCore::BarrierCore *)
Definition barrier_new (required : Z) : BarrierCore := mkBarrier required ∅.

(* include/lazily/coordination.hpp:301-301, BarrierCore::count *)
Definition barrier_count (b : BarrierCore) : Z := Z.of_nat (size (arrived_ b)).

(* include/lazily/coordination.hpp:303-303, BarrierCore::is_open *)
Definition is_open (b : BarrierCore) : bool := required_ b <=? barrier_count b.

(* include/lazily/coordination.hpp:296-299, BarrierCore::arrive *)
Definition barrier_arrive (b : BarrierCore) (peer : P) : bool * BarrierCore :=
  let b := mkBarrier (required_ b) ({[peer]} ∪ arrived_ b) in (is_open b, b).

End barrier.
Arguments BarrierCore P {_ _}.

(** ** Cells *)
Section cells.
  Context {C H P : Type} `{Countable P}.
  Context `{!SourceContext C H (option P)} `{!SourceContext C H bool} `{!SourceContext C H Z}.

(* include/lazily/coordination.hpp:98-98, LeaseCell::LeaseCell *)
Definition lease_cell_new (c : C) : option (Mirrored (H:=H) (S:=LeaseCore P) * C) :=
  '(h, c) ← ctx_source None c; Some (mkMirrored lease_new h, c).

(* include/lazily/coordination.hpp:129-129, LeaseCell::refresh *)
Definition lease_refresh (cell : Mirrored (H:=H) (S:=LeaseCore P)) (now : Z) (c : C) : option C :=
  ctx_set (mcell_ cell) (lease_holder (mcore_ cell) now) c.

(* include/lazily/coordination.hpp:100-121, LeaseCell::acquire, renew, release, tick *)
Definition lease_cell_step (cell : Mirrored (H:=H) (S:=LeaseCore P)) (op : LeaseOp P) (c : C) :
    option (LeaseAnswer * Mirrored (H:=H) (S:=LeaseCore P) * C) :=
  match op with
  | LAcquire peer now ttl =>
      let '(r, core) := lease_acquire (mcore_ cell) peer now ttl in
      let cell := mkMirrored core (mcell_ cell) in
      c ← lease_refresh cell now c; Some (Token r, cell, c)
  | LRenew peer now ttl =>
      let '(r, core) := lease_renew (mcore_ cell) peer now ttl in
      let cell := mkMirrored core (mcell_ cell) in
      c ← lease_refresh cell now c; Some (Flag r, cell, c)
  | LRelease peer now =>
      let cell := mkMirrored (lease_release (mcore_ cell) peer) (mcell_ cell) in
      c ← lease_refresh cell now c; Some (Done, cell, c)
  | LTick now =>
      let '(r, core) := lease_tick (mcore_ cell) now in
      let cell := mkMirrored core (mcell_ cell) in
      c ← lease_refresh cell now c; Some (Flag r, cell, c)
  end.

(* include/lazily/coordination.hpp:149-150, LeaderCell::LeaderCell *)
Definition leader_cell_new (c : C) : option (Mirrored (H:=H) (S:=LeaseCore P) * C) :=
  '(h, c) ← ctx_source None c; Some (mkMirrored lease_new h, c).

Inductive LeaderOp := Campaign (now ttl : Z) | Contend (peer : P) (now ttl : Z) | LeaderTick (now : Z).

Definition leader_time (op : LeaderOp) : Z :=
  match op with Campaign now _ | Contend _ now _ | LeaderTick now => now end.

(** What the operation does to the lease. *)
Definition leader_core_op (me : P) (op : LeaderOp) (l : LeaseCore P) : LeaseCore P :=
  match op with
  | Campaign now ttl => (lease_acquire l me now ttl).2
  | Contend peer now ttl => (lease_acquire l peer now ttl).2
  | LeaderTick now => (lease_tick l now).2
  end.

(* include/lazily/coordination.hpp:153-170, LeaderCell::campaign, contend, tick *)
Definition leader_cell_step (me : P) (cell : Mirrored (H:=H) (S:=LeaseCore P)) (op : LeaderOp) (c : C) :
    option (LeaderRole * Mirrored (H:=H) (S:=LeaseCore P) * C) :=
  let core := leader_core_op me op (mcore_ cell) in
  c ← ctx_set (mcell_ cell) (lease_holder core (leader_time op)) c;
  Some (leader_role core me (leader_time op), mkMirrored core (mcell_ cell), c).

(* include/lazily/coordination.hpp:197-197, LockCell::LockCell *)
Definition lock_cell_new (c : C) : option (Mirrored (H:=H) (S:=LeaseCore P) * C) :=
  '(h, c) ← ctx_source false c; Some (mkMirrored lease_new h, c).

(* include/lazily/coordination.hpp:225-225, LockCell::refresh *)
Definition lock_refresh (cell : Mirrored (H:=H) (S:=LeaseCore P)) (now : Z) (c : C) : option C :=
  ctx_set (mcell_ cell) (is_held (mcore_ cell) now) c.

Inductive LockOp := Lock (peer : P) (now ttl : Z) | Unlock (peer : P) (now : Z) | LockTick (now : Z).

(* include/lazily/coordination.hpp:200-215, LockCell::acquire, release, tick *)
Definition lock_cell_step (cell : Mirrored (H:=H) (S:=LeaseCore P)) (op : LockOp) (c : C) :
    option (LeaseAnswer * Mirrored (H:=H) (S:=LeaseCore P) * C) :=
  match op with
  | Lock peer now ttl =>
      let '(r, core) := lease_acquire (mcore_ cell) peer now ttl in
      let cell := mkMirrored core (mcell_ cell) in
      c ← lock_refresh cell now c; Some (Token r, cell, c)
  | Unlock peer now =>
      let cell := mkMirrored (lease_release (mcore_ cell) peer) (mcell_ cell) in
      c ← lock_refresh cell now c; Some (Done, cell, c)
  | LockTick now =>
      let '(r, core) := lease_tick (mcore_ cell) now in
      let cell := mkMirrored core (mcell_ cell) in
      c ← lock_refresh cell now c; Some (Flag r, cell, c)
  end.

(* include/lazily/coordination.hpp:262-263, SemaphoreCell::SemaphoreCell *)
Definition semaphore_cell_new (capacity : Z) (c : C) : option (Mirrored (H:=H) (S:=SemaphoreCore) * C) :=
  '(h, c) ← ctx_source capacity c; Some (mkMirrored (semaphore_new capacity) h, c).

(* include/lazily/coordination.hpp:280-280, SemaphoreCell::refresh *)
Definition semaphore_refresh (cell : Mirrored (H:=H) (S:=SemaphoreCore)) (c : C) : option C :=
  ctx_set (mcell_ cell) (available (mcore_ cell)) c.

(* include/lazily/coordination.hpp:265-274, SemaphoreCell::acquire, release *)
Definition semaphore_cell_step (cell : Mirrored (H:=H) (S:=SemaphoreCore)) (op : SemaphoreOp) (c : C) :
    option (option bool * Mirrored (H:=H) (S:=SemaphoreCore) * C) :=
  match op with
  | SAcquire =>
      let '(r, core) := semaphore_acquire (mcore_ cell) in
      let cell := mkMirrored core (mcell_ cell) in
      c ← semaphore_refresh cell c; Some (Some r, cell, c)
  | SRelease =>
      let cell := mkMirrored (semaphore_release (mcore_ cell)) (mcell_ cell) in
      c ← semaphore_refresh cell c; Some (None, cell, c)
  end.

(* include/lazily/coordination.hpp:314-315, BarrierCell::BarrierCell *)
Definition barrier_cell_new (required : Z) (c : C) : option (Mirrored (H:=H) (S:=BarrierCore P) * C) :=
  let core := barrier_new required in
  '(h, c) ← ctx_source (is_open core) c; Some (mkMirrored core h, c).

(* include/lazily/coordination.hpp:317-320, BarrierCell::quorum *)
Definition quorum (total : Z) (c : C) : option (Mirrored (H:=H) (S:=BarrierCore P) * C) :=
  barrier_cell_new (majority total) c.

(* include/lazily/coordination.hpp:323-327, BarrierCell::arrive *)
Definition barrier_cell_step (cell : Mirrored (H:=H) (S:=BarrierCore P)) (peer : P) (c : C) :
    option (bool * Mirrored (H:=H) (S:=BarrierCore P) * C) :=
  let '(r, core) := barrier_arrive (mcore_ cell) peer in
  c ← ctx_set (mcell_ cell) (is_open core) c; Some (r, mkMirrored core (mcell_ cell), c).

End cells.
Arguments LeaderOp : clear implicits.
Arguments LockOp : clear implicits.

(** ** Leases *)
Section lease_correct.
  Context {P : Type} `{Countable P}.
  Implicit Types (l : LeaseCore P) (ops : list (LeaseOp P)) (p q : P).

(** A grant never sets a deadline in the past of the request, as long as the
    clock does not wrap. *)
Lemma acquire_cases l p now ttl :
  (holder_ l = None ∨ expiry_ l ≤ now) ∧
    lease_acquire l p now ttl = (Some (u64 (fence_ l + 1)), mkLease (Some p) (u64 (now + ttl)) (u64 (fence_ l + 1))) ∨
  now < expiry_ l ∧ holder_ l = Some p ∧
    lease_acquire l p now ttl = (Some (fence_ l), mkLease (Some p) (u64 (now + ttl)) (fence_ l)) ∨
  now < expiry_ l ∧ (∃ q, holder_ l = Some q ∧ q ≠ p) ∧ lease_acquire l p now ttl = (None, l).
Proof.
  unfold lease_acquire, is_expired. destruct l as [[q|] e f]; simpl; [|by left; auto].
  destruct (e <=? now) eqn:E; zify_bools; simpl; [by left; auto|right].
  destruct (decide (Some q = Some p)) as [[= ->]|Hne]; [left|right]; split_and!; try done. exists q. naive_solver.
Qed.

(** What an operation that is not a grant does to holder and fence. *)
Lemma lease_step_keeps l op :
  (∀ p now ttl, op = LAcquire p now ttl → (lease_step l op).1 = Token None) →
  fence_ (lease_step l op).2 = fence_ l ∧ (holder_ (lease_step l op).2 = None ∨ holder_ (lease_step l op).2 = holder_ l).
Proof.
  intros Hno. destruct op as [p now ttl|p now ttl|p now|now].
  - specialize (Hno p now ttl eq_refl). simpl in *.
    destruct (acquire_cases l p now ttl) as [[_ E]|[(_ & _ & E)|(_ & _ & E)]]; rewrite E in *; simpl in *; first [done|by auto].
  - simpl. unfold lease_renew. destruct (_ && _); simpl; auto.
  - simpl. unfold lease_release. case_decide; simpl; auto.
  - simpl. unfold lease_tick. destruct (is_expired l now); simpl; auto.
Qed.

(** The grants of a run, in order: who got which fencing token. *)
Definition grant (op : LeaseOp P) (a : LeaseAnswer) : option (P * Z) :=
  match op, a with LAcquire p _ _, Token (Some f) => Some (p, f) | _, _ => None end.
Fixpoint grants (ops : list (LeaseOp P)) (answers : list LeaseAnswer) : list (P * Z) :=
  match ops, answers with
  | op :: ops, a :: answers => option_list (grant op a) ++ grants ops answers
  | _, _ => []
  end.

Lemma grants_snoc ops op os a : length os = length ops → grants (ops ++ [op]) (os ++ [a]) = grants ops os ++ option_list (grant op a).
Proof.
  revert os. induction ops as [|op' ops IH]; intros [|a' os] Hl; try done; simpl in *; [by rewrite app_nil_r|].
  rewrite IH by lia. by rewrite app_assoc.
Qed.

(** One step: either a grant of a newer token or of the current one to its
    holder, or nothing that touches the fence. *)
Lemma lease_step_grant l op :
  is_u64 (fence_ l + 1) →
  match grant op (lease_step l op).1 with
  | Some (p, f) => fence_ (lease_step l op).2 = f ∧ holder_ (lease_step l op).2 = Some p ∧
      (f = fence_ l + 1 ∨ f = fence_ l ∧ holder_ l = Some p)
  | None => fence_ (lease_step l op).2 = fence_ l ∧
      (holder_ (lease_step l op).2 = None ∨ holder_ (lease_step l op).2 = holder_ l)
  end.
Proof.
  intros Hu. destruct (grant op (lease_step l op).1) as [[p f]|] eqn:Eg.
  - destruct op as [q now ttl| | |]; try done. simpl in *.
    destruct (acquire_cases l q now ttl) as [[_ E]|[(_ & Hh & E)|(_ & _ & E)]]; rewrite E in *; simplify_eq/=; auto.
    rewrite u64_small by done. auto.
  - apply lease_step_keeps. intros q now ttl ->. simpl in *.
    destruct (lease_acquire l q now ttl) as [[f|] l']; by simplify_eq/=.
Qed.

Definition newer (a b : P * Z) : Prop := a.2 ≤ b.2 ∧ (a.2 = b.2 → a.1 = b.1).

Lemma fencing_invariant ops :
  Z.of_nat (length ops) < two64 - 1 →
  let run := core_run lease_step lease_new ops in
  0 ≤ fence_ run.2 ≤ Z.of_nat (length ops) ∧ fence_ run.2 = default 0 (snd <$> last (grants ops run.1)) ∧
  Forall (λ a, a.2 ≤ fence_ run.2 ∧ (a.2 = fence_ run.2 → holder_ run.2 = None ∨ holder_ run.2 = Some a.1)) (grants ops run.1) ∧
  StronglySorted newer (grants ops run.1).
Proof.
  induction ops as [|op ops IH] using rev_ind; intros Hb; [by split_and!; try constructor|].
  rewrite length_app in *. simpl in Hb. destruct IH as (Hf & Hlast & Hg & Hord); [lia|].
  rewrite core_run_snoc. pose proof (length_core_run lease_step lease_new ops) as Hlen.
  destruct (core_run lease_step lease_new ops) as [os l]. cbn [fst snd] in *. rewrite grants_snoc by done.
  pose proof (lease_step_grant l op ltac:(unfold is_u64, two64 in *; lia)) as Hs.
  destruct (grant op (lease_step l op).1) as [[p f]|] eqn:Eg; simpl.
  - destruct Hs as (Hf' & Hh & Hnew). rewrite Hf', Hh, last_snoc. split_and!; [simpl; lia|simpl; lia|done| |].
    + apply Forall_app; split; [|apply Forall_singleton; simpl; by split; [lia|right]].
      eapply Forall_impl; [exact Hg|]. intros [q g] [Hle Heq]. simpl in *. split; [lia|]. intros ->.
      destruct Hnew as [->|[-> Hp]]; [lia|]. rewrite Hp in Heq. naive_solver.
    + apply StronglySorted_app. split_and!; [|done|by repeat constructor].
      intros [q g] b Hin Hb'. apply list_elem_of_singleton in Hb' as ->. rewrite Forall_forall in Hg.
      destruct (Hg _ Hin) as [Hle Heq]. unfold newer. simpl in *. split; [lia|]. intros ->.
      destruct Hnew as [->|[-> Hp]]; [lia|]. rewrite Hp in Heq. naive_solver.
  - rewrite app_nil_r. destruct Hs as [Hf' Hh]. rewrite Hf'. split_and!; [lia|lia|done| |done].
    eapply Forall_impl; [exact Hg|]. intros [q g] [Hle Heq]. simpl in *. split; [done|]. intros E. specialize (Heq E).
    destruct Hh as [->| ->]; auto.
Qed.

(** Fencing tokens are monotone and never shared.  In any run of a lease,
    whatever the times, the tokens granted never decrease, two grants of the
    same token went to the same peer, and the token the lock validates is the
    one granted last: a holder that lost the lease to another is rejected. *)
Theorem fencing_tokens_are_unique ops :
  Z.of_nat (length ops) < two64 - 1 →
  let run := core_run lease_step lease_new ops in
  StronglySorted (λ a b, a.2 ≤ b.2 ∧ (a.2 = b.2 → a.1 = b.1)) (grants ops run.1) ∧
  ∀ f, lock_validate run.2 f = true ↔ f = default 0 (snd <$> last (grants ops run.1)).
Proof.
  intros Hb. destruct (fencing_invariant ops Hb) as (_ & Hlast & _ & Hs). split; [exact Hs|].
  intros f. unfold lock_validate. rewrite <- Hlast. rewrite Z.eqb_eq. done.
Qed.

(** An operation by others that does not reach the deadline. *)
Definition by_others p (deadline : Z) (op : LeaseOp P) : Prop :=
  match op with
  | LAcquire q now _ => q ≠ p ∧ now < deadline
  | LRenew q _ _ | LRelease q _ => q ≠ p
  | LTick now => now < deadline
  end.

(** A lease excludes the others until its deadline.  After [p] is granted a
    lease at [now] for [ttl], no operations of the other peers before the
    deadline have any effect: every acquisition is refused, [p] is the holder
    at every time before the deadline, and the token stays valid; from the
    deadline on there is no holder, and the next request is granted a new token. *)
Theorem lease_excludes_others (l : LeaseCore P) p q (now ttl later ttl' f : Z) ops :
  let l' := (lease_acquire l p now ttl).2 in
  let deadline := u64 (now + ttl) in
  (lease_acquire l p now ttl).1 = Some f → Forall (by_others p deadline) ops →
  let run := core_run lease_step l' ops in
  run.2 = l' ∧ (∀ i o, run.1 !! i = Some (Token o) → o = None) ∧ lock_validate run.2 f = true ∧
  (later < deadline → lease_holder run.2 later = Some p) ∧
  (deadline ≤ later → lease_holder run.2 later = None ∧ (lease_acquire run.2 q later ttl').1 = Some (u64 (f + 1))).
Proof.
  intros l' deadline Hgr Hops.
  assert (Hl' : holder_ l' = Some p ∧ expiry_ l' = deadline ∧ fence_ l' = f).
  { unfold l'. destruct (acquire_cases l p now ttl) as [[_ E]|[(_ & _ & E)|(_ & _ & E)]]; rewrite E in *; by simplify_eq/=. }
  destruct Hl' as (Hh & He & Hf). clearbody l' deadline.
  assert (Hrun : (core_run lease_step l' ops).2 = l' ∧ ∀ i o, (core_run lease_step l' ops).1 !! i = Some (Token o) → o = None).
  { induction ops as [|op ops IH]; [by split; [|intros i o Hi; simpl in Hi; by rewrite lookup_nil in Hi]|].
    apply Forall_cons in Hops as [Hop Hops]. specialize (IH Hops).
    assert (Hstep : (lease_step l' op).2 = l' ∧ ∀ o, (lease_step l' op).1 = Token o → o = None).
    { destruct op as [r t d|r t d|r t|t]; simpl in *.
      - destruct Hop as [Hr Ht]. destruct (acquire_cases l' r t d) as [[[?|?] E]|[(_ & ? & E)|(_ & _ & E)]]; try (congruence || lia).
        rewrite E. split; [done|]. by intros o [= <-].
      - unfold lease_renew. rewrite Hh. rewrite bool_decide_eq_false_2 by congruence. rewrite andb_false_r. done.
      - unfold lease_release. rewrite Hh, decide_False by congruence. done.
      - unfold lease_tick, is_expired. rewrite Hh, He. destruct (deadline <=? t) eqn:E; zify_bools; [lia|]. done. }
    simpl. destruct (lease_step l' op) as [a l2]. simpl in Hstep. destruct Hstep as [-> Ha].
    destruct (core_run lease_step l' ops) as [os l3]. simpl in *. destruct IH as [-> IH]. split; [done|].
    intros [|i] o Ho; simpl in Ho; [apply Ha; congruence|by eapply IH]. }
  cbn zeta. destruct Hrun as [-> Hr]. split_and!; [done|done|unfold lock_validate; lia| |].
  - intros Ht. unfold lease_holder, is_held, is_expired. rewrite Hh, He. destruct (deadline <=? later) eqn:E; zify_bools; [lia|done].
  - intros Ht. unfold lease_holder, is_held, is_expired. rewrite Hh, He. split.
    + destruct (deadline <=? later) eqn:E; zify_bools; [done|lia].
    + destruct (acquire_cases l' q later ttl') as [[_ E]|[(? & _)|(? & _)]]; [by rewrite E, Hf|lia..].
Qed.

End lease_correct.

Lemma fencing_tokens_are_unique_witness :
  let ops := [LAcquire 1 0 10; LAcquire 2 5 10; LRenew 1 8 10; LTick 20; LAcquire 2 21 5; LRelease 2 22; LAcquire 1 23 5] in
  let run := core_run lease_step lease_new ops in
  grants ops run.1 = [(1, 1); (2, 2); (1, 3)] ∧
  StronglySorted (λ a b, a.2 ≤ b.2 ∧ (a.2 = b.2 → a.1 = b.1)) (grants ops run.1) ∧
  ∀ f, lock_validate run.2 f = true ↔ f = default 0 (snd <$> last (grants ops run.1)).
Proof.
  split; [reflexivity|].
  apply (fencing_tokens_are_unique [LAcquire 1 0 10; LAcquire 2 5 10; LRenew 1 8 10; LTick 20; LAcquire 2 21 5; LRelease 2 22; LAcquire 1 23 5]).
  unfold two64. simpl. lia.
Defined.

Lemma lease_excludes_others_witness :
  let l' := (lease_acquire lease_new 1 0 10).2 in
  let ops := [LAcquire 2 5 10; LRelease 2 6; LTick 7; LRenew 2 8 50] in
  let run := core_run lease_step l' ops in
  run.2 = l' ∧ (∀ i o, run.1 !! i = Some (Token o) → o = None) ∧ lock_validate run.2 1 = true ∧
  (9 < 10 → lease_holder run.2 9 = Some 1) ∧
  (10 ≤ 9 → lease_holder run.2 9 = None ∧ (lease_acquire run.2 2 9 5).1 = Some (u64 (1 + 1))).
Proof.
  refine (lease_excludes_others lease_new 1 2 0 10 9 5 1 [LAcquire 2 5 10; LRelease 2 6; LTick 7; LRenew 2 8 50] _ _); [done|].
  change (u64 (0 + 10)) with 10.
  repeat (apply Forall_cons; split; [simpl; lia|]). by apply Forall_nil.
Defined.

(** ** Permits *)

Lemma semaphore_conserves capacity ops :
  is_u64 capacity →
  let s := (core_run semaphore_step (semaphore_new capacity) ops).2 in
  capacity_ s = capacity ∧ 0 ≤ acquired_ s ≤ capacity ∧ available s = capacity - acquired_ s ∧
  acquired_ s = foldl (λ n op, match op with SAcquire => Z.min capacity (n + 1) | SRelease => Z.max 0 (n - 1) end) 0 ops.
Proof.
  intros Hc. unfold is_u64 in Hc.
  enough (Hs : let s := (core_run semaphore_step (semaphore_new capacity) ops).2 in
    capacity_ s = capacity ∧ 0 ≤ acquired_ s ≤ capacity ∧
    acquired_ s = foldl (λ n op, match op with SAcquire => Z.min capacity (n + 1) | SRelease => Z.max 0 (n - 1) end) 0 ops).
  { destruct Hs as (H1 & H2 & H3). split_and!; try done; try lia. unfold available. rewrite u64_small; [lia|unfold is_u64; lia]. }
  induction ops as [|op ops IH] using rev_ind; [simpl; lia|].
  rewrite core_run_snoc, foldl_app. destruct (core_run semaphore_step _ ops) as [os s]. cbn [fst snd foldl] in *.
  destruct IH as (Hcap & Hb & Hn). rewrite <- Hn. destruct op; simpl; unfold semaphore_acquire, semaphore_release.
  - rewrite Hcap. destruct (_ <? _) eqn:E; zify_bools; simpl; [rewrite u64_small by (unfold is_u64; lia)|]; lia.
  - destruct (_ <? _) eqn:E; zify_bools; simpl; [rewrite u64_small by (unfold is_u64; lia)|]; lia.
Qed.

(** ** Quorums *)
Section quorum_correct.
  Context {P : Type} `{Countable P}.
  Implicit Types (xs ys : list P).

Lemma barrier_state required xs :
  (core_run barrier_arrive (barrier_new required) xs).2 = mkBarrier required (list_to_set xs).
Proof.
  induction xs as [|x xs IH] using rev_ind; [done|]. rewrite core_run_snoc.
  destruct (core_run barrier_arrive _ xs) as [os b]. cbn [fst snd] in *. subst b. unfold barrier_arrive. simpl.
  f_equal. rewrite list_to_set_app_L. set_solver.
Qed.

Lemma barrier_answers required xs i :
  (i < length xs)%nat →
  (core_run barrier_arrive (barrier_new required) xs).1 !! i =
    Some (required <=? Z.of_nat (size (list_to_set (take (S i) xs) : gset P))).
Proof.
  intros [x Hx]%lookup_lt_is_Some. apply core_run_lookup. exists x. split; [done|]. rewrite barrier_state. simpl.
  unfold is_open, barrier_count. simpl. do 2 f_equal. f_equal. f_equal.
  rewrite (take_S_r _ _ x) by done. rewrite list_to_set_app_L. set_solver.
Qed.

(** A gate opens exactly when enough distinct peers have arrived, and two
    quorums of the same electorate share a voter.  The answer to the [i]-th
    arrival counts each peer once; and when both of two quorum gates over an
    electorate of [total] voters are open, some voter arrived at both. *)
Theorem quorums_intersect (required total : Z) (electorate : gset P) xs ys :
  Z.of_nat (size electorate) = total → total < two64 →
  list_to_set xs ⊆ electorate → list_to_set ys ⊆ electorate →
  (∀ i, (i < length xs)%nat → (core_run barrier_arrive (barrier_new required) xs).1 !! i =
     Some (required <=? Z.of_nat (size (list_to_set (take (S i) xs) : gset P)))) ∧
  (is_open (core_run barrier_arrive (barrier_new (majority total)) xs).2 = true →
   is_open (core_run barrier_arrive (barrier_new (majority total)) ys).2 = true →
   ∃ p, p ∈ xs ∧ p ∈ ys).
Proof.
  intros Hsize Hb Hxs Hys. split; [intros; by apply barrier_answers|].
  rewrite !barrier_state. unfold is_open, barrier_count, majority. simpl.
  pose proof (Z.div_mod total 2 ltac:(done)) as Hdiv. pose proof (Z.mod_pos_bound total 2 ltac:(done)) as Hmod.
  rewrite u64_small by (unfold is_u64, two64 in *; lia).
  intros Hx Hy. zify_bools.
  destruct (decide ((list_to_set xs : gset P) ∩ list_to_set ys = ∅)) as [Hdisj|Hne].
  - exfalso. assert (Hle : (size (list_to_set xs ∪ list_to_set ys : gset P) ≤ size electorate)%nat) by (apply subseteq_size; set_solver).
    rewrite size_union in Hle by set_solver. lia.
  - apply set_choose_L in Hne as [p Hp]. exists p. set_solver.
Qed.

End quorum_correct.

Lemma quorums_intersect_witness :
  (∀ i, (i < 3)%nat → (core_run barrier_arrive (barrier_new 2) [1; 1; 2]%nat).1 !! i =
     Some (2 <=? Z.of_nat (size (list_to_set (take (S i) [1; 1; 2]%nat) : gset nat)))) ∧
  (is_open (core_run barrier_arrive (barrier_new (majority 3)) [1; 1; 2]%nat).2 = true →
   is_open (core_run barrier_arrive (barrier_new (majority 3)) [3; 2]%nat).2 = true →
   ∃ p, p ∈ [1; 1; 2]%nat ∧ p ∈ [3; 2]%nat).
Proof.
  apply (quorums_intersect 2 3 {[1; 2; 3]}%nat [1; 1; 2]%nat [3; 2]%nat); [reflexivity|unfold two64; lia|set_solver|set_solver].
Defined.

(** ** The cells *)
Section cells_correct.
  Context {C H P : Type} `{Countable P}.
  Context `{!SourceContext C H (option P), !SourceContextLaws C H (option P)}.
  Context `{!SourceContext C H bool, !SourceContextLaws C H bool}.
  Context `{!SourceContext C H Z, !SourceContextLaws C H Z}.

(** The leader and lock cells run their lease through lease operations. *)
Definition leader_step (me : P) (l : LeaseCore P) (op : LeaderOp P) : LeaderRole * LeaseCore P :=
  let l := leader_core_op me op l in (leader_role l me (leader_time op), l).
Definition lock_op (op : LockOp P) : LeaseOp P :=
  match op with Lock p now ttl => LAcquire p now ttl | Unlock p now => LRelease p now | LockTick now => LTick now end.
Definition lock_step (l : LeaseCore P) (op : LockOp P) : LeaseAnswer * LeaseCore P := lease_step l (lock_op op).

(** The time of the last operation. *)
Definition last_time {Op} (time : Op → Z) (ops : list Op) : Z := default 0 (time <$> last ops).

Lemma last_view_timed {O S I T} (step : S → I → O * S) (time : I → Z) (view : Z → S → T) s v0 ops :
  view 0 s = v0 →
  last_view (λ i _, view (time i)) v0 ops (core_run step s ops).1 (core_run step s ops).2 =
    view (last_time time ops) (core_run step s ops).2.
Proof.
  intros Hv. unfold last_view, last_time. pose proof (length_core_run step s ops) as Hlen.
  destruct ops as [|i ops]; [done|]. destruct (last (i :: ops)) eqn:E; [|by apply last_None in E].
  destruct (last (core_run step s (i :: ops)).1) eqn:E'; [done|]. apply last_None in E'. by rewrite E' in Hlen.
Qed.

Lemma timed_mirrors {O S I T} `{!SourceContext C H T, !SourceContextLaws C H T}
    (step : S → I → O * S) (time : I → Z) (view : Z → S → T) made cstep s ops (c : C) :
  ctx_ok c → made = ('(h, c) ← ctx_source (view 0 s) c; Some (mkMirrored s h, c)) →
  (∀ cell i c, cstep cell i c = refreshed_step (H:=H) step (λ i _, view (time i)) cell i c) →
  cell_mirrors step c made cstep s ops (λ _, view (last_time time ops)).
Proof.
  intros Hc Hm Heq. eapply cell_mirrors_shown; [|by eapply refreshed_mirrors_core]. by apply last_view_timed.
Qed.

(** The coordination cells mirror their cores.  Over any implementation of
    the context's sources, a lease, leader, lock, semaphore or quorum cell driven
    through any operations always succeeds and answers as its core; its source
    then reads the holder, the leader or whether the lock is held (each as of
    the last operation), the permits available, or whether the gate is open; and
    no other source changes. *)
Theorem coordination_cells_mirror (me : P) (capacity total : Z) (lops : list (LeaseOp P)) (eops : list (LeaderOp P))
    (kops : list (LockOp P)) (sops : list SemaphoreOp) (peers : list P) (c : C) :
  ctx_ok (T:=option P) c → ctx_ok (T:=bool) c → ctx_ok (T:=Z) c → is_u64 capacity →
  cell_mirrors lease_step c (lease_cell_new c) lease_cell_step lease_new lops (λ _ l, lease_holder l (last_time op_time lops)) ∧
  cell_mirrors (leader_step me) c (leader_cell_new c) (leader_cell_step me) lease_new eops
    (λ _ l, lease_holder l (last_time leader_time eops)) ∧
  cell_mirrors lock_step c (lock_cell_new c) lock_cell_step lease_new kops
    (λ _ l, is_held l (last_time (op_time ∘ lock_op) kops)) ∧
  cell_mirrors semaphore_step c (semaphore_cell_new capacity c) semaphore_cell_step (semaphore_new capacity) sops (λ _, available) ∧
  cell_mirrors barrier_arrive c (quorum total c) barrier_cell_step (barrier_new (majority total)) peers (λ _, is_open).
Proof.
  intros Hcp Hcb Hcz Hcap. split_and!.
  - apply (timed_mirrors lease_step op_time (λ now l, lease_holder l now)); [done|done|].
    intros cell [p now ttl|p now ttl|p now|now] c'; unfold refreshed_step; simpl; unfold lease_refresh.
    + by destruct (lease_acquire _ _ _ _).
    + by destruct (lease_renew _ _ _ _).
    + done.
    + by destruct (lease_tick _ _).
  - by apply (timed_mirrors (leader_step me) leader_time (λ now l, lease_holder l now)).
  - apply (timed_mirrors lock_step (op_time ∘ lock_op) (λ now l, is_held l now)); [done|done|].
    intros cell [p now ttl|p now|now] c'; unfold refreshed_step, lock_step; simpl; unfold lock_refresh; simpl.
    + by destruct (lease_acquire _ _ _ _).
    + done.
    + by destruct (lease_tick _ _).
  - apply (refreshed_view semaphore_step available); [done| |].
    + unfold semaphore_cell_new. unfold available at 1. simpl. rewrite Z.sub_0_r, u64_small by done. done.
    + intros cell [|] c'; unfold refreshed_step; simpl; unfold semaphore_refresh; [|done]. by destruct (semaphore_acquire _).
  - by apply (refreshed_view barrier_arrive is_open).
Qed.

End cells_correct.

(** Over the engine: a context whose cells hold optional peers, flags and counts. *)
Lemma coordination_cells_mirror_witness :
  let c : Ctx (option nat + (bool + Z)) := empty_ctx in
  cell_mirrors (H:=Handle) lease_step c (lease_cell_new c) lease_cell_step lease_new [LAcquire 1%nat 0 10; LTick 12]
    (λ _ l, lease_holder l 12) ∧
  cell_mirrors (H:=Handle) (leader_step 7%nat) c (leader_cell_new c) (leader_cell_step 7%nat) lease_new [Contend 1%nat 0 10; Campaign 12 5]
    (λ _ l, lease_holder l 12) ∧
  cell_mirrors (H:=Handle) lock_step c (lock_cell_new c) lock_cell_step lease_new [Lock 1%nat 0 10; Unlock 1%nat 3] (λ _ l, is_held l 3) ∧
  cell_mirrors (H:=Handle) semaphore_step c (semaphore_cell_new 1 c) semaphore_cell_step (semaphore_new 1) [SAcquire; SAcquire] (λ _, available) ∧
  cell_mirrors (H:=Handle) barrier_arrive c (quorum 3 c) barrier_cell_step (barrier_new (majority 3)) [1; 2]%nat (λ _, is_open).
Proof.
  exact (coordination_cells_mirror (C := Ctx (option nat + (bool + Z))) (H := Handle) 7%nat 1 3
    [LAcquire 1%nat 0 10; LTick 12] [Contend 1%nat 0 10; Campaign 12 5] [Lock 1%nat 0 10; Unlock 1%nat 3] [SAcquire; SAcquire] [1; 2]%nat
    empty_ctx (empty_ctx_ok (T:=option nat)) (empty_ctx_ok (T:=bool)) (empty_ctx_ok (T:=Z)) (conj (Z.le_0_1) eq_refl)).
Defined.
