(* ===== verification/Hlc.v ===== *)
(** * Hlc: hybrid logical clocks and stamp frontiers

    Models include/lazily/hlc.hpp.  Wall and logical times are [int64_t]; the
    increments are those of the code, which are defined as long as they do not
    overflow, and the theorems hold for the integers they then compute. *)
From S2P Require Import Prelude.
#[local] Open Scope Z_scope.

(** ** Stamps *)

(* include/lazily/hlc.hpp:13-15, HlcStamp (data members) *)
Record HlcStamp := mkStamp { wall_time : Z; logical : Z; stamp_peer : Z }.
#[export] Instance HlcStamp_eq_dec : EqDecision HlcStamp.
Proof. solve_decision. Defined.
#[export] Instance HlcStamp_countable : Countable HlcStamp.
Proof.
  refine (inj_countable' (λ s, (wall_time s, logical s, stamp_peer s)) (λ '(w, l, p), mkStamp w l p) _). by intros [].
Defined.

(* include/lazily/hlc.hpp:17-22, HlcStamp::compare *)
Definition compare (a b : HlcStamp) : Z :=
  if negb (wall_time a =? wall_time b) then (if wall_time a <? wall_time b then -1 else 1)
  else if negb (logical a =? logical b) then (if logical a <? logical b then -1 else 1)
  else if negb (stamp_peer a =? stamp_peer b) then (if stamp_peer a <? stamp_peer b then -1 else 1)
  else 0.

(* include/lazily/hlc.hpp:23-27, HlcStamp::operator<, operator<=, operator>, operator>=, operator== *)
Definition stamp_ltb (a b : HlcStamp) : bool := compare a b <? 0.
Definition stamp_gtb (a b : HlcStamp) : bool := 0 <? compare a b.

(* include/lazily/hlc.hpp:43-43, min_stamp *)
Definition min_stamp (a b : HlcStamp) : HlcStamp := if stamp_ltb a b then a else b.
(* include/lazily/hlc.hpp:44-44, max_stamp *)
Definition max_stamp (a b : HlcStamp) : HlcStamp := if stamp_gtb a b then a else b.

(** ** The clock *)

(* include/lazily/hlc.hpp:98-100, Hlc (data members) *)
Record Hlc := mkHlc { hlc_peer : Z; last_wall : Z; last_logical : Z }.

(* include/lazily/hlc.hpp:48-48, Hlc::Hlc *)
Definition hlc_new (peer : Z) : Hlc := mkHlc peer 0 0.

Definition stamp_of (h : Hlc) : HlcStamp := mkStamp (last_wall h) (last_logical h) (hlc_peer h).

(* include/lazily/hlc.hpp:51-59, Hlc::tick *)
Definition hlc_tick (h : Hlc) (now : Z) : HlcStamp * Hlc :=
  let h :=
    if last_wall h <? now then mkHlc (hlc_peer h) now 0
    else mkHlc (hlc_peer h) (last_wall h) (last_logical h + 1) in
  (stamp_of h, h).

(* include/lazily/hlc.hpp:61-80, Hlc::forked *)
Definition forked (h : Hlc) (new_peer : Z) : Hlc := mkHlc new_peer (last_wall h) (last_logical h).

(* include/lazily/hlc.hpp:82-95, Hlc::observe *)
Definition hlc_observe (h : Hlc) (remote : HlcStamp) (now : Z) : HlcStamp * Hlc :=
  let wall := Z.max (Z.max (last_wall h) (wall_time remote)) now in
  let l :=
    if (wall =? last_wall h) && (wall =? wall_time remote) then Z.max (last_logical h) (logical remote) + 1
    else if wall =? last_wall h then last_logical h + 1
    else if wall =? wall_time remote then logical remote + 1
    else 0 in
  let h := mkHlc (hlc_peer h) wall l in
  (stamp_of h, h).

(* include/lazily/hlc.hpp:103-113, WireStamp *)
Record WireStamp := mkWire { w_wall : Z; w_logical : Z; w_peer : Z }.
(* include/lazily/hlc.hpp:115-115, to_wire *)
Definition to_wire (s : HlcStamp) : WireStamp := mkWire (wall_time s) (logical s) (stamp_peer s).
(* include/lazily/hlc.hpp:116-116, from_wire *)
Definition from_wire (s : WireStamp) : HlcStamp := mkStamp (w_wall s) (w_logical s) (w_peer s).

(** ** The frontier *)

(** [StampFrontier] holds [stamps_], a map from peers to stamps. *)
Notation StampFrontier := (gmap Z HlcStamp).

(* include/lazily/hlc.hpp:121-126, StampFrontier::observe *)
Definition frontier_observe (f : StampFrontier) (peer : Z) (stamp : HlcStamp) : StampFrontier :=
  match f !! peer with
  | Some old => if stamp_gtb stamp old then <[peer := stamp]> f else f
  | None => <[peer := stamp]> f
  end.

(* include/lazily/hlc.hpp:128-128, StampFrontier::knows *)
Definition knows (f : StampFrontier) (peer : Z) : bool := bool_decide (is_Some (f !! peer)).

(* include/lazily/hlc.hpp:130-134, StampFrontier::get *)
Definition frontier_get (f : StampFrontier) (peer : Z) : option HlcStamp := f !! peer.

(* include/lazily/hlc.hpp:136-142, StampFrontier::peers *)
Definition peers (f : StampFrontier) : list Z := merge_sort Z.le (map fst (map_to_list f)).

(* include/lazily/hlc.hpp:144-156, StampFrontier::watermark *)
Definition watermark (f : StampFrontier) (membership : list Z) : option HlcStamp :=
  (fix go (min : HlcStamp) (first : bool) (membership : list Z) : option HlcStamp :=
    match membership with
    | [] => if first then None else Some min
    | p :: membership =>
        s ← f !! p;
        if first || stamp_ltb s min then go s false membership else go min first membership
    end) (mkStamp 0 0 0) true membership.

(** ** Order *)

(** The order of the stamps, as a proposition. *)
Definition stamp_lt (a b : HlcStamp) : Prop :=
  wall_time a < wall_time b ∨ wall_time a = wall_time b ∧
    (logical a < logical b ∨ logical a = logical b ∧ stamp_peer a < stamp_peer b).
Definition stamp_le (a b : HlcStamp) : Prop := a = b ∨ stamp_lt a b.

Lemma stamp_eq a b : wall_time a = wall_time b → logical a = logical b → stamp_peer a = stamp_peer b → a = b.
Proof. destruct a, b. simpl. congruence. Qed.

Lemma compare_spec a b :
  (compare a b < 0 ↔ stamp_lt a b) ∧ (0 < compare a b ↔ stamp_lt b a) ∧ (compare a b = 0 ↔ a = b).
Proof.
  unfold compare, stamp_lt.
  destruct (_ =? _) eqn:E1; zify_bools; simpl; [|destruct (_ <? _) eqn:E; zify_bools; split_and!; split; intros; try (subst a; lia); lia].
  destruct (logical a =? _) eqn:E2; zify_bools; simpl; [|destruct (_ <? _) eqn:E; zify_bools; split_and!; split; intros; try (subst a; lia); lia].
  destruct (stamp_peer a =? _) eqn:E3; zify_bools; simpl; [|destruct (_ <? _) eqn:E; zify_bools; split_and!; split; intros; try (subst a; lia); lia].
  split_and!; split; intros; try lia; by apply stamp_eq.
Qed.

Lemma stamp_ltb_lt a b : stamp_ltb a b = true ↔ stamp_lt a b.
Proof. unfold stamp_ltb. rewrite Z.ltb_lt. apply compare_spec. Qed.
Lemma stamp_gtb_lt a b : stamp_gtb a b = true ↔ stamp_lt b a.
Proof. unfold stamp_gtb. rewrite Z.ltb_lt. apply compare_spec. Qed.
Lemma stamp_ltb_ge a b : stamp_ltb a b = false ↔ stamp_le b a.
Proof.
  unfold stamp_ltb, stamp_le. rewrite Z.ltb_ge. destruct (compare_spec a b) as (H1 & H2 & H3).
  split; [|intros [->|?]; [assert (compare a a = 0) by (by apply compare_spec); lia|apply H2 in H; lia]].
  intros Hle. destruct (decide (compare a b = 0)) as [E|E]; [left; symmetry; by apply H3|right; apply H2; lia].
Qed.
Lemma stamp_gtb_le a b : stamp_gtb a b = false ↔ stamp_le a b.
Proof.
  unfold stamp_gtb, stamp_le. rewrite Z.ltb_ge. destruct (compare_spec a b) as (H1 & H2 & H3).
  split; [|intros [->|?]; [assert (compare b b = 0) by (by apply compare_spec); lia|apply H1 in H; lia]].
  intros Hle. destruct (decide (compare a b = 0)) as [E|E]; [left; by apply H3|right; apply H1; lia].
Qed.

Lemma stamp_lt_trans a b c : stamp_lt a b → stamp_lt b c → stamp_lt a c.
Proof. unfold stamp_lt. lia. Qed.
Lemma stamp_lt_irrefl a : ¬ stamp_lt a a.
Proof. unfold stamp_lt. lia. Qed.
Lemma stamp_le_total a b : stamp_le a b ∨ stamp_lt b a.
Proof.
  destruct (stamp_gtb a b) eqn:E; [right; by apply stamp_gtb_lt|left; by apply stamp_gtb_le].
Qed.
Lemma stamp_le_trans a b c : stamp_le a b → stamp_le b c → stamp_le a c.
Proof. unfold stamp_le. intros [->|?] [->|?]; auto. right. by eapply stamp_lt_trans. Qed.
Lemma stamp_le_antisym a b : stamp_le a b → stamp_le b a → a = b.
Proof. unfold stamp_le, stamp_lt. intros [->|?] [?|?]; auto; lia. Qed.

Lemma max_stamp_comm a b : max_stamp a b = max_stamp b a.
Proof.
  unfold max_stamp. destruct (stamp_gtb a b) eqn:E1, (stamp_gtb b a) eqn:E2; try done.
  - apply stamp_gtb_lt in E1, E2. by destruct (stamp_lt_irrefl a); eapply stamp_lt_trans.
  - apply stamp_gtb_le in E1, E2. by apply stamp_le_antisym.
Qed.

(** ** Monotone stamps *)

Inductive ClockEvent := TickClock (now : Z) | Observe (remote : HlcStamp) (now : Z) | Fork (new_peer : Z).

Definition clock_step (h : Hlc) (e : ClockEvent) : option HlcStamp * Hlc :=
  match e with
  | TickClock now => let '(s, h) := hlc_tick h now in (Some s, h)
  | Observe remote now => let '(s, h) := hlc_observe h remote now in (Some s, h)
  | Fork new_peer => (None, forked h new_peer)
  end.

(** Causal position: the stamp without its tie-breaking peer. *)
Definition causal_lt (a b : HlcStamp) : Prop :=
  wall_time a < wall_time b ∨ wall_time a = wall_time b ∧ logical a < logical b.

Lemma causal_stamp_lt a b : causal_lt a b → stamp_lt a b.
Proof. unfold causal_lt, stamp_lt. lia. Qed.

Lemma clock_step_advances h e :
  match (clock_step h e).1 with
  | Some s => s = stamp_of (clock_step h e).2 ∧ causal_lt (stamp_of h) s
  | None => last_wall (clock_step h e).2 = last_wall h ∧ last_logical (clock_step h e).2 = last_logical h
  end.
Proof.
  destruct e as [now|r now|p]; simpl; [| |done].
  - split; [done|]. unfold causal_lt. destruct (last_wall h <? now) eqn:E; zify_bools; simpl; lia.
  - split; [done|]. unfold causal_lt. simpl.
    repeat match goal with |- context [?a =? ?b] => destruct (Z.eqb_spec a b) end; simpl; lia.
Qed.

Lemma clock_run_sorted es : ∀ h,
  StronglySorted causal_lt (omap id (core_run clock_step h es).1) ∧
  Forall (causal_lt (stamp_of h)) (omap id (core_run clock_step h es).1).
Proof.
  induction es as [|e es IH]; intros h; [by split; constructor|]. simpl.
  pose proof (clock_step_advances h e) as Ha. destruct (clock_step h e) as [o h1]. simpl in Ha.
  destruct (IH h1) as [Hs Hf]. destruct (core_run clock_step h1 es) as [os h2]. simpl in *. destruct o as [s|]; simpl.
  - destruct Ha as [-> Hlt]. split; [by constructor|]. constructor; [done|].
    eapply Forall_impl; [exact Hf|]. intros s. unfold causal_lt in *. lia.
  - destruct Ha as [Ew El]. split; [done|]. eapply Forall_impl; [exact Hf|]. intros s. unfold causal_lt, stamp_of. simpl. lia.
Qed.


Lemma wire_roundtrip s w : from_wire (to_wire s) = s ∧ to_wire (from_wire w) = w.
Proof. by destruct s, w. Qed.

(** ** Frontiers *)

Definition observe_all (obs : list (Z * HlcStamp)) : StampFrontier := foldl (λ f '(p, s), frontier_observe f p s) ∅ obs.

Definition observed (p : Z) (obs : list (Z * HlcStamp)) : list HlcStamp :=
  omap (λ '(q, s), if decide (q = p) then Some s else None) obs.

(** The greatest element of a list of stamps. *)
Definition greatest (o : option HlcStamp) (l : list HlcStamp) : Prop :=
  match o with None => l = [] | Some m => m ∈ l ∧ ∀ s, s ∈ l → stamp_le s m end.

Lemma frontier_observe_lookup f q t p :
  frontier_observe f q t !! p =
    if decide (q = p) then Some (match f !! p with Some old => if stamp_gtb t old then t else old | None => t end) else f !! p.
Proof.
  unfold frontier_observe. case_decide as E.
  - subst q. destruct (f !! p) as [old|] eqn:Ef; [destruct (stamp_gtb t old)|]; by rewrite ?lookup_insert_eq.
  - destruct (f !! q); [destruct (stamp_gtb t _)|]; by rewrite ?lookup_insert_ne.
Qed.

Lemma observe_all_greatest obs p : greatest (observe_all obs !! p) (observed p obs).
Proof.
  unfold observe_all, observed. induction obs as [|[q t] obs IH] using rev_ind; [done|].
  rewrite foldl_app, omap_app. simpl. rewrite frontier_observe_lookup. case_decide as E; [|by rewrite app_nil_r].
  destruct (foldl _ ∅ obs !! p) as [old|]; simpl in *.
  - destruct IH as [Hin Hmax]. destruct (stamp_gtb t old) eqn:Eg.
    + apply stamp_gtb_lt in Eg. split; [set_solver|]. intros s [Hs| ->%list_elem_of_singleton]%elem_of_app; [|by left].
      eapply stamp_le_trans; [by apply Hmax|by right].
    + apply stamp_gtb_le in Eg. split; [set_solver|]. intros s [Hs| ->%list_elem_of_singleton]%elem_of_app; [by apply Hmax|done].
  - rewrite IH. simpl. split; [set_solver|]. intros s ->%list_elem_of_singleton. by left.
Qed.

Lemma elem_of_observed p s obs : s ∈ observed p obs ↔ (p, s) ∈ obs.
Proof.
  unfold observed. rewrite list_elem_of_omap. split.
  - intros ([q t] & Hin & E). case_decide; by simplify_eq.
  - intros Hin. exists (p, s). by rewrite decide_True.
Qed.

Lemma watermark_spec f ms w :
  watermark f ms = Some w ↔
    (∃ p, p ∈ ms ∧ f !! p = Some w) ∧ ∀ p, p ∈ ms → ∃ s, f !! p = Some s ∧ stamp_le w s.
Proof.
  unfold watermark.
  assert (Hgo : ∀ ms m first w,
    (fix go (min : HlcStamp) (first : bool) (membership : list Z) : option HlcStamp :=
      match membership with
      | [] => if first then None else Some min
      | p :: membership =>
          s ← f !! p;
          if first || stamp_ltb s min then go s false membership else go min first membership
      end) m first ms = Some w ↔
    ((first = false ∧ w = m) ∨ ∃ p, p ∈ ms ∧ f !! p = Some w) ∧
    (first = false → stamp_le w m) ∧ ∀ p, p ∈ ms → ∃ s, f !! p = Some s ∧ stamp_le w s).
  { clear ms w. induction ms as [|p ms IH]; intros m first w.
    - destruct first; split; [done| |intros [= ->]|].
      + intros [[[? _]|(? & Hin & _)] _]; [done|by apply elem_of_nil in Hin].
      + split_and!; [by left|intros _; by left|intros p Hin; by apply elem_of_nil in Hin].
      + intros [[[_ ->]|(? & Hin & _)] _]; [done|by apply elem_of_nil in Hin].
    - setoid_rewrite elem_of_cons. destruct (f !! p) as [s|] eqn:Ep; simpl.
      + destruct (first || stamp_ltb s m) eqn:Ec; rewrite IH.
        * assert (Hsm : first = false → stamp_lt s m).
          { intros ->. by apply stamp_ltb_lt. }
          split.
          -- intros (Hw & Hs & Hall). specialize (Hs eq_refl). split_and!.
             ++ destruct Hw as [[_ ->]|(q & ? & ?)]; right; eauto.
             ++ intros Hf. eapply stamp_le_trans; [exact Hs|right; by apply Hsm].
             ++ intros q [->|Hq]; eauto.
          -- intros (Hw & Hm & Hall). destruct (Hall p ltac:(by left)) as (s' & Es & Hle). rewrite Ep in Es. injection Es as <-.
             split_and!; [|done|eauto].
             destruct Hw as [[Hf ->]|(q & [->|Hq] & Eq)]; [exfalso| |right; eauto].
             ++ destruct Hle as [->|Hle]; [by eapply stamp_lt_irrefl, Hsm|]. eapply stamp_lt_irrefl, stamp_lt_trans; eauto.
             ++ left. split; [done|congruence].
        * apply orb_false_iff in Ec as [-> Ec%stamp_ltb_ge]. split.
          -- intros (Hw & Hm & Hall). specialize (Hm eq_refl). split_and!; [|done|].
             ++ destruct Hw as [[_ ->]|(q & ? & ?)]; [by left|right; eauto].
             ++ intros q [->|Hq]; [|eauto]. exists s. split; [done|]. by eapply stamp_le_trans.
          -- intros (Hw & Hm & Hall). split_and!; [|done|eauto].
             destruct Hw as [[_ ->]|(q & [->|Hq] & Eq)]; [by left| |right; eauto].
             left. split; [done|]. specialize (Hm eq_refl). rewrite Ep in Eq. injection Eq as ->. by apply stamp_le_antisym.
      + split; [done|]. intros (_ & _ & Hall). destruct (Hall p ltac:(by left)) as (s' & Es & _). congruence. }
  rewrite Hgo. naive_solver.
Qed.

(** A frontier knows the newest stamp of every peer, and its watermark is
    stable.  After any observations in any order, the stamp kept for a peer is
    the greatest one observed from it; the watermark of a membership is the
    least of the members' stamps, and there is one exactly when the membership
    has members and each of them has been heard from. *)
Theorem frontier_watermark_is_stable (obs : list (Z * HlcStamp)) (members : list Z) (w : HlcStamp) :
  let f := observe_all obs in
  (∀ p s, frontier_get f p = Some s ↔ (p, s) ∈ obs ∧ ∀ s', (p, s') ∈ obs → stamp_le s' s) ∧
  (watermark f members = Some w ↔
    (∃ p, p ∈ members ∧ frontier_get f p = Some w) ∧
    ∀ p, p ∈ members → ∃ s, frontier_get f p = Some s ∧ stamp_le w s) ∧
  (is_Some (watermark f members) ↔ members ≠ [] ∧ ∀ p, p ∈ members → knows f p = true).
Proof.
  intros f. split_and!; [|apply watermark_spec|].
  - intros p s. unfold frontier_get, f. pose proof (observe_all_greatest obs p) as Hg.
    setoid_rewrite <- (elem_of_observed p). destruct (observe_all obs !! p) as [m|]; simpl in Hg.
    + destruct Hg as [Hin Hmax]. split; [intros [= <-]; auto|]. intros [Hs Hle]. f_equal. apply stamp_le_antisym; auto.
    + rewrite Hg. set_solver.
  - unfold knows. setoid_rewrite bool_decide_eq_true. split.
    + intros [m Hm]. apply watermark_spec in Hm as [(p & Hp & _) Hall]. split; [by intros ->; apply elem_of_nil in Hp|].
      intros q Hq. destruct (Hall q Hq) as (s & -> & _). eauto.
    + intros [Hne Hall].
      assert (Hx : ∃ m, (∃ p, p ∈ members ∧ f !! p = Some m) ∧ ∀ p, p ∈ members → ∃ s, f !! p = Some s ∧ stamp_le m s);
        [|destruct Hx as [m Hm]; exists m; by apply watermark_spec].
      clearbody f. clear obs w.
      induction members as [|p ms IH]; [done|]. destruct (Hall p ltac:(by left)) as [s Hs].
      destruct ms as [|q ms].
      { exists s. split; [exists p; split; [left|done]|]. intros q ->%list_elem_of_singleton. exists s. split; [done|by left]. }
      destruct IH as (m & (r & Hr & Er) & Hm); [done|intros; apply Hall; by right|].
      destruct (stamp_le_total m s) as [Hle|Hlt].
      * exists m. split; [exists r; split; [by right|done]|]. intros q' [->|Hq]%elem_of_cons; eauto.
      * exists s. split; [exists p; split; [by left|done]|]. intros q' [->|Hq]%elem_of_cons; [exists s; split; [done|by left]|].
        destruct (Hm q' Hq) as (t & Et & Hle). exists t. split; [done|]. right. destruct Hle as [->|?]; [done|]. by eapply stamp_lt_trans.
Qed.
