(* ===== verification/Crdt.v ===== *)
(** * Crdt: registers, counters and the move-aware sequence

    Models the second half of include/lazily/crdt.hpp: [LwwRegister],
    [MvRegister], [PnCounter], the fractional positions and [SeqCrdt].  Hash maps
    are finite maps; where the code iterates over one in an unspecified order the
    model takes the order of [map_to_list], and the theorems do not depend on it. *)
From S2P Require Import Prelude Hlc.
#[local] Open Scope Z_scope.

(** ** LWW register *)
Section lww.
  Context {V : Type}.

(* include/lazily/crdt.hpp:357-358, LwwRegister (data members) *)
Record LwwRegister := mkLww { value : V; stamp : HlcStamp }.

(* include/lazily/crdt.hpp:341-348, LwwRegister::set *)
Definition lww_set (r : LwwRegister) (new_value : V) (new_stamp : HlcStamp) : bool * LwwRegister :=
  if stamp_gtb new_stamp (stamp r) then (true, mkLww new_value new_stamp) else (false, r).

(* include/lazily/crdt.hpp:350-350, LwwRegister::merge_from *)
Definition lww_merge_from (r other : LwwRegister) : bool * LwwRegister := lww_set r (value other) (stamp other).

End lww.
Arguments LwwRegister : clear implicits.

(** ** Multi-value register *)
Section mv.
  Context {V : Type}.

(** [values_] and [stamps_], two vectors of the same length. *)
(* include/lazily/crdt.hpp:400-401, MvRegister (data members) *)
Record MvRegister := mkMv { values_ : list V; stamps_ : list HlcStamp }.

(* include/lazily/crdt.hpp:365-379, MvRegister::write *)
Definition mv_write (r : MvRegister) (v : V) (s : HlcStamp) (observed : gset HlcStamp) : MvRegister :=
  let collapses := forallb (λ s, bool_decide (s ∈ observed)) (stamps_ r) in
  let '(vs, ss) := if collapses then ([], []) else (values_ r, stamps_ r) in
  mkMv (vs ++ [v]) (ss ++ [s]).

(* include/lazily/crdt.hpp:381-395, MvRegister::merge *)
Definition mv_merge (r other : MvRegister) : MvRegister :=
  foldl (λ r '(v, s), if bool_decide (s ∈ stamps_ r) then r else mkMv (values_ r ++ [v]) (stamps_ r ++ [s]))
    r (zip (values_ other) (stamps_ other)).

End mv.
Arguments MvRegister : clear implicits.

(** ** PN counter *)

(* include/lazily/crdt.hpp:435-437, PnCounter (data members) *)
Record PnCounter := mkPn { pn_peer : Z; positive : gmap Z Z; negative : gmap Z Z }.

(* include/lazily/crdt.hpp:408-408, PnCounter::PnCounter *)
Definition pn_new (peer : Z) : PnCounter := mkPn peer ∅ ∅.

(** [m[k]], which creates the entry with 0. *)
Definition at_default (m : gmap Z Z) (k : Z) : Z := default 0 (m !! k).

(* include/lazily/crdt.hpp:410-413, PnCounter::increment, increment_by *)
Definition increment_by (c : PnCounter) (n : Z) : PnCounter :=
  mkPn (pn_peer c) (<[pn_peer c := at_default (positive c) (pn_peer c) + n]> (positive c)) (negative c).
(* include/lazily/crdt.hpp:411-413, PnCounter::decrement, decrement_by *)
Definition decrement_by (c : PnCounter) (n : Z) : PnCounter :=
  mkPn (pn_peer c) (positive c) (<[pn_peer c := at_default (negative c) (pn_peer c) + n]> (negative c)).

Definition map_total (m : gmap Z Z) : Z := map_fold (λ _ v acc, v + acc) 0 m.

(* include/lazily/crdt.hpp:415-422, PnCounter::value *)
Definition pn_value (c : PnCounter) : Z := map_total (positive c) - map_total (negative c).

(** [for ([k, v] : other) m[k] = max(m[k], v)]. *)
Definition max_into (m other : gmap Z Z) : gmap Z Z :=
  map_fold (λ k v m, <[k := Z.max (at_default m k) v]> m) m other.

(* include/lazily/crdt.hpp:424-429, PnCounter::merge *)
Definition pn_merge (c other : PnCounter) : PnCounter :=
  mkPn (pn_peer c) (max_into (positive c) (positive other)) (max_into (negative c) (negative other)).

(** ** Positions *)

(* include/lazily/crdt.hpp:443-444, Position (data members) *)
Record Position := mkPos { frac : list Z; pos_peer : Z }.

(** The first difference of two byte strings, the shorter one first. *)
Fixpoint frac_compare (a b : list Z) : Z :=
  match a, b with
  | [], [] => 0
  | [], _ => -1
  | _, [] => 1
  | x :: a, y :: b => if negb (x =? y) then (if x <? y then -1 else 1) else frac_compare a b
  end.

(* include/lazily/crdt.hpp:446-454, Position::compare *)
Definition pos_compare (a b : Position) : Z :=
  let c := frac_compare (frac a) (frac b) in
  if negb (c =? 0) then c
  else if negb (pos_peer a =? pos_peer b) then (if pos_peer a <? pos_peer b then -1 else 1)
  else 0.

(** The scan for a byte with room: the bytes of [lo] before it, then the middle. *)
(* include/lazily/crdt.hpp:480-486, key_between *)
Fixpoint key_gap (lo hi : list Z) : option (list Z) :=
  match lo, hi with
  | a :: lo, b :: hi =>
      if (a <? b) && (1 <? b - a) then Some [(a + b) / 2] else cons a <$> key_gap lo hi
  | _, _ => None
  end.

(** [None] where the code reads the front of an empty vector. *)
(* include/lazily/crdt.hpp:459-491, key_between *)
Definition key_between (lo hi : option (list Z)) : option (list Z) :=
  match lo, hi with
  | None, None => Some [128]
  | None, Some hi =>
      front ← head hi;
      if 1 <? front then Some [front / 2] else Some (hi ++ [128])
  | Some lo, None => Some (lo ++ [128])
  | Some lo, Some hi =>
      match key_gap lo hi with Some k => Some k | None => Some (lo ++ [128]) end
  end.

(** ** SeqCrdt *)
Section seq.
  Context {Id V : Type} `{Countable Id}.

(* include/lazily/crdt.hpp:494-496, SeqEntry (data members) *)
Record SeqEntry := mkEntry { e_value : LwwRegister V; e_position : LwwRegister Position; e_deleted : LwwRegister bool }.

(* include/lazily/crdt.hpp:498-499, SeqEntry::SeqEntry *)
Definition entry_new (v : V) (pos : Position) (s : HlcStamp) : SeqEntry := mkEntry (mkLww v s) (mkLww pos s) (mkLww false s).

(* include/lazily/crdt.hpp:501-506, SeqEntry::max_stamp *)
Definition entry_max_stamp (e : SeqEntry) : HlcStamp :=
  let m := stamp (e_value e) in
  let m := if stamp_gtb (stamp (e_position e)) m then stamp (e_position e) else m in
  if stamp_gtb (stamp (e_deleted e)) m then stamp (e_deleted e) else m.

(* include/lazily/crdt.hpp:646-648, SeqCrdt (data members) *)
Record SeqCrdt := mkSeq { seq_peer : Z; hlc : Hlc; entries : gmap Id SeqEntry }.

(* include/lazily/crdt.hpp:511-511, SeqCrdt::SeqCrdt *)
Definition seq_new (peer : Z) : SeqCrdt := mkSeq peer (hlc_new peer) ∅.

Definition with_hlc (s : SeqCrdt) (h : Hlc) : SeqCrdt := mkSeq (seq_peer s) h (entries s).
Definition with_entries (s : SeqCrdt) (es : gmap Id SeqEntry) : SeqCrdt := mkSeq (seq_peer s) (hlc s) es.

(** The position between two optional neighbours; [None] where [entries_.at]
    throws or an empty key is read. *)
(* include/lazily/crdt.hpp:517-521, SeqCrdt::insert_between *)
Definition position_between (s : SeqCrdt) (left right : option Id) : option Position :=
  left_pos ← match left with Some l => e ← entries s !! l; Some (Some (frac (value (e_position e)))) | None => Some None end;
  right_pos ← match right with Some r => e ← entries s !! r; Some (Some (frac (value (e_position e)))) | None => Some None end;
  k ← key_between left_pos right_pos; Some (mkPos k (seq_peer s)).

(** The flag is false when the call throws; the clock has ticked by then. *)
(* include/lazily/crdt.hpp:515-523, SeqCrdt::insert_between *)
Definition insert_between (s : SeqCrdt) (id : Id) (v : V) (left right : option Id) (now : Z) : bool * SeqCrdt :=
  let '(st, h) := hlc_tick (hlc s) now in
  let s := with_hlc s h in
  match position_between s left right with
  | None => (false, s)
  | Some pos =>
      (true, match entries s !! id with
             | Some _ => s
             | None => with_entries s (<[id := entry_new v pos st]> (entries s))
             end)
  end.

(** The live entries in position order; [std::sort] leaves the order of equal
    positions open. *)
Definition pos_le (a b : Position * Id) : Prop := pos_compare a.1 b.1 ≤ 0.
#[export] Instance pos_le_dec : RelDecision pos_le.
Proof. intros a b. unfold pos_le. apply _. Defined.

Definition live (s : SeqCrdt) : list (Position * Id) :=
  omap (λ '(id, e), if value (e_deleted e) then None else Some (value (e_position e), id)) (map_to_list (entries s)).

(* include/lazily/crdt.hpp:577-588, SeqCrdt::order *)
Definition order (s : SeqCrdt) : list Id := snd <$> merge_sort pos_le (live s).

(* include/lazily/crdt.hpp:525-529, SeqCrdt::insert_back *)
Definition insert_back (s : SeqCrdt) (id : Id) (v : V) (now : Z) : bool * SeqCrdt :=
  insert_between s id v (last (order s)) None now.

(* include/lazily/crdt.hpp:531-535, SeqCrdt::insert_front *)
Definition insert_front (s : SeqCrdt) (id : Id) (v : V) (now : Z) : bool * SeqCrdt :=
  insert_between s id v None (head (order s)) now.

(* include/lazily/crdt.hpp:537-542, SeqCrdt::set_value *)
Definition set_value (s : SeqCrdt) (id : Id) (v : V) (now : Z) : bool * SeqCrdt :=
  match entries s !! id with
  | None => (false, s)
  | Some e =>
      let '(st, h) := hlc_tick (hlc s) now in
      let '(r, reg) := lww_set (e_value e) v st in
      (r, mkSeq (seq_peer s) h (<[id := mkEntry reg (e_position e) (e_deleted e)]> (entries s)))
  end.

(** [None] when the call throws. *)
(* include/lazily/crdt.hpp:544-554, SeqCrdt::move_between *)
Definition move_between (s : SeqCrdt) (id : Id) (left right : option Id) (now : Z) : option bool * SeqCrdt :=
  match entries s !! id with
  | None => (Some false, s)
  | Some e =>
      let '(st, h) := hlc_tick (hlc s) now in
      let s := with_hlc s h in
      match position_between s left right with
      | None => (None, s)
      | Some pos =>
          let '(r, reg) := lww_set (e_position e) pos st in
          (Some r, with_entries s (<[id := mkEntry (e_value e) reg (e_deleted e)]> (entries s)))
      end
  end.

(* include/lazily/crdt.hpp:556-561, SeqCrdt::remove *)
Definition seq_remove (s : SeqCrdt) (id : Id) (now : Z) : bool * SeqCrdt :=
  match entries s !! id with
  | None => (false, s)
  | Some e =>
      let '(st, h) := hlc_tick (hlc s) now in
      let '(r, reg) := lww_set (e_deleted e) true st in
      (r, mkSeq (seq_peer s) h (<[id := mkEntry (e_value e) (e_position e) reg]> (entries s)))
  end.

(* include/lazily/crdt.hpp:563-569, SeqCrdt::contains *)
Definition seq_contains (s : SeqCrdt) (id : Id) : bool :=
  match entries s !! id with Some e => negb (value (e_deleted e)) | None => false end.

(* include/lazily/crdt.hpp:571-575, SeqCrdt::get *)
Definition seq_get (s : SeqCrdt) (id : Id) : option V :=
  match entries s !! id with
  | None => None
  | Some e => if value (e_deleted e) then None else Some (value (e_value e))
  end.

(* include/lazily/crdt.hpp:590-595, SeqCrdt::len *)
Definition seq_len (s : SeqCrdt) : nat := length (live s).

(* include/lazily/crdt.hpp:597-602, SeqCrdt::tombstone_count *)
Definition seq_tombstone_count (s : SeqCrdt) : nat :=
  length (filter (λ p : Id * SeqEntry, value (e_deleted p.2) = true) (map_to_list (entries s))).

(** The entry after merging [other] into it, and whether anything changed. *)
(* include/lazily/crdt.hpp:616-618, SeqCrdt::merge *)
Definition entry_merge (e other : SeqEntry) : bool * SeqEntry :=
  let '(c1, v) := lww_merge_from (e_value e) (e_value other) in
  let '(c2, p) := lww_merge_from (e_position e) (e_position other) in
  let '(c3, d) := lww_merge_from (e_deleted e) (e_deleted other) in
  (c1 || c2 || c3, mkEntry v p d).

Definition merge_entry (acc : bool * gmap Id SeqEntry) (id : Id) (other : SeqEntry) : bool * gmap Id SeqEntry :=
  let '(changed, es) := acc in
  match es !! id with
  | None => (true, <[id := other]> es)
  | Some e => let '(c, e) := entry_merge e other in (changed || c, <[id := e]> es)
  end.

(* include/lazily/crdt.hpp:604-622, SeqCrdt::merge *)
Definition seq_merge (s other : SeqCrdt) (now : Z) : bool * SeqCrdt :=
  let others := map_to_list (entries other) in
  let h := foldl (λ h '(_, e), (hlc_observe h (entry_max_stamp e) now).2) (hlc s) others in
  let '(changed, es) := foldl (λ acc '(id, e), merge_entry acc id e) (false, entries s) others in
  (changed, mkSeq (seq_peer s) h es).

(* include/lazily/crdt.hpp:624-643, SeqCrdt::fork *)
Definition seq_fork (s : SeqCrdt) (new_peer : Z) : SeqCrdt := mkSeq new_peer (forked (hlc s) new_peer) (entries s).

End seq.
Arguments SeqEntry : clear implicits.
Arguments SeqCrdt Id V {_ _}.

(** ** Keys between keys *)

Lemma frac_compare_refl a : frac_compare a a = 0.
Proof. induction a as [|x a IH]; simpl; [done|]. by rewrite Z.eqb_refl. Qed.

Lemma frac_compare_snoc a x : frac_compare a (a ++ [x]) = -1 ∧ frac_compare (a ++ [x]) a = 1.
Proof. induction a as [|y a IH]; simpl; [done|]. by rewrite Z.eqb_refl. Qed.

Lemma key_gap_above lo : ∀ hi k, key_gap lo hi = Some k → frac_compare lo k < 0.
Proof.
  induction lo as [|a lo IH]; intros [|b hi] k; simpl; try done.
  destruct ((a <? b) && (1 <? b - a)) eqn:E.
  - intros [= <-]. zify_bools. simpl. assert (a + 1 ≤ (a + b) / 2) by (apply Z.div_le_lower_bound; lia).
    destruct (a =? _) eqn:E'; zify_bools; simpl; [lia|]. destruct (a <? _) eqn:E''; zify_bools; lia.
  - intros (k' & Ek & ->)%fmap_Some. simpl. rewrite Z.eqb_refl. simpl. by eapply IH.
Qed.

Lemma key_gap_below lo : ∀ hi k, frac_compare lo hi < 0 → key_gap lo hi = Some k → frac_compare k hi < 0.
Proof.
  induction lo as [|a lo IH]; intros [|b hi] k; simpl; try done. intros Hlt.
  destruct ((a <? b) && (1 <? b - a)) eqn:E.
  - intros [= <-]. zify_bools. assert ((a + b) / 2 < b) by (apply Z.div_lt_upper_bound; lia).
    revert H1. generalize ((a + b) / 2). intros m Hm. simpl.
    destruct (m =? b) eqn:E'; zify_bools; simpl; [lia|]. destruct (m <? b) eqn:E''; zify_bools; lia.
  - intros (k' & Ek & ->)%fmap_Some. simpl. destruct (a =? b) eqn:E'; zify_bools; simpl in *; [by eapply IH|done].
Qed.

(** Without room for a byte in between, the fresh key falls outside exactly when
    [hi] continues [lo] with no more than the byte appended. *)
Lemma key_append_below lo : ∀ hi, frac_compare lo hi < 0 → key_gap lo hi = None →
  (0 ≤ frac_compare (lo ++ [128]) hi ↔ ∃ rest, hi = lo ++ rest ∧ frac_compare rest [128] ≤ 0).
Proof.
  assert (Hanti : ∀ a b, 0 ≤ frac_compare a b ↔ frac_compare b a ≤ 0).
  { induction a as [|x a IHa]; intros [|y b]; simpl; try lia.
    rewrite (Z.eqb_sym y x). destruct (x =? y) eqn:E; zify_bools; simpl; [apply IHa|].
    destruct (x <? y) eqn:E1, (y <? x) eqn:E2; zify_bools; lia. }
  induction lo as [|a lo IH]; intros [|b hi]; cbn [frac_compare key_gap app]; try done.
  - intros _ _. etransitivity; [apply (Hanti [128] (b :: hi))|]. naive_solver.
  - intros Hlt Hgap. destruct ((a <? b) && (1 <? b - a)) eqn:E; [done|]. apply fmap_None in Hgap.
    destruct (a =? b) eqn:E'; zify_bools; simpl in *.
    + rewrite IH by done. subst b. split; intros (rest & Hr & Hle); exists rest; naive_solver.
    + destruct (a <? b) eqn:E''; zify_bools; [|lia]. split; [lia|]. intros (rest & [= -> ->] & _). lia.
Qed.

(** C10: Where a fresh key falls.  Between two keys the new one is always after the
    left one, and before the right one unless that one is the left one extended
    by at most the byte 128; after the last key it is always after it; before the
    first key it is before it exactly when the first byte leaves room. *)
Theorem key_between_orders (lo hi : list Z) (front : Z) :
  frac_compare lo hi < 0 → head hi = Some front →
  (∃ k, key_between (Some lo) (Some hi) = Some k ∧ frac_compare lo k < 0 ∧
    (0 ≤ frac_compare k hi ↔ key_gap lo hi = None ∧ ∃ rest, hi = lo ++ rest ∧ frac_compare rest [128] ≤ 0)) ∧
  (∃ k, key_between (Some lo) None = Some k ∧ frac_compare lo k < 0) ∧
  (∃ k, key_between None (Some hi) = Some k ∧ (frac_compare k hi < 0 ↔ 1 < front)).
Proof.
  intros Hlt Hfront. split_and!.
  - simpl. destruct (key_gap lo hi) as [k|] eqn:Eg; eexists; (split; [done|]).
    + split; [by eapply key_gap_above|]. pose proof (key_gap_below lo hi k Hlt Eg). split; [lia|naive_solver].
    + split; [by rewrite (proj1 (frac_compare_snoc _ _))|]. rewrite key_append_below by done. naive_solver.
  - exists (lo ++ [128]). by rewrite (proj1 (frac_compare_snoc _ _)).
  - destruct hi as [|b hi]; simplify_eq/=. destruct (1 <? front) eqn:E; zify_bools; eexists; (split; [done|]).
    + split; [done|]. intros _. simpl. assert (front / 2 < front) by (apply Z.div_lt_upper_bound; lia).
      destruct (_ =? front) eqn:E'; zify_bools; simpl; [lia|]. destruct (_ <? front) eqn:E''; zify_bools; lia.
    + split; [|lia]. pose proof (proj2 (frac_compare_snoc (front :: hi) 128)) as Hc. simpl in Hc |- *. lia.
Qed.

Lemma key_between_orders_witness :
  (∃ k, key_between (Some [128]) (Some [128; 128]) = Some k ∧ frac_compare [128] k < 0 ∧
    (0 ≤ frac_compare k [128; 128] ↔ key_gap [128] [128; 128] = None ∧ ∃ rest, [128; 128] = [128] ++ rest ∧ frac_compare rest [128] ≤ 0)) ∧
  (∃ k, key_between (Some [128]) None = Some k ∧ frac_compare [128] k < 0) ∧
  (∃ k, key_between None (Some [128; 128]) = Some k ∧ (frac_compare k [128; 128] < 0 ↔ 1 < 128)).
Proof. apply (key_between_orders [128] [128; 128] 128); [reflexivity|reflexivity]. Defined.

(** Inserting between the two elements of a list built by two [insert_back]s
    gives the new element the position of its right neighbour. *)
Lemma insert_between_collides :
  let s := (insert_back (insert_back (seq_new (Id := Z) (V := Z) 1) 10 0 5).2 11 0 6).2 in
  let s' := (insert_between s 12 0 (Some 10) (Some 11) 7).2 in
  order s = [10; 11] ∧
  (value ∘ e_position <$> entries s' !! 12) = (value ∘ e_position <$> entries s' !! 11).
Proof. vm_compute. done. Qed.

(** The ninth [insert_front] does not put its element in front. *)
Lemma ninth_insert_front_is_misplaced :
  let s := foldl (λ s id, (insert_front s id 0 id).2) (seq_new (Id := Z) (V := Z) 1) [1; 2; 3; 4; 5; 6; 7; 8] in
  order s = [8; 7; 6; 5; 4; 3; 2; 1] ∧ order (insert_front s 9 0 9).2 = [8; 9; 7; 6; 5; 4; 3; 2; 1].
Proof. vm_compute. done. Qed.

(** ** Merging sequences *)
Section seq_merge.
  Context {Id V : Type} `{Countable Id}.
  Implicit Types (s t : SeqCrdt Id V) (e : SeqEntry V).

Definition entry_le e e' : Prop :=
  stamp_le (stamp (e_value e)) (stamp (e_value e')) ∧ stamp_le (stamp (e_position e)) (stamp (e_position e')) ∧
  stamp_le (stamp (e_deleted e)) (stamp (e_deleted e')).

Lemma lww_merge_upper {W} (r o : LwwRegister W) :
  stamp_le (stamp r) (stamp (lww_merge_from r o).2) ∧ stamp_le (stamp o) (stamp (lww_merge_from r o).2) ∧
  ((lww_merge_from r o).2 = r ∨ (lww_merge_from r o).2 = o).
Proof.
  unfold lww_merge_from, lww_set. destruct (stamp_gtb (stamp o) (stamp r)) eqn:E; simpl.
  - apply stamp_gtb_lt in E. split_and!; [by right|by left|right; by destruct o].
  - apply stamp_gtb_le in E. split_and!; [by left|done|by left].
Qed.

Definition join e o : SeqEntry V := (entry_merge e o).2.

Lemma join_fields e o :
  join e o = mkEntry (lww_merge_from (e_value e) (e_value o)).2 (lww_merge_from (e_position e) (e_position o)).2
    (lww_merge_from (e_deleted e) (e_deleted o)).2.
Proof.
  unfold join, entry_merge. destruct (lww_merge_from (e_value e) _) as [c1 v], (lww_merge_from (e_position e) _) as [c2 p],
    (lww_merge_from (e_deleted e) _) as [c3 d]. done.
Qed.

Lemma merge_entry_lookup (es : gmap Id (SeqEntry V)) b id o j :
  (merge_entry (b, es) id o).2 !! j =
    if decide (j = id) then Some (match es !! id with Some e => join e o | None => o end) else es !! j.
Proof.
  unfold merge_entry, join. destruct (es !! id) as [e|] eqn:Ee; [destruct (entry_merge e o) as [c e']|]; simpl;
    (case_decide; [subst; by rewrite lookup_insert_eq|by rewrite lookup_insert_ne]).
Qed.

#[local] Arguments merge_entry : simpl never.

(** The entries of a merge, one by one. *)
Lemma seq_merge_lookup s t now id :
  entries (seq_merge s t now).2 !! id = union_with (λ e o, Some (join e o)) (entries s !! id) (entries t !! id).
Proof.
  assert (Hf : ∀ l b es, NoDup l.*1 →
    (foldl (λ acc '(id, e), merge_entry acc id e) (b, es) l).2 !! id =
      union_with (λ e o, Some (join e o)) (es !! id) ((list_to_map l : gmap Id (SeqEntry V)) !! id)).
  { induction l as [|[i o] l IH]; intros b es Hnd; simpl; [by destruct (es !! id)|].
    apply NoDup_cons in Hnd as [Hi Hnd]. destruct (merge_entry (b, es) i o) as [b' es'] eqn:Em. rewrite IH by done.
    pose proof (merge_entry_lookup es b i o id) as Hl. rewrite Em in Hl. simpl in Hl. rewrite Hl. case_decide as E.
    - subst i. rewrite lookup_insert_eq. rewrite (not_elem_of_list_to_map_1 l id) by done. by destruct (es !! id).
    - by rewrite lookup_insert_ne. }
  specialize (Hf (map_to_list (entries t)) false (entries s) (NoDup_fst_map_to_list _)).
  rewrite list_to_map_to_list in Hf. unfold seq_merge.
  destruct (foldl _ (false, entries s) _) as [b es]. exact Hf.
Qed.

Definition merge_all s (others : list (SeqCrdt Id V * Z)) : SeqCrdt Id V := foldl (λ s '(t, now), (seq_merge s t now).2) s others.

(** [e] is the join of the entries for [id] in the replicas [rs]. *)
Definition joined (rs : list (SeqCrdt Id V)) (id : Id) (o : option (SeqEntry V)) : Prop :=
  match o with
  | None => ∀ t, t ∈ rs → entries t !! id = None
  | Some e =>
      (∀ t e', t ∈ rs → entries t !! id = Some e' → entry_le e' e) ∧
      (∃ t e', t ∈ rs ∧ entries t !! id = Some e' ∧ e_value e = e_value e') ∧
      (∃ t e', t ∈ rs ∧ entries t !! id = Some e' ∧ e_position e = e_position e') ∧
      (∃ t e', t ∈ rs ∧ entries t !! id = Some e' ∧ e_deleted e = e_deleted e')
  end.

Lemma joined_add rs t id o :
  joined rs id o → joined (rs ++ [t]) id (union_with (λ e o, Some (join e o)) o (entries t !! id)).
Proof.
  intros Hj. destruct o as [e|], (entries t !! id) as [e2|] eqn:Et; simpl in *.
  - destruct Hj as (Hub & (tv & ev & Hv & Ev & Fv) & (tp & ep & Hp & Ep & Fp) & (td & ed & Hd & Ed & Fd)).
    rewrite join_fields. unfold entry_le. simpl.
    destruct (lww_merge_upper (e_value e) (e_value e2)) as (Uv & Uv2 & Cv), (lww_merge_upper (e_position e) (e_position e2)) as (Up & Up2 & Cp),
      (lww_merge_upper (e_deleted e) (e_deleted e2)) as (Ud & Ud2 & Cd).
    split_and!.
    + intros u e' [Hu|Hu%list_elem_of_singleton]%elem_of_app Eu.
      * destruct (Hub u e' Hu Eu) as (? & ? & ?). split_and!; by eapply stamp_le_trans.
      * subst u. rewrite Et in Eu. by injection Eu as <-.
    + destruct Cv as [->| ->]; [exists tv, ev|exists t, e2]; split_and!; set_solver.
    + destruct Cp as [->| ->]; [exists tp, ep|exists t, e2]; split_and!; set_solver.
    + destruct Cd as [->| ->]; [exists td, ed|exists t, e2]; split_and!; set_solver.
  - destruct Hj as (Hub & (tv & ev & Hv & Ev & Fv) & (tp & ep & Hp & Ep & Fp) & (td & ed & Hd & Ed & Fd)). split_and!.
    + intros u e' [Hu|Hu%list_elem_of_singleton]%elem_of_app Eu; [by eapply Hub|]. congruence.
    + exists tv, ev. set_solver.
    + exists tp, ep. set_solver.
    + exists td, ed. set_solver.
  - split_and!; [|exists t, e2; set_solver..].
    intros u e' [Hu|Hu%list_elem_of_singleton]%elem_of_app Eu; [by rewrite Hj in Eu|].
    subst u. rewrite Et in Eu. injection Eu as <-. split_and!; by left.
  - intros u [Hu|Hu%list_elem_of_singleton]%elem_of_app; [by apply Hj|congruence].
Qed.

Lemma merge_all_joined s others id : joined (s :: others.*1) id (entries (merge_all s others) !! id).
Proof.
  induction others as [|[t now] others IH] using rev_ind.
  - simpl. destruct (entries s !! id) as [e|] eqn:Es; simpl.
    + split_and!; [|exists s, e; set_solver..]. intros u e' ->%list_elem_of_singleton Eu.
      rewrite Es in Eu. injection Eu as <-. split_and!; by left.
    + by intros u ->%list_elem_of_singleton.
  - unfold merge_all. rewrite foldl_app, fmap_app. simpl. rewrite seq_merge_lookup.
    exact (joined_add (s :: others.*1) t id _ IH).
Qed.

(** Stamps identify writes: what every register of the replica holds is what was
    written under its stamp. *)
Definition written (wv : Id → HlcStamp → V) (wp : Id → HlcStamp → Position) (wd : Id → HlcStamp → bool) s : Prop :=
  ∀ id e, entries s !! id = Some e →
    value (e_value e) = wv id (stamp (e_value e)) ∧ value (e_position e) = wp id (stamp (e_position e)) ∧
    value (e_deleted e) = wd id (stamp (e_deleted e)).


(** ** Local writes win *)

(** At or behind the position of a clock. *)
Definition behind (a : HlcStamp) (h : Hlc) : Prop := ¬ causal_lt (stamp_of h) a.
Definition entry_behind (e : SeqEntry V) (h : Hlc) : Prop :=
  behind (stamp (e_value e)) h ∧ behind (stamp (e_position e)) h ∧ behind (stamp (e_deleted e)) h.
Definition ahead s : Prop := ∀ id e, entries s !! id = Some e → entry_behind e (hlc s).

Lemma behind_lt a h b : behind a h → causal_lt (stamp_of h) b → stamp_lt a b.
Proof. unfold behind, causal_lt, stamp_lt. lia. Qed.

Lemma behind_tick a h now : behind a h → behind a (hlc_tick h now).2.
Proof.
  unfold behind, causal_lt, hlc_tick. simpl. destruct (last_wall h <? now) eqn:E; zify_bools; simpl; lia.
Qed.

Lemma tick_lt h now : causal_lt (stamp_of h) (hlc_tick h now).1.
Proof. pose proof (clock_step_advances h (TickClock now)) as [_ Ha]. exact Ha. Qed.

Lemma behind_observe a h r now : behind a h ∨ stamp_le a r → behind a (hlc_observe h r now).2.
Proof.
  unfold behind, causal_lt, stamp_le, stamp_lt, hlc_observe. simpl.
  intros [Hb|[->|Hr]]; repeat match goal with |- context [?a =? ?b] => destruct (Z.eqb_spec a b) end; simpl; lia.
Qed.

Lemma entry_behind_tick e h now : entry_behind e h → entry_behind e (hlc_tick h now).2.
Proof. intros (? & ? & ?). split_and!; by apply behind_tick. Qed.

Lemma behind_own h now : behind (hlc_tick h now).1 (hlc_tick h now).2.
Proof. unfold behind, causal_lt, hlc_tick. simpl. lia. Qed.

Lemma lww_set_tick {W} (r : LwwRegister W) v h now :
  behind (stamp r) h → lww_set r v (hlc_tick h now).1 = (true, mkLww v (hlc_tick h now).1).
Proof.
  intros Hb. unfold lww_set. assert (E : stamp_gtb (hlc_tick h now).1 (stamp r) = true); [|by rewrite E].
  apply stamp_gtb_lt. eapply behind_lt; [done|apply tick_lt].
Qed.

Lemma newer_upper a b : let m := if stamp_gtb b a then b else a in stamp_le a m ∧ stamp_le b m.
Proof.
  simpl. destruct (stamp_gtb b a) eqn:E; [apply stamp_gtb_lt in E; split; [by right|by left]|].
  apply stamp_gtb_le in E. split; [by left|done].
Qed.

Lemma max_stamp_upper e :
  stamp_le (stamp (e_value e)) (entry_max_stamp e) ∧ stamp_le (stamp (e_position e)) (entry_max_stamp e) ∧
  stamp_le (stamp (e_deleted e)) (entry_max_stamp e).
Proof.
  unfold entry_max_stamp. destruct (newer_upper (stamp (e_value e)) (stamp (e_position e))) as [H1 H2]. simpl in *.
  set (m := if stamp_gtb (stamp (e_position e)) _ then _ else _) in *.
  destruct (newer_upper m (stamp (e_deleted e))) as [H3 H4]. simpl in *.
  split_and!; [by eapply stamp_le_trans|by eapply stamp_le_trans|done].
Qed.

(** Everything merged in, from either side, is behind the clock afterwards. *)
Lemma seq_merge_ahead s t now : ahead s → ahead (seq_merge s t now).2.
Proof.
  intros Ha id e. rewrite seq_merge_lookup. unfold seq_merge.
  assert (Hh : ∀ (l : list (Id * SeqEntry V)) h a, behind a h ∨ (∃ i o, (i, o) ∈ l ∧ stamp_le a (entry_max_stamp o)) →
    behind a (foldl (λ h '(_, e), (hlc_observe h (entry_max_stamp e) now).2) h l)).
  { induction l as [|[i o] l IH]; intros h a Hb; simpl; [destruct Hb as [?|(? & ? & Hin & _)]; [done|by apply elem_of_nil in Hin]|].
    apply IH. destruct Hb as [Hb|(i' & o' & [[= -> ->]|Hin]%elem_of_cons & Hle)].
    - left. apply behind_observe. by left.
    - left. apply behind_observe. by right.
    - right. eauto. }
  specialize (Hh (map_to_list (entries t)) (hlc s)).
  destruct (foldl _ (false, entries s) _) as [b es]. simpl.
  assert (Hs : ∀ e1, entries s !! id = Some e1 → entry_behind e1 (foldl (λ h '(_, e), (hlc_observe h (entry_max_stamp e) now).2) (hlc s) (map_to_list (entries t)))).
  { intros e1 E1. destruct (Ha id e1 E1) as (? & ? & ?). split_and!; apply Hh; by left. }
  assert (Ht : ∀ e2, entries t !! id = Some e2 → entry_behind e2 (foldl (λ h '(_, e), (hlc_observe h (entry_max_stamp e) now).2) (hlc s) (map_to_list (entries t)))).
  { intros e2 E2. destruct (max_stamp_upper e2) as (? & ? & ?).
    split_and!; apply Hh; right; exists id, e2; (split; [by apply elem_of_map_to_list|done]). }
  destruct (entries s !! id) as [e1|], (entries t !! id) as [e2|]; simpl; intros [= <-]; auto.
  rewrite join_fields. destruct (Hs e1 eq_refl) as (? & ? & ?), (Ht e2 eq_refl) as (? & ? & ?).
  destruct (lww_merge_upper (e_value e1) (e_value e2)) as (_ & _ & [Ev|Ev]), (lww_merge_upper (e_position e1) (e_position e2)) as (_ & _ & [Ep|Ep]),
    (lww_merge_upper (e_deleted e1) (e_deleted e2)) as (_ & _ & [Ed|Ed]); unfold entry_behind; simpl; by rewrite Ev, Ep, Ed.
Qed.

(** Everything a client can do with a replica. *)
Inductive SeqOp :=
  | InsertBetween (id : Id) (v : V) (left right : option Id) (now : Z)
  | InsertBack (id : Id) (v : V) (now : Z)
  | InsertFront (id : Id) (v : V) (now : Z)
  | SetValue (id : Id) (v : V) (now : Z)
  | MoveBetween (id : Id) (left right : option Id) (now : Z)
  | Remove (id : Id) (now : Z)
  | MergeFrom (other : SeqCrdt Id V) (now : Z)
  | ForkAs (new_peer : Z).

Definition seq_apply s (op : SeqOp) : SeqCrdt Id V :=
  match op with
  | InsertBetween id v l r now => (insert_between s id v l r now).2
  | InsertBack id v now => (insert_back s id v now).2
  | InsertFront id v now => (insert_front s id v now).2
  | SetValue id v now => (set_value s id v now).2
  | MoveBetween id l r now => (move_between s id l r now).2
  | Remove id now => (seq_remove s id now).2
  | MergeFrom other now => (seq_merge s other now).2
  | ForkAs new_peer => seq_fork s new_peer
  end.

Lemma ahead_insert_entry s id e h peer :
  (∀ i x, entries s !! i = Some x → entry_behind x h) → entry_behind e h → ahead (mkSeq peer h (<[id := e]> (entries s))).
Proof. intros Hs He i x. simpl. rewrite lookup_insert_Some. intros [[_ <-]|[_ Hx]]; eauto. Qed.

Lemma insert_between_ahead s id v left right now : ahead s → ahead (insert_between s id v left right now).2.
Proof.
  intros Ha. unfold insert_between. pose proof (behind_own (hlc s) now) as Hown.
  assert (Hs : ∀ i x, entries s !! i = Some x → entry_behind x (hlc_tick (hlc s) now).2).
  { intros i x Hx. apply entry_behind_tick. by eapply Ha. }
  destruct (hlc_tick (hlc s) now) as [st h]. simpl in *.
  destruct (position_between _ _ _) as [pos|]; simpl; [|exact Hs].
  destruct (entries s !! id); simpl; [exact Hs|]. by apply ahead_insert_entry.
Qed.

Lemma seq_apply_ahead s op : ahead s → ahead (seq_apply s op).
Proof.
  intros Ha. destruct op as [id v l r now|id v now|id v now|id v now|id l r now|id now|t now|p]; simpl;
    [by apply insert_between_ahead..| | | |by apply seq_merge_ahead|exact Ha].
  - unfold set_value. destruct (entries s !! id) as [e|] eqn:Ee; [|done]. destruct (Ha id e Ee) as (Bv & Bp & Bd).
    pose proof (lww_set_tick (e_value e) v (hlc s) now Bv) as Es. pose proof (behind_own (hlc s) now) as Hown.
    pose proof (λ i x E, entry_behind_tick x (hlc s) now (Ha i x E)) as Hs. pose proof (Hs id e Ee) as (_ & ? & ?).
    destruct (hlc_tick (hlc s) now) as [st h]. simpl in *. rewrite Es. simpl. by apply ahead_insert_entry.
  - unfold move_between. destruct (entries s !! id) as [e|] eqn:Ee; [|done]. destruct (Ha id e Ee) as (Bv & Bp & Bd).
    pose proof (λ pos, lww_set_tick (e_position e) pos (hlc s) now Bp) as Es. pose proof (behind_own (hlc s) now) as Hown.
    pose proof (λ i x E, entry_behind_tick x (hlc s) now (Ha i x E)) as Hs. pose proof (Hs id e Ee) as (? & _ & ?).
    destruct (hlc_tick (hlc s) now) as [st h]. simpl in *. destruct (position_between _ _ _) as [pos|]; simpl; [|exact Hs].
    rewrite (Es pos). simpl. by apply ahead_insert_entry.
  - unfold seq_remove. destruct (entries s !! id) as [e|] eqn:Ee; [|done]. destruct (Ha id e Ee) as (Bv & Bp & Bd).
    pose proof (lww_set_tick (e_deleted e) true (hlc s) now Bd) as Es. pose proof (behind_own (hlc s) now) as Hown.
    pose proof (λ i x E, entry_behind_tick x (hlc s) now (Ha i x E)) as Hs. pose proof (Hs id e Ee) as (? & ? & _).
    destruct (hlc_tick (hlc s) now) as [st h]. simpl in *. rewrite Es. simpl. by apply ahead_insert_entry.
Qed.

(** A replica's own writes take effect.  Whatever was done to the replica
    (local writes, merges of any states, forks under new peers) and whatever the
    physical clock reads, writing a known element adopts the value, moving it
    adopts the position when the neighbours are known, and removing it removes
    it: no local write is lost to a stamp the replica had already seen. *)
Theorem local_writes_take_effect (peer : Z) (ops : list SeqOp) (id : Id) (v : V) (left right : option Id) (now : Z) :
  let s := foldl seq_apply (seq_new peer) ops in
  is_Some (entries s !! id) →
  ((set_value s id v now).1 = true ∧ value ∘ e_value <$> entries (set_value s id v now).2 !! id = Some v) ∧
  ((seq_remove s id now).1 = true ∧ seq_contains (seq_remove s id now).2 id = false) ∧
  (∀ pos, position_between s left right = Some pos →
    (move_between s id left right now).1 = Some true ∧
    value ∘ e_position <$> entries (move_between s id left right now).2 !! id = Some pos).
Proof.
  intros s [e Ee].
  assert (Ha : ahead s).
  { unfold s. clear. induction ops as [|op ops IH] using rev_ind; [by intros i x; simpl; rewrite lookup_empty|].
    rewrite foldl_app. by apply seq_apply_ahead. }
  destruct (Ha id e Ee) as (Bv & Bp & Bd). clearbody s. split; [|split].
  - unfold set_value. rewrite Ee. pose proof (lww_set_tick (e_value e) v (hlc s) now Bv) as Es.
    destruct (hlc_tick (hlc s) now) as [st h]. cbn [fst] in Es. rewrite Es. cbn [fst snd entries].
    rewrite lookup_insert_eq. by split.
  - unfold seq_remove. rewrite Ee. pose proof (lww_set_tick (e_deleted e) true (hlc s) now Bd) as Es.
    destruct (hlc_tick (hlc s) now) as [st h]. cbn [fst] in Es. rewrite Es. unfold seq_contains. cbn [fst snd entries]. by rewrite lookup_insert_eq.
  - intros pos Hpos. unfold move_between. rewrite Ee. pose proof (lww_set_tick (e_position e) pos (hlc s) now Bp) as Es.
    destruct (hlc_tick (hlc s) now) as [st h]. cbn [fst] in Es.
    assert (Hp : position_between (with_hlc s h) left right = Some pos) by exact Hpos. rewrite Hp, Es. cbn [fst snd with_entries with_hlc entries]. by rewrite lookup_insert_eq.
Qed.

End seq_merge.
Arguments SeqOp Id V {_ _}.

Lemma local_writes_take_effect_witness :
  let other := (set_value (insert_back (seq_new (Id := Z) (V := Z) 2) 10 5 1000).2 10 6 2000).2 in
  let s := foldl seq_apply (seq_new 1) [InsertBack 9 1 5; MergeFrom other 3; ForkAs 7] in
  ((set_value s 10 8 0).1 = true ∧ value ∘ e_value <$> entries (set_value s 10 8 0).2 !! 10 = Some 8) ∧
  ((seq_remove s 10 0).1 = true ∧ seq_contains (seq_remove s 10 0).2 10 = false) ∧
  (∀ pos, position_between s None (Some 9) = Some pos →
    (move_between s 10 None (Some 9) 0).1 = Some true ∧
    value ∘ e_position <$> entries (move_between s 10 None (Some 9) 0).2 !! 10 = Some pos).
Proof.
  apply (local_writes_take_effect 1 [InsertBack 9 1 5;
    MergeFrom (set_value (insert_back (seq_new (Id := Z) (V := Z) 2) 10 5 1000).2 10 6 2000).2 3; ForkAs 7] 10 8 None (Some 9) 0).
  vm_compute. eauto.
Defined.

(** Two replicas of one element, each with its own write. *)
Module Pair.

Definition first : SeqCrdt Z Z :=
  mkSeq 1 (mkHlc 1 100 0) {[10 := entry_new 5 (mkPos [128] 1) (mkStamp 100 0 1)]}.
Definition second : SeqCrdt Z Z :=
  mkSeq 2 (mkHlc 2 200 0) {[10 := mkEntry (mkLww 6 (mkStamp 200 0 2)) (mkLww (mkPos [128] 1) (mkStamp 100 0 1)) (mkLww true (mkStamp 300 0 2))]}.


End Pair.
