(* ===== verification/TextCrdt.v ===== *)
(** * TextCrdt: the character CRDT

    Models the first half of include/lazily/crdt.hpp: [TextCrdt] with its element
    map, its children buckets, the cache of the visible order, merge, delta sync
    and garbage collection.  Characters are byte strings.  Hash maps are finite
    maps; where the code iterates over one in an unspecified order the model
    takes the order of [map_to_list]. *)
From S2P Require Import Prelude.
#[local] Open Scope Z_scope.

(** ** Identifiers *)

(* include/lazily/crdt.hpp:22-34, OpId *)
Record OpId := mkId { counter : Z; id_peer : Z }.
#[export] Instance OpId_eq_dec : EqDecision OpId.
Proof. solve_decision. Defined.
#[export] Instance OpId_countable : Countable OpId.
Proof. refine (inj_countable' (λ i, (counter i, id_peer i)) (λ '(c, p), mkId c p) _). by intros []. Defined.

(* include/lazily/crdt.hpp:27-31, OpId::compare *)
Definition id_compare (a b : OpId) : Z :=
  if negb (counter a =? counter b) then (if counter a <? counter b then -1 else 1)
  else if negb (id_peer a =? id_peer b) then (if id_peer a <? id_peer b then -1 else 1)
  else 0.

(* include/lazily/crdt.hpp:32-33, OpId::operator<, operator> *)
Definition id_ltb (a b : OpId) : bool := id_compare a b <? 0.

(* include/lazily/crdt.hpp:63-63, kTextRootKey *)
Definition kTextRootKey : OpId := mkId 0 0.

(** ** The replica *)

(* include/lazily/crdt.hpp:57-61, TextElem *)
Record TextElem := mkElem { ch : list Z; origin : option OpId; deleted : option OpId }.

(** An element on the wire, with its id. *)
(* include/lazily/crdt.hpp:50-55, TextOp *)
Definition TextOp : Type := OpId * TextElem.

(* include/lazily/crdt.hpp:273-292, TextCrdt *)
Record TextCrdt := mkText {
  t_peer : Z; t_counter : Z;
  elems : gmap OpId TextElem; by_origin : gmap OpId (list OpId);
  visible_order : list OpId; visible_valid : bool;
}.

(* include/lazily/crdt.hpp:71-71, TextCrdt::TextCrdt *)
Definition text_new (peer : Z) : TextCrdt := mkText peer 0 ∅ ∅ [] false.

Definition origin_key (e : TextElem) : OpId := default kTextRootKey (origin e).

(** Children are visited from the greatest id down. *)
Definition id_desc (a b : OpId) : Prop := id_compare b a ≤ 0.
#[export] Instance id_desc_dec : RelDecision id_desc.
Proof. intros a b. unfold id_desc. apply _. Defined.

(** [None] when the fuel runs out; the recursion goes down the tree of origins. *)
(* include/lazily/crdt.hpp:320-332, TextCrdt::traverse *)
Fixpoint traverse (fuel : nat) (el : gmap OpId TextElem) (by_origin : gmap OpId (list OpId)) (key : OpId) : option (list OpId) :=
  match fuel with
  | O => None
  | S fuel =>
      match by_origin !! key with
      | None => Some []
      | Some bucket =>
          foldr (λ child rest,
            rest ← rest;
            match el !! child with
            | None => Some rest
            | Some e =>
                sub ← traverse fuel el by_origin child;
                Some ((if deleted e then [] else [child]) ++ sub ++ rest)
            end) (Some []) (merge_sort id_desc bucket)
      end
  end.

(** The fuel given to [traverse]: one more than the depth of any tree. *)
Definition depth (t : TextCrdt) : nat := S (size (elems t)).

(* include/lazily/crdt.hpp:294-298, TextCrdt::rebuild_visible *)
Definition rebuild_visible (t : TextCrdt) : option TextCrdt :=
  v ← traverse (depth t) (elems t) (by_origin t) kTextRootKey;
  Some (mkText (t_peer t) (t_counter t) (elems t) (by_origin t) v true).

(* include/lazily/crdt.hpp:299-301, TextCrdt::ensure_visible *)
Definition ensure_visible (t : TextCrdt) : option TextCrdt :=
  if visible_valid t then Some t else rebuild_visible t.

(* include/lazily/crdt.hpp:303-303, TextCrdt::next_id *)
Definition next_id (t : TextCrdt) : OpId * TextCrdt :=
  (mkId (t_counter t + 1) (t_peer t),
   mkText (t_peer t) (t_counter t + 1) (elems t) (by_origin t) (visible_order t) (visible_valid t)).

(** On a replica whose cache is valid. *)
(* include/lazily/crdt.hpp:305-313, TextCrdt::find_origin *)
Definition find_origin (t : TextCrdt) (visible_index : nat) : option OpId :=
  match visible_index with
  | O => None
  | S i => match visible_order t !! i with Some o => Some o | None => last (visible_order t) end
  end.

(** [by_origin_[key].push_back(id)]. *)
Definition push_child (b : gmap OpId (list OpId)) (key id : OpId) : gmap OpId (list OpId) :=
  <[key := default [] (b !! key) ++ [id]]> b.

(* include/lazily/crdt.hpp:88-100, TextCrdt::insert *)
Definition text_insert (t : TextCrdt) (index : nat) (c : list Z) : option TextCrdt :=
  if bool_decide (c = []) then Some t
  else
    t ← ensure_visible t;
    let origin := find_origin t index in
    let '(id, t) := next_id t in
    let elem := mkElem c origin None in
    let pos := Nat.min index (length (visible_order t)) in
    Some (mkText (t_peer t) (t_counter t) (<[id := elem]> (elems t)) (push_child (by_origin t) (origin_key elem) id)
      (take pos (visible_order t) ++ id :: drop pos (visible_order t)) (visible_valid t)).

(* include/lazily/crdt.hpp:102-106, TextCrdt::insert_str *)
Fixpoint insert_str (t : TextCrdt) (index : nat) (s : list Z) : option TextCrdt :=
  match s with
  | [] => Some t
  | c :: s => t ← text_insert t index [c]; insert_str t (S index) s
  end.

(** The tombstone kept of two: the smaller id. *)
(* include/lazily/crdt.hpp:114-121, TextCrdt::del *)
Definition sticky (mine : option OpId) (del_id : OpId) : option OpId :=
  match mine with
  | None => Some del_id
  | Some d => if id_ltb del_id d then Some del_id else Some d
  end.

(* include/lazily/crdt.hpp:108-123, TextCrdt::del *)
Definition text_del (t : TextCrdt) (index : nat) : option TextCrdt :=
  t ← ensure_visible t;
  match visible_order t !! index with
  | None => Some t
  | Some target =>
      let '(del_id, t) := next_id t in
      Some (mkText (t_peer t) (t_counter t) (alter (λ e, mkElem (ch e) (origin e) (sticky (deleted e) del_id)) target (elems t))
        (by_origin t) (take index (visible_order t) ++ drop (S index) (visible_order t)) (visible_valid t))
  end.

(* include/lazily/crdt.hpp:315-318, TextCrdt::visible_ids *)
Definition visible_ids (t : TextCrdt) : option (list OpId) := visible_order <$> ensure_visible t.

(** The characters of a list of ids. *)
Definition chars (el : gmap OpId TextElem) (ids : list OpId) : list Z :=
  concat (omap (λ id, ch <$> el !! id) ids).

(* include/lazily/crdt.hpp:125-131, TextCrdt::text *)
Definition text (t : TextCrdt) : option (list Z) := chars (elems t) <$> visible_ids t.

(* include/lazily/crdt.hpp:136-139, TextCrdt::visible_len *)
Definition visible_len (t : TextCrdt) : option nat := length <$> visible_ids t.

(* include/lazily/crdt.hpp:141-147, TextCrdt::tombstone_count *)
Definition text_tombstone_count (t : TextCrdt) : nat :=
  length (filter (λ p : OpId * TextElem, is_Some (deleted p.2)) (map_to_list (elems t))).

(* include/lazily/crdt.hpp:73-83, TextCrdt::from_str *)
Definition from_str (peer : Z) (s : list Z) : option TextCrdt :=
  foldl (λ t c, t ← t; n ← visible_len t; insert_str t n [c]) (Some (text_new peer)) s.

(* include/lazily/crdt.hpp:149-155, TextCrdt::fork *)
Definition text_fork (t : TextCrdt) (new_peer : Z) : TextCrdt :=
  mkText new_peer (t_counter t) (elems t) (by_origin t) [] false.

(** Taking in one element of another replica, the loop body of [merge] and of
    [apply_delta]. *)
(* include/lazily/crdt.hpp:162-181, TextCrdt::merge *)
Definition absorb (acc : bool * TextCrdt) (id : OpId) (elem : TextElem) : bool * TextCrdt :=
  let '(changed, t) := acc in
  let bump (c n : Z) := if c <? n then n else c in
  match elems t !! id with
  | None =>
      (changed || negb (bool_decide (is_Some (deleted elem))),
       mkText (t_peer t) (bump (t_counter t) (counter id)) (<[id := elem]> (elems t))
         (push_child (by_origin t) (origin_key elem) id) (visible_order t) (visible_valid t))
  | Some mine =>
      match deleted elem with
      | None => (changed, t)
      | Some d =>
          (changed || negb (bool_decide (is_Some (deleted mine))),
           mkText (t_peer t) (bump (t_counter t) (counter d))
             (<[id := mkElem (ch mine) (origin mine) (sticky (deleted mine) d)]> (elems t))
             (by_origin t) (visible_order t) (visible_valid t))
      end
  end.

Definition invalidate (t : TextCrdt) : TextCrdt :=
  mkText (t_peer t) (t_counter t) (elems t) (by_origin t) (visible_order t) false.

(* include/lazily/crdt.hpp:159-183, TextCrdt::merge *)
Definition text_merge (t other : TextCrdt) : bool * TextCrdt :=
  foldl (λ acc '(id, e), absorb acc id e) (false, invalidate t) (map_to_list (elems other)).

(** [vv[peer] = max(vv[peer], counter)]. *)
Definition bump_vv (vv : gmap Z Z) (id : OpId) : gmap Z Z :=
  <[id_peer id := Z.max (default 0 (vv !! id_peer id)) (counter id)]> vv.

(* include/lazily/crdt.hpp:190-199, TextCrdt::version_vector *)
Definition version_vector (t : TextCrdt) : gmap Z Z :=
  foldl (λ vv '(id, e), let vv := bump_vv vv id in match deleted e with Some d => bump_vv vv d | None => vv end)
    ∅ (map_to_list (elems t)).

(** Whether the holder of [vv] lacks the element or its deletion. *)
(* include/lazily/crdt.hpp:204-219, TextCrdt::delta_since *)
Definition unknown_to (vv : gmap Z Z) (id : OpId) (e : TextElem) : bool :=
  (default 0 (vv !! id_peer id) <? counter id) ||
  match deleted e with Some d => default 0 (vv !! id_peer d) <? counter d | None => false end.

(* include/lazily/crdt.hpp:201-222, TextCrdt::delta_since *)
Definition delta_since (t : TextCrdt) (their_vv : gmap Z Z) : list TextOp :=
  filter (λ op : TextOp, unknown_to their_vv op.1 op.2 = true) (map_to_list (elems t)).

(* include/lazily/crdt.hpp:224-247, TextCrdt::apply_delta *)
Definition apply_delta (t : TextCrdt) (ops : list TextOp) : bool * TextCrdt :=
  foldl (λ acc '(id, e), absorb acc id e) (false, invalidate t) ops.

Definition referenced (el : gmap OpId TextElem) : gset OpId :=
  list_to_set (omap (λ p : OpId * TextElem, origin p.2) (map_to_list el)).

(** Whether the collection erases the element. *)
(* include/lazily/crdt.hpp:259-259, TextCrdt::gc_with *)
Definition collectable (is_stable : OpId → bool) (refs : gset OpId) (id : OpId) (e : TextElem) : bool :=
  match deleted e with Some d => is_stable d && negb (bool_decide (id ∈ refs)) | None => false end.

(* include/lazily/crdt.hpp:249-271, TextCrdt::gc_with *)
Definition gc_with (t : TextCrdt) (is_stable : OpId → bool) : nat * TextCrdt :=
  let refs := referenced (elems t) in
  foldl (λ '(n, t) '(id, e),
    if collectable is_stable refs id e
    then (S n, mkText (t_peer t) (t_counter t) (delete id (elems t))
                 (<[origin_key e := filter (λ x, x ≠ id) (default [] (by_origin t !! origin_key e))]> (by_origin t))
                 (visible_order t) (visible_valid t))
    else (n, t)) (O, invalidate t) (map_to_list (elems t)).

(** ** The order of ids *)

Definition id_lt (a b : OpId) : Prop := counter a < counter b ∨ counter a = counter b ∧ id_peer a < id_peer b.
#[export] Instance id_lt_dec : RelDecision id_lt.
Proof. intros a b. unfold id_lt. apply _. Defined.

Lemma id_compare_spec a b :
  (id_compare a b < 0 ↔ id_lt a b) ∧ (0 < id_compare a b ↔ id_lt b a) ∧ (id_compare a b = 0 ↔ a = b).
Proof.
  unfold id_compare, id_lt.
  destruct (_ =? _) eqn:E1; zify_bools; simpl; [|destruct (_ <? _) eqn:E; zify_bools; split_and!; split; intros; try (subst a; lia); lia].
  destruct (id_peer a =? _) eqn:E2; zify_bools; simpl; [|destruct (_ <? _) eqn:E; zify_bools; split_and!; split; intros; try (subst a; lia); lia].
  split_and!; split; intros; try lia. destruct a, b; simpl in *; congruence.
Qed.

Lemma id_lt_irrefl a : ¬ id_lt a a.
Proof. unfold id_lt. lia. Qed.
Lemma id_lt_trans a b c : id_lt a b → id_lt b c → id_lt a c.
Proof. unfold id_lt. lia. Qed.
Lemma id_desc_lt a b : id_desc a b ↔ a = b ∨ id_lt b a.
Proof.
  unfold id_desc. destruct (id_compare_spec b a) as (H1 & H2 & H3). split.
  - intros. destruct (decide (id_compare b a = 0)) as [E|E]; [left; symmetry; by apply H3|right; apply H1; lia].
  - intros [->|Hlt]; [assert (id_compare b b = 0) by (by apply id_compare_spec); lia|apply H1 in Hlt; lia].
Qed.

#[export] Instance id_desc_trans : Transitive id_desc.
Proof. intros a b c. rewrite !id_desc_lt. unfold id_lt. intros [->|?] [->|?]; auto. right. lia. Qed.
#[export] Instance id_desc_total : Total id_desc.
Proof.
  intros a b. rewrite !id_desc_lt. unfold id_lt. destruct a as [c p], b as [d q]. simpl.
  destruct (decide (c = d)) as [->|]; [destruct (decide (p = q)) as [->|]; [by left; left|]|]; lia.
Qed.
#[export] Instance id_desc_antisymm : AntiSymm (=) id_desc.
Proof. intros a b. rewrite !id_desc_lt. unfold id_lt. intros [->|?] [?|?]; auto. lia. Qed.

(** ** The tree of origins *)

Definition parent (el : gmap OpId TextElem) (id : OpId) : option OpId := origin_key <$> el !! id.

(** The children of a key, greatest id first. *)
Definition kids (el : gmap OpId TextElem) (k : OpId) : list OpId :=
  merge_sort id_desc (filter (λ id, parent el id = Some k) (elements (dom el))).

Definition shown (el : gmap OpId TextElem) (id : OpId) : list OpId :=
  match el !! id with Some e => if deleted e then [] else [id] | None => [] end.

(** The visible elements below a key, in document order. *)
Fixpoint below (fuel : nat) (el : gmap OpId TextElem) (k : OpId) : list OpId :=
  match fuel with
  | O => []
  | S fuel => kids el k ≫= λ c, shown el c ++ below fuel el c
  end.
Definition under (el : gmap OpId TextElem) (k : OpId) : list OpId := below (S (size el)) el k.

(** The document: what the elements alone determine. *)
Definition document (el : gmap OpId TextElem) : list OpId := under el kTextRootKey.

(** Ids are positive and newer than what they were typed after. *)
Definition valid_elems (el : gmap OpId TextElem) : Prop :=
  ∀ id e, el !! id = Some e → 0 < counter id ∧ id_lt (origin_key e) id.

Lemma elem_of_kids el k id : id ∈ kids el k ↔ parent el id = Some k.
Proof.
  unfold kids. rewrite merge_sort_Permutation, list_elem_of_filter, elem_of_elements, elem_of_dom.
  unfold parent. split; [by intros [? _]|]. intros Hp. split; [done|].
  destruct (el !! id); [eauto|done].
Qed.

Lemma kids_NoDup el k : NoDup (kids el k).
Proof. unfold kids. rewrite merge_sort_Permutation. apply NoDup_filter, NoDup_elements. Qed.

Lemma kids_sorted el k : StronglySorted id_desc (kids el k).
Proof. apply StronglySorted_merge_sort; apply _. Qed.

(** Any list of the children sorts to [kids]. *)
Lemma kids_unique el k l : NoDup l → (∀ id, id ∈ l ↔ parent el id = Some k) → merge_sort id_desc l = kids el k.
Proof.
  intros Hnd Hl. apply (StronglySorted_unique id_desc); [apply StronglySorted_merge_sort; apply _|apply kids_sorted|].
  rewrite merge_sort_Permutation. apply NoDup_Permutation; [done|apply kids_NoDup|]. intros id. by rewrite elem_of_kids.
Qed.

Lemma kids_sorted_unique el k l : StronglySorted id_desc l → NoDup l → (∀ id, id ∈ l ↔ parent el id = Some k) → l = kids el k.
Proof.
  intros Hs Hnd Hl. apply (StronglySorted_unique id_desc); [done|apply kids_sorted|].
  apply NoDup_Permutation; [done|apply kids_NoDup|]. intros id. by rewrite elem_of_kids.
Qed.

Section tree.
  Context (el : gmap OpId TextElem) (Hvalid : valid_elems el).

(** How many elements are above a key: it decreases towards the children. *)
Definition above (k : OpId) : nat := length (filter (id_lt k) (elements (dom el))).

Lemma parent_lt k c : parent el c = Some k → id_lt k c ∧ c ∈ dom el.
Proof.
  unfold parent. intros (e & Ee & ->)%fmap_Some. split; [by apply (Hvalid c e)|]. apply elem_of_dom. eauto.
Qed.

Lemma above_child k c : parent el c = Some k → (above c < above k)%nat.
Proof.
  intros [Hlt Hc]%parent_lt. unfold above. apply elem_of_elements in Hc. revert Hc. pose proof (NoDup_elements (dom el)) as Hnd.
  revert Hnd. generalize (elements (dom el)). intros l. induction l as [|x l IH]; intros Hnd Hc; [by apply elem_of_nil in Hc|].
  apply NoDup_cons in Hnd as [Hx Hnd]. rewrite !filter_cons.
  assert (Hle : (length (filter (id_lt c) l) ≤ length (filter (id_lt k) l))%nat).
  { clear -Hlt. induction l as [|y l IHl]; [done|]. rewrite !filter_cons.
    destruct (decide (id_lt c y)) as [Hy|]; [rewrite decide_True by (by eapply id_lt_trans); simpl; lia|].
    case_decide; simpl; lia. }
  apply elem_of_cons in Hc as [->|Hc].
  - rewrite decide_False by apply id_lt_irrefl. rewrite decide_True by done. simpl. lia.
  - specialize (IH Hnd Hc). destruct (decide (id_lt c x)) as [Hy|]; [rewrite decide_True by (by eapply id_lt_trans); simpl; lia|].
    case_decide; simpl; lia.
Qed.

Lemma above_size k : (above k ≤ size el)%nat.
Proof.
  unfold above. rewrite <- size_dom. unfold size, set_size. simpl. apply length_filter.
Qed.

(** Induction towards the leaves. *)
Lemma key_ind (P : OpId → Prop) : (∀ k, (∀ c, parent el c = Some k → P c) → P k) → ∀ k, P k.
Proof.
  intros Hstep k. remember (above k) as n eqn:En. revert k En. induction n as [n IH] using lt_wf_ind. intros k ->.
  apply Hstep. intros c Hc. by eapply IH; [apply above_child|].
Qed.

Lemma below_fuel f : ∀ f' k, (above k < f)%nat → (above k < f')%nat → below f el k = below f' el k.
Proof.
  induction f as [|f IH]; intros [|f'] k Hf Hf'; [lia..|]. simpl.
  assert (Hk : ∀ l, (∀ c, c ∈ l → parent el c = Some k) → (l ≫= λ c, shown el c ++ below f el c) = (l ≫= λ c, shown el c ++ below f' el c)).
  { induction l as [|c l IHl]; intros Hl; [done|]. csimpl. rewrite IHl by (intros; apply Hl; by right). do 2 f_equal.
    pose proof (above_child k c (Hl c ltac:(left))). apply IH; lia. }
  apply Hk. intros c. by rewrite elem_of_kids.
Qed.

Lemma under_eq k : under el k = kids el k ≫= λ c, shown el c ++ under el c.
Proof.
  unfold under at 1. simpl.
  assert (Hk : ∀ l, (∀ c, c ∈ l → parent el c = Some k) → (l ≫= λ c, shown el c ++ below (size el) el c) = (l ≫= λ c, shown el c ++ under el c)).
  { induction l as [|c l IHl]; intros Hl; [done|]. csimpl. rewrite IHl by (intros; apply Hl; by right). do 2 f_equal.
    pose proof (above_child k c (Hl c ltac:(left))). pose proof (above_size k). apply below_fuel; lia. }
  apply Hk. intros c. by rewrite elem_of_kids.
Qed.

(** Proper descendants of a key. *)
Inductive descends (k : OpId) : OpId → Prop :=
  | desc_child x : parent el x = Some k → descends k x
  | desc_step x y : parent el x = Some y → descends k y → descends k x.

Lemma descends_lt k x : descends k x → id_lt k x.
Proof. induction 1 as [x Hx|x y Hx _ IH]; [by apply parent_lt|]. eapply id_lt_trans; [done|by apply parent_lt]. Qed.

Lemma descends_below k c x : parent el c = Some k → descends c x → descends k x.
Proof. intros Hc. induction 1 as [x Hx|x y Hx _ IH]; [by eapply desc_step; [|apply desc_child]|by eapply desc_step]. Qed.

Lemma elem_of_shown c x : x ∈ shown el c → x = c.
Proof. unfold shown. destruct (el !! c) as [e|]; [destruct (deleted e)|]; set_solver. Qed.

Lemma under_descends k : ∀ x, x ∈ under el k → descends k x.
Proof.
  induction k as [k IH] using key_ind. intros x. rewrite under_eq, list_elem_of_bind. intros (c & Hx & Hc%elem_of_kids).
  apply elem_of_app in Hx as [->%elem_of_shown|Hx]; [by apply desc_child|]. eapply descends_below; [done|]. by apply IH.
Qed.

Lemma siblings_apart k c1 c2 x :
  parent el c1 = Some k → parent el c2 = Some k → x = c1 ∨ descends c1 x → x = c2 ∨ descends c2 x → c1 = c2.
Proof.
  intros H1 H2.
  assert (Hchain : ∀ x, x = c1 ∨ descends c1 x → x = c2 ∨ descends c2 x → c1 = c2 ∨ descends c1 c2 ∨ descends c2 c1).
  { clear x. intros x [->|Hd] Hx2; [naive_solver|]. induction Hd as [x Hx|x y Hx Hd IH].
    - destruct Hx2 as [->|Hd2]; [right; left; by apply desc_child|]. inversion Hd2 as [? Hp|? y Hp Hd']; subst.
      + left. congruence.
      + right; right. congruence.
    - destruct Hx2 as [->|Hd2]; [right; left; by eapply desc_step|]. inversion Hd2 as [? Hp|? y' Hp Hd']; subst.
      + apply IH. left. congruence.
      + apply IH. right. congruence. }
  assert (Hno : ∀ a b, parent el a = Some k → parent el b = Some k → ¬ descends a b).
  { intros a b Ha Hb Hd. apply parent_lt in Ha as [Hlt _]. inversion Hd as [? Hp|? y Hp Hd']; subst.
    - assert (k = a) as -> by congruence. by eapply id_lt_irrefl.
    - assert (y = k) as -> by congruence. apply descends_lt in Hd'. by eapply id_lt_irrefl, id_lt_trans. }
  intros Hx1 Hx2. destruct (Hchain x Hx1 Hx2) as [?|[Hd|Hd]]; [done|by destruct (Hno c1 c2)|by destruct (Hno c2 c1)].
Qed.

Lemma under_NoDup k : NoDup (under el k).
Proof.
  induction k as [k IH] using key_ind. rewrite under_eq.
  assert (Hin : ∀ c y, y ∈ shown el c ++ under el c → y = c ∨ descends c y).
  { intros c y [->%elem_of_shown|Hy%under_descends]%elem_of_app; auto. }
  apply NoDup_bind.
  - intros c1 c2 y Hc1%elem_of_kids Hc2%elem_of_kids Hy1%Hin Hy2%Hin. by eapply siblings_apart.
  - intros c Hc%elem_of_kids. apply NoDup_app. split_and!; [|intros y ->%elem_of_shown Hy%under_descends|by apply IH].
    + unfold shown. destruct (el !! c) as [e|]; [destruct (deleted e)|]; [apply NoDup_nil_2|apply NoDup_singleton|apply NoDup_nil_2].
    + apply descends_lt in Hy. by apply id_lt_irrefl in Hy.
  - apply kids_NoDup.
Qed.

End tree.

(** ** The cache *)

(** The buckets list the children of every key, each once. *)
Definition buckets_ok (t : TextCrdt) : Prop :=
  ∀ k, NoDup (default [] (by_origin t !! k)) ∧
    ∀ id, id ∈ default [] (by_origin t !! k) ↔ parent (elems t) id = Some k.

Definition text_wf (t : TextCrdt) : Prop :=
  valid_elems (elems t) ∧ (∀ id e, elems t !! id = Some e → counter id ≤ t_counter t) ∧ 0 ≤ t_counter t ∧ buckets_ok t.

Definition cache_ok (t : TextCrdt) : Prop := visible_valid t = true → visible_order t = document (elems t).

Lemma traverse_below el b :
  valid_elems el →
  (∀ k, NoDup (default [] (b !! k)) ∧ ∀ id, id ∈ default [] (b !! k) ↔ parent el id = Some k) →
  ∀ fuel k, (above el k < fuel)%nat → traverse fuel el b k = Some (below fuel el k).
Proof.
  intros Hv Hb. induction fuel as [|fuel IH]; intros k Hf; [lia|]. simpl.
  destruct (Hb k) as [Hnd Hk]. rewrite <- (kids_unique el k _ Hnd Hk).
  destruct (b !! k) as [bucket|]; simpl in *; [|done].
  assert (Hc : ∀ c, c ∈ merge_sort id_desc bucket → parent el c = Some k).
  { intros c. rewrite merge_sort_Permutation. apply Hk. }
  revert Hc. generalize (merge_sort id_desc bucket). intros l. induction l as [|c l IHl]; intros Hc; [done|].
  csimpl. rewrite IHl by (intros; apply Hc; by right). simpl. pose proof (Hc c ltac:(left)) as Hp.
  unfold shown. destruct (el !! c) as [e|] eqn:Ee.
  - rewrite IH by (pose proof (above_child el Hv k c Hp); lia). simpl. by rewrite <- app_assoc.
  - unfold parent in Hp. by rewrite Ee in Hp.
Qed.

(** The traversal returns, and it computes the document. *)
Lemma rebuild_visible_ok t : text_wf t → rebuild_visible t =
  Some (mkText (t_peer t) (t_counter t) (elems t) (by_origin t) (document (elems t)) true).
Proof.
  intros (Hv & _ & _ & Hb). unfold rebuild_visible, depth.
  rewrite (traverse_below (elems t) (by_origin t) Hv Hb); [done|]. pose proof (above_size (elems t) kTextRootKey). lia.
Qed.

Lemma ensure_ok t : text_wf t → cache_ok t → ∃ t', ensure_visible t = Some t' ∧
  t' = mkText (t_peer t) (t_counter t) (elems t) (by_origin t) (document (elems t)) true.
Proof.
  intros Hw Hc. unfold ensure_visible, cache_ok in *. destruct (visible_valid t) eqn:Ev; [|rewrite rebuild_visible_ok; eauto].
  exists t. split; [done|]. destruct t; simpl in *. rewrite Ev, Hc; done.
Qed.

(** ** Inserting *)

Definition insert_after (o n : OpId) (l : list OpId) : list OpId := l ≫= λ x, x :: (if decide (x = o) then [n] else []).

Lemma insert_after_app o n l l' : insert_after o n (l ++ l') = insert_after o n l ++ insert_after o n l'.
Proof. apply bind_app. Qed.

Lemma insert_after_notin o n l : o ∉ l → insert_after o n l = l.
Proof.
  induction l as [|x l IH]; intros Ho; [done|]. unfold insert_after in *. csimpl.
  rewrite decide_False by set_solver. rewrite IH by set_solver. done.
Qed.

Lemma insert_after_at o n l i : NoDup l → l !! i = Some o → insert_after o n l = take (S i) l ++ n :: drop (S i) l.
Proof.
  revert i. induction l as [|x l IH]; intros i Hnd Hi; [done|]. apply NoDup_cons in Hnd as [Hx Hnd].
  destruct i as [|i]; simpl in Hi.
  - injection Hi as ->. unfold insert_after. csimpl. rewrite decide_True by done. simpl.
    change (o :: n :: insert_after o n l = o :: take 0 l ++ n :: drop 0 l). by rewrite insert_after_notin.
  - assert (x ≠ o) by (intros ->; by apply Hx, (list_elem_of_lookup_2 _ i)).
    unfold insert_after. csimpl. rewrite decide_False by done. simpl.
    change (x :: insert_after o n l = x :: take (S i) l ++ n :: drop (S i) l). by rewrite (IH i).
Qed.

Section insert.
  Context (el : gmap OpId TextElem) (Hvalid : valid_elems el).
  Context (n : OpId) (elem : TextElem).
  Context (Hnewest : ∀ id e, el !! id = Some e → id_lt id n) (Hpos : 0 < counter n) (Hlt : id_lt (origin_key elem) n).
  Context (Hlive : deleted elem = None).
  Context (Horigin : origin_key elem = kTextRootKey ∨ shown el (origin_key elem) = [origin_key elem]).

Lemma fresh_new : el !! n = None.
Proof. destruct (el !! n) as [e|] eqn:E; [|done]. by apply Hnewest, id_lt_irrefl in E. Qed.

Lemma valid_insert : valid_elems (<[n := elem]> el).
Proof. intros id e. rewrite lookup_insert_Some. intros [[<- <-]|[_ He]]; [done|by apply Hvalid]. Qed.

Lemma parent_insert id : parent (<[n := elem]> el) id = if decide (id = n) then Some (origin_key elem) else parent el id.
Proof. unfold parent. case_decide; [subst; by rewrite lookup_insert_eq|by rewrite lookup_insert_ne]. Qed.

Lemma kids_insert k : kids (<[n := elem]> el) k = if decide (k = origin_key elem) then n :: kids el k else kids el k.
Proof.
  symmetry. assert (Hn : n ∉ kids el k) by (rewrite elem_of_kids; unfold parent; by rewrite fresh_new).
  assert (Hmem : ∀ id, id ∈ (if decide (k = origin_key elem) then n :: kids el k else kids el k) ↔ parent (<[n := elem]> el) id = Some k).
  { intros id. rewrite parent_insert. case_decide as Ek; [rewrite elem_of_cons|]; rewrite elem_of_kids; case_decide as Ei; subst;
      unfold parent; rewrite ?fresh_new; naive_solver. }
  apply kids_sorted_unique; [| |exact Hmem]; case_decide.
  - constructor; [apply kids_sorted|]. apply Forall_forall. intros id Hid%elem_of_kids. apply id_desc_lt. right.
    unfold parent in Hid. apply fmap_Some in Hid as (e & He & _). by eapply Hnewest.
  - apply kids_sorted.
  - constructor; [done|apply kids_NoDup].
  - apply kids_NoDup.
Qed.

Lemma kids_new : kids el n = [].
Proof.
  destruct (kids el n) as [|c l] eqn:E; [done|]. exfalso. assert (Hc : c ∈ kids el n) by (rewrite E; left).
  apply elem_of_kids in Hc as Hp. apply (parent_lt el Hvalid) in Hp as [Hlt' _].
  apply elem_of_kids in Hc. apply fmap_Some in Hc as (e & He & _). apply Hnewest in He.
  by eapply id_lt_irrefl, id_lt_trans.
Qed.

Lemma shown_insert c : c ≠ n → shown (<[n := elem]> el) c = shown el c.
Proof. intros Hc. unfold shown. by rewrite lookup_insert_ne. Qed.

Lemma insert_after_shown c : parent el c ≠ None →
  insert_after (origin_key elem) n (shown el c) = shown el c ++ (if decide (c = origin_key elem) then [n] else []).
Proof.
  intros Hp. case_decide as Ec.
  - subst c. destruct Horigin as [Hr|Hs]; [|rewrite Hs; unfold insert_after; csimpl; by rewrite decide_True].
    exfalso. apply Hp. unfold parent. destruct (el !! origin_key elem) as [e|] eqn:E; [|done].
    destruct (Hvalid _ _ E) as [Hc _]. rewrite Hr in Hc. done.
  - rewrite app_nil_r. apply insert_after_notin. intros Hin. apply Ec. symmetry. by eapply elem_of_shown.
Qed.

Lemma under_insert k : k ≠ n →
  under (<[n := elem]> el) k = (if decide (k = origin_key elem) then [n] else []) ++ insert_after (origin_key elem) n (under el k).
Proof.
  induction k as [k IH] using (key_ind el Hvalid). intros Hkn.
  rewrite (under_eq (<[n := elem]> el) valid_insert), (under_eq el Hvalid), kids_insert.
  assert (Hold : ∀ l, (∀ c, c ∈ l → parent el c = Some k) →
    (l ≫= λ c, shown (<[n := elem]> el) c ++ under (<[n := elem]> el) c) = insert_after (origin_key elem) n (l ≫= λ c, shown el c ++ under el c)).
  { induction l as [|c l IHl]; intros Hl; [done|]. csimpl. rewrite IHl by (intros; apply Hl; by right).
    pose proof (Hl c ltac:(left)) as Hp. assert (Hcn : c ≠ n).
    { intros ->. unfold parent in Hp. by rewrite fresh_new in Hp. }
    rewrite !insert_after_app, insert_after_shown by (by rewrite Hp). rewrite (shown_insert c Hcn), (IH c Hp Hcn).
    by rewrite !app_assoc. }
  assert (Hu : under (<[n := elem]> el) n = []).
  { rewrite (under_eq (<[n := elem]> el) valid_insert), kids_insert. rewrite decide_False; [by rewrite kids_new|].
    intros E. rewrite <- E in Hlt. by apply id_lt_irrefl in Hlt. }
  case_decide as Ek.
  - csimpl. rewrite Hold by (intros c; by rewrite elem_of_kids). rewrite Hu. unfold shown at 1.
    rewrite lookup_insert_eq, Hlive. done.
  - apply Hold. intros c. by rewrite elem_of_kids.
Qed.

End insert.

(** Typing at [index]: the document gains the new id there. *)
Lemma document_insert el n elem index :
  valid_elems el → (∀ id e, el !! id = Some e → id_lt id n) → 0 < counter n → deleted elem = None →
  origin elem = match index with O => None | S i => match document el !! i with Some o => Some o | None => last (document el) end end →
  valid_elems (<[n := elem]> el) ∧
  document (<[n := elem]> el) =
    take (Nat.min index (length (document el))) (document el) ++ n :: drop (Nat.min index (length (document el))) (document el).
Proof.
  intros Hv Hnew Hpos Hlive Ho.
  assert (Hmem : ∀ o, o ∈ document el → id_lt o n ∧ shown el o = [o] ∧ 0 < counter o).
  { intros o Ho'. apply (under_descends el Hv) in Ho' as Hd.
    assert (Hs : ∀ k, o ∈ under el k → shown el o = [o]).
    { induction k as [k IHk] using (key_ind el Hv). rewrite (under_eq el Hv), list_elem_of_bind. intros (c & Hx & Hc%elem_of_kids).
      apply elem_of_app in Hx as [Hx|Hx]; [|by eapply IHk]. assert (o = c) as -> by (by eapply elem_of_shown).
      unfold shown in *. destruct (el !! c) as [e|]; [destruct (deleted e)|]; try (by apply elem_of_nil in Hx). done. }
    specialize (Hs _ Ho'). unfold shown in Hs. destruct (el !! o) as [e|] eqn:Ee; [|done].
    split_and!; [by eapply Hnew|unfold shown; by rewrite Ee|by apply (Hv o e)]. }
  assert (Hroot : id_lt kTextRootKey n) by (unfold id_lt; simpl; lia).
  assert (Hn : n ≠ kTextRootKey) by (intros ->; done).
  (* where the origin sits in the document *)
  assert (Hcase : (origin elem = None ∧ Nat.min index (length (document el)) = 0)%nat ∨
    ∃ o j, origin elem = Some o ∧ document el !! j = Some o ∧ Nat.min index (length (document el)) = S j).
  { destruct index as [|i]; [by left|]. destruct (document el !! i) as [o|] eqn:Ei.
    - right. exists o, i. pose proof (lookup_lt_Some _ _ _ Ei). split_and!; [done|done|lia].
    - apply lookup_ge_None in Ei. destruct (last (document el)) as [o|] eqn:El.
      + right. exists o, (pred (length (document el))). rewrite last_lookup in El. pose proof (lookup_lt_Some _ _ _ El).
        split_and!; [done|done|lia].
      + apply last_None in El. left. rewrite El. split; [done|simpl; lia]. }
  destruct Hcase as [[E ->]|(o & j & E & Hj & ->)].
  - assert (Ek : origin_key elem = kTextRootKey) by (unfold origin_key; by rewrite E). split.
    + apply valid_insert; [done|done|by rewrite Ek].
    + unfold document. rewrite (under_insert el Hv n elem Hnew Hpos); [|by rewrite Ek|done|by left|congruence]. rewrite decide_True by done. simpl.
      rewrite insert_after_notin; [done|]. rewrite Ek. intros Hin%Hmem. destruct Hin as (_ & _ & ?). done.
  - assert (Ek : origin_key elem = o) by (unfold origin_key; by rewrite E).
    destruct (Hmem o) as (Hon & Hos & Hoc); [by eapply list_elem_of_lookup_2|].
    split; [apply valid_insert; [done|done|by rewrite Ek]|].
    unfold document. rewrite (under_insert el Hv n elem Hnew Hpos); [|by rewrite Ek|done|by right; rewrite Ek|congruence].
    rewrite decide_False by (rewrite Ek; intros <-; done). simpl. rewrite Ek. apply insert_after_at; [by apply under_NoDup|done].
Qed.

(** ** Deleting and collecting *)

Lemma kids_parent el el' k : (∀ id, parent el' id = parent el id) → kids el' k = kids el k.
Proof.
  intros Hp. apply kids_sorted_unique; [apply kids_sorted|apply kids_NoDup|]. intros id. by rewrite elem_of_kids, Hp.
Qed.

Lemma filter_bind {A B} (P : B → Prop) `{!∀ x, Decision (P x)} (f g : A → list B) l :
  (∀ x, x ∈ l → f x = filter P (g x)) → l ≫= f = filter P (l ≫= g).
Proof.
  induction l as [|x l IH]; intros Hl; [done|]. csimpl. rewrite filter_app, <- IH by (intros; apply Hl; by right).
  by rewrite (Hl x) by left.
Qed.

Lemma document_delete el x e d :
  valid_elems el → el !! x = Some e →
  valid_elems (<[x := mkElem (ch e) (origin e) (Some d)]> el) ∧
  document (<[x := mkElem (ch e) (origin e) (Some d)]> el) = filter (λ y, y ≠ x) (document el).
Proof.
  intros Hv Hx. set (el' := <[x := _]> el).
  assert (Hp : ∀ id, parent el' id = parent el id).
  { intros id. unfold parent, el'. destruct (decide (id = x)) as [->|]; [by rewrite lookup_insert_eq, Hx|by rewrite lookup_insert_ne]. }
  assert (Hv' : valid_elems el').
  { intros id e'. unfold el'. rewrite lookup_insert_Some. intros [[<- <-]|[_ He]]; [by apply (Hv x e)|by apply Hv]. }
  split; [done|]. unfold document. generalize kTextRootKey. intros k.
  induction k as [k IH] using (key_ind el Hv). rewrite (under_eq el' Hv'), (under_eq el Hv), (kids_parent el el' k Hp).
  apply filter_bind. intros c Hc%elem_of_kids. rewrite filter_app, (IH c Hc). f_equal.
  unfold shown, el'. destruct (decide (c = x)) as [->|Hne].
  - rewrite lookup_insert_eq, Hx. simpl. destruct (deleted e); [done|]. by rewrite filter_cons_False by naive_solver.
  - rewrite lookup_insert_ne by done. destruct (el !! c) as [e'|]; [destruct (deleted e')|]; try done.
    by rewrite filter_cons_True.
Qed.

Lemma filter_remove_at {A} `{EqDecision A} (l : list A) i x :
  NoDup l → l !! i = Some x → filter (λ y, y ≠ x) l = take i l ++ drop (S i) l.
Proof.
  revert i. induction l as [|y l IH]; intros i Hnd Hi; [done|]. apply NoDup_cons in Hnd as [Hy Hnd].
  destruct i as [|i]; simpl in Hi.
  - injection Hi as ->. rewrite filter_cons_False by naive_solver. simpl. apply list_filter_id. intros z Hz ->. done.
  - rewrite filter_cons_True by (intros ->; by apply Hy, (list_elem_of_lookup_2 _ i)). simpl. f_equal. by apply IH.
Qed.

Lemma document_collect el x e d :
  valid_elems el → el !! x = Some e → deleted e = Some d → kids el x = [] →
  valid_elems (delete x el) ∧ document (delete x el) = document el.
Proof.
  intros Hv Hx Hd Hleaf. set (el' := delete x el).
  assert (Hp : ∀ id, parent el' id = if decide (id = x) then None else parent el id).
  { intros id. unfold parent, el'. case_decide; [subst; by rewrite lookup_delete_eq|by rewrite lookup_delete_ne]. }
  assert (Hv' : valid_elems el').
  { intros id e'. unfold el'. rewrite lookup_delete_Some. intros [_ He]. by apply Hv. }
  split; [done|]. unfold document. generalize kTextRootKey. intros k.
  induction k as [k IH] using (key_ind el Hv). rewrite (under_eq el' Hv'), (under_eq el Hv).
  assert (Hk : kids el' k = filter (λ y, y ≠ x) (kids el k)).
  { symmetry. apply kids_sorted_unique; [|apply NoDup_filter, kids_NoDup|].
    - pose proof (kids_sorted el k) as Hs. revert Hs. generalize (kids el k). intros l Hs.
      induction Hs as [|y l Hs IHs Hy]; [constructor|]. rewrite filter_cons. case_decide; [|done].
      constructor; [done|]. apply Forall_forall. intros z [_ Hz]%list_elem_of_filter. rewrite Forall_forall in Hy. by apply Hy.
    - intros id. rewrite list_elem_of_filter, elem_of_kids, Hp. case_decide; naive_solver. }
  assert (Hux : shown el x = [] ∧ under el x = []).
  { split; [unfold shown; by rewrite Hx, Hd|]. rewrite (under_eq el Hv), Hleaf. done. }
  rewrite Hk. assert (Hl : ∀ c, c ∈ kids el k → parent el c = Some k) by (intros c; by rewrite elem_of_kids).
  revert Hl. generalize (kids el k). intros l. induction l as [|c l IHl]; intros Hl; [done|]. rewrite filter_cons. csimpl.
  specialize (IHl ltac:(intros; apply Hl; by right)). case_decide as Hc; csimpl; rewrite IHl.
  - rewrite (IH c (Hl c ltac:(left))). unfold shown, el'. by rewrite lookup_delete_ne.
  - subst c. by rewrite (proj1 Hux), (proj2 Hux).
Qed.

(** ** Well-formed replicas *)

Lemma buckets_push el b id e :
  el !! id = None →
  (∀ k, NoDup (default [] (b !! k)) ∧ ∀ x, x ∈ default [] (b !! k) ↔ parent el x = Some k) →
  ∀ k, NoDup (default [] (push_child b (origin_key e) id !! k)) ∧
    ∀ x, x ∈ default [] (push_child b (origin_key e) id !! k) ↔ parent (<[id := e]> el) x = Some k.
Proof.
  intros Hid Hb k. destruct (Hb k) as [Hnd Hk].
  assert (Hp : ∀ x, parent (<[id := e]> el) x = if decide (x = id) then Some (origin_key e) else parent el x).
  { intros x. unfold parent. case_decide; [subst; by rewrite lookup_insert_eq|by rewrite lookup_insert_ne]. }
  assert (Hno : parent el id = None) by (unfold parent; by rewrite Hid).
  unfold push_child. destruct (decide (k = origin_key e)) as [->|Hne].
  - rewrite lookup_insert_eq. simpl. split.
    + apply NoDup_app. split_and!; [done| |apply NoDup_singleton]. intros x Hx%Hk ->%list_elem_of_singleton. congruence.
    + intros x. rewrite elem_of_app, list_elem_of_singleton, Hk, Hp. case_decide; naive_solver.
  - rewrite lookup_insert_ne by done. split; [done|]. intros x. rewrite Hk, Hp. case_decide; naive_solver.
Qed.

Lemma absorb_wf b t id e :
  text_wf t → 0 < counter id → id_lt (origin_key e) id →
  text_wf (absorb (b, t) id e).2 ∧ visible_valid (absorb (b, t) id e).2 = visible_valid t.
Proof.
  intros (Hv & Hc & H0 & Hb) Hpos Hlt. unfold absorb. destruct (elems t !! id) as [mine|] eqn:Em.
  - destruct (deleted e) as [d|]; simpl; [|done]. split; [|done].
    assert (Hp : ∀ x, parent (<[id := mkElem (ch mine) (origin mine) (sticky (deleted mine) d)]> (elems t)) x = parent (elems t) x).
    { intros x. unfold parent. destruct (decide (x = id)) as [->|]; [by rewrite lookup_insert_eq, Em|by rewrite lookup_insert_ne]. }
    split_and!; simpl.
    + intros x e'. rewrite lookup_insert_Some. intros [[<- <-]|[_ He]]; [by apply (Hv id mine)|by apply Hv].
    + intros x e'. rewrite lookup_insert_Some. intros [[<- _]|[_ He]]; [specialize (Hc id mine Em)|specialize (Hc x e' He)];
        case_match; zify_bools; lia.
    + case_match; zify_bools; lia.
    + intros k. destruct (Hb k) as [? Hk]. split; [done|]. intros x. simpl. by rewrite Hp.
  - simpl. split; [|done]. split_and!; simpl.
    + intros x e'. rewrite lookup_insert_Some. intros [[<- <-]|[_ He]]; [done|by apply Hv].
    + intros x e'. rewrite lookup_insert_Some. intros [[<- _]|[_ He]]; [|specialize (Hc x e' He)]; case_match; zify_bools; lia.
    + case_match; zify_bools; lia.
    + exact (buckets_push (elems t) (by_origin t) id e Em Hb).
Qed.

Definition valid_op (op : TextOp) : Prop := 0 < counter op.1 ∧ id_lt (origin_key op.2) op.1.

Lemma absorb_all_wf ops : Forall valid_op ops → ∀ b t, text_wf t →
  let r := foldl (λ acc '(id, e), absorb acc id e) (b, t) ops in text_wf r.2 ∧ visible_valid r.2 = visible_valid t.
Proof.
  intros Hops. induction Hops as [|[id e] ops [Hpos Hlt] Hops IH]; intros b t Hw; [done|]. cbn [foldl].
  destruct (absorb_wf b t id e Hw Hpos Hlt) as [Hw' Hvis]. destruct (absorb (b, t) id e) as [b' t']. simpl in Hw', Hvis.
  destruct (IH b' t' Hw') as [? Hv]. split; [done|]. by rewrite Hv.
Qed.

Lemma apply_delta_wf t ops : text_wf t → Forall valid_op ops →
  text_wf (apply_delta t ops).2 ∧ visible_valid (apply_delta t ops).2 = false.
Proof. intros Hw Hops. exact (absorb_all_wf ops Hops false (invalidate t) Hw). Qed.

Lemma valid_elems_ops el : valid_elems el → Forall valid_op (map_to_list el).
Proof. intros Hv. apply Forall_forall. intros [id e] Hin%elem_of_map_to_list. by apply Hv. Qed.

Lemma text_merge_wf t other : text_wf t → valid_elems (elems other) →
  text_wf (text_merge t other).2 ∧ visible_valid (text_merge t other).2 = false.
Proof. intros Hw Hv. by apply (apply_delta_wf t (map_to_list (elems other))), valid_elems_ops. Qed.

Lemma gc_ok t is_stable : text_wf t →
  text_wf (gc_with t is_stable).2 ∧ visible_valid (gc_with t is_stable).2 = false ∧
  document (elems (gc_with t is_stable).2) = document (elems t) ∧ elems (gc_with t is_stable).2 ⊆ elems t.
Proof.
  intros Hw. unfold gc_with. set (refs := referenced (elems t)).
  assert (Hleaf : ∀ id el e, elems t !! id = Some e → el ⊆ elems t → id ∉ refs → kids el id = []).
  { intros id el e He Hsub Hid. destruct (kids el id) as [|c l] eqn:E; [done|]. exfalso. apply Hid.
    assert (Hc : c ∈ kids el id) by (rewrite E; left). apply elem_of_kids, fmap_Some in Hc as (e' & He' & Hk).
    unfold refs, referenced. rewrite elem_of_list_to_set, list_elem_of_omap. exists (c, e').
    split; [apply elem_of_map_to_list; by eapply lookup_weaken|]. unfold origin_key in Hk. simpl.
    destruct (origin e') as [o|]; simpl in Hk; [by subst|]. destruct Hw as (Hv & _). destruct (Hv _ _ He) as [Hpos _].
    by rewrite Hk in Hpos. }
  assert (Hgo : ∀ l n t', text_wf t' → elems t' ⊆ elems t → NoDup l.*1 → (∀ id e, (id, e) ∈ l → elems t' !! id = Some e) →
    let r := foldl (λ '(n, t) '(id, e),
      if collectable is_stable refs id e
      then (S n, mkText (t_peer t) (t_counter t) (delete id (elems t))
             (<[origin_key e := filter (λ x, x ≠ id) (default [] (by_origin t !! origin_key e))]> (by_origin t))
             (visible_order t) (visible_valid t))
      else (n, t)) (n, t') l in
    text_wf r.2 ∧ visible_valid r.2 = visible_valid t' ∧ document (elems r.2) = document (elems t') ∧ elems r.2 ⊆ elems t).
  { induction l as [|[id e] l IH]; intros n t' Hw' Hsub Hnd Hl; [done|]. cbn [foldl]. apply NoDup_cons in Hnd as [Hid Hnd].
    pose proof (Hl id e ltac:(left)) as He.
    destruct (collectable is_stable refs id e) eqn:Ec; [|apply IH; [done|done|done|intros; apply Hl; by right]].
    unfold collectable in Ec. destruct (deleted e) as [d|] eqn:Ed; [|done]. zify_bools.
    destruct Hw' as (Hv & Hc & Hpos & Hb).
    destruct (document_collect (elems t') id e d Hv He Ed) as [Hv' Hdoc].
    { eapply Hleaf; [by eapply lookup_weaken|done|done]. }
    match goal with |- context [foldl _ (S n, ?t1) l] => set (t2 := t1) end.
    destruct (IH (S n) t2) as (? & Hvis & Hd2 & ?).
    - split_and!; [exact Hv'| |exact Hpos|].
      + intros x e'. simpl. rewrite lookup_delete_Some. intros [_ Hx]. by eapply Hc.
      + intros k. destruct (Hb k) as [Hndk Hk]. simpl.
        assert (Hp : ∀ x, parent (delete id (elems t')) x = if decide (x = id) then None else parent (elems t') x).
        { intros x. unfold parent. case_decide; [subst; by rewrite lookup_delete_eq|by rewrite lookup_delete_ne]. }
        assert (Hpid : parent (elems t') id = Some (origin_key e)) by (unfold parent; by rewrite He).
        destruct (decide (k = origin_key e)) as [->|Hne].
        * rewrite lookup_insert_eq. simpl. split; [by apply NoDup_filter|]. intros x. rewrite list_elem_of_filter, Hk, Hp. case_decide; naive_solver.
        * rewrite lookup_insert_ne by done. split; [done|]. intros x. rewrite Hk, Hp. case_decide; [subst|done].
          rewrite Hpid. split; [intros [= E]; by subst k|done].
    - simpl. etransitivity; [apply delete_subseteq|done].
    - done.
    - intros x e' Hin. simpl. rewrite lookup_delete_ne; [apply Hl; by right|].
      intros ->. apply Hid. apply list_elem_of_fmap. by exists (x, e').
    - split_and!; [done|done| |done]. by rewrite Hd2. }
  destruct (Hgo (map_to_list (elems t)) O (invalidate t)) as (H1 & H2 & H3 & H4); [exact Hw|done|apply NoDup_fst_map_to_list| |done].
  intros id e. by rewrite elem_of_map_to_list.
Qed.

(** ** Editing *)

Inductive Edit :=
  | Insert (index : nat) (c : list Z)
  | Del (index : nat)
  | Merge (other : TextCrdt)
  | Apply (ops : list TextOp)
  | Collect (is_stable : OpId → bool)
  | ForkTo (new_peer : Z).

Definition edit (t : TextCrdt) (e : Edit) : option TextCrdt :=
  match e with
  | Insert index c => text_insert t index c
  | Del index => text_del t index
  | Merge other => Some (text_merge t other).2
  | Apply ops => Some (apply_delta t ops).2
  | Collect is_stable => Some (gc_with t is_stable).2
  | ForkTo new_peer => Some (text_fork t new_peer)
  end.
Fixpoint run_edits (t : TextCrdt) (es : list Edit) : option TextCrdt :=
  match es with [] => Some t | e :: es => t ← edit t e; run_edits t es end.

(** What is taken in from elsewhere has ids newer than their origins. *)
Definition valid_edit (e : Edit) : Prop :=
  match e with Merge other => valid_elems (elems other) | Apply ops => Forall valid_op ops | _ => True end.

Definition text_ok (t : TextCrdt) : Prop := text_wf t ∧ cache_ok t.

Lemma visible_ids_ok t : text_ok t → visible_ids t = Some (document (elems t)).
Proof.
  intros [Hw Hc]. unfold visible_ids. destruct (ensure_ok t Hw Hc) as (t' & -> & ->). done.
Qed.

Lemma text_insert_ok t index c : text_ok t → c ≠ [] →
  ∃ t' n, text_insert t index c = Some t' ∧ text_ok t' ∧ elems t !! n = None ∧
    elems t' = <[n := mkElem c (origin (default (mkElem [] None None) (elems t' !! n))) None]> (elems t) ∧
    document (elems t') = take index (document (elems t)) ++ n :: drop index (document (elems t)).
Proof.
  intros [Hw Hc] Hne. unfold text_insert. rewrite bool_decide_eq_false_2 by done.
  destruct (ensure_ok t Hw Hc) as (t1 & -> & ->). simpl. destruct Hw as (Hv & Hcount & H0 & Hb).
  set (n := mkId (t_counter t + 1) (t_peer t)).
  set (o := find_origin _ index). set (e := mkElem c o None).
  assert (Hnew : ∀ id x, elems t !! id = Some x → id_lt id n).
  { intros id x Hx. specialize (Hcount id x Hx). unfold id_lt. simpl. lia. }
  assert (Hfresh : elems t !! n = None) by (by apply fresh_new).
  destruct (document_insert (elems t) n e index Hv Hnew) as [Hv' Hdoc]; [simpl; lia|done|done|].
  eexists. exists n. split; [done|].
  assert (Htake : take (Nat.min index (length (document (elems t)))) (document (elems t)) ++ n :: drop (Nat.min index (length (document (elems t)))) (document (elems t)) =
    take index (document (elems t)) ++ n :: drop index (document (elems t))).
  { destruct (decide (index ≤ length (document (elems t)))%nat); [by rewrite Nat.min_l by done|].
    rewrite Nat.min_r by lia. by rewrite !(take_ge _ index), !(drop_ge _ index), take_ge, drop_ge by lia. }
  split_and!; [split; [split_and!|]|done| |]; simpl.
  - exact Hv'.
  - intros id x. rewrite lookup_insert_Some. intros [[<- _]|[_ Hx]]; [simpl; lia|]. specialize (Hcount id x Hx). lia.
  - lia.
  - exact (buckets_push (elems t) (by_origin t) n e Hfresh Hb).
  - intros _. simpl. by rewrite Hdoc.
  - rewrite lookup_insert_eq. done.
  - by rewrite Hdoc.
Qed.

Lemma text_del_ok t index : text_ok t →
  ∃ t', text_del t index = Some t' ∧ text_ok t' ∧ (∀ id, ch <$> elems t' !! id = ch <$> elems t !! id) ∧
    document (elems t') = take index (document (elems t)) ++ drop (S index) (document (elems t)).
Proof.
  intros [Hw Hc]. unfold text_del. destruct (ensure_ok t Hw Hc) as (t1 & -> & ->). simpl.
  destruct (document (elems t) !! index) as [x|] eqn:Ex; cycle 1.
  { eexists. split; [done|]. apply lookup_ge_None in Ex. split_and!; [split; [exact Hw|done]|done|].
    simpl. rewrite take_ge, drop_ge by lia. by rewrite app_nil_r. }
  destruct Hw as (Hv & Hcount & H0 & Hb).
  assert (Hin : ∃ e, elems t !! x = Some e).
  { apply list_elem_of_lookup_2, (under_descends _ Hv) in Ex. destruct Ex as [y Hp|y z Hp _];
      apply fmap_Some in Hp as (e & He & _); eauto. }
  destruct Hin as [e He]. eexists. split; [done|]. unfold text_ok, text_wf. simpl.
  rewrite (alter_Some _ _ x e He).
  assert (Hs : ∃ d, sticky (deleted e) (mkId (t_counter t + 1) (t_peer t)) = Some d).
  { destruct (deleted e) as [d|]; simpl; [destruct (id_ltb _ _)|]; eauto. }
  destruct Hs as [d ->]. destruct (document_delete (elems t) x e d Hv He) as [Hv' Hdoc].
  assert (Hrem : filter (λ y, y ≠ x) (document (elems t)) = take index (document (elems t)) ++ drop (S index) (document (elems t))).
  { apply filter_remove_at; [by apply under_NoDup|done]. }
  assert (Hp : ∀ id, parent (<[x := mkElem (ch e) (origin e) (Some d)]> (elems t)) id = parent (elems t) id).
  { intros id. unfold parent. destruct (decide (id = x)) as [->|]; [by rewrite lookup_insert_eq, He|by rewrite lookup_insert_ne]. }
  split_and!; [exact Hv'| |lia| | | |].
  - intros id e'. rewrite lookup_insert_Some. intros [[<- _]|[_ Hx]]; [specialize (Hcount x e He)|specialize (Hcount id e' Hx)]; lia.
  - intros k. destruct (Hb k) as [? Hk]. split; [done|]. intros id. simpl. by rewrite Hp.
  - intros _. simpl. by rewrite Hdoc.
  - intros id. destruct (decide (id = x)) as [->|]; [by rewrite lookup_insert_eq, He|by rewrite lookup_insert_ne].
  - by rewrite Hdoc.
Qed.

Lemma edit_ok t e : text_ok t → valid_edit e → ∃ t', edit t e = Some t' ∧ text_ok t'.
Proof.
  intros Ht He. destruct e as [index c|index|other|ops|st|p]; simpl in *.
  - destruct (decide (c = [])) as [->|Hne]; [by exists t|].
    destruct (text_insert_ok t index c Ht Hne) as (t' & n & -> & ? & _). eauto.
  - destruct (text_del_ok t index Ht) as (t' & -> & ? & _). eauto.
  - eexists. split; [done|]. destruct (text_merge_wf t other (proj1 Ht) He) as [? Hv]. split; [done|]. intros E. congruence.
  - eexists. split; [done|]. destruct (apply_delta_wf t ops (proj1 Ht) He) as [? Hv]. split; [done|]. intros E. congruence.
  - eexists. split; [done|]. destruct (gc_ok t st (proj1 Ht)) as (? & Hv & _). split; [done|]. intros E. congruence.
  - eexists. split; [done|]. destruct Ht as [Hw _]. split; [exact Hw|done].
Qed.

Lemma text_new_ok peer : text_ok (text_new peer).
Proof.
  split; [|done]. split_and!; simpl.
  - intros id e. by rewrite lookup_empty.
  - intros id e. by rewrite lookup_empty.
  - done.
  - intros k. simpl. rewrite lookup_empty. split; [constructor|]. intros id. unfold parent. simpl. rewrite lookup_empty. set_solver.
Qed.

Lemma run_edits_ok es : ∀ t, text_ok t → Forall valid_edit es → ∃ t', run_edits t es = Some t' ∧ text_ok t'.
Proof.
  induction es as [|e es IH]; intros t Ht Hes; [by exists t|]. apply Forall_cons in Hes as [He Hes].
  destruct (edit_ok t e Ht He) as (t1 & E & Ht1). simpl. rewrite E. by apply IH.
Qed.

Lemma chars_app el l l' : chars el (l ++ l') = chars el l ++ chars el l'.
Proof. unfold chars. by rewrite omap_app, concat_app. Qed.

Lemma chars_ext el el' l : (∀ id, id ∈ l → ch <$> el' !! id = ch <$> el !! id) → chars el' l = chars el l.
Proof.
  intros Hl. unfold chars. f_equal. induction l as [|id l IH]; [done|]. csimpl.
  rewrite (Hl id) by left. by rewrite IH by (intros; apply Hl; by right).
Qed.

(** C5: A text replica is edited like a list, whatever it has taken in.  Any
    sequence of inserts, deletes, merges, deltas, collections and forks
    succeeds (the recursive traversal returns), and afterwards the cached
    visible order is the document determined by the elements alone; inserting
    puts the characters at the index (at the end when it is beyond), deleting
    removes the element at the index, and collecting tombstones, however
    aggressive, leaves the text as it is. *)
Theorem text_is_edited_like_a_list (peer : Z) (es : list Edit) (index : nat) (c : list Z) (is_stable : OpId → bool) :
  Forall valid_edit es → c ≠ [] →
  ∃ t, run_edits (text_new peer) es = Some t ∧
    let v := document (elems t) in
    visible_ids t = Some v ∧ text t = Some (chars (elems t) v) ∧
    (∃ t', text_insert t index c = Some t' ∧
       text t' = Some (chars (elems t) (take index v) ++ c ++ chars (elems t) (drop index v))) ∧
    (∃ t', text_del t index = Some t' ∧
       text t' = Some (chars (elems t) (take index v) ++ chars (elems t) (drop (S index) v))) ∧
    text (gc_with t is_stable).2 = text t.
Proof.
  intros Hes Hc. destruct (run_edits_ok es (text_new peer) (text_new_ok peer) Hes) as (t & E & Ht).
  exists t. split; [done|]. cbv zeta. assert (Htext : ∀ t, text_ok t → text t = Some (chars (elems t) (document (elems t)))).
  { intros t1 H1. unfold text. by rewrite visible_ids_ok. }
  split; [by apply visible_ids_ok|]. split; [by apply Htext|]. split; [|split].
  - destruct (text_insert_ok t index c Ht Hc) as (t' & n & Ei & Ht' & Hn & Hel & Hdoc). exists t'. split; [done|].
    rewrite (Htext t' Ht'), Hdoc. f_equal. rewrite cons_middle, !chars_app.
    assert (Hold : ∀ l, (∀ id, id ∈ l → id ∈ document (elems t)) → chars (elems t') l = chars (elems t) l).
    { intros l Hl. apply chars_ext. intros id Hid. rewrite Hel. rewrite lookup_insert_ne; [done|]. intros <-.
      apply Hl, (under_descends _ (proj1 (proj1 Ht))) in Hid. destruct Hid as [y Hp|y z Hp _]; apply fmap_Some in Hp as (e & He & _); congruence. }
    rewrite (Hold (take index _)), (Hold (drop index _)).
    + f_equal. f_equal. unfold chars. csimpl. rewrite Hel, lookup_insert_eq. simpl. by rewrite app_nil_r.
    + intros id Hid. rewrite <- (take_drop index (document (elems t))). set_solver.
    + intros id Hid. rewrite <- (take_drop index (document (elems t))). set_solver.
  - destruct (text_del_ok t index Ht) as (t' & Ed & Ht' & Hch & Hdoc). exists t'. split; [done|].
    rewrite (Htext t' Ht'), Hdoc, chars_app. f_equal. f_equal; apply chars_ext; auto.
  - destruct (gc_ok t is_stable (proj1 Ht)) as (Hw & Hv & Hdoc & Hsub).
    rewrite Htext by (split; [done|]; intros Hx; congruence). rewrite (Htext t Ht), Hdoc. f_equal.
    apply chars_ext. intros id Hid. rewrite <- Hdoc in Hid. apply (under_descends _ (proj1 Hw)) in Hid.
    assert (He : ∃ e, elems (gc_with t is_stable).2 !! id = Some e).
    { destruct Hid as [y Hp|y z Hp _]; apply fmap_Some in Hp as (e & He & _); eauto. }
    destruct He as [e He]. rewrite He. by rewrite (lookup_weaken _ _ _ _ He Hsub).
Qed.

Lemma text_is_edited_like_a_list_witness :
  let es := [Insert 0 [104]; Insert 1 [105]; ForkTo 2; Insert 1 [33]; Del 0] in
  ∃ t, run_edits (text_new 1) es = Some t ∧
    let v := document (elems t) in
    visible_ids t = Some v ∧ text t = Some (chars (elems t) v) ∧
    (∃ t', text_insert t 1 [63] = Some t' ∧ text t' = Some (chars (elems t) (take 1 v) ++ [63] ++ chars (elems t) (drop 1 v))) ∧
    (∃ t', text_del t 1 = Some t' ∧ text t' = Some (chars (elems t) (take 1 v) ++ chars (elems t) (drop 2 v))) ∧
    text (gc_with t (λ _, true)).2 = text t.
Proof.
  apply (text_is_edited_like_a_list 1 [Insert 0 [104]; Insert 1 [105]; ForkTo 2; Insert 1 [33]; Del 0] 1 [63] (λ _, true)); [|done].
  repeat (apply Forall_cons; split; [exact I|]). by apply Forall_nil.
Defined.

(** ** Convergence *)

Definition join_elem (mine other : TextElem) : TextElem :=
  match deleted other with None => mine | Some d => mkElem (ch mine) (origin mine) (sticky (deleted mine) d) end.

Lemma absorb_elems b t id e j :
  elems (absorb (b, t) id e).2 !! j =
    if decide (j = id) then Some (match elems t !! id with Some m => join_elem m e | None => e end) else elems t !! j.
Proof.
  unfold absorb, join_elem. destruct (elems t !! id) as [m|] eqn:Em; [destruct (deleted e)|]; simpl;
    (case_decide; [subst; rewrite ?lookup_insert_eq; congruence|by rewrite ?lookup_insert_ne]).
Qed.

Definition join_opt (o1 o2 : option TextElem) : option TextElem := union_with (λ m e, Some (join_elem m e)) o1 o2.

Lemma absorb_all_elems ops id : NoDup ops.*1 → ∀ b t,
  elems (foldl (λ acc '(id, e), absorb acc id e) (b, t) ops).2 !! id =
    join_opt (elems t !! id) ((list_to_map ops : gmap OpId TextElem) !! id).
Proof.
  induction ops as [|[i e] ops IH]; intros Hnd b t.
  { simpl. rewrite lookup_empty. by destruct (elems t !! id). }
  cbn [foldl list_to_map foldr].
  apply NoDup_cons in Hnd as [Hi Hnd]. pose proof (absorb_elems b t i e id) as Ha.
  destruct (absorb (b, t) i e) as [b' t']. rewrite IH by done. cbn [snd] in Ha. rewrite Ha. cbn [uncurry]. case_decide as E.
  - subst i. rewrite lookup_insert_eq, (not_elem_of_list_to_map_1 ops id) by done. by destruct (elems t !! id).
  - by rewrite lookup_insert_ne.
Qed.

Lemma text_merge_elems t other id : elems (text_merge t other).2 !! id = join_opt (elems t !! id) (elems other !! id).
Proof.
  unfold text_merge. rewrite absorb_all_elems by apply NoDup_fst_map_to_list. by rewrite list_to_map_to_list.
Qed.

(** Of two tombstones the smaller id stays. *)
Definition tomb (a b : option OpId) : option OpId := match b with None => a | Some d => sticky a d end.

Lemma id_ltb_lt a b : id_ltb a b = true ↔ id_lt a b.
Proof. unfold id_ltb. rewrite Z.ltb_lt. apply id_compare_spec. Qed.
Lemma id_ltb_ge a b : id_ltb a b = false ↔ ¬ id_lt a b.
Proof. rewrite <- id_ltb_lt. by destruct (id_ltb a b). Qed.

Lemma id_eq a b : counter a = counter b → id_peer a = id_peer b → a = b.
Proof. destruct a, b. simpl. congruence. Qed.

(** Every comparison decided, the rest is arithmetic on the components. *)
Ltac decide_ids :=
  repeat match goal with |- context [id_ltb ?a ?b] => destruct (id_ltb a b) eqn:?; simpl end;
  repeat match goal with
  | H : id_ltb _ _ = true |- _ => apply id_ltb_lt in H
  | H : id_ltb _ _ = false |- _ => apply id_ltb_ge in H
  end;
  try done; f_equal; apply id_eq; unfold id_lt in *; lia.

Lemma tomb_comm a b : tomb a b = tomb b a.
Proof. destruct a as [a|], b as [b|]; simpl; try done. decide_ids. Qed.

Lemma tomb_assoc a b c : tomb (tomb a b) c = tomb a (tomb b c).
Proof. destruct a as [a|], b as [b|], c as [c|]; simpl; try done; decide_ids. Qed.

Lemma tomb_idem a b : tomb (tomb a b) b = tomb a b.
Proof.
  rewrite tomb_assoc. f_equal. destruct b as [b|]; simpl; [|done].
  destruct (id_ltb b b) eqn:E; [|done]. by apply id_ltb_lt, id_lt_irrefl in E.
Qed.

Lemma join_elem_eq m e : join_elem m e = mkElem (ch m) (origin m) (tomb (deleted m) (deleted e)).
Proof. unfold join_elem, tomb. destruct (deleted e); [done|]. by destruct m. Qed.

(** Replicas agree on what an id stands for. *)
Definition agree (a b : TextCrdt) : Prop :=
  ∀ id x y, elems a !! id = Some x → elems b !! id = Some y → ch x = ch y ∧ origin x = origin y.

Lemma text_document t : text_ok t → text t = Some (chars (elems t) (document (elems t))).
Proof. intros Ht. unfold text. by rewrite visible_ids_ok. Qed.

Lemma text_merge_ok t other : text_ok t → text_ok other → text_ok (text_merge t other).2.
Proof.
  intros [Hw _] [[Hv _] _]. destruct (text_merge_wf t other Hw Hv) as [? E]. split; [done|]. intros E'. congruence.
Qed.

(** C6: Text replicas converge.  For well-formed replicas that agree on what
    their common ids stand for, merging in either direction gives the same
    elements and the same text; merging is associative, so the grouping of
    deliveries is immaterial, and delivering a state again changes nothing. *)
Theorem text_replicas_converge (a b c : TextCrdt) :
  text_ok a → text_ok b → text_ok c → agree a b →
  elems (text_merge a b).2 = elems (text_merge b a).2 ∧
  (∃ s, text (text_merge a b).2 = Some s ∧ text (text_merge b a).2 = Some s) ∧
  elems (text_merge (text_merge a b).2 c).2 = elems (text_merge a (text_merge b c).2).2 ∧
  elems (text_merge (text_merge a b).2 b).2 = elems (text_merge a b).2 ∧
  text (text_merge (text_merge a b).2 b).2 = text (text_merge a b).2.
Proof.
  intros Ha Hb Hc Hag.
  assert (Ecomm : elems (text_merge a b).2 = elems (text_merge b a).2).
  { apply map_eq. intros id. rewrite !text_merge_elems.
    destruct (elems a !! id) as [x|] eqn:Ex, (elems b !! id) as [y|] eqn:Ey; simpl; try done.
    destruct (Hag id x y Ex Ey) as [Hch Ho]. by rewrite !join_elem_eq, Hch, Ho, tomb_comm. }
  assert (Eidem : elems (text_merge (text_merge a b).2 b).2 = elems (text_merge a b).2).
  { apply map_eq. intros id. rewrite !text_merge_elems.
    destruct (elems a !! id) as [x|], (elems b !! id) as [y|]; simpl; try done; rewrite !join_elem_eq; cbn [ch origin deleted]; f_equal.
    - by rewrite tomb_idem.
    - destruct y as [c' o d]. cbn [ch origin deleted]. f_equal.
      pose proof (tomb_idem None d) as Hi. destruct d; [exact Hi|done]. }
  pose proof (text_merge_ok a b Ha Hb) as Hab. pose proof (text_merge_ok b a Hb Ha) as Hba.
  pose proof (text_merge_ok _ b Hab Hb) as Habb.
  split_and!; [done| | |done|].
  - rewrite !text_document by done. rewrite <- Ecomm. eauto.
  - apply map_eq. intros id. rewrite !text_merge_elems.
    destruct (elems a !! id) as [x|], (elems b !! id) as [y|], (elems c !! id) as [z|]; simpl; try done.
    rewrite !join_elem_eq. cbn [ch origin deleted]. by rewrite tomb_assoc.
  - rewrite !text_document by done. by rewrite Eidem.
Qed.

(** ** Delta sync *)

Lemma version_vector_covers t id e : elems t !! id = Some e → unknown_to (version_vector t) id e = false.
Proof.
  intros He. apply elem_of_map_to_list in He. unfold version_vector, unknown_to.
  set (step := λ (vv : gmap Z Z) '(id, e), let vv := bump_vv vv id in match deleted e with Some d => bump_vv vv d | None => vv end).
  assert (Hbump : ∀ vv x y, default 0 (vv !! id_peer y) ≤ default 0 (bump_vv vv x !! id_peer y) ∧
    counter x ≤ default 0 (bump_vv vv x !! id_peer x)).
  { intros vv x y. unfold bump_vv. rewrite lookup_insert_eq. simpl. split; [|lia].
    destruct (decide (id_peer x = id_peer y)) as [E|E]; [rewrite E, lookup_insert_eq; simpl; lia|by rewrite lookup_insert_ne]. }
  assert (Hstep : ∀ vv p y, default 0 (vv !! id_peer y) ≤ default 0 (step vv p !! id_peer y)).
  { intros vv [i x] y. simpl. pose proof (proj1 (Hbump vv i y)). destruct (deleted x) as [d|]; [|done].
    pose proof (proj1 (Hbump (bump_vv vv i) d y)). lia. }
  assert (Hmono : ∀ l vv y, default 0 (vv !! id_peer y) ≤ default 0 (foldl step vv l !! id_peer y)).
  { induction l as [|p l IH]; intros vv y; simpl; [done|]. etransitivity; [apply (Hstep vv p y)|apply IH]. }
  revert He. generalize (map_to_list (elems t)), (∅ : gmap Z Z). intros l.
  induction l as [|p l IH]; intros vv Hin; [by apply elem_of_nil in Hin|]. cbn [foldl].
  apply elem_of_cons in Hin as [<-|Hin]; [|by apply IH].
  apply orb_false_iff. split.
  - apply Z.ltb_ge. etransitivity; [|apply Hmono]. simpl. destruct (deleted e) as [d|]; [|apply (Hbump vv id id)].
    etransitivity; [apply (proj2 (Hbump vv id id))|apply (Hbump (bump_vv vv id) d id)].
  - destruct (deleted e) as [d|] eqn:Ed; [|done]. apply Z.ltb_ge. etransitivity; [|apply (Hmono l _ d)]. simpl. rewrite Ed.
    apply (Hbump (bump_vv vv id) d d).
Qed.

(** [b] holds everything of [a] that its version vector claims: the elements, and
    for the deleted ones a tombstone no newer. *)
Definition covers (b a : TextCrdt) : Prop :=
  ∀ id e, elems a !! id = Some e → unknown_to (version_vector b) id e = false →
    ∃ e', elems b !! id = Some e' ∧ ∀ d, deleted e = Some d → ∃ d', deleted e' = Some d' ∧ ¬ id_lt d d'.

(** C7: Delta sync is merge.  When a replica really holds what its version vector
    claims, applying the delta another replica computes for that vector gives
    the same elements and the same text as merging the whole state; and a
    replica has nothing to send to one with its own vector. *)
Theorem delta_sync_is_merge (a b : TextCrdt) :
  text_ok a → text_ok b → covers b a →
  elems (apply_delta b (delta_since a (version_vector b))).2 = elems (text_merge b a).2 ∧
  (∃ s, text (apply_delta b (delta_since a (version_vector b))).2 = Some s ∧ text (text_merge b a).2 = Some s) ∧
  delta_since a (version_vector a) = [].
Proof.
  intros Ha Hb Hcov.
  assert (Ee : elems (apply_delta b (delta_since a (version_vector b))).2 = elems (text_merge b a).2).
  { apply map_eq. intros id. rewrite text_merge_elems. unfold apply_delta.
    assert (Hnd : NoDup (delta_since a (version_vector b)).*1).
    { unfold delta_since. eapply sublist_NoDup; [apply (NoDup_fst_map_to_list (elems a))|]. apply fmap_sublist, sublist_filter. }
    rewrite absorb_all_elems by done. simpl.
    destruct (list_to_map (delta_since a (version_vector b)) !! id) as [e|] eqn:El.
    - apply elem_of_list_to_map_2, list_elem_of_filter in El as [_ Hin%elem_of_map_to_list]. by rewrite Hin.
    - destruct (elems a !! id) as [e|] eqn:Ea; [|done].
      destruct (unknown_to (version_vector b) id e) eqn:Eu.
      + exfalso. apply not_elem_of_list_to_map_2 in El. apply El, list_elem_of_fmap. exists (id, e). split; [done|].
        apply list_elem_of_filter. split; [done|]. by apply elem_of_map_to_list.
      + destruct (Hcov id e Ea Eu) as (e' & -> & Hd). simpl. f_equal. rewrite join_elem_eq.
        destruct e' as [c o d']. simpl in *. f_equal. destruct (deleted e) as [d|]; simpl; [|done].
        destruct (Hd d eq_refl) as (d2 & -> & Hnlt). simpl. by rewrite (proj2 (id_ltb_ge d d2) Hnlt). }
  split_and!; [done| |].
  - assert (Hok : text_ok (apply_delta b (delta_since a (version_vector b))).2).
    { destruct (apply_delta_wf b (delta_since a (version_vector b)) (proj1 Hb)) as [? Hv].
      - apply Forall_forall. intros op [_ Hop]%list_elem_of_filter. pose proof (valid_elems_ops _ (proj1 (proj1 Ha))) as Hall.
        rewrite Forall_forall in Hall. by apply Hall.
      - split; [done|]. intros E. congruence. }
    pose proof (text_merge_ok b a Hb Ha). rewrite !text_document by done. rewrite Ee. eauto.
  - unfold delta_since. destruct (filter _ _) as [|[id e] l] eqn:El; [done|]. exfalso.
    assert (Hin : (id, e) ∈ filter (λ op : TextOp, unknown_to (version_vector a) op.1 op.2 = true) (map_to_list (elems a))) by (rewrite El; left).
    apply list_elem_of_filter in Hin as [Hu Hin%elem_of_map_to_list]. simpl in Hu.
    by rewrite (version_vector_covers a id e Hin) in Hu.
Qed.

(** ** The hypotheses hold of edited replicas *)

Definition replica (peer : Z) (es : list Edit) : TextCrdt := default (text_new peer) (run_edits (text_new peer) es).

Lemma replica_ok peer es : Forall valid_edit es → text_ok (replica peer es).
Proof. intros Hes. unfold replica. by destruct (run_edits_ok es (text_new peer) (text_new_ok peer) Hes) as (t & -> & Ht). Qed.

Definition agrees (b : TextCrdt) (id : OpId) (x : TextElem) : bool :=
  match elems b !! id with Some y => bool_decide (ch x = ch y) && bool_decide (origin x = origin y) | None => true end.

Lemma agree_check a b : forallb (λ '(id, x), agrees b id x) (map_to_list (elems a)) = true → agree a b.
Proof.
  intros Hall id x y Hx Hy. rewrite List.forallb_forall in Hall. apply elem_of_map_to_list, list_elem_of_In in Hx.
  specialize (Hall _ Hx). simpl in Hall. unfold agrees in Hall. rewrite Hy in Hall. by zify_bools.
Qed.

Definition covered (b : TextCrdt) (id : OpId) (e : TextElem) : bool :=
  unknown_to (version_vector b) id e ||
  match elems b !! id with
  | None => false
  | Some e' => match deleted e, deleted e' with None, _ => true | Some d, Some d' => negb (id_ltb d d') | Some _, None => false end
  end.

Lemma covers_check b a : forallb (λ '(id, e), covered b id e) (map_to_list (elems a)) = true → covers b a.
Proof.
  intros Hall id e He Hu. rewrite List.forallb_forall in Hall.
  assert (Hin : (id, e) ∈ map_to_list (elems a)) by (by apply elem_of_map_to_list).
  apply list_elem_of_In in Hin. specialize (Hall _ Hin). simpl in Hall. unfold covered in Hall. rewrite Hu in Hall. simpl in Hall.
  destruct (elems b !! id) as [e'|]; [|done]. exists e'. split; [done|]. intros d Hd. rewrite Hd in Hall.
  destruct (deleted e') as [d'|]; [|done]. exists d'. split; [done|]. apply negb_true_iff in Hall. by apply id_ltb_ge.
Qed.

(** One replica typed "hi", a fork of it appended and deleted meanwhile. *)
Module Typed.

Definition typed : TextCrdt := replica 1 [Insert 0 [104]; Insert 1 [105]].
Definition forked_copy : TextCrdt := replica 1 [Insert 0 [104]; Insert 1 [105]; ForkTo 2; Insert 2 [33]; Del 0].

Lemma text_replicas_converge_witness :
  elems (text_merge typed forked_copy).2 = elems (text_merge forked_copy typed).2 ∧
  (∃ s, text (text_merge typed forked_copy).2 = Some s ∧ text (text_merge forked_copy typed).2 = Some s) ∧
  elems (text_merge (text_merge typed forked_copy).2 typed).2 = elems (text_merge typed (text_merge forked_copy typed).2).2 ∧
  elems (text_merge (text_merge typed forked_copy).2 forked_copy).2 = elems (text_merge typed forked_copy).2 ∧
  text (text_merge (text_merge typed forked_copy).2 forked_copy).2 = text (text_merge typed forked_copy).2.
Proof.
  apply (text_replicas_converge typed forked_copy typed).
  - apply replica_ok. repeat (apply Forall_cons; split; [exact I|]). by apply Forall_nil.
  - apply replica_ok. repeat (apply Forall_cons; split; [exact I|]). by apply Forall_nil.
  - apply replica_ok. repeat (apply Forall_cons; split; [exact I|]). by apply Forall_nil.
  - apply agree_check. vm_compute. reflexivity.
Defined.

Lemma delta_sync_is_merge_witness :
  text (text_merge typed forked_copy).2 = Some [105; 33] ∧
  elems (apply_delta typed (delta_since forked_copy (version_vector typed))).2 = elems (text_merge typed forked_copy).2 ∧
  (∃ s, text (apply_delta typed (delta_since forked_copy (version_vector typed))).2 = Some s ∧ text (text_merge typed forked_copy).2 = Some s) ∧
  delta_since forked_copy (version_vector forked_copy) = [].
Proof.
  split; [by vm_compute|]. apply (delta_sync_is_merge forked_copy typed).
  - apply replica_ok. repeat (apply Forall_cons; split; [exact I|]). by apply Forall_nil.
  - apply replica_ok. repeat (apply Forall_cons; split; [exact I|]). by apply Forall_nil.
  - apply covers_check. vm_compute. reflexivity.
Defined.

End Typed.
