(* ===== verification/Membership.v ===== *)
(** * Membership: failure detection and the SWIM state machine

    Models include/lazily/membership.hpp: the phi-accrual detector on IEEE
    doubles, the membership core over a keyed peer map, and the cell that
    publishes the set of live peers.  [std::map] iterates its keys in order:
    the map is a [gmap] and its iteration a sort of its keys by the order of
    the peers.  [std::exp] and [std::log10], whose rounding the language leaves
    open, are arguments. *)
From Stdlib Require Import SpecFloat.
From S2P Require Import Prelude Kernel KernelCorrect Reactive.
#[local] Open Scope Z_scope.

(* include/lazily/membership.hpp:37-46, PeerState *)
Inductive PeerState := Alive | Suspect | Dead | Left.
#[export] Instance PeerState_eq_dec : EqDecision PeerState.
Proof. solve_decision. Defined.

(* include/lazily/membership.hpp:103-103, saturating_sub *)
Definition saturating_sub (a b : Z) : Z := if b <=? a then a - b else 0.

(** ** Doubles *)

Definition double := spec_float.
Definition dadd : double → double → double := SFadd 53 1024.
Definition dsub : double → double → double := SFsub 53 1024.
Definition dmul : double → double → double := SFmul 53 1024.
Definition ddiv : double → double → double := SFdiv 53 1024.
Definition dsqrt : double → double := SFsqrt 53 1024.
(** [static_cast<double>] of an integer: to nearest, ties to even. *)
Definition to_double (z : Z) : double := binary_normalize 53 1024 z 0 false.
Definition dzero : double := S754_zero false.
Definition done_ : double := to_double 1.
(** The literals 1.5976 and 0.070566. *)
Definition lit_1_5976 : double := S754_finite false 7194950764687104 (-52).
Definition lit_0_070566 : double := S754_finite false 5084816180880423 (-56).

(** ** The detector *)

(* include/lazily/membership.hpp:142-146, PhiAccrual (data members) *)
Record PhiAccrual := mkPhi {
  window_ : list double; max_samples_ : Z; min_std_ : double; last_heartbeat_ : option Z;
}.

(* include/lazily/membership.hpp:111-112, PhiAccrual::PhiAccrual *)
Definition phi_new (max_samples : Z) (min_std : double) : PhiAccrual :=
  mkPhi [] (if max_samples <? 1 then 1 else max_samples) min_std None.

(* include/lazily/membership.hpp:115-124, PhiAccrual::heartbeat *)
Definition phi_heartbeat (d : PhiAccrual) (now : Z) : PhiAccrual :=
  let window :=
    match last_heartbeat_ d with
    | Some last => trim (max_samples_ d) (window_ d ++ [to_double (saturating_sub now last)])
    | None => window_ d
    end in
  mkPhi window (max_samples_ d) (min_std_ d) (Some now).

(* include/lazily/membership.hpp:148-154, PhiAccrual::mean *)
Definition mean (d : PhiAccrual) : double :=
  let n := to_double (Z.of_nat (length (window_ d))) in
  ddiv (foldl dadd dzero (window_ d)) n.

(* include/lazily/membership.hpp:156-164, PhiAccrual::std *)
Definition std (d : PhiAccrual) (mean : double) : double :=
  let n := to_double (Z.of_nat (length (window_ d))) in
  let var := foldl (λ var x, dadd var (dmul (dsub x mean) (dsub x mean))) dzero (window_ d) in
  let s := dsqrt (ddiv var n) in
  if SFltb (min_std_ d) s then s else min_std_ d.

Section phi.
  (** [std::exp] and [std::log10]. *)
  Context (std_exp std_log10 : double → double).

(* include/lazily/membership.hpp:127-140, PhiAccrual::phi *)
Definition phi (d : PhiAccrual) (now : Z) : double :=
  match last_heartbeat_ d with
  | None => dzero
  | Some last =>
      if bool_decide (window_ d = []) then dzero
      else
        let elapsed := to_double (saturating_sub now last) in
        let mean := mean d in
        let std := std d mean in
        let y := ddiv (dsub elapsed mean) std in
        let e := std_exp (dmul (SFopp y) (dadd lit_1_5976 (dmul (dmul lit_0_070566 y) y))) in
        if SFltb mean elapsed then SFopp (std_log10 (ddiv e (dadd done_ e)))
        else SFopp (std_log10 (dsub done_ (ddiv done_ (dadd done_ e))))
  end.

End phi.

(* include/lazily/membership.hpp:91-100, MembershipConfig *)
Record MembershipConfig := mkConfig {
  phi_threshold : double; suspect_timeout : Z; max_samples : Z; min_std : double;
}.

(* include/lazily/membership.hpp:63-88, PeerChangeEvent *)
Inductive PeerChangeEvent (P : Type) :=
  | Joined (peer : P)
  | Departed (peer : P)
  | StateChanged (peer : P) (from to : PeerState).
Arguments Joined {P} peer.
Arguments Departed {P} peer.
Arguments StateChanged {P} peer from to.

(* include/lazily/membership.hpp:270-274, MembershipCore::PeerRecord *)
Record PeerRecord := mkPeer { state : PeerState; detector : PhiAccrual; suspect_since : option Z }.

Section membership.
  Context {P : Type} `{CP : Countable P} (le : relation P) `{!RelDecision le}.
  Context (std_exp std_log10 : double → double).

(* include/lazily/membership.hpp:276-279, MembershipCore (data members) *)
Record MembershipCore := mkMembership { config_ : MembershipConfig; peers_ : gmap P PeerRecord }.

(* include/lazily/membership.hpp:173-173, MembershipCore::MembershipCore *)
Definition membership_new (config : MembershipConfig) : MembershipCore := mkMembership config ∅.

(** The keys in the order [std::map] iterates them. *)
Definition peer_order (m : MembershipCore) : list P := merge_sort le (elements (dom (peers_ m))).

(* include/lazily/membership.hpp:176-182, MembershipCore::alive_set *)
Definition alive_set (m : MembershipCore) : gset P :=
  foldl (λ out peer,
    match peers_ m !! peer with
    | Some r => if decide (state r = Alive) then {[ peer ]} ∪ out else out
    | None => out
    end) ∅ (peer_order m).

(* include/lazily/membership.hpp:185-189, MembershipCore::state *)
Definition peer_state (m : MembershipCore) (peer : P) : option PeerState := state <$> peers_ m !! peer.

(* include/lazily/membership.hpp:281-281, MembershipCore::new_detector *)
Definition new_detector (m : MembershipCore) : PhiAccrual := phi_new (max_samples (config_ m)) (min_std (config_ m)).

(* include/lazily/membership.hpp:192-207, MembershipCore::join *)
Definition membership_join (m : MembershipCore) (peer : P) (now : Z) : list (PeerChangeEvent P) * MembershipCore :=
  let detector := phi_heartbeat (new_detector m) now in
  let prev := state <$> peers_ m !! peer in
  let m := mkMembership (config_ m) (<[peer := mkPeer Alive detector None]> (peers_ m)) in
  match prev with
  | None => ([Joined peer], m)
  | Some Alive => ([], m)
  | Some prev => ([StateChanged peer prev Alive], m)
  end.

(* include/lazily/membership.hpp:211-222, MembershipCore::heartbeat *)
Definition membership_heartbeat (m : MembershipCore) (peer : P) (now : Z) : list (PeerChangeEvent P) * MembershipCore :=
  match peers_ m !! peer with
  | None => membership_join m peer now
  | Some r =>
      let r := mkPeer (state r) (phi_heartbeat (detector r) now) (suspect_since r) in
      let from := state r in
      if negb (bool_decide (from = Alive)) && negb (bool_decide (from = Left)) then
        ([StateChanged peer from Alive],
         mkMembership (config_ m) (<[peer := mkPeer Alive (detector r) None]> (peers_ m)))
      else ([], mkMembership (config_ m) (<[peer := r]> (peers_ m)))
  end.

(* include/lazily/membership.hpp:225-232, MembershipCore::leave *)
Definition membership_leave (m : MembershipCore) (peer : P) : list (PeerChangeEvent P) * MembershipCore :=
  match peers_ m !! peer with
  | None => ([], m)
  | Some r =>
      if decide (state r = Left) then ([], m)
      else ([Departed peer], mkMembership (config_ m) (<[peer := mkPeer Left (detector r) None]> (peers_ m)))
  end.

(* include/lazily/membership.hpp:243-265, MembershipCore::tick (one peer) *)
Definition tick_peer (config : MembershipConfig) (now : Z) (peer : P) (r : PeerRecord) : list (PeerChangeEvent P) * PeerRecord :=
  match state r with
  | Alive =>
      if SFltb (phi_threshold config) (phi std_exp std_log10 (detector r) now)
      then ([StateChanged peer Alive Suspect], mkPeer Suspect (detector r) (Some now))
      else ([], r)
  | Suspect =>
      let expired :=
        match suspect_since r with
        | Some since => suspect_timeout config <=? saturating_sub now since
        | None => false
        end in
      if expired then ([StateChanged peer Suspect Dead], mkPeer Dead (detector r) (suspect_since r))
      else ([], r)
  | Dead | Left => ([], r)
  end.

(* include/lazily/membership.hpp:236-267, MembershipCore::tick *)
Definition membership_tick (m : MembershipCore) (now : Z) : list (PeerChangeEvent P) * MembershipCore :=
  foldl (λ '(events, m) peer,
    match peers_ m !! peer with
    | Some r =>
        let '(ev, r) := tick_peer (config_ m) now peer r in
        (events ++ ev, mkMembership (config_ m) (<[peer := r]> (peers_ m)))
    | None => (events, m)
    end) ([], m) (peer_order m).

(** The operations, and a core driven through them. *)
Inductive MembershipOp := Join (peer : P) (now : Z) | Heartbeat (peer : P) (now : Z) | Leave (peer : P) | Tick (now : Z).

Definition membership_step (m : MembershipCore) (op : MembershipOp) : list (PeerChangeEvent P) * MembershipCore :=
  match op with
  | Join peer now => membership_join m peer now
  | Heartbeat peer now => membership_heartbeat m peer now
  | Leave peer => membership_leave m peer
  | Tick now => membership_tick m now
  end.

(** ** The cell *)
Section cell.
  Context {C H : Type} `{!SourceContext C H (gset P)}.

(* include/lazily/membership.hpp:328-332, MembershipCell::refresh *)
Definition membership_refresh (cell : Mirrored (H:=H) (S:=MembershipCore)) (c : C) : option C :=
  ctx_set (mcell_ cell) (alive_set (mcore_ cell)) c.

(* include/lazily/membership.hpp:290-291, MembershipCell::MembershipCell *)
Definition membership_cell_new (config : MembershipConfig) (c : C) : option (Mirrored (H:=H) (S:=MembershipCore) * C) :=
  '(h, c) ← ctx_source ∅ c; Some (mkMirrored (membership_new config) h, c).

(* include/lazily/membership.hpp:293-315, MembershipCell::join, heartbeat, leave, tick *)
Definition membership_cell_step (cell : Mirrored (H:=H) (S:=MembershipCore)) (op : MembershipOp) (c : C) :
    option (list (PeerChangeEvent P) * Mirrored (H:=H) (S:=MembershipCore) * C) :=
  let '(events, core) :=
    match op with
    | Join peer now => membership_join (mcore_ cell) peer now
    | Heartbeat peer now => membership_heartbeat (mcore_ cell) peer now
    | Leave peer => membership_leave (mcore_ cell) peer
    | Tick now => membership_tick (mcore_ cell) now
    end in
  let cell := mkMirrored core (mcell_ cell) in
  c ← membership_refresh cell c; Some (events, cell, c).

End cell.

End membership.
Arguments MembershipOp P : clear implicits.
Arguments MembershipCore P {_ _}.

#[local] Arguments phi : simpl never.
#[local] Arguments SFltb : simpl never.

(** ** The event log *)
Section log.
  Context {P : Type} `{CP : Countable P}.

(** The transitions of SWIM: escalation, refutation and rejoining. *)
Definition swim_edge (from to : PeerState) : bool :=
  match from, to with
  | Alive, Suspect | Suspect, Dead | Suspect, Alive | Dead, Alive | Left, Alive => true
  | _, _ => false
  end.

(** A reader of the events that knows nothing but the states it has been told:
    [None] when an event does not fit them. *)
Definition observe (st : gmap P PeerState) (e : PeerChangeEvent P) : option (gmap P PeerState) :=
  match e with
  | Joined p => match st !! p with None => Some (<[p := Alive]> st) | Some _ => None end
  | Departed p =>
      match st !! p with
      | Some s => if decide (s = Left) then None else Some (<[p := Left]> st)
      | None => None
      end
  | StateChanged p a b => if decide (st !! p = Some a) then if swim_edge a b then Some (<[p := b]> st) else None else None
  end.

Fixpoint replay (st : gmap P PeerState) (es : list (PeerChangeEvent P)) : option (gmap P PeerState) :=
  match es with [] => Some st | e :: es => st ← observe st e; replay st es end.

Lemma replay_app st es es' : replay st (es ++ es') = (st ← replay st es; replay st es').
Proof. revert st. induction es as [|e es IH]; intros st; simpl; [done|]. destruct (observe st e); simpl; auto. Qed.

Definition about (e : PeerChangeEvent P) : P :=
  match e with Joined p | Departed p | StateChanged p _ _ => p end.

(** The operation names the peer. *)
Definition touches (p : P) (op : MembershipOp P) : bool :=
  match op with Join q _ | Heartbeat q _ | Leave q => bool_decide (q = p) | Tick _ => false end.

End log.

Section membership_correct.
  Context {P : Type} `{CP : Countable P} (le : relation P) `{!RelDecision le}.
  Context (std_exp std_log10 : double → double).
  Implicit Types (m : MembershipCore P) (p : P) (op : MembershipOp P).
  Notation step := (membership_step le std_exp std_log10).
  Notation tick_peer := (tick_peer std_exp std_log10).

Definition states m : gmap P PeerState := state <$> peers_ m.

Lemma peer_order_elem m p : p ∈ peer_order le m ↔ is_Some (peers_ m !! p).
Proof. unfold peer_order. rewrite merge_sort_Permutation, elem_of_elements. apply elem_of_dom. Qed.

Lemma peer_order_NoDup m : NoDup (peer_order le m).
Proof. unfold peer_order. rewrite merge_sort_Permutation. apply NoDup_elements. Qed.

Lemma elem_of_alive_set m p : p ∈ alive_set le m ↔ peer_state m p = Some Alive.
Proof.
  unfold alive_set, peer_state. transitivity (p ∈ peer_order le m ∧ state <$> peers_ m !! p = Some Alive).
  - induction (peer_order le m) as [|q ks IH] using rev_ind; [set_solver|]. rewrite foldl_app. simpl.
    rewrite elem_of_app, list_elem_of_singleton. destruct (peers_ m !! q) as [r|] eqn:E; simpl.
    + destruct (decide (state r = Alive)) as [Ha|Ha]; rewrite ?elem_of_union, ?elem_of_singleton, IH.
      * split; [|tauto]. intros [->|[? ?]]; [|by auto]. rewrite E. simpl. rewrite Ha. auto.
      * split; [tauto|]. intros [[?| ->] Hs]; [done|]. rewrite E in Hs. simpl in Hs. congruence.
    + rewrite IH. split; [tauto|]. intros [[?| ->] Hs]; [done|]. by rewrite E in Hs.
  - rewrite peer_order_elem, fmap_Some. naive_solver.
Qed.

(** One peer's share of a tick fits the states told so far. *)
Lemma tick_peer_replay m now p r : peers_ m !! p = Some r →
  replay (states m) (tick_peer (config_ m) now p r).1 =
    Some (state <$> <[p := (tick_peer (config_ m) now p r).2]> (peers_ m)).
Proof.
  intros Hp. assert (Hs : states m !! p = Some (state r)) by (unfold states; by rewrite lookup_fmap, Hp).
  rewrite fmap_insert. fold (states m). unfold Membership.tick_peer.
  destruct (state r) eqn:E; repeat case_match; simpl; rewrite ?decide_True by done; simpl; try done;
    by rewrite ?E, insert_id.
Qed.

Lemma tick_replay m now :
  replay (states m) (step m (Tick now)).1 = Some (states (step m (Tick now)).2).
Proof.
  simpl. unfold membership_tick. set (f := λ '(events, m') p, _).
  assert (Hind : ∀ ks evs m', replay (states m) evs = Some (states m') →
    replay (states m) (foldl f (evs, m') ks).1 = Some (states (foldl f (evs, m') ks).2)); [|by apply Hind].
  induction ks as [|p ks IH]; intros evs m' He; [done|]. simpl. destruct (peers_ m' !! p) as [r|] eqn:Hp; [|by apply IH].
  pose proof (tick_peer_replay m' now p r Hp) as Ht. destruct (tick_peer _ now p r) as [ev r'].
  apply IH. rewrite replay_app, He. exact Ht.
Qed.

Lemma join_replay m p now :
  replay (states m) (membership_join m p now).1 = Some (states (membership_join m p now).2).
Proof.
  unfold membership_join. assert (Hs : states m !! p = state <$> peers_ m !! p) by apply lookup_fmap.
  destruct (state <$> peers_ m !! p) as [[]|]; simpl; unfold states in *; simpl; rewrite ?Hs, fmap_insert;
    rewrite ?decide_True by done; simpl; try done. by rewrite insert_id.
Qed.

Lemma step_replay m op : replay (states m) (step m op).1 = Some (states (step m op).2).
Proof.
  destruct op as [p now|p now|p|now]; [apply join_replay| | |apply tick_replay]; simpl.
  - unfold membership_heartbeat. destruct (peers_ m !! p) as [r|] eqn:Hp; [|apply join_replay].
    assert (Hs : states m !! p = Some (state r)) by (unfold states; by rewrite lookup_fmap, Hp).
    destruct (state r) eqn:Er; simpl; unfold states in *; simpl; rewrite fmap_insert; simpl; rewrite ?Er, ?Hs;
      rewrite ?decide_True by done; simpl; try done; by rewrite insert_id.
  - unfold membership_leave. destruct (peers_ m !! p) as [r|] eqn:Hp; [|done].
    assert (Hs : states m !! p = Some (state r)) by (unfold states; by rewrite lookup_fmap, Hp).
    destruct (decide (state r = Left)) as [E|E]; simpl; [done|]. rewrite Hs. simpl. rewrite decide_False by done.
    unfold states. simpl. by rewrite fmap_insert.
Qed.

(** The events of a membership core tell its state.  Whatever operations are
    applied to it, the emitted events, read in order from nothing, are
    consistent: a join is of an unknown peer, a departure of one present, a
    change leaves from the state the peer was in along a transition of SWIM;
    and they lead to exactly the states the core holds, among them the set of
    live peers. *)
Theorem membership_events_tell_states (config : MembershipConfig) (ops : list (MembershipOp P)) :
  let run := core_run step (membership_new config) ops in
  ∃ st, replay ∅ (concat run.1) = Some st ∧
    (∀ p, peer_state run.2 p = st !! p) ∧ (∀ p, p ∈ alive_set le run.2 ↔ st !! p = Some Alive).
Proof.
  assert (Hr : ∀ m, replay (states m) (concat (core_run step m ops).1) = Some (states (core_run step m ops).2)).
  { induction ops as [|op ops IH]; intros m; [done|]. simpl. pose proof (step_replay m op) as Hs.
    destruct (step m op) as [e m1]. specialize (IH m1). destruct (core_run step m1 ops) as [es m2]. simpl in *.
    by rewrite replay_app, Hs. }
  simpl. eexists. split; [exact (Hr (membership_new config))|].
  assert (Hst : ∀ m p, peer_state m p = states m !! p) by (intros; unfold states; by rewrite lookup_fmap).
  split; [intros p; apply Hst|intros p; rewrite <- Hst; apply elem_of_alive_set].
Qed.

(** ** The detector's history *)

(** The times of the heartbeats of [p] since it last joined. *)
Definition arrive p (ts : list Z) op : list Z :=
  match op with
  | Join q now => if decide (q = p) then [now] else ts
  | Heartbeat q now => if decide (q = p) then ts ++ [now] else ts
  | _ => ts
  end.
Definition arrivals p (ops : list (MembershipOp P)) : list Z := foldl (arrive p) [] ops.

Definition detector_of (config : MembershipConfig) (ts : list Z) : PhiAccrual :=
  foldl phi_heartbeat (phi_new (max_samples config) (min_std config)) ts.

Lemma tick_peer_about config now p r e : e ∈ (tick_peer config now p r).1 → about e = p.
Proof. unfold Membership.tick_peer. repeat case_match; simpl; set_solver. Qed.

Lemma tick_peer_detector config now p r : detector (tick_peer config now p r).2 = detector r.
Proof. unfold Membership.tick_peer. by repeat case_match. Qed.

Lemma tick_loop now ks : NoDup ks → ∀ evs m,
  let r := foldl (λ '(events, m) p,
    match peers_ m !! p with
    | Some r =>
        let '(ev, r) := tick_peer (config_ m) now p r in
        (events ++ ev, mkMembership (config_ m) (<[p := r]> (peers_ m)))
    | None => (events, m)
    end) (evs, m) ks in
  config_ r.2 = config_ m ∧
  (∀ p, peers_ r.2 !! p =
    if decide (p ∈ ks) then (λ r, (tick_peer (config_ m) now p r).2) <$> peers_ m !! p else peers_ m !! p) ∧
  (∀ e, e ∈ r.1 ↔ e ∈ evs ∨ about e ∈ ks ∧ ∃ r, peers_ m !! about e = Some r ∧ e ∈ (tick_peer (config_ m) now (about e) r).1).
Proof.
  induction 1 as [|q ks Hq _ IH]; intros evs m.
  { simpl. split_and!; [done|done|]. intros e. set_solver. }
  simpl. destruct (peers_ m !! q) as [r|] eqn:Hr.
  - destruct (tick_peer (config_ m) now q r) as [ev r'] eqn:Et.
    destruct (IH (evs ++ ev) (mkMembership (config_ m) (<[q := r']> (peers_ m)))) as (Hc & Hp & He). simpl in *.
    split_and!; [done| |]; [intros p; rewrite Hp|intros e; rewrite He, elem_of_app, elem_of_cons].
    + destruct (decide (p = q)) as [->|Hne].
      * rewrite decide_False, lookup_insert_eq, decide_True, Hr by set_solver. simpl. by rewrite Et.
      * rewrite lookup_insert_ne by done. apply decide_ext. set_solver.
    + assert (Hev : e ∈ ev ↔ about e = q ∧ e ∈ ev).
      { split; [|tauto]. intros Hin. split; [|done]. apply (tick_peer_about (config_ m) now q r). by rewrite Et. }
      rewrite Hev. destruct (decide (about e = q)) as [E|Hne].
      * rewrite E, lookup_insert_eq, Hr. split; [|intros [?|[_ (? & [= <-] & Hin)]]; [tauto|rewrite Et in Hin; tauto]].
        intros [[?|[_ ?]]|[? _]]; [tauto| |done]. right. split; [tauto|]. exists r. by rewrite Et.
      * rewrite lookup_insert_ne by done. tauto.
  - destruct (IH evs m) as (Hc & Hp & He). split_and!; [done| |]; [intros p; rewrite Hp|intros e; rewrite He, elem_of_cons].
    + destruct (decide (p = q)) as [->|Hne]; [rewrite Hr; by repeat case_decide|]. apply decide_ext. set_solver.
    + split; [tauto|]. intros [?|[[E|?] (r & Hr' & ?)]]; [tauto| |eauto]. rewrite E in Hr'. congruence.
Qed.

Lemma tick_lookup m now p :
  peers_ (step m (Tick now)).2 !! p = (λ r, (tick_peer (config_ m) now p r).2) <$> peers_ m !! p.
Proof.
  simpl. unfold membership_tick. destruct (tick_loop now (peer_order le m) (peer_order_NoDup m) [] m) as (_ & Hp & _).
  rewrite Hp. destruct (decide _) as [|Hn]; [done|]. rewrite peer_order_elem in Hn. by apply eq_None_not_Some in Hn as ->.
Qed.

Lemma tick_event m now e :
  e ∈ (step m (Tick now)).1 ↔ ∃ r, peers_ m !! about e = Some r ∧ e ∈ (tick_peer (config_ m) now (about e) r).1.
Proof.
  simpl. unfold membership_tick. destruct (tick_loop now (peer_order le m) (peer_order_NoDup m) [] m) as (_ & _ & He).
  rewrite He, peer_order_elem. split; [|intros (r & Hr & ?)]; [set_solver|]. right. split; [by rewrite Hr|eauto].
Qed.

Lemma step_config m op : config_ (step m op).2 = config_ m.
Proof.
  destruct op as [p now|p now|p|now]; simpl; unfold membership_heartbeat, membership_leave, membership_join;
    [by repeat case_match..|].
  apply (tick_loop now (peer_order le m) (peer_order_NoDup m) [] m).
Qed.

(** An operation other than a tick, seen from one peer. *)
Lemma step_lookup m op p :
  peers_ (step m op).2 !! p =
    match op with
    | Tick now => (λ r, (tick_peer (config_ m) now p r).2) <$> peers_ m !! p
    | _ =>
        if touches p op then
          match op, peers_ m !! p with
          | Join _ now, _ | Heartbeat _ now, None => Some (mkPeer Alive (phi_heartbeat (new_detector m) now) None)
          | Heartbeat _ now, Some (mkPeer Alive d since) => Some (mkPeer Alive (phi_heartbeat d now) since)
          | Heartbeat _ now, Some (mkPeer Left d since) => Some (mkPeer Left (phi_heartbeat d now) since)
          | Heartbeat _ now, Some (mkPeer _ d _) => Some (mkPeer Alive (phi_heartbeat d now) None)
          | Leave _, Some (mkPeer Left d since) => Some (mkPeer Left d since)
          | Leave _, Some (mkPeer _ d _) => Some (mkPeer Left d None)
          | _, o => o
          end
        else peers_ m !! p
    end.
Proof.
  destruct op as [q now|q now|q|now]; [| | |apply tick_lookup]; simpl;
    unfold membership_heartbeat, membership_leave, membership_join;
    (case_bool_decide as Hq; [subst q|]);
    repeat match goal with |- context [peers_ m !! ?q] => destruct (peers_ m !! q) as [[[] ? ?]|] eqn:? end; simpl;
    rewrite ?decide_True, ?decide_False by done; simpl; rewrite ?lookup_insert_eq, ?lookup_insert_ne by done; congruence.
Qed.

(** A peer comes to be suspected or dead by ticks alone. *)
Lemma step_escalates m op p a b : b = Suspect ∨ b = Dead →
  StateChanged p a b ∈ (step m op).1 ↔
    ∃ now r, op = Tick now ∧ peers_ m !! p = Some r ∧ StateChanged p a b ∈ (tick_peer (config_ m) now p r).1.
Proof.
  intros Hb. destruct op as [q now|q now|q|now];
    [| | |rewrite tick_event; split; [intros (r & ? & ?); by exists now, r|intros (? & r & [= <-] & ? & ?); by exists r]];
    (split; [|by intros (? & ? & ? & _)]); simpl; unfold membership_heartbeat, membership_leave, membership_join;
    repeat match goal with |- context [peers_ m !! ?q] => destruct (peers_ m !! q) as [[[] ? ?]|] end; simpl;
    set_solver.
Qed.

Notation run config ops := (core_run step (membership_new config) ops).

Lemma run_config config ops : config_ (run config ops).2 = config.
Proof. induction ops as [|op ops IH] using rev_ind; [done|]. rewrite core_run_snoc. cbn [snd]. by rewrite step_config. Qed.

Lemma run_detector config ops p :
  match peers_ (run config ops).2 !! p with
  | Some r => detector r = detector_of config (arrivals p ops)
  | None => arrivals p ops = []
  end.
Proof.
  induction ops as [|op ops IH] using rev_ind; [done|]. rewrite core_run_snoc. cbn [snd]. rewrite step_lookup.
  unfold arrivals in *. rewrite foldl_app. simpl.
  assert (Hnew : new_detector (run config ops).2 = detector_of config []) by (unfold new_detector; by rewrite run_config).
  assert (Hsnoc : ∀ ts now, phi_heartbeat (detector_of config ts) now = detector_of config (ts ++ [now]))
    by (intros; unfold detector_of; by rewrite foldl_app).
  destruct op as [q now|q now|q|now]; simpl.
  1-3: unfold touches; rewrite ?Hnew; case_bool_decide; rewrite ?decide_True, ?decide_False by done;
    destruct (peers_ _ !! p) as [[[] ? ?]|]; simpl in *; subst; rewrite ?IH, ?Hsnoc; done.
  destruct (peers_ _ !! p) as [r|]; simpl; [|done]. by rewrite tick_peer_detector.
Qed.

(** The peer is suspected since [t]. *)
Definition suspect m p (t : Z) : Prop :=
  ∃ r, peers_ m !! p = Some r ∧ state r = Suspect ∧ suspect_since r = Some t.

(** It was alive, and the detector's level exceeds the threshold at [t]. *)
Definition crosses m p (t : Z) : Prop :=
  ∃ r, peers_ m !! p = Some r ∧ state r = Alive ∧
    SFltb (phi_threshold (config_ m)) (phi std_exp std_log10 (detector r) t) = true.

(** The operation leaves a suspicion raised at [t] as it is. *)
Definition quiet (config : MembershipConfig) p (t : Z) op : Prop :=
  touches p op = false ∧ ∀ now, op = Tick now → saturating_sub now t < suspect_timeout config.

Lemma step_suspect m op p t :
  suspect (step m op).2 p t ↔ (suspect m p t ∧ quiet (config_ m) p t op) ∨ (op = Tick t ∧ crosses m p t).
Proof.
  unfold suspect, quiet, crosses. rewrite step_lookup. destruct op as [q now|q now|q|now].
  1-3: simpl; (case_bool_decide as Hq;
    [destruct (peers_ m !! p) as [[[] ? ?]|]; naive_solver|split; [intros Hs; left; by split|intros [[Hs _]|[? _]]; done]]).
  destruct (peers_ m !! p) as [[s d since]|]; simpl; [|naive_solver].
  unfold Membership.tick_peer. simpl. destruct s; simpl.
  - destruct (SFltb _ _) eqn:E; simpl; split.
    + intros (? & [= <-] & _ & [= <-]). right. eauto.
    + intros [[(? & [= <-] & ? & _) _]|([= <-] & _)]; [done|]. by eexists.
    + by intros (? & [= <-] & ? & _).
    + intros [[(? & [= <-] & ? & _) _]|([= <-] & ? & [= <-] & _ & Hp)]; [done|]. simpl in Hp. by rewrite E in Hp.
  - destruct since as [since|]; [|naive_solver]. destruct (_ <=? _) eqn:E; simpl; zify_bools.
    + split; [by intros (? & [= <-] & ? & _)|]. intros [[(? & [= <-] & _ & [= <-]) [_ Hq]]|(_ & ? & [= <-] & ? & _)]; [|done].
      specialize (Hq now eq_refl). lia.
    + split; [|naive_solver]. intros (? & [= <-] & _ & [= <-]). left. split; [eauto|]. split; [done|].
      by intros ? [= <-].
  - naive_solver.
  - naive_solver.
Qed.

(** When a suspicion that stands was raised. *)
Definition suspected_at (config : MembershipConfig) (ops : list (MembershipOp P)) p (t : Z) : Prop :=
  ∃ j, ops !! j = Some (Tick t) ∧ crosses (run config (take j ops)).2 p t ∧
    ∀ k op, (j < k)%nat → ops !! k = Some op → quiet config p t op.

Lemma run_suspect config ops p t : suspect (run config ops).2 p t ↔ suspected_at config ops p t.
Proof.
  induction ops as [|op ops IH] using rev_ind; [split; [by intros (? & ? & _)|by intros (? & ? & _)]|].
  rewrite core_run_snoc. cbn [snd]. rewrite step_suspect, IH, run_config. split.
  - intros [[(j & Hj & Hc & Hq) Hop]|[-> Hc]].
    + pose proof (lookup_lt_Some _ _ _ Hj). exists j. rewrite take_app_le by lia.
      split_and!; [by apply lookup_app_l_Some|done|]. intros k op' Hk [Hl|[_ Hl]]%lookup_app_Some; [by eapply Hq|].
      by apply list_lookup_singleton_Some in Hl as [_ <-].
    + exists (length ops). rewrite take_app_length. split_and!; [by apply list_lookup_middle|done|].
      intros k op' Hk Hl%lookup_lt_Some. rewrite length_app in Hl. simpl in Hl. lia.
  - intros (j & [Hj|[Hlen Hj]]%lookup_app_Some & Hc & Hq).
    + pose proof (lookup_lt_Some _ _ _ Hj). rewrite take_app_le in Hc by lia. left. split.
      * exists j. split_and!; [done|done|]. intros k op' Hk Hl. eapply Hq; [done|by apply lookup_app_l_Some].
      * eapply (Hq (length ops)); [lia|by apply list_lookup_middle].
    + apply list_lookup_singleton_Some in Hj as [Hj ->]. right. replace j with (length ops) in Hc by lia.
      by rewrite take_app_length in Hc.
Qed.

(** C27: Failure detection, from the history.  The [i]-th operation suspects a peer
    if and only if it is a tick, the peer was alive, and the phi level of the
    heartbeats received since it last joined exceeds the threshold; it declares
    the peer dead if and only if it is a tick at least the timeout after the
    tick that raised a suspicion, where in between no heartbeat, join or
    departure of the peer was seen and no earlier tick had reached the timeout. *)
Theorem failures_are_detected (config : MembershipConfig) (ops : list (MembershipOp P)) (i : nat) (p : P) :
  let happens e := ∃ es, (run config ops).1 !! i = Some es ∧ e ∈ es in
  (happens (StateChanged p Alive Suspect) ↔
    ∃ now, ops !! i = Some (Tick now) ∧ peer_state (run config (take i ops)).2 p = Some Alive ∧
      SFltb (phi_threshold config) (phi std_exp std_log10 (detector_of config (arrivals p (take i ops))) now) = true) ∧
  (happens (StateChanged p Suspect Dead) ↔
    ∃ now t, ops !! i = Some (Tick now) ∧ suspected_at config (take i ops) p t ∧
      suspect_timeout config ≤ saturating_sub now t).
Proof.
  intros happens. assert (Hh : ∀ a b, b = Suspect ∨ b = Dead → happens (StateChanged p a b) ↔
    ∃ now r, ops !! i = Some (Tick now) ∧ peers_ (run config (take i ops)).2 !! p = Some r ∧
      StateChanged p a b ∈ (tick_peer config now p r).1).
  { intros a b Hb. unfold happens. setoid_rewrite core_run_lookup. split.
    - intros (es & (op & Hi & ->) & He). apply step_escalates in He as (now & r & -> & Hr & He); [|done].
      rewrite run_config in He. eauto.
    - intros (now & r & Hi & Hr & He). eexists. split; [by eexists|]. apply step_escalates; [done|].
      rewrite run_config. eauto 6. }
  split; rewrite Hh by auto; clear Hh happens.
  - pose proof (run_detector config (take i ops) p) as Hd. unfold peer_state. split.
    + intros (now & r & Hi & Hr & He). rewrite Hr in Hd |- *. exists now. rewrite <- Hd.
      revert He. unfold Membership.tick_peer. destruct (state r) eqn:E; repeat case_match; simpl;
        rewrite ?list_elem_of_singleton; intros He; try (by inversion He). by rewrite E.
    + intros (now & Hi & Hs & Hp). destruct (peers_ _ !! p) as [r|] eqn:Hr; [|done]. simpl in Hs.
      injection Hs as Hs. exists now, r. split_and!; [done|done|]. unfold Membership.tick_peer. rewrite Hs, Hd, Hp. by apply list_elem_of_singleton.
  - setoid_rewrite <- run_suspect. split.
    + intros (now & r & Hi & Hr & He). unfold Membership.tick_peer in He.
      destruct (state r) eqn:E, (suspect_since r) as [t|] eqn:Et; repeat case_match; simpl in *; zify_bools;
        rewrite ?list_elem_of_singleton in He; try by inversion He.
      exists now, t. split_and!; [done|by exists r|done].
    + intros (now & t & Hi & (r & Hr & Hs & Ht) & Hle). exists now, r. split_and!; [done|done|].
      unfold Membership.tick_peer. rewrite Hs, Ht. apply Z.leb_le in Hle as ->. by apply list_elem_of_singleton.
Qed.

(** The cell answers as its core and its source reads the live peers. *)
Lemma membership_cell_mirrors {C Hd : Type} `{!SourceContext C Hd (gset P), !SourceContextLaws C Hd (gset P)}
    (config : MembershipConfig) (ops : list (MembershipOp P)) (c : C) :
  ctx_ok c →
  cell_mirrors step c (membership_cell_new config c) (membership_cell_step le std_exp std_log10)
    (membership_new config) ops (λ _, alive_set le).
Proof. intros Hc. apply (refreshed_view step (alive_set le)); [done|done|]. by intros cell [] c'. Qed.

End membership_correct.

(** With a level that is 0 or infinite: heartbeats at 0 and 10, suspected at 40,
    dead at 45. *)
Lemma membership_example :
  let config := mkConfig (to_double 8) 5 100 (to_double 1) in
  let std_exp (y : double) := if SFltb y dzero then dzero else done_ in
  let std_log10 (y : double) := if SFltb dzero y then dzero else S754_infinity true in
  (core_run (membership_step Z.le std_exp std_log10) (membership_new config)
    [Join 1 0; Heartbeat 1 10; Join 2 0; Tick 12; Tick 40; Tick 44; Tick 45; Heartbeat 1 46; Leave 2]).1 =
  [[Joined 1]; []; [Joined 2]; []; [StateChanged 1 Alive Suspect]; []; [StateChanged 1 Suspect Dead];
   [StateChanged 1 Dead Alive]; [Departed 2]].
Proof. vm_compute. reflexivity. Qed.
