(* ===== verification/Presence.v ===== *)
(** * Presence: values that expire

    Models include/lazily/presence.hpp: the value and the keyed map that forget
    what was not refreshed within its time to live, and the cells over them,
    which publish their view after every operation (Reactive's refresh
    pattern).  The compile-time markers of the planes carry no behaviour. *)
From S2P Require Import Prelude Kernel KernelCorrect Reactive.
#[local] Open Scope Z_scope.

(** ** A single value *)
Section single.
  Context {T : Type}.

(* include/lazily/presence.hpp:96-97, EphemeralCore (data members) *)
Record EphemeralCore := mkEphemeral { e_value : option T; e_expiry : Z }.
(* include/lazily/presence.hpp:80-80, EphemeralCore::EphemeralCore *)
Definition ephemeral_new : EphemeralCore := mkEphemeral None 0.
(* include/lazily/presence.hpp:83-86, EphemeralCore::set *)
Definition ephemeral_set (value : T) (now ttl : Z) (s : EphemeralCore) : EphemeralCore := mkEphemeral (Some value) (u64 (now + ttl)).
(* include/lazily/presence.hpp:89-91, EphemeralCore::tick *)
Definition ephemeral_tick (now : Z) (s : EphemeralCore) : EphemeralCore :=
  match e_value s with
  | Some _ => if e_expiry s <=? now then mkEphemeral None (e_expiry s) else s
  | None => s
  end.

Inductive eph_op := ESet (value : T) (now ttl : Z) | ETick (now : Z).
Definition eph_step (s : EphemeralCore) (o : eph_op) : () * EphemeralCore :=
  match o with ESet v now ttl => ((), ephemeral_set v now ttl s) | ETick now => ((), ephemeral_tick now s) end.

Section cell.
  Context {C H : Type} `{!SourceContext C H (option T)}.
  Notation Cell := (Mirrored (H:=H) (S:=EphemeralCore)).

(* include/lazily/presence.hpp:105-105, EphemeralCell::EphemeralCell *)
Definition ephemeral_cell_new (c : C) : option (Cell * C) :=
  '(h, c) ← ctx_source None c; Some (mkMirrored ephemeral_new h, c).
(* include/lazily/presence.hpp:122-122, EphemeralCell::refresh *)
Definition ephemeral_refresh (cell : Cell) (c : C) : option C := ctx_set (mcell_ cell) (e_value (mcore_ cell)) c.
(* include/lazily/presence.hpp:107-110, EphemeralCell::set *)
Definition ephemeral_cell_set (value : T) (now ttl : Z) (cell : Cell) (c : C) : option (Cell * C) :=
  let cell := mkMirrored (ephemeral_set value now ttl (mcore_ cell)) (mcell_ cell) in
  c ← ephemeral_refresh cell c; Some (cell, c).
(* include/lazily/presence.hpp:112-115, EphemeralCell::tick *)
Definition ephemeral_cell_tick (now : Z) (cell : Cell) (c : C) : option (Cell * C) :=
  let cell := mkMirrored (ephemeral_tick now (mcore_ cell)) (mcell_ cell) in
  c ← ephemeral_refresh cell c; Some (cell, c).
(* include/lazily/presence.hpp:117-117, EphemeralCell::value *)
Definition ephemeral_cell_value (cell : Cell) (c : C) : option (option T) := ctx_get (mcell_ cell) c.

Definition ephemeral_cell_step (cell : Cell) (o : eph_op) (c : C) : option (() * Cell * C) :=
  '(cell, c) ← match o with
    | ESet v now ttl => ephemeral_cell_set v now ttl cell c
    | ETick now => ephemeral_cell_tick now cell c
    end; Some ((), cell, c).

Context `{!SourceContextLaws C H (option T)}.

(** The cell shows its core's value. *)
Lemma ephemeral_cell_mirrors ops c : ctx_ok c →
  cell_mirrors eph_step c (ephemeral_cell_new c) ephemeral_cell_step ephemeral_new ops (λ _, e_value).
Proof.
  intros Hc. apply refreshed_view; [done|done|]. intros [s h] [v now ttl|now] c'; unfold ephemeral_cell_step; simpl;
    unfold ephemeral_cell_set, ephemeral_cell_tick, ephemeral_refresh, refreshed_step; simpl; by destruct (ctx_set _ _ c').
Qed.

End cell.
End single.

(** ** A map of values *)
Section keyed.
  Context {K V : Type} `{CK : Countable K}.

(* include/lazily/presence.hpp:176-176, EphemeralMapCore (data members) *)
Definition EphemeralMapCore : Type := gmap K (V * Z).
(* include/lazily/presence.hpp:142-144, EphemeralMapCore::set *)
Definition map_set (key : K) (value : V) (now ttl : Z) (m : gmap K (V * Z)) : gmap K (V * Z) := <[key := (value, u64 (now + ttl))]> m.
(* include/lazily/presence.hpp:147-147, EphemeralMapCore::evict *)
Definition map_evict (key : K) (m : gmap K (V * Z)) : gmap K (V * Z) := delete key m.
(* include/lazily/presence.hpp:150-157, EphemeralMapCore::tick *)
Definition map_tick (now : Z) (m : gmap K (V * Z)) : gmap K (V * Z) := filter (λ e, now < e.2.2) m.
(* include/lazily/presence.hpp:160-164, EphemeralMapCore::get *)
Definition map_get (key : K) (now : Z) (m : gmap K (V * Z)) : option V :=
  match m !! key with Some (v, e) => if e <=? now then None else Some v | None => None end.
(* include/lazily/presence.hpp:167-173, EphemeralMapCore::present *)
Definition map_present (now : Z) (m : gmap K (V * Z)) : gmap K V := fst <$> filter (λ e, now < e.2.2) m.

Inductive presence_op := Heartbeat (peer : K) (value : V) (now : Z) | Evict (peer : K) (now : Z) | PTick (now : Z).
Definition op_time (o : presence_op) : Z := match o with Heartbeat _ _ now | Evict _ now | PTick now => now end.

Section presence.
  Context {C H : Type} `{!SourceContext C H (gmap K V)}.

(** The core with the time to live, and the source. *)
(* include/lazily/presence.hpp:210-212, PresenceCell (data members) *)
Record PresenceCell := mkPresence { p_core : gmap K (V * Z); p_ttl : Z }.
Notation Cell := (Mirrored (H:=H) (S:=PresenceCell)).

(* include/lazily/presence.hpp:184-184, PresenceCell::PresenceCell *)
Definition presence_new (ttl : Z) (c : C) : option (Cell * C) :=
  '(h, c) ← ctx_source ∅ c; Some (mkMirrored (mkPresence ∅ ttl) h, c).
(* include/lazily/presence.hpp:208-208, PresenceCell::refresh *)
Definition presence_refresh (now : Z) (cell : Cell) (c : C) : option C :=
  ctx_set (mcell_ cell) (map_present now (p_core (mcore_ cell))) c.
Definition with_core (f : gmap K (V * Z) → gmap K (V * Z)) (p : PresenceCell) : PresenceCell := mkPresence (f (p_core p)) (p_ttl p).
(* include/lazily/presence.hpp:187-190, PresenceCell::heartbeat *)
Definition presence_heartbeat (peer : K) (value : V) (now : Z) (cell : Cell) (c : C) : option (Cell * C) :=
  let cell := mkMirrored (with_core (map_set peer value now (p_ttl (mcore_ cell))) (mcore_ cell)) (mcell_ cell) in
  c ← presence_refresh now cell c; Some (cell, c).
(* include/lazily/presence.hpp:193-196, PresenceCell::evict *)
Definition presence_evict (peer : K) (now : Z) (cell : Cell) (c : C) : option (Cell * C) :=
  let cell := mkMirrored (with_core (map_evict peer) (mcore_ cell)) (mcell_ cell) in
  c ← presence_refresh now cell c; Some (cell, c).
(* include/lazily/presence.hpp:198-201, PresenceCell::tick *)
Definition presence_tick (now : Z) (cell : Cell) (c : C) : option (Cell * C) :=
  let cell := mkMirrored (with_core (map_tick now) (mcore_ cell)) (mcell_ cell) in
  c ← presence_refresh now cell c; Some (cell, c).
(* include/lazily/presence.hpp:203-203, PresenceCell::present *)
Definition presence_present (cell : Cell) (c : C) : option (gmap K V) := ctx_get (mcell_ cell) c.

Definition presence_cell_step (cell : Cell) (o : presence_op) (c : C) : option (() * Cell * C) :=
  '(cell, c) ← match o with
    | Heartbeat peer v now => presence_heartbeat peer v now cell c
    | Evict peer now => presence_evict peer now cell c
    | PTick now => presence_tick now cell c
    end; Some ((), cell, c).

Definition presence_step (p : PresenceCell) (o : presence_op) : () * PresenceCell :=
  match o with
  | Heartbeat peer v now => ((), with_core (map_set peer v now (p_ttl p)) p)
  | Evict peer now => ((), with_core (map_evict peer) p)
  | PTick now => ((), with_core (map_tick now) p)
  end.

(** An awareness cell is the same over its own [set]; nothing evicts. *)
(* include/lazily/presence.hpp:221-221, AwarenessCell::AwarenessCell *)
Definition awareness_new : Z → C → option (Cell * C) := presence_new.
(* include/lazily/presence.hpp:224-227, AwarenessCell::set *)
Definition awareness_set : K → V → Z → Cell → C → option (Cell * C) := presence_heartbeat.
(* include/lazily/presence.hpp:229-232, AwarenessCell::tick *)
Definition awareness_tick : Z → Cell → C → option (Cell * C) := presence_tick.
(* include/lazily/presence.hpp:234-234, AwarenessCell::get *)
Definition awareness_get (peer : K) (now : Z) (cell : Cell) : option V := map_get peer now (p_core (mcore_ cell)).

(** ** What is shown *)

(** The operation leaves a peer's value with this expiry alone. *)
Definition spares (k : K) (expiry : Z) (o : presence_op) : Prop :=
  match o with
  | Heartbeat peer _ _ | Evict peer _ => peer ≠ k
  | PTick now => now < expiry
  end.

(** The peer's last heartbeat carried this value, and nothing removed it since. *)
Definition kept (ttl : Z) (ops : list presence_op) (k : K) (v : V) (expiry : Z) : Prop :=
  ∃ i t, ops !! i = Some (Heartbeat k v t) ∧ expiry = u64 (t + ttl) ∧
    ∀ j o, (i < j)%nat → ops !! j = Some o → spares k expiry o.

Lemma kept_nil ttl k v e : ¬ kept ttl [] k v e.
Proof. intros (i & t & Hi & _). by rewrite lookup_nil in Hi. Qed.

Lemma kept_snoc ttl ops o k v e :
  kept ttl (ops ++ [o]) k v e ↔
  (∃ t, o = Heartbeat k v t ∧ e = u64 (t + ttl)) ∨ (spares k e o ∧ kept ttl ops k v e).
Proof.
  split.
  - intros (i & t & Hi & He & Hj). apply lookup_app_Some in Hi as [Hi|[Hlen Hi]].
    + right. split.
      * apply (Hj (length ops)); [by apply lookup_lt_Some in Hi|]. by rewrite list_lookup_middle.
      * exists i, t. split_and!; [done|done|]. intros j o' Hij Ho. apply (Hj j); [done|]. by apply lookup_app_l_Some.
    + left. exists t. apply list_lookup_singleton_Some in Hi as [_ ->]. done.
  - intros [(t & -> & He)|[Hs (i & t & Hi & He & Hj)]].
    + exists (length ops), t. split_and!; [by rewrite list_lookup_middle|done|]. intros j o Hl Hj.
      apply lookup_lt_Some in Hj. rewrite length_app in Hj. simpl in Hj. lia.
    + exists i, t. split_and!; [by apply lookup_app_l_Some|done|]. intros j o' Hij Ho.
      apply lookup_app_Some in Ho as [Ho|[Hlen Ho]]; [by apply (Hj j)|]. apply list_lookup_singleton_Some in Ho as [_ <-]. done.
Qed.

Lemma presence_kept ttl ops k v e :
  p_core (core_run presence_step (mkPresence ∅ ttl) ops).2 !! k = Some (v, e) ↔ kept ttl ops k v e.
Proof.
  revert k v e. induction ops as [|o ops IH] using rev_ind; intros k v e.
  { split; [|by intros ?%kept_nil]. intros E. change (core_run presence_step (mkPresence ∅ ttl) []).2 with (mkPresence ∅ ttl) in E.
    cbn [p_core] in E. by rewrite lookup_empty in E. }
  assert (Httl : ∀ ops s, p_ttl (core_run presence_step s ops).2 = p_ttl s).
  { clear. induction ops as [|o ops IH]; intros s; simpl; [done|]. specialize (IH (presence_step s o).2).
    destruct (presence_step s o) as [u s'] eqn:E, (core_run presence_step s' ops) eqn:E'. simpl in *. rewrite E' in IH. simpl in IH.
    rewrite IH. by destruct o; injection E as <- <-. }
  rewrite core_run_snoc, kept_snoc. simpl. specialize (Httl ops (mkPresence ∅ ttl)).
  destruct (core_run presence_step (mkPresence ∅ ttl) ops) as [os s]. simpl in *.
  destruct o as [peer v' now|peer now|now]; simpl.
  - unfold map_set. rewrite Httl. destruct (decide (peer = k)) as [->|Hne].
    + rewrite lookup_insert_eq. split; [intros [= <- <-]; left; by exists now|]. intros [(t & [= <- <-] & ->)|[Hn _]]; [done|by destruct Hn].
    + rewrite lookup_insert_ne by done. rewrite IH. split; [by right|]. intros [(t & [= ? ? ?] & _)|[_ ?]]; [done|done].
  - unfold map_evict. destruct (decide (peer = k)) as [->|Hne].
    + rewrite lookup_delete_eq. split; [done|]. intros [(t & ? & _)|[Hn _]]; [done|by destruct Hn].
    + rewrite lookup_delete_ne by done. rewrite IH. split; [by right|]. by intros [(t & ? & _)|[_ ?]].
  - unfold map_tick. rewrite map_lookup_filter_Some, IH. simpl. split; [intros [? ?]; by right|]. by intros [(t & ? & _)|[? ?]].
Qed.

Context `{!SourceContextLaws C H (gmap K V)}.

Lemma presence_mirrors ttl ops c : ctx_ok c →
  cell_mirrors presence_step c (presence_new ttl c) presence_cell_step (mkPresence ∅ ttl) ops
    (last_view (λ o _ p, map_present (op_time o) (p_core p)) ∅ ops).
Proof.
  intros Hc. apply refreshed_mirrors_core; [done..|]. intros [s h] [peer v now|peer now|now] c'; unfold presence_cell_step; simpl;
    unfold presence_heartbeat, presence_evict, presence_tick, presence_refresh, refreshed_step; simpl; by destruct (ctx_set _ _ c').
Qed.

End presence.
End keyed.

(** Presence shows exactly the live peers.  Over any implementation of the
    context's sources, after heartbeats, evictions and ticks in any order and
    at any times, also with clocks that go back, the source of the cell holds a
    peer's value exactly when its last heartbeat carried that value, it was not
    evicted since, no tick since reached the expiry of that heartbeat, and the
    last operation is before it. *)
Theorem presence_shows_live_peers {K V C H : Type} `{CK : Countable K} `{!SourceContext C H (gmap K V), !SourceContextLaws C H (gmap K V)}
    (ttl now : Z) (ops : list (presence_op (K:=K) (V:=V))) (c : C) :
  ctx_ok c → last (op_time <$> ops) = Some now →
  ∃ cell c1 os cell' c2 m, presence_new ttl c = Some (cell, c1) ∧
    drive presence_cell_step cell ops c1 = Some (os, cell', c2) ∧
    presence_present cell' c2 = Some m ∧
    ∀ k v, m !! k = Some v ↔ ∃ expiry, kept ttl ops k v expiry ∧ now < expiry.
Proof.
  intros Hc Hnow. destruct (presence_mirrors ttl ops c Hc) as (h & c1 & c2 & E1 & E2 & Hg & _).
  set (run := core_run presence_step (mkPresence ∅ ttl) ops) in *.
  exists (mkMirrored (mkPresence ∅ ttl) h), c1, run.1, (mkMirrored run.2 h), c2, (map_present now (p_core run.2)).
  split_and!; [done|done| |].
  - unfold presence_present. simpl. rewrite Hg. f_equal. unfold last_view. rewrite fmap_last in Hnow.
    pose proof (length_core_run presence_step (mkPresence ∅ ttl) ops) as Hlen. fold run in Hlen.
    destruct (last ops) as [o|] eqn:El; [|done]. simpl in Hnow. injection Hnow as <-.
    destruct (last run.1) as [u|] eqn:Er; [done|]. apply last_None in Er. rewrite Er in Hlen. by destruct ops.
  - intros k v. unfold map_present. rewrite lookup_fmap, fmap_Some. setoid_rewrite <- presence_kept. fold run. split.
    + intros ([v' e] & Hl & ->). apply map_lookup_filter_Some in Hl as [Hl Hlt]. by exists e.
    + intros (e & Hl & Hlt). exists (v, e). split; [|done]. by apply map_lookup_filter_Some.
Qed.

Lemma presence_shows_live_peers_witness :
  let c : Ctx (gmap nat nat) := empty_ctx in
  ∃ cell c1 os cell' c2 m, presence_new 5 c = Some (cell, c1) ∧
    drive presence_cell_step cell [Heartbeat 1%nat 10%nat 0; Heartbeat 2%nat 20%nat 3; PTick 6; Heartbeat 2%nat 21%nat 7] c1 = Some (os, cell', c2) ∧
    presence_present cell' c2 = Some m ∧
    ∀ k v, m !! k = Some v ↔ ∃ expiry, kept 5 [Heartbeat 1%nat 10%nat 0; Heartbeat 2%nat 20%nat 3; PTick 6; Heartbeat 2%nat 21%nat 7] k v expiry ∧ 7 < expiry.
Proof.
  exact (presence_shows_live_peers 5 7 [Heartbeat 1%nat 10%nat 0; Heartbeat 2%nat 20%nat 3; PTick 6; Heartbeat 2%nat 21%nat 7]
    empty_ctx (empty_ctx_ok (T:=gmap nat nat)) eq_refl).
Defined.

(** A time to live meant as for ever wraps around the clock: the value is never
    shown. *)
Example longest_ttl_expires_at_once :
  map_present 1 (map_set 7%nat true 1 u64_max ∅) = ∅ ∧ map_present 1 (map_set 7%nat true 0 u64_max ∅) = {[ 7%nat := true ]}.
Proof. split; vm_compute; reflexivity. Qed.
