(* ===== verification/Queue.v ===== *)
(** * Queues: storage backends and the reactive queue

    Models include/lazily/queue.hpp up to QueueCell: the contract of a storage
    backend as a type class with its laws, the deque backend that implements
    it, and the reactive shell with its memoised readers.  A reader is a
    computed slot of the context over state the context does not know: what the
    queue sees of it is its cached value, which [clear] drops.  The mutex is
    held for the whole of every access to the storage and is left out. *)
From S2P Require Import Prelude.

(** ** Memoised readers *)
Section reader.
  Context {A : Type}.

(** A read answers the cached value, or computes and caches it. *)
Definition reader_get (cache : option A) (compute : A) : A * option A :=
  match cache with Some v => (v, cache) | None => (compute, Some compute) end.

(** A reader that answers as if it were not memoised. *)
Definition fresh (cache : option A) (now : A) : Prop := match cache with Some v => v = now | None => True end.

Lemma reader_get_fresh cache now : fresh cache now →
  (reader_get cache now).1 = now ∧ fresh (reader_get cache now).2 now.
Proof. by destruct cache. Qed.

(** The cached value survives when it is kept or was not cleared in vain. *)
Lemma fresh_keep (b : bool) cache v w : fresh cache v → (b = false → v = w) → fresh (if b then None else cache) w.
Proof. destruct b, cache; simpl; [done..| |done]. intros -> Hw. auto. Qed.

End reader.
#[export] Hint Resolve fresh_keep : lazily.

(** What a call comes to: a value, a C++ exception, or undefined behaviour. *)
Inductive exn := InvalidArgument | LogicError | OutOfRange | OverflowError.
Inductive outcome (A : Type) := Ok (a : A) | Throws (e : exn) | Undefined.
Arguments Ok {A} a.
Arguments Throws {A} e.
Arguments Undefined {A}.

(** ** The storage contract *)

(* include/lazily/queue.hpp:74-78, PushResult *)
Inductive PushResult := PushOk | Full | PushClosed.
#[export] Instance PushResult_eq_dec : EqDecision PushResult.
Proof. solve_decision. Defined.

(* include/lazily/queue.hpp:80-92, PopResult *)
Inductive PopResult (T : Type) := Value (v : T) | Empty | PopClosed.
Arguments Value {T} v.
Arguments Empty {T}.
Arguments PopClosed {T}.

(** The five required members of a backend and its three optional ones, which
    the shell detects at compile time. *)
(* include/lazily/queue.hpp:28-40, has_head, has_capacity, has_is_full *)
Class QueueStorage (S T : Type) := {
  try_push : S → T → PushResult * S;
  try_pop : S → PopResult T * S;
  storage_len : S → nat;
  storage_is_closed : S → bool;
  storage_close : S → S;
  storage_head : option (S → option T);
  storage_capacity : option (S → option nat);
  storage_is_full : option (S → bool);
}.

(** The bound of a storage, and its answer to [is_full], where it has them. *)
Definition bound {S T : Type} `{QueueStorage S T} (s : S) : option nat := storage_capacity ≫= λ f, f s.
Definition at_bound (bound : option nat) (len : nat) : bool :=
  match bound with Some k => k <=? len | None => false end.

(** What the shell relies on: a storage is a list of elements, a bound that
    does not change and a closed flag. *)
Class QueueStorageLaws (S T : Type) `{QueueStorage S T} := {
  elements : S → list T;
  storage_len_ok s : storage_len s = length (elements s);
  storage_head_ok f s : storage_head = Some f → f s = head (elements s);
  storage_full_ok f s : storage_is_full = Some f → f s = at_bound (bound s) (length (elements s));
  try_push_ok s v : match try_push s v with
    | (PushOk, s') => storage_is_closed s = false ∧ at_bound (bound s) (length (elements s)) = false ∧
        elements s' = elements s ++ [v] ∧ bound s' = bound s ∧ storage_is_closed s' = false
    | (Full, s') => storage_is_closed s = false ∧ at_bound (bound s) (length (elements s)) = true ∧
        elements s' = elements s ∧ bound s' = bound s ∧ storage_is_closed s' = storage_is_closed s
    | (PushClosed, s') => storage_is_closed s = true ∧
        elements s' = elements s ∧ bound s' = bound s ∧ storage_is_closed s' = storage_is_closed s
    end;
  try_pop_ok s : bound (try_pop s).2 = bound s ∧ storage_is_closed (try_pop s).2 = storage_is_closed s ∧
    match elements s with
    | v :: rest => (try_pop s).1 = Value v ∧ elements (try_pop s).2 = rest
    | [] => (try_pop s).1 = (if storage_is_closed s then PopClosed else Empty) ∧ elements (try_pop s).2 = []
    end;
  storage_close_ok s : elements (storage_close s) = elements s ∧ bound (storage_close s) = bound s ∧
    storage_is_closed (storage_close s) = true;
}.

(** ** The deque backend *)
Section deque.
  Context {T : Type}.

(* include/lazily/queue.hpp:150-152, VecDequeStorage (data members) *)
Record VecDequeStorage := mkDeque { elements_ : list T; capacity_ : option nat; closed_ : bool }.

(* include/lazily/queue.hpp:118-119, VecDequeStorage::VecDequeStorage *)
Definition deque_new (capacity : option nat) : VecDequeStorage := mkDeque [] capacity false.

(* include/lazily/queue.hpp:121-126, VecDequeStorage::try_push *)
Definition deque_try_push (s : VecDequeStorage) (v : T) : PushResult * VecDequeStorage :=
  if closed_ s then (PushClosed, s)
  else if match capacity_ s with Some k => k <=? length (elements_ s) | None => false end then (Full, s)
  else (PushOk, mkDeque (elements_ s ++ [v]) (capacity_ s) (closed_ s)).

(* include/lazily/queue.hpp:128-133, VecDequeStorage::try_pop *)
Definition deque_try_pop (s : VecDequeStorage) : PopResult T * VecDequeStorage :=
  match elements_ s with
  | [] => (if closed_ s then PopClosed else Empty, s)
  | v :: rest => (Value v, mkDeque rest (capacity_ s) (closed_ s))
  end.

(* include/lazily/queue.hpp:135-138, VecDequeStorage::head *)
Definition deque_head (s : VecDequeStorage) : option T := head (elements_ s).

(* include/lazily/queue.hpp:143-143, VecDequeStorage::is_full *)
Definition deque_is_full (s : VecDequeStorage) : bool :=
  match capacity_ s with Some k => k <=? length (elements_ s) | None => false end.

(* include/lazily/queue.hpp:147-147, VecDequeStorage::close *)
Definition deque_close (s : VecDequeStorage) : VecDequeStorage := mkDeque (elements_ s) (capacity_ s) true.

#[export] Instance deque_storage : QueueStorage VecDequeStorage T := {
  try_push := deque_try_push;
  try_pop := deque_try_pop;
  storage_len s := length (elements_ s);
  storage_is_closed := closed_;
  storage_close := deque_close;
  storage_head := Some deque_head;
  storage_capacity := Some capacity_;
  storage_is_full := Some deque_is_full;
}.

#[export, refine] Instance deque_storage_laws : QueueStorageLaws VecDequeStorage T := { elements := elements_ }.
Proof.
  all: try done.
  - by intros f s [= <-].
  - by intros f s [= <-].
  - intros [es cap cl] v. simpl. unfold deque_try_push, at_bound, bound. simpl. destruct cl; simpl; [done|].
    destruct cap as [k|]; simpl; [|done]. by destruct (k <=? length es) eqn:E.
  - intros [es cap cl]. simpl. unfold deque_try_pop. by destruct es.
Defined.

End deque.
Arguments VecDequeStorage T : clear implicits.

(** ** The reactive queue *)
Section queue_cell.
  Context {S T : Type} `{QueueStorage S T}.

(* include/lazily/queue.hpp:189-202, QueueCellInner *)
Record QueueCell := mkQueueCell {
  storage : S; q_capacity : option nat;
  head_reader : option (option T); len_reader : option nat;
  empty_reader : option bool; full_reader : option bool;
  closed_source : bool;
}.

(* include/lazily/queue.hpp:209-235, BasicQueueCell::BasicQueueCell *)
Definition queue_new (s : S) : QueueCell :=
  mkQueueCell s (bound s) None None None None (storage_is_closed s).

(** What the four readers compute. *)
Definition head_now (s : S) : option T := match storage_head with Some f => f s | None => None end.
Definition full_now (s : S) : bool := match storage_is_full with Some f => f s | None => false end.

(* include/lazily/queue.hpp:338-349, BasicQueueCell::invalidate_readers *)
Definition invalidate_readers (q : QueueCell) (len_before len_after : nat) (head_changed : bool) : QueueCell :=
  let empty_changed := negb (bool_decide ((len_before = 0) ↔ (len_after = 0))) in
  let full_changed :=
    match q_capacity q with
    | Some k => negb (Bool.eqb (k <=? len_before) (k <=? len_after))
    | None => false
    end in
  mkQueueCell (storage q) (q_capacity q)
    (if head_changed then None else head_reader q)
    None
    (if empty_changed then None else empty_reader q)
    (if full_changed then None else full_reader q)
    (closed_source q).

Definition with_storage (q : QueueCell) (s : S) : QueueCell :=
  mkQueueCell s (q_capacity q) (head_reader q) (len_reader q) (empty_reader q) (full_reader q) (closed_source q).

(* include/lazily/queue.hpp:242-253, BasicQueueCell::try_push *)
Definition queue_try_push (q : QueueCell) (v : T) : PushResult * QueueCell :=
  let len_before := storage_len (storage q) in
  let '(result, s) := try_push (storage q) v in
  let q := with_storage q s in
  (result,
   if decide (result = PushOk) then invalidate_readers q len_before (len_before + 1) (len_before =? 0) else q).

(* include/lazily/queue.hpp:257-267, BasicQueueCell::try_pop *)
Definition queue_try_pop (q : QueueCell) : PopResult T * QueueCell :=
  let len_before := storage_len (storage q) in
  let '(result, s) := try_pop (storage q) in
  let q := with_storage q s in
  (result, match result with Value _ => invalidate_readers q len_before (len_before - 1) true | _ => q end).

(** [None] is a failed assertion. *)
(* include/lazily/queue.hpp:270-273, BasicQueueCell::push *)
Definition queue_push (q : QueueCell) (v : T) : option QueueCell :=
  let '(r, q) := queue_try_push q v in if decide (r = PushOk) then Some q else None.

(* include/lazily/queue.hpp:275-279, BasicQueueCell::pop *)
Definition queue_pop (q : QueueCell) : option T * QueueCell :=
  let '(r, q) := queue_try_pop q in (match r with Value v => Some v | _ => None end, q).

(* include/lazily/queue.hpp:283-292, BasicQueueCell::close *)
Definition queue_close (q : QueueCell) : QueueCell :=
  let was := storage_is_closed (storage q) in
  let s := storage_close (storage q) in
  let q := with_storage q s in
  if negb was && storage_is_closed s
  then mkQueueCell s (q_capacity q) (head_reader q) (len_reader q) (empty_reader q) (full_reader q) true
  else q.

(* include/lazily/queue.hpp:297-299, BasicQueueCell::head *)
Definition queue_head (q : QueueCell) : option T * QueueCell :=
  let '(v, r) := reader_get (head_reader q) (head_now (storage q)) in
  (v, mkQueueCell (storage q) (q_capacity q) r (len_reader q) (empty_reader q) (full_reader q) (closed_source q)).

(* include/lazily/queue.hpp:301-301, BasicQueueCell::len *)
Definition queue_len (q : QueueCell) : nat * QueueCell :=
  let '(v, r) := reader_get (len_reader q) (storage_len (storage q)) in
  (v, mkQueueCell (storage q) (q_capacity q) (head_reader q) r (empty_reader q) (full_reader q) (closed_source q)).

(* include/lazily/queue.hpp:303-305, BasicQueueCell::is_empty *)
Definition queue_is_empty (q : QueueCell) : bool * QueueCell :=
  let '(v, r) := reader_get (empty_reader q) (storage_len (storage q) =? 0) in
  (v, mkQueueCell (storage q) (q_capacity q) (head_reader q) (len_reader q) r (full_reader q) (closed_source q)).

(* include/lazily/queue.hpp:307-307, BasicQueueCell::is_full *)
Definition queue_is_full (q : QueueCell) : bool * QueueCell :=
  let '(v, r) := reader_get (full_reader q) (full_now (storage q)) in
  (v, mkQueueCell (storage q) (q_capacity q) (head_reader q) (len_reader q) (empty_reader q) r (closed_source q)).

(* include/lazily/queue.hpp:309-309, BasicQueueCell::closed *)
Definition queue_closed (q : QueueCell) : bool := closed_source q.

End queue_cell.
Arguments QueueCell S T : clear implicits.

(** The operations of a queue, and what they answer. *)
Inductive QueueOp (T : Type) := TryPush (v : T) | TryPop | Pop | Close | Head | Len | IsEmpty | IsFull | IsClosed.
Arguments TryPush {T} v.
Arguments TryPop {T}.
Arguments Pop {T}.
Arguments Close {T}.
Arguments Head {T}.
Arguments Len {T}.
Arguments IsEmpty {T}.
Arguments IsFull {T}.
Arguments IsClosed {T}.

Inductive QueueAnswer (T : Type) :=
  | APush (r : PushResult) | APop (r : PopResult T) | AElement (v : option T) | AClosed | ALen (n : nat) | ABool (b : bool).
Arguments APush {T} r.
Arguments APop {T} r.
Arguments AElement {T} v.
Arguments AClosed {T}.
Arguments ALen {T} n.
Arguments ABool {T} b.

Definition queue_step {S T : Type} `{QueueStorage S T} (q : QueueCell S T) (op : QueueOp T) : QueueAnswer T * QueueCell S T :=
  match op with
  | TryPush v => let '(r, q) := queue_try_push q v in (APush r, q)
  | TryPop => let '(r, q) := queue_try_pop q in (APop r, q)
  | Pop => let '(r, q) := queue_pop q in (AElement r, q)
  | Close => (AClosed, queue_close q)
  | Head => let '(r, q) := queue_head q in (AElement r, q)
  | Len => let '(r, q) := queue_len q in (ALen r, q)
  | IsEmpty => let '(r, q) := queue_is_empty q in (ABool r, q)
  | IsFull => let '(r, q) := queue_is_full q in (ABool r, q)
  | IsClosed => (ABool (queue_closed q), q)
  end.

(** ** The channel it promises to be

    A list, its bound, and a flag: no storage, no memoisation, no
    invalidation.  [has_head] and [has_full] are the capabilities of the
    backend. *)
Section channel.
  Context {T : Type} (has_head has_full : bool).

Record Channel := mkChannel { ch_elements : list T; ch_bound : option nat; ch_closed : bool }.

Definition channel_pop (c : Channel) : PopResult T * Channel :=
  match ch_elements c with
  | v :: rest => (Value v, mkChannel rest (ch_bound c) (ch_closed c))
  | [] => (if ch_closed c then PopClosed else Empty, c)
  end.

Definition channel_step (c : Channel) (op : QueueOp T) : QueueAnswer T * Channel :=
  match op with
  | TryPush v =>
      if ch_closed c then (APush PushClosed, c)
      else if at_bound (ch_bound c) (length (ch_elements c)) then (APush Full, c)
      else (APush PushOk, mkChannel (ch_elements c ++ [v]) (ch_bound c) (ch_closed c))
  | TryPop => (APop (channel_pop c).1, (channel_pop c).2)
  | Pop => (AElement (head (ch_elements c)), (channel_pop c).2)
  | Close => (AClosed, mkChannel (ch_elements c) (ch_bound c) true)
  | Head => (AElement (if has_head then head (ch_elements c) else None), c)
  | Len => (ALen (length (ch_elements c)), c)
  | IsEmpty => (ABool (bool_decide (ch_elements c = [])), c)
  | IsFull => (ABool (has_full && at_bound (ch_bound c) (length (ch_elements c))), c)
  | IsClosed => (ABool (ch_closed c), c)
  end.

End channel.
Arguments Channel T : clear implicits.

Section queue_correct.
  Context {S T : Type} `{QueueStorageLaws S T}.
  Implicit Types (q : QueueCell S T) (s : S).

Definition channel_of s : Channel T := mkChannel (elements s) (bound s) (storage_is_closed s).
Definition has_head_cap : bool := if storage_head (S:=S) (T:=T) is Some _ then true else false.
Definition has_full_cap : bool := if storage_is_full (S:=S) (T:=T) is Some _ then true else false.

(** Every reader answers as if it were recomputed. *)
Record coherent q : Prop := mkCoherent {
  coherent_capacity : q_capacity q = bound (storage q);
  coherent_head : fresh (head_reader q) (head_now (storage q));
  coherent_len : fresh (len_reader q) (storage_len (storage q));
  coherent_empty : fresh (empty_reader q) (storage_len (storage q) =? 0);
  coherent_full : fresh (full_reader q) (full_now (storage q));
  coherent_closed : closed_source q = storage_is_closed (storage q);
}.

Lemma head_now_eq s : head_now s = if has_head_cap then head (elements s) else None.
Proof. unfold head_now, has_head_cap. destruct storage_head eqn:E; [by apply storage_head_ok|done]. Qed.

Lemma full_now_eq s : full_now s = has_full_cap && at_bound (bound s) (length (elements s)).
Proof. unfold full_now, has_full_cap. destruct storage_is_full eqn:E; [by apply storage_full_ok|done]. Qed.

Lemma len_empty s : (storage_len s =? 0) = bool_decide (elements s = []).
Proof. rewrite storage_len_ok. by destruct (elements s). Qed.

(** Readers survive a change of the storage as the shell invalidates them. *)
Lemma invalidate_coherent q s (b : bool) : coherent q → bound s = bound (storage q) →
  storage_is_closed s = storage_is_closed (storage q) →
  (b = false → head (elements s) = head (elements (storage q))) →
  coherent (invalidate_readers (with_storage q s) (storage_len (storage q)) (storage_len s) b).
Proof.
  intros [Hq Hh Hl He Hf Hc] Hb Hcl Hhd. split; simpl; [congruence| |done| | |congruence].
  - eapply fresh_keep; [done|]. intros ->. by rewrite !head_now_eq, Hhd.
  - eapply fresh_keep; [done|]. case_bool_decide as Hiff; [|done]. intros _.
    destruct (storage_len (storage q)), (storage_len s); naive_solver lia.
  - rewrite Hq. eapply fresh_keep; [done|]. rewrite !full_now_eq, Hb, !storage_len_ok. unfold at_bound.
    destruct (bound (storage q)) as [k|]; [|done]. intros E%negb_false_iff%Bool.eqb_prop. by rewrite E.
Qed.

Lemma unchanged_coherent q s : coherent q → bound s = bound (storage q) → elements s = elements (storage q) →
  storage_is_closed s = storage_is_closed (storage q) → coherent (with_storage q s).
Proof.
  intros [Hq Hh Hl He Hf Hc] Hb Hel Hcl. split; simpl; rewrite ?head_now_eq, ?full_now_eq, ?storage_len_ok, ?Hb, ?Hel in *;
    try congruence; done.
Qed.

Lemma try_push_coherent q v : coherent q →
  coherent (queue_try_push q v).2 ∧
  (APush (queue_try_push q v).1, channel_of (storage (queue_try_push q v).2)) =
    channel_step has_head_cap has_full_cap (channel_of (storage q)) (TryPush v).
Proof.
  intros Hq. unfold queue_try_push. pose proof (try_push_ok (storage q) v) as Hp. simpl.
  destruct (try_push (storage q) v) as [[] s]; simpl.
  - destruct Hp as (Hcl & Hfull & Hel & Hb & Hcl'). rewrite Hcl, Hfull. split.
    + replace (storage_len (storage q) + 1) with (storage_len s) by (rewrite !storage_len_ok, Hel, length_app; simpl; lia).
      apply invalidate_coherent; [done|done|congruence|]. rewrite storage_len_ok, Hel. by destruct (elements (storage q)).
    + unfold channel_of. simpl. congruence.
  - destruct Hp as (Hcl & Hfull & Hel & Hb & Hcl'). rewrite Hcl, Hfull. split; [by apply unchanged_coherent|].
    unfold channel_of. simpl. congruence.
  - destruct Hp as (Hcl & Hel & Hb & Hcl'). rewrite Hcl. split; [by apply unchanged_coherent|].
    unfold channel_of. simpl. congruence.
Qed.

Lemma try_pop_coherent q : coherent q →
  coherent (queue_try_pop q).2 ∧
  ((queue_try_pop q).1, channel_of (storage (queue_try_pop q).2)) = channel_pop (channel_of (storage q)).
Proof.
  intros Hq. unfold queue_try_pop, channel_pop. pose proof (try_pop_ok (storage q)) as (Hb & Hcl & Hp). simpl.
  destruct (try_pop (storage q)) as [r s]. simpl in *. destruct (elements (storage q)) as [|v rest] eqn:E; destruct Hp as [-> Hel].
  - assert (coherent (with_storage q s)) by (apply unchanged_coherent; congruence).
    unfold channel_of. destruct (storage_is_closed (storage q)) eqn:?; simpl; split; congruence.
  - split; [|unfold channel_of; simpl; congruence].
    replace (storage_len (storage q) - 1) with (storage_len s) by (rewrite !storage_len_ok, E, Hel; simpl; lia).
    by apply invalidate_coherent.
Qed.

Lemma close_coherent q : coherent q →
  coherent (queue_close q) ∧ channel_of (storage (queue_close q)) = mkChannel (elements (storage q)) (bound (storage q)) true.
Proof.
  intros [Hq Hh Hl He Hf Hc]. unfold queue_close, channel_of. destruct (storage_close_ok (storage q)) as (Hel & Hb & Hcl).
  rewrite Hcl. destruct (storage_is_closed (storage q)) eqn:E; simpl; (split; [|congruence]);
    split; simpl; rewrite ?head_now_eq, ?full_now_eq, ?storage_len_ok, ?Hb, ?Hel in *; congruence || done.
Qed.

Lemma queue_step_coherent q op : coherent q →
  coherent (queue_step q op).2 ∧
  ((queue_step q op).1, channel_of (storage (queue_step q op).2)) =
    channel_step has_head_cap has_full_cap (channel_of (storage q)) op.
Proof.
  intros Hq. destruct op; simpl.
  - destruct (try_push_coherent q v Hq) as [Hc E]. by destruct (queue_try_push q v).
  - destruct (try_pop_coherent q Hq) as [Hc E]. rewrite <- E. by destruct (queue_try_pop q).
  - destruct (try_pop_coherent q Hq) as [Hc E]. unfold queue_pop. rewrite <- E. destruct (queue_try_pop q) as [r q'].
    simpl in *. split; [done|]. unfold channel_pop in E. simpl in E.
    destruct (elements (storage q)); [destruct (storage_is_closed (storage q))|]; injection E as -> _; done.
  - destruct (close_coherent q Hq) as [Hc ->]. done.
  - unfold queue_head. destruct (reader_get_fresh _ _ (coherent_head q Hq)) as [Hv Hr], (reader_get _ _). simpl in *.
    split; [by destruct Hq|]. by rewrite Hv, head_now_eq.
  - unfold queue_len. destruct (reader_get_fresh _ _ (coherent_len q Hq)) as [Hv Hr], (reader_get _ _). simpl in *.
    split; [by destruct Hq|]. by rewrite Hv, storage_len_ok.
  - unfold queue_is_empty. destruct (reader_get_fresh _ _ (coherent_empty q Hq)) as [Hv Hr], (reader_get _ _). simpl in *.
    split; [by destruct Hq|]. by rewrite Hv, len_empty.
  - unfold queue_is_full. destruct (reader_get_fresh _ _ (coherent_full q Hq)) as [Hv Hr], (reader_get _ _). simpl in *.
    split; [by destruct Hq|]. by rewrite Hv, full_now_eq.
  - split; [done|]. unfold queue_closed. by rewrite (coherent_closed q Hq).
Qed.

(** A queue is the channel its storage stands for.  Over any storage that keeps
    the contract, started in any state, and driven through any operations and
    reads, the reactive queue gives the answers of a plain list with a bound
    and a closed flag: elements leave in the order they were accepted, a full
    or closed queue refuses, a closed one drains, and no memoised reader is
    ever stale, although only the readers an operation affects are invalidated. *)
Theorem queue_cell_refines_channel (s : S) (ops : list (QueueOp T)) :
  (core_run queue_step (queue_new s) ops).1 = (core_run (channel_step has_head_cap has_full_cap) (channel_of s) ops).1.
Proof.
  assert (Hr : ∀ q, coherent q → (core_run queue_step q ops).1 =
    (core_run (channel_step has_head_cap has_full_cap) (channel_of (storage q)) ops).1).
  { induction ops as [|op ops IH]; intros q Hq; [done|]. simpl. destruct (queue_step_coherent q op Hq) as [Hc E].
    destruct (queue_step q op) as [a q1], (channel_step _ _ _ op) as [a' c]. simpl in *. injection E as -> <-.
    specialize (IH q1 Hc). by destruct (core_run queue_step q1 ops), (core_run (channel_step _ _) _ ops); simpl in *; subst. }
  by apply (Hr (queue_new s)).
Qed.

Lemma pop_invalidates q : q_capacity q = bound (storage q) →
  let q' := (queue_try_pop q).2 in
  (elements (storage q') = elements (storage q) → len_reader q ≠ None → len_reader q' = len_reader q) ∧
  ((elements (storage q') = [] ↔ elements (storage q) = []) → empty_reader q ≠ None → empty_reader q' = empty_reader q) ∧
  (at_bound (bound (storage q)) (length (elements (storage q'))) = at_bound (bound (storage q)) (length (elements (storage q))) →
    full_reader q ≠ None → full_reader q' = full_reader q).
Proof.
  intros Hq. pose proof (try_pop_ok (storage q)) as (_ & _ & Hp). unfold queue_try_pop.
  destruct (try_pop (storage q)) as [r s]; simpl in *. destruct (elements (storage q)) as [|v rest] eqn:E.
  { destruct Hp as [-> _]. by destruct (storage_is_closed (storage q)). }
  destruct Hp as [-> Hel]. simpl. rewrite Hel, Hq, storage_len_ok, E. simpl. split_and!.
  - intros E'%(f_equal length). simpl in E'. lia.
  - intros Hiff. rewrite bool_decide_true; [done|]. destruct rest; naive_solver.
  - unfold at_bound. rewrite Nat.sub_0_r. destruct (bound (storage q)) as [k|]; [|done]. intros -> _. by rewrite Bool.eqb_reflx.
Qed.

(** Nothing is invalidated in vain: a cached length, emptiness or fullness is
    dropped by an operation only if it changes, and the head only by a pop or
    by a push to an empty queue. *)
Lemma queue_invalidates_no_more q op : coherent q →
  let q' := (queue_step q op).2 in
  (elements (storage q') = elements (storage q) → len_reader q ≠ None → len_reader q' = len_reader q) ∧
  ((elements (storage q') = [] ↔ elements (storage q) = []) → empty_reader q ≠ None → empty_reader q' = empty_reader q) ∧
  (at_bound (bound (storage q)) (length (elements (storage q'))) = at_bound (bound (storage q)) (length (elements (storage q))) →
    full_reader q ≠ None → full_reader q' = full_reader q) ∧
  (take 1 (elements (storage q')) = take 1 (elements (storage q)) → op ≠ TryPop → op ≠ Pop →
    head_reader q ≠ None → head_reader q' = head_reader q).
Proof.
  intros [Hq _ _ _ _ _]. destruct op; simpl.
  4: { unfold queue_close. by case_match. }
  4-8: unfold queue_head, queue_len, queue_is_empty, queue_is_full, reader_get; simpl; repeat case_match; simplify_eq/=; naive_solver.
  - pose proof (try_push_ok (storage q) v) as Hp. unfold queue_try_push.
    destruct (try_push (storage q) v) as [[] s]; simpl; [|done..]. destruct Hp as (_ & _ & -> & Hb & _).
    rewrite Hq, storage_len_ok, !length_app. simpl. split_and!.
    + intros E%(f_equal length). rewrite length_app in E. simpl in E. lia.
    + intros Hiff. rewrite bool_decide_true; [done|]. split; [|lia]. destruct (elements (storage q)); naive_solver.
    + unfold at_bound. destruct (bound (storage q)) as [k|]; [|done]. intros -> _. by rewrite Bool.eqb_reflx.
    + destruct (elements (storage q)); [done|]. done.
  - destruct (pop_invalidates q Hq) as (Hl & He & Hf). destruct (queue_try_pop q). split_and!; [exact Hl|exact He|exact Hf|]. intros _ Hne. by destruct Hne.
  - unfold queue_pop. destruct (pop_invalidates q Hq) as (Hl & He & Hf). destruct (queue_try_pop q). split_and!; [exact Hl|exact He|exact Hf|]. intros _ _ Hne. by destruct Hne.
Qed.

End queue_correct.

(** Over a deque of two places: accept, refuse, pop, close, drain. *)
Lemma queue_cell_refines_channel_witness :
  let ops := [TryPush 1; Head; TryPush 2; IsFull; TryPush 3; TryPop; Head; IsFull; Close; TryPush 4; TryPop; TryPop; Len] in
  (core_run queue_step (queue_new (deque_new (T:=nat) (Some 2))) ops).1 =
    (core_run (channel_step true true) (mkChannel [] (Some 2) false) ops).1 ∧
  (core_run queue_step (queue_new (deque_new (T:=nat) (Some 2))) ops).1 =
    [APush PushOk; AElement (Some 1); APush PushOk; ABool true; APush Full; APop (Value 1); AElement (Some 2); ABool false;
     AClosed; APush PushClosed; APop (Value 2); APop PopClosed; ALen 0].
Proof.
  intros ops. split; [|reflexivity].
  exact (queue_cell_refines_channel (S := VecDequeStorage nat) (deque_new (Some 2)) ops).
Defined.
