(* ===== verification/Topic.v ===== *)
(** * Topics: a broadcast log with a cursor per subscriber

    Models include/lazily/queue.hpp from TopicCell on.  The readers are the
    memoised readers of Queue.v; the two mutexes are held for the whole of the
    accesses they guard and are left out.  An access past the end of the
    retained log is undefined behaviour in the code, and an outcome of its own
    here. *)
From stdpp Require Import strings.
From S2P Require Import Prelude Queue.

(* include/lazily/queue.hpp:390-390, TopicDurability *)
Inductive TopicDurability := Durable | Ephemeral.
#[export] Instance TopicDurability_eq_dec : EqDecision TopicDurability.
Proof. solve_decision. Defined.

(* include/lazily/queue.hpp:392-392, TopicSubscribeOutcome *)
Inductive TopicSubscribeOutcome := Subscribed | Reconnected | AlreadySubscribed.

(* include/lazily/queue.hpp:408-412, TopicSubscription *)
Record TopicSubscription := mkSub { cursor : nat; durability : TopicDurability; connected : bool }.

Section topic.
  Context {T : Type}.

(* include/lazily/queue.hpp:414-421, TopicCellInner *)
Record Topic := mkTopic {
  base_offset : nat; t_elements : list T;
  subscriptions : gmap string TopicSubscription;
  readers : gmap string (option (list T));
}.

(* include/lazily/queue.hpp:401-405, TopicSnapshot *)
Record TopicSnapshot := mkSnapshot {
  snap_base : nat; snap_elements : list T; snap_subscriptions : list (string * TopicSubscription);
}.

(* include/lazily/queue.hpp:429-432, BasicTopicCell::BasicTopicCell *)
Definition topic_new : Topic := mkTopic 0 [] ∅ ∅.

(* include/lazily/queue.hpp:640-640, BasicTopicCell::tail_offset_locked *)
Definition tail_offset (t : Topic) : nat := base_offset t + length (t_elements t).

Definition with_subscriptions (t : Topic) m : Topic := mkTopic (base_offset t) (t_elements t) m (readers t).
Definition with_readers (t : Topic) r : Topic := mkTopic (base_offset t) (t_elements t) (subscriptions t) r.

(** The closure of a reader.  [cursor - base_offset] wraps below zero, and
    advancing an iterator past the end is undefined. *)
(* include/lazily/queue.hpp:659-667, BasicTopicCell::ensure_reader (the computed closure) *)
Definition read_suffix (t : Topic) (id : string) : outcome (list T) :=
  match subscriptions t !! id with
  | Some s =>
      if negb (connected s) then Ok []
      else if cursor s <? base_offset t then Undefined
      else
        let start := cursor s - base_offset t in
        if length (t_elements t) <? start then Undefined else Ok (drop start (t_elements t))
  | None => Ok []
  end.

(* include/lazily/queue.hpp:651-671, BasicTopicCell::ensure_reader *)
Definition ensure_reader (t : Topic) (id : string) : Topic :=
  match readers t !! id with Some _ => t | None => with_readers t (<[id := None]> (readers t)) end.

(* include/lazily/queue.hpp:673-675, BasicTopicCell::invalidate_one *)
Definition invalidate_one (t : Topic) (id : string) : Topic :=
  with_readers t (alter (λ _, None) id (readers t)).

(* include/lazily/queue.hpp:452-480, BasicTopicCell::subscribe *)
Definition subscribe (t : Topic) (id : string) (durable : TopicDurability) : outcome TopicSubscribeOutcome * Topic :=
  match subscriptions t !! id with
  | Some s =>
      if connected s then (Ok AlreadySubscribed, t)
      else if negb (bool_decide (durability s = Durable)) then (Throws LogicError, t)
      else
        let t := with_subscriptions t (<[id := mkSub (cursor s) (durability s) true]> (subscriptions t)) in
        (Ok Reconnected, invalidate_one (ensure_reader t id) id)
  | None =>
      let t := with_subscriptions t (<[id := mkSub (tail_offset t) durable true]> (subscriptions t)) in
      (Ok Subscribed, invalidate_one (ensure_reader t id) id)
  end.

(* include/lazily/queue.hpp:482-484, BasicTopicCell::reconnect *)
Definition reconnect (t : Topic) (id : string) : outcome unit * Topic :=
  let '(r, t) := subscribe t id Durable in
  (match r with Ok _ => Ok tt | Throws e => Throws e | Undefined => Undefined end, t).

(* include/lazily/queue.hpp:486-509, BasicTopicCell::disconnect *)
Definition disconnect (t : Topic) (id : string) : Topic :=
  match subscriptions t !! id with
  | None => t
  | Some s =>
      if negb (connected s) then t
      else if decide (durability s = Ephemeral)
      then with_readers (with_subscriptions t (delete id (subscriptions t))) (delete id (readers t))
      else
        let t := with_subscriptions t (<[id := mkSub (cursor s) (durability s) false]> (subscriptions t)) in
        invalidate_one t id
  end.

(* include/lazily/queue.hpp:511-534, BasicTopicCell::publish *)
Definition publish (t : Topic) (value : T) : nat * Topic :=
  let offset := tail_offset t in
  let is_connected id := match subscriptions t !! id with Some s => connected s | None => false end in
  (offset, mkTopic (base_offset t) (t_elements t ++ [value]) (subscriptions t)
    (map_imap (λ id cache, Some (if is_connected id then None else cache)) (readers t))).

(* include/lazily/queue.hpp:536-544, BasicTopicCell::read_stream *)
Definition read_stream (t : Topic) (id : string) : outcome (list T) * Topic :=
  match readers t !! id with
  | None => (Ok [], t)
  | Some (Some v) => (Ok v, t)
  | Some None =>
      match read_suffix t id with
      | Ok v => (Ok v, with_readers t (<[id := Some v]> (readers t)))
      | r => (r, t)
      end
  end.

(* include/lazily/queue.hpp:546-550, BasicTopicCell::read *)
Definition topic_read (t : Topic) (id : string) : outcome (option T) * Topic :=
  let '(r, t) := read_stream t id in
  (match r with Ok stream => Ok (head stream) | Throws e => Throws e | Undefined => Undefined end, t).

(* include/lazily/queue.hpp:552-580, BasicTopicCell::advance *)
Definition advance (t : Topic) (id : string) (count : nat) : outcome nat * Topic :=
  match subscriptions t !! id with
  | None => (Throws OutOfRange, t)
  | Some s =>
      if negb (connected s) || (cursor s =? tail_offset t) then (Ok (cursor s), t)
      else if tail_offset t - cursor s <? count then (Throws OutOfRange, t)
      else if count =? 0 then (Ok (cursor s), t)
      else
        let s := mkSub (cursor s + count) (durability s) (connected s) in
        (Ok (cursor s), invalidate_one (with_subscriptions t (<[id := s]> (subscriptions t))) id)
  end.

(** A durable cursor below the base would wrap the number of elements popped. *)
(* include/lazily/queue.hpp:583-596, BasicTopicCell::gc *)
Definition gc (t : Topic) : outcome nat * Topic :=
  let frontier := map_fold (λ _ s frontier,
    if bool_decide (durability s = Durable) && (cursor s <? frontier) then cursor s else frontier)
    (tail_offset t) (subscriptions t) in
  if frontier <? base_offset t then (Undefined, t)
  else
    let removed := frontier - base_offset t in
    (Ok removed, mkTopic frontier (drop removed (t_elements t)) (subscriptions t) (readers t)).

(* include/lazily/queue.hpp:625-635, BasicTopicCell::snapshot *)
Definition snapshot (t : Topic) : TopicSnapshot :=
  mkSnapshot (base_offset t) (t_elements t) (map_to_list (subscriptions t)).

(* include/lazily/queue.hpp:434-450, BasicTopicCell::BasicTopicCell (from a snapshot) *)
Definition restore (snap : TopicSnapshot) : outcome Topic :=
  let tail := snap_base snap + length (snap_elements snap) in
  foldl (λ r '(id, s),
    match r with
    | Ok t =>
        if (cursor s <? base_offset t) || (tail <? cursor s) then Throws InvalidArgument
        else if bool_decide (durability s = Ephemeral) && negb (connected s) then Throws InvalidArgument
        else
          let subs := match subscriptions t !! id with Some _ => subscriptions t | None => <[id := s]> (subscriptions t) end in
          Ok (ensure_reader (with_subscriptions t subs) id)
    | r => r
    end) (Ok (mkTopic (snap_base snap) (snap_elements snap) ∅ ∅)) (snap_subscriptions snap).

(** The operations, and what they answer. *)
Inductive TopicOp :=
  | Subscribe (id : string) (durable : TopicDurability) | Reconnect (id : string) | Disconnect (id : string)
  | Publish (v : T) | ReadStream (id : string) | Read (id : string) | Advance (id : string) (count : nat)
  | Gc | ReaderHandle (id : string).

Inductive TopicAnswer :=
  | ASubscribe (r : outcome TopicSubscribeOutcome) | AUnit (r : outcome unit) | AOffset (r : outcome nat)
  | AStream (r : outcome (list T)) | AElement (r : outcome (option T)).

Definition topic_step (t : Topic) (op : TopicOp) : TopicAnswer * Topic :=
  match op with
  | Subscribe id d => let '(r, t) := subscribe t id d in (ASubscribe r, t)
  | Reconnect id => let '(r, t) := reconnect t id in (AUnit r, t)
  | Disconnect id => (AUnit (Ok tt), disconnect t id)
  | Publish v => let '(r, t) := publish t v in (AOffset (Ok r), t)
  | ReadStream id => let '(r, t) := read_stream t id in (AStream r, t)
  | Read id => let '(r, t) := topic_read t id in (AElement r, t)
  | Advance id n => let '(r, t) := advance t id n in (AOffset r, t)
  | Gc => let '(r, t) := gc t in (AOffset r, t)
  | ReaderHandle id => (AUnit (Ok tt), ensure_reader t id)
  end.

End topic.
Arguments Topic T : clear implicits.
Arguments TopicSnapshot T : clear implicits.
Arguments TopicOp T : clear implicits.
Arguments TopicAnswer T : clear implicits.

(** ** The log it promises to be

    Everything ever published, the number of elements collected so far (which
    only the answers of [gc] show), and the cursors. *)
Section log.
  Context {T : Type}.

Record Log := mkLog { published : list T; collected : nat; cursors : gmap string TopicSubscription }.

(** What a subscriber has still to read. *)
Definition pending (l : Log) (id : string) : list T :=
  match cursors l !! id with
  | Some s => if connected s then drop (cursor s) (published l) else []
  | None => []
  end.

Definition move_cursors (l : Log) m : Log := mkLog (published l) (collected l) m.

Definition log_subscribe (l : Log) (id : string) (d : TopicDurability) : TopicSubscribeOutcome * Log :=
  match cursors l !! id with
  | Some s =>
      if connected s then (AlreadySubscribed, l)
      else (Reconnected, move_cursors l (<[id := mkSub (cursor s) (durability s) true]> (cursors l)))
  | None => (Subscribed, move_cursors l (<[id := mkSub (length (published l)) d true]> (cursors l)))
  end.

Definition log_disconnect (l : Log) (id : string) : Log :=
  match cursors l !! id with
  | Some (mkSub c Durable true) => move_cursors l (<[id := mkSub c Durable false]> (cursors l))
  | Some (mkSub c Ephemeral true) => move_cursors l (delete id (cursors l))
  | _ => l
  end.

Definition log_advance (l : Log) (id : string) (count : nat) : outcome nat * Log :=
  match cursors l !! id with
  | Some s =>
      if negb (connected s) || (cursor s =? length (published l)) then (Ok (cursor s), l)
      else if length (published l) <? cursor s + count then (Throws OutOfRange, l)
      else (Ok (cursor s + count), move_cursors l (<[id := mkSub (cursor s + count) (durability s) true]> (cursors l)))
  | None => (Throws OutOfRange, l)
  end.

(** The least durable cursor, the end of the log without any. *)
Definition frontier (tail : nat) (m : gmap string TopicSubscription) : nat :=
  map_fold (λ _ s f, if bool_decide (durability s = Durable) && (cursor s <? f) then cursor s else f) tail m.

Definition log_step (l : Log) (op : TopicOp T) : TopicAnswer T * Log :=
  match op with
  | Subscribe id d => let '(r, l) := log_subscribe l id d in (ASubscribe (Ok r), l)
  | Reconnect id => (AUnit (Ok tt), (log_subscribe l id Durable).2)
  | Disconnect id => (AUnit (Ok tt), log_disconnect l id)
  | Publish v => (AOffset (Ok (length (published l))), mkLog (published l ++ [v]) (collected l) (cursors l))
  | ReadStream id => (AStream (Ok (pending l id)), l)
  | Read id => (AElement (Ok (head (pending l id))), l)
  | Advance id n => let '(r, l) := log_advance l id n in (AOffset r, l)
  | Gc =>
      let f := frontier (length (published l)) (cursors l) in
      (AOffset (Ok (f - collected l)), mkLog (published l) f (cursors l))
  | ReaderHandle _ => (AUnit (Ok tt), l)
  end.

Definition log_new : Log := mkLog [] 0 ∅.

(** An ephemeral subscriber that the collection has overtaken. *)
Definition overtaken (l : Log) (id : string) : Prop :=
  ∃ s, cursors l !! id = Some s ∧ durability s = Ephemeral ∧ cursor s < collected l.

End log.
Arguments Log T : clear implicits.

Section topic_correct.
  Context {T : Type}.
  Implicit Types (t : Topic T) (l : Log T) (id : string).

(** The retained part of the log, with readers that show what is pending. *)
Record keeps t l : Prop := mkKeeps {
  keeps_base : base_offset t = collected l;
  keeps_le : collected l ≤ length (published l);
  keeps_elements : t_elements t = drop (collected l) (published l);
  keeps_subs : subscriptions t = cursors l;
  keeps_cursor : ∀ id s, cursors l !! id = Some s → cursor s ≤ length (published l) ∧
    (durability s = Durable → collected l ≤ cursor s) ∧ (durability s = Ephemeral → connected s = true);
  keeps_minted : ∀ id, is_Some (cursors l !! id) → is_Some (readers t !! id);
  keeps_shown : ∀ id v, readers t !! id = Some (Some v) → v = pending l id;
}.

Lemma keeps_tail t l : keeps t l → tail_offset t = length (published l).
Proof. intros [Hb Hle He _ _ _ _]. unfold tail_offset. rewrite Hb, He, length_drop. lia. Qed.

Lemma frontier_spec tail m :
  frontier tail m ≤ tail ∧ (∀ id s, m !! id = Some s → durability s = Durable → frontier tail m ≤ cursor s) ∧
  (frontier tail m = tail ∨ ∃ id s, m !! id = Some s ∧ durability s = Durable ∧ frontier tail m = cursor s).
Proof.
  unfold frontier. apply (map_fold_weak_ind (λ f m, f ≤ tail ∧ (∀ id s, m !! id = Some s → durability s = Durable → f ≤ cursor s) ∧
    (f = tail ∨ ∃ id s, m !! id = Some s ∧ durability s = Durable ∧ f = cursor s))).
  { split_and!; [done|by intros ? ? ?%lookup_empty_Some|by left]. }
  intros id s m' f Hid (Hle & Hall & Hex). split_and!.
  - case_bool_decide; simpl; [|done]. destruct (cursor s <? f) eqn:E; zify_bools; lia.
  - intros id' s' Hl Hd. apply lookup_insert_Some in Hl as [[<- <-]|[Hne Hl]].
    + rewrite bool_decide_true by done. simpl. destruct (cursor s <? f) eqn:E; zify_bools; lia.
    + specialize (Hall _ _ Hl Hd). case_bool_decide; simpl; [|done]. destruct (cursor s <? f) eqn:E; zify_bools; lia.
  - assert (Hkeep : f = tail ∨ ∃ id' s', <[id:=s]> m' !! id' = Some s' ∧ durability s' = Durable ∧ f = cursor s').
    { destruct Hex as [?|(id' & s' & Hl & ?)]; [by left|]. right. exists id', s'.
      rewrite lookup_insert_ne by (intros ->; congruence). done. }
    case_bool_decide; simpl; [|done]. destruct (cursor s <? f); [|done]. right. exists id, s. by rewrite lookup_insert_eq.
Qed.

Lemma ensure_minted t id : is_Some (readers t !! id) → ensure_reader t id = t.
Proof. intros [r Hr]. unfold ensure_reader. by rewrite Hr. Qed.

Lemma keeps_ensure t l id : keeps t l → keeps (ensure_reader t id) l.
Proof.
  intros Hk. unfold ensure_reader. destruct (readers t !! id) eqn:E; [done|]. destruct Hk as [Hb Hle He Hs Hc Hm Hv].
  split; simpl; try done.
  - intros id' Hid'. destruct (decide (id' = id)) as [->|]; [rewrite lookup_insert_eq; eauto|].
    rewrite lookup_insert_ne by done. auto.
  - intros id' v [[_ ?]|[_ ?]]%lookup_insert_Some; [done|auto].
Qed.

(** A subscription set or moved, its reader minted and cleared. *)
Lemma keeps_touch t l id s : keeps t l → cursor s ≤ length (published l) →
  (durability s = Durable → collected l ≤ cursor s) → (durability s = Ephemeral → connected s = true) →
  keeps (invalidate_one (ensure_reader (with_subscriptions t (<[id := s]> (cursors l))) id) id)
    (move_cursors l (<[id := s]> (cursors l))).
Proof.
  intros [Hb Hle He Hs Hc Hm Hv] Hs1 Hs2 Hs3.
  assert (Hr : ∀ id', readers (invalidate_one (ensure_reader (with_subscriptions t (<[id := s]> (cursors l))) id) id) !! id' =
    if decide (id' = id) then Some None else readers t !! id').
  { intros id'. unfold invalidate_one, ensure_reader. simpl. destruct (readers t !! id) eqn:E; simpl;
      (destruct (decide (id' = id)) as [->|Hne]; [rewrite lookup_alter_eq|rewrite lookup_alter_ne by done]);
      rewrite ?E, ?lookup_insert_eq, ?lookup_insert_ne by done; done. }
  split.
  1-4: unfold invalidate_one, ensure_reader; simpl; destruct (readers t !! id); simpl; congruence || done.
  - simpl. intros id' s' [[<- <-]|[_ ?]]%lookup_insert_Some; [done|]. eauto.
  - simpl. intros id' Hid'. rewrite Hr. case_decide as Hne; [done|]. rewrite lookup_insert_ne in Hid' by done. auto.
  - intros id' v. rewrite Hr. case_decide as Hne; [done|]. intros Hl%Hv. rewrite Hl. unfold pending. simpl.
    by rewrite lookup_insert_ne.
Qed.

Lemma keeps_move t l id s : keeps t l → is_Some (cursors l !! id) → cursor s ≤ length (published l) →
  (durability s = Durable → collected l ≤ cursor s) → (durability s = Ephemeral → connected s = true) →
  keeps (invalidate_one (with_subscriptions t (<[id := s]> (cursors l))) id) (move_cursors l (<[id := s]> (cursors l))).
Proof.
  intros Hk Hid ???. rewrite <- (ensure_minted (with_subscriptions _ _) id) by (simpl; by eapply keeps_minted).
  by apply keeps_touch.
Qed.

Lemma read_stream_ok t l id : keeps t l →
  keeps (read_stream t id).2 l ∧ ((read_stream t id).1 = Ok (pending l id) ∨ overtaken l id).
Proof.
  intros Hk. unfold read_stream. destruct (readers t !! id) as [[v|]|] eqn:Hr.
  - split; [done|]. left. by rewrite (keeps_shown _ _ Hk _ _ Hr).
  - assert (Hsuf : read_suffix t id = Ok (pending l id) ∨ read_suffix t id = Undefined ∧ overtaken l id).
    { destruct Hk as [Hb Hle He Hs Hc Hm Hv]. unfold read_suffix, pending. rewrite Hs, Hb, He.
      destruct (cursors l !! id) as [s|] eqn:Hid; [|by left]. destruct (Hc _ _ Hid) as (Hc1 & Hc2 & Hc3).
      destruct (connected s); simpl; [|by left]. destruct (cursor s <? collected l) eqn:E; zify_bools.
      - right. split; [done|]. exists s. split_and!; [done| |done]. destruct (durability s); [|done]. specialize (Hc2 eq_refl). lia.
      - left. rewrite length_drop. destruct (_ <? _) eqn:E'; zify_bools; [lia|]. rewrite drop_drop. do 2 f_equal. lia. }
    destruct Hsuf as [->|[-> Ho]]; simpl; [|by auto]. split; [|by left]. destruct Hk as [Hb Hle He Hs Hc Hm Hv]. split; simpl; try done.
    + intros id' Hid'. destruct (decide (id' = id)) as [->|]; [rewrite lookup_insert_eq; eauto|]. rewrite lookup_insert_ne by done. auto.
    + intros id' v [[<- [= <-]]|[_ ?]]%lookup_insert_Some; [done|auto].
  - split; [done|]. left. unfold pending. destruct (cursors l !! id) eqn:Hid; [|done].
    destruct (keeps_minted _ _ Hk id) as [? ?]; [by rewrite Hid|congruence].
Qed.

Lemma subscribe_ok t l id d : keeps t l →
  keeps (subscribe t id d).2 (log_subscribe l id d).2 ∧ (subscribe t id d).1 = Ok (log_subscribe l id d).1.
Proof.
  intros Hk. unfold subscribe, log_subscribe. rewrite (keeps_subs _ _ Hk).
  destruct (cursors l !! id) as [s|] eqn:Hid.
  - destruct (keeps_cursor _ _ Hk _ _ Hid) as (Hc1 & Hc2 & Hc3). destruct (connected s) eqn:Ec; [done|].
    destruct (durability s) eqn:Ed; [|by specialize (Hc3 eq_refl)]. simpl. split; [|done].
    apply keeps_touch; simpl; auto.
  - simpl. split; [|done]. rewrite (keeps_tail _ _ Hk).
    apply keeps_touch; simpl; [done..|intros _; apply (keeps_le _ _ Hk)|done].
Qed.

Lemma disconnect_ok t l id : keeps t l → keeps (disconnect t id) (log_disconnect l id).
Proof.
  intros Hk. unfold disconnect, log_disconnect. rewrite (keeps_subs _ _ Hk).
  destruct (cursors l !! id) as [[c [] []]|] eqn:Hid; simpl; try done.
  - destruct (keeps_cursor _ _ Hk _ _ Hid) as (Hc1 & Hc2 & Hc3). simpl in *.
    apply keeps_move; simpl; [done|by rewrite Hid|done|done|done].
  - destruct Hk as [Hb Hle He Hs Hc Hm Hv]. split; simpl; try done.
    + intros id' s [_ ?]%lookup_delete_Some. eauto.
    + intros id' [s [Hne Hl]%lookup_delete_Some]. rewrite lookup_delete_ne by done. eauto.
    + intros id' v [Hne Hl]%lookup_delete_Some. rewrite (Hv _ _ Hl). unfold pending. simpl. by rewrite lookup_delete_ne.
Qed.

Lemma topic_publish_ok t l v : keeps t l →
  keeps (publish t v).2 (mkLog (published l ++ [v]) (collected l) (cursors l)) ∧ (publish t v).1 = length (published l).
Proof.
  intros Hk. split; [|apply (keeps_tail _ _ Hk)]. destruct Hk as [Hb Hle He Hs Hc Hm Hv]. split; simpl; try done.
  - rewrite length_app. lia.
  - by rewrite He, drop_app_le by done.
  - intros id s Hl. rewrite length_app. destruct (Hc _ _ Hl) as (? & ? & ?). split_and!; [lia|done|done].
  - intros id [r Hr]%Hm. rewrite map_lookup_imap, Hr. simpl. eauto.
  - intros id w. rewrite map_lookup_imap. destruct (readers t !! id) as [c|] eqn:Hr; [|done]. simpl. rewrite Hs. unfold pending. simpl.
    destruct (cursors l !! id) as [s|] eqn:Hid; [destruct (connected s) eqn:Ec; [done|]|]; intros [= ->];
      rewrite (Hv _ _ Hr); unfold pending; rewrite Hid; [by rewrite Ec|done].
Qed.

Lemma topic_advance_ok t l id n : keeps t l →
  keeps (advance t id n).2 (log_advance l id n).2 ∧ (advance t id n).1 = (log_advance l id n).1.
Proof.
  intros Hk. unfold advance, log_advance. rewrite (keeps_subs _ _ Hk), (keeps_tail _ _ Hk).
  destruct (cursors l !! id) as [s|] eqn:Hid; [|done]. destruct (keeps_cursor _ _ Hk _ _ Hid) as (Hc1 & Hc2 & Hc3).
  destruct (connected s) eqn:Ec; simpl; [|done]. destruct (cursor s =? length (published l)) eqn:E; zify_bools; [done|].
  destruct (_ <? n) eqn:E1, (_ <? _ + n) eqn:E2; zify_bools; try lia; [done|]. destruct (n =? 0) eqn:E3; zify_bools.
  - subst n. rewrite Nat.add_0_r. simpl. split; [|done].
    replace (mkSub _ _ _) with s by (destruct s; simpl in *; congruence). unfold move_cursors. rewrite insert_id by done. by destruct l.
  - simpl. split; [|done]. apply keeps_move; simpl; [done|by rewrite Hid|lia| |done].
    intros Hd%Hc2. lia.
Qed.

Lemma topic_gc_ok t l : keeps t l →
  let f := frontier (length (published l)) (cursors l) in
  keeps (gc t).2 (mkLog (published l) f (cursors l)) ∧ (gc t).1 = Ok (f - collected l).
Proof.
  intros Hk f. unfold gc. fold (frontier (tail_offset t) (subscriptions t)).
  rewrite (keeps_tail _ _ Hk), (keeps_subs _ _ Hk), (keeps_base _ _ Hk). fold f.
  destruct (frontier_spec (length (published l)) (cursors l)) as (Hf1 & Hf2 & Hf3). fold f in Hf1, Hf2, Hf3.
  destruct Hk as [Hb Hle He Hs Hc Hm Hv].
  assert (collected l ≤ f). { destruct Hf3 as [->|(id & s & Hl & Hd & ->)]; [done|]. by apply (Hc _ _ Hl). }
  destruct (f <? collected l) eqn:E; zify_bools; [lia|]. simpl. split; [|done]. split; simpl; try done.
  - rewrite He, drop_drop. f_equal. lia.
  - intros id s Hl. destruct (Hc _ _ Hl) as (? & ? & ?). split_and!; [done| |done]. by eapply Hf2.
Qed.

Lemma topic_step_ok t l op : keeps t l →
  keeps (topic_step t op).2 (log_step l op).2 ∧
  ((topic_step t op).1 = (log_step l op).1 ∨ ∃ id, (op = ReadStream id ∨ op = Read id) ∧ overtaken l id).
Proof.
  intros Hk. destruct op as [id d|id|id|v|id|id|id n| |id]; simpl.
  - destruct (subscribe_ok t l id d Hk). destruct (subscribe t id d), (log_subscribe l id d). simpl in *. split; [done|]. left. congruence.
  - destruct (subscribe_ok t l id Durable Hk) as [? E]. unfold reconnect. destruct (subscribe t id Durable). simpl in *. rewrite E. auto.
  - split; [by apply disconnect_ok|by left].
  - destruct (topic_publish_ok t l v Hk) as [Hp E]. split; [exact Hp|]. left. simpl in E. by rewrite E.
  - destruct (read_stream_ok t l id Hk) as [? [E|?]]; destruct (read_stream t id); simpl in *; [|by eauto 6]. subst. auto.
  - destruct (read_stream_ok t l id Hk) as [? [E|?]]; unfold topic_read; destruct (read_stream t id); simpl in *; [|by eauto 6]. subst. auto.
  - destruct (topic_advance_ok t l id n Hk). destruct (advance t id n), (log_advance l id n). simpl in *. split; [done|]. left. congruence.
  - destruct (topic_gc_ok t l Hk) as [? E]. destruct (gc t). simpl in *. rewrite E. auto.
  - split; [by apply keeps_ensure|by left].
Qed.

Lemma new_keeps : keeps topic_new log_new.
Proof. split; simpl; try done. by intros ? [? ?]. Qed.

Lemma topic_run_ok ops : ∀ t l, keeps t l →
  keeps (core_run topic_step t ops).2 (core_run log_step l ops).2 ∧
  ∀ i, (core_run topic_step t ops).1 !! i = (core_run log_step l ops).1 !! i ∨
    ∃ id, (ops !! i = Some (ReadStream id) ∨ ops !! i = Some (Read id)) ∧ overtaken (core_run log_step l (take i ops)).2 id.
Proof.
  induction ops as [|op ops IH]; intros t l Hk; [split; [done|by left]|].
  destruct (topic_step_ok t l op Hk) as [Hk1 Ha]. simpl.
  destruct (topic_step t op) as [a t1], (log_step l op) as [a' l1] eqn:El. simpl in *. destruct (IH t1 l1 Hk1) as [Hk2 Hi]. split.
  { by destruct (core_run topic_step t1 ops), (core_run log_step l1 ops). }
  intros [|i].
  - destruct Ha as [->|(id & Hop & Ho)]; [left; by destruct (core_run topic_step t1 ops), (core_run log_step l1 ops)|].
    right. exists id. split; [by destruct Hop as [-> | ->]; [left|right]|done].
  - destruct (Hi i) as [E|(id & Hop & Ho)]; [left|right].
    + by destruct (core_run topic_step t1 ops), (core_run log_step l1 ops).
    + exists id. split; [done|]. simpl. rewrite El. by destruct (core_run log_step l1 (take i ops)).
Qed.


(** ** Restarting from a snapshot *)

Lemma restore_loop (subs : list (string * TopicSubscription)) (tail : nat) t :
  NoDup subs.*1 → (∀ id, id ∈ subs.*1 → subscriptions t !! id = None) →
  Forall (λ '(_, s), base_offset t ≤ cursor s ≤ tail ∧ (durability s = Ephemeral → connected s = true)) subs →
  (∀ id c, readers t !! id = Some c → c = None) → (∀ id, is_Some (subscriptions t !! id) → is_Some (readers t !! id)) →
  ∃ t', foldl (λ r '(id, s),
    match r with
    | Ok t =>
        if (cursor s <? base_offset t) || (tail <? cursor s) then Throws InvalidArgument
        else if bool_decide (durability s = Ephemeral) && negb (connected s) then Throws InvalidArgument
        else
          let subs := match subscriptions t !! id with Some _ => subscriptions t | None => <[id := s]> (subscriptions t) end in
          Ok (ensure_reader (with_subscriptions t subs) id)
    | r => r
    end) (Ok t) subs = Ok t' ∧
  base_offset t' = base_offset t ∧ t_elements t' = t_elements t ∧ subscriptions t' = list_to_map subs ∪ subscriptions t ∧
  (∀ id c, readers t' !! id = Some c → c = None) ∧ (∀ id, is_Some (subscriptions t' !! id) → is_Some (readers t' !! id)).
Proof.
  revert t. induction subs as [|[id s] subs IH]; intros t Hnd Hnew Hok Hr Hm.
  { exists t. simpl. rewrite (left_id_L ∅ (∪)). by split_and!. }
  apply NoDup_cons in Hnd as [Hid Hnd]. apply Forall_cons in Hok as [[[Hlo Hhi] He] Hok].
  set (t1 := ensure_reader (with_subscriptions t (<[id := s]> (subscriptions t))) id).
  assert (Hr1 : ∀ id', readers t1 !! id' = if decide (id' = id) then Some None else readers t !! id').
  { intros id'. unfold t1, ensure_reader. simpl. destruct (readers t !! id) as [c|] eqn:E; simpl.
    - case_decide as Hd; [|done]. subst id'. by rewrite E, (Hr _ _ E).
    - case_decide as Hd; [subst id'; by rewrite lookup_insert_eq|by rewrite lookup_insert_ne]. }
  assert (Ht1 : base_offset t1 = base_offset t ∧ t_elements t1 = t_elements t ∧ subscriptions t1 = <[id := s]> (subscriptions t))
    by (unfold t1, ensure_reader; simpl; by destruct (readers t !! id)).
  destruct Ht1 as (Hb1 & He1 & Hs1). destruct (IH t1) as (t' & Ef & Hb & Hel & Hs & Hrest); [done| | | | |].
  - intros id' Hid'. rewrite Hs1, lookup_insert_ne by (intros ->; done). apply Hnew. by right.
  - by rewrite Hb1.
  - intros id' c. rewrite Hr1. case_decide; [by intros [= <-]|apply Hr].
  - intros id'. rewrite Hr1, Hs1. case_decide; [done|]. rewrite lookup_insert_ne by done. apply Hm.
  - exists t'. split_and!; [|congruence|congruence| |apply Hrest..].
    + simpl. rewrite (Hnew id) by (by left). destruct (_ <? _) eqn:E1, (tail <? _) eqn:E2; zify_bools; try lia. simpl.
      case_bool_decide as Hd; [rewrite He by done|]; exact Ef.
    + rewrite Hs, Hs1. simpl. rewrite <- insert_union_l, <- insert_union_r; [done|]. by apply not_elem_of_list_to_map_1.
Qed.

Lemma restore_ok t l : keeps t l → (∀ id, ¬ overtaken l id) → ∃ t', restore (snapshot t) = Ok t' ∧ keeps t' l.
Proof.
  intros [Hb Hle He Hs Hc Hm Hv] Ho. unfold restore, snapshot. simpl.
  destruct (restore_loop (map_to_list (subscriptions t)) (base_offset t + length (t_elements t))
    (mkTopic (base_offset t) (t_elements t) ∅ ∅)) as (t' & E & Hb' & He' & Hs' & Hr' & Hm'); simpl in *.
  - apply NoDup_fst_map_to_list.
  - done.
  - apply Forall_forall. intros [id s] Hl%elem_of_map_to_list. rewrite Hs in Hl. destruct (Hc _ _ Hl) as (Hc1 & Hc2 & Hc3).
    rewrite Hb, He, length_drop. split; [|done]. split; [|lia]. destruct (durability s) eqn:Ed; [by apply Hc2|].
    destruct (decide (cursor s < collected l)); [|lia]. destruct (Ho id). by exists s.
  - by intros id c ?%lookup_empty_Some.
  - by intros id [? ?].
  - exists t'. split; [exact E|]. rewrite (right_id_L ∅ (∪)), list_to_map_to_list in Hs'. split; try congruence; try done.
    + intros id Hid. apply Hm'. by rewrite Hs', Hs.
    + intros id v Hl. by apply Hr' in Hl.
Qed.

(** A topic restarted from its snapshot goes on where it was.  As long as no
    ephemeral subscriber has been overtaken by a collection, restoring the
    snapshot of a topic that any calls led to succeeds, and the restored topic
    answers any further calls as the log does. *)
Theorem topic_restarts_from_snapshot (before after : list (TopicOp T)) :
  let l := (core_run log_step log_new before).2 in
  (∀ id, ¬ overtaken l id) →
  ∃ t, restore (snapshot (core_run topic_step topic_new before).2) = Ok t ∧
    ∀ i, (core_run topic_step t after).1 !! i = (core_run log_step l after).1 !! i ∨
      ∃ id, (after !! i = Some (ReadStream id) ∨ after !! i = Some (Read id)) ∧
        overtaken (core_run log_step l (take i after)).2 id.
Proof.
  intros l Ho. destruct (topic_run_ok before _ _ new_keeps) as [Hk _].
  destruct (restore_ok _ _ Hk Ho) as (t & E & Hk'). exists t. split; [done|]. by apply topic_run_ok.
Qed.

End topic_correct.

(** Published, read, disconnected, collected, restarted, read again. *)
Lemma topic_restarts_from_snapshot_witness :
  let before := [Subscribe "a" Durable; Publish 1; Publish 2; Advance "a" 1; Disconnect "a"; Publish 3; Gc] in
  let after := [ReadStream "a"; Reconnect "a"; ReadStream "a"] in
  let l := (core_run log_step (log_new (T:=nat)) before).2 in
  (core_run log_step l after).1 !! 2 = Some (AStream (Ok [2; 3])) ∧
  ∃ t, restore (snapshot (core_run topic_step topic_new before).2) = Ok t ∧
    ∀ i, (core_run topic_step t after).1 !! i = (core_run log_step l after).1 !! i ∨
      ∃ id, (after !! i = Some (ReadStream id) ∨ after !! i = Some (Read id)) ∧
        overtaken (core_run log_step l (take i after)).2 id.
Proof.
  intros before after l. split; [vm_compute; reflexivity|]. apply (topic_restarts_from_snapshot before after).
  intros id (s & Hs & Hd & _).
  assert (E : cursors (core_run log_step (log_new (T:=nat)) before).2 = {[ "a" := mkSub 1 Durable false ]}) by (vm_compute; reflexivity).
  rewrite E in Hs. apply lookup_singleton_Some in Hs as [_ <-]. discriminate Hd.
Defined.

(** Collection overtakes a connected ephemeral subscriber that lags: its next
    read, once its reader is invalidated, is past the end of the retained log,
    and a snapshot of the topic cannot be restored. *)
Lemma gc_overtakes_ephemeral :
  let run := core_run topic_step (topic_new (T:=nat)) [Subscribe "e" Ephemeral; Publish 1; Gc; Publish 2; ReadStream "e"] in
  run.1 !! 4 = Some (AStream Undefined) ∧ restore (snapshot run.2) = Throws InvalidArgument.
Proof. vm_compute. done. Qed.
