(* ===== verification/WorkQueue.v ===== *)
(** * Work queue: competing consumers with redelivery

    Models include/lazily/work_queue.hpp: items are claimed by workers for a
    bounded time, redelivered after a refusal or an expiry, and set aside after
    too many deliveries.  The readers are the memoised readers of Queue.v; the
    mutex is held for the whole of every operation and is left out. *)
From stdpp Require Import strings sorting.
From S2P Require Import Prelude Queue.
#[local] Open Scope Z_scope.

(* include/lazily/work_queue.hpp:49-49, WorkQueueDeadLetterReason *)
Inductive DeadLetterReason := Nacked | Expired.

Section work_queue.
  Context {T : Type}.

(* include/lazily/work_queue.hpp:34-38, WorkQueueItem *)
Record Item := mkItem { i_item : Z; i_value : T; i_attempts : Z }.

(* include/lazily/work_queue.hpp:40-47, WorkQueueDelivery *)
Record Delivery := mkDelivery {
  delivery_id : Z; d_item : Z; d_value : T; worker : string; attempt : Z; deadline : Z;
}.

(* include/lazily/work_queue.hpp:51-56, WorkQueueDeadLetter *)
Record DeadLetter := mkDead { l_item : Z; l_value : T; l_attempts : Z; l_reason : DeadLetterReason }.

(* include/lazily/work_queue.hpp:58-63, WorkQueueReaderHandles *)
Record Readers := mkReaders {
  pending_reader : option nat; empty_reader : option bool; flight_reader : option nat; dead_reader : option nat;
}.

(* include/lazily/work_queue.hpp:65-73, WorkQueueCellInner *)
Record WorkQueue := mkWork {
  pending : list Item; in_flight : gmap Z Delivery; dead_letters : list DeadLetter;
  next_item_id : Z; next_delivery_id : Z; readers : Readers;
  visibility_timeout : Z; max_deliveries : Z;
}.

(* include/lazily/work_queue.hpp:86-109, BasicWorkQueueCell::BasicWorkQueueCell *)
Definition work_new (visibility_timeout max_deliveries : Z) : outcome WorkQueue :=
  if visibility_timeout =? 0 then Throws InvalidArgument
  else if max_deliveries =? 0 then Throws InvalidArgument
  else Ok (mkWork [] ∅ [] 0 0 (mkReaders None None None None) visibility_timeout max_deliveries).

(* include/lazily/work_queue.hpp:249-253, Counts *)
Record Counts := mkCounts { n_pending : nat; n_flight : nat; n_dead : nat }.

(* include/lazily/work_queue.hpp:255-257, BasicWorkQueueCell::counts_locked *)
Definition counts (q : WorkQueue) : Counts :=
  mkCounts (length (pending q)) (size (in_flight q)) (length (dead_letters q)).

Definition with_readers (q : WorkQueue) (r : Readers) : WorkQueue :=
  mkWork (pending q) (in_flight q) (dead_letters q) (next_item_id q) (next_delivery_id q) r
    (visibility_timeout q) (max_deliveries q).

Definition with_flight (q : WorkQueue) m : WorkQueue :=
  mkWork (pending q) m (dead_letters q) (next_item_id q) (next_delivery_id q) (readers q)
    (visibility_timeout q) (max_deliveries q).

(* include/lazily/work_queue.hpp:259-274, BasicWorkQueueCell::invalidate *)
Definition invalidate (q : WorkQueue) (before after : Counts) : WorkQueue :=
  let r := readers q in
  let clear {A : Type} (changed : bool) (cache : option A) := if changed then None else cache in
  with_readers q (mkReaders
    (clear (negb (n_pending before =? n_pending after)%nat) (pending_reader r))
    (clear (negb (Bool.eqb (n_pending before =? 0)%nat (n_pending after =? 0)%nat)) (empty_reader r))
    (clear (negb (n_flight before =? n_flight after)%nat) (flight_reader r))
    (clear (negb (n_dead before =? n_dead after)%nat) (dead_reader r))).

(* include/lazily/work_queue.hpp:276-283, BasicWorkQueueCell::fail_locked *)
Definition fail_locked (q : WorkQueue) (d : Delivery) (reason : DeadLetterReason) : WorkQueue :=
  if max_deliveries q <=? attempt d then
    mkWork (pending q) (in_flight q) (dead_letters q ++ [mkDead (d_item d) (d_value d) (attempt d) reason])
      (next_item_id q) (next_delivery_id q) (readers q) (visibility_timeout q) (max_deliveries q)
  else
    mkWork (pending q ++ [mkItem (d_item d) (d_value d) (attempt d)]) (in_flight q) (dead_letters q)
      (next_item_id q) (next_delivery_id q) (readers q) (visibility_timeout q) (max_deliveries q).

(* include/lazily/work_queue.hpp:111-126, BasicWorkQueueCell::push *)
Definition work_push (q : WorkQueue) (value : T) : outcome Z * WorkQueue :=
  let before := counts q in
  if next_item_id q =? u64_max then (Throws OverflowError, q)
  else
    let item_id := next_item_id q in
    let q := mkWork (pending q ++ [mkItem item_id value 0]) (in_flight q) (dead_letters q) (u64 (item_id + 1))
      (next_delivery_id q) (readers q) (visibility_timeout q) (max_deliveries q) in
    (Ok item_id, invalidate q before (counts q)).

(* include/lazily/work_queue.hpp:128-150, BasicWorkQueueCell::claim *)
Definition work_claim (q : WorkQueue) (w : string) (now : Z) : outcome (option Delivery) * WorkQueue :=
  match pending q with
  | [] => (Ok None, q)
  | item :: rest =>
      if next_delivery_id q =? u64_max then (Throws OverflowError, q)
      else if u64 (u64_max - visibility_timeout q) <? now then (Throws OverflowError, q)
      else
        let before := counts q in
        let d := mkDelivery (next_delivery_id q) (i_item item) (i_value item) w (u64 (i_attempts item + 1))
          (u64 (now + visibility_timeout q)) in
        let q := mkWork rest (<[delivery_id d := d]> (in_flight q)) (dead_letters q) (next_item_id q)
          (u64 (next_delivery_id q + 1)) (readers q) (visibility_timeout q) (max_deliveries q) in
        (Ok (Some d), invalidate q before (counts q))
  end.

(** The delivery that [worker] holds under the id. *)
Definition held (q : WorkQueue) (w : string) (id : Z) : option Delivery :=
  match in_flight q !! id with Some d => if decide (worker d = w) then Some d else None | None => None end.

(* include/lazily/work_queue.hpp:152-165, BasicWorkQueueCell::ack *)
Definition work_ack (q : WorkQueue) (w : string) (id : Z) : bool * WorkQueue :=
  match held q w id with
  | None => (false, q)
  | Some _ =>
      let before := counts q in
      let q := with_flight q (delete id (in_flight q)) in
      (true, invalidate q before (counts q))
  end.

(* include/lazily/work_queue.hpp:167-182, BasicWorkQueueCell::nack *)
Definition work_nack (q : WorkQueue) (w : string) (id : Z) : bool * WorkQueue :=
  match held q w id with
  | None => (false, q)
  | Some d =>
      let before := counts q in
      let q := fail_locked (with_flight q (delete id (in_flight q))) d Nacked in
      (true, invalidate q before (counts q))
  end.

(** One turn of the loop over the expired ids, which are in flight. *)
Definition expire (q : WorkQueue) (id : Z) : WorkQueue :=
  match in_flight q !! id with
  | Some d => fail_locked (with_flight q (delete id (in_flight q))) d Expired
  | None => q
  end.

(* include/lazily/work_queue.hpp:184-206, BasicWorkQueueCell::reap_expired *)
Definition work_reap (q : WorkQueue) (now : Z) : nat * WorkQueue :=
  let expired := merge_sort Z.le (filter (λ e : Z * Delivery, deadline e.2 < now) (map_to_list (in_flight q))).*1 in
  if bool_decide (expired = []) then (O, q)
  else
    let before := counts q in
    let q := foldl expire q expired in
    (length expired, invalidate q before (counts q)).

(* include/lazily/work_queue.hpp:208-210, BasicWorkQueueCell::pending_len *)
Definition pending_len (q : WorkQueue) : nat * WorkQueue :=
  let r := readers q in
  let '(v, c) := reader_get (pending_reader r) (length (pending q)) in
  (v, with_readers q (mkReaders c (empty_reader r) (flight_reader r) (dead_reader r))).

(* include/lazily/work_queue.hpp:212-214, BasicWorkQueueCell::is_empty *)
Definition work_is_empty (q : WorkQueue) : bool * WorkQueue :=
  let r := readers q in
  let '(v, c) := reader_get (empty_reader r) (length (pending q) =? 0)%nat in
  (v, with_readers q (mkReaders (pending_reader r) c (flight_reader r) (dead_reader r))).

(* include/lazily/work_queue.hpp:216-218, BasicWorkQueueCell::in_flight_len *)
Definition in_flight_len (q : WorkQueue) : nat * WorkQueue :=
  let r := readers q in
  let '(v, c) := reader_get (flight_reader r) (size (in_flight q)) in
  (v, with_readers q (mkReaders (pending_reader r) (empty_reader r) c (dead_reader r))).

(* include/lazily/work_queue.hpp:220-222, BasicWorkQueueCell::dead_letter_len *)
Definition dead_letter_len (q : WorkQueue) : nat * WorkQueue :=
  let r := readers q in
  let '(v, c) := reader_get (dead_reader r) (length (dead_letters q)) in
  (v, with_readers q (mkReaders (pending_reader r) (empty_reader r) (flight_reader r) c)).

Definition by_delivery_id : relation Delivery := λ a b, delivery_id a <= delivery_id b.
#[local] Instance by_delivery_id_dec : RelDecision by_delivery_id := λ a b, decide (delivery_id a <= delivery_id b).

(* include/lazily/work_queue.hpp:231-241, BasicWorkQueueCell::in_flight_deliveries *)
Definition in_flight_deliveries (q : WorkQueue) : list Delivery :=
  merge_sort by_delivery_id (map_to_list (in_flight q)).*2.

(** The operations, and what they answer. *)
Inductive WorkOp :=
  | Push (v : T) | Claim (w : string) (now : Z) | Ack (w : string) (id : Z) | Nack (w : string) (id : Z) | Reap (now : Z)
  | PendingLen | IsEmpty | InFlightLen | DeadLetterLen.

Inductive WorkAnswer :=
  | AItem (r : outcome Z) | ADelivery (r : outcome (option Delivery)) | ABool (b : bool) | ALen (n : nat).

Definition work_step (q : WorkQueue) (op : WorkOp) : WorkAnswer * WorkQueue :=
  match op with
  | Push v => let '(r, q) := work_push q v in (AItem r, q)
  | Claim w now => let '(r, q) := work_claim q w now in (ADelivery r, q)
  | Ack w id => let '(r, q) := work_ack q w id in (ABool r, q)
  | Nack w id => let '(r, q) := work_nack q w id in (ABool r, q)
  | Reap now => let '(r, q) := work_reap q now in (ALen r, q)
  | PendingLen => let '(r, q) := pending_len q in (ALen r, q)
  | IsEmpty => let '(r, q) := work_is_empty q in (ABool r, q)
  | InFlightLen => let '(r, q) := in_flight_len q in (ALen r, q)
  | DeadLetterLen => let '(r, q) := dead_letter_len q in (ALen r, q)
  end.

End work_queue.
Arguments Item T : clear implicits.
Arguments Delivery T : clear implicits.
Arguments DeadLetter T : clear implicits.
Arguments WorkQueue T : clear implicits.
Arguments WorkOp T : clear implicits.
Arguments WorkAnswer T : clear implicits.

(** ** Bookkeeping

    What a client can note down from the answers: the values accepted, the
    deliveries handed out, and the items acknowledged. *)
Section trace.
  Context {T : Type}.

Record Trace := mkTrace { work : WorkQueue T; accepted : list T; delivered : list (Delivery T); acked : list Z }.

Definition trace_step (t : Trace) (op : WorkOp T) : Trace :=
  let '(a, q) := work_step (work t) op in
  mkTrace q
    (accepted t ++ match op, a with Push v, AItem (Ok _) => [v] | _, _ => [] end)
    (delivered t ++ match a with ADelivery (Ok (Some d)) => [d] | _ => [] end)
    (acked t ++ match op, a with
                | Ack w id, ABool true => match in_flight (work t) !! id with Some d => [d_item d] | None => [] end
                | _, _ => []
                end).

Definition trace_of (q : WorkQueue T) (ops : list (WorkOp T)) : Trace := foldl trace_step (mkTrace q [] [] []) ops.

(** How often the item was handed out. *)
Definition deliveries_of (k : Z) (ds : list (Delivery T)) : nat := length (filter (λ d, d_item d = k) ds).

(** The places where an item can be: its number, value and attempts. *)
Definition token (d : Delivery T) : Z * T * Z := (d_item d, d_value d, attempt d).
Definition pending_tokens (q : WorkQueue T) : list (Z * T * Z) := (λ i, (i_item i, i_value i, i_attempts i)) <$> pending q.
Definition flight_tokens (q : WorkQueue T) : list (Z * T * Z) := token <$> (map_to_list (in_flight q)).*2.
Definition dead_tokens (q : WorkQueue T) : list (Z * T * Z) := (λ l, (l_item l, l_value l, l_attempts l)) <$> dead_letters q.
Definition tokens (q : WorkQueue T) : list (Z * T * Z) := pending_tokens q ++ flight_tokens q ++ dead_tokens q.

End trace.
Arguments Trace T : clear implicits.

Section work_correct.
  Context {T : Type}.
  Implicit Types (q : WorkQueue T) (d : Delivery T).

Lemma tokens_fail q d r : tokens (fail_locked q d r) ≡ₚ token d :: tokens q.
Proof.
  unfold fail_locked, tokens, pending_tokens, flight_tokens, dead_tokens. case_match; simpl; rewrite fmap_app; simpl.
  - rewrite !app_assoc, (Permutation_app_comm _ [_]). done.
  - rewrite <- app_assoc. symmetry. apply Permutation_middle.
Qed.

Lemma tokens_take q id d : in_flight q !! id = Some d →
  tokens q ≡ₚ token d :: tokens (with_flight q (delete id (in_flight q))).
Proof.
  intros Hd. unfold tokens, pending_tokens, flight_tokens, dead_tokens. simpl.
  rewrite <- (map_to_list_delete (in_flight q) id d Hd). simpl. symmetry. apply Permutation_middle.
Qed.

Lemma tokens_give q id d rest : in_flight q !! id = None →
  flight_tokens (with_flight q (<[id := d]> (in_flight q))) ++ rest ≡ₚ token d :: flight_tokens q ++ rest.
Proof. intros Hd. unfold flight_tokens. simpl. by rewrite map_to_list_insert by done. Qed.

Lemma deliveries_of_app k (l l' : list (Delivery T)) : deliveries_of k (l ++ l') = (deliveries_of k l + deliveries_of k l')%nat.
Proof. unfold deliveries_of. by rewrite filter_app, length_app. Qed.

Lemma deliveries_of_none k (l : list (Delivery T)) : (∀ d, d ∈ l → d_item d ≠ k) → deliveries_of k l = 0%nat.
Proof.
  unfold deliveries_of. induction l as [|d l IH]; intros Hl; [done|].
  rewrite filter_cons_False by (apply Hl; by left). apply IH. intros d' Hd'. apply Hl. by right.
Qed.

Lemma deliveries_of_one k (d : Delivery T) : deliveries_of k [d] = if decide (d_item d = k) then 1%nat else 0%nat.
Proof. unfold deliveries_of. rewrite filter_cons. by case_decide. Qed.

(** The books balance. *)
Record accounts q (acc : list T) (del : list (Delivery T)) (ack : list Z) : Prop := mkAccounts {
  acc_max : 0 < max_deliveries q < two64;
  acc_next : next_item_id q = Z.of_nat (length acc) ∧ Z.of_nat (length acc) ≤ u64_max;
  acc_next_delivery : next_delivery_id q = Z.of_nat (length del) ∧ Z.of_nat (length del) ≤ u64_max;
  acc_ids : delivery_id <$> del = seqZ 0 (Z.of_nat (length del));
  acc_perm : (tokens q).*1.*1 ++ ack ≡ₚ seqZ 0 (Z.of_nat (length acc));
  acc_token : ∀ k v a, (k, v, a) ∈ tokens q → acc !! Z.to_nat k = Some v ∧ a = Z.of_nat (deliveries_of k del);
  acc_pending : ∀ i, i ∈ pending q → i_attempts i < max_deliveries q;
  acc_flight : ∀ id d, in_flight q !! id = Some d → delivery_id d = id ∧ d ∈ del ∧ attempt d ≤ max_deliveries q;
  acc_dead : ∀ l, l ∈ dead_letters q → l_attempts l = max_deliveries q;
  acc_items : ∀ d, d ∈ del → 0 ≤ d_item d < Z.of_nat (length acc);
  acc_most : ∀ k, Z.of_nat (deliveries_of k del) ≤ max_deliveries q;
}.

Lemma accounts_readers q r acc del ack : accounts q acc del ack → accounts (with_readers q r) acc del ack.
Proof. by intros []. Qed.

Lemma accounts_fail q id d r acc del ack : accounts q acc del ack → in_flight q !! id = Some d →
  accounts (fail_locked (with_flight q (delete id (in_flight q))) d r) acc del ack.
Proof.
  intros [Hm Hn Hnd Hids Hp Ht Hpe Hf Hde Hi Hmo] Hd.
  assert (Htok : tokens (fail_locked (with_flight q (delete id (in_flight q))) d r) ≡ₚ tokens q)
    by (rewrite tokens_fail; symmetry; by apply tokens_take).
  assert (Hsame : max_deliveries (fail_locked (with_flight q (delete id (in_flight q))) d r) = max_deliveries q ∧
    next_item_id (fail_locked (with_flight q (delete id (in_flight q))) d r) = next_item_id q ∧
    next_delivery_id (fail_locked (with_flight q (delete id (in_flight q))) d r) = next_delivery_id q ∧
    in_flight (fail_locked (with_flight q (delete id (in_flight q))) d r) = delete id (in_flight q))
    by (unfold fail_locked; by case_match).
  destruct Hsame as (Em & En & End & Ef). split; rewrite ?Em, ?En, ?End, ?Ef; try done.
  - by rewrite Htok.
  - intros k v a. rewrite Htok. apply Ht.
  - unfold fail_locked. simpl. destruct (_ <=? _) eqn:E; zify_bools; simpl; [done|].
    intros i [?| ->%list_elem_of_singleton]%elem_of_app; [auto|done].
  - intros id' d' [_ ?]%lookup_delete_Some. auto.
  - unfold fail_locked. simpl. destruct (_ <=? _) eqn:E; zify_bools; simpl; [|done].
    intros l [?| ->%list_elem_of_singleton]%elem_of_app; [auto|]. simpl. destruct (Hf _ _ Hd) as (_ & _ & ?). lia.
Qed.

Lemma accounts_expire q id acc del ack : accounts q acc del ack → accounts (expire q id) acc del ack.
Proof. intros Ha. unfold expire. destruct (in_flight q !! id) eqn:E; [by apply accounts_fail|done]. Qed.

Lemma accounts_reap q ids acc del ack : accounts q acc del ack → accounts (foldl expire q ids) acc del ack.
Proof. revert q. induction ids as [|id ids IH]; intros q Ha; [done|]. by apply IH, accounts_expire. Qed.

Lemma item_ids_snoc n : seqZ 0 (Z.of_nat (n + 1)) = seqZ 0 (Z.of_nat n) ++ [Z.of_nat n].
Proof. rewrite Nat2Z.inj_add, seqZ_app by lia. done. Qed.

Lemma accounts_push q v acc del ack : accounts q acc del ack → next_item_id q ≠ u64_max →
  accounts (mkWork (pending q ++ [mkItem (next_item_id q) v 0]) (in_flight q) (dead_letters q) (u64 (next_item_id q + 1))
    (next_delivery_id q) (readers q) (visibility_timeout q) (max_deliveries q)) (acc ++ [v]) del ack.
Proof.
  intros [Hm Hn Hnd Hids Hp Ht Hpe Hf Hde Hi Hmo] Hne. destruct Hn as [Hn Hnb].
  assert (Htok : tokens (mkWork (pending q ++ [mkItem (next_item_id q) v 0]) (in_flight q) (dead_letters q)
    (u64 (next_item_id q + 1)) (next_delivery_id q) (readers q) (visibility_timeout q) (max_deliveries q)) ≡ₚ
    (next_item_id q, v, 0) :: tokens q).
  { unfold tokens, pending_tokens, flight_tokens, dead_tokens. simpl. rewrite fmap_app, <- app_assoc. simpl.
    symmetry. apply Permutation_middle. }
  split; simpl; try done.
  - rewrite length_app. simpl. rewrite u64_small by (unfold is_u64, two64, u64_max in *; lia). lia.
  - rewrite Htok, length_app, item_ids_snoc, <- Hp. simpl. rewrite Hn. by rewrite (Permutation_app_comm _ [_]).
  - intros k w a. rewrite Htok. intros [[= -> -> ->]|Hin]%elem_of_cons.
    + split; [rewrite Hn, Nat2Z.id; by apply list_lookup_middle|]. rewrite deliveries_of_none; [done|].
      intros d Hd. specialize (Hi d Hd). lia.
    + destruct (Ht _ _ _ Hin) as [Hl Ha]. split; [by apply lookup_app_l_Some|done].
  - intros i [?| ->%list_elem_of_singleton]%elem_of_app; [auto|]. simpl. lia.
  - intros d Hd. rewrite length_app. specialize (Hi d Hd). lia.
Qed.

(** The number of the item at the head of the queue occurs in no other token. *)
Lemma token_unique q acc del ack t rest : accounts q acc del ack → tokens q ≡ₚ t :: rest →
  ∀ t', t' ∈ rest → t'.1.1 ≠ t.1.1.
Proof.
  intros Ha Hp t' Hin E. pose proof (NoDup_seqZ 0 (Z.of_nat (length acc))) as Hnd.
  rewrite <- (acc_perm _ _ _ _ Ha), Hp in Hnd. simpl in Hnd. apply NoDup_cons in Hnd as [Hnin _]. apply Hnin.
  apply elem_of_app. left. rewrite <- E. by do 2 apply list_elem_of_fmap_2.
Qed.

Lemma accounts_claim q item rest w dl acc del ack : accounts q acc del ack → pending q = item :: rest →
  next_delivery_id q ≠ u64_max →
  let d := mkDelivery (next_delivery_id q) (i_item item) (i_value item) w (u64 (i_attempts item + 1)) dl in
  accounts (mkWork rest (<[delivery_id d := d]> (in_flight q)) (dead_letters q) (next_item_id q)
    (u64 (next_delivery_id q + 1)) (readers q) (visibility_timeout q) (max_deliveries q)) acc (del ++ [d]) ack.
Proof.
  intros Ha Hpend Hne d. pose proof Ha as [Hm Hn Hnd Hids Hp Ht Hpe Hf Hde Hi Hmo]. destruct Hnd as [Hnd Hndb].
  set (t0 := (i_item item, i_value item, i_attempts item)).
  set (others := (λ i, (i_item i, i_value i, i_attempts i)) <$> rest).
  assert (Hq : tokens q ≡ₚ t0 :: others ++ flight_tokens q ++ dead_tokens q)
    by (unfold tokens, pending_tokens; by rewrite Hpend).
  assert (Hfresh : in_flight q !! delivery_id d = None).
  { destruct (in_flight q !! delivery_id d) as [d'|] eqn:E; [|done]. destruct (Hf _ _ E) as (Ei & Hin & _).
    apply (list_elem_of_fmap_2 delivery_id) in Hin. rewrite Hids, Ei in Hin. simpl in Hin. apply elem_of_seqZ in Hin. lia. }
  set (q' := mkWork _ _ _ _ _ _ _ _).
  assert (Hq' : tokens q' ≡ₚ token d :: others ++ flight_tokens q ++ dead_tokens q).
  { unfold tokens. fold others. change (flight_tokens q') with (flight_tokens (with_flight q (<[delivery_id d := d]> (in_flight q)))).
    change (dead_tokens q') with (dead_tokens q). change (pending_tokens q') with others.
    rewrite (tokens_give _ _ _ (dead_tokens q) Hfresh). symmetry. apply Permutation_middle. }
  assert (Hit : acc !! Z.to_nat (i_item item) = Some (i_value item) ∧ i_attempts item = Z.of_nat (deliveries_of (i_item item) del))
    by (apply Ht; rewrite Hq; by left).
  assert (Hlt : i_attempts item < max_deliveries q) by (apply Hpe; rewrite Hpend; by left).
  assert (Hatt : attempt d = i_attempts item + 1) by (simpl; rewrite u64_small by (unfold is_u64; lia); done).
  assert (Hidx : 0 ≤ i_item item < Z.of_nat (length acc)).
  { assert (Hin : i_item item ∈ (tokens q).*1.*1 ++ ack) by (rewrite Hq; simpl; by left).
    rewrite Hp in Hin. apply elem_of_seqZ in Hin. lia. }
  assert (Hcount : ∀ k, deliveries_of k (del ++ [d]) = (deliveries_of k del + if decide (i_item item = k) then 1 else 0)%nat)
    by (intros k; by rewrite deliveries_of_app, deliveries_of_one).
  split; simpl; try done.
  - rewrite length_app. simpl. rewrite u64_small by (unfold is_u64, two64, u64_max in *; lia). unfold u64_max in *. lia.
  - rewrite fmap_app, Hids, length_app. simpl. rewrite item_ids_snoc, Hnd. done.
  - rewrite Hq', <- Hp, Hq. done.
  - intros k v a. rewrite Hq', Hcount. intros [[= -> -> ->]|Hin]%elem_of_cons.
    + rewrite decide_True by done. simpl in Hatt. rewrite Hatt. split; [apply Hit|]. lia.
    + rewrite decide_False.
      * rewrite Nat.add_0_r. apply Ht. rewrite Hq. by right.
      * intros <-. by eapply (token_unique _ _ _ _ _ _ Ha Hq).
  - intros i Hin. apply Hpe. rewrite Hpend. by right.
  - intros id d' [[<- <-]|[_ Hl]]%lookup_insert_Some.
    + rewrite Hatt. split_and!; [done|apply elem_of_app; right; by left|lia].
    + destruct (Hf _ _ Hl) as (? & ? & ?). split_and!; [done|apply elem_of_app; by left|done].
  - intros d' [?| ->%list_elem_of_singleton]%elem_of_app; [auto|done].
  - intros k. rewrite Hcount. case_decide as E; [|rewrite Nat.add_0_r; apply Hmo]. subst k. lia.
Qed.

Lemma accounts_ack q id d acc del ack : accounts q acc del ack → in_flight q !! id = Some d →
  accounts (with_flight q (delete id (in_flight q))) acc del (ack ++ [d_item d]).
Proof.
  intros [Hm Hn Hnd Hids Hp Ht Hpe Hf Hde Hi Hmo] Hd. pose proof (tokens_take q id d Hd) as Htok. split; simpl; try done.
  - rewrite Htok in Hp. simpl in Hp. rewrite <- Hp, app_assoc. by rewrite (Permutation_app_comm _ [_]).
  - intros k v a Hin. apply Ht. rewrite Htok. by right.
  - intros id' d' [_ ?]%lookup_delete_Some. auto.
Qed.

Lemma held_Some q w id d : held q w id = Some d → in_flight q !! id = Some d.
Proof. unfold held. repeat case_match; congruence. Qed.

Lemma trace_step_accounts (t : Trace T) op :
  accounts (work t) (accepted t) (delivered t) (acked t) →
  let t' := trace_step t op in accounts (work t') (accepted t') (delivered t') (acked t').
Proof.
  destruct t as [q acc del ack]. simpl. intros Ha. unfold trace_step. destruct op; simpl.
  - unfold work_push. destruct (_ =? _) eqn:E; zify_bools; simpl; rewrite ?app_nil_r; [done|].
    by apply accounts_readers, accounts_push.
  - unfold work_claim. destruct (pending q) as [|item rest] eqn:Ep; simpl; rewrite ?app_nil_r; [done|].
    destruct (_ =? _) eqn:E; zify_bools; simpl; rewrite ?app_nil_r; [done|].
    destruct (_ <? _); simpl; rewrite ?app_nil_r; [done|]. by apply accounts_readers, accounts_claim.
  - unfold work_ack. destruct (held q w id) as [d|] eqn:E; simpl; rewrite ?app_nil_r; [|done].
    rewrite (held_Some _ _ _ _ E). by apply accounts_readers, accounts_ack, held_Some with w.
  - unfold work_nack. destruct (held q w id) as [d|] eqn:E; simpl; rewrite ?app_nil_r; [|done].
    by apply accounts_readers, accounts_fail, held_Some with w.
  - unfold work_reap. case_bool_decide; simpl; rewrite ?app_nil_r; [done|]. by apply accounts_readers, accounts_reap.
  - unfold pending_len. destruct (reader_get _ _); simpl; rewrite ?app_nil_r. by apply accounts_readers.
  - unfold work_is_empty. destruct (reader_get _ _); simpl; rewrite ?app_nil_r. by apply accounts_readers.
  - unfold in_flight_len. destruct (reader_get _ _); simpl; rewrite ?app_nil_r. by apply accounts_readers.
  - unfold dead_letter_len. destruct (reader_get _ _); simpl; rewrite ?app_nil_r. by apply accounts_readers.
Qed.

Lemma expire_max q ids : max_deliveries (foldl expire q ids) = max_deliveries q.
Proof.
  revert q. induction ids as [|id ids IH]; intros q; [done|]. simpl. rewrite IH. unfold expire, fail_locked. by repeat case_match.
Qed.

Lemma work_step_max q op : max_deliveries (work_step q op).2 = max_deliveries q.
Proof.
  destruct op; simpl; unfold work_push, work_claim, work_ack, work_nack, work_reap, pending_len, work_is_empty,
    in_flight_len, dead_letter_len; repeat (case_match; simplify_eq/=); try done; try apply expire_max.
  unfold fail_locked. by case_match.
Qed.

Lemma trace_of_max q ops : max_deliveries (work (trace_of q ops)) = max_deliveries q.
Proof.
  unfold trace_of. induction ops as [|op ops IH] using rev_ind; [done|]. rewrite foldl_app. simpl. rewrite <- IH.
  set (t := foldl _ _ _). rewrite <- (work_step_max (work t) op). unfold trace_step. by destruct (work_step _ op).
Qed.

Lemma trace_of_accounts q ops : accounts q [] [] [] →
  let t := trace_of q ops in accounts (work t) (accepted t) (delivered t) (acked t).
Proof.
  intros Ha. unfold trace_of. induction ops as [|op ops IH] using rev_ind; [done|]. rewrite foldl_app. by apply trace_step_accounts.
Qed.

Lemma new_accounts vt md q : is_u64 md → work_new vt md = Ok q → accounts q [] [] [] ∧ max_deliveries q = md.
Proof.
  intros Hmd Hnew. unfold work_new in Hnew. destruct (vt =? 0) eqn:E1; [done|]. destruct (md =? 0) eqn:E2; [done|].
  zify_bools. injection Hnew as <-. split; [|done]. unfold is_u64 in Hmd.
  split; simpl; try done; try lia; try (by intros; set_solver).
Qed.

(** C25: A work queue loses no item and doubles none.  After any operations on a new
    queue, the items waiting, in flight, set aside and acknowledged are exactly
    the accepted ones, each in one place; a waiting, flying or dead item
    carries the value it was pushed with and the number of times it has been
    delivered; delivery ids are never reused; no item is delivered more often
    than the limit, a waiting one less often, and a dead one exactly as often. *)
Theorem work_queue_conserves_items (vt md : Z) (q : WorkQueue T) (ops : list (WorkOp T)) :
  is_u64 md → work_new vt md = Ok q →
  let t := trace_of q ops in
  (tokens (work t)).*1.*1 ++ acked t ≡ₚ seqZ 0 (Z.of_nat (length (accepted t))) ∧
  (∀ k v a, (k, v, a) ∈ tokens (work t) →
    accepted t !! Z.to_nat k = Some v ∧ a = Z.of_nat (deliveries_of k (delivered t))) ∧
  delivery_id <$> delivered t = seqZ 0 (Z.of_nat (length (delivered t))) ∧
  (∀ k, Z.of_nat (deliveries_of k (delivered t)) ≤ md) ∧
  (∀ k v a, (k, v, a) ∈ pending_tokens (work t) → a < md) ∧
  (∀ k v a, (k, v, a) ∈ dead_tokens (work t) → a = md).
Proof.
  intros Hmd Hnew t. destruct (new_accounts vt md q Hmd Hnew) as [Ha Hmax].
  pose proof (trace_of_accounts q ops Ha) as Ht. pose proof (trace_of_max q ops) as Hm. fold t in Ht, Hm. simpl in Ht.
  destruct Ht as [_ _ _ Hids Hp Htok Hpe _ Hde _ Hmo]. rewrite Hm, Hmax in *. split_and!; [done..| |].
  - intros k v a Hin. unfold pending_tokens in Hin. apply list_elem_of_fmap in Hin as (i & [= -> -> ->] & Hi). by apply Hpe.
  - intros k v a Hin. unfold dead_tokens in Hin. apply list_elem_of_fmap in Hin as (l & [= -> -> ->] & Hl). by apply Hde.
Qed.

(** The readers are never stale. *)
Definition readers_fresh q : Prop :=
  fresh (pending_reader (readers q)) (length (pending q)) ∧ fresh (empty_reader (readers q)) (length (pending q) =? 0)%nat ∧
  fresh (flight_reader (readers q)) (size (in_flight q)) ∧ fresh (dead_reader (readers q)) (length (dead_letters q)).

Lemma invalidate_fresh q q' : readers_fresh q → readers q' = readers q → readers_fresh (invalidate q' (counts q) (counts q')).
Proof.
  intros (H1 & H2 & H3 & H4) E. unfold readers_fresh. simpl. rewrite E.
  split_and!; (eapply fresh_keep; [done|]); intros Hc%negb_false_iff; [by zify_bools| |by zify_bools..].
  by apply Bool.eqb_prop in Hc.
Qed.

Lemma fail_readers q d r : readers (fail_locked q d r) = readers q.
Proof. unfold fail_locked. by case_match. Qed.

Lemma expire_readers q ids : readers (foldl expire q ids) = readers q.
Proof.
  revert q. induction ids as [|id ids IH]; intros q; [done|]. simpl. rewrite IH. unfold expire. case_match; [by rewrite fail_readers|done].
Qed.

(** Every reader of a work queue answers the length it names, whatever was done
    and read before: what is left cached is what has not changed. *)
Lemma work_readers_answer q op : readers_fresh q →
  readers_fresh (work_step q op).2 ∧
  match op with
  | PendingLen => (work_step q op).1 = ALen (length (pending q))
  | IsEmpty => (work_step q op).1 = ABool (bool_decide (pending q = []))
  | InFlightLen => (work_step q op).1 = ALen (size (in_flight q))
  | DeadLetterLen => (work_step q op).1 = ALen (length (dead_letters q))
  | _ => True
  end.
Proof.
  intros Hf. destruct op; simpl.
  - unfold work_push. destruct (_ =? _); [done|]. split; [by apply invalidate_fresh|done].
  - unfold work_claim. destruct (pending q); [done|]. destruct (_ =? _); [done|]. destruct (_ <? _); [done|].
    split; [by apply invalidate_fresh|done].
  - unfold work_ack. destruct (held q w id); [|done]. split; [by apply invalidate_fresh|done].
  - unfold work_nack. destruct (held q w id); [|done]. split; [|done]. apply invalidate_fresh; [done|by rewrite fail_readers].
  - unfold work_reap. case_bool_decide; simpl; [done|]. split; [|done]. apply invalidate_fresh; [done|by rewrite expire_readers].
  - destruct Hf as (H1 & H2 & H3 & H4). unfold pending_len. destruct (reader_get_fresh _ _ H1) as [Hv Hr], (reader_get _ _).
    simpl in *. split; [by split_and!|by rewrite Hv].
  - destruct Hf as (H1 & H2 & H3 & H4). unfold work_is_empty. destruct (reader_get_fresh _ _ H2) as [Hv Hr], (reader_get _ _).
    simpl in *. split; [by split_and!|]. rewrite Hv. by destruct (pending q).
  - destruct Hf as (H1 & H2 & H3 & H4). unfold in_flight_len. destruct (reader_get_fresh _ _ H3) as [Hv Hr], (reader_get _ _).
    simpl in *. split; [by split_and!|by rewrite Hv].
  - destruct Hf as (H1 & H2 & H3 & H4). unfold dead_letter_len. destruct (reader_get_fresh _ _ H4) as [Hv Hr], (reader_get _ _).
    simpl in *. split; [by split_and!|by rewrite Hv].
Qed.

End work_correct.

(** Two items, two deliveries at most: one acknowledged, one refused and then expired. *)
Lemma work_queue_conserves_items_witness :
  let ops := [Push 7; Push 8; Claim "w" 0; Claim "v" 0; Ack "w" 0; Nack "v" 1; Claim "w" 5; Reap 100] in
  let t := trace_of (mkWork [] ∅ [] 0 0 (mkReaders None None None None) 10 2) ops in
  tokens (work t) = [(1, 8, 2)] ∧ acked t = [0] ∧
  ((tokens (work t)).*1.*1 ++ acked t ≡ₚ seqZ 0 (Z.of_nat (length (accepted t))) ∧
  (∀ k v a, (k, v, a) ∈ tokens (work t) →
    accepted t !! Z.to_nat k = Some v ∧ a = Z.of_nat (deliveries_of k (delivered t))) ∧
  delivery_id <$> delivered t = seqZ 0 (Z.of_nat (length (delivered t))) ∧
  (∀ k, Z.of_nat (deliveries_of k (delivered t)) ≤ 2) ∧
  (∀ k v a, (k, v, a) ∈ pending_tokens (work t) → a < 2) ∧
  (∀ k v a, (k, v, a) ∈ dead_tokens (work t) → a = 2)).
Proof.
  intros ops t. split; [vm_compute; reflexivity|]. split; [vm_compute; reflexivity|].
  apply (work_queue_conserves_items 10 2 _ ops); [unfold is_u64, two64; lia|reflexivity].
Defined.
