(* ===== verification/Outbox.v ===== *)
(** * Durable outbox: byte stores, the journal, and the ack/replay protocol

    Models the DurableOutbox part of include/lazily/reliable_sync.hpp: the
    contract of an ordered byte store as a type class with its laws, the
    in-memory store and the append-only journal that implement it, and the
    outbox protocol over any store.  The journal is the content of its file, a
    list of bytes; opening, locking and syncing the file are left out, and a
    write cut short by a crash is a prefix of the record.  Encoding a message
    is the promise of the codec, a class of its own. *)
From S2P Require Import Prelude.
#[local] Open Scope Z_scope.

(** ** Little-endian words *)

(* include/lazily/reliable_sync.hpp:336-340, FileOutboxStore::append_u64 *)
Definition append_u64 (value : Z) : list Z :=
  (λ shift, Z.land (Z.shiftr value shift) 255) <$> [0; 8; 16; 24; 32; 40; 48; 56].

(* include/lazily/reliable_sync.hpp:342-348, FileOutboxStore::read_u64 *)
Definition read_u64 (data : list Z) : Z :=
  foldl (λ value shift, Z.lor value (Z.shiftl (default 0 (data !! Z.to_nat (shift / 8))) shift)) 0
    [0; 8; 16; 24; 32; 40; 48; 56].

Lemma length_append_u64 v : length (append_u64 v) = 8%nat.
Proof. done. Qed.

Lemma read_append_u64 v rest : is_u64 v → read_u64 (append_u64 v ++ rest) = v.
Proof.
  intros Hv. unfold read_u64. cbn [foldl].
  repeat match goal with |- context [default 0 ((append_u64 v ++ rest) !! Z.to_nat (?s / 8))] =>
    change (default 0 ((append_u64 v ++ rest) !! Z.to_nat (s / 8))) with (Z.land (Z.shiftr v s) 255) end.
  change 0 with (0 mod 2 ^ 0) at 1. replace (0 mod 2 ^ 0) with (v mod 2 ^ 0) at 1 by (by rewrite Z.pow_0_r, !Z.mod_1_r).
  rewrite !word_step by lia. apply Z.mod_small. exact Hv.
Qed.

(** ** The journal *)

(* include/lazily/reliable_sync.hpp:329-329, FileOutboxStore::kPut *)
Definition kPut : Z := 1.
(* include/lazily/reliable_sync.hpp:330-330, FileOutboxStore::kDelete *)
Definition kDelete : Z := 2.
(* include/lazily/reliable_sync.hpp:331-331, FileOutboxStore::kCursor *)
Definition kCursor : Z := 3.
(* include/lazily/reliable_sync.hpp:332-332, FileOutboxStore::kHeaderSize *)
Definition kHeaderSize : nat := 17.

(** What a record carries. *)
Record JournalRecord := mkRec { r_op : Z; r_epoch : Z; r_frame : list Z }.

Definition record_bytes (r : JournalRecord) : list Z :=
  r_op r :: append_u64 (r_epoch r) ++ append_u64 (Z.of_nat (length (r_frame r))) ++ r_frame r.

(** [None] is the exception for a negative epoch. *)
(* include/lazily/reliable_sync.hpp:362-371, FileOutboxStore::append_record *)
Definition append_record (file : list Z) (op epoch : Z) (frame : list Z) : option (list Z) :=
  if epoch <? 0 then None else Some (file ++ record_bytes (mkRec op epoch frame)).

(** The bytes from the offset on; each turn of the loop drops a whole record,
    so as many turns as bytes are enough ([records_fuel]). *)
(* include/lazily/reliable_sync.hpp:373-387, FileOutboxStore::for_each_record *)
Fixpoint records (fuel : nat) (bytes : list Z) : list JournalRecord :=
  match fuel with
  | O => []
  | S fuel =>
      if (length bytes <? kHeaderSize)%nat then []
      else
        let op := default 0 (bytes !! 0%nat) in
        let raw_epoch := read_u64 (drop 1 bytes) in
        let raw_len := read_u64 (drop 9 bytes) in
        if i64_max <? raw_epoch then []
        else if Z.of_nat (length bytes - kHeaderSize) <? raw_len then []
        else
          let len := Z.to_nat raw_len in
          mkRec op raw_epoch (take len (drop kHeaderSize bytes)) :: records fuel (drop (kHeaderSize + len) bytes)
  end.

Definition for_each_record (file : list Z) : list JournalRecord := records (length file) file.

#[local] Arguments record_bytes : simpl never.
#[local] Arguments append_u64 : simpl never.

(** A record as the store writes it. *)
Definition valid_record (r : JournalRecord) : Prop := 0 ≤ r_epoch r ≤ i64_max ∧ is_u64 (Z.of_nat (length (r_frame r))).

Lemma length_record_bytes r : length (record_bytes r) = (kHeaderSize + length (r_frame r))%nat.
Proof. done. Qed.

Lemma records_header r rest : valid_record r →
  let bytes := record_bytes r ++ rest in
  read_u64 (drop 1 bytes) = r_epoch r ∧ read_u64 (drop 9 bytes) = Z.of_nat (length (r_frame r)).
Proof.
  intros [He Hl] bytes. split.
  - change (drop 1 bytes) with (append_u64 (r_epoch r) ++ (append_u64 (Z.of_nat (length (r_frame r))) ++ r_frame r) ++ rest).
    apply read_append_u64. unfold is_u64, two64, i64_max in *. lia.
  - change (drop 9 bytes) with ((append_u64 (Z.of_nat (length (r_frame r))) ++ r_frame r) ++ rest).
    rewrite <- app_assoc. by apply read_append_u64.
Qed.

Lemma records_cons r rest fuel : valid_record r → records (S fuel) (record_bytes r ++ rest) = r :: records fuel rest.
Proof.
  intros Hv. destruct (records_header r rest Hv) as [Ee El]. destruct Hv as [He Hl].
  cbn [records]. rewrite Ee, El. rewrite length_app, length_record_bytes.
  destruct (_ <? _)%nat eqn:E1; zify_bools; [lia|]. destruct (i64_max <? _) eqn:E2; zify_bools; [lia|].
  destruct (Z.of_nat _ <? _) eqn:E3; zify_bools; [lia|]. rewrite Nat2Z.id. f_equal.
  - destruct r as [op e f]. simpl. f_equal. by rewrite drop_0, take_app_length.
  - f_equal. change (kHeaderSize + length (r_frame r))%nat with (length (record_bytes r)). apply drop_app_length.
Qed.

(** A record cut short is not read. *)
Lemma records_torn r n fuel : valid_record r → (n < length (record_bytes r))%nat → records fuel (take n (record_bytes r)) = [].
Proof.
  intros Hv Hn. destruct fuel as [|fuel]; [done|]. cbn [records]. rewrite length_take, Nat.min_l by lia.
  destruct (n <? kHeaderSize)%nat eqn:E; zify_bools; [done|].
  rewrite length_record_bytes in Hn.
  assert (El : read_u64 (drop 9 (take n (record_bytes r))) = Z.of_nat (length (r_frame r))).
  { replace (take n (record_bytes r)) with (r_op r :: append_u64 (r_epoch r) ++ append_u64 (Z.of_nat (length (r_frame r))) ++
      take (n - kHeaderSize) (r_frame r)).
    - apply read_append_u64, Hv.
    - replace n with (kHeaderSize + (n - kHeaderSize))%nat at 2 by lia. done. }
  rewrite El. destruct (i64_max <? _); [done|]. destruct (_ <? Z.of_nat _) eqn:E2; zify_bools; [done|lia].
Qed.

Lemma records_app rs rest fuel : Forall valid_record rs → (length rs ≤ fuel)%nat →
  records fuel (concat (record_bytes <$> rs) ++ rest) = rs ++ records (fuel - length rs) rest.
Proof.
  intros Hv. revert fuel. induction Hv as [|r rs Hr Hv IH]; intros fuel Hf; cbn [fmap list_fmap concat length]; [by rewrite Nat.sub_0_r|].
  destruct fuel as [|fuel]; [simpl in Hf; lia|]. rewrite <- app_assoc, records_cons by done.
  rewrite IH by (simpl in Hf; lia). done.
Qed.

Lemma length_journal rs : (length rs ≤ length (concat (record_bytes <$> rs)))%nat.
Proof. induction rs as [|r rs IH]; [done|]. cbn [fmap list_fmap concat]. rewrite length_app, length_record_bytes. simpl. lia. Qed.

(** C18: The journal reads back what was written to it, and a crash in the middle of
    a write costs that record only.  Reading a file that holds any records
    written in full, followed by any proper prefix of one more record, visits
    exactly the records written in full, in order, with their operation, epoch
    and frame. *)
Theorem journal_survives_torn_write (rs : list JournalRecord) (r : JournalRecord) (n : nat) :
  Forall valid_record rs → valid_record r → (n < length (record_bytes r))%nat →
  for_each_record (concat (record_bytes <$> rs) ++ take n (record_bytes r)) = rs.
Proof.
  intros Hrs Hr Hn. unfold for_each_record. rewrite records_app, records_torn by
    (done || (rewrite length_app; pose proof (length_journal rs); lia)). apply app_nil_r.
Qed.

Lemma journal_survives_torn_write_witness :
  let rs := [mkRec kPut 1 [10; 20]; mkRec kCursor 1 []; mkRec kPut 2 [30]] in
  for_each_record (concat (record_bytes <$> rs) ++ take 18 (record_bytes (mkRec kPut 3 [40; 50]))) = rs.
Proof.
  apply journal_survives_torn_write; [|split; [simpl; unfold i64_max; lia|unfold is_u64, two64; simpl; lia]|simpl; lia].
  repeat constructor; simpl; unfold i64_max, two64; lia.
Defined.

Lemma for_each_record_journal rs : Forall valid_record rs → for_each_record (concat (record_bytes <$> rs)) = rs.
Proof.
  intros Hrs. unfold for_each_record. rewrite <- (app_nil_r (concat _)) at 2. rewrite records_app by (done || apply length_journal).
  destruct (_ - _)%nat; simpl; by rewrite app_nil_r.
Qed.

(** A record appended after a torn one is not read: the reader takes its first
    bytes for the missing end of the frame, and loses the rest.  Here a cursor
    saved after a crash is lost, and an invented frame appears. *)
Lemma append_after_torn_write_is_lost :
  let torn := take 17 (record_bytes (mkRec kPut 1 [99])) in
  for_each_record (torn ++ record_bytes (mkRec kCursor 7 [])) = [mkRec kPut 1 [3]].
Proof. vm_compute. done. Qed.

(** ** The store contract *)

(** The five operations a backend provides; [None] is an exception. *)
(* include/lazily/reliable_sync.hpp:175-191, OutboxStore *)
Class OutboxStore (S : Type) := {
  store_put : Z → list Z → S → option S;
  store_delete_through : Z → S → option S;
  store_scan_after : Z → S → list (Z * list Z);
  store_load_cursor : S → Z;
  store_save_cursor : Z → S → option S;
}.

Definition is_epoch (e : Z) : Prop := 0 ≤ e ≤ i64_max.

(** What the protocol relies on: of all frames put, the store still has those
    above the highest epoch it was told to delete through, and it keeps the
    highest cursor. *)
Class OutboxStoreLaws (S : Type) `{OutboxStore S} := {
  store_holds : S → gmap Z (list Z) → Z → Z → Prop;
  store_put_ok s m low cur e f : store_holds s m low cur → is_epoch e → is_u64 (Z.of_nat (length f)) →
    ∃ s', store_put e f s = Some s' ∧ store_holds s' (<[e := f]> m) low cur;
  store_delete_ok s m low cur e : store_holds s m low cur → is_epoch e →
    ∃ s', store_delete_through e s = Some s' ∧ store_holds s' m (Z.max low e) cur;
  store_save_ok s m low cur e : store_holds s m low cur → is_epoch e →
    ∃ s', store_save_cursor e s = Some s' ∧ store_holds s' m low (Z.max cur e);
  store_scan_ok s m low cur c : store_holds s m low cur → low ≤ c →
    store_scan_after c s ≡ₚ filter (λ p : Z * list Z, c < p.1) (map_to_list m);
  store_cursor_ok s m low cur : store_holds s m low cur → store_load_cursor s = cur;
}.

(** Ordering by epoch. *)
Definition by_epoch {A : Type} : relation (Z * A) := λ a b, a.1 ≤ b.1.
#[export] Instance by_epoch_dec {A} : RelDecision (by_epoch (A:=A)) := λ a b, decide (a.1 ≤ b.1).
#[export] Instance by_epoch_total {A} : Total (by_epoch (A:=A)).
Proof. intros a b. unfold by_epoch. lia. Qed.
#[export] Instance by_epoch_trans {A} : Transitive (by_epoch (A:=A)).
Proof. intros a b c. unfold by_epoch. lia. Qed.

(** The entries above [c], oldest first. *)
Definition entries_after {A : Type} (c : Z) (m : gmap Z A) : list (Z * A) :=
  merge_sort by_epoch (filter (λ p : Z * A, c < p.1) (map_to_list m)).

(** ** The in-memory store *)

(* include/lazily/reliable_sync.hpp:215-216, InMemoryStore (data members) *)
Record InMemoryStore := mkMemory { entries_ : gmap Z (list Z); cursor_ : Z }.

(* include/lazily/reliable_sync.hpp:197-197, InMemoryStore::put *)
Definition memory_put (e : Z) (f : list Z) (s : InMemoryStore) : InMemoryStore := mkMemory (<[e := f]> (entries_ s)) (cursor_ s).

(* include/lazily/reliable_sync.hpp:199-201, InMemoryStore::delete_through *)
Definition memory_delete_through (e : Z) (s : InMemoryStore) : InMemoryStore :=
  mkMemory (filter (λ p : Z * list Z, ¬ (p.1 ≤ e)) (entries_ s)) (cursor_ s).

(* include/lazily/reliable_sync.hpp:203-209, InMemoryStore::scan_after *)
Definition memory_scan_after (c : Z) (s : InMemoryStore) : list (Z * list Z) := entries_after c (entries_ s).

(* include/lazily/reliable_sync.hpp:212-212, InMemoryStore::save_cursor *)
Definition memory_save_cursor (e : Z) (s : InMemoryStore) : InMemoryStore := mkMemory (entries_ s) (Z.max (cursor_ s) e).

#[export] Instance memory_store : OutboxStore InMemoryStore := {
  store_put e f s := Some (memory_put e f s);
  store_delete_through e s := Some (memory_delete_through e s);
  store_scan_after := memory_scan_after;
  store_load_cursor := cursor_;
  store_save_cursor e s := Some (memory_save_cursor e s);
}.

(** Maps that agree above [c] have the same entries there. *)
Lemma entries_agree {A} (c : Z) (m m' : gmap Z A) : (∀ e, c < e → m !! e = m' !! e) →
  filter (λ p : Z * A, c < p.1) (map_to_list m) ≡ₚ filter (λ p : Z * A, c < p.1) (map_to_list m').
Proof.
  intros Heq. apply NoDup_Permutation; [apply NoDup_filter, NoDup_map_to_list..|].
  intros [e a]. rewrite !list_elem_of_filter, !elem_of_map_to_list. simpl. split; intros [Hc Hl]; (split; [done|]);
    [rewrite <- Heq|rewrite Heq]; done.
Qed.

Lemma entries_after_perm {A} (c : Z) (m : gmap Z A) : entries_after c m ≡ₚ filter (λ p : Z * A, c < p.1) (map_to_list m).
Proof. apply merge_sort_Permutation. Qed.

#[export, refine] Instance memory_store_laws : OutboxStoreLaws InMemoryStore := {
  store_holds s m low cur := (∀ e, low < e → entries_ s !! e = m !! e) ∧ cursor_ s = cur;
}.
Proof.
  - intros [es cu] m low cur e f [Hm <-] _ _. eexists. split; [done|]. simpl in *. split; [|done].
    intros e' He. destruct (decide (e' = e)) as [->|]; [by rewrite !lookup_insert_eq|]. rewrite !lookup_insert_ne by done. auto.
  - intros [es cu] m low cur e [Hm <-] _. eexists. split; [done|]. simpl in *. split; [|done].
    intros e' He. rewrite <- Hm by lia. destruct (es !! e') as [f|] eqn:E.
    + apply map_lookup_filter_Some. split; [done|]. simpl. lia.
    + apply map_lookup_filter_None. by left.
  - intros [es cu] m low cur e [Hm <-] _. eexists. split; [done|]. by split.
  - intros [es cu] m low cur c [Hm <-] Hc. simpl in *. unfold memory_scan_after. rewrite entries_after_perm.
    apply entries_agree. intros e He. apply Hm. simpl. lia.
  - by intros s m low cur [_ ?].
Defined.

(** ** The journal store *)

(** The content of the file. *)
Record FileOutboxStore := mkFile { content : list Z }.

(* include/lazily/reliable_sync.hpp:294-294, FileOutboxStore::put *)
Definition file_put (e : Z) (f : list Z) (s : FileOutboxStore) : option FileOutboxStore :=
  mkFile <$> append_record (content s) kPut e f.

(* include/lazily/reliable_sync.hpp:296-296, FileOutboxStore::delete_through *)
Definition file_delete_through (e : Z) (s : FileOutboxStore) : option FileOutboxStore :=
  mkFile <$> append_record (content s) kDelete e [].

(* include/lazily/reliable_sync.hpp:298-298, FileOutboxStore::save_cursor *)
Definition file_save_cursor (e : Z) (s : FileOutboxStore) : option FileOutboxStore :=
  mkFile <$> append_record (content s) kCursor e [].

(* include/lazily/reliable_sync.hpp:300-306, FileOutboxStore::load_cursor *)
Definition file_load_cursor (s : FileOutboxStore) : Z :=
  foldl (λ cursor r, if r_op r =? kCursor then Z.max cursor (r_epoch r) else cursor) 0 (for_each_record (content s)).

(* include/lazily/reliable_sync.hpp:308-324, FileOutboxStore::scan_after *)
Definition file_scan_after (cursor : Z) (s : FileOutboxStore) : list (Z * list Z) :=
  let '(entries, deleted_through) :=
    foldl (λ '(entries, deleted) r,
      if r_op r =? kPut then (<[r_epoch r := r_frame r]> entries, deleted)
      else if r_op r =? kDelete then (entries, Z.max deleted (r_epoch r))
      else (entries, deleted)) (∅, 0) (for_each_record (content s)) in
  entries_after (Z.max cursor deleted_through) entries.

#[export] Instance file_store : OutboxStore FileOutboxStore := {
  store_put := file_put;
  store_delete_through := file_delete_through;
  store_scan_after := file_scan_after;
  store_load_cursor := file_load_cursor;
  store_save_cursor := file_save_cursor;
}.

(** What a journal says, record by record. *)
Definition journal_entries (rs : list JournalRecord) : gmap Z (list Z) * Z :=
  foldl (λ '(entries, deleted) r,
    if r_op r =? kPut then (<[r_epoch r := r_frame r]> entries, deleted)
    else if r_op r =? kDelete then (entries, Z.max deleted (r_epoch r))
    else (entries, deleted)) (∅, 0) rs.
Definition journal_cursor (rs : list JournalRecord) : Z :=
  foldl (λ cursor r, if r_op r =? kCursor then Z.max cursor (r_epoch r) else cursor) 0 rs.

Definition journal_holds (s : FileOutboxStore) (m : gmap Z (list Z)) (low cur : Z) : Prop :=
  ∃ rs, content s = concat (record_bytes <$> rs) ∧ Forall valid_record rs ∧
    journal_entries rs = (m, low) ∧ journal_cursor rs = cur.

Lemma journal_snoc s m low cur op e f : journal_holds s m low cur → is_epoch e → is_u64 (Z.of_nat (length f)) →
  ∃ s', mkFile <$> append_record (content s) op e f = Some s' ∧
    journal_holds s' (if op =? kPut then <[e := f]> m else m)
      (if op =? kPut then low else if op =? kDelete then Z.max low e else low)
      (if op =? kCursor then Z.max cur e else cur).
Proof.
  intros (rs & Hc & Hv & He & Hcur) [He1 He2] Hf. unfold append_record. destruct (e <? 0) eqn:E; zify_bools; [lia|].
  eexists. split; [done|]. exists (rs ++ [mkRec op e f]). split_and!.
  - cbn [content]. rewrite Hc, fmap_app, concat_app. cbn [fmap list_fmap concat]. by rewrite app_nil_r.
  - apply Forall_app. split; [done|]. apply Forall_singleton. by split.
  - unfold journal_entries in *. rewrite foldl_app, He. simpl. by repeat case_match.
  - unfold journal_cursor in *. rewrite foldl_app, Hcur. done.
Qed.

#[export, refine] Instance file_store_laws : OutboxStoreLaws FileOutboxStore := { store_holds := journal_holds }.
Proof.
  - intros s m low cur e f Hs He Hf. by apply (journal_snoc s m low cur kPut).
  - intros s m low cur e Hs He. by apply (journal_snoc s m low cur kDelete).
  - intros s m low cur e Hs He. by apply (journal_snoc s m low cur kCursor).
  - intros [file] m low cur c (rs & Hf & Hv & He & Hcur) Hc. cbn [content] in Hf. subst file. unfold store_scan_after, file_store, file_scan_after. cbn [content].
    rewrite for_each_record_journal by done. fold (journal_entries rs). rewrite He, entries_after_perm.
    by rewrite Z.max_l by done.
  - intros [file] m low cur (rs & Hf & Hv & He & <-). cbn [content] in Hf. subst file. unfold store_load_cursor, file_store, file_load_cursor. cbn [content].
    by rewrite for_each_record_journal.
Defined.

(** ** The protocol *)

(** What the codec of messages promises the outbox. *)
Class FrameCodec (M : Type) := {
  encode : M → list Z;
  decode : list Z → option M;
  decode_encode m : decode (encode m) = Some m;
  encode_length m : is_u64 (Z.of_nat (length (encode m)));
}.

Section stored_outbox.
  Context {S M : Type} `{OutboxStore S} `{FrameCodec M}.

(* include/lazily/reliable_sync.hpp:277-278, StoredOutbox (data members) *)
Record StoredOutbox := mkOutbox { store_ : S; acked_through_ : Z }.

(* include/lazily/reliable_sync.hpp:229-230, StoredOutbox::StoredOutbox *)
Definition outbox_open (s : S) : StoredOutbox := mkOutbox s (store_load_cursor s).

(* include/lazily/reliable_sync.hpp:232-232, StoredOutbox::append *)
Definition outbox_append (o : StoredOutbox) (epoch : Z) (msg : M) : option StoredOutbox :=
  s ← store_put epoch (encode msg) (store_ o); Some (mkOutbox s (acked_through_ o)).

(* include/lazily/reliable_sync.hpp:234-243, StoredOutbox::ack_through *)
Definition outbox_ack_through (o : StoredOutbox) (epoch : Z) : option StoredOutbox :=
  let target := Z.max (Z.max (acked_through_ o) epoch) (store_load_cursor (store_ o)) in
  o ← (if acked_through_ o <? target then s ← store_save_cursor target (store_ o); Some (mkOutbox s target) else Some o);
  s ← store_delete_through target (store_ o);
  Some (mkOutbox s (acked_through_ o)).

(** The effective cursor, and the stored frames above it, oldest first. *)
Definition outbox_scan (o : StoredOutbox) (cursor : Z) : list (Z * list Z) :=
  merge_sort by_epoch (store_scan_after (Z.max (Z.max cursor (acked_through_ o)) (store_load_cursor (store_ o))) (store_ o)).

(* include/lazily/reliable_sync.hpp:245-257, StoredOutbox::replay_from *)
Definition outbox_replay_from (o : StoredOutbox) (cursor : Z) : option (list (Z * M)) :=
  mapM (λ e : Z * list Z, m ← decode e.2; Some (e.1, m)) (outbox_scan o cursor).

(* include/lazily/reliable_sync.hpp:259-268, StoredOutbox::retained_epochs *)
Definition outbox_retained_epochs (o : StoredOutbox) : list Z :=
  merge_sort Z.le
    (store_scan_after (Z.max (acked_through_ o) (store_load_cursor (store_ o))) (store_ o)).*1.

(** The operations, [Reopen] being a restart on the same store. *)
Inductive OutboxOp := Append (epoch : Z) (msg : M) | AckThrough (epoch : Z) | ReplayFrom (cursor : Z) | RetainedEpochs | Reopen.

Inductive OutboxAnswer := AUnit (done : bool) | AFrames (frames : option (list (Z * M))) | AEpochs (epochs : list Z).

Definition outbox_step (o : StoredOutbox) (op : OutboxOp) : OutboxAnswer * StoredOutbox :=
  match op with
  | Append e m => match outbox_append o e m with Some o => (AUnit true, o) | None => (AUnit false, o) end
  | AckThrough e => match outbox_ack_through o e with Some o => (AUnit true, o) | None => (AUnit false, o) end
  | ReplayFrom c => (AFrames (outbox_replay_from o c), o)
  | RetainedEpochs => (AEpochs (outbox_retained_epochs o), o)
  | Reopen => (AUnit true, outbox_open (store_ o))
  end.

(** ** The log it promises to be

    Everything appended, and how far the peer has acknowledged. *)
Record SentLog := mkSent { sent : gmap Z M; acked : Z }.

Definition sent_step (l : SentLog) (op : OutboxOp) : OutboxAnswer * SentLog :=
  match op with
  | Append e m => (AUnit true, mkSent (<[e := m]> (sent l)) (acked l))
  | AckThrough e => (AUnit true, mkSent (sent l) (Z.max (acked l) e))
  | ReplayFrom c => (AFrames (Some (entries_after (Z.max c (acked l)) (sent l))), l)
  | RetainedEpochs => (AEpochs (entries_after (acked l) (sent l)).*1, l)
  | Reopen => (AUnit true, l)
  end.

Definition op_epochs (op : OutboxOp) : Prop := match op with Append e _ => is_epoch e | AckThrough e => e ≤ i64_max | _ => True end.

End stored_outbox.
Arguments StoredOutbox S : clear implicits.
Arguments OutboxOp M : clear implicits.
Arguments OutboxAnswer M : clear implicits.
Arguments SentLog M : clear implicits.

(** ** Sorted entries *)

(** A list of entries with distinct epochs has one sorted form. *)
Lemma by_epoch_unique {A} (l l' : list (Z * A)) :
  NoDup l.*1 → StronglySorted by_epoch l → StronglySorted by_epoch l' → l ≡ₚ l' → l = l'.
Proof.
  intros Hnd Hs Hs' Hp. apply (StronglySorted_unique_strong by_epoch); [|done..].
  intros [e a] [e' a'] Hin Hin' H1 H2. unfold by_epoch in *. simpl in *. assert (e = e') as <- by lia.
  rewrite <- Hp in Hin'. apply list_elem_of_lookup in Hin as [i Hi], Hin' as [j Hj].
  assert (i = j) as <-; [|congruence]. eapply (NoDup_lookup l.*1); [done|by rewrite list_lookup_fmap, Hi|by rewrite list_lookup_fmap, Hj].
Qed.

Lemma merge_sort_by_epoch {A} (l : list (Z * A)) : StronglySorted by_epoch (merge_sort by_epoch l).
Proof. apply StronglySorted_merge_sort; apply _. Qed.

Lemma NoDup_entries {A} c (m : gmap Z A) : NoDup (entries_after c m).*1.
Proof.
  rewrite entries_after_perm. pose proof (NoDup_fst_map_to_list m) as Hnd. revert Hnd.
  generalize (map_to_list m). intros l. induction l as [|[e a] l IH]; intros Hnd; [done|].
  rewrite filter_cons. apply NoDup_cons in Hnd as [Hnin Hnd]. case_decide; [|auto]. simpl. apply NoDup_cons. split; [|auto].
  intros Hin. apply Hnin. simpl. apply list_elem_of_fmap in Hin as ([e' a'] & -> & Hin'). apply list_elem_of_filter in Hin' as [_ ?].
  by apply (list_elem_of_fmap_2 fst) in H0.
Qed.

Lemma entries_after_intro {A} c (m : gmap Z A) (l : list (Z * A)) :
  l ≡ₚ filter (λ p : Z * A, c < p.1) (map_to_list m) → merge_sort by_epoch l = entries_after c m.
Proof.
  intros Hp. symmetry. apply by_epoch_unique; [apply NoDup_entries|apply merge_sort_by_epoch..|].
  by rewrite entries_after_perm, merge_sort_Permutation.
Qed.

Lemma entries_after_fmap {A B} (f : A → B) c (m : gmap Z A) :
  entries_after c (f <$> m) = (λ p : Z * A, (p.1, f p.2)) <$> entries_after c m.
Proof.
  apply by_epoch_unique; [apply NoDup_entries|apply merge_sort_by_epoch| |].
  - unfold entries_after. pose proof (merge_sort_by_epoch (filter (λ p : Z * A, c < p.1) (map_to_list m))) as Hs.
    induction Hs as [|x l Hs IH Hx]; simpl; constructor; [done|]. by apply Forall_fmap.
  - rewrite entries_after_perm. apply NoDup_Permutation; [apply NoDup_filter, NoDup_map_to_list| |].
    + eapply NoDup_fmap_1 with (f := fst). rewrite <- list_fmap_compose. apply (NoDup_entries c m).
    + intros [e b]. rewrite list_elem_of_filter, elem_of_map_to_list, lookup_fmap, list_elem_of_fmap. simpl.
      setoid_rewrite entries_after_perm. setoid_rewrite list_elem_of_filter. split.
      * intros [Hc Hl]. apply fmap_Some in Hl as (a & Hl & ->). exists (e, a). split; [done|]. split; [done|]. by apply elem_of_map_to_list.
      * intros ([e' a] & [= -> ->] & Hc & Hl%elem_of_map_to_list). simpl in *. by rewrite Hl.
Qed.

(** Sorting the epochs is taking the epochs of the sorted entries. *)
Lemma sorted_epochs {A} (l : list (Z * A)) c (m : gmap Z A) :
  l ≡ₚ filter (λ p : Z * A, c < p.1) (map_to_list m) → merge_sort Z.le l.*1 = (entries_after c m).*1.
Proof.
  intros Hp. apply (StronglySorted_unique Z.le).
  - apply StronglySorted_merge_sort; apply _.
  - unfold entries_after. pose proof (merge_sort_by_epoch (filter (λ p : Z * A, c < p.1) (map_to_list m))) as Hs.
    induction Hs as [|x l' Hs IH Hx]; simpl; constructor; [done|]. by apply Forall_fmap.
  - by rewrite merge_sort_Permutation, entries_after_perm, Hp.
Qed.

Section outbox_correct.
  Context {S M : Type} `{OutboxStoreLaws S} `{FrameCodec M}.
  Implicit Types (o : StoredOutbox S) (l : SentLog M).

(** The store keeps what was sent above its watermark, which the
    acknowledgements have passed. *)
Record keeps_sent o l : Prop := mkKeepsSent {
  kept : ∃ low, store_holds (store_ o) (encode <$> sent l) low (acked l) ∧ 0 ≤ low ≤ acked l;
  kept_acked : acked_through_ o = acked l ∧ acked l ≤ i64_max;
}.

Lemma scan_kept o l c : keeps_sent o l → acked l ≤ c →
  store_scan_after c (store_ o) ≡ₚ filter (λ p : Z * list Z, c < p.1) (map_to_list (encode <$> sent l)).
Proof. intros [(low & Hs & Hlow) _] Hc. eapply store_scan_ok; [exact Hs|lia]. Qed.

Lemma cursor_kept o l : keeps_sent o l → store_load_cursor (store_ o) = acked l.
Proof. intros [(low & Hs & _) _]. by eapply store_cursor_ok. Qed.

Lemma decode_all (es : list (Z * M)) :
  mapM (λ e : Z * list Z, m ← decode e.2; Some (e.1, m)) ((λ p : Z * M, (p.1, encode p.2)) <$> es) = Some es.
Proof.
  apply mapM_fmap_Forall_Some, Forall_forall. intros [e m] _. simpl. by rewrite decode_encode.
Qed.

Lemma append_kept o l e m : keeps_sent o l → is_epoch e →
  ∃ o', outbox_append o e m = Some o' ∧ keeps_sent o' (mkSent (<[e := m]> (sent l)) (acked l)).
Proof.
  intros [(low & Hs & Hlow) Ha] He. unfold outbox_append.
  destruct (store_put_ok _ _ _ _ e (encode m) Hs He (encode_length m)) as (s' & -> & Hs'). simpl. eexists. split; [done|].
  split; [|done]. exists low. simpl. by rewrite fmap_insert.
Qed.

Lemma ack_kept o l e : keeps_sent o l → e ≤ i64_max →
  ∃ o', outbox_ack_through o e = Some o' ∧ keeps_sent o' (mkSent (sent l) (Z.max (acked l) e)).
Proof.
  intros Hk He2. pose proof (cursor_kept o l Hk) as Hcur. destruct Hk as [(low & Hs & Hlow) [Ha Hmax]].
  unfold outbox_ack_through. rewrite Hcur, Ha. replace (Z.max (Z.max (acked l) e) (acked l)) with (Z.max (acked l) e) by lia.
  assert (Hep : is_epoch (Z.max (acked l) e)) by (unfold is_epoch; lia).
  destruct (acked l <? Z.max (acked l) e) eqn:E; zify_bools.
  - destruct (store_save_ok _ _ _ _ _ Hs Hep) as (s1 & -> & Hs1). simpl.
    destruct (store_delete_ok _ _ _ _ _ Hs1 Hep) as (s2 & -> & Hs2). simpl. eexists. split; [done|].
    split; [|simpl; lia]. exists (Z.max low (Z.max (acked l) e)). simpl. split; [|lia].
    replace (Z.max (acked l) (Z.max (acked l) e)) with (Z.max (acked l) e) in Hs2 by lia. exact Hs2.
  - simpl. destruct (store_delete_ok _ _ _ _ _ Hs Hep) as (s2 & -> & Hs2). simpl. eexists. split; [done|].
    split; [|simpl; lia]. exists (Z.max low (Z.max (acked l) e)). simpl. split; [|lia].
    replace (Z.max (acked l) e) with (acked l) at 2 by lia. exact Hs2.
Qed.

Lemma replay_kept o l c : keeps_sent o l → outbox_replay_from o c = Some (entries_after (Z.max c (acked l)) (sent l)).
Proof.
  intros Hk. unfold outbox_replay_from, outbox_scan. rewrite (cursor_kept o l Hk). destruct (kept_acked o l Hk) as [-> _].
  replace (Z.max (Z.max c (acked l)) (acked l)) with (Z.max c (acked l)) by lia.
  rewrite (entries_after_intro _ _ _ (scan_kept o l (Z.max c (acked l)) Hk ltac:(lia))), entries_after_fmap. apply decode_all.
Qed.

Lemma retained_kept o l : keeps_sent o l → outbox_retained_epochs o = (entries_after (acked l) (sent l)).*1.
Proof.
  intros Hk. unfold outbox_retained_epochs. rewrite (cursor_kept o l Hk). destruct (kept_acked o l Hk) as [-> _].
  replace (Z.max (acked l) (acked l)) with (acked l) by lia.
  rewrite (sorted_epochs _ _ _ (scan_kept o l (acked l) Hk ltac:(lia))), entries_after_fmap, <- list_fmap_compose. done.
Qed.

Lemma outbox_step_kept o l op : keeps_sent o l → op_epochs op →
  keeps_sent (outbox_step o op).2 (sent_step l op).2 ∧ (outbox_step o op).1 = (sent_step l op).1.
Proof.
  intros Hk Hop. destruct op as [e m|e|c| |]; simpl in *.
  - destruct (append_kept o l e m Hk Hop) as (o' & -> & Hk'). done.
  - destruct (ack_kept o l e Hk Hop) as (o' & -> & Hk'). done.
  - by rewrite (replay_kept o l c Hk).
  - by rewrite (retained_kept o l Hk).
  - split; [|done]. unfold outbox_open. rewrite (cursor_kept o l Hk). destruct Hk as [Hs [_ Hmax]]. by split.
Qed.

(** C17: An outbox is the log of what was sent.  Over any store that keeps the
    contract, an outbox opened on an empty one and driven through any appends,
    acknowledgements, replays and restarts answers as a log that forgets
    nothing and remembers the highest acknowledgement: a replay is every frame
    above both the cursor and that acknowledgement, oldest first and decoded
    to what was appended, whatever was pruned and however often the store was
    reopened. *)
Theorem outbox_refines_sent_log (s : S) (ops : list (OutboxOp M)) :
  store_holds s ∅ 0 0 → Forall op_epochs ops →
  (core_run outbox_step (outbox_open s) ops).1 = (core_run sent_step (mkSent ∅ 0) ops).1.
Proof.
  intros Hs Hops.
  assert (Hr : ∀ o l, keeps_sent o l → (core_run outbox_step o ops).1 = (core_run sent_step l ops).1).
  { clear Hs. induction Hops as [|op ops Hop Hops IH]; intros o l Hk; [done|]. simpl.
    destruct (outbox_step_kept o l op Hk Hop) as [Hk' E]. destruct (outbox_step o op), (sent_step l op). simpl in *.
    specialize (IH _ _ Hk'). destruct (core_run outbox_step _ ops), (core_run sent_step _ ops). simpl in *. congruence. }
  apply Hr. split.
  - exists 0. simpl. rewrite fmap_empty. split; [done|lia].
  - simpl. split; [by eapply store_cursor_ok|unfold i64_max; lia].
Qed.

End outbox_correct.

(** Both backends start empty. *)
Lemma memory_starts_empty : store_holds (mkMemory ∅ 0) ∅ 0 0.
Proof. done. Qed.

Lemma file_starts_empty : store_holds (mkFile []) ∅ 0 0.
Proof. by exists []. Qed.

(** Messages that are small numbers, one byte each. *)
#[local] Program Instance byte_codec : FrameCodec Z := { encode m := [m]; decode f := head f }.
Next Obligation. done. Qed.
Next Obligation. intros m. unfold is_u64, two64. simpl. lia. Qed.

(** On the journal: appended, acknowledged, restarted, replayed. *)
Lemma outbox_refines_sent_log_witness :
  let ops := [Append 1 10; Append 2 20; AckThrough 1; Append 3 30; Reopen; ReplayFrom 0; RetainedEpochs] in
  (core_run sent_step (mkSent ∅ 0) ops).1 !! 5%nat = Some (AFrames (Some [(2, 20); (3, 30)])) ∧
  (core_run outbox_step (outbox_open (mkFile [])) ops).1 = (core_run sent_step (mkSent ∅ 0) ops).1.
Proof.
  intros ops. split; [vm_compute; reflexivity|]. apply (outbox_refines_sent_log (mkFile [])); [exact file_starts_empty|].
  repeat constructor; simpl; unfold i64_max; lia.
Defined.
