(* ===== verification/Sync.v ===== *)
(** * Reliable sync: the receiver's coordinator and the sender's driver

    Models the rest of include/lazily/reliable_sync.hpp: the coordinator that
    classifies inbound frames, the driver that stages, retains, sends, receives
    and acknowledges, and the two registers of its CRDT plane.  Of a message
    (include/lazily/ipc.hpp) the model keeps its alternative and the epochs the
    sync code reads; the rest is a body it never opens.  The sink, the source,
    the clock and the snapshot provider are closures of the host: functions
    over the host's state.  Epochs are 64-bit signed integers, whose overflow is
    undefined in the code: theorems state the range. *)
From S2P Require Import Prelude Outbox.
#[local] Open Scope Z_scope.

(* include/lazily/ipc.hpp:385-386, IpcMessage *)
Inductive IpcMessage (D : Type) :=
  | MSnapshot (epoch : Z) (body : D)
  | MDelta (base_epoch epoch : Z) (body : D)
  | MCrdtSync (body : D)
  | MResyncRequest (from_epoch : Z)
  | MOutboxAck (through_epoch : Z).
Arguments MSnapshot {D} epoch body.
Arguments MDelta {D} base_epoch epoch body.
Arguments MCrdtSync {D} body.
Arguments MResyncRequest {D} from_epoch.
Arguments MOutboxAck {D} through_epoch.

(** ** The coordinator *)

(* include/lazily/reliable_sync.hpp:64-82, ResyncAction *)
Inductive ResyncAction := Apply | RequestSnapshot (from_epoch : Z) | Ignore.

(* include/lazily/reliable_sync.hpp:140-141, ResyncCoordinator (data members) *)
Record ResyncCoordinator := mkCoord { last_epoch_ : Z; resyncing_ : bool }.

(* include/lazily/reliable_sync.hpp:92-92, ResyncCoordinator::ResyncCoordinator *)
Definition coordinator_new (last_epoch : Z) : ResyncCoordinator := mkCoord last_epoch false.

(* include/lazily/reliable_sync.hpp:98-116, ResyncCoordinator::ingest_delta *)
Definition ingest_delta (c : ResyncCoordinator) (base_epoch epoch : Z) : ResyncAction * ResyncCoordinator :=
  if base_epoch =? last_epoch_ c then
    if base_epoch + 1 <=? epoch then (Apply, mkCoord epoch false) else (Ignore, c)
  else if base_epoch <? last_epoch_ c then (Ignore, c)
  else if resyncing_ c then (Ignore, c)
  else (RequestSnapshot (last_epoch_ c), mkCoord (last_epoch_ c) true).

(* include/lazily/reliable_sync.hpp:119-123, ResyncCoordinator::ingest_snapshot *)
Definition ingest_snapshot (c : ResyncCoordinator) (snapshot_epoch : Z) : ResyncAction * ResyncCoordinator :=
  (Apply, mkCoord snapshot_epoch false).

Section sync.
  Context {D : Type}.
  Notation Msg := (IpcMessage D).

(* include/lazily/reliable_sync.hpp:128-134, ResyncCoordinator::ingest *)
Definition ingest (c : ResyncCoordinator) (msg : Msg) : ResyncAction * ResyncCoordinator :=
  match msg with
  | MSnapshot epoch _ => ingest_snapshot c epoch
  | MDelta base epoch _ => ingest_delta c base epoch
  | _ => (Ignore, c)
  end.

(* include/lazily/reliable_sync.hpp:137-137, ResyncCoordinator::ack *)
Definition ack (c : ResyncCoordinator) : Msg := MOutboxAck (last_epoch_ c).

(** ** The driver *)

Section driver.
  Context {S W : Type} `{OutboxStore S} `{FrameCodec Msg}.

(** What a read of the source comes to; [Broken] is an exception. *)
Inductive SourceResult := Received (msg : Msg) | Quiet | Broken.

  (** The host's closures. *)
  Context (sink : Msg → W → bool * W) (source : W → SourceResult * W) (clock : W → Z * W) (provider : Z → W → Msg * W).

(* include/lazily/reliable_sync.hpp:584-591, Progress *)
Record Progress := mkProgress {
  p_sent : nat; p_applied : list Msg; p_resync_requested : bool; p_snapshots_served : nat;
  p_peer_acked_through : Z; p_retained : nat;
}.

(* include/lazily/reliable_sync.hpp:743-749, SyncDriver (data members) *)
Record SyncDriver := mkDriver {
  outbox : StoredOutbox S; coordinator : ResyncCoordinator; pending : list (Z * Msg);
  peer_acked_through : Z; ack_owed : bool; replay_pending : bool; stalled_since : option Z;
}.

(* include/lazily/reliable_sync.hpp:612-615, SyncDriver::SyncDriver *)
Definition driver_new (o : StoredOutbox S) (last_epoch : Z) : SyncDriver :=
  mkDriver o (coordinator_new last_epoch) [] 0 false false None.

Definition with_outbox (d : SyncDriver) o p : SyncDriver :=
  mkDriver o (coordinator d) p (peer_acked_through d) (ack_owed d) (replay_pending d) (stalled_since d).
Definition with_stall (d : SyncDriver) s : SyncDriver :=
  mkDriver (outbox d) (coordinator d) (pending d) (peer_acked_through d) (ack_owed d) (replay_pending d) s.
Definition with_replay (d : SyncDriver) r : SyncDriver :=
  mkDriver (outbox d) (coordinator d) (pending d) (peer_acked_through d) (ack_owed d) r (stalled_since d).
Definition with_ack_owed (d : SyncDriver) a : SyncDriver :=
  mkDriver (outbox d) (coordinator d) (pending d) (peer_acked_through d) a (replay_pending d) (stalled_since d).

(* include/lazily/reliable_sync.hpp:622-622, SyncDriver::enqueue *)
Definition enqueue (d : SyncDriver) (epoch : Z) (msg : Msg) : SyncDriver :=
  with_outbox d (outbox d) (pending d ++ [(epoch, msg)]).

(* include/lazily/reliable_sync.hpp:626-630, SyncDriver::on_reconnect *)
Definition on_reconnect (d : SyncDriver) : SyncDriver :=
  mkDriver (outbox d) (coordinator d) (pending d) (peer_acked_through d) true true None.

(* include/lazily/reliable_sync.hpp:636-640, SyncDriver::stalled_for *)
Definition stalled_for (d : SyncDriver) (now : Z) : Z :=
  match stalled_since d with Some t => Z.max 0 (now - t) | None => 0 end.

Definition more_sent (p : Progress) : Progress :=
  mkProgress (p_sent p + 1) (p_applied p) (p_resync_requested p) (p_snapshots_served p) (p_peer_acked_through p) (p_retained p).
Definition more_applied (p : Progress) (m : Msg) : Progress :=
  mkProgress (p_sent p) (p_applied p ++ [m]) (p_resync_requested p) (p_snapshots_served p) (p_peer_acked_through p) (p_retained p).

(** The loop of phase 1, over the frames to replay. *)
(* include/lazily/reliable_sync.hpp:652-660, SyncDriver::tick (replay loop) *)
Fixpoint replay_loop (now : Z) (frames : list (Z * Msg)) (d : SyncDriver) (w : W) (p : Progress) : SyncDriver * W * Progress :=
  match frames with
  | [] => (d, w, p)
  | (_, m) :: frames =>
      let '(ok, w) := sink m w in
      if (ok : bool) then replay_loop now frames d w (more_sent p)
      else (with_replay (with_stall d (Some now)) true, w, p)
  end.

(** The loop of phase 2, over the staged frames; [None] is an exception of the
    store, which leaves the frame staged. *)
(* include/lazily/reliable_sync.hpp:665-677, SyncDriver::tick (drain loop) *)
Fixpoint drain_loop (now : Z) (staged : list (Z * Msg)) (d : SyncDriver) (w : W) (p : Progress) : bool * SyncDriver * W * Progress :=
  match staged with
  | [] => (true, d, w, p)
  | (epoch, m) :: rest =>
      if bool_decide (is_Some (stalled_since d)) then (true, d, w, p)
      else
        match outbox_append (outbox d) epoch m with
        | None => (false, d, w, p)
        | Some o =>
            let d := with_outbox d o rest in
            let '(ok, w) := sink m w in
            if (ok : bool) then drain_loop now rest (with_stall d None) w (more_sent p)
            else (true, with_stall d (Some now), w, p)
        end
  end.

(** One inbound message; [None] is an exception of the store. *)
(* include/lazily/reliable_sync.hpp:692-723, SyncDriver::tick (one inbound message) *)
Definition receive_one (now : Z) (msg : Msg) (d : SyncDriver) (w : W) (p : Progress) : option (SyncDriver * W * Progress) :=
  match msg with
  | MOutboxAck through =>
      let peer := if peer_acked_through d <? through then through else peer_acked_through d in
      o ← outbox_ack_through (outbox d) through;
      Some (mkDriver o (coordinator d) (pending d) peer (ack_owed d) (replay_pending d) (stalled_since d), w, p)
  | MResyncRequest from =>
      let '(snap, w) := provider from w in
      let '(ok, w) := sink snap w in
      Some (if (ok : bool)
            then (d, w, mkProgress (p_sent p) (p_applied p) (p_resync_requested p) (p_snapshots_served p + 1)
                          (p_peer_acked_through p) (p_retained p))
            else (with_stall d (Some now), w, p))
  | MCrdtSync _ => Some (d, w, more_applied p msg)
  | _ =>
      let '(action, c) := ingest (coordinator d) msg in
      let d := mkDriver (outbox d) c (pending d) (peer_acked_through d) (ack_owed d) (replay_pending d) (stalled_since d) in
      match action with
      | Apply => Some (with_ack_owed d true, w, more_applied p msg)
      | RequestSnapshot from =>
          let '(ok, w) := sink (MResyncRequest from) w in
          Some (if (ok : bool)
                then (d, w, mkProgress (p_sent p) (p_applied p) true (p_snapshots_served p) (p_peer_acked_through p) (p_retained p))
                else (with_stall d (Some now), w, p))
      | Ignore => Some (d, w, p)
      end
  end.

(** How a call ends. *)
Inductive TickResult := Done (p : Progress) | SourceError | StoreError | OutOfFuel.

(* include/lazily/reliable_sync.hpp:679-689, SyncDriver::tick (receive loop) *)
Fixpoint receive_loop (fuel : nat) (now : Z) (d : SyncDriver) (w : W) (p : Progress) : option TickResult * SyncDriver * W * Progress :=
  match fuel with
  | O => (Some OutOfFuel, d, w, p)
  | Datatypes.S fuel =>
      match source w with
      | (Broken, w) => (Some SourceError, d, w, p)
      | (Quiet, w) => (None, d, w, p)
      | (Received msg, w) =>
          match receive_one now msg d w p with
          | Some (d, w, p) => receive_loop fuel now d w p
          | None => (Some StoreError, d, w, p)
          end
      end
  end.

(* include/lazily/reliable_sync.hpp:645-735, SyncDriver::tick *)
Definition tick (fuel : nat) (d : SyncDriver) (w : W) : TickResult * SyncDriver * W :=
  let '(now, w) := clock w in
  let p := mkProgress 0 [] false 0 0 0 in
  (* 1. replay the unacked suffix *)
  let '(ok, d, w, p) :=
    if replay_pending d then
      let d := with_replay d false in
      match outbox_replay_from (outbox d) (peer_acked_through d) with
      | Some frames => let '(d, w, p) := replay_loop now frames d w p in (true, d, w, p)
      | None => (false, d, w, p)
      end
    else (true, d, w, p) in
  if negb (ok : bool) then (StoreError, d, w)
  else
    (* 2. drain the staged frames *)
    let '(ok, d, w, p) := drain_loop now (pending d) d w p in
    if negb (ok : bool) then (StoreError, d, w)
    else
      (* 3. receive *)
      let '(stop, d, w, p) := receive_loop fuel now d w p in
      match stop with
      | Some r => (r, d, w)
      | None =>
          (* 4. advertise the cursor *)
          let '(d, w) :=
            if ack_owed d then
              let '(ok, w) := sink (ack (coordinator d)) w in
              (if (ok : bool) then with_ack_owed d false else d, w)
            else (d, w) in
          (Done (mkProgress (p_sent p) (p_applied p) (p_resync_requested p) (p_snapshots_served p)
            (peer_acked_through d) (length (outbox_retained_epochs (outbox d)))), d, w)
      end.

End driver.
End sync.
Arguments SyncDriver D S : clear implicits.
Arguments SourceResult D : clear implicits.
Arguments TickResult D : clear implicits.

(** ** The coordinator applies a chain *)
Section coordinator_correct.
  Context {D : Type}.
  Notation Msg := (IpcMessage D).

(** Frames that lead from one epoch to another without a gap. *)
Inductive advances : Z → list Msg → Z → Prop :=
  | advances_nil e : advances e [] e
  | advances_snapshot c e b ms z : advances e ms z → advances c (MSnapshot e b :: ms) z
  | advances_delta c e b ms z : c < e → advances e ms z → advances c (MDelta c e b :: ms) z.

(** The messages whose action is to apply them. *)
Definition applied (ms : list Msg) (actions : list ResyncAction) : list Msg :=
  omap (λ '(m, a), match a with Apply => Some m | _ => None end) (zip ms actions).

(** A snapshot was requested and nothing has been applied since. *)
Definition outstanding (actions : list ResyncAction) : bool :=
  foldl (λ b a, match a with Apply => false | RequestSnapshot _ => true | Ignore => b end) false actions.

Lemma coordinator_advances (ms : list Msg) : ∀ c,
  advances (last_epoch_ c) (applied ms (core_run ingest c ms).1) (last_epoch_ (core_run ingest c ms).2).
Proof.
  induction ms as [|m ms IH]; intros c; [constructor|]. simpl. destruct (ingest c m) as [a c1] eqn:E. specialize (IH c1).
  destruct (core_run ingest c1 ms) as [as_ c2]. unfold applied in *. simpl in *.
  destruct m as [e b|base e b|b|f|t]; simpl in E.
  - injection E as <- <-. by constructor.
  - unfold ingest_delta in E. repeat case_match; simplify_eq/=; zify_bools; subst; [|done..]. constructor; [lia|done].
  - by injection E as <- <-.
  - by injection E as <- <-.
  - by injection E as <- <-.
Qed.

Lemma coordinator_resyncing (ms : list Msg) e :
  resyncing_ (core_run ingest (coordinator_new e) ms).2 = outstanding (core_run ingest (coordinator_new e) ms).1.
Proof.
  induction ms as [|m ms IH] using rev_ind; [done|]. rewrite core_run_snoc. destruct (core_run ingest _ ms) as [as_ c].
  cbn [fst snd] in *. unfold outstanding in *. rewrite foldl_app, <- IH. simpl.
  destruct m as [e' b|base e' b|b|f|t]; simpl; [done| |done..]. unfold ingest_delta. by repeat case_match.
Qed.

(** The coordinator applies an unbroken chain and asks once per gap.  The
    frames it answers Apply to lead, snapshot by snapshot and delta by delta,
    each delta starting at the epoch reached so far and advancing it, from the
    first epoch to the last one it reports; it asks for a snapshot exactly at a
    delta that starts beyond that epoch while no request is outstanding, from
    the epoch reached; everything else is ignored and changes nothing. *)
Theorem coordinator_applies_chain (e0 : Z) (ms : list Msg) (i : nat) :
  let run := core_run ingest (coordinator_new e0) ms in
  let before := core_run ingest (coordinator_new e0) (take i ms) in
  advances e0 (applied ms run.1) (last_epoch_ run.2) ∧
  (∀ from, run.1 !! i = Some (RequestSnapshot from) ↔
    from = last_epoch_ before.2 ∧ outstanding before.1 = false ∧
    ∃ base e b, ms !! i = Some (MDelta base e b) ∧ last_epoch_ before.2 < base).
Proof.
  intros run before. split; [apply (coordinator_advances ms (coordinator_new e0))|]. intros from.
  unfold run. rewrite core_run_lookup. fold before. pose proof (coordinator_resyncing (take i ms) e0) as Hr. fold before in Hr.
  rewrite <- Hr. split.
  - intros (m & Hm & Ha). destruct m as [e b|base e b|b|f|t]; simpl in Ha; try done.
    unfold ingest_delta in Ha. repeat case_match; simplify_eq/=; zify_bools. split_and!; [done|done|].
    exists base, e, b. split; [done|lia].
  - intros (-> & Hf & base & e & b & Hm & Hlt). eexists. split; [done|]. simpl. unfold ingest_delta.
    destruct (base =? _) eqn:E1; zify_bools; [lia|]. destruct (base <? _) eqn:E2; zify_bools; [lia|]. by rewrite Hf.
Qed.

(** ** Replaying to a receiver *)

(** Stored deltas that follow each other from epoch [a] to epoch [z]. *)
Inductive delta_chain : Z → list (Z * Msg) → Z → Prop :=
  | chain_nil a : delta_chain a [] a
  | chain_cons a e b fs z : a < e → delta_chain e fs z → delta_chain a ((e, MDelta a e b) :: fs) z.

Lemma delta_chain_above a fs z : delta_chain a fs z → Forall (λ p, a < p.1) fs.
Proof.
  induction 1 as [|a e b fs z Hlt Hc IH]; [done|]. constructor; [done|]. eapply Forall_impl; [exact IH|]. simpl. lia.
Qed.

Lemma chain_from a fs z s : delta_chain a fs z →
  let run := core_run ingest (mkCoord a s) fs.*2 in
  run.1 = replicate (length fs) Apply ∧ last_epoch_ run.2 = z.
Proof.
  intros Hc. revert s. induction Hc as [|a e b fs z Hlt Hc IH]; intros s; [done|]. cbn [fmap list_fmap core_run snd ingest].
  unfold ingest_delta. cbn [last_epoch_]. rewrite Z.eqb_refl. destruct (_ <=? e) eqn:E; zify_bools; [|lia].
  specialize (IH false). destruct (core_run ingest _ _) as [es c]. simpl in *. destruct IH as [-> ?]. done.
Qed.

Lemma chain_from_inside a fs z r s : delta_chain a fs z → r = a ∨ r ∈ fs.*1 →
  let run := core_run ingest (mkCoord r s) fs.*2 in
  run.1 = (λ p : Z * Msg, if decide (r < p.1) then Apply else Ignore) <$> fs ∧ last_epoch_ run.2 = z.
Proof.
  intros Hc. revert r s. induction Hc as [a|a e b fs z Hlt Hc IH]; intros r s Hr.
  { destruct Hr as [->|Hr]; [done|]. by apply elem_of_nil in Hr. }
  destruct (decide (r = a)) as [->|Hne].
  - pose proof (chain_cons a e b fs z Hlt Hc) as Hc'. destruct (chain_from a _ z s Hc') as [E ?]. split; [|done]. rewrite E.
    apply delta_chain_above in Hc'. clear -Hc'. induction Hc' as [|p l Hp Hc' IH]; [done|]. simpl. rewrite decide_True by done. by f_equal.
  - destruct Hr as [?|Hr]; [done|]. assert (Hge : e ≤ r ∧ (r = e ∨ r ∈ fs.*1)).
    { simpl in Hr. apply elem_of_cons in Hr as [->|Hr]; [split; [lia|by left]|]. split; [|by right].
      apply list_elem_of_fmap in Hr as (p & -> & Hp). apply delta_chain_above in Hc. rewrite Forall_forall in Hc. specialize (Hc p Hp). lia. }
    destruct (IH r s (proj2 Hge)) as [E1 E2]. cbn [fmap list_fmap core_run snd ingest fst]. unfold ingest_delta. cbn [last_epoch_].
    destruct (a =? r) eqn:E3; zify_bools; [congruence|]. destruct (a <? r) eqn:E4; zify_bools; [|lia].
    destruct (core_run ingest _ _) as [es c]. simpl in *. rewrite decide_False by lia. by rewrite E1.
Qed.

(** A replay catches a receiver up, each frame taking effect once.  Where the
    frames an outbox has not seen acknowledged are deltas that follow each
    other from the acknowledged epoch to [z], replaying it to a receiver that
    has reached any of their epochs makes the receiver ignore exactly the
    frames it had applied, apply all the others in order, ask for nothing, and
    end at [z]. *)
Theorem replay_catches_up {S : Type} `{OutboxStoreLaws S} `{FrameCodec Msg} (o : StoredOutbox S) (l : SentLog Msg) (z r c : Z) (resyncing : bool) :
  keeps_sent o l → c ≤ acked l →
  delta_chain (acked l) (entries_after (acked l) (sent l)) z →
  r = acked l ∨ r ∈ (entries_after (acked l) (sent l)).*1 →
  ∃ frames, outbox_replay_from o c = Some frames ∧
    let run := core_run ingest (mkCoord r resyncing) frames.*2 in
    run.1 = (λ f : Z * Msg, if decide (r < f.1) then Apply else Ignore) <$> frames ∧ last_epoch_ run.2 = z.
Proof.
  intros Hk Hc Hchain Hr. eexists. split; [by apply replay_kept|]. rewrite Z.max_r by done. by eapply chain_from_inside.
Qed.

End coordinator_correct.

(** ** The driver loses nothing *)
Section driver_correct.
  Context {D S W : Type}.
  Notation Msg := (IpcMessage D).
  Context `{OutboxStoreLaws S} `{FrameCodec Msg}.
  Context (sink : Msg → W → bool * W) (source : W → SourceResult D * W) (clock : W → Z * W) (provider : Z → W → Msg * W).
  Implicit Types (d : SyncDriver D S) (w : W) (p : Progress (D:=D)).

(** The frames that left the staging queue, latest value per epoch. *)
Definition retained (gone : list (Z * Msg)) : gmap Z Msg := foldl (λ m f, <[f.1 := f.2]> m) ∅ gone.

(** Of the frames enqueued, [gone] have been appended to the outbox and the
    rest are staged; the outbox has them all but what the peer acknowledged. *)
Record secured d (enqueued gone : list (Z * Msg)) : Prop := mkSecured {
  sec_outbox : keeps_sent (outbox d) (mkSent (retained gone) (peer_acked_through d));
  sec_staged : enqueued = gone ++ pending d;
  sec_epochs : Forall (λ f, is_epoch f.1) (pending d);
}.

Lemma secured_same d d' enqueued gone : outbox d' = outbox d → pending d' = pending d →
  peer_acked_through d' = peer_acked_through d → secured d enqueued gone → secured d' enqueued gone.
Proof. intros Eo Ep Ea [Ho Hs He]. split; rewrite ?Eo, ?Ep, ?Ea; done. Qed.

Lemma replay_loop_same now frames : ∀ d w p, let '(d', _, _) := replay_loop sink now frames d w p in
  outbox d' = outbox d ∧ pending d' = pending d ∧ peer_acked_through d' = peer_acked_through d.
Proof.
  induction frames as [|[e m] frames IH]; intros d w p; simpl; [done|]. destruct (sink m w) as [[] w1]; [apply IH|done].
Qed.

Lemma secured_append d enqueued gone e m rest : secured d enqueued gone → pending d = (e, m) :: rest →
  ∃ o, outbox_append (outbox d) e m = Some o ∧ secured (with_outbox d o rest) enqueued (gone ++ [(e, m)]).
Proof.
  intros [Ho Hs He] Hp. rewrite Hp in Hs, He. apply Forall_cons in He as [He He'].
  destruct (append_kept _ _ e m Ho He) as (o & -> & Ho'). exists o. split; [done|]. split; [|by rewrite Hs, <- app_assoc|done].
  simpl in *. unfold retained. by rewrite foldl_app.
Qed.

Lemma drain_loop_secured now staged : ∀ d w p enqueued gone, secured d enqueued gone → pending d = staged →
  let '(ok, d', _, _) := drain_loop sink now staged d w p in ok = true ∧ ∃ gone', secured d' enqueued gone'.
Proof.
  induction staged as [|[e m] rest IH]; intros d w p enqueued gone Hs Hp; simpl; [eauto|].
  case_bool_decide; [eauto|]. destruct (secured_append d enqueued gone e m rest Hs Hp) as (o & -> & Hs').
  destruct (sink m w) as [[] w1].
  - apply (IH _ w1 _ enqueued (gone ++ [(e, m)])); [|done]. by eapply secured_same, Hs'.
  - split; [done|]. exists (gone ++ [(e, m)]). by eapply secured_same, Hs'.
Qed.

(** An acknowledgement is an epoch, a 64-bit integer. *)
Definition typed_msg (m : Msg) : Prop := match m with MOutboxAck t => t ≤ i64_max | _ => True end.

Lemma receive_one_secured now m d w p enqueued gone : typed_msg m → secured d enqueued gone →
  ∃ d' w' p', receive_one sink provider now m d w p = Some (d', w', p') ∧ secured d' enqueued gone.
Proof.
  intros Ht Hs. destruct m as [e b|base e b|b|f|t]; simpl.
  - do 3 eexists. split; [done|]. by eapply secured_same, Hs.
  - destruct (ingest_delta _ _ _) as [[] c]; [|destruct (sink _ w) as [[] w1]|]; do 3 eexists; (split; [done|]); by eapply secured_same, Hs.
  - do 3 eexists. by split.
  - destruct (provider f w) as [snap w1], (sink snap w1) as [[] w2]; do 3 eexists; (split; [done|]); by eapply secured_same, Hs.
  - destruct Hs as [Ho Hst He]. destruct (ack_kept _ _ t Ho Ht) as (o & -> & Ho'). simpl. do 3 eexists. split; [done|].
    split; simpl; [|done..]. simpl in Ho'. destruct (_ <? t) eqn:E; zify_bools;
      [rewrite Z.max_r in Ho' by lia|rewrite Z.max_l in Ho' by lia]; done.
Qed.

  (** The source delivers typed messages. *)
  Context (source_typed : ∀ w m w', source w = (Received m, w') → typed_msg m).

Lemma receive_loop_secured now fuel : ∀ d w p enqueued gone, secured d enqueued gone →
  let '(r, d', _, _) := receive_loop sink source provider fuel now d w p in r ≠ Some StoreError ∧ secured d' enqueued gone.
Proof.
  induction fuel as [|fuel IH]; intros d w p enqueued gone Hs; simpl; [done|].
  destruct (source w) as [[m| |] w1] eqn:Es; [|done..].
  destruct (receive_one_secured now m d w1 p enqueued gone) as (d' & w' & p' & -> & Hs'); [by eapply source_typed|done|]. by apply IH.
Qed.

Lemma tick_secured fuel d w enqueued gone : secured d enqueued gone →
  let '(r, d', _) := tick sink source clock provider fuel d w in r ≠ StoreError ∧ ∃ gone', secured d' enqueued gone'.
Proof.
  intros Hs. unfold tick. destruct (clock w) as [now w1].
  assert (Hphase1 : ∃ d1 w2 p1, (if replay_pending d then
      match outbox_replay_from (outbox (with_replay d false)) (peer_acked_through (with_replay d false)) with
      | Some frames => let '(d, w, p) := replay_loop sink now frames (with_replay d false) w1 (mkProgress 0 [] false 0 0 0) in (true, d, w, p)
      | None => (false, with_replay d false, w1, mkProgress 0 [] false 0 0 0)
      end else (true, d, w1, mkProgress 0 [] false 0 0 0)) = (true, d1, w2, p1) ∧ secured d1 enqueued gone).
  { destruct (replay_pending d); [|eauto 6]. rewrite (replay_kept _ _ _ (sec_outbox _ _ _ Hs)).
    match goal with |- context [replay_loop sink now ?fs ?d0 w1 ?p0] =>
      pose proof (replay_loop_same now fs d0 w1 p0) as Hsame; destruct (replay_loop sink now fs d0 w1 p0) as [[d1 w2] p1] end.
    destruct Hsame as (? & ? & ?). do 3 eexists. split; [done|]. by eapply secured_same, Hs. }
  destruct Hphase1 as (d1 & w2 & p1 & E1 & Hs1). cbv zeta in *. rewrite E1. simpl.
  pose proof (drain_loop_secured now (pending d1) d1 w2 p1 enqueued gone Hs1 eq_refl) as H2.
  destruct (drain_loop sink now (pending d1) d1 w2 p1) as [[[ok d2] w3] p2]. destruct H2 as [-> (gone2 & Hs2)]. simpl.
  pose proof (receive_loop_secured now fuel d2 w3 p2 enqueued gone2 Hs2) as H3.
  destruct (receive_loop sink source provider fuel now d2 w3 p2) as [[[stop d3] w4] p3]. destruct H3 as [Hne Hs3].
  destruct stop as [r|]; [split; [congruence|eauto]|]. destruct (ack_owed d3); [|split; [done|eauto]].
  destruct (sink _ w4) as [[] w5]; (split; [done|]); exists gone2; by eapply secured_same, Hs3.
Qed.

(** The calls of a host, and a driver taken through them. *)
Inductive DriverOp := Enqueue (epoch : Z) (msg : Msg) | OnReconnect | Tick (fuel : nat).

Definition driver_step (dw : SyncDriver D S * W) (op : DriverOp) : option (TickResult D) * (SyncDriver D S * W) :=
  let '(d, w) := dw in
  match op with
  | Enqueue e m => (None, (enqueue d e m, w))
  | OnReconnect => (None, (on_reconnect d, w))
  | Tick fuel => let '(r, d, w) := tick sink source clock provider fuel d w in (Some r, (d, w))
  end.

Definition enqueued_of (ops : list DriverOp) : list (Z * Msg) :=
  omap (λ op, match op with Enqueue e m => Some (e, m) | _ => None end) ops.


End driver_correct.

(** ** A reconnect sends everything again *)
Section reconnect.
  Context {D S W : Type}.
  Notation Msg := (IpcMessage D).
  Context `{OutboxStoreLaws S} `{FrameCodec Msg}.
  Context (sink : Msg → W → bool * W) (source : W → SourceResult D * W) (clock : W → Z * W) (provider : Z → W → Msg * W).
  Implicit Types (d : SyncDriver D S) (w : W) (p : Progress (D:=D)).

  (** What the sink was handed; it accepts everything, and no other closure
      touches it.  The source holds finitely many messages. *)
  Context (handed : W → list Msg) (backlog : W → nat).
  Context (sink_accepts : ∀ m w, (sink m w).1 = true ∧ handed (sink m w).2 = handed w ++ [m] ∧ (backlog (sink m w).2 ≤ backlog w)%nat).
  Context (source_ok : ∀ w, handed (source w).2 = handed w ∧ match (source w).1 with Received m => typed_msg m ∧ (backlog (source w).2 < backlog w)%nat | _ => True end).
  Context (clock_ok : ∀ w, handed (clock w).2 = handed w ∧ (backlog (clock w).2 ≤ backlog w)%nat).
  Context (provider_ok : ∀ e w, handed (provider e w).2 = handed w ∧ (backlog (provider e w).2 ≤ backlog w)%nat).

Lemma replay_loop_accepts now frames : ∀ d w p, let '(d', w', _) := replay_loop sink now frames d w p in
  d' = d ∧ handed w' = handed w ++ frames.*2 ∧ (backlog w' ≤ backlog w)%nat.
Proof.
  induction frames as [|[e m] frames IH]; intros d w p; simpl; [by rewrite app_nil_r|].
  pose proof (sink_accepts m w) as Hs. destruct (sink m w) as [ok w1]. simpl in Hs. destruct Hs as (-> & Hh & Hb).
  specialize (IH d w1 (more_sent p)). destruct (replay_loop sink now frames d w1 _) as [[d' w'] p'].
  destruct IH as (-> & Hh' & Hb'). split_and!; [done| |lia]. by rewrite Hh', Hh, <- app_assoc.
Qed.

Lemma drain_loop_accepts now staged : ∀ d w p enqueued gone, secured d enqueued gone → pending d = staged → stalled_since d = None →
  let '(_, d', w', _) := drain_loop sink now staged d w p in
  pending d' = [] ∧ stalled_since d' = None ∧ handed w' = handed w ++ staged.*2 ∧ (backlog w' ≤ backlog w)%nat.
Proof.
  induction staged as [|[e m] rest IH]; intros d w p enqueued gone Hs Hp Hst; simpl; [by rewrite app_nil_r|].
  rewrite Hst. simpl. destruct (secured_append d enqueued gone e m rest Hs Hp) as (o & -> & Hs').
  pose proof (sink_accepts m w) as Hk. destruct (sink m w) as [ok w1]. simpl in Hk. destruct Hk as (-> & Hh & Hb).
  assert (Hs2 : secured (with_stall (with_outbox d o rest) None) enqueued (gone ++ [(e, m)])) by (by eapply secured_same, Hs').
  specialize (IH (with_stall (with_outbox d o rest) None) w1 (more_sent p) enqueued (gone ++ [(e, m)]) Hs2 eq_refl eq_refl).
  destruct (drain_loop sink now rest _ w1 _) as [[[ok d'] w'] p']. destruct IH as (? & ? & Hh' & Hb').
  split_and!; [done|done| |lia]. by rewrite Hh', Hh, <- app_assoc.
Qed.

Lemma receive_one_accepts now m d w p enqueued gone : typed_msg m → secured d enqueued gone →
  ∃ d' w' p', receive_one sink provider now m d w p = Some (d', w', p') ∧ secured d' enqueued gone ∧
    stalled_since d' = stalled_since d ∧ handed w `prefix_of` handed w' ∧ (backlog w' ≤ backlog w)%nat.
Proof.
  intros Ht Hs. destruct (receive_one_secured sink provider now m d w p enqueued gone Ht Hs) as (d' & w' & p' & E & Hs').
  exists d', w', p'. split; [done|]. split; [done|]. revert E. destruct m as [e b|base e b|b|f|t]; simpl.
  - by intros [= <- <- <-].
  - destruct (ingest_delta _ _ _) as [[] c]; [by intros [= <- <- <-]| |by intros [= <- <- <-]].
    match goal with |- context [sink ?m w] => pose proof (sink_accepts m w) as Hk; destruct (sink m w) as [ok w1] end.
    simpl in Hk. destruct Hk as (-> & Hh & Hb). intros [= <- <- <-]. split_and!; [done|by rewrite Hh; apply prefix_app_r|done].
  - by intros [= <- <- <-].
  - pose proof (provider_ok f w) as Hp. destruct (provider f w) as [snap w1]. simpl in Hp. destruct Hp as [Hh1 Hb1].
    pose proof (sink_accepts snap w1) as Hk. destruct (sink snap w1) as [ok w2]. simpl in Hk. destruct Hk as (-> & Hh & Hb).
    intros [= <- <- <-]. split_and!; [done|rewrite Hh, Hh1; by apply prefix_app_r|lia].
  - destruct (outbox_ack_through _ t); simpl; [|done]. by intros [= <- <- <-].
Qed.

Lemma receive_loop_accepts now fuel : ∀ d w p enqueued gone, secured d enqueued gone → (backlog w < fuel)%nat →
  let '(r, d', w', _) := receive_loop sink source provider fuel now d w p in
  (r = None ∨ r = Some SourceError) ∧ stalled_since d' = stalled_since d ∧ pending d' = pending d ∧ handed w `prefix_of` handed w'.
Proof.
  induction fuel as [|fuel IH]; intros d w p enqueued gone Hs Hf; [lia|]. simpl.
  pose proof (source_ok w) as Ho. destruct (source w) as [[m| |] w1]; simpl in Ho; destruct Ho as [Hh Ho];
    [|split_and!; [by left|done|done|by rewrite Hh]|split_and!; [by right|done|done|by rewrite Hh]].
  destruct Ho as [Ht Hb].
  destruct (receive_one_accepts now m d w1 p enqueued gone Ht Hs) as (d' & w' & p' & E & Hs' & Hst & Hpre & Hb'). rewrite E.
  specialize (IH d' w' p' enqueued gone Hs' ltac:(lia)).
  destruct (receive_loop sink source provider fuel now d' w' p') as [[[r d2] w2] p2]. destruct IH as (Hr & Hst2 & Hp2 & Hpre2).
  split_and!; [done|congruence| |].
  - rewrite Hp2. pose proof (sec_staged _ _ _ Hs) as E1. pose proof (sec_staged _ _ _ Hs') as E2. rewrite E1 in E2. by apply app_inv_head in E2.
  - rewrite <- Hh. by etrans.
Qed.

(** C13: After a reconnect one tick sends everything.  In any state the driver can
    be in, if the sink accepts what it is handed and the source holds finitely
    many messages, a tick after a reconnect terminates, hands the sink every
    frame of the outbox the peer has not acknowledged, oldest first, and then
    every staged frame in order, before anything else; it leaves nothing staged
    and the driver is not stalled. *)
Theorem reconnect_sends_everything (d : SyncDriver D S) (w : W) (enqueued gone : list (Z * Msg)) (fuel : nat) :
  secured d enqueued gone → (backlog w < fuel)%nat →
  let '(r, d', w') := tick sink source clock provider fuel (on_reconnect d) w in
  ((∃ p, r = Done p) ∨ r = SourceError) ∧ pending d' = [] ∧ stalled_since d' = None ∧
  (handed w ++ (entries_after (peer_acked_through d) (retained gone)).*2 ++ (pending d).*2) `prefix_of` handed w'.
Proof.
  intros Hs Hf. unfold tick. pose proof (clock_ok w) as Hc. destruct (clock w) as [now w1]. simpl in Hc. destruct Hc as [Hh1 Hb1].
  change (replay_pending (on_reconnect d)) with true. cbv iota zeta.
  assert (Hs0 : secured (with_replay (on_reconnect d) false) enqueued gone) by (by eapply secured_same, Hs).
  rewrite (replay_kept _ _ _ (sec_outbox _ _ _ Hs0)). cbn [sent acked].
  match goal with |- context [replay_loop sink now ?fs ?d0 w1 ?p0] =>
    pose proof (replay_loop_accepts now fs d0 w1 p0) as Hl1; destruct (replay_loop sink now fs d0 w1 p0) as [[d1 w2] p1] end.
  destruct Hl1 as (-> & Hh2 & Hb2). cbn [negb].
  pose proof (drain_loop_accepts now (pending d) (with_replay (on_reconnect d) false) w2 p1 enqueued gone Hs0 eq_refl eq_refl) as Hl2.
  pose proof (drain_loop_secured sink now (pending d) (with_replay (on_reconnect d) false) w2 p1 enqueued gone Hs0 eq_refl) as Hl2'.
  change (pending (with_replay (on_reconnect d) false)) with (pending d).
  destruct (drain_loop sink now (pending d) _ w2 p1) as [[[ok d2] w3] p2]. destruct Hl2' as [-> (gone2 & Hs2)].
  destruct Hl2 as (Hp2 & Hst2 & Hh3 & Hb3). cbn [negb].
  pose proof (receive_loop_accepts now fuel d2 w3 p2 enqueued gone2 Hs2 ltac:(lia)) as Hl3.
  destruct (receive_loop sink source provider fuel now d2 w3 p2) as [[[r d3] w4] p3]. destruct Hl3 as (Hr & Hst3 & Hp3 & Hpre).
  assert (Hall : handed w ++ (entries_after (peer_acked_through d) (retained gone)).*2 ++ (pending d).*2 `prefix_of` handed w4).
  { etrans; [|exact Hpre]. rewrite Hh3, Hh2, Hh1, <- app_assoc.
    change (peer_acked_through (with_replay (on_reconnect d) false)) with (peer_acked_through d). by rewrite Z.max_id. }
  destruct Hr as [-> | ->]; [|split_and!; [by right|congruence|congruence|done]].
  destruct (ack_owed d3); [|split_and!; [eauto|simpl; congruence|simpl; congruence|done]].
  match goal with |- context [sink ?m w4] => pose proof (sink_accepts m w4) as Hk; destruct (sink m w4) as [ok w5] end.
  simpl in Hk. destruct Hk as (-> & Hh5 & _). split_and!; [eauto|simpl; congruence|simpl; congruence|].
  rewrite Hh5. by apply prefix_app_r.
Qed.

End reconnect.

(** ** A concrete host *)
Module Host.

(** Messages with an integer body, as lists of numbers. *)
Definition encode_msg (m : IpcMessage Z) : list Z :=
  match m with
  | MSnapshot e b => [0; e; b] | MDelta base e b => [1; base; e; b] | MCrdtSync b => [2; b]
  | MResyncRequest f => [3; f] | MOutboxAck t => [4; t]
  end.
Definition decode_msg (l : list Z) : option (IpcMessage Z) :=
  match l with
  | [0; e; b] => Some (MSnapshot e b) | [1; base; e; b] => Some (MDelta base e b) | [2; b] => Some (MCrdtSync b)
  | [3; f] => Some (MResyncRequest f) | [4; t] => Some (MOutboxAck t) | _ => None
  end.
#[export, refine] Instance msg_codec : FrameCodec (IpcMessage Z) := { encode := encode_msg; decode := decode_msg }.
Proof. { by intros []. } { intros []; unfold is_u64, two64; simpl; lia. } Defined.

(** What is to be received, whether the next sends succeed, what was handed over. *)
Record World := mkWorld { inbox : list (IpcMessage Z); up : list bool; wire : list (IpcMessage Z) }.
Definition sink (m : IpcMessage Z) (w : World) : bool * World :=
  (default true (head (up w)), mkWorld (inbox w) (tail (up w)) (wire w ++ [m])).
Definition source (w : World) : SourceResult Z * World :=
  match inbox w with [] => (Quiet, w) | m :: rest => (Received m, mkWorld rest (up w) (wire w)) end.
Definition clock (w : World) : Z * World := (0, w).
Definition provider (e : Z) (w : World) : IpcMessage Z * World := (MSnapshot e 0, w).
Definition steady (m : IpcMessage Z) (w : World) : bool * World := (true, mkWorld (inbox w) (up w) (wire w ++ [m])).

(** The inbox is typed. *)
Definition typed_source (w : World) : SourceResult Z * World :=
  match inbox w with
  | [] => (Quiet, w)
  | MOutboxAck t :: rest => (Received (MOutboxAck (Z.min t i64_max)), mkWorld rest (up w) (wire w))
  | m :: rest => (Received m, mkWorld rest (up w) (wire w))
  end.

(** Three deltas, one acknowledged: a receiver at 2 applies the third only. *)
Lemma replay_catches_up_witness :
  ∃ o : StoredOutbox InMemoryStore,
  ∃ frames, outbox_replay_from o 0 = Some frames ∧ frames.*1 = [2; 3] ∧
    let run := core_run ingest (mkCoord 2 false) frames.*2 in
    run.1 = (λ f : Z * IpcMessage Z, if decide (2 < f.1) then Apply else Ignore) <$> frames ∧ last_epoch_ run.2 = 3.
Proof.
  set (msgs := <[3 := MDelta 2 3 30]> (<[2 := MDelta 1 2 20]> (<[1 := MDelta 0 1 10]> ∅)) : gmap Z (IpcMessage Z)).
  assert (Hk : keeps_sent (mkOutbox (mkMemory (encode <$> msgs) 1) 1) (mkSent msgs 1)).
  { split; [exists 1; split; [by split|simpl; lia]|]. split; [done|unfold i64_max; simpl; lia]. }
  assert (E : entries_after 1 msgs = [(2, MDelta 1 2 20); (3, MDelta 2 3 30)]) by (vm_compute; reflexivity).
  eexists. destruct (replay_catches_up _ _ 3 2 0 false Hk) as (frames & Hf & Hrun); cbn [sent acked]; rewrite ?E; [lia| | |].
  - do 2 (constructor; [lia|]). constructor.
  - right. set_solver.
  - exists frames. split; [exact Hf|]. split; [|exact Hrun].
    rewrite (replay_kept _ _ 0 Hk) in Hf. injection Hf as <-. cbn [sent acked]. change (Z.max 0 1) with 1. by rewrite E.
Defined.


(** Two frames retained, one staged, an acknowledgement waiting. *)
Lemma reconnect_sends_everything_witness :
  ∃ d : SyncDriver Z InMemoryStore, let w := mkWorld [MOutboxAck 2] [] [] in
  let '(r, d', w') := tick steady typed_source clock provider 3 (on_reconnect d) w in
  wire w' = [MDelta 0 1 10; MDelta 1 2 20; MDelta 2 3 30; MOutboxAck 0] ∧
  ((∃ p, r = Done p) ∨ r = SourceError) ∧ pending d' = [] ∧ stalled_since d' = None ∧
  (wire w ++ (entries_after (peer_acked_through d) (retained [(1, MDelta 0 1 10); (2, MDelta 1 2 20)])).*2 ++ (pending d).*2)
    `prefix_of` wire w'.
Proof.
  set (gone := [(1, MDelta 0 1 10); (2, MDelta 1 2 20)] : list (Z * IpcMessage Z)).
  set (d := mkDriver (mkOutbox (mkMemory (encode <$> retained gone) 0) 0) (mkCoord 0 false) [(3, MDelta 2 3 30)] 0 false false None).
  assert (Hs : secured d (gone ++ [(3, MDelta 2 3 30)]) gone).
  { split; simpl; [|done|by repeat constructor; simpl; unfold i64_max; lia].
    split; [exists 0; split; [by split|simpl; lia]|]. split; [done|unfold i64_max; simpl; lia]. }
  exists d. intros w.
  assert (H := reconnect_sends_everything (S := InMemoryStore) steady typed_source clock provider wire (λ w, length (inbox w))).
  specialize (H ltac:(intros; split_and!; simpl; done || lia)).
  specialize (H ltac:(intros [[|[] rest] u wi]; simpl; (split; [done|]); split; simpl; done || lia)).
  specialize (H ltac:(intros; split; simpl; done || lia) ltac:(intros; split; simpl; done || lia) d w _ gone 3%nat Hs ltac:(simpl; lia)).
  revert H. vm_compute (tick _ _ _ _ _ _ _). intros H. split; [reflexivity|exact H].
Defined.

End Host.
