(* ===== verification/Liveness.v ===== *)
(** * Liveness cells: the observed-remove tag set and the wire register

    Models OrSet and WireLwwRegister of include/lazily/reliable_sync.hpp, the
    two replicated values a sync peer announces itself with, and shows that
    replicas which took in the same states agree. *)
From stdpp Require Import strings.
From S2P Require Import Prelude Hlc.

(** ** The tag set *)

(* include/lazily/reliable_sync.hpp:504-505, OrSet (data members) *)
Record OrSet := mkOrSet { adds_ : gset string; removes_ : gset string }.
(* include/lazily/reliable_sync.hpp:484-484, OrSet::add *)
Definition or_add (tag : string) (s : OrSet) : OrSet := mkOrSet ({[ tag ]} ∪ adds_ s) (removes_ s).
(* include/lazily/reliable_sync.hpp:486-489, OrSet::remove_observed *)
Definition or_remove_observed (tags : list string) (s : OrSet) : OrSet := mkOrSet (adds_ s) (removes_ s ∪ list_to_set tags).
(* include/lazily/reliable_sync.hpp:491-496, OrSet::present *)
Definition or_present (s : OrSet) : bool := bool_decide (adds_ s ∖ removes_ s ≠ ∅).
(* include/lazily/reliable_sync.hpp:498-501, OrSet::join *)
Definition or_join (s other : OrSet) : OrSet := mkOrSet (adds_ s ∪ adds_ other) (removes_ s ∪ removes_ other).

(** Joins commute, associate and absorb repetition, so delivery order does not
    matter; a local change is a join with what it adds, so replicas that heard
    of the same changes agree; and an add is present until its own tag is
    removed, whatever other removals say. *)
Lemma or_set_converges (s t u : OrSet) (tag : string) (tags : list string) :
  or_join s t = or_join t s ∧ or_join s (or_join t u) = or_join (or_join s t) u ∧ or_join s s = s ∧
  or_add tag s = or_join s (or_add tag (mkOrSet ∅ ∅)) ∧
  or_remove_observed tags s = or_join s (or_remove_observed tags (mkOrSet ∅ ∅)) ∧
  (tag ∉ removes_ t → tag ∉ tags → or_present (or_remove_observed tags (or_join (or_add tag s) t)) = true ∨ tag ∈ removes_ s).
Proof.
  unfold or_join, or_add, or_remove_observed, or_present. destruct s, t, u. simpl.
  split_and!.
  - by rewrite (comm_L (∪) adds_0), (comm_L (∪) removes_0).
  - by rewrite !(assoc_L (∪)).
  - by rewrite !(idemp_L (∪)).
  - by rewrite (right_id_L ∅ (∪)), (right_id_L ∅ (∪)), (comm_L (∪)).
  - by rewrite (right_id_L ∅ (∪)), (left_id_L ∅ (∪)).
  - intros Ht Htags. destruct (decide (tag ∈ removes_0)) as [|Hn]; [by right|left]. apply bool_decide_eq_true.
    intros E. apply (not_elem_of_empty (C:=gset string) tag). rewrite <- E, elem_of_difference, !elem_of_union, elem_of_singleton, elem_of_list_to_set. tauto.
Qed.

(** ** The wire register *)

(* include/lazily/reliable_sync.hpp:513-517, wire_stamp_greater *)
Definition wire_stamp_greater (a b : WireStamp) : bool :=
  if negb (w_wall a =? w_wall b)%Z then (w_wall b <? w_wall a)%Z
  else if negb (w_logical a =? w_logical b)%Z then (w_logical b <? w_logical a)%Z
  else (w_peer b <? w_peer a)%Z.

Section register.
  Context {V : Type}.

(* include/lazily/reliable_sync.hpp:538-539, WireLwwRegister (data members) *)
Record WireLwwRegister := mkWireLww { wl_stamp : WireStamp; wl_value : V }.
(* include/lazily/reliable_sync.hpp:527-532, WireLwwRegister::set *)
Definition wire_lww_set (stamp : WireStamp) (value : V) (r : WireLwwRegister) : WireLwwRegister :=
  if wire_stamp_greater stamp (wl_stamp r) then mkWireLww stamp value else r.
(* include/lazily/reliable_sync.hpp:535-535, WireLwwRegister::join *)
Definition wire_lww_join (r other : WireLwwRegister) : WireLwwRegister := wire_lww_set (wl_stamp other) (wl_value other) r.

Lemma wire_stamp_greater_spec a b : wire_stamp_greater a b = true ↔
  (w_wall b < w_wall a ∨ w_wall a = w_wall b ∧ (w_logical b < w_logical a ∨ w_logical a = w_logical b ∧ w_peer b < w_peer a))%Z.
Proof.
  unfold wire_stamp_greater. destruct (Z.eqb_spec (w_wall a) (w_wall b)), (Z.eqb_spec (w_logical a) (w_logical b)); simpl;
    rewrite Z.ltb_lt; lia.
Qed.

Lemma wire_stamp_total a b : wire_stamp_greater a b = false → wire_stamp_greater b a = false → a = b.
Proof.
  rewrite <- !not_true_iff_false, !wire_stamp_greater_spec. destruct a, b. simpl. intros. f_equal; lia.
Qed.

(** A stamp names its value: two registers that hold the same stamp hold the
    same value, as unique stamps guarantee. *)
Definition same_writes (r s : WireLwwRegister) : Prop := wl_stamp r = wl_stamp s → wl_value r = wl_value s.

Lemma wire_register_converges r s t : same_writes r s → same_writes s t → same_writes r t →
  wire_lww_join r s = wire_lww_join s r ∧ wire_lww_join r (wire_lww_join s t) = wire_lww_join (wire_lww_join r s) t ∧
  wire_lww_join r r = r.
Proof.
  intros Hrs Hst Hrt. assert (Heq : ∀ a b, same_writes a b → wire_stamp_greater (wl_stamp a) (wl_stamp b) = false →
    wire_stamp_greater (wl_stamp b) (wl_stamp a) = false → a = b).
  { intros [sa va] [sb vb] Hab H1 H2. pose proof (wire_stamp_total _ _ H1 H2) as E. simpl in E. subst. f_equal. by apply Hab. }
  assert (Hanti : ∀ a b, wire_stamp_greater a b = true → wire_stamp_greater b a = true → False).
  { intros a b. rewrite !wire_stamp_greater_spec. lia. }
  assert (Htrans : ∀ a b c, wire_stamp_greater a b = true → wire_stamp_greater b c = true → wire_stamp_greater a c = true).
  { intros a b c. rewrite !wire_stamp_greater_spec. lia. }
  assert (Hneg : ∀ a b c, wire_stamp_greater a b = false → wire_stamp_greater b c = false → wire_stamp_greater a c = false).
  { intros a b c. rewrite <- !not_true_iff_false, !wire_stamp_greater_spec. lia. }
  unfold wire_lww_join, wire_lww_set. split_and!.
  - destruct (wire_stamp_greater (wl_stamp s) (wl_stamp r)) eqn:E1, (wire_stamp_greater (wl_stamp r) (wl_stamp s)) eqn:E2.
    + by destruct (Hanti _ _ E1 E2).
    + by destruct s.
    + by destruct r.
    + by apply Heq.
  - pose proof (Htrans (wl_stamp t) (wl_stamp s) (wl_stamp r)) as Ht. pose proof (Hneg (wl_stamp t) (wl_stamp s) (wl_stamp r)) as Hf.
    destruct (wire_stamp_greater (wl_stamp t) (wl_stamp s)) eqn:E1, (wire_stamp_greater (wl_stamp s) (wl_stamp r)) eqn:E2; simpl;
      rewrite ?E1, ?E2; [by rewrite Ht|done|done|by rewrite Hf].
  - destruct (wire_stamp_greater (wl_stamp r) (wl_stamp r)) eqn:E; [by destruct (Hanti _ _ E E)|done].
Qed.

End register.
