(* ===== verification/Statechart.v ===== *)
(** * Statecharts: hierarchical and parallel states over a source

    Models include/lazily/statechart.hpp: charts and the builder's checks, the
    engine that computes exits, entries, history and actions of an event, and
    the chart whose configuration is a source of the context.  [None] is an
    exception, or a loop that does not end: the loops along parents and initial
    states take one turn per declared state, which a chart without cycles never
    needs.  [std::set] iterates its ids in their order; [std::sort] is an
    argument, of which only its contract is known. *)
From stdpp Require Import strings.
From S2P Require Import Prelude Kernel KernelCorrect Reactive.
#[local] Open Scope nat_scope.

(* include/lazily/statechart.hpp:21-21, Kind *)
Inductive Kind := Atomic | Compound | Parallel | Final | HistoryShallow | HistoryDeep.
#[export] Instance Kind_eq_dec : EqDecision Kind.
Proof. solve_decision. Defined.

(* include/lazily/statechart.hpp:23-23, is_leaf_kind *)
Definition is_leaf_kind (k : Kind) : bool := match k with Atomic | Final => true | _ => false end.
(* include/lazily/statechart.hpp:25-25, is_history_kind *)
Definition is_history_kind (k : Kind) : bool := match k with HistoryShallow | HistoryDeep => true | _ => false end.

(* include/lazily/statechart.hpp:27-32, Transition *)
Record Transition := mkTransition { target : string; guard : option string; action : list string; internal : bool }.

(* include/lazily/statechart.hpp:34-42, StateDef *)
Record StateDef := mkState {
  parent : option string; kind_ : Kind; initial : option string; default_child : option string;
  transitions : gmap string Transition; entry : list string; exit : list string;
}.

(* include/lazily/statechart.hpp:44-44, Config *)
Definition Config := gset string.

(* include/lazily/statechart.hpp:46-51, ChartDef (data members) *)
Record ChartDef := mkChart {
  states : gmap string StateDef; children : gmap string (list string);
  order : gmap string nat; depth : gmap string nat; root : string;
}.

(* include/lazily/statechart.hpp:108-108, Recording *)
Inductive Recording := RecChild (child : string) | RecSet (set : Config).
(* include/lazily/statechart.hpp:109-109, HistoryMap *)
Definition HistoryMap := gmap string Recording.

(** The ids of a set in the order [std::set] iterates them. *)
Definition id_le : relation string := λ a b, String.leb a b = true.
#[local] Instance id_le_dec : RelDecision id_le := λ a b, decide (String.leb a b = true).
Definition in_order (c : Config) : list string := merge_sort id_le (elements c).

(** ** Charts *)

(* include/lazily/statechart.hpp:66-70, ChartDef::kind *)
Definition kind (def : ChartDef) (id : string) : option Kind := kind_ <$> states def !! id.

Fixpoint ancestors_loop (fuel : nat) (def : ChartDef) (cur : string) : option (list string) :=
  match fuel with
  | O => None
  | S fuel =>
      match states def !! cur ≫= parent with
      | None => Some [cur]
      | Some p => out ← ancestors_loop fuel def p; Some (cur :: out)
      end
  end.

(* include/lazily/statechart.hpp:72-82, ChartDef::ancestors_inclusive *)
Definition ancestors_inclusive (def : ChartDef) (id : string) : option (list string) :=
  ancestors_loop (S (size (states def))) def id.

(* include/lazily/statechart.hpp:84-92, ChartDef::lca *)
Definition lca (def : ChartDef) (a b : string) : option string :=
  anc_a ← ancestors_inclusive def a;
  anc_b ← ancestors_inclusive def b;
  Some (default (root def) (head (filter (λ s, s ∈ anc_a) anc_b))).

(* include/lazily/statechart.hpp:94-100, ChartDef::is_proper_descendant *)
Definition is_proper_descendant (def : ChartDef) (desc anc : string) : option bool :=
  if bool_decide (desc = anc) then Some false
  else l ← ancestors_inclusive def desc; Some (bool_decide (anc ∈ l)).

(* include/lazily/statechart.hpp:102-105, ChartDef::get_depth *)
Definition get_depth (def : ChartDef) (id : string) : nat := default 0 (depth def !! id).

(** ** The builder *)

(* include/lazily/statechart.hpp:113-115, TransitionBuilder::to *)
Definition tb_to (target : string) : Transition := mkTransition target None [] false.
(* include/lazily/statechart.hpp:116-119, TransitionBuilder::guard *)
Definition tb_guard (name : string) (t : Transition) : Transition :=
  mkTransition (target t) (Some name) (action t) (internal t).
(* include/lazily/statechart.hpp:120-123, TransitionBuilder::action *)
Definition tb_action (name : string) (t : Transition) : Transition :=
  mkTransition (target t) (guard t) (action t ++ [name]) (internal t).
(* include/lazily/statechart.hpp:124-127, TransitionBuilder::internal *)
Definition tb_internal (t : Transition) : Transition := mkTransition (target t) (guard t) (action t) true.

(* include/lazily/statechart.hpp:183-184, StateBuilder (data members) *)
Record StateBuilder := mkStateBuilder { sb_id : string; sb_def : StateDef }.

(* include/lazily/statechart.hpp:187-190, StateBuilder::with_kind *)
Definition sb_with_kind (id : string) (k : Kind) : StateBuilder :=
  mkStateBuilder id (mkState None k None None ∅ [] []).
(* include/lazily/statechart.hpp:138-138, StateBuilder::atomic *)
Definition sb_atomic (id : string) : StateBuilder := sb_with_kind id Atomic.
(* include/lazily/statechart.hpp:139-143, StateBuilder::compound *)
Definition sb_compound (id initial : string) : StateBuilder :=
  mkStateBuilder id (mkState None Compound (Some initial) None ∅ [] []).
(* include/lazily/statechart.hpp:144-144, StateBuilder::parallel *)
Definition sb_parallel (id : string) : StateBuilder := sb_with_kind id Parallel.
(* include/lazily/statechart.hpp:145-145, StateBuilder::final_state *)
Definition sb_final_state (id : string) : StateBuilder := sb_with_kind id Final.
(* include/lazily/statechart.hpp:146-148, StateBuilder::history_shallow *)
Definition sb_history_shallow (id : string) : StateBuilder := sb_with_kind id HistoryShallow.
(* include/lazily/statechart.hpp:149-151, StateBuilder::history_deep *)
Definition sb_history_deep (id : string) : StateBuilder := sb_with_kind id HistoryDeep.
(* include/lazily/statechart.hpp:153-156, StateBuilder::parent *)
Definition sb_parent (p : string) (sb : StateBuilder) : StateBuilder :=
  let d := sb_def sb in
  mkStateBuilder (sb_id sb) (mkState (Some p) (kind_ d) (initial d) (default_child d) (transitions d) (entry d) (exit d)).
(* include/lazily/statechart.hpp:157-160, StateBuilder::default_child *)
Definition sb_default_child (target : string) (sb : StateBuilder) : StateBuilder :=
  let d := sb_def sb in
  mkStateBuilder (sb_id sb) (mkState (parent d) (kind_ d) (initial d) (Some target) (transitions d) (entry d) (exit d)).
(* include/lazily/statechart.hpp:161-164, StateBuilder::entry *)
Definition sb_entry (action : string) (sb : StateBuilder) : StateBuilder :=
  let d := sb_def sb in
  mkStateBuilder (sb_id sb) (mkState (parent d) (kind_ d) (initial d) (default_child d) (transitions d) (entry d ++ [action]) (exit d)).
(* include/lazily/statechart.hpp:165-168, StateBuilder::exit *)
Definition sb_exit (action : string) (sb : StateBuilder) : StateBuilder :=
  let d := sb_def sb in
  mkStateBuilder (sb_id sb) (mkState (parent d) (kind_ d) (initial d) (default_child d) (transitions d) (entry d) (exit d ++ [action])).
(* include/lazily/statechart.hpp:178-181, StateBuilder::on_transition *)
Definition sb_on_transition (event : string) (t : Transition) (sb : StateBuilder) : StateBuilder :=
  let d := sb_def sb in
  mkStateBuilder (sb_id sb)
    (mkState (parent d) (kind_ d) (initial d) (default_child d) (<[event := t]> (transitions d)) (entry d) (exit d)).
(* include/lazily/statechart.hpp:169-172, StateBuilder::on *)
Definition sb_on (event target : string) : StateBuilder → StateBuilder := sb_on_transition event (tb_to target).
(* include/lazily/statechart.hpp:173-177, StateBuilder::on_guarded *)
Definition sb_on_guarded (event target guard : string) : StateBuilder → StateBuilder :=
  sb_on_transition event (tb_guard guard (tb_to target)).

(** The recursion goes from a state to those that name it as parent. *)
(* include/lazily/statechart.hpp:261-268, ChartBuilder::compute_depth *)
Fixpoint compute_depth (fuel : nat) (states : gmap string StateDef) (id : string) (current : nat) (out : gmap string nat) : gmap string nat :=
  match fuel with
  | O => out
  | S fuel =>
      foldl (λ out '(cid, def), if decide (parent def = Some id) then compute_depth fuel states cid (S current) out else out)
        (<[id := current]> out) (map_to_list states)
  end.

(** Every id-valued field names a declared state. *)
Definition references_declared (states : gmap string StateDef) (def : StateDef) : bool :=
  let declared (o : option string) := match o with Some id => bool_decide (is_Some (states !! id)) | None => true end in
  declared (parent def) && declared (initial def) && declared (default_child def) &&
  forallb (λ '(_, t), bool_decide (is_Some (states !! target t))) (map_to_list (transitions def)).

(** Children are listed in the order of declaration. *)
Definition order_leb (order : gmap string nat) (a b : string) : bool :=
  match order !! a, order !! b with
  | Some va, Some vb => va <=? vb
  | _, None => true
  | None, Some _ => false
  end.
Definition by_order (order : gmap string nat) : relation string := λ a b, order_leb order a b = true.
#[local] Instance by_order_dec order : RelDecision (by_order order) := λ a b, decide (order_leb order a b = true).

(* include/lazily/statechart.hpp:214-259, ChartBuilder::from_states *)
Definition from_states (states : gmap string StateDef) (order : gmap string nat) : option ChartDef :=
  let roots := filter (λ e : string * StateDef, parent e.2 = None) (map_to_list states) in
  match roots with
  | [(root, _)] =>
      if forallb (λ '(_, def), references_declared states def) (map_to_list states) then
        let add '(id, def) (children : gmap string (list string)) :=
          match parent def with Some p => <[p := default [] (children !! p) ++ [id]]> children | None => children end in
        let children := foldr add ∅ (map_to_list states) in
        Some (mkChart states (merge_sort (by_order order) <$> children) order (compute_depth (S (size states)) states root 0 ∅) root)
      else None
  | _ => None
  end.

(* include/lazily/statechart.hpp:200-209, ChartBuilder::build *)
Definition build (sbs : list StateBuilder) : option ChartDef :=
  '(states, order, _) ←
    foldl (λ acc sb,
      '(states, order, i) ← acc;
      match (states : gmap string StateDef) !! sb_id sb with
      | Some _ => None
      | None => Some (<[sb_id sb := sb_def sb]> states, <[sb_id sb := i]> (order : gmap string nat), S i)
      end) (Some (∅, ∅, 0)) sbs;
  from_states states order.

(** ** The engine *)

(* include/lazily/statechart.hpp:285-289, guard_passes *)
Definition guard_passes (t : Transition) (guards : gmap string bool) : bool :=
  match guard t with None => true | Some g => default false (guards !! g) end.

(** The entered states and the entry actions, in the order of the recursion. *)
(* include/lazily/statechart.hpp:291-312, enter_subtree *)
Fixpoint enter_subtree (fuel : nat) (def : ChartDef) (state : string) (acc : Config * list string) : option (Config * list string) :=
  match fuel with
  | O => None
  | S fuel =>
      let '(enter, actions) := acc in
      let enter := {[ state ]} ∪ enter in
      let actions := actions ++ match states def !! state with Some s => entry s | None => [] end in
      k ← kind def state;
      if is_leaf_kind k || is_history_kind k then Some (enter, actions)
      else
        match k with
        | Compound =>
            match states def !! state ≫= initial with
            | Some i => enter_subtree fuel def i (enter, actions)
            | None => Some (enter, actions)
            end
        | Parallel =>
            foldl (λ acc region, acc ← acc; enter_subtree fuel def region acc) (Some (enter, actions))
              (default [] (children def !! state))
        | _ => Some (enter, actions)
        end
  end.

Definition enter_from (def : ChartDef) (state : string) (enter : Config) : option Config :=
  '(enter, _) ← enter_subtree (S (size (states def))) def state (enter, []); Some enter.

(* include/lazily/statechart.hpp:314-327, path_below *)
Definition path_below (def : ChartDef) (lca target : string) : option (list string) :=
  chain ← ancestors_inclusive def target;
  let idx := default (length chain) (index_of lca chain) in
  Some (rev (take idx chain)).

(** The first of a list that passes a test that may fail. *)
Fixpoint find_first {A : Type} (test : A → option bool) (l : list A) : option (option A) :=
  match l with
  | [] => Some None
  | x :: l => b ← test x; if (b : bool) then Some (Some x) else find_first test l
  end.

(** Those of a list that pass it. *)
Fixpoint keep {A : Type} (test : A → option bool) (l : list A) : option (list A) :=
  match l with
  | [] => Some []
  | x :: l => b ← test x; l ← keep test l; Some (if (b : bool) then x :: l else l)
  end.

(* include/lazily/statechart.hpp:329-336, history_child_of *)
Definition history_child_of (def : ChartDef) (region : string) : option (option string) :=
  find_first (λ k, is_history_kind <$> kind def k) (default [] (children def !! region)).

(* include/lazily/statechart.hpp:338-358, record_region *)
Definition record_region (def : ChartDef) (region hist_child : string) (config : Config) (history : HistoryMap) : option HistoryMap :=
  k ← kind def hist_child;
  match k with
  | HistoryShallow =>
      c ← find_first (λ c, if decide (c ∈ config) then negb ∘ is_history_kind <$> kind def c else Some false)
            (default [] (children def !! region));
      Some (match c with Some c => <[hist_child := RecChild c]> history | None => history end)
  | HistoryDeep =>
      set ← keep (λ s, is_proper_descendant def s region) (in_order config);
      Some (<[hist_child := RecSet (list_to_set set)]> history)
  | _ => Some history
  end.

(* include/lazily/statechart.hpp:360-389, restore_via_history *)
Definition restore_via_history (def : ChartDef) (history : HistoryMap) (hist region : string) (enter : Config) : option Config :=
  match history !! hist with
  | None =>
      let start :=
        match states def !! hist ≫= default_child with
        | Some d => d
        | None => default EmptyString (states def !! region ≫= initial)
        end in
      if decide (start = EmptyString) then Some enter
      else
        path ← path_below def region start;
        enter_from def start (list_to_set path ∪ enter)
  | Some (RecChild child) => enter_from def child ({[ child ]} ∪ enter)
  | Some (RecSet set) => Some (set ∪ enter)
  end.

(** The state below which a transition exits and enters. *)
(* include/lazily/statechart.hpp:395-398, compute_exit_enter (the lca) *)
Definition transition_domain (def : ChartDef) (source : string) (transition : Transition) (leaf : string) : option string :=
  below ← is_proper_descendant def (target transition) source;
  if internal transition && (bool_decide (target transition = source) || below) then Some source
  else lca def leaf (target transition).

(* include/lazily/statechart.hpp:391-421, compute_exit_enter *)
Definition compute_exit_enter (def : ChartDef) (history : HistoryMap) (source : string) (transition : Transition)
    (leaf : string) (config : Config) : option (Config * Config) :=
  let target := target transition in
  lca ← transition_domain def source transition leaf;
  exit_set ← keep (λ s, is_proper_descendant def s lca) (in_order config);
  tk ← kind def target;
  enter ←
    (if is_history_kind tk then
       let region := default (root def) (states def !! target ≫= parent) in
       path ← path_below def lca region;
       restore_via_history def history target region (list_to_set path)
     else
       path ← path_below def lca target;
       enter_from def target (list_to_set path));
  Some (list_to_set exit_set, enter).

(* include/lazily/statechart.hpp:426-430, engine_send (Cand) *)
Record Cand := mkCand { c_source : string; c_transition : Transition; c_leaf : string }.

(** The innermost state from the leaf up whose transition is enabled. *)
(* include/lazily/statechart.hpp:432-443, engine_send (one leaf) *)
Definition candidate (def : ChartDef) (event : string) (guards : gmap string bool) (leaf : string) : option (option Cand) :=
  k ← kind def leaf;
  if negb (is_leaf_kind k) then Some None
  else
    ancs ← ancestors_inclusive def leaf;
    Some (head (omap (λ anc,
      t ← states def !! anc ≫= λ s, transitions s !! event;
      if guard_passes t guards then Some (mkCand anc t leaf) else None) ancs)).

Section engine.
  (** [std::sort]: what it does with equal elements is not specified. *)
  Context (std_sort : ∀ A : Type, (A → A → bool) → list A → list A).

(** One turn of the loop over the candidates. *)
(* include/lazily/statechart.hpp:459-473, engine_send (one candidate) *)
Definition select (def : ChartDef) (history : HistoryMap) (config : Config)
    (acc : option (Config * Config * list Transition)) (cand : Cand) : option (Config * Config * list Transition) :=
  '(exit_union, enter_union, taken) ← acc;
  '(exit_set, enter_set) ← compute_exit_enter def history (c_source cand) (c_transition cand) (c_leaf cand) config;
  if decide (exit_set ## exit_union)
  then Some (exit_union ∪ exit_set, enter_union ∪ enter_set, taken ++ [c_transition cand])
  else Some (exit_union, enter_union, taken).

(* include/lazily/statechart.hpp:423-515, engine_send *)
Definition engine_send (def : ChartDef) (history : HistoryMap) (config : Config) (event : string) (guards : gmap string bool) :
    option (option (Config * list string) * HistoryMap) :=
  cands ← mapM (candidate def event guards) (in_order config);
  let candidates := omap id cands in
  if bool_decide (candidates = []) then Some (None, history)
  else
    let candidates := std_sort Cand (λ a b,
      let da := get_depth def (c_source a) in
      let db := get_depth def (c_source b) in
      if negb (da =? db) then db <? da
      else
        match order def !! c_source a, order def !! c_source b with
        | Some va, Some vb => va <? vb
        | Some _, None => true
        | None, _ => false
        end) candidates in
    '(exit_union, enter_union, taken) ← foldl (select def history config) (Some (∅, ∅, [])) candidates;
    if bool_decide (taken = []) then Some (None, history)
    else
      history ← foldl (λ history s,
        history ← history;
        hc ← history_child_of def s;
        match hc with Some hc => record_region def s hc config history | None => Some history end)
        (Some history) (in_order exit_union);
      let actions_of (f : StateDef → list string) (s : string) := match states def !! s with Some d => f d | None => [] end in
      let exit_sorted := std_sort string (λ a b, get_depth def b <? get_depth def a) (in_order exit_union) in
      let enter_sorted := std_sort string (λ a b, get_depth def a <? get_depth def b) (in_order enter_union) in
      let actions := (exit_sorted ≫= actions_of exit) ++ (taken ≫= action) ++ (enter_sorted ≫= actions_of entry) in
      Some (Some ((config ∖ exit_union) ∪ enter_union, actions), history).

(** ** The reactive chart *)
Section chart.
  Context {C H : Type} `{!SourceContext C H Config}.

(* include/lazily/statechart.hpp:564-567, StateChart (data members) *)
Record StateChart := mkStateChart { def_ : ChartDef; config_ : H; history_ : HistoryMap; last_actions_ : list string }.

(* include/lazily/statechart.hpp:521-527, StateChart::StateChart *)
Definition chart_new (def : ChartDef) (c : C) : option (StateChart * C) :=
  '(enter, actions) ← enter_subtree (S (size (states def))) def (root def) (∅, []);
  '(h, c) ← ctx_source enter c;
  Some (mkStateChart def h ∅ actions, c).

(* include/lazily/statechart.hpp:531-531, StateChart::configuration *)
Definition configuration (sc : StateChart) (c : C) : option Config := ctx_get (config_ sc) c.

(* include/lazily/statechart.hpp:533-541, StateChart::active_leaves *)
Definition active_leaves (sc : StateChart) (c : C) : option (list string) :=
  config ← configuration sc c;
  leaves ← keep (λ id, is_leaf_kind <$> kind (def_ sc) id) (in_order config);
  Some (merge_sort id_le leaves).

(* include/lazily/statechart.hpp:543-545, StateChart::matches *)
Definition chart_matches (sc : StateChart) (id : string) (c : C) : option bool :=
  config ← configuration sc c; Some (bool_decide (id ∈ config)).

(* include/lazily/statechart.hpp:547-561, StateChart::send *)
Definition chart_send (sc : StateChart) (event : string) (guards : gmap string bool) (c : C) : option (bool * StateChart * C) :=
  config ← configuration sc c;
  '(result, history) ← engine_send (def_ sc) (history_ sc) config event guards;
  match result with
  | None => Some (false, mkStateChart (def_ sc) (config_ sc) history [], c)
  | Some (new_config, actions) =>
      c ← (if decide (new_config = config) then Some c else ctx_set (config_ sc) new_config c);
      Some (true, mkStateChart (def_ sc) (config_ sc) history actions, c)
  end.

End chart.
End engine.

(** ** Plain charts

    A tree of atomic, final, compound and parallel states, without history,
    where every compound state starts in a child of its own, and a transition
    enters no parallel state other than through the state itself, and does not
    target the leaf it is taken from. *)
Section plain.
  Context (def : ChartDef).

Definition enters_plainly (source : string) (t : Transition) (leaf : string) : bool :=
  bool_decide (target t ≠ leaf) &&
  match transition_domain def source t leaf with
  | Some l =>
      match path_below def l (target t) with
      | Some path => forallb (λ x, bool_decide (x = target t) || bool_decide (kind def x = Some Compound)) (l :: path)
      | None => false
      end
  | None => false
  end.

Definition plain_state (s : string) (d : StateDef) : Prop :=
  ancestors_inclusive def s ≫= last = Some (root def) ∧
  (parent d = None ↔ s = root def) ∧
  Forall (λ p, (kind def p = Some Compound ∨ kind def p = Some Parallel) ∧ s ∈ default [] (children def !! p)) (option_list (parent d)) ∧
  is_history_kind (kind_ d) = false ∧
  (kind_ d = Compound → (initial d ≫= λ i, states def !! i ≫= parent) = Some s) ∧
  Forall (λ k, states def !! k ≫= parent = Some s) (default [] (children def !! s)) ∧
  map_Forall (λ _ t, is_Some (states def !! target t) ∧
    map_Forall (λ leaf dl, is_leaf_kind (kind_ dl) = true → s ∈ default [] (ancestors_inclusive def leaf) →
      enters_plainly s t leaf = true) (states def)) (transitions d).

#[global] Instance plain_state_dec s d : Decision (plain_state s d).
Proof. unfold plain_state. apply _. Defined.

Definition plain_chart : Prop := is_Some (states def !! root def) ∧ map_Forall plain_state (states def).

#[global] Instance plain_chart_dec : Decision plain_chart.
Proof. unfold plain_chart. apply _. Defined.

(** The configurations a chart should be in: a set of declared states with the
    root, closed under parents, with exactly one child of each active compound
    state and every child of each active parallel one. *)
Record legal (c : Config) : Prop := mkLegal {
  legal_root : root def ∈ c;
  legal_declared : ∀ s, s ∈ c → is_Some (states def !! s);
  legal_parent : ∀ s p, s ∈ c → states def !! s ≫= parent = Some p → p ∈ c;
  legal_compound : ∀ s, s ∈ c → kind def s = Some Compound →
    ∃ k, k ∈ c ∧ states def !! k ≫= parent = Some s ∧ ∀ k', k' ∈ c → states def !! k' ≫= parent = Some s → k' = k;
  legal_parallel : ∀ s k, s ∈ c → kind def s = Some Parallel → states def !! k ≫= parent = Some s → k ∈ c;
}.

End plain.

(** ** The tree *)
Section tree.
  Context (def : ChartDef) (Hplain : plain_chart def).
  Notation par s := (states def !! s ≫= parent).

(** From a state up to the root. *)
Inductive chain : string → list string → Prop :=
  | chain_top s : par s = None → chain s [s]
  | chain_up s p l : par s = Some p → chain p l → chain s (s :: l).

Lemma chain_unique s l : chain s l → ∀ l', chain s l' → l = l'.
Proof.
  induction 1 as [s Hs|s p l Hp Hl IH]; intros l' Hl'; inversion Hl'; subst; [done|congruence|congruence|].
  f_equal. apply IH. congruence.
Qed.

Lemma ancestors_loop_chain fuel s l : ancestors_loop fuel def s = Some l → chain s l.
Proof.
  revert s l. induction fuel as [|fuel IH]; intros s l; simpl; [done|]. destruct (par s) as [p|] eqn:Hp.
  - intros (l' & Hl & [= <-])%bind_Some. econstructor; [done|by apply IH].
  - intros [= <-]. by constructor.
Qed.

Definition plain_of s d (Hs : states def !! s = Some d) : plain_state def s d := proj2 Hplain s d Hs.

Lemma par_Some s p : par s = Some p → ∃ d, states def !! s = Some d ∧ parent d = Some p.
Proof. intros (d & ? & ?)%bind_Some. eauto. Qed.

Lemma par_declared s p : par s = Some p → is_Some (states def !! s) ∧ is_Some (states def !! p) ∧
  (kind def p = Some Compound ∨ kind def p = Some Parallel) ∧ p ∈ option_list (par s) ∧ s ∈ default [] (children def !! p).
Proof.
  intros Hp. destruct (par_Some s p Hp) as (d & Hd & Hdp). destruct (plain_of s d Hd) as (_ & _ & Hf & _).
  rewrite Hdp in Hf. apply Forall_singleton in Hf as [Hk Hc]. rewrite Hp. split_and!; [eauto| |done|set_solver|done].
  unfold kind in Hk. destruct (states def !! p); [done|]. by destruct Hk.
Qed.

Lemma ancestors_chain s : is_Some (states def !! s) → ∃ l, ancestors_inclusive def s = Some l ∧ chain s l.
Proof.
  intros [d Hd]. destruct (plain_of s d Hd) as (Ha & _). apply bind_Some in Ha as (l & Hl & _).
  exists l. split; [done|]. by eapply ancestors_loop_chain.
Qed.

Lemma chain_exists s : is_Some (states def !! s) → ∃ l, chain s l.
Proof. intros (l & _ & ?)%ancestors_chain. eauto. Qed.

(** [a] is [s] or one of its ancestors. *)
Definition under (s a : string) : Prop := ∃ l, chain s l ∧ a ∈ l.

Lemma chain_head s l : chain s l → ∃ l', l = s :: l'.
Proof. inversion 1; eauto. Qed.

Lemma chain_cons s x l : chain s (x :: l) → x = s.
Proof. intros Hc. destruct (chain_head s _ Hc) as [l' E]. congruence. Qed.

Lemma under_refl s : is_Some (states def !! s) → under s s.
Proof. intros (l & Hl)%chain_exists. exists l. split; [done|]. destruct (chain_head s l Hl) as [? ->]. by left. Qed.

(** The chain of an ancestor is a suffix. *)
Lemma chain_suffix s l a : chain s l → a ∈ l → ∃ l1 l2, l = l1 ++ l2 ∧ chain a l2.
Proof.
  induction 1 as [s Hs|s p l Hp Hl IH]; intros Ha.
  - apply list_elem_of_singleton in Ha as ->. exists [], [s]. split; [done|by constructor].
  - apply elem_of_cons in Ha as [->|Ha]; [exists [], (s :: l); split; [done|by econstructor]|].
    destruct (IH Ha) as (l1 & l2 & -> & ?). by exists (s :: l1), l2.
Qed.

Lemma under_trans s a b : under s a → under a b → under s b.
Proof.
  intros (l & Hl & Ha) (l' & Hl' & Hb). exists l. split; [done|]. destruct (chain_suffix s l a Hl Ha) as (l1 & l2 & -> & Hl2).
  rewrite (chain_unique _ _ Hl2 _ Hl'). apply elem_of_app. by right.
Qed.

Lemma under_parent s p : par s = Some p → under s p.
Proof.
  intros Hp. destruct (chain_exists p) as [l Hl]; [by apply (par_declared s)|]. exists (s :: l). split; [by econstructor|].
  destruct (chain_head p l Hl) as [? ->]. right. by left.
Qed.

Lemma under_step s a : under s a → s = a ∨ ∃ p, par s = Some p ∧ under p a.
Proof.
  intros (l & Hl & Ha). inversion Hl as [? Hs|? p l' Hp Hl']; subst.
  - left. set_solver.
  - apply elem_of_cons in Ha as [->|Ha]; [by left|]. right. exists p. split; [done|]. by exists l'.
Qed.

Lemma chain_length_suffix s l a l' : chain s l → chain a l' → a ∈ l → length l' ≤ length l.
Proof.
  intros Hl Hl' Ha. destruct (chain_suffix s l a Hl Ha) as (l1 & l2 & -> & Hl2). rewrite (chain_unique _ _ Hl' _ Hl2), length_app. lia.
Qed.

Lemma under_antisym s a : under s a → under a s → s = a.
Proof.
  intros Hsa Has. destruct (under_step s a Hsa) as [?|(p & Hp & Hpa)]; [done|]. exfalso.
  destruct (under_trans p a s Hpa Has) as (l & Hl & Hs). assert (Hl' : chain s (s :: l)) by (by econstructor).
  pose proof (chain_length_suffix p l s (s :: l) Hl Hl' Hs). simpl in *. lia.
Qed.

(** Two ancestors of a state are one above the other. *)
Lemma under_linear s a b : under s a → under s b → under a b ∨ under b a.
Proof.
  intros (l & Hl & Ha) (l' & Hl' & Hb). rewrite <- (chain_unique _ _ Hl _ Hl') in Hb. clear Hl'. revert Ha Hb.
  induction Hl as [s Hs|s p l Hp Hl IH]; intros Ha Hb.
  - apply list_elem_of_singleton in Ha as ->, Hb as ->. left. exists [s]. split; [by constructor|by left].
  - apply elem_of_cons in Ha as [->|Ha]; [left; exists (s :: l); split; [by econstructor|done]|].
    apply elem_of_cons in Hb as [->|Hb]; [right; exists (s :: l); split; [by econstructor|by right]|]. auto.
Qed.

Lemma regions_apart s a b p : par a = Some p → par b = Some p → under s a → under s b → a = b.
Proof.
  intros Ha Hb Hsa Hsb. assert (Hnot : ∀ x y, par x = Some p → par y = Some p → under x y → x = y).
  { intros x y Hx Hy Hxy. destruct (under_step x y Hxy) as [?|(p' & Hp' & Hu)]; [done|]. rewrite Hx in Hp'. injection Hp' as <-.
    assert (p = y) as <- by (apply under_antisym; [done|by apply under_parent]).
    assert (Hpp : under p p) by (apply under_refl; by apply (par_declared x)).
    exfalso. destruct Hpp as (l & Hl & _). assert (Hl' : chain p (p :: l)) by (by econstructor).
    pose proof (f_equal length (chain_unique _ _ Hl _ Hl')). simpl in *. lia. }
  destruct (under_linear s a b Hsa Hsb) as [?|?]; [by apply Hnot|symmetry; by apply Hnot].
Qed.

Lemma par_not_under s p : par s = Some p → ¬ under p s.
Proof.
  intros Hp Hu. assert (s = p) as <- by (apply under_antisym; [by apply under_parent|done]).
  destruct (under_refl s) as (l & Hl & _); [by apply (par_declared s s)|]. assert (Hl' : chain s (s :: l)) by (by econstructor).
  pose proof (f_equal length (chain_unique _ _ Hl _ Hl')). simpl in *. lia.
Qed.

(** ** Entered sets *)

(** What entering at [s] should activate: [s], below it a legal configuration. *)
Record good (s : string) (F : Config) : Prop := mkGood {
  good_self : s ∈ F;
  good_under : ∀ x, x ∈ F → under x s;
  good_declared : ∀ x, x ∈ F → is_Some (states def !! x);
  good_parent : ∀ x p, x ∈ F → x ≠ s → par x = Some p → p ∈ F;
  good_compound : ∀ x, x ∈ F → kind def x = Some Compound →
    ∃ k, k ∈ F ∧ par k = Some x ∧ ∀ k', k' ∈ F → par k' = Some x → k' = k;
  good_parallel : ∀ x k, x ∈ F → kind def x = Some Parallel → par k = Some x → k ∈ F;
}.

(** Above a compound state's entered child. *)
Lemma good_up s i F : par i = Some s → kind def s = Some Compound → good i F → good s ({[ s ]} ∪ F).
Proof.
  intros Hi Hk [Hself Hund Hdec Hpar Hcomp Hparl]. assert (Hs : s ∉ F) by (intros Hin%Hund; by eapply par_not_under).
  split.
  - set_solver.
  - intros x [->%elem_of_singleton|Hx]%elem_of_union; [apply under_refl; by apply (par_declared i)|].
    eapply under_trans; [by apply Hund|by apply under_parent].
  - intros x [->%elem_of_singleton|Hx]%elem_of_union; [by apply (par_declared i)|by apply Hdec].
  - intros x p [->%elem_of_singleton|Hx]%elem_of_union Hne Hp; [done|]. destruct (decide (x = i)) as [->|Hxi]; [|set_solver].
    rewrite Hi in Hp. injection Hp as <-. set_solver.
  - intros x [->%elem_of_singleton|Hx]%elem_of_union Hkx.
    + exists i. split_and!; [set_solver|done|]. intros k' [->%elem_of_singleton|Hk']%elem_of_union Hp'.
      * exfalso. eapply par_not_under; [exact Hp'|]. apply under_refl. by apply (par_declared s s).
      * eapply regions_apart; [exact Hp'|exact Hi|apply under_refl; by apply Hdec|by apply Hund].
    + destruct (Hcomp x Hx Hkx) as (k & Hkin & Hkp & Huniq). exists k. split_and!; [set_solver|done|].
      intros k' [->%elem_of_singleton|Hk']%elem_of_union Hp'; [|auto]. exfalso.
      apply (par_not_under i s Hi). eapply under_trans; [by apply under_parent|by apply Hund].
  - intros x k [->%elem_of_singleton|Hx]%elem_of_union Hkx Hp; [congruence|]. apply elem_of_union. right. by eapply Hparl.
Qed.

(** Below a parallel state, one set per region. *)
Lemma good_regions s (f : string → Config) (regions : list string) : is_Some (states def !! s) → kind def s = Some Parallel →
  (∀ k, par k = Some s ↔ k ∈ regions) → (∀ k, k ∈ regions → good k (f k)) →
  good s ({[ s ]} ∪ ⋃ (f <$> regions)).
Proof.
  intros Hdecl Hk Hall Hgood.
  assert (Hin : ∀ x, x ∈ ⋃ (f <$> regions) ↔ ∃ r, r ∈ regions ∧ x ∈ f r).
  { intros x. rewrite elem_of_union_list. setoid_rewrite list_elem_of_fmap. naive_solver. }
  assert (Hreg : ∀ x, x ∈ ⋃ (f <$> regions) → ∃ r, r ∈ regions ∧ x ∈ f r ∧ par r = Some s ∧ good r (f r)).
  { intros x (r & Hr & Hx)%Hin. exists r. split_and!; [done|done|by apply Hall|auto]. }
  assert (Hsub : ∀ r x, r ∈ regions → x ∈ f r → x ∈ {[ s ]} ∪ ⋃ (f <$> regions)).
  { intros r x Hr Hx. apply elem_of_union. right. apply Hin. eauto. }
  split.
  - set_solver.
  - intros x [->%elem_of_singleton|(r & _ & Hx & Hr & HF)%Hreg]%elem_of_union; [by apply under_refl|].
    eapply under_trans; [by apply (good_under _ _ HF)|by apply under_parent].
  - intros x [->%elem_of_singleton|(r & _ & Hx & Hr & HF)%Hreg]%elem_of_union; [done|by apply (good_declared _ _ HF)].
  - intros x p [->%elem_of_singleton|(r & Hrin & Hx & Hr & HF)%Hreg]%elem_of_union Hne Hp; [done|].
    destruct (decide (x = r)) as [->|Hxr]; [rewrite Hr in Hp; injection Hp as <-; set_solver|].
    eapply Hsub; [done|]. by eapply (good_parent _ _ HF).
  - intros x [->%elem_of_singleton|(r & Hrin & Hx & Hr & HF)%Hreg]%elem_of_union Hkx; [congruence|].
    destruct (good_compound _ _ HF x Hx Hkx) as (k & Hkin & Hkp & Huniq). exists k. split_and!; [by eapply Hsub|done|].
    intros k' [->%elem_of_singleton|(r' & _ & Hx' & Hr' & HF')%Hreg]%elem_of_union Hp'.
    + exfalso. apply (par_not_under r s Hr). eapply under_trans; [by apply under_parent|by apply (good_under _ _ HF)].
    + assert (r' = r) as ->; [|auto]. eapply regions_apart; [exact Hr'|exact Hr|by apply (good_under _ _ HF')|].
      eapply under_trans; [by apply under_parent|by apply (good_under _ _ HF)].
  - intros x k [->%elem_of_singleton|(r & Hrin & Hx & Hr & HF)%Hreg]%elem_of_union Hkx Hp.
    + eapply Hsub; [by apply Hall|]. by apply Hgood, Hall.
    + eapply Hsub; [done|]. by eapply (good_parallel _ _ HF).
Qed.

(** A state without children enters alone. *)
Lemma good_leaf s k : kind def s = Some k → is_leaf_kind k = true → good s {[ s ]}.
Proof.
  intros Hk Hleaf. assert (Hs : is_Some (states def !! s)) by (unfold kind in Hk; by destruct (states def !! s)).
  split; try (intros x Hx%elem_of_singleton; subst x).
  - set_solver.
  - by apply under_refl.
  - done.
  - by intros x p Hx%elem_of_singleton Hne.
  - intros Hc. rewrite Hk in Hc. injection Hc as ->. done.
  - intros x k' Hx%elem_of_singleton Hkx. subst x. rewrite Hk in Hkx. injection Hkx as ->. done.
Qed.

Lemma kind_plain s : is_Some (states def !! s) → ∃ k, kind def s = Some k ∧ is_history_kind k = false ∧
  (k = Compound → ∃ i, states def !! s ≫= initial = Some i ∧ par i = Some s) ∧
  (∀ c, c ∈ default [] (children def !! s) ↔ par c = Some s).
Proof.
  intros [d Hd]. destruct (plain_of s d Hd) as (_ & _ & _ & Hh & Hi & Hc & _). exists (kind_ d).
  unfold kind. rewrite Hd. split_and!; [done|done| |].
  - intros E. specialize (Hi E). apply bind_Some in Hi as (i & Hi & Hp). by exists i.
  - intros c. split; [rewrite Forall_forall in Hc; apply Hc|]. intros Hp. by apply par_declared in Hp as (_ & _ & _ & _ & ?).
Qed.

(** How many more levels there are to enter below a state. *)
Definition levels (s : string) : nat := match ancestors_inclusive def s with Some l => S (size (states def)) - length l | None => 0 end.

Lemma levels_chain s l : chain s l → is_Some (states def !! s) → levels s = S (size (states def)) - length l.
Proof.
  intros Hl Hs. unfold levels. destruct (ancestors_chain s Hs) as (l' & -> & Hl'). by rewrite (chain_unique _ _ Hl _ Hl').
Qed.

Lemma chain_NoDup s l : chain s l → NoDup l.
Proof.
  induction 1 as [s Hs|s p l Hp Hl IH]; [apply NoDup_singleton|]. apply NoDup_cons. split; [|done].
  intros Hin. apply (par_not_under s p Hp). by exists l.
Qed.

Lemma chain_bound s l : chain s l → is_Some (states def !! s) → 1 ≤ length l ≤ size (states def).
Proof.
  intros Hl Hs. split; [destruct (chain_head s l Hl) as [? ->]; simpl; lia|]. pose proof (chain_NoDup s l Hl) as Hnd.
  assert (Hall : ∀ x, x ∈ l → x ∈ dom (states def)).
  { intros x Hx. apply elem_of_dom. revert Hs x Hx. clear Hnd. induction Hl as [s Hs'|s p l Hp Hl IH]; intros Hs x Hx.
    - apply list_elem_of_singleton in Hx as ->. done.
    - apply elem_of_cons in Hx as [->|Hx]; [done|]. apply IH; [by apply (par_declared s)|done]. }
  rewrite <- size_dom. assert (E : length l = size (list_to_set l : gset string)) by (by rewrite size_list_to_set).
  rewrite E. apply subseteq_size. intros x Hx%elem_of_list_to_set. auto.
Qed.

Lemma levels_child c s : par c = Some s → levels c < levels s.
Proof.
  intros Hp. destruct (par_declared c s Hp) as (Hc & Hs & _). destruct (chain_exists s Hs) as [l Hl].
  assert (Hlc : chain c (c :: l)) by (by econstructor). rewrite (levels_chain _ _ Hl Hs), (levels_chain _ _ Hlc Hc).
  pose proof (chain_bound _ _ Hlc Hc). pose proof (chain_bound _ _ Hl Hs). simpl in *. lia.
Qed.

(** What entering a state activates. *)
Definition entered (s : string) : Config := default ∅ (fst <$> enter_subtree (S (levels s)) def s (∅, [])).

(** [enter_subtree] adds a set of its own, whatever it is given. *)
Definition enters_to (s : string) (F : Config) : Prop :=
  ∀ fuel E acts, levels s < fuel → ∃ acts', enter_subtree fuel def s (E, acts) = Some (F ∪ E, acts').

Lemma enters_to_entered s F : enters_to s F → entered s = F.
Proof. intros HF. unfold entered. destruct (HF (S (levels s)) ∅ [] ltac:(lia)) as [a ->]. simpl. by rewrite (right_id_L ∅ (∪)). Qed.

Lemma enter_regions fuel rs : Forall (λ r, enters_to r (entered r) ∧ levels r < fuel) rs → ∀ E acts, ∃ acts',
  foldl (λ acc region, acc ← acc; enter_subtree fuel def region acc) (Some (E, acts)) rs =
    Some (⋃ (entered <$> rs) ∪ E, acts').
Proof.
  induction 1 as [|r rs [Hr Hlt] Hrs IH]; intros E acts; [exists acts; simpl; by rewrite (left_id_L ∅ (∪))|].
  simpl. destruct (Hr fuel E acts Hlt) as [acts1 ->]. destruct (IH (entered r ∪ E) acts1) as [acts2 ->]. exists acts2.
  do 2 f_equal. set_solver.
Qed.

Lemma enter_ok n : ∀ s, is_Some (states def !! s) → levels s ≤ n → good s (entered s) ∧ enters_to s (entered s).
Proof.
  induction n as [n IH] using lt_wf_ind. intros s Hs Hn. destruct (kind_plain s Hs) as (k & Hk & Hh & Hi & Hc).
  assert (Hgoal : ∃ F, good s F ∧ enters_to s F); [|destruct Hgoal as (F & HF & He); by rewrite (enters_to_entered s F He)].
  assert (Hstep : ∀ fuel E acts, enter_subtree (S fuel) def s (E, acts) =
    let acts := acts ++ match states def !! s with Some s => entry s | None => [] end in
    if is_leaf_kind k || is_history_kind k then Some ({[ s ]} ∪ E, acts)
    else match k with
         | Compound => match states def !! s ≫= initial with
             | Some i => enter_subtree fuel def i ({[ s ]} ∪ E, acts) | None => Some ({[ s ]} ∪ E, acts) end
         | Parallel => foldl (λ acc region, acc ← acc; enter_subtree fuel def region acc) (Some ({[ s ]} ∪ E, acts))
             (default [] (children def !! s))
         | _ => Some ({[ s ]} ∪ E, acts) end) by (intros; simpl; by rewrite Hk).
  destruct (is_leaf_kind k) eqn:Hl.
  { exists {[ s ]}. split; [by eapply good_leaf|]. intros [|fuel] E acts Hf; [lia|]. rewrite Hstep. simpl. eauto. }
  destruct k; try done.
  - destruct (Hi eq_refl) as (i & Hini & Hpi). destruct (par_declared i s Hpi) as (Hid & _). pose proof (levels_child i s Hpi).
    destruct (IH (levels i) ltac:(lia) i Hid ltac:(lia)) as [Hg He]. exists ({[ s ]} ∪ entered i). split; [by apply (good_up s i)|].
    intros [|fuel] E acts Hf; [lia|]. rewrite Hstep, Hini. simpl.
    destruct (He fuel ({[ s ]} ∪ E) (acts ++ match states def !! s with Some s => entry s | None => [] end) ltac:(lia)) as [a ->].
    exists a. do 2 f_equal. set_solver.
  - set (rs := default [] (children def !! s)) in *.
    assert (Hrs : ∀ r, r ∈ rs → is_Some (states def !! r) ∧ levels r < levels s ∧ good r (entered r) ∧ enters_to r (entered r)).
    { intros r Hr%Hc. destruct (par_declared r s Hr) as (Hrd & _). pose proof (levels_child r s Hr).
      destruct (IH (levels r) ltac:(lia) r Hrd ltac:(lia)). by split_and!. }
    exists ({[ s ]} ∪ ⋃ (entered <$> rs)). split.
    + apply good_regions; [done|done|intros r; symmetry; apply Hc|]. intros r Hr. by apply Hrs.
    + intros [|fuel] E acts Hf; [lia|]. rewrite Hstep. simpl.
      destruct (enter_regions fuel rs) with (E := {[ s ]} ∪ E) (acts := acts ++ match states def !! s with Some s => entry s | None => [] end)
        as [a ->]; [|exists a; do 2 f_equal; set_solver].
      apply Forall_forall. intros r Hr. destruct (Hrs r Hr) as (_ & ? & _ & ?). split; [done|lia].
Qed.

Lemma enter_from_ok s E : is_Some (states def !! s) → enter_from def s E = Some (entered s ∪ E) ∧ good s (entered s).
Proof.
  intros Hs. destruct (enter_ok (levels s) s Hs ltac:(lia)) as [Hg He]. split; [|done]. unfold enter_from.
  destruct (chain_exists s Hs) as [l Hl]. pose proof (chain_bound s l Hl Hs).
  destruct (He (S (size (states def))) E []) as [a ->]; [|done]. rewrite (levels_chain s l Hl Hs). lia.
Qed.

(** ** One transition *)

(** Leaving the active states below [a] and entering a good set at [a]. *)
Lemma legal_switch c X F a : legal def c → a ∈ c → good a F → (∀ s, s ∈ X ↔ s ∈ c ∧ under s a ∧ s ≠ a) →
  legal def ((c ∖ X) ∪ F).
Proof.
  intros [Hroot Hdec Hpar Hcomp Hparl] Ha HF HX.
  assert (Hout : ∀ s, s ∈ c → ¬ under s a → s ∈ c ∖ X) by (intros s Hs Hn; rewrite elem_of_difference, HX; tauto).
  assert (Haa : under a a) by (apply under_refl; auto).
  assert (Hchild : ∀ k s, par k = Some s → under s a → under k a ∧ k ≠ a).
  { intros k s Hp Hu. split; [eapply under_trans; [by apply under_parent|done]|]. intros ->. by eapply par_not_under. }
  split.
  - destruct (decide (root def = a)) as [->|Hne]; [apply elem_of_union; right; apply HF|]. apply elem_of_union. left.
    apply Hout; [done|]. intros Hu. destruct (under_step _ _ Hu) as [?|(p & Hp & _)]; [done|].
    destruct (proj1 Hplain) as [d Hd]. destruct (plain_of _ d Hd) as (_ & Hr & _). rewrite Hd in Hp. simpl in Hp.
    rewrite (proj2 Hr) in Hp by done. done.
  - intros s [[Hs _]%elem_of_difference|Hs]%elem_of_union; [auto|by apply (good_declared _ _ HF)].
  - intros s p [[Hs Hn]%elem_of_difference|Hs]%elem_of_union Hp; apply elem_of_union.
    + rewrite HX in Hn. left. apply elem_of_difference. split; [by eapply Hpar|]. rewrite HX. intros (_ & Hu & _).
      apply Hn. split; [done|]. by apply (Hchild s p).
    + destruct (decide (s = a)) as [->|Hne]; [left|right; by eapply (good_parent _ _ HF)].
      apply Hout; [by eapply Hpar|]. by apply par_not_under.
  - intros s Hs Hk. destruct (decide (s ∈ F)) as [HsF|HsF].
    + destruct (good_compound _ _ HF s HsF Hk) as (k & Hkin & Hkp & Huniq). exists k. split_and!; [set_solver|done|].
      intros k' [[Hk' Hn]%elem_of_difference|Hk']%elem_of_union Hp'; [|auto]. exfalso. apply Hn, HX. split; [done|].
      apply (Hchild k' s); [done|by apply (good_under _ _ HF)].
    + apply elem_of_union in Hs as [[Hs Hn]%elem_of_difference|?]; [|done]. rewrite HX in Hn.
      assert (Hna : s ≠ a) by (intros ->; apply HsF, HF). assert (Hnu : ¬ under s a) by (intros Hu; by apply Hn).
      destruct (Hcomp s Hs Hk) as (k & Hkin & Hkp & Huniq). exists k. split_and!; [|done|].
      * destruct (decide (k = a)) as [->|Hka]; [apply elem_of_union; right; apply HF|]. apply elem_of_union. left. apply Hout; [done|].
        intros Hu. destruct (under_step k a Hu) as [?|(p & Hp & Hpu)]; [done|]. rewrite Hkp in Hp. by injection Hp as <-.
      * intros k' [[Hk' _]%elem_of_difference|Hk']%elem_of_union Hp'; [auto|]. apply Huniq; [|done].
        destruct (under_step k' a) as [->|(p & Hp & Hpu)]; [by apply (good_under _ _ HF)|done|].
        rewrite Hp' in Hp. by injection Hp as <-.
  - intros s k Hs Hk Hp. destruct (decide (s ∈ F)) as [HsF|HsF].
    + apply elem_of_union. right. by eapply (good_parallel _ _ HF).
    + apply elem_of_union in Hs as [[Hs Hn]%elem_of_difference|?]; [|done]. rewrite HX in Hn.
      assert (Hna : s ≠ a) by (intros ->; apply HsF, HF). assert (Hnu : ¬ under s a) by (intros Hu; by apply Hn).
      destruct (decide (k = a)) as [->|Hka]; [apply elem_of_union; right; apply HF|]. apply elem_of_union. left.
      apply Hout; [by eapply Hparl|]. intros Hu. destruct (under_step k a Hu) as [?|(p & Hp' & Hpu)]; [done|].
      rewrite Hp in Hp'. by injection Hp' as <-.
Qed.

(** Entering along a path: every state above the target has one entered child. *)
Lemma good_path t l1 a l2 F : chain t (l1 ++ a :: l2) → good t F → t ≠ a → a ∉ l1 →
  Forall (λ x, x ≠ t → kind def x = Some Compound) (a :: l1) →
  good a ({[ a ]} ∪ list_to_set l1 ∪ F).
Proof.
  intros Hc HF Hne Ha Hk. apply Forall_cons in Hk as [Hka Hk]. specialize (Hka (not_eq_sym Hne)).
  assert (Hgen : ∀ l1 x, chain x (l1 ++ a :: l2) → x ≠ a → ∀ G, good x G →
    Forall (λ y, y ≠ x → kind def y = Some Compound) l1 → a ∉ l1 → good a ({[ a ]} ∪ list_to_set l1 ∪ G)).
  { clear -Hplain Hka. induction l1 as [|y l1 IH]; intros x Hc Hne G HG Hk Ha; simpl in Hc.
    { apply chain_cons in Hc. done. }
    pose proof (chain_cons _ _ _ Hc) as ->. inversion Hc as [? Hnil E1 E2|? p ? Hp Hc' E1]; subst; [by destruct l1|].
    apply not_elem_of_cons in Ha as [_ Ha]. apply Forall_cons in Hk as [_ Hk]. pose proof (good_self _ _ HG) as Hself.
    destruct l1 as [|z l1].
    - pose proof (chain_cons _ _ _ Hc') as ->. pose proof (good_up p x G Hp Hka HG) as Hg. simpl.
      replace ({[p]} ∪ ({[x]} ∪ ∅) ∪ G) with ({[p]} ∪ G); [done|set_solver].
    - pose proof (chain_cons _ _ _ Hc') as ->. assert (Hxp : x ∉ p :: l1).
      { apply chain_NoDup in Hc. apply NoDup_cons in Hc as [Hnin _]. intros Hin. apply Hnin, elem_of_app. by left. }
      assert (Hpk : kind def p = Some Compound).
      { apply Forall_cons in Hk as [Hk _]. apply Hk. intros ->. apply Hxp. by left. }
      replace ({[a]} ∪ list_to_set (x :: p :: l1) ∪ G) with ({[a]} ∪ list_to_set (p :: l1) ∪ ({[p]} ∪ G)) by set_solver.
      apply (IH p); [done|set_solver|by apply (good_up p x)| |done]. rewrite Forall_forall in Hk |- *. intros y Hy _. apply Hk; [done|].
      by intros ->. }
  eapply Hgen; eauto.
Qed.

Lemma is_proper_descendant_ok x a : is_Some (states def !! x) →
  ∃ b, is_proper_descendant def x a = Some b ∧ (b = true ↔ under x a ∧ x ≠ a).
Proof.
  intros Hx. unfold is_proper_descendant. case_bool_decide as Hxa; [exists false; split; [done|naive_solver]|].
  destruct (ancestors_chain x Hx) as (l & -> & Hl). simpl. eexists. split; [done|]. rewrite bool_decide_eq_true. split.
  - intros Ha. split; [by exists l|done].
  - intros [(l' & Hl' & Ha) _]. by rewrite (chain_unique _ _ Hl _ Hl').
Qed.

Lemma keep_descendants c a : (∀ x, x ∈ c → is_Some (states def !! x)) →
  ∃ l, keep (λ s, is_proper_descendant def s a) (in_order c) = Some l ∧ ∀ x, x ∈ l ↔ x ∈ c ∧ under x a ∧ x ≠ a.
Proof.
  intros Hc. assert (Hgen : ∀ xs, (∀ x, x ∈ xs → is_Some (states def !! x)) → ∃ l, keep (λ s, is_proper_descendant def s a) xs = Some l ∧
    ∀ x, x ∈ l ↔ x ∈ xs ∧ under x a ∧ x ≠ a).
  { induction xs as [|y xs IH]; intros Hxs; [exists []; split; [done|set_solver]|]. simpl.
    destruct (is_proper_descendant_ok y a) as (b & -> & Hb); [apply Hxs; by left|]. simpl.
    destruct IH as (l & -> & Hl); [intros x Hx; apply Hxs; by right|]. simpl. eexists. split; [done|].
    intros x. destruct b; rewrite ?elem_of_cons, Hl; naive_solver. }
  assert (Hin : ∀ x, x ∈ in_order c ↔ x ∈ c) by (intros x; unfold in_order; by rewrite merge_sort_Permutation, elem_of_elements).
  destruct (Hgen (in_order c)) as (l & E & Hl); [intros x Hx; by apply Hc, Hin|]. exists l. split; [done|]. intros x. by rewrite Hl, Hin.
Qed.

(** A leaf has nothing below it. *)
Lemma leaf_lowest x s k : kind def s = Some k → is_leaf_kind k = true → under x s → x = s.
Proof.
  intros Hk Hleaf (l & Hl & Hs). induction Hl as [x Hx|x p l Hp Hl IH]; [set_solver|].
  apply elem_of_cons in Hs as [->|Hs]; [done|]. specialize (IH Hs). subst p.
  destruct (par_declared x s Hp) as (_ & _ & Hkind & _). rewrite Hk in Hkind. by destruct Hkind as [[= ->]|[= ->]].
Qed.

Lemma chain_root s l : chain s l → is_Some (states def !! s) → root def ∈ l.
Proof.
  intros Hl [d Hd]. destruct (plain_of s d Hd) as (Hr & _). apply bind_Some in Hr as (l' & Hl' & Hlast).
  apply ancestors_loop_chain in Hl'. rewrite (chain_unique _ _ Hl _ Hl'). apply last_Some in Hlast as [l0 ->]. apply elem_of_app. right. by left.
Qed.

Lemma lca_ok x y : is_Some (states def !! x) → is_Some (states def !! y) → ∃ a, lca def x y = Some a ∧ under x a ∧ under y a.
Proof.
  intros Hx Hy. unfold lca. destruct (ancestors_chain x Hx) as (lx & -> & Hlx), (ancestors_chain y Hy) as (ly & -> & Hly). simpl.
  destruct (head (filter (λ s, s ∈ lx) ly)) as [a|] eqn:E; simpl; eexists; (split; [done|]).
  - assert (Hin : a ∈ filter (λ s, s ∈ lx) ly) by (destruct (filter _ _); [done|]; injection E as ->; by left).
    apply list_elem_of_filter in Hin as [??]. split; [by exists lx|by exists ly].
  - split; [exists lx|exists ly]; (split; [done|]); by eapply chain_root.
Qed.

Lemma path_below_ok a t : is_Some (states def !! t) → under t a →
  ∃ l1 l2, path_below def a t = Some (rev l1) ∧ chain t (l1 ++ a :: l2) ∧ a ∉ l1.
Proof.
  intros Ht (l & Hl & Ha). unfold path_below. destruct (ancestors_chain t Ht) as (l' & -> & Hl'). simpl.
  rewrite (chain_unique _ _ Hl' _ Hl). destruct (index_of_elem a l Ha) as [i Hi]. rewrite Hi. simpl.
  apply index_of_Some_lookup in Hi as Hlk. exists (take i l), (drop (S i) l). split; [done|].
  rewrite take_drop_middle by done. split; [done|]. intros Hin. apply list_elem_of_lookup in Hin as [j Hj].
  apply lookup_take_Some in Hj as [Hj Hji]. pose proof (NoDup_lookup _ _ _ _ (chain_NoDup _ _ Hl) Hj Hlk). lia.
Qed.

(** What a plain transition taken from an active leaf exits and enters. *)
Lemma transition_ok history c source t leaf k : legal def c → leaf ∈ c → kind def leaf = Some k → is_leaf_kind k = true →
  under leaf source → is_Some (states def !! target t) → enters_plainly def source t leaf = true →
  ∃ a X E, compute_exit_enter def history source t leaf c = Some (X, E) ∧ a ∈ c ∧ leaf ∈ X ∧
    (∀ s, s ∈ X ↔ s ∈ c ∧ under s a ∧ s ≠ a) ∧ good a ({[ a ]} ∪ E).
Proof.
  intros Hc Hleaf Hk Hlk Hsrc Ht Hplainly. apply andb_prop in Hplainly as [Hne Hplainly]. apply bool_decide_eq_true in Hne.
  assert (Hup : ∀ x a, x ∈ c → under x a → a ∈ c).
  { intros x a Hx (l & Hl & Ha). revert Hx Ha. induction Hl as [x Hp|x p l Hp Hl IH]; intros Hx Ha; [set_solver|].
    apply elem_of_cons in Ha as [->|Ha]; [done|]. apply IH; [by eapply legal_parent|done]. }
  assert (Hdom : ∃ a, transition_domain def source t leaf = Some a ∧ under leaf a ∧ under (target t) a ∧ leaf ≠ a).
  { unfold transition_domain. destruct (is_proper_descendant_ok (target t) source Ht) as (b & -> & Hb). simpl.
    destruct (internal t && _) eqn:Ei.
    - exists source. split; [done|]. split; [done|]. assert (Hts : under (target t) source).
      { apply andb_prop in Ei as [_ Ei]. apply orb_prop in Ei as [Ei|Ei]; [|by apply Hb]. apply bool_decide_eq_true in Ei as <-.
        by apply under_refl. }
      split; [done|]. intros <-. apply Hne. by eapply leaf_lowest.
    - destruct (lca_ok leaf (target t)) as (a & E & Hla & Hta); [by eapply legal_declared|done|]. exists a. split_and!; [done|done|done|].
      intros <-. apply Hne. by eapply leaf_lowest. }
  destruct Hdom as (a & Ea & Hla & Hta & Hlea). rewrite Ea in Hplainly.
  destruct (path_below_ok a (target t) Ht Hta) as (l1 & l2 & Ep & Hchain & Hal1). rewrite Ep in Hplainly.
  destruct (keep_descendants c a (legal_declared _ _ Hc)) as (xs & Ex & Hxs).
  destruct (kind_plain (target t) Ht) as (kt & Ekt & Hkt & _).
  destruct (enter_from_ok (target t) (list_to_set (rev l1)) Ht) as [Ee Hgood].
  exists a, (list_to_set xs), (entered (target t) ∪ list_to_set (rev l1)). split_and!.
  - unfold compute_exit_enter. rewrite Ea. simpl. rewrite Ex. simpl. rewrite Ekt. simpl. rewrite Hkt, Ep. simpl. by rewrite Ee.
  - by eapply Hup.
  - apply elem_of_list_to_set, Hxs. done.
  - intros s. by rewrite elem_of_list_to_set, Hxs.
  - assert (Hrev : (list_to_set (rev l1) : Config) = list_to_set l1) by (apply leibniz_equiv; by rewrite <- Permutation_rev).
    rewrite Hrev. destruct (decide (target t = a)) as [Eta|Hnta].
    + rewrite Eta in *. assert (l1 = []) as -> by (destruct l1 as [|z l1]; [done|]; apply chain_cons in Hchain; set_solver).
      simpl. replace ({[a]} ∪ (entered a ∪ ∅)) with (entered a); [done|]. pose proof (good_self _ _ Hgood). set_solver.
    + replace ({[a]} ∪ (entered (target t) ∪ list_to_set l1)) with ({[a]} ∪ list_to_set l1 ∪ entered (target t)) by set_solver.
      eapply good_path; [exact Hchain|done|done|done|]. apply Forall_forall. intros x Hx Hxt.
      rewrite List.forallb_forall in Hplainly. specialize (Hplainly x).
      assert (Hin : x ∈ a :: rev l1) by (apply elem_of_cons in Hx as [->|Hx]; [by left|right; by rewrite <- Permutation_rev]).
      apply list_elem_of_In in Hin. apply Hplainly, orb_prop in Hin as [E|E]; apply bool_decide_eq_true in E; done.
Qed.

(** ** Several transitions at once *)

(** The candidates taken so far: what they exit and enter is what lies below
    some active states, no two of which are comparable. *)
Record selected (c XU EU : Config) (doms : list string) : Prop := mkSelected {
  sel_legal : legal def ((c ∖ XU) ∪ EU);
  sel_exit : ∀ s, s ∈ XU ↔ s ∈ c ∧ ∃ a, a ∈ doms ∧ under s a ∧ s ≠ a;
  sel_enter : ∀ s, s ∈ EU → ∃ a, a ∈ doms ∧ under s a;
  sel_witness : ∀ a, a ∈ doms → a ∈ c ∧ ∃ s, s ∈ c ∧ under s a ∧ s ≠ a;
}.

Lemma selected_more c XU EU doms a X E leaf : legal def c → selected c XU EU doms → a ∈ c → leaf ∈ X →
  (∀ s, s ∈ X ↔ s ∈ c ∧ under s a ∧ s ≠ a) → good a ({[ a ]} ∪ E) → X ## XU →
  selected c (XU ∪ X) (EU ∪ E) (a :: doms).
Proof.
  intros Hc [Hleg Hex Hen Hwit] Ha Hleaf HX HE Hdisj.
  assert (Hbelow : ∀ x y z, under z x → under x y → z ≠ x → under z y ∧ z ≠ y).
  { intros x y z Hzx Hxy Hne. split; [by eapply under_trans|]. intros ->. apply Hne. by apply under_antisym. }
  assert (Hapart : ∀ b s, b ∈ doms → under s b → under s a → False).
  { intros b s Hb Hsb Hsa. destruct (Hwit b Hb) as (Hbc & w & Hw & Hwb & Hwne).
    destruct (under_linear s b a Hsb Hsa) as [Hba|Hab].
    - apply (Hdisj w); [apply HX; split; [done|by eapply Hbelow]|apply Hex; split; [done|by exists b]].
    - apply HX in Hleaf as Hl. destruct Hl as (Hlc & Hla & Hlne). apply (Hdisj leaf); [done|]. apply Hex. split; [done|].
      exists b. split; [done|]. by eapply Hbelow. }
  assert (Haa : under a a) by (apply under_refl; by apply (legal_declared def c)).
  assert (Haout : a ∈ c ∖ (XU ∪ X)).
  { apply elem_of_difference. split; [done|]. intros [(_ & b & Hb & Hub & _)%Hex|(_ & _ & ?)%HX]%elem_of_union; [by eapply Hapart|done]. }
  assert (HEX : ∀ s, s ∈ EU → s ∉ X) by (intros s (b & Hb & Hub)%Hen (_ & Hua & _)%HX; by eapply Hapart).
  split.
  - replace ((c ∖ (XU ∪ X)) ∪ (EU ∪ E)) with ((((c ∖ XU) ∪ EU) ∖ X) ∪ ({[a]} ∪ E)) by set_solver.
    apply (legal_switch _ X _ a); [exact Hleg|set_solver|exact HE|]. intros s. rewrite HX. split.
    + intros (Hs & Hu & Hne). split; [|done]. apply elem_of_union. left. apply elem_of_difference. split; [done|].
      intros HXU. apply (Hdisj s); [by apply HX|done].
    + intros ([[? _]%elem_of_difference|(b & Hb & Hub)%Hen]%elem_of_union & Hu & Hne); [done|]. exfalso. by eapply Hapart.
  - intros s. rewrite elem_of_union, Hex, HX. setoid_rewrite elem_of_cons. naive_solver.
  - intros s [(b & Hb & Hu)%Hen|Hs]%elem_of_union; [exists b; split; [by right|done]|]. exists a. split; [by left|].
    apply (good_under _ _ HE). set_solver.
  - intros b [->|Hb]%elem_of_cons; [|auto]. split; [done|]. exists leaf. by apply HX.
Qed.

(** A candidate taken from a legal configuration of a plain chart. *)
Definition sound_cand (c : Config) (cand : Cand) : Prop :=
  c_leaf cand ∈ c ∧ (∃ k, kind def (c_leaf cand) = Some k ∧ is_leaf_kind k = true) ∧
  under (c_leaf cand) (c_source cand) ∧ is_Some (states def !! target (c_transition cand)) ∧
  enters_plainly def (c_source cand) (c_transition cand) (c_leaf cand) = true.

Lemma select_ok history c cands : legal def c → Forall (sound_cand c) cands → ∀ XU EU taken doms, selected c XU EU doms →
  ∃ XU' EU' taken' doms', foldl (select def history c) (Some (XU, EU, taken)) cands = Some (XU', EU', taken') ∧
    selected c XU' EU' doms'.
Proof.
  intros Hc. induction 1 as [|cand cands (Hl & (k & Hk & Hlk) & Hu & Ht & Hp) Hcs IH]; intros XU EU taken doms Hsel; [by exists XU, EU, taken, doms|].
  destruct (transition_ok history c _ _ _ k Hc Hl Hk Hlk Hu Ht Hp) as (a & X & E & Ece & Ha & HlX & HX & HE).
  assert (Hone : select def history c (Some (XU, EU, taken)) cand =
    if decide (X ## XU) then Some (XU ∪ X, EU ∪ E, taken ++ [c_transition cand]) else Some (XU, EU, taken))
    by (unfold select; simpl; by rewrite Ece).
  cbn [foldl]. rewrite Hone. case_decide as Hd; [|by eapply IH].
  eapply IH. by eapply selected_more.
Qed.

Lemma candidate_ok c event guards leaf : legal def c → leaf ∈ c →
  ∃ o, candidate def event guards leaf = Some o ∧ match o with Some cand => sound_cand c cand | None => True end.
Proof.
  intros Hc Hleaf. destruct (legal_declared _ _ Hc leaf Hleaf) as [dl Hdl]. unfold candidate.
  assert (Hk : kind def leaf = Some (kind_ dl)) by (unfold kind; by rewrite Hdl). rewrite Hk. simpl.
  destruct (is_leaf_kind (kind_ dl)) eqn:Hlk; simpl; [|by exists None].
  destruct (ancestors_chain leaf) as (l & El & Hl); [eauto|]. rewrite El. simpl. eexists. split; [done|].
  destruct (head _) as [cand|] eqn:E; [|done]. assert (Hin : cand ∈ omap (λ anc,
      t ← states def !! anc ≫= λ s, transitions s !! event;
      if guard_passes t guards then Some (mkCand anc t leaf) else None) l) by (destruct (omap _ l); [done|]; injection E as ->; by left).
  apply list_elem_of_omap in Hin as (s & Hs & Hc'). apply bind_Some in Hc' as (t & Ht & Hg).
  apply bind_Some in Ht as (d & Hd & Ht). destruct (guard_passes t guards); [|done]. injection Hg as <-.
  destruct (plain_of s d Hd) as (_ & _ & _ & _ & _ & _ & Htr). destruct (Htr event t Ht) as [Htd Hok].
  split_and!; simpl; [done|by exists (kind_ dl)|by exists l|done|]. apply (Hok leaf dl Hdl Hlk). by rewrite El.
Qed.

Lemma find_history_none s : is_Some (states def !! s) → history_child_of def s = Some None.
Proof.
  intros Hs. unfold history_child_of. destruct (kind_plain s Hs) as (_ & _ & _ & _ & Hc).
  assert (Hall : ∀ k, k ∈ default [] (children def !! s) → ∃ kd, kind def k = Some kd ∧ is_history_kind kd = false).
  { intros k Hk%Hc. destruct (par_declared k s Hk) as (Hkd & _). destruct (kind_plain k Hkd) as (kd & ? & ? & _). eauto. }
  clear Hc. induction (default [] (children def !! s)) as [|x xs IH]; [done|]. simpl.
  destruct (Hall x) as (kd & -> & Hkd); [by left|]. simpl. rewrite Hkd. apply IH. intros k Hk. apply Hall. by right.
Qed.

Context (std_sort : ∀ A : Type, (A → A → bool) → list A → list A).
Context (std_sort_perm : ∀ A f (l : list A), std_sort A f l ≡ₚ l).

(** Sending an event to a legal configuration returns, and leads to a legal one. *)
Lemma engine_send_legal history c event guards : legal def c →
  ∃ r history', engine_send std_sort def history c event guards = Some (r, history') ∧
    match r with Some (c', _) => legal def c' | None => True end.
Proof.
  intros Hc. unfold engine_send.
  assert (Hin : ∀ x X, x ∈ in_order X ↔ x ∈ X) by (intros x X; unfold in_order; by rewrite merge_sort_Permutation, elem_of_elements).
  assert (Hcands : ∃ cands, mapM (candidate def event guards) (in_order c) = Some cands ∧ Forall (sound_cand c) (omap id cands)).
  { assert (Hxs : ∀ x, x ∈ in_order c → x ∈ c) by (intros x; apply Hin). revert Hxs.
    generalize (in_order c). intros xs. induction xs as [|x xs IH]; intros Hxs; [by exists []|].
    destruct (candidate_ok c event guards x Hc) as (o & Eo & Ho); [apply Hxs; by left|].
    destruct IH as (cands & Ec & Hf); [intros y Hy; apply Hxs; by right|]. exists (o :: cands). split.
    - simpl. rewrite Eo. simpl. by rewrite Ec.
    - simpl. destruct o; [by constructor|done]. }
  destruct Hcands as (cands & -> & Hf). simpl. case_bool_decide; [by exists None, history|].
  match goal with |- context [std_sort Cand ?f ?l] => assert (Hf' : Forall (sound_cand c) (std_sort Cand f l)) by (by rewrite std_sort_perm);
    revert Hf'; generalize (std_sort Cand f l); intros sorted Hf' end.
  assert (Hsel0 : selected c ∅ ∅ []) by (split; [replace ((c ∖ ∅) ∪ ∅) with c by set_solver; done|set_solver..]).
  destruct (select_ok history c sorted Hc Hf' ∅ ∅ [] [] Hsel0) as (XU & EU & taken & doms & -> & Hsel).
  simpl. case_bool_decide; [by exists None, history|].
  assert (Hh : foldl (λ history s, history ← history; hc ← history_child_of def s;
      match hc with Some hc => record_region def s hc c history | None => Some history end) (Some history) (in_order XU) = Some history).
  { assert (Hdecl : ∀ x, x ∈ in_order XU → is_Some (states def !! x)).
    { intros x Hx%Hin. apply (sel_exit _ _ _ _ Hsel) in Hx as [Hx _]. by apply (legal_declared def c). }
    revert Hdecl. generalize (in_order XU). intros xs. induction xs as [|x xs IH]; intros Hx; [done|]. simpl.
    rewrite find_history_none by (apply Hx; by left). simpl. apply IH. intros y Hy. apply Hx. by right. }
  rewrite Hh. simpl. do 2 eexists. split; [done|]. apply Hsel.
Qed.

Lemma good_root_legal F : good (root def) F → legal def F.
Proof.
  intros [Hself Hund Hdec Hpar Hcomp Hparl]. split; try done.
  intros s p Hs Hp. destruct (decide (s = root def)) as [->|Hne]; [|by eapply Hpar]. exfalso.
  destruct (proj1 Hplain) as [d Hd]. destruct (plain_of _ d Hd) as (_ & Hr & _). rewrite Hd in Hp. simpl in Hp.
  rewrite (proj2 Hr) in Hp by done. done.
Qed.

(** ** The chart *)
Section chart_correct.
  Context {C Hd : Type} `{!SourceContext C Hd Config, !SourceContextLaws C Hd Config}.

(** Events sent one after the other. *)
Fixpoint chart_run (sc : StateChart) (sends : list (string * gmap string bool)) (c : C) : option (list bool * StateChart * C) :=
  match sends with
  | [] => Some ([], sc, c)
  | (event, guards) :: sends =>
      '(b, sc, c) ← chart_send std_sort sc event guards c;
      '(bs, sc, c) ← chart_run sc sends c; Some (b :: bs, sc, c)
  end.

Lemma chart_run_legal sends : ∀ (sc : StateChart (H:=Hd)) c config, def_ sc = def → ctx_ok c → holds c (config_ sc) config → legal def config →
  ∃ bs sc' c' config', chart_run sc sends c = Some (bs, sc', c') ∧ configuration sc' c' = Some config' ∧ legal def config'.
Proof.
  induction sends as [|[event guards] sends IH]; intros sc c config Hdef Hc Hh Hl.
  { exists [], sc, c, config. split_and!; [done|by apply ctx_get_ok|done]. }
  simpl. unfold chart_send, configuration. rewrite (ctx_get_ok c (config_ sc) config Hh). simpl. rewrite Hdef.
  destruct (engine_send_legal (history_ sc) config event guards Hl) as (r & history & -> & Hr). simpl.
  destruct r as [[config' actions]|].
  - case_decide as Heq.
    + destruct (IH (mkStateChart def (config_ sc) history actions) c config eq_refl Hc Hh Hl) as (bs & sc' & c' & config2 & E & ? & ?).
      simpl. rewrite E. simpl. by exists (true :: bs), sc', c', config2.
    + destruct (ctx_set_ok c (config_ sc) config' config Hc Hh) as (c1 & -> & Hc1 & Hh1 & _). simpl.
      destruct (IH (mkStateChart def (config_ sc) history actions) c1 config' eq_refl Hc1 Hh1 Hr) as (bs & sc' & c' & config2 & E & ? & ?).
      rewrite E. simpl. by exists (true :: bs), sc', c', config2.
  - destruct (IH (mkStateChart def (config_ sc) history []) c config eq_refl Hc Hh Hl) as (bs & sc' & c' & config2 & E & ? & ?).
    simpl. rewrite E. simpl. by exists (false :: bs), sc', c', config2.
Qed.

End chart_correct.
End tree.

(** C24: A plain chart stays in a legal configuration.  Over any implementation of
    the context's sources and whatever [std::sort] does with equal elements, a
    chart made from a plain definition starts, every event sent with any guards
    is handled without an exception or an endless loop, also when several
    regions take transitions at once, and the configuration it then shows has
    the root, the parent of every active state, exactly one child of every
    active compound state and every region of an active parallel one. *)
Theorem statechart_stays_legal (std_sort : ∀ A : Type, (A → A → bool) → list A → list A)
    {C Hd : Type} `{!SourceContext C Hd Config, !SourceContextLaws C Hd Config}
    (def : ChartDef) (sends : list (string * gmap string bool)) (c : C) :
  (∀ A f (l : list A), std_sort A f l ≡ₚ l) → plain_chart def → ctx_ok c →
  ∃ sc c1, chart_new def c = Some (sc, c1) ∧
    ∃ bs sc' c' config, chart_run std_sort sc sends c1 = Some (bs, sc', c') ∧
      configuration sc' c' = Some config ∧ legal def config.
Proof.
  intros Hsort Hplain Hc. destruct (enter_ok def Hplain (levels def (root def)) (root def) (proj1 Hplain) ltac:(lia)) as [Hg He].
  destruct (chain_exists def Hplain (root def) (proj1 Hplain)) as [l Hl]. pose proof (chain_bound def Hplain _ _ Hl (proj1 Hplain)).
  destruct (He (S (size (states def))) ∅ []) as [acts E]; [rewrite (levels_chain def Hplain _ l Hl (proj1 Hplain)); lia|].
  rewrite (right_id_L ∅ (∪)) in E. destruct (ctx_source_ok c (entered def (root def)) Hc) as (h & c1 & Es & Hc1 & Hh & _).
  exists (mkStateChart def h ∅ acts), c1. unfold chart_new. rewrite E. simpl. rewrite Es. split; [done|].
  eapply (chart_run_legal def Hplain std_sort Hsort); [done|exact Hc1|exact Hh|]. by apply good_root_legal.
Qed.

(** ** Concrete charts *)
Module Charts.

Definition stable_sort (A : Type) (f : A → A → bool) (l : list A) : list A :=
  @merge_sort A (λ a b, f b a = false) (λ a b, decide (f b a = false)) l.

Lemma stable_sort_perm A f (l : list A) : stable_sort A f l ≡ₚ l.
Proof. apply merge_sort_Permutation. Qed.

(** A machine that is off, or runs two regions side by side. *)
Definition machine : list StateBuilder := [
  sb_compound "machine" "off";
  sb_parent "machine" (sb_entry "lights_off" (sb_on "go" "run" (sb_atomic "off")));
  sb_parent "machine" (sb_on "stop" "off" (sb_parallel "run"));
  sb_parent "run" (sb_compound "fan" "slow");
  sb_parent "fan" (sb_on "tick" "fast" (sb_exit "fan_slow_done" (sb_atomic "slow")));
  sb_parent "fan" (sb_on_guarded "tick" "slow" "hot" (sb_atomic "fast"));
  sb_parent "run" (sb_compound "pump" "idle");
  sb_parent "pump" (sb_on_transition "tick" (tb_action "prime" (tb_to "full")) (sb_atomic "idle"));
  sb_parent "pump" (sb_final_state "full")]%string.

Definition machine_chart : ChartDef := default (mkChart ∅ ∅ ∅ ∅ "") (build machine).

Definition sends : list (string * gmap string bool) := [("go", ∅); ("tick", ∅); ("tick", {["hot" := false]}); ("stop", ∅)]%string.

Lemma statechart_stays_legal_witness :
  plain_chart machine_chart ∧
  ∃ sc c1, chart_new (C := Ctx Config) machine_chart empty_ctx = Some (sc, c1) ∧
    ∃ bs sc' c' config, chart_run stable_sort sc sends c1 = Some (bs, sc', c') ∧
      configuration sc' c' = Some config ∧ legal machine_chart config.
Proof.
  assert (Hp : plain_chart machine_chart) by (apply (bool_decide_unpack (plain_chart machine_chart)); vm_compute; exact I). split; [exact Hp|].
  exact (statechart_stays_legal stable_sort (C := Ctx Config) machine_chart sends empty_ctx
    stable_sort_perm Hp (empty_ctx_ok (T := Config))).
Defined.

(** What the machine answers, shows and does on the second event, in which both
    regions move. *)
Example machine_ticks :
  ('(sc, c) ← chart_new (C := Ctx Config) machine_chart empty_ctx;
   '(bs, sc, c) ← chart_run stable_sort sc (take 2 sends) c;
   leaves ← active_leaves sc c; Some (bs, leaves, last_actions_ sc)) =
  Some ([true; true], ["fast"; "full"], ["fan_slow_done"; "prime"])%string.
Proof. vm_compute. reflexivity. Qed.
(** ** Charts outside the plain ones *)

(** A transition into one region of a parallel state from outside it. *)
Definition half_chart : ChartDef := default (mkChart ∅ ∅ ∅ ∅ "") (build [
  sb_compound "m" "off"; sb_parent "m" (sb_on "go" "fast" (sb_atomic "off")); sb_parent "m" (sb_parallel "run");
  sb_parent "run" (sb_compound "fan" "slow"); sb_parent "fan" (sb_atomic "slow"); sb_parent "fan" (sb_atomic "fast");
  sb_parent "run" (sb_compound "pump" "idle"); sb_parent "pump" (sb_atomic "idle")])%string.

(** The other regions stay inactive. *)
Lemma entering_a_region_skips_its_siblings :
  let config : Config := {["m"; "run"; "fan"; "fast"]}%string in
  engine_send stable_sort half_chart ∅ {["m"; "off"]}%string "go" ∅ = Some (Some (config, []), ∅) ∧
  kind half_chart "run" = Some Parallel ∧ states half_chart !! "pump"%string ≫= parent = Some "run"%string ∧
  ¬ legal half_chart config.
Proof.
  intros config. assert (Hk : kind half_chart "run" = Some Parallel) by (vm_compute; reflexivity).
  assert (Hp : states half_chart !! "pump"%string ≫= parent = Some "run"%string) by (vm_compute; reflexivity).
  split_and!; [vm_compute; reflexivity|exact Hk|exact Hp|]. intros Hl.
  assert (Hr : "run"%string ∈ config) by (apply (bool_decide_unpack ("run"%string ∈ config)); vm_compute; exact I).
  pose proof (bool_decide_pack _ (legal_parallel _ _ Hl "run" "pump" Hr Hk Hp)) as Hin. by vm_compute in Hin.
Qed.

(** A transition of a leaf to itself exits nothing: the entry actions run
    without the exit actions. *)
Definition self_chart : ChartDef := default (mkChart ∅ ∅ ∅ ∅ "") (build [
  sb_compound "m" "a"; sb_parent "m" (sb_on "again" "a" (sb_exit "close" (sb_entry "open" (sb_atomic "a"))))])%string.

Lemma self_transition_enters_without_exit :
  engine_send stable_sort self_chart ∅ {["m"; "a"]}%string "again" ∅ =
  Some (Some ({["m"; "a"]}, ["open"]), ∅)%string.
Proof. vm_compute. reflexivity. Qed.

(** States that are each other's parent pass the builder's checks, and the loop
    along the parents of either never ends. *)
Definition cyclic_states : list StateBuilder := [
  sb_compound "m" "a"; sb_parent "m" (sb_on "go" "x" (sb_atomic "a"));
  sb_parent "y" (sb_atomic "x"); sb_parent "x" (sb_atomic "y")]%string.

Definition cyclic_chart : ChartDef := default (mkChart ∅ ∅ ∅ ∅ "") (build cyclic_states).

Lemma cyclic_parents_are_accepted :
  is_Some (build cyclic_states) ∧ is_Some (chart_new (C := Ctx Config) cyclic_chart empty_ctx) ∧
  ∀ fuel, ancestors_loop fuel cyclic_chart "x" = None.
Proof.
  assert (Hx : states cyclic_chart !! "x"%string ≫= parent = Some "y"%string) by (vm_compute; reflexivity).
  assert (Hy : states cyclic_chart !! "y"%string ≫= parent = Some "x"%string) by (vm_compute; reflexivity).
  split; [apply is_Some_alt; vm_compute; exact I|]. split; [apply is_Some_alt; vm_compute; exact I|].
  revert Hx Hy. generalize cyclic_chart. intros def Hx Hy fuel.
  cut (ancestors_loop fuel def "x" = None ∧ ancestors_loop fuel def "y" = None); [tauto|].
  induction fuel as [|fuel [IHx IHy]]; [done|]. cbn [ancestors_loop]. by rewrite Hx, Hy, IHx, IHy.
Qed.
End Charts.
