(* ===== verification/StateMachine.v ===== *)
(** * State machines over a source

    Models include/lazily/state_machine.hpp: a source and the transition
    function that guards its writes.  [on_transition] and [state_is], which
    create an effect and an eager cell over the source, are left out. *)
From S2P Require Import Prelude Kernel KernelCorrect Reactive.

Section machine.
  Context {C H S E : Type} `{!SourceContext C H S}.
  Context (transition : S → E → option S).

(* include/lazily/state_machine.hpp:57-58, StateMachine (data members) *)
Record StateMachine := mkMachine { state_ : H }.

(* include/lazily/state_machine.hpp:17-19, StateMachine::StateMachine *)
Definition machine_new (initial : S) (c : C) : option (StateMachine * C) :=
  '(h, c) ← ctx_source initial c; Some (mkMachine h, c).

(* include/lazily/state_machine.hpp:21-29, StateMachine::send *)
Definition machine_send (m : StateMachine) (event : E) (c : C) : option (bool * C) :=
  current ← ctx_get (state_ m) c;
  match transition current event with
  | Some next => c ← ctx_set (state_ m) next c; Some (true, c)
  | None => Some (false, c)
  end.

(* include/lazily/state_machine.hpp:31-31, StateMachine::state *)
Definition machine_state (m : StateMachine) (c : C) : option S := ctx_get (state_ m) c.

(* include/lazily/state_machine.hpp:33-33, StateMachine::state_handle *)
Definition state_handle (m : StateMachine) : H := state_ m.

Fixpoint machine_run (m : StateMachine) (events : list E) (c : C) : option (list bool * C) :=
  match events with
  | [] => Some ([], c)
  | e :: events => '(b, c) ← machine_send m e c; '(bs, c) ← machine_run m events c; Some (b :: bs, c)
  end.

(** The automaton: an event without a transition is refused and changes nothing. *)
Definition automaton (s : S) (e : E) : bool * S :=
  match transition s e with Some s' => (true, s') | None => (false, s) end.

Context `{!SourceContextLaws C H S}.

(** A machine accepts and refuses as its automaton and shows its state; no
    other source changes. *)
Lemma machine_runs_automaton s events c : ctx_ok c →
  ∃ m c1 c2, machine_new s c = Some (m, c1) ∧
    machine_run m events c1 = Some ((core_run automaton s events).1, c2) ∧
    machine_state m c2 = Some (core_run automaton s events).2 ∧
    ∀ h v, holds c h v → holds c2 h v.
Proof.
  intros Hc. destruct (ctx_source_ok c s Hc) as (h & c1 & E1 & Hc1 & Hh1 & Ho1).
  assert (Hrun : ∀ events s c, ctx_ok c → holds c h s → ∃ c', machine_run (mkMachine h) events c = Some ((core_run automaton s events).1, c') ∧
    holds c' h (core_run automaton s events).2 ∧ ∀ h' v, h' ≠ h → holds c h' v → holds c' h' v).
  { clear s events c Hc c1 E1 Hc1 Hh1 Ho1. induction events as [|e events IH]; intros s c Hc Hh; [by exists c|]. simpl. unfold machine_send. simpl.
    rewrite (ctx_get_ok c h s Hh). simpl. unfold automaton at 1 3. destruct (transition s e) as [s'|].
    - destruct (ctx_set_ok c h s' s Hc Hh) as (c1 & -> & Hc1 & Hh1 & Ho1). simpl. destruct (IH s' c1 Hc1 Hh1) as (c2 & -> & Hh2 & Ho2).
      exists c2. destruct (core_run automaton s' events). simpl in *. split_and!; auto.
    - simpl. destruct (IH s c Hc Hh) as (c2 & -> & Hh2 & Ho2). exists c2. destruct (core_run automaton s events). simpl in *. by split_and!. }
  destruct (Hrun events s c1 Hc1 Hh1) as (c2 & E2 & Hh2 & Ho2). exists (mkMachine h), c1, c2. unfold machine_new. rewrite E1.
  split_and!; [done|done|by apply ctx_get_ok|]. intros h' v Hv. destruct (Ho1 _ _ Hv). by apply Ho2.
Qed.

End machine.
