(* ===== verification/Projection.v ===== *)
(** * Latest durable projection: one value in flight per key

    Models include/lazily/latest_durable_projection_core.hpp and
    latest_durable_projection.hpp: per key the newest wanted value, the value
    handed to a sink under a generation, and how far the sink is durable; and
    the reactive shell with a memoised reader per key (Queue.v's
    [reader_get]).  The specification is a ledger that keeps every value it
    accepted. *)
From S2P Require Import Prelude Queue.
#[local] Open Scope Z_scope.

Section data.
  Context {K T : Type}.

(* include/lazily/latest_durable_projection_core.hpp:14-22, LatestDurableDesired *)
Record Desired := mkDesired { d_epoch : Z; d_value : T }.
(* include/lazily/latest_durable_projection_core.hpp:25-35, LatestDurableEnvelope *)
Record Envelope := mkEnvelope { e_generation : Z; e_key : K; e_epoch : Z; e_value : T }.
(* include/lazily/latest_durable_projection_core.hpp:38-48, LatestDurableEntry *)
Record Entry := mkEntry {
  en_key : K; en_desired : option Desired; en_inflight : option Envelope; en_durable : option Z }.
(* include/lazily/latest_durable_projection_core.hpp:102-106, LatestDurableProjectionCore::State *)
Record State := mkState { desired : option Desired; inflight : option Envelope; durable : option Z }.

#[global] Instance Desired_eq_dec `{EqDecision T} : EqDecision Desired.
Proof. solve_decision. Defined.
#[global] Instance Envelope_eq_dec `{EqDecision K, EqDecision T} : EqDecision Envelope.
Proof. solve_decision. Defined.
#[global] Instance Entry_eq_dec `{EqDecision K, EqDecision T} : EqDecision Entry.
Proof. solve_decision. Defined.

(* include/lazily/latest_durable_projection_core.hpp:50-56, LatestDurableUpsertKind *)
Inductive UpsertKind := UpsertAccepted | UpsertUnchanged | UpsertAlreadyDurable | UpsertStaleEpoch | UpsertEpochConflict.
(* include/lazily/latest_durable_projection_core.hpp:58-61, LatestDurableUpsertResult *)
Record UpsertResult := mkUpsert { u_kind : UpsertKind; u_current : option Z }.
(* include/lazily/latest_durable_projection_core.hpp:63-63, LatestDurableClaimKind *)
Inductive ClaimKind := Claimed | ClaimEmpty | ClaimBusy | ClaimStaleGeneration.
(* include/lazily/latest_durable_projection_core.hpp:65-69, LatestDurableClaimResult *)
Record ClaimResult := mkClaim { c_kind : ClaimKind; c_envelope : option Envelope; c_current : option Z }.
(* include/lazily/latest_durable_projection_core.hpp:71-71, LatestDurableAckKind *)
Inductive AckKind := AckAdvanced | AckUnchanged | AckUnknownEpoch | AckStaleGeneration.
(* include/lazily/latest_durable_projection_core.hpp:73-77, LatestDurableAckResult *)
Record AckResult := mkAck { a_kind : AckKind; a_durable : option Z; a_current : option Z }.
(* include/lazily/latest_durable_projection_core.hpp:79-79, LatestDurableFailureKind *)
Inductive FailureKind := FailPending | FailSuperseded | FailUnknownEpoch | FailStaleGeneration.
(* include/lazily/latest_durable_projection_core.hpp:81-84, LatestDurableFailureResult *)
Record FailureResult := mkFailure { f_kind : FailureKind; f_current : option Z }.
(* include/lazily/latest_durable_projection_core.hpp:86-86, LatestDurableReconnectKind *)
Inductive ReconnectKind := ReconnectAdvanced | ReconnectUnchanged | ReconnectStaleGeneration.
(* include/lazily/latest_durable_projection_core.hpp:88-93, LatestDurableReconnectResult *)
Record ReconnectResult := mkReconnect {
  r_kind : ReconnectKind; r_generation : Z; r_requeued : nat; r_superseded : nat }.

End data.
Arguments Desired : clear implicits.
Arguments Envelope : clear implicits.
Arguments Entry : clear implicits.
Arguments State : clear implicits.
Arguments ClaimResult : clear implicits.

Section projection.
  Context {K T : Type} `{CK : Countable K} `{ET : EqDecision T}.

(** ** The core *)

(* include/lazily/latest_durable_projection_core.hpp:241-243, LatestDurableProjectionCore (data members) *)
Record Core := mkCore { generation : Z; entries : gmap K (State K T); keys : list K }.

(* include/lazily/latest_durable_projection_core.hpp:109-110, LatestDurableProjectionCore *)
Definition core_new (initial_generation : Z) : Core := mkCore initial_generation ∅ [].

Definition no_state : State K T := mkState None None None.

(** A state stored back under its key. *)
Definition put (k : K) (s : State K T) (c : Core) : Core := mkCore (generation c) (<[k := s]> (entries c)) (keys c).

(* include/lazily/latest_durable_projection_core.hpp:234-239, LatestDurableProjectionCore::ensure *)
Definition ensure (k : K) (c : Core) : State K T * Core :=
  match entries c !! k with
  | Some s => (s, c)
  | None => (no_state, mkCore (generation c) (<[k := no_state]> (entries c)) (keys c ++ [k]))
  end.

(* include/lazily/latest_durable_projection_core.hpp:113-113, LatestDurableProjectionCore::known_keys *)
Definition known_keys (c : Core) : list K := keys c.

(* include/lazily/latest_durable_projection_core.hpp:115-120, LatestDurableProjectionCore::snapshot *)
Definition snapshot (k : K) (c : Core) : Entry K T :=
  match entries c !! k with
  | None => mkEntry k None None None
  | Some s => mkEntry k (desired s) (inflight s) (durable s)
  end.

(* include/lazily/latest_durable_projection_core.hpp:122-128, LatestDurableProjectionCore::snapshots *)
Definition snapshots (c : Core) : list (Entry K T) := (λ k, snapshot k c) <$> keys c.

(* include/lazily/latest_durable_projection_core.hpp:130-133, LatestDurableProjectionCore::durable_through *)
Definition durable_through (k : K) (c : Core) : option Z :=
  match entries c !! k with None => None | Some s => durable s end.

(** The newest epoch wanted or in flight. *)
(* include/lazily/latest_durable_projection_core.hpp:140-143, LatestDurableProjectionCore::upsert_desired (newest) *)
Definition newest_epoch (s : State K T) : option Z :=
  let newest := d_epoch <$> desired s in
  match inflight s with
  | Some f => if match newest with None => true | Some n => n <? e_epoch f end then Some (e_epoch f) else newest
  | None => newest
  end.

(* include/lazily/latest_durable_projection_core.hpp:135-157, LatestDurableProjectionCore::upsert_desired *)
Definition upsert_desired (k : K) (epoch : Z) (value : T) (c : Core) : UpsertResult * Core :=
  let '(s, c) := ensure k c in
  if match durable s with Some d => epoch <=? d | None => false end then (mkUpsert UpsertAlreadyDurable (durable s), c)
  else
    let newest := newest_epoch s in
    let accept := (mkUpsert UpsertAccepted None, put k (mkState (Some (mkDesired epoch value)) (inflight s) (durable s)) c) in
    match newest with
    | None => accept
    | Some n =>
        if epoch <? n then (mkUpsert UpsertStaleEpoch newest, c)
        else if epoch =? n then
          let retained :=
            match desired s with
            | Some d => if d_epoch d =? epoch then Some (d_value d) else e_value <$> inflight s
            | None => e_value <$> inflight s
            end in
          (mkUpsert (if decide (retained = Some value) then UpsertUnchanged else UpsertEpochConflict) None, c)
        else accept
    end.

(* include/lazily/latest_durable_projection_core.hpp:159-172, LatestDurableProjectionCore::claim *)
Definition claim (k : K) (g : Z) (c : Core) : ClaimResult K T * Core :=
  if negb (g =? generation c) then (mkClaim ClaimStaleGeneration None (Some (generation c)), c)
  else
    match entries c !! k with
    | None => (mkClaim ClaimEmpty None None, c)
    | Some s =>
        match inflight s, desired s with
        | Some _, _ => (mkClaim ClaimBusy None None, c)
        | None, None => (mkClaim ClaimEmpty None None, c)
        | None, Some d =>
            let envelope := mkEnvelope g k (d_epoch d) (d_value d) in
            (mkClaim Claimed (Some envelope) None, put k (mkState None (Some envelope) (durable s)) c)
        end
    end.

(** The state whose value in flight has this epoch. *)
Definition in_flight (k : K) (epoch : Z) (c : Core) : option (State K T * Envelope K T) :=
  s ← entries c !! k; f ← inflight s; if e_epoch f =? epoch then Some (s, f) else None.

(* include/lazily/latest_durable_projection_core.hpp:174-193, LatestDurableProjectionCore::ack_applied *)
Definition ack_applied (k : K) (g epoch : Z) (c : Core) : AckResult * Core :=
  if negb (g =? generation c) then (mkAck AckStaleGeneration None (Some (generation c)), c)
  else
    match in_flight k epoch c with
    | None =>
        match durable_through k c with
        | Some d => if epoch <=? d then (mkAck AckUnchanged (Some d) None, c) else (mkAck AckUnknownEpoch None None, c)
        | None => (mkAck AckUnknownEpoch None None, c)
        end
    | Some (s, _) =>
        let frontier := match durable s with Some p => p `max` epoch | None => epoch end in
        let unchanged := match durable s with Some p => epoch <=? p | None => false end in
        (mkAck (if unchanged then AckUnchanged else AckAdvanced) (Some frontier) None,
         put k (mkState (desired s) None (Some frontier)) c)
    end.

(** A failed value becomes wanted again unless a newer one is. *)
Definition is_superseded (s : State K T) (f : Envelope K T) : bool :=
  match desired s with Some d => e_epoch f <? d_epoch d | None => false end.

Definition give_back (s : State K T) : State K T :=
  match inflight s with
  | None => s
  | Some f =>
      mkState (if is_superseded s f then desired s else Some (mkDesired (e_epoch f) (e_value f))) None (durable s)
  end.

(* include/lazily/latest_durable_projection_core.hpp:195-208, LatestDurableProjectionCore::fail_retryable *)
Definition fail_retryable (k : K) (g epoch : Z) (c : Core) : FailureResult * Core :=
  if negb (g =? generation c) then (mkFailure FailStaleGeneration (Some (generation c)), c)
  else
    match in_flight k epoch c with
    | None => (mkFailure FailUnknownEpoch None, c)
    | Some (s, f) => (mkFailure (if is_superseded s f then FailSuperseded else FailPending) None, put k (give_back s) c)
    end.

(* include/lazily/latest_durable_projection_core.hpp:210-231, LatestDurableProjectionCore::reconnect *)
Definition reconnect (g : Z) (c : Core) : ReconnectResult * Core :=
  if g <? generation c then (mkReconnect ReconnectStaleGeneration (generation c) 0 0, c)
  else if g =? generation c then (mkReconnect ReconnectUnchanged (generation c) 0 0, c)
  else
    let count (b : bool) :=
      size (filter (λ e : K * State K T, (λ f, is_superseded e.2 f) <$> inflight e.2 = Some b) (entries c)) in
    (mkReconnect ReconnectAdvanced g (count false) (count true), mkCore g (give_back <$> entries c) (keys c)).

(** ** The reactive shell *)

(** A reader per key that was asked for, and one for the generation. *)
(* include/lazily/latest_durable_projection.hpp:38-45, ProjectionInner *)
Record Projection := mkProjection {
  core : Core; readers : gmap K (option (Entry K T)); generation_reader : option Z }.

(* include/lazily/latest_durable_projection.hpp:55-63, BasicLatestDurableProjection *)
Definition projection_new (initial_generation : Z) : Projection := mkProjection (core_new initial_generation) ∅ None.

(** The readers of these keys are cleared. *)
(* include/lazily/latest_durable_projection.hpp:173-179, BasicLatestDurableProjection::invalidate *)
Definition invalidate (roots : list K) (r : gmap K (option (Entry K T))) : gmap K (option (Entry K T)) :=
  foldl (λ r k, alter (λ _, None) k r) r roots.

(* include/lazily/latest_durable_projection.hpp:151-171, BasicLatestDurableProjection::mutate *)
Definition mutate {R : Type} (k : K) (operation : Core → R * Core) (p : Projection) : R * Projection :=
  let before := snapshot k (core p) in
  let '(result, c) := operation (core p) in
  let changed := bool_decide (before ≠ snapshot k c) in
  (result, mkProjection c (if changed then invalidate [k] (readers p) else readers p) (generation_reader p)).

(* include/lazily/latest_durable_projection.hpp:65-69, BasicLatestDurableProjection::upsert_desired *)
Definition projection_upsert (k : K) (epoch : Z) (value : T) : Projection → UpsertResult * Projection :=
  mutate k (upsert_desired k epoch value).
(* include/lazily/latest_durable_projection.hpp:71-74, BasicLatestDurableProjection::claim *)
Definition projection_claim (k : K) (g : Z) : Projection → ClaimResult K T * Projection := mutate k (claim k g).
(* include/lazily/latest_durable_projection.hpp:76-79, BasicLatestDurableProjection::ack_applied *)
Definition projection_ack (k : K) (g epoch : Z) : Projection → AckResult * Projection := mutate k (ack_applied k g epoch).
(* include/lazily/latest_durable_projection.hpp:81-85, BasicLatestDurableProjection::fail_retryable *)
Definition projection_fail (k : K) (g epoch : Z) : Projection → FailureResult * Projection :=
  mutate k (fail_retryable k g epoch).

(* include/lazily/latest_durable_projection.hpp:87-114, BasicLatestDurableProjection::reconnect *)
Definition projection_reconnect (g : Z) (p : Projection) : ReconnectResult * Projection :=
  let '(result, c) := reconnect g (core p) in
  let changed := filter (λ k, snapshot k (core p) ≠ snapshot k c) (known_keys (core p)) in
  (result, mkProjection c (invalidate changed (readers p))
    match r_kind result with ReconnectAdvanced => None | _ => generation_reader p end).

(* include/lazily/latest_durable_projection.hpp:116-130, BasicLatestDurableProjection::entry_handle *)
Definition entry_handle (k : K) (p : Projection) : Projection :=
  match readers p !! k with
  | Some _ => p
  | None => mkProjection (core p) (<[k := None]> (readers p)) (generation_reader p)
  end.

(* include/lazily/latest_durable_projection.hpp:134-136, BasicLatestDurableProjection::entry *)
Definition projection_entry (k : K) (p : Projection) : Entry K T * Projection :=
  let p := entry_handle k p in
  let '(e, cache) := reader_get (default None (readers p !! k)) (snapshot k (core p)) in
  (e, mkProjection (core p) (<[k := cache]> (readers p)) (generation_reader p)).

(* include/lazily/latest_durable_projection.hpp:138-140, BasicLatestDurableProjection::generation *)
Definition projection_generation (p : Projection) : Z * Projection :=
  let '(g, cache) := reader_get (generation_reader p) (generation (core p)) in
  (g, mkProjection (core p) (readers p) cache).

(* include/lazily/latest_durable_projection.hpp:142-145, BasicLatestDurableProjection::snapshot *)
Definition projection_snapshot (k : K) (p : Projection) : Entry K T := snapshot k (core p).

(** Calls and answers. *)
Inductive proj_op :=
  | PUpsert (k : K) (epoch : Z) (value : T) | PClaim (k : K) (g : Z) | PAck (k : K) (g epoch : Z)
  | PFail (k : K) (g epoch : Z) | PReconnect (g : Z) | PEntry (k : K) | PGeneration | PSnapshot (k : K).
Inductive proj_answer :=
  | AUpsert (r : UpsertResult) | AClaim (r : ClaimResult K T) | AAck (r : AckResult) | AFail (r : FailureResult)
  | AReconnect (r : ReconnectResult) | AEntry (e : Entry K T) | AGeneration (g : Z).

Definition proj_step (p : Projection) (o : proj_op) : proj_answer * Projection :=
  match o with
  | PUpsert k e v => prod_map AUpsert id (projection_upsert k e v p)
  | PClaim k g => prod_map AClaim id (projection_claim k g p)
  | PAck k g e => prod_map AAck id (projection_ack k g e p)
  | PFail k g e => prod_map AFail id (projection_fail k g e p)
  | PReconnect g => prod_map AReconnect id (projection_reconnect g p)
  | PEntry k => prod_map AEntry id (projection_entry k p)
  | PGeneration => prod_map AGeneration id (projection_generation p)
  | PSnapshot k => (AEntry (projection_snapshot k p), p)
  end.

(** ** The ledger

    Per key every value accepted, in order, the one handed to the sink, and the
    last epoch the sink acknowledged. *)
Record Lane := mkLane { l_log : list (Z * T); l_taken : option (Z * T); l_durable : option Z }.
Record Ledger := mkLedger { l_generation : Z; lanes : gmap K Lane }.

Definition lane_of (k : K) (l : Ledger) : Lane := default (mkLane [] None None) (lanes l !! k).
Definition set_lane (k : K) (n : Lane) (l : Ledger) : Ledger := mkLedger (l_generation l) (<[k := n]> (lanes l)).

(** The newest value, unless the sink has it. *)
Definition waiting (n : Lane) : option (Z * T) :=
  '(e, v) ← last (l_log n);
  if decide (fst <$> l_taken n = Some e ∨ l_durable n = Some e) then None else Some (e, v).

(** What the code shows of a lane. *)
Definition lane_entry (g : Z) (k : K) (n : Lane) : Entry K T :=
  mkEntry k ((λ '(e, v), mkDesired e v) <$> waiting n) ((λ '(e, v), mkEnvelope g k e v) <$> l_taken n) (l_durable n).

(** The value in flight has this epoch. *)
Definition is_taken (n : Lane) (e : Z) : bool := match l_taken n with Some (e', _) => e' =? e | None => false end.

(** The value in flight is older than the newest. *)
Definition outdated (n : Lane) (e : Z) : bool := match last (l_log n) with Some (m, _) => e <? m | None => false end.

Definition drop_taken (n : Lane) : Lane := mkLane (l_log n) None (l_durable n).

Definition ledger_upsert (k : K) (e : Z) (v : T) (l : Ledger) : UpsertResult * Ledger :=
  let n := lane_of k l in
  if match l_durable n with Some d => e <=? d | None => false end then (mkUpsert UpsertAlreadyDurable (l_durable n), l)
  else
    match last (l_log n) with
    | Some (m, w) =>
        if e <? m then (mkUpsert UpsertStaleEpoch (Some m), l)
        else if e =? m then (mkUpsert (if decide (w = v) then UpsertUnchanged else UpsertEpochConflict) None, l)
        else (mkUpsert UpsertAccepted None, set_lane k (mkLane (l_log n ++ [(e, v)]) (l_taken n) (l_durable n)) l)
    | None => (mkUpsert UpsertAccepted None, set_lane k (mkLane (l_log n ++ [(e, v)]) (l_taken n) (l_durable n)) l)
    end.

Definition ledger_claim (k : K) (g : Z) (l : Ledger) : ClaimResult K T * Ledger :=
  let n := lane_of k l in
  if negb (g =? l_generation l) then (mkClaim ClaimStaleGeneration None (Some (l_generation l)), l)
  else
    match l_taken n, waiting n with
    | Some _, _ => (mkClaim ClaimBusy None None, l)
    | None, None => (mkClaim ClaimEmpty None None, l)
    | None, Some (e, v) =>
        (mkClaim Claimed (Some (mkEnvelope g k e v)) None, set_lane k (mkLane (l_log n) (Some (e, v)) (l_durable n)) l)
    end.

Definition ledger_ack (k : K) (g e : Z) (l : Ledger) : AckResult * Ledger :=
  let n := lane_of k l in
  if negb (g =? l_generation l) then (mkAck AckStaleGeneration None (Some (l_generation l)), l)
  else if is_taken n e then
    (mkAck AckAdvanced (Some e) None, set_lane k (mkLane (l_log n) None (Some e)) l)
  else if match l_durable n with Some d => e <=? d | None => false end then (mkAck AckUnchanged (l_durable n) None, l)
  else (mkAck AckUnknownEpoch None None, l).

Definition ledger_fail (k : K) (g e : Z) (l : Ledger) : FailureResult * Ledger :=
  let n := lane_of k l in
  if negb (g =? l_generation l) then (mkFailure FailStaleGeneration (Some (l_generation l)), l)
  else if is_taken n e then
    (mkFailure (if outdated n e then FailSuperseded else FailPending) None, set_lane k (drop_taken n) l)
  else (mkFailure FailUnknownEpoch None, l).

Definition ledger_reconnect (g : Z) (l : Ledger) : ReconnectResult * Ledger :=
  if g <? l_generation l then (mkReconnect ReconnectStaleGeneration (l_generation l) 0 0, l)
  else if g =? l_generation l then (mkReconnect ReconnectUnchanged (l_generation l) 0 0, l)
  else
    let count (b : bool) := size (filter (λ e : K * Lane, (outdated e.2 ∘ fst) <$> l_taken e.2 = Some b) (lanes l)) in
    (mkReconnect ReconnectAdvanced g (count false) (count true), mkLedger g (drop_taken <$> lanes l)).

Definition ledger_step (l : Ledger) (o : proj_op) : proj_answer * Ledger :=
  match o with
  | PUpsert k e v => prod_map AUpsert id (ledger_upsert k e v l)
  | PClaim k g => prod_map AClaim id (ledger_claim k g l)
  | PAck k g e => prod_map AAck id (ledger_ack k g e l)
  | PFail k g e => prod_map AFail id (ledger_fail k g e l)
  | PReconnect g => prod_map AReconnect id (ledger_reconnect g l)
  | PEntry k | PSnapshot k => (AEntry (lane_entry (l_generation l) k (lane_of k l)), l)
  | PGeneration => (AGeneration (l_generation l), l)
  end.

(** ** The core keeps the ledger *)

Definition state_of (k : K) (c : Core) : State K T := default no_state (entries c !! k).

Definition lane_state (g : Z) (k : K) (n : Lane) : State K T :=
  mkState ((λ '(e, v), mkDesired e v) <$> waiting n) ((λ '(e, v), mkEnvelope g k e v) <$> l_taken n) (l_durable n).

(** What is durable is older than what is in flight, which is one of the values
    up to the newest. *)
Record lane_ok (n : Lane) : Prop := mkLaneOk {
  taken_ok e v : l_taken n = Some (e, v) → (∀ d, l_durable n = Some d → d < e) ∧
    ∃ m w, last (l_log n) = Some (m, w) ∧ e ≤ m ∧ (e = m → v = w);
  durable_ok d : l_durable n = Some d → ∃ m w, last (l_log n) = Some (m, w) ∧ d ≤ m;
}.

Record keeps (c : Core) (l : Ledger) : Prop := mkKeeps {
  keeps_generation : generation c = l_generation l;
  keeps_state k : state_of k c = lane_state (l_generation l) k (lane_of k l);
  keeps_ok k : lane_ok (lane_of k l);
  keeps_keys k : is_Some (entries c !! k) → k ∈ keys c;
}.

Lemma snapshot_state k c : snapshot k c = mkEntry k (desired (state_of k c)) (inflight (state_of k c)) (durable (state_of k c)).
Proof. unfold snapshot, state_of. by destruct (entries c !! k). Qed.

Lemma keeps_snapshot c l k : keeps c l → snapshot k c = lane_entry (l_generation l) k (lane_of k l).
Proof. intros Hk. by rewrite snapshot_state, (keeps_state _ _ Hk). Qed.

Lemma lane_of_set k n l k' : lane_of k' (set_lane k n l) = if decide (k = k') then n else lane_of k' l.
Proof. unfold lane_of, set_lane. simpl. case_decide as E; [subst; by rewrite lookup_insert_eq|by rewrite lookup_insert_ne]. Qed.

Lemma keeps_put c l k s n : keeps c l → k ∈ keys c → s = lane_state (l_generation l) k n → lane_ok n →
  keeps (put k s c) (set_lane k n l).
Proof.
  intros [Hg Hs Ho Hk] Hin -> Hn. split; [done|..].
  - intros k'. rewrite lane_of_set. unfold state_of, put. simpl. case_decide as E; [subst; by rewrite lookup_insert_eq|].
    rewrite lookup_insert_ne by done. apply Hs.
  - intros k'. rewrite lane_of_set. by case_decide.
  - intros k'. unfold put. simpl. destruct (decide (k = k')) as [->|Hne]; [done|]. rewrite lookup_insert_ne by done. apply Hk.
Qed.

Lemma ensure_keeps c l k : keeps c l → ∃ c', ensure k c = (lane_state (l_generation l) k (lane_of k l), c') ∧ keeps c' l ∧ k ∈ keys c'.
Proof.
  intros [Hg Hs Ho Hk]. pose proof (Hs k) as Hsk. unfold ensure, state_of in *. destruct (entries c !! k) as [s|] eqn:E; simpl in Hsk.
  - rewrite Hsk. eexists. split; [done|]. split; [by split|]. apply Hk. by rewrite E.
  - rewrite <- Hsk. eexists. split; [done|]. split; [split; simpl; [done| |done|]|set_solver].
    + intros k'. unfold state_of. simpl. destruct (decide (k = k')) as [<-|Hne]; [by rewrite lookup_insert_eq|].
      rewrite lookup_insert_ne by done. apply Hs.
    + intros k'. destruct (decide (k = k')) as [<-|Hne]; [set_solver|]. rewrite lookup_insert_ne by done. intros ?%Hk. set_solver.
Qed.

Lemma keeps_known c l k s : keeps c l → entries c !! k = Some s → s = lane_state (l_generation l) k (lane_of k l) ∧ k ∈ keys c.
Proof.
  intros Hk E. split; [|apply (keeps_keys _ _ Hk); by rewrite E]. rewrite <- (keeps_state _ _ Hk). unfold state_of. by rewrite E.
Qed.

(** Accepting a value newer than all others. *)
Lemma lane_accept g k n e v : lane_ok n → (∀ d, l_durable n = Some d → d < e) →
  (∀ m w, last (l_log n) = Some (m, w) → m < e) →
  lane_state g k (mkLane (l_log n ++ [(e, v)]) (l_taken n) (l_durable n)) =
    mkState (Some (mkDesired e v)) (inflight (lane_state g k n)) (l_durable n) ∧
  lane_ok (mkLane (l_log n ++ [(e, v)]) (l_taken n) (l_durable n)).
Proof.
  intros [Ht Hd] Hde Hm. split.
  - unfold lane_state, waiting. simpl. rewrite last_snoc. simpl. rewrite decide_False; [done|]. intros [Et|Ed].
    + destruct (l_taken n) as [[e' v']|]; [|done]. injection Et as ->. destruct (Ht e v' eq_refl) as (_ & m & w & El & ? & _).
      apply Hm in El. lia.
    + apply Hde in Ed. lia.
  - split; simpl; rewrite last_snoc.
    + intros e' v' E. destruct (Ht e' v' E) as (? & m & w & El & ? & _). split; [done|]. apply Hm in El. exists e, v. split; [done|]. lia.
    + intros d E. apply Hde in E as ?. exists e, v. split; [done|lia].
Qed.

Lemma newest_of_lane g k n : lane_ok n →
  newest_epoch (lane_state g k n) =
  '(m, _) ← last (l_log n); if decide (l_durable n = Some m) then None else Some m.
Proof.
  intros [Ht Hd]. unfold newest_epoch, lane_state, waiting. simpl.
  destruct (l_taken n) as [[e v]|] eqn:Et; simpl.
  - destruct (Ht e v eq_refl) as (Hlt & m & w & El & Hle & _). rewrite El. simpl. destruct (decide (l_durable n = Some m)) as [Ed|Ed].
    { apply Hlt in Ed. lia. }
    destruct (decide (_ ∨ _)) as [[[= ->]|?]|Hn]; simpl; [done|done|]. destruct (Z.ltb_spec m e); [lia|done].
  - destruct (last (l_log n)) as [[m w]|]; [|done]. simpl. destruct (decide (l_durable n = Some m)) as [Ed|Ed].
    + rewrite decide_True; [done|by right].
    + rewrite decide_False; [done|naive_solver].
Qed.

Lemma upsert_keeps c l k e v : keeps c l →
  (upsert_desired k e v c).1 = (ledger_upsert k e v l).1 ∧ keeps (upsert_desired k e v c).2 (ledger_upsert k e v l).2.
Proof.
  intros Hk. destruct (ensure_keeps c l k Hk) as (c' & E & Hk' & Hin). pose proof (keeps_ok _ _ Hk k) as Hok.
  unfold upsert_desired, ledger_upsert. rewrite E. set (n := lane_of k l) in *. cbn [durable lane_state].
  assert (Hd : match l_durable n with Some d => e <=? d | None => false end = false → ∀ d, l_durable n = Some d → d < e).
  { intros Hf d Ed. rewrite Ed in Hf. lia. }
  destruct (match l_durable n with Some d => e <=? d | None => false end); [done|]. specialize (Hd eq_refl).
  assert (Hacc : (∀ m w, last (l_log n) = Some (m, w) → m < e) →
    keeps (put k (mkState (Some (mkDesired e v)) (inflight (lane_state (l_generation l) k n)) (l_durable n)) c')
      (set_lane k (mkLane (l_log n ++ [(e, v)]) (l_taken n) (l_durable n)) l)).
  { intros Hm. destruct (lane_accept (l_generation l) k n e v Hok Hd Hm) as [Es Ho]. by apply keeps_put. }
  rewrite (newest_of_lane _ k n Hok). destruct (last (l_log n)) as [[m w]|] eqn:El; cbn [mbind option_bind]; [|naive_solver].
  destruct (decide (l_durable n = Some m)) as [Edm|Edm].
  { pose proof (Hd m Edm). destruct (Z.ltb_spec e m); [lia|]. destruct (Z.eqb_spec e m); [lia|]. split; [done|].
    apply Hacc. by intros ? ? [= -> ->]. }
  destruct (Z.ltb_spec e m); [done|]. destruct (Z.eqb_spec e m) as [->|Hne]; [|split; [done|]; apply Hacc; intros ? ? [= -> ->]; lia].
  split; [|done]. cbn [fst]. do 2 f_equal.
  assert (Hr : match desired (lane_state (l_generation l) k n) with
      | Some d => if d_epoch d =? m then Some (d_value d) else e_value <$> inflight (lane_state (l_generation l) k n)
      | None => e_value <$> inflight (lane_state (l_generation l) k n) end = Some w).
  { unfold lane_state, waiting. cbn [desired inflight]. rewrite El. cbn [mbind option_bind].
    destruct (decide (_ ∨ _)) as [[Et|?]|_]; [|done|cbn; by rewrite Z.eqb_refl].
    destruct (l_taken n) as [[e' v']|] eqn:Etk; [|done]. injection Et as ->. cbn.
    destruct (taken_ok n Hok m v' Etk) as (_ & m' & w' & El' & _ & Hv). rewrite El in El'. injection El' as <- <-. by rewrite Hv. }
  rewrite Hr. destruct (decide (Some w = Some v)), (decide (w = v)); congruence.
Qed.

Lemma lane_ok_taken n e v : lane_ok n → waiting n = Some (e, v) → lane_ok (mkLane (l_log n) (Some (e, v)) (l_durable n)).
Proof.
  intros [Ht Hd] Hw. unfold waiting in Hw. apply bind_Some in Hw as ([m w] & El & Hw). case_decide as Hn; [done|].
  injection Hw as -> ->. split; simpl; [|done]. intros e' v' [= <- <-]. split; [|eauto with lia].
  intros d Ed. destruct (Hd d Ed) as (m & w & El' & ?). rewrite El in El'. injection El' as <- <-.
  assert (d ≠ e) by (intros ->; apply Hn; by right). lia.
Qed.

Lemma claim_keeps c l k g : keeps c l →
  (claim k g c).1 = (ledger_claim k g l).1 ∧ keeps (claim k g c).2 (ledger_claim k g l).2.
Proof.
  intros Hk. unfold claim, ledger_claim. rewrite (keeps_generation _ _ Hk). destruct (Z.eqb_spec g (l_generation l)) as [->|]; [|done].
  simpl negb. cbv iota. pose proof (keeps_state _ _ Hk k) as Hs. unfold state_of in Hs. set (n := lane_of k l) in *.
  destruct (entries c !! k) as [s|] eqn:E; simpl in Hs.
  - destruct (keeps_known _ _ _ _ Hk E) as [_ Hin]. rewrite Hs. cbn [inflight desired durable lane_state].
    destruct (l_taken n) as [[e v]|] eqn:Et; [done|]. destruct (waiting n) as [[e v]|] eqn:Ew; [|done]. split; [done|].
    apply keeps_put; [done|done| |by apply lane_ok_taken, Ew; apply (keeps_ok _ _ Hk)].
    unfold lane_state, waiting. simpl. unfold waiting in Ew. apply bind_Some in Ew as ([m w] & -> & Ew). case_decide; [done|].
    injection Ew as -> ->. simpl. rewrite decide_True; [done|by left].
  - unfold lane_state in Hs. destruct (l_taken n) as [[? ?]|]; [done|]. by destruct (waiting n) as [[? ?]|].
Qed.

Lemma in_flight_lane c l k e : keeps c l →
  in_flight k e c = '(e', v) ← l_taken (lane_of k l);
    if e' =? e then Some (lane_state (l_generation l) k (lane_of k l), mkEnvelope (l_generation l) k e' v) else None.
Proof.
  intros Hk. unfold in_flight. pose proof (keeps_state _ _ Hk k) as Hs. unfold state_of in Hs.
  destruct (entries c !! k) as [s|] eqn:E; simpl in Hs |- *.
  - rewrite Hs. cbn [inflight lane_state]. by destruct (l_taken _) as [[? ?]|].
  - unfold lane_state in Hs. by destruct (l_taken _) as [[? ?]|].
Qed.

Lemma superseded_lane g k n e v : lane_ok n → l_taken n = Some (e, v) →
  is_superseded (lane_state g k n) (mkEnvelope g k e v) = outdated n e.
Proof.
  intros Hok Et. destruct (taken_ok n Hok e v Et) as (Hlt & m & w & El & Hle & _).
  unfold is_superseded, lane_state, outdated, waiting. simpl. rewrite El, Et. simpl.
  destruct (decide (_ ∨ _)) as [[[= ->]|Ed]|Hn]; simpl; [lia|apply Hlt in Ed; lia|done].
Qed.

Lemma give_back_lane g g' k n : lane_ok n → give_back (lane_state g k n) = lane_state g' k (drop_taken n).
Proof.
  intros Hok. unfold give_back. destruct (l_taken n) as [[e v]|] eqn:Et.
  - destruct (taken_ok n Hok e v Et) as (Hlt & m & w & El & Hle & Hv).
    assert (Hi : inflight (lane_state g k n) = Some (mkEnvelope g k e v)) by (unfold lane_state; by rewrite Et).
    rewrite Hi, (superseded_lane g k n e v Hok Et). unfold outdated, lane_state, waiting, drop_taken. simpl. rewrite El, Et. simpl.
    assert (Hm : l_durable n ≠ Some m) by (intros Ed; apply Hlt in Ed; lia). rewrite (decide_False (P := None = Some m ∨ _)) by naive_solver.
    destruct (Z.ltb_spec e m); [|by rewrite Hv by lia; replace e with m by lia].
    rewrite decide_False; [done|]. intros [[= ->]|?]; [lia|done].
  - unfold lane_state, waiting, drop_taken. simpl. by rewrite Et.
Qed.

Lemma lane_ok_drop n : lane_ok n → lane_ok (drop_taken n).
Proof. intros [_ Hd]. by split. Qed.

Lemma ack_keeps c l k g e : keeps c l →
  (ack_applied k g e c).1 = (ledger_ack k g e l).1 ∧ keeps (ack_applied k g e c).2 (ledger_ack k g e l).2.
Proof.
  intros Hk. unfold ack_applied, ledger_ack. rewrite (keeps_generation _ _ Hk). destruct (Z.eqb_spec g (l_generation l)) as [->|]; [|done].
  simpl negb. cbv iota. rewrite (in_flight_lane c l k e Hk). pose proof (keeps_ok _ _ Hk k) as Hok. set (n := lane_of k l) in *.
  assert (Hdur : durable_through k c = l_durable n).
  { pose proof (f_equal durable (keeps_state _ _ Hk k)) as Hd. unfold state_of, durable_through in *. by destruct (entries c !! k). }
  unfold is_taken. destruct (l_taken n) as [[e' v]|] eqn:Et; simpl; [destruct (Z.eqb_spec e' e) as [->|Hne]|].
  2,3: rewrite Hdur; destruct (l_durable n) as [d|]; [|done]; by destruct (e <=? d).
  destruct (taken_ok n Hok e v Et) as (Hlt & m & w & El & Hle & _).
  assert (Hf : match l_durable n with Some p => p `max` e | None => e end = e ∧
      match l_durable n with Some p => e <=? p | None => false end = false).
  { destruct (l_durable n) as [p|]; [|done]. specialize (Hlt p eq_refl). split; lia. }
  cbn [durable lane_state]. destruct Hf as [-> ->]. split; [done|]. cbn [snd]. apply keeps_put; [done| | |].
  - pose proof (in_flight_lane c l k e Hk) as Hi. fold n in Hi. rewrite Et in Hi. simpl in Hi. rewrite Z.eqb_refl in Hi.
    apply (keeps_keys _ _ Hk). unfold in_flight in Hi. by destruct (entries c !! k).
  - unfold lane_state, waiting. simpl. rewrite El, Et. simpl. do 2 f_equal.
    destruct (decide (Some e = Some m ∨ l_durable n = Some m)) as [[?|Ed]|Hn].
    + by rewrite decide_True by auto.
    + apply Hlt in Ed. lia.
    + rewrite decide_False; [done|]. naive_solver.
  - split; simpl; [done|]. intros d [= <-]. eauto.
Qed.

Lemma fail_keeps c l k g e : keeps c l →
  (fail_retryable k g e c).1 = (ledger_fail k g e l).1 ∧ keeps (fail_retryable k g e c).2 (ledger_fail k g e l).2.
Proof.
  intros Hk. unfold fail_retryable, ledger_fail. rewrite (keeps_generation _ _ Hk). destruct (Z.eqb_spec g (l_generation l)) as [->|]; [|done].
  simpl negb. cbv iota. pose proof (in_flight_lane c l k e Hk) as Hi. rewrite Hi. pose proof (keeps_ok _ _ Hk k) as Hok. set (n := lane_of k l) in *.
  unfold is_taken. destruct (l_taken n) as [[e' v]|] eqn:Et; simpl; [destruct (Z.eqb_spec e' e) as [->|Hne]|].
  2,3: done.
  split; [by rewrite superseded_lane|]. cbn [snd].
  apply keeps_put; [done| |by apply give_back_lane|by apply lane_ok_drop].
  simpl in Hi. rewrite Z.eqb_refl in Hi. apply (keeps_keys _ _ Hk). unfold in_flight in Hi. by destruct (entries c !! k).
Qed.

Lemma size_filter_eq {A B} (P : K * A → Prop) (Q : K * B → Prop) `{!∀ x, Decision (P x), !∀ x, Decision (Q x)}
    (m1 : gmap K A) (m2 : gmap K B) :
  (∀ k, (∃ x, m1 !! k = Some x ∧ P (k, x)) ↔ (∃ y, m2 !! k = Some y ∧ Q (k, y))) →
  size (filter P m1) = size (filter Q m2).
Proof.
  intros Hpq. rewrite <- !size_dom. f_equal. apply set_eq. intros k. rewrite !elem_of_dom. unfold is_Some.
  setoid_rewrite map_lookup_filter_Some. apply Hpq.
Qed.

Lemma reconnect_keeps c l g : keeps c l →
  (reconnect g c).1 = (ledger_reconnect g l).1 ∧ keeps (reconnect g c).2 (ledger_reconnect g l).2.
Proof.
  intros Hk. unfold reconnect, ledger_reconnect. rewrite (keeps_generation _ _ Hk).
  destruct (g <? l_generation l); [done|]. destruct (g =? l_generation l); [done|].
  assert (Hcount : ∀ b, size (filter (λ e : K * State K T, (λ f, is_superseded e.2 f) <$> inflight e.2 = Some b) (entries c)) =
    size (filter (λ e : K * Lane, (outdated e.2 ∘ fst) <$> l_taken e.2 = Some b) (lanes l))).
  { intros b. apply size_filter_eq. intros k. simpl. pose proof (keeps_state _ _ Hk k) as Hs. pose proof (keeps_ok _ _ Hk k) as Hok.
    assert (Heq : (λ f, is_superseded (lane_state (l_generation l) k (lane_of k l)) f) <$> inflight (lane_state (l_generation l) k (lane_of k l)) =
      (outdated (lane_of k l) ∘ fst) <$> l_taken (lane_of k l)).
    { destruct (l_taken (lane_of k l)) as [[e v]|] eqn:Et; unfold lane_state at 2; simpl; rewrite Et; simpl; [|done].
      by rewrite superseded_lane. }
    rewrite <- Hs in Heq. unfold state_of, lane_of in Heq.
    destruct (entries c !! k) as [s|], (lanes l !! k) as [n|]; simpl in Heq;
      (split; intros (x & [=] & E); subst x; try congruence); eexists; (split; [reflexivity|congruence]). }
  rewrite !Hcount. split; [done|]. cbn [snd]. split; simpl; [done|..].
  - intros k. unfold state_of, lane_of. simpl. rewrite !lookup_fmap.
    pose proof (keeps_state _ _ Hk k) as Hs. pose proof (give_back_lane (l_generation l) g k _ (keeps_ok _ _ Hk k)) as Hgb.
    rewrite <- Hs in Hgb. unfold state_of, lane_of in Hgb. by destruct (entries c !! k), (lanes l !! k).
  - intros k. unfold lane_of. simpl. rewrite lookup_fmap. pose proof (lane_ok_drop _ (keeps_ok _ _ Hk k)) as Hd. unfold lane_of in Hd.
    by destruct (lanes l !! k).
  - intros k. rewrite lookup_fmap, fmap_is_Some. apply (keeps_keys _ _ Hk).
Qed.

(** ** The readers are never stale *)

Record coherent (p : Projection) : Prop := mkCoherent {
  coherent_readers k cache : readers p !! k = Some cache → fresh cache (snapshot k (core p));
  coherent_generation : fresh (generation_reader p) (generation (core p));
}.

Lemma invalidate_lookup roots : ∀ r k,
  invalidate roots r !! k = if decide (k ∈ roots) then (λ _, None) <$> r !! k else r !! k.
Proof.
  unfold invalidate. induction roots as [|k' roots IH]; intros r k; simpl; [done|]. rewrite IH.
  destruct (decide (k = k')) as [->|Hne].
  - rewrite lookup_alter_eq. rewrite (decide_True (P := k' ∈ k' :: roots)) by left. case_decide; by destruct (r !! k').
  - rewrite lookup_alter_ne by done. repeat case_decide; first [done|set_solver].
Qed.

Local Arguments invalidate : simpl never.

Lemma mutate_keeps {R} k (op : Core → R * Core) p l r l' : keeps (core p) l → coherent p →
  (op (core p)).1 = r ∧ keeps (op (core p)).2 l' →
  l_generation l' = l_generation l ∧ (∀ k', k' ≠ k → lane_of k' l' = lane_of k' l) →
  (mutate k op p).1 = r ∧ keeps (core (mutate k op p).2) l' ∧ coherent (mutate k op p).2.
Proof.
  intros Hk Hc [Hr Hk'] [Hg Hl]. unfold mutate. destruct (op (core p)) as [r' c]. simpl in *. split; [done|]. split; [done|].
  split; simpl; [|rewrite (keeps_generation _ _ Hk'), Hg, <- (keeps_generation _ _ Hk); apply Hc].
  intros k1 cache. destruct (decide (k1 = k)) as [->|Hne].
  - case_bool_decide as Hch.
    + rewrite invalidate_lookup, decide_True by set_solver. destruct (readers p !! k); [|done]. by intros [= <-].
    + rewrite <- Hch. apply Hc.
  - assert (Hs : snapshot k1 c = snapshot k1 (core p)) by (rewrite (keeps_snapshot _ _ _ Hk'), (keeps_snapshot _ _ _ Hk); by rewrite Hg, Hl).
    rewrite Hs. intros E. apply (coherent_readers _ Hc). destruct (bool_decide _); [|done].
    by rewrite invalidate_lookup, decide_False in E by set_solver.
Qed.

Lemma ledger_frame k l :
  let same (l' : Ledger) := l_generation l' = l_generation l ∧ ∀ k', k' ≠ k → lane_of k' l' = lane_of k' l in
  (∀ e v, same (ledger_upsert k e v l).2) ∧ (∀ g, same (ledger_claim k g l).2) ∧
  (∀ g e, same (ledger_ack k g e l).2) ∧ (∀ g e, same (ledger_fail k g e l).2).
Proof.
  intros same. assert (Hsame : same l) by done. assert (Hset : ∀ n, same (set_lane k n l)).
  { intros n. split; [done|]. intros k' Hne. rewrite lane_of_set. by rewrite decide_False. }
  refine (conj _ (conj _ (conj _ _))).
  - intros. unfold ledger_upsert. repeat case_match; first [exact Hsame|apply Hset].
  - intros. unfold ledger_claim. repeat case_match; first [exact Hsame|apply Hset].
  - intros. unfold ledger_ack. repeat case_match; first [exact Hsame|apply Hset].
  - intros. unfold ledger_fail. repeat case_match; first [exact Hsame|apply Hset].
Qed.

(** ** The shell answers as the ledger *)

Definition tracks (p : Projection) (l : Ledger) : Prop := keeps (core p) l ∧ coherent p.

Lemma reconnect_unknown g c k : entries c !! k = None → snapshot k (reconnect g c).2 = snapshot k c.
Proof.
  intros E. unfold reconnect, snapshot. destruct (g <? _); [done|]. destruct (g =? _); [done|]. simpl. by rewrite lookup_fmap, E.
Qed.

Lemma reconnect_tracks p l g : tracks p l →
  (projection_reconnect g p).1 = (ledger_reconnect g l).1 ∧ tracks (projection_reconnect g p).2 (ledger_reconnect g l).2.
Proof.
  intros [Hk Hc]. destruct (reconnect_keeps (core p) l g Hk) as [Hr Hk']. unfold projection_reconnect.
  assert (Hgen : (reconnect g (core p)).2 = core p ∨ r_kind (reconnect g (core p)).1 = ReconnectAdvanced).
  { unfold reconnect. destruct (g <? _); [by left|]. destruct (g =? _); [by left|by right]. }
  pose proof (λ k, reconnect_unknown g (core p) k) as Hun.
  destruct (reconnect g (core p)) as [r c]. simpl in *. split; [done|]. split; [done|]. split; simpl.
  - intros k cache. rewrite invalidate_lookup. case_decide as Hin.
    + destruct (readers p !! k); [|done]. by intros [= <-].
    + intros E. apply (coherent_readers _ Hc) in E. replace (snapshot k c) with (snapshot k (core p)); [done|].
      apply dec_stable. intros Hne. apply Hin, list_elem_of_filter. split; [done|]. apply (keeps_keys _ _ Hk).
      apply not_eq_None_Some. intros En. by rewrite Hun in Hne.
  - destruct Hgen as [->| ->]; [|done]. destruct (r_kind r); [done|apply Hc..].
Qed.

Lemma entry_tracks p l k : tracks p l →
  (projection_entry k p).1 = lane_entry (l_generation l) k (lane_of k l) ∧ tracks (projection_entry k p).2 l.
Proof.
  intros [Hk Hc]. unfold projection_entry. assert (Hh : core (entry_handle k p) = core p ∧ coherent (entry_handle k p) ∧
      fresh (default None (readers (entry_handle k p) !! k)) (snapshot k (core p))).
  { unfold entry_handle. destruct (readers p !! k) as [cache|] eqn:E; simpl.
    - rewrite E. split_and!; [done|done|]. by apply (coherent_readers _ Hc).
    - rewrite lookup_insert_eq. split_and!; [done| |done]. split; simpl; [|apply Hc]. intros k' cache.
      destruct (decide (k = k')) as [<-|Hne]; [rewrite lookup_insert_eq; by intros [= <-]|]. rewrite lookup_insert_ne by done. apply Hc. }
  destruct Hh as (Hcore & Hch & Hf). rewrite Hcore. destruct (reader_get_fresh _ _ Hf) as [Hv Hf'].
  destruct (reader_get _ _) as [e cache]. simpl in *. rewrite Hv. split; [by apply keeps_snapshot|]. split; simpl; [done|].
  split; simpl; [|rewrite <- Hcore; apply Hch]. intros k' cache'. destruct (decide (k = k')) as [<-|Hne].
  - rewrite lookup_insert_eq. by intros [= <-].
  - rewrite lookup_insert_ne by done. rewrite <- Hcore. apply Hch.
Qed.

Lemma step_tracks p l o : tracks p l →
  (proj_step p o).1 = (ledger_step l o).1 ∧ tracks (proj_step p o).2 (ledger_step l o).2.
Proof.
  intros Ht. pose proof Ht as [Hk Hc]. destruct o as [k e v|k g|k g e|k g e|g|k| |k]; simpl;
    try destruct (ledger_frame k l) as (Fu & Fc & Fa & Ff).
  - destruct (mutate_keeps k _ p l _ _ Hk Hc (upsert_keeps (core p) l k e v Hk)) as (E & ? & ?); [by apply Fu|].
    unfold projection_upsert. by rewrite E.
  - destruct (mutate_keeps k _ p l _ _ Hk Hc (claim_keeps (core p) l k g Hk)) as (E & ? & ?); [by apply Fc|].
    unfold projection_claim. by rewrite E.
  - destruct (mutate_keeps k _ p l _ _ Hk Hc (ack_keeps (core p) l k g e Hk)) as (E & ? & ?); [by apply Fa|].
    unfold projection_ack. by rewrite E.
  - destruct (mutate_keeps k _ p l _ _ Hk Hc (fail_keeps (core p) l k g e Hk)) as (E & ? & ?); [by apply Ff|].
    unfold projection_fail. by rewrite E.
  - destruct (reconnect_tracks p l g Ht) as [E ?]. by rewrite E.
  - destruct (entry_tracks p l k Ht) as [E ?]. by rewrite E.
  - unfold projection_generation. destruct (reader_get_fresh _ _ (coherent_generation _ Hc)) as [Hv Hf].
    destruct (reader_get _ _) as [g cache]. simpl in *. rewrite Hv, (keeps_generation _ _ Hk). split; [done|]. split; [done|].
    split; simpl; [apply Hc|done].
  - unfold projection_snapshot. rewrite (keeps_snapshot _ _ _ Hk). done.
Qed.

Lemma run_tracks ops : ∀ p l, tracks p l →
  (core_run proj_step p ops).1 = (core_run ledger_step l ops).1 ∧ tracks (core_run proj_step p ops).2 (core_run ledger_step l ops).2.
Proof.
  induction ops as [|o ops IH]; intros p l Ht; simpl; [done|]. destruct (step_tracks p l o Ht) as [E Ht'].
  destruct (proj_step p o) as [a p'], (ledger_step l o) as [a' l']. simpl in *. subst a'. destruct (IH p' l' Ht') as [E Ht2].
  destruct (core_run proj_step p' ops), (core_run ledger_step l' ops). simpl in *. by subst.
Qed.

Lemma new_tracks g : tracks (projection_new g) (mkLedger g ∅).
Proof.
  split.
  - split; [done| | |]; intros k; unfold state_of, lane_of; simpl; rewrite ?lookup_empty; [done|by split|by intros []].
  - split; simpl; [|done]. intros k cache. by rewrite lookup_empty.
Qed.

(** ** The newest value reaches the sink *)

(** The values of a key that were accepted, as the caller saw them. *)
Definition accepted (k : K) : list (proj_op * proj_answer) → list (Z * T) :=
  omap (λ '(o, a),
    match o, a with
    | PUpsert k' e v, AUpsert r =>
        if decide (k' = k) then match u_kind r with UpsertAccepted => Some (e, v) | _ => None end else None
    | _, _ => None
    end).

Lemma ledger_step_log k l o :
  l_log (lane_of k (ledger_step l o).2) = l_log (lane_of k l) ++ accepted k [(o, (ledger_step l o).1)].
Proof.
  destruct o as [k' e v|k' g|k' g e|k' g e|g|k'| |k']; simpl; rewrite ?app_nil_r; try done.
  - destruct (decide (k' = k)) as [->|Hne].
    + unfold ledger_upsert. repeat case_match; simpl in *; simplify_eq; rewrite ?lane_of_set, ?decide_True, ?app_nil_r by done; done.
    + rewrite app_nil_r. f_equal. destruct (ledger_frame k' l) as (F & _). by apply F.
  - unfold ledger_claim. repeat case_match; simpl; rewrite ?lane_of_set; repeat case_decide; subst; try done.
  - unfold ledger_ack. repeat case_match; simpl; rewrite ?lane_of_set; repeat case_decide; subst; try done.
  - unfold ledger_fail. repeat case_match; simpl; rewrite ?lane_of_set; repeat case_decide; subst; try done.
  - unfold ledger_reconnect. repeat case_match; try done. unfold lane_of. simpl. rewrite lookup_fmap. by destruct (lanes l !! k).
Qed.

Lemma ledger_run_log k ops : ∀ l,
  l_log (lane_of k (core_run ledger_step l ops).2) = l_log (lane_of k l) ++ accepted k (zip ops (core_run ledger_step l ops).1).
Proof.
  induction ops as [|o ops IH]; intros l; simpl; [by rewrite app_nil_r|]. pose proof (ledger_step_log k l o) as Hs.
  destruct (ledger_step l o) as [a l']. simpl in *. specialize (IH l'). destruct (core_run ledger_step l' ops) as [bs l2]. simpl in *.
  rewrite IH, Hs, <- app_assoc. f_equal. destruct o, a; try done; simpl; repeat case_match; done.
Qed.

(** Reconnecting, claiming, acknowledging and reading on the ledger. *)
Lemma ledger_delivers l k e v g : lane_ok (lane_of k l) → last (l_log (lane_of k l)) = Some (e, v) → l_generation l < g →
  ∃ r cl ak, (core_run ledger_step l [PReconnect g; PClaim k g; PAck k g e; PEntry k]).1 =
      [AReconnect r; AClaim cl; AAck ak; AEntry (mkEntry k None None (Some e))] ∧
    ((cl = mkClaim Claimed (Some (mkEnvelope g k e v)) None ∧ a_kind ak = AckAdvanced) ∨
     (c_kind cl = ClaimEmpty ∧ l_durable (lane_of k l) = Some e)).
Proof.
  intros Hok Hlast Hg. set (l1 := mkLedger g (drop_taken <$> lanes l)).
  assert (H1 : ∃ r, ledger_step l (PReconnect g) = (AReconnect r, l1)).
  { unfold ledger_step, ledger_reconnect. destruct (Z.ltb_spec g (l_generation l)); [lia|].
    destruct (Z.eqb_spec g (l_generation l)); [lia|]. by eexists. }
  assert (Hl1 : lane_of k l1 = drop_taken (lane_of k l)) by (unfold lane_of, l1; simpl; rewrite lookup_fmap; by destruct (lanes l !! k)).
  assert (Hw : waiting (drop_taken (lane_of k l)) = if decide (l_durable (lane_of k l) = Some e) then None else Some (e, v)).
  { unfold waiting, drop_taken. cbn [l_log l_taken l_durable]. rewrite Hlast. cbn [mbind option_bind].
    destruct (decide (l_durable (lane_of k l) = Some e)); [by rewrite decide_True by auto|]. rewrite decide_False; [done|]. by intros [?|?]. }
  assert (Hend : ∀ l', l_generation l' = g → lane_of k l' = mkLane (l_log (lane_of k l)) None (Some e) →
    ledger_step l' (PEntry k) = (AEntry (mkEntry k None None (Some e)), l')).
  { intros l' <- E. unfold ledger_step, lane_entry, waiting. rewrite E. cbn [l_log l_taken l_durable]. rewrite Hlast.
    cbn [mbind option_bind]. by rewrite decide_True by auto. }
  destruct H1 as [r H1]. cbn [core_run]. rewrite H1. exists r.
  destruct (decide (l_durable (lane_of k l) = Some e)) as [Hd|Hd].
  - assert (H2 : ledger_step l1 (PClaim k g) = (AClaim (mkClaim ClaimEmpty None None), l1)).
    { unfold ledger_step, ledger_claim. rewrite Hl1, Hw. cbn. by rewrite Z.eqb_refl. }
    assert (H3 : ledger_step l1 (PAck k g e) = (AAck (mkAck AckUnchanged (Some e) None), l1)).
    { unfold ledger_step, ledger_ack. rewrite Hl1. cbn. by rewrite Z.eqb_refl, Hd, Z.leb_refl. }
    rewrite H2, H3, Hend; [|done|by rewrite Hl1, <- Hd]. do 2 eexists. split; [done|]. by right.
  - set (l2 := set_lane k (mkLane (l_log (lane_of k l)) (Some (e, v)) (l_durable (lane_of k l))) l1).
    assert (H2 : ledger_step l1 (PClaim k g) = (AClaim (mkClaim Claimed (Some (mkEnvelope g k e v)) None), l2)).
    { unfold ledger_step, ledger_claim. rewrite Hl1, Hw. cbn. by rewrite Z.eqb_refl. }
    set (l3 := set_lane k (mkLane (l_log (lane_of k l)) None (Some e)) l2).
    assert (H3 : ledger_step l2 (PAck k g e) = (AAck (mkAck AckAdvanced (Some e) None), l3)).
    { unfold ledger_step, ledger_ack. assert (Hl2 : lane_of k l2 = mkLane (l_log (lane_of k l)) (Some (e, v)) (l_durable (lane_of k l)))
        by (unfold l2; by rewrite lane_of_set, decide_True by done).
      rewrite Hl2. cbn. by rewrite !Z.eqb_refl. }
    rewrite H2, H3, Hend; [|done|unfold l3; by rewrite lane_of_set, decide_True by done]. do 2 eexists. split; [done|]. by left.
Qed.

End projection.

(** C19: The projection answers as a ledger that forgets nothing.  Upserts, claims,
    acknowledgements, failures, reconnects and reads, in any order and with any
    generations and epochs, are answered by the projection as by one log per
    key of every accepted value, the value the sink holds and the last epoch it
    acknowledged: what is claimed is the newest accepted value, a stale
    generation or epoch changes nothing, and no memoised reader is ever stale
    although only the readers of changed keys are invalidated. *)
Theorem projection_refines_ledger {K T : Type} `{CK : Countable K} `{ET : EqDecision T} (g : Z) (ops : list (proj_op (K:=K) (T:=T))) :
  (core_run proj_step (projection_new g) ops).1 = (core_run ledger_step (mkLedger g ∅) ops).1.
Proof. apply run_tracks, new_tracks. Qed.

(** C20: The newest value of a key reaches the sink.  Whatever happened before,
    claims that never came back and failures included, once the projection is
    reconnected under a newer generation a claim hands out the last value
    accepted for the key, unless that value is durable already, and its
    acknowledgement makes exactly that value durable, with nothing left to do. *)
Theorem newest_value_is_delivered {K T : Type} `{CK : Countable K} `{ET : EqDecision T} (g g' : Z)
    (ops : list (proj_op (K:=K) (T:=T))) (k : K) (e : Z) (v : T) :
  let '(answers, p) := core_run proj_step (projection_new g) ops in
  last (accepted k (zip ops answers)) = Some (e, v) → generation (core p) < g' →
  ∃ r cl ak, (core_run proj_step p [PReconnect g'; PClaim k g'; PAck k g' e; PEntry k]).1 =
      [AReconnect r; AClaim cl; AAck ak; AEntry (mkEntry k None None (Some e))] ∧
    ((cl = mkClaim Claimed (Some (mkEnvelope g' k e v)) None ∧ a_kind ak = AckAdvanced) ∨
     (c_kind cl = ClaimEmpty ∧ durable_through k (core p) = Some e)).
Proof.
  destruct (run_tracks ops _ _ (new_tracks g)) as [Ha Ht]. pose proof (ledger_run_log k ops (mkLedger g ∅)) as Hlog.
  destruct (core_run proj_step _ ops) as [answers p]. destruct (core_run ledger_step _ ops) as [answers' l]. simpl in Ha, Ht, Hlog. subst answers'.
  intros Hlast Hg. pose proof Ht as [Hk _]. rewrite (keeps_generation _ _ Hk) in Hg.
  destruct (run_tracks [PReconnect g'; PClaim k g'; PAck k g' e; PEntry k] p l Ht) as [-> _].
  unfold lane_of in Hlog at 2. simpl in Hlog. rewrite lookup_empty in Hlog. simpl in Hlog. rewrite <- Hlog in Hlast.
  destruct (ledger_delivers l k e v g' (keeps_ok _ _ Hk k) Hlast Hg) as (r & cl & ak & E & Hcl). exists r, cl, ak. split; [exact E|].
  destruct Hcl as [?|[? Hd]]; [by left|right]. split; [done|]. rewrite <- Hd.
  pose proof (f_equal durable (keeps_state _ _ Hk k)) as Hs. unfold state_of, durable_through in *. by destruct (entries (core p) !! k).
Qed.

(** A sink that claimed an old value and was lost. *)
Lemma newest_value_is_delivered_witness :
  let ops := [PUpsert 7%nat 1 10%nat; PClaim 7%nat 0; PUpsert 7%nat 2 20%nat; PAck 7%nat 0 2] : list (proj_op (K:=nat) (T:=nat)) in
  ∃ r cl ak, (core_run proj_step (core_run proj_step (projection_new 0) ops).2 [PReconnect 1; PClaim 7%nat 1; PAck 7%nat 1 2; PEntry 7%nat]).1 =
      [AReconnect r; AClaim cl; AAck ak; AEntry (mkEntry 7%nat None None (Some 2))] ∧
    ((cl = mkClaim Claimed (Some (mkEnvelope 1 7%nat 2 20%nat)) None ∧ a_kind ak = AckAdvanced) ∨
     (c_kind cl = ClaimEmpty ∧ durable_through 7%nat (core (core_run proj_step (projection_new 0) ops).2) = Some 2)).
Proof.
  exact (newest_value_is_delivered 0 1 [PUpsert 7%nat 1 10%nat; PClaim 7%nat 0; PUpsert 7%nat 2 20%nat; PAck 7%nat 0 2] 7%nat 2 20%nat
    eq_refl eq_refl).
Defined.
