(* ===== verification/Bytes.v ===== *)
(** * Bytes: strings as bytes, and readers over them

    What Json and Msgpack share: a [std::string] is the list of its bytes, a
    decoder is a function from the bytes left to a value and the bytes left
    after it, or to the exception it throws. *)
From Stdlib Require Import Ascii String.
From S2P Require Import Prelude.
#[local] Open Scope Z_scope.

(** The bytes of a literal. *)
Definition bytes_of (s : string) : list Z := (λ c, Z.of_N (N_of_ascii c)) <$> list_ascii_of_string s.

(** The order of [std::string]: by bytes, a prefix first. *)
Fixpoint bytes_le (a b : list Z) : Prop :=
  match a, b with
  | [], _ => True
  | _ :: _, [] => False
  | x :: a, y :: b => x < y ∨ x = y ∧ bytes_le a b
  end.
#[export] Instance bytes_le_dec : RelDecision bytes_le.
Proof.
  intros a. induction a as [|x a IH]; intros [|y b]; simpl; [by left..|right; intros []|].
  specialize (IH b). apply _.
Defined.
#[export] Instance bytes_le_total : Total bytes_le.
Proof.
  intros a. induction a as [|x a IH]; intros [|y b]; simpl; [by left|by left|by right|].
  destruct (Z.lt_trichotomy x y) as [?|[->|?]]; [by left; left| |by right; left]. destruct (IH b); [left|right]; by right.
Qed.
#[export] Instance bytes_le_trans : Transitive bytes_le.
Proof.
  intros a. induction a as [|x a IH]; intros [|y b] [|z c]; simpl; try done. intros [?|[-> ?]] [?|[-> ?]]; [left; lia|by left|by left|].
  right. split; [done|]. by apply (IH b).
Qed.
#[export] Instance bytes_le_antisym : AntiSymm eq bytes_le.
Proof.
  intros a. induction a as [|x a IH]; intros [|y b]; simpl; try done. intros [?|[-> ?]] [?|[? ?]]; try lia. f_equal. by apply IH.
Qed.

Definition is_byte (b : Z) : Prop := 0 ≤ b < 256.
#[export] Instance is_byte_dec b : Decision (is_byte b) := ltac:(unfold is_byte; apply _).

(** Exceptions: [Fail] is a [std::runtime_error]; [NoFuel] is none of the
    code's, it marks a recursion cut short by the model. *)
Inductive fault := Fail (what : string) | NoFuel.

Definition Reader (A : Type) : Type := list Z → fault + (A * list Z).

#[export] Instance reader_ret : MRet Reader := λ A a bs, inr (a, bs).
#[export] Instance reader_bind : MBind Reader := λ A B f m bs,
  match m bs with inl e => inl e | inr (a, bs) => f a bs end.

Definition throw {A : Type} (what : string) : Reader A := λ _, inl (Fail what).
Definition out_of_fuel {A : Type} : Reader A := λ _, inl NoFuel.

(** The bytes left, without consuming any. *)
Definition looking {A : Type} (f : list Z → Reader A) : Reader A := λ bs, f bs bs.

(** [n] times. *)
Fixpoint repeat_reader {A : Type} (n : nat) (m : Reader A) : Reader (list A) :=
  match n with
  | O => mret []
  | S n => a ← m; rest ← repeat_reader n m; mret (a :: rest)
  end.

(** A reader that gives the value and leaves what follows. *)
Definition reads {A : Type} (m : Reader A) (bs : list Z) (a : A) : Prop := ∀ rest, m (bs ++ rest) = inr (a, rest).

Lemma bind_inr {A B} (m : Reader A) (f : A → Reader B) bs a rest :
  m bs = inr (a, rest) → (m ≫= f) bs = f a rest.
Proof. intros E. unfold mbind, reader_bind. by rewrite E. Qed.

Lemma reads_bind {A B} (m : Reader A) (f : A → Reader B) bs1 bs2 a b :
  reads m bs1 a → reads (f a) bs2 b → reads (m ≫= f) (bs1 ++ bs2) b.
Proof. intros H1 H2 rest. rewrite <- app_assoc. rewrite (bind_inr _ _ _ _ _ (H1 _)). apply H2. Qed.

Lemma reads_ret {A} (a : A) : reads (mret a) [] a.
Proof. by intros rest. Qed.

Lemma reads_fmap {A B} (m : Reader A) (f : A → B) bs a : reads m bs a → reads (x ← m; mret (f x)) bs (f a).
Proof. intros Hm rest. by rewrite (bind_inr _ _ _ _ _ (Hm _)). Qed.

Lemma reads_repeat {A B} (m : Reader A) (write : B → list Z) (value : B → A) (l : list B) :
  (∀ x, x ∈ l → reads m (write x) (value x)) →
  reads (repeat_reader (length l) m) (l ≫= write) (value <$> l).
Proof.
  induction l as [|x l IH]; intros Hl; [apply reads_ret|]. cbn [length repeat_reader mbind list_bind fmap list_fmap].
  apply (reads_bind _ _ _ _ (value x)); [apply Hl; by left|].
  apply (reads_fmap _ (cons (value x))). apply IH. intros y Hy. apply Hl. by right.
Qed.

(** ** Readers that end

    A reader consumes when it leaves no more than it was given, and strictly
    less when it gives a value [k] bytes after. *)
Definition consumes {A : Type} (k : nat) (m : Reader A) (bs : list Z) : Prop :=
  match m bs with
  | inl (Fail _) => True
  | inl NoFuel => False
  | inr (_, rest) => (length rest + k ≤ length bs)%nat
  end.

Lemma consumes_bind {A B} k j (m : Reader A) (f : A → Reader B) bs :
  consumes k m bs → (∀ a rest, (length rest + k ≤ length bs)%nat → consumes j (f a) rest) →
  consumes (k + j) (m ≫= f) bs.
Proof.
  unfold consumes, mbind, reader_bind. destruct (m bs) as [[?|]|[a rest]]; [done..|]. intros Hk Hf. specialize (Hf a rest Hk).
  destruct (f a rest) as [[?|]|[b rest']]; [done..|]. lia.
Qed.

Lemma consumes_weaken {A} j k (m : Reader A) bs : (j ≤ k)%nat → consumes k m bs → consumes j m bs.
Proof. unfold consumes. destruct (m bs) as [[?|]|[? ?]]; [done..|]. lia. Qed.

Lemma consumes_ret {A} (a : A) bs : consumes 0 (mret a) bs.
Proof. unfold consumes, mret, reader_ret. lia. Qed.

Lemma consumes_throw {A} k what bs : consumes k (@throw A what) bs.
Proof. done. Qed.

Lemma consumes_repeat {A} n (m : Reader A) bs :
  (∀ rest, (length rest ≤ length bs)%nat → consumes 0 m rest) → consumes 0 (repeat_reader n m) bs.
Proof.
  revert bs. induction n as [|n IH]; intros bs Hm; [apply consumes_ret|]. cbn [repeat_reader].
  apply (consumes_bind 0 0); [by apply Hm|]. intros a rest Hr. apply (consumes_bind 0 0); [|intros; apply consumes_ret].
  apply IH. intros rest' Hr'. apply Hm. lia.
Qed.
