(* ===== verification/Json.v ===== *)
(** * JSON: the document model, the writer and the parser

    Models include/lazily/json.hpp.  Printing a double ([%.17g]) and reading
    one back ([std::stod]) are arguments: the code relies on neither for the
    frames it sends, which carry no doubles.  The parser recurses once per
    nesting level and loops along members, elements and characters; each turn
    consumes input, so the number of bytes left is fuel enough
    ([json_parse_turns]). *)
From Stdlib Require Import String.
From S2P Require Import Prelude Bytes.
#[local] Open Scope Z_scope.

Section json.
  Context {D : Type}.

(* include/lazily/json.hpp:44-55, JsonValue (data members) *)
Inductive JsonValue :=
  | JNull | JBool (b : bool) | JInt (z : Z) | JDouble (d : D) | JString (s : list Z)
  | JArray (l : list JsonValue) | JObject (l : list (list Z * JsonValue)).

(** The first member of that name. *)
(* include/lazily/json.hpp:109-114, JsonValue::find *)
Definition find_member (key : list Z) (v : JsonValue) : option JsonValue :=
  match v with
  | JObject l => snd <$> list_find (λ kv, kv.1 = key) l ≫= λ '(_, kv), Some kv
  | _ => None
  end.

(* include/lazily/json.hpp:118-121, JsonValue::set *)
Definition set_member (key : list Z) (value v : JsonValue) : JsonValue :=
  match v with JObject l => JObject (l ++ [(key, value)]) | _ => JObject [(key, value)] end.

(* include/lazily/json.hpp:122-125, JsonValue::push *)
Definition push_element (value v : JsonValue) : JsonValue :=
  match v with JArray l => JArray (l ++ [value]) | _ => JArray [value] end.

(** ** Writing *)

Definition kHex (n : Z) : Z := if n <? 10 then 48 + n else 97 + (n - 10).

(** What a byte of a string is written as. *)
Definition escape (c : Z) : list Z :=
  if c =? 34 then bytes_of "\" ++ [34]
  else if c =? 92 then bytes_of "\\"
  else if c =? 10 then bytes_of "\n"
  else if c =? 13 then bytes_of "\r"
  else if c =? 9 then bytes_of "\t"
  else if c =? 8 then bytes_of "\b"
  else if c =? 12 then bytes_of "\f"
  else if c <? 32 then bytes_of "\u00" ++ [kHex (Z.land (Z.shiftr c 4) 15); kHex (Z.land c 15)]
  else [c].

(* include/lazily/json.hpp:149-190, json_write_string *)
Definition json_write_string (s : list Z) : list Z := [34] ++ (s ≫= escape) ++ [34].

(** [std::to_string]: at most twenty digits. *)
Fixpoint digits (fuel : nat) (z : Z) : list Z :=
  match fuel with
  | O => []
  | S fuel => if z <? 10 then [48 + z] else digits fuel (z / 10) ++ [48 + z mod 10]
  end.
Definition to_string (z : Z) : list Z := if z <? 0 then 45 :: digits 20 (- z) else digits 20 z.

(** Separated by commas. *)
Fixpoint commas (l : list (list Z)) : list Z :=
  match l with
  | [] => []
  | [x] => x
  | x :: l => x ++ [44] ++ commas l
  end.

Section writer.
  Context (print_double : D → list Z).

(* include/lazily/json.hpp:202-238, json_write_to *)
Fixpoint json_write (v : JsonValue) : list Z :=
  match v with
  | JNull => bytes_of "null"
  | JBool b => if b then bytes_of "true" else bytes_of "false"
  | JInt z => to_string z
  | JDouble d => print_double d
  | JString s => json_write_string s
  | JArray l => [91] ++ commas (map json_write l) ++ [93]
  | JObject l => [123] ++ commas (map (λ '(k, v), json_write_string k ++ 58 :: json_write v) l) ++ [125]
  end.

End writer.

(** ** Parsing *)

Fixpoint skip_ws_from (bs : list Z) : list Z :=
  match bs with
  | c :: bs' => if (c =? 32) || (c =? 9) || (c =? 10) || (c =? 13) then skip_ws_from bs' else bs
  | [] => []
  end.

(* include/lazily/json.hpp:277-285, JsonParser::skip_ws *)
Definition skip_ws : Reader () := λ bs, inr ((), skip_ws_from bs).

(* include/lazily/json.hpp:287-290, JsonParser::peek *)
Definition peek : Reader Z := λ bs, match bs with [] => inl (Fail "unexpected end of input") | c :: _ => inr (c, bs) end.

(** The byte at the position, which moves past it. *)
Definition next_or (what : string) : Reader Z := λ bs, match bs with [] => inl (Fail what) | c :: bs => inr (c, bs) end.
Definition next : Reader Z := next_or "unexpected end of input".

(* include/lazily/json.hpp:292-295, JsonParser::expect *)
Definition expect (c : Z) : Reader () := c' ← next; if c' =? c then mret () else throw "unexpected character".

Fixpoint strip_prefix (word bs : list Z) : option (list Z) :=
  match word, bs with
  | [], _ => Some bs
  | c :: word, c' :: bs => if c =? c' then strip_prefix word bs else None
  | _ :: _, [] => None
  end.

(* include/lazily/json.hpp:297-302, JsonParser::literal *)
Definition literal (word : list Z) : Reader bool := λ bs,
  match strip_prefix word bs with Some rest => inr (true, rest) | None => inr (false, bs) end.

Definition is_digit (c : Z) : bool := (48 <=? c) && (c <=? 57).

Definition hex_digit (c : Z) : Reader Z :=
  if is_digit c then mret (c - 48)
  else if (97 <=? c) && (c <=? 102) then mret (c - 97 + 10)
  else if (65 <=? c) && (c <=? 70) then mret (c - 65 + 10)
  else throw "bad hex digit in a \u escape".

(** The four digits, already there. *)
Definition hex_value (a b c d : Z) : Reader Z :=
  a ← hex_digit a; b ← hex_digit b; c ← hex_digit c; d ← hex_digit d;
  mret (Z.lor (Z.shiftl (Z.lor (Z.shiftl (Z.lor (Z.shiftl a 4) b) 4) c) 4) d).

(* include/lazily/json.hpp:367-383, JsonParser::hex4 *)
Definition hex4 : Reader Z := λ bs,
  match bs with
  | a :: b :: c :: d :: rest => hex_value a b c d rest
  | _ => inl (Fail "truncated \u escape")
  end.

(* include/lazily/json.hpp:385-401, JsonParser::append_utf8 *)
Definition utf8 (cp : Z) : list Z :=
  if cp <? 128 then [cp]
  else if cp <? 2048 then [Z.lor 192 (Z.shiftr cp 6); Z.lor 128 (Z.land cp 63)]
  else if cp <? 65536 then
    [Z.lor 224 (Z.shiftr cp 12); Z.lor 128 (Z.land (Z.shiftr cp 6) 63); Z.lor 128 (Z.land cp 63)]
  else
    [Z.lor 240 (Z.shiftr cp 18); Z.lor 128 (Z.land (Z.shiftr cp 12) 63); Z.lor 128 (Z.land (Z.shiftr cp 6) 63);
     Z.lor 128 (Z.land cp 63)].

(** The low half of a surrogate pair, if one follows, completes the code point;
    otherwise the escape is left for later. *)
Definition low_half (cp : Z) : Reader (list Z) := λ bs,
  if (55296 <=? cp) && (cp <=? 56319) && (6 <=? length bs)%nat then
    match strip_prefix (bytes_of "\u") bs with
    | Some low4 =>
        match hex4 low4 with
        | inl e => inl e
        | inr (low, rest) =>
            if (56320 <=? low) && (low <=? 57343)
            then inr (utf8 (65536 + Z.shiftl (cp - 55296) 10 + (low - 56320)), rest)
            else inr (utf8 cp, bs)
        end
    | None => inr (utf8 cp, bs)
    end
  else inr (utf8 cp, bs).

(** A [\u] escape. *)
(* include/lazily/json.hpp:441-455, JsonParser::parse_string (code points) *)
Definition parse_code_point : Reader (list Z) := hex4 ≫= low_half.

(** What follows a backslash. *)
Definition parse_escape : Reader (list Z) :=
  esc ← next_or "unterminated escape";
  if esc =? 34 then mret [34]
  else if esc =? 92 then mret [92]
  else if esc =? 47 then mret [47]
  else if esc =? 98 then mret [8]
  else if esc =? 102 then mret [12]
  else if esc =? 110 then mret [10]
  else if esc =? 114 then mret [13]
  else if esc =? 116 then mret [9]
  else if esc =? 117 then parse_code_point
  else throw "unknown escape".

(** The characters up to the closing quote. *)
Fixpoint parse_chars (fuel : nat) : Reader (list Z) :=
  match fuel with
  | O => out_of_fuel
  | S fuel =>
      c ← next_or "unterminated string";
      if c =? 34 then mret []
      else
        piece ← (if c =? 92 then parse_escape else mret [c]);
        s ← parse_chars fuel; mret (piece ++ s)
  end.

(* include/lazily/json.hpp:403-460, JsonParser::parse_string *)
Definition parse_string : Reader (list Z) := expect 34;; looking (λ bs, parse_chars (S (length bs))).

(** [std::stoll]: an optional sign and the digits that follow; the value and
    how many bytes were read. *)
Inductive conversion := InvalidArgument | OutOfRange.

Fixpoint take_digits (bs : list Z) : list Z :=
  match bs with c :: bs => if is_digit c then c :: take_digits bs else [] | [] => [] end.

Definition decimal (ds : list Z) : Z := foldl (λ v d, 10 * v + (d - 48)) 0 ds.

Definition stoll (token : list Z) : conversion + (Z * nat) :=
  let sign := match token with c :: _ => if (c =? 45) || (c =? 43) then [c] else [] | [] => [] end in
  let ds := take_digits (drop (length sign) token) in
  if decide (ds = []) then inl InvalidArgument
  else
    let v := if decide (sign = [45]) then - decimal ds else decimal ds in
    if (i64_min <=? v) && (v <=? i64_max) then inr (v, length sign + length ds)%nat else inl OutOfRange.

(** The bytes of a number and whether it has a point or an exponent. *)
Fixpoint scan_number (bs : list Z) : list Z * bool :=
  match bs with
  | c :: bs =>
      if is_digit c then let '(t, f) := scan_number bs in (c :: t, f)
      else if (c =? 46) || (c =? 101) || (c =? 69) then let '(t, f) := scan_number bs in (c :: t, true)
      else if (c =? 43) || (c =? 45) then let '(t, f) := scan_number bs in (c :: t, f)
      else ([], false)
  | [] => ([], false)
  end.

Section parser.
  Context (stod : list Z → conversion + (D * nat)).

(* include/lazily/json.hpp:462-518, JsonParser::parse_number *)
Definition parse_number : Reader (JsonValue) := λ bs,
  let sign := match bs with c :: _ => if (c =? 45) || (c =? 43) then [c] else [] | [] => [] end in
  let '(scanned, floating) := scan_number (drop (length sign) bs) in
  let token := sign ++ scanned in
  let rest := drop (length token) bs in
  let report (e : conversion) : fault + (JsonValue * list Z) :=
    inl (Fail match e with
      | OutOfRange => "number is outside the range this decoder represents exactly"
      | InvalidArgument => "is not a number" end) in
  if decide (token = []) then inl (Fail "expected a value")
  else if floating : bool then
    match stod token with
    | inl e => report e
    | inr (v, consumed) => if (consumed =? length token)%nat then inr (JDouble v, rest) else inl (Fail "is not a number")
    end
  else
    match stoll token with
    | inl e => report e
    | inr (v, consumed) => if (consumed =? length token)%nat then inr (JInt v, rest) else inl (Fail "is not a number")
    end.

(** The loops of an object and of an array, given how a value is parsed. *)
(* include/lazily/json.hpp:335-346, JsonParser::parse_object (loop) *)
Fixpoint parse_members (fuel : nat) (value : Reader (JsonValue)) : Reader (list (list Z * JsonValue)) :=
  match fuel with
  | O => out_of_fuel
  | S fuel =>
      skip_ws;; key ← parse_string; skip_ws;; expect 58;;
      v ← value; skip_ws;; c ← next;
      if c =? 125 then mret [(key, v)]
      else if c =? 44 then (rest ← parse_members fuel value; mret ((key, v) :: rest))
      else throw "expected ',' or '}' in object"
  end.

(* include/lazily/json.hpp:357-364, JsonParser::parse_array (loop) *)
Fixpoint parse_elements (fuel : nat) (value : Reader (JsonValue)) : Reader (list (JsonValue)) :=
  match fuel with
  | O => out_of_fuel
  | S fuel =>
      v ← value; skip_ws;; c ← next;
      if c =? 93 then mret [v]
      else if c =? 44 then (rest ← parse_elements fuel value; mret (v :: rest))
      else throw "expected ',' or ']' in array"
  end.

(* include/lazily/json.hpp:327-347, JsonParser::parse_object *)
Definition parse_object (value : Reader (JsonValue)) : Reader (JsonValue) :=
  expect 123;; skip_ws;; c ← peek;
  if c =? 125 then (next;; mret (JObject []))
  else l ← looking (λ bs, parse_members (S (length bs)) value); mret (JObject l).

(* include/lazily/json.hpp:349-365, JsonParser::parse_array *)
Definition parse_array (value : Reader (JsonValue)) : Reader (JsonValue) :=
  expect 91;; skip_ws;; c ← peek;
  if c =? 93 then (next;; mret (JArray []))
  else l ← looking (λ bs, parse_elements (S (length bs)) value); mret (JArray l).

(* include/lazily/json.hpp:304-325, JsonParser::parse_value *)
Fixpoint parse_value (fuel : nat) : Reader (JsonValue) :=
  match fuel with
  | O => out_of_fuel
  | S fuel =>
      skip_ws;; c ← peek;
      if c =? 123 then parse_object (parse_value fuel)
      else if c =? 91 then parse_array (parse_value fuel)
      else if c =? 34 then (s ← parse_string; mret (JString s))
      else if c =? 116 then (b ← literal (bytes_of "true"); if (b : bool) then mret (JBool true) else throw "malformed literal")
      else if c =? 102 then (b ← literal (bytes_of "false"); if (b : bool) then mret (JBool false) else throw "malformed literal")
      else if c =? 110 then (b ← literal (bytes_of "null"); if (b : bool) then mret JNull else throw "malformed literal")
      else parse_number
  end.

(* include/lazily/json.hpp:262-267, JsonParser::parse_document *)
Definition parse_document (fuel : nat) : Reader (JsonValue) :=
  v ← parse_value fuel; skip_ws;;
  bs ← looking mret; if decide (bs = []) then mret v else throw "trailing bytes after the top-level value".

(* include/lazily/json.hpp:523-525, json_parse *)
Definition json_parse (text : list Z) : fault + JsonValue :=
  match parse_document (S (length text)) text with inl e => inl e | inr (v, _) => inr v end.

(** ** Every parse ends *)

Lemma skip_ws_length bs : (length (skip_ws_from bs) ≤ length bs)%nat.
Proof. induction bs as [|c bs IH]; simpl; [lia|]. case_match; simpl; lia. Qed.

Lemma skip_ws_ends bs : consumes 0 skip_ws bs.
Proof. unfold consumes. simpl. pose proof (skip_ws_length bs). lia. Qed.

Lemma next_ends what bs : consumes 1 (next_or what) bs.
Proof. destruct bs; unfold consumes; simpl; [done|lia]. Qed.

Lemma peek_ends bs : consumes 0 peek bs.
Proof. destruct bs; unfold consumes; simpl; [done|lia]. Qed.

Lemma expect_ends c bs : consumes 1 (expect c) bs.
Proof. apply (consumes_bind 1 0); [apply next_ends|]. intros c' rest _. case_match; [apply consumes_ret|done]. Qed.

Lemma strip_prefix_length word : ∀ bs rest, strip_prefix word bs = Some rest → (length rest + length word)%nat = length bs.
Proof.
  induction word as [|c word IH]; intros [|c' bs] rest; simpl; try done; try (intros [= <-]; simpl; lia).
  destruct (c =? c'); [|done]. intros E%IH. lia.
Qed.

Lemma literal_ends word (v : JsonValue) bs : word ≠ [] →
  consumes 1 (b ← literal word; if (b : bool) then mret v else throw "malformed literal") bs.
Proof.
  intros Hw. unfold consumes, mbind, reader_bind, literal. destruct (strip_prefix word bs) as [rest|] eqn:E; simpl; [|done].
  apply strip_prefix_length in E. destruct word; [done|]. simpl in E. lia.
Qed.

Lemma hex_digit_ends c bs : consumes 0 (hex_digit c) bs.
Proof. unfold hex_digit. repeat case_match; first [done|apply consumes_ret]. Qed.

Lemma hex4_ends bs : consumes 4 hex4 bs.
Proof.
  destruct bs as [|a [|b [|c [|d rest]]]]; try done. unfold hex4, consumes. cbn [length].
  assert (Hr : consumes 0 (hex_value a b c d) rest).
  { repeat (apply (consumes_bind 0 0); [apply hex_digit_ends|intros]). apply consumes_ret. }
  unfold consumes in Hr. destruct (hex_value a b c d rest) as [[?|]|[? ?]]; [done..|]. lia.
Qed.

Lemma low_half_ends cp bs : consumes 0 (low_half cp) bs.
Proof.
  unfold consumes, low_half. destruct (_ && _ && _); [|lia].
  destruct (strip_prefix _ bs) as [low4|] eqn:E; [|lia]. apply strip_prefix_length in E.
  change (length (bytes_of "\u")) with 2%nat in E.
  pose proof (hex4_ends low4) as Hh. unfold consumes in Hh. destruct (hex4 low4) as [[?|]|[low rest]]; [done..|].
  destruct ((56320 <=? low) && _); lia.
Qed.

Lemma escape_ends bs : consumes 1 parse_escape bs.
Proof.
  apply (consumes_bind 1 0); [apply next_ends|]. intros c rest _. repeat case_match; try apply consumes_ret; [|done].
  apply (consumes_bind 0 0); [eapply consumes_weaken, hex4_ends; lia|intros; apply low_half_ends].
Qed.

Lemma chars_end fuel : ∀ bs, (length bs < fuel)%nat → consumes 1 (parse_chars fuel) bs.
Proof.
  induction fuel as [|fuel IH]; intros bs Hf; [lia|]. apply (consumes_bind 1 0); [apply next_ends|]. intros c rest Hr.
  case_match; [apply consumes_ret|]. apply (consumes_bind 0 0).
  - case_match; [eapply consumes_weaken, escape_ends; lia|apply consumes_ret].
  - intros piece rest' Hr'. apply (consumes_bind 0 0); [eapply consumes_weaken, IH; lia|]. intros. apply consumes_ret.
Qed.

Lemma string_ends bs : consumes 1 parse_string bs.
Proof.
  apply (consumes_bind 1 0); [apply expect_ends|]. intros _ rest _. unfold consumes, looking.
  pose proof (chars_end (S (length rest)) rest ltac:(lia)) as Hc. eapply consumes_weaken, Hc. lia.
Qed.

Lemma scan_number_length bs : (length (scan_number bs).1 ≤ length bs)%nat.
Proof. induction bs as [|c bs IH]; simpl; [lia|]. repeat case_match; simpl in *; lia. Qed.

Lemma number_ends bs : consumes 1 parse_number bs.
Proof.
  unfold consumes, parse_number.
  set (sign := match bs with c :: _ => if (c =? 45) || (c =? 43) then [c] else [] | [] => [] end).
  assert (Hs : (length sign ≤ length bs)%nat) by (unfold sign; destruct bs; simpl; [lia|case_match; simpl; lia]).
  pose proof (scan_number_length (drop (length sign) bs)) as Hl. rewrite length_drop in Hl.
  destruct (scan_number _) as [scanned f]. simpl in Hl. destruct (decide (sign ++ scanned = [])) as [|Hne]; [done|].
  assert (1 ≤ length (sign ++ scanned))%nat by (destruct (sign ++ scanned); [done|simpl; lia]).
  assert (length (drop (length (sign ++ scanned)) bs) + 1 ≤ length bs)%nat by (rewrite length_drop, length_app in *; lia).
  repeat case_match; try done; simplify_eq; done.
Qed.

Lemma members_end value fuel : ∀ bs, (length bs < fuel)%nat → (∀ rest, (length rest < length bs)%nat → consumes 0 value rest) →
  consumes 0 (parse_members fuel value) bs.
Proof.
  induction fuel as [|fuel IH]; intros bs Hf Hv; [lia|]. cbn [parse_members].
  apply (consumes_bind 0 0); [apply skip_ws_ends|intros _ r1 H1]. apply (consumes_weaken 0 1); [lia|].
  apply (consumes_bind 1 0); [apply string_ends|intros key r2 H2].
  apply (consumes_bind 0 0); [apply skip_ws_ends|intros _ r3 H3].
  apply (consumes_bind 0 0); [eapply consumes_weaken, expect_ends; lia|intros _ r4 H4].
  apply (consumes_bind 0 0); [apply Hv; lia|intros v r5 H5].
  apply (consumes_bind 0 0); [apply skip_ws_ends|intros _ r6 H6].
  apply (consumes_bind 0 0); [eapply consumes_weaken, next_ends; lia|intros c r7 H7].
  repeat case_match; [apply consumes_ret| |done].
  apply (consumes_bind 0 0); [|intros; apply consumes_ret]. apply IH; [lia|]. intros rest Hr. apply Hv. lia.
Qed.

Lemma elements_end value fuel : ∀ bs, (length bs < fuel)%nat → (∀ rest, (length rest ≤ length bs)%nat → consumes 1 value rest) →
  consumes 0 (parse_elements fuel value) bs.
Proof.
  induction fuel as [|fuel IH]; intros bs Hf Hv; [lia|]. cbn [parse_elements]. apply (consumes_weaken 0 1); [lia|].
  apply (consumes_bind 1 0); [apply Hv; lia|intros v r1 H1].
  apply (consumes_bind 0 0); [apply skip_ws_ends|intros _ r2 H2].
  apply (consumes_bind 0 0); [eapply consumes_weaken, next_ends; lia|intros c r3 H3].
  repeat case_match; [apply consumes_ret| |done].
  apply (consumes_bind 0 0); [|intros; apply consumes_ret]. apply IH; [lia|]. intros rest Hr. apply Hv. lia.
Qed.

Lemma value_ends fuel : ∀ bs, (length bs < fuel)%nat → consumes 1 (parse_value fuel) bs.
Proof.
  induction fuel as [|fuel IH]; intros bs Hf; [lia|]. cbn [parse_value].
  apply (consumes_bind 0 1); [apply skip_ws_ends|intros _ r1 H1]. apply (consumes_bind 0 1); [apply peek_ends|intros c r2 H2].
  destruct (c =? 123); [|destruct (c =? 91); [|destruct (c =? 34); [|destruct (c =? 116); [|destruct (c =? 102); [|destruct (c =? 110)]]]]].
  - unfold parse_object. apply (consumes_bind 1 0); [apply expect_ends|intros _ r3 H3].
    apply (consumes_bind 0 0); [apply skip_ws_ends|intros _ r4 H4]. apply (consumes_bind 0 0); [apply peek_ends|intros c' r5 H5].
    case_match; [apply (consumes_bind 0 0); [eapply consumes_weaken, next_ends; lia|intros; apply consumes_ret]|].
    apply (consumes_bind 0 0); [|intros; apply consumes_ret]. apply members_end; [lia|]. intros rest Hr.
    eapply consumes_weaken, IH; lia.
  - unfold parse_array. apply (consumes_bind 1 0); [apply expect_ends|intros _ r3 H3].
    apply (consumes_bind 0 0); [apply skip_ws_ends|intros _ r4 H4]. apply (consumes_bind 0 0); [apply peek_ends|intros c' r5 H5].
    case_match; [apply (consumes_bind 0 0); [eapply consumes_weaken, next_ends; lia|intros; apply consumes_ret]|].
    apply (consumes_bind 0 0); [|intros; apply consumes_ret]. apply elements_end; [lia|]. intros rest Hr. apply IH; lia.
  - apply (consumes_bind 1 0); [apply string_ends|intros; apply consumes_ret].
  - by apply literal_ends.
  - by apply literal_ends.
  - by apply literal_ends.
  - apply number_ends.
Qed.

(** ** What is written is parsed back *)

Context (print_double : D → list Z).

(** The values of a frame: integers in range, strings of bytes, no doubles. *)
Fixpoint wire_json (v : JsonValue) : Prop :=
  match v with
  | JDouble _ => False
  | JInt z => is_i64 z
  | JString s => Forall is_byte s
  | JArray l => foldr (λ v P, wire_json v ∧ P) True l
  | JObject l => foldr (λ '(k, v) P, (Forall is_byte k ∧ wire_json v) ∧ P) True l
  | JNull | JBool _ => True
  end.

Lemma escape_reads c fuel rest : is_byte c →
  parse_chars (S fuel) (escape c ++ rest) = (s ← parse_chars fuel; mret (c :: s)) rest.
Proof.
  intros Hc. unfold escape.
  destruct (Z.eqb_spec c 34) as [->|]; [done|]. destruct (Z.eqb_spec c 92) as [->|]; [done|].
  destruct (Z.eqb_spec c 10) as [->|]; [done|]. destruct (Z.eqb_spec c 13) as [->|]; [done|].
  destruct (Z.eqb_spec c 9) as [->|]; [done|]. destruct (Z.eqb_spec c 8) as [->|]; [done|].
  destruct (Z.eqb_spec c 12) as [->|]; [done|]. destruct (Z.ltb_spec c 32) as [Hlt|Hge].
  - assert (Hin : c ∈ seqZ 0 32) by (apply elem_of_seqZ; unfold is_byte in Hc; lia).
    set (l := seqZ 0 32) in Hin. vm_compute in l. subst l.
    repeat (apply elem_of_cons in Hin as [->|Hin]; [done|]). by apply elem_of_nil in Hin.
  - cbn [app parse_chars]. unfold next_or at 1. unfold mbind at 1, reader_bind at 1.
    destruct (Z.eqb_spec c 34); [done|]. destruct (Z.eqb_spec c 92); [done|]. done.
Qed.

Lemma chars_read s : Forall is_byte s → ∀ fuel rest, (length s < fuel)%nat →
  parse_chars fuel ((s ≫= escape) ++ 34 :: rest) = inr (s, rest).
Proof.
  induction 1 as [|c s Hc Hs IH]; intros [|fuel] rest Hf; simpl in Hf; try lia; [done|].
  change ((c :: s) ≫= escape) with (escape c ++ (s ≫= escape)). rewrite <- app_assoc, escape_reads by done.
  rewrite (bind_inr _ _ _ s rest); [done|]. apply IH. lia.
Qed.

Lemma escape_length c : (1 ≤ length (escape c))%nat.
Proof. unfold escape. repeat case_match; simpl; lia. Qed.

Lemma escapes_length s : (length s ≤ length (s ≫= escape))%nat.
Proof.
  induction s as [|c s IH]; [done|]. change ((c :: s) ≫= escape) with (escape c ++ (s ≫= escape)).
  rewrite length_app. pose proof (escape_length c). cbn [length]. lia.
Qed.

Lemma string_reads s : Forall is_byte s → reads parse_string (json_write_string s) s.
Proof.
  intros Hs rest. unfold json_write_string. cbn [app]. rewrite <- app_assoc. cbn [app]. unfold parse_string.
  rewrite (bind_inr _ _ _ () ((s ≫= escape) ++ 34 :: rest)) by done. unfold looking. apply chars_read; [done|].
  rewrite length_app. pose proof (escapes_length s). lia.
Qed.

(** The bytes after a number end it. *)
Definition stops (rest : list Z) : Prop := scan_number rest = ([], false).

Lemma digits_ok fuel : ∀ z, 0 ≤ z < 10 ^ Z.of_nat fuel →
  Forall (λ c, is_digit c = true) (digits fuel z) ∧ decimal (digits fuel z) = z ∧ (fuel ≠ O → digits fuel z ≠ []).
Proof.
  induction fuel as [|fuel IH]; intros z Hz; [change (10 ^ Z.of_nat 0) with 1 in Hz; split_and!; [constructor|unfold decimal; simpl; lia|done]|].
  assert (Hd : ∀ d, 0 ≤ d < 10 → is_digit (48 + d) = true) by (intros d Hd; unfold is_digit; destruct (Z.leb_spec 48 (48 + d)), (Z.leb_spec (48 + d) 57); try done; lia).
  cbn [digits]. destruct (Z.ltb_spec z 10) as [Hlt|Hge].
  - split_and!; [by repeat constructor; apply Hd; lia|unfold decimal; simpl; lia|done].
  - replace (Z.of_nat (S fuel)) with (Z.of_nat fuel + 1) in Hz by lia. rewrite Z.pow_add_r, Z.pow_1_r in Hz by lia.
    destruct (IH (z / 10)) as (Hf & Hv & _); [split; [apply Z.div_pos; lia|apply Z.div_lt_upper_bound; lia]|].
    pose proof (Z.mod_pos_bound z 10 ltac:(lia)) as Hm. split_and!.
    + apply Forall_app. split; [done|]. repeat constructor. by apply Hd.
    + unfold decimal in *. rewrite foldl_app. simpl. rewrite Hv. pose proof (Z.div_mod z 10). lia.
    + intros _ E. by apply app_nil in E as [_ ?].
Qed.

Lemma scan_digits ds rest : Forall (λ c, is_digit c = true) ds → stops rest → scan_number (ds ++ rest) = (ds, false).
Proof. intros Hd Hr. induction Hd as [|d ds Hd Hds IH]; [done|]. simpl. by rewrite Hd, IH. Qed.

Lemma take_all_digits ds : Forall (λ c, is_digit c = true) ds → take_digits ds = ds.
Proof. induction 1 as [|d ds Hd Hds IH]; [done|]. simpl. by rewrite Hd, IH. Qed.

Lemma number_reads z rest : is_i64 z → stops rest → parse_number (to_string z ++ rest) = inr (JInt z, rest).
Proof.
  intros Hz Hr. unfold is_i64, i64_min, i64_max in Hz.
  assert (Hok : ∀ m, 0 ≤ m ≤ 9223372036854775808 → Forall (λ c, is_digit c = true) (digits 20 m) ∧ decimal (digits 20 m) = m ∧ digits 20 m ≠ []).
  { intros m Hm. destruct (digits_ok 20 m) as (? & ? & Hne); [change (10 ^ Z.of_nat 20) with 100000000000000000000; lia|]. auto. }
  assert (Hrange : (i64_min <=? z) && (z <=? i64_max) = true) by (unfold i64_min, i64_max; lia).
  unfold parse_number, to_string. destruct (Z.ltb_spec z 0) as [Hneg|Hpos].
  - destruct (Hok (- z) ltac:(lia)) as (Hd & Hv & Hne). revert Hd Hv Hne. generalize (digits 20 (- z)). intros ds Hd Hv Hne. cbn [app Z.eqb Pos.eqb orb length drop].
    rewrite drop_0, (scan_digits _ _ Hd Hr). cbn [app]. rewrite decide_False by done.
    unfold stoll. cbn [Z.eqb Pos.eqb orb length drop]. rewrite drop_0, (take_all_digits _ Hd), decide_False, decide_True, Hv by done.
    rewrite Z.opp_involutive, Hrange. simpl. rewrite Nat.eqb_refl. by rewrite drop_app_length.
  - destruct (Hok z ltac:(lia)) as (Hd & Hv & Hne). revert Hd Hv Hne. generalize (digits 20 z). intros ds Hd Hv Hne.
    assert (Hsign : ∀ t, match ds ++ t with c :: _ => if (c =? 45) || (c =? 43) then [c] else [] | [] => [] end = []).
    { intros t. destruct ds as [|d ds]; [done|]. apply Forall_cons in Hd as [Hd _]. unfold is_digit in Hd. simpl.
      destruct (Z.eqb_spec d 45); [lia|]. by destruct (Z.eqb_spec d 43); [lia|]. }
    rewrite Hsign. cbn [length drop app]. rewrite drop_0, (scan_digits _ _ Hd Hr). cbn [app]. rewrite decide_False by done.
    unfold stoll. pose proof (Hsign []) as Hs. rewrite app_nil_r in Hs. rewrite Hs. cbn [length drop]. rewrite drop_0, (take_all_digits _ Hd).
    rewrite decide_False by done. rewrite decide_False, Hv, Hrange by done. rewrite Nat.add_0_l, Nat.eqb_refl. by rewrite drop_app_length.
Qed.

Lemma json_nested_ind (P : JsonValue → Prop) :
  P JNull → (∀ b, P (JBool b)) → (∀ z, P (JInt z)) → (∀ d, P (JDouble d)) → (∀ s, P (JString s)) →
  (∀ l, Forall P l → P (JArray l)) → (∀ l, Forall (λ kv, P kv.2) l → P (JObject l)) → ∀ v, P v.
Proof.
  intros Hn Hb Hz Hd Hs Ha Ho. fix IH 1. intros [|b|z|d|s|l|l]; [done|apply Hb|apply Hz|apply Hd|apply Hs|apply Ha|apply Ho].
  - induction l as [|v l IHl]; constructor; [apply IH|exact IHl].
  - induction l as [|[k v] l IHl]; constructor; [apply IH|exact IHl].
Qed.

Lemma wire_array l : wire_json (JArray l) ↔ Forall wire_json l.
Proof. simpl. induction l as [|v l IH]; simpl; rewrite ?Forall_nil, ?Forall_cons; [done|by rewrite IH]. Qed.

Lemma wire_object l : wire_json (JObject l) ↔ Forall (λ kv, Forall is_byte kv.1 ∧ wire_json kv.2) l.
Proof. simpl. induction l as [|[k v] l IH]; simpl; rewrite ?Forall_nil, ?Forall_cons; [done|by rewrite IH]. Qed.

Notation write := (json_write print_double).
Notation write_member := (λ '(k, v), json_write_string k ++ 58 :: write v).

Lemma to_string_head z c t : is_i64 z → to_string z = c :: t → c = 45 ∨ is_digit c = true.
Proof.
  unfold to_string, is_i64, i64_max. intros Hz. destruct (Z.ltb_spec z 0).
  - generalize (digits 20 (- z)). intros ds [= <- _]. by left.
  - destruct (digits_ok 20 z) as (Hd & _ & _); [change (10 ^ Z.of_nat 20) with 100000000000000000000; lia|].
    intros E. rewrite E in Hd. apply Forall_cons in Hd as [? _]. by right.
Qed.

(** What a written value starts with: no white space, no end of an array. *)
Lemma write_head v : wire_json v →
  ∃ c t, write v = c :: t ∧ (c =? 32) || (c =? 9) || (c =? 10) || (c =? 13) = false ∧ (c =? 93) = false.
Proof.
  destruct v as [|b|z|d|s|l|l]; intros Hw; try done; try (eexists _, _; split; [reflexivity|done]).
  - destruct b; eexists _, _; (split; [reflexivity|done]).
  - simpl. unfold to_string. destruct (Z.ltb_spec z 0) as [|Hpos]; [eexists _, _; split; [reflexivity|done]|].
    unfold wire_json, is_i64, i64_max in Hw. destruct (digits_ok 20 z) as (Hd & _ & Hne).
    { change (10 ^ Z.of_nat 20) with 100000000000000000000. lia. }
    destruct (digits 20 z) as [|c t]; [by destruct Hne|]. exists c, t. split; [done|].
    apply Forall_cons in Hd as [Hd _]. unfold is_digit in Hd. split; lia.
Qed.

Lemma skip_head c t : (c =? 32) || (c =? 9) || (c =? 10) || (c =? 13) = false → skip_ws (c :: t) = inr ((), c :: t).
Proof. intros E. unfold skip_ws. simpl. by rewrite E. Qed.

Lemma peek_head c t : peek (c :: t) = inr (c, c :: t).
Proof. done. Qed.

Lemma commas_cons x (l : list (list Z)) : commas (x :: l) = x ++ match l with [] => [] | _ => 44 :: commas l end.
Proof. destruct l; simpl; [by rewrite app_nil_r|done]. Qed.

Lemma commas_length (l : list (list Z)) : Forall (λ x, x ≠ []) l → (length l ≤ length (commas l))%nat.
Proof.
  induction 1 as [|x l Hx Hl IH]; [simpl; lia|]. rewrite commas_cons, length_app. destruct x; [done|]. destruct l; simpl in *; lia.
Qed.

Lemma members_read value l : l ≠ [] →
  Forall (λ kv, Forall is_byte kv.1 ∧ ∀ rest, stops rest → value (write kv.2 ++ rest) = inr (kv.2, rest)) l →
  ∀ fuel rest, (length l ≤ fuel)%nat →
    parse_members fuel value (commas (map write_member l) ++ 125 :: rest) = inr (l, rest).
Proof.
  intros Hne Hl. induction Hl as [|[k v] l [Hk Hv] Hl IH]; [done|]. intros [|fuel] rest Hf; simpl in Hf; [lia|].
  cbn [map]. rewrite commas_cons, <- !app_assoc. cbn [app parse_members].
  assert (Hs : ∀ t, skip_ws (json_write_string k ++ t) = inr ((), json_write_string k ++ t)) by (intros t; by apply skip_head).
  rewrite (bind_inr _ _ _ _ _ (Hs _)), (bind_inr _ _ _ _ _ (string_reads k Hk _)).
  rewrite (bind_inr _ _ _ _ _ (skip_head 58 _ eq_refl)), (bind_inr _ _ (58 :: _) () _ eq_refl).
  destruct l as [|kv l].
  - cbn [app]. rewrite (bind_inr _ _ _ _ _ (Hv (125 :: rest) eq_refl)). by rewrite (bind_inr _ _ _ _ _ (skip_head 125 _ eq_refl)).
  - cbn [map app]. rewrite (bind_inr _ _ _ _ _ (Hv (44 :: _) eq_refl)), (bind_inr _ _ _ _ _ (skip_head 44 _ eq_refl)).
    rewrite (bind_inr next _ (44 :: _) 44 _ eq_refl). cbn [Z.eqb Pos.eqb].
    by rewrite (bind_inr _ _ _ (kv :: l) rest) by (apply IH; [done|lia]).
Qed.

Lemma elements_read value l : l ≠ [] →
  Forall (λ v, ∀ rest, stops rest → value (write v ++ rest) = inr (v, rest)) l →
  ∀ fuel rest, (length l ≤ fuel)%nat →
    parse_elements fuel value (commas (map write l) ++ 93 :: rest) = inr (l, rest).
Proof.
  intros Hne Hl. induction Hl as [|v l Hv Hl IH]; [done|]. intros [|fuel] rest Hf; simpl in Hf; [lia|].
  cbn [map]. rewrite commas_cons, <- !app_assoc. cbn [parse_elements].
  destruct l as [|w l].
  - cbn [app]. rewrite (bind_inr _ _ _ _ _ (Hv (93 :: rest) eq_refl)). by rewrite (bind_inr _ _ _ _ _ (skip_head 93 _ eq_refl)).
  - cbn [map app]. rewrite (bind_inr _ _ _ _ _ (Hv (44 :: _) eq_refl)), (bind_inr _ _ _ _ _ (skip_head 44 _ eq_refl)).
    rewrite (bind_inr next _ (44 :: _) 44 _ eq_refl). cbn [Z.eqb Pos.eqb].
    by rewrite (bind_inr _ _ _ (w :: l) rest) by (apply IH; [done|lia]).
Qed.

Lemma write_part v l : v ∈ l → (length (write v) ≤ length (commas (map write l)))%nat.
Proof.
  induction 1 as [v l|v w l Hv IH]; cbn [map]; rewrite commas_cons, length_app; [lia|]. destruct l; [by apply elem_of_nil in Hv|].
  simpl in *. lia.
Qed.

Lemma write_member_part kv l : kv ∈ l → (length (write kv.2) ≤ length (commas (map write_member l)))%nat.
Proof.
  induction 1 as [[k v] l|[k v] w l Hv IH]; cbn [map]; rewrite commas_cons, length_app.
  - simpl. rewrite !length_app. simpl. lia.
  - destruct l; [by apply elem_of_nil in Hv|]. simpl in *. lia.
Qed.

Lemma value_reads v : wire_json v → ∀ fuel rest, (length (write v) ≤ fuel)%nat → stops rest →
  parse_value fuel (write v ++ rest) = inr (v, rest).
Proof.
  induction v as [|b|z|d|s|l IH|l IH] using json_nested_ind; intros Hw fuel rest Hf Hr; try done.
  - destruct fuel as [|fuel]; [simpl in Hf; lia|]. done.
  - destruct fuel as [|fuel]; [destruct b; simpl in Hf; lia|]. by destruct b.
  - destruct (write_head (JInt z) Hw) as (c & t & E & Hc & _). cbn [json_write] in *.
    destruct fuel as [|fuel]; [rewrite E in Hf; simpl in Hf; lia|]. cbn [parse_value].
    assert (Hs : skip_ws (to_string z ++ rest) = inr ((), to_string z ++ rest)) by (rewrite E; by apply skip_head).
    rewrite (bind_inr _ _ _ _ _ Hs). assert (Hp : peek (to_string z ++ rest) = inr (c, to_string z ++ rest)) by (by rewrite E).
    rewrite (bind_inr _ _ _ _ _ Hp).
    assert (Hd : c = 45 ∨ is_digit c = true).
    { by apply (to_string_head z c t). }
    assert (Hn : (c =? 123) = false ∧ (c =? 91) = false ∧ (c =? 34) = false ∧ (c =? 116) = false ∧ (c =? 102) = false ∧ (c =? 110) = false).
    { destruct Hd as [->|Hd]; [done|]. unfold is_digit in Hd. split_and!; lia. }
    destruct Hn as (-> & -> & -> & -> & -> & ->). by apply number_reads.
  - destruct fuel as [|fuel]; [simpl in Hf; lia|]. cbn [parse_value json_write].
    assert (Hs : skip_ws (json_write_string s ++ rest) = inr ((), json_write_string s ++ rest)) by (by apply skip_head).
    assert (Hp : peek (json_write_string s ++ rest) = inr (34, json_write_string s ++ rest)) by done.
    rewrite (bind_inr _ _ _ _ _ Hs), (bind_inr _ _ _ _ _ Hp). cbn [Z.eqb Pos.eqb].
    by rewrite (bind_inr _ _ _ _ _ (string_reads s Hw rest)).
  - apply wire_array in Hw. cbn [json_write] in *. destruct fuel as [|fuel]; [simpl in Hf; lia|]. cbn [parse_value app].
    rewrite (bind_inr _ _ _ _ _ (skip_head 91 _ eq_refl)), (bind_inr _ _ _ _ _ (peek_head 91 _)). cbn [Z.eqb Pos.eqb].
    unfold parse_array. rewrite (bind_inr _ _ (91 :: _) () _ eq_refl). destruct l as [|v l]; [done|].
    rewrite length_app in Hf. simpl length in Hf at 1. rewrite length_app in Hf. simpl length in Hf at 2.
    rewrite <- app_assoc. cbn [app]. set (bs := commas (map write (v :: l)) ++ 93 :: rest).
    assert (Hhd : ∃ c t, bs = c :: t ∧ (c =? 32) || (c =? 9) || (c =? 10) || (c =? 13) = false ∧ (c =? 93) = false).
    { apply Forall_cons in Hw as [Hv _]. destruct (write_head v Hv) as (c & t & E & ? & ?). unfold bs. cbn [map].
      rewrite commas_cons, E. eexists _, _. split; [reflexivity|done]. }
    destruct Hhd as (c & t & E & Hc & Hc93). rewrite E at 1. rewrite (bind_inr _ _ _ _ _ (skip_head c t Hc)), (bind_inr _ _ _ _ _ (peek_head c _)), Hc93.
    rewrite <- E. rewrite (bind_inr _ _ _ (v :: l) rest); [done|]. unfold looking, bs. apply elements_read; [done| |].
    + rewrite Forall_forall in IH, Hw |- *. intros w Hin rest' Hr'. apply IH; [done|by apply Hw| |done].
      pose proof (write_part w (v :: l) Hin). lia.
    + rewrite length_app. pose proof (commas_length (map write (v :: l))) as Hcl. rewrite length_map in Hcl.
      assert (Hne : Forall (λ x, x ≠ []) (map write (v :: l))); [|specialize (Hcl Hne); lia].
      apply Forall_map. eapply Forall_impl; [exact Hw|]. intros w Hww. destruct (write_head w Hww) as (? & ? & -> & _). done.
  - apply wire_object in Hw. cbn [json_write] in *. destruct fuel as [|fuel]; [simpl in Hf; lia|]. cbn [parse_value app].
    rewrite (bind_inr _ _ _ _ _ (skip_head 123 _ eq_refl)), (bind_inr _ _ _ _ _ (peek_head 123 _)). cbn [Z.eqb Pos.eqb].
    unfold parse_object. rewrite (bind_inr _ _ (123 :: _) () _ eq_refl). destruct l as [|[k v] l]; [done|].
    rewrite length_app in Hf. simpl length in Hf at 1. rewrite length_app in Hf. simpl length in Hf at 2.
    rewrite <- app_assoc. cbn [app]. set (bs := commas (map write_member ((k, v) :: l)) ++ 125 :: rest).
    assert (Hhd : ∃ t, bs = 34 :: t) by (unfold bs; cbn [map]; rewrite commas_cons; by eexists).
    destruct Hhd as (t & E). rewrite E at 1. rewrite (bind_inr _ _ _ _ _ (skip_head 34 t eq_refl)), (bind_inr _ _ _ _ _ (peek_head 34 _)).
    cbn [Z.eqb Pos.eqb]. rewrite <- E. rewrite (bind_inr _ _ _ ((k, v) :: l) rest); [done|]. unfold looking, bs. apply members_read; [done| |].
    + rewrite Forall_forall in IH, Hw |- *. intros kv Hin. split; [by apply Hw|]. intros rest' Hr'. apply IH; [done|by apply Hw| |done].
      pose proof (write_member_part kv ((k, v) :: l) Hin). lia.
    + rewrite length_app. pose proof (commas_length (map write_member ((k, v) :: l))) as Hcl. rewrite length_map in Hcl.
      assert (Hne : Forall (λ x, x ≠ []) (map write_member ((k, v) :: l))); [|specialize (Hcl Hne); lia].
      apply Forall_map, Forall_forall. by intros [k' v'] _.
Qed.

End parser.
End json.

Arguments JsonValue : clear implicits.

Lemma written_parses {D : Type} (stod : list Z → conversion + (D * nat)) (print_double : D → list Z) (v : JsonValue D) :
  wire_json v → json_parse stod (json_write print_double v) = inr v.
Proof.
  intros Hw. unfold json_parse, parse_document.
  pose proof (value_reads stod print_double v Hw (S (length (json_write print_double v))) [] ltac:(lia) eq_refl) as E.
  rewrite app_nil_r in E. by rewrite (bind_inr _ _ _ _ _ E).
Qed.

(** What the writer writes the parser reads back.  Every value without doubles,
    whose integers are 64-bit and whose strings are any bytes, control
    characters, quotes and bytes above 127 included, and however deep it is
    nested, is the value [json_parse] finds in the text [json_write] gives it. *)
Theorem json_roundtrip {D : Type} (stod : list Z → conversion + (D * nat)) (print_double : D → list Z) (v : JsonValue D) :
  wire_json v → json_parse stod (json_write print_double v) = inr v.
Proof. apply written_parses. Qed.

(** The parser never runs out of turns. *)
Lemma json_parse_turns {D : Type} (stod : list Z → conversion + (D * nat)) (text : list Z) :
  json_parse stod text ≠ inl NoFuel.
Proof.
  assert (Hc : consumes 0 (parse_document stod (S (length text))) text).
  { apply (consumes_weaken 0 1); [lia|]. apply (consumes_bind 1 0); [apply value_ends; lia|intros v r1 H1].
    apply (consumes_bind 0 0); [apply skip_ws_ends|intros _ r2 H2]. unfold consumes, looking, mbind, reader_bind, mret, reader_ret.
    case_decide; [simpl; lia|done]. }
  unfold json_parse. unfold consumes in Hc. by destruct (parse_document _ _ text) as [[?|]|[? ?]].
Qed.

(** A frame with nested members, every kind of escape and the least integer. *)
Definition sample : JsonValue Empty_set :=
  JObject [(bytes_of "a", JArray [JInt (-9223372036854775808); JBool true; JNull; JString [10; 34; 92; 1; 200]; JArray []]);
    ([], JObject [])].

Lemma json_roundtrip_witness :
  wire_json sample ∧
  json_parse (λ _, inl InvalidArgument) (json_write (λ d : Empty_set, match d with end) sample) = inr sample.
Proof.
  assert (Hw : wire_json sample) by (repeat first [split | constructor | done]).
  split; [exact Hw|]. exact (json_roundtrip (λ _, inl InvalidArgument) (λ d : Empty_set, match d with end) sample Hw).
Defined.

(** A double without a fraction is printed without a point, and parsed as an
    integer. *)
Example whole_double_becomes_int (stod : list Z → conversion + (nat * nat)) :
  json_parse stod (json_write (λ _, bytes_of "3") (JDouble 3%nat)) = inr (JInt 3).
Proof. reflexivity. Qed.
