(* ===== verification/Msgpack.v ===== *)
(** * MessagePack: the packer, the unpacker and the frame bridge

    Models include/lazily/msgpack.hpp and the bridge between documents and
    MessagePack of msgpack_codec.hpp.  Packing appends bytes, so each call is
    the bytes it appends; the unpacker is a reader over the bytes left.  A
    [uint64_t] cast to a narrower type keeps the low bits. *)
From Stdlib Require Import String.
From S2P Require Import Prelude Bytes Json.
#[local] Open Scope Z_scope.

(** ** The packer *)

(* include/lazily/msgpack.hpp:131-131, MsgPacker::push_u8 *)
Definition push_u8 (v : Z) : list Z := [Z.land v 255].
(* include/lazily/msgpack.hpp:132-135, MsgPacker::push_u16 *)
Definition push_u16 (v : Z) : list Z := [Z.land (Z.shiftr v 8) 255; Z.land v 255].
(* include/lazily/msgpack.hpp:136-139, MsgPacker::push_u32 *)
Definition push_u32 (v : Z) : list Z := (λ shift, Z.land (Z.shiftr v shift) 255) <$> [24; 16; 8; 0].
(* include/lazily/msgpack.hpp:140-143, MsgPacker::push_u64 *)
Definition push_u64 (v : Z) : list Z := (λ shift, Z.land (Z.shiftr v shift) 255) <$> [56; 48; 40; 32; 24; 16; 8; 0].

(* include/lazily/msgpack.hpp:34-34, MsgPacker::nil *)
Definition pack_nil : list Z := [192].
(* include/lazily/msgpack.hpp:35-35, MsgPacker::boolean *)
Definition pack_boolean (v : bool) : list Z := [if v then 195 else 194].

(* include/lazily/msgpack.hpp:37-72, MsgPacker::i64 *)
Definition pack_i64 (v : Z) : list Z :=
  let u := u64 v in
  if 0 <=? v then
    if u <=? 127 then [u]
    else if u <=? 255 then 204 :: push_u8 u
    else if u <=? 65535 then 205 :: push_u16 u
    else if u <=? 4294967295 then 206 :: push_u32 u
    else 207 :: push_u64 u
  else
    if -32 <=? v then [Z.land u 255]
    else if -128 <=? v then 208 :: push_u8 (Z.land u 255)
    else if -32768 <=? v then 209 :: push_u16 (Z.land u 65535)
    else if -2147483648 <=? v then 210 :: push_u32 (Z.land u 4294967295)
    else 211 :: push_u64 u.

(* include/lazily/msgpack.hpp:74-89, MsgPacker::str *)
Definition pack_str (s : list Z) : list Z :=
  let n := Z.of_nat (length s) in
  (if n <=? 31 then [Z.lor 160 n]
   else if n <=? 255 then 217 :: push_u8 n
   else if n <=? 65535 then 218 :: push_u16 n
   else 219 :: push_u32 n) ++ s.

(* include/lazily/msgpack.hpp:91-103, MsgPacker::bin *)
Definition pack_bin (data : list Z) : list Z :=
  let n := Z.of_nat (length data) in
  (if n <=? 255 then 196 :: push_u8 n
   else if n <=? 65535 then 197 :: push_u16 n
   else 198 :: push_u32 n) ++ data.

(* include/lazily/msgpack.hpp:106-116, MsgPacker::array_header *)
Definition pack_array_header (n : Z) : list Z :=
  if n <=? 15 then [Z.lor 144 n] else if n <=? 65535 then 220 :: push_u16 n else 221 :: push_u32 n.
(* include/lazily/msgpack.hpp:117-127, MsgPacker::map_header *)
Definition pack_map_header (n : Z) : list Z :=
  if n <=? 15 then [Z.lor 128 n] else if n <=? 65535 then 222 :: push_u16 n else 223 :: push_u32 n.

(** ** The unpacker *)

(** [n] bytes, moved past. *)
(* include/lazily/msgpack.hpp:390-392, MsgUnpacker::require *)
Definition take_bytes (n : Z) : Reader (list Z) := λ bs,
  if Z.of_nat (length bs) <? n then inl (Fail "msgpack: truncated")
  else inr (take (Z.to_nat n) bs, drop (Z.to_nat n) bs).

(* include/lazily/msgpack.hpp:155-155, MsgUnpacker::eof *)
Definition eof (bs : list Z) : bool := bool_decide (bs = []).

(* include/lazily/msgpack.hpp:393-396, MsgUnpacker::read_u8 *)
Definition read_u8 : Reader Z := λ bs, match bs with [] => inl (Fail "msgpack: truncated") | b :: bs => inr (b, bs) end.
(* include/lazily/msgpack.hpp:397-402, MsgUnpacker::read_u16 *)
Definition read_u16 : Reader Z := λ bs,
  match bs with
  | p0 :: p1 :: bs => inr (Z.lor (Z.shiftl p0 8) p1, bs)
  | _ => inl (Fail "msgpack: truncated")
  end.
(* include/lazily/msgpack.hpp:403-408, MsgUnpacker::read_u32 *)
Definition read_u32 : Reader Z := λ bs,
  match bs with
  | p0 :: p1 :: p2 :: p3 :: bs =>
      inr (Z.lor (Z.lor (Z.lor (Z.shiftl p0 24) (Z.shiftl p1 16)) (Z.shiftl p2 8)) p3, bs)
  | _ => inl (Fail "msgpack: truncated")
  end.
(* include/lazily/msgpack.hpp:409-416, MsgUnpacker::read_u64 *)
Definition read_u64 : Reader Z := l ← take_bytes 8; mret (foldl (λ v b, Z.lor (u64 (Z.shiftl v 8)) b) 0 l).

(** Two's complement on [w] bits. *)
Definition signed (w v : Z) : Z := if v <? 2 ^ (w - 1) then v else v - 2 ^ w.

(* include/lazily/msgpack.hpp:159-159, MsgUnpacker::Kind *)
Inductive MsgKind := KNil | KBool | KInt | KStr | KBin | KArray | KMap | KFloat | KExt | KOther.
#[export] Instance MsgKind_eq_dec : EqDecision MsgKind.
Proof. solve_decision. Defined.

Definition kind_of (b : Z) : MsgKind :=
  if b <=? 127 then KInt else if b <=? 143 then KMap else if b <=? 159 then KArray else if b <=? 191 then KStr
  else if 224 <=? b then KInt
  else if b =? 192 then KNil
  else if (b =? 194) || (b =? 195) then KBool
  else if (196 <=? b) && (b <=? 198) then KBin
  else if (202 <=? b) && (b <=? 203) then KFloat
  else if (204 <=? b) && (b <=? 211) then KInt
  else if (217 <=? b) && (b <=? 219) then KStr
  else if (220 <=? b) && (b <=? 221) then KArray
  else if (222 <=? b) && (b <=? 223) then KMap
  else KOther.

(* include/lazily/msgpack.hpp:160-213, MsgUnpacker::peek_kind *)
Definition peek_kind : Reader MsgKind := λ bs,
  match bs with [] => inl (Fail "msgpack: truncated") | b :: _ => inr (kind_of b, bs) end.

(* include/lazily/msgpack.hpp:215-219, MsgUnpacker::expect_nil *)
Definition expect_nil : Reader () := b ← read_u8; if b =? 192 then mret () else throw "msgpack: expected nil".

(* include/lazily/msgpack.hpp:220-226, MsgUnpacker::read_bool *)
Definition read_bool : Reader bool :=
  b ← read_u8; if b =? 195 then mret true else if b =? 194 then mret false else throw "msgpack: expected bool".

(* include/lazily/msgpack.hpp:228-266, MsgUnpacker::read_i64 *)
Definition read_i64 : Reader Z :=
  b ← read_u8;
  if b <=? 127 then mret b
  else if 224 <=? b then mret (signed 8 b)
  else if b =? 204 then read_u8
  else if b =? 205 then read_u16
  else if b =? 206 then read_u32
  else if b =? 207 then
    (raw ← read_u64;
     if i64_max <? raw then throw "msgpack: uint64 value is outside the range this decoder represents exactly"
     else mret raw)
  else if b =? 208 then (v ← read_u8; mret (signed 8 v))
  else if b =? 209 then (v ← read_u16; mret (signed 16 v))
  else if b =? 210 then (v ← read_u32; mret (signed 32 v))
  else if b =? 211 then (v ← read_u64; mret (signed 64 v))
  else throw "msgpack: expected int".

(* include/lazily/msgpack.hpp:268-287, MsgUnpacker::read_str *)
Definition read_str : Reader (list Z) :=
  b ← read_u8;
  n ← (if Z.land b 224 =? 160 then mret (Z.land b 31)
       else if b =? 217 then read_u8 else if b =? 218 then read_u16 else if b =? 219 then read_u32
       else throw "msgpack: expected str");
  take_bytes n.

(** A view of the same bytes. *)
(* include/lazily/msgpack.hpp:294-313, MsgUnpacker::read_str_view *)
Definition read_str_view : Reader (list Z) := read_str.

(* include/lazily/msgpack.hpp:315-332, MsgUnpacker::read_bin *)
Definition read_bin : Reader (list Z) :=
  b ← read_u8;
  n ← (if b =? 196 then read_u8 else if b =? 197 then read_u16 else if b =? 198 then read_u32
       else throw "msgpack: expected bin");
  take_bytes n.

(* include/lazily/msgpack.hpp:334-341, MsgUnpacker::read_array_header *)
Definition read_array_header : Reader Z :=
  b ← read_u8;
  if Z.land b 240 =? 144 then mret (Z.land b 15) else if b =? 220 then read_u16 else if b =? 221 then read_u32
  else throw "msgpack: expected array".
(* include/lazily/msgpack.hpp:342-349, MsgUnpacker::read_map_header *)
Definition read_map_header : Reader Z :=
  b ← read_u8;
  if Z.land b 240 =? 128 then mret (Z.land b 15) else if b =? 222 then read_u16 else if b =? 223 then read_u32
  else throw "msgpack: expected map".

(** One level of recursion per nesting; the loops take as many turns as the
    header says, and each consumes a byte or throws. *)
(* include/lazily/msgpack.hpp:352-386, MsgUnpacker::skip *)
Fixpoint skip (fuel : nat) : Reader () :=
  match fuel with
  | O => out_of_fuel
  | S fuel =>
      k ← peek_kind;
      match k with
      | KNil => expect_nil
      | KBool => read_bool;; mret ()
      | KInt => read_i64;; mret ()
      | KStr => read_str;; mret ()
      | KBin => read_bin;; mret ()
      | KArray => n ← read_array_header; repeat_reader (Z.to_nat n) (skip fuel);; mret ()
      | KMap => n ← read_map_header; repeat_reader (Z.to_nat n) (skip fuel;; skip fuel);; mret ()
      | _ => throw "msgpack: cannot skip unsupported value"
      end
  end.

(** ** Documents *)
Section bridge.
  Context {D : Type}.

(** [None] is the exception for a double. *)
(* include/lazily/msgpack_codec.hpp:57-91, msgpack_pack_json *)
Fixpoint msgpack_pack_json (v : JsonValue D) : option (list Z) :=
  match v with
  | JNull => Some pack_nil
  | JBool b => Some (pack_boolean b)
  | JInt z => Some (pack_i64 z)
  | JDouble _ => None
  | JString s => Some (pack_str s)
  | JArray l =>
      body ← foldr (λ v body, bs ← msgpack_pack_json v; body ← body; Some (bs ++ body)) (Some []) l;
      Some (pack_array_header (Z.of_nat (length l) mod two32) ++ body)
  | JObject l =>
      body ← foldr (λ '(k, v) body, bs ← msgpack_pack_json v; body ← body; Some (pack_str k ++ bs ++ body)) (Some []) l;
      Some (pack_map_header (Z.of_nat (length l) mod two32) ++ body)
  end.

(* include/lazily/msgpack_codec.hpp:93-134, msgpack_unpack_json *)
Fixpoint msgpack_unpack_json (fuel : nat) : Reader (JsonValue D) :=
  match fuel with
  | O => out_of_fuel
  | S fuel =>
      k ← peek_kind;
      match k with
      | KNil => expect_nil;; mret JNull
      | KBool => b ← read_bool; mret (JBool b)
      | KInt => z ← read_i64; mret (JInt z)
      | KStr => s ← read_str; mret (JString s)
      | KBin => throw "msgpack codec: byte payloads are arrays of integers on this wire, not msgpack `bin`"
      | KArray =>
          n ← read_array_header;
          l ← repeat_reader (Z.to_nat n) (msgpack_unpack_json fuel); mret (JArray l)
      | KMap =>
          n ← read_map_header;
          l ← repeat_reader (Z.to_nat n)
            (k ← peek_kind;
             if decide (k = KStr) then (key ← read_str; v ← msgpack_unpack_json fuel; mret (key, v))
             else throw "msgpack codec: named-field maps require string keys");
          mret (JObject l)
      | _ => throw "msgpack codec: unsupported MessagePack value in frame"
      end
  end.

(* include/lazily/msgpack_codec.hpp:142-147, msgpack_to_json *)
Definition msgpack_to_json (data : list Z) : fault + JsonValue D :=
  match msgpack_unpack_json (S (length data)) data with
  | inl e => inl e
  | inr (value, rest) => if eof rest then inr value else inl (Fail "msgpack codec: trailing bytes after frame")
  end.

End bridge.

(** ** Words *)

Lemma low_byte v : Z.land v 255 = v mod 2 ^ 8.
Proof. change 255 with (Z.ones 8). apply Z.land_ones. lia. Qed.

Lemma read_u8_push v : reads read_u8 (push_u8 v) (v mod 256).
Proof. intros rest. simpl. by rewrite low_byte. Qed.

Lemma read_u16_push v : reads read_u16 (push_u16 v) (v mod 65536).
Proof.
  intros rest. simpl. do 2 f_equal. rewrite (low_byte (Z.shiftr v 8)). pose proof (word_step_high v 8 0 ltac:(lia) ltac:(lia)) as E.
  by rewrite Z.shiftr_0_r in E.
Qed.

Lemma read_u32_push v : reads read_u32 (push_u32 v) (v mod 4294967296).
Proof.
  intros rest. cbn [push_u32 fmap list_fmap app read_u32]. do 2 f_equal. rewrite Z.shiftr_0_r, (low_byte v).
  rewrite (Z.lor_comm _ (v mod 2 ^ 8)), (Z.lor_comm (Z.lor (Z.shiftl _ 24) _)), Z.lor_assoc, (word_step v 8) by lia.
  change (8 + 8) with 16. rewrite (Z.lor_comm (Z.shiftl _ 24)), Z.lor_assoc, (word_step v 16) by lia.
  change (16 + 8) with 24. by rewrite (word_step v 24) by lia.
Qed.

Lemma read_u64_push v : reads read_u64 (push_u64 v) (u64 v).
Proof.
  intros rest. unfold read_u64. rewrite (bind_inr _ _ _ (push_u64 v) rest).
  2: { unfold take_bytes. rewrite length_app. change (length (push_u64 v)) with 8%nat. destruct (Z.ltb_spec (Z.of_nat (8 + length rest)) 8); [lia|].
       change (Z.to_nat 8) with (length (push_u64 v)). by rewrite take_app_length, drop_app_length. }
  unfold mret, reader_ret. do 2 f_equal.
  assert (Hstep : ∀ k s k' s', 0 ≤ k ≤ 56 → 0 ≤ s → k' = k + 8 → s' = s + 8 →
    Z.lor (u64 (Z.shiftl (Z.shiftr v s' mod 2 ^ k) 8)) (Z.land (Z.shiftr v s) 255) = Z.shiftr v s mod 2 ^ k').
  { intros k s ? ? Hk Hs -> ->. rewrite <- word_step_high by lia. f_equal. apply Z.mod_small. rewrite Z.shiftl_mul_pow2 by lia.
    pose proof (Z.mod_pos_bound (Z.shiftr v (s + 8)) (2 ^ k) ltac:(apply Z.pow_pos_nonneg; lia)).
    assert (2 ^ k ≤ 2 ^ 56) by (apply Z.pow_le_mono_r; lia). change (2 ^ 56) with 72057594037927936 in *. unfold two64. lia. }
  cbn [push_u64 fmap list_fmap foldl]. change (u64 (Z.shiftl 0 8)) with 0. rewrite Z.lor_0_l, (low_byte (Z.shiftr v 56)).
  rewrite (Hstep 8 48 16 56), (Hstep 16 40 24 48), (Hstep 24 32 32 40), (Hstep 32 24 40 32), (Hstep 40 16 48 24),
    (Hstep 48 8 56 16), (Hstep 56 0 64 8) by lia.
  by rewrite Z.shiftr_0_r.
Qed.

(** ** What is packed is read back *)

Lemma read_u8_cons b rest : read_u8 (b :: rest) = inr (b, rest).
Proof. done. Qed.

Lemma reads_cons {A} (f : Z → Reader A) b bs a : reads (f b) bs a → reads (b ← read_u8; f b) (b :: bs) a.
Proof. intros Hf. apply (reads_bind read_u8 f [b] bs b a); [done|done]. Qed.

Lemma signed_read w v (m : Reader Z) bs : 0 < w → - 2 ^ (w - 1) ≤ v < 2 ^ (w - 1) →
  reads m bs (v mod 2 ^ w) → reads (x ← m; mret (signed w x)) bs v.
Proof.
  intros Hw Hv Hm rest. rewrite (bind_inr _ _ _ _ _ (Hm rest)). unfold mret, reader_ret. do 2 f_equal. unfold signed.
  assert (E : 2 ^ w = 2 * 2 ^ (w - 1)) by (rewrite <- Z.pow_succ_r by lia; f_equal; lia).
  destruct (Z_lt_le_dec v 0).
  - assert (Em : v mod 2 ^ w = v + 2 ^ w) by (rewrite <- (Z.mod_small (v + 2 ^ w) (2 ^ w)) by lia; by rewrite Z.add_mod, Z.mod_same, Z.add_0_r, Z.mod_mod by lia).
    rewrite Em. destruct (Z.ltb_spec (v + 2 ^ w) (2 ^ (w - 1))); lia.
  - rewrite Z.mod_small by lia. destruct (Z.ltb_spec v (2 ^ (w - 1))); lia.
Qed.

Lemma u64_mod v w : 0 ≤ w ≤ 64 → u64 v mod 2 ^ w = v mod 2 ^ w.
Proof.
  intros Hw. unfold u64. replace two64 with (2 ^ w * 2 ^ (64 - w)) by (rewrite <- Z.pow_add_r by lia; by replace (w + (64 - w)) with 64 by lia).
  rewrite Z.rem_mul_r by (try apply Z.pow_nonzero; try apply Z.pow_pos_nonneg; lia).
  rewrite (Z.mul_comm (2 ^ w)), Z.mod_add by (apply Z.pow_nonzero; lia). apply Z.mod_mod. apply Z.pow_nonzero; lia.
Qed.

Lemma i64_reads v : is_i64 v → reads read_i64 (pack_i64 v) v.
Proof.
  unfold is_i64, i64_min, i64_max. intros Hv. unfold pack_i64.
  destruct (Z.leb_spec 0 v) as [Hpos|Hneg].
  - assert (Eu : u64 v = v) by (apply u64_small; unfold is_u64, two64; lia). rewrite Eu.
    repeat match goal with |- context [if ?a <=? ?b then _ else _] => destruct (Z.leb_spec a b) end.
    + intros rest. cbn [app]. unfold read_i64. rewrite (bind_inr _ _ _ _ _ (read_u8_cons v rest)). by destruct (Z.leb_spec v 127); [|lia].
    + apply reads_cons. cbn. pose proof (read_u8_push v) as E. by rewrite Z.mod_small in E by lia.
    + apply reads_cons. cbn. pose proof (read_u16_push v) as E. by rewrite Z.mod_small in E by lia.
    + apply reads_cons. cbn. pose proof (read_u32_push v) as E. by rewrite Z.mod_small in E by lia.
    + apply reads_cons. cbn -[read_u64 push_u64]. intros rest. pose proof (read_u64_push v rest) as E. rewrite Eu in E.
      rewrite (bind_inr _ _ _ _ _ E). unfold i64_max. by destruct (Z.ltb_spec 9223372036854775807 v); [lia|].
  - repeat match goal with |- context [if ?a <=? ?b then _ else _] => destruct (Z.leb_spec a b) end.
    + rewrite low_byte, u64_mod by lia. assert (Em : v mod 2 ^ 8 = v + 256).
      { rewrite <- (Z.mod_small (v + 256) (2 ^ 8)) by lia. change 256 with (1 * 2 ^ 8). by rewrite Z.mod_add. }
      rewrite Em. intros rest. cbn [app]. unfold read_i64. rewrite (bind_inr _ _ _ _ _ (read_u8_cons (v + 256) rest)).
      destruct (Z.leb_spec (v + 256) 127); [lia|]. destruct (Z.leb_spec 224 (v + 256)); [|lia]. unfold signed, mret, reader_ret.
      change (2 ^ (8 - 1)) with 128. destruct (Z.ltb_spec (v + 256) 128); [lia|]. do 2 f_equal. lia.
    + apply reads_cons. cbn [Z.leb Z.compare Z.eqb Pos.eqb Pos.compare Pos.compare_cont]. apply signed_read; [lia|lia|].
      rewrite low_byte, u64_mod by lia. pose proof (read_u8_push (v mod 2 ^ 8)) as E. by rewrite Z.mod_mod in E.
    + apply reads_cons. cbn [Z.leb Z.compare Z.eqb Pos.eqb Pos.compare Pos.compare_cont]. apply signed_read; [lia|lia|].
      change 65535 with (Z.ones 16). rewrite Z.land_ones, u64_mod by lia. pose proof (read_u16_push (v mod 2 ^ 16)) as E. by rewrite Z.mod_mod in E.
    + apply reads_cons. cbn [Z.leb Z.compare Z.eqb Pos.eqb Pos.compare Pos.compare_cont]. apply signed_read; [lia|lia|].
      change 4294967295 with (Z.ones 32). rewrite Z.land_ones, u64_mod by lia. pose proof (read_u32_push (v mod 2 ^ 32)) as E. by rewrite Z.mod_mod in E.
    + apply reads_cons. cbn [Z.leb Z.compare Z.eqb Pos.eqb Pos.compare Pos.compare_cont]. apply signed_read; [lia|lia|].
      replace (v mod 2 ^ 64) with (u64 (u64 v)); [apply read_u64_push|]. unfold u64. by rewrite Z.mod_mod.
Qed.

(** A fact about every byte of a range, by computation. *)
Lemma for_range (f : Z → bool) a n : forallb f (seqZ a n) = true → ∀ z, a ≤ z < a + n → f z = true.
Proof. intros Hf z Hz. rewrite List.forallb_forall in Hf. apply Hf, list_elem_of_In, elem_of_seqZ. lia. Qed.

Lemma take_bytes_app s : reads (take_bytes (Z.of_nat (length s))) s s.
Proof.
  intros rest. unfold take_bytes. rewrite length_app. destruct (Z.ltb_spec (Z.of_nat (length s + length rest)) (Z.of_nat (length s))); [lia|].
  by rewrite Nat2Z.id, take_app_length, drop_app_length.
Qed.

(** The prefix of a string, of bytes and of a container announces its size. *)
Lemma str_reads s : Z.of_nat (length s) < two32 → reads read_str (pack_str s) s.
Proof.
  unfold two32. intros Hs. unfold pack_str. set (n := Z.of_nat (length s)) in *. assert (0 ≤ n) by (unfold n; lia).
  assert (Hgo : ∀ (m : Reader Z) bs, reads m bs n → reads (n ← m; take_bytes n) (bs ++ s) s).
  { intros m bs Hm. eapply reads_bind; [exact Hm|]. apply take_bytes_app. }
  destruct (Z.leb_spec n 31).
  - apply (reads_cons _ _ s). assert (Hf : (Z.land (Z.lor 160 n) 224 =? 160) && (Z.land (Z.lor 160 n) 31 =? n) = true)
      by (apply (for_range (λ n, (Z.land (Z.lor 160 n) 224 =? 160) && (Z.land (Z.lor 160 n) 31 =? n)) 0 32); [done|lia]).
    apply andb_prop in Hf as [-> Hn%Z.eqb_eq]. rewrite Hn. apply (Hgo (mret n) []), reads_ret.
  - destruct (Z.leb_spec n 255); [|destruct (Z.leb_spec n 65535)].
    all: cbn [app]; apply reads_cons; cbn [Z.land Z.eqb Pos.land Pos.eqb Pos.Ndouble Pos.Nsucc_double N.double N.succ_double Z.of_N]; apply Hgo.
    + pose proof (read_u8_push n) as E. by rewrite Z.mod_small in E by lia.
    + pose proof (read_u16_push n) as E. by rewrite Z.mod_small in E by lia.
    + pose proof (read_u32_push n) as E. by rewrite Z.mod_small in E by lia.
Qed.

Lemma bin_reads s : Z.of_nat (length s) < two32 → reads read_bin (pack_bin s) s.
Proof.
  unfold two32. intros Hs. unfold pack_bin. set (n := Z.of_nat (length s)) in *. assert (0 ≤ n) by (unfold n; lia).
  assert (Hgo : ∀ (m : Reader Z) bs, reads m bs n → reads (n ← m; take_bytes n) (bs ++ s) s).
  { intros m bs Hm. eapply reads_bind; [exact Hm|]. apply take_bytes_app. }
  destruct (Z.leb_spec n 255); [|destruct (Z.leb_spec n 65535)]; cbn [app]; apply reads_cons; cbn [Z.eqb Pos.eqb]; apply Hgo.
  - pose proof (read_u8_push n) as E. by rewrite Z.mod_small in E by lia.
  - pose proof (read_u16_push n) as E. by rewrite Z.mod_small in E by lia.
  - pose proof (read_u32_push n) as E. by rewrite Z.mod_small in E by lia.
Qed.

Lemma array_header_reads n : 0 ≤ n < two32 → reads read_array_header (pack_array_header n) n.
Proof.
  unfold two32. intros Hn. unfold pack_array_header. destruct (Z.leb_spec n 15).
  - apply (reads_cons _ _ []). assert (Hf : (Z.land (Z.lor 144 n) 240 =? 144) && (Z.land (Z.lor 144 n) 15 =? n) = true)
      by (apply (for_range (λ n, (Z.land (Z.lor 144 n) 240 =? 144) && (Z.land (Z.lor 144 n) 15 =? n)) 0 16); [done|lia]).
    apply andb_prop in Hf as [-> E%Z.eqb_eq]. rewrite E. apply reads_ret.
  - destruct (Z.leb_spec n 65535); apply reads_cons; cbn.
    + pose proof (read_u16_push n) as E. by rewrite Z.mod_small in E by lia.
    + pose proof (read_u32_push n) as E. by rewrite Z.mod_small in E by lia.
Qed.

Lemma map_header_reads n : 0 ≤ n < two32 → reads read_map_header (pack_map_header n) n.
Proof.
  unfold two32. intros Hn. unfold pack_map_header. destruct (Z.leb_spec n 15).
  - apply (reads_cons _ _ []). assert (Hf : (Z.land (Z.lor 128 n) 240 =? 128) && (Z.land (Z.lor 128 n) 15 =? n) = true)
      by (apply (for_range (λ n, (Z.land (Z.lor 128 n) 240 =? 128) && (Z.land (Z.lor 128 n) 15 =? n)) 0 16); [done|lia]).
    apply andb_prop in Hf as [-> E%Z.eqb_eq]. rewrite E. apply reads_ret.
  - destruct (Z.leb_spec n 65535); apply reads_cons; cbn.
    + pose proof (read_u16_push n) as E. by rewrite Z.mod_small in E by lia.
    + pose proof (read_u32_push n) as E. by rewrite Z.mod_small in E by lia.
Qed.

Definition is_kind (k : MsgKind) (b : Z) : bool := bool_decide (kind_of b = k).

Lemma is_kind_range k (f : Z → Z) a n z : forallb (λ b, is_kind k (f b)) (seqZ a n) = true → a ≤ z < a + n → kind_of (f z) = k.
Proof. intros Hf Hz. pose proof (for_range (λ b, is_kind k (f b)) a n Hf z Hz) as Hk. by apply bool_decide_eq_true in Hk. Qed.

(** What the first byte announces. *)
Definition starts (bs : list Z) (k : MsgKind) : Prop := ∃ b t, bs = b :: t ∧ kind_of b = k.

Lemma peek_starts bs k rest : starts bs k → peek_kind (bs ++ rest) = inr (k, bs ++ rest).
Proof. intros (b & t & -> & <-). done. Qed.

Lemma starts_app bs bs' k : starts bs k → starts (bs ++ bs') k.
Proof. intros (b & t & -> & Hk). by eexists b, _. Qed.

Lemma i64_starts v : is_i64 v → starts (pack_i64 v) KInt.
Proof.
  unfold is_i64, i64_min, i64_max. intros Hv. unfold pack_i64. destruct (Z.leb_spec 0 v).
  - assert (Eu : u64 v = v) by (apply u64_small; unfold is_u64, two64; lia). rewrite Eu. repeat case_match; try by eexists _, _.
    eexists _, _. split; [done|]. unfold kind_of. by destruct (Z.leb_spec v 127); [|lia].
  - repeat case_match; try by eexists _, _. eexists _, _. split; [done|]. rewrite low_byte, u64_mod by lia.
    assert (Em : v mod 2 ^ 8 = v + 256).
    { rewrite <- (Z.mod_small (v + 256) (2 ^ 8)) by lia. change 256 with (1 * 2 ^ 8). by rewrite Z.mod_add. }
    rewrite Em. apply (is_kind_range KInt id 224 32 (v + 256)); [done|lia].
Qed.

Lemma str_starts s : starts (pack_str s) KStr.
Proof.
  unfold pack_str. repeat case_match; try by eexists _, _. eexists _, _. split; [done|].
  apply (is_kind_range KStr (Z.lor 160) 0 32); [done|lia].
Qed.

Lemma array_starts n : 0 ≤ n → starts (pack_array_header n) KArray.
Proof.
  intros Hn. unfold pack_array_header. repeat case_match; try by eexists _, _. eexists _, _. split; [done|].
  apply (is_kind_range KArray (Z.lor 144) 0 16); [done|lia].
Qed.

Lemma map_starts n : 0 ≤ n → starts (pack_map_header n) KMap.
Proof.
  intros Hn. unfold pack_map_header. repeat case_match; try by eexists _, _. eexists _, _. split; [done|].
  apply (is_kind_range KMap (Z.lor 128) 0 16); [done|lia].
Qed.

(** ** Documents are read back *)
Section documents.
  Context {D : Type}.
  Implicit Types v : JsonValue D.

(** Sizes that the four-byte headers can tell. *)
Fixpoint sized_json (v : JsonValue D) : Prop :=
  match v with
  | JString s => Z.of_nat (length s) < two32
  | JArray l => Z.of_nat (length l) < two32 ∧ foldr (λ v P, sized_json v ∧ P) True l
  | JObject l =>
      Z.of_nat (length l) < two32 ∧ foldr (λ '(k, v) P, (Z.of_nat (length k) < two32 ∧ sized_json v) ∧ P) True l
  | _ => True
  end.

Lemma sized_array l : sized_json (JArray l) ↔ Z.of_nat (length l) < two32 ∧ Forall sized_json l.
Proof.
  cbn [sized_json]. apply and_iff_compat_l. induction l as [|v l IH]; cbn [foldr]; rewrite ?Forall_nil, ?Forall_cons; [done|by rewrite IH].
Qed.

Lemma sized_object l : sized_json (JObject l) ↔
  Z.of_nat (length l) < two32 ∧ Forall (λ kv, Z.of_nat (length kv.1) < two32 ∧ sized_json kv.2) l.
Proof.
  cbn [sized_json]. apply and_iff_compat_l.
  induction l as [|[k v] l IH]; cbn [foldr]; rewrite ?Forall_nil, ?Forall_cons; [done|by rewrite IH].
Qed.

(** The bytes of a document. *)
Definition packed v : list Z := default [] (msgpack_pack_json v).
Definition packed_member (kv : list Z * JsonValue D) : list Z := pack_str kv.1 ++ packed kv.2.

Lemma pack_elements l : Forall (λ v, msgpack_pack_json v = Some (packed v)) l →
  foldr (λ v body, bs ← msgpack_pack_json v; body ← body; Some (bs ++ body)) (Some []) l = Some (l ≫= packed).
Proof. induction 1 as [|v l Hv Hl IH]; [done|]. cbn [foldr]. by rewrite Hv, IH. Qed.

Lemma pack_members l : Forall (λ kv, msgpack_pack_json kv.2 = Some (packed kv.2)) l →
  foldr (λ '(k, v) body, bs ← msgpack_pack_json v; body ← body; Some (pack_str k ++ bs ++ body)) (Some []) l =
  Some (l ≫= packed_member).
Proof.
  induction 1 as [|[k v] l Hv Hl IH]; [done|]. cbn [foldr fst snd] in *. rewrite Hv, IH. cbn. unfold packed_member at 2. cbn [fst snd].
  by rewrite <- app_assoc.
Qed.

Lemma pack_wire v : wire_json v → msgpack_pack_json v = Some (packed v).
Proof.
  induction v as [|b|z|d|s|l IH|l IH] using json_nested_ind; intros Hw; try done.
  - apply wire_array in Hw. unfold packed. cbn [msgpack_pack_json]. rewrite pack_elements; [done|]. rewrite Forall_forall in IH, Hw |- *. intros v Hin. apply IH; [done|]. by apply Hw.
  - apply wire_object in Hw. unfold packed. cbn [msgpack_pack_json]. rewrite pack_members; [done|].
    rewrite Forall_forall in IH, Hw |- *. intros kv Hin. apply IH; [done|]. by apply Hw.
Qed.

Lemma packed_array l : wire_json (JArray l) →
  packed (JArray l) = pack_array_header (Z.of_nat (length l) mod two32) ++ (l ≫= packed).
Proof.
  intros Hw%wire_array. unfold packed at 1. cbn [msgpack_pack_json]. rewrite pack_elements; [done|].
  rewrite Forall_forall in Hw |- *. intros v Hv. by apply pack_wire, Hw.
Qed.

Lemma packed_object l : wire_json (JObject l) →
  packed (JObject l) = pack_map_header (Z.of_nat (length l) mod two32) ++ (l ≫= packed_member).
Proof.
  intros Hw%wire_object. unfold packed at 1. cbn [msgpack_pack_json]. rewrite pack_members; [done|].
  rewrite Forall_forall in Hw |- *. intros v Hv. by apply pack_wire, Hw.
Qed.

Lemma bind_part {A} (f : A → list Z) x l : x ∈ l → (length (f x) ≤ length (l ≫= f))%nat.
Proof.
  induction 1 as [x l|x y l Hx IH]; [change ((x :: l) ≫= f) with (f x ++ (l ≫= f))|change ((y :: l) ≫= f) with (f y ++ (l ≫= f))];
    rewrite length_app; lia.
Qed.

(** A reader that first looks at the kind. *)
Lemma reads_kind {A} (f : MsgKind → Reader A) k bs a : starts bs k → reads (f k) bs a → reads (k ← peek_kind; f k) bs a.
Proof. intros Hs Hf rest. by rewrite (bind_inr _ _ _ _ _ (peek_starts bs k rest Hs)). Qed.

Lemma header_length n : (1 ≤ length (pack_array_header n))%nat ∧ (1 ≤ length (pack_map_header n))%nat.
Proof. unfold pack_array_header, pack_map_header. split; repeat case_match; simpl; lia. Qed.

Lemma document_reads v : wire_json v → sized_json v → ∀ fuel, (length (packed v) < fuel)%nat →
  reads (msgpack_unpack_json fuel) (packed v) v ∧ reads (skip fuel) (packed v) ().
Proof.
  induction v as [|b|z|d|s|l IH|l IH] using json_nested_ind; intros Hw Hs [|fuel] Hf; try lia; try done.
  - by destruct b.
  - cbn [msgpack_unpack_json skip]. split; (apply (reads_kind _ KInt); [by apply i64_starts|]).
    + apply (reads_fmap read_i64 JInt). by apply i64_reads.
    + eapply (reads_fmap read_i64 (λ _, ())). by apply i64_reads.
  - cbn [msgpack_unpack_json skip]. split; (apply (reads_kind _ KStr); [apply str_starts|]).
    + apply (reads_fmap read_str JString). by apply str_reads.
    + eapply (reads_fmap read_str (λ _, ())). by apply str_reads.
  - rewrite (packed_array l Hw) in *. rewrite length_app in Hf. destruct (header_length (Z.of_nat (length l) mod two32)) as [Hh _].
    apply wire_array in Hw. apply sized_array in Hs as [Hn Hs]. rewrite Z.mod_small in * by (unfold two32 in *; lia).
    assert (Hst : starts (pack_array_header (Z.of_nat (length l)) ++ (l ≫= packed)) KArray) by (apply starts_app, array_starts; lia).
    assert (Hall : ∀ v, v ∈ l → reads (msgpack_unpack_json fuel) (packed v) v ∧ reads (skip fuel) (packed v) ()).
    { rewrite Forall_forall in IH, Hw, Hs. intros v Hv. apply IH; [done|by apply Hw|by apply Hs|]. pose proof (bind_part packed v l Hv). lia. }
    cbn [msgpack_unpack_json skip]. split; (apply (reads_kind _ KArray); [done|]).
    + eapply reads_bind; [apply array_header_reads; lia|]. rewrite Nat2Z.id.
      apply (reads_fmap _ JArray). rewrite <- (list_fmap_id l) at 3. apply (reads_repeat _ packed id). intros v Hv. by apply Hall.
    + eapply reads_bind; [apply array_header_reads; lia|]. rewrite Nat2Z.id.
      apply (reads_fmap (repeat_reader (length l) (skip fuel)) (λ _, ()) _ ((λ _, ()) <$> l)). apply (reads_repeat _ packed). intros v Hv. by apply Hall.
  - rewrite (packed_object l Hw) in *. rewrite length_app in Hf. destruct (header_length (Z.of_nat (length l) mod two32)) as [_ Hh].
    apply wire_object in Hw. apply sized_object in Hs as [Hn Hs]. rewrite Z.mod_small in * by (unfold two32 in *; lia).
    assert (Hst : starts (pack_map_header (Z.of_nat (length l)) ++ (l ≫= packed_member)) KMap) by (apply starts_app, map_starts; lia).
    assert (Hall : ∀ kv, kv ∈ l → Z.of_nat (length kv.1) < two32 ∧
      reads (msgpack_unpack_json fuel) (packed kv.2) kv.2 ∧ reads (skip fuel) (packed kv.2) () ∧ reads (skip fuel) (pack_str kv.1) ()).
    { rewrite Forall_forall in IH, Hw, Hs. intros kv Hkv. pose proof (bind_part packed_member kv l Hkv) as Hp.
      unfold packed_member in Hp at 1. rewrite length_app in Hp. split; [by apply Hs|].
      split_and!; [apply IH; [done|by apply Hw|by apply Hs|lia]|apply IH; [done|by apply Hw|by apply Hs|lia]|].
      destruct fuel as [|fuel]; [lia|]. cbn [skip]. apply (reads_kind _ KStr); [apply str_starts|].
      eapply (reads_fmap read_str (λ _, ())). apply str_reads. by apply Hs. }
    cbn [msgpack_unpack_json skip]. split; (apply (reads_kind _ KMap); [done|]).
    + eapply reads_bind; [apply map_header_reads; lia|]. rewrite Nat2Z.id.
      apply (reads_fmap _ JObject). rewrite <- (list_fmap_id l) at 3. apply (reads_repeat _ packed_member id). intros [k v] Hv.
      destruct (Hall (k, v) Hv) as (Hk & Hr & _). apply (reads_kind _ KStr); [apply starts_app, str_starts|]. rewrite decide_True by done.
      eapply reads_bind; [by apply str_reads|]. by apply (reads_fmap (msgpack_unpack_json fuel) (pair k)).
    + eapply reads_bind; [apply map_header_reads; lia|]. rewrite Nat2Z.id.
      apply (reads_fmap (repeat_reader (length l) (skip fuel;; skip fuel)) (λ _, ()) _ ((λ _, ()) <$> l)).
      apply (reads_repeat _ packed_member). intros [k v] Hv. destruct (Hall (k, v) Hv) as (_ & _ & Hr & Hk).
      by eapply reads_bind.
Qed.

End documents.

(** ** Every decoding ends *)

Lemma read_u8_ends bs : consumes 1 read_u8 bs.
Proof. destruct bs; unfold consumes; simpl; [done|lia]. Qed.

Lemma take_bytes_ends n bs : consumes 0 (take_bytes n) bs.
Proof. unfold consumes, take_bytes. destruct (_ <? n); [done|]. rewrite length_drop. lia. Qed.

Lemma read_words_end bs : consumes 0 read_u8 bs ∧ consumes 0 read_u16 bs ∧ consumes 0 read_u32 bs ∧ consumes 0 read_u64 bs.
Proof.
  split_and!.
  - eapply consumes_weaken, read_u8_ends. lia.
  - destruct bs as [|? [|? ?]]; unfold consumes; simpl; try done; lia.
  - destruct bs as [|? [|? [|? [|? ?]]]]; unfold consumes; simpl; try done; lia.
  - apply (consumes_bind 0 0); [apply take_bytes_ends|intros; apply consumes_ret].
Qed.

(** A reader that takes a byte and then no more fuel than any. *)
Lemma tagged_ends {A} (f : Z → Reader A) bs : (∀ b rest, consumes 0 (f b) rest) → consumes 1 (b ← read_u8; f b) bs.
Proof. intros Hf. apply (consumes_bind 1 0); [apply read_u8_ends|auto]. Qed.

Ltac ends_word :=
  repeat case_match; first [apply consumes_ret | apply consumes_throw | by apply read_words_end |
    apply (consumes_bind 0 0); [by apply read_words_end|intros; repeat case_match; first [apply consumes_ret|apply consumes_throw]]].

Lemma readers_end bs :
  (consumes 1 expect_nil bs ∧ consumes 1 read_bool bs ∧ consumes 1 read_i64 bs) ∧
  (consumes 1 read_str bs ∧ consumes 1 read_bin bs) ∧ consumes 1 read_array_header bs ∧ consumes 1 read_map_header bs.
Proof.
  split_and!; apply tagged_ends; intros b rest; try ends_word.
  - apply (consumes_bind 0 0); [ends_word|intros; apply take_bytes_ends].
  - apply (consumes_bind 0 0); [ends_word|intros; apply take_bytes_ends].
Qed.

Lemma peek_kind_ends bs : consumes 0 peek_kind bs.
Proof. destruct bs; unfold consumes; simpl; [done|lia]. Qed.

(** A value read after its first byte was looked at. *)
Lemma then_ret {A B} k (m : Reader A) (f : A → B) bs : consumes k m bs → consumes k (x ← m; mret (f x)) bs.
Proof.
  intros Hm. eapply consumes_weaken; [|apply (consumes_bind k 0); [exact Hm|intros; apply consumes_ret]]. lia.
Qed.

Lemma skip_ends fuel : ∀ bs, (length bs < fuel)%nat → consumes 1 (skip fuel) bs.
Proof.
  induction fuel as [|fuel IH]; intros bs Hf; [lia|]. cbn [skip]. apply (consumes_bind 0 1); [apply peek_kind_ends|intros k r1 H1].
  destruct (readers_end r1) as ((? & ? & ?) & (? & ?) & ? & ?). destruct k; try done; try by apply (then_ret 1 _ (λ _, ())).
  - apply (consumes_bind 1 0); [done|intros n r2 Lr2]. apply (then_ret 0 _ (λ _, ())), consumes_repeat. intros r3 Lr3.
    eapply consumes_weaken, IH; lia.
  - apply (consumes_bind 1 0); [done|intros n r2 Lr2]. apply (then_ret 0 _ (λ _, ())), consumes_repeat. intros r3 Lr3.
    apply (consumes_bind 0 0); [eapply consumes_weaken, IH; lia|intros _ r4 Lr4]. eapply consumes_weaken, IH; lia.
Qed.

Lemma unpack_ends {D} fuel : ∀ bs, (length bs < fuel)%nat → consumes 1 (@msgpack_unpack_json D fuel) bs.
Proof.
  induction fuel as [|fuel IH]; intros bs Hf; [lia|]. cbn [msgpack_unpack_json].
  apply (consumes_bind 0 1); [apply peek_kind_ends|intros k r1 H1].
  destruct (readers_end r1) as ((? & ? & ?) & (? & ?) & ? & ?). destruct k; try done; try by apply then_ret.
  - apply (consumes_bind 1 0); [done|intros n r2 Lr2]. apply then_ret, consumes_repeat. intros r3 Lr3.
    eapply consumes_weaken, IH; lia.
  - apply (consumes_bind 1 0); [done|intros n r2 Lr2]. apply then_ret, consumes_repeat. intros r3 Lr3.
    apply (consumes_bind 0 0); [apply peek_kind_ends|intros k r4 Lr4]. case_decide; [|done].
    apply (consumes_bind 0 0); [eapply consumes_weaken, readers_end; lia|intros key r5 Lr5].
    apply then_ret. eapply consumes_weaken, IH; lia.
Qed.

(** Documents survive MessagePack.  Every value without doubles whose integers
    are 64-bit and whose sizes fit in 32 bits packs, [msgpack_to_json] of the
    bytes is the value, and a reader that does not know the field skips exactly
    its bytes, whatever follows. *)
Theorem msgpack_roundtrip {D : Type} (v : JsonValue D) : wire_json v → sized_json v →
  ∃ bs, msgpack_pack_json v = Some bs ∧ msgpack_to_json bs = inr v ∧
    ∀ rest, skip (S (length bs)) (bs ++ rest) = inr ((), rest).
Proof.
  intros Hw Hs. exists (packed v). split; [by apply pack_wire|].
  destruct (document_reads v Hw Hs (S (length (packed v))) ltac:(lia)) as [Hr Hk]. split; [|exact Hk].
  unfold msgpack_to_json. specialize (Hr []). by rewrite app_nil_r in Hr; rewrite Hr.
Qed.

Lemma msgpack_roundtrip_witness :
  wire_json sample ∧ sized_json sample ∧
  ∃ bs, msgpack_pack_json sample = Some bs ∧ msgpack_to_json bs = inr sample ∧
    ∀ rest, skip (S (length bs)) (bs ++ rest) = inr ((), rest).
Proof.
  assert (Hw : wire_json sample) by (repeat first [split | constructor | done]).
  assert (Hs : sized_json sample) by (repeat first [split | done]).
  split; [exact Hw|]. split; [exact Hs|]. exact (msgpack_roundtrip sample Hw Hs).
Defined.

(** Decoding ends on every input, as does skipping a value: one level of
    recursion per byte is enough. *)
Theorem msgpack_decoding_ends {D : Type} (data : list Z) :
  msgpack_to_json (D:=D) data ≠ inl NoFuel ∧ skip (S (length data)) data ≠ inl NoFuel.
Proof.
  pose proof (unpack_ends (D:=D) (S (length data)) data ltac:(lia)) as Hu. pose proof (skip_ends (S (length data)) data ltac:(lia)) as Hk.
  unfold consumes in Hu, Hk. split.
  - unfold msgpack_to_json. destruct (msgpack_unpack_json _ data) as [[?|]|[v rest]]; try done. by destruct (eof rest).
  - by destruct (skip _ data) as [[?|]|?].
Qed.

(** ** The packing of an integer is the shortest *)

Lemma lor_bound n a b : 0 ≤ a < 2 ^ n → 0 ≤ b < 2 ^ n → 0 ≤ n → 0 ≤ Z.lor a b < 2 ^ n.
Proof.
  intros Ha Hb Hn. assert (0 ≤ Z.lor a b) by (apply Z.lor_nonneg; lia). split; [done|].
  destruct (decide (Z.lor a b = 0)) as [->|Hne]; [apply Z.pow_pos_nonneg; lia|].
  apply Z.log2_lt_pow2; [lia|]. rewrite Z.log2_lor by lia.
  assert (Hl : ∀ x, 0 ≤ x < 2 ^ n → Z.log2 x < n ∨ x = 0).
  { intros x Hx. destruct (decide (x = 0)); [by right|]. left. apply Z.log2_lt_pow2; lia. }
  pose proof (Z.log2_nonneg a). pose proof (Z.log2_nonneg b).
  destruct (Hl a Ha) as [?|Ea], (Hl b Hb) as [?|Eb]; [lia|subst b|subst a|by subst].
  all: change (Z.log2 0) with 0; lia.
Qed.

Lemma shifted_bound p s n : is_byte p → 0 ≤ s → s + 8 ≤ n → 0 ≤ Z.shiftl p s < 2 ^ n.
Proof.
  unfold is_byte. intros Hp Hs Hn. rewrite Z.shiftl_mul_pow2 by lia. assert (0 < 2 ^ s) by (apply Z.pow_pos_nonneg; lia). split; [lia|].
  eapply Z.lt_le_trans; [|apply (Z.pow_le_mono_r 2 (s + 8) n); lia]. rewrite Z.pow_add_r by lia. change (2 ^ 8) with 256. nia.
Qed.

(** A reader of a [w]-bit word out of [n] bytes. *)
Definition word_reader (w : Z) (n : nat) (m : Reader Z) : Prop :=
  ∀ bs v rest, Forall is_byte bs → m bs = inr (v, rest) → 0 ≤ v < 2 ^ w ∧ (length rest + n)%nat = length bs.

Lemma words_are_words : word_reader 8 1 read_u8 ∧ word_reader 16 2 read_u16 ∧ word_reader 32 4 read_u32 ∧ word_reader 64 8 read_u64.
Proof.
  assert (Hb : ∀ p n, is_byte p → 8 ≤ n → 0 ≤ p < 2 ^ n).
  { intros p n Hp Hn. pose proof (shifted_bound p 0 n Hp) as Hs. rewrite Z.shiftl_0_r in Hs. apply Hs; lia. }
  split_and!; intros bs v rest Hbs.
  - destruct bs as [|p bs]; [done|]. intros [= <- <-]. apply Forall_cons in Hbs as [Hp _]. split; [by apply Hb|simpl; lia].
  - destruct bs as [|p0 [|p1 bs]]; try done. intros [= <- <-]. rewrite !Forall_cons in Hbs. destruct Hbs as (H0 & H1 & _).
    split; [|simpl; lia]. apply lor_bound; [by apply shifted_bound|by apply Hb|lia].
  - destruct bs as [|p0 [|p1 [|p2 [|p3 bs]]]]; try done. intros [= <- <-]. rewrite !Forall_cons in Hbs. destruct Hbs as (H0 & H1 & H2 & H3 & _).
    split; [|simpl; lia]. repeat (apply lor_bound; [|first [by apply shifted_bound|by apply Hb]|lia]). by apply shifted_bound.
  - unfold read_u64, mbind, reader_bind, take_bytes. destruct (Z.ltb_spec (Z.of_nat (length bs)) 8); [done|]. intros [= <- <-].
    split; [|rewrite length_drop; lia].
    assert (Hf : ∀ l a, Forall is_byte l → 0 ≤ a < 2 ^ 64 → 0 ≤ foldl (λ v b, Z.lor (u64 (Z.shiftl v 8)) b) a l < 2 ^ 64).
    { induction l as [|b l IH]; intros a Hl Ha; [done|]. apply Forall_cons in Hl as [Hbb Hl]. apply IH; [done|].
      apply lor_bound; [apply Z.mod_pos_bound; done|by apply Hb|lia]. }
    apply Hf; [by apply Forall_take|done].
Qed.

Lemma pack_i64_length v : is_i64 v → length (pack_i64 v) =
  if (-32 <=? v) && (v <=? 127) then 1%nat
  else if (-128 <=? v) && (v <=? 255) then 2%nat
  else if (-32768 <=? v) && (v <=? 65535) then 3%nat
  else if (-2147483648 <=? v) && (v <=? 4294967295) then 5%nat else 9%nat.
Proof.
  unfold is_i64, i64_min, i64_max. intros Hv. unfold pack_i64. destruct (Z.leb_spec 0 v) as [Hpos|Hneg].
  - assert (Eu : u64 v = v) by (apply u64_small; unfold is_u64, two64; lia). rewrite Eu.
    rewrite !(proj2 (Z.leb_le _ v)) by lia. simpl. repeat case_match; try done; lia.
  - rewrite !(proj2 (Z.leb_le v _)) by lia. rewrite !andb_true_r. repeat case_match; try done; lia.
Qed.

Ltac shortest Hgo Hlen := apply Hgo; [lia|]; rewrite Hlen by lia; repeat case_match; simpl in *; lia.

(** The packer writes the shortest encoding.  Whatever bytes the unpacker reads
    an integer from, signed or unsigned, of any width, the integer is a 64-bit
    one, an unsigned value above that range being refused, and packing it takes
    at most as many bytes. *)
Theorem packed_integers_are_shortest (bs rest : list Z) (v : Z) : Forall is_byte bs → read_i64 bs = inr (v, rest) →
  is_i64 v ∧ (length (pack_i64 v) + length rest ≤ length bs)%nat.
Proof.
  intros Hbs. destruct bs as [|b bs]; [done|]. apply Forall_cons in Hbs as [Hb Hbs]. unfold is_byte in Hb.
  destruct words_are_words as (H8 & H16 & H32 & H64).
  assert (Hgo : is_i64 v → (length (pack_i64 v) + length rest ≤ S (length bs))%nat → is_i64 v ∧ (length (pack_i64 v) + length rest ≤ length (b :: bs))%nat) by done.
  assert (Hw : ∀ w n m, word_reader w n m → m bs = inr (v, rest) → 0 ≤ v < 2 ^ w ∧ (length rest + n)%nat = length bs) by (intros w n m Hm; by apply Hm).
  assert (Hs : ∀ w n m, 0 < w → word_reader w n m → (x ← m; mret (signed w x)) bs = inr (v, rest) → - 2 ^ (w - 1) ≤ v < 2 ^ (w - 1) ∧ (length rest + n)%nat = length bs).
  { intros w n m Hw0 Hm E. unfold mbind, reader_bind in E. destruct (m bs) as [?|[x r]] eqn:Em; [done|]. injection E as <- <-.
    destruct (Hm _ _ _ Hbs Em) as [Hx ?]. split; [|done]. unfold signed.
    assert (2 ^ w = 2 * 2 ^ (w - 1)) by (rewrite <- Z.pow_succ_r by lia; f_equal; lia). destruct (Z.ltb_spec x (2 ^ (w - 1))); lia. }
  unfold read_i64. rewrite (bind_inr _ _ _ _ _ (read_u8_cons b bs)).
  assert (Hlen := pack_i64_length v). unfold is_i64, i64_min, i64_max in *.
  destruct (Z.leb_spec b 127). { intros [= <- <-]. shortest Hgo Hlen. }
  destruct (Z.leb_spec 224 b).
  { intros [= <- <-]. unfold signed in *. change (2 ^ (8 - 1)) with 128 in *. change (2 ^ 8) with 256 in *. destruct (Z.ltb_spec b 128); [lia|].
    shortest Hgo Hlen. }
  destruct (b =? 204). { intros [Hv ?]%(Hw _ _ _ H8). shortest Hgo Hlen. }
  destruct (b =? 205). { intros [Hv ?]%(Hw _ _ _ H16). shortest Hgo Hlen. }
  destruct (b =? 206). { intros [Hv ?]%(Hw _ _ _ H32). shortest Hgo Hlen. }
  destruct (b =? 207).
  { unfold mbind, reader_bind. destruct (read_u64 bs) as [?|[x r]] eqn:Em; [done|]. destruct (H64 _ _ _ Hbs Em) as [Hx ?].
    destruct (Z.ltb_spec 9223372036854775807 x); [done|]. intros [= <- <-]. shortest Hgo Hlen. }
  destruct (b =? 208). { intros [Hv ?]%(Hs 8 1%nat read_u8 eq_refl H8). shortest Hgo Hlen. }
  destruct (b =? 209). { intros [Hv ?]%(Hs 16 2%nat read_u16 eq_refl H16). shortest Hgo Hlen. }
  destruct (b =? 210). { intros [Hv ?]%(Hs 32 4%nat read_u32 eq_refl H32). shortest Hgo Hlen. }
  destruct (b =? 211); [|done]. intros [Hv ?]%(Hs 64 8%nat read_u64 eq_refl H64). shortest Hgo Hlen.
Qed.

(** A wide encoding of five. *)
Lemma packed_integers_are_shortest_witness :
  Forall is_byte [211; 0; 0; 0; 0; 0; 0; 0; 5; 9] ∧ read_i64 [211; 0; 0; 0; 0; 0; 0; 0; 5; 9] = inr (5, [9]) ∧
  is_i64 5 ∧ (length (pack_i64 5) + length [9] ≤ 10)%nat.
Proof.
  assert (Hb : Forall is_byte [211; 0; 0; 0; 0; 0; 0; 0; 5; 9]) by (repeat constructor; unfold is_byte; lia).
  split; [exact Hb|]. split; [reflexivity|].
  exact (packed_integers_are_shortest [211; 0; 0; 0; 0; 0; 0; 0; 5; 9] [9] 5 Hb eq_refl).
Defined.
