(* ===== verification/Ipc.v ===== *)
(** * Messages: the values peers exchange

    Models include/lazily/ipc.hpp and the constants of types.hpp: node keys,
    blob references, snapshots, deltas and their operations, the replication
    frames, the permission table, the blob arena and the negotiation of
    capabilities.  [std::optional] and the exceptions are [option]. *)
From Stdlib Require Import String.
From S2P Require Import Prelude Bytes Hlc.
#[local] Open Scope Z_scope.

(** ** Node keys *)

(* include/lazily/ipc.hpp:24-24, kNodeKeyMaxLen *)
Definition kNodeKeyMaxLen : Z := 1024.
(* include/lazily/ipc.hpp:25-25, kNodeKeyMaxSegments *)
Definition kNodeKeyMaxSegments : Z := 32.

(** The loop over the bytes: [first] at the first one, and the segments so far. *)
(* include/lazily/ipc.hpp:33-39, NodeKey::create (loop) *)
Fixpoint segments_ok (first : bool) (segments : Z) (path : list Z) : bool :=
  match path with
  | [] => true
  | c :: rest =>
      if c =? 47 then
        if first || match rest with [] => true | d :: _ => d =? 47 end then false
        else if kNodeKeyMaxSegments <? segments + 1 then false
        else segments_ok false (segments + 1) rest
      else segments_ok false segments rest
  end.

Definition valid_path (path : list Z) : bool :=
  negb (bool_decide (path = [])) && (Z.of_nat (length path) <=? kNodeKeyMaxLen) && segments_ok true 1 path.

(** The constructor is private: a key always holds a path that [create] let
    through. *)
(* include/lazily/ipc.hpp:57-58, NodeKey (data members) *)
Record NodeKey := mkKey { path : list Z; path_valid : valid_path path = true }.

(* include/lazily/ipc.hpp:29-41, NodeKey::create *)
Definition key_create (p : list Z) : option NodeKey :=
  match decide (valid_path p = true) with left H => Some (mkKey p H) | right _ => None end.

(** The loop of [segments], with the bytes of the segment so far: what follows
    the last separator is a segment if it is not empty. *)
Fixpoint split_path (cur p : list Z) : list (list Z) :=
  match p with
  | [] => if decide (cur = []) then [] else [cur]
  | c :: rest => if c =? 47 then cur :: split_path [] rest else split_path (cur ++ [c]) rest
  end.

(* include/lazily/ipc.hpp:44-54, NodeKey::segments *)
Definition key_segments (k : NodeKey) : list (list Z) := split_path [] (path k).

(** Segments with separators between them. *)
Fixpoint join_path (l : list (list Z)) : list Z :=
  match l with
  | [] => []
  | [s] => s
  | s :: l => s ++ 47 :: join_path l
  end.

Lemma split_path_ok p : ∀ cur n first, segments_ok first n p = true → n ≤ kNodeKeyMaxSegments →
  (cur = [] → p ≠ [] ∧ head p ≠ Some 47) →
  join_path (split_path cur p) = cur ++ p ∧ Forall (λ s, s ≠ []) (split_path cur p) ∧ split_path cur p ≠ [] ∧
  Z.of_nat (length (split_path cur p)) + n ≤ kNodeKeyMaxSegments + 1.
Proof.
  unfold kNodeKeyMaxSegments. induction p as [|c p IH]; intros cur n first Hok Hn Hcur.
  - simpl. destruct (decide (cur = [])) as [E|Hne]; [by apply Hcur in E as [? _]|]. rewrite app_nil_r. split_and!; [done|by constructor|done|simpl; lia].
  - cbn [segments_ok] in Hok. cbn [split_path]. destruct (Z.eqb_spec c 47) as [->|Hc].
    + destruct (first || _) eqn:Ef; [done|]. apply orb_false_iff in Ef as [_ Ef]. destruct p as [|d p]; [done|]. apply Z.eqb_neq in Ef.
      unfold kNodeKeyMaxSegments in Hok. destruct (Z.ltb_spec 32 (n + 1)); [done|].
      destruct (IH [] (n + 1) false Hok ltac:(lia)) as (Ej & Hf & Hne & Hl); [intros _; split; [done|]; intros [= ->]; done|].
      split_and!; [|constructor; [|done]|done|cbn [length]; lia].
      * destruct (split_path [] (d :: p)) as [|s l]; [done|]. cbn [join_path]. simpl in Ej. by rewrite Ej.
      * intros E. apply Hcur in E as [_ E]. by destruct E.
    + destruct (IH (cur ++ [c]) n false Hok Hn) as (Ej & Hf & Hne & Hl); [intros E; by apply app_nil in E as [_ ?]|].
      rewrite <- app_assoc in Ej. by split_and!.
Qed.

(** The segments of a key are its path, cut at the separators: none is empty
    and there are at most 32. *)
Lemma key_segments_ok (k : NodeKey) :
  join_path (key_segments k) = path k ∧ Forall (λ s, s ≠ []) (key_segments k) ∧
  Z.of_nat (length (key_segments k)) ≤ kNodeKeyMaxSegments.
Proof.
  destruct k as [p Hp]. unfold key_segments. simpl. unfold valid_path in Hp. apply andb_prop in Hp as [Hp Hs].
  apply andb_prop in Hp as [Hne _]. apply negb_true_iff, bool_decide_eq_false in Hne.
  destruct (split_path_ok p [] 1 true Hs) as (Ej & Hf & _ & Hl); [unfold kNodeKeyMaxSegments; lia| |split_and!; [done|done|lia]].
  intros _. split; [done|]. destruct p as [|c p]; [done|]. intros [= ->]. by simpl in Hs.
Qed.

#[export] Instance NodeKey_eq_dec : EqDecision NodeKey.
Proof.
  intros [p Hp] [q Hq]. destruct (decide (p = q)) as [->|Hne]; [left|right; by intros [=]]. f_equal. apply (proof_irrel Hp Hq).
Defined.

Lemma key_create_path k : key_create (path k) = Some k.
Proof. destruct k as [p Hp]. unfold key_create. simpl. destruct (decide _) as [H|H]; [|done]. do 2 f_equal. apply (proof_irrel H Hp). Qed.

(** ** Blob references *)

(* include/lazily/ipc.hpp:70-70, BlobBackendKind *)
Inductive BlobBackendKind := Shm | Arrow | InProcess.
#[export] Instance BlobBackendKind_eq_dec : EqDecision BlobBackendKind.
Proof. solve_decision. Defined.

(* include/lazily/ipc.hpp:89-99, blob_backend_kind_str *)
Definition blob_backend_kind_str (k : BlobBackendKind) : list Z :=
  match k with Shm => bytes_of "shm" | Arrow => bytes_of "arrow" | InProcess => bytes_of "in_process" end.
(* include/lazily/ipc.hpp:164-169, blob_backend_kind_from_str *)
Definition blob_backend_kind_from_str (s : list Z) : option BlobBackendKind :=
  if decide (s = bytes_of "shm") then Some Shm
  else if decide (s = bytes_of "arrow") then Some Arrow
  else if decide (s = bytes_of "in_process") then Some InProcess
  else None.

(* include/lazily/ipc.hpp:173-179, ShmBlobRef (data members) *)
Record ShmBlobRef := mkBlob { offset : Z; len : Z; generation : Z; blob_epoch : Z; checksum : Z; backend : BlobBackendKind }.
#[export] Instance ShmBlobRef_eq_dec : EqDecision ShmBlobRef.
Proof. solve_decision. Defined.

(* include/lazily/ipc.hpp:181-186, ShmBlobRef::validate *)
Definition blob_validate (r : ShmBlobRef) (max_len : option Z) : bool :=
  if (offset r <? 0) || (len r <? 0) || (generation r <? 0) || (blob_epoch r <? 0) || (checksum r <? 0) then false
  else match max_len with Some m => negb (m <? len r) | None => true end.

(** ** Values and operations *)

(* include/lazily/ipc.hpp:191-199, NodeState *)
Inductive NodeState := StatePayload (bytes : list Z) | StateSharedBlob (blob : ShmBlobRef) | StateOpaque.
(* include/lazily/ipc.hpp:203-210, IpcValue *)
Inductive IpcValue := ValueInline (bytes : list Z) | ValueSharedBlob (blob : ShmBlobRef).

(** Equality of the bytes: the backend of a blob is not compared. *)
(* include/lazily/ipc.hpp:212-221, ipc_value_equal *)
Definition ipc_value_equal (a b : IpcValue) : bool :=
  match a, b with
  | ValueInline x, ValueInline y => bool_decide (x = y)
  | ValueSharedBlob x, ValueSharedBlob y =>
      (offset x =? offset y) && (len x =? len y) && (generation x =? generation y) &&
      (blob_epoch x =? blob_epoch y) && (checksum x =? checksum y)
  | _, _ => false
  end.

(* include/lazily/ipc.hpp:225-230, NodeSnapshot *)
Record NodeSnapshot := mkNode { ns_node : Z; ns_type_tag : list Z; ns_state : NodeState; ns_key : option NodeKey }.
(* include/lazily/ipc.hpp:232-235, EdgeSnapshot *)
Record EdgeSnapshot := mkEdge { dependent : Z; dependency : Z }.
(* include/lazily/ipc.hpp:237-242, Snapshot *)
Record Snapshot := mkSnapshot { s_epoch : Z; s_nodes : list NodeSnapshot; s_edges : list EdgeSnapshot; s_roots : list Z }.

(* include/lazily/ipc.hpp:246-292, DeltaOp *)
Inductive DeltaOp :=
  | CellSet (node : Z) (payload : IpcValue)
  | SlotValue (node : Z) (payload : IpcValue)
  | Invalidate (node : Z)
  | NodeAdd (node : Z) (type_tag : list Z) (state : NodeState) (key : option NodeKey)
  | NodeRemove (node : Z)
  | EdgeAdd (dependent dependency : Z)
  | EdgeRemove (dependent dependency : Z)
  | QueuePush (node : Z) (payload : IpcValue)
  | QueuePop (node : Z)
  | QueueClose (node : Z).

(* include/lazily/ipc.hpp:309-312, Delta (data members) *)
Record Delta := mkDelta { base_epoch : Z; d_epoch : Z; d_ops : list DeltaOp }.
(* include/lazily/ipc.hpp:314-316, Delta::is_next_after *)
Definition is_next_after (d : Delta) (last_epoch : Z) : bool := (base_epoch d =? last_epoch) && (d_epoch d =? base_epoch d + 1).
(* include/lazily/ipc.hpp:296-305, DeltaApplyStatus *)
Inductive DeltaApplyStatus := StatusApply (new_epoch : Z) | StatusResync (last_epoch base_epoch epoch : Z).
(* include/lazily/ipc.hpp:318-321, Delta::apply_status *)
Definition apply_status (d : Delta) (last_epoch : Z) : DeltaApplyStatus :=
  if is_next_after d last_epoch then StatusApply (d_epoch d) else StatusResync last_epoch (base_epoch d) (d_epoch d).
(* include/lazily/ipc.hpp:324-326, delta_next *)
Definition delta_next (base : Z) (ops : list DeltaOp) : Delta := mkDelta base (base + 1) ops.

(* include/lazily/ipc.hpp:330-333, StampFrontierEntry *)
Record StampFrontierEntry := mkFrontierEntry { fe_peer : Z; fe_stamp : WireStamp }.
(* include/lazily/ipc.hpp:335-340, CrdtOp *)
Record CrdtOp := mkCrdtOp { co_node : Z; co_key : option NodeKey; co_stamp : WireStamp; co_state : IpcValue }.
(* include/lazily/ipc.hpp:342-345, CrdtSync *)
Record CrdtSync := mkCrdtSync { frontier : list StampFrontierEntry; cs_ops : list CrdtOp }.

(* include/lazily/ipc.hpp:356-386, IpcMessage *)
Inductive IpcMessage :=
  | MessageSnapshot (value : Snapshot) | MessageDelta (value : Delta) | MessageCrdtSync (value : CrdtSync)
  | MessageResyncRequest (from_epoch : Z) | MessageOutboxAck (through_epoch : Z).

(* include/lazily/ipc.hpp:388-390, ipc_resync_request *)
Definition ipc_resync_request (from_epoch : Z) : IpcMessage := MessageResyncRequest from_epoch.
(* include/lazily/ipc.hpp:391-393, ipc_outbox_ack *)
Definition ipc_outbox_ack (through_epoch : Z) : IpcMessage := MessageOutboxAck through_epoch.

(** ** Permissions *)

(* include/lazily/ipc.hpp:515-515, OpKind *)
Inductive OpKind := Read | Write | TriggerEffect.
#[export] Instance OpKind_eq_dec : EqDecision OpKind.
Proof. solve_decision. Defined.
#[export] Instance OpKind_countable : Countable OpKind.
Proof.
  refine (inj_countable' (λ k, match k with Read => 0 | Write => 1 | TriggerEffect => 2 end)%nat
    (λ n, match n with O => Read | 1 => Write | _ => TriggerEffect end)%nat _). by intros [].
Defined.

(* include/lazily/ipc.hpp:517-520, RemoteOp *)
Record RemoteOp := mkRemoteOp { ro_kind : OpKind; ro_node : Z }.
#[export] Instance RemoteOp_eq_dec : EqDecision RemoteOp.
Proof. solve_decision. Defined.
(* include/lazily/ipc.hpp:522-524, read_op *)
Definition read_op (node : Z) : RemoteOp := mkRemoteOp Read node.
(* include/lazily/ipc.hpp:523-523, write_op *)
Definition write_op (node : Z) : RemoteOp := mkRemoteOp Write node.
(* include/lazily/ipc.hpp:524-524, trigger_effect_op *)
Definition trigger_effect_op (node : Z) : RemoteOp := mkRemoteOp TriggerEffect node.

(* include/lazily/ipc.hpp:568-568, PeerPermissions (data members) *)
Definition PeerPermissions : Type := gmap Z (gmap OpKind (gset Z)).

(* include/lazily/ipc.hpp:533-535, PeerPermissions::allow *)
Definition allow (peer : Z) (op : RemoteOp) (p : gmap Z (gmap OpKind (gset Z))) : bool * gmap Z (gmap OpKind (gset Z)) :=
  let kinds := default ∅ (p !! peer) in
  let nodes := default ∅ (kinds !! ro_kind op) in
  (bool_decide (ro_node op ∉ nodes), <[peer := <[ro_kind op := {[ ro_node op ]} ∪ nodes]> kinds]> p).

(* include/lazily/ipc.hpp:537-543, PeerPermissions::revoke *)
Definition revoke (peer : Z) (op : RemoteOp) (p : gmap Z (gmap OpKind (gset Z))) : bool * gmap Z (gmap OpKind (gset Z)) :=
  match p !! peer with
  | None => (false, p)
  | Some kinds =>
      match kinds !! ro_kind op with
      | None => (false, p)
      | Some nodes =>
          (bool_decide (ro_node op ∈ nodes), <[peer := <[ro_kind op := nodes ∖ {[ ro_node op ]}]> kinds]> p)
      end
  end.

(* include/lazily/ipc.hpp:545-545, PeerPermissions::revoke_peer *)
Definition revoke_peer (peer : Z) (p : gmap Z (gmap OpKind (gset Z))) : bool * gmap Z (gmap OpKind (gset Z)) :=
  (bool_decide (is_Some (p !! peer)), delete peer p).

(* include/lazily/ipc.hpp:547-553, PeerPermissions::is_allowed *)
Definition is_allowed (peer : Z) (op : RemoteOp) (p : gmap Z (gmap OpKind (gset Z))) : bool :=
  match p !! peer ≫= λ kinds, kinds !! ro_kind op with
  | Some nodes => bool_decide (ro_node op ∈ nodes)
  | None => false
  end.

(* include/lazily/ipc.hpp:555-555, PeerPermissions::can_read *)
Definition can_read (peer node : Z) (p : gmap Z (gmap OpKind (gset Z))) : bool := is_allowed peer (read_op node) p.
(* include/lazily/ipc.hpp:557-557, PeerPermissions::peer_count *)
Definition peer_count (p : gmap Z (gmap OpKind (gset Z))) : nat := size p.
(* include/lazily/ipc.hpp:559-565, PeerPermissions::filter_readable *)
Definition filter_readable (peer : Z) (nodes : list Z) (p : gmap Z (gmap OpKind (gset Z))) : list Z :=
  filter (λ n, can_read peer n p = true) nodes.

(** The nodes a peer may touch with an operation of a kind. *)
Definition granted (peer : Z) (k : OpKind) (p : gmap Z (gmap OpKind (gset Z))) : gset Z :=
  default ∅ (default ∅ (p !! peer) !! k).

Lemma is_allowed_granted peer op p : is_allowed peer op p = bool_decide (ro_node op ∈ granted peer (ro_kind op) p).
Proof.
  unfold is_allowed, granted. destruct (p !! peer) as [ks|]; simpl; [destruct (ks !! ro_kind op)|]; simpl; done.
Qed.

Lemma granted_set peer k nodes p peer' k' :
  granted peer' k' (<[peer := <[k := nodes]> (default ∅ (p !! peer))]> p) =
  if decide (peer = peer' ∧ k = k') then nodes else granted peer' k' p.
Proof.
  unfold granted. destruct (decide (peer = peer')) as [<-|Hp].
  - rewrite lookup_insert_eq. simpl. destruct (decide (k = k')) as [<-|Hk].
    + rewrite lookup_insert_eq, decide_True by done. done.
    + rewrite lookup_insert_ne, decide_False by naive_solver. done.
  - rewrite lookup_insert_ne, decide_False by naive_solver. done.
Qed.

Lemma allow_granted peer op p peer' k :
  granted peer' k (allow peer op p).2 =
  if decide (peer = peer' ∧ ro_kind op = k) then {[ ro_node op ]} ∪ granted peer (ro_kind op) p else granted peer' k p.
Proof. unfold allow. simpl. by rewrite granted_set. Qed.

Lemma revoke_granted peer op p peer' k :
  granted peer' k (revoke peer op p).2 =
  if decide (peer = peer' ∧ ro_kind op = k) then granted peer (ro_kind op) p ∖ {[ ro_node op ]} else granted peer' k p.
Proof.
  unfold revoke. destruct (p !! peer) as [ks|] eqn:Ep; [destruct (ks !! ro_kind op) as [ns|] eqn:Ek|].
  - simpl. pose proof (granted_set peer (ro_kind op) (ns ∖ {[ro_node op]}) p peer' k) as Hs. rewrite Ep in Hs. simpl in Hs.
    rewrite Hs. unfold granted at 2. rewrite Ep. simpl. by rewrite Ek.
  - simpl. destruct (decide _) as [[-> <-]|]; [|done]. unfold granted. rewrite Ep. simpl. rewrite Ek. simpl. set_solver.
  - simpl. destruct (decide _) as [[-> <-]|]; [|done]. unfold granted. rewrite Ep. simpl. rewrite lookup_empty. simpl. set_solver.
Qed.

Lemma revoke_peer_granted peer p peer' k :
  granted peer' k (revoke_peer peer p).2 = if decide (peer = peer') then ∅ else granted peer' k p.
Proof.
  unfold revoke_peer, granted. simpl. destruct (decide _) as [->|Hne]; [by rewrite lookup_delete_eq|by rewrite lookup_delete_ne].
Qed.

(** What a permission table allows is what was last said of it, and the
    operations tell whether they changed it. *)
Lemma permissions_follow (peer peer' : Z) (op op' : RemoteOp) (p : gmap Z (gmap OpKind (gset Z))) :
  let same := bool_decide (peer = peer' ∧ op = op') in
  is_allowed peer' op' (allow peer op p).2 = same || is_allowed peer' op' p ∧
  (allow peer op p).1 = negb (is_allowed peer op p) ∧
  is_allowed peer' op' (revoke peer op p).2 = negb same && is_allowed peer' op' p ∧
  (revoke peer op p).1 = is_allowed peer op p ∧
  is_allowed peer' op' (revoke_peer peer p).2 = negb (bool_decide (peer = peer')) && is_allowed peer' op' p.
Proof.
  destruct op as [k n], op' as [k' n']. rewrite !is_allowed_granted, allow_granted, revoke_granted, revoke_peer_granted.
  unfold ro_kind, ro_node. split_and!.
  - destruct (decide (peer = peer' ∧ k = k')) as [[<- <-]|Hne].
    + repeat case_bool_decide; simplify_eq/=; try done; exfalso; set_solver.
    + rewrite (bool_decide_eq_false_2 (peer = peer' ∧ _)) by naive_solver. done.
  - unfold allow, granted. simpl. by rewrite <- bool_decide_not.
  - destruct (decide (peer = peer' ∧ k = k')) as [[<- <-]|Hne].
    + repeat case_bool_decide; simplify_eq/=; try done; exfalso; set_solver.
    + rewrite (bool_decide_eq_false_2 (peer = peer' ∧ _)) by naive_solver. done.
  - unfold revoke, granted. simpl. destruct (p !! peer) as [ks|]; simpl; [|by rewrite lookup_empty].
    by destruct (ks !! k).
  - destruct (decide (peer = peer')) as [->|Hne]; [by rewrite (bool_decide_eq_true_2 (peer' = peer'))|].
    by rewrite (bool_decide_eq_false_2 (peer = peer')).
Qed.

(** ** The blob arena *)

(* include/lazily/ipc.hpp:628-633, ShmBlobArena::Entry (data members) *)
Record Entry := mkEntry { e_generation : Z; e_epoch : Z; e_payload : list Z; ref_count : Z; checksum_cached : Z }.

(* include/lazily/ipc.hpp:636-640, compute_checksum (loop) *)
Definition fnv1a (payload : list Z) : Z :=
  foldl (λ hash b, u64 (Z.lxor hash b * 1099511628211)) 14695981039346656037 payload.
(** The cast to a signed word: what is above the half is negative. *)
Definition to_i64 (z : Z) : Z := if i64_max <? z then z - two64 else z.
(* include/lazily/ipc.hpp:635-641, ShmBlobArena::Entry::compute_checksum *)
Definition compute_checksum (payload : list Z) : Z := to_i64 (fnv1a payload).
(* include/lazily/ipc.hpp:644-646, ShmBlobArena::Entry::to_ref *)
Definition to_ref (offset : Z) (e : Entry) : ShmBlobRef :=
  mkBlob offset (Z.of_nat (length (e_payload e))) (e_generation e) (e_epoch e) (checksum_cached e) Shm.

(* include/lazily/ipc.hpp:649-651, ShmBlobArena (data members) *)
Record ShmBlobArena := mkArena { a_epoch : Z; a_generation : Z; entries : list Entry }.
(* include/lazily/ipc.hpp:575-575, ShmBlobArena (constructor) *)
Definition arena_new (epoch : Z) : ShmBlobArena := mkArena epoch 0 [].
(* include/lazily/ipc.hpp:578-578, ShmBlobArena::length *)
Definition arena_length (a : ShmBlobArena) : nat := length (entries a).
(* include/lazily/ipc.hpp:579-579, ShmBlobArena::is_empty *)
Definition arena_is_empty (a : ShmBlobArena) : bool := bool_decide (entries a = []).

(* include/lazily/ipc.hpp:581-595, ShmBlobArena::write *)
Definition arena_write (bytes : list Z) (a : ShmBlobArena) : ShmBlobRef * ShmBlobArena :=
  let generation := a_generation a + 1 in
  let offset := Z.of_nat (length (entries a)) in
  let entry := mkEntry generation (a_epoch a) bytes 1 (compute_checksum bytes) in
  (to_ref offset entry, mkArena (a_epoch a) generation (entries a ++ [entry])).

(** The null pointer is [None]; the entries are never null. *)
(* include/lazily/ipc.hpp:607-616, ShmBlobArena::read_view *)
Definition read_view (r : ShmBlobRef) (a : ShmBlobArena) : option (list Z) :=
  if offset r <? 0 then None else
  match entries a !! Z.to_nat (offset r) with
  | None => None
  | Some entry =>
      if negb (e_generation entry =? generation r) then None
      else if negb (e_epoch entry =? blob_epoch r) then None
      else if negb (Z.of_nat (length (e_payload entry)) =? len r) then None
      else if negb (checksum_cached entry =? checksum r) then None
      else Some (e_payload entry)
  end.
(* include/lazily/ipc.hpp:597-600, ShmBlobArena::read *)
Definition arena_read (r : ShmBlobRef) (a : ShmBlobArena) : list Z :=
  match read_view r a with Some v => v | None => [] end.

(* include/lazily/ipc.hpp:618-625, ShmBlobArena::advance_epoch *)
Definition advance_epoch (a : ShmBlobArena) : ShmBlobArena :=
  let epoch := a_epoch a + 1 in
  mkArena epoch (a_generation a)
    ((λ e, mkEntry (e_generation e) epoch (e_payload e) (ref_count e) (checksum_cached e)) <$> entries a).

Inductive ArenaOp := ArenaWrite (bytes : list Z) | ArenaAdvance.
Definition arena_step (a : ShmBlobArena) (o : ArenaOp) : ShmBlobArena :=
  match o with ArenaWrite bytes => (arena_write bytes a).2 | ArenaAdvance => advance_epoch a end.
Definition is_write (o : ArenaOp) : bool := match o with ArenaWrite _ => true | ArenaAdvance => false end.

(** An entry a descriptor names, for as long as the arena lives: the payload
    and the generation never change, the epoch is the arena's. *)
Definition names (r : ShmBlobRef) (bytes : list Z) (a : ShmBlobArena) : Prop :=
  ∃ e, 0 ≤ offset r ∧ entries a !! Z.to_nat (offset r) = Some e ∧ e_payload e = bytes ∧
       e_generation e = generation r ∧ len r = Z.of_nat (length bytes) ∧ checksum_cached e = checksum r.

Lemma write_names bytes a : names (arena_write bytes a).1 bytes (arena_write bytes a).2.
Proof.
  exists (mkEntry (a_generation a + 1) (a_epoch a) bytes 1 (compute_checksum bytes)). unfold arena_write. cbn. split_and!; [lia| |done..].
  by rewrite Nat2Z.id, lookup_app_r, Nat.sub_diag by lia.
Qed.

Lemma step_names r bytes a o : names r bytes a → names r bytes (arena_step a o).
Proof.
  intros (e & Ho & He & Hb & Hg & Hl & Hc). destruct o; simpl.
  - exists e. simpl. split_and!; try done. by apply lookup_app_l_Some.
  - eexists. simpl. rewrite list_lookup_fmap, He. by split_and!.
Qed.

Definition epochs_agree (a : ShmBlobArena) : Prop := Forall (λ e, e_epoch e = a_epoch a) (entries a).

Lemma step_epochs a o : epochs_agree a → epochs_agree (arena_step a o).
Proof.
  unfold epochs_agree. intros Ha. destruct o; simpl.
  - apply Forall_app. by split; [|constructor].
  - apply Forall_forall. intros e (e' & -> & _)%list_elem_of_fmap. done.
Qed.

Lemma read_view_names r bytes a :
  names r bytes a → epochs_agree a → read_view r a = if a_epoch a =? blob_epoch r then Some bytes else None.
Proof.
  intros (e & Ho & He & Hb & Hg & Hl & Hc) Ha. unfold read_view. destruct (Z.ltb_spec (offset r) 0); [lia|]. rewrite He, Hb, Hg, Hc, Hl, !Z.eqb_refl.
  simpl. assert (e_epoch e = a_epoch a) as -> by (apply (proj1 (Forall_lookup _ _) Ha _ _ He)). by destruct (_ =? _).
Qed.

Lemma steps_names r bytes a os : names r bytes a → names r bytes (foldl arena_step a os).
Proof. revert a. induction os as [|o os IH]; intros a Ha; [done|]. apply IH. by apply step_names. Qed.
Lemma steps_epochs a os : epochs_agree a → epochs_agree (foldl arena_step a os).
Proof. revert a. induction os as [|o os IH]; intros a Ha; [done|]. apply IH. by apply step_epochs. Qed.
Lemma steps_epoch a os : a_epoch (foldl arena_step a os) = a_epoch a + Z.of_nat (length (filter (λ o, is_write o = false) os)).
Proof. revert a. induction os as [|[] os IH]; intros a; simpl; [lia|by rewrite IH|]. rewrite IH. simpl. lia. Qed.

(** A descriptor reads back the bytes it was given for, whatever is written
    after, until the epoch advances; from then on it reads nothing. *)
Lemma arena_reads_back (epoch : Z) (before after : list ArenaOp) (bytes : list Z) :
  let a := foldl arena_step (arena_new epoch) before in
  let '(r, a') := arena_write bytes a in
  read_view r (foldl arena_step a' after) = if forallb is_write after then Some bytes else None.
Proof.
  simpl. set (a := foldl _ _ before). change (read_view (arena_write bytes a).1 (foldl arena_step (arena_write bytes a).2 after) =
    if forallb is_write after then Some bytes else None).
  rewrite (read_view_names _ bytes) by (first [apply steps_names, write_names | apply steps_epochs, (step_epochs a (ArenaWrite bytes)), steps_epochs; by constructor]).
  rewrite steps_epoch. cbn [a_epoch arena_write snd fst blob_epoch to_ref e_epoch].
  assert (forallb is_write after = (length (filter (λ o, is_write o = false) after) =? 0)%nat) as ->.
  { clear. induction after as [|[] l IH]; [done|exact IH|done]. }
  generalize (length (filter (λ o, is_write o = false) after)). intros n.
  destruct (Z.eqb_spec (a_epoch a + Z.of_nat n) (a_epoch a)), (Nat.eqb_spec n 0); (done || lia).
Qed.

(** Nor does it name anything else: a view is of an entry with the
    descriptor's generation, epoch, length and checksum. *)
Lemma read_view_Some r a bytes :
  read_view r a = Some bytes →
  ∃ e, 0 ≤ offset r ∧ entries a !! Z.to_nat (offset r) = Some e ∧ e_payload e = bytes ∧ e_generation e = generation r ∧
       e_epoch e = blob_epoch r ∧ Z.of_nat (length bytes) = len r ∧ checksum_cached e = checksum r.
Proof.
  unfold read_view. destruct (Z.ltb_spec (offset r) 0); [done|]. destruct (entries a !! _) as [e|] eqn:Ee; [|done].
  destruct (Z.eqb_spec (e_generation e) (generation r)); [|done]. destruct (Z.eqb_spec (e_epoch e) (blob_epoch r)); [|done].
  destruct (Z.eqb_spec (Z.of_nat (length (e_payload e))) (len r)); [|done]. destruct (Z.eqb_spec (checksum_cached e) (checksum r)); [|done].
  simpl. intros [= <-]. by exists e.
Qed.

(** A descriptor with a checksum above the half of the word is one the arena
    resolves and [validate] refuses. *)
Lemma arena_ref_not_valid :
  let '(r, a) := arena_write (bytes_of "foobar") (arena_new 0) in
  read_view r a = Some (bytes_of "foobar") ∧ blob_validate r None = false.
Proof. by vm_compute. Qed.

(** ** Capability negotiation *)

(* include/lazily/types.hpp:55-62, Codec *)
Inductive Codec := CodecJson | CodecMsgPack.
#[export] Instance Codec_eq_dec : EqDecision Codec.
Proof. solve_decision. Defined.
(** Every constructor has a token: the exception is for a value that is none. *)
(* include/lazily/types.hpp:72-80, codec_token *)
Definition codec_token (c : Codec) : list Z :=
  match c with CodecJson => bytes_of "json" | CodecMsgPack => bytes_of "msgpack" end.
(* include/lazily/types.hpp:85-89, codec_from_token *)
Definition codec_from_token (token : list Z) : option Codec :=
  if decide (token = bytes_of "json") then Some CodecJson
  else if decide (token = bytes_of "msgpack") then Some CodecMsgPack
  else None.

Lemma codec_from_token_Some token c : codec_from_token token = Some c ↔ codec_token c = token.
Proof.
  unfold codec_from_token. split; [|by intros <-; destruct c].
  destruct (decide _) as [->|]; [by intros [= <-]|]. by destruct (decide _) as [->|]; [intros [= <-]|].
Qed.

(* include/lazily/ipc.hpp:673-677, CapabilityCheck *)
Record CapabilityCheck := mkCheck { check_ok : bool; field : list Z; reason : list Z }.
(* include/lazily/ipc.hpp:682-687, NegotiatedCapabilities *)
Record NegotiatedCapabilities := mkNegotiated {
  n_codec : Codec; n_max_frame_size : Z; n_fragmentation : bool; n_session_id : list Z }.
(* include/lazily/ipc.hpp:689-691, CapabilityNegotiation (data members) *)
Record CapabilityNegotiation := mkNegotiation { check : CapabilityCheck; capabilities : option NegotiatedCapabilities }.
(* include/lazily/ipc.hpp:693-693, CapabilityNegotiation::ok *)
Definition negotiation_ok (n : CapabilityNegotiation) : bool := check_ok (check n) && bool_decide (is_Some (capabilities n)).
(* include/lazily/ipc.hpp:696-708, CapabilityHandshake (data members) *)
Record CapabilityHandshake := mkHandshake {
  protocol_id : list Z; protocol_major_version : Z; codec : Codec; max_frame_size : Z; fragmentation_supported : bool;
  ordered_reliable : bool; peer_id : Z; session_id : list Z; features : list (list Z) }.
(* include/lazily/ipc.hpp:710-715, CapabilityHandshake::has_feature *)
Definition has_feature (h : CapabilityHandshake) (feature : list Z) : bool := existsb (λ f, bool_decide (f = feature)) (features h).

(** The first of the required features the other side does not have. *)
(* include/lazily/ipc.hpp:736-738, CapabilityHandshake::negotiate (loop) *)
Fixpoint missing_feature (other : CapabilityHandshake) (required : list (list Z)) : option (list Z) :=
  match required with
  | [] => None
  | f :: required => if negb (has_feature other f) then Some f else missing_feature other required
  end.

Definition refuse (field reason : list Z) : CapabilityNegotiation := mkNegotiation (mkCheck false field reason) None.

(* include/lazily/ipc.hpp:717-746, CapabilityHandshake::negotiate *)
Definition negotiate (self other : CapabilityHandshake) (required_features : list (list Z)) : CapabilityNegotiation :=
  if negb (bool_decide (protocol_id self = protocol_id other)) then
    refuse (bytes_of "protocol_id") (bytes_of "protocol id mismatch")
  else if negb (protocol_major_version self =? protocol_major_version other) then
    refuse (bytes_of "protocol_major_version") (bytes_of "major version mismatch")
  else if negb (bool_decide (codec self = codec other)) then
    refuse (bytes_of "codec") (bytes_of "codec mismatch: " ++ codec_token (codec self) ++ bytes_of " vs " ++ codec_token (codec other))
  else if negb (ordered_reliable self) || negb (ordered_reliable other) then
    refuse (bytes_of "ordered_reliable") (bytes_of "both peers must require ordered reliable")
  else if (max_frame_size self <=? 0) || (max_frame_size other <=? 0) then
    refuse (bytes_of "max_frame_size") (bytes_of "both peers must advertise a positive receive ceiling")
  else if bool_decide (session_id self = []) || bool_decide (session_id other = []) then
    refuse (bytes_of "session_id") (bytes_of "both peers must advertise a non-empty session_id")
  else if negb (bool_decide (session_id self = session_id other)) then
    refuse (bytes_of "session_id") (bytes_of "session_id mismatch: " ++ session_id self ++ bytes_of " vs " ++ session_id other)
  else match missing_feature other required_features with
  | Some f => refuse (bytes_of "features") (bytes_of "missing required feature: " ++ f)
  | None =>
      mkNegotiation (mkCheck true [] []) (Some (mkNegotiated (codec self)
        (if max_frame_size self <? max_frame_size other then max_frame_size self else max_frame_size other)
        (fragmentation_supported self && fragmentation_supported other) (session_id self)))
  end.
(* include/lazily/ipc.hpp:748-751, CapabilityHandshake::check_compatible *)
Definition check_compatible (self other : CapabilityHandshake) (required_features : list (list Z)) : CapabilityCheck :=
  check (negotiate self other required_features).
(* include/lazily/ipc.hpp:753-753, CapabilityHandshake::is_compatible_with *)
Definition is_compatible_with (self other : CapabilityHandshake) : bool := negotiation_ok (negotiate self other []).
(* include/lazily/ipc.hpp:756-761, new_capability_handshake *)
Definition new_capability_handshake (peer : Z) (session : list Z) : CapabilityHandshake :=
  mkHandshake (bytes_of "lazily-ipc") 1 CodecMsgPack 1048576 false true peer session [].

(** Two endpoints that require nothing of each other reach the same terms, or
    both refuse over the same field. *)
Lemma negotiation_agrees (a b : CapabilityHandshake) :
  capabilities (negotiate a b []) = capabilities (negotiate b a []) ∧
  check_ok (check (negotiate a b [])) = check_ok (check (negotiate b a [])) ∧
  field (check (negotiate a b [])) = field (check (negotiate b a [])) ∧
  is_compatible_with a b = is_compatible_with b a.
Proof.
  unfold is_compatible_with, negotiate. cbn [missing_feature].
  rewrite (bool_decide_ext (protocol_id b = protocol_id a) (protocol_id a = protocol_id b)) by done.
  rewrite (Z.eqb_sym (protocol_major_version b)), (bool_decide_ext (codec b = codec a) (codec a = codec b)) by done.
  rewrite (orb_comm (negb (ordered_reliable b))), (orb_comm (max_frame_size b <=? 0)), (orb_comm (bool_decide (session_id b = []))).
  rewrite (bool_decide_ext (session_id b = session_id a) (session_id a = session_id b)) by done.
  rewrite (andb_comm (fragmentation_supported b)).
  destruct (bool_decide (protocol_id a = protocol_id b)); [|done]. destruct (protocol_major_version a =? protocol_major_version b); [|done].
  destruct (bool_decide_reflect (codec a = codec b)) as [->|]; [|done]. destruct (negb (ordered_reliable a) || negb (ordered_reliable b)); [done|].
  destruct (max_frame_size a <=? 0); [done|]. destruct (max_frame_size b <=? 0); [done|]. simpl.
  destruct (bool_decide (session_id a = []) || bool_decide (session_id b = [])); [done|]. destruct (bool_decide_reflect (session_id a = session_id b)) as [->|]; [|done].
  simpl. assert ((if max_frame_size a <? max_frame_size b then max_frame_size a else max_frame_size b) =
    (if max_frame_size b <? max_frame_size a then max_frame_size b else max_frame_size a)) as -> by (destruct (Z.ltb_spec (max_frame_size a) (max_frame_size b)), (Z.ltb_spec (max_frame_size b) (max_frame_size a)); lia).
  done.
Qed.
