(* ===== verification/JsonCodec.v ===== *)
(** * JsonCodec: messages as JSON and MessagePack frames

    Models include/lazily/json_codec.hpp, the entry points of msgpack_codec.hpp
    and codec_dispatch.hpp: a message as a document, in the externally tagged
    shape of the wire, and back; the two codecs over that one shape; and the
    session whose codec and ceiling the peers negotiated. *)
From Stdlib Require Import Ascii String.
From S2P Require Import Prelude Bytes Hlc Json Msgpack Ipc.
#[local] Open Scope Z_scope.

(** What a decoder returns: a value, or the exception. *)
Definition Decoded (A : Type) : Type := fault + A.
#[export] Instance decoded_ret : MRet Decoded := λ A a, inr a.
#[export] Instance decoded_bind : MBind Decoded := λ A B f m, match m with inl e => inl e | inr a => f a end.

(** The text of an exception that quotes bytes. *)
Definition text_of (bs : list Z) : string := string_of_list_ascii ((λ b, ascii_of_N (Z.to_N b)) <$> bs).
Definition fail_with {A : Type} (what : string) : Decoded A := inl (Fail what).

Section codec.
  Context {D : Type}.
  (** The conversion of a double to an integer. *)
  Context (int_of_double : D → Z).
  #[local] Notation JsonValue := (JsonValue D).

(** ** Helpers *)

(* include/lazily/json.hpp:127-131, JsonValue::as_int *)
Definition as_int (v : JsonValue) : Decoded Z :=
  match v with JInt z => mret z | JDouble d => mret (int_of_double d) | _ => fail_with "json: expected a number" end.
(* include/lazily/json.hpp:141-144, JsonValue::as_string *)
Definition as_string (v : JsonValue) : Decoded (list Z) :=
  match v with JString s => mret s | _ => fail_with "json: expected a string" end.
Definition is_object (v : JsonValue) : bool := match v with JObject _ => true | _ => false end.
Definition as_array (v : JsonValue) : option (list JsonValue) := match v with JArray l => Some l | _ => None end.

(* include/lazily/json_codec.hpp:61-63, json_codec_fail *)
Definition json_codec_fail {A : Type} (what : string) : Decoded A := fail_with ("json codec: " ++ what).

(* include/lazily/json_codec.hpp:65-69, json_required *)
Definition json_required (object : JsonValue) (key : string) : Decoded JsonValue :=
  match find_member (bytes_of key) object with
  | None => json_codec_fail ("missing required field `" ++ key ++ "`")
  | Some found => mret found
  end.

(* include/lazily/json_codec.hpp:71-75, json_required_array *)
Definition json_required_array (object : JsonValue) (key : string) : Decoded (list JsonValue) :=
  value ← json_required object key;
  match as_array value with
  | None => json_codec_fail ("field `" ++ key ++ "` must be an array")
  | Some l => mret l
  end.

(* include/lazily/json_codec.hpp:78-83, json_external_tag *)
Definition json_external_tag (value : JsonValue) (what : string) : Decoded (list Z * JsonValue) :=
  match value with
  | JObject [tagged] => mret tagged
  | _ => json_codec_fail (what ++ " must be an externally tagged one-entry object")
  end.

Definition empty_object : JsonValue := JObject [].
Definition set (key : string) (value object : JsonValue) : JsonValue := set_member (bytes_of key) value object.

(* include/lazily/json_codec.hpp:85-89, json_tagged *)
Definition json_tagged (tag : string) (body : JsonValue) : JsonValue := set tag body empty_object.

(* include/lazily/json_codec.hpp:91-97, json_from_bytes *)
Definition json_from_bytes (bytes : list Z) : JsonValue := JArray (map JInt bytes).

(* include/lazily/json_codec.hpp:99-109, json_to_bytes *)
Definition json_to_bytes (value : JsonValue) : Decoded (list Z) :=
  match as_array value with
  | None => json_codec_fail "byte payload must be a JSON array of integers"
  | Some l => mapM (λ element, byte ← as_int element;
      if (byte <? 0) || (255 <? byte) then json_codec_fail "byte payload element out of range" else mret byte) l
  end.

(** ** Blob references, stamps and keys *)

(* include/lazily/json_codec.hpp:113-125, json_from_shm_blob_ref *)
Definition json_from_shm_blob_ref (r : ShmBlobRef) : JsonValue :=
  let out := empty_object in
  let out := set "offset" (JInt (offset r)) out in
  let out := set "len" (JInt (len r)) out in
  let out := set "generation" (JInt (generation r)) out in
  let out := set "epoch" (JInt (blob_epoch r)) out in
  let out := set "checksum" (JInt (checksum r)) out in
  if bool_decide (backend r ≠ Shm) then set "backend" (JString (blob_backend_kind_str (backend r))) out else out.

(* include/lazily/json_codec.hpp:127-140, json_to_shm_blob_ref *)
Definition json_to_shm_blob_ref (value : JsonValue) : Decoded ShmBlobRef :=
  if negb (is_object value) then json_codec_fail "ShmBlobRef must be an object" else
  offset ← json_required value "offset" ≫= as_int;
  len ← json_required value "len" ≫= as_int;
  generation ← json_required value "generation" ≫= as_int;
  epoch ← json_required value "epoch" ≫= as_int;
  checksum ← json_required value "checksum" ≫= as_int;
  backend ← match find_member (bytes_of "backend") value with
    | None | Some JNull => mret Shm
    | Some b =>
        token ← as_string b;
        match blob_backend_kind_from_str token with
        | Some k => mret k
        | None => fail_with ("codec: unknown blob backend '" ++ text_of token ++ "'")
        end
    end;
  mret (mkBlob offset len generation epoch checksum backend).

(* include/lazily/json_codec.hpp:144-151, json_from_wire_stamp *)
Definition json_from_wire_stamp (stamp : WireStamp) : JsonValue :=
  let out := empty_object in
  let out := set "wall_time" (JInt (w_wall stamp)) out in
  let out := set "logical" (JInt (w_logical stamp)) out in
  set "peer" (JInt (w_peer stamp)) out.

(* include/lazily/json_codec.hpp:153-160, json_to_wire_stamp *)
Definition json_to_wire_stamp (value : JsonValue) : Decoded WireStamp :=
  if negb (is_object value) then json_codec_fail "WireStamp must be an object" else
  wall_time ← json_required value "wall_time" ≫= as_int;
  logical ← json_required value "logical" ≫= as_int;
  peer ← json_required value "peer" ≫= as_int;
  mret (mkWire wall_time logical peer).

(* include/lazily/json_codec.hpp:164-169, json_to_optional_node_key *)
Definition json_to_optional_node_key (value : option JsonValue) : Decoded (option NodeKey) :=
  match value with
  | None | Some JNull => mret None
  | Some v =>
      p ← as_string v;
      match key_create p with Some key => mret (Some key) | None => json_codec_fail "`key` is not a valid NodeKey path" end
  end.

(** ** Node states and values *)

(* include/lazily/json_codec.hpp:173-181, json_from_node_state *)
Definition json_from_node_state (state : NodeState) : JsonValue :=
  match state with
  | StatePayload bytes => json_tagged "Payload" (json_from_bytes bytes)
  | StateSharedBlob blob => json_tagged "SharedBlob" (json_from_shm_blob_ref blob)
  | StateOpaque => JString (bytes_of "Opaque")
  end.

(* include/lazily/json_codec.hpp:183-192, json_to_node_state *)
Definition json_to_node_state (value : JsonValue) : Decoded NodeState :=
  match value with
  | JString s => if decide (s = bytes_of "Opaque") then mret StateOpaque else json_codec_fail ("unknown unit NodeState `" ++ text_of s ++ "`")
  | _ =>
      '(tag, body) ← json_external_tag value "NodeState";
      if decide (tag = bytes_of "Payload") then bytes ← json_to_bytes body; mret (StatePayload bytes)
      else if decide (tag = bytes_of "SharedBlob") then blob ← json_to_shm_blob_ref body; mret (StateSharedBlob blob)
      else json_codec_fail ("unknown NodeState variant `" ++ text_of tag ++ "`")
  end.

(* include/lazily/json_codec.hpp:194-199, json_from_ipc_value *)
Definition json_from_ipc_value (value : IpcValue) : JsonValue :=
  match value with
  | ValueInline bytes => json_tagged "Inline" (json_from_bytes bytes)
  | ValueSharedBlob blob => json_tagged "SharedBlob" (json_from_shm_blob_ref blob)
  end.

(* include/lazily/json_codec.hpp:201-206, json_to_ipc_value *)
Definition json_to_ipc_value (value : JsonValue) : Decoded IpcValue :=
  '(tag, body) ← json_external_tag value "IpcValue";
  if decide (tag = bytes_of "Inline") then bytes ← json_to_bytes body; mret (ValueInline bytes)
  else if decide (tag = bytes_of "SharedBlob") then blob ← json_to_shm_blob_ref body; mret (ValueSharedBlob blob)
  else json_codec_fail ("unknown IpcValue variant `" ++ text_of tag ++ "`").

(** ** Snapshots *)

Definition set_key (key : option NodeKey) (out : JsonValue) : JsonValue :=
  match key with Some k => set "key" (JString (path k)) out | None => out end.

(* include/lazily/json_codec.hpp:210-219, json_from_node_snapshot *)
Definition json_from_node_snapshot (node : NodeSnapshot) : JsonValue :=
  let out := empty_object in
  let out := set "node" (JInt (ns_node node)) out in
  let out := set "type_tag" (JString (ns_type_tag node)) out in
  let out := set "state" (json_from_node_state (ns_state node)) out in
  set_key (ns_key node) out.

(* include/lazily/json_codec.hpp:221-229, json_to_node_snapshot *)
Definition json_to_node_snapshot (value : JsonValue) : Decoded NodeSnapshot :=
  if negb (is_object value) then json_codec_fail "NodeSnapshot must be an object" else
  node ← json_required value "node" ≫= as_int;
  type_tag ← json_required value "type_tag" ≫= as_string;
  state ← json_required value "state" ≫= json_to_node_state;
  key ← json_to_optional_node_key (find_member (bytes_of "key") value);
  mret (mkNode node type_tag state key).

(* include/lazily/json_codec.hpp:231-236, json_from_edge_snapshot *)
Definition json_from_edge_snapshot (edge : EdgeSnapshot) : JsonValue :=
  set "dependency" (JInt (dependency edge)) (set "dependent" (JInt (dependent edge)) empty_object).

(* include/lazily/json_codec.hpp:238-244, json_to_edge_snapshot *)
Definition json_to_edge_snapshot (value : JsonValue) : Decoded EdgeSnapshot :=
  if negb (is_object value) then json_codec_fail "EdgeSnapshot must be an object" else
  dependent ← json_required value "dependent" ≫= as_int;
  dependency ← json_required value "dependency" ≫= as_int;
  mret (mkEdge dependent dependency).

(* include/lazily/json_codec.hpp:246-265, json_from_snapshot *)
Definition json_from_snapshot (snapshot : Snapshot) : JsonValue :=
  let out := empty_object in
  let out := set "epoch" (JInt (s_epoch snapshot)) out in
  let out := set "nodes" (JArray (map json_from_node_snapshot (s_nodes snapshot))) out in
  let out := set "edges" (JArray (map json_from_edge_snapshot (s_edges snapshot))) out in
  set "roots" (JArray (map JInt (s_roots snapshot))) out.

(* include/lazily/json_codec.hpp:267-278, json_to_snapshot *)
Definition json_to_snapshot (value : JsonValue) : Decoded Snapshot :=
  if negb (is_object value) then json_codec_fail "Snapshot must be an object" else
  epoch ← json_required value "epoch" ≫= as_int;
  nodes ← json_required_array value "nodes" ≫= mapM json_to_node_snapshot;
  edges ← json_required_array value "edges" ≫= mapM json_to_edge_snapshot;
  roots ← json_required_array value "roots" ≫= mapM as_int;
  mret (mkSnapshot epoch nodes edges roots).

(** ** Deltas *)

(** The bodies several operations share. *)
Definition node_body (node : Z) : JsonValue := set "node" (JInt node) empty_object.
Definition payload_body (node : Z) (payload : IpcValue) : JsonValue := set "payload" (json_from_ipc_value payload) (node_body node).
Definition edge_body (dependent dependency : Z) : JsonValue := set "dependency" (JInt dependency) (set "dependent" (JInt dependent) empty_object).

(* include/lazily/json_codec.hpp:282-344, json_from_delta_op *)
Definition json_from_delta_op (op : DeltaOp) : JsonValue :=
  match op with
  | CellSet node payload => json_tagged "CellSet" (payload_body node payload)
  | SlotValue node payload => json_tagged "SlotValue" (payload_body node payload)
  | Invalidate node => json_tagged "Invalidate" (node_body node)
  | NodeAdd node type_tag state key =>
      let body := node_body node in
      let body := set "type_tag" (JString type_tag) body in
      let body := set "state" (json_from_node_state state) body in
      json_tagged "NodeAdd" (set_key key body)
  | NodeRemove node => json_tagged "NodeRemove" (node_body node)
  | EdgeAdd dependent dependency => json_tagged "EdgeAdd" (edge_body dependent dependency)
  | EdgeRemove dependent dependency => json_tagged "EdgeRemove" (edge_body dependent dependency)
  | QueuePush node payload => json_tagged "QueuePush" (payload_body node payload)
  | QueuePop node => json_tagged "QueuePop" (node_body node)
  | QueueClose node => json_tagged "QueueClose" (node_body node)
  end.

Definition read_node (body : JsonValue) : Decoded Z := json_required body "node" ≫= as_int.
Definition read_payload (body : JsonValue) : Decoded IpcValue := json_required body "payload" ≫= json_to_ipc_value.

(* include/lazily/json_codec.hpp:346-376, json_to_delta_op *)
Definition json_to_delta_op (value : JsonValue) : Decoded DeltaOp :=
  '(tag, body) ← json_external_tag value "DeltaOp";
  if negb (is_object body) then json_codec_fail ("DeltaOp `" ++ text_of tag ++ "` body must be an object")
  else if decide (tag = bytes_of "CellSet") then node ← read_node body; payload ← read_payload body; mret (CellSet node payload)
  else if decide (tag = bytes_of "SlotValue") then node ← read_node body; payload ← read_payload body; mret (SlotValue node payload)
  else if decide (tag = bytes_of "Invalidate") then node ← read_node body; mret (Invalidate node)
  else if decide (tag = bytes_of "NodeAdd") then
    node ← read_node body;
    type_tag ← json_required body "type_tag" ≫= as_string;
    state ← json_required body "state" ≫= json_to_node_state;
    key ← json_to_optional_node_key (find_member (bytes_of "key") body);
    mret (NodeAdd node type_tag state key)
  else if decide (tag = bytes_of "NodeRemove") then node ← read_node body; mret (NodeRemove node)
  else if decide (tag = bytes_of "EdgeAdd") then
    dependent ← json_required body "dependent" ≫= as_int; dependency ← json_required body "dependency" ≫= as_int;
    mret (EdgeAdd dependent dependency)
  else if decide (tag = bytes_of "EdgeRemove") then
    dependent ← json_required body "dependent" ≫= as_int; dependency ← json_required body "dependency" ≫= as_int;
    mret (EdgeRemove dependent dependency)
  else if decide (tag = bytes_of "QueuePush") then node ← read_node body; payload ← read_payload body; mret (QueuePush node payload)
  else if decide (tag = bytes_of "QueuePop") then node ← read_node body; mret (QueuePop node)
  else if decide (tag = bytes_of "QueueClose") then node ← read_node body; mret (QueueClose node)
  else json_codec_fail ("unknown DeltaOp variant `" ++ text_of tag ++ "`").

(* include/lazily/json_codec.hpp:378-388, json_from_delta *)
Definition json_from_delta (delta : Delta) : JsonValue :=
  let out := empty_object in
  let out := set "base_epoch" (JInt (base_epoch delta)) out in
  let out := set "epoch" (JInt (d_epoch delta)) out in
  set "ops" (JArray (map json_from_delta_op (d_ops delta))) out.

(* include/lazily/json_codec.hpp:390-398, json_to_delta *)
Definition json_to_delta (value : JsonValue) : Decoded Delta :=
  if negb (is_object value) then json_codec_fail "Delta must be an object" else
  base_epoch ← json_required value "base_epoch" ≫= as_int;
  epoch ← json_required value "epoch" ≫= as_int;
  ops ← json_required_array value "ops" ≫= mapM json_to_delta_op;
  mret (mkDelta base_epoch epoch ops).

(** ** Replication frames *)

(* include/lazily/json_codec.hpp:402-412, json_from_crdt_op *)
Definition json_from_crdt_op (op : CrdtOp) : JsonValue :=
  let out := empty_object in
  let out := set "node" (JInt (co_node op)) out in
  let out := set "key" (match co_key op with Some k => JString (path k) | None => JNull end) out in
  let out := set "stamp" (json_from_wire_stamp (co_stamp op)) out in
  set "state" (json_from_ipc_value (co_state op)) out.

(* include/lazily/json_codec.hpp:414-422, json_to_crdt_op *)
Definition json_to_crdt_op (value : JsonValue) : Decoded CrdtOp :=
  if negb (is_object value) then json_codec_fail "CrdtOp must be an object" else
  node ← json_required value "node" ≫= as_int;
  key ← json_to_optional_node_key (find_member (bytes_of "key") value);
  stamp ← json_required value "stamp" ≫= json_to_wire_stamp;
  state ← json_required value "state" ≫= json_to_ipc_value;
  mret (mkCrdtOp node key stamp state).

Definition json_from_frontier_entry (entry : StampFrontierEntry) : JsonValue :=
  JArray [JInt (fe_peer entry); json_from_wire_stamp (fe_stamp entry)].
(* include/lazily/json_codec.hpp:464-467, json_to_crdt_sync (loop over the frontier) *)
Definition json_to_frontier_entry (entry : JsonValue) : Decoded StampFrontierEntry :=
  match entry with
  | JArray [peer; stamp] => peer ← as_int peer; stamp ← json_to_wire_stamp stamp; mret (mkFrontierEntry peer stamp)
  | _ => json_codec_fail "frontier entry must be a [peer, stamp] pair"
  end.

(* include/lazily/json_codec.hpp:424-452, json_from_crdt_sync *)
Definition json_from_crdt_sync (sync : CrdtSync) : JsonValue :=
  let out := empty_object in
  let out := match frontier sync with [] => out | l => set "frontier" (JArray (map json_from_frontier_entry l)) out end in
  set "ops" (JArray (map json_from_crdt_op (cs_ops sync))) out.

(* include/lazily/json_codec.hpp:454-474, json_to_crdt_sync *)
Definition json_to_crdt_sync (value : JsonValue) : Decoded CrdtSync :=
  if negb (is_object value) then json_codec_fail "CrdtSync must be an object" else
  frontier ← match find_member (bytes_of "frontier") value with
    | None | Some JNull => mret []
    | Some v =>
        match as_array v with
        | None => json_codec_fail "field `frontier` must be an array"
        | Some l => mapM json_to_frontier_entry l
        end
    end;
  ops ← json_required_array value "ops" ≫= mapM json_to_crdt_op;
  mret (mkCrdtSync frontier ops).

(** ** Control frames and the envelope *)

(* include/lazily/json_codec.hpp:478-482, json_from_resync_request *)
Definition json_from_resync_request (from_epoch : Z) : JsonValue := set "from_epoch" (JInt from_epoch) empty_object.
(* include/lazily/json_codec.hpp:484-487, json_to_resync_request *)
Definition json_to_resync_request (value : JsonValue) : Decoded Z :=
  if negb (is_object value) then json_codec_fail "ResyncRequest must be an object" else
  json_required value "from_epoch" ≫= as_int.
(* include/lazily/json_codec.hpp:489-493, json_from_outbox_ack *)
Definition json_from_outbox_ack (through_epoch : Z) : JsonValue := set "through_epoch" (JInt through_epoch) empty_object.
(* include/lazily/json_codec.hpp:495-498, json_to_outbox_ack *)
Definition json_to_outbox_ack (value : JsonValue) : Decoded Z :=
  if negb (is_object value) then json_codec_fail "OutboxAck must be an object" else
  json_required value "through_epoch" ≫= as_int.

(* include/lazily/json_codec.hpp:502-513, json_from_ipc_message *)
Definition json_from_ipc_message (message : IpcMessage) : JsonValue :=
  match message with
  | MessageSnapshot value => json_tagged "Snapshot" (json_from_snapshot value)
  | MessageDelta value => json_tagged "Delta" (json_from_delta value)
  | MessageCrdtSync value => json_tagged "CrdtSync" (json_from_crdt_sync value)
  | MessageResyncRequest from_epoch => json_tagged "ResyncRequest" (json_from_resync_request from_epoch)
  | MessageOutboxAck through_epoch => json_tagged "OutboxAck" (json_from_outbox_ack through_epoch)
  end.

(* include/lazily/json_codec.hpp:515-524, json_to_ipc_message *)
Definition json_to_ipc_message (value : JsonValue) : Decoded IpcMessage :=
  '(tag, body) ← json_external_tag value "IpcMessage";
  if decide (tag = bytes_of "Snapshot") then v ← json_to_snapshot body; mret (MessageSnapshot v)
  else if decide (tag = bytes_of "Delta") then v ← json_to_delta body; mret (MessageDelta v)
  else if decide (tag = bytes_of "CrdtSync") then v ← json_to_crdt_sync body; mret (MessageCrdtSync v)
  else if decide (tag = bytes_of "ResyncRequest") then v ← json_to_resync_request body; mret (MessageResyncRequest v)
  else if decide (tag = bytes_of "OutboxAck") then v ← json_to_outbox_ack body; mret (MessageOutboxAck v)
  else json_codec_fail ("unknown IpcMessage variant `" ++ text_of tag ++ "`").

(* include/lazily/json_codec.hpp:528-534, ipc_message_variant_name *)
Definition ipc_message_variant_name (message : IpcMessage) : string :=
  match message with
  | MessageSnapshot _ => "Snapshot" | MessageDelta _ => "Delta" | MessageCrdtSync _ => "CrdtSync"
  | MessageResyncRequest _ => "ResyncRequest" | MessageOutboxAck _ => "OutboxAck"
  end.

(* include/lazily/json_codec.hpp:536-552, delta_op_variant_name *)
Definition delta_op_variant_name (op : DeltaOp) : string :=
  match op with
  | CellSet _ _ => "CellSet" | SlotValue _ _ => "SlotValue" | Invalidate _ => "Invalidate" | NodeAdd _ _ _ _ => "NodeAdd"
  | NodeRemove _ => "NodeRemove" | EdgeAdd _ _ => "EdgeAdd" | EdgeRemove _ _ => "EdgeRemove"
  | QueuePush _ _ => "QueuePush" | QueuePop _ => "QueuePop" | QueueClose _ => "QueueClose"
  end.
(** ** The two codecs, and the session that picks one *)

  Context (stod : list Z → conversion + (D * nat)) (print_double : D → list Z).

(* include/lazily/json_codec.hpp:556-558, encode_json *)
Definition encode_json (message : IpcMessage) : list Z := json_write print_double (json_from_ipc_message message).
(* include/lazily/json_codec.hpp:560-562, decode_json *)
Definition decode_json (text : list Z) : Decoded IpcMessage := json_parse stod text ≫= json_to_ipc_message.

(* include/lazily/msgpack_codec.hpp:152-156, encode_msgpack *)
Definition encode_msgpack (message : IpcMessage) : Decoded (list Z) :=
  match msgpack_pack_json (json_from_ipc_message message) with
  | Some bytes => mret bytes
  | None => fail_with "msgpack codec: frames carry no floating-point fields"
  end.
(* include/lazily/msgpack_codec.hpp:158-160, decode_msgpack *)
Definition decode_msgpack (data : list Z) : Decoded IpcMessage := msgpack_to_json data ≫= json_to_ipc_message.

(* include/lazily/codec_dispatch.hpp:39-49, codec_encode *)
Definition codec_encode (codec : Codec) (message : IpcMessage) : Decoded (list Z) :=
  match codec with CodecJson => mret (encode_json message) | CodecMsgPack => encode_msgpack message end.
(* include/lazily/codec_dispatch.hpp:51-59, codec_decode *)
Definition codec_decode (codec : Codec) (data : list Z) : Decoded IpcMessage :=
  match codec with CodecJson => decode_json data | CodecMsgPack => decode_msgpack data end.

(** A [std::length_error] is another kind of exception. *)
Inductive frame_error := FrameFault (e : fault) | FrameTooLong.

(* include/lazily/codec_dispatch.hpp:68-73, require_negotiated_frame_size *)
Definition require_negotiated_frame_size (session : NegotiatedCapabilities) (len : Z) : option frame_error :=
  if n_max_frame_size session <=? 0 then Some (FrameFault (Fail "negotiated frame ceiling must be positive"))
  else if negb (n_fragmentation session) && (n_max_frame_size session <? len) then Some FrameTooLong
  else None.

(* include/lazily/codec_dispatch.hpp:75-80, negotiated_encode *)
Definition negotiated_encode (session : NegotiatedCapabilities) (message : IpcMessage) : frame_error + list Z :=
  match codec_encode (n_codec session) message with
  | inl e => inl (FrameFault e)
  | inr bytes =>
      match require_negotiated_frame_size session (Z.of_nat (length bytes)) with Some e => inl e | None => inr bytes end
  end.
(* include/lazily/codec_dispatch.hpp:82-86, negotiated_decode *)
Definition negotiated_decode (session : NegotiatedCapabilities) (data : list Z) : frame_error + IpcMessage :=
  match require_negotiated_frame_size session (Z.of_nat (length data)) with
  | Some e => inl e
  | None => match codec_decode (n_codec session) data with inl e => inl (FrameFault e) | inr m => inr m end
  end.

(** ** Documents of messages

    What the types of the code say of a message: integers of 64 bits, bytes,
    and lengths that [fits] accepts. *)
Section typed.
  Context (fits : Z → Prop).

Definition sized {A} (l : list A) : Prop := fits (Z.of_nat (length l)).
Definition typed_bytes (l : list Z) : Prop := Forall is_byte l ∧ sized l.
Definition typed_key (k : option NodeKey) : Prop := match k with Some k => typed_bytes (path k) | None => True end.
Definition typed_blob (r : ShmBlobRef) : Prop :=
  is_i64 (offset r) ∧ is_i64 (len r) ∧ is_i64 (generation r) ∧ is_i64 (blob_epoch r) ∧ is_i64 (checksum r).
Definition typed_stamp (s : WireStamp) : Prop := is_i64 (w_wall s) ∧ is_i64 (w_logical s) ∧ is_i64 (w_peer s).
Definition typed_state (s : NodeState) : Prop :=
  match s with StatePayload bytes => typed_bytes bytes | StateSharedBlob blob => typed_blob blob | StateOpaque => True end.
Definition typed_value (v : IpcValue) : Prop :=
  match v with ValueInline bytes => typed_bytes bytes | ValueSharedBlob blob => typed_blob blob end.
Definition typed_node (n : NodeSnapshot) : Prop :=
  is_i64 (ns_node n) ∧ typed_bytes (ns_type_tag n) ∧ typed_state (ns_state n) ∧ typed_key (ns_key n).
Definition typed_edge (e : EdgeSnapshot) : Prop := is_i64 (dependent e) ∧ is_i64 (dependency e).
Definition typed_list {A} (P : A → Prop) (l : list A) : Prop := Forall P l ∧ sized l.
Definition typed_op (o : DeltaOp) : Prop :=
  match o with
  | CellSet n v | SlotValue n v | QueuePush n v => is_i64 n ∧ typed_value v
  | Invalidate n | NodeRemove n | QueuePop n | QueueClose n => is_i64 n
  | NodeAdd n t s k => typed_node (mkNode n t s k)
  | EdgeAdd a b | EdgeRemove a b => is_i64 a ∧ is_i64 b
  end.
Definition typed_crdt_op (o : CrdtOp) : Prop :=
  is_i64 (co_node o) ∧ typed_key (co_key o) ∧ typed_stamp (co_stamp o) ∧ typed_value (co_state o).
Definition typed_message (m : IpcMessage) : Prop :=
  match m with
  | MessageSnapshot s =>
      is_i64 (s_epoch s) ∧ typed_list typed_node (s_nodes s) ∧ typed_list typed_edge (s_edges s) ∧ typed_list is_i64 (s_roots s)
  | MessageDelta d => is_i64 (base_epoch d) ∧ is_i64 (d_epoch d) ∧ typed_list typed_op (d_ops d)
  | MessageCrdtSync c =>
      typed_list (λ e, is_i64 (fe_peer e) ∧ typed_stamp (fe_stamp e)) (frontier c) ∧ typed_list typed_crdt_op (cs_ops c)
  | MessageResyncRequest e | MessageOutboxAck e => is_i64 e
  end.

(** *** What is encoded decodes *)

Lemma decoded_bind_inr {A B} (m : Decoded A) (f : A → Decoded B) a : m = inr a → (m ≫= f) = f a.
Proof. by intros ->. Qed.

Lemma mapM_map {A B C} (to : B → Decoded C) (from : A → B) (g : A → C) l :
  Forall (λ x, to (from x) = inr (g x)) l → mapM to (map from l) = inr (map g l).
Proof. induction 1 as [|x l Hx _ IH]; [done|]. cbn [map mapM]. rewrite (decoded_bind_inr _ _ _ Hx), (decoded_bind_inr _ _ _ IH). done. Qed.

Lemma mapM_back {A B} (to : B → Decoded A) (from : A → B) l :
  (∀ x, x ∈ l → to (from x) = inr x) → mapM to (map from l) = inr l.
Proof. intros Hl. rewrite (mapM_map _ _ id); [by rewrite map_id|]. by apply Forall_forall. Qed.

Lemma bytes_back l : Forall is_byte l → json_to_bytes (json_from_bytes l) = inr l.
Proof.
  intros Hl. apply mapM_back. intros b Hb. rewrite Forall_forall in Hl. destruct (Hl b Hb). simpl.
  unfold mbind, decoded_bind. simpl. destruct (Z.ltb_spec b 0), (Z.ltb_spec 255 b); try lia. done.
Qed.

Lemma blob_back r : json_to_shm_blob_ref (json_from_shm_blob_ref r) = inr r.
Proof. destruct r as [o l g e c []]; reflexivity. Qed.

Lemma stamp_back s : json_to_wire_stamp (json_from_wire_stamp s) = inr s.
Proof. by destruct s. Qed.

Lemma state_back s : typed_state s → json_to_node_state (json_from_node_state s) = inr s.
Proof.
  destruct s as [bytes|blob|]; [intros [Hb _]|intros _|reflexivity].
  - transitivity (bytes ← json_to_bytes (json_from_bytes bytes); mret (StatePayload bytes) : Decoded NodeState); [reflexivity|by rewrite (bytes_back _ Hb)].
  - transitivity (blob ← json_to_shm_blob_ref (json_from_shm_blob_ref blob); mret (StateSharedBlob blob) : Decoded NodeState); [reflexivity|by rewrite blob_back].
Qed.

Lemma value_back v : typed_value v → json_to_ipc_value (json_from_ipc_value v) = inr v.
Proof.
  destruct v as [bytes|blob]; [intros [Hb _]|intros _].
  - transitivity (bytes ← json_to_bytes (json_from_bytes bytes); mret (ValueInline bytes) : Decoded IpcValue); [reflexivity|by rewrite (bytes_back _ Hb)].
  - transitivity (blob ← json_to_shm_blob_ref (json_from_shm_blob_ref blob); mret (ValueSharedBlob blob) : Decoded IpcValue); [reflexivity|by rewrite blob_back].
Qed.

Lemma key_back k : json_to_optional_node_key (Some (JString (path k))) = inr (Some k).
Proof. simpl. unfold mbind, decoded_bind. simpl. by rewrite key_create_path. Qed.

(** What is read when a node's key is there, and when it is not. *)
Lemma node_back n : typed_node n → json_to_node_snapshot (json_from_node_snapshot n) = inr n.
Proof.
  destruct n as [node tag state key]. intros (_ & _ & Hs & _). simpl in Hs.
  transitivity (state ← json_to_node_state (json_from_node_state state);
    key ← json_to_optional_node_key ((λ k, JString (path k)) <$> key); mret (mkNode node tag state key) : Decoded NodeSnapshot); [by destruct key|].
  rewrite (decoded_bind_inr _ _ _ (state_back _ Hs)). destruct key as [k|]; [|done]. cbn [fmap option_fmap option_map].
  by rewrite (decoded_bind_inr _ _ _ (key_back k)).
Qed.

Lemma edge_back e : json_to_edge_snapshot (json_from_edge_snapshot e) = inr e.
Proof. by destruct e. Qed.

Lemma ints_back l : mapM as_int (map JInt l) = inr l.
Proof. by apply mapM_back. Qed.

Lemma list_back {A} (P : A → Prop) (to : JsonValue → Decoded A) from l :
  (∀ x, P x → to (from x) = inr x) → typed_list P l → mapM to (map from l) = inr l.
Proof. intros Hx [Hl _]. apply mapM_back. intros x Hin. apply Hx. by rewrite Forall_forall in Hl; apply Hl. Qed.

Lemma payload_back n v (f : Z → IpcValue → DeltaOp) : typed_value v →
  (node ← read_node (payload_body n v); payload ← read_payload (payload_body n v); mret (f node payload)) = (inr (f n v) : Decoded DeltaOp).
Proof.
  intros Hv. transitivity (payload ← json_to_ipc_value (json_from_ipc_value v); mret (f n payload) : Decoded DeltaOp); [reflexivity|].
  by rewrite (decoded_bind_inr _ _ _ (value_back v Hv)).
Qed.

Lemma op_back o : typed_op o → json_to_delta_op (json_from_delta_op o) = inr o.
Proof.
  destruct o as [n v|n v|n|n t st k|n|a b|a b|n v|n|n]; intros Ho; try reflexivity.
  - destruct Ho as [_ Hv]. exact (payload_back n v CellSet Hv).
  - destruct Ho as [_ Hv]. exact (payload_back n v SlotValue Hv).
  - destruct Ho as (_ & _ & Hs & _). simpl in Hs.
    transitivity (state ← json_to_node_state (json_from_node_state st);
      key ← json_to_optional_node_key ((λ k, JString (path k)) <$> k); mret (NodeAdd n t state key) : Decoded DeltaOp); [by destruct k|].
    rewrite (decoded_bind_inr _ _ _ (state_back _ Hs)). destruct k as [k|]; [|done]. cbn [fmap option_fmap option_map].
    by rewrite (decoded_bind_inr _ _ _ (key_back k)).
  - destruct Ho as [_ Hv]. exact (payload_back n v QueuePush Hv).
Qed.

Lemma crdt_op_back o : typed_crdt_op o → json_to_crdt_op (json_from_crdt_op o) = inr o.
Proof.
  destruct o as [n k st v]. intros (_ & _ & _ & Hv). simpl in Hv.
  transitivity (key ← json_to_optional_node_key (Some (match k with Some k => JString (path k) | None => JNull end));
    stamp ← json_to_wire_stamp (json_from_wire_stamp st); state ← json_to_ipc_value (json_from_ipc_value v);
    mret (mkCrdtOp n key stamp state) : Decoded CrdtOp); [reflexivity|].
  rewrite (decoded_bind_inr _ _ k) by (destruct k; [apply key_back|done]).
  by rewrite (decoded_bind_inr _ _ _ (stamp_back st)), (decoded_bind_inr _ _ _ (value_back v Hv)).
Qed.

Lemma frontier_back e : json_to_frontier_entry (json_from_frontier_entry e) = inr e.
Proof. by destruct e as [p []]. Qed.

Lemma snapshot_back s : typed_message (MessageSnapshot s) → json_to_snapshot (json_from_snapshot s) = inr s.
Proof.
  destruct s as [e ns es rs]. intros (_ & Hn & He & _). simpl in Hn, He.
  transitivity (nodes ← mapM json_to_node_snapshot (map json_from_node_snapshot ns); edges ← mapM json_to_edge_snapshot (map json_from_edge_snapshot es);
    roots ← mapM as_int (map JInt rs); mret (mkSnapshot e nodes edges roots) : Decoded Snapshot); [reflexivity|].
  rewrite (decoded_bind_inr _ _ _ (list_back _ _ _ _ node_back Hn)).
  rewrite (decoded_bind_inr _ _ _ (list_back _ _ _ _ (λ e _, edge_back e) He)). by rewrite (decoded_bind_inr _ _ _ (ints_back rs)).
Qed.

Lemma delta_back d : typed_message (MessageDelta d) → json_to_delta (json_from_delta d) = inr d.
Proof.
  destruct d as [b e os]. intros (_ & _ & Ho). simpl in Ho.
  transitivity (ops ← mapM json_to_delta_op (map json_from_delta_op os); mret (mkDelta b e ops) : Decoded Delta); [reflexivity|].
  by rewrite (decoded_bind_inr _ _ _ (list_back _ _ _ _ op_back Ho)).
Qed.

Lemma sync_back c : typed_message (MessageCrdtSync c) → json_to_crdt_sync (json_from_crdt_sync c) = inr c.
Proof.
  destruct c as [fr os]. intros (Hf & Ho). simpl in Hf, Ho.
  transitivity (frontier ← mapM json_to_frontier_entry (map json_from_frontier_entry fr);
    ops ← mapM json_to_crdt_op (map json_from_crdt_op os); mret (mkCrdtSync frontier ops) : Decoded CrdtSync); [by destruct fr|].
  rewrite (decoded_bind_inr _ _ _ (list_back _ _ _ _ (λ e _, frontier_back e) Hf)).
  by rewrite (decoded_bind_inr _ _ _ (list_back _ _ _ _ crdt_op_back Ho)).
Qed.

Lemma message_back m : typed_message m → json_to_ipc_message (json_from_ipc_message m) = inr m.
Proof.
  destruct m as [s|d|c|e|e]; intros Hm; try reflexivity.
  - transitivity (v ← json_to_snapshot (json_from_snapshot s); mret (MessageSnapshot v) : Decoded IpcMessage); [reflexivity|].
    by rewrite (decoded_bind_inr _ _ _ (snapshot_back s Hm)).
  - transitivity (v ← json_to_delta (json_from_delta d); mret (MessageDelta v) : Decoded IpcMessage); [reflexivity|].
    by rewrite (decoded_bind_inr _ _ _ (delta_back d Hm)).
  - transitivity (v ← json_to_crdt_sync (json_from_crdt_sync c); mret (MessageCrdtSync v) : Decoded IpcMessage); [reflexivity|].
    by rewrite (decoded_bind_inr _ _ _ (sync_back c Hm)).
Qed.

(** *** The documents are ones the two wires carry *)

Definition carried (v : JsonValue) : Prop := wire_json v ∧ ((∀ n, fits n → n < two32) → sized_json v).
Definition carried_member (kv : list Z * JsonValue) : Prop := Forall is_byte kv.1 ∧ Z.of_nat (length kv.1) < two32 ∧ carried kv.2.

Lemma carried_int z : is_i64 z → carried (JInt z).
Proof. by split. Qed.
Lemma carried_string s : typed_bytes s → carried (JString s).
Proof. intros [Hb Hs]. split; [exact Hb|]. intros Hfit. exact (Hfit _ Hs). Qed.
Lemma carried_array {A} (f : A → JsonValue) l : typed_list (λ x, carried (f x)) l → carried (JArray (map f l)).
Proof.
  intros [Hl Hs]. split; [apply wire_array, Forall_map; eapply Forall_impl; [exact Hl|]; by intros x [? _]|].
  intros Hfit. apply sized_array. rewrite length_map. split; [by apply Hfit|]. apply Forall_map. eapply Forall_impl; [exact Hl|].
  intros x [_ Hx]. by apply Hx.
Qed.
Lemma carried_object l : Z.of_nat (length l) < two32 → Forall carried_member l → carried (JObject l).
Proof.
  intros Hn Hl. split; [apply wire_object; eapply Forall_impl; [exact Hl|]; by intros kv (? & _ & ? & _)|].
  intros Hfit. apply sized_object. split; [done|]. eapply Forall_impl; [exact Hl|]. intros kv (_ & ? & _ & Hx). split; [done|by apply Hx].
Qed.
Lemma carried_field k v : bool_decide (Forall is_byte (bytes_of k) ∧ Z.of_nat (length (bytes_of k)) < two32) = true →
  carried v → carried_member (bytes_of k, v).
Proof. intros [Hb Hn]%bool_decide_eq_true Hv. by split_and!. Qed.
Lemma carried_tagged tag v : bool_decide (Forall is_byte (bytes_of tag) ∧ Z.of_nat (length (bytes_of tag)) < two32) = true →
  carried v → carried (json_tagged tag v).
Proof. intros Ht Hv. apply carried_object; [done|]. repeat constructor; by apply (carried_field tag). Qed.
Lemma carried_list {A} (P : A → Prop) (f : A → JsonValue) l : (∀ x, P x → carried (f x)) → typed_list P l → carried (JArray (map f l)).
Proof. intros Hf [Hl Hs]. apply carried_array. split; [|done]. eapply Forall_impl; [exact Hl|exact Hf]. Qed.

(** Members one by one, each key checked by computing. *)
Ltac fields := apply carried_object; [done|];
  repeat first [apply Forall_nil_2 | apply Forall_cons_2; [apply carried_field; [reflexivity|]; try by apply carried_int|]].

Lemma carried_bytes l : typed_bytes l → carried (json_from_bytes l).
Proof.
  intros [Hb Hs]. apply (carried_list is_byte); [|done]. intros b Hx. apply carried_int.
  unfold is_byte in Hx. unfold is_i64, i64_min, i64_max. lia.
Qed.

Lemma carried_kind k : carried (JString (blob_backend_kind_str k)).
Proof. split; [by destruct k; repeat constructor|intros _; by destruct k]. Qed.

Lemma carried_blob r : typed_blob r → carried (json_from_shm_blob_ref r).
Proof.
  destruct r as [o l g e c b]. intros (? & ? & ? & ? & ?). unfold json_from_shm_blob_ref. simpl in *. destruct b; fields; apply (carried_kind).
Qed.

Lemma carried_stamp s : typed_stamp s → carried (json_from_wire_stamp s).
Proof. destruct s. intros (? & ? & ?). unfold json_from_wire_stamp. simpl in *. fields. Qed.

Lemma carried_state s : typed_state s → carried (json_from_node_state s).
Proof.
  destruct s; simpl; intros Hs; [by apply carried_tagged, carried_bytes|by apply carried_tagged, carried_blob|].
  split; [by repeat constructor|done].
Qed.

Lemma carried_value v : typed_value v → carried (json_from_ipc_value v).
Proof. destruct v; simpl; intros Hs; [by apply carried_tagged, carried_bytes|by apply carried_tagged, carried_blob]. Qed.

Lemma carried_node n : typed_node n → carried (json_from_node_snapshot n).
Proof.
  destruct n as [n t s k]. intros (Hn & Ht & Hs & Hk). unfold json_from_node_snapshot. simpl in *.
  destruct k; fields; try by apply carried_string. all: by apply carried_state.
Qed.

Lemma carried_payload n v : is_i64 n → typed_value v → carried (payload_body n v).
Proof. intros Hn Hv. unfold payload_body, node_body. fields. by apply carried_value. Qed.

Lemma carried_op o : typed_op o → carried (json_from_delta_op o).
Proof.
  destruct o as [n v|n v|n|n t st k|n|a b|a b|n v|n|n]; simpl; intros Ho; apply carried_tagged; try reflexivity.
  1, 2, 8: destruct Ho; by apply carried_payload.
  1, 3, 6, 7: unfold node_body; fields.
  - destruct Ho as (Hn & Ht & Hs & Hk). simpl in *. unfold node_body. destruct k; fields; try by apply carried_string. all: by apply carried_state.
  - destruct Ho. unfold edge_body. fields.
  - destruct Ho. unfold edge_body. fields.
Qed.

Lemma carried_crdt_op o : typed_crdt_op o → carried (json_from_crdt_op o).
Proof.
  destruct o as [n k st v]. intros (Hn & Hk & Hst & Hv). unfold json_from_crdt_op. simpl in *. fields.
  - destruct k; [by apply carried_string|done].
  - by apply carried_stamp.
  - by apply carried_value.
Qed.

Lemma carried_frontier e : is_i64 (fe_peer e) ∧ typed_stamp (fe_stamp e) → carried (json_from_frontier_entry e).
Proof.
  destruct e as [p st]. intros [Hp Hst]. unfold json_from_frontier_entry. simpl in *. destruct (carried_stamp st Hst) as [Hw Hs].
  split; [apply wire_array, Forall_cons_2; [exact Hp|apply Forall_cons_2; [exact Hw|apply Forall_nil_2]]|].
  intros Hfit. apply sized_array. split; [done|]. apply Forall_cons_2; [done|apply Forall_cons_2; [by apply Hs|apply Forall_nil_2]].
Qed.

Lemma carried_message m : typed_message m → carried (json_from_ipc_message m).
Proof.
  destruct m as [[e ns es rs]|[b e os]|[fr os]|e|e]; intros Hm; apply carried_tagged; try reflexivity; simpl in Hm.
  - destruct Hm as (He & Hn & Hes & Hr). unfold json_from_snapshot. simpl. fields.
    + apply (carried_list typed_node); [apply carried_node|done].
    + apply (carried_list typed_edge); [|done]. intros [a b] [? ?]. unfold json_from_edge_snapshot. simpl in *. fields.
    + apply (carried_list is_i64 JInt); [apply carried_int|done].
  - destruct Hm as (Hb & He & Ho). unfold json_from_delta. simpl. fields. apply (carried_list typed_op); [apply carried_op|done].
  - destruct Hm as (Hf & Ho). unfold json_from_crdt_sync. simpl.
    assert (Hops : carried (JArray (map json_from_crdt_op os))) by (apply (carried_list typed_crdt_op); [apply carried_crdt_op|done]).
    assert (Hfr : carried (JArray (map json_from_frontier_entry fr))) by (eapply carried_list; [apply carried_frontier|exact Hf]).
    destruct fr; fields; done.
  - unfold json_from_resync_request. fields.
  - unfold json_from_outbox_ack. fields.
Qed.
End typed.
End codec.

(** ** Frames arrive *)
Section frames.
  Context {D : Type} (int_of_double : D → Z) (stod : list Z → conversion + (D * nat)) (print_double : D → list Z).
  #[local] Notation encode := (codec_encode print_double).
  #[local] Notation decode := (codec_decode int_of_double stod).

(** The lengths a codec can tell: JSON any, MessagePack those of 32 bits. *)
Definition codec_limit (c : Codec) (n : Z) : Prop := match c with CodecJson => True | CodecMsgPack => n < two32 end.

Lemma codec_back c m : typed_message (codec_limit c) m → ∃ bs, encode c m = inr bs ∧ decode c bs = inr m.
Proof.
  intros Hm. pose proof (message_back int_of_double _ m Hm) as Hback.
  destruct (carried_message (D:=D) _ m Hm) as [Hw Hs]. destruct c; eexists; (split; [reflexivity|] || idtac).
  - unfold codec_decode, decode_json. by rewrite (decoded_bind_inr _ _ _ (written_parses stod print_double _ Hw)).
  - unfold codec_encode, encode_msgpack. rewrite (pack_wire _ Hw). split; [reflexivity|].
    unfold codec_decode, decode_msgpack. destruct (document_reads _ Hw (Hs (λ n Hn, Hn)) (S (length (packed (json_from_ipc_message m)))) (Nat.lt_succ_diag_r _)) as [Hr _].
    specialize (Hr []). rewrite app_nil_r in Hr. unfold msgpack_to_json. rewrite Hr. simpl. exact Hback.
Qed.

(** *** Decoding always answers *)

Definition answers {A} (m : Decoded A) : Prop := m ≠ inl NoFuel.
Lemma answers_bind {A B} (m : Decoded A) (f : A → Decoded B) : answers m → (∀ a, answers (f a)) → answers (m ≫= f).
Proof. unfold answers, mbind, decoded_bind. destruct m as [[?|]|a]; [done..|]. auto. Qed.
Lemma answers_mapM {A B} (f : A → Decoded B) l : (∀ a, answers (f a)) → answers (mapM f l).
Proof. intros Hf. induction l as [|a l IH]; [done|]. apply answers_bind; [done|]. intros b. by apply answers_bind. Qed.
Lemma answers_int v : answers (as_int int_of_double v).
Proof. by destruct v. Qed.
Lemma answers_string (v : JsonValue D) : answers (as_string v).
Proof. by destruct v. Qed.
Lemma answers_required (v : JsonValue D) k : answers (json_required v k).
Proof. unfold json_required. by destruct (find_member _ _). Qed.
Lemma answers_array (v : JsonValue D) k : answers (json_required_array v k).
Proof. apply answers_bind; [apply answers_required|]. intros a. by destruct (as_array a). Qed.
Lemma answers_tag (v : JsonValue D) k : answers (json_external_tag v k).
Proof. by destruct v as [| | | | | |[|? []]]. Qed.
Create HintDb answers.
#[local] Hint Resolve answers_int answers_string answers_required answers_array answers_tag answers_mapM : answers.
Ltac answering := repeat first
  [ done | solve [auto with answers] | apply answers_bind; [|intros ?] | apply answers_mapM; intros ?
  | match goal with
    | |- answers (if ?b then _ else _) => destruct b
    | |- answers (match ?x with _ => _ end) => destruct x
    end ].
Lemma answers_bytes (v : JsonValue D) : answers (json_to_bytes int_of_double v).
Proof. unfold json_to_bytes. answering. Qed.
#[local] Hint Resolve answers_bytes : answers.
Lemma answers_blob (v : JsonValue D) : answers (json_to_shm_blob_ref int_of_double v).
Proof. unfold json_to_shm_blob_ref. answering. Qed.
#[local] Hint Resolve answers_blob : answers.
Lemma answers_state (v : JsonValue D) : answers (json_to_node_state int_of_double v).
Proof. unfold json_to_node_state. answering. Qed.
Lemma answers_value (v : JsonValue D) : answers (json_to_ipc_value int_of_double v).
Proof. unfold json_to_ipc_value. answering. Qed.
Lemma answers_stamp (v : JsonValue D) : answers (json_to_wire_stamp int_of_double v).
Proof. unfold json_to_wire_stamp. answering. Qed.
Lemma answers_key (v : option (JsonValue D)) : answers (json_to_optional_node_key v).
Proof. unfold json_to_optional_node_key. answering. Qed.
#[local] Hint Resolve answers_state answers_value answers_stamp answers_key : answers.
Lemma answers_message (v : JsonValue D) : answers (json_to_ipc_message int_of_double v).
Proof.
  unfold json_to_ipc_message, json_to_snapshot, json_to_delta, json_to_crdt_sync, json_to_resync_request, json_to_outbox_ack.
  unfold json_to_node_snapshot, json_to_edge_snapshot, json_to_delta_op, json_to_crdt_op, json_to_frontier_entry, read_node, read_payload.
  answering.
Qed.

Lemma codec_decode_answers c data : answers (decode c data).
Proof.
  destruct c; apply answers_bind; [apply json_parse_turns|apply answers_message|apply msgpack_decoding_ends|apply answers_message].
Qed.

(** The size check passes or fails alike on both sides: it looks at the length. *)
Lemma negotiated_terms a b session : capabilities (negotiate a b []) = Some session →
  capabilities (negotiate b a []) = Some session.
Proof. intros E. by rewrite <- (proj1 (negotiation_agrees a b)). Qed.

Lemma negotiated_ceiling a b session : capabilities (negotiate a b []) = Some session → 0 < n_max_frame_size session.
Proof.
  unfold negotiate, refuse. cbn [missing_feature]. intros E.
  destruct (negb (bool_decide (protocol_id a = protocol_id b))); [done|]. destruct (negb (protocol_major_version a =? protocol_major_version b)); [done|].
  destruct (negb (bool_decide (codec a = codec b))); [done|]. destruct (negb (ordered_reliable a) || negb (ordered_reliable b)); [done|].
  destruct (Z.leb_spec (max_frame_size a) 0); [done|]. destruct (Z.leb_spec (max_frame_size b) 0); [done|]. cbn [orb] in E.
  destruct (bool_decide (session_id a = []) || bool_decide (session_id b = [])); [done|].
  destruct (negb (bool_decide (session_id a = session_id b))); [done|]. injection E as <-. simpl. by destruct (_ <? _).
Qed.
End frames.

(** C21: What one peer sends over a negotiated session is what the other
    receives.  Two peers that negotiate hold the same terms, whichever of them
    asks; every message whose sizes the codec can tell encodes, and if the frame
    is within the common ceiling, or both sides fragment, decoding it under the
    same terms gives the message back; a longer frame is refused by the sender
    and would be by the receiver. *)
Theorem negotiated_frames_arrive {D : Type} (int_of_double : D → Z) (stod : list Z → conversion + (D * nat)) (print_double : D → list Z)
    (a b : CapabilityHandshake) (session : NegotiatedCapabilities) (m : IpcMessage) :
  capabilities (negotiate a b []) = Some session → typed_message (codec_limit (n_codec session)) m →
  capabilities (negotiate b a []) = Some session ∧
  ∃ bs, codec_encode print_double (n_codec session) m = inr bs ∧
    if n_fragmentation session || (Z.of_nat (length bs) <=? n_max_frame_size session) then
      negotiated_encode print_double session m = inr bs ∧ negotiated_decode int_of_double stod session bs = inr m
    else
      negotiated_encode print_double session m = inl FrameTooLong ∧ negotiated_decode int_of_double stod session bs = inl FrameTooLong.
Proof.
  intros Ha Hm. split; [by apply negotiated_terms|].
  destruct (codec_back int_of_double stod print_double (n_codec session) m Hm) as (bs & He & Hd). exists bs. split; [exact He|].
  unfold negotiated_encode, negotiated_decode. rewrite He, Hd. unfold require_negotiated_frame_size.
  pose proof (negotiated_ceiling _ _ _ Ha). destruct (Z.leb_spec (n_max_frame_size session) 0); [lia|].
  rewrite Z.leb_antisym. by destruct (n_fragmentation session), (n_max_frame_size session <? Z.of_nat (length bs)).
Qed.

(** A delta with every kind of value over the default codec, and one over JSON. *)
Lemma negotiated_frames_arrive_witness :
  let a := new_capability_handshake 1 (bytes_of "s") in
  let b := new_capability_handshake 2 (bytes_of "s") in
  let session := mkNegotiated CodecMsgPack 1048576 false (bytes_of "s") in
  let m := MessageDelta (mkDelta 4 5 [CellSet 7 (ValueInline [0; 255]); EdgeAdd 1 2;
    SlotValue 9 (ValueSharedBlob (mkBlob 0 3 1 0 (-7) Arrow)); NodeAdd (-3) (bytes_of "t") StateOpaque None]) in
  typed_message (codec_limit CodecMsgPack) m ∧
  capabilities (negotiate b a []) = Some session ∧
  ∃ bs, codec_encode (λ _ : Empty_set, []) CodecMsgPack m = inr bs ∧
    if n_fragmentation session || (Z.of_nat (length bs) <=? n_max_frame_size session) then
      negotiated_encode (λ _ : Empty_set, []) session m = inr bs ∧
      negotiated_decode (λ d : Empty_set, match d with end) (λ _, inl InvalidArgument) session bs = inr m
    else
      negotiated_encode (λ _ : Empty_set, []) session m = inl FrameTooLong ∧
      negotiated_decode (λ d : Empty_set, match d with end) (λ _, inl InvalidArgument) session bs = inl FrameTooLong.
Proof.
  intros a b session m. assert (Hm : typed_message (codec_limit CodecMsgPack) m).
  { repeat first [split | constructor | done]. }
  split; [exact Hm|]. exact (negotiated_frames_arrive _ _ _ a b session m eq_refl Hm).
Defined.


(** An integer field given as a double is converted, whatever its size: a
    number written with an exponent passes the check that refuses one that does
    not fit. *)
Lemma doubles_pass_as_integers {D : Type} (int_of_double : D → Z) (d : D) :
  decode_json int_of_double (λ _, inr (d, 4%nat)) (bytes_of "{" ++ [34] ++ bytes_of "OutboxAck" ++ [34] ++ bytes_of ":{" ++ [34] ++
    bytes_of "through_epoch" ++ [34] ++ bytes_of ":1e30}}") = inr (MessageOutboxAck (int_of_double d)) ∧
  decode_json int_of_double (λ _, inr (d, 4%nat)) (bytes_of "{" ++ [34] ++ bytes_of "OutboxAck" ++ [34] ++ bytes_of ":{" ++ [34] ++
    bytes_of "through_epoch" ++ [34] ++ bytes_of ":9223372036854775808}}") =
    inl (Fail "number is outside the range this decoder represents exactly").
Proof. split; reflexivity. Qed.
