(* ===== verification/Framing.v ===== *)
(** * Framing: the private frames the outbox stores

    Models include/lazily/codec.hpp: messages as internally tagged MessagePack
    maps, whose unknown fields a reader skips, and as positional arrays led by a
    schema version, and the decoder that takes either.  A member that no
    initialiser sets and no field of the frame fills holds [indeterminate].
    The class of codecs the outbox is proved against is inhabited by the map
    form. *)
From Stdlib Require Import String.
From S2P Require Import Prelude Bytes Hlc Json Msgpack Ipc JsonCodec Outbox.
#[local] Open Scope Z_scope.

(** ** Reading fields *)

Definition is_key (name : string) (k : list Z) : bool := bool_decide (k = bytes_of name).

(** The loops of the readers: [n] keys, each followed by what [field] makes of
    its value. *)
Fixpoint read_fields {R : Type} (n : nat) (field : list Z → R → Reader R) (r : R) : Reader R :=
  match n with
  | O => mret r
  | S n => k ← read_str_view; r ← field k r; read_fields n field r
  end.
Definition read_map {R : Type} (field : list Z → R → Reader R) (r : R) : Reader R :=
  n ← read_map_header; read_fields (Z.to_nat n) field r.
Definition read_array {A : Type} (m : Reader A) : Reader (list A) :=
  n ← read_array_header; repeat_reader (Z.to_nat n) m.
Definition skip_value : Reader () := looking (λ bs, skip (S (length bs))).
(** A field that is not known. *)
Definition ignore {R : Type} (r : R) : Reader R := skip_value;; mret r.

(** [static_cast<int>] of a 64-bit integer. *)
Definition to_int (z : Z) : Z := signed 32 (z mod two32).

Definition pack_key (name : string) : list Z := pack_str (bytes_of name).
Definition pack_list {A : Type} (f : A → list Z) (l : list A) : list Z :=
  pack_array_header (Z.of_nat (length l) mod two32) ++ (l ≫= f).

(** ** Blob references, stamps and keys *)

(* include/lazily/codec.hpp:60-74, pack_shm_blob_ref *)
Definition pack_shm_blob_ref (r : ShmBlobRef) : list Z :=
  pack_map_header 6 ++
  pack_key "offset" ++ pack_i64 (offset r) ++
  pack_key "len" ++ pack_i64 (len r) ++
  pack_key "generation" ++ pack_i64 (generation r) ++
  pack_key "epoch" ++ pack_i64 (blob_epoch r) ++
  pack_key "checksum" ++ pack_i64 (checksum r) ++
  pack_key "backend" ++ pack_str (blob_backend_kind_str (backend r)).

Definition read_backend : Reader BlobBackendKind :=
  token ← read_str_view;
  match blob_backend_kind_from_str token with
  | Some k => mret k
  | None => throw ("codec: unknown blob backend '" ++ text_of token ++ "'")
  end.

Definition blob_field (k : list Z) (r : ShmBlobRef) : Reader ShmBlobRef :=
  let '(mkBlob o l g e c b) := r in
  if is_key "offset" k then v ← read_i64; mret (mkBlob v l g e c b)
  else if is_key "len" k then v ← read_i64; mret (mkBlob o v g e c b)
  else if is_key "generation" k then v ← read_i64; mret (mkBlob o l v e c b)
  else if is_key "epoch" k then v ← read_i64; mret (mkBlob o l g v c b)
  else if is_key "checksum" k then v ← read_i64; mret (mkBlob o l g e v b)
  else if is_key "backend" k then v ← read_backend; mret (mkBlob o l g e c v)
  else ignore r.
Definition empty_blob : ShmBlobRef := mkBlob 0 0 0 0 0 Shm.
(* include/lazily/codec.hpp:75-96, unpack_shm_blob_ref *)
Definition unpack_shm_blob_ref : Reader ShmBlobRef := read_map blob_field empty_blob.

(* include/lazily/codec.hpp:98-106, pack_wire_stamp *)
Definition pack_wire_stamp (s : WireStamp) : list Z :=
  pack_map_header 3 ++
  pack_key "wall_time" ++ pack_i64 (w_wall s) ++
  pack_key "logical" ++ pack_i64 (w_logical s) ++
  pack_key "peer" ++ pack_i64 (w_peer s).
Definition stamp_field (k : list Z) (s : WireStamp) : Reader WireStamp :=
  let '(mkWire w l p) := s in
  if is_key "wall_time" k then v ← read_i64; mret (mkWire v l p)
  else if is_key "logical" k then v ← read_i64; mret (mkWire w v p)
  else if is_key "peer" k then v ← read_i64; mret (mkWire w l v)
  else ignore s.
(* include/lazily/codec.hpp:107-122, unpack_wire_stamp *)
Definition unpack_wire_stamp : Reader WireStamp := read_map stamp_field (mkWire 0 0 0).

(* include/lazily/codec.hpp:124-129, pack_optional_node_key *)
Definition pack_optional_node_key (k : option NodeKey) : list Z :=
  match k with Some k => pack_str (path k) | None => pack_nil end.
(* include/lazily/codec.hpp:130-148, unpack_optional_node_key *)
Definition unpack_optional_node_key : Reader (option NodeKey) :=
  k ← peek_kind;
  if decide (k = KNil) then expect_nil;; mret None else
  p ← read_str_view;
  match key_create p with
  | Some key => mret (Some key)
  | None => throw ("codec: `key` is not a valid NodeKey path: `" ++ text_of p ++ "`")
  end.

(** ** Node states and values *)

(* include/lazily/codec.hpp:150-169, pack_node_state *)
Definition pack_node_state (s : NodeState) : list Z :=
  match s with
  | StatePayload bytes => pack_map_header 2 ++ pack_key "kind" ++ pack_i64 0 ++ pack_key "bytes" ++ pack_bin bytes
  | StateSharedBlob blob => pack_map_header 2 ++ pack_key "kind" ++ pack_i64 1 ++ pack_key "blob" ++ pack_shm_blob_ref blob
  | StateOpaque => pack_map_header 1 ++ pack_key "kind" ++ pack_i64 2
  end.

(** What the reader of a state or a value has seen so far. *)
Definition Variant : Type := Z * list Z * ShmBlobRef.
Definition variant_field (k : list Z) (r : Variant) : Reader Variant :=
  let '(kind, bytes, blob) := r in
  if is_key "kind" k then v ← read_i64; mret (to_int v, bytes, blob)
  else if is_key "bytes" k then v ← read_bin; mret (kind, v, blob)
  else if is_key "blob" k then v ← unpack_shm_blob_ref; mret (kind, bytes, v)
  else ignore r.

(* include/lazily/codec.hpp:170-197, unpack_node_state *)
Definition unpack_node_state : Reader NodeState :=
  r ← read_map variant_field (-1, [], empty_blob);
  let '(kind, bytes, blob) := r in
  if kind =? 0 then mret (StatePayload bytes)
  else if kind =? 1 then mret (StateSharedBlob blob)
  else if kind =? 2 then mret StateOpaque
  else throw ("codec: unknown NodeState kind " ++ text_of (to_string kind)).

(* include/lazily/codec.hpp:199-213, pack_ipc_value *)
Definition pack_ipc_value (v : IpcValue) : list Z :=
  match v with
  | ValueInline bytes => pack_map_header 2 ++ pack_key "kind" ++ pack_i64 0 ++ pack_key "bytes" ++ pack_bin bytes
  | ValueSharedBlob blob => pack_map_header 2 ++ pack_key "kind" ++ pack_i64 1 ++ pack_key "blob" ++ pack_shm_blob_ref blob
  end.
(* include/lazily/codec.hpp:214-239, unpack_ipc_value *)
Definition unpack_ipc_value : Reader IpcValue :=
  r ← read_map variant_field (-1, [], empty_blob);
  let '(kind, bytes, blob) := r in
  if kind =? 0 then mret (ValueInline bytes)
  else if kind =? 1 then mret (ValueSharedBlob blob)
  else throw ("codec: unknown IpcValue kind " ++ text_of (to_string kind)).

(** ** Snapshots *)
Section readers.
  Context (indeterminate : Z).

(* include/lazily/codec.hpp:254-264, pack_snapshot (loop over nodes) *)
Definition pack_node (nd : NodeSnapshot) : list Z :=
  pack_map_header 4 ++
  pack_key "node" ++ pack_i64 (ns_node nd) ++
  pack_key "type_tag" ++ pack_str (ns_type_tag nd) ++
  pack_key "state" ++ pack_node_state (ns_state nd) ++
  pack_key "key" ++ pack_optional_node_key (ns_key nd).
(* include/lazily/codec.hpp:269-275, pack_snapshot (loop over edges) *)
Definition pack_edge (e : EdgeSnapshot) : list Z :=
  pack_map_header 2 ++ pack_key "dependent" ++ pack_i64 (dependent e) ++ pack_key "dependency" ++ pack_i64 (dependency e).
(* include/lazily/codec.hpp:243-283, pack_snapshot *)
Definition pack_snapshot (s : Snapshot) : list Z :=
  pack_map_header 4 ++
  pack_key "epoch" ++ pack_i64 (s_epoch s) ++
  pack_key "nodes" ++ pack_list pack_node (s_nodes s) ++
  pack_key "edges" ++ pack_list pack_edge (s_edges s) ++
  pack_key "roots" ++ pack_list pack_i64 (s_roots s).

(* include/lazily/codec.hpp:298-308, unpack_snapshot (fields of a node) *)
Definition node_field (k : list Z) (nd : NodeSnapshot) : Reader NodeSnapshot :=
  let '(mkNode n t s key) := nd in
  if is_key "node" k then v ← read_i64; mret (mkNode v t s key)
  else if is_key "type_tag" k then v ← read_str; mret (mkNode n v s key)
  else if is_key "state" k then v ← unpack_node_state; mret (mkNode n t v key)
  else if is_key "key" k then v ← unpack_optional_node_key; mret (mkNode n t s v)
  else ignore nd.
(* include/lazily/codec.hpp:319-325, unpack_snapshot (fields of an edge) *)
Definition edge_field (k : list Z) (e : EdgeSnapshot) : Reader EdgeSnapshot :=
  let '(mkEdge a b) := e in
  if is_key "dependent" k then v ← read_i64; mret (mkEdge v b)
  else if is_key "dependency" k then v ← read_i64; mret (mkEdge a v)
  else ignore e.
(** A payload without bytes is the variant a state holds before it is read. *)
Definition fresh_node : NodeSnapshot := mkNode indeterminate [] (StatePayload []) None.
Definition fresh_edge : EdgeSnapshot := mkEdge indeterminate indeterminate.
Definition snapshot_field (k : list Z) (s : Snapshot) : Reader Snapshot :=
  let '(mkSnapshot e ns es rs) := s in
  if is_key "epoch" k then v ← read_i64; mret (mkSnapshot v ns es rs)
  else if is_key "nodes" k then l ← read_array (read_map node_field fresh_node); mret (mkSnapshot e (ns ++ l) es rs)
  else if is_key "edges" k then l ← read_array (read_map edge_field fresh_edge); mret (mkSnapshot e ns (es ++ l) rs)
  else if is_key "roots" k then l ← read_array read_i64; mret (mkSnapshot e ns es (rs ++ l))
  else ignore s.
(* include/lazily/codec.hpp:284-339, unpack_snapshot *)
Definition unpack_snapshot : Reader Snapshot := read_map snapshot_field (mkSnapshot 0 [] [] []).

(** ** Deltas *)

(* include/lazily/codec.hpp:358-448, pack_delta (loop) *)
Definition pack_op (op : DeltaOp) : list Z :=
  match op with
  | CellSet n v => pack_map_header 3 ++ pack_key "op" ++ pack_i64 0 ++ pack_key "node" ++ pack_i64 n ++ pack_key "payload" ++ pack_ipc_value v
  | SlotValue n v => pack_map_header 3 ++ pack_key "op" ++ pack_i64 1 ++ pack_key "node" ++ pack_i64 n ++ pack_key "payload" ++ pack_ipc_value v
  | Invalidate n => pack_map_header 2 ++ pack_key "op" ++ pack_i64 2 ++ pack_key "node" ++ pack_i64 n
  | NodeAdd n t s k =>
      pack_map_header 5 ++ pack_key "op" ++ pack_i64 3 ++ pack_key "node" ++ pack_i64 n ++ pack_key "type_tag" ++ pack_str t ++
      pack_key "state" ++ pack_node_state s ++ pack_key "key" ++ pack_optional_node_key k
  | NodeRemove n => pack_map_header 2 ++ pack_key "op" ++ pack_i64 4 ++ pack_key "node" ++ pack_i64 n
  | EdgeAdd a b =>
      pack_map_header 3 ++ pack_key "op" ++ pack_i64 5 ++ pack_key "dependent" ++ pack_i64 a ++ pack_key "dependency" ++ pack_i64 b
  | EdgeRemove a b =>
      pack_map_header 3 ++ pack_key "op" ++ pack_i64 6 ++ pack_key "dependent" ++ pack_i64 a ++ pack_key "dependency" ++ pack_i64 b
  | QueuePush n v => pack_map_header 3 ++ pack_key "op" ++ pack_i64 7 ++ pack_key "node" ++ pack_i64 n ++ pack_key "payload" ++ pack_ipc_value v
  | QueuePop n => pack_map_header 2 ++ pack_key "op" ++ pack_i64 8 ++ pack_key "node" ++ pack_i64 n
  | QueueClose n => pack_map_header 2 ++ pack_key "op" ++ pack_i64 9 ++ pack_key "node" ++ pack_i64 n
  end.
(* include/lazily/codec.hpp:343-450, pack_delta *)
Definition pack_delta (d : Delta) : list Z :=
  pack_map_header 3 ++
  pack_key "base_epoch" ++ pack_i64 (base_epoch d) ++
  pack_key "epoch" ++ pack_i64 (d_epoch d) ++
  pack_key "ops" ++ pack_list pack_op (d_ops d).

(** The temporaries an operation is read into. *)
(* include/lazily/codec.hpp:465-471, unpack_delta (temporaries) *)
Record OpFields := mkFields {
  f_op : Z; f_node : Z; f_dependent : Z; f_dependency : Z; f_tag : list Z; f_state : NodeState; f_key : option NodeKey; f_payload : IpcValue }.
Definition no_fields : OpFields := mkFields (-1) 0 0 0 [] StateOpaque None (ValueInline []).
(* include/lazily/codec.hpp:474-491, unpack_delta (fields of an operation) *)
Definition op_field (k : list Z) (r : OpFields) : Reader OpFields :=
  let '(mkFields o n a b t s key p) := r in
  if is_key "op" k then v ← read_i64; mret (mkFields (to_int v) n a b t s key p)
  else if is_key "node" k then v ← read_i64; mret (mkFields o v a b t s key p)
  else if is_key "dependent" k then v ← read_i64; mret (mkFields o n v b t s key p)
  else if is_key "dependency" k then v ← read_i64; mret (mkFields o n a v t s key p)
  else if is_key "type_tag" k then v ← read_str; mret (mkFields o n a b v s key p)
  else if is_key "state" k then v ← unpack_node_state; mret (mkFields o n a b t v key p)
  else if is_key "key" k then v ← unpack_optional_node_key; mret (mkFields o n a b t s v p)
  else if is_key "payload" k then v ← unpack_ipc_value; mret (mkFields o n a b t s key v)
  else ignore r.
(* include/lazily/codec.hpp:493-527, unpack_delta (operation) *)
Definition op_of_fields (r : OpFields) : Reader DeltaOp :=
  let '(mkFields o n a b t s key p) := r in
  match o with
  | 0 => mret (CellSet n p) | 1 => mret (SlotValue n p) | 2 => mret (Invalidate n) | 3 => mret (NodeAdd n t s key)
  | 4 => mret (NodeRemove n) | 5 => mret (EdgeAdd a b) | 6 => mret (EdgeRemove a b) | 7 => mret (QueuePush n p)
  | 8 => mret (QueuePop n) | 9 => mret (QueueClose n) | _ => throw "codec: unknown DeltaOp kind"
  end.
Definition unpack_op : Reader DeltaOp := read_map op_field no_fields ≫= op_of_fields.
Definition delta_field (k : list Z) (d : Delta) : Reader Delta :=
  let '(mkDelta b e os) := d in
  if is_key "base_epoch" k then v ← read_i64; mret (mkDelta v e os)
  else if is_key "epoch" k then v ← read_i64; mret (mkDelta b v os)
  else if is_key "ops" k then l ← read_array unpack_op; mret (mkDelta b e (os ++ l))
  else ignore d.
(* include/lazily/codec.hpp:451-534, unpack_delta *)
Definition unpack_delta : Reader Delta := read_map delta_field (mkDelta 0 0 []).

(** ** Replication and control frames *)

(* include/lazily/codec.hpp:545-551, pack_crdt_sync (loop over the frontier) *)
Definition pack_frontier_entry (e : StampFrontierEntry) : list Z :=
  pack_array_header 2 ++ pack_i64 (fe_peer e) ++ pack_wire_stamp (fe_stamp e).
(* include/lazily/codec.hpp:556-566, pack_crdt_sync (loop over operations) *)
Definition pack_crdt_op (o : CrdtOp) : list Z :=
  pack_map_header 4 ++
  pack_key "node" ++ pack_i64 (co_node o) ++
  pack_key "key" ++ pack_optional_node_key (co_key o) ++
  pack_key "stamp" ++ pack_wire_stamp (co_stamp o) ++
  pack_key "state" ++ pack_ipc_value (co_state o).
(* include/lazily/codec.hpp:538-568, pack_crdt_sync *)
Definition pack_crdt_sync (c : CrdtSync) : list Z :=
  pack_map_header 2 ++
  pack_key "frontier" ++ pack_list pack_frontier_entry (frontier c) ++
  pack_key "ops" ++ pack_list pack_crdt_op (cs_ops c).

(* include/lazily/codec.hpp:578-584, unpack_crdt_sync (loop over the frontier) *)
Definition unpack_frontier_entry : Reader StampFrontierEntry :=
  fn ← read_array_header;
  if negb (fn =? 2) then throw "codec: StampFrontierEntry must be a 2-element array" else
  peer ← read_i64; stamp ← unpack_wire_stamp; mret (mkFrontierEntry peer stamp).
(* include/lazily/codec.hpp:594-603, unpack_crdt_sync (fields of an operation) *)
Definition crdt_op_field (k : list Z) (o : CrdtOp) : Reader CrdtOp :=
  let '(mkCrdtOp n key st v) := o in
  if is_key "node" k then x ← read_i64; mret (mkCrdtOp x key st v)
  else if is_key "key" k then x ← unpack_optional_node_key; mret (mkCrdtOp n x st v)
  else if is_key "stamp" k then x ← unpack_wire_stamp; mret (mkCrdtOp n key x v)
  else if is_key "state" k then x ← unpack_ipc_value; mret (mkCrdtOp n key st x)
  else ignore o.
Definition fresh_crdt_op : CrdtOp := mkCrdtOp 0 None (mkWire 0 0 0) (ValueInline []).
Definition sync_field (k : list Z) (c : CrdtSync) : Reader CrdtSync :=
  let '(mkCrdtSync fr os) := c in
  if is_key "frontier" k then l ← read_array unpack_frontier_entry; mret (mkCrdtSync (fr ++ l) os)
  else if is_key "ops" k then l ← read_array (read_map crdt_op_field fresh_crdt_op); mret (mkCrdtSync fr (os ++ l))
  else ignore c.
(* include/lazily/codec.hpp:569-612, unpack_crdt_sync *)
Definition unpack_crdt_sync : Reader CrdtSync := read_map sync_field (mkCrdtSync [] []).

Definition epoch_field (name : string) (k : list Z) (e : Z) : Reader Z := if is_key name k then read_i64 else ignore e.
(* include/lazily/codec.hpp:616-620, pack_resync_request *)
Definition pack_resync_request (from_epoch : Z) : list Z := pack_map_header 1 ++ pack_key "from_epoch" ++ pack_i64 from_epoch.
(* include/lazily/codec.hpp:621-632, unpack_resync_request *)
Definition unpack_resync_request : Reader Z := read_map (epoch_field "from_epoch") 0.
(* include/lazily/codec.hpp:634-638, pack_outbox_ack *)
Definition pack_outbox_ack (through_epoch : Z) : list Z := pack_map_header 1 ++ pack_key "through_epoch" ++ pack_i64 through_epoch.
(* include/lazily/codec.hpp:639-650, unpack_outbox_ack *)
Definition unpack_outbox_ack : Reader Z := read_map (epoch_field "through_epoch") 0.

(** ** The envelope *)

(* include/lazily/codec.hpp:654-687, pack_ipc_message *)
Definition pack_ipc_message (m : IpcMessage) : list Z :=
  match m with
  | MessageSnapshot s => pack_map_header 2 ++ pack_key "type" ++ pack_i64 0 ++ pack_key "value" ++ pack_snapshot s
  | MessageDelta d => pack_map_header 2 ++ pack_key "type" ++ pack_i64 1 ++ pack_key "value" ++ pack_delta d
  | MessageCrdtSync c => pack_map_header 2 ++ pack_key "type" ++ pack_i64 2 ++ pack_key "value" ++ pack_crdt_sync c
  | MessageResyncRequest e => pack_map_header 2 ++ pack_key "type" ++ pack_i64 3 ++ pack_key "value" ++ pack_resync_request e
  | MessageOutboxAck e => pack_map_header 2 ++ pack_key "type" ++ pack_i64 4 ++ pack_key "value" ++ pack_outbox_ack e
  end.

(* include/lazily/codec.hpp:701-714, unpack_ipc_message (value) *)
Definition unpack_value_of (type : Z) : Reader IpcMessage :=
  match type with
  | 0 => v ← unpack_snapshot; mret (MessageSnapshot v)
  | 1 => v ← unpack_delta; mret (MessageDelta v)
  | 2 => v ← unpack_crdt_sync; mret (MessageCrdtSync v)
  | 3 => v ← unpack_resync_request; mret (MessageResyncRequest v)
  | 4 => v ← unpack_outbox_ack; mret (MessageOutboxAck v)
  | _ => throw "codec: value before type (non-canonical) or unknown type"
  end.
(** The loop ends with the value: what follows it is not read. *)
(* include/lazily/codec.hpp:696-718, unpack_ipc_message (loop) *)
Fixpoint unpack_envelope (n : nat) (type : Z) : Reader IpcMessage :=
  match n with
  | O => throw "codec: IpcMessage missing value"
  | S n =>
      k ← read_str_view;
      if is_key "type" k then v ← read_i64; unpack_envelope n (to_int v)
      else if is_key "value" k then unpack_value_of type
      else skip_value;; unpack_envelope n type
  end.
(* include/lazily/codec.hpp:688-720, unpack_ipc_message *)
Definition unpack_ipc_message : Reader IpcMessage := n ← read_map_header; unpack_envelope (Z.to_nat n) (-1).
End readers.

(** ** Positional frames *)

(* include/lazily/codec.hpp:765-765, kPositionalCodecVersion *)
Definition kPositionalCodecVersion : Z := 1.
(** Every type has a constant of its own; all are 1. *)
(* include/lazily/codec.hpp:770-782, kWireStampPosSchema, ..., kOutboxAckPosSchema *)
Definition kPosSchema : Z := 1.

(** Elements past the ones a reader knows: [n] were announced, [arity] read. *)
Definition skip_extra (n : Z) (arity : nat) : Reader () := repeat_reader (Z.to_nat n - arity) skip_value;; mret ().

(** What every positional reader does around its fields. *)
Definition positional {A : Type} (what : string) (arity : nat) (fields : Reader A) : Reader A :=
  n ← read_array_header;
  if n <? Z.of_nat arity then throw ("codec: " ++ what ++ " positional arity < " ++ text_of (to_string (Z.of_nat arity))) else
  schema ← read_i64;
  if negb (schema =? kPosSchema) then throw ("codec: " ++ what ++ " positional schema mismatch") else
  a ← fields;
  skip_extra n arity;; mret a.
Definition pack_positional (arity : nat) (fields : list Z) : list Z :=
  pack_array_header (Z.of_nat arity) ++ pack_i64 kPosSchema ++ fields.

(* include/lazily/codec.hpp:788-793, pack_optional_node_key_positional *)
Definition pack_optional_node_key_positional (k : option NodeKey) : list Z :=
  match k with Some k => pack_str (path k) | None => pack_nil end.
(* include/lazily/codec.hpp:794-806, unpack_optional_node_key_positional *)
Definition unpack_optional_node_key_positional : Reader (option NodeKey) :=
  k ← peek_kind;
  if decide (k = KNil) then expect_nil;; mret None else
  p ← read_str_view;
  match key_create p with
  | Some key => mret (Some key)
  | None => throw ("codec: `key` is not a valid NodeKey path: `" ++ text_of p ++ "`")
  end.

(* include/lazily/codec.hpp:809-815, pack_wire_stamp_positional *)
Definition pack_wire_stamp_positional (s : WireStamp) : list Z :=
  pack_positional 4 (pack_i64 (w_wall s) ++ pack_i64 (w_logical s) ++ pack_i64 (w_peer s)).
(* include/lazily/codec.hpp:816-829, unpack_wire_stamp_positional *)
Definition unpack_wire_stamp_positional : Reader WireStamp :=
  positional "WireStamp" 4 (w ← read_i64; l ← read_i64; p ← read_i64; mret (mkWire w l p)).

(* include/lazily/codec.hpp:832-841, pack_shm_blob_ref_positional *)
Definition pack_shm_blob_ref_positional (r : ShmBlobRef) : list Z :=
  pack_positional 7 (pack_i64 (offset r) ++ pack_i64 (len r) ++ pack_i64 (generation r) ++ pack_i64 (blob_epoch r) ++
    pack_i64 (checksum r) ++ pack_str (blob_backend_kind_str (backend r))).
(* include/lazily/codec.hpp:842-858, unpack_shm_blob_ref_positional *)
Definition unpack_shm_blob_ref_positional : Reader ShmBlobRef :=
  positional "ShmBlobRef" 7 (o ← read_i64; l ← read_i64; g ← read_i64; e ← read_i64; c ← read_i64; b ← read_backend; mret (mkBlob o l g e c b)).

(* include/lazily/codec.hpp:861-878, pack_node_state_positional *)
Definition pack_node_state_positional (s : NodeState) : list Z :=
  pack_positional 3 match s with
    | StatePayload bytes => pack_i64 0 ++ pack_bin bytes
    | StateSharedBlob blob => pack_i64 1 ++ pack_shm_blob_ref_positional blob
    | StateOpaque => pack_i64 2 ++ pack_nil
    end.
(* include/lazily/codec.hpp:879-902, unpack_node_state_positional *)
Definition unpack_node_state_positional : Reader NodeState :=
  positional "NodeState" 3 (kind ← read_i64;
    if kind =? 0 then bytes ← read_bin; mret (StatePayload bytes)
    else if kind =? 1 then blob ← unpack_shm_blob_ref_positional; mret (StateSharedBlob blob)
    else if kind =? 2 then expect_nil;; mret StateOpaque
    else throw "codec: NodeState positional unknown kind").

(* include/lazily/codec.hpp:905-917, pack_ipc_value_positional *)
Definition pack_ipc_value_positional (v : IpcValue) : list Z :=
  pack_positional 3 match v with
    | ValueInline bytes => pack_i64 0 ++ pack_bin bytes
    | ValueSharedBlob blob => pack_i64 1 ++ pack_shm_blob_ref_positional blob
    end.
(* include/lazily/codec.hpp:918-939, unpack_ipc_value_positional *)
Definition unpack_ipc_value_positional : Reader IpcValue :=
  positional "IpcValue" 3 (kind ← read_i64;
    if kind =? 0 then bytes ← read_bin; mret (ValueInline bytes)
    else if kind =? 1 then blob ← unpack_shm_blob_ref_positional; mret (ValueSharedBlob blob)
    else throw "codec: IpcValue positional unknown kind").

(* include/lazily/codec.hpp:942-949, pack_node_snapshot_positional *)
Definition pack_node_snapshot_positional (nd : NodeSnapshot) : list Z :=
  pack_positional 5 (pack_i64 (ns_node nd) ++ pack_str (ns_type_tag nd) ++ pack_node_state_positional (ns_state nd) ++
    pack_optional_node_key_positional (ns_key nd)).
(* include/lazily/codec.hpp:950-964, unpack_node_snapshot_positional *)
Definition unpack_node_snapshot_positional : Reader NodeSnapshot :=
  positional "NodeSnapshot" 5 (node ← read_i64; tag ← read_str; state ← unpack_node_state_positional;
    key ← unpack_optional_node_key_positional; mret (mkNode node tag state key)).

(* include/lazily/codec.hpp:966-971, pack_edge_snapshot_positional *)
Definition pack_edge_snapshot_positional (e : EdgeSnapshot) : list Z :=
  pack_positional 3 (pack_i64 (dependent e) ++ pack_i64 (dependency e)).
(* include/lazily/codec.hpp:972-984, unpack_edge_snapshot_positional *)
Definition unpack_edge_snapshot_positional : Reader EdgeSnapshot :=
  positional "EdgeSnapshot" 3 (a ← read_i64; b ← read_i64; mret (mkEdge a b)).

(* include/lazily/codec.hpp:987-1002, pack_snapshot_positional *)
Definition pack_snapshot_positional (s : Snapshot) : list Z :=
  pack_positional 5 (pack_i64 (s_epoch s) ++ pack_list pack_node_snapshot_positional (s_nodes s) ++
    pack_list pack_edge_snapshot_positional (s_edges s) ++ pack_list pack_i64 (s_roots s)).
(* include/lazily/codec.hpp:1003-1026, unpack_snapshot_positional *)
Definition unpack_snapshot_positional : Reader Snapshot :=
  positional "Snapshot" 5 (e ← read_i64; ns ← read_array unpack_node_snapshot_positional;
    es ← read_array unpack_edge_snapshot_positional; rs ← read_array read_i64; mret (mkSnapshot e ns es rs)).

(* include/lazily/codec.hpp:1029-1034, pack_stamp_frontier_entry_positional *)
Definition pack_stamp_frontier_entry_positional (e : StampFrontierEntry) : list Z :=
  pack_positional 3 (pack_i64 (fe_peer e) ++ pack_wire_stamp_positional (fe_stamp e)).
(* include/lazily/codec.hpp:1035-1047, unpack_stamp_frontier_entry_positional *)
Definition unpack_stamp_frontier_entry_positional : Reader StampFrontierEntry :=
  positional "StampFrontierEntry" 3 (p ← read_i64; s ← unpack_wire_stamp_positional; mret (mkFrontierEntry p s)).

(* include/lazily/codec.hpp:1049-1056, pack_crdt_op_positional *)
Definition pack_crdt_op_positional (o : CrdtOp) : list Z :=
  pack_positional 5 (pack_i64 (co_node o) ++ pack_optional_node_key_positional (co_key o) ++ pack_wire_stamp_positional (co_stamp o) ++
    pack_ipc_value_positional (co_state o)).
(* include/lazily/codec.hpp:1057-1071, unpack_crdt_op_positional *)
Definition unpack_crdt_op_positional : Reader CrdtOp :=
  positional "CrdtOp" 5 (n ← read_i64; k ← unpack_optional_node_key_positional; s ← unpack_wire_stamp_positional;
    v ← unpack_ipc_value_positional; mret (mkCrdtOp n k s v)).

(* include/lazily/codec.hpp:1073-1083, pack_crdt_sync_positional *)
Definition pack_crdt_sync_positional (c : CrdtSync) : list Z :=
  pack_positional 3 (pack_list pack_stamp_frontier_entry_positional (frontier c) ++ pack_list pack_crdt_op_positional (cs_ops c)).
(* include/lazily/codec.hpp:1084-1102, unpack_crdt_sync_positional *)
Definition unpack_crdt_sync_positional : Reader CrdtSync :=
  positional "CrdtSync" 3 (fr ← read_array unpack_stamp_frontier_entry_positional; os ← read_array unpack_crdt_op_positional;
    mret (mkCrdtSync fr os)).

(* include/lazily/codec.hpp:1109-1172, pack_delta_op_positional *)
Definition pack_delta_op_positional (op : DeltaOp) : list Z :=
  pack_array_header 2 ++
  match op with
  | CellSet n v => pack_i64 0 ++ pack_array_header 2 ++ pack_i64 n ++ pack_ipc_value_positional v
  | SlotValue n v => pack_i64 1 ++ pack_array_header 2 ++ pack_i64 n ++ pack_ipc_value_positional v
  | Invalidate n => pack_i64 2 ++ pack_array_header 1 ++ pack_i64 n
  | NodeAdd n t s k =>
      pack_i64 3 ++ pack_array_header 4 ++ pack_i64 n ++ pack_str t ++ pack_node_state_positional s ++ pack_optional_node_key_positional k
  | NodeRemove n => pack_i64 4 ++ pack_array_header 1 ++ pack_i64 n
  | EdgeAdd a b => pack_i64 5 ++ pack_array_header 2 ++ pack_i64 a ++ pack_i64 b
  | EdgeRemove a b => pack_i64 6 ++ pack_array_header 2 ++ pack_i64 a ++ pack_i64 b
  | QueuePush n v => pack_i64 7 ++ pack_array_header 2 ++ pack_i64 n ++ pack_ipc_value_positional v
  | QueuePop n => pack_i64 8 ++ pack_array_header 1 ++ pack_i64 n
  | QueueClose n => pack_i64 9 ++ pack_array_header 1 ++ pack_i64 n
  end.

(** The fields of an operation, of which [m] were announced. *)
Definition op_fields {A : Type} (what : string) (m : Z) (arity : nat) (fields : Reader A) : Reader A :=
  if m <? Z.of_nat arity then throw ("codec: " ++ what ++ " fields < " ++ text_of (to_string (Z.of_nat arity))) else
  a ← fields; skip_extra m arity;; mret a.
Definition node_payload : Reader (Z * IpcValue) := n ← read_i64; v ← unpack_ipc_value_positional; mret (n, v).
Definition edge_ends : Reader (Z * Z) := a ← read_i64; b ← read_i64; mret (a, b).

(* include/lazily/codec.hpp:1173-1270, unpack_delta_op_positional *)
Definition unpack_delta_op_positional : Reader DeltaOp :=
  n ← read_array_header;
  if n <? 2 then throw "codec: DeltaOp positional arity < 2" else
  op_kind ← read_i64;
  m ← read_array_header;
  match op_kind with
  | 0 => '(n, v) ← op_fields "DeltaOpCellSet" m 2 node_payload; mret (CellSet n v)
  | 1 => '(n, v) ← op_fields "DeltaOpSlotValue" m 2 node_payload; mret (SlotValue n v)
  | 2 => n ← op_fields "DeltaOpInvalidate" m 1 read_i64; mret (Invalidate n)
  | 3 => op_fields "DeltaOpNodeAdd" m 4 (n ← read_i64; t ← read_str; s ← unpack_node_state_positional;
           k ← unpack_optional_node_key_positional; mret (NodeAdd n t s k))
  | 4 => n ← op_fields "DeltaOpNodeRemove" m 1 read_i64; mret (NodeRemove n)
  | 5 => '(a, b) ← op_fields "DeltaOpEdgeAdd" m 2 edge_ends; mret (EdgeAdd a b)
  | 6 => '(a, b) ← op_fields "DeltaOpEdgeRemove" m 2 edge_ends; mret (EdgeRemove a b)
  | 7 => '(n, v) ← op_fields "DeltaOpQueuePush" m 2 node_payload; mret (QueuePush n v)
  | 8 => n ← op_fields "DeltaOpQueuePop" m 1 read_i64; mret (QueuePop n)
  | 9 => n ← op_fields "DeltaOpQueueClose" m 1 read_i64; mret (QueueClose n)
  | _ => throw "codec: unknown DeltaOp kind (positional)"
  end.

(* include/lazily/codec.hpp:1272-1281, pack_delta_positional *)
Definition pack_delta_positional (d : Delta) : list Z :=
  pack_positional 4 (pack_i64 (base_epoch d) ++ pack_i64 (d_epoch d) ++ pack_list pack_delta_op_positional (d_ops d)).
(* include/lazily/codec.hpp:1282-1298, unpack_delta_positional *)
Definition unpack_delta_positional : Reader Delta :=
  positional "Delta" 4 (b ← read_i64; e ← read_i64; os ← read_array unpack_delta_op_positional; mret (mkDelta b e os)).

(* include/lazily/codec.hpp:1301-1305, pack_resync_request_positional *)
Definition pack_resync_request_positional (from_epoch : Z) : list Z := pack_positional 2 (pack_i64 from_epoch).
(* include/lazily/codec.hpp:1306-1317, unpack_resync_request_positional *)
Definition unpack_resync_request_positional : Reader Z := positional "ResyncRequest" 2 read_i64.
(* include/lazily/codec.hpp:1319-1323, pack_outbox_ack_positional *)
Definition pack_outbox_ack_positional (through_epoch : Z) : list Z := pack_positional 2 (pack_i64 through_epoch).
(* include/lazily/codec.hpp:1324-1335, unpack_outbox_ack_positional *)
Definition unpack_outbox_ack_positional : Reader Z := positional "OutboxAck" 2 read_i64.

(* include/lazily/codec.hpp:1338-1357, pack_ipc_message_positional *)
Definition pack_ipc_message_positional (m : IpcMessage) : list Z :=
  pack_array_header 3 ++ pack_i64 kPositionalCodecVersion ++
  match m with
  | MessageSnapshot s => pack_i64 0 ++ pack_snapshot_positional s
  | MessageDelta d => pack_i64 1 ++ pack_delta_positional d
  | MessageCrdtSync c => pack_i64 2 ++ pack_crdt_sync_positional c
  | MessageResyncRequest e => pack_i64 3 ++ pack_resync_request_positional e
  | MessageOutboxAck e => pack_i64 4 ++ pack_outbox_ack_positional e
  end.
(* include/lazily/codec.hpp:1358-1388, unpack_ipc_message_positional *)
Definition unpack_ipc_message_positional : Reader IpcMessage :=
  n ← read_array_header;
  if n <? 3 then throw "codec: IpcMessage positional arity < 3" else
  codec_version ← read_i64;
  if negb (codec_version =? kPositionalCodecVersion) then throw "codec: positional codec version mismatch (incompatible envelope)" else
  type_disc ← read_i64;
  m ← match type_disc with
      | 0 => v ← unpack_snapshot_positional; mret (MessageSnapshot v)
      | 1 => v ← unpack_delta_positional; mret (MessageDelta v)
      | 2 => v ← unpack_crdt_sync_positional; mret (MessageCrdtSync v)
      | 3 => v ← unpack_resync_request_positional; mret (MessageResyncRequest v)
      | 4 => v ← unpack_outbox_ack_positional; mret (MessageOutboxAck v)
      | _ => throw "codec: IpcMessage positional unknown type"
      end;
  skip_extra n 3;; mret m.

(** ** The encoders and the decoder *)

(* include/lazily/codec.hpp:1396-1400, encode *)
Definition framing_encode (m : IpcMessage) : list Z := pack_ipc_message m.
(* include/lazily/codec.hpp:1405-1409, encode_positional *)
Definition encode_positional (m : IpcMessage) : list Z := pack_ipc_message_positional m.
(** What follows the message is not looked at. *)
(* include/lazily/codec.hpp:1417-1423, decode *)
Definition framing_decode (indeterminate : Z) (data : list Z) : Decoded IpcMessage :=
  let m := k ← peek_kind; if decide (k = KArray) then unpack_ipc_message_positional else unpack_ipc_message indeterminate in
  match m data with inl e => inl e | inr (m, _) => inr m end.

(** ** Frames are read back *)

Lemma reads_then {A B} (m : Reader A) (f : A → Reader B) bs a b : reads m bs a → reads (f a) [] b → reads (m ≫= f) bs b.
Proof. intros Hm Hf. rewrite <- (app_nil_r bs). by apply (reads_bind m f bs [] a b). Qed.

Lemma reads_fields_last {R} (field : list Z → R → Reader R) r name body r' :
  bool_decide (Z.of_nat (length (bytes_of name)) < two32) = true → reads (field (bytes_of name) r) body r' →
  reads (read_fields 1 field r) (pack_key name ++ body) r'.
Proof.
  intros Hk%bool_decide_eq_true Hf. cbn [read_fields]. eapply reads_bind; [by apply str_reads|]. cbn beta.
  eapply reads_then; [exact Hf|]. apply reads_ret.
Qed.

Lemma reads_fields_cons {R} n (field : list Z → R → Reader R) r name body r' bs r'' :
  bool_decide (Z.of_nat (length (bytes_of name)) < two32) = true → reads (field (bytes_of name) r) body r' →
  reads (read_fields n field r') bs r'' → reads (read_fields (S n) field r) (pack_key name ++ body ++ bs) r''.
Proof.
  intros Hk%bool_decide_eq_true Hf Hr. cbn [read_fields]. eapply reads_bind; [by apply str_reads|]. cbn beta.
  by eapply reads_bind.
Qed.

Lemma reads_map {R} n (field : list Z → R → Reader R) r bs r' : Z.of_nat n < two32 →
  reads (read_fields n field r) bs r' → reads (read_map field r) (pack_map_header (Z.of_nat n) ++ bs) r'.
Proof.
  intros Hn Hr. eapply reads_bind; [apply map_header_reads; lia|]. cbn beta. by rewrite Nat2Z.id.
Qed.

Lemma reads_array {A} (m : Reader A) (write : A → list Z) l : Z.of_nat (length l) < two32 →
  (∀ x, x ∈ l → reads m (write x) x) → reads (read_array m) (pack_list write l) l.
Proof.
  intros Hn Hl. unfold pack_list. rewrite Z.mod_small by lia. eapply reads_bind; [apply array_header_reads; lia|]. cbn beta.
  rewrite Nat2Z.id. rewrite <- (list_fmap_id l) at 3. by apply (reads_repeat m write id).
Qed.

Lemma reads_skip_none n : reads (skip_extra (Z.of_nat n) n) [] ().
Proof. unfold skip_extra. rewrite Nat2Z.id, Nat.sub_diag. by intros rest. Qed.

Lemma reads_positional {A} what arity (fields : Reader A) bs a : Z.of_nat arity < two32 →
  reads fields bs a → reads (positional what arity fields) (pack_positional arity bs) a.
Proof.
  intros Hn Hf. eapply reads_bind; [apply array_header_reads; lia|]. cbn beta. rewrite Z.ltb_irrefl.
  eapply reads_bind; [by apply i64_reads|]. cbn beta. rewrite Z.eqb_refl. cbn [negb].
  eapply reads_then; [exact Hf|]. cbn beta. eapply reads_then; [apply reads_skip_none|]. apply reads_ret.
Qed.

Lemma reads_i64_then {B} z (f : Z → Reader B) bs b : is_i64 z → reads (f z) bs b → reads (read_i64 ≫= f) (pack_i64 z ++ bs) b.
Proof. intros Hz. by apply reads_bind, i64_reads. Qed.

(** What the reader does of a key it knows, by computing. *)
Ltac with_field H := eapply reads_fields_cons; [reflexivity|refine (reads_fmap _ _ _ _ H)|].
Ltac last_field H := eapply reads_fields_last; [reflexivity|refine (reads_fmap _ _ _ _ H)].
#[local] Notation small := (λ n : Z, n < two32).

Lemma backend_reads k : reads read_backend (pack_str (blob_backend_kind_str k)) k.
Proof. unfold read_backend, read_str_view. eapply reads_then; [apply str_reads; by destruct k|]. by destruct k. Qed.

Lemma blob_reads r : typed_blob r → reads unpack_shm_blob_ref (pack_shm_blob_ref r) r.
Proof.
  destruct r as [o l g e c b]. intros (Ho & Hl & Hg & He & Hc). simpl in *. unfold unpack_shm_blob_ref, pack_shm_blob_ref, empty_blob.
  apply (reads_map 6); [done|]. with_field (i64_reads _ Ho). with_field (i64_reads _ Hl). with_field (i64_reads _ Hg).
  with_field (i64_reads _ He). with_field (i64_reads _ Hc). last_field (backend_reads b).
Qed.

Lemma stamp_reads s : typed_stamp s → reads unpack_wire_stamp (pack_wire_stamp s) s.
Proof.
  destruct s as [w l p]. intros (Hw & Hl & Hp). simpl in *. unfold unpack_wire_stamp, pack_wire_stamp. apply (reads_map 3); [done|].
  with_field (i64_reads _ Hw). with_field (i64_reads _ Hl). last_field (i64_reads _ Hp).
Qed.

Lemma key_reads k : typed_key small k → reads unpack_optional_node_key (pack_optional_node_key k) k.
Proof.
  unfold unpack_optional_node_key. destruct k as [k|]; simpl; intros Hk.
  - destruct Hk as [_ Hn]. eapply reads_kind; [apply str_starts|]. rewrite decide_False by done.
    eapply reads_then; [by apply str_reads|]. cbn beta. rewrite key_create_path. apply reads_ret.
  - by intros rest.
Qed.

Lemma kind_is_i64 z : bool_decide (is_i64 z) = true → is_i64 z.
Proof. apply bool_decide_eq_true. Qed.
Ltac tag z := exact (i64_reads z (kind_is_i64 z eq_refl)).

Lemma state_reads s : typed_state small s → reads unpack_node_state (pack_node_state s) s.
Proof.
  destruct s as [bytes|blob|]; intros Hs; unfold unpack_node_state.
  - destruct Hs as [_ Hn]. eapply reads_then; [apply (reads_map 2); [done|]; with_field (i64_reads 0 (kind_is_i64 0 eq_refl)); last_field (bin_reads bytes Hn)|apply reads_ret].
  - eapply reads_then; [apply (reads_map 2); [done|]; with_field (i64_reads 1 (kind_is_i64 1 eq_refl)); last_field (blob_reads blob Hs)|apply reads_ret].
  - eapply reads_then; [apply (reads_map 1); [done|]; last_field (i64_reads 2 (kind_is_i64 2 eq_refl))|apply reads_ret].
Qed.

Lemma value_reads' v : typed_value small v → reads unpack_ipc_value (pack_ipc_value v) v.
Proof.
  destruct v as [bytes|blob]; intros Hs; unfold unpack_ipc_value.
  - destruct Hs as [_ Hn]. eapply reads_then; [apply (reads_map 2); [done|]; with_field (i64_reads 0 (kind_is_i64 0 eq_refl)); last_field (bin_reads bytes Hn)|apply reads_ret].
  - eapply reads_then; [apply (reads_map 2); [done|]; with_field (i64_reads 1 (kind_is_i64 1 eq_refl)); last_field (blob_reads blob Hs)|apply reads_ret].
Qed.

Section maps.
  Context (indeterminate : Z).

Lemma node_reads n : typed_node small n → reads (read_map node_field (fresh_node indeterminate)) (pack_node n) n.
Proof.
  destruct n as [n t s k]. intros (Hn & [_ Ht] & Hs & Hk). simpl in *. unfold fresh_node, pack_node. apply (reads_map 4); [done|].
  with_field (i64_reads _ Hn). with_field (str_reads _ Ht). with_field (state_reads _ Hs). last_field (key_reads _ Hk).
Qed.

Lemma edge_reads e : typed_edge e → reads (read_map edge_field (fresh_edge indeterminate)) (pack_edge e) e.
Proof.
  destruct e as [a b]. intros [Ha Hb]. simpl in *. unfold fresh_edge, pack_edge. apply (reads_map 2); [done|].
  with_field (i64_reads _ Ha). last_field (i64_reads _ Hb).
Qed.

(** A list of things each of which is read back. *)
Lemma reads_list {A} (P : A → Prop) (m : Reader A) write l : (∀ x, P x → reads m (write x) x) → typed_list small P l →
  reads (read_array m) (pack_list write l) l.
Proof. intros Hx [Hl Hn]. apply reads_array; [done|]. intros x Hin. apply Hx. rewrite Forall_forall in Hl. by apply Hl. Qed.

Lemma snapshot_reads s : typed_message small (MessageSnapshot s) → reads (unpack_snapshot indeterminate) (pack_snapshot s) s.
Proof.
  destruct s as [e ns es rs]. intros (He & Hn & Hes & Hr). simpl in *. unfold unpack_snapshot, pack_snapshot. apply (reads_map 4); [done|].
  with_field (i64_reads _ He). with_field (reads_list _ _ _ _ node_reads Hn). with_field (reads_list _ _ _ _ edge_reads Hes).
  last_field (reads_list _ _ _ _ i64_reads Hr).
Qed.

Ltac op_fields_of k n Hn rest := eapply reads_then;
  [apply (reads_map n); [done|]; with_field (i64_reads k (kind_is_i64 k eq_refl)); rest|apply reads_ret].
Lemma op_reads o : typed_op small o → reads unpack_op (pack_op o) o.
Proof.
  destruct o as [n v|n v|n|n t st k|n|a b|a b|n v|n|n]; intros Ho; unfold unpack_op.
  - destruct Ho as [Hn Hv]. op_fields_of 0 3%nat Hn ltac:(with_field (i64_reads _ Hn); last_field (value_reads' _ Hv)).
  - destruct Ho as [Hn Hv]. op_fields_of 1 3%nat Hn ltac:(with_field (i64_reads _ Hn); last_field (value_reads' _ Hv)).
  - op_fields_of 2 2%nat Ho ltac:(last_field (i64_reads _ Ho)).
  - destruct Ho as (Hn & [_ Ht] & Hs & Hk). simpl in Hn, Ht, Hs, Hk.
    op_fields_of 3 5%nat Hn ltac:(with_field (i64_reads _ Hn); with_field (str_reads _ Ht); with_field (state_reads _ Hs); last_field (key_reads _ Hk)).
  - op_fields_of 4 2%nat Ho ltac:(last_field (i64_reads _ Ho)).
  - destruct Ho as [Ha Hb]. op_fields_of 5 3%nat Ha ltac:(with_field (i64_reads _ Ha); last_field (i64_reads _ Hb)).
  - destruct Ho as [Ha Hb]. op_fields_of 6 3%nat Ha ltac:(with_field (i64_reads _ Ha); last_field (i64_reads _ Hb)).
  - destruct Ho as [Hn Hv]. op_fields_of 7 3%nat Hn ltac:(with_field (i64_reads _ Hn); last_field (value_reads' _ Hv)).
  - op_fields_of 8 2%nat Ho ltac:(last_field (i64_reads _ Ho)).
  - op_fields_of 9 2%nat Ho ltac:(last_field (i64_reads _ Ho)).
Qed.

Lemma delta_reads d : typed_message small (MessageDelta d) → reads unpack_delta (pack_delta d) d.
Proof.
  destruct d as [b e os]. intros (Hb & He & Ho). simpl in *. unfold unpack_delta, pack_delta. apply (reads_map 3); [done|].
  with_field (i64_reads _ Hb). with_field (i64_reads _ He). last_field (reads_list _ _ _ _ op_reads Ho).
Qed.

Lemma frontier_reads e : is_i64 (fe_peer e) ∧ typed_stamp (fe_stamp e) → reads unpack_frontier_entry (pack_frontier_entry e) e.
Proof.
  destruct e as [p s]. intros [Hp Hs]. simpl in *. unfold unpack_frontier_entry, pack_frontier_entry.
  eapply reads_bind; [by apply array_header_reads|]. apply reads_i64_then; [done|]. eapply reads_then; [by apply stamp_reads|]. apply reads_ret.
Qed.

Lemma crdt_op_reads o : typed_crdt_op small o → reads (read_map crdt_op_field fresh_crdt_op) (pack_crdt_op o) o.
Proof.
  destruct o as [n k st v]. intros (Hn & Hk & Hs & Hv). simpl in *. unfold fresh_crdt_op, pack_crdt_op. apply (reads_map 4); [done|].
  with_field (i64_reads _ Hn). with_field (key_reads _ Hk). with_field (stamp_reads _ Hs). last_field (value_reads' _ Hv).
Qed.

Lemma sync_reads c : typed_message small (MessageCrdtSync c) → reads unpack_crdt_sync (pack_crdt_sync c) c.
Proof.
  destruct c as [fr os]. intros (Hf & Ho). simpl in *. unfold unpack_crdt_sync, pack_crdt_sync. apply (reads_map 2); [done|].
  with_field (reads_list _ _ _ _ frontier_reads Hf). last_field (reads_list _ _ _ _ crdt_op_reads Ho).
Qed.

Lemma epoch_reads name e : bool_decide (Z.of_nat (length (bytes_of name)) < two32) = true → is_i64 e →
  reads (read_map (epoch_field name) 0) (pack_map_header 1 ++ pack_key name ++ pack_i64 e) e.
Proof.
  intros Hk He. apply (reads_map 1); [done|]. apply reads_fields_last; [done|]. unfold epoch_field, is_key.
  rewrite bool_decide_eq_true_2 by done. by apply i64_reads.
Qed.

(** The envelope: the type, then the value. *)
Lemma envelope_reads type body m : bool_decide (is_i64 type) = true → reads (unpack_value_of indeterminate (to_int type)) body m →
  reads (unpack_ipc_message indeterminate) (pack_map_header 2 ++ pack_key "type" ++ pack_i64 type ++ pack_key "value" ++ body) m.
Proof.
  intros Ht%bool_decide_eq_true Hb. eapply reads_bind; [by apply map_header_reads|]. cbn beta. cbn [Z.to_nat Pos.to_nat Pos.iter_op Nat.add unpack_envelope].
  eapply reads_bind; [by apply str_reads|]. cbn beta. change (is_key "type" (bytes_of "type")) with true. cbn match.
  apply reads_i64_then; [done|]. eapply reads_bind; [by apply str_reads|]. cbn beta. exact Hb.
Qed.

Lemma message_reads m : typed_message small m → reads (unpack_ipc_message indeterminate) (pack_ipc_message m) m.
Proof.
  destruct m as [s|d|c|e|e]; intros Hm; apply envelope_reads; try reflexivity.
  - refine (reads_fmap _ MessageSnapshot _ _ (snapshot_reads s Hm)).
  - refine (reads_fmap _ MessageDelta _ _ (delta_reads d Hm)).
  - refine (reads_fmap _ MessageCrdtSync _ _ (sync_reads c Hm)).
  - refine (reads_fmap _ MessageResyncRequest _ _ (epoch_reads "from_epoch" e eq_refl Hm)).
  - refine (reads_fmap _ MessageOutboxAck _ _ (epoch_reads "through_epoch" e eq_refl Hm)).
Qed.
End maps.

(** *** Positional *)
Section positional_reads.

(** Field by field: the reader of the head, then the rest. *)
Ltac next_with H := eapply reads_bind; [exact H|cbn beta].
Ltac last_with H := refine (reads_fmap _ _ _ _ H).

Lemma key_reads_positional k : typed_key small k → reads unpack_optional_node_key_positional (pack_optional_node_key_positional k) k.
Proof. exact (key_reads k). Qed.

Lemma stamp_reads_positional s : typed_stamp s → reads unpack_wire_stamp_positional (pack_wire_stamp_positional s) s.
Proof.
  destruct s as [w l p]. intros (Hw & Hl & Hp). apply reads_positional; [done|]. simpl in Hw, Hl, Hp |- *.
  next_with (i64_reads w Hw). next_with (i64_reads l Hl). last_with (i64_reads p Hp).
Qed.

Lemma blob_reads_positional r : typed_blob r → reads unpack_shm_blob_ref_positional (pack_shm_blob_ref_positional r) r.
Proof.
  destruct r as [o l g e c b]. intros (Ho & Hl & Hg & He & Hc). apply reads_positional; [done|]. cbn [offset len generation blob_epoch checksum backend] in *.
  next_with (i64_reads o Ho). next_with (i64_reads l Hl). next_with (i64_reads g Hg). next_with (i64_reads e He). next_with (i64_reads c Hc).
  last_with (backend_reads b).
Qed.

Lemma state_reads_positional s : typed_state small s → reads unpack_node_state_positional (pack_node_state_positional s) s.
Proof.
  destruct s as [bytes|blob|]; intros Hs; (apply reads_positional; [done|]).
  - next_with (i64_reads 0 (kind_is_i64 0 eq_refl)). last_with (bin_reads bytes (proj2 Hs)).
  - next_with (i64_reads 1 (kind_is_i64 1 eq_refl)). last_with (blob_reads_positional blob Hs).
  - next_with (i64_reads 2 (kind_is_i64 2 eq_refl)). by intros rest.
Qed.

Lemma value_reads_positional v : typed_value small v → reads unpack_ipc_value_positional (pack_ipc_value_positional v) v.
Proof.
  destruct v as [bytes|blob]; intros Hs; (apply reads_positional; [done|]).
  - next_with (i64_reads 0 (kind_is_i64 0 eq_refl)). last_with (bin_reads bytes (proj2 Hs)).
  - next_with (i64_reads 1 (kind_is_i64 1 eq_refl)). last_with (blob_reads_positional blob Hs).
Qed.

Lemma node_reads_positional n : typed_node small n → reads unpack_node_snapshot_positional (pack_node_snapshot_positional n) n.
Proof.
  destruct n as [n t s k]. intros (Hn & [_ Ht] & Hs & Hk). apply reads_positional; [done|]. cbn [ns_node ns_type_tag ns_state ns_key] in *.
  next_with (i64_reads n Hn). next_with (str_reads t Ht). next_with (state_reads_positional s Hs). last_with (key_reads_positional k Hk).
Qed.

Lemma edge_reads_positional e : typed_edge e → reads unpack_edge_snapshot_positional (pack_edge_snapshot_positional e) e.
Proof.
  destruct e as [a b]. intros [Ha Hb]. apply reads_positional; [done|]. simpl in Ha, Hb |- *. next_with (i64_reads a Ha). last_with (i64_reads b Hb).
Qed.

Lemma snapshot_reads_positional s : typed_message small (MessageSnapshot s) →
  reads unpack_snapshot_positional (pack_snapshot_positional s) s.
Proof.
  destruct s as [e ns es rs]. intros (He & Hn & Hes & Hr). cbn [s_epoch s_nodes s_edges s_roots] in *. apply reads_positional; [done|].
  next_with (i64_reads e He). next_with (reads_list _ _ _ _ node_reads_positional Hn). next_with (reads_list _ _ _ _ edge_reads_positional Hes).
  last_with (reads_list _ _ _ _ i64_reads Hr).
Qed.

Lemma frontier_reads_positional e : is_i64 (fe_peer e) ∧ typed_stamp (fe_stamp e) →
  reads unpack_stamp_frontier_entry_positional (pack_stamp_frontier_entry_positional e) e.
Proof.
  destruct e as [p s]. intros [Hp Hs]. apply reads_positional; [done|]. cbn [fe_peer fe_stamp] in *.
  next_with (i64_reads p Hp). last_with (stamp_reads_positional s Hs).
Qed.

Lemma crdt_op_reads_positional o : typed_crdt_op small o → reads unpack_crdt_op_positional (pack_crdt_op_positional o) o.
Proof.
  destruct o as [n k st v]. intros (Hn & Hk & Hs & Hv). apply reads_positional; [done|]. cbn [co_node co_key co_stamp co_state] in *.
  next_with (i64_reads n Hn). next_with (key_reads_positional k Hk). next_with (stamp_reads_positional st Hs). last_with (value_reads_positional v Hv).
Qed.

Lemma sync_reads_positional c : typed_message small (MessageCrdtSync c) → reads unpack_crdt_sync_positional (pack_crdt_sync_positional c) c.
Proof.
  destruct c as [fr os]. intros (Hf & Ho). cbn [frontier cs_ops] in *. apply reads_positional; [done|].
  next_with (reads_list _ _ _ _ frontier_reads_positional Hf). last_with (reads_list _ _ _ _ crdt_op_reads_positional Ho).
Qed.

Lemma op_fields_read {A} what arity (fields : Reader A) bs a : reads fields bs a →
  reads (op_fields what (Z.of_nat arity) arity fields) bs a.
Proof.
  intros Hf. unfold op_fields. rewrite Z.ltb_irrefl. eapply reads_then; [exact Hf|]. cbn beta.
  eapply reads_then; [apply reads_skip_none|]. apply reads_ret.
Qed.

Lemma node_payload_reads n v : is_i64 n → typed_value small v → reads node_payload (pack_i64 n ++ pack_ipc_value_positional v) (n, v).
Proof. intros Hn Hv. next_with (i64_reads n Hn). last_with (value_reads_positional v Hv). Qed.
Lemma edge_ends_read a b : is_i64 a → is_i64 b → reads edge_ends (pack_i64 a ++ pack_i64 b) (a, b).
Proof. intros Ha Hb. next_with (i64_reads a Ha). last_with (i64_reads b Hb). Qed.

Ltac op_with k arity H := eapply reads_bind; [by apply array_header_reads|]; cbn beta; change (2 <? 2) with false; cbn match;
  next_with (i64_reads k (kind_is_i64 k eq_refl)); eapply reads_bind; [by apply (array_header_reads (Z.of_nat arity))|]; cbn beta; cbn match;
  first [refine (reads_fmap _ _ _ _ (op_fields_read _ arity _ _ _ H)) | eapply reads_then; [exact (op_fields_read _ arity _ _ _ H)|apply reads_ret]].
Lemma op_reads_positional o : typed_op small o → reads unpack_delta_op_positional (pack_delta_op_positional o) o.
Proof.
  destruct o as [n v|n v|n|n t st k|n|a b|a b|n v|n|n]; intros Ho.
  - op_with 0 2%nat (node_payload_reads n v (proj1 Ho) (proj2 Ho)).
  - op_with 1 2%nat (node_payload_reads n v (proj1 Ho) (proj2 Ho)).
  - op_with 2 1%nat (i64_reads n Ho).
  - destruct Ho as (Hn & [_ Ht] & Hs & Hk). cbn [ns_node ns_type_tag ns_state ns_key] in *.
    eapply reads_bind; [by apply array_header_reads|]; cbn beta; change (2 <? 2) with false; cbn match.
    next_with (i64_reads 3 (kind_is_i64 3 eq_refl)); eapply reads_bind; [by apply (array_header_reads 4)|]; cbn beta; cbn match.
    apply (op_fields_read _ 4). next_with (i64_reads n Hn). next_with (str_reads t Ht). next_with (state_reads_positional st Hs).
    last_with (key_reads_positional k Hk).
  - op_with 4 1%nat (i64_reads n Ho).
  - op_with 5 2%nat (edge_ends_read a b (proj1 Ho) (proj2 Ho)).
  - op_with 6 2%nat (edge_ends_read a b (proj1 Ho) (proj2 Ho)).
  - op_with 7 2%nat (node_payload_reads n v (proj1 Ho) (proj2 Ho)).
  - op_with 8 1%nat (i64_reads n Ho).
  - op_with 9 1%nat (i64_reads n Ho).
Qed.

Lemma delta_reads_positional d : typed_message small (MessageDelta d) → reads unpack_delta_positional (pack_delta_positional d) d.
Proof.
  destruct d as [b e os]. intros (Hb & He & Ho). cbn [base_epoch d_epoch d_ops] in *. apply reads_positional; [done|].
  next_with (i64_reads b Hb). next_with (i64_reads e He). last_with (reads_list _ _ _ _ op_reads_positional Ho).
Qed.

Lemma message_reads_positional m : typed_message small m → reads unpack_ipc_message_positional (pack_ipc_message_positional m) m.
Proof.
  intros Hm. eapply reads_bind; [by apply array_header_reads|]. cbn beta. change (3 <? 3) with false. cbn match.
  next_with (i64_reads 1 (kind_is_i64 1 eq_refl)). change (negb (1 =? kPositionalCodecVersion)) with false. cbn match.
  destruct m as [s|d|c|e|e].
  - next_with (i64_reads 0 (kind_is_i64 0 eq_refl)). eapply reads_then; [last_with (snapshot_reads_positional s Hm)|].
    by eapply reads_then; [apply (reads_skip_none 3)|apply reads_ret].
  - next_with (i64_reads 1 (kind_is_i64 1 eq_refl)). eapply reads_then; [last_with (delta_reads_positional d Hm)|].
    by eapply reads_then; [apply (reads_skip_none 3)|apply reads_ret].
  - next_with (i64_reads 2 (kind_is_i64 2 eq_refl)). eapply reads_then; [last_with (sync_reads_positional c Hm)|].
    by eapply reads_then; [apply (reads_skip_none 3)|apply reads_ret].
  - next_with (i64_reads 3 (kind_is_i64 3 eq_refl)).
    eapply reads_then; [last_with (reads_positional "ResyncRequest" 2 _ _ _ eq_refl (i64_reads e Hm))|].
    by eapply reads_then; [apply (reads_skip_none 3)|apply reads_ret].
  - next_with (i64_reads 4 (kind_is_i64 4 eq_refl)).
    eapply reads_then; [last_with (reads_positional "OutboxAck" 2 _ _ _ eq_refl (i64_reads e Hm))|].
    by eapply reads_then; [apply (reads_skip_none 3)|apply reads_ret].
Qed.

End positional_reads.

(** ** Both forms decode to what was encoded *)

Lemma framing_decode_reads (indeterminate : Z) k m bs : starts bs k →
  reads (if decide (k = KArray) then unpack_ipc_message_positional else unpack_ipc_message indeterminate) bs m →
  ∀ rest, framing_decode indeterminate (bs ++ rest) = inr m.
Proof.
  intros Hs Hr rest. unfold framing_decode. rewrite (bind_inr _ _ _ _ _ (peek_starts bs k rest Hs)). by rewrite Hr.
Qed.

Lemma map_form_starts m : starts (framing_encode m) KMap.
Proof. destruct m; by apply starts_app, (map_starts 2). Qed.
Lemma positional_form_starts m : starts (encode_positional m) KArray.
Proof. by apply starts_app, (array_starts 3). Qed.

Lemma map_form_decodes (indeterminate : Z) m rest : typed_message small m → framing_decode indeterminate (framing_encode m ++ rest) = inr m.
Proof. intros Hm. by apply (framing_decode_reads _ KMap), message_reads; [apply map_form_starts|]. Qed.

(** C23: Messages survive the private framing.  Whichever of its two forms a
    message is encoded in, the one decoder gives it back, whatever bytes follow
    the frame: a node without a key, an opaque state and an empty list
    included. *)
Theorem private_frames_roundtrip (indeterminate : Z) (m : IpcMessage) (rest : list Z) : typed_message small m →
  framing_decode indeterminate (framing_encode m ++ rest) = inr m ∧
  framing_decode indeterminate (encode_positional m ++ rest) = inr m.
Proof.
  intros Hm. split; [by apply map_form_decodes|].
  apply (framing_decode_reads _ KArray); [apply positional_form_starts|by apply message_reads_positional].
Qed.

Lemma private_frames_roundtrip_witness :
  let m := MessageSnapshot (mkSnapshot 3 [mkNode 7 (bytes_of "t") (StatePayload [1; 255]) None; mkNode (-1) [] StateOpaque None]
    [mkEdge 7 (-1)] [7]) in
  typed_message small m ∧ framing_decode 99 (framing_encode m ++ [1]) = inr m ∧ framing_decode 99 (encode_positional m ++ [1]) = inr m.
Proof.
  intros m. assert (Hm : typed_message small m) by (repeat first [split | constructor | done]).
  split; [exact Hm|]. exact (private_frames_roundtrip 99 m [1] Hm).
Defined.

(** *** The codec of the outbox *)

#[export] Instance typed_value_dec (v : IpcValue) : Decision (typed_value small v).
Proof. destruct v; unfold typed_value, typed_bytes, typed_blob, sized; apply _. Defined.
#[export] Instance typed_state_dec (s : NodeState) : Decision (typed_state small s).
Proof. destruct s; unfold typed_state, typed_bytes, typed_blob, sized; apply _. Defined.
#[export] Instance typed_key_dec (k : option NodeKey) : Decision (typed_key small k).
Proof. destruct k; unfold typed_key, typed_bytes, sized; apply _. Defined.
#[export] Instance typed_node_dec (n : NodeSnapshot) : Decision (typed_node small n).
Proof. unfold typed_node, typed_bytes, sized. apply _. Defined.
#[export] Instance typed_edge_dec (e : EdgeSnapshot) : Decision (typed_edge e).
Proof. unfold typed_edge. apply _. Defined.
#[export] Instance typed_op_dec (o : DeltaOp) : Decision (typed_op small o).
Proof. destruct o; unfold typed_op; apply _. Defined.
#[export] Instance typed_stamp_dec (s : WireStamp) : Decision (typed_stamp s).
Proof. unfold typed_stamp. apply _. Defined.
#[export] Instance typed_crdt_op_dec (o : CrdtOp) : Decision (typed_crdt_op small o).
Proof. unfold typed_crdt_op. apply _. Defined.
#[export] Instance typed_message_dec (m : IpcMessage) : Decision (typed_message small m).
Proof. destruct m; unfold typed_message, typed_list, sized; apply _. Defined.

(** The messages whose sizes the frames can tell. *)
Definition storable (m : IpcMessage) : Prop := typed_message small m ∧ Z.of_nat (length (framing_encode m)) < two64.
#[export] Instance storable_dec m : Decision (storable m) := ltac:(unfold storable; apply _).
Definition StorableMessage : Type := dsig storable.

(** An exception is [None]. *)
Definition stored_decode (data : list Z) : option StorableMessage :=
  match framing_decode 0 data with
  | inl _ => None
  | inr m => match decide (storable m) with left H => Some (dexist m H) | right _ => None end
  end.

Lemma stored_decode_encode (m : StorableMessage) : stored_decode (framing_encode (`m)) = Some m.
Proof.
  destruct (proj2_dsig m) as [Ht Hl] eqn:E. unfold stored_decode.
  pose proof (map_form_decodes 0 (`m) [] Ht) as Hd. rewrite app_nil_r in Hd. rewrite Hd.
  destruct (decide (storable (`m))) as [H|H]; [|by destruct H]. f_equal. by apply dsig_eq.
Qed.

(** The class of codecs holds of the one the outbox uses: what is proved of the
    outbox and of the driver over any codec holds over these frames. *)
#[export] Program Instance framing_codec : FrameCodec StorableMessage := {
  encode m := framing_encode (`m);
  decode := stored_decode
}.
Next Obligation. exact stored_decode_encode. Qed.
Next Obligation. intros m. destruct (proj2_dsig m) as [_ Hl]. split; [lia|exact Hl]. Qed.

(** ** What the readers let through *)

(** A discriminator is cut to 32 bits before it is compared: 2^32 is taken for
    the kind 0, which the comments call closed. *)
Lemma discriminators_wrap (bytes : list Z) : Z.of_nat (length bytes) < two32 →
  reads unpack_node_state (pack_map_header 2 ++ pack_key "kind" ++ pack_i64 4294967296 ++ pack_key "bytes" ++ pack_bin bytes) (StatePayload bytes).
Proof.
  intros Hn. unfold unpack_node_state. eapply reads_then; [apply (reads_map 2); [done|];
    with_field (i64_reads 4294967296 (kind_is_i64 4294967296 eq_refl)); last_field (bin_reads bytes Hn)|apply reads_ret].
Qed.

(** A node of a snapshot without its id gets whatever the memory held. *)
Lemma missing_node_is_indeterminate (indeterminate : Z) :
  unpack_snapshot indeterminate (pack_map_header 1 ++ pack_key "nodes" ++ pack_array_header 1 ++ pack_map_header 0) =
  inr (mkSnapshot 0 [mkNode indeterminate [] (StatePayload []) None] [] [], []).
Proof. reflexivity. Qed.
