(* ===== verification/DurableClient.v ===== *)
(** * DurableClient: projections delivered at least once, applied in order

    Models include/lazily/durable_client.hpp: envelopes and their validation,
    the deduplicator, the projection client that reorders the updates of an
    owner, and the client that puts them together.  The transport is a virtual
    interface: [durable_publish] gives the envelope it is called with.  The
    encoder and the decoder are functions of the user, the decoder may throw. *)
From S2P Require Import Prelude Bytes.
#[local] Open Scope Z_scope.

(** ** Envelopes *)

(* include/lazily/durable_client.hpp:16-16, DurableCapabilityTier *)
Inductive DurableCapabilityTier := TierCore | TierClient | TierDurableHost | TierDistributedHost | TierAcceleratedHost.

(* include/lazily/durable_client.hpp:26-31, DurableEnvelope (data members) *)
Record DurableEnvelope := mkEnvelope {
  protocol_version : Z; message_id : list Z; schema_version : Z; codec_version : Z; payload : list Z }.
(* include/lazily/durable_client.hpp:33-36, DurableEnvelope::same_content *)
Definition same_content (a b : DurableEnvelope) : bool :=
  (protocol_version a =? protocol_version b) && (schema_version a =? schema_version b) &&
  (codec_version a =? codec_version b) && bool_decide (payload a = payload b).

(* include/lazily/durable_client.hpp:39-45, EnvelopeValidation *)
Inductive EnvelopeValidation :=
  | Accepted | UnsupportedProtocolVersion | InvalidMessageId | InvalidSchemaVersion | InvalidCodecVersion.
(* include/lazily/durable_client.hpp:46-55, validate_durable_envelope *)
Definition validate_durable_envelope (e : DurableEnvelope) : EnvelopeValidation :=
  if negb (protocol_version e =? 1) then UnsupportedProtocolVersion
  else if bool_decide (message_id e = []) then InvalidMessageId
  else if (schema_version e =? 0) || (u32_max <? schema_version e) then InvalidSchemaVersion
  else if (codec_version e =? 0) || (u32_max <? codec_version e) then InvalidCodecVersion
  else Accepted.

(* include/lazily/durable_client.hpp:57-57, DeliveryClassification *)
Inductive DeliveryClassification := First | Duplicate | Conflict.
(* include/lazily/durable_client.hpp:71-71, DurableDeduplicator (data members) *)
Definition Seen : Type := gmap (list Z) DurableEnvelope.
(* include/lazily/durable_client.hpp:60-68, DurableDeduplicator::classify *)
Definition classify (e : DurableEnvelope) (seen : gmap (list Z) DurableEnvelope) :
    DeliveryClassification * gmap (list Z) DurableEnvelope :=
  match seen !! message_id e with
  | None => (First, <[message_id e := e]> seen)
  | Some prior => (if same_content prior e then Duplicate else Conflict, seen)
  end.

(** ** Projections *)

(* include/lazily/durable_client.hpp:100-100, ProjectionCapability *)
Inductive ProjectionCapability := CompleteHistory | LatestStateOnly.
#[export] Instance ProjectionCapability_eq_dec : EqDecision ProjectionCapability.
Proof. solve_decision. Defined.
(* include/lazily/durable_client.hpp:101-105, ProjectionFingerprint (data members) *)
Record ProjectionFingerprint := mkFingerprint {
  projection_id : list Z; source_position : Z; fingerprint : list Z; completeness : ProjectionCapability }.
(* include/lazily/durable_client.hpp:106-109, ProjectionFingerprint::equivalent_to *)
Definition equivalent_to (a b : ProjectionFingerprint) : bool :=
  bool_decide (projection_id a = projection_id b) && (source_position a =? source_position b) &&
  bool_decide (fingerprint a = fingerprint b) && bool_decide (completeness a = completeness b).
(* include/lazily/durable_client.hpp:118-118, ProjectionApplyStatus *)
Inductive ProjectionApplyStatus := Applied | Buffered | ApplyDuplicate | IdentityConflict | Invalid.

Definition emplace `{Countable K} {A} (k : K) (v : A) (m : gmap K A) : gmap K A :=
  match m !! k with Some _ => m | None => <[k := v]> m end.

Section client.
  Context {T : Type}.

(* include/lazily/durable_client.hpp:112-115, DurableProjectionUpdate (data members) *)
Record Update := mkUpdate { u_fingerprint : ProjectionFingerprint; projection_version : Z; value : T }.
Definition position (u : Update) : Z := source_position (u_fingerprint u).

(* include/lazily/durable_client.hpp:184-190, DurableProjectionClient::OwnerState *)
Record OwnerState := mkOwner {
  o_position : Z; o_version : Z; fingerprints : gmap Z (list Z); pending : gmap Z Update;
  o_applied : list Z; o_latest : option Update }.
Definition new_owner : OwnerState := mkOwner 0 0 ∅ ∅ [] None.

(** Taking in an update: the same five assignments on both paths. *)
(* include/lazily/durable_client.hpp:154-158, DurableProjectionClient::apply (accept) *)
Definition accept (u : Update) (s : OwnerState) : OwnerState :=
  mkOwner (position u) (projection_version u) (emplace (position u) (fingerprint (u_fingerprint u)) (fingerprints s)) (pending s)
    (o_applied s ++ [position u]) (Some u).

(** Each turn erases a pending update, so their number is enough. *)
(* include/lazily/durable_client.hpp:159-170, DurableProjectionClient::apply (loop) *)
Fixpoint drain (fuel : nat) (s : OwnerState) : OwnerState :=
  match fuel with
  | O => s
  | S fuel =>
      let next := (o_position s +64 1)%lazily in
      match pending s !! next with
      | None => s
      | Some u => drain fuel (accept u (mkOwner (o_position s) (o_version s) (fingerprints s) (delete next (pending s)) (o_applied s) (o_latest s)))
      end
  end.

Definition invalid_update (u : Update) : bool :=
  bool_decide (projection_id (u_fingerprint u) = []) || bool_decide (fingerprint (u_fingerprint u) = []) ||
  (projection_version u =? 0) || negb (bool_decide (completeness (u_fingerprint u) = CompleteHistory)).

Definition same_fingerprint (f : list Z) (u : Update) : ProjectionApplyStatus :=
  if decide (f = fingerprint (u_fingerprint u)) then ApplyDuplicate else IdentityConflict.

(* include/lazily/durable_client.hpp:136-171, DurableProjectionClient::apply (owner) *)
Definition apply_owner (u : Update) (s : OwnerState) : ProjectionApplyStatus * OwnerState :=
  match fingerprints s !! position u with
  | Some prior => (same_fingerprint prior u, s)
  | None =>
      match pending s !! position u with
      | Some buffered => (same_fingerprint (fingerprint (u_fingerprint buffered)) u, s)
      | None =>
          if (o_position s +64 1)%lazily <? position u then
            (Buffered, mkOwner (o_position s) (o_version s) (fingerprints s) (<[position u := u]> (pending s)) (o_applied s) (o_latest s))
          else if position u <=? o_position s then (IdentityConflict, s)
          else if projection_version u <=? o_version s then (Invalid, s)
          else let s := accept u s in (Applied, drain (size (pending s)) s)
      end
  end.

(* include/lazily/durable_client.hpp:192-192, DurableProjectionClient (data members) *)
Definition Owners : Type := gmap (list Z) OwnerState.

(** The owner is created on first sight. *)
(* include/lazily/durable_client.hpp:130-172, DurableProjectionClient::apply *)
Definition projection_apply (u : Update) (owners : gmap (list Z) OwnerState) : ProjectionApplyStatus * gmap (list Z) OwnerState :=
  if invalid_update u then (Invalid, owners) else
  let id := projection_id (u_fingerprint u) in
  let '(status, s) := apply_owner u (default new_owner (owners !! id)) in
  (status, <[id := s]> owners).

(* include/lazily/durable_client.hpp:173-176, DurableProjectionClient::latest *)
Definition latest (owner_id : list Z) (owners : gmap (list Z) OwnerState) : option Update :=
  match owners !! owner_id with None => None | Some s => o_latest s end.
(* include/lazily/durable_client.hpp:178-181, DurableProjectionClient::applied_positions *)
Definition applied_positions (id : list Z) (owners : gmap (list Z) OwnerState) : list Z :=
  match owners !! id with None => [] | Some s => o_applied s end.

(** ** The client *)

(* include/lazily/durable_client.hpp:235-237, DurableClient (data members) *)
Record DurableClient := mkClient {
  deduplicator : gmap (list Z) DurableEnvelope; message_ids : list (list Z); projection : gmap (list Z) OwnerState }.
Definition new_client : DurableClient := mkClient ∅ [] ∅.

(* include/lazily/durable_client.hpp:212-216, DurableClient::ObserveResult *)
Record ObserveResult := mkObserve {
  validation : EnvelopeValidation; classification : option DeliveryClassification; projected : option ProjectionApplyStatus }.

Context {Ingress : Type} (encoder : Ingress → list Z) (decoder : list Z → option Update).

(** The envelope handed to the transport; [None] is [std::invalid_argument]. *)
(* include/lazily/durable_client.hpp:203-211, DurableClient::publish *)
Definition durable_publish (id : list Z) (schema codec : Z) (v : Ingress) : option DurableEnvelope :=
  let envelope := mkEnvelope 1 id schema codec (encoder v) in
  match validate_durable_envelope envelope with Accepted => Some envelope | _ => None end.

(** [None] when the decoder throws; what was recorded before stays. *)
(* include/lazily/durable_client.hpp:217-225, DurableClient::observe *)
Definition observe (e : DurableEnvelope) (c : DurableClient) : option ObserveResult * DurableClient :=
  match validate_durable_envelope e with
  | Accepted =>
      let c := mkClient (deduplicator c) (message_ids c ++ [message_id e]) (projection c) in
      let '(cl, seen) := classify e (deduplicator c) in
      let c := mkClient seen (message_ids c) (projection c) in
      match cl with
      | First =>
          match decoder (payload e) with
          | None => (None, c)
          | Some u =>
              let '(status, owners) := projection_apply u (projection c) in
              (Some (mkObserve Accepted (Some First) (Some status)), mkClient seen (message_ids c) owners)
          end
      | cl => (Some (mkObserve Accepted (Some cl) None), c)
      end
  | v => (Some (mkObserve v None None), c)
  end.
End client.
Arguments Update : clear implicits.
Arguments OwnerState : clear implicits.
Arguments DurableClient : clear implicits.

Lemma lookup_emplace `{Countable K} {A} (k j : K) (v : A) (m : gmap K A) :
  m !! k = None → emplace k v m !! j = if decide (k = j) then Some v else m !! j.
Proof.
  unfold emplace. intros ->. destruct (decide (k = j)) as [->|Hne]; [by rewrite lookup_insert_eq|by rewrite lookup_insert_ne].
Qed.

(** ** A history delivered in any order

    The authority's history of an owner: one update per position, with
    increasing versions. *)
Section history.
Context {T : Type} (id : list Z) (H : Z → Update T).
Definition a_position (p : Z) : Prop := 1 ≤ p < u64_max.
Record history : Prop := mkHistory {
  history_position p : a_position p → position (H p) = p;
  history_owner p : a_position p → projection_id (u_fingerprint (H p)) = id;
  history_valid p : a_position p → invalid_update (H p) = false;
  history_versions p : a_position p → 1 ≤ projection_version (H p);
  history_increasing p q : a_position p → a_position q → p < q → projection_version (H p) < projection_version (H q) }.
Hypothesis (Hh : history).

(** [k] is the end of the prefix of the history that the set holds. *)
Definition is_front (S : gset Z) (k : Z) : Prop := 0 ≤ k ∧ (∀ p, 1 ≤ p ≤ k → p ∈ S) ∧ k + 1 ∉ S.

Fixpoint front_from (fuel : nat) (k : Z) (S : gset Z) : Z :=
  match fuel with O => k | Datatypes.S fuel => if decide (k + 1 ∈ S) then front_from fuel (k + 1) S else k end.
Definition front (S : gset Z) : Z := front_from (Datatypes.S (size S)) 0 S.

(** What the owner holds when the positions of [S] were delivered and the
    updates up to [k] applied. *)
Record holds (S : gset Z) (k : Z) (s : OwnerState T) : Prop := mkHolds {
  holds_prefix p : 1 ≤ p ≤ k → p ∈ S;
  holds_nonneg : 0 ≤ k;
  holds_position : o_position s = k;
  holds_version : o_version s = if k =? 0 then 0 else projection_version (H k);
  holds_fingerprints p : fingerprints s !! p = if decide (1 ≤ p ≤ k) then Some (fingerprint (u_fingerprint (H p))) else None;
  holds_pending p : pending s !! p = if decide (k < p ∧ p ∈ S) then Some (H p) else None;
  holds_applied : o_applied s = seqZ 1 k;
  holds_latest : o_latest s = if k =? 0 then None else Some (H k) }.

Lemma front_from_spec fuel : ∀ k S, 0 ≤ k → (∀ p, 1 ≤ p ≤ k → p ∈ S) → (size S < fuel + Z.to_nat k)%nat → is_front S (front_from fuel k S).
Proof.
  induction fuel as [|fuel IH]; intros k S Hk Hp Hs; cbn [front_from].
  - exfalso. assert (Hle : (length (seqZ 1 k) ≤ length (elements S))%nat).
    { apply submseteq_length, NoDup_submseteq; [apply NoDup_seqZ|]. intros p Hin%elem_of_seqZ. apply elem_of_elements, Hp. lia. }
    rewrite length_seqZ in Hle. unfold size, set_size in Hs. simpl in Hs. lia.
  - case_decide as Hin; [|by split_and!]. apply IH; [lia| |lia]. intros p Hpp. destruct (decide (p = k + 1)) as [->|]; [done|]. apply Hp. lia.
Qed.

Lemma front_spec S : is_front S (front S).
Proof. apply front_from_spec; [done|intros; lia|simpl; lia]. Qed.

Lemma is_front_unique S k j : is_front S k → is_front S j → k = j.
Proof.
  intros (Hk & Hpk & Hnk) (Hj & Hpj & Hnj). destruct (Z.lt_trichotomy k j) as [Hl|[?|Hl]]; [|done|]; exfalso.
  - apply Hnk, Hpj. lia.
  - apply Hnj, Hpk. lia.
Qed.

Lemma accept_holds S k s : holds S k s → k + 1 ∈ S → a_position (k + 1) →
  holds S (k + 1) (accept (H (k + 1))
    (mkOwner (o_position s) (o_version s) (fingerprints s) (delete (k + 1) (pending s)) (o_applied s) (o_latest s))).
Proof.
  intros [Hp Hk Hpos Hv Hf Hpe Ha Hl] Hin Ha1. pose proof (history_position Hh _ Ha1) as Hpk. unfold accept. rewrite Hpk.
  assert (Hnew : fingerprints s !! (k + 1) = None) by (rewrite Hf, decide_False by lia; done).
  constructor; cbn [o_position o_version fingerprints pending o_applied o_latest]; try done.
  - intros p Hpp. destruct (decide (p = k + 1)) as [->|]; [done|]. apply Hp. lia.
  - lia.
  - by rewrite (proj2 (Z.eqb_neq _ _)) by lia.
  - intros p. rewrite lookup_emplace by done. destruct (decide (k + 1 = p)) as [<-|Hne]; [by rewrite decide_True by lia|].
    rewrite Hf. apply decide_ext. lia.
  - intros p. destruct (decide (k + 1 = p)) as [<-|Hne]; [rewrite lookup_delete_eq, decide_False by lia; done|].
    rewrite lookup_delete_ne, Hpe by done. apply decide_ext. intuition lia.
  - rewrite Ha, seqZ_app by lia. f_equal. rewrite (seqZ_cons (1 + k)) by lia. f_equal. lia.
  - by rewrite (proj2 (Z.eqb_neq _ _)) by lia.
Qed.

Definition in_range (S : gset Z) : Prop := ∀ p, p ∈ S → a_position p.

(** The loop reaches the front, in as many turns as there are updates pending. *)
Lemma drain_holds fuel : ∀ S k s, in_range S → holds S k s → (size (pending s) ≤ fuel)%nat → holds S (front S) (drain fuel s).
Proof.
  assert (Hdone : ∀ S k s, k + 1 ∉ S → holds S k s → holds S (front S) s).
  { intros S k s Hn Hs. rewrite <- (is_front_unique S k (front S)); [done| |apply front_spec].
    split_and!; [apply (holds_nonneg _ _ _ Hs)|apply (holds_prefix _ _ _ Hs)|done]. }
  assert (Hnext : ∀ S k s, in_range S → holds S k s → (o_position s +64 1)%lazily ∈ S → (o_position s +64 1)%lazily = k + 1).
  { intros S k s HS Hs Hin. rewrite (holds_position _ _ _ Hs) in *. unfold u64 in *. pose proof (holds_nonneg _ _ _ Hs).
    destruct (decide (k + 1 < two64)); [by apply Z.mod_small; lia|]. exfalso.
    destruct (decide (k = 0)); [unfold two64 in *; lia|].
    pose proof (HS k (holds_prefix _ _ _ Hs k ltac:(lia))) as [_ Hlt]. unfold u64_max, two64 in *. lia. }
  induction fuel as [|fuel IH]; intros S k s HS Hs Hf; cbn [drain].
  - apply (Hdone S k); [|done]. intros Hin.
    assert (Hl : pending s !! (k + 1) = Some (H (k + 1))) by (rewrite (holds_pending _ _ _ Hs), decide_True by (split; [lia|done]); done).
    assert (pending s = ∅) as E by (apply map_size_empty_iff; lia). by rewrite E in Hl.
  - destruct (decide (k + 1 ∈ S)) as [Hin|Hn].
    + assert (Hk1 : (o_position s +64 1)%lazily = k + 1).
      { rewrite (holds_position _ _ _ Hs). apply u64_small. pose proof (HS _ Hin) as [? ?]. unfold is_u64, u64_max, two64 in *. lia. }
      assert (Hl : pending s !! (k + 1) = Some (H (k + 1))) by (rewrite (holds_pending _ _ _ Hs), decide_True by (split; [lia|done]); done).
      rewrite Hk1, Hl. apply (IH S (k + 1)); [done|by apply accept_holds; [| |apply HS]|].
      cbn [pending accept]. rewrite map_size_delete_Some by (by eexists). lia.
    + destruct (pending s !! _) as [u|] eqn:El; [|by apply (Hdone S k)]. exfalso.
      rewrite (holds_pending _ _ _ Hs) in El. destruct (decide _) as [[Hlt Hin]|]; [|done].
      rewrite (Hnext S k s HS Hs Hin) in Hin. done.
Qed.

(** What delivering position [p] answers when those of [S] were. *)
Definition delivery_status (S : gset Z) (p : Z) : ProjectionApplyStatus :=
  if decide (p ∈ S) then ApplyDuplicate else if front S + 1 <? p then Buffered else Applied.

Lemma apply_owner_holds S s p : in_range S → a_position p → holds S (front S) s →
  (apply_owner (H p) s).1 = delivery_status S p ∧ holds ({[p]} ∪ S) (front ({[p]} ∪ S)) (apply_owner (H p) s).2.
Proof.
  intros HS Hp Hs. pose proof (history_position Hh _ Hp) as Hpos. unfold apply_owner. rewrite Hpos.
  set (k := front S) in *. pose proof (holds_nonneg _ _ _ Hs) as Hk. destruct (front_spec S) as (_ & _ & Hnk). fold k in Hnk.
  assert (Hknew : (o_position s +64 1)%lazily = k + 1).
  { rewrite (holds_position _ _ _ Hs). apply u64_small. destruct (decide (k = 0)) as [->|]; [by unfold is_u64, two64|].
    pose proof (HS k (holds_prefix _ _ _ Hs k ltac:(lia))) as [_ Hlt]. unfold is_u64, two64, u64_max in *. lia. }
  destruct (decide (p ∈ S)) as [Hin|Hnin].
  { assert (E : {[p]} ∪ S = S) by set_solver. rewrite E. unfold delivery_status. rewrite decide_True by done.
    rewrite (holds_fingerprints _ _ _ Hs). destruct (decide (1 ≤ p ≤ k)) as [Hpk|Hpk].
    - split; [|done]. simpl. unfold same_fingerprint. by rewrite decide_True.
    - rewrite (holds_pending _ _ _ Hs), decide_True by (destruct Hp; split; [lia|done]).
      split; [|done]. simpl. unfold same_fingerprint. by rewrite decide_True. }
  assert (Hpk : ¬ (1 ≤ p ≤ k)) by (intros Hpk; by apply Hnin, (holds_prefix _ _ _ Hs)).
  rewrite (holds_fingerprints _ _ _ Hs), decide_False by done. rewrite (holds_pending _ _ _ Hs), decide_False by naive_solver.
  unfold delivery_status. rewrite decide_False by done. fold k. rewrite Hknew. destruct Hp as [Hp1 Hp2].
  destruct (Z.ltb_spec (k + 1) p) as [Hlt|Hge].
  - split; [done|]. rewrite (is_front_unique ({[p]} ∪ S) (front ({[p]} ∪ S)) k); [| apply front_spec |].
    2: { split_and!; [done| |set_solver by lia]. intros q Hq. apply elem_of_union_r. by apply (holds_prefix _ _ _ Hs). }
    destruct Hs as [Hpre _ Hpo Hv Hf Hpe Ha Hl]. constructor; cbn [snd o_position o_version fingerprints pending o_applied o_latest]; try done.
    + intros q Hq. apply elem_of_union_r. by apply Hpre.
    + intros q. destruct (decide (p = q)) as [<-|Hne]; [rewrite lookup_insert_eq, decide_True by (split; [lia|set_solver]); done|].
      rewrite lookup_insert_ne, Hpe by done. apply decide_ext. set_solver.
  - assert (p = k + 1) as -> by lia. rewrite (holds_position _ _ _ Hs). destruct (Z.leb_spec (k + 1) k); [lia|].
    rewrite (holds_version _ _ _ Hs).
    assert (Hver : projection_version (H (k + 1)) <=? (if k =? 0 then 0 else projection_version (H k)) = false).
    { apply Z.leb_gt. destruct (Z.eqb_spec k 0) as [->|].
      - pose proof (history_versions Hh (0 + 1) (conj Hp1 Hp2)). lia.
      - apply (history_increasing Hh); [split; unfold u64_max in *; lia|done|lia]. }
    rewrite Hver. split; [done|]. cbn [snd].
    assert (Hs' : holds ({[k + 1]} ∪ S) k (mkOwner (o_position s) (o_version s) (fingerprints s) (<[k + 1 := H (k + 1)]> (pending s)) (o_applied s) (o_latest s))).
    { destruct Hs as [Hpre _ Hpo Hv Hf Hpe Ha Hl]. constructor; cbn [o_position o_version fingerprints pending o_applied o_latest]; try done.
      - intros q Hq. apply elem_of_union_r. by apply Hpre.
      - intros q. destruct (decide (k + 1 = q)) as [<-|Hne]; [rewrite lookup_insert_eq, decide_True by (split; [lia|set_solver]); done|].
        rewrite lookup_insert_ne, Hpe by done. apply decide_ext. set_solver. }
    assert (HS' : in_range ({[k + 1]} ∪ S)) by (intros q [->%elem_of_singleton|Hq]%elem_of_union; [done|by apply HS]).
    apply (drain_holds _ _ (k + 1)); [done| |done]. apply accept_holds in Hs'; [|set_solver|done].
    cbn [o_position o_version fingerprints pending o_applied o_latest] in Hs'.
    rewrite delete_insert_id in Hs'; [by destruct s|]. rewrite (holds_pending _ _ _ Hs), decide_False by naive_solver. done.
Qed.
End history.

(** ** The client under redelivery *)
Section delivery.
  Context {T : Type} (H : list Z → Z → Update T) (decoder : list Z → option (Update T)).

(** Which update of which owner an envelope carries. *)
Definition carries (e : DurableEnvelope) (id : list Z) (p : Z) : Prop :=
  id ≠ [] ∧ a_position p ∧ decoder (payload e) = Some (H id p).
(** Envelopes as hosts that keep their promises send them: valid, carrying an
    update of some owner's history, and two with one id have one content. *)
Record honest (es : list DurableEnvelope) : Prop := mkHonest {
  honest_valid e : e ∈ es → validate_durable_envelope e = Accepted;
  honest_carries e : e ∈ es → ∃ id p, carries e id p;
  honest_ids e e' : e ∈ es → e' ∈ es → message_id e = message_id e' → same_content e e' = true }.

Definition about (id : list Z) (e : DurableEnvelope) : option Z :=
  match decoder (payload e) with
  | Some u => if decide (projection_id (u_fingerprint u) = id) then Some (position u) else None
  | None => None
  end.
(** The positions of an owner that some envelope carried. *)
Definition delivered (id : list Z) (es : list DurableEnvelope) : gset Z := list_to_set (omap (about id) es).

Definition observe_all (es : list DurableEnvelope) : DurableClient T := foldl (λ c e, (observe decoder e c).2) new_client es.

(** What the next observation answers. *)
Definition expected (es : list DurableEnvelope) (e : DurableEnvelope) (id : list Z) (p : Z) : ObserveResult :=
  if decide (message_id e ∈ message_id <$> es) then mkObserve Accepted (Some Duplicate) None
  else mkObserve Accepted (Some First) (Some (delivery_status (delivered id es) p)).

Hypothesis (Hh : ∀ id, id ≠ [] → history id (H id)).

Lemma honest_app es es' : honest (es ++ es') → honest es.
Proof. intros [Hv Hc Hi]. constructor; [| |]; intros e; [intros; apply Hv|intros; apply Hc|intros e' ? ?; apply Hi]; set_solver. Qed.

Lemma delivered_snoc id es e : delivered id (es ++ [e]) = delivered id es ∪ list_to_set (omap (about id) [e]).
Proof. unfold delivered. by rewrite omap_app, list_to_set_app_L. Qed.

Lemma carries_about e id p id' : carries e id p → about id' e = if decide (id = id') then Some p else None.
Proof.
  intros (Hid & Hp & Hd). unfold about. rewrite Hd. rewrite (history_owner _ _ (Hh id Hid) p Hp), (history_position _ _ (Hh id Hid) p Hp). done.
Qed.

Lemma delivered_range id es : honest es → in_range (delivered id es).
Proof.
  intros Hes p Hin. apply elem_of_list_to_set, list_elem_of_omap in Hin as (e & He & Ha).
  destruct (honest_carries _ Hes e He) as (id' & p' & Hc). rewrite (carries_about _ _ _ id Hc) in Ha. case_decide; [|done].
  injection Ha as <-. by destruct Hc as (_ & ? & _).
Qed.

Lemma same_content_payload a b : same_content a b = true → payload a = payload b.
Proof. unfold same_content. rewrite !andb_true_iff, bool_decide_eq_true. by intros [_ ?]. Qed.

Record client_holds (es : list DurableEnvelope) (c : DurableClient T) : Prop := mkClientHolds {
  ch_new mid : deduplicator c !! mid = None → mid ∉ message_id <$> es;
  ch_seen mid e : deduplicator c !! mid = Some e → e ∈ es ∧ message_id e = mid;
  ch_order : message_ids c = message_id <$> es;
  ch_owners id : id ≠ [] → holds (H id) (delivered id es) (front (delivered id es)) (default new_owner (projection c !! id)) }.

Lemma holds_none id : holds (H id) ∅ 0 new_owner.
Proof. constructor; try done; try set_solver by lia. all: intros p; cbn [new_owner fingerprints pending]; rewrite lookup_empty, decide_False by set_solver by lia; done. Qed.

Lemma new_client_holds : client_holds [] new_client.
Proof.
  constructor; try done. { intros mid _. set_solver. } intros id _. unfold delivered. simpl.
  rewrite (is_front_unique ∅ (front ∅) 0); [apply holds_none|apply front_spec|]. split_and!; [done|lia|set_solver].
Qed.

Lemma observe_holds es e c id p : client_holds es c → honest (es ++ [e]) → carries e id p →
  (observe decoder e c).1 = Some (expected es e id p) ∧ client_holds (es ++ [e]) (observe decoder e c).2.
Proof.
  intros [Hnew Hseen Hord How] Hes Hc. pose proof (honest_valid _ Hes e ltac:(set_solver)) as Hv. unfold observe. rewrite Hv.
  destruct Hc as (Hid & Hp & Hd) eqn:E. pose proof (carries_about _ _ _ : ∀ id', carries e id p → _) as Hab0.
  assert (Hab : ∀ id', about id' e = if decide (id = id') then Some p else None) by (intros id'; by apply carries_about). clear Hab0.
  unfold classify, expected. cbn [deduplicator message_ids projection]. destruct (deduplicator c !! message_id e) as [prior|] eqn:Ed.
  - destruct (Hseen _ _ Ed) as [Hpe Hpi]. pose proof (honest_ids _ Hes prior e ltac:(set_solver) ltac:(set_solver) Hpi) as Hsame. rewrite Hsame.
    rewrite decide_True by (rewrite <- Hpi; by apply list_elem_of_fmap_2). split; [done|].
    assert (Hdel : ∀ id', delivered id' (es ++ [e]) = delivered id' es).
    { intros id'. rewrite delivered_snoc. cbn [omap list_omap]. destruct (about id' e) as [q|] eqn:Ea; [|set_solver].
      assert (q ∈ delivered id' es); [|set_solver]. apply elem_of_list_to_set, list_elem_of_omap. exists prior. split; [done|].
      unfold about in *. by rewrite (same_content_payload _ _ Hsame). }
    constructor; cbn [fst snd deduplicator message_ids projection].
    + intros mid Hm. rewrite fmap_app, elem_of_app. intros [Hin|Hin]; [by apply (Hnew mid)|]. apply list_elem_of_singleton in Hin. cbn in Hin. subst mid. by rewrite Ed in Hm.
    + intros mid e' Hm. destruct (Hseen _ _ Hm). set_solver.
    + by rewrite fmap_app, Hord.
    + intros id' Hid'. rewrite Hdel. by apply How.
  - rewrite decide_False by (by apply Hnew). rewrite Hd. unfold projection_apply.
    rewrite (history_valid _ _ (Hh id Hid) p Hp), (history_owner _ _ (Hh id Hid) p Hp).
    assert (Hr : in_range (delivered id es)) by (by apply delivered_range, (honest_app _ [e])).
    destruct (apply_owner_holds id (H id) (Hh id Hid) _ _ _ Hr Hp (How id Hid)) as [Hst Hs].
    destruct (apply_owner (H id p) _) as [status s] eqn:Ea. simpl in Hst, Hs. subst status. split; [done|]. cbn [snd].
    constructor; cbn [fst snd deduplicator message_ids projection].
    + intros mid. rewrite lookup_insert_None. intros [Hm Hne]. rewrite fmap_app, elem_of_app. intros [Hin|Hin]; [by apply (Hnew mid)|].
      by apply list_elem_of_singleton in Hin as ->.
    + intros mid e' [[<- <-]|[_ Hm]]%lookup_insert_Some; [set_solver|]. destruct (Hseen _ _ Hm). set_solver.
    + by rewrite fmap_app, Hord.
    + intros id' Hid'. rewrite delivered_snoc. cbn [omap list_omap]. rewrite Hab. destruct (decide (id = id')) as [<-|Hne].
      * rewrite lookup_insert_eq. cbn [default]. replace (delivered id es ∪ list_to_set [p]) with ({[p]} ∪ delivered id es) by set_solver. done.
      * rewrite lookup_insert_ne by done. replace (delivered id' es ∪ list_to_set []) with (delivered id' es) by set_solver. by apply How.
Qed.

Lemma observe_all_holds es : honest es → client_holds es (observe_all es).
Proof.
  induction es as [|e es IH] using rev_ind; intros Hes; [apply new_client_holds|]. unfold observe_all. rewrite foldl_snoc.
  destruct (honest_carries _ Hes e ltac:(set_solver)) as (id & p & Hc). apply (observe_holds es e _ id p); [|done..]. by apply IH, (honest_app _ [e]).
Qed.
End delivery.

(** C14: Redelivery and reordering are invisible.  From hosts that send one content
    per message id and one history per owner, in any order and any number of
    times, the client answers each envelope as a reference that keeps only the
    set of delivered positions: a message id seen before is a duplicate, a
    position past a gap is buffered, the next one applies; and what it then
    holds of an owner is exactly the longest prefix of its history that has
    arrived, applied once each in order. *)
Theorem client_applies_history_in_order {T : Type} (H : list Z → Z → Update T) (decoder : list Z → option (Update T))
    (es : list DurableEnvelope) (id : list Z) :
  (∀ id, id ≠ [] → history id (H id)) → honest H decoder es → id ≠ [] →
  let c := observe_all decoder es in let k := front (delivered decoder id es) in
  applied_positions id (projection c) = seqZ 1 k ∧
  latest id (projection c) = (if k =? 0 then None else Some (H id k)) ∧
  message_ids c = message_id <$> es ∧
  ∀ e p, honest H decoder (es ++ [e]) → carries H decoder e id p → (observe decoder e c).1 = Some (expected decoder es e id p).
Proof.
  intros Hh Hes Hid c k. pose proof (observe_all_holds H decoder Hh es Hes) as Hc. pose proof (ch_owners _ _ _ _ Hc id Hid) as Hs.
  fold c k in Hs. fold c in Hc. split_and!.
  - pose proof (holds_applied _ _ _ _ Hs) as Ha. unfold applied_positions. by destruct (projection c !! id).
  - pose proof (holds_latest _ _ _ _ Hs) as Hl. unfold latest. by destruct (projection c !! id).
  - apply (ch_order _ _ _ _ Hc).
  - intros e p He Hcar. by apply (observe_holds H decoder Hh).
Qed.

(** Two owners, the second position of one before the first, and a redelivery. *)
Module Sample.
Definition H (id : list Z) (p : Z) : Update () := mkUpdate (mkFingerprint id p [p] CompleteHistory) p ().
Definition decoder (bs : list Z) : option (Update ()) := match bs with p :: id => Some (H id p) | [] => None end.
Definition envelope (mid : Z) (bs : list Z) : DurableEnvelope := mkEnvelope 1 [mid] 1 1 bs.
Definition deliveries : list DurableEnvelope := [envelope 1 [2; 7]; envelope 2 [1; 7]; envelope 1 [2; 7]; envelope 3 [1; 8]].

Lemma sample_history id : id ≠ [] → history id (H id).
Proof.
  intros Hid. constructor; try done.
  - intros p [Hp _]. unfold invalid_update. simpl. rewrite bool_decide_eq_false_2 by done. destruct (Z.eqb_spec p 0); [lia|done].
  - by intros p [Hp _].
Qed.

Lemma sample_honest : honest H decoder deliveries.
Proof.
  unfold deliveries. constructor.
  - intros e. rewrite !elem_of_cons, elem_of_nil. by intros [->|[->|[->|[->|[]]]]].
  - intros e. rewrite !elem_of_cons, elem_of_nil.
    intros [->|[->|[->|[->|[]]]]]; [exists [7], 2|exists [7], 1|exists [7], 2|exists [8], 1]; by repeat split.
  - intros e e'. rewrite !elem_of_cons, !elem_of_nil. intros [->|[->|[->|[->|[]]]]] [->|[->|[->|[->|[]]]]]; done.
Qed.

Lemma client_applies_history_in_order_witness :
  let c := observe_all decoder deliveries in let k := front (delivered decoder [7] deliveries) in
  k = 2 ∧ applied_positions [7] (projection c) = seqZ 1 k ∧
  latest [7] (projection c) = (if k =? 0 then None else Some (H [7] k)) ∧
  message_ids c = message_id <$> deliveries ∧
  ∀ e p, honest H decoder (deliveries ++ [e]) → carries H decoder e [7] p → (observe decoder e c).1 = Some (expected decoder deliveries e [7] p).
Proof.
  split; [vm_compute; reflexivity|].
  exact (client_applies_history_in_order H decoder deliveries [7] sample_history sample_honest ltac:(discriminate)).
Defined.
End Sample.

(** ** What is refused, and what is not *)

(** A position with another fingerprint is a conflict, and changes nothing. *)
Lemma conflict_changes_nothing {T : Type} (u : Update T) (s : OwnerState T) f :
  fingerprints s !! position u = Some f → f ≠ fingerprint (u_fingerprint u) → apply_owner u s = (IdentityConflict, s).
Proof. unfold apply_owner, same_fingerprint. intros -> Hf. by rewrite decide_False. Qed.

(** A version that does not increase is refused on the direct path only: out of
    order the same two updates both apply, and the older version is the latest. *)
Lemma buffered_version_is_not_checked :
  let u p v : Update () := mkUpdate (mkFingerprint [1] p [p] CompleteHistory) v () in
  let run us := foldl (λ '(sts, o) x, let '(st, o) := projection_apply x o in (sts ++ [st], o)) ([], ∅) us in
  (run [u 1 5; u 2 3]).1 = [Applied; Invalid] ∧ latest [1] (run [u 1 5; u 2 3]).2 = Some (u 1 5) ∧
  (run [u 2 3; u 1 5]).1 = [Buffered; Applied] ∧ latest [1] (run [u 2 3; u 1 5]).2 = Some (u 2 3).
Proof. by vm_compute. Qed.

(** A message whose decoding throws is recorded as seen: its redelivery is a
    duplicate that nothing decodes. *)
Lemma failed_decoding_is_never_retried {T : Type} (decoder : list Z → option (Update T)) (e : DurableEnvelope) (c : DurableClient T) :
  validate_durable_envelope e = Accepted → deduplicator c !! message_id e = None → decoder (payload e) = None →
  ∀ decoder', (observe decoder e c).1 = None ∧
    (observe decoder' e (observe decoder e c).2).1 = Some (mkObserve Accepted (Some Duplicate) None).
Proof.
  intros Hv Hd He decoder'. unfold observe at 1 3. rewrite Hv. unfold classify at 1 2. cbn [deduplicator]. rewrite Hd, He. split; [done|].
  unfold observe. rewrite Hv. unfold classify. cbn [snd deduplicator]. rewrite lookup_insert_eq.
  assert (same_content e e = true) as ->; [|done]. unfold same_content. by rewrite !Z.eqb_refl, bool_decide_eq_true_2.
Qed.
