(* ===== verification/Receipt.v ===== *)
(** * Receipt: causal receipts and the projection mirror

    Models include/lazily/receipt.hpp: the projection that keeps the receipts of
    commands, one terminal outcome per causation; and the mirror that turns
    dirty and resolved nodes into deltas. *)
From Stdlib Require Import String.
From S2P Require Import Prelude Bytes Ipc.
#[local] Open Scope Z_scope.

(** ** Receipts *)

(* include/lazily/receipt.hpp:19-19, ReceiptOutcome *)
Inductive ReceiptOutcome := Observed | Accepted | Applied | Rejected.
#[export] Instance ReceiptOutcome_eq_dec : EqDecision ReceiptOutcome.
Proof. solve_decision. Defined.
(* include/lazily/receipt.hpp:21-23, is_terminal *)
Definition is_terminal (o : ReceiptOutcome) : bool := bool_decide (o = Applied) || bool_decide (o = Rejected).

(* include/lazily/receipt.hpp:25-33, CausalReceipt *)
Record CausalReceipt := mkReceipt {
  receipt_id : list Z; causation_id : list Z; observer : list Z; r_generation : Z; outcome : ReceiptOutcome;
  r_reason : option (list Z); payload_hash : option (list Z) }.
(* include/lazily/receipt.hpp:35-44, observed_receipt *)
Definition observed_receipt (id cause obs : list Z) (g : Z) : CausalReceipt := mkReceipt id cause obs g Observed None None.
(* include/lazily/receipt.hpp:46-55, accepted_receipt *)
Definition accepted_receipt (id cause obs : list Z) (g : Z) : CausalReceipt := mkReceipt id cause obs g Accepted None None.
(* include/lazily/receipt.hpp:57-66, applied_receipt *)
Definition applied_receipt (id cause obs : list Z) (g : Z) : CausalReceipt := mkReceipt id cause obs g Applied None None.
(* include/lazily/receipt.hpp:68-77, rejected_receipt *)
Definition rejected_receipt (id cause obs : list Z) (g : Z) : CausalReceipt := mkReceipt id cause obs g Rejected None None.

(* include/lazily/receipt.hpp:79-92, ReceiptApplyStatus *)
Inductive ReceiptApplyStatus :=
  | ReceiptRecorded | ReceiptDuplicate | ReceiptStaleGeneration (expected actual : Z)
  | ReceiptTerminalConflict (causation_id : list Z) (existing incoming : ReceiptOutcome).

(* include/lazily/receipt.hpp:154-158, ReceiptProjection (data members) *)
Record ReceiptProjection := mkReceipts {
  receipts_by_id : gmap (list Z) CausalReceipt; latest_by_causation : gmap (list Z) CausalReceipt;
  terminal_by_causation : gmap (list Z) ReceiptOutcome; stale_ids : gset (list Z); current_generation : Z }.
Definition new_receipts : ReceiptProjection := mkReceipts ∅ ∅ ∅ ∅ 0.

(* include/lazily/receipt.hpp:99-129, ReceiptProjection::observe *)
Definition receipt_observe (current_gen : option Z) (r : CausalReceipt) (p : ReceiptProjection) : ReceiptApplyStatus * ReceiptProjection :=
  if bool_decide (is_Some (receipts_by_id p !! receipt_id r)) || bool_decide (receipt_id r ∈ stale_ids p) then (ReceiptDuplicate, p) else
  let stale := match current_gen with Some g => if r_generation r =? g then None else Some g | None => None end in
  match stale with
  | Some g =>
      (ReceiptStaleGeneration g (r_generation r),
       mkReceipts (receipts_by_id p) (latest_by_causation p) (terminal_by_causation p) ({[ receipt_id r ]} ∪ stale_ids p)
         (Z.max (current_generation p) (r_generation r)))
  | None =>
      let conflict := if is_terminal (outcome r) then
          match terminal_by_causation p !! causation_id r with
          | Some o => if decide (o = outcome r) then None else Some o
          | None => None
          end
        else None in
      match conflict with
      | Some o => (ReceiptTerminalConflict (causation_id r) o (outcome r), p)
      | None =>
          (ReceiptRecorded,
           mkReceipts (<[receipt_id r := r]> (receipts_by_id p)) (<[causation_id r := r]> (latest_by_causation p))
             (if is_terminal (outcome r) then
                match terminal_by_causation p !! causation_id r with
                | Some _ => terminal_by_causation p
                | None => <[causation_id r := outcome r]> (terminal_by_causation p)
                end
              else terminal_by_causation p)
             (stale_ids p)
             (match current_gen with Some _ => Z.max (current_generation p) (r_generation r) | None => current_generation p end))
      end
  end.

(* include/lazily/receipt.hpp:131-135, ReceiptProjection::latest_for *)
Definition latest_for (cause : list Z) (p : ReceiptProjection) : option CausalReceipt := latest_by_causation p !! cause.
(* include/lazily/receipt.hpp:137-143, ReceiptProjection::terminal_for *)
Definition receipt_terminal_for (cause : list Z) (p : ReceiptProjection) : option CausalReceipt :=
  match terminal_by_causation p !! cause with None => None | Some _ => latest_by_causation p !! cause end.
(* include/lazily/receipt.hpp:145-147, ReceiptProjection::contains_receipt *)
Definition contains_receipt (id : list Z) (p : ReceiptProjection) : bool := bool_decide (is_Some (receipts_by_id p !! id)).
(* include/lazily/receipt.hpp:97-97, ReceiptProjection::receipt_count *)
Definition receipt_count (p : ReceiptProjection) : nat := size (receipts_by_id p).

(** *** One terminal outcome, once *)

(** The recorded receipts, in order. *)
Definition run_receipts (rs : list (option Z * CausalReceipt)) : list ReceiptApplyStatus * ReceiptProjection :=
  foldl (λ '(sts, p) '(g, r), let '(st, p) := receipt_observe g r p in (sts ++ [st], p)) ([], new_receipts) rs.

(** A terminal outcome, once there, never changes, and a receipt that was
    recorded is recorded for good and is a duplicate from then on. *)
Lemma receipts_are_final (g : option Z) (r : CausalReceipt) (p : ReceiptProjection) :
  let '(st, p') := receipt_observe g r p in
  terminal_by_causation p ⊆ terminal_by_causation p' ∧ receipts_by_id p ⊆ receipts_by_id p' ∧
  (st = ReceiptRecorded → receipts_by_id p' !! receipt_id r = Some r ∧ ∀ g', receipt_observe g' r p' = (ReceiptDuplicate, p')) ∧
  (st ≠ ReceiptRecorded → receipts_by_id p' = receipts_by_id p ∧ latest_by_causation p' = latest_by_causation p ∧
     terminal_by_causation p' = terminal_by_causation p).
Proof.
  unfold receipt_observe. destruct (bool_decide (is_Some _) || _) eqn:Ed; [by split_and!|].
  apply orb_false_iff in Ed as [Ei _]. apply bool_decide_eq_false in Ei.
  assert (Hn : receipts_by_id p !! receipt_id r = None) by (by apply eq_None_not_Some).
  destruct (match g with Some _ => _ | None => _ end) as [g'|]; [by split_and!|].
  destruct (if is_terminal _ then _ else _) as [o|]; [by split_and!|]. cbn [terminal_by_causation receipts_by_id latest_by_causation].
  split_and!; [|by apply insert_subseteq| |done].
  - destruct (is_terminal _); [|done]. destruct (terminal_by_causation p !! _) eqn:Et; [done|]. by apply insert_subseteq.
  - intros _. rewrite lookup_insert_eq. split; [done|]. intros g'. by rewrite bool_decide_eq_true_2.
Qed.

(** [terminal_for] gives the latest receipt of a causation that has a terminal
    outcome, which need not be the terminal one. *)
Lemma terminal_for_is_not_terminal :
  let applied := applied_receipt [1] [7] [9] 0 in let late := observed_receipt [2] [7] [9] 0 in
  receipt_terminal_for [7] (run_receipts [(None, applied); (None, late)]).2 = Some late ∧ is_terminal (outcome late) = false.
Proof. by vm_compute. Qed.

(** ** The mirror *)

(* include/lazily/receipt.hpp:213-215, StateProjectionMirror (data members) *)
Record StateProjectionMirror := mkMirror { dirty : gset Z; values : gmap Z IpcValue; m_base_epoch : Z }.
Definition new_mirror : StateProjectionMirror := mkMirror ∅ ∅ 0.

(* include/lazily/receipt.hpp:165-165, StateProjectionMirror::mark_dirty *)
Definition mark_dirty (node : Z) (m : StateProjectionMirror) : StateProjectionMirror :=
  mkMirror ({[ node ]} ∪ dirty m) (values m) (m_base_epoch m).
(* include/lazily/receipt.hpp:167-170, StateProjectionMirror::resolve *)
Definition resolve (node : Z) (v : IpcValue) (m : StateProjectionMirror) : StateProjectionMirror :=
  mkMirror (dirty m ∖ {[ node ]}) (<[node := v]> (values m)) (m_base_epoch m).
(* include/lazily/receipt.hpp:172-172, StateProjectionMirror::is_dirty *)
Definition is_dirty (node : Z) (m : StateProjectionMirror) : bool := bool_decide (node ∈ dirty m).
(* include/lazily/receipt.hpp:174-178, StateProjectionMirror::dirty_nodes *)
Definition dirty_nodes (m : StateProjectionMirror) : list Z := merge_sort Z.le (elements (dirty m)).

Definition resolved_nodes (m : StateProjectionMirror) : list Z :=
  merge_sort Z.le (filter (λ n, n ∉ dirty m) (map_to_list (values m)).*1).
(* include/lazily/receipt.hpp:182-201, StateProjectionMirror::flush *)
Definition flush (m : StateProjectionMirror) : Delta * StateProjectionMirror :=
  let ops := (Invalidate <$> dirty_nodes m) ++ ((λ n, SlotValue n (default (ValueInline []) (values m !! n))) <$> resolved_nodes m) in
  let delta := delta_next (m_base_epoch m) ops in
  (delta, mkMirror ∅ ∅ (d_epoch delta)).

(* include/lazily/receipt.hpp:203-210, StateProjectionMirror::document_hash *)
Definition document_hash (path : list Z) : Z := fnv1a path.

(** *** A flush tells the last thing said of each node *)

Inductive MirrorEvent := Marked (node : Z) | Resolved (node : Z) (v : IpcValue).
Definition about_node (e : MirrorEvent) : Z := match e with Marked n | Resolved n _ => n end.
Definition mirror_step (m : StateProjectionMirror) (e : MirrorEvent) : StateProjectionMirror :=
  match e with Marked n => mark_dirty n m | Resolved n v => resolve n v m end.
Definition told (e : MirrorEvent) : DeltaOp := match e with Marked n => Invalidate n | Resolved n v => SlotValue n v end.
Definition last_of (n : Z) (es : list MirrorEvent) : option MirrorEvent := last (filter (λ e, about_node e = n) es).

Lemma last_of_snoc n es e : last_of n (es ++ [e]) = if decide (about_node e = n) then Some e else last_of n es.
Proof.
  unfold last_of. rewrite filter_app. cbn. destruct (decide (about_node e = n)); [by rewrite last_snoc|by rewrite app_nil_r].
Qed.

Lemma mirror_holds es m : (∀ n, n ∉ dirty m) → values m = ∅ →
  let m' := foldl mirror_step m es in
  m_base_epoch m' = m_base_epoch m ∧
  (∀ n, n ∈ dirty m' ↔ last_of n es = Some (Marked n)) ∧
  (∀ n v, n ∉ dirty m' ∧ values m' !! n = Some v ↔ last_of n es = Some (Resolved n v)).
Proof.
  intros Hd Hv. induction es as [|e es (Hb & IHd & IHv)] using rev_ind.
  { simpl. rewrite Hv. split_and!; [done|intros n; by split; [intros ?%Hd|]|intros n v; rewrite lookup_empty; by split; [intros [_ ?]|]]. }
  cbn zeta. rewrite foldl_snoc. split_and!; [by destruct e| |].
  - intros n. rewrite last_of_snoc. destruct e as [k|k v]; simpl.
    + destruct (decide (k = n)) as [->|Hne]; [split; [done|set_solver]|]. rewrite <- IHd. set_solver.
    + destruct (decide (k = n)) as [->|Hne]; [split; [set_solver|done]|]. rewrite <- IHd. set_solver.
  - intros n w. rewrite last_of_snoc. destruct e as [k|k v]; simpl.
    + destruct (decide (k = n)) as [->|Hne]; [split; [set_solver|done]|]. rewrite <- IHv. set_solver.
    + destruct (decide (k = n)) as [->|Hne].
      * rewrite lookup_insert_eq. split; [by intros [_ [= ->]]|]. intros [= ->]. split; [set_solver|done].
      * rewrite lookup_insert_ne by done. rewrite <- IHv. set_solver.
Qed.

Lemma elem_of_dirty_nodes n m : n ∈ dirty_nodes m ↔ n ∈ dirty m.
Proof. unfold dirty_nodes. rewrite merge_sort_Permutation. by rewrite elem_of_elements. Qed.

Lemma elem_of_resolved_nodes n m : n ∈ resolved_nodes m ↔ n ∉ dirty m ∧ is_Some (values m !! n).
Proof.
  unfold resolved_nodes. rewrite merge_sort_Permutation, list_elem_of_filter. apply and_iff_compat_l.
  rewrite list_elem_of_fmap. split.
  - intros ([k v] & -> & Hin%elem_of_map_to_list). by exists v.
  - intros [v Hv]. exists (n, v). split; [done|]. by apply elem_of_map_to_list.
Qed.

(** Between two flushes any number of nodes are marked and resolved: the delta
    says of each node the last thing that was said of it, once, and is the next
    one of the chain. *)
Lemma flush_tells_last (es : list MirrorEvent) (m : StateProjectionMirror) : dirty m = ∅ → values m = ∅ →
  let '(d, m') := flush (foldl mirror_step m es) in
  (∀ o, o ∈ d_ops d ↔ ∃ n e, last_of n es = Some e ∧ o = told e) ∧ NoDup (d_ops d) ∧
  is_next_after d (m_base_epoch m) = true ∧ m_base_epoch m' = d_epoch d ∧ dirty m' = ∅ ∧ values m' = ∅.
Proof.
  intros Hd Hv. pose proof (mirror_holds es m) as Hm. cbn zeta in Hm. destruct Hm as (Hb & IHd & IHv); [set_solver|done|].
  set (m1 := foldl mirror_step m es) in *. unfold flush. cbn [d_ops delta_next d_epoch base_epoch m_base_epoch dirty values].
  assert (Hlast : ∀ n e, last_of n es = Some e → about_node e = n).
  { intros n e He. apply last_Some_elem_of, list_elem_of_filter in He. by destruct He. }
  split_and!; try done.
  - intros o. rewrite elem_of_app, !list_elem_of_fmap. split.
    + intros [(n & -> & Hin)|(n & -> & Hin)].
      * apply elem_of_dirty_nodes, IHd in Hin. by exists n, (Marked n).
      * apply elem_of_resolved_nodes in Hin as [Hn [v Hs]]. rewrite Hs. exists n, (Resolved n v). split; [by apply IHv|done].
    + intros (n & e & He & ->). pose proof (Hlast n e He) as Ha. destruct e as [k|k v]; simpl in Ha; subst k.
      * left. exists n. split; [done|]. by apply elem_of_dirty_nodes, IHd.
      * right. apply IHv in He as [Hn Hs]. exists n. rewrite Hs. split; [done|]. apply elem_of_resolved_nodes. by split; [|exists v].
  - apply NoDup_app. split_and!.
    + apply NoDup_fmap_2; [by intros ?? [=]|]. unfold dirty_nodes. rewrite merge_sort_Permutation. apply NoDup_elements.
    + intros o (n & -> & _)%list_elem_of_fmap (k & [=] & _)%list_elem_of_fmap.
    + apply NoDup_fmap_2; [by intros ?? [=]|]. unfold resolved_nodes. rewrite merge_sort_Permutation. apply NoDup_filter, NoDup_fst_map_to_list.
  - unfold is_next_after, delta_next. simpl. by rewrite Hb, !Z.eqb_refl.
Qed.
