(* ===== verification/Command.v ===== *)
(** * Command: the projection of commands

    Models the command plane of include/lazily/command.hpp: submissions,
    cancellations, progress events, receipts and images, folded into one entry
    per command.  Ids are the bytes of the strings. *)
From Stdlib Require Import String.
From S2P Require Import Prelude Bytes Ipc Receipt.
#[local] Open Scope Z_scope.

(** ** Data *)

(* include/lazily/command.hpp:23-23, DedupePolicy *)
Inductive DedupePolicy := DedupeNone | SameIdempotencyKey | SameCommandId.
(* include/lazily/command.hpp:25-29, CommandPolicy *)
Record CommandPolicy := mkPolicy { dedupe : DedupePolicy; supersede : bool; cancel_on_preempt : bool }.
(* include/lazily/command.hpp:31-40, CommandStatus *)
Inductive CommandStatus :=
  | StatusSubmitted | StatusAccepted | StatusRunning | StatusApplied | StatusRejected | StatusCancelled | StatusSuperseded | StatusTimedOut.
#[export] Instance CommandStatus_eq_dec : EqDecision CommandStatus.
Proof. solve_decision. Defined.
(* include/lazily/command.hpp:42-46, is_terminal_status *)
Definition is_terminal_status (s : CommandStatus) : bool :=
  match s with StatusApplied | StatusRejected | StatusCancelled | StatusSuperseded | StatusTimedOut => true | _ => false end.
(* include/lazily/command.hpp:48-59, phase_rank *)
Definition phase_rank (s : CommandStatus) : Z :=
  match s with StatusSubmitted => 0 | StatusAccepted => 1 | StatusRunning => 2 | _ => 3 end.

(* include/lazily/command.hpp:61-76, CommandSubmit *)
Record CommandSubmit := mkSubmit {
  cs_command_id : list Z; cs_causation_id : list Z; cs_source : list Z; cs_target : list Z; cs_ns : list Z; cs_name : list Z;
  cs_generation : Z; idempotency_key : list Z; deadline_ms : Z; policy : CommandPolicy; payload_type : list Z;
  cs_payload_hash : list Z; cs_payload : IpcValue; required_features : list (list Z) }.
(* include/lazily/command.hpp:78-84, CommandCancel *)
Record CommandCancel := mkCancel {
  cc_command_id : list Z; cc_causation_id : list Z; cc_source : list Z; cc_generation : Z; cc_reason : option (list Z) }.
(* include/lazily/command.hpp:86-94, CommandEventKind *)
Inductive CommandEventKind := EvObserved | EvAccepted | EvStarted | EvProgress | EvCancelled | EvSuperseded | EvTimedOut.
(* include/lazily/command.hpp:96-102, CommandEvent *)
Record CommandEvent := mkEvent { event_id : list Z; ev_command_id : list Z; ev_kind : CommandEventKind; ev_generation : Z; ev_detail : option (list Z) }.
(* include/lazily/command.hpp:108-116, CommandProjectionEntry *)
Record CommandEntry := mkCommand {
  ce_id : list Z; ce_status : CommandStatus; ce_terminal : bool; ce_generation : Z; ce_reason : option (list Z);
  terminal_receipt_id : option (list Z); last_event_id : option (list Z) }.
(* include/lazily/command.hpp:118-121, CommandProjectionImage *)
Record CommandImage := mkImage { im_generation : Z; im_commands : list CommandEntry }.
(* include/lazily/command.hpp:123-137, CommandMessage *)
Inductive CommandMessage :=
  | MsgSubmit (value : CommandSubmit) | MsgCancel (value : CommandCancel) | MsgEvents (value : list CommandEvent) | MsgProjection (value : CommandImage).
(* include/lazily/command.hpp:139-154, CommandApplyStatus *)
Inductive CommandApplyStatus :=
  | CommandRecorded | CommandDuplicate | CommandUnknown | CommandStale (expected actual : Z)
  | CommandTerminalConflict (command_id : list Z) (existing incoming : CommandStatus).

(* include/lazily/command.hpp:282-286, CommandProjection (data members) *)
Record CommandProjection := mkCommands {
  cp_generation : Z; entries : gmap (list Z) CommandEntry; seen_event_ids : gset (list Z); seen_receipt_ids : gset (list Z);
  conflicts : gset (list Z) }.
Definition new_commands : CommandProjection := mkCommands 0 ∅ ∅ ∅ ∅.
Definition with_entry (id : list Z) (e : CommandEntry) (p : CommandProjection) : CommandProjection :=
  mkCommands (cp_generation p) (<[id := e]> (entries p)) (seen_event_ids p) (seen_receipt_ids p) (conflicts p).

(** ** Operations *)

(* include/lazily/command.hpp:172-182, CommandProjection::submit *)
Definition submit (cmd : CommandSubmit) (p : CommandProjection) : CommandApplyStatus * CommandProjection :=
  match entries p !! cs_command_id cmd with
  | Some _ => (CommandDuplicate, p)
  | None =>
      (CommandRecorded,
       mkCommands (Z.max (cp_generation p) (cs_generation cmd))
         (<[cs_command_id cmd := mkCommand (cs_command_id cmd) StatusSubmitted false (cs_generation cmd) None None None]> (entries p))
         (seen_event_ids p) (seen_receipt_ids p) (conflicts p))
  end.

(* include/lazily/command.hpp:184-193, CommandProjection::cancel *)
Definition cancel (cmd : CommandCancel) (p : CommandProjection) : CommandApplyStatus :=
  match entries p !! cc_command_id cmd with
  | None => CommandUnknown
  | Some e =>
      if is_terminal_status (ce_status e) then CommandRecorded
      else if negb (cc_generation cmd =? ce_generation e) then CommandStale (ce_generation e) (cc_generation cmd)
      else CommandRecorded
  end.

(* include/lazily/command.hpp:288-299, CommandProjection::progress_status_of *)
Definition progress_status_of (k : CommandEventKind) : CommandStatus :=
  match k with EvObserved | EvAccepted => StatusAccepted | EvStarted | EvProgress => StatusRunning | _ => StatusSubmitted end.
(* include/lazily/command.hpp:301-313, CommandProjection::terminal_status_of *)
Definition terminal_status_of (o : ReceiptOutcome) (reason : option (list Z)) : CommandStatus :=
  if decide (o = Applied) then StatusApplied
  else if decide (o = Rejected) then
    match reason with
    | Some r =>
        if decide (r = bytes_of "cancelled") then StatusCancelled
        else if decide (r = bytes_of "superseded") then StatusSuperseded
        else if decide (r = bytes_of "timed_out") then StatusTimedOut
        else StatusRejected
    | None => StatusRejected
    end
  else StatusRejected.

(* include/lazily/command.hpp:201-221, CommandProjection::apply_events (loop) *)
Definition apply_event (evt : CommandEvent) (p : CommandProjection) : CommandApplyStatus * CommandProjection :=
  match entries p !! ev_command_id evt with
  | None => (CommandUnknown, p)
  | Some e =>
      if bool_decide (event_id evt ∈ seen_event_ids p) then (CommandDuplicate, p)
      else if negb (ev_generation evt =? ce_generation e) then (CommandStale (ce_generation e) (ev_generation evt), p)
      else
        let new_status := progress_status_of (ev_kind evt) in
        let advance := negb (ce_terminal e) && negb (bool_decide (new_status = StatusSubmitted)) &&
          (phase_rank (ce_status e) <=? phase_rank new_status) in
        let e := mkCommand (ce_id e) (if advance then new_status else ce_status e) (ce_terminal e) (ce_generation e) (ce_reason e)
          (terminal_receipt_id e) (Some (event_id evt)) in
        (CommandRecorded,
         mkCommands (cp_generation p) (<[ev_command_id evt := e]> (entries p)) ({[ event_id evt ]} ∪ seen_event_ids p) (seen_receipt_ids p) (conflicts p))
  end.
(* include/lazily/command.hpp:195-224, CommandProjection::apply_events *)
Definition apply_events (evts : list CommandEvent) (p : CommandProjection) : CommandApplyStatus * CommandProjection :=
  foldl (λ '(_, p) evt, apply_event evt p) (CommandRecorded, p) evts.

(* include/lazily/command.hpp:226-246, CommandProjection::observe_receipt *)
Definition observe_receipt (r : CausalReceipt) (p : CommandProjection) : CommandProjection :=
  match entries p !! causation_id r with
  | None => p
  | Some e =>
      if bool_decide (receipt_id r ∈ seen_receipt_ids p) then p
      else if negb (r_generation r =? ce_generation e) then p
      else
        let p := mkCommands (cp_generation p) (entries p) (seen_event_ids p) ({[ receipt_id r ]} ∪ seen_receipt_ids p) (conflicts p) in
        if negb (is_terminal (outcome r)) then p
        else
          let status := terminal_status_of (outcome r) (r_reason r) in
          if is_terminal_status (ce_status e) && negb (bool_decide (ce_status e = status)) then
            mkCommands (cp_generation p) (entries p) (seen_event_ids p) (seen_receipt_ids p) ({[ causation_id r ]} ∪ conflicts p)
          else
            with_entry (causation_id r)
              (mkCommand (ce_id e) status true (ce_generation e) (r_reason r) (Some (receipt_id r)) (last_event_id e)) p
  end.

(* include/lazily/command.hpp:248-254, CommandProjection::apply_projection *)
Definition apply_projection (image : CommandImage) (p : CommandProjection) : CommandApplyStatus * CommandProjection :=
  (CommandRecorded,
   mkCommands (Z.max (cp_generation p) (im_generation image)) (foldl (λ m e, <[ce_id e := e]> m) (entries p) (im_commands image))
     (seen_event_ids p) (seen_receipt_ids p) (conflicts p)).

(* include/lazily/command.hpp:160-170, CommandProjection::apply_message *)
Definition apply_message (m : CommandMessage) (p : CommandProjection) : CommandApplyStatus * CommandProjection :=
  match m with
  | MsgSubmit cmd => submit cmd p
  | MsgCancel cmd => (cancel cmd p, p)
  | MsgEvents evts => apply_events evts p
  | MsgProjection image => apply_projection image p
  end.

(* include/lazily/command.hpp:256-260, CommandProjection::entry *)
Definition entry (id : list Z) (p : CommandProjection) : option CommandEntry := entries p !! id.
(* include/lazily/command.hpp:262-266, CommandProjection::terminal_for *)
Definition command_terminal_for (id : list Z) (p : CommandProjection) : option CommandEntry :=
  match entry id p with Some e => if ce_terminal e then Some e else None | None => None end.
(* include/lazily/command.hpp:268-270, CommandProjection::has_conflict *)
Definition has_conflict (id : list Z) (p : CommandProjection) : bool := bool_decide (id ∈ conflicts p).

Definition entry_le (a b : CommandEntry) : Prop := bytes_le (ce_id a) (ce_id b).
#[export] Instance entry_le_dec : RelDecision entry_le.
Proof. intros a b. apply bytes_le_dec. Defined.

(* include/lazily/command.hpp:272-279, CommandProjection::to_image *)
Definition to_image (p : CommandProjection) : CommandImage :=
  mkImage (cp_generation p) (merge_sort entry_le (map_to_list (entries p)).*2).

(** ** Correctness *)

(** *** The way of a command *)

Inductive CommandInput := InMessage (m : CommandMessage) | InReceipt (r : CausalReceipt).
Definition command_step (p : CommandProjection) (i : CommandInput) : CommandProjection :=
  match i with InMessage m => (apply_message m p).2 | InReceipt r => observe_receipt r p end.
Definition is_image (i : CommandInput) : bool := match i with InMessage (MsgProjection _) => true | _ => false end.

(** An entry is well formed when it is stored under its id and is terminal
    exactly when its status is. *)
Definition entry_ok (id : list Z) (e : CommandEntry) : Prop := ce_id e = id ∧ ce_terminal e = is_terminal_status (ce_status e).
Definition commands_ok (p : CommandProjection) : Prop := map_Forall entry_ok (entries p).

(** How an entry may move: its generation is that of the submission, its phase
    only advances, and a terminal status stays. *)
Definition entry_advances (e e' : CommandEntry) : Prop :=
  ce_id e' = ce_id e ∧ ce_generation e' = ce_generation e ∧ phase_rank (ce_status e) <= phase_rank (ce_status e') ∧
  (ce_terminal e = true → ce_terminal e' = true ∧ ce_status e' = ce_status e).
#[export] Instance entry_advances_pre : PreOrder entry_advances.
Proof.
  split; [by intros e; split_and!|]. intros e1 e2 e3 (?&?&?&Ht) (?&?&?&Ht'). split_and!; [congruence..|lia|].
  intros Hter. destruct (Ht Hter) as [Ht1 Hs]. destruct (Ht' Ht1). split; congruence.
Qed.
Definition commands_advance (p p' : CommandProjection) : Prop :=
  ∀ id e, entries p !! id = Some e → ∃ e', entries p' !! id = Some e' ∧ entry_advances e e'.
#[export] Instance commands_advance_pre : PreOrder commands_advance.
Proof.
  split; [by intros p id e ?; exists e|]. intros p1 p2 p3 H1 H2 id e (e' & H & ?)%H1. apply H2 in H as (e'' & ? & ?).
  exists e''. split; [done|]. by etrans.
Qed.

Lemma advance_entry p p' id e e' : entries p !! id = Some e → entries p' = <[id := e']> (entries p) → entry_advances e e' →
  commands_advance p p'.
Proof.
  intros Hl He Ha k f Hk. rewrite He. destruct (decide (id = k)) as [->|?].
  - rewrite lookup_insert_eq. simplify_eq. by exists e'.
  - rewrite lookup_insert_ne by done. by exists f.
Qed.
Lemma same_entries p p' : entries p' = entries p → commands_ok p → commands_ok p' ∧ commands_advance p p'.
Proof. intros He Hok. split; [by red; rewrite He|]. intros k e Hk. exists e. by rewrite He. Qed.
Lemma terminal_status_of_terminal o r : is_terminal_status (terminal_status_of o r) = true.
Proof. unfold terminal_status_of. by repeat case_match. Qed.
Lemma progress_not_terminal k : is_terminal_status (progress_status_of k) = false.
Proof. by destruct k. Qed.

Lemma event_advances evt p : commands_ok p → commands_ok (apply_event evt p).2 ∧ commands_advance p (apply_event evt p).2.
Proof.
  intros Hok. unfold apply_event. destruct (entries p !! _) as [e|] eqn:El; [|by split].
  destruct (bool_decide _); [by split|]. destruct (negb (_ =? _)); [by split|]. destruct (Hok _ _ El) as [Hid Ht]. simpl.
  set (adv := _ && _ && _). destruct adv eqn:Ea; subst adv.
  - rewrite !andb_true_iff, negb_true_iff, Z.leb_le in Ea. destruct Ea as [[Hnt _] Hr]. split.
    + apply map_Forall_insert_2; [|done]. split; [done|]. simpl. by rewrite progress_not_terminal.
    + eapply advance_entry; [done|done|]. split_and!; [done..|]. simpl. by rewrite Hnt.
  - split; [by apply map_Forall_insert_2|]. eapply advance_entry; [done|done|]. by split_and!.
Qed.
Lemma events_advance evts p st : commands_ok p →
  let p' := (foldl (λ '(_, p) evt, apply_event evt p) (st, p) evts).2 in commands_ok p' ∧ commands_advance p p'.
Proof.
  revert p st. induction evts as [|evt evts IH]; intros p st Hok; [by split|]. simpl. destruct (event_advances evt p Hok) as [H1 H2].
  destruct (apply_event evt p) as [st' p']. destruct (IH p' st' H1) as [H3 H4]. split; [done|]. by etrans.
Qed.

Lemma receipt_advances r p : commands_ok p → commands_ok (observe_receipt r p) ∧ commands_advance p (observe_receipt r p).
Proof.
  intros Hok. unfold observe_receipt. destruct (entries p !! _) as [e|] eqn:El; [|by split].
  destruct (bool_decide (_ ∈ _)); [by split|]. destruct (negb (_ =? _)); [by split|]. destruct (Hok _ _ El) as [Hid Ht].
  cbn zeta.
  destruct (negb (is_terminal _)); [by apply same_entries|].
  destruct (is_terminal_status (ce_status e) && _) eqn:Ec; [by apply same_entries|]. split.
  - apply map_Forall_insert_2; [|done]. split; [done|]. simpl. by rewrite terminal_status_of_terminal.
  - eapply advance_entry; [done|done|]. split_and!; [done|done| |].
    + simpl. pose proof (terminal_status_of_terminal (outcome r) (r_reason r)) as H.
      destruct (terminal_status_of _ _); try done; by destruct (ce_status e).
    + intros Hter. rewrite Ht in Hter. rewrite Hter in Ec. simpl in *. by apply negb_false_iff, bool_decide_eq_true in Ec.
Qed.

Lemma command_step_advances i p : is_image i = false → commands_ok p → commands_ok (command_step p i) ∧ commands_advance p (command_step p i).
Proof.
  destruct i as [[cmd|cmd|evts|im]|r]; try done; intros _ Hok; simpl.
  - unfold submit. destruct (entries p !! _) eqn:El; [by split|]. split; [by apply map_Forall_insert_2|].
    intros k e Hk. exists e. split; [|done]. simpl. rewrite lookup_insert_ne; [done|]. by intros <-; simplify_eq.
  - by apply events_advance.
  - by apply receipt_advances.
Qed.

Lemma commands_follow p ins : Forall (λ i, is_image i = false) ins → commands_ok p →
  commands_ok (foldl command_step p ins) ∧ commands_advance p (foldl command_step p ins).
Proof.
  revert p. induction ins as [|i ins IH]; intros p Hf Hok; [by split|]. inversion_clear Hf. simpl.
  destruct (command_step_advances i p) as [H1 H2]; [done|done|]. destruct (IH (command_step p i)) as [H3 H4]; [done|done|].
  split; [done|]. by etrans.
Qed.

(** What one step tells of the outcome: an entry becomes terminal only by a
    fresh receipt of its generation with a terminal outcome, and a receipt
    that contradicts a terminal entry is noted as a conflict. *)
Lemma only_receipts_finish p i id e e' : is_image i = false → commands_ok p → entries p !! id = Some e → ce_terminal e = false →
  entries (command_step p i) !! id = Some e' → ce_terminal e' = true →
  ∃ r, i = InReceipt r ∧ causation_id r = id ∧ is_terminal (outcome r) = true ∧ r_generation r = ce_generation e ∧
       receipt_id r ∉ seen_receipt_ids p ∧ terminal_receipt_id e' = Some (receipt_id r) ∧
       ce_status e' = terminal_status_of (outcome r) (r_reason r).
Proof.
  intros Hi Hok Hl Hnt Hl' Ht'. destruct i as [[cmd|cmd|evts|im]|r]; try done; simpl in Hl'.
  - unfold submit in Hl'. destruct (entries p !! cs_command_id cmd) eqn:Es; simpl in Hl'; [congruence|].
    rewrite lookup_insert_ne in Hl' by congruence. congruence.
  - congruence.
  - exfalso. unfold apply_events in Hl'. revert Hl'. generalize CommandRecorded. clear Hi. revert p e Hok Hl Hnt.
    induction evts as [|evt evts IH]; intros p e Hok Hl Hnt st Hl'; simpl in Hl'; [congruence|].
    destruct (event_advances evt p Hok) as [Hok1 Ha]. destruct (Ha _ _ Hl) as (e1 & Hl1 & _).
    destruct (apply_event evt p) as [st1 p1] eqn:Ep. simpl in Hl1, Hok1. apply (IH p1 e1 Hok1 Hl1) with (2 := Hl').
    unfold apply_event in Ep. destruct (entries p !! ev_command_id evt) as [f|] eqn:Ef; [|by simplify_eq].
    destruct (bool_decide _); [by simplify_eq|]. destruct (negb (_ =? _)); [by simplify_eq|].
    injection Ep as _ <-. simpl in Hl1. destruct (decide (ev_command_id evt = id)) as [<-|?].
    + rewrite lookup_insert_eq in Hl1. by simplify_eq.
    + rewrite lookup_insert_ne in Hl1 by done. congruence.
  - exists r. unfold observe_receipt in Hl'. destruct (entries p !! causation_id r) as [f|] eqn:Ef; [|simplify_eq; congruence].
    destruct (bool_decide (_ ∈ _)) eqn:Es; [simplify_eq; congruence|]. apply bool_decide_eq_false in Es.
    destruct (negb (_ =? _)) eqn:Eg; [simplify_eq; congruence|]. apply negb_false_iff, Z.eqb_eq in Eg. cbn zeta in Hl'.
    destruct (negb (is_terminal _)) eqn:Et; [simpl in Hl'; congruence|]. apply negb_false_iff in Et.
    destruct (is_terminal_status _ && _); [simpl in Hl'; congruence|]. simpl in Hl'.
    destruct (decide (causation_id r = id)) as [<-|?].
    + rewrite lookup_insert_eq in Hl'. simplify_eq. by split_and!.
    + rewrite lookup_insert_ne in Hl' by done. congruence.
Qed.

(** A terminal receipt against a terminal entry with another outcome changes
    nothing of the entry and is noted. *)
Lemma contradiction_is_noted p r e : commands_ok p → entries p !! causation_id r = Some e → ce_terminal e = true →
  receipt_id r ∉ seen_receipt_ids p → r_generation r = ce_generation e → is_terminal (outcome r) = true →
  terminal_status_of (outcome r) (r_reason r) ≠ ce_status e →
  entries (observe_receipt r p) = entries p ∧ has_conflict (causation_id r) (observe_receipt r p) = true.
Proof.
  intros Hok Hl Ht Hs Hg Ho Hne. destruct (Hok _ _ Hl) as [_ Hte]. unfold observe_receipt. rewrite Hl.
  rewrite bool_decide_eq_false_2 by done. rewrite Hg, Z.eqb_refl. simpl. rewrite Ho. simpl.
  rewrite <- Hte, Ht. simpl. rewrite bool_decide_eq_false_2 by congruence. simpl. split; [done|].
  unfold has_conflict. simpl. apply bool_decide_eq_true. set_solver.
Qed.

Definition no_images (ins : list CommandInput) : Prop := Forall (λ i, is_image i = false) ins.

(** What finishes a command is a receipt of the history. *)
Lemma finished_by_receipt ins p id e : no_images ins → commands_ok p → (∀ f, entries p !! id = Some f → ce_terminal f = false) →
  entries (foldl command_step p ins) !! id = Some e → ce_terminal e = true →
  ∃ r, InReceipt r ∈ ins ∧ causation_id r = id ∧ is_terminal (outcome r) = true ∧ r_generation r = ce_generation e ∧
       ce_status e = terminal_status_of (outcome r) (r_reason r).
Proof.
  revert e. induction ins as [|i ins IH] using rev_ind; intros e Hf Hok Hn Hl Ht; simpl in Hl.
  { exfalso. rewrite (Hn _ Hl) in Ht. done. }
  unfold no_images in Hf. rewrite Forall_app, Forall_singleton in Hf. destruct Hf as [Hf Hi]. rewrite foldl_snoc in Hl.
  destruct (commands_follow p ins Hf Hok) as [Hok1 _]. set (p1 := foldl command_step p ins) in *.
  destruct (command_step_advances i p1 Hi Hok1) as [_ Ha]. destruct (entries p1 !! id) as [f|] eqn:Ef.
  - destruct (Ha _ _ Ef) as (e' & He' & _ & Hg & _ & Hst). simplify_eq. destruct (ce_terminal f) eqn:Etf.
    + destruct (IH f) as (r & ? & ? & ? & ? & ?); [done..|]. destruct (Hst eq_refl) as [_ Hs].
      exists r. rewrite elem_of_app. split_and!; [by left|done..|congruence|congruence].
    + destruct (only_receipts_finish p1 i id f e) as (r & -> & ? & ? & ? & _ & _ & ?); [done..|].
      exists r. rewrite elem_of_app, list_elem_of_singleton. split_and!; [by right|done..|congruence|done].
  - exfalso. destruct i as [[cmd|cmd|evts|im]|r]; try done; simpl in Hl.
    + unfold submit in Hl. destruct (entries p1 !! cs_command_id cmd) eqn:Es; simpl in Hl; [congruence|].
      destruct (decide (cs_command_id cmd = id)) as [<-|?]; [rewrite lookup_insert_eq in Hl; by simplify_eq|].
      rewrite lookup_insert_ne in Hl by done. congruence.
    + congruence.
    + assert (H : ∀ q, entries q !! id = None → ∀ st, entries (foldl (λ '(_, p) evt, apply_event evt p) (st, q) evts).2 !! id = None).
      { clear. induction evts as [|evt evts IH]; intros q Hq st; [done|]. simpl. destruct (apply_event evt q) as [st' q'] eqn:Eq. apply IH.
        unfold apply_event in Eq. destruct (entries q !! ev_command_id evt) as [f|] eqn:Ef; [|by simplify_eq].
        destruct (bool_decide _); [by simplify_eq|]. destruct (negb (_ =? _)); [by simplify_eq|]. injection Eq as _ <-. simpl.
        rewrite lookup_insert_ne; [done|congruence]. }
      unfold apply_events in Hl. rewrite H in Hl; done.
    + unfold observe_receipt in Hl. destruct (entries p1 !! causation_id r) as [f|] eqn:Er; [|congruence].
      destruct (bool_decide (_ ∈ _)); [congruence|]. destruct (negb (_ =? _)); [congruence|]. cbn zeta in Hl.
      destruct (negb (is_terminal _)); [simpl in Hl; congruence|]. destruct (is_terminal_status _ && _); simpl in Hl; [congruence|].
      rewrite lookup_insert_ne in Hl by congruence. congruence.
Qed.

(** *** Images *)

#[export] Instance entry_le_total : Total entry_le.
Proof. intros a b. apply bytes_le_total. Qed.

Lemma fold_image (es : list CommandEntry) (m : gmap (list Z) CommandEntry) (id : list Z) : NoDup (ce_id <$> es) →
  foldl (λ m e, <[ce_id e := e]> m) m es !! id = match list_find (λ e, ce_id e = id) es with Some (_, e) => Some e | None => m !! id end.
Proof.
  revert m. induction es as [|e es IH]; intros m Hnd; [done|]. simpl in *. apply NoDup_cons in Hnd as [Hn Hnd].
  rewrite IH by done. destruct (decide (ce_id e = id)) as [<-|?].
  - destruct (list_find _ es) as [[i f]|] eqn:Ef; [|by rewrite lookup_insert_eq].
    apply list_find_Some in Ef as (Hf & Hid & _). destruct Hn. rewrite <- Hid. apply list_elem_of_fmap_2. by eapply list_elem_of_lookup_2.
  - destruct (list_find _ es) as [[i f]|] eqn:Ef; simpl; [done|]. by rewrite lookup_insert_ne.
Qed.

Lemma image_ids p : commands_ok p → NoDup (ce_id <$> im_commands (to_image p)).
Proof.
  intros Hok. unfold to_image. simpl. rewrite merge_sort_Permutation. rewrite <- list_fmap_compose.
  assert (Heq : (ce_id ∘ snd) <$> map_to_list (entries p) = (map_to_list (entries p)).*1).
  { apply list_fmap_ext. intros i [k e] Hl. simpl. apply list_elem_of_lookup_2, elem_of_map_to_list in Hl. by destruct (Hok _ _ Hl). }
  rewrite Heq. apply NoDup_fst_map_to_list.
Qed.
Lemma elem_of_image p e : e ∈ im_commands (to_image p) ↔ ∃ id, entries p !! id = Some e.
Proof.
  unfold to_image. simpl. rewrite merge_sort_Permutation, list_elem_of_fmap. split.
  - intros ([k f] & -> & Hin%elem_of_map_to_list). by exists k.
  - intros [k Hk]. exists (k, e). split; [done|]. by apply elem_of_map_to_list.
Qed.

(** An image lists the commands in the order of their ids, and applied to a
    projection it sets each of them and leaves the others. *)
Lemma image_restores p q : commands_ok p →
  entries (apply_projection (to_image p) q).2 = entries p ∪ entries q ∧ Sorted entry_le (im_commands (to_image p)) ∧
  (entries q = ∅ → (to_image (apply_projection (to_image p) q).2).(im_commands) = im_commands (to_image p)).
Proof.
  intros Hok. assert (H : entries (apply_projection (to_image p) q).2 = entries p ∪ entries q).
  { apply map_eq. intros id. cbn [apply_projection snd entries]. rewrite fold_image by by apply image_ids.
    destruct (list_find _ _) as [[i e]|] eqn:Ef.
    - apply list_find_Some in Ef as (Hf & <- & _). apply list_elem_of_lookup_2, elem_of_image in Hf as [k Hk].
      destruct (Hok _ _ Hk) as [-> _]. symmetry. by apply lookup_union_Some_l.
    - apply list_find_None in Ef. rewrite Forall_forall in Ef. symmetry. apply lookup_union_r.
      destruct (entries p !! id) as [e|] eqn:El; [|done]. destruct (Hok _ _ El) as [Hid _].
      destruct (Ef e); [|done]. apply elem_of_image. by exists id. }
  split_and!; [done|apply Sorted_merge_sort; apply _|]. intros Hq. unfold to_image. simpl in *. rewrite H, Hq, map_union_empty. done.
Qed.

(** C15: Whatever messages (images apart) and receipts a projection takes, in
    whatever order and however often, a command that is there stays, with its
    generation, its phase only advances and a terminal status never changes;
    what made it terminal is a terminal receipt for it, of its generation,
    among the inputs; and every command is terminal exactly when its status
    is. *)
Theorem commands_finish_by_receipts (ins later : list CommandInput) :
  no_images ins → no_images later →
  let p1 := foldl command_step new_commands ins in let p2 := foldl command_step p1 later in
  (∀ id e, entry id p1 = Some e → ∃ e', entry id p2 = Some e' ∧ ce_generation e' = ce_generation e ∧
     phase_rank (ce_status e) <= phase_rank (ce_status e') ∧ (ce_terminal e = true → ce_terminal e' = true ∧ ce_status e' = ce_status e)) ∧
  (∀ id e, command_terminal_for id p2 = Some e →
     is_terminal_status (ce_status e) = true ∧
     ∃ r, InReceipt r ∈ ins ++ later ∧ causation_id r = id ∧ is_terminal (outcome r) = true ∧ r_generation r = ce_generation e ∧
          ce_status e = terminal_status_of (outcome r) (r_reason r)) ∧
  (∀ id e, entry id p2 = Some e → ce_id e = id ∧ ce_terminal e = is_terminal_status (ce_status e)).
Proof.
  intros H1 H2 p1 p2. assert (Hok : commands_ok new_commands) by done.
  destruct (commands_follow new_commands ins H1 Hok) as [Hok1 _]. destruct (commands_follow p1 later H2 Hok1) as [Hok2 Ha].
  fold p2 in Hok2, Ha. split_and!.
  - intros id e (e' & He' & _ & Hrest)%Ha. by exists e'.
  - intros id e Ht. unfold command_terminal_for in Ht. destruct (entry id p2) as [f|] eqn:Ef; [|done].
    destruct (ce_terminal f) eqn:Et; [|done]. simplify_eq. destruct (Hok2 _ _ Ef) as [_ Hst]. split; [congruence|].
    apply (finished_by_receipt (ins ++ later) new_commands id e); [by apply Forall_app|done|done| |done].
    by rewrite foldl_app.
  - intros id e He. by destruct (Hok2 _ _ He).
Qed.

Module Sample.
Definition cmd : CommandSubmit :=
  mkSubmit [1] [1] [9] [8] [] [] 4 [] 0 (mkPolicy DedupeNone false false) [] [] (ValueInline []) [].
Definition first_inputs : list CommandInput :=
  [InMessage (MsgSubmit cmd); InMessage (MsgEvents [mkEvent [50] [1] EvStarted 4 None; mkEvent [51] [1] EvAccepted 4 None]);
   InReceipt (applied_receipt [60] [1] [8] 3); InMessage (MsgCancel (mkCancel [1] [1] [9] 4 None))].
Definition later_inputs : list CommandInput :=
  [InReceipt (applied_receipt [61] [1] [8] 4); InReceipt (rejected_receipt [62] [1] [8] 4);
   InMessage (MsgEvents [mkEvent [52] [1] EvProgress 4 None])].

(** The running command is applied by the receipt of its generation; the
    rejection that follows is a conflict. *)
Lemma commands_finish_by_receipts_witness :
  let p1 := foldl command_step new_commands first_inputs in let p2 := foldl command_step p1 later_inputs in
  entry [1] p1 = Some (mkCommand [1] StatusRunning false 4 None None (Some [51])) ∧
  command_terminal_for [1] p2 = Some (mkCommand [1] StatusApplied true 4 None (Some [61]) (Some [52])) ∧
  has_conflict [1] p2 = true ∧
  (∀ id e, entry id p2 = Some e → ce_id e = id ∧ ce_terminal e = is_terminal_status (ce_status e)).
Proof.
  split; [vm_compute; reflexivity|]. split; [vm_compute; reflexivity|]. split; [vm_compute; reflexivity|].
  refine (proj2 (proj2 (commands_finish_by_receipts first_inputs later_inputs _ _))); repeat constructor.
Defined.
End Sample.
