(* ===== verification/Plane.v ===== *)
(** * Plane: the distributed CRDT plane

    Models [CrdtPlaneRuntime] of include/lazily/command.hpp: the log of
    operations, deduplicated by node and stamp, the winning operation of every
    node, the frontier and the membership, and the last-writer-wins families
    whose entries come to be when an operation for them arrives. *)
From Stdlib Require Import String.
From S2P Require Import Prelude Bytes Hlc Ipc.
#[local] Open Scope Z_scope.

#[export] Instance WireStamp_eq_dec : EqDecision WireStamp.
Proof. solve_decision. Defined.
#[export] Instance WireStamp_countable : Countable WireStamp.
Proof.
  refine (inj_countable' (λ s, (w_wall s, w_logical s, w_peer s)) (λ '(w, l, p), mkWire w l p) _). by intros [].
Defined.

(* include/lazily/command.hpp:322-322, kFamilyNodeBase *)
Definition kFamilyNodeBase : Z := Z.shiftl 1 48.

(** The texts of the log's keys, four numbers with colons between, are the pairs
    of a node and a stamp. *)
(* include/lazily/command.hpp:556-570, CrdtPlaneRuntime (data members) *)
Record CrdtPlaneRuntime := mkPlane {
  pl_peer : Z; pl_hlc : Hlc; pl_frontier : gmap Z HlcStamp; pl_membership : gset Z; winning : gmap Z CrdtOp;
  log : gset (Z * WireStamp); ops_log : list CrdtOp; key_to_node : gmap (list Z) Z; node_to_key : gmap Z (list Z);
  families : gset (list Z); family_members : gmap (list Z) (list (list Z)); family_epoch : Z; next_family_node : Z }.

(* include/lazily/command.hpp:326-326, CrdtPlaneRuntime *)
Definition new_plane (peer : Z) : CrdtPlaneRuntime :=
  mkPlane peer (hlc_new peer) ∅ ∅ ∅ ∅ [] ∅ ∅ ∅ ∅ 0 kFamilyNodeBase.

Section setters.
  Variable p : CrdtPlaneRuntime.

Definition with_clock h := mkPlane (pl_peer p) h (pl_frontier p) (pl_membership p) (winning p) (log p) (ops_log p) (key_to_node p)
  (node_to_key p) (families p) (family_members p) (family_epoch p) (next_family_node p).
Definition with_seen f m := mkPlane (pl_peer p) (pl_hlc p) f m (winning p) (log p) (ops_log p) (key_to_node p)
  (node_to_key p) (families p) (family_members p) (family_epoch p) (next_family_node p).
Definition with_winning w := mkPlane (pl_peer p) (pl_hlc p) (pl_frontier p) (pl_membership p) w (log p) (ops_log p) (key_to_node p)
  (node_to_key p) (families p) (family_members p) (family_epoch p) (next_family_node p).
Definition with_log l ops := mkPlane (pl_peer p) (pl_hlc p) (pl_frontier p) (pl_membership p) (winning p) l ops (key_to_node p)
  (node_to_key p) (families p) (family_members p) (family_epoch p) (next_family_node p).
Definition with_keys kn nk := mkPlane (pl_peer p) (pl_hlc p) (pl_frontier p) (pl_membership p) (winning p) (log p) (ops_log p) kn
  nk (families p) (family_members p) (family_epoch p) (next_family_node p).
Definition with_families fs ms := mkPlane (pl_peer p) (pl_hlc p) (pl_frontier p) (pl_membership p) (winning p) (log p) (ops_log p)
  (key_to_node p) (node_to_key p) fs ms (family_epoch p) (next_family_node p).
Definition with_epoch e := mkPlane (pl_peer p) (pl_hlc p) (pl_frontier p) (pl_membership p) (winning p) (log p) (ops_log p)
  (key_to_node p) (node_to_key p) (families p) (family_members p) e (next_family_node p).
Definition with_next n := mkPlane (pl_peer p) (pl_hlc p) (pl_frontier p) (pl_membership p) (winning p) (log p) (ops_log p)
  (key_to_node p) (node_to_key p) (families p) (family_members p) (family_epoch p) n.
End setters.

(** ** Families *)

(* include/lazily/command.hpp:538-543, CrdtPlaneRuntime::record_family_member *)
Definition record_family_member (ns key : list Z) (p : CrdtPlaneRuntime) : bool * CrdtPlaneRuntime :=
  let members := default [] (family_members p !! ns) in
  if bool_decide (key ∈ members) then (false, with_families p (families p) (<[ns := members]> (family_members p)))
  else (true, with_families p (families p) (<[ns := members ++ [key]]> (family_members p))).
(* include/lazily/command.hpp:545-545, CrdtPlaneRuntime::bump_family_epoch *)
Definition bump_family_epoch (p : CrdtPlaneRuntime) : CrdtPlaneRuntime := with_epoch p (u64 (family_epoch p + 1)).

(** The loop ends on the first candidate that no operation is for: one turn
    more than there are nodes is enough. *)
(* include/lazily/command.hpp:549-554, CrdtPlaneRuntime::mint_family_node (loop) *)
Fixpoint mint_loop (fuel : nat) (w : gmap Z CrdtOp) (next : Z) : option (Z * Z) :=
  match fuel with
  | O => None
  | S fuel => let candidate := next in let next := u64 (next + 1) in
      if bool_decide (is_Some (w !! candidate)) then mint_loop fuel w next else Some (candidate, next)
  end.
(* include/lazily/command.hpp:549-554, CrdtPlaneRuntime::mint_family_node *)
Definition mint_family_node (p : CrdtPlaneRuntime) : option (Z * CrdtPlaneRuntime) :=
  match mint_loop (S (size (winning p))) (winning p) (next_family_node p) with
  | Some (candidate, next) => Some (candidate, with_next p next)
  | None => None
  end.

(* include/lazily/command.hpp:464-467, CrdtPlaneRuntime::register_family_lww *)
Definition register_family_lww (ns : list Z) (p : CrdtPlaneRuntime) : CrdtPlaneRuntime :=
  with_families p ({[ ns ]} ∪ families p)
    (match family_members p !! ns with Some _ => family_members p | None => <[ns := []]> (family_members p) end).
(* include/lazily/command.hpp:472-472, CrdtPlaneRuntime::membership_epoch *)
Definition membership_epoch (p : CrdtPlaneRuntime) : Z := family_epoch p.
(* include/lazily/command.hpp:476-480, CrdtPlaneRuntime::family_keys *)
Definition family_keys (ns : list Z) (p : CrdtPlaneRuntime) : list (list Z) := default [] (family_members p !! ns).

(** ** Taking operations in *)

(** A later stamp wins the node. *)
(* include/lazily/command.hpp:374-378, CrdtPlaneRuntime::ingest_ops (winner) *)
Definition update_winning (op : CrdtOp) (p : CrdtPlaneRuntime) : CrdtPlaneRuntime :=
  let wins := match winning p !! co_node op with
    | None => true
    | Some w => stamp_gtb (from_wire (co_stamp op)) (from_wire (co_stamp w))
    end in
  if wins then with_winning p (<[co_node op := op]> (winning p)) else p.

(* include/lazily/command.hpp:343-379, CrdtPlaneRuntime::ingest_ops (loop) *)
Definition ingest_op (op : CrdtOp) (p : CrdtPlaneRuntime) : Z * CrdtPlaneRuntime :=
  let dedup_key := (co_node op, co_stamp op) in
  if bool_decide (dedup_key ∈ log p) then (0, p) else
  let p := with_log p ({[ dedup_key ]} ∪ log p) (ops_log p ++ [op]) in
  let stamp := from_wire (co_stamp op) in
  let p := with_seen p (frontier_observe (pl_frontier p) (w_peer (co_stamp op)) stamp) ({[ w_peer (co_stamp op) ]} ∪ pl_membership p) in
  let p := match co_key op with
    | Some key =>
        let p := with_keys p (<[path key := co_node op]> (key_to_node p)) (<[co_node op := path key]> (node_to_key p)) in
        match key_segments key with
        | ns :: _ =>
            if bool_decide (ns ∈ families p) then
              let '(added, p) := record_family_member ns (path key) p in
              if added then bump_family_epoch p else p
            else p
        | [] => p
        end
    | None => p
    end in
  (1, update_winning op p).

(* include/lazily/command.hpp:341-381, CrdtPlaneRuntime::ingest_ops *)
Definition ingest_ops (ops : list CrdtOp) (p : CrdtPlaneRuntime) : Z * CrdtPlaneRuntime :=
  foldl (λ '(applied, p) op, let '(n, p) := ingest_op op p in (applied + n, p)) (0, p) ops.

(* include/lazily/command.hpp:383-390, CrdtPlaneRuntime::ingest *)
Definition ingest (sync : CrdtSync) (p : CrdtPlaneRuntime) : Z * CrdtPlaneRuntime :=
  let p := foldl (λ p e, with_seen p (frontier_observe (pl_frontier p) (fe_peer e) (from_wire (fe_stamp e))) ({[ fe_peer e ]} ∪ pl_membership p))
    p (frontier sync) in
  ingest_ops (cs_ops sync) p.

(** ** Reading *)

(* include/lazily/command.hpp:423-429, CrdtPlaneRuntime::nodes *)
Definition nodes (p : CrdtPlaneRuntime) : list Z := merge_sort Z.le (elements (dom (winning p))).
(* include/lazily/command.hpp:392-396, CrdtPlaneRuntime::ConvergedEntry *)
Record ConvergedEntry := mkConverged { cv_node : Z; cv_key : option (list Z); cv_state : IpcValue }.
(* include/lazily/command.hpp:398-409, CrdtPlaneRuntime::converged *)
Definition converged (p : CrdtPlaneRuntime) : list ConvergedEntry :=
  omap (λ n, (λ op, mkConverged n (node_to_key p !! n) (co_state op)) <$> winning p !! n) (nodes p).
(* include/lazily/command.hpp:411-415, CrdtPlaneRuntime::winning_op *)
Definition winning_op (node : Z) (p : CrdtPlaneRuntime) : option CrdtOp := winning p !! node.
(* include/lazily/command.hpp:417-421, CrdtPlaneRuntime::value *)
Definition plane_value (node : Z) (p : CrdtPlaneRuntime) : option IpcValue := co_state <$> winning p !! node.
(* include/lazily/command.hpp:431-431, CrdtPlaneRuntime::size *)
Definition plane_size (p : CrdtPlaneRuntime) : nat := size (winning p).
(* include/lazily/command.hpp:432-432, CrdtPlaneRuntime::is_empty *)
Definition plane_is_empty (p : CrdtPlaneRuntime) : bool := bool_decide (winning p = ∅).
(* include/lazily/command.hpp:434-438, CrdtPlaneRuntime::membership *)
Definition membership (p : CrdtPlaneRuntime) : list Z := merge_sort Z.le (elements (pl_membership p)).
(* include/lazily/command.hpp:440-447, CrdtPlaneRuntime::frontier_entries *)
Definition frontier_entries (p : CrdtPlaneRuntime) : list StampFrontierEntry :=
  omap (λ q, (λ s, mkFrontierEntry q (to_wire s)) <$> frontier_get (pl_frontier p) q) (membership p).

(* include/lazily/command.hpp:484-494, CrdtPlaneRuntime::family_value_lww *)
Definition family_value_lww (ns key_suffix : list Z) (p : CrdtPlaneRuntime) : option bool :=
  node ← key_to_node p !! (ns ++ [47] ++ key_suffix);
  op ← winning p !! node;
  match co_state op with
  | ValueInline bytes => Some match bytes with [] => false | b :: _ => negb (b =? 0) end
  | _ => None
  end.

(** ** Writing *)

(* include/lazily/command.hpp:500-535, CrdtPlaneRuntime::family_set_lww *)
Definition family_set_lww (ns key_suffix : list Z) (value : bool) (now : Z) (p : CrdtPlaneRuntime) : option CrdtOp * CrdtPlaneRuntime :=
  match key_create (ns ++ [47] ++ key_suffix) with
  | None => (None, p)
  | Some node_key =>
      let key_str := path node_key in
      match (match key_to_node p !! key_str with
             | Some node => Some (node, p)
             | None =>
                 match mint_family_node p with
                 | None => None
                 | Some (node, p) =>
                     let p := with_keys p (<[key_str := node]> (key_to_node p)) (<[node := key_str]> (node_to_key p)) in
                     Some (node, bump_family_epoch (record_family_member ns key_str p).2)
                 end
             end) with
      | None => (None, p)
      | Some (node, p) =>
          let '(stamp, h) := hlc_tick (pl_hlc p) now in
          let p := with_clock p h in
          let wire := to_wire stamp in
          let op := mkCrdtOp node (Some node_key) wire (ValueInline [if value then 1 else 0]) in
          let dedup_key := (node, wire) in
          let p := if bool_decide (dedup_key ∈ log p) then p else with_log p ({[ dedup_key ]} ∪ log p) (ops_log p ++ [op]) in
          let p := with_seen p (frontier_observe (pl_frontier p) (stamp_peer stamp) stamp) ({[ stamp_peer stamp ]} ∪ pl_membership p) in
          (Some op, update_winning op p)
      end
  end.

(** ** What the plane keeps *)

Definition op_id (op : CrdtOp) : Z * WireStamp := (co_node op, co_stamp op).
Definition op_stamp (op : CrdtOp) : HlcStamp := from_wire (co_stamp op).

Lemma op_id_stamp o o' : co_node o = co_node o' → op_stamp o = op_stamp o' → op_id o = op_id o'.
Proof.
  unfold op_id, op_stamp. intros -> Hs. f_equal. destruct (wire_roundtrip (op_stamp o) (co_stamp o)) as [_ <-].
  destruct (wire_roundtrip (op_stamp o') (co_stamp o')) as [_ <-]. unfold op_stamp in Hs. by rewrite Hs.
Qed.

(** [w] is the operation with the greatest stamp of those for [n]. *)
Definition wins (n : Z) (w : option CrdtOp) (ops : list CrdtOp) : Prop :=
  match w with
  | None => ∀ o, o ∈ ops → co_node o ≠ n
  | Some w => w ∈ ops ∧ co_node w = n ∧ ∀ o, o ∈ ops → co_node o = n → stamp_le (op_stamp o) (op_stamp w)
  end.

(** No two operations share node and stamp. *)
Definition distinct (ops : list CrdtOp) : Prop := ∀ o o', o ∈ ops → o' ∈ ops → op_id o = op_id o' → o = o'.

Lemma wins_unique n w w' ops ops' : distinct (ops ++ ops') → (∀ o, o ∈ ops ↔ o ∈ ops') → wins n w ops → wins n w' ops' → w = w'.
Proof.
  intros Hd Heq Hw Hw'. destruct w as [w|], w' as [w'|]; simpl in *.
  - destruct Hw as (Hin & Hn & Hmax), Hw' as (Hin' & Hn' & Hmax'). f_equal. apply Hd; [set_solver..|].
    apply op_id_stamp; [congruence|]. apply stamp_le_antisym; [apply Hmax'|apply Hmax]; by (done || apply Heq).
  - destruct Hw as (Hin & Hn & _). exfalso. by apply (Hw' w), Hn; apply Heq.
  - destruct Hw' as (Hin & Hn & _). exfalso. by apply (Hw w'), Hn; apply Heq.
  - done.
Qed.

Record plane_inv (p : CrdtPlaneRuntime) : Prop := {
  inv_log : ∀ k, k ∈ log p ↔ ∃ o, o ∈ ops_log p ∧ op_id o = k;
  inv_nodup : NoDup (op_id <$> ops_log p);
  inv_wins : ∀ n, wins n (winning p !! n) (ops_log p);
  inv_node_key : ∀ n k, node_to_key p !! n = Some k → ∃ o key, o ∈ ops_log p ∧ co_node o = n ∧ co_key o = Some key ∧ path key = k;
  inv_keyed : ∀ o key, o ∈ ops_log p → co_key o = Some key → is_Some (node_to_key p !! co_node o);
  inv_key_node : ∀ k n, key_to_node p !! k = Some n → ∃ o key, o ∈ ops_log p ∧ co_node o = n ∧ co_key o = Some key ∧ path key = k;
  inv_frontier : ∀ o, o ∈ ops_log p → ∃ s, pl_frontier p !! w_peer (co_stamp o) = Some s ∧ stamp_le (op_stamp o) s;
  inv_members : ∀ q, q ∈ pl_membership p ↔ is_Some (pl_frontier p !! q) }.

Lemma inv_distinct p : plane_inv p → distinct (ops_log p).
Proof.
  intros H o o' [i Hi]%list_elem_of_lookup [j Hj]%list_elem_of_lookup He. assert (i = j) as ->; [|congruence].
  eapply NoDup_lookup; [by apply inv_nodup| |]; rewrite list_lookup_fmap; [by rewrite Hi|rewrite Hj; simpl; by rewrite He].
Qed.

Lemma new_plane_inv peer : plane_inv (new_plane peer).
Proof.
  split; simpl; try set_solver; [apply NoDup_nil_2|]. intros q. rewrite lookup_empty. split; [set_solver|by intros []].
Qed.

(** A plane that differs in its clock, families and minting only. *)
Lemma inv_ext p p' : log p' = log p → ops_log p' = ops_log p → winning p' = winning p → node_to_key p' = node_to_key p →
  key_to_node p' = key_to_node p → pl_frontier p' = pl_frontier p → pl_membership p' = pl_membership p → plane_inv p → plane_inv p'.
Proof. intros E1 E2 E3 E4 E5 E6 E7 []. split; by rewrite ?E1, ?E2, ?E3, ?E4, ?E5, ?E6, ?E7. Qed.

Lemma frontier_observe_mono f q t p s : f !! p = Some s → ∃ s', frontier_observe f q t !! p = Some s' ∧ stamp_le s s'.
Proof.
  intros Hs. rewrite frontier_observe_lookup. case_decide; [|exists s; split; [done|by left]]. rewrite Hs.
  destruct (stamp_gtb t s) eqn:Eg; eexists; (split; [done|]); [right; by apply stamp_gtb_lt|by left].
Qed.
Lemma frontier_observe_at f q t : ∃ s', frontier_observe f q t !! q = Some s' ∧ stamp_le t s'.
Proof.
  rewrite frontier_observe_lookup, decide_True by done. eexists. split; [done|]. destruct (f !! q) as [old|]; [|by left].
  destruct (stamp_gtb t old) eqn:Eg; [by left|]. by apply stamp_gtb_le.
Qed.

Lemma inv_seen p q t : plane_inv p → plane_inv (with_seen p (frontier_observe (pl_frontier p) q t) ({[ q ]} ∪ pl_membership p)).
Proof.
  intros []. split; try done; simpl.
  - intros o (s & Hs & Hle)%inv_frontier0. destruct (frontier_observe_mono _ q t _ _ Hs) as (s' & Hs' & Hle'). exists s'.
    split; [done|]. by eapply stamp_le_trans.
  - intros r. rewrite elem_of_union, elem_of_singleton, inv_members0, frontier_observe_lookup.
    case_decide; [|naive_solver]. subst. split; [done|by left].
Qed.

(** What the two key maps become when [op] is recorded. *)
Definition keys_record (op : CrdtOp) (nk nk' : gmap Z (list Z)) (kn kn' : gmap (list Z) Z) : Prop :=
  match co_key op with
  | None => nk' = nk ∧ kn' = kn
  | Some key =>
      (nk' = <[co_node op := path key]> nk ∨ nk' = nk ∧ is_Some (nk !! co_node op)) ∧
      (kn' = <[path key := co_node op]> kn ∨ kn' = kn)
  end.

Lemma wins_snoc n w ops op : wins n w ops →
  wins n (if decide (co_node op = n) then
            match w with Some w => if stamp_gtb (op_stamp op) (op_stamp w) then Some op else Some w | None => Some op end
          else w) (ops ++ [op]).
Proof.
  intros Hw. case_decide as En.
  - destruct w as [w|]; simpl in *.
    + destruct Hw as (Hin & Hn & Hmax). destruct (stamp_gtb _ _) eqn:Eg; simpl; split_and!; try done; try set_solver.
      * apply stamp_gtb_lt in Eg. intros o [Ho| ->%list_elem_of_singleton]%elem_of_app Hno; [|by left].
        eapply stamp_le_trans; [by apply Hmax|by right].
      * apply stamp_gtb_le in Eg. intros o [Ho| ->%list_elem_of_singleton]%elem_of_app Hno; [by apply Hmax|done].
    + split_and!; [set_solver|done|]. intros o [Ho| ->%list_elem_of_singleton]%elem_of_app Hno; [by apply Hw in Ho|by left].
  - destruct w as [w|]; simpl in *.
    + destruct Hw as (Hin & Hn & Hmax). split_and!; [set_solver|done|].
      intros o [Ho| ->%list_elem_of_singleton]%elem_of_app Hno; [by apply Hmax|done].
    + intros o [Ho| ->%list_elem_of_singleton]%elem_of_app; [by apply Hw|done].
Qed.

Lemma update_winning_lookup op p n : winning (update_winning op p) !! n =
  if decide (co_node op = n) then
    match winning p !! n with Some w => if stamp_gtb (op_stamp op) (op_stamp w) then Some op else Some w | None => Some op end
  else winning p !! n.
Proof.
  unfold update_winning, op_stamp. case_decide as En.
  - subst n. destruct (winning p !! co_node op) as [w|] eqn:Ew; [destruct (stamp_gtb _ _)|]; simpl; by rewrite ?lookup_insert_eq.
  - destruct (winning p !! co_node op) as [w|]; [destruct (stamp_gtb _ _)|]; simpl; by rewrite ?lookup_insert_ne.
Qed.

Lemma update_winning_others op p : log (update_winning op p) = log p ∧ ops_log (update_winning op p) = ops_log p ∧
  node_to_key (update_winning op p) = node_to_key p ∧ key_to_node (update_winning op p) = key_to_node p ∧
  pl_frontier (update_winning op p) = pl_frontier p ∧ pl_membership (update_winning op p) = pl_membership p ∧
  families (update_winning op p) = families p ∧ family_members (update_winning op p) = family_members p ∧
  pl_hlc (update_winning op p) = pl_hlc p.
Proof. unfold update_winning. destruct (winning p !! co_node op) as [w|]; [destruct (stamp_gtb _ _)|]; by split_and!. Qed.

Lemma inv_record p op p' : plane_inv p → op_id op ∉ log p → log p' = {[ op_id op ]} ∪ log p → ops_log p' = ops_log p ++ [op] →
  (∀ n, wins n (winning p' !! n) (ops_log p ++ [op])) →
  keys_record op (node_to_key p) (node_to_key p') (key_to_node p) (key_to_node p') →
  pl_frontier p' = frontier_observe (pl_frontier p) (w_peer (co_stamp op)) (op_stamp op) →
  pl_membership p' = {[ w_peer (co_stamp op) ]} ∪ pl_membership p → plane_inv p'.
Proof.
  intros [] Hn El Eo Hw Hk Ef Em.
  assert (Hold : ∀ P : CrdtOp → Prop, (∃ o, o ∈ ops_log p ∧ P o) → ∃ o, o ∈ ops_log p' ∧ P o).
  { intros P (o & Ho & HP). exists o. rewrite Eo. split; [set_solver|done]. }
  assert (Hop : op ∈ ops_log p') by (rewrite Eo; set_solver). unfold keys_record in Hk. split.
  - intros k. rewrite El, Eo, elem_of_union, elem_of_singleton, inv_log0. split.
    + intros [->|(o & ? & ?)]; [exists op|exists o]; (split; [set_solver|done]).
    + intros (o & [?| ->%list_elem_of_singleton]%elem_of_app & <-); [right; by exists o|by left].
  - rewrite Eo, fmap_app. simpl. apply NoDup_app. split_and!; [done| |apply NoDup_singleton].
    intros k (o & -> & Ho)%list_elem_of_fmap Hk'%list_elem_of_singleton. apply Hn, inv_log0. by exists o.
  - intros n. rewrite Eo. apply Hw.
  - intros n k Hl. assert (Hc : node_to_key p !! n = Some k ∨ ∃ key, co_node op = n ∧ co_key op = Some key ∧ path key = k).
    { destruct (co_key op) as [key|]; [destruct Hk as [[Hk|[Hk _]] _]|destruct Hk as [Hk _]]; rewrite Hk in Hl; [|by left..].
      apply lookup_insert_Some in Hl as [[??]|[_ ?]]; [right; by exists key|by left]. }
    destruct Hc as [Hc|(key & ? & ? & ?)]; [|by exists op, key].
    destruct (inv_node_key0 _ _ Hc) as (o & key & Ho & Hrest). exists o, key. rewrite Eo. set_solver.
  - intros o key Ho Hkey. rewrite Eo in Ho. apply elem_of_app in Ho as [Ho| ->%list_elem_of_singleton].
    + pose proof (inv_keyed0 _ _ Ho Hkey) as Hs. destruct (co_key op); [destruct Hk as [[->|[-> _]] _]|by destruct Hk as [-> _]]; [|done].
      destruct (decide (co_node op = co_node o)) as [->|?]; [by rewrite lookup_insert_eq|by rewrite lookup_insert_ne].
    + rewrite Hkey in Hk. destruct Hk as [[->|[-> Hs]] _]; [by rewrite lookup_insert_eq|done].
  - intros k n Hl. assert (Hc : key_to_node p !! k = Some n ∨ ∃ key, co_node op = n ∧ co_key op = Some key ∧ path key = k).
    { destruct (co_key op) as [key|]; [destruct Hk as [_ [Hk|Hk]]|destruct Hk as [_ Hk]]; rewrite Hk in Hl; [|by left..].
      apply lookup_insert_Some in Hl as [[??]|[_ ?]]; [right; by exists key|by left]. }
    destruct Hc as [Hc|(key & ? & ? & ?)]; [|by exists op, key].
    destruct (inv_key_node0 _ _ Hc) as (o & key & Ho & Hrest). exists o, key. rewrite Eo. set_solver.
  - intros o Ho. rewrite Ef. rewrite Eo in Ho. apply elem_of_app in Ho as [Ho| ->%list_elem_of_singleton]; [|apply frontier_observe_at].
    destruct (inv_frontier0 _ Ho) as (s & Hs & Hle). destruct (frontier_observe_mono _ (w_peer (co_stamp op)) (op_stamp op) _ _ Hs) as (s' & Hs' & Hle').
    exists s'. split; [done|]. by eapply stamp_le_trans.
  - intros q. rewrite Ef, Em, elem_of_union, elem_of_singleton, inv_members0, frontier_observe_lookup.
    case_decide; [|naive_solver]. subst. split; [done|by left].
Qed.

(** What a new operation does to a plane, families apart. *)
Definition recorded (op : CrdtOp) (p p' : CrdtPlaneRuntime) : Prop :=
  log p' = {[ op_id op ]} ∪ log p ∧ ops_log p' = ops_log p ++ [op] ∧
  (∀ n, winning p' !! n = if decide (co_node op = n) then
     match winning p !! n with Some w => if stamp_gtb (op_stamp op) (op_stamp w) then Some op else Some w | None => Some op end
   else winning p !! n) ∧
  keys_record op (node_to_key p) (node_to_key p') (key_to_node p) (key_to_node p') ∧
  pl_frontier p' = frontier_observe (pl_frontier p) (w_peer (co_stamp op)) (op_stamp op) ∧
  pl_membership p' = {[ w_peer (co_stamp op) ]} ∪ pl_membership p.

Lemma recorded_inv op p p' : plane_inv p → op_id op ∉ log p → recorded op p p' → plane_inv p'.
Proof.
  intros Hp Hn (El & Eo & Ew & Hk & Ef & Em). apply (inv_record p op p'); [done..| |done|done|done].
  intros n. rewrite Ew. apply wins_snoc. by apply inv_wins.
Qed.

Lemma ingest_op_spec op p :
  op_id op ∈ log p ∧ ingest_op op p = (0, p) ∨
  op_id op ∉ log p ∧ (ingest_op op p).1 = 1 ∧ recorded op p (ingest_op op p).2.
Proof.
  unfold ingest_op. change (co_node op, co_stamp op) with (op_id op). destruct (decide (op_id op ∈ log p)) as [Hin|Hn].
  { left. by rewrite bool_decide_eq_true_2. }
  right. rewrite bool_decide_eq_false_2 by done. cbn [fst snd]. split; [done|]. split; [done|].
  match goal with |- recorded _ _ (update_winning _ ?q) => set (p1 := q) end.
  assert (H : log p1 = {[ op_id op ]} ∪ log p ∧ ops_log p1 = ops_log p ++ [op] ∧ winning p1 = winning p ∧
    keys_record op (node_to_key p) (node_to_key p1) (key_to_node p) (key_to_node p1) ∧
    pl_frontier p1 = frontier_observe (pl_frontier p) (w_peer (co_stamp op)) (op_stamp op) ∧
    pl_membership p1 = {[ w_peer (co_stamp op) ]} ∪ pl_membership p).
  { subst p1. unfold keys_record. destruct (co_key op) as [key|]; [|by split_and!].
    destruct (key_segments key) as [|ns ?]; [split_and!; by (done || left)|].
    destruct (bool_decide (ns ∈ _)); [|split_and!; by (done || left)]. unfold record_family_member.
    destruct (bool_decide (path key ∈ _)); split_and!; by (done || left). }
  clearbody p1. destruct H as (El & Eo & Ew & Hk & Ef & Em).
  destruct (update_winning_others op p1) as (E1 & E2 & E3 & E4 & E5 & E6 & _). unfold recorded.
  rewrite E1, E2, E3, E4, E5, E6. split_and!; try done. intros n. by rewrite update_winning_lookup, Ew.
Qed.

Lemma ingest_op_inv op p : plane_inv p → plane_inv (ingest_op op p).2.
Proof.
  intros Hp. destruct (ingest_op_spec op p) as [[_ ->]|(Hn & _ & Hr)]; [done|]. by apply (recorded_inv op p).
Qed.

(** Taking in a list: what is new is recorded, once, and counted. *)
Lemma ingest_ops_spec ops p n0 : plane_inv p →
  let '(n, p') := foldl (λ '(applied, p) op, let '(n, p) := ingest_op op p in (applied + n, p)) (n0, p) ops in
  plane_inv p' ∧ n = n0 + Z.of_nat (length (ops_log p')) - Z.of_nat (length (ops_log p)) ∧
  (∀ o, o ∈ ops_log p → o ∈ ops_log p') ∧ (∀ o, o ∈ ops_log p' → o ∈ ops_log p ∨ o ∈ ops) ∧
  (∀ k, k ∈ log p' ↔ k ∈ log p ∨ ∃ o, o ∈ ops ∧ op_id o = k).
Proof.
  revert p n0. induction ops as [|op ops IH]; intros p n0 Hp; simpl.
  { split_and!; [done|lia|done|by left|]. intros k. split; [by left|]. intros [?|(? & []%not_elem_of_nil & _)]; done. }
  pose proof (ingest_op_inv op p Hp) as Hp1. destruct (ingest_op_spec op p) as [[Hin E]|(Hn & E & (El & Eo & _))].
  - rewrite E in *. specialize (IH p (n0 + 0) Hp1). destruct (foldl _ _ _) as [n p']. destruct IH as (? & ? & ? & Hall & Hlog).
    split_and!; [done|lia|done| |].
    + intros o [?|?]%Hall; [by left|right; by right].
    + intros k. rewrite Hlog. split; [intros [?|(o & ? & ?)]; [by left|right; exists o; split; [by right|done]]|].
      intros [?|(o & [->|?]%elem_of_cons & <-)]; [by left|by left|right; by exists o].
  - destruct (ingest_op op p) as [m p1]. simpl in *. subst m. specialize (IH p1 (n0 + 1) Hp1). destruct (foldl _ _ _) as [n p'].
    destruct IH as (? & Hn' & Hsub & Hall & Hlog). rewrite Eo, length_app in Hn'. simpl in Hn'. split_and!; [done|lia| | |].
    + intros o Ho. apply Hsub. rewrite Eo. set_solver.
    + intros o Ho. apply Hall in Ho. rewrite Eo in Ho. set_solver.
    + intros k. rewrite Hlog, El. set_solver.
Qed.

Lemma ingest_ops_known ops p n0 : (∀ o, o ∈ ops → op_id o ∈ log p) →
  foldl (λ '(applied, p) op, let '(n, p) := ingest_op op p in (applied + n, p)) (n0, p) ops = (n0, p).
Proof.
  revert n0. induction ops as [|op ops IH]; intros n0 Hk; simpl; [done|].
  destruct (ingest_op_spec op p) as [[_ ->]|[Hn _]]; [|exfalso; apply Hn, Hk; by left]. rewrite Z.add_0_r. apply IH. set_solver.
Qed.

Lemma ingest_inv sync p : plane_inv p → plane_inv (ingest sync p).2.
Proof.
  intros Hp. unfold ingest, ingest_ops. cbn zeta. match goal with |- context [(0, ?q)] => set (p1 := q) end.
  assert (Hp1 : plane_inv p1).
  { subst p1. generalize (frontier sync). intros es. revert p Hp. induction es as [|e es IH]; intros p Hp; [done|]. simpl. by apply IH, inv_seen. }
  clearbody p1. pose proof (ingest_ops_spec (cs_ops sync) p1 0 Hp1) as H. destruct (foldl _ _ _) as [n p']. apply H.
Qed.

(** *** Minting *)

Lemma mint_loop_free fuel w next n next' : mint_loop fuel w next = Some (n, next') → w !! n = None.
Proof.
  revert next. induction fuel as [|fuel IH]; intros next; simpl; [done|]. destruct (bool_decide _) eqn:Eb; [apply IH|].
  intros [= <- _]. apply bool_decide_eq_false in Eb. by apply eq_None_not_Some.
Qed.
Lemma mint_loop_None fuel w next i : is_u64 next → mint_loop fuel w next = None → (i < fuel)%nat → is_Some (w !! u64 (next + Z.of_nat i)).
Proof.
  revert next i. induction fuel as [|fuel IH]; intros next i Hn Hm Hi; [lia|]. simpl in Hm. destruct (bool_decide _) eqn:Eb; [|done].
  destruct i as [|i]; [rewrite Z.add_0_r, u64_small by done; by apply bool_decide_eq_true in Eb|].
  specialize (IH (u64 (next + 1)) i (u64_range _) Hm ltac:(lia)). revert IH. unfold u64. rewrite Zplus_mod_idemp_l.
  by replace (next + 1 + Z.of_nat i) with (next + Z.of_nat (S i)) by lia.
Qed.

(** Minting always ends, as long as there are node ids left. *)
Lemma mint_family_node_ends p : is_u64 (next_family_node p) → Z.of_nat (size (winning p)) < two64 →
  ∃ n p', mint_family_node p = Some (n, p') ∧ winning p !! n = None.
Proof.
  intros Hu Hs. unfold mint_family_node. destruct (mint_loop _ _ _) as [[n next]|] eqn:Em; [by eexists _, _; split; [|eapply mint_loop_free]|].
  exfalso. set (f i := u64 (next_family_node p + Z.of_nat i)).
  assert (Hnd : NoDup (f <$> seq 0 (S (size (winning p))))).
  { apply NoDup_fmap_2_strong; [|apply NoDup_seq]. intros i j [_ Hi]%elem_of_seq [_ Hj]%elem_of_seq He. unfold f, u64, two64 in *.
    assert (H : (Z.of_nat i - Z.of_nat j) mod 18446744073709551616 = 0); [|].
    { replace (Z.of_nat i - Z.of_nat j) with ((next_family_node p + Z.of_nat i) - (next_family_node p + Z.of_nat j)) by lia.
      rewrite Zminus_mod, He, Z.sub_diag. done. }
    apply Z.mod_divide in H as [k Hk]; [|done]. nia. }
  assert (Hsub : list_to_set (f <$> seq 0 (S (size (winning p)))) ⊆ dom (winning p)).
  { intros n (i & -> & [_ Hi]%elem_of_seq)%elem_of_list_to_set%list_elem_of_fmap. apply elem_of_dom. by apply (mint_loop_None _ _ _ _ Hu Em). }
  apply subseteq_size in Hsub. rewrite size_list_to_set, length_fmap, length_seq, size_dom in Hsub by done. lia.
Qed.

(** *** Local writes *)

Lemma update_winning_known op p : plane_inv p → op_id op ∈ log p → update_winning op p = p.
Proof.
  intros Hp (o & Ho & Hid)%(inv_log p Hp). pose proof (inv_wins p Hp (co_node op)) as Hw. unfold update_winning.
  assert (Hn : co_node o = co_node op) by (unfold op_id in Hid; congruence).
  assert (Hs : op_stamp o = op_stamp op) by (unfold op_id, op_stamp in *; congruence).
  destruct (winning p !! co_node op) as [w|]; simpl in Hw; [|by apply Hw in Ho].
  destruct Hw as (_ & _ & Hmax). specialize (Hmax o Ho Hn). rewrite Hs in Hmax. unfold op_stamp in Hmax.
  by rewrite (proj2 (stamp_gtb_le _ _) Hmax).
Qed.

(** The end of [family_set_lww]: [p1] is the plane once the node is known. *)
Definition write_op (op : CrdtOp) (p1 : CrdtPlaneRuntime) : CrdtPlaneRuntime :=
  let p2 := if bool_decide (op_id op ∈ log p1) then p1 else with_log p1 ({[ op_id op ]} ∪ log p1) (ops_log p1 ++ [op]) in
  update_winning op (with_seen p2 (frontier_observe (pl_frontier p2) (w_peer (co_stamp op)) (op_stamp op)) ({[ w_peer (co_stamp op) ]} ∪ pl_membership p2)).

Lemma write_op_inv op p p1 : plane_inv p → log p1 = log p → ops_log p1 = ops_log p → winning p1 = winning p →
  pl_frontier p1 = pl_frontier p → pl_membership p1 = pl_membership p →
  (op_id op ∈ log p → node_to_key p1 = node_to_key p ∧ key_to_node p1 = key_to_node p) →
  keys_record op (node_to_key p) (node_to_key p1) (key_to_node p) (key_to_node p1) → plane_inv (write_op op p1).
Proof.
  intros Hp El Eo Ew Ef Em Hold Hk. unfold write_op. rewrite El. destruct (decide (op_id op ∈ log p)) as [Hin|Hn].
  - destruct (Hold Hin) as [En Ek]. rewrite bool_decide_eq_true_2 by done. cbn zeta.
    assert (Hp1 : plane_inv p1) by by apply (inv_ext p). rewrite update_winning_known; [by apply inv_seen|by apply inv_seen|].
    simpl. by rewrite El.
  - rewrite bool_decide_eq_false_2 by done. cbn zeta. match goal with |- plane_inv (update_winning _ ?q) => set (p2 := q) end.
    apply (recorded_inv op p); [done..|]. destruct (update_winning_others op p2) as (E1 & E2 & E3 & E4 & E5 & E6 & _). unfold recorded.
    rewrite E1, E2, E3, E4, E5, E6. subst p2. simpl. rewrite Eo, Ef, Em. split_and!; try done.
    intros n. rewrite update_winning_lookup. simpl. by rewrite Ew.
Qed.

Lemma family_set_inv ns suffix v now p : plane_inv p → plane_inv (family_set_lww ns suffix v now p).2.
Proof.
  intros Hp. unfold family_set_lww. destruct (key_create _) as [key|]; [|done].
  destruct (key_to_node p !! path key) as [node|] eqn:Ek.
  - destruct (hlc_tick _ _) as [[wt lg pr] h]. set (op := mkCrdtOp node (Some key) (mkWire wt lg pr) (ValueInline [if v then 1 else 0])).
    apply (write_op_inv op p (with_clock p h)); try done. red. simpl. split; [right|by right]. split; [done|].
    destruct (inv_key_node p Hp _ _ Ek) as (o & key' & Ho & <- & Hkey & _). by apply (inv_keyed p Hp o key').
  - unfold mint_family_node. destruct (mint_loop _ _ _) as [[node next]|] eqn:Em; [|done]. apply mint_loop_free in Em. cbn zeta.
    set (p0 := with_keys _ _ _). set (p1 := bump_family_epoch _). destruct (hlc_tick _ _) as [[wt lg pr] h].
    set (op := mkCrdtOp node (Some key) (mkWire wt lg pr) (ValueInline [if v then 1 else 0])).
    assert (Hfree : op_id op ∉ log p).
    { intros (o & Ho & Hid)%(inv_log p Hp). pose proof (inv_wins p Hp node) as Hw. rewrite Em in Hw. apply Hw in Ho.
      apply Ho. by injection Hid. }
    assert (E : log p1 = log p ∧ ops_log p1 = ops_log p ∧ winning p1 = winning p ∧ pl_frontier p1 = pl_frontier p ∧
      pl_membership p1 = pl_membership p ∧ node_to_key p1 = <[node := path key]> (node_to_key p) ∧ key_to_node p1 = <[path key := node]> (key_to_node p)).
    { subst p1 p0. unfold record_family_member. destruct (bool_decide (path key ∈ _)); by split_and!. }
    clearbody p1. destruct E as (?&?&?&?&?&En&Ekn).
    apply (write_op_inv op p (with_clock p1 h)); try done. red. simpl. by split; left.
Qed.

(** *** Histories *)

Inductive PlaneEvent := EvIngest (sync : CrdtSync) | EvRegister (ns : list Z) | EvSet (ns suffix : list Z) (v : bool) (now : Z).
Definition plane_step (p : CrdtPlaneRuntime) (e : PlaneEvent) : CrdtPlaneRuntime :=
  match e with
  | EvIngest sync => (ingest sync p).2
  | EvRegister ns => register_family_lww ns p
  | EvSet ns suffix v now => (family_set_lww ns suffix v now p).2
  end.
Definition plane_run (peer : Z) (es : list PlaneEvent) : CrdtPlaneRuntime := foldl plane_step (new_plane peer) es.

Lemma plane_run_inv peer es : plane_inv (plane_run peer es).
Proof.
  unfold plane_run. induction es as [|e es IH] using rev_ind; [apply new_plane_inv|]. rewrite foldl_snoc.
  destruct e as [sync|ns|ns suffix v now]; simpl; [by apply ingest_inv|by eapply inv_ext, IH|by apply family_set_inv].
Qed.

(** *** Convergence *)

(** Two planes with the same operations have the same winners, and the same
    keys for them where a node has one key. *)
Definition one_key (ops : list CrdtOp) : Prop :=
  ∀ o o' k k', o ∈ ops → o' ∈ ops → co_node o = co_node o' → co_key o = Some k → co_key o' = Some k' → k = k'.

Lemma same_ops_converge p q : plane_inv p → plane_inv q → (∀ o, o ∈ ops_log p ↔ o ∈ ops_log q) → one_key (ops_log p) →
  winning p = winning q ∧ node_to_key p = node_to_key q ∧ converged p = converged q.
Proof.
  intros Hp Hq Heq H1. assert (Hd : distinct (ops_log p ++ ops_log q)).
  { intros o o' Ho Ho'. apply (inv_distinct p Hp); set_solver. }
  assert (Hw : winning p = winning q).
  { apply map_eq. intros n. eapply wins_unique; [exact Hd|exact Heq|by apply inv_wins|by apply inv_wins]. }
  assert (Hk : node_to_key p = node_to_key q).
  { apply map_eq. intros n. destruct (node_to_key p !! n) as [k|] eqn:Ep.
    - destruct (inv_node_key p Hp _ _ Ep) as (o & key & Ho & <- & Hkey & <-). apply Heq in Ho as Hoq.
      destruct (inv_keyed q Hq _ _ Hoq Hkey) as [k' Hk']. rewrite Hk'.
      destruct (inv_node_key q Hq _ _ Hk') as (o' & key' & Ho' & Hn' & Hkey' & <-). do 2 f_equal. by apply (H1 o o'); [|apply Heq| | |].
    - destruct (node_to_key q !! n) as [k|] eqn:Eq; [|done]. exfalso.
      destruct (inv_node_key q Hq _ _ Eq) as (o & key & Ho & <- & Hkey & <-). apply Heq in Ho.
      destruct (inv_keyed p Hp _ _ Ho Hkey) as [? ?]. congruence. }
  split_and!; [done|done|]. unfold converged, nodes. by rewrite Hw, Hk.
Qed.

Lemma distinct_forall ops : Forall (λ o, Forall (λ o', op_id o = op_id o' → o = o') ops) ops → distinct ops.
Proof. intros H o o' Ho Ho'. rewrite Forall_forall in H. specialize (H o Ho). rewrite Forall_forall in H. by apply H. Qed.
Lemma one_key_forall ops :
  Forall (λ o, Forall (λ o', ∀ k k', co_node o = co_node o' → co_key o = Some k → co_key o' = Some k' → k = k') ops) ops → one_key ops.
Proof. intros H o o' k k' Ho Ho'. rewrite Forall_forall in H. specialize (H o Ho). rewrite Forall_forall in H. by apply H. Qed.

(** After taking in the operations of [q], [p] has the operations of both. *)
Lemma ingest_ops_union p q : plane_inv p → plane_inv q → distinct (ops_log p ++ ops_log q) →
  let '(n, p') := ingest_ops (ops_log q) p in
  plane_inv p' ∧ n = Z.of_nat (length (ops_log p')) - Z.of_nat (length (ops_log p)) ∧
  (∀ o, o ∈ ops_log p' ↔ o ∈ ops_log p ∨ o ∈ ops_log q) ∧ ingest_ops (ops_log q) p' = (0, p').
Proof.
  intros Hp Hq Hd. unfold ingest_ops at 1. pose proof (ingest_ops_spec (ops_log q) p 0 Hp) as H.
  destruct (foldl _ _ _) as [n p']. destruct H as (Hp' & Hn & Hsub & Hall & Hlog). split_and!; [done|lia| |].
  - intros o. split; [apply Hall|]. intros [Ho|Ho]; [by apply Hsub|].
    assert (Hin : op_id o ∈ log p') by (apply Hlog; right; by exists o). apply (inv_log p' Hp') in Hin as (o' & Ho' & He).
    assert (o' = o) as <-; [|done]. apply Hd; [apply elem_of_app; by apply Hall|set_solver|done].
  - apply ingest_ops_known. intros o Ho. apply Hlog. right. by exists o.
Qed.

(** C16: Two replicas, after any histories of frames, registrations and local
    writes, exchange their operations.  Unless different operations share a
    node and a stamp, or a node has two keys, both then show the same nodes,
    keys and values; on each the winner of a node is the operation with the
    greatest stamp of all either has seen; what is reported as applied is the
    number of operations that are new; and a second exchange applies nothing
    and changes nothing. *)
Theorem planes_converge (peer1 peer2 : Z) (es1 es2 : list PlaneEvent) :
  let p := plane_run peer1 es1 in let q := plane_run peer2 es2 in
  distinct (ops_log p ++ ops_log q) → one_key (ops_log p ++ ops_log q) →
  let '(n, p') := ingest_ops (ops_log q) p in let '(m, q') := ingest_ops (ops_log p) q in
  converged p' = converged q' ∧ winning p' = winning q' ∧
  (∀ node, wins node (winning p' !! node) (ops_log p ++ ops_log q)) ∧
  n = Z.of_nat (length (ops_log p')) - Z.of_nat (length (ops_log p)) ∧ NoDup (op_id <$> ops_log p') ∧
  (∀ o, o ∈ ops_log p' ↔ o ∈ ops_log p ∨ o ∈ ops_log q) ∧
  ingest_ops (ops_log q) p' = (0, p') ∧ ingest_ops (ops_log p) q' = (0, q').
Proof.
  intros p q Hd Hk. pose proof (plane_run_inv peer1 es1 : plane_inv p) as Hp. pose proof (plane_run_inv peer2 es2 : plane_inv q) as Hq.
  pose proof (ingest_ops_union p q Hp Hq Hd) as H1. assert (Hd' : distinct (ops_log q ++ ops_log p)) by (intros o o' Ho Ho'; apply Hd; set_solver).
  pose proof (ingest_ops_union q p Hq Hp Hd') as H2. destruct (ingest_ops (ops_log q) p) as [n p'], (ingest_ops (ops_log p) q) as [m q'].
  destruct H1 as (Hp' & Hn & Hall & Hagain), H2 as (Hq' & _ & Hall' & Hagain').
  assert (Heq : ∀ o, o ∈ ops_log p' ↔ o ∈ ops_log q') by (intros o; rewrite Hall, Hall'; tauto).
  assert (Hkey : one_key (ops_log p')) by (intros o o' k k' Ho%Hall Ho'%Hall; apply Hk; by apply elem_of_app).
  destruct (same_ops_converge p' q' Hp' Hq' Heq Hkey) as (Hw & _ & Hc). split_and!; try done; [|by apply inv_nodup].
  intros node. pose proof (inv_wins p' Hp' node) as H. destruct (winning p' !! node) as [w|]; simpl in *.
  - destruct H as (Hin & Hnode & Hmax). split_and!; [apply elem_of_app; by apply Hall|done|].
    intros o Ho%elem_of_app%Hall. by apply Hmax.
  - intros o Ho%elem_of_app%Hall. by apply H.
Qed.

(** *** Families *)

Lemma update_winning_family op p ns :
  family_keys ns (update_winning op p) = family_keys ns p ∧ membership_epoch (update_winning op p) = membership_epoch p.
Proof. unfold update_winning. destruct (winning p !! co_node op) as [w|]; [destruct (stamp_gtb _ _)|]; by split. Qed.

Lemma family_keys_insert p fs m ns l : family_keys ns (with_families p fs (<[ns := l]> m)) = l.
Proof. unfold family_keys. simpl. by rewrite lookup_insert_eq. Qed.

(** A keyed operation for a registered family makes the key a member, once. *)
Lemma family_materializes op key ns rest p : co_key op = Some key → key_segments key = ns :: rest → ns ∈ families p → op_id op ∉ log p →
  NoDup (family_keys ns p) →
  let p' := (ingest_op op p).2 in let known := bool_decide (path key ∈ family_keys ns p) in
  family_keys ns p' = (if known then family_keys ns p else family_keys ns p ++ [path key]) ∧
  NoDup (family_keys ns p') ∧
  membership_epoch p' = (if known then membership_epoch p else u64 (membership_epoch p + 1)).
Proof.
  intros Hk Hs Hf Hn Hnd. unfold ingest_op. change (co_node op, co_stamp op) with (op_id op).
  rewrite bool_decide_eq_false_2 by done. cbn [fst snd]. rewrite Hk, Hs. cbn [with_keys with_seen with_log families].
  rewrite bool_decide_eq_true_2 by done. unfold record_family_member. cbn [with_keys with_seen with_log family_members].
  change (default [] (family_members p !! ns)) with (family_keys ns p).
  match goal with |- context [update_winning op ?r] => destruct (update_winning_family op r ns) as [-> ->] end.
  destruct (decide (path key ∈ family_keys ns p)) as [Hin|Hout].
  - rewrite !bool_decide_eq_true_2 by done. rewrite family_keys_insert. by split_and!.
  - rewrite !bool_decide_eq_false_2 by done.
    match goal with |- context [bump_family_epoch ?r] => change (family_keys ns (bump_family_epoch r)) with (family_keys ns r) end.
    rewrite family_keys_insert. split_and!; [done| |done].
    apply NoDup_app. split_and!; [done| |apply NoDup_singleton]. intros k Hk' ->%list_elem_of_singleton. done.
Qed.

(** *** What goes wrong *)

(** Two replicas mint the same node for different keys of a family: the
    operation of one lands in the register of the other's key. *)
Lemma minted_nodes_collide :
  let a := plane_run 1 [EvSet (bytes_of "f") (bytes_of "a") false 20] in
  let b := plane_run 2 [EvRegister (bytes_of "f"); EvSet (bytes_of "f") (bytes_of "b") true 10] in
  let b' := (ingest_ops (ops_log a) b).2 in
  family_value_lww (bytes_of "f") (bytes_of "b") b = Some true ∧
  family_value_lww (bytes_of "f") (bytes_of "b") b' = Some false ∧
  (co_key <$> winning b' !! kFamilyNodeBase) = Some (key_create (bytes_of "f/a")).
Proof. by vm_compute. Qed.

(** The clock is not moved by what arrives, so a local write after a stamp from
    the future is logged and shipped, and the entry keeps its old value. *)
Lemma write_behind_the_frontier_is_lost :
  let a := plane_run 1 [EvSet (bytes_of "f") (bytes_of "a") false 100] in
  let b := plane_step (ingest_ops (ops_log a) (plane_run 2 [EvRegister (bytes_of "f")])).2 (EvSet (bytes_of "f") (bytes_of "a") true 50) in
  length (ops_log b) = 2%nat ∧ family_value_lww (bytes_of "f") (bytes_of "a") b = Some false.
Proof. by vm_compute. Qed.

Module Sample.
Definition op node (w l peer : Z) (v : Z) : CrdtOp := mkCrdtOp node None (mkWire w l peer) (ValueInline [v]).
Definition events1 : list PlaneEvent :=
  [EvIngest (mkCrdtSync [mkFrontierEntry 3 (mkWire 9 0 3)] [op 1 5 0 3 10; op 2 5 1 3 20]); EvSet (bytes_of "f") (bytes_of "a") true 7].
Definition events2 : list PlaneEvent :=
  [EvRegister (bytes_of "f"); EvIngest (mkCrdtSync [] [op 1 8 0 4 11; op 2 5 1 3 20; op 1 8 0 4 11])].

Lemma planes_converge_witness :
  let p := plane_run 1 events1 in let q := plane_run 2 events2 in
  let r := ingest_ops (ops_log q) p in let r' := ingest_ops (ops_log p) q in
  converged r.2 = converged r'.2 ∧ r.1 = 1 ∧ r'.1 = 2 ∧ plane_value 1 r.2 = Some (ValueInline [11]) ∧
  family_value_lww (bytes_of "f") (bytes_of "a") r'.2 = Some true ∧ family_keys (bytes_of "f") r'.2 = [bytes_of "f/a"].
Proof.
  assert (H1 : distinct (ops_log (plane_run 1 events1) ++ ops_log (plane_run 2 events2))).
  { apply distinct_forall. vm_compute. repeat constructor; intros He; first [reflexivity|discriminate He]. }
  assert (H2 : one_key (ops_log (plane_run 1 events1) ++ ops_log (plane_run 2 events2))).
  { apply one_key_forall. vm_compute. repeat constructor; intros k k' He Hk Hk'; congruence. }
  pose proof (planes_converge 1 2 events1 events2 H1 H2) as H. cbn zeta in H |- *.
  destruct (ingest_ops (ops_log (plane_run 2 events2)) (plane_run 1 events1)) as [n p'] eqn:E1.
  destruct (ingest_ops (ops_log (plane_run 1 events1)) (plane_run 2 events2)) as [m q'] eqn:E2.
  split; [apply H|]. rewrite <- E1, <- E2. clear. split_and!; vm_compute; reflexivity.
Defined.
End Sample.
