(* ===== verification/Relay.v ===== *)
(** * Relay: the conflating relay

    Models include/lazily/relay.hpp: the relay that merges what comes in into a
    window and bounds it by a policy whose parts are sources, the paged spill
    store, the transports, the two roles, the extra policies and the keyed
    relay.  The sources of a relay have several types, so the relay is proved
    over a context whose sources hold [RelayValue]; a computed reader is its
    formula, which is what the engine answers
    ([KernelCorrect.engine_refines_recomputation]). *)
From S2P Require Import Prelude Kernel KernelCorrect Reactive Merge.
#[local] Open Scope Z_scope.

(** ** Data *)

(* include/lazily/relay.hpp:43-43, BoundDim *)
Inductive BoundDim := Count | Bytes | Keys | Age.
(* include/lazily/relay.hpp:46-57, Overflow *)
Inductive Overflow := Block | DropNewest | DropOldest | Conflate | Spill.
#[export] Instance Overflow_eq_dec : EqDecision Overflow.
Proof. solve_decision. Defined.
(* include/lazily/relay.hpp:60-63, RelayConfigError *)
Inductive RelayConfigError := ConflateNotBounding.
(* include/lazily/relay.hpp:74-83, IngressOutcome *)
Inductive IngressOutcome := Accepted | Conflated | Dropped | Blocked.
#[export] Instance IngressOutcome_eq_dec : EqDecision IngressOutcome.
Proof. solve_decision. Defined.

(** What the sources of a relay hold. *)
Inductive RelayValue (T : Type) := VHead (v : option T) | VNum (n : Z) | VDim (d : BoundDim) | VOverflow (o : Overflow).
Arguments VHead {T} _.
Arguments VNum {T} _.
Arguments VDim {T} _.
Arguments VOverflow {T} _.

(** ** The relay *)
Section relay.
  Context {C H T : Type} `{SourceContext C H (RelayValue T)} `{MergePolicy T}.

Definition get_head (h : H) (c : C) : option (option T) := match ctx_get h c with Some (VHead v) => Some v | _ => None end.
Definition get_num (h : H) (c : C) : option Z := match ctx_get h c with Some (VNum n) => Some n | _ => None end.
Definition get_overflow (h : H) (c : C) : option Overflow := match ctx_get h c with Some (VOverflow o) => Some o | _ => None end.

(* include/lazily/relay.hpp:89-92, BackpressurePolicy *)
Record BackpressurePolicy := mkPolicy { dimension : H; high_water : H; low_water : H; overflow : H }.
(* include/lazily/relay.hpp:94-97, BackpressurePolicy::BackpressurePolicy *)
Definition new_policy (d : BoundDim) (hw lw : Z) (o : Overflow) (c : C) : option (BackpressurePolicy * C) :=
  '(hd, c) ← ctx_source (VDim d) c; '(hh, c) ← ctx_source (VNum hw) c; '(hl, c) ← ctx_source (VNum lw) c;
  '(ho, c) ← ctx_source (VOverflow o) c; Some (mkPolicy hd hh hl ho, c).

(* include/lazily/relay.hpp:200-206, RelayCell (data members) *)
Record RelayCell := mkRelay {
  policy_ : BackpressurePolicy; head_ : H; pending_ : H;
  depth_ : C → option Z; is_full_ : C → option bool; is_empty_ : C → option bool }.

(** The constructor throws, or makes the two sources and the three readers. *)
(* include/lazily/relay.hpp:109-123, RelayCell::RelayCell *)
Definition relay_new (policy : BackpressurePolicy) (c : C) : option ((RelayConfigError + RelayCell) * C) :=
  o ← get_overflow (overflow policy) c;
  if bool_decide (o = Conflate) && negb conflates then Some (inl ConflateNotBounding, c) else
  '(head, c) ← ctx_source (VHead None) c;
  '(pending, c) ← ctx_source (VNum 0) c;
  let depth c := get_num pending c in
  let is_full c := d ← depth c; hw ← get_num (high_water policy) c; Some (hw <=? d) in
  let is_empty c := v ← get_head head c; Some (bool_decide (v = None)) in
  Some (inr (mkRelay policy head pending depth is_full is_empty), c).

(* include/lazily/relay.hpp:127-129, RelayCell::overflow_is_legal *)
Definition overflow_is_legal (cell : RelayCell) (c : C) : option bool :=
  o ← get_overflow (overflow (policy_ cell)) c; Some (negb (bool_decide (o = Conflate)) || conflates).
(* include/lazily/relay.hpp:139-139, RelayCell::depth_value *)
Definition depth_value (cell : RelayCell) (c : C) : option Z := depth_ cell c.
(* include/lazily/relay.hpp:141-141, RelayCell::is_full_value *)
Definition is_full_value (cell : RelayCell) (c : C) : option bool := is_full_ cell c.
(* include/lazily/relay.hpp:143-143, RelayCell::is_empty_value *)
Definition is_empty_value (cell : RelayCell) (c : C) : option bool := is_empty_ cell c.

(* include/lazily/relay.hpp:191-191, RelayCell::read_full *)
Definition read_full (cell : RelayCell) (c : C) : option bool :=
  p ← get_num (pending_ cell) c; hw ← get_num (high_water (policy_ cell)) c; Some (hw <=? p).

(* include/lazily/relay.hpp:193-198, RelayCell::merge_into_head *)
Definition merge_into_head (cell : RelayCell) (op : T) (c : C) : option C :=
  cur ← get_head (head_ cell) c;
  let next := match cur with Some v => merge v op | None => op end in
  ctx_set (head_ cell) (VHead (Some next)) c.

(* include/lazily/relay.hpp:147-173, RelayCell::ingress *)
Definition relay_ingress (cell : RelayCell) (op : T) (c : C) : option (IngressOutcome * C) :=
  p ← get_num (pending_ cell) c;
  let was_empty := p =? 0 in
  let merging :=
    c ← merge_into_head cell op c;
    p ← get_num (pending_ cell) c;
    c ← ctx_set (pending_ cell) (VNum (u64 (p + 1))) c;
    Some (if was_empty then Accepted else Conflated, c) in
  full ← read_full cell c;
  if (full : bool) then
    o ← get_overflow (overflow (policy_ cell)) c;
    match o with
    | Block => Some (Blocked, c)
    | DropNewest => Some (Dropped, c)
    | DropOldest =>
        c ← ctx_set (head_ cell) (VHead (Some op)) c;
        c ← ctx_set (pending_ cell) (VNum 1) c;
        Some (Dropped, c)
    | Conflate | Spill => merging
    end
  else merging.

(* include/lazily/relay.hpp:178-185, RelayCell::drain *)
Definition relay_drain (cell : RelayCell) (c : C) : option (option T * C) :=
  cur ← get_head (head_ cell) c;
  match cur with
  | Some v => c ← ctx_set (head_ cell) (VHead None) c; c ← ctx_set (pending_ cell) (VNum 0) c; Some (Some v, c)
  | None => Some (None, c)
  end.

(* include/lazily/relay.hpp:188-188, RelayCell::peek *)
Definition relay_peek (cell : RelayCell) (c : C) : option (option T) := get_head (head_ cell) c.

(** *** What it promises: a window of operations *)

Record Window := mkWindow { w_ops : list T; w_dim : BoundDim; w_high : Z; w_low : Z; w_overflow : Overflow }.

Definition summary (ops : list T) : option T := match ops with [] => None | x :: l => Some (fold_merge x l) end.

Inductive RelayEvent :=
  | RIngress (op : T) | RDrain | RDimension (d : BoundDim) | RHigh (n : Z) | RLow (n : Z) | ROverflow (o : Overflow).
Inductive RelayAnswer := AOutcome (o : IngressOutcome) | ADrained (v : option T) | ATuned.

Definition with_ops (w : Window) (ops : list T) : Window := mkWindow ops (w_dim w) (w_high w) (w_low w) (w_overflow w).
Definition window_step (w : Window) (e : RelayEvent) : RelayAnswer * Window :=
  match e with
  | RIngress op =>
      let joined := (AOutcome (if bool_decide (w_ops w = []) then Accepted else Conflated), with_ops w (w_ops w ++ [op])) in
      if w_high w <=? Z.of_nat (length (w_ops w)) then
        match w_overflow w with
        | Block => (AOutcome Blocked, w)
        | DropNewest => (AOutcome Dropped, w)
        | DropOldest => (AOutcome Dropped, with_ops w [op])
        | Conflate | Spill => joined
        end
      else joined
  | RDrain => (ADrained (summary (w_ops w)), with_ops w [])
  | RDimension d => (ATuned, mkWindow (w_ops w) d (w_high w) (w_low w) (w_overflow w))
  | RHigh n => (ATuned, mkWindow (w_ops w) (w_dim w) n (w_low w) (w_overflow w))
  | RLow n => (ATuned, mkWindow (w_ops w) (w_dim w) (w_high w) n (w_overflow w))
  | ROverflow o => (ATuned, mkWindow (w_ops w) (w_dim w) (w_high w) (w_low w) o)
  end.

Definition relay_step (cell : RelayCell) (e : RelayEvent) (c : C) : option (RelayAnswer * C) :=
  match e with
  | RIngress op => '(o, c) ← relay_ingress cell op c; Some (AOutcome o, c)
  | RDrain => '(v, c) ← relay_drain cell c; Some (ADrained v, c)
  | RDimension d => c ← ctx_set (dimension (policy_ cell)) (VDim d) c; Some (ATuned, c)
  | RHigh n => c ← ctx_set (high_water (policy_ cell)) (VNum n) c; Some (ATuned, c)
  | RLow n => c ← ctx_set (low_water (policy_ cell)) (VNum n) c; Some (ATuned, c)
  | ROverflow o => c ← ctx_set (overflow (policy_ cell)) (VOverflow o) c; Some (ATuned, c)
  end.
Fixpoint relay_run (cell : RelayCell) (es : list RelayEvent) (c : C) : option (list RelayAnswer * C) :=
  match es with
  | [] => Some ([], c)
  | e :: es => '(a, c) ← relay_step cell e c; '(l, c) ← relay_run cell es c; Some (a :: l, c)
  end.

Definition relay_handles (cell : RelayCell) : list H :=
  [dimension (policy_ cell); high_water (policy_ cell); low_water (policy_ cell); overflow (policy_ cell); head_ cell; pending_ cell].

(** What the six sources of the relay hold, and when that is the window. *)
Record relay_at (c : C) (cell : RelayCell) (d : BoundDim) (hw lw : Z) (o : Overflow) (v : option T) (n : Z) : Prop := {
  rh_dim : holds c (dimension (policy_ cell)) (VDim d);
  rh_high : holds c (high_water (policy_ cell)) (VNum hw);
  rh_low : holds c (low_water (policy_ cell)) (VNum lw);
  rh_overflow : holds c (overflow (policy_ cell)) (VOverflow o);
  rh_head : holds c (head_ cell) (VHead v);
  rh_pending : holds c (pending_ cell) (VNum n) }.
Definition relay_holds (c : C) (cell : RelayCell) (w : Window) : Prop :=
  relay_at c cell (w_dim w) (w_high w) (w_low w) (w_overflow w) (summary (w_ops w)) (Z.of_nat (length (w_ops w))).
(** The sources are distinct and the readers are the formulas of the constructor. *)
Record relay_shape (cell : RelayCell) : Prop := {
  rs_distinct : NoDup (relay_handles cell);
  rs_depth : ∀ c, depth_ cell c = get_num (pending_ cell) c;
  rs_full : ∀ c, is_full_ cell c = read_full cell c;
  rs_empty : ∀ c, is_empty_ cell c = (v ← get_head (head_ cell) c; Some (bool_decide (v = None))) }.


Context `{!SourceContextLaws C H (RelayValue T)}.

Definition frames (hs : list H) (c c' : C) : Prop := ∀ h v, h ∉ hs → holds c h v → holds c' h v.
Lemma frames_trans hs c1 c2 c3 : frames hs c1 c2 → frames hs c2 c3 → frames hs c1 c3.
Proof. unfold frames. auto. Qed.

Lemma get_head_ok c h v : holds c h (VHead v) → get_head h c = Some v.
Proof. intros Hh. unfold get_head. by rewrite (ctx_get_ok _ _ _ Hh). Qed.
Lemma get_num_ok c h n : holds c h (VNum n) → get_num h c = Some n.
Proof. intros Hh. unfold get_num. by rewrite (ctx_get_ok _ _ _ Hh). Qed.
Lemma get_overflow_ok c h o : holds c h (VOverflow o) → get_overflow h c = Some o.
Proof. intros Hh. unfold get_overflow. by rewrite (ctx_get_ok _ _ _ Hh). Qed.

(** Setting one of the six sources. *)
Ltac set_one c Hok Hat hd v0 v :=
  let H1 := fresh in let H2 := fresh in let H3 := fresh in let H4 := fresh in let H5 := fresh in let H6 := fresh in
  let E := fresh in let Hh := fresh in let Ho := fresh in let Hok' := fresh in let c' := fresh "c" in
  destruct Hat as [H1 H2 H3 H4 H5 H6];
  destruct (ctx_set_ok c hd v v0 Hok ltac:(assumption)) as (c' & E & Hok' & Hh & Ho);
  exists c'; split_and!; [exact E|exact Hok'| |];
  [split; first [exact Hh | (apply Ho; [congruence|assumption])]
  |let h := fresh in let Hn := fresh in let Hu := fresh in intros h ? Hn Hu; apply Ho; [|done]; intros ->; apply Hn; unfold relay_handles; set_solver].
Lemma relay_distinct cell : relay_shape cell →
  let p := policy_ cell in
  (dimension p ≠ high_water p ∧ dimension p ≠ low_water p ∧ dimension p ≠ overflow p ∧ dimension p ≠ head_ cell ∧ dimension p ≠ pending_ cell) ∧
  (high_water p ≠ low_water p ∧ high_water p ≠ overflow p ∧ high_water p ≠ head_ cell ∧ high_water p ≠ pending_ cell) ∧
  (low_water p ≠ overflow p ∧ low_water p ≠ head_ cell ∧ low_water p ≠ pending_ cell) ∧
  (overflow p ≠ head_ cell ∧ overflow p ≠ pending_ cell) ∧ head_ cell ≠ pending_ cell.
Proof.
  intros [Hnd _ _ _]. unfold relay_handles in Hnd. rewrite !NoDup_cons, !not_elem_of_cons in Hnd. naive_solver.
Qed.

Lemma set_head c cell d hw lw o v n v' : relay_shape cell → ctx_ok c → relay_at c cell d hw lw o v n →
  ∃ c', ctx_set (head_ cell) (VHead v') c = Some c' ∧ ctx_ok c' ∧ relay_at c' cell d hw lw o v' n ∧ frames (relay_handles cell) c c'.
Proof. intros Hs Hok Hat. pose proof (relay_distinct cell Hs) as Hd. cbn zeta in Hd. destruct_and! Hd. set_one c Hok Hat (head_ cell) (VHead v) (VHead v'). Qed.
Lemma set_pending c cell d hw lw o v n n' : relay_shape cell → ctx_ok c → relay_at c cell d hw lw o v n →
  ∃ c', ctx_set (pending_ cell) (VNum n') c = Some c' ∧ ctx_ok c' ∧ relay_at c' cell d hw lw o v n' ∧ frames (relay_handles cell) c c'.
Proof. intros Hs Hok Hat. pose proof (relay_distinct cell Hs) as Hd. cbn zeta in Hd. destruct_and! Hd. set_one c Hok Hat (pending_ cell) (VNum (T:=T) n) (VNum (T:=T) n'). Qed.
Lemma set_dimension c cell d hw lw o v n d' : relay_shape cell → ctx_ok c → relay_at c cell d hw lw o v n →
  ∃ c', ctx_set (dimension (policy_ cell)) (VDim d') c = Some c' ∧ ctx_ok c' ∧ relay_at c' cell d' hw lw o v n ∧ frames (relay_handles cell) c c'.
Proof. intros Hs Hok Hat. pose proof (relay_distinct cell Hs) as Hd. cbn zeta in Hd. destruct_and! Hd. set_one c Hok Hat (dimension (policy_ cell)) (VDim (T:=T) d) (VDim (T:=T) d'). Qed.
Lemma set_high c cell d hw lw o v n n' : relay_shape cell → ctx_ok c → relay_at c cell d hw lw o v n →
  ∃ c', ctx_set (high_water (policy_ cell)) (VNum n') c = Some c' ∧ ctx_ok c' ∧ relay_at c' cell d n' lw o v n ∧ frames (relay_handles cell) c c'.
Proof. intros Hs Hok Hat. pose proof (relay_distinct cell Hs) as Hd. cbn zeta in Hd. destruct_and! Hd. set_one c Hok Hat (high_water (policy_ cell)) (VNum (T:=T) hw) (VNum (T:=T) n'). Qed.
Lemma set_low c cell d hw lw o v n n' : relay_shape cell → ctx_ok c → relay_at c cell d hw lw o v n →
  ∃ c', ctx_set (low_water (policy_ cell)) (VNum n') c = Some c' ∧ ctx_ok c' ∧ relay_at c' cell d hw n' o v n ∧ frames (relay_handles cell) c c'.
Proof. intros Hs Hok Hat. pose proof (relay_distinct cell Hs) as Hd. cbn zeta in Hd. destruct_and! Hd. set_one c Hok Hat (low_water (policy_ cell)) (VNum (T:=T) lw) (VNum (T:=T) n'). Qed.
Lemma set_overflow c cell d hw lw o v n o' : relay_shape cell → ctx_ok c → relay_at c cell d hw lw o v n →
  ∃ c', ctx_set (overflow (policy_ cell)) (VOverflow o') c = Some c' ∧ ctx_ok c' ∧ relay_at c' cell d hw lw o' v n ∧ frames (relay_handles cell) c c'.
Proof. intros Hs Hok Hat. pose proof (relay_distinct cell Hs) as Hd. cbn zeta in Hd. destruct_and! Hd. set_one c Hok Hat (overflow (policy_ cell)) (VOverflow (T:=T) o) (VOverflow (T:=T) o'). Qed.

Lemma summary_snoc ops op : summary (ops ++ [op]) = Some match summary ops with Some v => merge v op | None => op end.
Proof. destruct ops as [|x l]; simpl; [done|]. unfold fold_merge. by rewrite foldl_app. Qed.

Lemma merging_ok c cell w op : relay_shape cell → ctx_ok c → relay_holds c cell w → Z.of_nat (length (w_ops w)) + 1 < two64 →
  ∃ c1 c2, merge_into_head cell op c = Some c1 ∧ get_num (pending_ cell) c1 = Some (Z.of_nat (length (w_ops w))) ∧
    ctx_set (pending_ cell) (VNum (u64 (Z.of_nat (length (w_ops w)) + 1))) c1 = Some c2 ∧
    ctx_ok c2 ∧ relay_holds c2 cell (with_ops w (w_ops w ++ [op])) ∧ frames (relay_handles cell) c c2.
Proof.
  intros Hs Hok Hat Hl. unfold merge_into_head. rewrite (get_head_ok _ _ _ (rh_head _ _ _ _ _ _ _ _ Hat)). simpl.
  destruct (set_head c cell _ _ _ _ _ _ (Some match summary (w_ops w) with Some v => merge v op | None => op end) Hs Hok Hat) as (c1 & E1 & Hok1 & Hat1 & Hf1).
  destruct (set_pending c1 cell _ _ _ _ _ _ (u64 (Z.of_nat (length (w_ops w)) + 1)) Hs Hok1 Hat1) as (c2 & E2 & Hok2 & Hat2 & Hf2).
  exists c1, c2. split_and!; [exact E1|by apply get_num_ok; destruct Hat1|exact E2|done| |by eapply frames_trans].
  unfold relay_holds. simpl. rewrite summary_snoc, length_app, Nat2Z.inj_add. simpl.
  rewrite u64_small in Hat2 by (unfold is_u64; lia). done.
Qed.

Lemma relay_step_ok c cell w e : relay_shape cell → ctx_ok c → relay_holds c cell w → Z.of_nat (length (w_ops w)) + 1 < two64 →
  ∃ c', relay_step cell e c = Some ((window_step w e).1, c') ∧ ctx_ok c' ∧ relay_holds c' cell (window_step w e).2 ∧
    frames (relay_handles cell) c c'.
Proof.
  intros Hs Hok Hat Hl. destruct e as [op| |d|n|n|o]; simpl.
  - unfold relay_ingress, read_full. pose proof Hat as [Q1 Q2 Q3 Q4 Q5 Q6].
    rewrite (get_num_ok _ _ _ Q6), (get_num_ok _ _ _ Q2), (get_overflow_ok _ _ _ Q4). simpl.
    assert (Hjoin : ∃ c', (c ← merge_into_head cell op c; p ← get_num (pending_ cell) c; c ← ctx_set (pending_ cell) (VNum (u64 (p + 1))) c;
       Some (if Z.of_nat (length (w_ops w)) =? 0 then Accepted else Conflated, c)) =
       Some (if bool_decide (w_ops w = []) then Accepted else Conflated, c') ∧
       ctx_ok c' ∧ relay_holds c' cell (with_ops w (w_ops w ++ [op])) ∧ frames (relay_handles cell) c c').
    { destruct (merging_ok c cell w op Hs Hok Hat Hl) as (c1 & c2 & E1 & E2 & E3 & Hrest). exists c2.
      rewrite E1. simpl. rewrite E2. simpl. rewrite E3. simpl. split; [|done]. by destruct (w_ops w). }
    destruct Hjoin as (c' & E & Hrest). destruct (w_high w <=? _); [destruct (w_overflow w) eqn:Eo|]; simpl.
    + exists c. split_and!; try done. by intros ???.
    + exists c. split_and!; try done. by intros ???.
    + destruct (set_head c cell _ _ _ _ _ _ (Some op) Hs Hok Hat) as (c1 & E1 & Hok1 & Hat1 & Hf1). rewrite E1. simpl.
      destruct (set_pending c1 cell _ _ _ _ _ _ 1 Hs Hok1 Hat1) as (c2 & E2 & Hok2 & Hat2 & Hf2). rewrite E2. simpl.
      exists c2. split_and!; [done|done|done|by eapply frames_trans].
    + exists c'. by rewrite E.
    + exists c'. by rewrite E.
    + exists c'. by rewrite E.
  - unfold relay_drain. rewrite (get_head_ok _ _ _ (rh_head _ _ _ _ _ _ _ _ Hat)). simpl. destruct (summary (w_ops w)) as [v|] eqn:Es.
    + unfold relay_holds in Hat. destruct (set_head c cell _ _ _ _ _ _ None Hs Hok Hat) as (c1 & E1 & Hok1 & Hat1 & Hf1). rewrite E1. simpl.
      destruct (set_pending c1 cell _ _ _ _ _ _ 0 Hs Hok1 Hat1) as (c2 & E2 & Hok2 & Hat2 & Hf2). rewrite E2. simpl.
      exists c2. split_and!; [done|done|done|by eapply frames_trans].
    + assert (Hw : w_ops w = []) by by destruct (w_ops w). exists c. split_and!; [done|done| |by intros ???].
      unfold relay_holds in *. simpl. by rewrite Hw in Hat.
  - destruct (set_dimension c cell _ _ _ _ _ _ d Hs Hok Hat) as (c' & E & Hrest). exists c'. rewrite E. by destruct Hrest as (?&?&?).
  - destruct (set_high c cell _ _ _ _ _ _ n Hs Hok Hat) as (c' & E & Hrest). exists c'. rewrite E. by destruct Hrest as (?&?&?).
  - destruct (set_low c cell _ _ _ _ _ _ n Hs Hok Hat) as (c' & E & Hrest). exists c'. rewrite E. by destruct Hrest as (?&?&?).
  - destruct (set_overflow c cell _ _ _ _ _ _ o Hs Hok Hat) as (c' & E & Hrest). exists c'. rewrite E. by destruct Hrest as (?&?&?).
Qed.

Lemma window_length w e : (length (w_ops (window_step w e).2) ≤ S (length (w_ops w)))%nat.
Proof.
  destruct e; simpl; try lia. destruct (w_high w <=? _); [destruct (w_overflow w)|]; simpl; rewrite ?length_app; simpl; lia.
Qed.

Lemma relay_run_ok es : ∀ c cell w, relay_shape cell → ctx_ok c → relay_holds c cell w →
  Z.of_nat (length (w_ops w)) + Z.of_nat (length es) < two64 →
  ∃ c', relay_run cell es c = Some ((core_run window_step w es).1, c') ∧ ctx_ok c' ∧ relay_holds c' cell (core_run window_step w es).2 ∧
    frames (relay_handles cell) c c'.
Proof.
  induction es as [|e es IH]; intros c cell w Hs Hok Hat Hl; simpl in *; [by exists c; split_and!; [| | |intros ???]|].
  destruct (relay_step_ok c cell w e Hs Hok Hat ltac:(lia)) as (c1 & E1 & Hok1 & Hat1 & Hf1). rewrite E1. simpl.
  pose proof (window_length w e) as Hw. destruct (window_step w e) as [a w1]. simpl in *.
  destruct (IH c1 cell w1 Hs Hok1 Hat1 ltac:(lia)) as (c2 & E2 & Hok2 & Hat2 & Hf2). exists c2. rewrite E2. simpl.
  destruct (core_run window_step w1 es) as [l w2]. split_and!; [done|done|done|by eapply frames_trans].
Qed.

(** *** Construction *)

Definition relay_make (d : BoundDim) (hw lw : Z) (o : Overflow) (c : C) : option ((RelayConfigError + RelayCell) * C) :=
  '(p, c) ← new_policy d hw lw o c; relay_new p c.

Definition legal (o : Overflow) : Prop := o = Conflate → conflates = true.

Lemma relay_make_ok d hw lw o c : ctx_ok c → legal o →
  ∃ cell c', relay_make d hw lw o c = Some (inr cell, c') ∧ ctx_ok c' ∧ relay_shape cell ∧ relay_holds c' cell (mkWindow [] d hw lw o) ∧
    ∀ h v, holds c h v → h ∉ relay_handles cell ∧ holds c' h v.
Proof.
  intros Hok Hlegal. unfold relay_make, new_policy.
  destruct (ctx_source_ok c (VDim d) Hok) as (h1 & c1 & E1 & Hok1 & Q1 & F1). rewrite E1. simpl.
  destruct (ctx_source_ok c1 (VNum hw) Hok1) as (h2 & c2 & E2 & Hok2 & Q2 & F2). rewrite E2. simpl.
  destruct (ctx_source_ok c2 (VNum lw) Hok2) as (h3 & c3 & E3 & Hok3 & Q3 & F3). rewrite E3. simpl.
  destruct (ctx_source_ok c3 (VOverflow o) Hok3) as (h4 & c4 & E4 & Hok4 & Q4 & F4). rewrite E4. simpl.
  unfold relay_new. simpl. rewrite (get_overflow_ok _ _ _ Q4). simpl.
  assert (bool_decide (o = Conflate) && negb conflates = false) as ->.
  { destruct (decide (o = Conflate)) as [Ho|?]; [|by rewrite bool_decide_eq_false_2]. rewrite (Hlegal Ho). by rewrite andb_false_r. }
  destruct (ctx_source_ok c4 (VHead None) Hok4) as (h5 & c5 & E5 & Hok5 & Q5 & F5). rewrite E5. simpl.
  destruct (ctx_source_ok c5 (VNum 0) Hok5) as (h6 & c6 & E6 & Hok6 & Q6 & F6). rewrite E6. simpl.
  eexists _, c6. split; [reflexivity|]. split; [done|]. split_and!.
  - split; [|done..]. unfold relay_handles. simpl.
    apply F2 in Q1 as [N12 Q1]. apply F3 in Q1 as [N13 Q1], Q2 as [N23 Q2]. apply F4 in Q1 as [N14 Q1], Q2 as [N24 Q2], Q3 as [N34 Q3].
    apply F5 in Q1 as [N15 Q1], Q2 as [N25 Q2], Q3 as [N35 Q3], Q4 as [N45 Q4].
    apply F6 in Q1 as [N16 _], Q2 as [N26 _], Q3 as [N36 _], Q4 as [N46 _], Q5 as [N56 _].
    repeat (apply NoDup_cons; split; [repeat (apply not_elem_of_cons; split; [done|]); apply not_elem_of_nil|]). apply NoDup_nil_2.
  - split; simpl; [apply F6, F5, F4, F3, F2, Q1|apply F6, F5, F4, F3, Q2|apply F6, F5, F4, Q3|apply F6, F5, Q4|apply F6, Q5|exact Q6].
  - intros h v Hv. unfold relay_handles. simpl. apply F1 in Hv as [? Hv]. apply F2 in Hv as [? Hv]. apply F3 in Hv as [? Hv].
    apply F4 in Hv as [? Hv]. apply F5 in Hv as [? Hv]. apply F6 in Hv as [? Hv]. split; [|done]. set_solver.
Qed.

Lemma relay_make_illegal d hw lw c : ctx_ok c → conflates = false → ∃ c', relay_make d hw lw Conflate c = Some (inl ConflateNotBounding, c').
Proof.
  intros Hok Hc. unfold relay_make, new_policy.
  destruct (ctx_source_ok c (VDim d) Hok) as (h1 & c1 & E1 & Hok1 & Q1 & F1). rewrite E1. simpl.
  destruct (ctx_source_ok c1 (VNum hw) Hok1) as (h2 & c2 & E2 & Hok2 & Q2 & F2). rewrite E2. simpl.
  destruct (ctx_source_ok c2 (VNum lw) Hok2) as (h3 & c3 & E3 & Hok3 & Q3 & F3). rewrite E3. simpl.
  destruct (ctx_source_ok c3 (VOverflow Conflate) Hok3) as (h4 & c4 & E4 & Hok4 & Q4 & F4). rewrite E4. simpl.
  unfold relay_new. simpl. rewrite (get_overflow_ok _ _ _ Q4), Hc. simpl. by exists c4.
Qed.

(** *** Convergence *)

(** What a consumer that merges the drained windows arrives at. *)
Definition take_window (s : T) (v : option T) : T := match v with Some v => merge s v | None => s end.
Definition egress (s : T) (answers : list RelayAnswer) : T :=
  foldl (λ s a, match a with ADrained v => take_window s v | _ => s end) s answers.

(** The operations that reach the egress or are in the window at the end. *)
Fixpoint survivors (w : Window) (es : list RelayEvent) : list T :=
  match es with
  | [] => w_ops w
  | e :: es => match e with RDrain => w_ops w | _ => [] end ++ survivors (window_step w e).2 es
  end.
(** The operations that were answered with [Accepted] or [Conflated]. *)
Definition accepted (es : list RelayEvent) (answers : list RelayAnswer) : list T :=
  omap (λ '(e, a), match e, a with RIngress op, AOutcome (Accepted | Conflated) => Some op | _, _ => None end) (zip es answers).
Definition ingressed (es : list RelayEvent) : list T := omap (λ e, match e with RIngress op => Some op | _ => None end) es.

Lemma take_summary `{!MergeLaws T} s ops : take_window s (summary ops) = fold_merge s ops.
Proof.
  destruct ops as [|x l]; simpl; [done|]. unfold fold_merge. simpl. revert x. induction l as [|y l IH]; intros x; simpl; [done|].
  by rewrite IH, merge_assoc.
Qed.

Lemma window_converges `{!MergeLaws T} es : ∀ w s,
  take_window (egress s (core_run window_step w es).1) (summary (w_ops (core_run window_step w es).2)) = fold_merge s (survivors w es).
Proof.
  induction es as [|e es IH]; intros w s; simpl; [apply take_summary|].
  specialize (IH (window_step w e).2 (match (window_step w e).1 with ADrained v => take_window s v | _ => s end)).
  destruct (window_step w e) as [a w1] eqn:Ew. simpl in *. destruct (core_run window_step w1 es) as [l w2]. simpl in *. rewrite IH.
  unfold fold_merge. rewrite foldl_app. f_equal. destruct e; simpl in *; try (injection Ew as <- <-; simpl; try done).
  - destruct (w_high w <=? _); [destruct (w_overflow w)|]; injection Ew as <- <-; done.
  - apply take_summary.
Qed.

Definition overflow_stays (P : Overflow → Prop) (w : Window) (es : list RelayEvent) : Prop :=
  P (w_overflow w) ∧ Forall (λ e, match e with ROverflow o => P o | _ => True end) es.

Lemma overflow_stays_step P w e es : overflow_stays P w (e :: es) → overflow_stays P (window_step w e).2 es.
Proof.
  intros [Hw [He Hes]%Forall_cons]. split; [|done]. destruct e; simpl; try done.
  destruct (w_high w <=? _); [destruct (w_overflow w) eqn:Eo|]; simpl; by rewrite ?Eo.
Qed.

Lemma survivors_accepted es : ∀ w, overflow_stays (λ o, o ≠ DropOldest) w es →
  survivors w es = w_ops w ++ accepted es (core_run window_step w es).1.
Proof.
  induction es as [|e es IH]; intros w Hstay; simpl; [by rewrite app_nil_r|]. specialize (IH _ (overflow_stays_step _ _ _ _ Hstay)).
  destruct Hstay as [Hw _]. destruct (window_step w e) as [a w1] eqn:Ew. simpl in *. rewrite IH.
  destruct (core_run window_step w1 es) as [l w2]. unfold accepted. simpl.
  destruct e; simpl in *; try (injection Ew as <- <-; simpl; done).
  destruct (w_high w <=? _); [destruct (w_overflow w)|]; injection Ew as <- <-; simpl; try done; try (destruct (bool_decide _); simpl; by rewrite <- app_assoc).
Qed.

Lemma conflating_accepts es : ∀ w, overflow_stays (λ o, o = Conflate ∨ o = Spill) w es →
  accepted es (core_run window_step w es).1 = ingressed es.
Proof.
  induction es as [|e es IH]; intros w Hstay; simpl; [done|]. specialize (IH _ (overflow_stays_step _ _ _ _ Hstay)).
  destruct Hstay as [Hw _]. destruct (window_step w e) as [a w1] eqn:Ew. simpl in *.
  destruct (core_run window_step w1 es) as [l w2]. unfold accepted, ingressed in *. simpl. rewrite <- IH.
  destruct e; simpl in *; try (injection Ew as <- <-; simpl; done).
  destruct (w_high w <=? _); [destruct Hw as [Hw|Hw]; rewrite Hw in Ew|]; injection Ew as <- <-; by destruct (bool_decide _).
Qed.
End relay.

(** C29: A relay answers as the window of the operations merged since the last
    drain, whatever its sources are set to meanwhile, and nothing else of the
    context is touched.  Where the merge is associative, a consumer that merges
    what it drains, and the window left, arrives at the merge of the operations
    that survive in their order, whatever the drain schedule; these are the
    accepted ones unless the overflow is [DropOldest] at some time, and all of
    them while it is [Conflate] or [Spill]. *)
Theorem relay_converges {C H T : Type} `{SourceContextLaws C H (RelayValue T)} `{MergeLaws T}
    (d : BoundDim) (hw lw : Z) (o : Overflow) (es : list (RelayEvent (T:=T))) (s0 : T) (c : C) :
  ctx_ok c → legal o → Z.of_nat (length es) < two64 →
  let w := mkWindow [] d hw lw o in let '(answers, w') := core_run window_step w es in
  ∃ cell c1 c2, relay_make d hw lw o c = Some (inr cell, c1) ∧ relay_run cell es c1 = Some (answers, c2) ∧
    relay_peek cell c2 = Some (summary (w_ops w')) ∧ depth_value cell c2 = Some (Z.of_nat (length (w_ops w'))) ∧
    is_full_value cell c2 = Some (w_high w' <=? Z.of_nat (length (w_ops w'))) ∧
    is_empty_value cell c2 = Some (bool_decide (w_ops w' = [])) ∧ (∀ h v, holds c h v → holds c2 h v) ∧
    take_window (egress s0 answers) (summary (w_ops w')) = fold_merge s0 (survivors w es) ∧
    (overflow_stays (λ o, o ≠ DropOldest) w es → survivors w es = accepted es answers) ∧
    (overflow_stays (λ o, o = Conflate ∨ o = Spill) w es → survivors w es = ingressed es).
Proof.
  intros Hok Hlegal Hl. cbn zeta. set (w := mkWindow [] d hw lw o).
  destruct (relay_make_ok d hw lw o c Hok Hlegal) as (cell & c1 & E1 & Hok1 & Hs & Hat & Hfresh).
  destruct (relay_run_ok es c1 cell w Hs Hok1 Hat ltac:(simpl; lia)) as (c2 & E2 & Hok2 & Hat2 & Hf).
  pose proof (window_converges es w s0) as Hconv. pose proof (survivors_accepted es w) as Hsurv. pose proof (conflating_accepts es w) as Hall.
  destruct (core_run window_step w es) as [answers w']. simpl in *. exists cell, c1, c2. destruct Hat2 as [Q1 Q2 Q3 Q4 Q5 Q6]. destruct Hs as [_ R1 R2 R3].
  split_and!; [done|done|by apply get_head_ok| | | | |done|done|].
  - unfold depth_value. rewrite R1. by apply get_num_ok.
  - unfold is_full_value, read_full. rewrite R2. unfold read_full. by rewrite (get_num_ok _ _ _ Q6), (get_num_ok _ _ _ Q2).
  - unfold is_empty_value. rewrite R3, (get_head_ok _ _ _ Q5). simpl. f_equal. apply bool_decide_ext. by destruct (w_ops w').
  - intros h v Hv. destruct (Hfresh _ _ Hv) as [Hn Hv1]. by apply Hf.
  - intros Hstay. rewrite Hsurv, (Hall Hstay); [done|]. destruct Hstay as [Hw Hes]. split; [by destruct Hw as [-> | ->]|].
    eapply Forall_impl; [exact Hes|]. intros [| | | | |[]]; simpl; naive_solver.
Qed.

(** The low mark is never read. *)
Lemma low_water_is_never_read {T} `{MergePolicy T} (w : Window (T:=T)) (n : Z) (e : RelayEvent (T:=T)) :
  let w' := (window_step w (RLow n)).2 in
  (window_step w' e).1 = (window_step w e).1 ∧ w_ops (window_step w' e).2 = w_ops (window_step w e).2.
Proof. destruct e; simpl; try done. by destruct (w_high w <=? _); [destruct (w_overflow w)|]. Qed.

(** ** Spilling *)

(* include/lazily/relay.hpp:212-219, SpillMode *)
Inductive SpillMode := CompactOnWrite | AppendCompact.
Section spill.
  Context {T : Type} `{MergePolicy T}.

(* include/lazily/relay.hpp:222-226, SpillPage *)
Record SpillPage := mkPage { page_id : Z; page_summary : T; page_bytes : Z }.
(* include/lazily/relay.hpp:317-322, SpillStore (data members) *)
Record SpillStore := mkSpill { pages : list SpillPage; mode : SpillMode; page_size : Z; open_fill : Z; next_page : Z; acked : nat }.
(* include/lazily/relay.hpp:233-234, SpillStore::SpillStore *)
Definition spill_new (m : SpillMode) (size : Z) : SpillStore := mkSpill [] m (if size <? 1 then 1 else size) 0 0 0.

(* include/lazily/relay.hpp:312-315, SpillStore::push_page *)
Definition push_page (v : T) (bytes : Z) (s : SpillStore) : SpillStore :=
  mkSpill (pages s ++ [mkPage (next_page s) v bytes]) (mode s) (page_size s) (open_fill s) (u64 (next_page s + 1)) (acked s).

(* include/lazily/relay.hpp:239-253, SpillStore::spill *)
Definition spill (v : T) (bytes : Z) (s : SpillStore) : SpillStore :=
  match mode s with
  | AppendCompact => push_page v bytes s
  | CompactOnWrite =>
      match last (pages s) with
      | Some p =>
          if page_size s <=? open_fill s then
            let s := push_page v bytes s in mkSpill (pages s) (mode s) (page_size s) 1 (next_page s) (acked s)
          else
            mkSpill (pop_back (pages s) ++ [mkPage (page_id p) (merge (page_summary p) v) (u64 (page_bytes p + bytes))])
              (mode s) (page_size s) (u64 (open_fill s + 1)) (next_page s) (acked s)
      | None =>
          let s := push_page v bytes s in mkSpill (pages s) (mode s) (page_size s) 1 (next_page s) (acked s)
      end
  end.

(* include/lazily/relay.hpp:256-262, SpillStore::manifest *)
Definition manifest (s : SpillStore) : list (Z * Z) := (λ p, (page_id p, page_bytes p)) <$> pages s.
(* include/lazily/relay.hpp:265-267, SpillStore::pending_pages *)
Definition pending_pages (s : SpillStore) : list SpillPage := drop (acked s) (pages s).
(* include/lazily/relay.hpp:269-269, SpillStore::page_count *)
Definition page_count (s : SpillStore) : nat := length (pages s).

(** The loop over the pages from the cursor on. *)
(* include/lazily/relay.hpp:273-274, SpillStore::ack_through (loop) *)
Fixpoint ack_loop (id : Z) (rest : list SpillPage) (n : nat) : nat :=
  match rest with [] => n | p :: rest => if page_id p <=? id then ack_loop id rest (S n) else n end.
(* include/lazily/relay.hpp:272-275, SpillStore::ack_through *)
Definition ack_through (id : Z) (s : SpillStore) : SpillStore :=
  mkSpill (pages s) (mode s) (page_size s) (open_fill s) (next_page s) (ack_loop id (drop (acked s) (pages s)) (acked s)).
(* include/lazily/relay.hpp:278-283, SpillStore::reclaim *)
Definition reclaim (s : SpillStore) : SpillStore :=
  if (0 <? acked s)%nat then mkSpill (drop (acked s) (pages s)) (mode s) (page_size s) (open_fill s) (next_page s) 0 else s.
(* include/lazily/relay.hpp:286-291, SpillStore::fold_pages *)
Definition fold_pages (s0 : T) (s : SpillStore) : T := foldl (λ acc p, merge acc (page_summary p)) s0 (pages s).
(* include/lazily/relay.hpp:295-299, SpillStore::reconstruct *)
Definition reconstruct (s0 : T) (hot : option T) (s : SpillStore) : T :=
  let cold := fold_pages s0 s in match hot with Some h => merge cold h | None => cold end.
(* include/lazily/relay.hpp:304-309, SpillStore::replay_unacked *)
Definition replay_unacked (downstream : T) (s : SpillStore) : T :=
  foldl (λ acc p, merge acc (page_summary p)) downstream (drop (acked s) (pages s)).

(** *** What is spilled is there *)

Inductive SpillEvent := Spilled (v : T) (bytes : Z) | Acked (id : Z) | Reclaimed.
Definition spill_step (s : SpillStore) (e : SpillEvent) : SpillStore :=
  match e with Spilled v b => spill v b s | Acked id => ack_through id s | Reclaimed => reclaim s end.
Definition spilled (es : list SpillEvent) : list (T * Z) := omap (λ e, match e with Spilled v b => Some (v, b) | _ => None end) es.

Lemma last_pop_back {A} (l : list A) x : last l = Some x → l = pop_back l ++ [x].
Proof. destruct l as [|y l _] using rev_ind; [done|]. rewrite last_snoc, pop_back_snoc. by intros [= ->]. Qed.

Lemma spill_fold `{!MergeLaws T} s0 v b s : fold_pages s0 (spill v b s) = merge (fold_pages s0 s) v.
Proof.
  unfold spill, fold_pages, push_page. destruct (mode s); simpl; [|by rewrite foldl_snoc].
  destruct (last (pages s)) as [p|] eqn:El; [|simpl; by rewrite foldl_snoc]. destruct (page_size s <=? open_fill s); simpl; [by rewrite foldl_snoc|].
  apply last_pop_back in El. set (front := pop_back (pages s)) in *. rewrite El, !foldl_snoc. simpl. by rewrite merge_assoc.
Qed.

(** Until pages are reclaimed the store and the hot window give the merge of
    everything spilled and the window, in either mode. *)
Lemma spill_lossless `{!MergeLaws T} m size es s0 hot : Reclaimed ∉ es →
  reconstruct s0 hot (foldl spill_step (spill_new m size) es) = take_window (fold_merge s0 (spilled es).*1) hot.
Proof.
  intros Hn. assert (Hf : fold_pages s0 (foldl spill_step (spill_new m size) es) = fold_merge s0 (spilled es).*1).
  { induction es as [|e es IH] using rev_ind; [done|]. rewrite foldl_snoc. unfold spilled. rewrite omap_app, fmap_app.
    unfold fold_merge. rewrite foldl_app. fold (spilled es). specialize (IH ltac:(set_solver)). unfold fold_merge in IH. rewrite <- IH.
    destruct e as [v b|id|]; simpl; [apply spill_fold|done|]. destruct Hn. set_solver. }
  unfold reconstruct. by rewrite Hf.
Qed.

(** The pages that every spilled window opens, when none is compacted. *)
Definition own_pages (vs : list (T * Z)) : list SpillPage := imap (λ i '(v, b), mkPage (Z.of_nat i) v b) vs.
(** How many windows are acknowledged. *)
Definition ack_step (acc : nat * nat) (e : SpillEvent) : nat * nat :=
  let '(n, k) := acc in
  match e with Spilled _ _ => (S n, k) | Acked id => (n, Nat.max k (Nat.min (Z.to_nat (id + 1)) n)) | Reclaimed => (n, k) end.
Definition acked_windows (es : list SpillEvent) : nat := (foldl ack_step (0, 0)%nat es).2.

Definition append_holds (vs : list (T * Z)) (k : nat) (s : SpillStore) : Prop :=
  mode s = AppendCompact ∧ next_page s = u64 (Z.of_nat (length vs)) ∧
  ∃ r, pages s = drop r (own_pages vs) ∧ (r + acked s = k)%nat ∧ (k ≤ length vs)%nat.

Lemma ack_loop_count id l : ∀ n k, (∀ i p, l !! i = Some p → page_id p = Z.of_nat (k + i)) →
  ack_loop id l n = (n + Nat.min (Z.to_nat (id + 1) - k) (length l))%nat.
Proof.
  induction l as [|p l IH]; intros n k Hid; simpl; [lia|]. pose proof (Hid 0%nat p eq_refl) as Hp. rewrite Hp, Nat.add_0_r.
  destruct (Z.leb_spec (Z.of_nat k) id) as [Hle|Hlt].
  - rewrite (IH (S n) (S k)); [lia|]. intros i q Hq. rewrite (Hid (S i) q Hq). f_equal. lia.
  - lia.
Qed.

Lemma append_step vs k s e : append_holds vs k s → Z.of_nat (length vs) + 1 < two64 →
  append_holds (vs ++ spilled [e]) (ack_step (length vs, k) e).2 (spill_step s e).
Proof.
  intros (Hm & Hnext & r & Hp & Hk & Hle) Hl. destruct e as [v b|id|]; simpl.
  - unfold spill. rewrite Hm. unfold push_page. split_and!; [done| |].
    + simpl. rewrite Hnext, length_app, Nat2Z.inj_add, (u64_small (Z.of_nat (length vs))) by (unfold is_u64; lia). done.
    + exists r. simpl. rewrite Hp, Hnext, (u64_small (Z.of_nat (length vs))) by (unfold is_u64; lia). split_and!; [|done|rewrite length_app; simpl; lia].
      unfold own_pages. rewrite imap_app. simpl. rewrite drop_app_le by (rewrite length_imap; lia). do 3 f_equal. lia.
  - rewrite app_nil_r. split_and!; [done|done|]. exists r. simpl. split_and!; [done| |lia].
    rewrite (ack_loop_count id _ _ k).
    + rewrite length_drop, Hp, length_drop. unfold own_pages. rewrite length_imap. lia.
    + intros i p. rewrite Hp, lookup_drop, lookup_drop. unfold own_pages. rewrite list_lookup_imap.
      destruct (vs !! _) as [[v b]|] eqn:Ev; [|done]. intros [= <-]. simpl. f_equal. lia.
  - rewrite app_nil_r. unfold reclaim. destruct (0 <? acked s)%nat eqn:Ea; [|split_and!; [done|done|by exists r]].
    split_and!; [done|done|]. exists k. simpl. rewrite Hp, drop_drop. split_and!; [by f_equal|lia|done].
Qed.

(** A store that appends keeps every window as a page of its own: the pending
    pages, and what a crash replays, are the windows that are not acknowledged,
    whatever is reclaimed. *)
Lemma append_replays_unacked size es d : Z.of_nat (length es) < two64 →
  let s := foldl spill_step (spill_new AppendCompact size) es in
  pending_pages s = drop (acked_windows es) (own_pages (spilled es)) ∧
  replay_unacked d s = fold_merge d (drop (acked_windows es) (spilled es).*1).
Proof.
  intros Hl s. assert (Hs : append_holds (spilled es) (acked_windows es) s ∧ (foldl ack_step (0, 0)%nat es).1 = length (spilled es)).
  { subst s. induction es as [|e es IH] using rev_ind.
    { split; [|done]. split_and!; [done|done|by exists 0%nat]. }
    rewrite length_app in Hl. simpl in Hl. destruct IH as [Ha Hn]; [lia|]. unfold acked_windows, spilled in *. rewrite !foldl_snoc, omap_app.
    assert (Hlen : (length (omap (λ e, match e with Spilled v b => Some (v, b) | _ => None end) es) ≤ length es)%nat).
    { clear. induction es as [|e es IH]; [done|]. change (e :: es) with ([e] ++ es). rewrite omap_app, !length_app. destruct e; simpl; lia. }
    destruct (foldl ack_step _ es) as [n k]. simpl in Hn, Ha |- *. subst n. split; [apply append_step; [done|lia]|].
    rewrite length_app. destruct e; simpl; lia. }
  destruct Hs as [(_ & _ & r & Hp & Hk & _) _]. assert (Hpend : pending_pages s = drop (acked_windows es) (own_pages (spilled es))).
  { unfold pending_pages. rewrite Hp, drop_drop. by rewrite Hk. }
  split; [done|]. unfold replay_unacked. change (drop (acked s) (pages s)) with (pending_pages s). rewrite Hpend.
  assert (Hsum : page_summary <$> own_pages (spilled es) = (spilled es).*1).
  { apply list_eq. intros i. unfold own_pages. rewrite !list_lookup_fmap, list_lookup_imap. by destruct (spilled es !! i) as [[v b]|]. }
  rewrite <- Hsum, <- fmap_drop. generalize (drop (acked_windows es) (own_pages (spilled es))). intros l. clear. revert d.
  induction l as [|p l IH]; intros d; simpl; [done|]. apply IH.
Qed.
End spill.

(** Compacting merges a window into the last page although that is acknowledged:
    the window is not replayed, and reclaiming drops it. *)
Lemma compacting_into_acked_page_loses_window :
  let s := foldl (spill_step (H:=Sum)) (spill_new CompactOnWrite 4) [Spilled 1 8; Acked 0; Spilled 10 8] in
  pending_pages s = [] ∧ replay_unacked (H:=Sum) 1 s = 1 ∧ pages (reclaim s) = [].
Proof. by vm_compute. Qed.

(** ** Transports *)

(** What a relay asks of a delivery mechanism. *)
(* include/lazily/relay.hpp:335-341, Transport *)
Class Transport (S T : Type) := {
  deliver : T → S → S;
  poll : S → list T * S;
  has_pending : S → bool;
}.
(** Its promise: what is delivered is buffered, and polling hands it over in
    order, something at a time. *)
Class TransportLaws (S T : Type) `{Transport S T} := {
  transport_ok : S → Prop;
  buffered : S → list T;
  deliver_ok op s : transport_ok s → transport_ok (deliver op s) ∧ buffered (deliver op s) = buffered s ++ [op];
  poll_ok s : transport_ok s → transport_ok (poll s).2 ∧ buffered s = (poll s).1 ++ buffered (poll s).2;
  pending_ok s : has_pending s = true ↔ buffered s ≠ [];
  poll_progress s : transport_ok s → has_pending s = true → (0 < length (poll s).1)%nat;
}.

(* include/lazily/relay.hpp:344-356, InProcTransport *)
#[export] Instance InProcTransport {T} : Transport (list T) T := {|
  deliver op buf := buf ++ [op]; poll buf := (buf, []); has_pending buf := negb (length buf =? 0)%nat |}.
Lemma not_empty {A} (l : list A) : negb (length l =? 0)%nat = true ↔ l ≠ [].
Proof. by destruct l. Qed.
#[export, refine] Instance InProcTransport_laws {T} : TransportLaws (list T) T := {| transport_ok _ := True; buffered buf := buf |}.
Proof.
  - done.
  - intros s _. simpl. by rewrite app_nil_r.
  - apply not_empty.
  - intros s _ Hp%not_empty. simpl. by destruct s; simpl; [|lia].
Defined.

(* include/lazily/relay.hpp:375-376, FramedTransport (data members) *)
Record FramedBuffer (T : Type) := mkFramed { buf_ : list T; frame_size : nat }.
Arguments mkFramed {T} _ _.
Arguments buf_ {T} _.
Arguments frame_size {T} _.
(* include/lazily/relay.hpp:363-363, FramedTransport::FramedTransport *)
Definition framed_new {T} (n : nat) : FramedBuffer T := mkFramed [] (if (n <? 1)%nat then 1%nat else n).
(* include/lazily/relay.hpp:365-371, FramedTransport::poll *)
Definition framed_poll {T} (s : FramedBuffer T) : list T * FramedBuffer T :=
  let n := if (frame_size s <? length (buf_ s))%nat then frame_size s else length (buf_ s) in
  (take n (buf_ s), mkFramed (drop n (buf_ s)) (frame_size s)).
(* include/lazily/relay.hpp:361-377, FramedTransport *)
#[export] Instance FramedTransport {T} : Transport (FramedBuffer T) T := {|
  deliver op s := mkFramed (buf_ s ++ [op]) (frame_size s); poll := framed_poll;
  has_pending s := negb (length (buf_ s) =? 0)%nat |}.
#[export, refine] Instance FramedTransport_laws {T} : TransportLaws (FramedBuffer T) T :=
  {| transport_ok s := (0 < frame_size s)%nat; buffered := buf_ |}.
Proof.
  - done.
  - intros s Hs. simpl. split; [done|]. by rewrite take_drop.
  - intros s. apply not_empty.
  - intros s Hs Hp%not_empty. simpl. rewrite length_take. destruct (buf_ s) as [|x l]; [done|].
    destruct (_ <? _)%nat; simpl; lia.
Defined.
Lemma framed_new_ok {T} n : transport_ok (framed_new (T:=T) n) ∧ buffered (framed_new (T:=T) n) = [].
Proof. split; [|done]. simpl. destruct (Nat.ltb_spec n 1); simpl; lia. Qed.

(** Handing over a transport's buffer frame by frame. *)
Fixpoint pump {S T} `{Transport S T} (fuel : nat) (s : S) : list (list T) * S :=
  match fuel with
  | O => ([], s)
  | Datatypes.S fuel => if has_pending s then let '(frame, s) := poll s in let '(frames, s) := pump fuel s in (frame :: frames, s) else ([], s)
  end.

Lemma pump_all {S T} `{TransportLaws S T} fuel : ∀ s, transport_ok s → (length (buffered s) ≤ fuel)%nat →
  concat (pump fuel s).1 = buffered s ∧ buffered (pump fuel s).2 = [] ∧ transport_ok (pump fuel s).2.
Proof.
  induction fuel as [|fuel IH]; intros s Hs Hl; simpl; [by destruct (buffered s); simpl in *; [|lia]|].
  destruct (has_pending s) eqn:Ep; simpl.
  - pose proof (poll_progress s Hs Ep) as Hp. pose proof (poll_ok s Hs) as [Hs1 Hb]. destruct (poll s) as [frame s1]. simpl in *.
    rewrite Hb, length_app in Hl. destruct (IH s1 Hs1 ltac:(lia)) as (IH1 & IH2 & IH3). destruct (pump fuel s1) as [frames s2]. simpl in *.
    split_and!; [by rewrite IH1, Hb|done|done].
  - assert (Hb : buffered s = []).
    { destruct (buffered s) eqn:Eb; [done|]. assert (has_pending s = true) by (apply pending_ok; by rewrite Eb). congruence. }
    by split_and!.
Qed.

(** Whatever the transport and whenever it is polled, what comes out is what
    went in, in order, and polling until nothing is pending ends. *)
Definition deliver_all {S T} `{Transport S T} (ops : list T) (s : S) : S := foldl (λ s op, deliver op s) s ops.

Lemma deliver_all_ok {S T} `{TransportLaws S T} ops : ∀ s, transport_ok s →
  transport_ok (deliver_all ops s) ∧ buffered (deliver_all ops s) = buffered s ++ ops.
Proof.
  unfold deliver_all. induction ops as [|op ops IH]; intros s Hs; simpl; [by rewrite app_nil_r|].
  destruct (deliver_ok op s Hs) as [Hs1 Hb]. destruct (IH _ Hs1) as [? ->]. split; [done|]. by rewrite Hb, <- app_assoc.
Qed.

(** One round of a link: some operations are delivered, then some polls. *)
Inductive LinkEvent (T : Type) := LDeliver (op : T) | LPoll.
Arguments LDeliver {T} _.
Arguments LPoll {T}.
Definition link_step {S T} `{Transport S T} (s : S) (e : LinkEvent T) : list T * S :=
  match e with LDeliver op => ([], deliver op s) | LPoll => poll s end.
Definition sent {T} (es : list (LinkEvent T)) : list T := omap (λ e, match e with LDeliver op => Some op | LPoll => None end) es.

Lemma link_carries {S T} `{TransportLaws S T} es : ∀ s, transport_ok s →
  concat (core_run link_step s es).1 ++ buffered (core_run link_step s es).2 = buffered s ++ sent es ∧
  transport_ok (core_run link_step s es).2.
Proof.
  induction es as [|e es IH]; intros s Hs; simpl; [by rewrite app_nil_r|]. destruct e as [op|]; simpl.
  - destruct (deliver_ok op s Hs) as [Hs1 Hb]. specialize (IH _ Hs1). destruct (core_run link_step _ es) as [l s2]. simpl in *.
    destruct IH as [-> ?]. split; [|done]. by rewrite Hb, <- app_assoc.
  - destruct (poll_ok s Hs) as [Hs1 Hb]. destruct (poll s) as [frame s1]. simpl in *. specialize (IH _ Hs1).
    destruct (core_run link_step s1 es) as [l s2]. simpl in *. destruct IH as [IH ?]. split; [|done].
    by rewrite <- app_assoc, IH, Hb, <- app_assoc.
Qed.

(** ** Roles *)
Section roles.
  Context {C H T : Type} `{SourceContext C H (RelayValue T)} `{MergePolicy T}.

(** The outbox is its relay. *)
(* include/lazily/relay.hpp:390-392, Outbox::Outbox *)
Definition outbox_new (high_water : Z) (d : BoundDim) (o : Overflow) (c : C) : option ((RelayConfigError + RelayCell) * C) :=
  relay_make d high_water (high_water / 2) o c.
(* include/lazily/relay.hpp:396-396, Outbox::send *)
Definition outbox_send (box : RelayCell) (op : T) (c : C) : option (IngressOutcome * C) := relay_ingress box op c.
(* include/lazily/relay.hpp:399-399, Outbox::drain *)
Definition outbox_drain (box : RelayCell) (c : C) : option (option T * C) := relay_drain box c.

(* include/lazily/relay.hpp:446-448, Inbox (data members) *)
Record Inbox := mkInbox { in_relay : RelayCell (C:=C) (H:=H); credits : Z; max_credits : Z }.
(* include/lazily/relay.hpp:415-418, Inbox::Inbox *)
Definition inbox_new (high_water max : Z) (o : Overflow) (c : C) : option ((RelayConfigError + Inbox) * C) :=
  '(r, c) ← relay_make Count high_water (high_water / 2) o c;
  Some (match r with inl e => inl e | inr cell => inr (mkInbox cell max max) end, c).
(* include/lazily/relay.hpp:422-422, Inbox::ready *)
Definition inbox_ready (b : Inbox) : bool := 0 <? credits b.
(* include/lazily/relay.hpp:430-433, Inbox::receive *)
Definition inbox_receive (b : Inbox) (op : T) (c : C) : option (IngressOutcome * Inbox * C) :=
  let b := if 0 <? credits b then mkInbox (in_relay b) (credits b - 1) (max_credits b) else b in
  '(o, c) ← relay_ingress (in_relay b) op c; Some (o, b, c).
(* include/lazily/relay.hpp:437-441, Inbox::consume *)
Definition inbox_consume (b : Inbox) (replenish : Z) (c : C) : option (option T * Inbox * C) :=
  '(v, c) ← relay_drain (in_relay b) c;
  Some (v, mkInbox (in_relay b) (Z.min (u64 (credits b + replenish)) (max_credits b)) (max_credits b), c).

(** Credits stay within the budget, and only a replenishment raises them. *)
Lemma credits_within_budget (b : Inbox) op n c : 0 ≤ credits b ≤ max_credits b →
  (∀ o b' c', inbox_receive b op c = Some (o, b', c') → 0 ≤ credits b' ≤ max_credits b' ∧ max_credits b' = max_credits b ∧
     credits b' = Z.max 0 (credits b - 1)) ∧
  (∀ v b' c', inbox_consume b n c = Some (v, b', c') → 0 ≤ credits b' ≤ max_credits b' ∧ max_credits b' = max_credits b ∧
     (0 ≤ n → credits b + n < two64 → credits b' = Z.min (credits b + n) (max_credits b))).
Proof.
  intros Hb. split.
  - intros o b' c' E. unfold inbox_receive in E. destruct (relay_ingress _ _ _) as [[o' c1]|]; simpl in E; [|done]. injection E as <- <- <-.
    destruct (Z.ltb_spec 0 (credits b)); simpl; lia.
  - intros v b' c' E. unfold inbox_consume in E. destruct (relay_drain _ _) as [[v' c1]|]; simpl in E; [|done]. injection E as <- <- <-.
    simpl. pose proof (u64_range (credits b + n)) as Hr. unfold is_u64 in Hr. split_and!; try lia.
    intros Hn Hlt. rewrite u64_small by (unfold is_u64; lia). done.
Qed.
End roles.

(** Topping up by the greatest amount takes a credit away: the sum wraps. *)
Lemma topping_up_wraps : Z.min (u64 (3 + u64_max)) 8 = 2.
Proof. by vm_compute. Qed.

(** ** Extra policies *)

(* include/lazily/relay.hpp:480-482, RatePolicy (data members) *)
Record RatePolicy := mkRate { capacity : Z; tokens : Z; refill_per_tick : Z }.
(* include/lazily/relay.hpp:462-463, RatePolicy::RatePolicy *)
Definition rate_new (cap refill : Z) : RatePolicy := mkRate cap cap refill.
(* include/lazily/relay.hpp:468-474, RatePolicy::try_egress *)
Definition try_egress (r : RatePolicy) : bool * RatePolicy :=
  if 0 <? tokens r then (true, mkRate (capacity r) (tokens r - 1) (refill_per_tick r)) else (false, r).
(* include/lazily/relay.hpp:477-477, RatePolicy::tick *)
Definition rate_tick (r : RatePolicy) : RatePolicy := mkRate (capacity r) (Z.min (u64 (tokens r + refill_per_tick r)) (capacity r)) (refill_per_tick r).

Inductive RateEvent := TryEgress | RateTick.
Definition rate_step (r : RatePolicy) (e : RateEvent) : bool * RatePolicy :=
  match e with TryEgress => try_egress r | RateTick => (false, rate_tick r) end.
Definition passed (l : list bool) : Z := Z.of_nat (length (filter (λ b, b = true) l)).
Definition ticks (es : list RateEvent) : Z := Z.of_nat (length (omap (λ e, match e with RateTick => Some tt | _ => None end) es)).

Lemma passed_cons b l : passed (b :: l) = (if b then 1 else 0) + passed l.
Proof. unfold passed. rewrite filter_cons. destruct b; simpl; lia. Qed.
Lemma ticks_cons e es : ticks (e :: es) = (match e with RateTick => 1 | TryEgress => 0 end) + ticks es.
Proof. unfold ticks. change (e :: es) with ([e] ++ es). rewrite omap_app, length_app. destruct e; simpl; lia. Qed.

(** In any stretch no more passes than the bucket holds and is refilled by, and
    nothing is refused while there is a token. *)
Lemma rate_is_bounded es : ∀ r, 0 ≤ tokens r ≤ capacity r → 0 ≤ refill_per_tick r → capacity r + refill_per_tick r < two64 →
  let '(l, r') := core_run rate_step r es in
  passed l + tokens r' ≤ tokens r + refill_per_tick r * ticks es ∧ 0 ≤ tokens r' ≤ capacity r' ∧
  capacity r' = capacity r ∧ refill_per_tick r' = refill_per_tick r.
Proof.
  induction es as [|e es IH]; intros r Ht Hf Hc; simpl; [unfold passed, ticks; simpl; lia|].
  rewrite ticks_cons. destruct e; simpl.
  - unfold try_egress. destruct (Z.ltb_spec 0 (tokens r)).
    + specialize (IH (mkRate (capacity r) (tokens r - 1) (refill_per_tick r))). simpl in IH.
      destruct (core_run rate_step _ es) as [l r']. rewrite passed_cons. destruct IH as (?&?&?&?); lia.
    + specialize (IH r Ht Hf Hc). destruct (core_run rate_step r es) as [l r']. rewrite passed_cons. lia.
  - assert (Hu : u64 (tokens r + refill_per_tick r) = tokens r + refill_per_tick r) by (apply u64_small; unfold is_u64; lia).
    specialize (IH (rate_tick r)). unfold rate_tick in *. rewrite Hu in *. simpl in IH.
    destruct (core_run rate_step _ es) as [l r']. rewrite passed_cons. destruct IH as (?&?&?&?); nia.
Qed.

(* include/lazily/relay.hpp:512-513, WindowPolicy (data members) *)
Record WindowPolicy := mkWindowPolicy { window_ops : Z; wp_pending : Z }.
(* include/lazily/relay.hpp:490-490, WindowPolicy::WindowPolicy *)
Definition window_policy_new (n : Z) : WindowPolicy := mkWindowPolicy (if n <? 1 then 1 else n) 0.
(* include/lazily/relay.hpp:493-500, WindowPolicy::on_ingress *)
Definition on_ingress (p : WindowPolicy) : bool * WindowPolicy :=
  let n := u64 (wp_pending p + 1) in
  if window_ops p <=? n then (true, mkWindowPolicy (window_ops p) 0) else (false, mkWindowPolicy (window_ops p) n).
(* include/lazily/relay.hpp:503-509, WindowPolicy::tick *)
Definition window_tick (p : WindowPolicy) : bool * WindowPolicy :=
  if 0 <? wp_pending p then (true, mkWindowPolicy (window_ops p) 0) else (false, p).

Inductive WindowEvent := WIngress | WTick.
Definition window_policy_step (p : WindowPolicy) (e : WindowEvent) : bool * WindowPolicy :=
  match e with WIngress => on_ingress p | WTick => window_tick p end.
(** The operations since the last flush. *)
Definition unflushed (n : Z) (l : list (WindowEvent * bool)) : Z :=
  foldl (λ n '(e, flushed), if (flushed : bool) then 0 else match e with WIngress => n + 1 | WTick => n end) n l.

(** A flush comes exactly with the operation that fills the window, or with a
    tick that finds one. *)
Lemma window_policy_counts es : ∀ p, 1 ≤ window_ops p < two64 → 0 ≤ wp_pending p < window_ops p →
  let '(l, p') := core_run window_policy_step p es in
  wp_pending p' = unflushed (wp_pending p) (zip es l) ∧ 0 ≤ wp_pending p' < window_ops p ∧ window_ops p' = window_ops p ∧
  ∀ e, (window_policy_step p' e).1 = match e with WIngress => window_ops p <=? wp_pending p' + 1 | WTick => 0 <? wp_pending p' end.
Proof.
  induction es as [|e es IH]; intros p Hw Hp; simpl.
  { split_and!; [done|lia|lia|done|]. intros [|]; simpl.
    - unfold on_ingress. rewrite u64_small by (unfold is_u64; lia). by destruct (_ <=? _).
    - unfold window_tick. by destruct (0 <? _). }
  destruct e; simpl.
  - unfold on_ingress. rewrite u64_small by (unfold is_u64; lia).
    destruct (Z.leb_spec (window_ops p) (wp_pending p + 1)).
    + specialize (IH (mkWindowPolicy (window_ops p) 0)). simpl in IH. destruct (core_run _ _ es) as [l p']. apply IH; lia.
    + specialize (IH (mkWindowPolicy (window_ops p) (wp_pending p + 1))). simpl in IH. destruct (core_run _ _ es) as [l p']. apply IH; lia.
  - unfold window_tick. destruct (Z.ltb_spec 0 (wp_pending p)).
    + specialize (IH (mkWindowPolicy (window_ops p) 0)). simpl in IH. destruct (core_run _ _ es) as [l p']. apply IH; lia.
    + specialize (IH p Hw Hp). destruct (core_run _ _ es) as [l p']. apply IH.
Qed.

(* include/lazily/relay.hpp:541-542, ExpiryPolicy (data members) *)
Record ExpiryPolicy := mkExpiry { ex_ttl : Z; ex_now : Z }.
(* include/lazily/relay.hpp:522-522, ExpiryPolicy::advance *)
Definition expiry_advance (by_ : Z) (p : ExpiryPolicy) : ExpiryPolicy := mkExpiry (ex_ttl p) (u64 (ex_now p + by_)).
(* include/lazily/relay.hpp:526-529, ExpiryPolicy::is_live *)
Definition is_live (p : ExpiryPolicy) (stamped_at : Z) : bool :=
  let age := if stamped_at <=? ex_now p then ex_now p - stamped_at else 0 in age <=? ex_ttl p.
(* include/lazily/relay.hpp:532-538, ExpiryPolicy::retain_live *)
Definition retain_live {T} (p : ExpiryPolicy) (batch : list (Z * T)) : list T :=
  omap (λ e, if is_live p e.1 then Some e.2 else None) batch.

(** An element is live until its age exceeds the time to live; one from the
    future is. *)
Lemma is_live_spec p t : 0 ≤ ex_ttl p → is_live p t = bool_decide (ex_now p - t ≤ ex_ttl p).
Proof.
  intros Ht. unfold is_live. destruct (Z.leb_spec t (ex_now p)).
  - apply Bool.eq_iff_eq_true. by rewrite Z.leb_le, bool_decide_eq_true.
  - rewrite bool_decide_eq_true_2 by lia. by apply Z.leb_le.
Qed.

(** *** Priorities *)
Section priority.
  Context {T : Type}.

(* include/lazily/relay.hpp:575-579, PriorityStorage::Item *)
Record Item := mkItem { priority : Z; item_seq : Z; item_value : T }.
(* include/lazily/relay.hpp:580-581, PriorityStorage (data members) *)
Record PriorityStorage := mkPriority { items : list Item; seq_ : Z }.
Definition priority_new : PriorityStorage := mkPriority [] 0.
(* include/lazily/relay.hpp:550-553, PriorityStorage::push *)
Definition priority_push (p : Z) (v : T) (s : PriorityStorage) : PriorityStorage :=
  mkPriority (items s ++ [mkItem p (seq_ s) v]) (u64 (seq_ s + 1)).

(* include/lazily/relay.hpp:562-563, PriorityStorage::pop (condition) *)
Definition better (a b : Item) : bool := (priority b <? priority a) || ((priority a =? priority b) && (item_seq a <? item_seq b)).
(** The loop from index [i] with the best item so far. *)
(* include/lazily/relay.hpp:559-565, PriorityStorage::pop (loop) *)
Fixpoint best_loop (rest : list Item) (i best : nat) (b : Item) : nat :=
  match rest with
  | [] => best
  | a :: rest => if better a b then best_loop rest (S i) i a else best_loop rest (S i) best b
  end.
(* include/lazily/relay.hpp:556-569, PriorityStorage::pop *)
Definition priority_pop (s : PriorityStorage) : option T * PriorityStorage :=
  match items s with
  | [] => (None, s)
  | b :: rest =>
      let best := best_loop rest 1 0 b in
      (item_value <$> items s !! best, mkPriority (take best (items s) ++ drop (S best) (items s)) (seq_ s))
  end.
(* include/lazily/relay.hpp:571-571, PriorityStorage::size *)
Definition priority_size (s : PriorityStorage) : nat := length (items s).
(* include/lazily/relay.hpp:572-572, PriorityStorage::is_empty *)
Definition priority_is_empty (s : PriorityStorage) : bool := (length (items s) =? 0)%nat.

(** Items wait in the order they came. *)
Definition in_order (s : PriorityStorage) : Prop :=
  StronglySorted Z.lt (item_seq <$> items s) ∧ Forall (λ it, 0 ≤ item_seq it < seq_ s) (items s).

Lemma best_loop_spec rest : ∀ i best b l1 l2, length (l1 ++ b :: l2) = i → best = length l1 →
  Forall (λ x, priority x < priority b) l1 → Forall (λ x, priority x ≤ priority b) l2 →
  StronglySorted Z.lt (item_seq <$> ((l1 ++ b :: l2) ++ rest)) →
  ∃ l1' b' l2', (l1 ++ b :: l2) ++ rest = l1' ++ b' :: l2' ∧ best_loop rest i best b = length l1' ∧
    Forall (λ x, priority x < priority b') l1' ∧ Forall (λ x, priority x ≤ priority b') l2'.
Proof.
  induction rest as [|a rest IH]; intros i best b l1 l2 Hi Hb H1 H2 Hs; simpl; [exists l1, b, l2; by rewrite app_nil_r|].
  assert (Hseq : item_seq b < item_seq a).
  { rewrite fmap_app in Hs. apply (StronglySorted_app_1_elem_of _ _ _ (item_seq b) (item_seq a)) in Hs; [done| |].
    - apply list_elem_of_fmap_2. set_solver.
    - apply list_elem_of_fmap_2. set_solver. }
  assert (Hbetter : better a b = (priority b <? priority a)).
  { unfold better. rewrite (proj2 (Z.ltb_ge (item_seq a) (item_seq b))) by lia. by rewrite andb_false_r, orb_false_r. }
  rewrite Hbetter. change (a :: rest) with ([a] ++ rest) in *. rewrite app_assoc in Hs |- *. destruct (Z.ltb_spec (priority b) (priority a)).
  - apply (IH (S i) i a (l1 ++ b :: l2) []); [rewrite length_app; simpl; lia|done| |by constructor|done].
    apply Forall_app. split; [eapply Forall_impl; [exact H1|simpl; lia]|]. constructor; [done|]. eapply Forall_impl; [exact H2|simpl; lia].
  - specialize (IH (S i) best b l1 (l2 ++ [a])). rewrite app_comm_cons, app_assoc in IH.
    apply IH; [rewrite length_app; simpl in *; lia|done|done| |done]. apply Forall_app. split; [done|]. by constructor.
Qed.

(** Popping takes the first of the items with the highest priority, and leaves
    the others as they are. *)
Lemma priority_pop_spec s : in_order s →
  match priority_pop s with
  | (None, s') => items s = [] ∧ s' = s
  | (Some v, s') => ∃ l1 it l2, items s = l1 ++ it :: l2 ∧ v = item_value it ∧ items s' = l1 ++ l2 ∧ in_order s' ∧
      Forall (λ x, priority x < priority it) l1 ∧ Forall (λ x, priority x ≤ priority it) l2
  end.
Proof.
  intros [Hs Hr]. unfold priority_pop. destruct (items s) as [|b rest] eqn:Ei; [done|].
  destruct (best_loop_spec rest 1 0 b [] []) as (l1 & it & l2 & El & -> & H1 & H2); [done|done|by constructor|by constructor|done|].
  simpl in El. rewrite El, list_lookup_middle by done. simpl. exists l1, it, l2. rewrite take_app_length, drop_app_ge by lia.
  replace (S (length l1) - length l1)%nat with 1%nat by lia. simpl. split_and!; try done. split; simpl.
  - rewrite El in Hs. rewrite fmap_app in Hs |- *. apply StronglySorted_app in Hs as (Hx & Ha & Hb). simpl in Hb. apply StronglySorted_inv in Hb as [Hb _].
    apply StronglySorted_app. split_and!; [|done|done]. intros x y Hxx Hy. apply Hx; [done|]. simpl. by right.
  - rewrite El in Hr. apply Forall_app in Hr as [Hr1 Hr2]. apply Forall_cons in Hr2 as [_ Hr2]. by apply Forall_app.
Qed.

Lemma priority_push_in_order p v s : in_order s → 0 ≤ seq_ s → seq_ s + 1 < two64 → in_order (priority_push p v s).
Proof.
  intros [Hs Hr] H0 Hlt. split; simpl.
  - rewrite fmap_app. apply StronglySorted_app. split_and!; [|done|by repeat constructor].
    intros x y (it & -> & Hit)%list_elem_of_fmap ->%list_elem_of_singleton. rewrite Forall_forall in Hr. by apply Hr.
  - rewrite u64_small by (unfold is_u64; lia). apply Forall_app. split; [|constructor; [simpl; lia|by constructor]].
    eapply Forall_impl; [exact Hr|]. simpl. lia.
Qed.
End priority.

(** ** Shards *)
Section keyed.
  Context {C H T K : Type} `{SourceContext C H (RelayValue T)} `{MergePolicy T} `{Countable K}.

(* include/lazily/relay.hpp:623-625, KeyedRelay (data members) *)
Record KeyedRelay := mkKeyed { k_high : Z; k_overflow : Overflow; shards : gmap K (RelayCell (C:=C) (H:=H)) }.
(* include/lazily/relay.hpp:589-590, KeyedRelay::KeyedRelay *)
Definition keyed_new (hw : Z) (o : Overflow) : KeyedRelay := mkKeyed hw o ∅.
(* include/lazily/relay.hpp:593-604, KeyedRelay::ingress *)
Definition keyed_ingress (kr : KeyedRelay) (key : K) (op : T) (c : C) : option ((RelayConfigError + (IngressOutcome * KeyedRelay)) * C) :=
  '(r, c) ← match shards kr !! key with
    | Some cell => Some (inr (cell, kr), c)
    | None =>
        '(r, c) ← relay_make Count (k_high kr) (k_high kr / 2) (k_overflow kr) c;
        Some (match r with
              | inl e => inl e
              | inr cell => inr (cell, mkKeyed (k_high kr) (k_overflow kr) (<[key := cell]> (shards kr)))
              end, c)
    end;
  match r with
  | inl e => Some (inl e, c)
  | inr (cell, kr) => '(o, c) ← relay_ingress cell op c; Some (inr (o, kr), c)
  end.
(* include/lazily/relay.hpp:607-611, KeyedRelay::drain *)
Definition keyed_drain (kr : KeyedRelay) (key : K) (c : C) : option (option T * C) :=
  match shards kr !! key with None => Some (None, c) | Some cell => relay_drain cell c end.
(** In the order of the map. *)
(* include/lazily/relay.hpp:613-619, KeyedRelay::keys *)
Definition keyed_keys (kr : KeyedRelay) : list K := (map_to_list (shards kr)).*1.

(** *** A keyed relay is a relay per key *)

Inductive KeyedEvent := KIngress (key : K) (op : T) | KDrain (key : K).
Definition event_key (e : KeyedEvent) : K := match e with KIngress k _ | KDrain k => k end.
Definition shard_event (e : KeyedEvent) : RelayEvent (T:=T) := match e with KIngress _ op => RIngress op | KDrain _ => RDrain end.
Definition keyed_step (kr : KeyedRelay) (e : KeyedEvent) (c : C) : option ((RelayConfigError + (RelayAnswer (T:=T) * KeyedRelay)) * C) :=
  match e with
  | KIngress k op => '(r, c) ← keyed_ingress kr k op c; Some (match r with inl e => inl e | inr (o, kr) => inr (AOutcome o, kr) end, c)
  | KDrain k => '(v, c) ← keyed_drain kr k c; Some (inr (ADrained v, kr), c)
  end.
(** [None] also when an operation throws. *)
Fixpoint keyed_run (kr : KeyedRelay) (es : list KeyedEvent) (c : C) : option (list (RelayAnswer (T:=T)) * KeyedRelay * C) :=
  match es with
  | [] => Some ([], kr, c)
  | e :: es =>
      '(r, c) ← keyed_step kr e c;
      match r with
      | inl _ => None
      | inr (a, kr) => '(l, kr, c) ← keyed_run kr es c; Some (a :: l, kr, c)
      end
  end.

Definition events_of (k : K) (es : list KeyedEvent) : list (RelayEvent (T:=T)) :=
  omap (λ e, if decide (event_key e = k) then Some (shard_event e) else None) es.
Definition answers_of (k : K) (es : list KeyedEvent) (l : list (RelayAnswer (T:=T))) : list (RelayAnswer (T:=T)) :=
  omap (λ '(e, a), if decide (event_key e = k) then Some a else None) (zip es l).

Definition fresh_window (kr : KeyedRelay) : Window (T:=T) := mkWindow [] Count (k_high kr) (k_high kr / 2) (k_overflow kr).

(** Each shard holds its window, and no two share a source. *)
Record shards_hold (c : C) (kr : KeyedRelay) (m : K → Window (T:=T)) : Prop := {
  sh_missing : ∀ k, shards kr !! k = None → m k = fresh_window kr;
  sh_held : ∀ k cell, shards kr !! k = Some cell → relay_shape cell ∧ relay_holds c cell (m k);
  sh_apart : ∀ k k' cell cell' h, shards kr !! k = Some cell → shards kr !! k' = Some cell' → k ≠ k' →
    h ∈ relay_handles cell → h ∉ relay_handles cell' }.

Context `{!SourceContextLaws C H (RelayValue T)}.

Lemma relay_frame c c' (cell cell' : RelayCell (C:=C) (H:=H)) (w : Window (T:=T)) : frames (relay_handles cell) c c' →
  (∀ h, h ∈ relay_handles cell' → h ∉ relay_handles cell) → relay_holds c cell' w → relay_holds c' cell' w.
Proof.
  intros Hf Hapart [Q1 Q2 Q3 Q4 Q5 Q6]. split; (apply Hf; [apply Hapart; unfold relay_handles; set_solver|assumption]).
Qed.

Lemma shard_step c kr m k cell e : ctx_ok c → shards_hold c kr m → shards kr !! k = Some cell → Z.of_nat (length (w_ops (m k))) + 1 < two64 →
  ∃ c', relay_step cell e c = Some ((window_step (m k) e).1, c') ∧ ctx_ok c' ∧
    shards_hold c' kr (λ k', if decide (k = k') then (window_step (m k) e).2 else m k').
Proof.
  intros Hok [Hm Hh Ha] Hk Hl. destruct (Hh k cell Hk) as [Hs Hat].
  destruct (relay_step_ok c cell (m k) e Hs Hok Hat Hl) as (c' & E & Hok' & Hat' & Hf). exists c'. split_and!; [done|done|]. split.
  - intros k' Hk'. rewrite decide_False by congruence. by apply Hm.
  - intros k' cell' Hk'. case_decide as Ek; [subst; by simplify_eq|]. destruct (Hh k' cell' Hk') as [Hs2 Hat2]. split; [done|].
    eapply relay_frame; [exact Hf| |done]. intros h Hin. apply (Ha k' k cell' cell h Hk' Hk); [congruence|done].
  - done.
Qed.

Lemma keyed_step_ok c kr m e : ctx_ok c → shards_hold c kr m → legal (k_overflow kr) → Z.of_nat (length (w_ops (m (event_key e)))) + 1 < two64 →
  ∃ kr' c', keyed_step kr e c = Some (inr ((window_step (m (event_key e)) (shard_event e)).1, kr'), c') ∧ ctx_ok c' ∧
    k_overflow kr' = k_overflow kr ∧ k_high kr' = k_high kr ∧
    shards_hold c' kr' (λ k', if decide (event_key e = k') then (window_step (m (event_key e)) (shard_event e)).2 else m k').
Proof.
  intros Hok Hh Hleg Hl. destruct e as [k op|k]; simpl in Hl |- *.
  - unfold keyed_ingress. destruct (shards kr !! k) as [cell|] eqn:Ek; simpl.
    + destruct (shard_step c kr m k cell (RIngress op) Hok Hh Ek Hl) as (c' & E & Hok' & Hh'). simpl in E.
      destruct (relay_ingress cell op c) as [[o c1]|]; simpl in *; [|done]. injection E as <- ->. by exists kr, c'.
    + destruct (relay_make_ok Count (k_high kr) (k_high kr / 2) (k_overflow kr) c Hok Hleg) as (cell & c1 & E1 & Hok1 & Hs & Hat & Hfresh).
      rewrite E1. simpl. set (kr1 := mkKeyed _ _ _).
      assert (Hh1 : shards_hold c1 kr1 m).
      { destruct Hh as [Hm Hh Ha]. split; simpl.
        - intros k' [Hk' _]%lookup_insert_None. by apply Hm.
        - intros k' cell' [[<- <-]|[Hne Hk']]%lookup_insert_Some; [split; [done|]; by rewrite (Hm k Ek)|].
          destruct (Hh k' cell' Hk') as [Hs' [Q1 Q2 Q3 Q4 Q5 Q6]]. split; [done|]. split; by apply Hfresh.
        - assert (Hnew : ∀ k' cell' h, shards kr !! k' = Some cell' → h ∈ relay_handles cell' → h ∉ relay_handles cell).
          { intros k' cell' h Hk' Hin. destruct (Hh k' cell' Hk') as [_ [Q1 Q2 Q3 Q4 Q5 Q6]].
            unfold relay_handles in Hin. rewrite !elem_of_cons in Hin.
            destruct Hin as [->|[->|[->|[->|[->|[->|[]%not_elem_of_nil]]]]]]; by eapply Hfresh. }
          intros k1 k2 cell1 cell2 h [[<- <-]|[? Hk1]]%lookup_insert_Some [[<- <-]|[? Hk2]]%lookup_insert_Some Hne Hin; [done| | |exact (Ha k1 k2 cell1 cell2 h Hk1 Hk2 Hne Hin)].
          + intros Hin2. by eapply Hnew.
          + by eapply Hnew. }
      destruct (shard_step c1 kr1 m k cell (RIngress op) Hok1 Hh1) as (c' & E & Hok' & Hh'); [by apply lookup_insert_eq|done|]. simpl in E.
      destruct (relay_ingress cell op c1) as [[o c2]|]; simpl in *; [|done]. injection E as <- ->. by exists kr1, c'.
  - unfold keyed_drain. destruct (shards kr !! k) as [cell|] eqn:Ek; simpl.
    + destruct (shard_step c kr m k cell RDrain Hok Hh Ek Hl) as (c' & E & Hok' & Hh'). simpl in E.
      destruct (relay_drain cell c) as [[o c1]|]; simpl in *; [|done]. injection E as <- ->. by exists kr, c'.
    + pose proof Hh as [Hm Hh' Ha]. exists kr, c. rewrite (Hm k Ek). simpl. split_and!; try done. split; [|intros k' cell' Hk'|done].
      * intros k' Hk'. case_decide; [done|by apply Hm].
      * case_decide; [congruence|by apply Hh'].
Qed.

Lemma keyed_run_ok es : ∀ c kr m, ctx_ok c → shards_hold c kr m → legal (k_overflow kr) →
  (∀ k, Z.of_nat (length (w_ops (m k))) + Z.of_nat (length es) < two64) →
  ∃ l kr' c' m', keyed_run kr es c = Some (l, kr', c') ∧ shards_hold c' kr' m' ∧
    ∀ k, answers_of k es l = (core_run window_step (m k) (events_of k es)).1 ∧ m' k = (core_run window_step (m k) (events_of k es)).2.
Proof.
  induction es as [|e es IH]; intros c kr m Hok Hh Hleg Hl; [by exists [], kr, c, m|]. cbn [length] in Hl.
  destruct (keyed_step_ok c kr m e Hok Hh Hleg) as (kr1 & c1 & E1 & Hok1 & Ho & _ & Hh1); [specialize (Hl (event_key e)); lia|].
  destruct (IH c1 kr1 _ Hok1 Hh1) as (l & kr2 & c2 & m' & E2 & Hh2 & Hans); [by rewrite Ho| |].
  { intros k. specialize (Hl k). case_decide as Ek; [|lia]. rewrite <- Ek in Hl. pose proof (window_length (m (event_key e)) (shard_event e)). lia. }
  exists ((window_step (m (event_key e)) (shard_event e)).1 :: l), kr2, c2, m'. split_and!; [|done|].
  - cbn [keyed_run]. rewrite E1. simpl. by rewrite E2.
  - intros k. specialize (Hans k). unfold answers_of, events_of in *. cbn [zip_with].
    change (e :: es) with ([e] ++ es). rewrite omap_app. change (?x :: zip es l) with ([x] ++ zip es l). rewrite omap_app. cbn.
    case_decide as Ek; [|exact Hans]. subst k. simpl. destruct (window_step (m (event_key e)) (shard_event e)) as [a w1]. simpl in *.
    destruct (core_run window_step w1 _) as [l' w']. simpl in *. destruct Hans as [-> ->]. done.
Qed.
End keyed.

(** From its construction on a keyed relay answers, key by key, as a relay of
    its own would. *)
Lemma keyed_relay_is_a_relay_per_key {C H T K : Type} `{SourceContextLaws C H (RelayValue T)} `{MergePolicy T} `{Countable K}
    (hw : Z) (o : Overflow) (es : list (KeyedEvent (T:=T) (K:=K))) (c : C) :
  ctx_ok c → legal o → Z.of_nat (length es) < two64 →
  ∃ l kr c', keyed_run (keyed_new hw o) es c = Some (l, kr, c') ∧
    ∀ k, answers_of k es l = (core_run window_step (mkWindow [] Count hw (hw / 2) o) (events_of k es)).1.
Proof.
  intros Hok Hleg Hl. destruct (keyed_run_ok es c (keyed_new hw o) (λ _, mkWindow [] Count hw (hw / 2) o) Hok) as (l & kr & c' & m' & E & _ & Hans).
  - split; [done|intros k cell Hk|intros k k' cell cell' h Hk]; simpl in Hk; by rewrite lookup_empty in Hk.
  - done.
  - intros _. simpl. lia.
  - exists l, kr, c'. split; [done|]. intros k. by destruct (Hans k).
Qed.

Module Sample.
#[local] Existing Instances Max Max_laws.
#[export] Instance RelayValue_eq_dec : EqDecision (RelayValue Z).
Proof. intros x y. unfold Decision. repeat decide equality. Defined.
Definition events : list (RelayEvent (T:=Z)) :=
  [RIngress 3; RIngress 7; RDrain; RIngress 5; RHigh 1; RIngress 9; ROverflow Block; RIngress 2; RDrain; RIngress 4].

Lemma relay_converges_witness :
  let c : Ctx (RelayValue Z) := empty_ctx in
  let w := mkWindow [] Count 2 1 Conflate in let '(answers, w') := core_run window_step w events in
  answers = [AOutcome Accepted; AOutcome Conflated; ADrained (Some 7); AOutcome Accepted; ATuned; AOutcome Conflated; ATuned;
             AOutcome Blocked; ADrained (Some 9); AOutcome Accepted] ∧
  ∃ cell c1 c2, relay_make Count 2 1 Conflate c = Some (inr cell, c1) ∧ relay_run cell events c1 = Some (answers, c2) ∧
    relay_peek cell c2 = Some (Some 4) ∧ take_window (egress 0 answers) (Some 4) = fold_merge 0 (survivors w events) ∧
    survivors w events = [3; 7; 5; 9; 4].
Proof.
  destruct (relay_converges (H:=Handle) (T:=Z) (MP:=Max) Count 2 1 Conflate events 0 (empty_ctx : Ctx (RelayValue Z)) (empty_ctx_ok (T:=RelayValue Z)) (λ _, eq_refl) eq_refl)
    as (cell & c1 & c2 & E1 & E2 & E3 & _ & _ & _ & _ & E4 & _).
  split; [reflexivity|]. exists cell, c1, c2. split; [exact E1|]. split; [exact E2|]. split; [exact E3|]. split; [exact E4|]. reflexivity.
Defined.
End Sample.
