(* ===== verification/Replay.v ===== *)
(** * Replay: the replay-equivalence proof

    Models include/lazily/replay.hpp: the values an observation can carry and
    their canonical bytes, event logs and fingerprints with their digests, and
    the harness that rebuilds a graph from a log and compares what it observes.
    A double is its 64 bits.  The graph is given by its user: building,
    applying and observing act on a world, may answer differently each time
    and may throw. *)
From Stdlib Require Import String.
From S2P Require Import Prelude Bytes Json.
#[local] Open Scope Z_scope.

(* include/lazily/replay.hpp:93-93, kReplayInitialSeq *)
Definition kReplayInitialSeq : Z := -1.

(** ** Values *)

(* include/lazily/replay.hpp:169-279, ReplayValue *)
Inductive ReplayValue :=
  | VNull
  | VBool (value : bool)
  | VInt (value : Z)
  | VFloat (bits : Z)
  | VStr (value : list Z)
  | VBytes (value : list Z)
  | VSeq (items : list ReplayValue)
  | VSet (items : list ReplayValue)
  | VMap (entries : list (ReplayValue * ReplayValue))
  | VRecord (type_name : list Z) (fields : list (list Z * ReplayValue))
  | VOpaque (type_name : list Z).

Lemma replay_value_ind (P : ReplayValue → Prop) :
  P VNull → (∀ b, P (VBool b)) → (∀ z, P (VInt z)) → (∀ z, P (VFloat z)) → (∀ s, P (VStr s)) → (∀ s, P (VBytes s)) →
  (∀ l, Forall P l → P (VSeq l)) → (∀ l, Forall P l → P (VSet l)) → (∀ l, Forall (λ e, P e.1 ∧ P e.2) l → P (VMap l)) →
  (∀ n l, Forall (λ e, P e.2) l → P (VRecord n l)) → (∀ n, P (VOpaque n)) → ∀ v, P v.
Proof.
  intros Hn Hb Hi Hf Hs Hy Hl Ht Hm Hr Ho. fix IH 1.
  intros [|b|z|z|s|s|l|l|l|n l|n]; [done|apply Hb|apply Hi|apply Hf|apply Hs|apply Hy|apply Hl|apply Ht|apply Hm|apply Hr|apply Ho].
  - induction l as [|v l IHl]; constructor; [apply IH|exact IHl].
  - induction l as [|v l IHl]; constructor; [apply IH|exact IHl].
  - induction l as [|[k v] l IHl]; constructor; [split; apply IH|exact IHl].
  - induction l as [|[k v] l IHl]; constructor; [apply IH|exact IHl].
Qed.

(** ** The canonical encoding *)

(* include/lazily/replay.hpp:290-295, frame *)
Definition frame (tag : Z) (body : list Z) : list Z := [tag] ++ to_string (Z.of_nat (length body)) ++ [58] ++ body.

Definition kDigit (d : Z) : Z := if d <? 10 then 48 + d else 87 + d.
(* include/lazily/replay.hpp:305-308, float_bits_hex (loop) *)
Fixpoint hex_loop (n : nat) (bits : Z) (out : list Z) : list Z :=
  match n with O => out | S n => hex_loop n (Z.shiftr bits 4) (kDigit (Z.land bits 15) :: out) end.
(* include/lazily/replay.hpp:300-310, float_bits_hex *)
Definition float_bits_hex (bits : Z) : list Z := hex_loop 16 bits [].

(** What the members of an aggregate are encoded with, and where. *)
Definition Encoder : Type := ReplayValue → list Z → list Z + list Z.

Definition encode_items (enc : Encoder) (at_ : Z → list Z) : Z → list ReplayValue → list Z + list (list Z) :=
  fix go i items :=
    match items with
    | [] => inr []
    | v :: items => match enc v (at_ i) with inl e => inl e | inr b => match go (i + 1) items with inl e => inl e | inr l => inr (b :: l) end end
    end.
Definition encode_entries (enc : Encoder) (path : list Z) : list (ReplayValue * ReplayValue) → list Z + list (list Z) :=
  fix go entries :=
    match entries with
    | [] => inr []
    | (k, v) :: entries =>
        match enc k (path ++ bytes_of "[key]") with
        | inl e => inl e
        | inr b =>
            match enc v (path ++ bytes_of "[value]") with
            | inl e => inl e
            | inr b' => match go entries with inl e => inl e | inr l => inr ((b ++ b') :: l) end
            end
        end
    end.
Definition encode_fields (enc : Encoder) (path : list Z) : list (list Z * ReplayValue) → list Z + list (list Z) :=
  fix go fields :=
    match fields with
    | [] => inr []
    | (n, v) :: fields =>
        match enc v (path ++ [46] ++ n) with
        | inl e => inl e
        | inr b => match go fields with inl e => inl e | inr l => inr ((frame 115 n ++ b) :: l) end
        end
    end.

(** The error names the path to the offending member. *)
(* include/lazily/replay.hpp:314-400, encode *)
Fixpoint encode (v : ReplayValue) (path : list Z) : list Z + list Z :=
  match v with
  | VNull => inr (bytes_of "n0:")
  | VBool b => inr (if b then bytes_of "b1:1" else bytes_of "b1:0")
  | VInt z => inr (frame 105 (to_string z))
  | VFloat bits => inr (frame 102 (float_bits_hex bits))
  | VStr s => inr (frame 115 s)
  | VBytes s => inr (frame 121 s)
  | VSeq items =>
      match encode_items encode (λ i, path ++ bytes_of "[" ++ to_string i ++ bytes_of "]") 0 items with
      | inl e => inl e | inr l => inr (frame 108 (concat l))
      end
  | VSet items =>
      match encode_items encode (λ _, path ++ bytes_of "{}") 0 items with
      | inl e => inl e | inr l => inr (frame 116 (concat (merge_sort bytes_le l)))
      end
  | VMap entries =>
      match encode_entries encode path entries with
      | inl e => inl e | inr l => inr (frame 109 (concat (merge_sort bytes_le l)))
      end
  | VRecord n fields =>
      match encode_fields encode path fields with
      | inl e => inl e | inr l => inr (frame 100 (frame 115 n ++ concat l))
      end
  | VOpaque n =>
      inl (path ++ bytes_of ": '" ++ n ++
           bytes_of "' has no canonical encoding; observe a plain value, a record, or a map/sequence/set of them instead. Falling back on a host rendering would embed an address or a mangled type name and report a false divergence on every run.")
  end.

(* include/lazily/replay.hpp:411-416, canonical_bytes *)
Definition canonical_bytes (v : ReplayValue) : list Z + list Z := encode v (bytes_of "value").
(* include/lazily/replay.hpp:421-421, canonical_digest *)
Definition canonical_digest (v : ReplayValue) : list Z + list Z := canonical_bytes v.
(* include/lazily/replay.hpp:424-434, replay_hex *)
Definition replay_hex (digest : list Z) : list Z := digest ≫= λ b, [kDigit (Z.shiftr b 4); kDigit (Z.land b 15)].

(** With a separator after the first. *)
Fixpoint separated (l : list (list Z)) : list Z :=
  match l with [] => [] | [x] => x | x :: l => x ++ bytes_of ", " ++ separated l end.
(* include/lazily/replay.hpp:445-502, render *)
Fixpoint render (v : ReplayValue) : list Z :=
  match v with
  | VNull => bytes_of "null"
  | VBool b => if b then bytes_of "true" else bytes_of "false"
  | VInt z => to_string z
  | VFloat bits => bytes_of "float(0x" ++ float_bits_hex bits ++ bytes_of ")"
  | VStr s => [34] ++ s ++ [34]
  | VBytes s => bytes_of "0x" ++ replay_hex s
  | VSeq items => bytes_of "[" ++ separated (render <$> items) ++ bytes_of "]"
  | VSet items => bytes_of "{" ++ separated (render <$> items) ++ bytes_of "}"
  | VMap entries => bytes_of "{" ++ separated ((λ '(k, v), render k ++ bytes_of ": " ++ render v) <$> entries) ++ bytes_of "}"
  | VRecord n fields => n ++ bytes_of "(" ++ separated ((λ '(f, v), f ++ bytes_of "=" ++ render v) <$> fields) ++ bytes_of ")"
  | VOpaque n => bytes_of "<opaque " ++ n ++ bytes_of ">"
  end.
(** [None] when the size asked for is more than a string can have: below three
    the subtraction wraps. *)
(* include/lazily/replay.hpp:506-514, replay_preview *)
Definition replay_preview (v : ReplayValue) (limit : Z) : option (list Z) :=
  let out := render v in
  if negb (limit =? 0) && (limit <? Z.of_nat (length out)) then
    let size := u64 (limit - 3) in
    if Z.of_nat (length out) <? size then None else Some (take (Z.to_nat size) out ++ bytes_of "...")
  else Some out.

(** ** What the bytes tell apart *)

(** The encoding without the paths of its errors: a tag and a body. *)
Definition tag (v : ReplayValue) : Z :=
  match v with
  | VNull => 110 | VBool _ => 98 | VInt _ => 105 | VFloat _ => 102 | VStr _ => 115 | VBytes _ => 121
  | VSeq _ => 108 | VSet _ => 116 | VMap _ => 109 | VRecord _ _ => 100 | VOpaque _ => 0
  end.
Fixpoint body (v : ReplayValue) : option (list Z) :=
  let canon v := frame (tag v) <$> body v in
  match v with
  | VNull => Some []
  | VBool b => Some [if b then 49 else 48]
  | VInt z => Some (to_string z)
  | VFloat bits => Some (float_bits_hex bits)
  | VStr s | VBytes s => Some s
  | VSeq items => (@concat Z) <$> mapM canon items
  | VSet items => (λ l, concat (merge_sort bytes_le l)) <$> mapM canon items
  | VMap entries => (λ l, concat (merge_sort bytes_le l)) <$> mapM (λ '(k, v), b ← canon k; b' ← canon v; Some (b ++ b')) entries
  | VRecord n fields => (λ l, frame 115 n ++ concat l) <$> mapM (λ '(f, v), b ← canon v; Some (frame 115 f ++ b)) fields
  | VOpaque _ => None
  end.
Definition canon (v : ReplayValue) : option (list Z) := frame (tag v) <$> body v.
Definition canon_entry (e : ReplayValue * ReplayValue) : option (list Z) := b ← canon e.1; b' ← canon e.2; Some (b ++ b').
Definition canon_field (e : list Z * ReplayValue) : option (list Z) := b ← canon e.2; Some (frame 115 e.1 ++ b).

Lemma body_unfold v : body v =
  match v with
  | VNull => Some []
  | VBool b => Some [if b then 49 else 48]
  | VInt z => Some (to_string z)
  | VFloat bits => Some (float_bits_hex bits)
  | VStr s | VBytes s => Some s
  | VSeq items => (@concat Z) <$> mapM canon items
  | VSet items => (λ l, concat (merge_sort bytes_le l)) <$> mapM canon items
  | VMap entries => (λ l, concat (merge_sort bytes_le l)) <$> mapM canon_entry entries
  | VRecord n fields => (λ l, frame 115 n ++ concat l) <$> mapM canon_field fields
  | VOpaque _ => None
  end.
Proof.
  destruct v as [| | | | | |l|l|l|n l|]; try done; cbn [body]; f_equal; apply Forall2_mapM_ext, Forall_Forall2_diag, Forall_forall; intros [k v] _; done.
Qed.

Definition gives (r : list Z + list Z) (o : option (list Z)) : Prop :=
  match o with Some b => r = inr b | None => ∃ e, r = inl e end.
Definition gives_all (r : list Z + list (list Z)) (o : option (list (list Z))) : Prop :=
  match o with Some l => r = inr l | None => ∃ e, r = inl e end.

Lemma items_give (items : list ReplayValue) at_ : Forall (λ v, ∀ p, gives (encode v p) (canon v)) items →
  ∀ i, gives_all (encode_items encode at_ i items) (mapM canon items).
Proof.
  induction 1 as [|v items Hv _ IH]; intros i; simpl; [done|]. specialize (Hv (at_ i)). specialize (IH (i + 1)).
  destruct (canon v) as [b|]; simpl in *; [rewrite Hv|destruct Hv as [e ->]; by exists e].
  destruct (mapM canon items) as [l|]; simpl in *; [by rewrite IH|destruct IH as [e ->]; by exists e].
Qed.

Lemma encode_gives v : ∀ p, gives (encode v p) (canon v).
Proof.
  induction v as [|b|z|z|s|s|l IH|l IH|l IH|n l IH|n] using replay_value_ind; intros p; unfold canon; rewrite body_unfold; try done.
  - by destruct b.
  - pose proof (items_give l (λ i, p ++ bytes_of "[" ++ to_string i ++ bytes_of "]") IH 0) as H. simpl. destruct (mapM canon l); simpl in *; [by rewrite H|].
    destruct H as [e ->]. by exists e.
  - pose proof (items_give l (λ _, p ++ bytes_of "{}") IH 0) as H. simpl. destruct (mapM canon l); simpl in *; [by rewrite H|].
    destruct H as [e ->]. by exists e.
  - assert (H : gives_all (encode_entries encode p l) (mapM canon_entry l)).
    { induction IH as [|[k v] l [Hk Hv] _ IHl]; simpl in *; [done|]. specialize (Hk (p ++ bytes_of "[key]")). specialize (Hv (p ++ bytes_of "[value]")).
      change (canon_entry (k, v)) with (b ← canon k; b' ← canon v; Some (b ++ b')). cbn [fst snd] in *. destruct (canon k) as [b|]; simpl in *; [rewrite Hk|destruct Hk as [e ->]; by exists e].
      destruct (canon v) as [b'|]; simpl in *; [rewrite Hv|destruct Hv as [e ->]; by exists e].
      destruct (mapM canon_entry l); simpl in *; [by rewrite IHl|destruct IHl as [e ->]; by exists e]. }
    simpl. destruct (mapM canon_entry l); simpl in *; [by rewrite H|]. destruct H as [e ->]. by exists e.
  - assert (H : gives_all (encode_fields encode p l) (mapM canon_field l)).
    { induction IH as [|[f v] l Hv _ IHl]; simpl in *; [done|]. specialize (Hv (p ++ [46] ++ f)).
      change (canon_field (f, v)) with (b ← canon v; Some (frame 115 f ++ b)). cbn [fst snd] in *. destruct (canon v) as [b|]; simpl in *; [rewrite Hv|destruct Hv as [e ->]; by exists e].
      destruct (mapM canon_field l); simpl in *; [by rewrite IHl|destruct IHl as [e ->]; by exists e]. }
    simpl. destruct (mapM canon_field l); simpl in *; [by rewrite H|]. destruct H as [e ->]. by exists e.
  - by eexists.
Qed.

(** *** Frames *)

Lemma digits_then (ds ds' x x' : list Z) : Forall (λ c, is_digit c = true) ds → Forall (λ c, is_digit c = true) ds' →
  ds ++ [58] ++ x = ds' ++ [58] ++ x' → ds = ds' ∧ x = x'.
Proof.
  intros Hd. revert ds'. induction Hd as [|d ds Hd _ IH]; intros ds' Hd' E; destruct Hd' as [|d' ds' Hd' Hds']; simpl in E.
  - by injection E.
  - injection E as <- _. done.
  - injection E as -> _. done.
  - injection E as -> E. destruct (IH ds' Hds' E) as [-> ->]. done.
Qed.

Lemma nat_string_ok n : 0 ≤ n < two64 → Forall (λ c, is_digit c = true) (to_string n) ∧ decimal (to_string n) = n.
Proof.
  intros Hn. unfold to_string. destruct (Z.ltb_spec n 0); [lia|].
  destruct (digits_ok 20 n) as (Hd & Hv & _); [change (10 ^ Z.of_nat 20) with 100000000000000000000; unfold two64 in *; lia|done].
Qed.

Lemma frame_inj t t' b b' r r' : Z.of_nat (length b) < two64 → Z.of_nat (length b') < two64 →
  frame t b ++ r = frame t' b' ++ r' → t = t' ∧ b = b' ∧ r = r'.
Proof.
  intros Hb Hb' E. unfold frame in E. rewrite <- !app_assoc in E. simpl in E. injection E as <- E. split; [done|].
  destruct (nat_string_ok (Z.of_nat (length b)) ltac:(lia)) as [Hd Hv]. destruct (nat_string_ok (Z.of_nat (length b')) ltac:(lia)) as [Hd' Hv'].
  destruct (digits_then _ _ (b ++ r) (b' ++ r') Hd Hd') as [Es Ex]; [exact E|].
  assert (Hl : length b = length b') by (rewrite Es, Hv' in Hv; lia). by apply app_inj_1.
Qed.

(** A set of strings none of which starts another, nor is empty. *)
Definition delimited (P : list Z → Prop) : Prop := (∀ a, P a → a ≠ []) ∧ ∀ a b r r', P a → P b → a ++ r = b ++ r' → a = b ∧ r = r'.

Lemma delimited_concat P l l' : delimited P → Forall P l → Forall P l' → concat l = concat l' → l = l'.
Proof.
  intros [Hne Hp] Hl. revert l'. induction Hl as [|a l Ha _ IH]; intros l' Hl' E; destruct Hl' as [|b l' Hb Hl']; simpl in E.
  - done.
  - symmetry in E. apply app_nil in E as [E _]. by apply Hne in Hb.
  - apply app_nil in E as [E _]. by apply Hne in Ha.
  - destruct (Hp _ _ _ _ Ha Hb E) as [-> E']. f_equal. by apply IH.
Qed.

Definition is_frame (a : list Z) : Prop := ∃ t b, a = frame t b ∧ Z.of_nat (length b) < two64.
Definition is_pair (a : list Z) : Prop := ∃ x y, a = x ++ y ∧ is_frame x ∧ is_frame y.

Lemma frames_delimited : delimited is_frame.
Proof.
  split; [by intros a (t & b & -> & _)|]. intros a b r r' (t & x & -> & Hx) (t' & y & -> & Hy) E.
  by destruct (frame_inj _ _ _ _ _ _ Hx Hy E) as (-> & -> & ->).
Qed.
Lemma pairs_delimited : delimited is_pair.
Proof.
  split.
  - intros a (x & y & -> & Hx & _) E. apply app_nil in E as [E _]. by apply (proj1 frames_delimited) in Hx.
  - intros a b r r' (x & y & -> & Hx & Hy) (x' & y' & -> & Hx' & Hy') E. rewrite <- !app_assoc in E.
    destruct (proj2 frames_delimited _ _ _ _ Hx Hx' E) as [-> E']. by destruct (proj2 frames_delimited _ _ _ _ Hy Hy' E') as [-> ->].
Qed.

Lemma canon_frame v b : canon v = Some b → Z.of_nat (length b) < two64 → is_frame b.
Proof.
  unfold canon. destruct (body v) as [x|]; simpl; [|done]. intros [= <-] Hl. exists (tag v), x. split; [done|].
  unfold frame in Hl. rewrite !length_app in Hl. simpl in Hl. lia.
Qed.

Lemma length_in_concat (a : list Z) l : a ∈ l → (length a ≤ length (concat l))%nat.
Proof. induction 1 as [|a b l _ IH]; simpl; rewrite length_app; lia. Qed.

Lemma frame_body_length t b : (length b ≤ length (frame t b))%nat.
Proof. unfold frame. rewrite !length_app. simpl. lia. Qed.

(** *** Numbers *)

Lemma to_string_inj z z' : is_i64 z → is_i64 z' → to_string z = to_string z' → z = z'.
Proof.
  unfold is_i64, i64_min, i64_max. intros Hz Hz' E.
  assert (Hok : ∀ m, 0 ≤ m ≤ 9223372036854775808 → Forall (λ c, is_digit c = true) (digits 20 m) ∧ decimal (digits 20 m) = m).
  { intros m Hm. destruct (digits_ok 20 m) as (? & ? & _); [change (10 ^ Z.of_nat 20) with 100000000000000000000; lia|done]. }
  assert (Hsign : ∀ m ds, Forall (λ c, is_digit c = true) (digits 20 m) → 45 :: ds ≠ digits 20 m).
  { intros m ds Hd Eq. rewrite <- Eq in Hd. by apply Forall_cons in Hd as [? _]. }
  unfold to_string in E. destruct (Z.ltb_spec z 0), (Z.ltb_spec z' 0).
  - assert (Htail : ∀ (x y : list Z) a, a :: x = a :: y → x = y) by (by intros x y a [=]). apply Htail in E.
    destruct (Hok (- z) ltac:(lia)) as [_ Hv]. destruct (Hok (- z') ltac:(lia)) as [_ Hv']. rewrite E in Hv. lia.
  - exfalso. apply (Hsign z' _ (proj1 (Hok z' ltac:(lia))) E).
  - exfalso. apply (Hsign z (digits 20 (- z')) (proj1 (Hok z ltac:(lia)))). by rewrite E.
  - destruct (Hok z ltac:(lia)) as [_ Hv]. destruct (Hok z' ltac:(lia)) as [_ Hv']. rewrite E in Hv. lia.
Qed.

Lemma kDigit_inj d d' : 0 ≤ d < 16 → 0 ≤ d' < 16 → kDigit d = kDigit d' → d = d'.
Proof. unfold kDigit. intros. destruct (Z.ltb_spec d 10), (Z.ltb_spec d' 10); lia. Qed.

Lemma hex_loop_inj n : ∀ a b out out', 0 ≤ a → 0 ≤ b → length out = length out' → hex_loop n a out = hex_loop n b out' →
  out = out' ∧ a mod 16 ^ Z.of_nat n = b mod 16 ^ Z.of_nat n.
Proof.
  induction n as [|n IH]; intros a b out out' Ha Hb Hl E; simpl in E; [change (16 ^ Z.of_nat 0) with 1; by rewrite !Z.mod_1_r|].
  apply IH in E as [E Hm]; [|rewrite Z.shiftr_nonneg; lia|rewrite Z.shiftr_nonneg; lia|simpl; by rewrite Hl].
  injection E as Ed ->. split; [done|]. rewrite !Z.shiftr_div_pow2 in Hm by lia. change (2 ^ 4) with 16 in Hm.
  change 15 with (Z.ones 4) in Ed. rewrite !Z.land_ones in Ed by lia. change (2 ^ 4) with 16 in Ed.
  apply kDigit_inj in Ed; [|apply Z.mod_pos_bound; lia|apply Z.mod_pos_bound; lia].
  replace (Z.of_nat (S n)) with (1 + Z.of_nat n) by lia. rewrite Z.pow_add_r, Z.pow_1_r by lia.
  rewrite !Z.rem_mul_r by lia. lia.
Qed.

Lemma float_bits_hex_inj a b : is_u64 a → is_u64 b → float_bits_hex a = float_bits_hex b → a = b.
Proof.
  unfold is_u64, float_bits_hex. intros Ha Hb E. apply hex_loop_inj in E as [_ E]; [|lia|lia|done].
  change (16 ^ Z.of_nat 16) with two64 in E. by rewrite !Z.mod_small in E by lia.
Qed.

(** *** Values with the same bytes *)

(** The values the program can hold: integers and bit patterns of 64 bits. *)
Fixpoint replay_value_ok (v : ReplayValue) : bool :=
  match v with
  | VInt z => bool_decide (i64_min ≤ z ≤ i64_max)
  | VFloat b => bool_decide (0 ≤ b < two64)
  | VSeq l | VSet l => forallb replay_value_ok l
  | VMap l => forallb (λ '(k, v), replay_value_ok k && replay_value_ok v) l
  | VRecord _ l => forallb (λ '(_, v), replay_value_ok v) l
  | _ => true
  end.

(** Equal up to the order of the members of sets and the entries of maps. *)
Inductive same : ReplayValue → ReplayValue → Prop :=
  | same_null : same VNull VNull
  | same_bool b : same (VBool b) (VBool b)
  | same_int z : same (VInt z) (VInt z)
  | same_float z : same (VFloat z) (VFloat z)
  | same_str s : same (VStr s) (VStr s)
  | same_bytes s : same (VBytes s) (VBytes s)
  | same_seq l l' : Forall2 same l l' → same (VSeq l) (VSeq l')
  | same_set l m l' : l ≡ₚ m → Forall2 same m l' → same (VSet l) (VSet l')
  | same_map l m l' : l ≡ₚ m → Forall2 (λ e e', same e.1 e'.1 ∧ same e.2 e'.2) m l' → same (VMap l) (VMap l')
  | same_record n l l' : Forall2 (λ e e', e.1 = e'.1 ∧ same e.2 e'.2) l l' → same (VRecord n l) (VRecord n l').

Lemma sorted_concat_perm P l l' : delimited P → Forall P l → Forall P l' →
  concat (merge_sort bytes_le l) = concat (merge_sort bytes_le l') ↔ l ≡ₚ l'.
Proof.
  intros HP Hl Hl'. split.
  - intros E. apply (delimited_concat P) in E; [|done|by rewrite merge_sort_Permutation|by rewrite merge_sort_Permutation].
    by rewrite <- (merge_sort_Permutation bytes_le l), E, merge_sort_Permutation.
  - intros Hp. f_equal. apply (Sorted_unique bytes_le); [apply Sorted_merge_sort; apply _..|]. by rewrite !merge_sort_Permutation.
Qed.

(** The members' encodings are frames, and equal ones come from same members. *)
Lemma members_frames {A} (f : A → option (list Z)) (P : list Z → Prop) l bs n : mapM f l = Some bs →
  (∀ x b, x ∈ l → f x = Some b → Z.of_nat (length b) < two64 → P b) → (length (concat bs) ≤ n)%nat → Z.of_nat n < two64 → Forall P bs.
Proof.
  intros Hm HP Hl Hn. apply mapM_Some in Hm. apply Forall_forall. intros b Hb. apply list_elem_of_lookup in Hb as [i Hi].
  destruct (Forall2_lookup_r _ _ _ _ _ Hm Hi) as (x & Hx & Hf). apply (HP x b); [by eapply list_elem_of_lookup_2|done|].
  assert (Hb : b ∈ bs) by (by eapply list_elem_of_lookup_2). pose proof (length_in_concat b bs Hb). lia.
Qed.

Lemma members_same {A} (f : A → option (list Z)) (R : A → A → Prop) l l' bs : mapM f l = Some bs → mapM f l' = Some bs →
  (∀ x y b, x ∈ l → y ∈ l' → b ∈ bs → f x = Some b → f y = Some b → R x y) → Forall2 R l l'.
Proof.
  intros Hl%mapM_Some Hl'%mapM_Some HR. apply Forall2_same_length_lookup. split.
  - rewrite (Forall2_length _ _ _ Hl), (Forall2_length _ _ _ Hl'). done.
  - intros i x y Hx Hy. destruct (Forall2_lookup_l _ _ _ _ _ Hl Hx) as (b & Hb & Hf). destruct (Forall2_lookup_l _ _ _ _ _ Hl' Hy) as (b' & Hb' & Hf').
    simplify_eq. apply (HR x y b); try done; by eapply list_elem_of_lookup_2.
Qed.

Lemma mapM_perm {A} (f : A → option (list Z)) l bs bs' : mapM f l = Some bs → bs ≡ₚ bs' → ∃ m, l ≡ₚ m ∧ mapM f m = Some bs'.
Proof.
  intros Hl%mapM_Some Hp. apply Forall2_flip in Hl. destruct (Permutation_Forall2 Hp Hl) as (m & Hm & Hf).
  exists m. split; [done|]. apply mapM_Some. by apply Forall2_flip.
Qed.
Lemma mapM_perm_back {A} (f : A → option (list Z)) l m bs' : l ≡ₚ m → mapM f m = Some bs' → ∃ bs, mapM f l = Some bs ∧ bs ≡ₚ bs'.
Proof.
  intros Hp Hm%mapM_Some. destruct (Permutation_Forall2 (symmetry Hp) Hm) as (bs & Hbs & Hf). exists bs. split; [by apply mapM_Some|done].
Qed.

Lemma merge_sort_concat_length l : length (concat (merge_sort bytes_le l)) = length (concat l).
Proof.
  assert (H : ∀ k k' : list (list Z), k ≡ₚ k' → length (concat k) = length (concat k')).
  { induction 1; simpl; rewrite ?length_app; lia. }
  apply H, merge_sort_Permutation.
Qed.

Lemma canon_field_frame e b : canon_field e = Some b → Z.of_nat (length b) < two64 → is_pair b.
Proof.
  destruct e as [f v]. unfold canon_field. cbn [fst snd]. destruct (canon v) as [x|] eqn:Ex; cbn [mbind option_bind]; [|done]. intros E Hl. apply (inj Some) in E. subst b.
  rewrite length_app in Hl. exists (frame 115 f), x. split; [done|]. split; [|eapply canon_frame; [done|lia]].
  exists 115, f. split; [done|]. pose proof (frame_body_length 115 f). lia.
Qed.
Lemma canon_entry_frame e b : canon_entry e = Some b → Z.of_nat (length b) < two64 → is_pair b.
Proof.
  destruct e as [k v]. unfold canon_entry. cbn [fst snd]. destruct (canon k) as [x|] eqn:Ex; cbn [mbind option_bind]; [|done].
  destruct (canon v) as [y|] eqn:Ey; cbn [mbind option_bind]; [|done]. intros E Hl. apply (inj Some) in E. subst b. rewrite length_app in Hl.
  exists x, y. split; [done|]. split; eapply canon_frame; (done || lia).
Qed.

Definition fits (b : list Z) : Prop := Z.of_nat (length b) < two64.

Lemma canon_parts v w b : canon v = Some b → canon w = Some b → fits b →
  tag v = tag w ∧ ∃ x, body v = Some x ∧ body w = Some x ∧ fits x.
Proof.
  unfold canon, fits. intros (x & Hx & Ex)%fmap_Some (y & Hy & Ey)%fmap_Some Hl. rewrite Ex in Ey, Hl.
  pose proof (frame_body_length (tag v) x). assert (length (frame (tag v) x) = length (frame (tag w) y)) by by f_equal.
  pose proof (frame_body_length (tag w) y).
  destruct (frame_inj (tag v) (tag w) x y [] []) as (Et & -> & _); [lia|lia|by rewrite !app_nil_r|].
  split; [done|]. exists y. split_and!; [done|done|lia].
Qed.

Lemma fits_part (b c : list Z) l : b ∈ l → (length (concat l) ≤ length c)%nat → fits c → fits b.
Proof. unfold fits. intros Hb Hl Hc. pose proof (length_in_concat b l Hb). lia. Qed.

Lemma forallb_elem {A} (f : A → bool) l x : forallb f l = true → x ∈ l → f x = true.
Proof. intros H Hx. rewrite forallb_forall in H. apply H. by apply list_elem_of_In. Qed.

Lemma entry_parts k u k' u' b : canon_entry (k, u) = Some b → canon_entry (k', u') = Some b → fits b →
  ∃ bk bu, canon k = Some bk ∧ canon k' = Some bk ∧ canon u = Some bu ∧ canon u' = Some bu ∧ fits bk ∧ fits bu.
Proof.
  unfold canon_entry, fits. cbn [fst snd]. intros (bk & Ek & E)%bind_Some (bk' & Ek' & E')%bind_Some Hl.
  apply bind_Some in E as (bu & Eu & E). apply bind_Some in E' as (bu' & Eu' & E'). apply (inj Some) in E, E'. subst b.
  assert (Hl' := Hl). rewrite <- E' in Hl'. rewrite length_app in Hl, Hl'.
  assert (F1 : is_frame bk) by (eapply canon_frame; [done|lia]). assert (F2 : is_frame bk') by (eapply canon_frame; [done|lia]).
  destruct (proj2 frames_delimited _ _ _ _ F2 F1 E') as [-> ->]. exists bk, bu. split_and!; (done || lia).
Qed.
Lemma field_parts f u f' u' b : canon_field (f, u) = Some b → canon_field (f', u') = Some b → fits b →
  f = f' ∧ ∃ bu, canon u = Some bu ∧ canon u' = Some bu ∧ fits bu.
Proof.
  unfold canon_field, fits. cbn [fst snd]. intros (bu & Eu & E)%bind_Some (bu' & Eu' & E')%bind_Some Hl. apply (inj Some) in E, E'. subst b.
  assert (Hl' := Hl). rewrite <- E' in Hl'. rewrite length_app in Hl, Hl'.
  pose proof (frame_body_length 115 f). pose proof (frame_body_length 115 f').
  apply frame_inj in E' as (_ & -> & ->); [|lia|lia]. split; [done|]. exists bu. split_and!; (done || lia).
Qed.

Lemma canon_same v : ∀ w b, replay_value_ok v = true → replay_value_ok w = true → canon v = Some b → canon w = Some b → fits b → same v w.
Proof.
  induction v as [|x|z|z|s|s|l IH|l IH|l IH|n l IH|n] using replay_value_ind; intros w b Hv Hw Eb Ew Hl;
    destruct (canon_parts _ _ _ Eb Ew Hl) as (Et & c & Ec & Ec' & Hc); clear b Eb Ew Hl; destruct w as [|x'|z'|z'|s'|s'|l'|l'|l'|n' l'|n']; try done;
    rewrite body_unfold in Ec, Ec'; simpl in Hv, Hw.
  - constructor.
  - assert (x = x') as <-; [|constructor]. rewrite <- Ec' in Ec. by destruct x, x'.
  - rewrite <- Ec' in Ec. apply (inj Some) in Ec. apply bool_decide_eq_true in Hv, Hw. apply to_string_inj in Ec as <-; [constructor|done|done].
  - rewrite <- Ec' in Ec. apply (inj Some) in Ec. apply bool_decide_eq_true in Hv, Hw. apply float_bits_hex_inj in Ec as <-; [constructor|done|done].
  - rewrite <- Ec' in Ec. apply (inj Some) in Ec as <-. constructor.
  - rewrite <- Ec' in Ec. apply (inj Some) in Ec as <-. constructor.
  - apply fmap_Some in Ec as (bs & Hbs & ->). apply fmap_Some in Ec' as (bs' & Hbs' & E). constructor.
    assert (bs = bs') as <-.
    { apply (delimited_concat is_frame); [apply frames_delimited| | |done].
      - eapply members_frames; [exact Hbs|intros ? ? _; apply canon_frame|reflexivity|exact Hc].
      - eapply members_frames; [exact Hbs'|intros ? ? _; apply canon_frame|rewrite <- E; reflexivity|exact Hc]. }
    eapply members_same; [exact Hbs|exact Hbs'|]. intros u u' b Hu Hu' Hb E1 E2. rewrite Forall_forall in IH.
    apply (IH u Hu u' b); [exact (forallb_elem _ l _ Hv Hu)|exact (forallb_elem _ l' _ Hw Hu')|done|done|]. by eapply fits_part.
  - apply fmap_Some in Ec as (bs & Hbs & ->). apply fmap_Some in Ec' as (bs' & Hbs' & E).
    assert (Hf : (length (concat bs) ≤ length (concat (merge_sort bytes_le bs)))%nat) by by rewrite merge_sort_concat_length.
    assert (Hf' : (length (concat bs') ≤ length (concat (merge_sort bytes_le bs)))%nat) by by rewrite E, merge_sort_concat_length.
    apply (sorted_concat_perm is_frame) in E as Hp; [|apply frames_delimited| |].
    2: { eapply members_frames; [exact Hbs|intros ? ? _; apply canon_frame|exact Hf|exact Hc]. }
    2: { eapply members_frames; [exact Hbs'|intros ? ? _; apply canon_frame|exact Hf'|exact Hc]. }
    destruct (mapM_perm _ _ _ _ Hbs Hp) as (m & Hm & Hbm). apply (same_set _ m); [done|].
    eapply members_same; [exact Hbm|exact Hbs'|]. intros u u' b Hu Hu' Hb E1 E2. rewrite <- Hm in Hu. rewrite Forall_forall in IH.
    apply (IH u Hu u' b); [exact (forallb_elem _ l _ Hv Hu)|exact (forallb_elem _ l' _ Hw Hu')|done|done|]. by eapply fits_part.
  - apply fmap_Some in Ec as (bs & Hbs & ->). apply fmap_Some in Ec' as (bs' & Hbs' & E).
    assert (Hf : (length (concat bs) ≤ length (concat (merge_sort bytes_le bs)))%nat) by by rewrite merge_sort_concat_length.
    assert (Hf' : (length (concat bs') ≤ length (concat (merge_sort bytes_le bs)))%nat) by by rewrite E, merge_sort_concat_length.
    apply (sorted_concat_perm is_pair) in E as Hp; [|apply pairs_delimited| |].
    2: { eapply members_frames; [exact Hbs|intros ? ? _; apply canon_entry_frame|exact Hf|exact Hc]. }
    2: { eapply members_frames; [exact Hbs'|intros ? ? _; apply canon_entry_frame|exact Hf'|exact Hc]. }
    destruct (mapM_perm _ _ _ _ Hbs Hp) as (m & Hm & Hbm). apply (same_map _ m); [done|].
    eapply members_same; [exact Hbm|exact Hbs'|]. intros [k u] [k' u'] b Hu Hu' Hb E1 E2. rewrite <- Hm in Hu. rewrite Forall_forall in IH.
    destruct (IH (k, u) Hu) as [IHk IHu]. pose proof (fits_part _ _ _ Hb Hf' Hc) as Hfit.
    destruct (entry_parts _ _ _ _ _ E1 E2 Hfit) as (bk & bu & Ek & Ek' & Eu & Eu' & Hk & Hu2).
    apply (forallb_elem _ l _ Hv), andb_prop in Hu as [? ?]. apply (forallb_elem _ l' _ Hw), andb_prop in Hu' as [? ?].
    split; [by apply (IHk k' bk)|by apply (IHu u' bu)].
  - apply fmap_Some in Ec as (bs & Hbs & ->). apply fmap_Some in Ec' as (bs' & Hbs' & E).
    assert (Hlen : Z.of_nat (length (frame 115 n)) + Z.of_nat (length (concat bs)) < two64).
    { unfold fits in Hc. rewrite length_app in Hc. lia. }
    assert (Hlen' : Z.of_nat (length (frame 115 n')) + Z.of_nat (length (concat bs')) < two64).
    { unfold fits in Hc. rewrite E, length_app in Hc. lia. }
    pose proof (frame_body_length 115 n). pose proof (frame_body_length 115 n').
    apply frame_inj in E as (_ & <- & E); [|lia|lia]. constructor. assert (bs = bs') as <-.
    { apply (delimited_concat is_pair); [apply pairs_delimited| | |done].
      - eapply members_frames; [exact Hbs|intros ? ? _; apply canon_field_frame|reflexivity|lia].
      - eapply members_frames; [exact Hbs'|intros ? ? _; apply canon_field_frame|reflexivity|lia]. }
    eapply members_same; [exact Hbs|exact Hbs'|]. intros [f u] [f' u'] b Hu Hu' Hb E1 E2. rewrite Forall_forall in IH.
    assert (Hfit : fits b) by (eapply fits_part; [exact Hb|reflexivity|unfold fits; lia]).
    destruct (field_parts _ _ _ _ _ E1 E2 Hfit) as (-> & bu & Eu & Eu' & Hu2). split; [done|].
    apply (IH (f', u) Hu u' bu); [exact (forallb_elem _ l _ Hv Hu)|exact (forallb_elem _ l' _ Hw Hu')|done|done|done].
Qed.

Lemma sorted_perm l l' : l ≡ₚ l' → merge_sort bytes_le l = merge_sort bytes_le l'.
Proof. intros Hp. apply (Sorted_unique bytes_le); [apply Sorted_merge_sort; apply _..|]. by rewrite !merge_sort_Permutation. Qed.

Lemma perm_members {A} (f : A → option (list Z)) l m l' : l ≡ₚ m → mapM f m = mapM f l' →
  (λ bs, concat (merge_sort bytes_le bs)) <$> mapM f l = (λ bs, concat (merge_sort bytes_le bs)) <$> mapM f l'.
Proof.
  intros Hp E. rewrite <- E. destruct (mapM f m) as [bs'|] eqn:Em.
  - destruct (mapM_perm_back f l m bs' Hp Em) as (bs & -> & Hbs). simpl. by rewrite (sorted_perm _ _ Hbs).
  - destruct (mapM f l) as [bs|] eqn:El; [|done]. destruct (mapM_perm_back f m l bs (symmetry Hp) El) as (? & ? & _). congruence.
Qed.

Lemma Forall2_in {A B} (R S : A → B → Prop) l k : Forall2 R l k → (∀ x y, x ∈ l → R x y → S x y) → Forall2 S l k.
Proof. induction 1 as [|x y l k Hxy _ IH]; intros HS; constructor; [apply HS; [by left|done]|]. apply IH. intros; apply HS; [by right|done]. Qed.

Lemma same_canon v : ∀ w, same v w → canon v = canon w.
Proof.
  induction v as [|x|z|z|s|s|l IH|l IH|l IH|n l IH|n] using replay_value_ind; intros w Hs;
    inversion Hs as [| | | | | |? l' Hf|? m l' Hp Hf|? m l' Hp Hf|? ? l' Hf]; subst; try done; unfold canon; rewrite !body_unfold; cbn [tag]; f_equal;
    rewrite Forall_forall in IH.
  - f_equal. apply Forall2_mapM_ext. eapply Forall2_in; [exact Hf|]. intros x y Hx. by apply IH.
  - eapply perm_members; [exact Hp|]. apply Forall2_mapM_ext. eapply Forall2_in; [exact Hf|]. intros x y Hx. apply IH. by rewrite Hp.
  - eapply perm_members; [exact Hp|]. apply Forall2_mapM_ext. eapply Forall2_in; [exact Hf|]. intros [k u] [k' u'] Hx [H1 H2].
    rewrite <- Hp in Hx. destruct (IH _ Hx) as [IHk IHu]. unfold canon_entry. cbn [fst snd] in *. by rewrite (IHk _ H1), (IHu _ H2).
  - f_equal. apply Forall2_mapM_ext. eapply Forall2_in; [exact Hf|]. intros [f u] [f' u'] Hx [H1 H2]. cbn [fst snd] in *. subst f'.
    specialize (IH _ Hx _ H2). unfold canon_field. cbn [fst snd] in *. by rewrite IH.
Qed.

(** A value has bytes unless it holds one that has none. *)
Fixpoint opaque (v : ReplayValue) : bool :=
  match v with
  | VSeq l | VSet l => existsb opaque l
  | VMap l => existsb (λ '(k, v), opaque k || opaque v) l
  | VRecord _ l => existsb (λ '(_, v), opaque v) l
  | VOpaque _ => true
  | _ => false
  end.

Lemma mapM_opaque {A} (f : A → option (list Z)) (g : A → bool) l : (∀ x, x ∈ l → f x = None ↔ g x = true) → mapM f l = None ↔ existsb g l = true.
Proof.
  induction l as [|x l IH]; intros Hfg; simpl; [done|]. rewrite orb_true_iff, <- IH by (intros; apply Hfg; by right).
  pose proof (Hfg x ltac:(by left)) as Hx. destruct (f x) as [b|]; simpl.
  - destruct (mapM f l); simpl; [|tauto]. split; [done|]. intros [H|H]; [by apply Hx in H|done].
  - split; [|done]. intros _. left. by apply Hx.
Qed.

Lemma canon_opaque v : canon v = None ↔ opaque v = true.
Proof.
  induction v as [|x|z|z|s|s|l IH|l IH|l IH|n l IH|n] using replay_value_ind; unfold canon; rewrite body_unfold; try done; rewrite !fmap_None; simpl; apply mapM_opaque; rewrite Forall_forall in IH.
  - exact IH.
  - exact IH.
  - intros [k u] Hx. destruct (IH _ Hx) as [IHk IHu]. cbn [fst snd] in *. rewrite orb_true_iff, <- IHk, <- IHu. unfold canon_entry. cbn [fst snd].
    destruct (canon k), (canon u); simpl; naive_solver.
  - intros [f u] Hx. specialize (IH _ Hx). cbn [fst snd] in *. rewrite <- IH. unfold canon_field. cbn [fst snd]. destruct (canon u); simpl; naive_solver.
Qed.

Lemma canonical_bytes_canon v b : canonical_bytes v = inr b ↔ canon v = Some b.
Proof.
  pose proof (encode_gives v (bytes_of "value")) as H. unfold canonical_bytes. destruct (canon v) as [c|]; simpl in H; [rewrite H; naive_solver|].
  destruct H as [e ->]. naive_solver.
Qed.
Lemma canonical_bytes_fails v : (∃ e, canonical_bytes v = inl e) ↔ opaque v = true.
Proof.
  rewrite <- canon_opaque. pose proof (encode_gives v (bytes_of "value")) as H. unfold canonical_bytes.
  destruct (canon v) as [c|]; simpl in H; [rewrite H; naive_solver|]. naive_solver.
Qed.

(** C31: The canonical bytes are a proof of the value.  Two values encode to the
    same bytes exactly when they are the same up to the order of the members of
    sets and the entries of maps: nothing is coerced, and no way of cutting
    members makes different aggregates equal.  A value without bytes is one
    that holds an opaque value, and it is refused. *)
Theorem canonical_bytes_tell_values_apart (v w : ReplayValue) (b b' : list Z) :
  replay_value_ok v = true → replay_value_ok w = true → canonical_bytes v = inr b → canonical_bytes w = inr b' → fits b →
  (b = b' ↔ same v w) ∧ opaque v = false ∧ opaque w = false.
Proof.
  intros Hv Hw Eb Eb' Hl. assert (Hop : ∀ u c, canonical_bytes u = inr c → opaque u = false).
  { intros u c Hu. apply not_true_is_false. rewrite <- canonical_bytes_fails. intros [e He]. congruence. }
  split; [|split; by eapply Hop]. apply canonical_bytes_canon in Eb, Eb'. split.
  - intros <-. by apply (canon_same v w b).
  - intros Hs%same_canon. congruence.
Qed.

Lemma canonical_bytes_tell_values_apart_witness :
  let v := VSet [VInt 1; VStr [97; 98]; VMap [(VInt 2, VNull); (VBool true, VFloat 0)]] in
  let w := VSet [VStr [97; 98]; VMap [(VBool true, VFloat 0); (VInt 2, VNull)]; VInt 1] in
  ∃ b, canonical_bytes v = inr b ∧ canonical_bytes w = inr b ∧ same v w.
Proof.
  eexists. split; [vm_compute; reflexivity|]. split; [vm_compute; reflexivity|].
  eapply canonical_bytes_tell_values_apart; [reflexivity|reflexivity|vm_compute; reflexivity|vm_compute; reflexivity|vm_compute; reflexivity|reflexivity].
Defined.

(** ** Logs and fingerprints *)

(* include/lazily/replay.hpp:519-522, ReplayEvent *)
Record ReplayEvent := mkEvent { e_seq : Z; e_name : list Z; e_payload : ReplayValue }.
(* include/lazily/replay.hpp:528-532, ReplayEvent::to_value *)
Definition event_value (e : ReplayEvent) : ReplayValue :=
  VRecord (bytes_of "ReplayEvent") [(bytes_of "seq", VInt (e_seq e)); (bytes_of "name", VStr (e_name e)); (bytes_of "payload", e_payload e)].

(* include/lazily/replay.hpp:659-659, ReplayDivergenceKind *)
Inductive ReplayDivergenceKind := DivergedValue | DivergedMissing | DivergedUnexpected.
(* include/lazily/replay.hpp:661-671, replay_divergence_kind_name *)
Definition replay_divergence_kind_name (k : ReplayDivergenceKind) : list Z :=
  match k with DivergedValue => bytes_of "value" | DivergedMissing => bytes_of "missing" | DivergedUnexpected => bytes_of "unexpected" end.
(** [has_expected] and [has_actual] are whether the digests are there. *)
(* include/lazily/replay.hpp:674-682, ReplayDivergence *)
Record ReplayDivergence := mkDivergence {
  dv_seq : Z; dv_label : list Z; dv_kind : ReplayDivergenceKind; dv_expected : option (list Z); dv_actual : option (list Z); dv_preview : list Z }.
(* include/lazily/replay.hpp:686-695, ReplayDivergence::describe *)
Definition describe (d : ReplayDivergence) : list Z :=
  let where_ := if dv_seq d =? kReplayInitialSeq then bytes_of "initial state" else bytes_of "event seq=" ++ to_string (dv_seq d) in
  match dv_kind d with
  | DivergedMissing => where_ ++ bytes_of ": cell '" ++ dv_label d ++ bytes_of "' was not observed on replay"
  | DivergedUnexpected => where_ ++ bytes_of ": cell '" ++ dv_label d ++ bytes_of "' appeared on replay but is not in the fingerprint"
  | DivergedValue =>
      where_ ++ bytes_of ": cell '" ++ dv_label d ++ bytes_of "' expected " ++ replay_hex (default [] (dv_expected d)) ++
      bytes_of " but replayed " ++ replay_hex (default [] (dv_actual d)) ++
      (if bool_decide (dv_preview d = []) then [] else bytes_of ", observed " ++ dv_preview d)
  end.
(* include/lazily/replay.hpp:710-716, ReplayDivergenceError::build_message *)
Definition build_message (ds : list ReplayDivergence) : list Z :=
  match ds with
  | [] => bytes_of "replay diverged from the fingerprint"
  | d :: rest =>
      bytes_of "replay diverged from the fingerprint: " ++ describe d ++
      match rest with [] => [] | _ => bytes_of " (+" ++ to_string (Z.of_nat (length rest)) ++ bytes_of " more)" end
  end.

(** The exceptions; the last is one that the graph's own code throws. *)
(* include/lazily/replay.hpp:98-154, ReplayProofError *)
Inductive ReplayError :=
  | ProofError (what : list Z)
  | EncodingError (what : list Z)
  | LogMismatchError (expected_digest actual_digest : list Z)
  | StrideMismatchError (expected_stride actual_stride : Z)
  | DivergenceError (divergences : list ReplayDivergence)
  | InvalidArgument (what : list Z)
  | GraphThrew.

Definition digest_of (v : ReplayValue) : ReplayError + list Z :=
  match canonical_digest v with inl e => inl (EncodingError e) | inr b => inr b end.

(* include/lazily/replay.hpp:579-580, ReplayLog (data members) *)
Record ReplayLog := mkLog { l_events : list ReplayEvent; l_digest : list Z }.

(* include/lazily/replay.hpp:545-555, ReplayLog::ReplayLog (loop) *)
Fixpoint check_events (previous : option Z) (events : list ReplayEvent) : option ReplayError :=
  match events with
  | [] => None
  | e :: events =>
      if e_seq e <? 0 then Some (InvalidArgument (bytes_of "event seq must be non-negative, got " ++ to_string (e_seq e)))
      else if bool_decide (e_name e = []) then Some (InvalidArgument (bytes_of "event name must be non-empty"))
      else match previous with
        | Some p =>
            if e_seq e <=? p then
              Some (InvalidArgument (bytes_of "event log must be strictly increasing in seq, got " ++ to_string (e_seq e) ++ bytes_of " after " ++ to_string p))
            else check_events (Some (e_seq e)) events
        | None => check_events (Some (e_seq e)) events
        end
  end.
(* include/lazily/replay.hpp:542-562, ReplayLog::ReplayLog *)
Definition log_new (events : list ReplayEvent) : ReplayError + ReplayLog :=
  match check_events None events with
  | Some e => inl e
  | None => match digest_of (VSeq (event_value <$> events)) with inl e => inl e | inr d => inr (mkLog events d) end
  end.
(* include/lazily/replay.hpp:565-571, ReplayLog::from_records *)
Definition from_records (records : list (list Z * ReplayValue)) : ReplayError + ReplayLog :=
  log_new (imap (λ i '(n, v), mkEvent (Z.of_nat i) n v) records).

(* include/lazily/replay.hpp:588-590, ReplayCheckpoint *)
Record ReplayCheckpoint := mkCheckpoint { cp_seq : Z; cells : list (list Z * list Z) }.
(** Of two cells with one label the first is kept. *)
(* include/lazily/replay.hpp:592-594, ReplayCheckpoint::as_map *)
Definition as_map (c : ReplayCheckpoint) : gmap (list Z) (list Z) := list_to_map (cells c).

(** A [std::map] is walked in the order of its keys. *)
Definition in_key_order {A} (m : gmap (list Z) A) : list (list Z) := merge_sort bytes_le (elements (dom m)).
(** [ReplayObservation]. *)
Notation Observation := (gmap (list Z) ReplayValue).
Fixpoint digest_cells (labels : list (list Z)) (observed : Observation) : ReplayError + list (list Z * list Z) :=
  match labels with
  | [] => inr []
  | l :: labels =>
      match observed !! l with
      | None => digest_cells labels observed
      | Some v =>
          match digest_of v with
          | inl e => inl e
          | inr d => match digest_cells labels observed with inl e => inl e | inr cs => inr ((l, d) :: cs) end
          end
      end
  end.
(* include/lazily/replay.hpp:600-608, replay_checkpoint_of *)
Definition replay_checkpoint_of (seq : Z) (observed : Observation) : ReplayError + ReplayCheckpoint :=
  match digest_cells (in_key_order observed) observed with inl e => inl e | inr cs => inr (mkCheckpoint seq cs) end.

(* include/lazily/replay.hpp:651-654, ReplayFingerprint (data members) *)
Record ReplayFingerprint := mkFingerprint { fp_log_digest : list Z; fp_stride : Z; fp_checkpoints : list ReplayCheckpoint; fp_digest : list Z }.
Definition checkpoint_value (c : ReplayCheckpoint) : ReplayValue :=
  VRecord (bytes_of "ReplayCheckpoint")
    [(bytes_of "seq", VInt (cp_seq c)); (bytes_of "cells", VSeq ((λ '(l, d), VSeq [VStr l; VBytes d]) <$> cells c))].
(* include/lazily/replay.hpp:613-635, ReplayFingerprint::ReplayFingerprint *)
Definition fingerprint_new (log_digest : list Z) (stride : Z) (checkpoints : list ReplayCheckpoint) : ReplayError + ReplayFingerprint :=
  if stride <? 1 then inl (InvalidArgument (bytes_of "stride must be >= 1, got " ++ to_string stride))
  else if bool_decide (length checkpoints = 0%nat) then inl (InvalidArgument (bytes_of "a fingerprint needs at least the initial checkpoint"))
  else match digest_of (VRecord (bytes_of "ReplayFingerprint")
    [(bytes_of "log_digest", VBytes log_digest); (bytes_of "stride", VInt stride); (bytes_of "checkpoints", VSeq (checkpoint_value <$> checkpoints))]) with
  | inl e => inl e
  | inr d => inr (mkFingerprint log_digest stride checkpoints d)
  end.
(* include/lazily/replay.hpp:647-647, ReplayFingerprint::operator== *)
Definition fingerprint_eqb (a b : ReplayFingerprint) : bool := bool_decide (fp_digest a = fp_digest b).

(** ** The harness *)

Definition labels_of (want got : gmap (list Z) (list Z)) : list (list Z) := merge_sort bytes_le (elements (dom want ∪ dom got)).
(** The divergence of one label, if there is one. *)
(* include/lazily/replay.hpp:862-882, ReplayHarness::compare (label) *)
Definition compare_label (seq : Z) (want got : gmap (list Z) (list Z)) (sampled : option Observation) (label : list Z) : option ReplayDivergence :=
  if bool_decide (is_Some (want !! label)) && bool_decide (want !! label = got !! label) then None else
  Some (mkDivergence seq label
    match got !! label, want !! label with None, _ => DivergedMissing | _, None => DivergedUnexpected | _, _ => DivergedValue end
    (want !! label) (got !! label)
    match sampled with
    | Some o => match o !! label with Some v => default [] (replay_preview v 120) | None => [] end
    | None => []
    end).
(** The first checkpoint at which something diverges. *)
(* include/lazily/replay.hpp:849-887, ReplayHarness::compare (loop) *)
Fixpoint compare_loop (expected actual : list ReplayCheckpoint) (observed : list Observation) : list ReplayDivergence :=
  match expected, actual with
  | want :: expected, got :: actual =>
      let ds := omap (compare_label (cp_seq want) (as_map want) (as_map got) (head observed)) (labels_of (as_map want) (as_map got)) in
      match ds with [] => compare_loop expected actual (tail observed) | _ => ds end
  | _, _ => []
  end.
(* include/lazily/replay.hpp:844-895, ReplayHarness::compare *)
Definition compare (expected actual : ReplayFingerprint) (observed : list Observation) : ReplayError + list ReplayDivergence :=
  let ds := compare_loop (fp_checkpoints expected) (fp_checkpoints actual) observed in
  let n := length (fp_checkpoints expected) in let m := length (fp_checkpoints actual) in
  if bool_decide (length ds = 0%nat) && negb (n =? m)%nat then
    inl (ProofError (bytes_of "fingerprint has " ++ to_string (Z.of_nat n) ++ bytes_of " checkpoints but the replay produced " ++
                     to_string (Z.of_nat m) ++ bytes_of " for the same log"))
  else inr ds.
(* include/lazily/replay.hpp:808-821, ReplayHarness::revalidate *)
Definition revalidate (fingerprint replayed : ReplayFingerprint) : ReplayError + () :=
  if bool_decide (fp_log_digest fingerprint ≠ fp_log_digest replayed) then inl (LogMismatchError (fp_log_digest fingerprint) (fp_log_digest replayed))
  else if negb (fp_stride fingerprint =? fp_stride replayed) then inl (StrideMismatchError (fp_stride fingerprint) (fp_stride replayed))
  else inr ().

Section harness.
  Context {W G : Type}.

(** What acts on the world, and may throw. *)
Definition Act (A : Type) : Type := W → (ReplayError + A) * W.
#[export] Instance act_ret : MRet Act := λ A a w, (inr a, w).
#[export] Instance act_bind : MBind Act := λ A B f m w, let '(r, w) := m w in match r with inl e => (inl e, w) | inr a => f a w end.
Definition lift {A} (r : ReplayError + A) : Act A := λ w, (r, w).

(** The graph under proof, with the builder. *)
(* include/lazily/replay.hpp:727-732, ReplayGraph *)
Record ReplayGraph := mkGraph { build : Act (option G); apply_event : ReplayEvent → G → Act G; observe : G → Act Observation }.
(* include/lazily/replay.hpp:897-898, ReplayHarness (data members) *)
Record ReplayHarness := mkHarness { h_graph : ReplayGraph; h_stride : Z }.
(** [None] is an empty builder. *)
(* include/lazily/replay.hpp:750-755, ReplayHarness::ReplayHarness *)
Definition harness_new (g : option ReplayGraph) (stride : Z) : ReplayError + ReplayHarness :=
  if stride <? 1 then inl (InvalidArgument (bytes_of "stride must be >= 1, got " ++ to_string stride))
  else match g with None => inl (InvalidArgument (bytes_of "ReplayHarness needs a graph builder")) | Some g => inr (mkHarness g stride) end.

Variable h : ReplayHarness.

(* include/lazily/replay.hpp:831-840, ReplayHarness::replay (loop) *)
Fixpoint replay_loop (total index : Z) (events : list ReplayEvent) (g : G) : Act (list ReplayCheckpoint * list Observation) :=
  match events with
  | [] => mret ([], [])
  | e :: events =>
      g ← apply_event (h_graph h) e g;
      let applied := index + 1 in
      if (applied mod h_stride h =? 0) || (applied =? total) then
        step ← observe (h_graph h) g;
        c ← lift (replay_checkpoint_of (e_seq e) step);
        '(cs, os) ← replay_loop total applied events g;
        mret (c :: cs, step :: os)
      else replay_loop total applied events g
  end.
(* include/lazily/replay.hpp:823-842, ReplayHarness::replay *)
Definition replay (log : ReplayLog) : Act (ReplayFingerprint * list Observation) :=
  g ← build (h_graph h);
  match g with
  | None => lift (inl (ProofError (bytes_of "the graph builder returned no graph to replay")))
  | Some g =>
      sample ← observe (h_graph h) g;
      c ← lift (replay_checkpoint_of kReplayInitialSeq sample);
      '(cs, os) ← replay_loop (Z.of_nat (length (l_events log))) 0 (l_events log) g;
      fp ← lift (fingerprint_new (l_digest log) (h_stride h) (c :: cs));
      mret (fp, sample :: os)
  end.
(* include/lazily/replay.hpp:760-763, ReplayHarness::record *)
Definition record (log : ReplayLog) : Act ReplayFingerprint := '(fp, _) ← replay log; mret fp.
(* include/lazily/replay.hpp:771-777, ReplayHarness::check *)
Definition check (log : ReplayLog) (fingerprint : ReplayFingerprint) : Act (list ReplayDivergence) :=
  '(replayed, observed) ← replay log;
  _ ← lift (revalidate fingerprint replayed);
  lift (compare fingerprint replayed observed).
(* include/lazily/replay.hpp:782-789, ReplayHarness::verify *)
Definition verify (log : ReplayLog) (fingerprint : ReplayFingerprint) : Act ReplayFingerprint :=
  '(replayed, observed) ← replay log;
  _ ← lift (revalidate fingerprint replayed);
  ds ← lift (compare fingerprint replayed observed);
  if bool_decide (length ds = 0%nat) then mret replayed else lift (inl (DivergenceError ds)).

Fixpoint verify_times (n : nat) (log : ReplayLog) (fingerprint : ReplayFingerprint) : Act () :=
  match n with O => mret () | S n => _ ← verify log fingerprint; verify_times n log fingerprint end.
(* include/lazily/replay.hpp:796-804, ReplayHarness::prove *)
Definition prove (log : ReplayLog) (replays : Z) : Act ReplayFingerprint :=
  if replays <? 2 then lift (inl (InvalidArgument (bytes_of "prove needs at least 2 replays to compare, got " ++ to_string replays)))
  else fp ← record log; _ ← verify_times (Z.to_nat (replays - 1)) log fp; mret fp.
End harness.

(** ** What a verification says *)

(** *** Checkpoints *)

Definition obs_ok (o : Observation) : Prop :=
  ∀ l v, o !! l = Some v → replay_value_ok v = true ∧ ∀ b, canon v = Some b → fits b.
(** Two observations agree on a label. *)
Definition same_at (o o' : Observation) (l : list Z) : Prop :=
  match o !! l, o' !! l with Some v, Some v' => same v v' | None, None => True | _, _ => False end.
Definition obs_same (o o' : Observation) : Prop := ∀ l, same_at o o' l.

Lemma digest_of_canon v d : digest_of v = inr d ↔ canon v = Some d.
Proof.
  unfold digest_of, canonical_digest. rewrite <- canonical_bytes_canon. destruct (canonical_bytes v); [split; by intros [=]|]. split; by intros [= ->].
Qed.

Lemma digest_cells_spec (labels : list (list Z)) (o : Observation) cs : digest_cells labels o = inr cs → NoDup labels →
  cs = omap (λ l, d ← (o !! l ≫= canon); Some (l, d)) labels ∧ (∀ l v, l ∈ labels → o !! l = Some v → is_Some (canon v)).
Proof.
  revert cs. induction labels as [|l labels IH]; intros cs E Hnd; simpl in *; [injection E as <-; split; [done|]; by intros l v []%not_elem_of_nil|].
  apply NoDup_cons in Hnd as [Hl Hnd]. destruct (o !! l) as [v|] eqn:El; simpl.
  - destruct (digest_of v) as [e|d] eqn:Ed; [done|]. apply digest_of_canon in Ed. rewrite Ed. simpl.
    destruct (digest_cells labels o) as [e|cs'] eqn:Ec; [done|]. injection E as <-. destruct (IH _ eq_refl Hnd) as [-> Hall]. split; [done|].
    intros k u [->|Hk]%elem_of_cons Hu; [|by eapply Hall]. rewrite El in Hu. injection Hu as <-. by rewrite Ed.
  - destruct (IH _ E Hnd) as [-> Hall]. split; [done|]. intros k u [->|Hk]%elem_of_cons Hu; [congruence|by eapply Hall].
Qed.

Lemma key_order_NoDup {A} (m : gmap (list Z) A) : NoDup (in_key_order m).
Proof. unfold in_key_order. rewrite merge_sort_Permutation. apply NoDup_elements. Qed.
Lemma elem_of_key_order {A} (m : gmap (list Z) A) l : l ∈ in_key_order m ↔ is_Some (m !! l).
Proof. unfold in_key_order. by rewrite merge_sort_Permutation, elem_of_elements, elem_of_dom. Qed.

Lemma checkpoint_spec s o c : replay_checkpoint_of s o = inr c →
  cp_seq c = s ∧ cells c = omap (λ l, d ← (o !! l ≫= canon); Some (l, d)) (in_key_order o) ∧
  (∀ l, as_map c !! l = (o !! l ≫= canon)) ∧ (∀ l v, o !! l = Some v → is_Some (canon v)).
Proof.
  unfold replay_checkpoint_of. destruct (digest_cells _ o) as [e|cs] eqn:Ec; [done|]. intros [= <-]. simpl.
  destruct (digest_cells_spec _ _ _ Ec (key_order_NoDup o)) as [-> Hall]. split_and!; [done|done| |].
  - intros l. unfold as_map. simpl. apply option_eq. intros d. rewrite <- elem_of_list_to_map.
    + rewrite list_elem_of_omap. split.
      * intros (k & _ & E). destruct (o !! k ≫= canon) as [d'|] eqn:Eo; simpl in E; [|done]. by injection E as -> ->.
      * intros E. exists l. rewrite E. simpl. split; [|done]. apply elem_of_key_order. destruct (o !! l); [done|by simpl in E].
    + clear. pose proof (key_order_NoDup o) as Hnd. induction Hnd as [|l ls Hl Hnd IH]; simpl; [constructor|].
      destruct (o !! l ≫= canon) as [d|]; simpl; [|done]. constructor; [|done]. intros ((k & d') & -> & Hin)%list_elem_of_fmap.
      apply list_elem_of_omap in Hin as (k' & Hk' & E). destruct (o !! k' ≫= canon); simpl in E; [|done]. by injection E as -> _.
  - intros l v Hv. apply (Hall l v); [|done]. apply elem_of_key_order. by rewrite Hv.
Qed.

Lemma same_at_digests s s' o o' c c' l : obs_ok o → obs_ok o' → replay_checkpoint_of s o = inr c → replay_checkpoint_of s' o' = inr c' →
  as_map c !! l = as_map c' !! l ↔ same_at o o' l.
Proof.
  intros Ho Ho' (_ & _ & Hm & Hd)%checkpoint_spec (_ & _ & Hm' & Hd')%checkpoint_spec. rewrite Hm, Hm'. unfold same_at.
  destruct (o !! l) as [v|] eqn:El, (o' !! l) as [v'|] eqn:El'; simpl; [| | |done].
  - destruct (Hd _ _ El) as [b Hb], (Hd' _ _ El') as [b' Hb']. destruct (Ho _ _ El) as [Hok Hf], (Ho' _ _ El') as [Hok' _].
    split; [|apply same_canon]. intros E. apply (canon_same v v' b); [done|done|done|congruence|by apply Hf].
  - destruct (Hd _ _ El) as [b Hb]. rewrite Hb. by split.
  - destruct (Hd' _ _ El') as [b Hb]. rewrite Hb. by split.
Qed.

Lemma same_checkpoints s o o' c c' : obs_same o o' → replay_checkpoint_of s o = inr c → replay_checkpoint_of s o' = inr c' → c = c'.
Proof.
  intros Hs (E1 & E2 & _)%checkpoint_spec (E1' & E2' & _)%checkpoint_spec. destruct c as [q k], c' as [q' k']. simpl in *. subst. f_equal.
  assert (Hdom : in_key_order o = in_key_order o').
  { unfold in_key_order. f_equal. f_equal. apply set_eq. intros l. rewrite !elem_of_dom. specialize (Hs l). unfold same_at in Hs.
    destruct (o !! l), (o' !! l); naive_solver. }
  rewrite Hdom. apply list_omap_ext, Forall_Forall2_diag, Forall_forall. intros l _. specialize (Hs l). unfold same_at in Hs.
  destruct (o !! l) as [v|], (o' !! l) as [v'|]; simpl; try done. by rewrite (same_canon _ _ Hs).
Qed.

(** *** Comparing *)

Lemma compare_label_None s want got sampled l : compare_label s want got sampled l = None → want !! l = got !! l.
Proof. unfold compare_label. destruct (bool_decide (is_Some _) && bool_decide (want !! l = got !! l)) eqn:E; [|done]. intros _. by apply andb_prop in E as [_ E%bool_decide_eq_true]. Qed.
Lemma compare_label_Some s want got sampled l d : compare_label s want got sampled l = Some d → is_Some (want !! l) ∨ is_Some (got !! l) →
  dv_seq d = s ∧ dv_label d = l ∧ want !! l ≠ got !! l.
Proof.
  unfold compare_label. destruct (bool_decide (is_Some _) && bool_decide (want !! l = got !! l)) eqn:E; [done|]. intros [= <-] Hs. split_and!; [done|done|].
  intros Eq. rewrite bool_decide_eq_true_2, bool_decide_eq_true_2 in E; [done|done|]. rewrite Eq in Hs |- *. tauto.
Qed.

Lemma labels_of_spec (want got : gmap (list Z) (list Z)) l : l ∈ labels_of want got ↔ is_Some (want !! l) ∨ is_Some (got !! l).
Proof. unfold labels_of. by rewrite merge_sort_Permutation, elem_of_elements, elem_of_union, !elem_of_dom. Qed.

Lemma differing_labels s want got sampled :
  let ds := omap (compare_label s want got sampled) (labels_of want got) in
  (∀ d, d ∈ ds → dv_seq d = s) ∧ (∀ l, l ∈ dv_label <$> ds ↔ want !! l ≠ got !! l).
Proof.
  split.
  - intros d (l & Hl & E)%list_elem_of_omap. apply compare_label_Some in E as (? & _ & _); [done|by apply labels_of_spec].
  - intros l. rewrite list_elem_of_fmap. split.
    + intros (d & -> & (k & Hk & E)%list_elem_of_omap). apply compare_label_Some in E as (_ & <- & ?); [done|by apply labels_of_spec].
    + intros Hne. assert (Hl : l ∈ labels_of want got).
      { apply labels_of_spec. destruct (want !! l); [by left|]. destruct (got !! l); [by right|done]. }
      destruct (compare_label s want got sampled l) as [d|] eqn:E; [|by apply compare_label_None in E].
      exists d. split; [|apply list_elem_of_omap; by exists l]. apply compare_label_Some in E as (_ & ? & _); [done|by apply labels_of_spec].
Qed.

Definition taken_from (c : ReplayCheckpoint) (o : Observation) : Prop := replay_checkpoint_of (cp_seq c) o = inr c.

(** Nothing diverges when everything agrees; otherwise it is told at the first
    checkpoint at which something does, and there of every label. *)
Lemma compare_loop_spec cs os cs' os' : Forall2 taken_from cs os → Forall2 taken_from cs' os' → Forall obs_ok os → Forall obs_ok os' →
  length cs = length cs' →
  match compare_loop cs cs' os' with
  | [] => Forall2 obs_same os os'
  | ds => ¬ Forall2 obs_same os os' ∧ ∃ i c o o', cs !! i = Some c ∧ os !! i = Some o ∧ os' !! i = Some o' ∧
      Forall2 obs_same (take i os) (take i os') ∧ Forall (λ d, dv_seq d = cp_seq c) ds ∧ ∀ l, l ∈ dv_label <$> ds ↔ ¬ same_at o o' l
  end.
Proof.
  intros Hc. revert cs' os'. induction Hc as [|c o cs os Hco Hcs IH]; intros cs' os' Hc' Ho Ho' Hl; destruct Hc' as [|c' o' cs' os' Hco' Hcs']; simpl in *; try done.
  apply Forall_cons in Ho as [Ho Hos]. apply Forall_cons in Ho' as [Ho' Hos']. simpl. unfold taken_from in Hco, Hco'.
  pose proof (differing_labels (cp_seq c) (as_map c) (as_map c') (Some o')) as [Hseq Hlab]. cbn zeta in Hseq, Hlab.
  assert (Hat : ∀ l, as_map c !! l ≠ as_map c' !! l ↔ ¬ same_at o o' l) by (intros l; by rewrite (same_at_digests _ _ _ _ _ _ l Ho Ho' Hco Hco')).
  destruct (omap _ (labels_of _ _)) as [|d ds] eqn:Eds.
  - assert (Hsame : obs_same o o').
    { intros l. rewrite <- (same_at_digests _ _ _ _ _ _ l Ho Ho' Hco Hco'). apply dec_stable. intros Hne. by apply Hlab, not_elem_of_nil in Hne. }
    specialize (IH cs' os' Hcs' Hos Hos' ltac:(lia)). destruct (compare_loop cs cs' os') as [|d ds]; [by constructor|].
    destruct IH as [Hn (i & c0 & o0 & o0' & E1 & E2 & E3 & E4 & Hrest)]. split; [intros Hall; apply Hn; by inversion Hall|].
    exists (S i), c0, o0, o0'. split_and!; [done|done|done|by constructor|apply Hrest|apply Hrest].
  - split.
    + intros Hall. inversion_clear Hall as [|? ? ? ? Hsame _]. assert (Hin : dv_label d ∈ dv_label <$> d :: ds) by (simpl; by left).
      apply Hlab, Hat in Hin. apply Hin, Hsame.
    + exists 0%nat, c, o, o'. split_and!; [done|done|done|by constructor| |].
      * apply Forall_forall. exact Hseq.
      * intros l. by rewrite Hlab.
Qed.

(** *** Replays *)

Lemma act_bind_inr {W A B} (m : Act (W:=W) A) (f : A → Act (W:=W) B) w b w2 : (m ≫= f) w = (inr b, w2) → ∃ a w1, m w = (inr a, w1) ∧ f a w1 = (inr b, w2).
Proof. unfold mbind, act_bind. destruct (m w) as [[e|a] w1]; [done|]. intros E. by exists a, w1. Qed.
Lemma act_bind_run {W A B} (m : Act (W:=W) A) (f : A → Act (W:=W) B) w a w1 : m w = (inr a, w1) → (m ≫= f) w = f a w1.
Proof. unfold mbind, act_bind. by intros ->. Qed.

(** The sequence numbers a replay checkpoints: every [stride]-th event, and the
    last. *)
Fixpoint sampled_seqs (stride total index : Z) (events : list ReplayEvent) : list Z :=
  match events with
  | [] => []
  | e :: events =>
      let applied := index + 1 in
      (if (applied mod stride =? 0) || (applied =? total) then [e_seq e] else []) ++ sampled_seqs stride total applied events
  end.
Definition checkpoint_seqs (stride : Z) (events : list ReplayEvent) : list Z :=
  kReplayInitialSeq :: sampled_seqs stride (Z.of_nat (length events)) 0 events.

Lemma replay_loop_spec {W G} (h : ReplayHarness (W:=W) (G:=G)) total events : ∀ index g w cs os w',
  replay_loop h total index events g w = (inr (cs, os), w') →
  Forall2 taken_from cs os ∧ cp_seq <$> cs = sampled_seqs (h_stride h) total index events.
Proof.
  induction events as [|e events IH]; intros index g w cs os w' E; cbn [replay_loop sampled_seqs] in E |- *.
  { injection E as <- <- _. by split. }
  apply act_bind_inr in E as (g1 & w1 & _ & E). destruct (((index + 1) mod _ =? 0) || _) eqn:Es; simpl in E.
  - apply act_bind_inr in E as (step & w2 & _ & E). apply act_bind_inr in E as (c & w3 & Ec & E). injection Ec as Ec _.
    apply act_bind_inr in E as ([cs1 os1] & w4 & E1 & E). injection E as <- <- _. destruct (IH _ _ _ _ _ _ E1) as [IH1 IH2].
    destruct (checkpoint_spec _ _ _ Ec) as [Hs _]. split; [constructor; [|done]|by rewrite fmap_cons, Hs, IH2]. unfold taken_from. by rewrite Hs.
  - by apply (IH _ _ _ _ _ _ E).
Qed.

Lemma replay_spec {W G} (h : ReplayHarness (W:=W) (G:=G)) log w fp os w' : replay h log w = (inr (fp, os), w') →
  fp_log_digest fp = l_digest log ∧ fp_stride fp = h_stride h ∧ Forall2 taken_from (fp_checkpoints fp) os ∧
  cp_seq <$> fp_checkpoints fp = checkpoint_seqs (h_stride h) (l_events log) ∧
  fingerprint_new (l_digest log) (h_stride h) (fp_checkpoints fp) = inr fp.
Proof.
  unfold replay. intros E. apply act_bind_inr in E as ([g|] & w1 & _ & E); [|done]. apply act_bind_inr in E as (sample & w2 & _ & E).
  apply act_bind_inr in E as (c & w3 & Ec & E). injection Ec as Ec _. apply act_bind_inr in E as ([cs os1] & w4 & El & E).
  apply act_bind_inr in E as (fp1 & w5 & Ef & E). injection Ef as Ef _. injection E as <- <- _.
  destruct (replay_loop_spec _ _ _ _ _ _ _ _ _ El) as [Hc Hs]. destruct (checkpoint_spec _ _ _ Ec) as [Hseq _].
  assert (H : fp_log_digest fp1 = l_digest log ∧ fp_stride fp1 = h_stride h ∧ fp_checkpoints fp1 = c :: cs).
  { unfold fingerprint_new in Ef. destruct (_ <? 1); [done|]. destruct (bool_decide _); [done|]. destruct (digest_of _); [done|]. by injection Ef as <-. }
  destruct H as (E1 & E2 & E3). rewrite E3. split_and!; [done|done| | |done].
  - constructor; [|done]. unfold taken_from. by rewrite Hseq.
  - by rewrite fmap_cons, Hseq, Hs.
Qed.

(** *** Logs *)

Definition event_same (e e' : ReplayEvent) : Prop := e_seq e = e_seq e' ∧ e_name e = e_name e' ∧ same (e_payload e) (e_payload e').
(** A log that the constructor let through, with values of the program. *)
Definition log_ok (log : ReplayLog) : Prop :=
  log_new (l_events log) = inr log ∧ Forall (λ e, is_i64 (e_seq e) ∧ replay_value_ok (e_payload e) = true) (l_events log) ∧ fits (l_digest log).

Lemma event_value_same e e' : same (event_value e) (event_value e') ↔ event_same e e'.
Proof.
  unfold event_value. split.
  - intros Hs. inversion Hs as [| | | | | | | | |? ? ? Hf]; subst. inversion_clear Hf as [|? ? ? ? [_ H1] Hf1]. inversion_clear Hf1 as [|? ? ? ? [_ H2] Hf2].
    inversion_clear Hf2 as [|? ? ? ? [_ H3] _]. simpl in *. inversion H1. inversion H2. done.
  - intros (H1 & H2 & H3). rewrite H1, H2. constructor. repeat constructor; try done.
Qed.

Lemma log_digests log log' : log_ok log → log_ok log' → l_digest log = l_digest log' ↔ Forall2 event_same (l_events log) (l_events log').
Proof.
  assert (Hd : ∀ l, log_ok l → canon (VSeq (event_value <$> l_events l)) = Some (l_digest l) ∧ replay_value_ok (VSeq (event_value <$> l_events l)) = true).
  { intros [es d] (Hn & He & _). simpl in *. unfold log_new in Hn. destruct (check_events None es); [done|].
    destruct (digest_of _) as [|d'] eqn:Ed; [done|]. injection Hn as <-. split; [by apply digest_of_canon|].
    clear Ed. induction He as [|e es [Hs Hp] _ IH]; [done|]. simpl. rewrite Hp, bool_decide_eq_true_2 by done. simpl. exact IH. }
  intros Hl Hl'. destruct (Hd log Hl) as [E Hok], (Hd log' Hl') as [E' Hok']. split.
  - intros Eq. assert (Hs : same (VSeq (event_value <$> l_events log)) (VSeq (event_value <$> l_events log'))).
    { apply (canon_same _ _ (l_digest log)); [done|done|done|congruence|apply Hl]. }
    inversion Hs as [| | | | | |? ? Hf| | |]; subst. apply (Forall2_fmap event_value event_value) in Hf. eapply Forall2_impl; [exact Hf|]. intros e e'. apply event_value_same.
  - intros Hf. assert (Hs : same (VSeq (event_value <$> l_events log)) (VSeq (event_value <$> l_events log'))).
    { constructor. apply (Forall2_fmap event_value event_value). eapply Forall2_impl; [exact Hf|]. intros e e'. apply event_value_same. }
    apply same_canon in Hs. congruence.
Qed.

Lemma same_seqs stride es es' : Forall2 event_same es es' → ∀ total index, sampled_seqs stride total index es = sampled_seqs stride total index es'.
Proof. induction 1 as [|e e' es es' (Hs & _) _ IH]; intros total index; simpl; [done|]. by rewrite Hs, IH. Qed.

Lemma same_fingerprints cs cs' os os' : Forall2 taken_from cs os → Forall2 taken_from cs' os' → cp_seq <$> cs = cp_seq <$> cs' →
  Forall2 obs_same os os' → cs = cs'.
Proof.
  intros Hc. revert cs' os'. induction Hc as [|c o cs os Hco _ IH]; intros cs' os' Hc' Hs Ho; inversion Ho; subst; inversion Hc'; subst; simpl in *; [done|].
  injection Hs as Hs1 Hs2. f_equal; [|by eapply IH]. unfold taken_from in *. eapply same_checkpoints; [eassumption|eassumption|]. by rewrite Hs1.
Qed.

(** C30: A verification is exact.  Let a fingerprint be recorded by one harness
    and verified by another, over graphs that may be any code.  If the logs
    differ in any event this is what is reported, whatever was observed; else
    if the strides differ, that.  Otherwise the verification returns, with the
    fingerprint itself, exactly if both replays observed the same values at
    every checkpoint; and if not, it reports the first checkpoint at which
    they parted, and there each label on which they differ and no other. *)
Theorem verification_is_exact {W G W' G' : Type} (h : ReplayHarness (W:=W) (G:=G)) (h' : ReplayHarness (W:=W') (G:=G')) (log log' : ReplayLog)
    (w w1 : W) (v v1 : W') (fp fp' : ReplayFingerprint) (os os' : list Observation) :
  log_ok log → log_ok log' → replay h log w = (inr (fp, os), w1) → replay h' log' v = (inr (fp', os'), v1) →
  Forall obs_ok os → Forall obs_ok os' →
  let r := (verify h' log' fp v).1 in
  (¬ Forall2 event_same (l_events log) (l_events log') → r = inl (LogMismatchError (l_digest log) (l_digest log'))) ∧
  (Forall2 event_same (l_events log) (l_events log') → h_stride h ≠ h_stride h' → r = inl (StrideMismatchError (h_stride h) (h_stride h'))) ∧
  (Forall2 event_same (l_events log) (l_events log') → h_stride h = h_stride h' →
     (Forall2 obs_same os os' ∧ r = inr fp ∧ fp = fp') ∨
     (¬ Forall2 obs_same os os' ∧ ∃ ds i s o o', r = inl (DivergenceError ds) ∧ checkpoint_seqs (h_stride h) (l_events log) !! i = Some s ∧
        os !! i = Some o ∧ os' !! i = Some o' ∧ Forall2 obs_same (take i os) (take i os') ∧
        Forall (λ d, dv_seq d = s) ds ∧ ∀ l, l ∈ dv_label <$> ds ↔ ¬ same_at o o' l)).
Proof.
  intros Hl Hl' E E' Ho Ho'. destruct (replay_spec _ _ _ _ _ _ E) as (D1 & D2 & D3 & D4 & D5). destruct (replay_spec _ _ _ _ _ _ E') as (D1' & D2' & D3' & D4' & D5').
  unfold verify. rewrite (act_bind_run _ _ _ _ _ E'). unfold revalidate. rewrite D1, D1', D2, D2'. cbn zeta. split_and!.
  - intros Hne. assert (Hd : l_digest log ≠ l_digest log') by by rewrite log_digests. by rewrite bool_decide_eq_true_2.
  - intros He Hs. apply log_digests in He; [|done|done]. rewrite bool_decide_eq_false_2 by (by intros []). by rewrite (proj2 (Z.eqb_neq _ _) Hs).
  - intros He Hs. pose proof (proj2 (log_digests log log' Hl Hl') He) as Hd. rewrite bool_decide_eq_false_2 by (by intros []). rewrite Hs, Z.eqb_refl. cbn [negb].
    assert (Hseq : cp_seq <$> fp_checkpoints fp = cp_seq <$> fp_checkpoints fp').
    { rewrite D4, D4', Hs. unfold checkpoint_seqs. f_equal. rewrite (Forall2_length _ _ _ He). by apply same_seqs. }
    assert (Hlen : length (fp_checkpoints fp) = length (fp_checkpoints fp')) by (rewrite <- (length_fmap cp_seq), Hseq; by rewrite length_fmap).
    pose proof (compare_loop_spec _ _ _ _ D3 D3' Ho Ho' Hlen) as Hcmp. unfold compare. rewrite Hlen, Nat.eqb_refl, andb_false_r.
    destruct (compare_loop _ _ os') as [|d ds].
    + left. split; [done|]. assert (Heq : fp = fp').
      { pose proof (same_fingerprints _ _ _ _ D3 D3' Hseq Hcmp) as Hcs. rewrite <- Hd, <- Hs, <- Hcs, D5 in D5'. by injection D5'. }
      split; [|done]. by rewrite Heq.
    + right. destruct Hcmp as [Hn (i & c & o & o' & E1 & E2 & E3 & E4 & E5 & E6)]. split; [done|].
      exists (d :: ds), i, (cp_seq c), o, o'. split_and!; try done. rewrite <- Hs, <- D4, list_lookup_fmap, E1. done.
Qed.

(** *** Proving *)

(** An act whose answer the world does not change. *)
Definition answers_alike {W A} (m : Act (W:=W) A) : Prop := ∀ w w', (m w).1 = (m w').1.
Lemma alike_bind {W A B} (m : Act (W:=W) A) (f : A → Act (W:=W) B) : answers_alike m → (∀ a, answers_alike (f a)) → answers_alike (m ≫= f).
Proof.
  intros Hm Hf w w'. unfold mbind, act_bind. pose proof (Hm w w') as E. destruct (m w) as [r1 w1], (m w') as [r2 w2]. simpl in E. subst r2.
  destruct r1; [done|]. apply Hf.
Qed.
Lemma alike_lift {W A} (r : ReplayError + A) : answers_alike (W:=W) (lift r).
Proof. done. Qed.
Lemma alike_ret {W A} (a : A) : answers_alike (W:=W) (mret a).
Proof. done. Qed.

(** A graph that is a function of its log. *)
Definition pure_graph {W G} (g : ReplayGraph (W:=W) (G:=G)) : Prop :=
  answers_alike (build g) ∧ (∀ e s, answers_alike (apply_event g e s)) ∧ ∀ s, answers_alike (observe g s).

Lemma replay_alike {W G} (h : ReplayHarness (W:=W) (G:=G)) log : pure_graph (h_graph h) → answers_alike (replay h log).
Proof.
  intros (Hb & Ha & Ho). apply alike_bind; [done|]. intros [g|]; [|apply alike_lift]. apply alike_bind; [done|]. intros sample.
  apply alike_bind; [apply alike_lift|]. intros c. apply alike_bind.
  - generalize (Z.of_nat (length (l_events log))) 0. intros total. revert g. induction (l_events log) as [|e es IH]; intros g index; [apply alike_ret|].
    simpl. apply alike_bind; [done|]. intros g'. destruct (_ || _); [|apply IH]. apply alike_bind; [done|]. intros step.
    apply alike_bind; [apply alike_lift|]. intros c'. apply alike_bind; [apply IH|]. intros [cs os]. apply alike_ret.
  - intros [cs os]. apply alike_bind; [apply alike_lift|]. intros fp. apply alike_ret.
Qed.

Lemma compare_loop_self cs os : compare_loop cs cs os = [].
Proof.
  revert os. induction cs as [|c cs IH]; intros os; simpl; [done|].
  pose proof (differing_labels (cp_seq c) (as_map c) (as_map c) (head os)) as [_ H]. cbn zeta in H.
  destruct (omap _ _) as [|d ds]; [apply IH|]. exfalso. destruct (proj1 (H (dv_label d))); [simpl; by left|done].
Qed.

(** Of a graph that is a function of its log, [prove] says what recording it
    says: the fingerprint, or what could not be recorded. *)
Lemma prove_accepts_functions {W G} (h : ReplayHarness (W:=W) (G:=G)) log n w w' : pure_graph (h_graph h) → 2 ≤ n →
  (prove h log n w).1 = (record h log w').1.
Proof.
  intros Hp Hn. unfold prove. destruct (Z.ltb_spec n 2); [lia|]. pose proof (replay_alike h log Hp) as Ha.
  assert (Hr : ∀ u, (record h log u).1 = match (replay h log w).1 with inl e => inl e | inr (fp, _) => inr fp end).
  { intros u. unfold record, mbind, act_bind. rewrite (Ha w u). by destruct (replay h log u) as [[e|[fp os]] u1]. }
  rewrite (Hr w'). unfold mbind at 1, act_bind at 1. pose proof (Hr w) as Hw. destruct (record h log w) as [r w1]. simpl in Hw. subst r.
  destruct (replay h log w).1 as [e|[fp os]] eqn:E; [done|].
  assert (Hv : ∀ u, (verify h log fp u).1 = inr fp).
  { intros u. pose proof (Ha w u) as Eu. rewrite E in Eu. unfold verify, mbind, act_bind. destruct (replay h log u) as [r u1]. simpl in Eu. subst r.
    unfold lift, revalidate. rewrite bool_decide_eq_false_2, Z.eqb_refl by (by intros []). cbn.
    unfold compare. rewrite compare_loop_self, Nat.eqb_refl. done. }
  assert (Ht : ∀ k u, (verify_times h k log fp u).1 = inr ()).
  { induction k as [|k IH]; intros u; [done|]. simpl. unfold mbind, act_bind. pose proof (Hv u) as Ev. destruct (verify h log fp u) as [r u1].
    simpl in Ev. subst r. apply IH. }
  unfold mbind, act_bind. pose proof (Ht (Z.to_nat (n - 1)) w1) as Et. destruct (verify_times _ _ _ _ _) as [r w2]. simpl in Et. by subst r.
Qed.

(** *** What goes wrong *)

(** A preview of one or two characters asks for a string of nearly 2^64. *)
Lemma short_previews_throw : replay_preview (VBool true) 2 = None ∧ replay_preview (VBool true) 3 = Some (bytes_of "...").
Proof. split; vm_compute; reflexivity. Qed.

(** Decides [obs_ok]. *)
Definition obs_okb (o : Observation) : bool :=
  forallb (λ p : list Z * ReplayValue, replay_value_ok p.2 && match canon p.2 with Some b => Z.of_nat (length b) <? two64 | None => true end) (map_to_list o).
Lemma obs_okb_ok o : obs_okb o = true → obs_ok o.
Proof.
  intros Hb l v Hv. apply elem_of_map_to_list in Hv. apply (forallb_elem _ _ _ Hb), andb_prop in Hv as [Hok Hf]. split; [done|].
  simpl in Hf. intros b Hc. rewrite Hc in Hf. apply Z.ltb_lt, Hf.
Qed.
Lemma obs_okb_all os : forallb obs_okb os = true → Forall obs_ok os.
Proof. intros Hb. apply Forall_forall. intros o Ho. by apply obs_okb_ok, (forallb_elem _ _ _ Hb). Qed.

Module Sample.
(** A counter: events add their payload; the world counts the replays. *)
Definition counter : ReplayGraph (W:=nat) (G:=Z) :=
  mkGraph (λ w, (inr (Some 0), S w)) (λ e g w, (inr (match e_payload e with VInt z => g + z | _ => g end), w))
    (λ g w, (inr {[ bytes_of "sum" := VInt g; bytes_of "kind" := VStr (bytes_of "counter") ]}, w)).
(** The same, but the second replay forgets the last digit. *)
Definition forgetful : ReplayGraph (W:=nat) (G:=Z) :=
  mkGraph (λ w, (inr (Some 0), S w)) (λ e g w, (inr (match e_payload e with VInt z => g + z | _ => g end), w))
    (λ g w, (inr {[ bytes_of "sum" := VInt (if (w =? 1)%nat then g else g / 10 * 10); bytes_of "kind" := VStr (bytes_of "counter") ]}, w)).
Definition events : list ReplayEvent :=
  [mkEvent 0 (bytes_of "add") (VInt 10); mkEvent 4 (bytes_of "add") (VInt 5); mkEvent 9 (bytes_of "add") (VInt 2)].
Definition log : ReplayLog := match log_new events with inr l => l | inl _ => mkLog [] [] end.
Definition recorded : (ReplayFingerprint * list Observation) :=
  match (replay (mkHarness counter 1) log 0%nat).1 with inr r => r | inl _ => (mkFingerprint [] 0 [] [], []) end.
Definition replayed : (ReplayFingerprint * list Observation) :=
  match (replay (mkHarness forgetful 1) log 1%nat).1 with inr r => r | inl _ => (mkFingerprint [] 0 [] [], []) end.

(** A fingerprint is compared by its digests and stride: one whose checkpoint
    carries another sequence number is verified, though what comes back is not
    equal to it. *)
Definition mislabelled : ReplayFingerprint :=
  match fingerprint_new (l_digest log) 1 ((λ c, mkCheckpoint 7 (cells c)) <$> fp_checkpoints recorded.1) with inr fp => fp | inl _ => mkFingerprint [] 0 [] [] end.
Lemma checkpoint_seqs_are_not_compared :
  match (verify (mkHarness counter 1) log mislabelled 1%nat).1 with inr fp => fingerprint_eqb mislabelled fp = false | inl _ => False end.
Proof. vm_compute. reflexivity. Qed.

Lemma verification_is_exact_witness :
  ∃ ds i s o o', (verify (mkHarness forgetful 1) log recorded.1 1%nat).1 = inl (DivergenceError ds) ∧
    checkpoint_seqs 1 (l_events log) !! i = Some s ∧ recorded.2 !! i = Some o ∧ replayed.2 !! i = Some o' ∧
    Forall2 obs_same (take i recorded.2) (take i replayed.2) ∧
    Forall (λ d, dv_seq d = s) ds ∧ ∀ l, l ∈ dv_label <$> ds ↔ ¬ same_at o o' l.
Proof.
  assert (Hlog : log_ok log).
  { split; [vm_compute; reflexivity|]. split; [|vm_compute; reflexivity].
    assert (El : l_events log = events) by (vm_compute; reflexivity). rewrite El. unfold events.
    repeat (apply Forall_cons; split; [split; [unfold is_i64, i64_min, i64_max; simpl; lia|vm_compute; reflexivity]|]). apply Forall_nil_2. }
  pose proof (verification_is_exact (mkHarness counter 1) (mkHarness forgetful 1) log log 0%nat 1%nat 1%nat 2%nat
    recorded.1 replayed.1 recorded.2 replayed.2 Hlog Hlog) as Hexact.
  specialize (Hexact ltac:(vm_compute; reflexivity) ltac:(vm_compute; reflexivity)
    ltac:(apply obs_okb_all; vm_compute; reflexivity) ltac:(apply obs_okb_all; vm_compute; reflexivity)).
  cbv zeta in Hexact. destruct Hexact as (_ & _ & Hexact).
  destruct Hexact as [(_ & Hr & _)|(_ & Hr)].
  - assert (El : l_events log = events) by (vm_compute; reflexivity). rewrite El. unfold events.
    repeat (apply Forall2_cons; split; [split; [done|split; [done|constructor]]|]). apply Forall2_nil_2.
  - done.
  - exfalso. assert (Hl : match (verify (mkHarness forgetful 1) log recorded.1 1%nat).1 with inl _ => false | inr _ => true end = false) by (vm_compute; reflexivity).
    rewrite Hr in Hl. discriminate.
  - exact Hr.
Defined.
End Sample.
