(* ===== verification/Ingress.v ===== *)
(** * Ingress: the admission of inbound envelopes

    Models include/lazily/ingress.hpp up to its reactive shell: envelopes and
    decisions, the keyed scopes with their lifecycle, generation fence,
    watermark, reorder buffer and coalescing window, the receipt log, and for
    every transition the set of readers it changes.  The tagged records of the
    code, whose factories leave every field of another case at zero, are
    inductive types.  The scopes are iterated in the order of the map, which
    the code leaves open.  The transport is a record of operations with its
    in-process implementation. *)
From S2P Require Import Prelude Merge Relay.
#[local] Open Scope Z_scope.

(** ** Envelopes and schedules *)

(* include/lazily/ingress.hpp:85-93, IngressTransportKind *)
Inductive IngressTransportKind := EventChannel | RpcTriggered | BoundedPolling.
(* include/lazily/ingress.hpp:100-102, IngressSchedule (data members) *)
Record IngressSchedule := mkSchedule { sc_kind : IngressTransportKind; sc_poll_interval : option Z }.
(* include/lazily/ingress.hpp:106-112, IngressSchedule::for_kind *)
Definition for_kind (kind : IngressTransportKind) (poll_interval : Z) : IngressSchedule :=
  mkSchedule kind match kind with BoundedPolling => Some (if poll_interval <? 1 then 1 else poll_interval) | _ => None end.

(** ** Decisions *)

(* include/lazily/ingress.hpp:149-165, IngressDropReason *)
Inductive IngressDropReason :=
  | StaleGeneration | DuplicateSequence | DuplicateBuffered | ReorderWindowOverflow | Expired | Backpressure | ScopeClosed.
(* include/lazily/ingress.hpp:169-173, IngressError *)
Inductive IngressError := TransportClosed | DecodeFailed | AuthorityLost.
(* include/lazily/ingress.hpp:176-232, IngressAdmission *)
Inductive IngressAdmission :=
  | Accepted (delivered_through : Z) | Conflated (delivered_through : Z) | Buffered (gap_from : Z)
  | GenerationHandoff (from to : Z) | Dropped (reason : IngressDropReason) | Blocked.
(* include/lazily/ingress.hpp:239-242, IngressAdmission::is_delivered *)
Definition is_delivered (a : IngressAdmission) : bool :=
  match a with Accepted _ | Conflated _ | GenerationHandoff _ _ => true | _ => false end.

(* include/lazily/ingress.hpp:255-264, IngressLifecycle *)
Inductive IngressLifecycle := Opening | Live | Suspended | Closed.
#[export] Instance IngressLifecycle_eq_dec : EqDecision IngressLifecycle.
Proof. solve_decision. Defined.
(* include/lazily/ingress.hpp:267-274, IngressReadiness *)
Inductive IngressReadiness := RUnknown | RWarming | RReady | RStale | RSuspended | RClosed.
#[export] Instance IngressReadiness_eq_dec : EqDecision IngressReadiness.
Proof. solve_decision. Defined.
(* include/lazily/ingress.hpp:278-281, IngressAuthority *)
Record IngressAuthority := mkAuthority { au_generation : Z; au_delivered_through : option Z; au_stamped_at : Z }.
(* include/lazily/ingress.hpp:291-294, IngressRetry *)
Record IngressRetry := mkRetry { re_attempt : Z; re_backoff : Z; re_resume_from : Z }.
(* include/lazily/ingress.hpp:303-305, ReplayRequest *)
Record ReplayRequest := mkRequest { rq_generation : Z; rq_from_sequence : Z }.

(* include/lazily/ingress.hpp:316-332, IngressPolicy *)
Record IngressPolicy := mkIngressPolicy {
  reorder_window : Z; freshness_horizon : Z; p_high_water : Z; p_overflow : Overflow; receipt_capacity : Z;
  retry_base : Z; retry_ceiling : Z }.
(* include/lazily/ingress.hpp:344-349, IngressConfigError *)
Inductive IngressConfigError := ConflateNotBounding | ZeroReceiptCapacity.

(** ** Receipts and invalidation sets *)

(* include/lazily/ingress.hpp:367-367, IngressReceiptChannel *)
Inductive IngressReceiptChannel := ChAccepted | ChDropped | ChError.
#[export] Instance IngressReceiptChannel_eq_dec : EqDecision IngressReceiptChannel.
Proof. solve_decision. Defined.
(* include/lazily/ingress.hpp:370-393, IngressReceiptOutcome *)
Inductive IngressReceiptOutcome := OAccepted (delivered_through : Z) (conflated : bool) | ODropped (reason : IngressDropReason) | OFailed (error : IngressError).

(* include/lazily/ingress.hpp:443-447, IngressScopeChange *)
Record IngressScopeChange := mkScopeChange { c_value : bool; c_readiness : bool; c_authority : bool; c_retry : bool }.
(* include/lazily/ingress.hpp:450-450, IngressScopeChange::empty *)
Definition scope_change_empty (c : IngressScopeChange) : bool := negb (c_value c || c_readiness c || c_authority c || c_retry c).
(* include/lazily/ingress.hpp:452-452, IngressScopeChange::all *)
Definition all_readers : IngressScopeChange := mkScopeChange true true true true.
(* include/lazily/ingress.hpp:453-453, IngressScopeChange::readiness_only *)
Definition readiness_only : IngressScopeChange := mkScopeChange false true false false.
(* include/lazily/ingress.hpp:454-454, IngressScopeChange::value_only *)
Definition value_only : IngressScopeChange := mkScopeChange true false false false.
(* include/lazily/ingress.hpp:455-455, IngressScopeChange::retry_only *)
Definition retry_only : IngressScopeChange := mkScopeChange false false false true.
(* include/lazily/ingress.hpp:460-460, IngressScopeChange::creation *)
Definition creation : IngressScopeChange := mkScopeChange false true true false.
(* include/lazily/ingress.hpp:462-464, IngressScopeChange::unite *)
Definition unite (a b : IngressScopeChange) : IngressScopeChange :=
  mkScopeChange (c_value a || c_value b) (c_readiness a || c_readiness b) (c_authority a || c_authority b) (c_retry a || c_retry b).
Definition no_reader : IngressScopeChange := mkScopeChange false false false false.

(** ** What is read of a scope *)

(* include/lazily/ingress.hpp:510-519, IngressScopeView *)
Record IngressScopeView := mkView {
  v_lifecycle : IngressLifecycle; v_generation : Z; v_delivered_through : option Z; v_stamped_at : Z; v_buffered : Z;
  v_window_depth : Z; v_consecutive_errors : Z; v_observed_now : Z; v_policy : IngressPolicy }.

(* include/lazily/ingress.hpp:522-525, IngressScopeView::is_fresh *)
Definition is_fresh (v : IngressScopeView) : bool :=
  let age := if v_stamped_at v <? v_observed_now v then v_observed_now v - v_stamped_at v else 0 in
  age <=? freshness_horizon (v_policy v).
(* include/lazily/ingress.hpp:529-542, IngressScopeView::readiness *)
Definition view_readiness (v : IngressScopeView) : IngressReadiness :=
  match v_lifecycle v with
  | Closed => RClosed
  | Suspended => RSuspended
  | Opening => RWarming
  | Live => match v_delivered_through v with None => RWarming | Some _ => if is_fresh v then RReady else RStale end
  end.
(* include/lazily/ingress.hpp:545-552, IngressScopeView::authority *)
Definition view_authority (v : IngressScopeView) : option IngressAuthority :=
  match v_lifecycle v with Closed => None | _ => Some (mkAuthority (v_generation v) (v_delivered_through v) (v_stamped_at v)) end.
(* include/lazily/ingress.hpp:555-557, IngressScopeView::resume_from *)
Definition resume_from (v : IngressScopeView) : Z := match v_delivered_through v with Some d => u64 (d + 1) | None => 0 end.
(* include/lazily/ingress.hpp:561-561, IngressScopeView::has_gap *)
Definition has_gap (v : IngressScopeView) : bool := 0 <? v_buffered v.
Definition u64_max : Z := two64 - 1.
(* include/lazily/ingress.hpp:565-581, IngressScopeView::retry *)
Definition view_retry (v : IngressScopeView) : option IngressRetry :=
  if v_consecutive_errors v =? 0 then None else
  let shift := Z.min (v_consecutive_errors v - 1) 31 in
  let factor := Z.shiftl 1 shift in
  let base := retry_base (v_policy v) in
  let backoff := if negb (base =? 0) && (u64_max / base <? factor) then u64_max else u64 (base * factor) in
  let backoff := if retry_ceiling (v_policy v) <? backoff then retry_ceiling (v_policy v) else backoff in
  Some (mkRetry (v_consecutive_errors v) backoff (resume_from v)).

Section core.
  Context {K T : Type} `{Countable K} `{MP : MergePolicy T}.

(* include/lazily/ingress.hpp:125-130, IngressEnvelope *)
Record IngressEnvelope := mkEnvelope { e_key : K; e_generation : Z; e_sequence : Z; e_stamped_at : Z; e_payload : T }.
(* include/lazily/ingress.hpp:410-415, IngressReceipt *)
Record IngressReceipt := mkReceipt { r_offset : Z; r_key : K; r_generation : Z; r_sequence : option Z; r_outcome : IngressReceiptOutcome }.
(* include/lazily/ingress.hpp:417-427, IngressReceipt::channel *)
Definition channel (r : IngressReceipt) : IngressReceiptChannel :=
  match r_outcome r with OAccepted _ _ => ChAccepted | ODropped _ => ChDropped | OFailed _ => ChError end.

(* include/lazily/ingress.hpp:475-480, IngressChange *)
Record IngressChange := mkChange { ch_scopes : list (K * IngressScopeChange); accepted_receipts : bool; dropped_receipts : bool; error_receipts : bool }.
Definition no_change : IngressChange := mkChange [] false false false.
(* include/lazily/ingress.hpp:482-484, IngressChange::empty *)
Definition change_empty (c : IngressChange) : bool :=
  bool_decide (ch_scopes c = []) && negb (accepted_receipts c) && negb (dropped_receipts c) && negb (error_receipts c).
(* include/lazily/ingress.hpp:486-488, IngressChange::mark *)
Definition mark (key : K) (change : IngressScopeChange) (c : IngressChange) : IngressChange :=
  if scope_change_empty change then c
  else mkChange (ch_scopes c ++ [(key, change)]) (accepted_receipts c) (dropped_receipts c) (error_receipts c).
(* include/lazily/ingress.hpp:490-502, IngressChange::mark_channel *)
Definition mark_channel (ch : IngressReceiptChannel) (c : IngressChange) : IngressChange :=
  match ch with
  | ChAccepted => mkChange (ch_scopes c) true (dropped_receipts c) (error_receipts c)
  | ChDropped => mkChange (ch_scopes c) (accepted_receipts c) true (error_receipts c)
  | ChError => mkChange (ch_scopes c) (accepted_receipts c) (dropped_receipts c) true
  end.

(** ** Scopes *)

(* include/lazily/ingress.hpp:660-671, Scope *)
Record Scope := mkScope {
  lifecycle : IngressLifecycle; generation : Z; delivered_through : option Z; stamped_at : Z; pending : gmap Z (T * Z);
  window : option T; window_depth : Z; consecutive_errors : Z }.
(* include/lazily/ingress.hpp:674-674, Scope::Scope *)
Definition scope_new (g : Z) : Scope := mkScope Opening g None 0 ∅ None 0 0.
(* include/lazily/ingress.hpp:676-688, Scope::view *)
Definition scope_view (now : Z) (policy : IngressPolicy) (s : Scope) : IngressScopeView :=
  mkView (lifecycle s) (generation s) (delivered_through s) (stamped_at s) (Z.of_nat (size (pending s))) (window_depth s)
    (consecutive_errors s) now policy.
(* include/lazily/ingress.hpp:690-692, Scope::next_expected *)
Definition next_expected (s : Scope) : Z := match delivered_through s with Some d => u64 (d + 1) | None => 0 end.
(* include/lazily/ingress.hpp:709-711, Scope::live_or_opening *)
Definition live_or_opening (s : Scope) : IngressLifecycle := match delivered_through s with Some _ => Live | None => Opening end.
(* include/lazily/ingress.hpp:698-703, Scope::Stamp *)
Record Stamp := mkStamp { st_lifecycle : IngressLifecycle; st_generation : Z; st_delivered_through : option Z; has_window : bool }.
(* include/lazily/ingress.hpp:705-707, Scope::stamp *)
Definition stamp (s : Scope) : Stamp := mkStamp (lifecycle s) (generation s) (delivered_through s) (bool_decide (is_Some (window s))).

(** Assignments to groups of members. *)
Definition set_lifecycle (l : IngressLifecycle) (s : Scope) : Scope :=
  mkScope l (generation s) (delivered_through s) (stamped_at s) (pending s) (window s) (window_depth s) (consecutive_errors s).
Definition set_errors (n : Z) (s : Scope) : Scope :=
  mkScope (lifecycle s) (generation s) (delivered_through s) (stamped_at s) (pending s) (window s) (window_depth s) n.
Definition set_window (w : option T) (d : Z) (s : Scope) : Scope :=
  mkScope (lifecycle s) (generation s) (delivered_through s) (stamped_at s) (pending s) w d (consecutive_errors s).
Definition set_pending (p : gmap Z (T * Z)) (s : Scope) : Scope :=
  mkScope (lifecycle s) (generation s) (delivered_through s) (stamped_at s) p (window s) (window_depth s) (consecutive_errors s).
Definition set_delivered (d : option Z) (s : Scope) : Scope :=
  mkScope (lifecycle s) (generation s) d (stamped_at s) (pending s) (window s) (window_depth s) (consecutive_errors s).
(** The sequence space restarts under a new fence. *)
Definition restart (g : Z) (s : Scope) : Scope :=
  mkScope (lifecycle s) g None (stamped_at s) ∅ (window s) (window_depth s) (consecutive_errors s).

(* include/lazily/ingress.hpp:717-727, Decision *)
Inductive Decision := Refuse (reason : IngressDropReason) | Hold | Park (gap_from : Z)
  | Deliver (through : Z) (conflated : bool) (handoff : option (Z * Z)).

(* include/lazily/ingress.hpp:1195-1208, IngressCore::merge_into *)
Definition merge_into (s : Scope) (payload : T) (stamp : Z) : bool * Scope :=
  let '(conflated, w) := match window s with None => (false, payload) | Some current => (true, merge current payload) end in
  (conflated, mkScope (lifecycle s) (generation s) (delivered_through s) (if stamped_at s <? stamp then stamp else stamped_at s)
                (pending s) (Some w) (u64 (window_depth s + 1)) (consecutive_errors s)).

(** Each turn takes one envelope out of the reorder buffer, so as many turns as
    it holds envelopes are enough. *)
(* include/lazily/ingress.hpp:1174-1185, IngressCore::decide (flush loop) *)
Fixpoint flush (fuel : nat) (s : Scope) (conflated : bool) (through : Z) : bool * Z * Scope :=
  match fuel with
  | O => (conflated, through, s)
  | S fuel =>
      let next := next_expected s in
      match pending s !! next with
      | None => (conflated, through, s)
      | Some (buffered, buffered_stamp) =>
          let '(coalesced, s) := merge_into (set_pending (delete next (pending s)) s) buffered buffered_stamp in
          flush fuel (set_delivered (Some next) s) (conflated || coalesced) next
      end
  end.

(** An envelope that is next in order. *)
(* include/lazily/ingress.hpp:1140-1189, IngressCore::decide (backpressure and merge) *)
Definition deliver (s : Scope) (policy : IngressPolicy) (sequence stamped : Z) (payload : T) (handoff : option (Z * Z)) : Decision * Scope :=
  let go s :=
    let '(conflated, s) := merge_into s payload stamped in
    let s := set_errors 0 (set_lifecycle Live (set_delivered (Some sequence) s)) in
    let '(conflated, through, s) := flush (size (pending s)) s conflated sequence in
    (Deliver through conflated handoff, s) in
  if p_high_water policy <=? window_depth s then
    match p_overflow policy with
    | Relay.Block => (Hold, s)
    | Relay.DropNewest => (Refuse Backpressure, s)
    | Relay.DropOldest => go (set_window None 0 s)
    | Relay.Conflate | Relay.Spill => go s
    end
  else go s.

(** What remains of the decision once the fence has been passed. *)
(* include/lazily/ingress.hpp:1113-1133, IngressCore::decide (dedupe and ordering) *)
Definition sequence_in (s : Scope) (policy : IngressPolicy) (sequence stamped : Z) (payload : T) (handoff : option (Z * Z)) : Decision * Scope :=
  let expected := next_expected s in
  if sequence <? expected then (Refuse DuplicateSequence, s)
  else if expected <? sequence then
    match pending s !! sequence with
    | Some _ => (Refuse DuplicateBuffered, s)
    | None =>
        if reorder_window policy <=? Z.of_nat (size (pending s)) then (Refuse ReorderWindowOverflow, s)
        else (Park expected, set_pending (<[sequence := (payload, stamped)]> (pending s)) s)
    end
  else deliver s policy sequence stamped payload handoff.

(* include/lazily/ingress.hpp:1067-1191, IngressCore::decide *)
Definition decide_ (s : Scope) (policy : IngressPolicy) (now gen sequence stamped : Z) (payload : T) : Decision * Scope :=
  if bool_decide (lifecycle s = Closed) then (Refuse ScopeClosed, s)
  else if gen <? generation s then (Refuse StaleGeneration, s)
  else
    let age := if stamped <? now then now - stamped else 0 in
    if freshness_horizon policy <? age then (Refuse Expired, s)
    else if generation s <? gen
      then sequence_in (set_window None 0 (restart gen s)) policy sequence stamped payload (Some (generation s, gen))
      else sequence_in s policy sequence stamped payload None.

(** ** The core *)

(* include/lazily/ingress.hpp:1219-1223, IngressCore (data members) *)
Record IngressCore := mkCore { policy_ : IngressPolicy; scopes_ : gmap K Scope; receipts_ : list IngressReceipt; next_receipt_offset_ : Z; observed_now_ : Z }.

(* include/lazily/ingress.hpp:740-745, IngressCore::IngressCore *)
Definition core_new (policy : IngressPolicy) : IngressConfigError + IngressCore :=
  if bool_decide (p_overflow policy = Relay.Conflate) && negb conflates then inl ConflateNotBounding
  else if receipt_capacity policy =? 0 then inl ZeroReceiptCapacity
  else inr (mkCore policy ∅ [] 0 0).

(* include/lazily/ingress.hpp:750-756, IngressCore::scope_keys *)
Definition scope_keys (c : IngressCore) : list K := (map_to_list (scopes_ c)).*1.
(* include/lazily/ingress.hpp:759-763, IngressCore::view *)
Definition view (c : IngressCore) (key : K) : option IngressScopeView := scope_view (observed_now_ c) (policy_ c) <$> scopes_ c !! key.
(* include/lazily/ingress.hpp:767-770, IngressCore::readiness *)
Definition readiness (c : IngressCore) (key : K) : IngressReadiness := match view c key with Some v => view_readiness v | None => RUnknown end.
(* include/lazily/ingress.hpp:772-775, IngressCore::authority *)
Definition authority (c : IngressCore) (key : K) : option IngressAuthority := view c key ≫= view_authority.
(* include/lazily/ingress.hpp:777-780, IngressCore::retry *)
Definition retry (c : IngressCore) (key : K) : option IngressRetry := view c key ≫= view_retry.
(* include/lazily/ingress.hpp:783-787, IngressCore::peek *)
Definition peek (c : IngressCore) (key : K) : option T := scopes_ c !! key ≫= window.
(* include/lazily/ingress.hpp:790-795, IngressCore::receipts *)
Definition receipts (c : IngressCore) (ch : IngressReceiptChannel) : list IngressReceipt := filter (λ r, channel r = ch) (receipts_ c).

Definition put_scope (key : K) (s : Scope) (c : IngressCore) : IngressCore :=
  mkCore (policy_ c) (<[key := s]> (scopes_ c)) (receipts_ c) (next_receipt_offset_ c) (observed_now_ c).

(* include/lazily/ingress.hpp:1210-1217, IngressCore::push_receipt *)
Definition push_receipt (r : IngressReceipt) (c : IngressCore) : IngressReceiptChannel * IngressCore :=
  let r := mkReceipt (next_receipt_offset_ c) (r_key r) (r_generation r) (r_sequence r) (r_outcome r) in
  (channel r, mkCore (policy_ c) (scopes_ c) (trim (receipt_capacity (policy_ c)) (receipts_ c ++ [r])) (u64 (next_receipt_offset_ c + 1)) (observed_now_ c)).

(* include/lazily/ingress.hpp:804-836, IngressCore::open *)
Definition open (key : K) (gen : Z) (c : IngressCore) : IngressChange * IngressCore :=
  match scopes_ c !! key with
  | None => (mark key creation no_change, put_scope key (scope_new gen) c)
  | Some s =>
      let s' :=
        if bool_decide (lifecycle s = Closed) then scope_new gen
        else let s1 := set_lifecycle (live_or_opening s) s in if generation s1 <? gen then restart gen s1 else s1 in
      let moved := negb (bool_decide (lifecycle s = lifecycle s')) || negb (generation s =? generation s') ||
                   negb (bool_decide (delivered_through s = delivered_through s')) in
      (if moved then mark key (mkScopeChange false (negb (bool_decide (lifecycle s = lifecycle s'))) true false) no_change else no_change,
       put_scope key s' c)
  end.

(* include/lazily/ingress.hpp:841-853, IngressCore::suspend *)
Definition suspend (key : K) (c : IngressCore) : IngressChange * option ReplayRequest * IngressCore :=
  match scopes_ c !! key with
  | None => (no_change, None, c)
  | Some s =>
      if bool_decide (lifecycle s = Suspended) || bool_decide (lifecycle s = Closed) then (no_change, None, c)
      else (mark key readiness_only no_change, Some (mkRequest (generation s) (next_expected s)), put_scope key (set_lifecycle Suspended s) c)
  end.

(* include/lazily/ingress.hpp:860-886, IngressCore::reconnect *)
Definition reconnect (key : K) (gen : Z) (c : IngressCore) : IngressChange * ReplayRequest * IngressCore :=
  let created := bool_decide (scopes_ c !! key = None) in
  let s := default (scope_new gen) (scopes_ c !! key) in
  let handoff := generation s <? gen in
  let had_window := bool_decide (is_Some (window s)) in
  let s1 := if handoff then set_window None 0 (restart gen s) else s in
  let s2 := set_errors 0 (set_lifecycle (live_or_opening s1) s1) in
  let base := mkScopeChange (handoff && had_window) (negb (bool_decide (lifecycle s1 = lifecycle s2))) handoff (0 <? consecutive_errors s1) in
  (mark key (if created then unite base creation else base) no_change, mkRequest (generation s2) (next_expected s2), put_scope key s2 c).

(* include/lazily/ingress.hpp:889-909, IngressCore::close *)
Definition close (key : K) (c : IngressCore) : IngressChange * IngressCore :=
  match scopes_ c !! key with
  | None => (no_change, c)
  | Some s =>
      if bool_decide (lifecycle s = Closed) then (no_change, c)
      else (mark key (mkScopeChange (bool_decide (is_Some (window s))) true true (0 <? consecutive_errors s)) no_change,
            put_scope key (set_errors 0 (set_window None 0 (set_pending ∅ (set_lifecycle Closed s)))) c)
  end.

(* include/lazily/ingress.hpp:919-922, IngressCore::tick (loop) *)
Fixpoint tick_loop (policy : IngressPolicy) (before now : Z) (entries : list (K * Scope)) (change : IngressChange) : IngressChange :=
  match entries with
  | [] => change
  | (key, s) :: entries =>
      tick_loop policy before now entries
        (if bool_decide (view_readiness (scope_view before policy s) = view_readiness (scope_view now policy s)) then change
         else mark key readiness_only change)
  end.
(* include/lazily/ingress.hpp:914-925, IngressCore::tick *)
Definition tick (now : Z) (c : IngressCore) : IngressChange * IngressCore :=
  if now =? observed_now_ c then (no_change, c)
  else (tick_loop (policy_ c) (observed_now_ c) now (map_to_list (scopes_ c)) no_change,
        mkCore (policy_ c) (scopes_ c) (receipts_ c) (next_receipt_offset_ c) now).

Definition u32_max : Z := 4294967295.
(* include/lazily/ingress.hpp:928-944, IngressCore::fail *)
Definition fail_ (key : K) (error : IngressError) (c : IngressCore) : IngressChange * IngressCore :=
  let created := bool_decide (scopes_ c !! key = None) in
  let s := default (scope_new 0) (scopes_ c !! key) in
  let s' := if consecutive_errors s <? u32_max then set_errors (consecutive_errors s + 1) s else s in
  let change := mark key (if created then unite retry_only creation else retry_only) no_change in
  let '(ch, c) := push_receipt (mkReceipt 0 key (generation s') None (OFailed error)) (put_scope key s' c) in
  (mark_channel ch change, c).

(* include/lazily/ingress.hpp:951-962, IngressCore::drain *)
Definition drain (key : K) (c : IngressCore) : IngressChange * option T * IngressCore :=
  match scopes_ c !! key with
  | None => (no_change, None, c)
  | Some s =>
      match window s with
      | None => (no_change, None, c)
      | Some v => (mark key value_only no_change, Some v, put_scope key (set_window None 0 s) c)
      end
  end.

(** What a parked envelope changes of a scope that was there before. *)
(* include/lazily/ingress.hpp:1031-1037, IngressCore::admit (difference) *)
Definition stamp_diff (before after : Stamp) : IngressScopeChange :=
  mkScopeChange (negb (bool_decide (has_window before = has_window after)))
    (negb (bool_decide (st_lifecycle before = st_lifecycle after)) ||
     negb (bool_decide (bool_decide (is_Some (st_delivered_through before)) = bool_decide (is_Some (st_delivered_through after)))))
    (negb (st_generation before =? st_generation after) || negb (bool_decide (st_delivered_through before = st_delivered_through after)))
    false.

(* include/lazily/ingress.hpp:972-1062, IngressCore::admit *)
Definition admit_ (e : IngressEnvelope) (c : IngressCore) : IngressChange * IngressAdmission * IngressCore :=
  let key := e_key e in
  let created := bool_decide (scopes_ c !! key = None) in
  let before := stamp <$> scopes_ c !! key in
  let '(decision, s) := decide_ (default (scope_new (e_generation e)) (scopes_ c !! key)) (policy_ c) (observed_now_ c)
                          (e_generation e) (e_sequence e) (e_stamped_at e) (e_payload e) in
  let admitted := match decision with Park _ | Deliver _ _ _ => true | _ => false end in
  let kept := negb (created && negb admitted) in
  let c := if kept then put_scope key s c else c in
  let fence := if kept then generation s else e_generation e in
  let receipt o := mkReceipt 0 key fence (Some (e_sequence e)) o in
  match decision with
  | Refuse reason =>
      let '(ch, c) := push_receipt (receipt (ODropped reason)) c in (mark_channel ch no_change, Dropped reason, c)
  | Hold =>
      let '(ch, c) := push_receipt (receipt (ODropped Backpressure)) c in (mark_channel ch no_change, Blocked, c)
  | Park gap_from =>
      let diff := match before with
        | Some b => unite (if created then creation else no_reader) (stamp_diff b (stamp s))
        | None => if created then creation else no_reader
        end in
      (mark key diff no_change, Buffered gap_from, c)
  | Deliver through conflated handoff =>
      let '(ch, c) := push_receipt (receipt (OAccepted through conflated)) c in
      (mark_channel ch (mark key all_readers no_change),
       match handoff with
       | Some (from, to) => GenerationHandoff from to
       | None => if conflated then Conflated through else Accepted through
       end, c)
  end.
End core.
(** ** The transport *)

(** The decoded source of envelopes: its three operations over its state. *)
(* include/lazily/ingress.hpp:600-615, IngressTransportSeam *)
Class IngressTransportSeam (S K T : Type) := {
  transport_kind_of : S → IngressTransportKind;
  drain_inbound : S → list (IngressEnvelope (K:=K) (T:=T)) * S;
  request_replay : K → ReplayRequest → S → bool * S;
}.

(* include/lazily/ingress.hpp:651-653, InProcIngress (data members) *)
Record InProcIngress {K T : Type} := mkInProc {
  kind_ : IngressTransportKind; inbound_ : list (IngressEnvelope (K:=K) (T:=T)); replays_ : list (K * ReplayRequest) }.
Arguments InProcIngress : clear implicits.
(* include/lazily/ingress.hpp:627-627, InProcIngress::push *)
Definition inproc_push {K T} (e : IngressEnvelope) (s : InProcIngress K T) : InProcIngress K T :=
  mkInProc _ _ (kind_ s) (inbound_ s ++ [e]) (replays_ s).
(* include/lazily/ingress.hpp:629-637, InProcIngress::drain_inbound *)
Definition inproc_drain {K T} (s : InProcIngress K T) : list IngressEnvelope * InProcIngress K T :=
  (inbound_ s, mkInProc _ _ (kind_ s) [] (replays_ s)).
(* include/lazily/ingress.hpp:639-645, InProcIngress::request_replay *)
Definition inproc_request {K T} (key : K) (request : ReplayRequest) (s : InProcIngress K T) : bool * InProcIngress K T :=
  match kind_ s with
  | BoundedPolling => (false, s)
  | _ => (true, mkInProc _ _ (kind_ s) (inbound_ s) (replays_ s ++ [(key, request)]))
  end.
#[export] Instance inproc_transport K T : IngressTransportSeam (InProcIngress K T) K T :=
  { transport_kind_of := kind_; drain_inbound := inproc_drain; request_replay := inproc_request }.

(** ** Histories *)
Section history.
  Context {K T : Type} `{Countable K} `{MP : MergePolicy T}.

Inductive IngressOp :=
  | IOpen (key : K) (gen : Z) | IAdmit (e : IngressEnvelope (K:=K) (T:=T)) | ISuspend (key : K) | IReconnect (key : K) (gen : Z)
  | IClose (key : K) | IFail (key : K) (error : IngressError) | ITick (now : Z) | IDrain (key : K).
Inductive IngressAnswer :=
  | ANothing | AAdmitted (a : IngressAdmission) | ARequest (r : option ReplayRequest) | ADrained (v : option T).

(** One transition: what it changes, what it returns, the state after it. *)
Definition core_step (op : IngressOp) (c : IngressCore (K:=K) (T:=T)) : IngressChange * IngressAnswer * IngressCore (K:=K) (T:=T) :=
  match op with
  | IOpen key gen => let '(ch, c) := open key gen c in (ch, ANothing, c)
  | IAdmit e => let '(ch, a, c) := admit_ e c in (ch, AAdmitted a, c)
  | ISuspend key => let '(ch, r, c) := suspend key c in (ch, ARequest r, c)
  | IReconnect key gen => let '(ch, r, c) := reconnect key gen c in (ch, ARequest (Some r), c)
  | IClose key => let '(ch, c) := close key c in (ch, ANothing, c)
  | IFail key error => let '(ch, c) := fail_ key error c in (ch, ANothing, c)
  | ITick now => let '(ch, c) := tick now c in (ch, ANothing, c)
  | IDrain key => let '(ch, v, c) := drain key c in (ch, ADrained v, c)
  end.
Fixpoint core_run_ops (ops : list IngressOp) (c : IngressCore (K:=K) (T:=T)) : list IngressAnswer * IngressCore (K:=K) (T:=T) :=
  match ops with
  | [] => ([], c)
  | op :: ops => let '(_, a, c) := core_step op c in let '(l, c) := core_run_ops ops c in (a :: l, c)
  end.

(** ** What holds of every scope *)

Record scope_ok (s : Scope (T:=T)) : Prop := {
  ok_opening : lifecycle s = Opening → delivered_through s = None;
  ok_closed : lifecycle s = Closed → window s = None;
  ok_delivered : ∀ d, delivered_through s = Some d → is_u64 d;
  ok_errors : 0 ≤ consecutive_errors s }.
Record core_ok (c : IngressCore (K:=K) (T:=T)) : Prop := {
  ok_scopes : map_Forall (λ _, scope_ok) (scopes_ c);
  ok_capacity : 0 < receipt_capacity (policy_ c);
  ok_receipts : Z.of_nat (length (receipts_ c)) ≤ receipt_capacity (policy_ c) }.
Definition op_ok (op : IngressOp) : Prop := match op with IAdmit e => is_u64 (e_sequence e) | _ => True end.

Lemma scope_new_ok g : scope_ok (scope_new g).
Proof. by split. Qed.
Lemma next_expected_u64 (s : Scope (T:=T)) : is_u64 (next_expected s).
Proof. unfold next_expected. destruct (delivered_through s); [apply u64_range|unfold is_u64, two64; lia]. Qed.

(** The fields that [merge_into] and [flush] leave alone. *)
Lemma merge_into_same (s : Scope (T:=T)) v t : lifecycle (merge_into s v t).2 = lifecycle s ∧ generation (merge_into s v t).2 = generation s ∧
  delivered_through (merge_into s v t).2 = delivered_through s ∧ pending (merge_into s v t).2 = pending s ∧
  consecutive_errors (merge_into s v t).2 = consecutive_errors s ∧
  window (merge_into s v t).2 = Some (match window s with Some w => merge w v | None => v end).
Proof. unfold merge_into. by destruct (window s). Qed.

Record delivered_state (s s' : Scope (T:=T)) : Prop := {
  ds_lifecycle : lifecycle s' = lifecycle s; ds_generation : generation s' = generation s;
  ds_errors : consecutive_errors s' = consecutive_errors s; ds_window : is_Some (window s) → is_Some (window s');
  ds_delivered : (∃ d, delivered_through s = Some d ∧ is_u64 d) → ∃ d, delivered_through s' = Some d ∧ is_u64 d }.

Lemma flush_same fuel : ∀ (s : Scope (T:=T)) b n, delivered_state s (flush fuel s b n).2.
Proof.
  induction fuel as [|fuel IH]; intros s b n; simpl; [by split|].
  destruct (pending s !! next_expected s) as [[v t]|]; [|by split].
  pose proof (merge_into_same (set_pending (delete (next_expected s) (pending s)) s) v t) as (M1 & M2 & M3 & M4 & M5 & M6).
  destruct (merge_into _ v t) as [co s1]. simpl in *.
  destruct (IH (set_delivered (Some (next_expected s)) s1) (b || co) (next_expected s)) as [I1 I2 I3 I4 I5]. simpl in *. split.
  - congruence.
  - congruence.
  - congruence.
  - intros _. apply I4. by rewrite M6.
  - intros _. apply I5. eexists. split; [done|apply next_expected_u64].
Qed.

(** The scope once the fence has been passed. *)
Definition entered (gen : Z) (s : Scope (T:=T)) : Scope := if generation s <? gen then set_window None 0 (restart gen s) else s.

Lemma decide_cases (s : Scope (T:=T)) policy now gen seq t v : is_u64 seq →
  let '(d, s') := decide_ s policy now gen seq t v in
  match d with
  | Refuse _ | Hold => s' = s ∨ lifecycle s ≠ Closed ∧ generation s < gen ∧ s' = entered gen s
  | Park _ => lifecycle s ≠ Closed ∧ ∃ p, s' = set_pending p (entered gen s)
  | Deliver _ _ _ => lifecycle s' = Live ∧ is_Some (window s') ∧ (∃ d, delivered_through s' = Some d ∧ is_u64 d) ∧ consecutive_errors s' = 0
  end.
Proof.
  intros Hseq. unfold decide_. case_bool_decide as Hc; [by left|]. destruct (Z.ltb_spec gen (generation s)); [by left|].
  destruct (freshness_horizon policy <? _); [by left|].
  assert (Hgo : ∀ s0 h, (s0 = s ∨ lifecycle s ≠ Closed ∧ generation s < gen ∧ s0 = entered gen s) → s0 = entered gen s →
    let '(d, s') := sequence_in s0 policy seq t v h in
    match d with
    | Refuse _ | Hold => s' = s ∨ lifecycle s ≠ Closed ∧ generation s < gen ∧ s' = entered gen s
    | Park _ => lifecycle s ≠ Closed ∧ ∃ p, s' = set_pending p (entered gen s)
    | Deliver _ _ _ => lifecycle s' = Live ∧ is_Some (window s') ∧ (∃ d, delivered_through s' = Some d ∧ is_u64 d) ∧ consecutive_errors s' = 0
    end).
  { intros s0 h Hs0 He. unfold sequence_in. destruct (seq <? _); [done|]. destruct (_ <? seq).
    { destruct (pending s0 !! seq); [done|]. destruct (reorder_window policy <=? _); [done|]. split; [done|]. rewrite <- He. by eexists. }
    unfold deliver.
    assert (Hd : ∀ s1, let '(d, s') := (let '(conflated, s) := merge_into s1 v t in
        let s := set_errors 0 (set_lifecycle Live (set_delivered (Some seq) s)) in
        let '(conflated, through, s) := flush (size (pending s)) s conflated seq in (Deliver through conflated h, s)) in
      match d with
      | Refuse _ | Hold => s' = s ∨ lifecycle s ≠ Closed ∧ generation s < gen ∧ s' = entered gen s
      | Park _ => lifecycle s ≠ Closed ∧ ∃ p, s' = set_pending p (entered gen s)
      | Deliver _ _ _ => lifecycle s' = Live ∧ is_Some (window s') ∧ (∃ d, delivered_through s' = Some d ∧ is_u64 d) ∧ consecutive_errors s' = 0
      end).
    { intros s1. pose proof (merge_into_same s1 v t) as (_ & _ & _ & _ & _ & Mw). destruct (merge_into s1 v t) as [co s2]. cbn zeta.
      pose proof (flush_same (size (pending s2)) (set_errors 0 (set_lifecycle Live (set_delivered (Some seq) s2))) co seq) as [F1 F2 F3 F4 F5].
      simpl pending. destruct (flush _ _ _ _) as [[co' th] s3]. simpl in *. split_and!; [done|apply F4; by rewrite Mw|by apply F5; eauto|done]. }
    destruct (p_high_water policy <=? _); [|apply Hd]. destruct (p_overflow policy); try done; try apply Hd. }
  destruct (Z.ltb_spec (generation s) gen) as [Hg|Hg].
  - apply Hgo; unfold entered; rewrite (proj2 (Z.ltb_lt _ _) Hg); [|done]. by right.
  - apply Hgo; unfold entered; rewrite (proj2 (Z.ltb_ge _ _) Hg); [|done]. by left.
Qed.

(** ** What a transition changes, and what it tells *)

Definition scope_told (ch : IngressChange (K:=K)) (f : IngressScopeChange → bool) (key : K) : Prop := ∃ sc, (key, sc) ∈ ch_scopes ch ∧ f sc = true.
Definition channel_told (ch : IngressChange (K:=K)) (chan : IngressReceiptChannel) : bool :=
  match chan with ChAccepted => accepted_receipts ch | ChDropped => dropped_receipts ch | ChError => error_receipts ch end.

(** Every reader whose value the transition changes is in the set it returns. *)
Record covers (ch : IngressChange (K:=K)) (c c' : IngressCore (K:=K) (T:=T)) : Prop := {
  cv_value key : peek c key ≠ peek c' key → scope_told ch c_value key;
  cv_readiness key : readiness c key ≠ readiness c' key → scope_told ch c_readiness key;
  cv_authority key : authority c key ≠ authority c' key → scope_told ch c_authority key;
  cv_retry key : retry c key ≠ retry c' key → scope_told ch c_retry key;
  cv_receipts chan : receipts c chan ≠ receipts c' chan → channel_told ch chan = true }.

(** The readers of one scope. *)
Definition readiness_of policy now (o : option (Scope (T:=T))) : IngressReadiness :=
  match scope_view now policy <$> o with Some v => view_readiness v | None => RUnknown end.
Definition authority_of policy now (o : option (Scope (T:=T))) : option IngressAuthority := (scope_view now policy <$> o) ≫= view_authority.
Definition retry_of policy now (o : option (Scope (T:=T))) : option IngressRetry := (scope_view now policy <$> o) ≫= view_retry.
Record tells (sc : IngressScopeChange) policy now (o o' : option (Scope (T:=T))) : Prop := {
  tl_value : o ≫= window ≠ o' ≫= window → c_value sc = true;
  tl_readiness : readiness_of policy now o ≠ readiness_of policy now o' → c_readiness sc = true;
  tl_authority : authority_of policy now o ≠ authority_of policy now o' → c_authority sc = true;
  tl_retry : retry_of policy now o ≠ retry_of policy now o' → c_retry sc = true }.

Lemma told_marked ch key sc f key' : ch_scopes ch = ch_scopes (mark key sc no_change) → f no_reader = false →
  scope_told ch f key' ↔ key' = key ∧ f sc = true.
Proof.
  intros E Hf. unfold scope_told. rewrite E. unfold mark. destruct (scope_change_empty sc) eqn:Ee; simpl.
  - split; [by intros (? & []%not_elem_of_nil & _)|]. intros [_ Hs]. unfold scope_change_empty in Ee. destruct sc as [[] [] [] []]; try done.
    unfold no_reader in Hf. congruence.
  - split; [intros (? & [= -> ->]%list_elem_of_singleton & ?); done|]. intros [-> ?]. exists sc. split; [by apply list_elem_of_singleton|done].
Qed.

(** A transition of one scope. *)
Lemma covers_one ch c c' key sc :
  policy_ c' = policy_ c → observed_now_ c' = observed_now_ c → ch_scopes ch = ch_scopes (mark key sc no_change) →
  (∀ key', key' ≠ key → scopes_ c' !! key' = scopes_ c !! key') →
  covers ch c c' ↔ tells sc (policy_ c) (observed_now_ c) (scopes_ c !! key) (scopes_ c' !! key) ∧
    ∀ chan, receipts c chan ≠ receipts c' chan → channel_told ch chan = true.
Proof.
  intros Ep En Ech Eo. split.
  - intros [C1 C2 C3 C4 C5]. split; [|done]. unfold peek, readiness, authority, retry, view in *. rewrite Ep, En in *. split; intros Hne.
    + apply C1 in Hne. apply (told_marked _ _ _ _ _ Ech) in Hne as [_ ?]; done.
    + apply C2 in Hne. apply (told_marked _ _ _ _ _ Ech) in Hne as [_ ?]; done.
    + apply C3 in Hne. apply (told_marked _ _ _ _ _ Ech) in Hne as [_ ?]; done.
    + apply C4 in Hne. apply (told_marked _ _ _ _ _ Ech) in Hne as [_ ?]; done.
  - intros [[T1 T2 T3 T4] T5]. unfold readiness_of, authority_of, retry_of in *.
    split; [intros k Hne..|done]; unfold peek, readiness, authority, retry, view in Hne; rewrite ?Ep, ?En in Hne; apply (told_marked _ _ _ _ _ Ech); try done;
      destruct (decide (k = key)) as [->|Hk]; try (by rewrite Eo in Hne); auto.
Qed.

(** ** Which transitions do not tell everything *)

(** A receipt that pushes one of another channel out of the log. *)
Definition evicts (c : IngressCore (K:=K) (T:=T)) (chan : IngressReceiptChannel) : bool :=
  match receipts_ c with
  | [] => false
  | r :: _ => (receipt_capacity (policy_ c) <=? Z.of_nat (length (receipts_ c))) && negb (bool_decide (channel r = chan))
  end.
(** Moving the watermark of a scope with errors back moves its retry. *)
Definition retry_rewinds (s : Scope (T:=T)) : bool := (0 <? consecutive_errors s) && negb (next_expected s =? 0).

Definition unreported (op : IngressOp) (c : IngressCore (K:=K) (T:=T)) : bool :=
  match op with
  | IOpen key gen =>
      match scopes_ c !! key with
      | Some s =>
          if bool_decide (lifecycle s = Closed) then 0 <? consecutive_errors s
          else (generation s <? gen) && (bool_decide (lifecycle s = Live ∧ delivered_through s ≠ None) || retry_rewinds s)
      | None => false
      end
  | IReconnect key gen =>
      match scopes_ c !! key with Some s => bool_decide (lifecycle s = Closed) && negb (generation s <? gen) | None => false end
  | IAdmit e =>
      let o := scopes_ c !! e_key e in
      match decide_ (default (scope_new (e_generation e)) o) (policy_ c) (observed_now_ c) (e_generation e) (e_sequence e) (e_stamped_at e) (e_payload e) with
      | (Refuse _, s') | (Hold, s') => match o with Some s => negb (generation s =? generation s') | None => false end || evicts c ChDropped
      | (Park _, _) => match o with Some s => (generation s <? e_generation e) && retry_rewinds s | None => false end
      | (Deliver _ _ _, _) => evicts c ChAccepted
      end
  | IFail _ _ => evicts c ChError
  | _ => false
  end.

Lemma receipts_pushed c r : core_ok c → let '(chan, c') := push_receipt r c in
  (∀ ch, receipts c ch ≠ receipts c' ch → ch = chan) ↔ evicts c chan = false.
Proof.
  intros [_ Hcap Hlen]. unfold push_receipt. cbn zeta. set (r' := mkReceipt _ _ _ _ _). cbn beta iota.
  unfold evicts, receipts. cbn [receipts_ policy_]. set (cap := receipt_capacity (policy_ c)) in *.
  assert (Hsnoc : ∀ ch l, filter (λ x, channel x = ch) (l ++ [r']) = filter (λ x, channel x = ch) l ++ if bool_decide (channel r' = ch) then [r'] else []).
  { intros ch l. rewrite filter_app. f_equal. rewrite filter_cons. by destruct (decide (channel r' = ch)) as [Hx|Hx]; [rewrite bool_decide_eq_true_2|rewrite bool_decide_eq_false_2]. }
  destruct (receipts_ c) as [|r0 l] eqn:El.
  - assert (Etrim : trim cap ([] ++ [r']) = [] ++ [r']) by (change (trim cap ([] ++ [r'])) with (if cap <? 1 then [] else [r']); by rewrite (proj2 (Z.ltb_ge cap 1)) by lia).
    rewrite Etrim. split; [done|]. intros _ ch Hne. apply dec_stable. intros Hn. apply Hne. by rewrite Hsnoc, bool_decide_eq_false_2, app_nil_r by congruence.
  - assert (Etrim : trim cap ((r0 :: l) ++ [r']) = if cap <=? Z.of_nat (length (r0 :: l)) then l ++ [r'] else (r0 :: l) ++ [r']).
    { rewrite trim_last by lia. unfold last_elems. simpl length in *. rewrite length_app. simpl length.
      destruct (Z.leb_spec cap (Z.of_nat (S (length l)))).
      - by replace (S (length l + 1) - Z.to_nat cap)%nat with 1%nat by lia.
      - by replace (S (length l + 1) - Z.to_nat cap)%nat with 0%nat by lia. }
    rewrite Etrim. destruct (cap <=? _); simpl negb; rewrite ?andb_true_l, ?andb_false_l.
    + split.
      * intros Hall. apply negb_false_iff, bool_decide_eq_true. destruct (decide (channel r0 = channel r')) as [?|Hn]; [done|]. apply Hall.
        rewrite Hsnoc, filter_cons_True by done. rewrite bool_decide_eq_false_2 by congruence. rewrite app_nil_r.
        intros E%(f_equal length). simpl in E. lia.
      * intros Hc%negb_false_iff%bool_decide_eq_true ch Hne. apply dec_stable. intros Hn. apply Hne. rewrite Hsnoc, filter_cons_False by congruence.
        by rewrite bool_decide_eq_false_2, app_nil_r by congruence.
    + split; [done|]. intros _ ch Hne. apply dec_stable. intros Hn. apply Hne. by rewrite Hsnoc, bool_decide_eq_false_2, app_nil_r by congruence.
Qed.

(** *** The readers of one scope *)

Lemma retry_of_next policy now (s s' : Scope (T:=T)) : consecutive_errors s' = consecutive_errors s → 0 ≤ consecutive_errors s →
  retry_of policy now (Some s) = retry_of policy now (Some s') ↔ consecutive_errors s = 0 ∨ next_expected s = next_expected s'.
Proof.
  intros E Hp. unfold retry_of. simpl. unfold view_retry. simpl. rewrite E. destruct (Z.eqb_spec (consecutive_errors s) 0) as [E0|E0]; [tauto|].
  split; [|by intros [?| Hn]; [|do 2 f_equal; exact Hn]]. intros Heq. right. injection Heq as Heq. exact Heq.
Qed.
Lemma retry_of_none policy now (s : Scope (T:=T)) : retry_of policy now (Some s) = None ↔ consecutive_errors s = 0.
Proof. unfold retry_of. simpl. unfold view_retry. simpl. destruct (Z.eqb_spec (consecutive_errors s) 0); by split. Qed.
Lemma authority_of_same policy now (s s' : Scope (T:=T)) : lifecycle s ≠ Closed → lifecycle s' ≠ Closed →
  authority_of policy now (Some s) = authority_of policy now (Some s') ↔
  generation s = generation s' ∧ delivered_through s = delivered_through s' ∧ stamped_at s = stamped_at s'.
Proof.
  intros Hc Hc'. unfold authority_of. simpl. unfold view_authority. simpl. destruct (lifecycle s), (lifecycle s'); try done; split; try (by intros [= -> -> ->]);
    by intros (-> & -> & ->).
Qed.
Lemma authority_of_closed policy now (s : Scope (T:=T)) : authority_of policy now (Some s) = None ↔ lifecycle s = Closed.
Proof. unfold authority_of. simpl. unfold view_authority. simpl. by destruct (lifecycle s); split. Qed.
Lemma readiness_of_same policy now (s s' : Scope (T:=T)) : lifecycle s = lifecycle s' → stamped_at s = stamped_at s' →
  (is_Some (delivered_through s) ↔ is_Some (delivered_through s')) → readiness_of policy now (Some s) = readiness_of policy now (Some s').
Proof.
  intros E1 E2 E3. unfold readiness_of. simpl. unfold view_readiness. simpl. rewrite E1. destruct (lifecycle s'); try done. unfold is_fresh. simpl. rewrite E2.
  destruct (delivered_through s), (delivered_through s'); try done; [by destruct (proj1 E3)|by destruct (proj2 E3)].
Qed.

(** A transition that leaves the receipts alone and changes one scope. *)
Lemma step_of_scope key sc s' (c : IngressCore (K:=K) (T:=T)) : covers (mark key sc no_change) c (put_scope key s' c) ↔
  tells sc (policy_ c) (observed_now_ c) (scopes_ c !! key) (Some s').
Proof.
  rewrite (covers_one _ _ _ key sc); [|done..|].
  - unfold put_scope. simpl. rewrite lookup_insert_eq. split; [by intros [? _]|]. intros Ht. by split.
  - intros k Hk. simpl. by rewrite lookup_insert_ne.
Qed.

Lemma put_scope_ok key s' (c : IngressCore (K:=K) (T:=T)) : core_ok c → scope_ok s' → core_ok (put_scope key s' c).
Proof. intros [H1 H2 H3] Hs. split; [|done|done]. by apply map_Forall_insert_2. Qed.
Lemma core_scope_ok (c : IngressCore (K:=K) (T:=T)) key s : core_ok c → scopes_ c !! key = Some s → scope_ok s.
Proof. intros [Hs _ _]. apply Hs. Qed.

(** The same of a scope that may not be there. *)
Lemma unchanged_covers (c : IngressCore (K:=K) (T:=T)) : covers no_change c c.
Proof. by split. Qed.

Lemma restart_ok g (s : Scope (T:=T)) : scope_ok s → scope_ok (restart g s).
Proof. intros [H1 H2 H3 H4]. by split. Qed.
Lemma entered_ok g (s : Scope (T:=T)) : scope_ok s → scope_ok (entered g s).
Proof. unfold entered. case_match; [|done]. intros [H1 H2 H3 H4]. by split. Qed.
Lemma live_or_opening_ok (s : Scope (T:=T)) : scope_ok s → lifecycle s ≠ Closed ∨ window s = None → scope_ok (set_lifecycle (live_or_opening s) s).
Proof. intros [H1 H2 H3 H4] Hw. unfold live_or_opening. split; simpl; try done; by destruct (delivered_through s). Qed.

(** A restart moves the fence, the watermark and, if there were errors, where
    the retry resumes. *)
Lemma restart_tells sc policy now g (s : Scope (T:=T)) : scope_ok s → lifecycle s ≠ Closed → generation s < g → c_authority sc = true →
  tells sc policy now (Some s) (Some (restart g s)) ↔
  (c_readiness sc = false → ¬ (lifecycle s = Live ∧ delivered_through s ≠ None)) ∧ (c_retry sc = false → retry_rewinds s = false).
Proof.
  intros [H1 H2 H3 H4] Hc Hg Ha.
  assert (Hr : readiness_of policy now (Some s) = readiness_of policy now (Some (restart g s)) ↔ ¬ (lifecycle s = Live ∧ delivered_through s ≠ None)).
  { unfold readiness_of. simpl. unfold view_readiness. simpl. destruct (decide (lifecycle s = Live ∧ delivered_through s ≠ None)) as [[E1 E2]|Hn].
    - split; [|by intros []]. rewrite E1. destruct (delivered_through s); [by destruct (is_fresh _)|done].
    - split; [done|]. intros _. destruct (lifecycle s); try done. destruct (delivered_through s); [|done]. by destruct Hn. }
  assert (Hy : retry_of policy now (Some s) = retry_of policy now (Some (restart g s)) ↔ retry_rewinds s = false).
  { rewrite retry_of_next by done. unfold retry_rewinds. change (next_expected (restart g s)) with 0.
    destruct (Z.ltb_spec 0 (consecutive_errors s)), (Z.eqb_spec (next_expected s) 0); simpl; split; try done; try lia; try (by left; lia); try (by right). }
  split.
  - intros [T1 T2 T3 T4]. split; intros Hf.
    + apply Hr. apply dec_stable. intros Hne. rewrite T2 in Hf; done.
    + apply Hy. destruct (decide (retry_rewinds s = false)) as [E|E]; [by apply Hy|]. exfalso. rewrite T4 in Hf; [done|]. intros Eq. by apply E, Hy.
  - intros [R1 R2]. split; try done.
    + intros Hne. destruct (c_readiness sc); [done|]. exfalso. apply Hne, Hr. auto.
    + intros Hne. destruct (c_retry sc); [done|]. exfalso. apply Hne, Hy. auto.
Qed.

(** *** Transition by transition *)

Lemma open_covers key gen (c : IngressCore (K:=K) (T:=T)) : core_ok c → let '(ch, c') := open key gen c in
  core_ok c' ∧ (covers ch c c' ↔ unreported (IOpen key gen) c = false).
Proof.
  intros Hok. unfold open, unreported. destruct (scopes_ c !! key) as [s|] eqn:Es.
  2:{ split; [apply put_scope_ok; [done|apply scope_new_ok]|]. rewrite step_of_scope, Es. split; [done|]. intros _. by split. }
  pose proof (core_scope_ok c key s Hok Es) as Hs. case_bool_decide as Hc.
  { split; [apply put_scope_ok; [done|apply scope_new_ok]|]. rewrite Hc. simpl orb. simpl negb. rewrite step_of_scope, Es. rewrite Z.ltb_ge.
    pose proof (ok_errors s Hs). split.
    - intros [_ _ _ T4]. destruct (decide (consecutive_errors s = 0)) as [?|Hne]; [lia|]. discriminate T4. by rewrite (retry_of_none _ _ s).
    - intros Hle. split; simpl; try done.
      + by rewrite (ok_closed s Hs Hc).
      + assert (E : retry_of (policy_ c) (observed_now_ c) (Some s) = None) by (apply retry_of_none; lia). by rewrite E. }
  set (s1 := set_lifecycle (live_or_opening s) s).
  assert (Hs1 : scope_ok s1) by (apply live_or_opening_ok; [done|by left]).
  assert (Hc1 : lifecycle s1 ≠ Closed) by (unfold s1, live_or_opening; simpl; by destruct (delivered_through s)).
  change (generation s1) with (generation s). destruct (Z.ltb_spec (generation s) gen) as [Hg|Hg]; rewrite ?andb_true_l, ?andb_false_l.
  - split; [apply put_scope_ok; [done|by apply restart_ok]|]. simpl generation. rewrite (proj2 (Z.eqb_neq _ _)) by lia.
    rewrite orb_true_r, orb_true_l. rewrite step_of_scope, Es. simpl lifecycle.
    assert (Hl : bool_decide (lifecycle s = live_or_opening s) = true ∨ bool_decide (lifecycle s = live_or_opening s) = false ∧ ¬ (lifecycle s = Live ∧ delivered_through s ≠ None)).
    { case_bool_decide as E; [by left|right]. split; [done|]. intros [E1 E2]. unfold live_or_opening in E. by destruct (delivered_through s). }
    set (flag := negb (bool_decide (lifecycle s = live_or_opening s))).
    assert (Ht : tells (mkScopeChange false flag true false) (policy_ c) (observed_now_ c) (Some s) (Some (restart gen s1)) ↔
                 tells (mkScopeChange false flag true false) (policy_ c) (observed_now_ c) (Some s) (Some (restart gen s))).
    { destruct Hl as [E|[E _]]; unfold flag; rewrite E.
      - apply bool_decide_eq_true in E. assert (Eq : s1 = s) by (unfold s1; rewrite <- E; by destruct s). by rewrite Eq.
      - split; intros [T1 T2 T3 T4]; by split. }
    rewrite Ht, restart_tells by done. simpl. unfold flag. rewrite orb_false_iff.
    destruct Hl as [E|[E Hn]]; rewrite E; simpl.
    + rewrite bool_decide_eq_false. tauto.
    + rewrite bool_decide_eq_false. tauto.
  - split; [by apply put_scope_ok|]. split; [done|]. intros _. simpl.
    rewrite Z.eqb_refl, (bool_decide_eq_true_2 (delivered_through s = _)) by done. simpl. rewrite !orb_false_r. case_bool_decide as El; simpl.
    + assert (Eq : s1 = s) by (unfold s1; rewrite <- El; by destruct s). rewrite Eq.
      assert (E2 : put_scope key s c = c) by (destruct c; unfold put_scope; simpl in *; by rewrite insert_id). rewrite E2. apply unchanged_covers.
    + apply step_of_scope. rewrite Es. by split.
Qed.

Lemma suspend_covers key (c : IngressCore (K:=K) (T:=T)) : core_ok c → let '(ch, _, c') := suspend key c in core_ok c' ∧ covers ch c c'.
Proof.
  intros Hok. unfold suspend. destruct (scopes_ c !! key) as [s|] eqn:Es; [|split; [done|apply unchanged_covers]].
  pose proof (core_scope_ok c key s Hok Es) as [H1 H2 H3 H4].
  case_bool_decide as E1; [split; [done|apply unchanged_covers]|]. case_bool_decide as E2; [split; [done|apply unchanged_covers]|]. simpl orb.
  split; [by apply put_scope_ok|]. apply step_of_scope. rewrite Es. split; simpl; try done. intros []. by apply authority_of_same.
Qed.

Lemma close_covers key (c : IngressCore (K:=K) (T:=T)) : core_ok c → let '(ch, c') := close key c in core_ok c' ∧ covers ch c c'.
Proof.
  intros Hok. unfold close. destruct (scopes_ c !! key) as [s|] eqn:Es; [|split; [done|apply unchanged_covers]].
  pose proof (core_scope_ok c key s Hok Es) as [H1 H2 H3 H4]. case_bool_decide as E1; [split; [done|apply unchanged_covers]|].
  split; [by apply put_scope_ok|]. apply step_of_scope. rewrite Es. split; simpl; try done.
  - intros Hne. apply bool_decide_eq_true. by destruct (window s).
  - intros Hne. apply Z.ltb_lt. destruct (decide (consecutive_errors s = 0)) as [E|E]; [|lia]. destruct Hne.
    rewrite (proj2 (retry_of_none (policy_ c) (observed_now_ c) s) E). symmetry. by apply retry_of_none.
Qed.

Lemma drain_covers key (c : IngressCore (K:=K) (T:=T)) : core_ok c → let '(ch, _, c') := drain key c in core_ok c' ∧ covers ch c c'.
Proof.
  intros Hok. unfold drain. destruct (scopes_ c !! key) as [s|] eqn:Es; [|split; [done|apply unchanged_covers]].
  destruct (window s); [|split; [done|apply unchanged_covers]]. pose proof (core_scope_ok c key s Hok Es) as [H1 H2 H3 H4].
  split; [by apply put_scope_ok|]. apply step_of_scope. rewrite Es. by split; simpl.
Qed.

Lemma reconnect_covers key gen (c : IngressCore (K:=K) (T:=T)) : core_ok c → let '(ch, _, c') := reconnect key gen c in
  core_ok c' ∧ (covers ch c c' ↔ unreported (IReconnect key gen) c = false).
Proof.
  intros Hok. unfold reconnect, unreported. destruct (scopes_ c !! key) as [s|] eqn:Es; simpl.
  2:{ rewrite Z.ltb_irrefl. split; [apply put_scope_ok; [done|apply scope_new_ok]|]. rewrite step_of_scope, Es. split; [done|]. intros _. by split. }
  pose proof (core_scope_ok c key s Hok Es) as Hs. change (if generation s <? gen then set_window None 0 (restart gen s) else s) with (entered gen s).
  assert (Hs1 : scope_ok (set_errors 0 (set_lifecycle (live_or_opening (entered gen s)) (entered gen s)))).
  { destruct (live_or_opening_ok (entered gen s)) as [L1 L2 L3 L4]; [by apply entered_ok| |by split].
    destruct (decide (lifecycle s = Closed)); [right|left]; unfold entered; case_match; simpl; try done. by apply ok_closed. }
  split; [by apply put_scope_ok|]. rewrite step_of_scope, Es.
  assert (Hretry : retry_of (policy_ c) (observed_now_ c) (Some s) ≠
      retry_of (policy_ c) (observed_now_ c) (Some (set_errors 0 (set_lifecycle (live_or_opening (entered gen s)) (entered gen s)))) →
    (0 <? consecutive_errors (entered gen s)) = true).
  { pose proof (ok_errors s Hs). assert (Ee : consecutive_errors (entered gen s) = consecutive_errors s) by (unfold entered; by case_match).
    rewrite Ee. intros Hne. apply Z.ltb_lt. destruct (decide (consecutive_errors s = 0)) as [E|E]; [|lia]. destruct Hne.
    rewrite (proj2 (retry_of_none (policy_ c) (observed_now_ c) s) E). symmetry. by apply retry_of_none. }
  assert (Hready : readiness_of (policy_ c) (observed_now_ c) (Some s) ≠
      readiness_of (policy_ c) (observed_now_ c) (Some (set_errors 0 (set_lifecycle (live_or_opening (entered gen s)) (entered gen s)))) →
    negb (bool_decide (lifecycle (entered gen s) = live_or_opening (entered gen s))) = true).
  { intros Hne. case_bool_decide as El; [|done]. destruct Hne. unfold entered in *. destruct (generation s <? gen).
    - unfold live_or_opening in El. simpl in El. unfold readiness_of. simpl. unfold view_readiness. simpl. by rewrite El.
    - unfold readiness_of. simpl. unfold view_readiness. simpl. by rewrite <- El. }
  assert (Hvalue : window s ≠ window (entered gen s) → (generation s <? gen) && bool_decide (is_Some (window s)) = true).
  { unfold entered. destruct (generation s <? gen); [|done]. simpl. intros Hne. apply bool_decide_eq_true. by destruct (window s). }
  destruct (generation s <? gen) eqn:Hg.
  - rewrite andb_false_r. split; [done|]. intros _. by split.
  - rewrite andb_true_r. rewrite bool_decide_eq_false. split.
    + intros [_ _ T3 _] Hc. simpl in T3. discriminate T3. rewrite (proj2 (authority_of_closed (policy_ c) (observed_now_ c) s) Hc). intros Eq. symmetry in Eq.
      apply authority_of_closed in Eq. simpl in Eq. unfold live_or_opening in Eq. by destruct (delivered_through _).
    + intros Hc. split; try done. simpl. intros []. unfold entered in *. rewrite Hg. apply authority_of_same; [done| |done].
      unfold live_or_opening. simpl. by destruct (delivered_through s).
Qed.

(** Receipts: a transition that pushes one. *)
Lemma push_covers key sc s' r (c : IngressCore (K:=K) (T:=T)) c1 : core_ok c1 → policy_ c1 = policy_ c → observed_now_ c1 = observed_now_ c → receipts_ c1 = receipts_ c →
  scopes_ c1 !! key = s' → (∀ k, k ≠ key → scopes_ c1 !! k = scopes_ c !! k) →
  let '(chan, c') := push_receipt r c1 in
  core_ok c' ∧ (covers (mark_channel chan (mark key sc no_change)) c c' ↔
    tells sc (policy_ c) (observed_now_ c) (scopes_ c !! key) s' ∧ evicts c chan = false).
Proof.
  intros Hok Ep En Er Es Ho. pose proof (receipts_pushed c1 r Hok) as Hr. destruct (push_receipt r c1) as [chan c'] eqn:E.
  assert (Ec : scopes_ c' = scopes_ c1 ∧ policy_ c' = policy_ c1 ∧ observed_now_ c' = observed_now_ c1 ∧
    receipts_ c' = trim (receipt_capacity (policy_ c1)) (receipts_ c1 ++ [mkReceipt (next_receipt_offset_ c1) (r_key r) (r_generation r) (r_sequence r) (r_outcome r)])).
  { unfold push_receipt in E. by injection E as _ <-. }
  destruct Ec as (Ec1 & Ec2 & Ec3 & Ec4). split.
  { destruct Hok as [O1 O2 O3]. split; [by rewrite Ec1|by rewrite Ec2|]. rewrite Ec4, Ec2, trim_last by lia. unfold last_elems. rewrite length_drop. lia. }
  rewrite (covers_one _ c c' key sc).
  - rewrite Ec1, Es. assert (Eev : evicts c chan = evicts c1 chan) by (unfold evicts; by rewrite Er, Ep). rewrite Eev, <- Hr.
    assert (Erc : ∀ ch, receipts c ch = receipts c1 ch) by (intros ch; unfold receipts; by rewrite Er).
    assert (Ech : ∀ ch, channel_told (mark_channel chan (mark key sc no_change)) ch = true ↔ ch = chan).
    { intros ch. unfold mark. destruct (scope_change_empty sc), chan, ch; simpl; split; (done || by intros [=]). }
    split; (intros [Ht Hc]; split; [done|]); intros ch Hne.
    + apply Ech, Hc. by rewrite Erc.
    + apply Ech, Hc. by rewrite <- Erc.
  - congruence.
  - congruence.
  - unfold mark. destruct (scope_change_empty sc), chan; done.
  - intros k Hk. by rewrite Ec1, Ho.
Qed.

Lemma tells_same policy now (o : option (Scope (T:=T))) sc : tells sc policy now o o.
Proof. by split. Qed.

Lemma fail_covers key error (c : IngressCore (K:=K) (T:=T)) : core_ok c → let '(ch, c') := fail_ key error c in
  core_ok c' ∧ (covers ch c c' ↔ unreported (IFail key error) c = false).
Proof.
  intros Hok. unfold fail_, unreported. set (s := default (scope_new 0) (scopes_ c !! key)).
  assert (Hs : scope_ok s) by (unfold s; destruct (scopes_ c !! key) eqn:Es; [by eapply core_scope_ok|apply scope_new_ok]).
  set (s' := if consecutive_errors s <? u32_max then set_errors (consecutive_errors s + 1) s else s).
  assert (Hs' : scope_ok s').
  { unfold s'. case_match; [|done]. destruct Hs as [H1 H2 H3 H4]. split; simpl; (done || lia). }
  assert (He : window s' = window s ∧ lifecycle s' = lifecycle s ∧ delivered_through s' = delivered_through s ∧ stamped_at s' = stamped_at s ∧ generation s' = generation s).
  { unfold s'. by case_match. }
  destruct He as (E1 & E2 & E3 & E4 & E5).
  pose proof (push_covers key (if bool_decide (scopes_ c !! key = None) then unite retry_only creation else retry_only) (Some s')
    (mkReceipt 0 key (generation s') None (OFailed error)) c (put_scope key s' c)) as Hp.
  assert (Ech : (push_receipt (mkReceipt 0 key (generation s') None (OFailed error)) (put_scope key s' c)).1 = ChError) by done.
  destruct (push_receipt _ _) as [chan c']. simpl in Ech. subst chan.
  destruct Hp as [Hok' Hcov]; [by apply put_scope_ok|done|done|done|simpl; by rewrite lookup_insert_eq|intros k Hk; simpl; by rewrite lookup_insert_ne|].
  split; [done|]. rewrite Hcov. split; [by intros [_ ?]|]. intros Hev. split; [|done].
  clearbody s'. unfold s in *. clear s. destruct (scopes_ c !! key) as [s0|]; simpl in *.
  - split; simpl; try done.
    + intros []. apply readiness_of_same; [done|done|by rewrite E3].
    + intros []. unfold authority_of. simpl. unfold view_authority. simpl. by rewrite E2, E3, E4, E5.
  - by split.
Qed.

Lemma tick_loop_told policy before now (entries : list (K * Scope (T:=T))) : ∀ ch key sc,
  (key, sc) ∈ ch_scopes (tick_loop policy before now entries ch) ↔ (key, sc) ∈ ch_scopes ch ∨
    sc = readiness_only ∧ ∃ s, (key, s) ∈ entries ∧ view_readiness (scope_view before policy s) ≠ view_readiness (scope_view now policy s).
Proof.
  induction entries as [|[k s] entries IH]; intros ch key sc; simpl.
  - split; [by left|]. by intros [?|(_ & ? & []%not_elem_of_nil & _)].
  - rewrite IH. case_bool_decide as E.
    + split.
      * intros [?|(-> & s0 & ? & ?)]; [by left|right]. split; [done|]. exists s0. split; [by right|done].
      * intros [?|(-> & s0 & [[= -> ->]|?]%elem_of_cons & ?)]; [by left|done|right]. eauto.
    + simpl. rewrite elem_of_app, list_elem_of_singleton. split.
      * intros [[?|[= -> ->]]|(-> & s0 & ? & ?)]; [by left|right; split; [done|]|right; split; [done|]].
        -- exists s. split; [by left|done].
        -- exists s0. split; [by right|done].
      * intros [?|(-> & s0 & [[= -> ->]|?]%elem_of_cons & ?)]; [left; by left|left; by right|right]. eauto.
Qed.

Lemma tick_covers now (c : IngressCore (K:=K) (T:=T)) : core_ok c → let '(ch, c') := tick now c in core_ok c' ∧ covers ch c c'.
Proof.
  intros Hok. unfold tick. destruct (now =? observed_now_ c); [split; [done|apply unchanged_covers]|]. destruct Hok as [O1 O2 O3]. split; [done|].
  assert (Hch : ∀ ch (entries : list (K * Scope (T:=T))), channel_told (tick_loop (policy_ c) (observed_now_ c) now entries ch) = channel_told ch).
  { intros ch entries. revert ch. induction entries as [|[k s] entries IH]; intros ch; simpl; [done|]. rewrite IH. by case_bool_decide. }
  split; unfold peek, readiness, authority, retry, view; simpl; intros key Hne; try done.
  - unfold scope_told. exists readiness_only. split; [|done]. apply tick_loop_told. right. split; [done|].
    destruct (scopes_ c !! key) as [s|] eqn:Es; [|done]. exists s. split; [by apply elem_of_map_to_list|done].
  - by destruct (scopes_ c !! key).
  - by destruct (scopes_ c !! key).
Qed.

Lemma admit_covers (e : IngressEnvelope) (c : IngressCore (K:=K) (T:=T)) : core_ok c → is_u64 (e_sequence e) → let '(ch, _, c') := admit_ e c in
  core_ok c' ∧ (covers ch c c' ↔ unreported (IAdmit e) c = false).
Proof.
  intros Hok Hseq. unfold admit_, unreported. set (o := scopes_ c !! e_key e). set (s := default (scope_new (e_generation e)) o).
  assert (Hs : scope_ok s) by (unfold s; destruct o eqn:Es; [by eapply core_scope_ok|apply scope_new_ok]).
  pose proof (decide_cases s (policy_ c) (observed_now_ c) (e_generation e) (e_sequence e) (e_stamped_at e) (e_payload e) Hseq) as Hd.
  assert (Hsok : ∀ s' p, s' = s ∨ s' = entered (e_generation e) s ∨ s' = set_pending p (entered (e_generation e) s) → scope_ok s').
  { pose proof (entered_ok (e_generation e) s Hs) as He. intros s' p [->|[->| ->]]; try done. destruct He as [H1 H2 H3 H4]. by split. }
  assert (Hself : ∀ s', o = Some s' → s' = s → put_scope (e_key e) s' c = c).
  { intros s' Eo ->. destruct c. unfold put_scope. simpl in *. f_equal. by apply insert_id. }
  destruct (decide_ _ _ _ _ _ _ _) as [d s'] eqn:Ed.
  (* An envelope that is refused or held. *)
  assert (Hrefuse : ∀ out, channel (mkReceipt 0 (e_key e) 0 None out) = ChDropped →
    (s' = s ∨ lifecycle s ≠ Closed ∧ generation s < e_generation e ∧ s' = entered (e_generation e) s) →
    let kept := negb (bool_decide (o = None)) in
    let c1 := if kept then put_scope (e_key e) s' c else c in
    let '(chan, c') := push_receipt (mkReceipt 0 (e_key e) (if kept then generation s' else e_generation e) (Some (e_sequence e)) out) c1 in
    core_ok c' ∧ (covers (mark_channel chan no_change) c c' ↔
      match o with Some s0 => negb (generation s0 =? generation s') | None => false end || evicts c ChDropped = false)).
  { intros out Hout Hcase kept c1.
    pose proof (push_covers (e_key e) no_reader (scopes_ c1 !! e_key e) (mkReceipt 0 (e_key e) (if kept then generation s' else e_generation e) (Some (e_sequence e)) out) c c1) as Hp.
    destruct (push_receipt _ c1) as [chan c'] eqn:Epush.
    assert (Ech : chan = ChDropped) by (unfold push_receipt in Epush; injection Epush as <- _; exact Hout). subst chan.
    destruct Hp as [Hok' Hcov]; try (unfold c1; by destruct kept); [|intros k Hk; unfold c1; destruct kept; [simpl; by rewrite lookup_insert_ne|done]|].
    { unfold c1. destruct kept; [|done]. apply put_scope_ok; [done|]. apply (Hsok _ ∅). tauto. }
    split; [done|]. change (mark (e_key e) no_reader no_change) with (no_change (K:=K)) in Hcov. rewrite Hcov, orb_false_iff.
    unfold c1, kept. subst o s. destruct (scopes_ c !! e_key e) as [s0|] eqn:Eo; simpl in *.
    - rewrite lookup_insert_eq. destruct Hcase as [->|(Hc & Hg & ->)].
      + rewrite Z.eqb_refl. split; (intros [_ ?]; split; [done|done]) || (split; intros [_ ?]; split; try done; apply tells_same).
      + unfold entered in *. rewrite (proj2 (Z.ltb_lt _ _) Hg) in *. simpl. rewrite (proj2 (Z.eqb_neq _ _)) by lia. simpl.
        split; [|by intros [? _]]. intros [[_ _ T3 _] _]. exfalso. discriminate T3. rewrite authority_of_same by done. simpl. intros (? & _). lia.
    - rewrite Eo. split; [by intros [_ ?]|]. intros [_ ?]. split; [apply tells_same|done]. }
  destruct d as [reason| |gap|through conflated handoff].
  - rewrite andb_true_r. specialize (Hrefuse (ODropped reason) eq_refl Hd). cbv zeta in Hrefuse. simpl negb. cbv iota.
    destruct (push_receipt _ _) as [chan c']. exact Hrefuse.
  - rewrite andb_true_r. specialize (Hrefuse (ODropped Backpressure) eq_refl Hd). cbv zeta in Hrefuse. simpl negb. cbv iota.
    destruct (push_receipt _ _) as [chan c']. exact Hrefuse.
  - rewrite andb_false_r. simpl negb. cbv iota. destruct Hd as [Hc [p Hp]].
    split; [apply put_scope_ok; [done|]; apply (Hsok _ p); subst s'; tauto|]. rewrite step_of_scope. fold o.
    subst s'. clear Hrefuse Hself Hsok Ed. subst s. destruct o as [s0|]; simpl in *.
    2:{ unfold entered. simpl. rewrite Z.ltb_irrefl. split; [done|]. intros _. by split. }
    unfold entered. destruct (Z.ltb_spec (generation s0) (e_generation e)) as [Hg|Hg]; simpl.
    2:{ split; [done|]. intros _. by split. }
    etransitivity; [|etransitivity; [apply (restart_tells (mkScopeChange true true true false) (policy_ c) (observed_now_ c) (e_generation e) s0); done|]].
    2:{ simpl. split; [intros [_ Hr]; by apply Hr|]. by intros Hr. }
    split; intros [T1 T2 T3 T4]; (split; [..|exact T4]); try done; simpl.
    + intros Hne. apply negb_true_iff, bool_decide_eq_false. by destruct (window s0).
    + intros Hne. rewrite orb_true_iff. right. apply negb_true_iff, bool_decide_eq_false. intros Eq. apply Hne. apply readiness_of_same; [done|done|].
      simpl. by destruct (delivered_through s0).
    + intros _. by rewrite (proj2 (Z.eqb_neq _ _)) by lia.
  - simpl negb. rewrite andb_false_r. cbv iota. simpl negb. cbv iota.
    pose proof (push_covers (e_key e) all_readers (Some s') (mkReceipt 0 (e_key e) (generation s') (Some (e_sequence e)) (OAccepted through conflated)) c (put_scope (e_key e) s' c)) as Hp.
    destruct (push_receipt _ _) as [chan c'] eqn:Epush.
    assert (Ech : chan = ChAccepted) by (unfold push_receipt in Epush; by injection Epush as <- _). subst chan.
    destruct Hp as [Hok' Hcov]; try done; [|simpl; by rewrite lookup_insert_eq|intros k Hk; simpl; by rewrite lookup_insert_ne|].
    { apply put_scope_ok; [done|]. destruct Hd as (D1 & [w D2] & (d & D3 & D4) & D5). split; rewrite ?D1, ?D2, ?D3, ?D5; try done. by intros ? [= <-]. }
    split; [done|]. rewrite Hcov. split; [by intros [_ ?]|]. intros ?. split; [by split|done].
Qed.

(** A transition tells of every reader it changes exactly if it is not one of
    [unreported]. *)
Lemma covers_exactly op (c : IngressCore (K:=K) (T:=T)) : core_ok c → op_ok op → let '(ch, _, c') := core_step op c in
  core_ok c' ∧ (covers ch c c' ↔ unreported op c = false).
Proof.
  intros Hok Hop. destruct op as [key gen|e|key|key gen|key|key error|now|key]; cbn [core_step].
  - pose proof (open_covers key gen c Hok). by destruct (open key gen c).
  - pose proof (admit_covers e c Hok Hop). by destruct (admit_ e c) as [[??]?].
  - pose proof (suspend_covers key c Hok) as Hs. destruct (suspend key c) as [[??]?]. by destruct Hs.
  - pose proof (reconnect_covers key gen c Hok). by destruct (reconnect key gen c) as [[??]?].
  - pose proof (close_covers key c Hok) as Hs. destruct (close key c). by destruct Hs.
  - pose proof (fail_covers key error c Hok). by destruct (fail_ key error c).
  - pose proof (tick_covers now c Hok) as Hs. destruct (tick now c). by destruct Hs.
  - pose proof (drain_covers key c Hok) as Hs. destruct (drain key c) as [[??]?]. by destruct Hs.
Qed.

(** ** Delivery in order *)

(** The fold of a segment; nothing for the empty one. *)
Definition fold1 (l : list T) : option T := match l with [] => None | v :: l => Some (fold_merge v l) end.
Lemma fold1_snoc l v : fold1 (l ++ [v]) = Some match fold1 l with Some w => merge w v | None => v end.
Proof. destruct l as [|x l]; simpl; [done|]. unfold fold_merge. by rewrite foldl_app. Qed.

Section order.
  Variables (p : Z → T) (g : Z).

(** A scope of generation [g] into which the sequence numbers [A] were taken,
    each with its payload: those from the watermark on are parked, and the
    window is the fold of what was delivered from [from] on. *)
Record tracks_below (A : Z → Prop) (from : Z) (s : Scope (T:=T)) : Prop := {
  tr_open : lifecycle s ≠ Closed; tr_fence : generation s = g;
  tr_bound : ∀ i, A i → 0 ≤ i < u64_max;
  tr_prefix : ∀ i, 0 ≤ i < next_expected s → A i;
  tr_pending : ∀ i v t, pending s !! i = Some (v, t) → v = p i ∧ next_expected s ≤ i;
  tr_parked : ∀ i, next_expected s ≤ i → A i ↔ is_Some (pending s !! i);
  tr_from : 0 ≤ from ≤ next_expected s;
  tr_window : window s = fold1 (p <$> seqZ from (next_expected s - from)) }.
Definition tracks (A : Z → Prop) (from : Z) (s : Scope (T:=T)) : Prop := tracks_below A from s ∧ ¬ A (next_expected s).


(** The next envelope is merged, and its number leaves the buffer. *)
Lemma deliver_next A A' from s n t :
  tracks_below A from s → n = next_expected s → (∀ i, A' i ↔ A i ∨ i = n) → 0 ≤ n < u64_max →
  ∀ s', s' = set_delivered (Some n) (merge_into (set_pending (delete n (pending s)) s) (p n) t).2 →
  tracks_below A' from s' ∧ next_expected s' = n + 1 ∧ pending s' = delete n (pending s).
Proof.
  intros [T1 T2 T3 T4 T5 T6 T7 T8] Hn HA Hb s' Es. pose proof (merge_into_same (set_pending (delete n (pending s)) s) (p n) t) as (M1 & M2 & M3 & M4 & M5 & M6).
  destruct (merge_into _ (p n) t) as [co s1]. simpl in *. rewrite <- Hn in *.
  assert (En : next_expected s' = n + 1) by (subst s'; unfold next_expected; simpl; apply u64_small; unfold is_u64, u64_max in *; lia).
  assert (Ep : pending s' = delete n (pending s)) by by subst s'. split; [|done].
  split; rewrite ?En.
  - subst s'. simpl. congruence.
  - subst s'. simpl. congruence.
  - intros i Hi. apply HA in Hi as [Hi| ->]; [by apply T3|lia].
  - intros i Hi. apply HA. destruct (decide (i = n)); [by right|left]. apply T4. lia.
  - intros i v t' Hi. rewrite Ep in Hi. apply lookup_delete_Some in Hi as [Hne Hi]. apply T5 in Hi as [-> ?]. split; [done|lia].
  - intros i Hi. rewrite Ep, lookup_delete_ne by lia. rewrite HA, <- T6 by lia. intuition lia.
  - lia.
  - assert (Ew : window s' = window s1) by by subst s'. rewrite Ew, M6, T8.
    replace (n + 1 - from) with (Z.of_nat (S (Z.to_nat (n - from)))) by lia. rewrite seqZ_S, fmap_app.
    replace (Z.of_nat (Z.to_nat (n - from))) with (n - from) by lia. replace (from + (n - from)) with n by lia. simpl. by rewrite fold1_snoc.
Qed.

Lemma flush_tracks A from fuel : ∀ s b through, tracks_below A from s → (size (pending s) ≤ fuel)%nat → tracks A from (flush fuel s b through).2.
Proof.
  induction fuel as [|fuel IH]; intros s b through Ht Hsz; simpl.
  - split; [done|]. simpl snd. intros Hn. apply (tr_parked _ _ _ Ht) in Hn as [? Hn]; [|lia]. assert (E : pending s = ∅) by (apply map_size_empty_inv; lia). by rewrite E in Hn.
  - destruct (pending s !! next_expected s) as [[v t]|] eqn:Ep.
    2:{ split; [done|]. simpl snd. intros Hn. apply (tr_parked _ _ _ Ht) in Hn as [? Hn]; [congruence|lia]. }
    destruct (tr_pending _ _ _ Ht _ _ _ Ep) as [-> _].
    assert (HA : A (next_expected s)) by (apply (tr_parked _ _ _ Ht); [lia|by rewrite Ep]).
    pose proof (deliver_next A A from s (next_expected s) t Ht eq_refl) as Hd.
    assert (Hor : ∀ i, A i ↔ A i ∨ i = next_expected s) by (intros i; split; [by left|by intros [?| ->]]).
    specialize (Hd Hor (tr_bound _ _ _ Ht _ HA) _ eq_refl) as (Hd1 & _ & Hd3). destruct (merge_into _ _ t) as [co s1].
    apply IH; [exact Hd1|]. simpl in Hd3 |- *. rewrite Hd3. rewrite map_size_delete, Ep. simpl. lia.
Qed.

Lemma decide_tracks A from s policy now gen seq t v : tracks A from s → gen ≤ g → (gen = g → v = p seq ∧ 0 ≤ seq < u64_max) → p_overflow policy ≠ Relay.DropOldest →
  let '(d, s') := decide_ s policy now gen seq t v in
  match d with
  | Refuse _ | Hold => s' = s
  | Park _ | Deliver _ _ _ => gen = g ∧ ¬ A seq ∧ tracks (λ i, A i ∨ i = seq) from s'
  end.
Proof.
  intros [Ht Hnext] Hg Hp Ho. pose proof (tr_open _ _ _ Ht) as T1. pose proof (tr_fence _ _ _ Ht) as T2. unfold decide_.
  rewrite bool_decide_eq_false_2 by done. rewrite T2. destruct (Z.ltb_spec gen g); [done|]. assert (gen = g) as -> by lia. destruct (Hp eq_refl) as [-> Hb].
  destruct (freshness_horizon policy <? _); [done|]. rewrite Z.ltb_irrefl. unfold sequence_in. destruct (Z.ltb_spec seq (next_expected s)); [done|].
  destruct (Z.ltb_spec (next_expected s) seq) as [Hlt|Hge].
  - destruct (pending s !! seq) as [?|] eqn:Ep; [done|]. destruct (reorder_window policy <=? _); [done|]. split; [done|].
    assert (HnA : ¬ A seq) by (intros Hn; apply (tr_parked _ _ _ Ht) in Hn as [? Hn]; [congruence|lia]). split; [done|].
    destruct Ht as [_ _ T3 T4 T5 T6 T7 T8]. split; [|intros [?|?]; [done|]; simpl in *; unfold next_expected in *; simpl in *; lia].
    split; try done; try (change (next_expected (set_pending (<[seq:=(p seq, t)]> (pending s)) s)) with (next_expected s)); simpl.
    + intros i [?| ->]; [by apply T3|done].
    + intros i Hi. left. by apply T4.
    + intros i v' t' Hi. apply lookup_insert_Some in Hi as [[<- [= <- <-]]|[_ Hi]]; [split; [done|lia]|by apply T5 in Hi].
    + intros i Hi. destruct (decide (i = seq)) as [->|Hne]; [rewrite lookup_insert_eq; by split; [|right]|].
      rewrite lookup_insert_ne by done. rewrite <- T6 by done. split; [by intros [?|?]|by left].
  - assert (Eseq : seq = next_expected s) by lia. unfold deliver.
    assert (Hgo : ∀ h, let '(d, s') := (let '(conflated, s) := merge_into s (p seq) t in
        let s := set_errors 0 (set_lifecycle Live (set_delivered (Some seq) s)) in
        let '(conflated, through, s) := flush (size (pending s)) s conflated seq in (Deliver through conflated h, s)) in
      match d with Refuse _ | Hold => s' = s | Park _ | Deliver _ _ _ => g = g ∧ ¬ A seq ∧ tracks (λ i, A i ∨ i = seq) from s' end).
    { intros h. assert (Epn : delete seq (pending s) = pending s).
      { apply delete_id. destruct (pending s !! seq) eqn:Ep; [|done]. destruct Hnext. apply (tr_parked _ _ _ Ht); [lia|]. rewrite <- Eseq. by rewrite Ep. }
      pose proof (deliver_next A (λ i, A i ∨ i = seq) from s seq t Ht Eseq (λ i, iff_refl _) Hb _ eq_refl) as (Hd & _ & _). rewrite Epn in Hd.
      assert (Esp : set_pending (pending s) s = s) by by destruct s. rewrite Esp in Hd. destruct (merge_into s (p seq) t) as [co s1]. simpl snd in Hd.
      assert (Hd' : tracks_below (λ i, A i ∨ i = seq) from (set_errors 0 (set_lifecycle Live (set_delivered (Some seq) s1)))) by (destruct Hd; by split).
      pose proof (flush_tracks _ _ (size (pending s1)) _ co seq Hd' ltac:(done)) as Hf. cbn zeta.
      cbn [pending set_errors set_lifecycle set_delivered] in Hf |- *. destruct (flush _ _ _ _) as [[co' th] s3]. split; [done|]. split; [by rewrite Eseq|exact Hf]. }
    destruct (p_high_water policy <=? _); [|apply Hgo]. destruct (p_overflow policy); try done; apply Hgo.
Qed.
End order.

Lemma tracks_same p g A A' from (s s' : Scope (T:=T)) : lifecycle s' ≠ Closed → generation s' = generation s → delivered_through s' = delivered_through s →
  pending s' = pending s → window s' = window s → (∀ i, A i ↔ A' i) → tracks p g A from s → tracks p g A' from s'.
Proof.
  intros E1 E2 E3 E4 E5 HA [[T1 T2 T3 T4 T5 T6 T7 T8] Hn].
  assert (En : next_expected s' = next_expected s) by (unfold next_expected; by rewrite E3).
  split; [split|]; rewrite ?En, ?E4, ?E5; try done.
  - congruence.
  - intros i Hi. by apply T3, HA.
  - intros i Hi. by apply HA, T4.
  - intros i Hi. rewrite <- HA. by apply T6.
  - by rewrite <- HA.
Qed.

(** Taking the window out: the next window starts at the watermark. *)
Lemma tracks_drained p g A from (s : Scope (T:=T)) : tracks p g A from s → tracks p g A (next_expected s) (set_window None 0 s).
Proof.
  intros [[T1 T2 T3 T4 T5 T6 T7 T8] Hn]. assert (En : next_expected (set_window None 0 s) = next_expected s) by done.
  split; [|by rewrite En]. split; rewrite ?En; simpl; try done; [lia|].
  by rewrite Z.sub_diag.
Qed.

Definition takes_in (a : IngressAdmission) : bool := match a with Dropped _ | Blocked => false | _ => true end.
(** What a transition takes into the scope of [key] and generation [g], and what
    it hands out. *)
Definition taken_by (key : K) (g : Z) (step : IngressOp * IngressAnswer) : option Z :=
  match step with
  | (IAdmit e, AAdmitted a) =>
      if decide (e_key e = key ∧ e_generation e = g ∧ takes_in a = true) then Some (e_sequence e) else None
  | _ => None
  end.
Definition drained_by (key : K) (step : IngressOp * IngressAnswer) : option T :=
  match step with (IDrain key', ADrained v) => if decide (key' = key) then v else None | _ => None end.

(** The transitions of the incarnation [g] of the scope of [key]: it is not
    closed and no later generation arrives.  Anything may happen to the other
    scopes. *)
Definition of_incarnation (key : K) (g : Z) (p : Z → T) (op : IngressOp) : Prop :=
  match op with
  | IAdmit e => e_key e = key → e_generation e ≤ g ∧ (e_generation e = g → e_payload e = p (e_sequence e) ∧ 0 ≤ e_sequence e < u64_max)
  | IOpen key' gen | IReconnect key' gen => key' = key → gen ≤ g
  | IClose key' => key' ≠ key
  | _ => True
  end.

Lemma live_or_opening_open (s : Scope (T:=T)) : live_or_opening s ≠ Closed.
Proof. unfold live_or_opening. by destruct (delivered_through s). Qed.

Lemma taken_in key g e a : e_key e = key → e_generation e = g → takes_in a = true → taken_by key g (IAdmit e, AAdmitted a) = Some (e_sequence e).
Proof. intros. unfold taken_by. by rewrite decide_True. Qed.
Lemma taken_not key g e a : e_key e ≠ key ∨ takes_in a = false → taken_by key g (IAdmit e, AAdmitted a) = None.
Proof. intros Hn. unfold taken_by. rewrite decide_False; [done|]. intros (? & _ & E). destruct Hn; congruence. Qed.

Lemma admit_tracks key g p A from (s : Scope (T:=T)) e (c : IngressCore (K:=K) (T:=T)) : scopes_ c !! key = Some s → tracks p g A from s →
  of_incarnation key g p (IAdmit e) → p_overflow (policy_ c) ≠ Relay.DropOldest →
  let '(_, a, c') := admit_ e c in policy_ c' = policy_ c ∧ ∃ s', scopes_ c' !! key = Some s' ∧
    tracks p g (λ i, A i ∨ taken_by key g (IAdmit e, AAdmitted a) = Some i) from s' ∧ ∀ i, taken_by key g (IAdmit e, AAdmitted a) = Some i → ¬ A i.
Proof.
  intros Es Ht Hop Ho. unfold admit_. simpl in Hop.
  assert (Hk' : tracks p g (λ i, A i ∨ None = Some i) from s).
  { eapply tracks_same; [apply Ht|done|done|done|done| |exact Ht]. intros i. split; [by left|by intros [?|?]]. }
  destruct (decide (e_key e = key)) as [Ek|Hk].
  - rewrite Ek, Es. cbn [default from_option fmap option_fmap option_map]. destruct (Hop Ek) as [Hg Hp].
    pose proof (decide_tracks p g A from s (policy_ c) (observed_now_ c) (e_generation e) (e_sequence e) (e_stamped_at e) (e_payload e) Ht Hg Hp Ho) as Hd.
    destruct (decide_ _ _ _ _ _ _ _) as [d s'].
    assert (Hput : scopes_ (put_scope key s' c) !! key = Some s') by (simpl; by rewrite lookup_insert_eq).
    rewrite bool_decide_eq_false_2 by done. simpl andb. simpl negb. cbv iota.
    assert (Hin : ∀ a, takes_in a = true → e_generation e = g ∧ ¬ A (e_sequence e) ∧ tracks p g (λ i, A i ∨ i = e_sequence e) from s' →
      tracks p g (λ i, A i ∨ taken_by key g (IAdmit e, AAdmitted a) = Some i) from s' ∧ ∀ i, taken_by key g (IAdmit e, AAdmitted a) = Some i → ¬ A i).
    { intros a Ha (Eg & HnA & Hs'). rewrite taken_in by done. split; [|by intros i [= <-]].
      eapply tracks_same; [apply Hs'|done|done|done|done| |exact Hs']. intros i. simpl. naive_solver. }
    destruct d as [reason| |gap|through conflated h]; cbn [push_receipt].
    + rewrite taken_not by by right. split; [done|]. exists s. subst s'. split_and!; [exact Hput|exact Hk'|done].
    + rewrite taken_not by by right. split; [done|]. exists s. subst s'. split_and!; [exact Hput|exact Hk'|done].
    + split; [done|]. exists s'. split; [exact Hput|]. by apply Hin.
    + split; [done|]. exists s'. split; [exact Hput|]. apply Hin; [by destruct h as [[??]|], conflated|done].
  - assert (Hput : ∀ s' (b : bool), scopes_ (if b then put_scope (e_key e) s' c else c) !! key = Some s ∧ policy_ (if b then put_scope (e_key e) s' c else c) = policy_ c).
    { intros s' []; [|done]. simpl. by rewrite lookup_insert_ne. }
    destruct (decide_ _ _ _ _ _ _ _) as [d s'].
    assert (Hno : ∀ a, taken_by key g (IAdmit e, AAdmitted a) = None) by (intros a; apply taken_not; by left).
    destruct d as [reason| |gap|through conflated h]; unfold push_receipt; cbn zeta beta iota; rewrite Hno.
    all: match goal with |- context [if ?b then put_scope _ _ _ else _] => destruct (Hput s' b) as [E1 E2] end.
    all: split; [exact E2|]; exists s; split_and!; [exact E1|exact Hk'|done].
Qed.

Lemma scope_step_tracks key g p A from (s : Scope (T:=T)) op (c : IngressCore (K:=K) (T:=T)) : scopes_ c !! key = Some s → tracks p g A from s →
  of_incarnation key g p op → p_overflow (policy_ c) ≠ Relay.DropOldest →
  let '(_, a, c') := core_step op c in policy_ c' = policy_ c ∧ ∃ s', scopes_ c' !! key = Some s' ∧
    tracks p g (λ i, A i ∨ taken_by key g (op, a) = Some i) (if drained_by key (op, a) then next_expected s else from) s' ∧
    (∀ i, taken_by key g (op, a) = Some i → ¬ A i) ∧ (∀ v, drained_by key (op, a) = Some v → window s = Some v).
Proof.
  intros Es Ht Hop Ho.
  assert (Hk : ∀ s', lifecycle s' ≠ Closed → generation s' = generation s → delivered_through s' = delivered_through s → pending s' = pending s →
    window s' = window s → tracks p g (λ i, A i ∨ None = Some i) from s').
  { intros s' E1 E2 E3 E4 E5. eapply tracks_same; [done|done|done|done|done| |exact Ht]. intros i. split; [by left|by intros [?|?]]. }
  pose proof (tr_open _ _ _ _ _ (proj1 Ht)) as Hopen. pose proof (tr_fence _ _ _ _ _ (proj1 Ht)) as Hfence.
  assert (Hother : ∀ c', scopes_ c' !! key = Some s → ∃ s', scopes_ c' !! key = Some s' ∧ tracks p g (λ i, A i ∨ None = Some i) from s' ∧
    (∀ i, None = Some i → ¬ A i) ∧ ∀ v, None = Some v → window s = Some v).
  { intros c' E. exists s. split_and!; [done|by apply Hk|done|done]. }
  destruct op as [key' gen|e|key'|key' gen|key'|key' error|now|key']; cbn [core_step taken_by drained_by].
  - unfold open. destruct (decide (key' = key)) as [->|Hne].
    + rewrite Es, bool_decide_eq_false_2 by done. specialize (Hop eq_refl). simpl generation. rewrite (proj2 (Z.ltb_ge (generation s) gen)) by lia.
      split; [done|]. eexists. simpl scopes_. rewrite lookup_insert_eq. split_and!; [done| |done|done]. by apply Hk; [apply live_or_opening_open|..].
    + destruct (scopes_ c !! key'); (split; [done|]); apply Hother; simpl; by rewrite lookup_insert_ne.
  - pose proof (admit_tracks key g p A from s e c Es Ht Hop Ho) as Ha. destruct (admit_ e c) as [[ch a] c'].
    destruct Ha as (E & s' & E1 & E2 & E3). split; [done|]. by exists s'.
  - unfold suspend. destruct (decide (key' = key)) as [->|Hne].
    + rewrite Es. destruct (_ || _); (split; [done|]); [by apply Hother|]. eexists. simpl scopes_. rewrite lookup_insert_eq. split_and!; [done|by apply Hk|done|done].
    + destruct (scopes_ c !! key'); [|split; [done|by apply Hother]]. destruct (_ || _); (split; [done|]); apply Hother; [done|]. simpl. by rewrite lookup_insert_ne.
  - unfold reconnect. destruct (decide (key' = key)) as [->|Hne].
    + rewrite Es. specialize (Hop eq_refl). change (default (scope_new gen) (Some s)) with s. cbv zeta. rewrite (proj2 (Z.ltb_ge (generation s) gen)) by lia. split; [done|]. eexists. simpl scopes_. rewrite lookup_insert_eq.
      split_and!; [done| |done|done]. by apply Hk; [apply live_or_opening_open|..].
    + split; [done|]. apply Hother. simpl. by rewrite lookup_insert_ne.
  - unfold close. simpl in Hop. destruct (scopes_ c !! key'); [|split; [done|by apply Hother]].
    case_bool_decide; (split; [done|]); apply Hother; [done|]. simpl. by rewrite lookup_insert_ne.
  - unfold fail_. cbn [push_receipt]. split; [done|]. destruct (decide (key' = key)) as [->|Hne].
    + eexists. simpl scopes_. rewrite lookup_insert_eq, Es. split_and!; [done| |done|done]. simpl. by case_match; apply Hk.
    + apply Hother. simpl. by rewrite lookup_insert_ne.
  - unfold tick. destruct (now =? _); (split; [done|]); by apply Hother.
  - unfold drain. destruct (decide (key' = key)) as [->|Hne].
    + rewrite Es. destruct (window s) as [v|] eqn:Ew; (split; [done|]); [|by apply Hother].
      exists (set_window None 0 s). simpl scopes_. rewrite lookup_insert_eq. split_and!; [done| |done|by intros v' [= <-]].
      eapply tracks_same; [apply (tracks_drained p g A from s Ht)|done..| |exact (tracks_drained p g A from s Ht)]. intros i. split; [by left|by intros [?|?]].
    + destruct (scopes_ c !! key') as [s1|]; [destruct (window s1)|]; (split; [done|]); apply Hother; try done. simpl. by rewrite lookup_insert_ne.
Qed.

Lemma seqZ_split n m : 0 ≤ n ≤ m → seqZ 0 m = seqZ 0 n ++ seqZ n (m - n).
Proof. intros Hn. rewrite <- (Z.add_0_l n) at 2. replace m with (n + (m - n)) at 1 by lia. rewrite seqZ_app by lia. done. Qed.

(** What was handed out, in order, is the folds of consecutive segments. *)
Definition segments (p : Z → T) (upto : Z) (out : list T) : Prop := ∃ segs, concat segs = p <$> seqZ 0 upto ∧ fold1 <$> segs = Some <$> out.

Lemma segments_snoc p n m out v : 0 ≤ n ≤ m → segments p n out → fold1 (p <$> seqZ n (m - n)) = Some v → segments p m (out ++ [v]).
Proof.
  intros Hn (segs & E1 & E2) Hv. exists (segs ++ [p <$> seqZ n (m - n)]). rewrite concat_app, E1. split.
  - rewrite (seqZ_split n m), fmap_app by done. simpl. by rewrite app_nil_r.
  - rewrite !fmap_app, E2. simpl. by rewrite Hv.
Qed.

Lemma scope_run_tracks key g p (ops : list IngressOp) : ∀ A from out (s : Scope (T:=T)) (c : IngressCore (K:=K) (T:=T)), scopes_ c !! key = Some s → tracks p g A from s →
  segments p from out → Forall (of_incarnation key g p) ops → p_overflow (policy_ c) ≠ Relay.DropOldest →
  let '(answers, c') := core_run_ops ops c in
  let taken := omap (taken_by key g) (zip ops answers) in
  ∃ s' from', scopes_ c' !! key = Some s' ∧ tracks p g (λ i, A i ∨ i ∈ taken) from' s' ∧ NoDup taken ∧ (∀ i, i ∈ taken → ¬ A i) ∧
    segments p from' (out ++ omap (drained_by key) (zip ops answers)).
Proof.
  induction ops as [|op ops IH]; intros A from out s c Es Ht Hseg Hops Ho.
  { simpl. exists s, from. rewrite app_nil_r. split_and!; [done| |constructor|by intros i ?%not_elem_of_nil|done].
    eapply tracks_same; [apply Ht|done|done|done|done| |exact Ht]. intros i. split; [by left|by intros [?|?%not_elem_of_nil]]. }
  apply Forall_cons in Hops as [Hop Hops]. cbn [core_run_ops]. pose proof (scope_step_tracks key g p A from s op c Es Ht Hop Ho) as Hs.
  destruct (core_step op c) as [[ch a] c1]. destruct Hs as (Ep & s1 & Es1 & Ht1 & Hnew & Hdr).
  assert (Hseg1 : segments p (if drained_by key (op, a) then next_expected s else from) (out ++ option_list (drained_by key (op, a)))).
  { destruct (drained_by key (op, a)) as [v|] eqn:Ed; simpl; [|by rewrite app_nil_r]. destruct Ht as [Ht _]. pose proof (tr_window _ _ _ _ _ Ht) as Hw.
    rewrite (Hdr v eq_refl) in Hw. eapply segments_snoc; [apply (tr_from _ _ _ _ _ Ht)|done|done]. }
  specialize (IH _ _ _ s1 c1 Es1 Ht1 Hseg1 Hops ltac:(by rewrite Ep)). destruct (core_run_ops ops c1) as [answers c'].
  cbv zeta in IH |- *. destruct IH as (s' & from' & E1 & E2 & E3 & E4 & E5). exists s', from'. cbn [zip zip_with omap list_omap].
  change (omap (taken_by key g) ((op, a) :: zip ops answers)) with (match taken_by key g (op, a) with Some i => i :: omap (taken_by key g) (zip ops answers) | None => omap (taken_by key g) (zip ops answers) end).
  change (omap (drained_by key) ((op, a) :: zip ops answers)) with (match drained_by key (op, a) with Some i => i :: omap (drained_by key) (zip ops answers) | None => omap (drained_by key) (zip ops answers) end).
  split; [done|]. split.
  { eapply tracks_same; [apply E2|done|done|done|done| |exact E2]. intros i. destruct (taken_by key g (op, a)) as [j|]; rewrite ?elem_of_cons; naive_solver. }
  split; [|split].
  - destruct (taken_by key g (op, a)) as [j|]; [|done]. constructor; [|done]. intros Hin. apply (E4 j Hin). by right.
  - intros i Hi HA. destruct (taken_by key g (op, a)) as [j|]; [apply elem_of_cons in Hi as [->|Hi]; [by apply (Hnew j)|]|]; eapply E4; eauto.
  - destruct (drained_by key (op, a)) as [v|]; simpl in E5; [by rewrite <- app_assoc in E5|by rewrite app_nil_r in E5].
Qed.

End history.

(** ** Examples *)
Module Sample.
#[local] Existing Instance RawFifo.

Definition policy : IngressPolicy := mkIngressPolicy 8 1000 64 Relay.Spill 256 10 10000.
Definition core : IngressCore (K:=Z) (T:=list Z) :=
  match core_new policy with inr c => (open 7 3 c).2 | inl _ => mkCore policy ∅ [] 0 0 end.
Definition env (gen seq : Z) (v : list Z) : IngressOp := IAdmit (mkEnvelope 7 gen seq 0 v).
(** Numbers 2, 0, 0 again, 1 across a drain, a suspension and a reconnection,
    and one of an old generation. *)
Definition ops : list (IngressOp (K:=Z)) :=
  [env 3 2 [12]; env 3 0 [10]; IDrain 7; env 3 0 [10]; ISuspend 7; env 2 5 [99]; IReconnect 7 3; env 3 1 [11]; env 3 4 [14]].

Definition answers : list (IngressAnswer (T:=list Z)) := (core_run_ops ops core).1.
Definition after : IngressCore (K:=Z) (T:=list Z) := (core_run_ops ops core).2.


(** Opening a scope at a newer generation keeps the window of the old one, and
    the new baseline is merged into it; a handoff and a reconnection discard
    it. *)
Lemma newer_open_keeps_window :
  peek (core_run_ops [env 3 0 [1]; IOpen 7 4; env 4 0 [2]] core).2 7 = Some [1; 2] ∧
  peek (core_run_ops [env 3 0 [1]; IReconnect 7 4; env 4 0 [2]] core).2 7 = Some [2] ∧
  peek (core_run_ops [env 3 0 [1]; env 4 0 [2]] core).2 7 = Some [2].
Proof. split_and!; vm_compute; reflexivity. Qed.

(** Reconnecting reopens a closed scope, which is said to be terminal until
    reopened, with its old watermark. *)
Lemma reconnect_reopens :
  readiness (core_run_ops [env 3 0 [1]; IClose 7] core).2 7 = RClosed ∧
  (core_run_ops [env 3 0 [1]; IClose 7; IReconnect 7 3; env 3 0 [2]] core).1 =
    [AAdmitted (Accepted 0); ANothing; ARequest (Some (mkRequest 3 1)); AAdmitted (Dropped DuplicateSequence)].
Proof. split; vm_compute; reflexivity. Qed.
End Sample.
