(* ===== verification/IngressCell.v ===== *)
(** * IngressCell: the reactive shell of the ingress

    Models BasicIngressCell of include/lazily/ingress.hpp, of which the three
    flavours are instances: the table of memoised readers, the operations that
    run a transition of the core and clear the readers it names, the reads, and
    the pump over a transport.  A reader is a computed slot over state the
    context does not know: what the cell sees of it is its cached value
    ([Queue.reader_get]), which [clear_slot] drops; clearing happens in one
    batch.  The schedule is computed from two sources of the context, which is
    its formula.  The locks guard single accesses and are left out. *)
From S2P Require Import Prelude Merge Relay Queue Ingress.
#[local] Open Scope Z_scope.

Section cell.
  Context {K T : Type} `{Countable K} `{MP : MergePolicy T}.

#[local] Notation Core := (IngressCore (K:=K) (T:=T)).
#[local] Notation Receipts := (list (IngressReceipt (K:=K))).

(* include/lazily/ingress.hpp:1270-1275, ScopeReaders *)
Record ScopeReaders := mkReaders {
  rd_value : option (option T); rd_readiness : option IngressReadiness; rd_authority : option (option IngressAuthority);
  rd_retry : option (option IngressRetry) }.
(* include/lazily/ingress.hpp:1284-1291, IngressCellInner *)
Record IngressCell := mkCell {
  core : Core; readers : gmap K ScopeReaders; accepted_ : option Receipts; dropped_ : option Receipts; errors_ : option Receipts;
  transport_kind : IngressTransportKind; poll_interval : Z }.

(* include/lazily/ingress.hpp:1316-1331, BasicIngressCell::BasicIngressCell *)
Definition cell_new (policy : IngressPolicy) (kind : IngressTransportKind) (interval : Z) : IngressConfigError + IngressCell :=
  match core_new policy with inl e => inl e | inr c => inr (mkCell c ∅ None None None kind interval) end.

Definition put_core (c : Core) (cell : IngressCell) : IngressCell :=
  mkCell c (readers cell) (accepted_ cell) (dropped_ cell) (errors_ cell) (transport_kind cell) (poll_interval cell).
Definition put_readers (rs : gmap K ScopeReaders) (cell : IngressCell) : IngressCell :=
  mkCell (core cell) rs (accepted_ cell) (dropped_ cell) (errors_ cell) (transport_kind cell) (poll_interval cell).
Definition put_receipts (a d e : option Receipts) (cell : IngressCell) : IngressCell :=
  mkCell (core cell) (readers cell) a d e (transport_kind cell) (poll_interval cell).

(** Four slots per scope that is looked at, empty when they are made. *)
(* include/lazily/ingress.hpp:1564-1593, BasicIngressCell::ensure_readers *)
Definition ensure_readers (key : K) (cell : IngressCell) : ScopeReaders * IngressCell :=
  match readers cell !! key with
  | Some rs => (rs, cell)
  | None => let rs := mkReaders None None None None in (rs, put_readers (<[key := rs]> (readers cell)) cell)
  end.

(** The slots of a cell, by what they compute. *)
Inductive Slot := SValue (key : K) | SReadiness (key : K) | SAuthority (key : K) | SRetry (key : K) | SReceipts (chan : IngressReceiptChannel).
#[export] Instance Slot_eq_dec : EqDecision Slot.
Proof. solve_decision. Defined.

Definition clear_slot (slot : Slot) (cell : IngressCell) : IngressCell :=
  match slot with
  | SValue key => put_readers (alter (λ r, mkReaders None (rd_readiness r) (rd_authority r) (rd_retry r)) key (readers cell)) cell
  | SReadiness key => put_readers (alter (λ r, mkReaders (rd_value r) None (rd_authority r) (rd_retry r)) key (readers cell)) cell
  | SAuthority key => put_readers (alter (λ r, mkReaders (rd_value r) (rd_readiness r) None (rd_retry r)) key (readers cell)) cell
  | SRetry key => put_readers (alter (λ r, mkReaders (rd_value r) (rd_readiness r) (rd_authority r) None) key (readers cell)) cell
  | SReceipts ChAccepted => put_receipts None (dropped_ cell) (errors_ cell) cell
  | SReceipts ChDropped => put_receipts (accepted_ cell) None (errors_ cell) cell
  | SReceipts ChError => put_receipts (accepted_ cell) (dropped_ cell) None cell
  end.

(* include/lazily/ingress.hpp:1601-1612, BasicIngressCell::apply (roots) *)
Definition roots (change : IngressChange (K:=K)) : list Slot :=
  (ch_scopes change ≫= λ '(key, sc),
     (if c_value sc then [SValue key] else []) ++ (if c_readiness sc then [SReadiness key] else []) ++
     (if c_authority sc then [SAuthority key] else []) ++ (if c_retry sc then [SRetry key] else [])) ++
  (if accepted_receipts change then [SReceipts ChAccepted] else []) ++ (if dropped_receipts change then [SReceipts ChDropped] else []) ++
  (if error_receipts change then [SReceipts ChError] else []).
(* include/lazily/ingress.hpp:1598-1618, BasicIngressCell::apply *)
Definition apply_ (change : IngressChange (K:=K)) (cell : IngressCell) : IngressCell :=
  if change_empty change then cell else
  let cell := foldl (λ cell '(key, _), (ensure_readers key cell).2) cell (ch_scopes change) in
  foldl (λ cell slot, clear_slot slot cell) cell (roots change).

(** ** The operations *)

(* include/lazily/ingress.hpp:1337-1344, BasicIngressCell::open *)
Definition cell_open (key : K) (gen : Z) (cell : IngressCell) : IngressCell :=
  let '(change, c) := open key gen (core cell) in apply_ change (put_core c cell).
(* include/lazily/ingress.hpp:1347-1358, BasicIngressCell::admit *)
Definition cell_admit (e : IngressEnvelope) (cell : IngressCell) : IngressAdmission * IngressCell :=
  let '(change, a, c) := admit_ e (core cell) in (a, apply_ change (put_core c cell)).
(* include/lazily/ingress.hpp:1362-1373, BasicIngressCell::suspend *)
Definition cell_suspend (key : K) (cell : IngressCell) : option ReplayRequest * IngressCell :=
  let '(change, r, c) := suspend key (core cell) in (r, apply_ change (put_core c cell)).
(* include/lazily/ingress.hpp:1376-1387, BasicIngressCell::reconnect *)
Definition cell_reconnect (key : K) (gen : Z) (cell : IngressCell) : ReplayRequest * IngressCell :=
  let '(change, r, c) := reconnect key gen (core cell) in (r, apply_ change (put_core c cell)).
(* include/lazily/ingress.hpp:1390-1397, BasicIngressCell::close *)
Definition cell_close (key : K) (cell : IngressCell) : IngressCell :=
  let '(change, c) := close key (core cell) in apply_ change (put_core c cell).
(* include/lazily/ingress.hpp:1400-1407, BasicIngressCell::fail *)
Definition cell_fail (key : K) (error : IngressError) (cell : IngressCell) : IngressCell :=
  let '(change, c) := fail_ key error (core cell) in apply_ change (put_core c cell).
(* include/lazily/ingress.hpp:1411-1418, BasicIngressCell::tick *)
Definition cell_tick (now : Z) (cell : IngressCell) : IngressCell :=
  let '(change, c) := tick now (core cell) in apply_ change (put_core c cell).
(* include/lazily/ingress.hpp:1421-1432, BasicIngressCell::drain *)
Definition cell_drain (key : K) (cell : IngressCell) : option T * IngressCell :=
  let '(change, v, c) := drain key (core cell) in (v, apply_ change (put_core c cell)).
(* include/lazily/ingress.hpp:1523-1525, BasicIngressCell::set_transport *)
Definition set_transport (kind : IngressTransportKind) (cell : IngressCell) : IngressCell :=
  mkCell (core cell) (readers cell) (accepted_ cell) (dropped_ cell) (errors_ cell) kind (poll_interval cell).
(* include/lazily/ingress.hpp:1528-1530, BasicIngressCell::set_poll_interval *)
Definition set_poll_interval (interval : Z) (cell : IngressCell) : IngressCell :=
  mkCell (core cell) (readers cell) (accepted_ cell) (dropped_ cell) (errors_ cell) (transport_kind cell) interval.

(** ** The reads *)

Definition write_reader (key : K) (rs : ScopeReaders) (cell : IngressCell) : IngressCell := put_readers (<[key := rs]> (readers cell)) cell.
(* include/lazily/ingress.hpp:1465-1467, BasicIngressCell::value *)
Definition cell_value (key : K) (cell : IngressCell) : option T * IngressCell :=
  let '(r, cell) := ensure_readers key cell in
  let '(v, cache) := reader_get (rd_value r) (peek (core cell) key) in
  (v, write_reader key (mkReaders cache (rd_readiness r) (rd_authority r) (rd_retry r)) cell).
(* include/lazily/ingress.hpp:1470-1472, BasicIngressCell::readiness *)
Definition cell_readiness (key : K) (cell : IngressCell) : IngressReadiness * IngressCell :=
  let '(r, cell) := ensure_readers key cell in
  let '(v, cache) := reader_get (rd_readiness r) (readiness (core cell) key) in
  (v, write_reader key (mkReaders (rd_value r) cache (rd_authority r) (rd_retry r)) cell).
(* include/lazily/ingress.hpp:1475-1477, BasicIngressCell::authority *)
Definition cell_authority (key : K) (cell : IngressCell) : option IngressAuthority * IngressCell :=
  let '(r, cell) := ensure_readers key cell in
  let '(v, cache) := reader_get (rd_authority r) (authority (core cell) key) in
  (v, write_reader key (mkReaders (rd_value r) (rd_readiness r) cache (rd_retry r)) cell).
(* include/lazily/ingress.hpp:1480-1482, BasicIngressCell::retry *)
Definition cell_retry (key : K) (cell : IngressCell) : option IngressRetry * IngressCell :=
  let '(r, cell) := ensure_readers key cell in
  let '(v, cache) := reader_get (rd_retry r) (retry (core cell) key) in
  (v, write_reader key (mkReaders (rd_value r) (rd_readiness r) (rd_authority r) cache) cell).
(* include/lazily/ingress.hpp:1485-1487, BasicIngressCell::accepted *)
Definition cell_accepted (cell : IngressCell) : Receipts * IngressCell :=
  let '(v, cache) := reader_get (accepted_ cell) (receipts (core cell) ChAccepted) in (v, put_receipts cache (dropped_ cell) (errors_ cell) cell).
(* include/lazily/ingress.hpp:1489-1491, BasicIngressCell::dropped *)
Definition cell_dropped (cell : IngressCell) : Receipts * IngressCell :=
  let '(v, cache) := reader_get (dropped_ cell) (receipts (core cell) ChDropped) in (v, put_receipts (accepted_ cell) cache (errors_ cell) cell).
(* include/lazily/ingress.hpp:1493-1495, BasicIngressCell::errors *)
Definition cell_errors (cell : IngressCell) : Receipts * IngressCell :=
  let '(v, cache) := reader_get (errors_ cell) (receipts (core cell) ChError) in (v, put_receipts (accepted_ cell) (dropped_ cell) cache cell).
(* include/lazily/ingress.hpp:1498-1500, BasicIngressCell::schedule *)
Definition cell_schedule (cell : IngressCell) : IngressSchedule := for_kind (transport_kind cell) (poll_interval cell).
(* include/lazily/ingress.hpp:1534-1537, BasicIngressCell::view *)
Definition cell_view (key : K) (cell : IngressCell) : option IngressScopeView := view (core cell) key.

(** ** The pump *)
Section pump.
  Context {S : Type} `{IngressTransportSeam S K T}.

(* include/lazily/ingress.hpp:1444-1448, BasicIngressCell::pump (admissions) *)
Fixpoint pump_admit (inbound : list (IngressEnvelope (K:=K) (T:=T))) (touched : list K) (cell : IngressCell) : list IngressAdmission * list K * IngressCell :=
  match inbound with
  | [] => ([], touched, cell)
  | e :: inbound =>
      let '(a, cell) := cell_admit e cell in
      let touched := if bool_decide (e_key e ∈ touched) then touched else touched ++ [e_key e] in
      let '(l, touched, cell) := pump_admit inbound touched cell in (a :: l, touched, cell)
  end.
(* include/lazily/ingress.hpp:1450-1458, BasicIngressCell::pump (replays) *)
Fixpoint pump_replay (touched : list K) (cell : IngressCell) (t : S) : S :=
  match touched with
  | [] => t
  | key :: touched =>
      let gap := match view (core cell) key with Some v => if has_gap v then Some (mkRequest (v_generation v) (resume_from v)) else None | None => None end in
      pump_replay touched cell match gap with Some r => (request_replay key r t).2 | None => t end
  end.
(* include/lazily/ingress.hpp:1439-1460, BasicIngressCell::pump *)
Definition pump (cell : IngressCell) (t : S) : list IngressAdmission * IngressCell * S :=
  let '(inbound, t) := drain_inbound t in
  let '(outcomes, touched, cell) := pump_admit inbound [] cell in
  (outcomes, cell, pump_replay touched cell t).
End pump.
End cell.

#[export] Instance drop_reason_eq_dec : EqDecision IngressDropReason.
Proof. solve_decision. Defined.
#[export] Instance ingress_error_eq_dec : EqDecision IngressError.
Proof. solve_decision. Defined.
#[export] Instance authority_eq_dec : EqDecision IngressAuthority.
Proof. solve_decision. Defined.
#[export] Instance retry_eq_dec : EqDecision IngressRetry.
Proof. solve_decision. Defined.
#[export] Instance outcome_eq_dec : EqDecision IngressReceiptOutcome.
Proof. solve_decision. Defined.
#[export] Instance receipt_eq_dec {K} `{EqDecision K} : EqDecision (IngressReceipt (K:=K)).
Proof. solve_decision. Defined.

(** ** Histories *)
Section history.
  Context {K T : Type} `{Countable K} `{EqDecision T} `{MP : MergePolicy T}.

#[local] Notation Core := (IngressCore (K:=K) (T:=T)).
#[local] Notation Cell := (IngressCell (K:=K) (T:=T)).

(** What a slot holds, what it would compute, and what it has cached. *)
Inductive SlotValue :=
  | VlValue (v : option T) | VlReadiness (r : IngressReadiness) | VlAuthority (a : option IngressAuthority) | VlRetry (r : option IngressRetry)
  | VlReceipts (l : list (IngressReceipt (K:=K))).
#[export] Instance SlotValue_eq_dec : EqDecision SlotValue.
Proof. solve_decision. Defined.
Definition now (slot : Slot) (c : Core) : SlotValue :=
  match slot with
  | SValue key => VlValue (peek c key) | SReadiness key => VlReadiness (readiness c key) | SAuthority key => VlAuthority (authority c key)
  | SRetry key => VlRetry (retry c key) | SReceipts chan => VlReceipts (receipts c chan)
  end.
Definition cached (slot : Slot) (cell : Cell) : option SlotValue :=
  match slot with
  | SValue key => VlValue <$> (readers cell !! key ≫= rd_value) | SReadiness key => VlReadiness <$> (readers cell !! key ≫= rd_readiness)
  | SAuthority key => VlAuthority <$> (readers cell !! key ≫= rd_authority) | SRetry key => VlRetry <$> (readers cell !! key ≫= rd_retry)
  | SReceipts ChAccepted => VlReceipts <$> accepted_ cell | SReceipts ChDropped => VlReceipts <$> dropped_ cell | SReceipts ChError => VlReceipts <$> errors_ cell
  end.

(** The calls of a client, and the same against the core alone, where every
    read computes. *)
Inductive CellCall := CkMutate (op : IngressOp (K:=K) (T:=T)) | CkRead (slot : Slot (K:=K)) | CkSchedule | CkTransport (kind : IngressTransportKind) | CkInterval (n : Z).
Inductive CellAnswer := CaOp (a : IngressAnswer (T:=T)) | CaSlot (v : SlotValue) | CaSchedule (s : IngressSchedule).

Definition cell_mutate (op : IngressOp) (cell : Cell) : IngressAnswer * Cell :=
  match op with
  | IOpen key gen => (ANothing, cell_open key gen cell)
  | IAdmit e => let '(a, cell) := cell_admit e cell in (AAdmitted a, cell)
  | ISuspend key => let '(r, cell) := cell_suspend key cell in (ARequest r, cell)
  | IReconnect key gen => let '(r, cell) := cell_reconnect key gen cell in (ARequest (Some r), cell)
  | IClose key => (ANothing, cell_close key cell)
  | IFail key error => (ANothing, cell_fail key error cell)
  | ITick t => (ANothing, cell_tick t cell)
  | IDrain key => let '(v, cell) := cell_drain key cell in (ADrained v, cell)
  end.
Definition cell_read (slot : Slot) (cell : Cell) : SlotValue * Cell :=
  match slot with
  | SValue key => let '(v, cell) := cell_value key cell in (VlValue v, cell)
  | SReadiness key => let '(v, cell) := cell_readiness key cell in (VlReadiness v, cell)
  | SAuthority key => let '(v, cell) := cell_authority key cell in (VlAuthority v, cell)
  | SRetry key => let '(v, cell) := cell_retry key cell in (VlRetry v, cell)
  | SReceipts ChAccepted => let '(v, cell) := cell_accepted cell in (VlReceipts v, cell)
  | SReceipts ChDropped => let '(v, cell) := cell_dropped cell in (VlReceipts v, cell)
  | SReceipts ChError => let '(v, cell) := cell_errors cell in (VlReceipts v, cell)
  end.
Definition cell_step (call : CellCall) (cell : Cell) : CellAnswer * Cell :=
  match call with
  | CkMutate op => let '(a, cell) := cell_mutate op cell in (CaOp a, cell)
  | CkRead slot => let '(v, cell) := cell_read slot cell in (CaSlot v, cell)
  | CkSchedule => (CaSchedule (cell_schedule cell), cell)
  | CkTransport kind => (CaOp ANothing, set_transport kind cell)
  | CkInterval n => (CaOp ANothing, set_poll_interval n cell)
  end.
Fixpoint cell_run (calls : list CellCall) (cell : Cell) : list CellAnswer :=
  match calls with [] => [] | call :: calls => let '(a, cell) := cell_step call cell in a :: cell_run calls cell end.

Definition ref_step (call : CellCall) (c : Core) (kind : IngressTransportKind) (interval : Z) : CellAnswer * Core * IngressTransportKind * Z :=
  match call with
  | CkMutate op => let '(_, a, c) := core_step op c in (CaOp a, c, kind, interval)
  | CkRead slot => (CaSlot (now slot c), c, kind, interval)
  | CkSchedule => (CaSchedule (for_kind kind interval), c, kind, interval)
  | CkTransport kind => (CaOp ANothing, c, kind, interval)
  | CkInterval n => (CaOp ANothing, c, kind, n)
  end.
Fixpoint ref_run (calls : list CellCall) (c : Core) (kind : IngressTransportKind) (interval : Z) : list CellAnswer :=
  match calls with
  | [] => []
  | call :: calls => let '(a, c, kind, interval) := ref_step call c kind interval in a :: ref_run calls c kind interval
  end.

(** No call on the way changes a reader without telling. *)
Fixpoint all_reported (calls : list CellCall) (c : Core) : bool :=
  match calls with
  | [] => true
  | CkMutate op :: calls => negb (unreported op c) && all_reported calls (core_step op c).2
  | _ :: calls => all_reported calls c
  end.
Definition call_ok (call : CellCall) : Prop := match call with CkMutate op => op_ok op | _ => True end.

(** ** Slots *)

Lemma cached_put_core slot c (cell : Cell) : cached slot (put_core c cell) = cached slot cell.
Proof. by destruct slot as [| | | |[]]. Qed.

Lemma cached_ensure slot key (cell : Cell) : cached slot (ensure_readers key cell).2 = cached slot cell ∧ core (ensure_readers key cell).2 = core cell.
Proof.
  unfold ensure_readers. destruct (readers cell !! key) eqn:E; [done|]. simpl. split; [|done].
  destruct slot as [k|k|k|k|[]]; simpl; try done; (destruct (decide (k = key)) as [->|Hk]; [by rewrite lookup_insert_eq, E|by rewrite lookup_insert_ne]).
Qed.

Lemma cached_clear slot slot' (cell : Cell) : cached slot (clear_slot slot' cell) = if decide (slot = slot') then None else cached slot cell.
Proof.
  destruct slot' as [k'|k'|k'|k'|[]], slot as [k|k|k|k|[]]; simpl;
    try (rewrite decide_False by done); try (rewrite decide_True by done); try done;
    (destruct (decide (k = k')) as [->|Hk]; [rewrite lookup_alter_eq|rewrite lookup_alter_ne by done]);
    repeat case_decide; simplify_eq/=; try done; by destruct (readers cell !! k').
Qed.

Lemma cached_apply slot change (cell : Cell) : cached slot (apply_ change cell) = (if decide (slot ∈ roots change) then None else cached slot cell) ∧
  core (apply_ change cell) = core cell ∧ transport_kind (apply_ change cell) = transport_kind cell ∧ poll_interval (apply_ change cell) = poll_interval cell.
Proof.
  unfold apply_. destruct (change_empty change) eqn:E.
  { unfold change_empty in E. apply andb_prop in E as [E E3%negb_true_iff]. apply andb_prop in E as [E E2%negb_true_iff]. apply andb_prop in E as [E1%bool_decide_eq_true E1'%negb_true_iff].
    split; [|done]. rewrite decide_False; [done|]. unfold roots. rewrite E1, E1', E2, E3. simpl. apply not_elem_of_nil. }
  assert (Hens : ∀ (l : list (K * IngressScopeChange)) (cell : Cell), let cell' := foldl (λ cell '(key, _), (ensure_readers key cell).2) cell l in
    cached slot cell' = cached slot cell ∧ core cell' = core cell ∧ transport_kind cell' = transport_kind cell ∧ poll_interval cell' = poll_interval cell).
  { clear E cell. induction l as [|[key sc] l IH]; intros cell; simpl; [done|]. destruct (IH (ensure_readers key cell).2) as (I1 & I2 & I3 & I4).
    destruct (cached_ensure slot key cell) as [C1 C2]. rewrite I1, I2, I3, I4, C1, C2. unfold ensure_readers. by destruct (readers cell !! key). }
  destruct (Hens (ch_scopes change) cell) as (I1 & I2 & I3 & I4). cbv zeta in *. rewrite <- I1, <- I2, <- I3, <- I4.
  generalize (foldl (λ (cell : Cell) '((key, _) : K * IngressScopeChange), (ensure_readers key cell).2) cell (ch_scopes change)) (roots change).
  clear E Hens I1 I2 I3 I4 change cell. intros cell l. revert cell. induction l as [|x l IH]; intros cell; cbn [foldl].
  { rewrite decide_False by apply not_elem_of_nil. done. }
  destruct (IH (clear_slot x cell)) as (J1 & J2 & J3 & J4). rewrite J1, J2, J3, J4, cached_clear. split; [|by destruct x as [| | | |[]]].
  destruct (decide (slot ∈ l)), (decide (slot = x)), (decide (slot ∈ x :: l)); try done; exfalso; set_solver.
Qed.

Lemma elem_of_flag {A} (b : bool) (x y : A) : x ∈ (if b then [y] else []) ↔ b = true ∧ x = y.
Proof. destruct b; [rewrite list_elem_of_singleton; naive_solver|]. split; [by intros ?%not_elem_of_nil|by intros [? _]]. Qed.

(** The roots are what the core told. *)
Definition slot_told (slot : Slot) (change : IngressChange (K:=K)) : Prop :=
  match slot with
  | SValue key => scope_told change c_value key | SReadiness key => scope_told change c_readiness key
  | SAuthority key => scope_told change c_authority key | SRetry key => scope_told change c_retry key
  | SReceipts chan => channel_told change chan = true
  end.
Lemma roots_told slot change : slot ∈ roots change ↔ slot_told slot change.
Proof.
  unfold roots. rewrite !elem_of_app, list_elem_of_bind, !elem_of_flag.
  assert (Hs : ∀ key sc, slot ∈ (λ '(key, sc), (if c_value sc then [SValue key] else []) ++ (if c_readiness sc then [SReadiness key] else []) ++
     (if c_authority sc then [SAuthority key] else []) ++ (if c_retry sc then [SRetry key] else [])) (key, sc) ↔
     c_value sc = true ∧ slot = SValue key ∨ c_readiness sc = true ∧ slot = SReadiness key ∨ c_authority sc = true ∧ slot = SAuthority key ∨ c_retry sc = true ∧ slot = SRetry key).
  { intros key sc. by rewrite !elem_of_app, !elem_of_flag. }
  destruct slot as [k|k|k|k|chan]; simpl; unfold scope_told.
  all: try (split; [intros [([key sc] & Hin & Hx)|Hx]; [apply Hs in Hin; exists sc; naive_solver|naive_solver]|intros (sc & Hin & Hx); left; exists (k, sc); split; [apply Hs; naive_solver|done]]).
  split.
  - intros [([key sc] & Hin & Hx)|Hx]; [apply Hs in Hin; naive_solver|destruct chan; naive_solver].
  - intros Hx. right. destruct chan; naive_solver.
Qed.

Lemma covers_slots change (c c' : Core) : covers change c c' ↔ ∀ slot, now slot c ≠ now slot c' → slot_told slot change.
Proof.
  split.
  - intros [C1 C2 C3 C4 C5] [k|k|k|k|chan] Hne; simpl in *; [apply C1|apply C2|apply C3|apply C4|apply C5]; congruence.
  - intros Hs. split.
    + intros k Hne. apply (Hs (SValue k)). simpl. congruence.
    + intros k Hne. apply (Hs (SReadiness k)). simpl. congruence.
    + intros k Hne. apply (Hs (SAuthority k)). simpl. congruence.
    + intros k Hne. apply (Hs (SRetry k)). simpl. congruence.
    + intros chan Hne. apply (Hs (SReceipts chan)). simpl. congruence.
Qed.

Lemma mutate_step op (cell : Cell) : cell_mutate op cell = let '(change, a, c) := core_step op (core cell) in (a, apply_ change (put_core c cell)).
Proof.
  destruct op as [key gen|e|key|key gen|key|key error|t|key]; cbn [cell_mutate core_step];
    unfold cell_open, cell_admit, cell_suspend, cell_reconnect, cell_close, cell_fail, cell_tick, cell_drain.
  - by destruct (open key gen (core cell)).
  - by destruct (admit_ e (core cell)) as [[??]?].
  - by destruct (suspend key (core cell)) as [[??]?].
  - by destruct (reconnect key gen (core cell)) as [[??]?].
  - by destruct (close key (core cell)).
  - by destruct (fail_ key error (core cell)).
  - by destruct (tick t (core cell)).
  - by destruct (drain key (core cell)) as [[??]?].
Qed.

Lemma read_step slot (cell : Cell) : let v := default (now slot (core cell)) (cached slot cell) in
  (cell_read slot cell).1 = v ∧ core (cell_read slot cell).2 = core cell ∧ transport_kind (cell_read slot cell).2 = transport_kind cell ∧
  poll_interval (cell_read slot cell).2 = poll_interval cell ∧ ∀ slot', cached slot' (cell_read slot cell).2 = if decide (slot' = slot) then Some v else cached slot' cell.
Proof.
  destruct slot as [k|k|k|k|[]]; simpl; unfold cell_value, cell_readiness, cell_authority, cell_retry, cell_accepted, cell_dropped, cell_errors, ensure_readers.
  5-7: destruct (accepted_ cell) as [va|] eqn:Ea, (dropped_ cell) as [vd|] eqn:Ed, (errors_ cell) as [ve|] eqn:Ee; simpl; split_and!; try done;
    intros [k'|k'|k'|k'|[]]; simpl; rewrite ?Ea, ?Ed, ?Ee; try rewrite decide_True by done; try rewrite decide_False by done; done.
  all: destruct (readers cell !! k) as [[v1 v2 v3 v4]|] eqn:Er; simpl;
    [destruct v1 as [w1|], v2 as [w2|], v3 as [w3|], v4 as [w4|]|]; simpl; split_and!; try done.
  all: intros [k'|k'|k'|k'|[]]; simpl; try rewrite decide_False by done; try done.
  all: destruct (decide (k' = k)) as [->|Hk]; [rewrite lookup_insert_eq, ?Er|rewrite lookup_insert_ne by done; try rewrite lookup_insert_ne by done].
  all: repeat case_decide; simplify_eq/=; done.
Qed.

(** Every cached value is what the slot would compute. *)
Definition all_fresh (cell : Cell) : Prop := ∀ slot v, cached slot cell = Some v → v = now slot (core cell).

(** What a slot answers before and after a transition: the old value unless the
    transition tells. *)
Lemma mutate_cached op slot (cell : Cell) : let '(change, a, c) := core_step op (core cell) in
  (cell_mutate op cell).1 = a ∧ core (cell_mutate op cell).2 = c ∧ transport_kind (cell_mutate op cell).2 = transport_kind cell ∧
  poll_interval (cell_mutate op cell).2 = poll_interval cell ∧
  (slot_told slot change → cached slot (cell_mutate op cell).2 = None) ∧ (¬ slot_told slot change → cached slot (cell_mutate op cell).2 = cached slot cell).
Proof.
  rewrite mutate_step. destruct (core_step op (core cell)) as [[change a] c]. simpl. destruct (cached_apply slot change (put_core c cell)) as (E1 & E2 & E3 & E4).
  rewrite E1, E2, E3, E4, cached_put_core. split_and!; try done; intros Ht; [rewrite decide_True by by apply roots_told|rewrite decide_False by by rewrite roots_told]; done.
Qed.

Lemma step_fresh call (cell : Cell) : all_fresh cell → core_ok (core cell) → call_ok call → all_reported [call] (core cell) = true →
  let '(a, c, kind, interval) := ref_step call (core cell) (transport_kind cell) (poll_interval cell) in
  let cell' := (cell_step call cell).2 in
  (cell_step call cell).1 = a ∧ core cell' = c ∧ transport_kind cell' = kind ∧ poll_interval cell' = interval ∧ all_fresh cell' ∧ core_ok c.
Proof.
  intros Hf Hok Hcall Hrep. destruct call as [op|slot| |kind|n]; cbn [ref_step cell_step]; try by split_and!.
  - simpl in Hrep. rewrite andb_true_r in Hrep. apply negb_true_iff in Hrep. pose proof (covers_exactly op (core cell) Hok Hcall) as Hc.
    pose proof (λ slot, mutate_cached op slot cell) as Hm. destruct (core_step op (core cell)) as [[change a] c]. destruct Hc as [Hok' Hc].
    apply Hc in Hrep. rewrite covers_slots in Hrep. destruct (cell_mutate op cell) as [a' cell']. simpl in *.
    destruct (Hm (SReceipts ChError)) as (-> & E2 & E3 & E4 & _). split_and!; try done.
    intros slot v Hv. destruct (Hm slot) as (_ & _ & _ & _ & Hin & Hout). rewrite E2. destruct (decide (slot ∈ roots change)) as [Hi|Hi]; rewrite roots_told in Hi.
    + by rewrite Hin in Hv.
    + rewrite Hout in Hv by done. rewrite (Hf slot v Hv). destruct (decide (now slot (core cell) = now slot c)) as [?|Hne]; [done|]. by destruct Hi; apply Hrep.
  - pose proof (read_step slot cell) as Hr. destruct (cell_read slot cell) as [v cell']. simpl in *. destruct Hr as (-> & E2 & E3 & E4 & Hr).
    assert (Hv : default (now slot (core cell)) (cached slot cell) = now slot (core cell)).
    { destruct (cached slot cell) as [v0|] eqn:Ev; [|done]. simpl. by rewrite (Hf slot v0 Ev). }
    rewrite Hv in Hr |- *. rewrite E2. split_and!; try done. intros slot' v' Hv'. rewrite E2. rewrite Hr in Hv'. case_decide as Eq; [|by apply Hf].
    by simplify_eq.
Qed.

Lemma new_fresh policy kind interval (cell : Cell) : cell_new policy kind interval = inr cell → 0 ≤ receipt_capacity policy → all_fresh cell ∧ core_ok (core cell).
Proof.
  unfold cell_new, core_new. intros E Hp. destruct (_ && _); [done|]. destruct (Z.eqb_spec (receipt_capacity policy) 0); [done|]. injection E as <-. split.
  - intros [k|k|k|k|[]] v; simpl; by rewrite ?lookup_empty.
  - split; simpl; [apply map_Forall_empty|lia|lia].
Qed.

Lemma all_reported_cons call calls (c : Core) kind interval :
  all_reported (call :: calls) c = all_reported [call] c && all_reported calls (ref_step call c kind interval).1.1.2.
Proof.
  destruct call as [op| | | |]; simpl; try done. rewrite andb_true_r. by destruct (core_step op c) as [[??]?].
Qed.

Lemma run_fresh calls : ∀ cell : Cell, all_fresh cell → core_ok (core cell) → Forall call_ok calls → all_reported calls (core cell) = true →
  cell_run calls cell = ref_run calls (core cell) (transport_kind cell) (poll_interval cell) ∧
  let cell' := foldl (λ cell call, (cell_step call cell).2) cell calls in all_fresh cell' ∧ core_ok (core cell').
Proof.
  induction calls as [|call calls IH]; intros cell Hf Hok Hcalls Hrep; [done|]. apply Forall_cons in Hcalls as [Hcall Hcalls].
  rewrite (all_reported_cons _ _ _ (transport_kind cell) (poll_interval cell)) in Hrep. apply andb_prop in Hrep as [Hr1 Hr2].
  pose proof (step_fresh call cell Hf Hok Hcall Hr1) as Hs. cbn [cell_run ref_run foldl].
  destruct (ref_step _ _ _ _) as [[[a c] kind] interval]. destruct (cell_step call cell) as [a' cell']. simpl in Hs, Hr2 |- *.
  destruct Hs as (-> & <- & <- & <- & Hf' & Hok'). destruct (IH cell' Hf' Hok' Hcalls Hr2) as [-> Hend]. done.
Qed.

(** An unreported operation leaves a stale reader. *)
Lemma unreported_is_seen (cell : Cell) op : all_fresh cell → core_ok (core cell) → op_ok op → unreported op (core cell) = true →
  ¬ ∀ slot, cell_run [CkRead slot; CkMutate op; CkRead slot] cell = ref_run [CkRead slot; CkMutate op; CkRead slot] (core cell) (transport_kind cell) (poll_interval cell).
Proof.
  intros Hf Hok Hop Hun Hall. pose proof (covers_exactly op (core cell) Hok Hop) as Hc.
  assert (Hsame : ∀ slot, let '(change, _, c) := core_step op (core cell) in now slot (core cell) ≠ now slot c → slot_told slot change).
  { intros slot. pose proof (Hall slot) as Hs. cbn [cell_run ref_run cell_step ref_step] in Hs.
    pose proof (read_step slot cell) as Hr. destruct (cell_read slot cell) as [v1 cell1]. simpl in Hr. destruct Hr as (_ & E1 & _ & _ & Hcache).
    pose proof (mutate_cached op slot cell1) as Hm. rewrite E1 in Hm. destruct (core_step op (core cell)) as [[change a] c]. destruct (cell_mutate op cell1) as [a2 cell2].
    simpl in Hm. destruct Hm as (_ & E2 & _ & _ & _ & Hout). pose proof (read_step slot cell2) as (Hr2 & _). destruct (cell_read slot cell2) as [v3 cell3]. simpl in Hr2.
    assert (E3 : v3 = now slot c) by (simpl in Hs; congruence). intros Hne. destruct (decide (slot ∈ roots change)) as [Hi|Hi]; rewrite roots_told in Hi; [done|].
    destruct Hne. rewrite Hout, Hcache, decide_True in Hr2 by done. simpl in Hr2. rewrite <- E3, Hr2.
    destruct (cached slot cell) as [v0|] eqn:Ev; [|done]. simpl. by rewrite (Hf slot v0 Ev). }
  destruct (core_step op (core cell)) as [[change a] c]. destruct Hc as [_ Hc]. apply not_false_iff_true in Hun. apply Hun, Hc, covers_slots. exact Hsame.
Qed.

(** C32: The ingress answers as its core, as if no reader were memoised, over
    every sequence of operations and reads in which no operation is one of
    [unreported]; and those are all the exceptions: whatever cell without stale
    readers is at hand, an operation that is one of them leaves some reader
    that was read before it with an old answer. *)
Theorem ingress_cell_refines_core (policy : IngressPolicy) (kind : IngressTransportKind) (interval : Z) (cell0 : Cell) :
  cell_new policy kind interval = inr cell0 → 0 ≤ receipt_capacity policy →
  (∀ calls, Forall call_ok calls → all_reported calls (core cell0) = true → cell_run calls cell0 = ref_run calls (core cell0) kind interval) ∧
  (∀ calls cell op, Forall call_ok calls → all_reported calls (core cell0) = true → cell = foldl (λ cell call, (cell_step call cell).2) cell0 calls →
    op_ok op → unreported op (core cell) = true →
    ¬ ∀ slot, cell_run [CkRead slot; CkMutate op; CkRead slot] cell = ref_run [CkRead slot; CkMutate op; CkRead slot] (core cell) (transport_kind cell) (poll_interval cell)).
Proof.
  intros Hnew Hcap. destruct (new_fresh policy kind interval cell0 Hnew Hcap) as [Hf Hok].
  assert (Hk : transport_kind cell0 = kind ∧ poll_interval cell0 = interval).
  { unfold cell_new in Hnew. destruct (core_new policy); [done|]. by injection Hnew as <-. }
  destruct Hk as [<- <-]. split.
  - intros calls Hcalls Hrep. by apply run_fresh.
  - intros calls cell op Hcalls Hrep -> Hop Hun. destruct (run_fresh calls cell0 Hf Hok Hcalls Hrep) as [_ [Hf' Hok']]. by apply unreported_is_seen.
Qed.

(** The pump admits what the transport has decoded and asks for a replay of
    exactly the scopes it touched that hold a gap open, from where each
    resumes. *)
Section pump.
  Context {S : Type} `{IngressTransportSeam S K T}.

Lemma pump_admits inbound : ∀ touched (cell : Cell), NoDup touched → let '(outcomes, touched', cell') := pump_admit inbound touched cell in
  (AAdmitted <$> outcomes, core cell') = core_run_ops (IAdmit <$> inbound) (core cell) ∧ NoDup touched' ∧ ∀ key, key ∈ touched' ↔ key ∈ touched ∨ key ∈ e_key <$> inbound.
Proof.
  induction inbound as [|e inbound IH]; intros touched cell Hnd; cbn [pump_admit]; [|rewrite !fmap_cons; cbn [core_run_ops core_step]].
  { simpl. split_and!; [done|done|]. intros key. split; [by left|by intros [?|?%not_elem_of_nil]]. }
  unfold cell_admit. destruct (admit_ e (core cell)) as [[change a] c].
  set (touched1 := if bool_decide (e_key e ∈ touched) then touched else touched ++ [e_key e]).
  assert (H1 : NoDup touched1 ∧ ∀ key, key ∈ touched1 ↔ key ∈ touched ∨ key = e_key e).
  { unfold touched1. case_bool_decide as Hin; [split; [done|]; intros key; split; [by left|by intros [?| ->]]|].
    split; [apply NoDup_app; split_and!; [done|set_solver|apply NoDup_singleton]|]. intros key. by rewrite elem_of_app, list_elem_of_singleton. }
  destruct H1 as [Hnd1 Hin1]. specialize (IH touched1 (apply_ change (put_core c cell)) Hnd1).
  destruct (pump_admit inbound touched1 _) as [[outcomes touched'] cell']. destruct IH as (E & Hnd' & Hin').
  destruct (cached_apply (SReceipts ChError) change (put_core c cell)) as (_ & Ec & _). rewrite Ec in E. change (core (put_core c cell)) with c in E. rewrite <- E. split_and!; [done|done|].
  intros key. rewrite Hin', Hin1, elem_of_cons. tauto.
Qed.
End pump.

Definition gap_of (cell : Cell) (key : K) : option (K * ReplayRequest) :=
  v ← view (core cell) key; if has_gap v then Some (key, mkRequest (v_generation v) (resume_from v)) else None.
Lemma pump_replays touched (cell : Cell) (t : InProcIngress K T) : kind_ t ≠ BoundedPolling →
  replays_ (pump_replay touched cell t) = replays_ t ++ omap (gap_of cell) touched.
Proof.
  revert t. induction touched as [|key touched IH]; intros t Hk; simpl; [by rewrite app_nil_r|]. unfold gap_of at 1.
  destruct (view (core cell) key) as [v|]; simpl; [|by apply IH]. destruct (has_gap v); [|by apply IH].
  assert (E : (inproc_request key (mkRequest (v_generation v) (resume_from v)) t).2 =
    mkInProc _ _ (kind_ t) (inbound_ t) (replays_ t ++ [(key, mkRequest (v_generation v) (resume_from v))])) by (unfold inproc_request; by destruct (kind_ t)).
  rewrite E, IH by done. simpl. by rewrite <- app_assoc.
Qed.
End history.

(** ** Examples *)
Module Sample.
#[local] Existing Instance RawFifo.

Definition policy (capacity : Z) : IngressPolicy := mkIngressPolicy 8 1000 64 Relay.Spill capacity 10 10000.
Definition cell (capacity : Z) : IngressCell (K:=Z) (T:=list Z) :=
  match cell_new (policy capacity) EventChannel 50 with inr c => c | inl _ => mkCell (mkCore (policy capacity) ∅ [] 0 0) ∅ None None None EventChannel 50 end.
Definition env (gen seq : Z) (v : list Z) : CellCall (K:=Z) := CkMutate (IAdmit (mkEnvelope 7 gen seq 0 v)).

(** A reconnection at a newer generation, with a parked envelope. *)
Definition calls : list (CellCall (K:=Z) (T:=list Z)) :=
  [CkRead (SReadiness 7); CkMutate (IOpen 7 3); CkRead (SReadiness 7); env 3 1 [11]; CkRead (SValue 7); env 3 0 [10]; CkRead (SValue 7); CkRead (SReadiness 7);
   CkMutate (IFail 7 DecodeFailed); CkRead (SRetry 7); CkMutate (ISuspend 7); CkMutate (IReconnect 7 4); CkRead (SAuthority 7); CkRead (SRetry 7);
   CkMutate (ITick 2000); CkRead (SReceipts ChAccepted); CkTransport BoundedPolling; CkSchedule].
Definition reopened : IngressCell (K:=Z) (T:=list Z) :=
  foldl (λ cell call, (cell_step call cell).2) (cell 256) [CkMutate (IOpen 7 3); env 3 0 [10]].

Lemma ingress_cell_refines_core_witness :
  cell_run calls (cell 256) = ref_run calls (core (cell 256)) EventChannel 50 ∧
  ¬ ∀ slot, cell_run [CkRead slot; CkMutate (IOpen 7 4); CkRead slot] reopened =
            ref_run [CkRead slot; CkMutate (IOpen 7 4); CkRead slot] (core reopened) (transport_kind reopened) (poll_interval reopened).
Proof.
  destruct (ingress_cell_refines_core (policy 256) EventChannel 50 (cell 256)) as [Hrun Hstale]; [vm_compute; reflexivity|vm_compute; discriminate|].
  assert (Hseq : ∀ z, 0 ≤ z < 10 → is_u64 z) by (unfold is_u64, two64; lia). split.
  - apply Hrun; [|vm_compute; reflexivity]. unfold calls, env. repeat apply Forall_cons_2; try apply Forall_nil_2; simpl; try exact I; apply Hseq; lia.
  - apply (Hstale [CkMutate (IOpen 7 3); env 3 0 [10]]); [|vm_compute; reflexivity|reflexivity|exact I|vm_compute; reflexivity].
    unfold env. repeat apply Forall_cons_2; try apply Forall_nil_2; simpl; try exact I; apply Hseq; lia.
Defined.

(** Opened at a newer generation, a live scope goes back to warming; its
    readiness reader still says ready. *)
Lemma newer_open_leaves_readiness_stale :
  cell_run [CkMutate (IOpen 7 3); env 3 0 [10]; CkRead (SReadiness 7); CkMutate (IOpen 7 4); CkRead (SReadiness 7)] (cell 256) =
    [CaOp ANothing; CaOp (AAdmitted (Accepted 0)); CaSlot (VlReadiness RReady); CaOp ANothing; CaSlot (VlReadiness RReady)] ∧
  readiness (core_run_ops [IOpen 7 3; IAdmit (mkEnvelope 7 3 0 0 [10]); IOpen 7 4] (core (cell 256))).2 7 = RWarming.
Proof. split; vm_compute; reflexivity. Qed.

(** A closed scope that is reconnected claims authority again; its authority
    reader still says none. *)
Lemma reconnect_leaves_authority_stale :
  cell_run [CkMutate (IOpen 7 3); CkMutate (IClose 7); CkRead (SAuthority 7); CkMutate (IReconnect 7 3); CkRead (SAuthority 7)] (cell 256) =
    [CaOp ANothing; CaOp ANothing; CaSlot (VlAuthority None); CaOp (ARequest (Some (mkRequest 3 0))); CaSlot (VlAuthority None)] ∧
  authority (core_run_ops [IOpen 7 3; IClose 7; IReconnect 7 3] (core (cell 256))).2 7 = Some (mkAuthority 3 None 0).
Proof. split; vm_compute; reflexivity. Qed.

(** A dropped envelope whose receipt evicts an accepted one: the reader of the
    accepted receipts still shows it. *)
Lemma eviction_leaves_receipts_stale :
  let run := cell_run [CkMutate (IOpen 7 3); env 3 0 [10]; CkRead (SReceipts ChAccepted); env 3 0 [10]; CkRead (SReceipts ChAccepted)] (cell 1) in
  run !! 4%nat = Some (CaSlot (VlReceipts [mkReceipt 0 7 3 (Some 0) (OAccepted 0 false)])) ∧
  receipts (core_run_ops [IOpen 7 3; IAdmit (mkEnvelope 7 3 0 0 [10]); IAdmit (mkEnvelope 7 3 0 0 [10])] (core (cell 1))).2 ChAccepted = [].
Proof. split; vm_compute; reflexivity. Qed.

(** A failure of a closed scope outlives its reopening in the retry reader. *)
Lemma reopening_leaves_retry_stale :
  cell_run [CkMutate (IOpen 7 3); CkMutate (IClose 7); CkMutate (IFail 7 DecodeFailed); CkRead (SRetry 7); CkMutate (IOpen 7 4); CkRead (SRetry 7)] (cell 256) =
    [CaOp ANothing; CaOp ANothing; CaOp ANothing; CaSlot (VlRetry (Some (mkRetry 1 10 0))); CaOp ANothing; CaSlot (VlRetry (Some (mkRetry 1 10 0)))] ∧
  retry (core_run_ops [IOpen 7 3; IClose 7; IFail 7 DecodeFailed; IOpen 7 4] (core (cell 256))).2 7 = None.
Proof. split; vm_compute; reflexivity. Qed.
End Sample.
