(* ===== verification/KernelClear.v ===== *)
(** * KernelClear: clearing the caches below a node

    [clear_dependents] of a source and [clear] of a computed cell throw cached
    values away.  The walk leaves the graph invariant standing, so no reader
    sees a difference. *)
From S2P Require Import Prelude Kernel KernelWalk KernelCorrect.

Section clear.
  Context {V : Type} `{EqDecision V}.
  Implicit Types (c : Ctx V) (ns : gmap SlotId (Node V)) (g : list (spec_node (V:=V))).

Definition cleared_slot (s : SlotNode V) : SlotNode V := slot_set_flags false false (slot_set_value None s).
Definition emptied ns i : Prop := ∀ s, ns !! i = Some (NSlot s) → s_value s = None.

(** Every node is as it was, or a cleared slot whose dependents are emptied or
    wait on the stack. *)
Definition swept ns0 ns (st : list SlotId) : Prop := ∀ i, ns !! i = ns0 !! i ∨
  ∃ s, ns0 !! i = Some (NSlot s) ∧ ns !! i = Some (NSlot (cleared_slot s)) ∧ ∀ d, d ∈ s_dependents s → emptied ns d ∨ d ∈ st.

Lemma swept_same ns0 ns i st st' : swept ns0 ns (i :: st) → emptied ns i → (∀ x, x ∈ st → x ∈ st') → swept ns0 ns st'.
Proof.
  intros Hsw He Hst k. destruct (Hsw k) as [E|(s & H1 & H2 & H3)]; [by left|]. right. exists s. split_and!; [done|done|].
  intros d Hd. destruct (H3 d Hd) as [?|[->|?]%elem_of_cons]; auto.
Qed.
Lemma emptied_clear ns i s k : emptied ns k → emptied (<[i := NSlot (cleared_slot s)]> ns) k.
Proof.
  intros He s'. destruct (decide (k = i)) as [->|]; [rewrite lookup_insert_eq; by intros [= <-]|rewrite lookup_insert_ne by done; apply He].
Qed.

Lemma clear_step_swept ns0 ns i st eff ns' st' eff' : clear_step ns i st eff = (ns', st', eff') → swept ns0 ns (i :: st) →
  swept ns0 ns' st' ∧ emptied ns' i ∧ (∀ x, x ∈ st → x ∈ st') ∧ (∀ k, emptied ns k → emptied ns' k) ∧
  (no_effect_nodes ns → eff' = eff ∧ no_effect_nodes ns').
Proof.
  unfold clear_step. intros Hstep Hsw.
  destruct (ns !! i) as [[s|cl|e]|] eqn:E; [destruct (bool_decide (s_value s = None) && negb (s_dirty s)) eqn:Ev|..]; injection Hstep as <- <- <-.
  2: { assert (Hst : ∀ x, x ∈ st → x ∈ push_all (s_dependents s) st) by (intros x Hx; apply elem_of_push_all; by right).
    assert (Hem : ∀ k, emptied ns k → emptied (<[i := NSlot (cleared_slot s)]> ns) k) by (intros k; apply emptied_clear).
    assert (Hi : emptied (<[i := NSlot (cleared_slot s)]> ns) i) by (intros s'; rewrite lookup_insert_eq; by intros [= <-]).
    split_and!; [|done|done|done|].
    - intros k. destruct (decide (k = i)) as [->|Hne].
      + right. destruct (Hsw i) as [E0|(s0 & H1 & H2 & _)].
        * exists s. rewrite <- E0, lookup_insert_eq. split_and!; [done|done|]. intros d Hd. right. apply elem_of_push_all. by left.
        * exists s0. rewrite lookup_insert_eq. rewrite E in H2. injection H2 as ->. split_and!; [done|done|]. intros d Hd. right. apply elem_of_push_all. by left.
      + rewrite lookup_insert_ne by done. destruct (Hsw k) as [E0|(s0 & H1 & H2 & H3)]; [by left|right]. exists s0. split_and!; [done|done|].
        intros d Hd. destruct (H3 d Hd) as [?|[->|?]%elem_of_cons]; auto.
    - intros Hne. split; [done|]. intros k e. destruct (decide (k = i)) as [->|]; [by rewrite lookup_insert_eq|rewrite lookup_insert_ne by done; apply Hne]. }
  all: assert (He : emptied ns i) by (intros s'; rewrite E; intros [= <-]; apply andb_true_iff in Ev as [Ev _]; by apply bool_decide_eq_true in Ev).
  all: split_and!; [by eapply swept_same|done|done|done|]; intros Hne; try done; by destruct (Hne i e).
Qed.

Lemma clear_loop_swept fuel : ∀ ns0 ns st eff eff' ns', clear_loop fuel ns st eff = Some (eff', ns') → swept ns0 ns st → no_effect_nodes ns →
  swept ns0 ns' [] ∧ eff' = eff ∧ (∀ k, emptied ns k ∨ k ∈ st → emptied ns' k).
Proof.
  induction fuel as [|fuel IH]; intros ns0 ns [|i st] eff eff' ns' Hl Hsw Hne; simpl in Hl; simplify_eq.
  1-2: split_and!; [done|done|]; intros k [?|Hk]; [done|by apply not_elem_of_nil in Hk].
  destruct (clear_step ns i st eff) as [[ns1 st1] eff1] eqn:E.
  destruct (clear_step_swept _ _ _ _ _ _ _ _ E Hsw) as (Hsw1 & Hi & Hst & Hem & Heff). destruct (Heff Hne) as [-> Hne1].
  destruct (IH _ _ _ _ _ _ Hl Hsw1 Hne1) as (? & -> & Hem1). split_and!; [done|done|].
  intros k [?|[->|?]%elem_of_cons]; apply Hem1; auto.
Qed.

(** What a swept table keeps of the one it comes from. *)
Lemma swept_slot ns0 ns k s : swept ns0 ns [] → ns !! k = Some (NSlot s) →
  ns0 !! k = Some (NSlot s) ∨ ∃ s0, ns0 !! k = Some (NSlot s0) ∧ s = cleared_slot s0 ∧ ∀ d, d ∈ s_dependents s0 → emptied ns d.
Proof.
  intros Hsw Hk. destruct (Hsw k) as [E|(s0 & H1 & H2 & H3)]; [left; by rewrite <- E|right]. exists s0. split_and!; [done|congruence|].
  intros d Hd. by destruct (H3 d Hd) as [?|?%not_elem_of_nil].
Qed.
Lemma swept_deps ns0 ns k : swept ns0 ns [] → deps_of ns k = deps_of ns0 k.
Proof. intros Hsw. unfold deps_of. by destruct (Hsw k) as [->|(s & -> & -> & _)]. Qed.
Lemma swept_dpts ns0 ns k : swept ns0 ns [] → dpts_of ns k = dpts_of ns0 k.
Proof. intros Hsw. unfold dpts_of. by destruct (Hsw k) as [->|(s & -> & -> & _)]. Qed.
Lemma emptied_stale ns k : emptied ns k → stale ns k.
Proof. intros He s Hk. unfold s_clean. by rewrite (He s Hk). Qed.

Lemma swept_inv g ns0 ns : Inv g none none ns0 → swept ns0 ns [] → Inv g none none ns.
Proof.
  intros HI Hsw. split.
  - apply HI.
  - intros k. pose proof (inv_dom _ _ _ _ HI k) as Hd. destruct (Hsw k) as [->|(s & Hs & -> & _)]; [done|]. by rewrite Hs in Hd.
  - pose proof (inv_edges _ _ _ _ HI) as []. split; intros *; rewrite ?(swept_deps _ _ _ Hsw), ?(swept_dpts _ _ _ Hsw); auto.
  - intros k s Hk Hf. destruct (swept_slot _ _ _ _ Hsw Hk) as [Hk0|(s0 & _ & -> & _)]; [|done]. by eapply (inv_fd _ _ _ _ HI).
  - intros k s d Hk Hc Hd. destruct (swept_slot _ _ _ _ Hsw Hk) as [Hk0|(s0 & _ & -> & Hem)]; [|by apply emptied_stale, Hem].
    intros s' Hd'. destruct (swept_slot _ _ _ _ Hsw Hd') as [Hd0|(s1 & _ & -> & _)]; [|done]. by eapply (inv_up _ _ _ _ HI k s d).
  - intros k s v Hk _ Hv Hf _. destruct (swept_slot _ _ _ _ Hsw Hk) as [Hk0|(s0 & _ & -> & _)]; [|done].
    eapply evals_mono; [eapply (inv_cache _ _ _ _ HI k s v); eauto|done|]. intros j x Hj Hx.
    unfold cval in *. destruct (Hsw j) as [->|(sj & Hsj & _ & Hem)]; [done|]. exfalso.
    assert (Hk' : k ∈ s_dependents sj).
    { pose proof (edges_sym _ (inv_edges _ _ _ _ HI) k j) as Hs. unfold deps_of, dpts_of in Hs. rewrite Hk0, Hsj in Hs. by apply Hs. }
    destruct (Hem k Hk') as [He|He%not_elem_of_nil]; [|done]. rewrite (He s Hk) in Hv. done.
Qed.

Lemma swept_idle ns0 ns : swept ns0 ns [] → idle_guards ns0 → idle_guards ns.
Proof. intros Hsw Hi k s Hk. destruct (swept_slot _ _ _ _ Hsw Hk) as [Hk0|(s0 & Hk0 & -> & _)]; apply (Hi _ _ Hk0). Qed.

Lemma clear_frontier_ok g c roots : settled_ctx g c →
  ∃ ns, clear_frontier_locked roots c = (Val [], set_nodes ns c) ∧ settled_ctx g (set_nodes ns c) ∧ ∀ r, r ∈ roots → emptied ns r.
Proof.
  intros Hs. pose proof (st_inv _ _ Hs) as HI. unfold clear_frontier_locked. destruct (clear_loop_fuel (nodes c) roots []) as [[eff ns'] El]. rewrite El.
  apply clear_loop_swept with (ns0 := nodes c) in El as (Hsw & -> & Hem); [|by left|by eapply inv_no_effects].
  exists ns'. split_and!; [done| |intros r Hr; apply Hem; right; apply elem_of_push_all; by left].
  eapply settled_nodes; [done|by eapply swept_inv|done|]. eapply swept_idle; [done|exact (st_guards _ _ Hs)].
Qed.

(** No reader sees a cleared cache: the context holds the same graph, and every
    operation on it answers as before. *)
Lemma clear_dependents_settled g c i : settled_ctx g c → ∃ c', clear_cell_dependents 2 i c = (Val tt, c') ∧ settled_ctx g c'.
Proof.
  intros Hs. pose proof Hs as [_ _ _ _ [Hp Hf] (Hb & _)]. unfold clear_cell_dependents, is_batching. rewrite Hb. simpl.
  unfold clear_cell_dependents_now, mbind, M_bind. destruct (get_cell_node c i) as [cell|]; [|exists c; split; [exact (flush_idle 0 c Hp Hf)|done]].
  destruct (clear_frontier_ok g c (c_dependents cell) Hs) as (ns & -> & Hs' & _). exists (set_nodes ns c). split; [exact (flush_idle 0 (set_nodes ns c) Hp Hf)|done].
Qed.
Lemma computed_clear_settled g c h : settled_ctx g c → ∃ c', computed_clear 2 h c = (Val tt, c') ∧ settled_ctx g c' ∧ emptied (nodes c') (h_id h).
Proof.
  intros Hs. pose proof Hs as [_ _ _ _ [Hp Hf] (Hb & _)]. unfold computed_clear, clear_slot, clear_slot_now, is_batching, mbind, M_bind. rewrite Hb. simpl.
  destruct (clear_frontier_ok g c [h_id h] Hs) as (ns & -> & Hs' & Hem). exists (set_nodes ns c). simpl. unfold flush_effects_after_invalidation, is_batching. simpl.
  rewrite Hb. simpl. split_and!; [exact (flush_idle 0 (set_nodes ns c) Hp Hf)|done|]. apply Hem. by left.
Qed.
End clear.
