(* ===== verification/Reconcile.v ===== *)
(** * Reconcile: keyed reconciliation

    Models the reconciliation of include/lazily/collections.hpp: the longest
    increasing subsequence by binary search over the least tails, the
    difference of two keyed sequences as removals, insertions, moves and
    updates, and its application to a keyed order. *)
From S2P Require Import Prelude KeyedOrder.

(** ** The longest increasing subsequence *)
Section lis.
  Context (seq : list nat).

Definition val (i : nat) : nat := default 0 (seq !! i).

(** The range shrinks in every turn, so its length bounds the turns. *)
(* include/lazily/collections.hpp:149-155, longest_increasing_subsequence (search) *)
Fixpoint search (fuel : nat) (tails : list nat) (v lo hi : nat) : nat :=
  match fuel with
  | O => lo
  | S fuel =>
      if lo <? hi then
        let mid := (lo + hi) / 2 in
        if val (default 0 (tails !! mid)) <? v then search fuel tails v (mid + 1) hi else search fuel tails v lo mid
      else lo
  end.

(** [None] is the SIZE_MAX of the code, which is not an index. *)
(* include/lazily/collections.hpp:147-161, longest_increasing_subsequence (loop) *)
Fixpoint lis_loop (n i : nat) (tails : list nat) (prev : list (option nat)) : list nat * list (option nat) :=
  match n with
  | O => (tails, prev)
  | S n =>
      let lo := search (length tails) tails (val i) 0 (length tails) in
      let prev := if 0 <? lo then <[i := Some (default 0 (tails !! (lo - 1)))]> prev else prev in
      let tails := if lo =? length tails then tails ++ [i] else <[lo := i]> tails in
      lis_loop n (S i) tails prev
  end.

(* include/lazily/collections.hpp:164-168, longest_increasing_subsequence (walk back) *)
Fixpoint walk_back (fuel : nat) (prev : list (option nat)) (k : nat) : list nat :=
  k :: match fuel with
       | O => []
       | S fuel => match default None (prev !! k) with Some k => walk_back fuel prev k | None => [] end
       end.

(* include/lazily/collections.hpp:142-171, longest_increasing_subsequence *)
Definition longest_increasing_subsequence : list nat :=
  let n := length seq in
  match seq with
  | [] => []
  | _ =>
      let '(tails, prev) := lis_loop n 0 [] (replicate n None) in
      reverse (walk_back n prev (default 0 (last tails)))
  end.

(** *** What it finds *)

(** Positions in order whose values increase. *)
Definition above (a b : nat) : Prop := a < b ∧ val a < val b.
Definition increasing (s : list nat) : Prop := StronglySorted above s ∧ Forall (λ i, i < length seq) s.

(** The same, last position first; [t] is the last. *)
Inductive descends : nat → list nat → Prop :=
  | descends_one t : t < length seq → descends t [t]
  | descends_more t u cs : t < length seq → above u t → descends u cs → descends t (t :: cs).

Lemma above_trans a b c : above a b → above b c → above a c.
Proof. unfold above. lia. Qed.
Lemma descends_bound t cs : descends t cs → t < length seq ∧ ∀ x, x ∈ cs → x = t ∨ above x t.
Proof.
  induction 1 as [t Ht|t u cs Ht Hu _ [_ IH]]; (split; [done|]); intros x [->|Hx]%elem_of_cons; [by left|by apply not_elem_of_nil in Hx|by left|].
  right. destruct (IH x Hx) as [->|?]; [done|by eapply above_trans].
Qed.
Lemma descends_increasing t cs : descends t cs → increasing (reverse cs).
Proof.
  induction 1 as [t Ht|t u cs Ht Hu Hcs [IH1 IH2]]; rewrite reverse_cons.
  { split; repeat constructor; done. }
  split; [|apply Forall_app; split; [done|by repeat constructor]].
  apply StronglySorted_app_2; [|done|by repeat constructor].
  intros x y Hx ->%list_elem_of_singleton. rewrite elem_of_reverse in Hx.
  destruct (proj2 (descends_bound _ _ Hcs) x Hx) as [->|?]; [done|by eapply above_trans].
Qed.
Lemma increasing_descends s : increasing s → s ≠ [] → ∃ t cs, descends t cs ∧ s = reverse cs.
Proof.
  induction s as [|t s IH] using rev_ind; intros [Hs Hf] Hne; [done|]. apply Forall_app in Hf as [Hf Ht]. apply Forall_cons in Ht as [Ht _].
  destruct (decide (s = [])) as [->|Hne'].
  { exists t, [t]. by split; [constructor|]. }
  destruct IH as (u & cs & Hc & ->); [by split; [eapply StronglySorted_app_1_l|]|done|]. exists t, (t :: cs). split; [|by rewrite reverse_cons].
  eapply descends_more; [done| |exact Hc]. apply (StronglySorted_app_1_elem_of above (reverse cs) [t]); [done| |by apply list_elem_of_singleton].
  rewrite elem_of_reverse. inversion Hc; subst; by left.
Qed.

(** *** Why it is longest *)

(** The least tails of the increasing runs below position [i], each with the
    run it ends, linked by [prev]. *)
Inductive linked (prev : list (option nat)) : nat → list nat → Prop :=
  | linked_end t : prev !! t = Some None → linked prev t [t]
  | linked_more t u cs : prev !! t = Some (Some u) → linked prev u cs → linked prev t (t :: cs).

Record tails_ok (i : nat) (tails : list nat) (prev : list (option nat)) : Prop := {
  to_prev : length prev = length seq;
  to_fresh : ∀ k, i ≤ k < length seq → prev !! k = Some None;
  to_chain : ∀ l t, tails !! l = Some t → t < i ∧ ∃ cs, linked prev t cs ∧ descends t cs ∧ length cs = S l;
  to_order : ∀ l l' t t', tails !! l = Some t → tails !! l' = Some t' → l < l' → val t < val t';
  to_least : ∀ e cs, descends e cs → e < i → ∃ t, tails !! (length cs - 1) = Some t ∧ val t ≤ val e }.

Lemma search_spec tails v : (∀ l l' t t', tails !! l = Some t → tails !! l' = Some t' → l < l' → val t < val t') →
  ∀ fuel lo hi, hi - lo ≤ fuel → lo ≤ hi ≤ length tails →
  (∀ l t, tails !! l = Some t → l < lo → val t < v) → (∀ l t, tails !! l = Some t → hi ≤ l → v ≤ val t) →
  let r := search fuel tails v lo hi in r ≤ length tails ∧ (∀ l t, tails !! l = Some t → l < r → val t < v) ∧ (∀ l t, tails !! l = Some t → r ≤ l → v ≤ val t).
Proof.
  intros Hord fuel. induction fuel as [|fuel IH]; intros lo hi Hf Hb Hlo Hhi; cbn [search].
  { split_and!; [lia|done|]. intros l t Hl Hle. apply (Hhi l t Hl). lia. }
  destruct (Nat.ltb_spec lo hi) as [Hlt|Hge]; [|split_and!; [lia|done|intros l t Hl Hle; apply (Hhi l t Hl); lia]].
  assert (Hm : lo ≤ (lo + hi) / 2 < hi) by (split; [apply Nat.div_le_lower_bound|apply Nat.Div0.div_lt_upper_bound]; lia).
  destruct (lookup_lt_is_Some_2 tails ((lo + hi) / 2)) as [m Em]; [lia|]. cbv zeta. rewrite Em. cbn [default from_option id].
  destruct (Nat.ltb_spec (val m) v) as [Hv|Hv].
  - apply IH; [lia|lia| |done]. intros l t Hl Hle. destruct (decide (l = (lo + hi) / 2)) as [->|Hne]; [congruence|].
    pose proof (Hord l ((lo + hi) / 2) t m Hl Em ltac:(lia)). lia.
  - apply IH; [lia|lia|done|]. intros l t Hl Hle. destruct (decide (l = (lo + hi) / 2)) as [->|Hne]; [congruence|].
    pose proof (Hord ((lo + hi) / 2) l m t Em Hl ltac:(lia)). lia.
Qed.

Lemma linked_below prev t cs i o : linked prev t cs → (∀ x, x ∈ cs → x < i) → linked (<[i := o]> prev) t cs.
Proof.
  induction 1 as [t Hp|t u cs Hp _ IH]; intros Hlt; (assert (t < i) by (apply Hlt; by left)).
  - apply linked_end. rewrite list_lookup_insert_ne by lia. done.
  - eapply linked_more; [rewrite list_lookup_insert_ne by lia; done|]. apply IH. intros x Hx. apply Hlt. by right.
Qed.
Lemma descends_le t cs x : descends t cs → x ∈ cs → x ≤ t.
Proof. intros Hc Hx. destruct (proj2 (descends_bound _ _ Hc) x Hx) as [->|[? _]]; lia. Qed.

Lemma lis_step i tails prev : tails_ok i tails prev → i < length seq →
  let lo := search (length tails) tails (val i) 0 (length tails) in
  tails_ok (S i) (if lo =? length tails then tails ++ [i] else <[lo := i]> tails)
    (if 0 <? lo then <[i := Some (default 0 (tails !! (lo - 1)))]> prev else prev).
Proof.
  intros [T1 T2 T3 T4 T5] Hi. destruct (search_spec tails (val i) T4 (length tails) 0 (length tails)) as (S1 & S2 & S3); [lia|lia|intros; lia|
    intros l t Hl Hle; apply lookup_lt_Some in Hl; lia|]. set (lo := search _ _ _ _ _) in *. cbv zeta. clearbody lo.
  set (tails' := if lo =? length tails then _ else _). set (prev' := if 0 <? lo then _ else _).
  assert (Htails : ∀ l, tails' !! l = if decide (l = lo) then Some i else tails !! l).
  { intros l. unfold tails'. destruct (Nat.eqb_spec lo (length tails)) as [E|E].
    - case_decide as El; [subst l; rewrite E; by rewrite list_lookup_middle|]. destruct (decide (l < length tails)); [by rewrite lookup_app_l|].
      rewrite !lookup_ge_None_2; [done|lia|rewrite length_app; simpl; lia].
    - case_decide as El; [subst l; rewrite list_lookup_insert_eq by lia; done|]. by rewrite list_lookup_insert_ne. }
  assert (Hprev : ∀ t cs, t < i → descends t cs → linked prev t cs → linked prev' t cs).
  { intros t cs Ht Hd Hc. unfold prev'. case_match; [|done]. apply linked_below; [done|]. intros x Hx. pose proof (descends_le _ _ _ Hd Hx). lia. }
  split.
  - unfold prev'. case_match; by rewrite ?length_insert.
  - intros k Hk. unfold prev'. case_match; [rewrite list_lookup_insert_ne by lia|]; apply T2; lia.
  - intros l t. rewrite Htails. case_decide as El.
    + intros [= <-]. subst l. split; [lia|]. destruct (Nat.ltb_spec 0 lo) as [Hpos|Hz].
      * destruct (lookup_lt_is_Some_2 tails (lo - 1)) as [u Eu]; [lia|]. destruct (T3 _ _ Eu) as (Hu & cs & C1 & C2 & C3). exists (i :: cs). split_and!.
        -- eapply linked_more; [|by apply Hprev]. unfold prev'. rewrite Eu. destruct (0 <? lo) eqn:E; zify_bools; [|lia]. rewrite list_lookup_insert_eq by lia. done.
        -- eapply descends_more; [done| |done]. split; [done|]. apply (S2 (lo - 1)); [done|lia].
        -- simpl. lia.
      * exists [i]. split_and!; [|by constructor|simpl; lia]. apply linked_end. unfold prev'. destruct (0 <? lo) eqn:E; zify_bools; [lia|]. apply T2. lia.
    + intros Hl. destruct (T3 _ _ Hl) as (Ht & cs & C1 & C2 & C3). split; [lia|]. exists cs. split_and!; [by apply Hprev|done|done].
  - intros l l' t t'. rewrite !Htails. destruct (decide (l = lo)) as [El|El], (decide (l' = lo)) as [El'|El']; intros E1 E2 Hlt.
    + lia.
    + injection E1 as <-. subst l. destruct (lookup_lt_is_Some_2 tails lo) as [t0 E0]; [apply lookup_lt_Some in E2; lia|].
      pose proof (S3 _ _ E0 ltac:(lia)). pose proof (T4 _ _ _ _ E0 E2 Hlt). lia.
    + injection E2 as <-. subst l'. by apply (S2 l).
    + by apply (T4 l l').
  - intros e cs Hd He. destruct (decide (e = i)) as [->|Hne].
    + inversion Hd as [t Ht|t u cs' Ht [Hu1 Hu2] Hcs]; subst; simpl.
      * exists (if decide (0 = lo) then i else default 0 (tails !! 0)). rewrite Htails. case_decide as E0; [done|].
        destruct (lookup_lt_is_Some_2 tails 0) as [t0 Et0]; [lia|]. rewrite Et0. split; [done|]. simpl. pose proof (S2 _ _ Et0 ltac:(lia)). lia.
      * rewrite Nat.sub_0_r. destruct (T5 u cs' Hcs Hu1) as (t & Et & Hle). assert (Hl : length cs' - 1 < lo).
        { apply Nat.lt_nge. intros Hge. pose proof (S3 _ _ Et Hge). lia. }
        assert (Hpos : 0 < length cs') by (inversion Hcs; simpl; lia). rewrite Htails. case_decide as El; [by exists i|].
        destruct (lookup_lt_is_Some_2 tails (length cs')) as [t1 Et1]; [lia|]. exists t1. split; [done|]. pose proof (S2 _ _ Et1 ltac:(lia)). lia.
    + destruct (T5 e cs Hd ltac:(lia)) as (t & Et & Hle). rewrite Htails. case_decide as El; [|by exists t].
      exists i. split; [done|]. pose proof (S3 _ _ Et ltac:(lia)). lia.
Qed.

Lemma lis_loop_ok n : ∀ i tails prev, tails_ok i tails prev → i + n = length seq →
  let '(tails, prev) := lis_loop n i tails prev in tails_ok (length seq) tails prev.
Proof.
  induction n as [|n IH]; intros i tails prev Hok Hn; simpl; [by replace (length seq) with i by lia|].
  apply IH; [|lia]. apply lis_step; [done|lia].
Qed.

Lemma walk_linked prev t cs fuel : linked prev t cs → length cs ≤ S fuel → walk_back fuel prev t = cs.
Proof.
  intros Hl. revert fuel. induction Hl as [t Hp|t u cs Hp Hl IH]; intros [|fuel] Hf; simpl in *; rewrite ?Hp; simpl; try done.
  - inversion Hl; subst; simpl in *; lia.
  - f_equal. apply IH. lia.
Qed.

Lemma descends_length t cs : descends t cs → length cs ≤ S t.
Proof. induction 1 as [|t u cs Ht [Hu _] _ IH]; simpl; lia. Qed.

(** Its positions increase with their values, and no longer sequence of
    positions does. *)
Lemma lis_is_longest : increasing longest_increasing_subsequence ∧ ∀ s, increasing s → length s ≤ length longest_increasing_subsequence.
Proof.
  unfold longest_increasing_subsequence. destruct (decide (seq = [])) as [E|Hne].
  { rewrite E. split; [by split; constructor|]. intros s [_ Hs]. destruct s as [|x s]; [done|]. apply Forall_cons in Hs as [Hx _]. rewrite E in Hx. simpl in Hx. lia. }
  assert (Hinit : tails_ok 0 [] (replicate (length seq) None)).
  { split; [by rewrite length_replicate|intros k Hk; apply lookup_replicate; split; [done|lia]|by intros ? ? ?|by intros ? ? ? ? ?|intros; lia]. }
  pose proof (lis_loop_ok (length seq) 0 [] _ Hinit ltac:(lia)) as Hok. destruct (lis_loop _ _ _ _) as [tails prev].
  destruct Hok as [T1 T2 T3 T4 T5].
  assert (Hpos : 0 < length seq) by (destruct seq; [done|simpl; lia]).
  destruct (T5 0 [0] ltac:(by constructor) Hpos) as (t0 & E0 & _). simpl in E0.
  destruct (last tails) as [t|] eqn:El; [|by apply last_None in El; subst].
  rewrite last_lookup in El. destruct (T3 _ _ El) as (Ht & cs & C1 & C2 & C3).
  assert (Hw : walk_back (length seq) prev t = cs) by (apply walk_linked; [done|pose proof (descends_length _ _ C2); lia]).
  destruct seq as [|x l] eqn:Es; [done|]. rewrite <- Es in *. simpl default. rewrite Hw. split; [by eapply descends_increasing|].
  intros s Hs. destruct (decide (s = [])) as [->|Hs']; [simpl; lia|]. destruct (increasing_descends s Hs Hs') as (e & ds & Hd & ->).
  destruct (T5 e ds Hd) as (u & Eu & _); [by apply descends_bound in Hd as [? _]|]. apply lookup_lt_Some in Eu. rewrite !length_reverse, C3.
  assert (0 < length ds) by (inversion Hd; simpl; lia). lia.
Qed.
End lis.

(** ** The difference of two keyed sequences *)
Section reconcile.
  Context {K V : Type} `{Countable K} `{EqDecision V}.

(* include/lazily/collections.hpp:125-137, DiffOp *)
Inductive DiffOp := DInsert (key : K) (value : V) (index : nat) | DRemove (key : K) | DMove (key : K) (to : nat) | DUpdate (key : K) (value : V).
Definition op_key (op : DiffOp) : K := match op with DInsert k _ _ | DRemove k | DMove k _ | DUpdate k _ => k end.

(** The last position of every key, and its value there. *)
(* include/lazily/collections.hpp:176-178, reconcile (old_pos) *)
Definition old_pos (old : list (K * V)) : gmap K nat := foldl (λ m '(i, k), <[k := i]> m) ∅ (imap (λ i e, (i, e.1)) old).
(* include/lazily/collections.hpp:180-182, reconcile (old_val) *)
Definition old_val (old : list (K * V)) : gmap K V := foldl (λ m e, <[e.1 := e.2]> m) ∅ old.

(** The positions of the new sequence whose keys are old, and the old positions
    of those keys. *)
(* include/lazily/collections.hpp:198-204, reconcile (common keys) *)
Definition common (old new : list (K * V)) : list (nat * nat) :=
  omap id (imap (λ i (e : K * V), (i,.) <$> old_pos old !! e.1) new).
(* include/lazily/collections.hpp:205-208, reconcile (stable) *)
Definition stable (old new : list (K * V)) : list nat :=
  (λ j, default 0 ((common old new).*1 !! j)) <$> longest_increasing_subsequence (common old new).*2.

(* include/lazily/collections.hpp:211-218, reconcile (inserts and moves) *)
Definition place (old : list (K * V)) (st : list nat) (i : nat) (e : K * V) : option DiffOp :=
  match old_pos old !! e.1 with
  | Some _ => if bool_decide (i ∈ st) then None else Some (DMove e.1 i)
  | None => Some (DInsert e.1 e.2 i)
  end.
(* include/lazily/collections.hpp:173-227, reconcile *)
Definition reconcile (old new : list (K * V)) : list DiffOp :=
  let removes := omap (λ e : K * V, if bool_decide (e.1 ∈ new.*1) then None else Some (DRemove e.1)) old in
  let placed := omap id (imap (place old (stable old new)) new) in
  let updates := omap (λ e : K * V, match old_val old !! e.1 with
      | Some v => if bool_decide (v = e.2) then None else Some (DUpdate e.1 e.2) | None => None end) new in
  removes ++ placed ++ updates.

(** A keyed order that holds the values themselves. *)
Definition set_value (k : K) (v : V) (o : KeyedOrder K V) : KeyedOrder K V :=
  match entries_ o !! k with Some _ => mkKeyedOrder (<[k := v]> (entries_ o)) (order_ o) | None => (KeyedOrder.insert o k v).2 end.
(** One operation of a difference on it, and the whole difference of its
    contents to a new sequence. *)
Definition apply_diff (o : KeyedOrder K V) (op : DiffOp) : KeyedOrder K V :=
  match op with
  | DRemove k => (remove o k).2
  | DInsert k v i => (move_to (KeyedOrder.insert o k v).2 k i).2
  | DMove k i => (move_to o k i).2
  | DUpdate k v => set_value k v o
  end.
(** What the keyed order shows. *)
Definition contents (o : KeyedOrder K V) : list (K * V) := omap (λ k, (k,.) <$> entries_ o !! k) (order_ o).

(** *** The entries *)

Definition effect (ov : option V) (op : DiffOp) : option V :=
  match op with DRemove _ => None | DInsert _ v _ => Some (default v ov) | DMove _ _ => ov | DUpdate _ v => Some v end.

Lemma move_to_entries (o : KeyedOrder K V) k i : entries_ (move_to o k i).2 = entries_ o.
Proof. unfold move_to. destruct (position o k); [|done]. by case_match. Qed.
Lemma apply_diff_entries o op k : entries_ (apply_diff o op) !! k = if decide (op_key op = k) then effect (entries_ o !! k) op else entries_ o !! k.
Proof.
  destruct op as [k' v i|k'|k' i|k' v]; simpl; rewrite ?move_to_entries.
  - unfold KeyedOrder.insert. case_decide as E; [subst; destruct (entries_ o !! k) eqn:Ek; simpl; [by rewrite Ek|by rewrite lookup_insert_eq]|].
    destruct (entries_ o !! k'); simpl; [done|by rewrite lookup_insert_ne].
  - unfold remove. case_decide as E; [subst; destruct (entries_ o !! k) eqn:Ek; simpl; [by rewrite lookup_delete_eq|done]|].
    destruct (entries_ o !! k'); simpl; [by rewrite lookup_delete_ne|done].
  - by case_decide.
  - unfold set_value, KeyedOrder.insert. case_decide as E; [subst; destruct (entries_ o !! k) eqn:Ek; simpl; by rewrite lookup_insert_eq|].
    destruct (entries_ o !! k'); simpl; by rewrite lookup_insert_ne.
Qed.
Lemma apply_all_entries ops k : ∀ o, entries_ (foldl apply_diff o ops) !! k = foldl effect (entries_ o !! k) (filter (λ op, op_key op = k) ops).
Proof.
  induction ops as [|op ops IH]; intros o; simpl; [done|]. rewrite IH, apply_diff_entries. rewrite filter_cons. by case_decide.
Qed.
Lemma apply_diff_lockstep o op : lockstep o → lockstep (apply_diff o op).
Proof.
  intros Hl. destruct op as [k v i|k|k i|k v]; simpl; auto using insert_lockstep, remove_lockstep, move_to_lockstep.
  unfold set_value. destruct (entries_ o !! k) eqn:E; [|by apply insert_lockstep]. destruct Hl as [H1 H2]. split; simpl; [done|]. intros k'. rewrite H2.
  destruct (decide (k' = k)) as [->|]; [rewrite lookup_insert_eq, E; by split; intros _|by rewrite lookup_insert_ne].
Qed.
Lemma apply_all_lockstep ops : ∀ o, lockstep o → lockstep (foldl apply_diff o ops).
Proof. induction ops; simpl; auto using apply_diff_lockstep. Qed.

Lemma foldl_effect_const (P : DiffOp → Prop) (Q : option V → Prop) v ops : (∀ op ov, P op → Q ov → effect ov op = v) → Q v →
  Forall P ops → ∀ ov, ops ≠ [] ∧ Q ov ∨ ov = v → foldl effect ov ops = v.
Proof.
  intros He Hv. induction 1 as [|op ops Hop _ IH]; intros ov Hov; simpl; [by destruct Hov as [[? _]|?]|]. apply IH. right. apply He; [done|]. by destruct Hov as [[_ ?]| ->].
Qed.
(** Moves keep a value and an update sets it. *)
Lemma foldl_effect_update v0 v ops : (v0 ≠ v → ∃ k, DUpdate k v ∈ ops) →
  Forall (λ op, match op with DMove _ _ => True | DUpdate _ v' => v' = v | _ => False end) ops → foldl effect (Some v0) ops = Some v.
Proof.
  intros Hu Hf. revert v0 Hu. induction Hf as [|op ops Hop Hf IH]; intros v0 Hu; simpl.
  - f_equal. destruct (decide (v0 = v)) as [|Hne]; [done|]. destruct (Hu Hne) as [k Hk]. by apply not_elem_of_nil in Hk.
  - destruct op as [k v' i|k|k i|k v']; try done; simpl.
    + apply IH. intros Hne. destruct (Hu Hne) as [k' [E|Hk]%elem_of_cons]; [done|by exists k'].
    + subst v'. by apply IH.
Qed.
Lemma foldl_effect_keep ov ops : Forall (λ op, effect ov op = ov) ops → foldl effect ov ops = ov.
Proof. induction 1 as [|op ops Hop _ IH]; simpl; [done|]. by rewrite Hop. Qed.

(** *** What the operations are about *)

Lemma old_pos_spec old k : (∃ i, old_pos old !! k = Some i) ↔ k ∈ old.*1.
Proof.
  unfold old_pos. assert (Hg : ∀ l (m : gmap K nat) n, (∃ i, foldl (λ m '(i, k), <[k := i]> m) m (imap (λ i e, (n + i, e.1)) l) !! k = Some i) ↔ (∃ i, m !! k = Some i) ∨ k ∈ (l : list (K * V)).*1).
  { clear. induction l as [|[k' v] l IH]; intros m n; simpl; [split; [by left|by intros [?|?%not_elem_of_nil]]|].
    rewrite (imap_ext _ (λ i e, (S n + i, e.1))) by (intros; simpl; f_equal; lia). rewrite IH, elem_of_cons.
    destruct (decide (k' = k)) as [->|Hne]; [rewrite lookup_insert_eq; naive_solver|rewrite lookup_insert_ne by done; naive_solver]. }
  rewrite (Hg old ∅ 0). rewrite lookup_empty. naive_solver.
Qed.
Lemma old_val_spec old k : NoDup old.*1 → old_val old !! k = (list_to_map old : gmap K V) !! k.
Proof.
  intros Hnd. unfold old_val. assert (Hg : ∀ l (m : gmap K V), NoDup l.*1 → foldl (λ m e, <[e.1 := e.2]> m) m l !! k = match (list_to_map l : gmap K V) !! k with Some v => Some v | None => m !! k end).
  { clear. induction l as [|[k' v] l IH]; intros m Hnd; simpl; [by rewrite lookup_empty|]. apply NoDup_cons in Hnd as [Hn Hnd]. rewrite IH by done. simpl.
    destruct (decide (k' = k)) as [->|Hne]; [|by rewrite !lookup_insert_ne].
    rewrite !lookup_insert_eq. by rewrite not_elem_of_list_to_map_1. }
  rewrite (Hg old ∅ Hnd), lookup_empty. by destruct (_ !! k).
Qed.

(** The operations of a difference, by the key they are about. *)
Definition about (old new : list (K * V)) (k : K) (op : DiffOp) : Prop :=
  match op with
  | DRemove _ => k ∈ old.*1 ∧ k ∉ new.*1
  | DInsert _ v _ => k ∉ old.*1 ∧ (k, v) ∈ new
  | DMove _ _ => k ∈ old.*1 ∧ k ∈ new.*1
  | DUpdate _ v => (k, v) ∈ new ∧ ∃ v0, (k, v0) ∈ old ∧ v0 ≠ v
  end.
Lemma ops_about old new k op : NoDup old.*1 → NoDup new.*1 → op ∈ reconcile old new → op_key op = k → about old new k op.
Proof.
  intros Ho Hn Hin <-. unfold reconcile in Hin. rewrite !elem_of_app in Hin. destruct Hin as [Hin|[Hin|Hin]].
  - apply list_elem_of_omap in Hin as ([k' v] & Hin & E). simpl in E. case_bool_decide as Eb; [done|]. injection E as <-. simpl. split; [|done].
    apply list_elem_of_fmap. by exists (k', v).
  - apply list_elem_of_omap in Hin as (o & Hin & Eo). simpl in Eo. subst o. apply elem_of_lookup_imap in Hin as (i & [k' v] & E & Hin). unfold place in E. simpl in E.
    pose proof (old_pos_spec old k') as Hp. pose proof (list_elem_of_lookup_2 _ _ _ Hin) as Hin'.
    destruct (old_pos old !! k') as [j|]; [case_bool_decide; [done|]|]; injection E as E; subst op; simpl.
    + split; [apply Hp; eauto|]. apply list_elem_of_fmap. by exists (k', v).
    + split; [|done]. rewrite <- Hp. by intros [? ?].
  - apply list_elem_of_omap in Hin as ([k' v] & Hin & E). simpl in E. rewrite old_val_spec in E by done.
    destruct (list_to_map old !! k') as [v0|] eqn:El; [|done]. case_bool_decide as Eb; [done|]. injection E as <-. simpl. split; [done|].
    exists v0. split; [|done]. by apply elem_of_list_to_map in El.
Qed.

Lemma op_there old new op k : op ∈ reconcile old new → op_key op = k → filter (λ op, op_key op = k) (reconcile old new) ≠ [].
Proof. intros Hin Hk E. assert (Hf : op ∈ filter (λ op, op_key op = k) (reconcile old new)) by (by apply list_elem_of_filter). rewrite E in Hf. by apply not_elem_of_nil in Hf. Qed.

Lemma unique_value (l : list (K * V)) k v v' : NoDup l.*1 → (k, v) ∈ l → (k, v') ∈ l → v = v'.
Proof. intros Hnd H1 H2. apply (elem_of_list_to_map_1 (M := gmap K)) in H1, H2; [|done|done]. congruence. Qed.

(** Applied to the old sequence the difference leaves the new values under the
    new keys. *)
Lemma reconcile_entries (o : KeyedOrder K V) old new : NoDup old.*1 → NoDup new.*1 → entries_ o = list_to_map old →
  entries_ (foldl apply_diff o (reconcile old new)) = list_to_map new.
Proof.
  intros Ho Hn Ee. apply map_eq. intros k. rewrite apply_all_entries, Ee.
  assert (Hall : ∀ op, op ∈ filter (λ op, op_key op = k) (reconcile old new) → op ∈ reconcile old new ∧ op_key op = k) by (intros op; rewrite list_elem_of_filter; tauto).
  assert (Hkey : ∀ (l : list (K * V)) v, (k, v) ∈ l → k ∈ l.*1) by (intros l v Hv; apply list_elem_of_fmap; by exists (k, v)).
  assert (Habout : ∀ op, op ∈ filter (λ op, op_key op = k) (reconcile old new) → about old new k op) by (intros op [Hop Hk]%Hall; by apply ops_about).
  destruct (list_to_map new !! k) as [v|] eqn:En.
  - apply elem_of_list_to_map in En; [|done]. destruct ((list_to_map old : gmap K V) !! k) as [v0|] eqn:El.
    + apply elem_of_list_to_map in El; [|done]. apply foldl_effect_update; [intros Hne|].
      * exists k. apply list_elem_of_filter. split; [done|]. unfold reconcile. rewrite !elem_of_app. right. right. apply list_elem_of_omap. exists (k, v). split; [done|].
        simpl. rewrite old_val_spec by done. erewrite elem_of_list_to_map_1 by done. by rewrite bool_decide_false.
      * apply Forall_forall. intros op Hop. specialize (Habout op Hop). destruct op; simpl in Habout |- *; [naive_solver..|].
        destruct Habout as [Hv _]. by apply (unique_value new k).
    + apply not_elem_of_list_to_map in El. destruct (list_elem_of_lookup_1 _ _ En) as [i Ei].
      apply (foldl_effect_const (λ op, ∃ i, op = DInsert k v i) (λ ov, default v ov = v)); [intros op ov [? ->] Hq; simpl; by rewrite Hq|done| |left; split; [|done]].
      * apply Forall_forall. intros op Hop. specialize (Habout op Hop). destruct op as [k' v' j|k'|k' j|k' v']; simpl in Habout; [|by destruct Habout as [? _]|by destruct Habout as [? _]|by destruct Habout as (_ & v1 & Hv1%Hkey & _)].
        destruct (Hall _ Hop) as [_ Hk]. simpl in Hk. subst k'. exists j. f_equal. apply (unique_value new k); [done|by destruct Habout|done].
      * apply (op_there _ _ (DInsert k v i)); [|done]. unfold reconcile. rewrite !elem_of_app. right. left. apply list_elem_of_omap.
        exists (Some (DInsert k v i)). split; [|done]. apply elem_of_lookup_imap. exists i, (k, v). split; [|done]. unfold place. simpl.
        pose proof (old_pos_spec old k) as Hp. destruct (old_pos old !! k) as [j|]; [|done]. by destruct El; apply Hp; eauto.
  - apply not_elem_of_list_to_map in En. destruct ((list_to_map old : gmap K V) !! k) as [v0|] eqn:El.
    + apply elem_of_list_to_map in El; [|done]. apply (foldl_effect_const (λ op, op = DRemove k) (λ _, True)); [by intros op ov -> _|done| |left; split; [|done]].
      * apply Forall_forall. intros op Hop. specialize (Habout op Hop). destruct (Hall _ Hop) as [_ Hk]. destruct op; simpl in Habout, Hk; naive_solver.
      * apply (op_there _ _ (DRemove k)); [|done]. unfold reconcile. rewrite !elem_of_app. left. apply list_elem_of_omap. exists (k, v0). split; [done|].
        simpl. by rewrite bool_decide_false.
    + apply not_elem_of_list_to_map in El. apply foldl_effect_keep, Forall_forall. intros op Hop. specialize (Habout op Hop).
      destruct op; simpl in Habout; naive_solver.
Qed.
(** *** The order, where the common keys keep theirs *)

Lemma old_pos_at old i k : NoDup old.*1 → old.*1 !! i = Some k → old_pos old !! k = Some i.
Proof.
  unfold old_pos. assert (Hg : ∀ (l : list (K * V)) (m : gmap K nat) n, NoDup l.*1 →
    (∀ j k, l.*1 !! j = Some k → foldl (λ m '(i, k), <[k := i]> m) m (imap (λ i e, (n + i, e.1)) l) !! k = Some (n + j)) ∧
    (∀ k, k ∉ l.*1 → foldl (λ m '(i, k), <[k := i]> m) m (imap (λ i e, (n + i, e.1)) l) !! k = m !! k)).
  { clear. induction l as [|[k' v] l IH]; intros m n Hnd; simpl; [split; [intros j k; by rewrite lookup_nil|done]|]. apply NoDup_cons in Hnd as [Hn Hnd].
    rewrite (imap_ext _ (λ i e, (S n + i, e.1))) by (intros; simpl; f_equal; lia). destruct (IH (<[k' := n + 0]> m) (S n) Hnd) as [I1 I2]. split.
    - intros [|j] k Hj; simpl in Hj; [injection Hj as <-; rewrite I2 by done; by rewrite lookup_insert_eq|]. rewrite (I1 j k Hj). f_equal. lia.
    - intros k [Hne Hk]%not_elem_of_cons. rewrite I2 by done. by rewrite lookup_insert_ne. }
  intros Hnd Hi. by apply (Hg old ∅ 0 Hnd).
Qed.

Lemma positions_sorted (pos : K → option nat) (P : K → Prop) `{!∀ k, Decision (P k)} l : ∀ n, (∀ j k, l !! j = Some k → pos k = Some (n + j)) →
  StronglySorted lt (omap pos (filter P l)) ∧ Forall (λ i, n ≤ i) (omap pos (filter P l)).
Proof.
  induction l as [|k l IH]; intros n Hp; [split; constructor|]. rewrite filter_cons.
  destruct (IH (S n)) as [I1 I2]; [intros j k' Hj; rewrite (Hp (S j)) by done; f_equal; lia|].
  assert (I3 : Forall (λ i, n ≤ i) (omap pos (filter P l))) by (eapply Forall_impl; [exact I2|simpl; lia]).
  case_decide; [|done]. simpl. rewrite (Hp 0 k eq_refl). split; constructor; [done|eapply Forall_impl; [exact I2|simpl; lia]|lia|done].
Qed.

Lemma common_positions old new : (common old new).*2 = omap (λ k, old_pos old !! k) (filter (λ k, k ∈ old.*1) new.*1).
Proof.
  unfold common. assert (Hg : ∀ n l, (omap id (imap (λ i (e : K * V), (n + i,.) <$> old_pos old !! e.1) l)).*2 =
    omap (λ k, old_pos old !! k) (filter (λ k, k ∈ old.*1) l.*1)); [|apply (Hg 0)].
  intros n l. revert n. induction l as [|[k v] l IH]; intros n; simpl; [done|]. rewrite filter_cons.
  rewrite (imap_ext _ (λ i e, (S n + i,.) <$> old_pos old !! e.1)) by (intros; simpl; by rewrite Nat.add_succ_r).
  pose proof (old_pos_spec old k) as Hp. specialize (IH (S n)). case_decide as Hk; simpl in IH |- *.
  - apply Hp in Hk as [i ->]. simpl. by f_equal.
  - destruct (old_pos old !! k); [by destruct Hk; apply Hp; eauto|]. simpl. apply IH.
Qed.

(** An increasing sequence is its own longest increasing subsequence. *)
Lemma lis_of_sorted sq j : StronglySorted lt sq → j < length sq → j ∈ longest_increasing_subsequence sq.
Proof.
  intros Hs Hj. destruct (lis_is_longest sq) as [[L1 L2] L3].
  assert (Hi : increasing sq (seq 0 (length sq))).
  { split; [|apply Forall_forall; intros i; rewrite elem_of_seq; lia].
    assert (Hg : ∀ l n, (∀ i, i < length l → val sq (n + i) = default 0 (l !! i)) → StronglySorted lt l → StronglySorted (above sq) (seq n (length l))).
    { induction l as [|x l IH]; intros n Hv Hl; simpl; constructor; inversion Hl as [|? ? Hl' Hx]; subst.
      - apply IH; [|done]. intros i Hi. specialize (Hv (S i) ltac:(simpl; lia)). simpl in Hv. rewrite <- Hv. f_equal. lia.
      - apply Forall_forall. intros i Hi%elem_of_seq. split; [lia|]. pose proof (Hv 0 ltac:(simpl; lia)) as E. rewrite Nat.add_0_r in E. rewrite E. simpl.
        replace i with (n + S (i - S n)) by lia. rewrite Hv by (simpl; lia). simpl.
        destruct (lookup_lt_is_Some_2 l (i - S n)) as [y Ey]; [lia|]. rewrite Ey. simpl. by eapply (Forall_lookup_1 (lt x)). }
    by apply Hg. }
  specialize (L3 _ Hi). rewrite length_seq in L3.
  assert (Hnd : NoDup (longest_increasing_subsequence sq)).
  { revert L1. generalize (longest_increasing_subsequence sq) as l. clear. induction 1 as [|x l Hl IH Hx]; constructor; [|done].
    intros Hin. rewrite Forall_forall in Hx. destruct (Hx x Hin) as [? _]. lia. }
  assert (Hsub : longest_increasing_subsequence sq ⊆+ seq 0 (length sq)).
  { apply NoDup_submseteq; [done|]. intros x Hx. rewrite Forall_forall in L2. apply elem_of_seq. specialize (L2 x Hx). lia. }
  apply submseteq_length_Permutation in Hsub; [|rewrite length_seq; lia]. rewrite Hsub. apply elem_of_seq. lia.
Qed.

(** The common keys come in the same order in both sequences. *)
Definition same_order (old new : list (K * V)) : Prop := filter (λ k, k ∈ old.*1) new.*1 = filter (λ k, k ∈ new.*1) old.*1.

Lemma all_stable old new i e p : NoDup old.*1 → same_order old new → new !! i = Some e → old_pos old !! e.1 = Some p → i ∈ stable old new.
Proof.
  intros Hnd Hso Hi Hp. assert (Hc : (i, p) ∈ common old new).
  { unfold common. apply list_elem_of_omap. exists (Some (i, p)). split; [|done]. apply elem_of_lookup_imap. exists i, e. by rewrite Hp. }
  apply list_elem_of_lookup_1 in Hc as [j Ej]. unfold stable. apply list_elem_of_fmap. exists j. rewrite list_lookup_fmap, Ej. split; [done|].
  apply lis_of_sorted; [|rewrite length_fmap; by eapply lookup_lt_Some]. rewrite common_positions, Hso.
  apply (positions_sorted _ _ _ 0). intros j' k Hk. by apply old_pos_at.
Qed.

(** *** From one order to the other *)

Lemma lockstep_same (o : KeyedOrder K V) ks : lockstep o → order_ o = ks → NoDup ks ∧ ∀ k, k ∈ ks ↔ is_Some (entries_ o !! k).
Proof. by intros [H1 H2] <-. Qed.

Lemma removes_order ks : ∀ (o : KeyedOrder K V), lockstep o → order_ (foldl apply_diff o (DRemove <$> ks)) = filter (λ k, k ∉ ks) (order_ o).
Proof.
  induction ks as [|k ks IH]; intros o Hl; simpl; [symmetry; apply list_filter_id; by intros k _ ?%not_elem_of_nil|].
  rewrite IH by (by apply remove_lockstep). unfold remove. destruct (entries_ o !! k) as [v|] eqn:Ek; simpl.
  - rewrite list_filter_filter. apply list_filter_iff. intros k'. rewrite not_elem_of_cons. tauto.
  - apply list_filter_iff'. intros k' Hk. rewrite not_elem_of_cons. split; [|tauto]. intros Hn. split; [|done]. intros ->.
    apply Hl in Hk. rewrite Ek in Hk. by destruct Hk.
Qed.

Lemma updates_order ops : ∀ (o : KeyedOrder K V), lockstep o → Forall (λ op, ∃ k v, op = DUpdate k v ∧ k ∈ order_ o) ops →
  order_ (foldl apply_diff o ops) = order_ o.
Proof.
  induction ops as [|op ops IH]; intros o Hl Hops; simpl; [done|]. inversion Hops as [|? ? (k & v & -> & Hk) Hops']; subst.
  assert (E : order_ (apply_diff o (DUpdate k v)) = order_ o).
  { simpl. unfold set_value. apply Hl in Hk as [v0 Hk]. by rewrite Hk. }
  rewrite IH, E; [done|by apply apply_diff_lockstep|by rewrite E].
Qed.

(** The insertions put every new key where it comes, the keys before it being
    placed already. *)
Definition insertions (old : list (K * V)) (n : nat) (todo : list (K * V)) : list DiffOp :=
  omap id (imap (λ i (e : K * V), if bool_decide (e.1 ∈ old.*1) then None else Some (DInsert e.1 e.2 (n + i))) todo).
Lemma insertions_order old todo : ∀ placed (o : KeyedOrder K V), lockstep o → NoDup (placed ++ todo.*1) →
  order_ o = placed ++ filter (λ k, k ∈ old.*1) todo.*1 → order_ (foldl apply_diff o (insertions old (length placed) todo)) = placed ++ todo.*1.
Proof.
  unfold insertions. induction todo as [|[k v] todo IH]; intros placed o Hl Hnd Ho; simpl; [done|].
  rewrite (imap_ext _ (λ i e, if bool_decide (e.1 ∈ old.*1) then None else Some (DInsert e.1 e.2 (length (placed ++ [k]) + i))))
    by (intros; by rewrite length_app, <- Nat.add_assoc).
  specialize (IH (placed ++ [k])). rewrite <- !app_assoc in IH. simpl in Hnd, Ho, IH. rewrite filter_cons in Ho. case_bool_decide as Hk.
  - rewrite decide_True in Ho by done. by apply IH.
  - rewrite decide_False in Ho by done. simpl. rewrite Nat.add_0_r. apply IH; [by apply move_to_lockstep, insert_lockstep|done|].
    assert (Hn : entries_ o !! k = None).
    { apply eq_None_not_Some. intros Hs. apply Hl in Hs. rewrite Ho, elem_of_app, list_elem_of_filter in Hs.
      apply NoDup_app in Hnd as (_ & Hd & Hnd). destruct Hs as [Hs|[? _]]; [|done]. apply (Hd k Hs). by left. }
    assert (Hno : k ∉ order_ o) by (intros Hs; apply Hl in Hs; rewrite Hn in Hs; by destruct Hs).
    rewrite (move_to_at _ k placed (filter (λ k, k ∈ old.*1) todo.*1)); [done|by apply insert_lockstep| |].
    + unfold KeyedOrder.insert. rewrite Hn. simpl. rewrite lookup_insert_eq. by eexists.
    + unfold KeyedOrder.insert. rewrite Hn. simpl. rewrite filter_app, filter_cons, decide_False by tauto. rewrite filter_nil, app_nil_r.
      rewrite list_filter_id; [done|]. intros k' Hk' ->. done.
Qed.

Lemma insertions_placed old new : NoDup old.*1 → same_order old new → omap id (imap (place old (stable old new)) new) = insertions old 0 new.
Proof.
  intros Hnd Hso. unfold insertions. f_equal. apply imap_ext. intros i e Hi. unfold place. pose proof (old_pos_spec old e.1) as Hp.
  destruct (old_pos old !! e.1) as [p|] eqn:Ep.
  - rewrite !bool_decide_true; [done|apply Hp; eauto|by eapply all_stable].
  - rewrite bool_decide_false; [done|]. intros Hk%Hp. by destruct Hk.
Qed.

Lemma removes_listed old (new : list (K * V)) : omap (λ e : K * V, if bool_decide (e.1 ∈ new.*1) then None else Some (DRemove e.1)) old =
  DRemove <$> filter (λ k, k ∉ new.*1) old.*1.
Proof.
  induction old as [|[k v] old IH]; simpl; [done|]. rewrite filter_cons. case_bool_decide; case_decide; try done; simpl. by f_equal.
Qed.

Lemma reconcile_order (o : KeyedOrder K V) old new : lockstep o → entries_ o = list_to_map old → order_ o = old.*1 → NoDup new.*1 → same_order old new →
  order_ (foldl apply_diff o (reconcile old new)) = new.*1.
Proof.
  intros Hl He Ho Hn Hso. assert (Hnd : NoDup old.*1) by (rewrite <- Ho; apply Hl). unfold reconcile. rewrite !foldl_app, removes_listed, insertions_placed by done.
  set (o1 := foldl apply_diff o _). assert (L1 : lockstep o1) by (by apply apply_all_lockstep).
  assert (E1 : order_ o1 = filter (λ k, k ∈ old.*1) new.*1).
  { unfold o1. rewrite removes_order by done. rewrite Hso, Ho. apply list_filter_iff'. intros k Hk. rewrite list_elem_of_filter.
    destruct (decide (k ∈ new.*1)); tauto. }
  assert (E2 : order_ (foldl apply_diff o1 (insertions old 0 new)) = new.*1) by (apply (insertions_order old new [] o1); [done|done|by rewrite E1]).
  rewrite updates_order; [done|by apply apply_all_lockstep|]. apply Forall_forall. intros op Hop. apply list_elem_of_omap in Hop as ([k v] & Hin & E). simpl in E.
  destruct (old_val old !! k); [|done]. case_bool_decide; [done|]. injection E as <-. exists k, v. split; [done|]. rewrite E2. apply list_elem_of_fmap. by exists (k, v).
Qed.

Lemma contents_spec (o : KeyedOrder K V) : lockstep o → (contents o).*1 = order_ o ∧ list_to_map (contents o) = entries_ o.
Proof.
  intros [Hnd Hin]. assert (E : (contents o).*1 = order_ o).
  { unfold contents. assert (Hg : Forall (λ k, is_Some (entries_ o !! k)) (order_ o)) by (apply Forall_forall; by intros k Hk%Hin). clear Hnd Hin.
    induction Hg as [|k l [v Hv] _ IH]; simpl; [done|]. rewrite Hv. simpl. by f_equal. }
  split; [done|]. apply map_eq. intros k. destruct (entries_ o !! k) as [v|] eqn:Ek.
  - apply elem_of_list_to_map_1; [by rewrite E|]. apply list_elem_of_omap. exists k. rewrite Ek. split; [|done]. apply Hin. rewrite Ek. by eexists.
  - apply not_elem_of_list_to_map_1. rewrite E. intros Hk%Hin. rewrite Ek in Hk. by destruct Hk.
Qed.
Lemma contents_of (o : KeyedOrder K V) new : NoDup new.*1 → entries_ o = list_to_map new → order_ o = new.*1 → contents o = new.
Proof.
  intros Hn He Ho. unfold contents. rewrite He, Ho. clear He Ho.
  assert (Hg : ∀ l, l ⊆ new → omap (λ k, (k,.) <$> (list_to_map new : gmap K V) !! k) l.*1 = l); [|by apply Hg].
  induction l as [|[k v] l IH]; intros Hl; simpl; [done|]. rewrite (elem_of_list_to_map_1 new k v); [|done|apply Hl; by left]. simpl. f_equal.
  apply IH. intros e He. apply Hl. by right.
Qed.

Definition reconcile_map (o : KeyedOrder K V) (new : list (K * V)) : KeyedOrder K V := foldl apply_diff o (reconcile (contents o) new).
End reconcile.
Arguments DiffOp : clear implicits.

(** *** Where they do not *)

(** Moves and insertions name final positions, but are applied while keys that
    are still to be moved away stand before them: a new key next to a moved one
    ends in the wrong place, and so does a moved key before another. *)
Definition order_of (l : list (nat * nat)) : KeyedOrder nat nat := mkKeyedOrder (list_to_map l) l.*1.
Lemma insert_lands_early :
  (contents (reconcile_map (order_of [(3, 0); (1, 0); (2, 0)]) [(1, 0); (9, 0); (2, 0); (3, 0)])).*1 = [9; 1; 2; 3].
Proof. by vm_compute. Qed.
Lemma move_lands_early :
  (contents (reconcile_map (order_of [(7, 0); (1, 0); (2, 0); (8, 0); (3, 0)]) [(1, 0); (8, 0); (2, 0); (3, 0); (7, 0)])).*1 = [8; 1; 2; 3; 7].
Proof. by vm_compute. Qed.
