(* ===== verification/Family.v ===== *)
(** * Family: keyed reactive collections

    Models include/lazily/reactive_family.hpp and the application of a
    difference in include/lazily/collections.hpp: a keyed order of handles
    next to two signals, which say when the key set and the order change.

    A map is generic in its handles: [MapHandleTraits] is the class of that
    name.  The closures a map materializes ignore their context, so a closure
    stands as its value. *)
From S2P Require Import Prelude KeyedOrder Kernel KernelWalk KernelCorrect KernelClear Reactive Reconcile.

(** What the nodes of a map hold. *)
Inductive FamilyValue (V : Type) := Entry (v : V) | Version (n : Z).
Arguments Entry {_} _.
Arguments Version {_} _.

(* include/lazily/reactive_family.hpp:69-75, EntryKind *)
Inductive EntryKind := KSource | KComputed.

(* include/lazily/reactive_family.hpp:81-81, MapHandleTraits *)
Class MapHandleTraits (C H V : Type) := {
  kind : EntryKind;
  materialize : V → C → option (H * C);
  observe : H → C → option (V * C);
  clear_dependents : H → C → option C }.

(** The context can drop what it caches below a source. *)
Class ClearContext (C H : Type) := ctx_clear : H → C → option C.

(* include/lazily/reactive_family.hpp:83-95, MapHandleTraits<Source<V>> *)
#[export] Instance source_handles {C H V} `{SourceContext C H (FamilyValue V)} `{ClearContext C H} : MapHandleTraits C H V := {
  kind := KSource;
  materialize v c := ctx_source (Entry v) c;
  observe h c := match ctx_get h c with Some (Entry v) => Some (v, c) | _ => None end;
  clear_dependents h c := ctx_clear h c }.

Section map.
  Context {C Hs H K V : Type} `{SourceContext C Hs (FamilyValue V)} `{MapHandleTraits C H V} `{Countable K}.

(* include/lazily/reactive_family.hpp:111-123, ReactiveMapInner *)
Record ReactiveMap := mkMap { keyed : KeyedOrder K H; membership : Hs; version : Z; order_signal : Hs; order_version : Z }.

(* include/lazily/reactive_family.hpp:139-144, ReactiveMap::ReactiveMap *)
Definition map_new (c : C) : option (ReactiveMap * C) :=
  '(member, c) ← ctx_source (Version 0) c;
  '(order, c) ← ctx_source (Version 0) c; Some (mkMap empty_order member 0 order 0, c).

Definition set_keyed (o : KeyedOrder K H) (m : ReactiveMap) : ReactiveMap := mkMap o (membership m) (version m) (order_signal m) (order_version m).

(* include/lazily/reactive_family.hpp:270-273, ReactiveMap::bump_order *)
Definition bump_order (m : ReactiveMap) (c : C) : option (ReactiveMap * C) :=
  let v := u64 (order_version m + 1) in
  c ← ctx_set (order_signal m) (Version v) c; Some (mkMap (keyed m) (membership m) (version m) (order_signal m) v, c).
(* include/lazily/reactive_family.hpp:277-281, ReactiveMap::bump_membership *)
Definition bump_membership (m : ReactiveMap) (c : C) : option (ReactiveMap * C) :=
  let v := u64 (version m + 1) in
  c ← ctx_set (membership m) (Version v) c; bump_order (mkMap (keyed m) (membership m) v (order_signal m) (order_version m)) c.

(* include/lazily/reactive_family.hpp:253-259, ReactiveMap::mint_with *)
Definition mint_with (m : ReactiveMap) (k : K) (v : V) (c : C) : option (H * ReactiveMap * C) :=
  match KeyedOrder.get (keyed m) k with
  | Some warm => Some (warm, m, c)
  | None =>
      '(h, c) ← materialize v c;
      let '((stored, mutation), o) := KeyedOrder.insert (keyed m) k h in
      let m := set_keyed o m in
      '(m, c) ← (if mutation_changed mutation then bump_membership m c else Some (m, c)); Some (stored, m, c)
  end.
(* include/lazily/reactive_family.hpp:152-157, ReactiveMap::get_or_insert_with *)
Definition get_or_insert_with (m : ReactiveMap) (k : K) (factory : K → V) (c : C) : option (V * ReactiveMap * C) :=
  match KeyedOrder.get (keyed m) k with
  | Some warm => '(v, c) ← observe warm c; Some (v, m, c)
  | None => '(h, m, c) ← mint_with m k (factory k) c; '(v, c) ← observe h c; Some (v, m, c)
  end.

(* include/lazily/reactive_family.hpp:160-160, ReactiveMap::handle *)
Definition map_handle (m : ReactiveMap) (k : K) : option H := KeyedOrder.get (keyed m) k.
(* include/lazily/reactive_family.hpp:163-167, ReactiveMap::get *)
Definition map_get (m : ReactiveMap) (k : K) (c : C) : option (option V * C) :=
  match KeyedOrder.get (keyed m) k with
  | None => Some (None, c)
  | Some h => '(v, c) ← observe h c; Some (Some v, c)
  end.
(* include/lazily/reactive_family.hpp:171-177, ReactiveMap::remove *)
Definition map_remove (m : ReactiveMap) (k : K) (c : C) : option (bool * ReactiveMap * C) :=
  let '((h, mutation), o) := KeyedOrder.remove (keyed m) k in
  let m := set_keyed o m in
  if mutation_changed mutation
  then h ← h; c ← clear_dependents h c; '(m, c) ← bump_membership m c; Some (true, m, c)
  else Some (false, m, c).
(* include/lazily/reactive_family.hpp:182-185, ReactiveMap::keys *)
Definition map_keys (m : ReactiveMap) (c : C) : option (list K) := _ ← ctx_get (order_signal m) c; Some (KeyedOrder.keys (keyed m)).
(* include/lazily/reactive_family.hpp:189-189, ReactiveMap::present_keys *)
Definition present_keys (m : ReactiveMap) : list K := KeyedOrder.keys (keyed m).
(* include/lazily/reactive_family.hpp:192-192, ReactiveMap::present_count *)
Definition present_count (m : ReactiveMap) : nat := KeyedOrder.len (keyed m).
(* include/lazily/reactive_family.hpp:196-196, ReactiveMap::is_present *)
Definition is_present (m : ReactiveMap) (k : K) : bool := KeyedOrder.contains (keyed m) k.
(* include/lazily/reactive_family.hpp:200-200, ReactiveMap::position *)
Definition map_position (m : ReactiveMap) (k : K) : option nat := KeyedOrder.position (keyed m) k.

(* include/lazily/reactive_family.hpp:263-267, ReactiveMap::apply_move *)
Definition apply_move (moved : MapMove * KeyedOrder K H) (m : ReactiveMap) (c : C) : option (bool * ReactiveMap * C) :=
  let m := set_keyed moved.2 m in
  if negb (move_applied moved.1) then Some (false, m, c)
  else '(m, c) ← (if move_changed moved.1 then bump_order m c else Some (m, c)); Some (true, m, c).
(* include/lazily/reactive_family.hpp:205-207, ReactiveMap::move_to *)
Definition map_move_to (m : ReactiveMap) (k : K) (i : nat) (c : C) := apply_move (move_to (keyed m) k i) m c.
(* include/lazily/reactive_family.hpp:210-212, ReactiveMap::move_before *)
Definition map_move_before (m : ReactiveMap) (k a : K) (c : C) := apply_move (move_before (keyed m) k a) m c.
(* include/lazily/reactive_family.hpp:215-217, ReactiveMap::move_after *)
Definition map_move_after (m : ReactiveMap) (k a : K) (c : C) := apply_move (move_after (keyed m) k a) m c.

(* include/lazily/reactive_family.hpp:220-223, ReactiveMap::len *)
Definition map_len (m : ReactiveMap) (c : C) : option nat := _ ← ctx_get (membership m) c; Some (KeyedOrder.len (keyed m)).
(* include/lazily/reactive_family.hpp:226-226, ReactiveMap::is_empty *)
Definition map_is_empty (m : ReactiveMap) (c : C) : option bool := n ← map_len m c; Some (n =? 0).
(* include/lazily/reactive_family.hpp:230-233, ReactiveMap::contains_key *)
Definition contains_key (m : ReactiveMap) (k : K) (c : C) : option bool := _ ← ctx_get (membership m) c; Some (KeyedOrder.contains (keyed m) k).
(* include/lazily/reactive_family.hpp:236-236, ReactiveMap::len_untracked *)
Definition len_untracked (m : ReactiveMap) : nat := KeyedOrder.len (keyed m).
(* include/lazily/reactive_family.hpp:240-240, ReactiveMap::entry_kind *)
Definition entry_kind (m : ReactiveMap) : EntryKind := kind (C:=C) (H:=H) (V:=V).

(* include/lazily/reactive_family.hpp:375-378, ComputedMap::materialize_all *)
Fixpoint materialize_all (keys : list K) (factory : K → V) (m : ReactiveMap) (c : C) : option (ReactiveMap * C) :=
  match keys with
  | [] => Some (m, c)
  | k :: keys => '(_, m, c) ← get_or_insert_with m k factory c; materialize_all keys factory m c
  end.
End map.
Arguments ReactiveMap : clear implicits.
Arguments ReactiveMap Hs H K {_ _}.

(** ** Maps of sources *)
Section source_map.
  Context {C H K V : Type} `{SourceContext C H (FamilyValue V)} `{ClearContext C H} `{Countable K} `{EqDecision V}.
Notation SourceMap := (ReactiveMap H H K).

(* include/lazily/reactive_family.hpp:296-301, SourceMap::entry_with *)
Definition entry_with (m : SourceMap) (k : K) (default_fn : unit → V) (c : C) : option (H * SourceMap * C) :=
  match map_handle m k with Some h => Some (h, m, c) | None => mint_with m k (default_fn tt) c end.
(* include/lazily/reactive_family.hpp:305-307, SourceMap::entry *)
Definition entry (m : SourceMap) (k : K) (v : V) (c : C) : option (H * SourceMap * C) := entry_with m k (λ _, v) c.
(* include/lazily/reactive_family.hpp:311-318, SourceMap::set *)
Definition map_set (m : SourceMap) (k : K) (v : V) (c : C) : option (SourceMap * C) :=
  match map_handle m k with
  | Some h => c ← ctx_set h (Entry v) c; Some (m, c)
  | None => '(_, m, c) ← entry_with m k (λ _, v) c; Some (m, c)
  end.

(* include/lazily/collections.hpp:233-244, apply_to_map (one operation) *)
Definition apply_to_map1 (op : DiffOp K V) (m : SourceMap) (c : C) : option (SourceMap * C) :=
  match op with
  | DRemove k => '(_, m, c) ← map_remove m k c; Some (m, c)
  | DInsert k v i => '(_, m, c) ← entry m k v c; '(_, m, c) ← map_move_to m k i c; Some (m, c)
  | DMove k i => '(_, m, c) ← map_move_to m k i c; Some (m, c)
  | DUpdate k v => map_set m k v c
  end.
(* include/lazily/collections.hpp:229-248, apply_to_map *)
Fixpoint apply_to_map (ops : list (DiffOp K V)) (m : SourceMap) (c : C) : option (SourceMap * C) :=
  match ops with
  | [] => Some (m, c)
  | op :: ops => '(m, c) ← apply_to_map1 op m c; apply_to_map ops m c
  end.
(* include/lazily/collections.hpp:273-276, SourceMap::reconcile (old_seq) *)
Fixpoint old_seq (keys : list K) (m : SourceMap) (c : C) : option (list (K * V) * C) :=
  match keys with
  | [] => Some ([], c)
  | k :: keys =>
      '(v, c) ← map_get m k c; '(l, c) ← old_seq keys m c;
      Some (match v with Some v => (k, v) :: l | None => l end, c)
  end.
(* include/lazily/collections.hpp:271-280, SourceMap::reconcile *)
Definition map_reconcile (m : SourceMap) (new : list (K * V)) (c : C) : option (SourceMap * C) :=
  keys ← map_keys m c; '(old, c) ← old_seq keys m c; apply_to_map (reconcile old new) m c.
End source_map.

(** ** Moves *)
Section moves.
  Context {K A B : Type} `{Countable K}.
  Implicit Types (o : KeyedOrder K A) (p : KeyedOrder K B).

(** A move is an answer about the order and a new order, which the handles have
    no part in. *)
Definition same_move o p (r : MapMove * KeyedOrder K A) (q : MapMove * KeyedOrder K B) : Prop :=
  r.1 = q.1 ∧ order_ r.2 = order_ q.2 ∧ entries_ r.2 = entries_ o ∧ entries_ q.2 = entries_ p ∧
  lockstep q.2 ∧ move_changed q.1 = bool_decide (order_ q.2 ≠ order_ p).

Lemma move_to_changed p k i : lockstep p → move_changed (move_to p k i).1 = bool_decide (order_ (move_to p k i).2 ≠ order_ p).
Proof.
  intros Hl. destruct (entries_ p !! k) as [h|] eqn:Ek.
  2: { apply (position_None p k Hl) in Ek. unfold move_to. rewrite Ek. simpl. rewrite (bool_decide_false (order_ p ≠ _)); [done|]. intros Hne. by apply Hne. }
  destruct (order_split p k Hl) as (l1 & l2 & Ho & _ & _ & Hp & Hf); [by eexists|].
  assert (Hi : order_ p !! length l1 = Some k) by (rewrite Ho; by apply list_lookup_middle).
  pose proof (move_to_order p k i Hl ltac:(by eexists)) as E. simpl in E. rewrite Hf in E.
  assert (Hlen : length (order_ p) - 1 = length (l1 ++ l2)) by (rewrite Ho, !length_app; simpl; lia).
  assert (Hj : order_ (move_to p k i).2 !! Nat.min i (length (l1 ++ l2)) = Some k).
  { rewrite E. simpl. apply list_lookup_middle. rewrite length_take. lia. }
  revert Hj. unfold move_to. rewrite Hp, Hlen. destruct (Nat.eqb_spec (length l1) (Nat.min i (length (l1 ++ l2)))) as [Eq|Hne]; intros Hj; cbn [fst snd].
  - rewrite (bool_decide_false (order_ p ≠ _)); [done|]. intros Hne. by apply Hne.
  - rewrite (bool_decide_true (_ ≠ order_ p)); [done|]. intros Eo. cbn [snd] in Hj. rewrite Eo in Hj. apply Hne. eapply NoDup_lookup; [apply Hl|done|done].
Qed.

Lemma move_to_same o p k i : order_ o = order_ p → lockstep p → same_move o p (move_to o k i) (move_to p k i).
Proof.
  intros E Hl. assert (Hs : (move_to o k i).1 = (move_to p k i).1 ∧ order_ (move_to o k i).2 = order_ (move_to p k i).2).
  { unfold move_to, position, rotate_within. rewrite E. destruct (index_of k (order_ p)); [|done]. by case_match. }
  split_and!; [apply Hs|apply Hs|apply move_to_entries|apply move_to_entries|by apply move_to_lockstep|by apply move_to_changed].
Qed.
Lemma missing_same o p : order_ o = order_ p → lockstep p → same_move o p (Missing, o) (Missing, p).
Proof. intros E Hl. split_and!; try done. simpl. symmetry. apply bool_decide_false. intros Hne. by apply Hne. Qed.
Lemma move_before_same o p k a : order_ o = order_ p → lockstep p → same_move o p (move_before o k a) (move_before p k a).
Proof.
  intros E Hl. unfold move_before, position. rewrite E. destruct (index_of a (order_ p)), (index_of k (order_ p)); auto using missing_same, move_to_same.
Qed.
Lemma move_after_same o p k a : order_ o = order_ p → lockstep p → same_move o p (move_after o k a) (move_after p k a).
Proof.
  intros E Hl. unfold move_after, position. rewrite E. destruct (index_of a (order_ p)), (index_of k (order_ p)); auto using missing_same, move_to_same.
Qed.
End moves.

(** ** What a map relies on *)

(** The nodes of the entries, next to the signals. *)
Class MapHandleLaws (C Hs H V : Type) `{SourceContext C Hs (FamilyValue V)} `{MapHandleTraits C H V} := {
  entry_shows : C → H → V → Prop;
  keeps (c c' : C) : Prop := (∀ h v, entry_shows c h v → entry_shows c' h v) ∧ ∀ s n, holds c s (Version n) → holds c' s (Version n);
  materialize_ok c v : ctx_ok c → ∃ h c', materialize v c = Some (h, c') ∧ ctx_ok c' ∧ entry_shows c' h v ∧ keeps c c' ∧
    ∀ h' v', entry_shows c h' v' → h' ≠ h;
  observe_ok c h v : ctx_ok c → entry_shows c h v → ∃ c', observe h c = Some (v, c') ∧ ctx_ok c' ∧ keeps c c';
  clear_ok c h v : ctx_ok c → entry_shows c h v → ∃ c', clear_dependents h c = Some c' ∧ ctx_ok c' ∧ keeps c c';
  signal_ok c s n n0 : ctx_ok c → holds c s (Version n0) →
    ∃ c', ctx_set s (Version n) c = Some c' ∧ ctx_ok c' ∧ holds c' s (Version n) ∧
      (∀ s' n', s' ≠ s → holds c s' (Version n') → holds c' s' (Version n')) ∧ ∀ h v, entry_shows c h v → entry_shows c' h v }.

Class ClearContextLaws (C H T : Type) `{SourceContext C H T} `{ClearContext C H} : Prop :=
  ctx_clear_ok c h v : ctx_ok c → holds c h v → ∃ c', ctx_clear h c = Some c' ∧ ctx_ok c' ∧ ∀ h' v', holds c h' v' → holds c' h' v'.

#[export, refine] Instance source_handle_laws {C H V} `{SourceContextLaws C H (FamilyValue V)} `{CC : ClearContext C H} `{!ClearContextLaws C H (FamilyValue V)} :
  MapHandleLaws C H H V := { entry_shows c h v := holds c h (Entry v) }.
Proof.
  - intros c v Hc. destruct (ctx_source_ok c (Entry v) Hc) as (h & c' & E & Hc' & Hh & Ho). exists h, c'. split_and!; [done|done|done|intros * Hh'; by apply Ho..|].
    intros h' v' Hh'. by eapply Ho.
  - intros c h v Hc Hh. exists c. simpl. rewrite (ctx_get_ok c h _ Hh). by split_and!.
  - intros c h v Hc Hh. destruct (ctx_clear_ok c h _ Hc Hh) as (c' & E & Hc' & Hk). exists c'. split_and!; [done|done|intros *; apply Hk..].
  - intros c s n n0 Hc Hs. destruct (ctx_set_ok c s (Version n) _ Hc Hs) as (c' & E & Hc' & Hs' & Ho). exists c'. split_and!; [done|done|done|intros *; apply Ho|].
    intros h v Hh. apply Ho; [|done]. intros ->. apply ctx_get_ok in Hh, Hs. congruence.
Defined.

(** ** The map a client sees *)
Section correct.
  Context {C Hs H K V : Type} `{SL : SourceContextLaws C Hs (FamilyValue V)} `{MT : MapHandleTraits C H V} `{HL : !MapHandleLaws C Hs H V} `{CK : Countable K}.
  Implicit Types (m : ReactiveMap Hs H K) (o : KeyedOrder K V) (c : C).

(** The two orders agree, every entry shows its value in a node of its own, and
    the signals hold their counts. *)
Record shows_map m c o : Prop := {
  sm_ctx : ctx_ok c;
  sm_lock : lockstep o;
  sm_order : order_ (keyed m) = order_ o;
  sm_none : ∀ k, entries_ (keyed m) !! k = None ↔ entries_ o !! k = None;
  sm_entry : ∀ k h v, entries_ (keyed m) !! k = Some h → entries_ o !! k = Some v → entry_shows c h v;
  sm_own : ∀ k k' h, entries_ (keyed m) !! k = Some h → entries_ (keyed m) !! k' = Some h → k = k';
  sm_member : holds c (membership m) (Version (version m));
  sm_signal : holds c (order_signal m) (Version (order_version m));
  sm_apart : membership m ≠ order_signal m }.

(** What the signals count. *)
Definition same_keys (o o' : KeyedOrder K V) : Prop := dom (entries_ o) =@{gset K} dom (entries_ o').
#[export] Instance same_keys_dec o o' : Decision (same_keys o o') := ltac:(unfold same_keys; apply _).
Definition counts m o m' o' : Prop :=
  version m' = (if decide (same_keys o o') then version m else u64 (version m + 1)) ∧
  order_version m' = (if decide (order_ o = order_ o') then order_version m else u64 (order_version m + 1)) ∧
  membership m' = membership m ∧ order_signal m' = order_signal m.

Lemma map_new_ok c : ctx_ok c → ∃ m c', map_new c = Some (m, c') ∧ shows_map m c' empty_order.
Proof.
  intros Hc. unfold map_new. destruct (ctx_source_ok c (Version 0) Hc) as (h1 & c1 & -> & Hc1 & Hh1 & _). simpl.
  destruct (ctx_source_ok c1 (Version 0) Hc1) as (h2 & c2 & -> & Hc2 & Hh2 & Ho). simpl. eexists _, _. split; [done|].
  destruct (Ho _ _ Hh1) as [Hne Hh1']. split; simpl; try done; [apply empty_lockstep|..]; intros *; by rewrite lookup_empty.
Qed.

Lemma shows_get m c o k : shows_map m c o →
  match entries_ (keyed m) !! k, entries_ o !! k with Some h, Some v => entry_shows c h v | None, None => True | _, _ => False end.
Proof.
  intros Hm. pose proof (sm_none _ _ _ Hm k) as Hn. destruct (entries_ (keyed m) !! k) as [h|] eqn:Eh, (entries_ o !! k) as [v|] eqn:Ev.
  - by eapply sm_entry.
  - by destruct Hn as [_ Hn]; specialize (Hn eq_refl).
  - by destruct Hn as [Hn _]; specialize (Hn eq_refl).
  - done.
Qed.

Lemma shows_keeps m c c' o : shows_map m c o → ctx_ok c' → keeps (C:=C) (Hs:=Hs) (H:=H) (V:=V) c c' → shows_map m c' o.
Proof. intros [] Hc [K1 K2]. split; auto. intros *. intros E1 E2. eapply K1, sm_entry0; eauto. Qed.

(** What the map's operations leave alone: the entries of every map. *)
Definition kept c c' : Prop := ∀ h v, entry_shows c h v → entry_shows c' h v.

(** Announcing keeps what the map shows. *)
Lemma bump_order_ok m c o : shows_map m c o → ∃ c', bump_order m c =
    Some (mkMap (keyed m) (membership m) (version m) (order_signal m) (u64 (order_version m + 1)), c') ∧
  shows_map (mkMap (keyed m) (membership m) (version m) (order_signal m) (u64 (order_version m + 1))) c' o ∧ kept c c'.
Proof.
  intros []. unfold bump_order. destruct (signal_ok c (order_signal m) (u64 (order_version m + 1)) _ sm_ctx0 sm_signal0) as (c' & -> & Hc' & Hs' & Ho & Hk).
  simpl. exists c'. split; [done|]. split; [|done]. split; simpl; try done; [eauto|]. by apply Ho.
Qed.
Lemma bump_membership_ok m c o : shows_map m c o → ∃ m' c', bump_membership m c = Some (m', c') ∧ shows_map m' c' o ∧ kept c c' ∧
  m' = mkMap (keyed m) (membership m) (u64 (version m + 1)) (order_signal m) (u64 (order_version m + 1)).
Proof.
  intros []. unfold bump_membership. destruct (signal_ok c (membership m) (u64 (version m + 1)) _ sm_ctx0 sm_member0) as (c1 & -> & Hc1 & Hs1 & Ho1 & Hk1). simpl.
  destruct (bump_order_ok (mkMap (keyed m) (membership m) (u64 (version m + 1)) (order_signal m) (order_version m)) c1 o) as (c2 & -> & Hm2 & Hk2); [|eexists _, _; split_and!; [done|done|intros h v Hh; by apply Hk2, Hk1|done]].
  split; simpl; try done; [eauto|]. apply Ho1; [|done]. congruence.
Qed.
(** A new order, and the signals it calls for. *)
Lemma move_ok m c o r q : shows_map m c o → same_move (keyed m) o r q →
  ∃ m' c', apply_move r m c = Some (move_applied q.1, m', c') ∧ shows_map m' c' q.2 ∧ counts m o m' q.2 ∧ kept c c'.
Proof.
  intros Hm (E1 & E2 & E3 & E4 & Hl & Hch). assert (Hm' : shows_map (set_keyed r.2 m) c q.2).
  { destruct Hm. split; simpl; rewrite ?E3, ?E4; done. }
  assert (Hk : same_keys o q.2) by (unfold same_keys; by rewrite E4).
  assert (Hc : ∀ m', version m' = version m → membership m' = membership m → order_signal m' = order_signal m →
    order_version m' = (if move_changed q.1 then u64 (order_version m + 1) else order_version m) → counts m o m' q.2).
  { intros m' V1 V2 V3 V4. unfold counts. rewrite decide_True by done. split_and!; [done| |done|done]. rewrite V4, Hch. case_bool_decide; case_decide; congruence. }
  unfold apply_move. rewrite E1. destruct (move_applied q.1) eqn:Ea; simpl.
  - destruct (move_changed q.1) eqn:Em.
    + destruct (bump_order_ok _ c q.2 Hm') as (c' & -> & Hm2 & Hk2). eexists _, c'. split; [done|]. split; [done|]. split; [by apply Hc|done].
    + eexists _, c. split; [done|]. split; [done|]. split; [by apply Hc|by intros h v].
  - assert (Em : move_changed q.1 = false) by by destruct q.1. eexists _, c. split; [done|]. split; [done|]. split; [apply Hc; try done; by rewrite Em|by intros h v].
Qed.

(** A key more or less bumps both signals. *)
Lemma membership_counts m o o' k m' : m' = mkMap (keyed m') (membership m) (u64 (version m + 1)) (order_signal m) (u64 (order_version m + 1)) →
  lockstep o → lockstep o' → (entries_ o !! k = None ↔ ¬ entries_ o' !! k = None) → counts m o m' o'.
Proof.
  intros E Hl Hl' Hk. unfold counts. rewrite !decide_False; [by rewrite E| |].
  - intros Eo. destruct Hl as [_ Hl], Hl' as [_ Hl']. rewrite !eq_None_not_Some, <- Hl, <- Hl', Eo in Hk. tauto.
  - intros Eo. unfold same_keys in Eo. rewrite <- !not_elem_of_dom, <- Eo in Hk. tauto.
Qed.

Lemma mint_ok m c o k v : shows_map m c o →
  ∃ h m' c', mint_with m k v c = Some (h, m', c') ∧ shows_map m' c' (KeyedOrder.insert o k v).2 ∧ counts m o m' (KeyedOrder.insert o k v).2 ∧
    entry_shows c' h (default v (entries_ o !! k)) ∧ kept c c'.
Proof.
  intros Hm. unfold mint_with, KeyedOrder.get, KeyedOrder.insert. pose proof (shows_get _ _ _ k Hm) as Hg.
  destruct (entries_ (keyed m) !! k) as [h|] eqn:Eh, (entries_ o !! k) as [w|] eqn:Ew; try done.
  { exists h, m, c. split_and!; [done|done| |done|by intros h' v']. unfold counts. by rewrite !decide_True. }
  destruct (materialize_ok c v (sm_ctx _ _ _ Hm)) as (h & c1 & -> & Hc1 & Hh & Hk & Hfresh). cbn [mbind option_bind].
  assert (Hm1 : shows_map (set_keyed (mkKeyedOrder (<[k := h]> (entries_ (keyed m))) (order_ (keyed m) ++ [k])) m) c1 (mkKeyedOrder (<[k := v]> (entries_ o)) (order_ o ++ [k]))).
  { pose proof (shows_keeps _ _ _ _ Hm Hc1 Hk) as []. split; simpl; try done.
    - pose proof (insert_lockstep o k v sm_lock0) as Hl. unfold KeyedOrder.insert in Hl. by rewrite Ew in Hl.
    - by rewrite sm_order0.
    - intros k'. destruct (decide (k' = k)) as [->|]; [by rewrite !lookup_insert_eq|by rewrite !lookup_insert_ne].
    - intros k' h' v'. destruct (decide (k' = k)) as [->|]; [rewrite !lookup_insert_eq|rewrite !lookup_insert_ne by done; eauto].
      by intros [= <-] [= <-].
    - assert (Hother : ∀ k', entries_ (keyed m) !! k' ≠ Some h).
      { intros k' E. pose proof (shows_get _ _ _ k' Hm) as Hg'. rewrite E in Hg'. destruct (entries_ o !! k') as [v'|]; [|done]. by apply (Hfresh h v'). }
      intros k1 k2 h'. destruct (decide (k1 = k)) as [->|], (decide (k2 = k)) as [->|]; rewrite ?lookup_insert_eq, ?lookup_insert_ne by done; [done|..|by apply sm_own0].
      + intros [= <-] E. by destruct (Hother k2).
      + intros E [= <-]. by destruct (Hother k1). }
  destruct (bump_membership_ok _ _ _ Hm1) as (m2 & c2 & E2 & Hm2 & Hk2 & ->). simpl in E2 |- *. rewrite E2. simpl.
  eexists h, _, c2. split; [done|]. split; [done|]. split_and!.
  - apply (membership_counts _ _ _ k); [done|apply Hm|apply Hm1|]. simpl. rewrite lookup_insert_eq, Ew. naive_solver.
  - eapply (sm_entry _ _ _ Hm2 k); simpl; by rewrite lookup_insert_eq.
  - intros h' v' Hh'. by apply Hk2, (proj1 Hk).
Qed.

Lemma remove_ok m c o k : shows_map m c o →
  ∃ m' c', map_remove m k c = Some (bool_decide (is_Some (entries_ o !! k)), m', c') ∧ shows_map m' c' (remove o k).2 ∧ counts m o m' (remove o k).2 ∧ kept c c'.
Proof.
  intros Hm. unfold map_remove, remove. pose proof (shows_get _ _ _ k Hm) as Hg.
  destruct (entries_ (keyed m) !! k) as [h|] eqn:Eh, (entries_ o !! k) as [w|] eqn:Ew; try done.
  2: { exists m, c. split_and!; [by destruct m|done| |by intros h' v']. unfold counts. by rewrite !decide_True. }
  cbn. destruct (clear_ok c h w (sm_ctx _ _ _ Hm) Hg) as (c1 & -> & Hc1 & Hk). simpl.
  assert (Hm1 : shows_map (set_keyed (mkKeyedOrder (delete k (entries_ (keyed m))) (filter (λ k', k' ≠ k) (order_ (keyed m)))) m) c1
    (mkKeyedOrder (delete k (entries_ o)) (filter (λ k', k' ≠ k) (order_ o)))).
  { pose proof (shows_keeps _ _ _ _ Hm Hc1 Hk) as []. split; simpl; try done.
    - pose proof (remove_lockstep o k sm_lock0) as Hl. unfold remove in Hl. by rewrite Ew in Hl.
    - by rewrite sm_order0.
    - intros k'. destruct (decide (k' = k)) as [->|]; [by rewrite !lookup_delete_eq|by rewrite !lookup_delete_ne].
    - intros k' h' v'. destruct (decide (k' = k)) as [->|]; [by rewrite lookup_delete_eq|rewrite !lookup_delete_ne by done; eauto].
    - intros k1 k2 h'. rewrite !lookup_delete_Some. intros [_ E1] [_ E2]. eauto. }
  destruct (bump_membership_ok _ _ _ Hm1) as (m2 & c2 & E2 & Hm2 & Hk2 & ->). rewrite E2. simpl.
  eexists _, c2. split; [done|]. split; [done|]. split; [|intros h' v' Hh'; by apply Hk2, (proj1 Hk)]. apply (membership_counts _ _ _ k); [done|apply Hm|apply Hm1|]. simpl. rewrite lookup_delete_eq, Ew. naive_solver.
Qed.

Lemma get_ok m c o k : shows_map m c o → ∃ c', map_get m k c = Some (entries_ o !! k, c') ∧ shows_map m c' o.
Proof.
  intros Hm. unfold map_get, KeyedOrder.get. pose proof (shows_get _ _ _ k Hm) as Hg.
  destruct (entries_ (keyed m) !! k) as [h|] eqn:Eh, (entries_ o !! k) as [w|] eqn:Ew; try done; [|by exists c].
  destruct (observe_ok c h w (sm_ctx _ _ _ Hm) Hg) as (c1 & -> & Hc1 & Hk). exists c1. split; [done|]. by eapply shows_keeps.
Qed.
Lemma get_or_insert_ok m c o k f : shows_map m c o →
  ∃ m' c', get_or_insert_with m k f c = Some (default (f k) (entries_ o !! k), m', c') ∧
    shows_map m' c' (KeyedOrder.insert o k (f k)).2 ∧ counts m o m' (KeyedOrder.insert o k (f k)).2.
Proof.
  intros Hm. unfold get_or_insert_with, KeyedOrder.get. pose proof (shows_get _ _ _ k Hm) as Hg.
  destruct (mint_ok m c o k (f k) Hm) as (h' & m1 & c1 & E & Hm1 & Hcnt & Hh1 & _).
  destruct (entries_ (keyed m) !! k) as [h|] eqn:Eh, (entries_ o !! k) as [w|] eqn:Ew; try done.
  - unfold mint_with, KeyedOrder.get in E. rewrite Eh in E. injection E as <- <- <-. simpl in Hh1.
    destruct (observe_ok c h w (sm_ctx _ _ _ Hm) Hg) as (c2 & -> & Hc2 & Hk). exists m, c2. split; [done|]. split; [by eapply shows_keeps|done].
  - rewrite E. simpl in *. destruct (observe_ok c1 h' (f k) (sm_ctx _ _ _ Hm1) Hh1) as (c2 & -> & Hc2 & Hk). exists m1, c2. split; [done|]. split; [by eapply shows_keeps|done].
Qed.

Lemma keys_ok m c o : shows_map m c o → map_keys m c = Some (order_ o).
Proof. intros []. unfold map_keys. rewrite (ctx_get_ok _ _ _ sm_signal0). simpl. by rewrite <- sm_order0. Qed.
Lemma len_ok m c o : shows_map m c o → map_len m c = Some (length (order_ o)).
Proof. intros []. unfold map_len. rewrite (ctx_get_ok _ _ _ sm_member0). simpl. unfold len. by rewrite sm_order0. Qed.
Lemma contains_ok m c o k : shows_map m c o → contains_key m k c = Some (bool_decide (is_Some (entries_ o !! k))).
Proof.
  intros Hm. unfold contains_key. rewrite (ctx_get_ok _ _ _ (sm_member _ _ _ Hm)). simpl. f_equal. unfold contains. apply bool_decide_ext.
  pose proof (sm_none _ _ _ Hm k) as Hn. rewrite <- !not_eq_None_Some. tauto.
Qed.
End correct.

(** ** Maps of sources refine a keyed order of values *)
Section source_map_correct.
  Context {C H K V : Type} `{SL : SourceContextLaws C H (FamilyValue V)} `{CC : ClearContext C H} `{CL : !ClearContextLaws C H (FamilyValue V)} `{CK : Countable K} `{DV : EqDecision V}.
  Implicit Types (m : ReactiveMap H H K) (o : KeyedOrder K V) (c : C).
Notation shows := (shows_map (Hs:=H) (H:=H) (V:=V)).

Lemma entry_ok m c o k v : shows m c o →
  ∃ h m' c', entry m k v c = Some (h, m', c') ∧ shows m' c' (KeyedOrder.insert o k v).2 ∧ counts m o m' (KeyedOrder.insert o k v).2 ∧
    entry_shows c' h (default v (entries_ o !! k)) ∧ kept (V:=V) c c'.
Proof.
  intros Hm. unfold entry, entry_with, map_handle. destruct (mint_ok m c o k v Hm) as (h & m' & c' & E & R).
  destruct (KeyedOrder.get (keyed m) k) as [h'|] eqn:Eh; [|by eexists _, _, _].
  unfold mint_with in E. rewrite Eh in E. injection E as <- <- <-. by eexists _, _, _.
Qed.

Lemma set_value_same o k v w : lockstep o → entries_ o !! k = Some w → same_keys o (set_value k v o) ∧ order_ (set_value k v o) = order_ o.
Proof.
  intros Hl Ek. unfold set_value, same_keys. rewrite Ek. simpl. split; [|done]. rewrite dom_insert_L.
  symmetry. apply subseteq_union_1_L, singleton_subseteq_l, elem_of_dom. by eexists.
Qed.
Lemma map_set_ok m c o k v : shows m c o →
  ∃ m' c', map_set m k v c = Some (m', c') ∧ shows m' c' (set_value k v o) ∧ counts m o m' (set_value k v o).
Proof.
  intros Hm. unfold map_set, entry_with, map_handle. pose proof (shows_get _ _ _ k Hm) as Hg.
  destruct (mint_ok m c o k v Hm) as (h' & m' & c' & E & Hm' & Hc' & _).
  unfold KeyedOrder.get. destruct (entries_ (keyed m) !! k) as [h|] eqn:Eh, (entries_ o !! k) as [w|] eqn:Ew; try done.
  - change (holds c h (Entry w)) in Hg. destruct (ctx_set_ok c h (Entry v) _ (sm_ctx _ _ _ Hm) Hg) as (c1 & -> & Hc1 & Hh1 & Ho1). simpl. exists m, c1. split; [done|].
    destruct (set_value_same o k v w (sm_lock _ _ _ Hm) Ew) as [S1 S2]. split; [|unfold counts; by rewrite !decide_True].
    assert (Hsig : ∀ s n, holds c s (Version n) → h ≠ s) by (intros s n Hs ->; apply ctx_get_ok in Hs, Hg; congruence).
    pose proof (apply_diff_lockstep o (DUpdate k v) (sm_lock _ _ _ Hm)) as Hl. simpl in Hl. destruct Hm. unfold set_value in *. rewrite Ew in *. split; simpl; try done.
    + intros k'. destruct (decide (k' = k)) as [->|]; [rewrite lookup_insert_eq, Eh; done|by rewrite lookup_insert_ne].
    + intros k' h0 v' Ek' Ev'. destruct (decide (k' = k)) as [->|Hne].
      * rewrite lookup_insert_eq in Ev'. injection Ev' as <-. rewrite Eh in Ek'. by injection Ek' as <-.
      * rewrite lookup_insert_ne in Ev' by done. apply Ho1; [|exact (sm_entry0 _ _ _ Ek' Ev')]. intros ->. apply Hne. by eapply sm_own0.
    + apply Ho1; [|done]. intros E2. exact (Hsig _ _ sm_member0 (eq_sym E2)).
    + apply Ho1; [|done]. intros E2. exact (Hsig _ _ sm_signal0 (eq_sym E2)).
  - rewrite E. simpl. exists m', c'. unfold set_value. by rewrite Ew.
Qed.

(** *** Operation by operation *)
Inductive map_op :=
  | MGet (k : K) | MGetOrInsert (k : K) (factory : K → V) | MEntry (k : K) (v : V) | MSet (k : K) (v : V) | MRemove (k : K)
  | MMoveTo (k : K) (i : nat) | MMoveBefore (k a : K) | MMoveAfter (k a : K) | MReconcile (new : list (K * V))
  | MKeys | MLen | MContains (k : K).
Inductive map_answer := AGot (v : option V) | ABool (b : bool) | AKeys (l : list K) | ALen (n : nat) | ADone.

Definition map_step m (op : map_op) c : option (map_answer * ReactiveMap H H K * C) :=
  match op with
  | MGet k => '(v, c) ← map_get m k c; Some (AGot v, m, c)
  | MGetOrInsert k f => '(v, m, c) ← get_or_insert_with m k f c; Some (AGot (Some v), m, c)
  | MEntry k v => '(_, m, c) ← entry m k v c; Some (ADone, m, c)
  | MSet k v => '(m, c) ← map_set m k v c; Some (ADone, m, c)
  | MRemove k => '(b, m, c) ← map_remove m k c; Some (ABool b, m, c)
  | MMoveTo k i => '(b, m, c) ← map_move_to m k i c; Some (ABool b, m, c)
  | MMoveBefore k a => '(b, m, c) ← map_move_before m k a c; Some (ABool b, m, c)
  | MMoveAfter k a => '(b, m, c) ← map_move_after m k a c; Some (ABool b, m, c)
  | MReconcile new => '(m, c) ← map_reconcile m new c; Some (ADone, m, c)
  | MKeys => l ← map_keys m c; Some (AKeys l, m, c)
  | MLen => n ← map_len m c; Some (ALen n, m, c)
  | MContains k => b ← contains_key m k c; Some (ABool b, m, c)
  end.
(** The same on a keyed order of the values. *)
Definition spec_step o (op : map_op) : map_answer * KeyedOrder K V :=
  match op with
  | MGet k => (AGot (entries_ o !! k), o)
  | MGetOrInsert k f => (AGot (Some (default (f k) (entries_ o !! k))), (KeyedOrder.insert o k (f k)).2)
  | MEntry k v => (ADone, (KeyedOrder.insert o k v).2)
  | MSet k v => (ADone, set_value k v o)
  | MRemove k => (ABool (bool_decide (is_Some (entries_ o !! k))), (remove o k).2)
  | MMoveTo k i => (ABool (move_applied (move_to o k i).1), (move_to o k i).2)
  | MMoveBefore k a => (ABool (move_applied (move_before o k a).1), (move_before o k a).2)
  | MMoveAfter k a => (ABool (move_applied (move_after o k a).1), (move_after o k a).2)
  | MReconcile new => (ADone, reconcile_map o new)
  | MKeys => (AKeys (order_ o), o)
  | MLen => (ALen (length (order_ o)), o)
  | MContains k => (ABool (bool_decide (is_Some (entries_ o !! k))), o)
  end.

Fixpoint map_run m (ops : list map_op) c : option (list map_answer * ReactiveMap H H K * C) :=
  match ops with
  | [] => Some ([], m, c)
  | op :: ops => '(a, m, c) ← map_step m op c; '(l, m, c) ← map_run m ops c; Some (a :: l, m, c)
  end.
Fixpoint spec_run o (ops : list map_op) : list map_answer * KeyedOrder K V :=
  match ops with
  | [] => ([], o)
  | op :: ops => let r := spec_step o op in let q := spec_run r.2 ops in (r.1 :: q.1, q.2)
  end.

(** A difference applied to the map is applied to what it shows. *)
Lemma apply_to_map_ok ops : ∀ m c o, shows m c o → ∃ m' c', apply_to_map ops m c = Some (m', c') ∧ shows m' c' (foldl apply_diff o ops).
Proof.
  induction ops as [|op ops IH]; intros m c o Hm; simpl; [by eexists _, _|].
  assert (Hstep : ∃ m' c', apply_to_map1 op m c = Some (m', c') ∧ shows m' c' (apply_diff o op)).
  { destruct op as [k v i|k|k i|k v]; simpl.
    - destruct (entry_ok m c o k v Hm) as (h & m1 & c1 & -> & Hm1 & _). simpl.
      destruct (move_ok m1 c1 _ _ _ Hm1 (move_to_same (keyed m1) _ k i (sm_order _ _ _ Hm1) (sm_lock _ _ _ Hm1))) as (m2 & c2 & E & Hm2 & _).
      unfold map_move_to. rewrite E. simpl. by eexists _, _.
    - destruct (remove_ok m c o k Hm) as (m1 & c1 & -> & Hm1 & _). simpl. by eexists _, _.
    - destruct (move_ok m c _ _ _ Hm (move_to_same (keyed m) _ k i (sm_order _ _ _ Hm) (sm_lock _ _ _ Hm))) as (m2 & c2 & E & Hm2 & _).
      unfold map_move_to. rewrite E. simpl. by eexists _, _.
    - destruct (map_set_ok m c o k v Hm) as (m1 & c1 & -> & Hm1 & _). by eexists _, _. }
  destruct Hstep as (m1 & c1 & -> & Hm1). simpl. by apply IH.
Qed.
Lemma old_seq_ok ks : ∀ m c o, shows m c o → ∃ c', old_seq ks m c = Some (omap (λ k, (k,.) <$> entries_ o !! k) ks, c') ∧ shows m c' o.
Proof.
  induction ks as [|k ks IH]; intros m c o Hm; simpl; [by eexists|]. destruct (get_ok m c o k Hm) as (c1 & -> & Hm1). simpl.
  destruct (IH m c1 o Hm1) as (c2 & -> & Hm2). simpl. exists c2. split; [|done]. by destruct (entries_ o !! k).
Qed.
Lemma reconcile_ok m c o new : shows m c o → ∃ m' c', map_reconcile m new c = Some (m', c') ∧ shows m' c' (reconcile_map o new).
Proof.
  intros Hm. unfold map_reconcile. rewrite (keys_ok _ _ _ Hm). simpl. destruct (old_seq_ok (order_ o) m c o Hm) as (c1 & -> & Hm1). simpl.
  by apply apply_to_map_ok.
Qed.

Lemma map_step_ok m c o op : shows m c o →
  ∃ m' c', map_step m op c = Some ((spec_step o op).1, m', c') ∧ shows m' c' (spec_step o op).2.
Proof.
  intros Hm. pose proof (sm_order _ _ _ Hm) as Ho. pose proof (sm_lock _ _ _ Hm) as Hl.
  destruct op as [k|k f|k v|k v|k|k i|k a|k a|new| | |k]; simpl.
  - destruct (get_ok m c o k Hm) as (c1 & -> & Hm1). by eexists _, _.
  - destruct (get_or_insert_ok m c o k f Hm) as (m1 & c1 & -> & Hm1 & _). by eexists _, _.
  - destruct (entry_ok m c o k v Hm) as (h & m1 & c1 & -> & Hm1 & _). by eexists _, _.
  - destruct (map_set_ok m c o k v Hm) as (m1 & c1 & -> & Hm1 & _). by eexists _, _.
  - destruct (remove_ok m c o k Hm) as (m1 & c1 & -> & Hm1 & _). by eexists _, _.
  - unfold map_move_to. destruct (move_ok m c _ _ _ Hm (move_to_same (keyed m) _ k i Ho Hl)) as (m2 & c2 & -> & Hm2 & _). by eexists _, _.
  - unfold map_move_before. destruct (move_ok m c _ _ _ Hm (move_before_same (keyed m) _ k a Ho Hl)) as (m2 & c2 & -> & Hm2 & _). by eexists _, _.
  - unfold map_move_after. destruct (move_ok m c _ _ _ Hm (move_after_same (keyed m) _ k a Ho Hl)) as (m2 & c2 & -> & Hm2 & _). by eexists _, _.
  - destruct (reconcile_ok m c o new Hm) as (m1 & c1 & -> & Hm1). by eexists _, _.
  - rewrite (keys_ok _ _ _ Hm). by eexists _, _.
  - rewrite (len_ok _ _ _ Hm). by eexists _, _.
  - rewrite (contains_ok _ _ _ _ Hm). by eexists _, _.
Qed.

(** Between two states the signals have moved iff what they announce has
    changed, for every operation but a reconciliation, which may move both back
    and forth. *)
Lemma signals_move m c o op : shows m c o → (∀ new, op ≠ MReconcile new) →
  ∃ m' c', map_step m op c = Some ((spec_step o op).1, m', c') ∧ counts m o m' (spec_step o op).2.
Proof.
  intros Hm Hop. pose proof (sm_order _ _ _ Hm) as Ho. pose proof (sm_lock _ _ _ Hm) as Hl.
  assert (Hid : counts m o m o) by (unfold counts; by rewrite !decide_True).
  destruct op as [k|k f|k v|k v|k|k i|k a|k a|new| | |k]; simpl.
  - destruct (get_ok m c o k Hm) as (c1 & -> & Hm1). by eexists _, _.
  - destruct (get_or_insert_ok m c o k f Hm) as (m1 & c1 & -> & _ & Hc1). by eexists _, _.
  - destruct (entry_ok m c o k v Hm) as (h & m1 & c1 & -> & _ & Hc1 & _). by eexists _, _.
  - destruct (map_set_ok m c o k v Hm) as (m1 & c1 & -> & _ & Hc1). by eexists _, _.
  - destruct (remove_ok m c o k Hm) as (m1 & c1 & -> & _ & Hc1 & _). by eexists _, _.
  - unfold map_move_to. destruct (move_ok m c _ _ _ Hm (move_to_same (keyed m) _ k i Ho Hl)) as (m2 & c2 & -> & _ & Hc2 & _). by eexists _, _.
  - unfold map_move_before. destruct (move_ok m c _ _ _ Hm (move_before_same (keyed m) _ k a Ho Hl)) as (m2 & c2 & -> & _ & Hc2 & _). by eexists _, _.
  - unfold map_move_after. destruct (move_ok m c _ _ _ Hm (move_after_same (keyed m) _ k a Ho Hl)) as (m2 & c2 & -> & _ & Hc2 & _). by eexists _, _.
  - by destruct (Hop new).
  - rewrite (keys_ok _ _ _ Hm). by eexists _, _.
  - rewrite (len_ok _ _ _ Hm). by eexists _, _.
  - rewrite (contains_ok _ _ _ _ Hm). by eexists _, _.
Qed.

Lemma map_run_ok ops : ∀ m c o, shows m c o → ∃ m' c', map_run m ops c = Some ((spec_run o ops).1, m', c') ∧ shows m' c' (spec_run o ops).2.
Proof.
  induction ops as [|op ops IH]; intros m c o Hm; simpl; [by eexists _, _|].
  destruct (map_step_ok m c o op Hm) as (m1 & c1 & -> & Hm1). simpl. destruct (IH m1 c1 _ Hm1) as (m2 & c2 & -> & Hm2). by eexists _, _.
Qed.
End source_map_correct.
Arguments map_op : clear implicits.

(** ** Minting ahead of time or on access *)
Section lazy.
  Context {C Hs H K V : Type} `{SL : SourceContextLaws C Hs (FamilyValue V)} `{MT : MapHandleTraits C H V} `{HL : !MapHandleLaws C Hs H V} `{CK : Countable K}.
  Implicit Types (m : ReactiveMap Hs H K) (o : KeyedOrder K V) (c : C).

(** A reader that goes through the keys. *)
Fixpoint read_through (ks : list K) (f : K → V) m c : option (list V * ReactiveMap Hs H K * C) :=
  match ks with
  | [] => Some ([], m, c)
  | k :: ks => '(v, m, c) ← get_or_insert_with m k f c; '(l, m, c) ← read_through ks f m c; Some (v :: l, m, c)
  end.
Definition minted (f : K → V) o : Prop := ∀ k v, entries_ o !! k = Some v → v = f k.
Lemma minted_insert f o k : minted f o → minted f (KeyedOrder.insert o k (f k)).2.
Proof.
  intros Hf k' v. unfold KeyedOrder.insert. destruct (entries_ o !! k) eqn:E; simpl; [apply Hf|].
  destruct (decide (k' = k)) as [->|]; [rewrite lookup_insert_eq; by intros [= <-]|rewrite lookup_insert_ne by done; apply Hf].
Qed.
Lemma materialize_all_ok ks f : ∀ m c o, shows_map m c o → minted f o →
  ∃ m' c', materialize_all ks f m c = Some (m', c') ∧ shows_map m' c' (foldl (λ o k, (KeyedOrder.insert o k (f k)).2) o ks) ∧
    minted f (foldl (λ o k, (KeyedOrder.insert o k (f k)).2) o ks).
Proof.
  induction ks as [|k ks IH]; intros m c o Hm Hf; simpl; [by eexists _, _|].
  destruct (get_or_insert_ok m c o k f Hm) as (m1 & c1 & -> & Hm1 & _). simpl. by apply IH, minted_insert.
Qed.
Lemma read_through_ok ks f : ∀ m c o, shows_map m c o → minted f o →
  ∃ m' c', read_through ks f m c = Some (f <$> ks, m', c') ∧ shows_map m' c' (foldl (λ o k, (KeyedOrder.insert o k (f k)).2) o ks).
Proof.
  induction ks as [|k ks IH]; intros m c o Hm Hf; simpl; [by eexists _, _|].
  destruct (get_or_insert_ok m c o k f Hm) as (m1 & c1 & -> & Hm1 & _). simpl.
  destruct (IH m1 c1 _ Hm1 (minted_insert f o k Hf)) as (m2 & c2 & -> & Hm2). simpl. exists m2, c2. split; [|done].
  do 3 f_equal. destruct (entries_ o !! k) as [v|] eqn:E; [|done]. simpl. rewrite (Hf k v E). done.
Qed.
End lazy.

(** ** The engine's handles *)
Section kernel.
  Context {W V : Type} `{EqDecision W} `{Embed (FamilyValue V) W}.
  Implicit Types (c : Ctx W) (g : list (spec_node (V:=W))).

#[export] Instance kernel_clear : ClearContext (Ctx W) Handle := λ h c,
  match clear_cell_dependents write_fuel (h_id h) c with (Val _, c) => Some c | _ => None end.

#[export] Instance kernel_clear_laws {T} `{Embed T W} : ClearContextLaws (Ctx W) Handle T.
Proof.
  intros c h v [g Hs] Hh. unfold ctx_clear, kernel_clear. destruct (clear_dependents_settled g c (h_id h) Hs) as (c' & E & Hs').
  unfold write_fuel. rewrite E. exists c'. split_and!; [done|by exists g|]. intros h' v' (Hg & d & Hd). split; [done|].
  apply (settled_holds _ _ _ _ Hs'). apply (settled_holds _ _ _ _ Hs). by eexists.
Qed.

(** A computed entry: its formula is the value its factory gave. *)
Record ComputedHandle := mkComputed { computed_handle : Handle }.

(* include/lazily/reactive_family.hpp:97-109, MapHandleTraits<Computed<V>> *)
#[export] Instance computed_handles : MapHandleTraits (Ctx W) ComputedHandle V := {
  kind := KComputed;
  materialize v c := match slot (Ret (inj (Entry v))) c with (Val h, c) => Some (mkComputed h, c) | _ => None end;
  observe h c := match get_computed (S (next_id c)) (computed_handle h) c with
                 | (Val w, c) => match proj w with Some (Entry v) => Some (v, c) | _ => None end | _ => None end;
  clear_dependents h c := match computed_clear write_fuel (computed_handle h) c with (Val _, c) => Some c | _ => None end }.

Definition computed_shows c (h : ComputedHandle) (v : V) : Prop :=
  h_generation (computed_handle h) = 0 ∧ ∃ s, nodes c !! h_id (computed_handle h) = Some (NSlot s) ∧ s_compute s = Ret (inj (Entry v)).
Lemma settled_computed g c (i : SlotId) p : settled_ctx g c → g !! i = Some (SComputed p) ↔ ∃ s, nodes c !! i = Some (NSlot s) ∧ s_compute s = p.
Proof.
  intros Hs. pose proof (inv_dom _ _ _ _ (st_inv _ _ Hs) i) as Hd. revert Hd. unfold node_matches.
  destruct (g !! i) as [[w|q]|], (nodes c !! i) as [[s|[w' d]|e]|]; intros Hd; try done.
  - split; [done|by intros (? & ? & _)].
  - split; [intros [= <-]; by exists s|intros (s' & [= <-] & <-); by rewrite Hd].
  - split; [done|by intros (? & ? & _)].
Qed.
(** On the same or a longer graph everything shows what it showed. *)
Lemma settled_keeps g g' c c' : settled_ctx g c → settled_ctx g' c' → (∀ i n, g !! i = Some n → g' !! i = Some n) →
  (∀ h v, computed_shows c h v → computed_shows c' h v) ∧ ∀ s n, cell_holds c s (inj (Version (V:=V) n)) → cell_holds c' s (inj (Version (V:=V) n)).
Proof.
  intros Hs Hs' Hg. split.
  - intros h v [Hz Hh]. split; [done|]. apply (settled_computed g' c'); [done|]. apply Hg. by apply (settled_computed g c).
  - intros s n [Hz Hh]. split; [done|]. apply (settled_holds g' c'); [done|]. apply Hg. by apply (settled_holds g c).
Qed.

#[export, refine] Instance computed_handle_laws : MapHandleLaws (Ctx W) Handle ComputedHandle V := { entry_shows := computed_shows }.
Proof.
  - intros c v [g Hs].
    destruct (create_settled g c (SComputed (Ret (inj (Entry v)))) (NSlot (mkSlot None (Ret (inj (Entry v))) false [] [] false false false false)) Hs) as (c' & E & Hs');
      [done|intros ? [= <-]; constructor|done|].
    exists (mkComputed (handle (length g))), c'. unfold materialize. simpl. unfold slot, slot_with_equals. rewrite E.
    destruct (settled_keeps g (g ++ [SComputed (Ret (inj (Entry v)))]) c c' Hs Hs') as [K1 K2]; [intros i n; apply lookup_app_l_Some|].
    split_and!; [done|by eexists| |done|done|].
    + split; [done|]. apply (settled_computed _ _ _ _ Hs'). by apply list_lookup_middle.
    + intros h' v' (_ & Hh). apply (settled_computed _ _ _ _ Hs) in Hh. apply lookup_lt_Some in Hh. intros ->. simpl in Hh. lia.
  - intros c [[i gen]] v [g Hs] [Hz Hh]. simpl in *. subst gen. apply (settled_computed _ _ _ _ Hs) in Hh as Hgi.
    destruct (get_computed_ok g (S (next_id c)) i c Hs) as (w & ns & E & Hw & Hs'); [unfold is_computed; by rewrite Hgi|rewrite (proj1 (st_ids _ _ Hs)); lia|].
    rewrite (spec_get_unfold _ _ _ Hgi) in Hw. injection Hw as <-. unfold handle in E. rewrite E. rewrite proj_inj.
    exists (set_nodes ns c). destruct (settled_keeps g g c _ Hs Hs') as [K1 K2]; [done|]. split_and!; [done|by eexists|done|done].
  - intros c h v [g Hs] Hh. destruct (computed_clear_settled g c (computed_handle h) Hs) as (c' & E & Hs' & _).
    simpl. unfold write_fuel. rewrite E. exists c'. destruct (settled_keeps g g c _ Hs Hs') as [K1 K2]; [done|]. split_and!; [done|by eexists|done|done].
  - intros c [i gen] n n0 [g Hs] [Hz Hh]. simpl in Hz, Hh. subst gen. apply (settled_holds _ _ _ _ Hs) in Hh as Hgi.
    destruct (set_settled g c i (inj (Version n)) _ Hs Hgi) as (c' & E & Hs'). exists c'. unfold ctx_set. simpl. change (mkHandle i 0) with (handle i). rewrite E.
    assert (Hi : i < length g) by by eapply lookup_lt_Some. unfold spec_write in Hs'. simpl in Hs'.
    split_and!; [done|by eexists| | |].
    + split; [done|]. apply (settled_holds _ _ _ _ Hs'). by rewrite list_lookup_insert_eq.
    + intros [j gj] n' Hne [Hzj Hj]. simpl in Hzj, Hj. subst gj. split; [done|]. apply (settled_holds _ _ _ _ Hs').
      rewrite list_lookup_insert_ne by (intros ->; by apply Hne). by apply (settled_holds _ _ _ _ Hs).
    + intros h v [Hzh Hh']. split; [done|]. apply (settled_computed _ _ _ _ Hs'). apply (settled_computed _ _ _ _ Hs) in Hh'.
      rewrite list_lookup_insert_ne; [done|]. intros E2. rewrite E2 in Hgi. congruence.
Defined.
End kernel.

(** ** Availability of dependencies *)
Section dependency.
  Context {C H K V : Type} `{SL : SourceContextLaws C H (FamilyValue (option V))} `{CC : ClearContext C H} `{CL : !ClearContextLaws C H (FamilyValue (option V))} `{CK : Countable K}.

(* include/lazily/reactive_family.hpp:346-349, DependencyMap::observe_dependency *)
Definition observe_dependency (m : ReactiveMap H H K) (k : K) (c : C) : option (option V * ReactiveMap H H K * C) :=
  '(h, m, c) ← entry m k None c; '(v, c) ← observe h c; Some (v, m, c).
(* include/lazily/reactive_family.hpp:356-358, DependencyMap::publish *)
Definition publish_dependency (m : ReactiveMap H H K) (k : K) (v : V) (c : C) : option (ReactiveMap H H K * C) := map_set m k (Some v) c.
(* include/lazily/reactive_family.hpp:360-360, DependencyMap::unpublish *)
Definition unpublish_dependency (m : ReactiveMap H H K) (k : K) (c : C) : option (ReactiveMap H H K * C) := map_set m k None c.

Inductive dependency_op := DObserve (k : K) | DPublish (k : K) (v : V) | DUnpublish (k : K).
Fixpoint dependency_run (m : ReactiveMap H H K) (ops : list dependency_op) (c : C) : option (list (option V) * ReactiveMap H H K * C) :=
  match ops with
  | [] => Some ([], m, c)
  | DObserve k :: ops => '(v, m, c) ← observe_dependency m k c; '(l, m, c) ← dependency_run m ops c; Some (v :: l, m, c)
  | DPublish k v :: ops => '(m, c) ← publish_dependency m k v c; dependency_run m ops c
  | DUnpublish k :: ops => '(m, c) ← unpublish_dependency m k c; dependency_run m ops c
  end.
(** What the observations see: the published values. *)
Fixpoint seen (pub : gmap K V) (ops : list dependency_op) : list (option V) :=
  match ops with
  | [] => []
  | DObserve k :: ops => pub !! k :: seen pub ops
  | DPublish k v :: ops => seen (<[k := v]> pub) ops
  | DUnpublish k :: ops => seen (delete k pub) ops
  end.

Lemma set_value_entries (o : KeyedOrder K (option V)) k v k' : entries_ (set_value k v o) !! k' = if decide (k' = k) then Some v else entries_ o !! k'.
Proof.
  unfold set_value, KeyedOrder.insert. case_decide as E; [subst k'|]; destruct (entries_ o !! k); simpl; by rewrite ?lookup_insert_eq, ?lookup_insert_ne by done.
Qed.

(** Observing a key before, between and after publications sees the last one
    that was not withdrawn; the entry stays the same node throughout. *)
Lemma dependency_run_ok ops : ∀ m c o pub, shows_map m c o → (∀ k, pub !! k = mjoin (entries_ o !! k)) →
  ∃ m' c', dependency_run m ops c = Some (seen pub ops, m', c').
Proof.
  induction ops as [|[k|k v|k] ops IH]; intros m c o pub Hm Hp; simpl; [by eexists _, _|..].
  - unfold observe_dependency. destruct (entry_ok m c o k None Hm) as (h & m1 & c1 & -> & Hm1 & _ & Hh & _). cbn [mbind option_bind].
    destruct (observe_ok c1 h _ (sm_ctx _ _ _ Hm1) Hh) as (c2 & E & Hc2 & Hk). rewrite E. cbn [mbind option_bind].
    destruct (IH m1 c2 _ pub (shows_keeps _ _ _ _ Hm1 Hc2 Hk)) as (m2 & c3 & E3).
    + intros k'. rewrite Hp. unfold KeyedOrder.insert. destruct (entries_ o !! k) eqn:Ek; [done|]. simpl.
      destruct (decide (k' = k)) as [->|]; [by rewrite lookup_insert_eq, Ek|by rewrite lookup_insert_ne].
    + rewrite E3. simpl. exists m2, c3. do 3 f_equal. rewrite Hp. by destruct (entries_ o !! k).
  - unfold publish_dependency. destruct (map_set_ok m c o k (Some v) Hm) as (m1 & c1 & -> & Hm1 & _). simpl. eapply IH; [done|].
    intros k'. rewrite set_value_entries. case_decide as E; [subst; by rewrite lookup_insert_eq|]. rewrite lookup_insert_ne by done. apply Hp.
  - unfold unpublish_dependency. destruct (map_set_ok m c o k None Hm) as (m1 & c1 & -> & Hm1 & _). simpl. eapply IH; [done|].
    intros k'. rewrite set_value_entries. case_decide as E; [subst; by rewrite lookup_delete_eq|]. rewrite lookup_delete_ne by done. apply Hp.
Qed.
End dependency.

(** ** What the maps promise *)


(** C35: Reconciling a map with a sequence of distinct keys leaves exactly the
    keys of the sequence, each with its value, in an order that is a
    permutation of it; where the keys common to both were in the same relative
    order before, the map then reads as the sequence, position by position. *)
Theorem reconcile_reaches {C H K V} `{SL : SourceContextLaws C H (FamilyValue V)} `{CC : ClearContext C H} `{CL : !ClearContextLaws C H (FamilyValue V)}
    `{CK : Countable K} `{DV : EqDecision V} (m : ReactiveMap H H K) (c : C) (o : KeyedOrder K V) (new : list (K * V)) :
  shows_map m c o → NoDup new.*1 →
  ∃ m' c' o', map_reconcile m new c = Some (m', c') ∧ shows_map m' c' o' ∧
    entries_ o' = list_to_map new ∧ order_ o' ≡ₚ new.*1 ∧
    (filter (λ k, k ∈ order_ o) new.*1 = filter (λ k, k ∈ new.*1) (order_ o) → contents o' = new).
Proof.
  intros Hm Hn. destruct (reconcile_ok m c o new Hm) as (m' & c' & E & Hm'). pose proof (sm_lock _ _ _ Hm) as Hl. pose proof (sm_lock _ _ _ Hm') as Hl'.
  destruct (contents_spec o Hl) as [C1 C2]. assert (He : entries_ (reconcile_map o new) = list_to_map new).
  { apply reconcile_entries; [rewrite C1; apply Hl|done|by rewrite C2]. }
  exists m', c', (reconcile_map o new). split_and!; [done|done|done| |].
  - apply NoDup_Permutation; [apply Hl'|done|]. intros k. destruct Hl' as [_ Hl']. rewrite Hl', He. split.
    + intros [v Hv]. apply elem_of_list_to_map in Hv; [|done]. apply list_elem_of_fmap. by exists (k, v).
    + intros ([k' v] & -> & Hv)%list_elem_of_fmap. exists v. by apply elem_of_list_to_map_1.
  - intros Hso. apply contents_of; [done|done|]. apply reconcile_order; [done|by rewrite C2|by rewrite C1|done|]. unfold same_order. by rewrite C1.
Qed.

(** Minting a computed map's keys up front or on first access cannot be
    told apart by reading: whatever keys are materialized beforehand, a reader
    gets the factory's value for every key it reads, and reading after the map
    has been materialized gives what reading a fresh map gives. *)
Theorem eager_or_lazy {C Hs H K V} `{SL : SourceContextLaws C Hs (FamilyValue V)} `{MT : MapHandleTraits C H V} `{HL : !MapHandleLaws C Hs H V}
    `{CK : Countable K} (c : C) (f : K → V) (ahead reads : list K) :
  ctx_ok c →
  ∃ m0 c0 m1 c1 me ce ml cl, map_new (K:=K) (H:=H) c = Some (m0, c0) ∧ materialize_all ahead f m0 c0 = Some (m1, c1) ∧
    read_through reads f m1 c1 = Some (f <$> reads, me, ce) ∧ read_through reads f m0 c0 = Some (f <$> reads, ml, cl).
Proof.
  intros Hc. destruct (map_new_ok (K:=K) (H:=H) (V:=V) c Hc) as (m0 & c0 & E0 & Hm0).
  assert (Hf : minted f (empty_order : KeyedOrder K V)) by (intros k v; simpl; by rewrite lookup_empty).
  destruct (materialize_all_ok ahead f m0 c0 _ Hm0 Hf) as (m1 & c1 & E1 & Hm1 & Hf1).
  destruct (read_through_ok reads f m1 c1 _ Hm1 Hf1) as (me & ce & Ee & _). destruct (read_through_ok reads f m0 c0 _ Hm0 Hf) as (ml & cl & El & _).
  by exists m0, c0, m1, c1, me, ce, ml, cl.
Qed.

(** ** On the engine *)
#[export] Instance FamilyValue_eq_dec {V} `{EqDecision V} : EqDecision (FamilyValue V).
Proof. solve_decision. Defined.


Lemma eager_or_lazy_witness :
  ctx_ok (T:=FamilyValue nat) (empty_ctx : Ctx (FamilyValue nat)) ∧
  ∃ m0 c0 m1 c1 me ce ml cl, map_new (K:=nat) (H:=ComputedHandle) (V:=nat) (empty_ctx : Ctx (FamilyValue nat)) = Some (m0, c0) ∧
    materialize_all [1; 2] (λ k, 3 * k) m0 c0 = Some (m1, c1) ∧
    read_through [2; 4] (λ k, 3 * k) m1 c1 = Some ((λ k, 3 * k) <$> [2; 4], me, ce) ∧
    read_through [2; 4] (λ k, 3 * k) m0 c0 = Some ((λ k, 3 * k) <$> [2; 4], ml, cl).
Proof. split; [apply empty_ctx_ok|]. apply eager_or_lazy. apply empty_ctx_ok. Defined.

Lemma reconcile_reaches_witness :
  let new := [(5, 1); (6, 4); (9, 8)] in
  let o := (spec_run (empty_order : KeyedOrder nat nat) [MEntry 5 1; MEntry 7 2; MEntry 9 3]).2 in
  ∃ (m : ReactiveMap Handle Handle nat) (c : Ctx (FamilyValue nat)), shows_map m c o ∧ NoDup new.*1 ∧
    ∃ m' c' o', map_reconcile m new c = Some (m', c') ∧ shows_map m' c' o' ∧ contents o' = new.
Proof.
  cbv zeta. set (ops := [MEntry 5 1; MEntry 7 2; MEntry 9 3]).
  destruct (map_new_ok (K:=nat) (H:=Handle) (V:=nat) (empty_ctx : Ctx (FamilyValue nat)) empty_ctx_ok) as (m0 & c0 & _ & Hm0).
  destruct (map_run_ok ops m0 c0 _ Hm0) as (m & c & _ & Hm). exists m, c. split; [done|].
  assert (Hn : NoDup [5; 6; 9]) by (apply (bool_decide_unpack _); by vm_compute). split; [exact Hn|].
  destruct (reconcile_reaches m c _ [(5, 1); (6, 4); (9, 8)] Hm Hn) as (m' & c' & o' & E & Hm' & _ & _ & Hc). exists m', c', o'. split_and!; [done|done|].
  apply Hc. by vm_compute.
Defined.
