(* ===== verification/SourceTree.v ===== *)
(** * SourceTree: the ordered keyed tree

    Models SourceTree of include/lazily/collections.hpp.  Nodes are shared, so
    they live in a heap and a handle of the tree is a reference; a node keeps
    its children three times, as a vector, as an index from ids to positions,
    and as a keyed map of the context. *)
From S2P Require Import Prelude KeyedOrder Kernel KernelCorrect Reactive Reconcile Family.

Section source_tree.
  Context {C H Id V : Type} `{SourceContext C H (FamilyValue (V + bool))} `{ClearContext C H} `{Countable Id} `{EqDecision V}.

(* include/lazily/collections.hpp:22-28, SourceTreeNode *)
Record SourceTreeNode := mkTreeNode {
  t_id : Id; t_value : H; t_order : ReactiveMap H H Id; t_child_index : gmap Id nat; t_children : list nat }.

(** The nodes, by reference. *)
Notation Heap := (list SourceTreeNode).

(* include/lazily/collections.hpp:32-36, SourceTree::SourceTree *)
Definition tree_new (id : Id) (v : V) (hp : Heap) (c : C) : option (nat * Heap * C) :=
  '(cell, c) ← ctx_source (Entry (inl v)) c;
  '(order, c) ← map_new c;
  Some (length hp, hp ++ [mkTreeNode id cell order ∅ []], c).
(* include/lazily/collections.hpp:38-40, SourceTree::leaf *)
Definition leaf (id : Id) (v : V) (hp : Heap) (c : C) : option (nat * Heap * C) := tree_new id v hp c.

(* include/lazily/collections.hpp:42-42, SourceTree::id *)
Definition tree_id (r : nat) (hp : Heap) : option Id := t_id <$> hp !! r.
(* include/lazily/collections.hpp:45-45, SourceTree::get *)
Definition tree_get (r : nat) (hp : Heap) (c : C) : option V :=
  n ← hp !! r; match ctx_get (t_value n) c with Some (Entry (inl v)) => Some v | _ => None end.
(* include/lazily/collections.hpp:46-46, SourceTree::set *)
Definition tree_set (r : nat) (v : V) (hp : Heap) (c : C) : option C := n ← hp !! r; ctx_set (t_value n) (Entry (inl v)) c.

(* include/lazily/collections.hpp:48-62, SourceTree::insert_child *)
Definition insert_child (r : nat) (child_id : Id) (v : V) (hp : Heap) (c : C) : option (nat * Heap * C) :=
  n ← hp !! r;
  match t_child_index n !! child_id with
  | Some i => child ← t_children n !! i; Some (child, hp, c)
  | None =>
      '(cell, c) ← ctx_source (Entry (inl v)) c;
      '(corder, c) ← map_new c;
      let child := length hp in
      let idx := length (t_children n) in
      '(_, order, c) ← entry (t_order n) child_id (inr true) c;
      let n := mkTreeNode (t_id n) (t_value n) order (<[child_id := idx]> (t_child_index n)) (t_children n ++ [child]) in
      Some (child, <[r := n]> (hp ++ [mkTreeNode child_id cell corder ∅ []]), c)
  end.

Definition erase {A} (l : list A) (i : nat) : list A := take i l ++ drop (S i) l.

(* include/lazily/collections.hpp:64-75, SourceTree::remove_child *)
Definition remove_child (r : nat) (child_id : Id) (hp : Heap) (c : C) : option (bool * Heap * C) :=
  n ← hp !! r;
  match t_child_index n !! child_id with
  | None => Some (false, hp, c)
  | Some idx =>
      let index := (λ v, if idx <? v then v - 1 else v) <$> delete child_id (t_child_index n) in
      '(_, order, c) ← map_remove (t_order n) child_id c;
      Some (true, <[r := mkTreeNode (t_id n) (t_value n) order index (erase (t_children n) idx)]> hp, c)
  end.

(* include/lazily/collections.hpp:88-100, SourceTree::move_child (index) *)
Definition shift (from to v : nat) : nat :=
  if from <? to then (if v =? from then to else if (from <? v) && (v <=? to) then v - 1 else v)
  else (if v =? from then to else if (to <=? v) && (v <? from) then v + 1 else v).
(* include/lazily/collections.hpp:77-103, SourceTree::move_child *)
Definition move_child (r : nat) (child_id : Id) (to : nat) (hp : Heap) (c : C) : option (bool * Heap * C) :=
  n ← hp !! r;
  match t_child_index n !! child_id with
  | None => Some (false, hp, c)
  | Some from =>
      let to := Nat.min to (length (t_children n) - 1) in
      if from =? to then Some (true, hp, c)
      else
        node ← t_children n !! from;
        let rest := erase (t_children n) from in
        let children := take to rest ++ node :: drop to rest in
        '(_, order, c) ← map_move_to (t_order n) child_id to c;
        Some (true, <[r := mkTreeNode (t_id n) (t_value n) order (shift from to <$> t_child_index n) children]> hp, c)
  end.

(* include/lazily/collections.hpp:105-105, SourceTree::child_ids *)
Definition child_ids (r : nat) (hp : Heap) (c : C) : option (list Id) := n ← hp !! r; map_keys (t_order n) c.
(* include/lazily/collections.hpp:107-107, SourceTree::child_count *)
Definition child_count (r : nat) (hp : Heap) (c : C) : option nat := n ← hp !! r; map_len (t_order n) c.
(* include/lazily/collections.hpp:109-109, SourceTree::has_child *)
Definition has_child (r : nat) (child_id : Id) (hp : Heap) : bool :=
  match hp !! r with Some n => bool_decide (is_Some (t_child_index n !! child_id)) | None => false end.
(* include/lazily/collections.hpp:111-115, SourceTree::child *)
Definition child (r : nat) (child_id : Id) (hp : Heap) : option nat := n ← hp !! r; i ← t_child_index n !! child_id; t_children n !! i.

(* include/lazily/collections.hpp:255-265, apply_to_tree (one operation) *)
Definition apply_to_tree1 (r : nat) (op : DiffOp Id V) (hp : Heap) (c : C) : option (Heap * C) :=
  match op with
  | DRemove k => '(_, hp, c) ← remove_child r k hp c; Some (hp, c)
  | DInsert k v i => '(_, hp, c) ← insert_child r k v hp c; '(_, hp, c) ← move_child r k i hp c; Some (hp, c)
  | DMove k i => '(_, hp, c) ← move_child r k i hp c; Some (hp, c)
  | DUpdate k v => match child r k hp with Some ch => c ← tree_set ch v hp c; Some (hp, c) | None => Some (hp, c) end
  end.
(* include/lazily/collections.hpp:250-269, apply_to_tree *)
Fixpoint apply_to_tree (r : nat) (ops : list (DiffOp Id V)) (hp : Heap) (c : C) : option (Heap * C) :=
  match ops with
  | [] => Some (hp, c)
  | op :: ops => '(hp, c) ← apply_to_tree1 r op hp c; apply_to_tree r ops hp c
  end.
End source_tree.

(** ** Positions *)
Lemma erase_app {A} (l1 l2 : list A) x : erase (l1 ++ x :: l2) (length l1) = l1 ++ l2.
Proof. unfold erase. rewrite take_app_length. f_equal. by rewrite drop_app_ge, Nat.sub_succ_l, Nat.sub_diag by lia. Qed.

Lemma shift_lookup {A} (l : list A) from to x i : l !! from = Some x → to < length l → i < length l →
  (take to (erase l from) ++ x :: drop to (erase l from)) !! shift from to i = l !! i.
Proof.
  intros Hx Ht Hi. apply list_elem_of_split_length in Hx as (l1 & l2 & -> & ->). rewrite erase_app.
  rewrite length_app in Ht, Hi. simpl in Ht, Hi. set (rest := l1 ++ l2). assert (Hr : length rest = length l1 + length l2) by (unfold rest; by rewrite length_app).
  assert (Hl : ∀ j, (l1 ++ x :: l2) !! j = if decide (j = length l1) then Some x else rest !! (if j <? length l1 then j else j - 1)).
  { intros j. unfold rest. destruct (Nat.ltb_spec j (length l1)).
    - rewrite decide_False, !lookup_app_l by lia. done.
    - case_decide as E; [subst; by apply list_lookup_middle|]. rewrite !lookup_app_r by lia. replace (j - length l1) with (S (j - 1 - length l1)) by lia. done. }
  assert (Hm : ∀ j, (take to rest ++ x :: drop to rest) !! j = if decide (j = to) then Some x else rest !! (if j <? to then j else j - 1)).
  { intros j. destruct (Nat.ltb_spec j to).
    - rewrite decide_False by lia. rewrite lookup_app_l by (rewrite length_take; lia). by rewrite lookup_take_lt.
    - case_decide as E; [subst; apply list_lookup_middle; rewrite length_take; lia|]. rewrite lookup_app_r by (rewrite length_take; lia). rewrite length_take.
      replace (j - Nat.min to (length rest)) with (S (j - 1 - to)) by lia. simpl. rewrite lookup_drop. f_equal. lia. }
  rewrite Hl, Hm. unfold shift. destruct (Nat.ltb_spec (length l1) to), (Nat.eqb_spec i (length l1)).
  all: repeat (case_decide || case_match); repeat match goal with E : _ && _ = false |- _ => apply andb_false_iff in E as [E|E] end.
  all: zify_bools; solve [lia|done|f_equal; lia].
Qed.

Lemma erase_lookup {A} (l : list A) idx i : idx < length l → i < length l → i ≠ idx → erase l idx !! (if idx <? i then i - 1 else i) = l !! i.
Proof.
  intros Hx Hi Hne. destruct (lookup_lt_is_Some_2 l idx Hx) as [x Ex]. apply list_elem_of_split_length in Ex as (l1 & l2 & -> & ->). rewrite erase_app.
  destruct (Nat.ltb_spec (length l1) i).
  - rewrite !lookup_app_r by lia. replace (i - length l1) with (S (i - 1 - length l1)) by lia. done.
  - rewrite !lookup_app_l by lia. done.
Qed.

(** ** What a node shows *)
Section correct.
  Context {C H Id V : Type} `{SL : SourceContextLaws C H (FamilyValue (V + bool))} `{CC : ClearContext C H} `{CL : !ClearContextLaws C H (FamilyValue (V + bool))}
    `{CI : Countable Id} `{DV : EqDecision V}.
  Implicit Types (hp : list (SourceTreeNode (H:=H) (Id:=Id))) (c : C) (n : SourceTreeNode (H:=H) (Id:=Id)) (o : KeyedOrder Id V) (om : KeyedOrder Id (V + bool)) (r : nat).

Definition shows_child hp c r o (id : Id) (ref : nat) : Prop :=
  ref ≠ r ∧ ∃ ch v, hp !! ref = Some ch ∧ entries_ o !! id = Some v ∧ t_id ch = id ∧ holds c (t_value ch) (Entry (inl v)).

(** The vector, the index and the map of a node agree with the order of its
    children, and every child shows its value in a cell of its own. *)
Record shows_tree hp c r n om o : Prop := {
  st_node : hp !! r = Some n;
  st_map : shows_map (t_order n) c om;
  st_order : order_ om = order_ o;
  st_lock : lockstep o;
  st_flags : ∀ id w, entries_ om !! id = Some w → w = inr true;
  st_children : Forall2 (shows_child hp c r o) (order_ o) (t_children n);
  st_index : ∀ id i, t_child_index n !! id = Some i ↔ order_ o !! i = Some id;
  st_own : ∀ r1 r2 ch1 ch2, r1 ∈ t_children n → r2 ∈ t_children n → hp !! r1 = Some ch1 → hp !! r2 = Some ch2 → t_value ch1 = t_value ch2 → r1 = r2 }.
Definition shows_node hp c r o : Prop := ∃ n om, shows_tree hp c r n om o.

Lemma index_none hp c r n om o id : shows_tree hp c r n om o → t_child_index n !! id = None ↔ entries_ o !! id = None.
Proof.
  intros Ht. rewrite !eq_None_not_Some. apply not_iff_compat. destruct (st_lock _ _ _ _ _ _ Ht) as [_ Hl]. rewrite <- Hl. split.
  - intros [i Hi]. apply (st_index _ _ _ _ _ _ Ht) in Hi. by apply list_elem_of_lookup_2 in Hi.
  - intros [i Hi]%list_elem_of_lookup_1. exists i. by apply (st_index _ _ _ _ _ _ Ht).
Qed.
Lemma children_length hp c r n om o : shows_tree hp c r n om o → length (t_children n) = length (order_ o).
Proof. intros Ht. symmetry. eapply Forall2_length, Ht. Qed.
Lemma map_entries hp c r n om o id : shows_tree hp c r n om o → entries_ om !! id = None ↔ entries_ o !! id = None.
Proof.
  intros Ht. rewrite !eq_None_not_Some. apply not_iff_compat. destruct (st_lock _ _ _ _ _ _ Ht) as [_ Hl].
  destruct (sm_lock _ _ _ (st_map _ _ _ _ _ _ Ht)) as [_ Hl']. by rewrite <- Hl, <- Hl', (st_order _ _ _ _ _ _ Ht).
Qed.
(** The children keep what they show when their cells do and the order's
    entries stay where they were. *)
Lemma shows_child_mono hp hp' c c' r o o' id ref : shows_child hp c r o id ref →
  (∀ ch, ref ≠ r → hp !! ref = Some ch → hp' !! ref = Some ch) → (∀ h v, holds c h (Entry v) → holds c' h (Entry v)) → entries_ o' !! id = entries_ o !! id →
  shows_child hp' c' r o' id ref.
Proof. intros [Hr (ch & v & H1 & H2 & H3 & H4)] Hh Hk Ho. split; [done|]. exists ch, v. split_and!; auto. by rewrite Ho. Qed.

Lemma children_mono hp hp' c c' r o o' ids refs : Forall2 (shows_child hp c r o) ids refs →
  (∀ ref ch, ref ≠ r → hp !! ref = Some ch → hp' !! ref = Some ch) → (∀ h v, holds c h (Entry v) → holds c' h (Entry v)) →
  (∀ id, id ∈ ids → entries_ o' !! id = entries_ o !! id) → Forall2 (shows_child hp' c' r o') ids refs.
Proof.
  intros Hf Hh Hk. induction Hf as [|id ref ids refs Hc _ IH]; intros Ho; constructor.
  - eapply shows_child_mono; [exact Hc|by intros ch; apply Hh|done|]. apply Ho. by left.
  - apply IH. intros id' Hid. apply Ho. by right.
Qed.

Lemma child_held hp c r o ids refs ref : Forall2 (shows_child hp c r o) ids refs → ref ∈ refs →
  ref ≠ r ∧ ∃ ch v, hp !! ref = Some ch ∧ holds c (t_value ch) (Entry (inl v)).
Proof.
  induction 1 as [|id ref' ids refs Hc _ IH]; [by intros ?%not_elem_of_nil|]. intros [->|Hr]%elem_of_cons; [|by apply IH].
  destruct Hc as [Hr (ch & v & H1 & _ & _ & H4)]. split; [done|]. by exists ch, v.
Qed.

Lemma tree_new_ok id v hp c : ctx_ok c → ∃ hp' c', tree_new id v hp c = Some (length hp, hp', c') ∧ shows_node hp' c' (length hp) empty_order ∧ tree_get (length hp) hp' c' = Some v.
Proof.
  intros Hc. unfold tree_new. destruct (ctx_source_ok c (Entry (inl v)) Hc) as (h & c1 & -> & Hc1 & Hh & _). cbn [mbind option_bind].
  unfold map_new. destruct (ctx_source_ok c1 (Version 0) Hc1) as (h1 & c2 & E1 & Hc2 & Hh1 & Ho1). destruct (ctx_source_ok c2 (Version 0) Hc2) as (h2 & c3 & E2 & Hc3 & Hh2 & Ho2).
  rewrite E1. cbn [mbind option_bind]. rewrite E2. cbn [mbind option_bind]. eexists _, c3. split; [done|]. split.
  - eexists _, empty_order. split; [by apply list_lookup_middle|..]; simpl; try done.
    + destruct (Ho2 _ _ Hh1) as [Hne Hh1']. split; simpl; try done; [apply empty_lockstep|..]; intros *; by rewrite lookup_empty.
    + apply empty_lockstep.
    + intros r1 r2 ch1 ch2 Hr. by apply not_elem_of_nil in Hr.
  - unfold tree_get. rewrite list_lookup_middle by done. simpl. destruct (Ho1 _ _ Hh) as [_ Hh']. destruct (Ho2 _ _ Hh') as [_ Hh'']. by rewrite (ctx_get_ok _ _ _ Hh'').
Qed.

(** The three views after the children have been rearranged. *)
Lemma insert_tree hp c r n om o k v : shows_tree hp c r n om o → entries_ o !! k = None →
  ∃ ref hp' c', insert_child r k v hp c = Some (ref, hp', c') ∧ shows_node hp' c' r (KeyedOrder.insert o k v).2.
Proof.
  intros Ht Hk. pose proof Ht as [Hn Hm Ho Hl Hf Hch Hix Hown]. unfold insert_child. rewrite Hn. cbn [mbind option_bind].
  rewrite (proj2 (index_none _ _ _ _ _ _ k Ht) Hk).
  destruct (ctx_source_ok c (Entry (inl v)) (sm_ctx _ _ _ Hm)) as (h & c1 & E1 & Hc1 & Hh & Ho1). rewrite E1. cbn [mbind option_bind].
  unfold map_new. destruct (ctx_source_ok c1 (Version 0) Hc1) as (h1 & c2 & E2 & Hc2 & Hh1 & Ho2). destruct (ctx_source_ok c2 (Version 0) Hc2) as (h2 & c3 & E3 & Hc3 & Hh2 & Ho3).
  rewrite E2. cbn [mbind option_bind]. rewrite E3. cbn [mbind option_bind].
  assert (Hall : ∀ h' w, holds c h' w → holds c3 h' w) by (intros h' w Hw; by apply Ho3, Ho2, Ho1).
  assert (Hm3 : shows_map (t_order n) c3 om) by (eapply shows_keeps; [done|done|split; [intros h' w Hw; exact (Hall h' (Entry w) Hw)|intros *; apply Hall]]).
  destruct (entry_ok (t_order n) c3 om k (inr true) Hm3) as (he & m4 & c4 & E4 & Hm4 & _ & _ & Hk4). rewrite E4. cbn [mbind option_bind].
  assert (Hkm : entries_ om !! k = None) by (by apply (map_entries _ _ _ _ _ _ k Ht)).
  assert (Hlt : r < length hp) by by eapply lookup_lt_Some.
  eexists _, _, c4. split; [done|]. pose proof (insert_lockstep o k v Hl) as Hl'. unfold KeyedOrder.insert in *. rewrite Hk, Hkm in *. simpl in *.
  eexists _, _. split; [apply list_lookup_insert_eq; rewrite length_app; simpl; lia|exact Hm4|simpl; by rewrite Ho|done|..]; simpl.
  - intros id w. destruct (decide (id = k)) as [->|]; [rewrite lookup_insert_eq; by intros [= <-]|rewrite lookup_insert_ne by done; apply Hf].
  - assert (Hkeep : ∀ h' w, holds c h' (Entry w) → holds c4 h' (Entry w)) by (intros h' w Hw; exact (Hk4 h' w (Hall h' (Entry w) Hw))).
    assert (Hheap : ∀ ref ch, ref ≠ r → (hp ++ [mkTreeNode k h (mkMap empty_order h1 0 h2 0) ∅ []]) !! ref = Some ch →
      <[r := mkTreeNode (t_id n) (t_value n) m4 (<[k := length (t_children n)]> (t_child_index n)) (t_children n ++ [length hp])]>
        (hp ++ [mkTreeNode k h (mkMap empty_order h1 0 h2 0) ∅ []]) !! ref = Some ch).
    { intros ref ch Hne Hr. by rewrite list_lookup_insert_ne. }
    apply Forall2_app; [|constructor; [|constructor]].
    + eapply children_mono; [exact Hch| |exact Hkeep|].
      * intros ref ch Hne Hr. apply Hheap; [done|]. by apply lookup_app_l_Some.
      * intros id Hid. simpl. rewrite lookup_insert_ne; [done|]. intros <-. apply Hl in Hid. rewrite Hk in Hid. by destruct Hid.
    + split; [lia|]. eexists _, v. split_and!; [apply Hheap; [lia|by apply list_lookup_middle]|simpl; by rewrite lookup_insert_eq|done|]. simpl.
      exact (Hk4 h (inl v) (proj2 (Ho3 _ _ (proj2 (Ho2 _ _ Hh))))).
  - intros id i. rewrite (children_length _ _ _ _ _ _ Ht). destruct (decide (id = k)) as [->|Hne].
    + rewrite lookup_insert_eq. split; [intros [= <-]; by apply list_lookup_middle|]. intros Hi. f_equal.
      eapply NoDup_lookup; [apply Hl'|by apply list_lookup_middle|exact Hi].
    + rewrite lookup_insert_ne by done. rewrite Hix, lookup_snoc_Some. split; [intros Hi; left; split; [by eapply lookup_lt_Some|done]|].
      intros [[_ ?]|[_ ?]]; [done|congruence].
  - assert (Hold : ∀ ref ch', ref ∈ t_children n → (<[r := mkTreeNode (t_id n) (t_value n) m4 (<[k := length (t_children n)]> (t_child_index n)) (t_children n ++ [length hp])]>
        (hp ++ [mkTreeNode k h (mkMap empty_order h1 0 h2 0) ∅ []])) !! ref = Some ch' → hp !! ref = Some ch' ∧ t_value ch' ≠ h).
    { intros ref ch' Hr Hl2. destruct (child_held _ _ _ _ _ _ ref Hch Hr) as [Hne (ch & w & H1 & H2)]. rewrite list_lookup_insert_ne in Hl2 by done.
      rewrite (lookup_app_l_Some _ _ _ _ H1) in Hl2. injection Hl2 as <-. split; [done|]. by apply (Ho1 _ (Entry (inl w))). }
    assert (Hnew : ∀ ch', (<[r := mkTreeNode (t_id n) (t_value n) m4 (<[k := length (t_children n)]> (t_child_index n)) (t_children n ++ [length hp])]>
        (hp ++ [mkTreeNode k h (mkMap empty_order h1 0 h2 0) ∅ []])) !! length hp = Some ch' → t_value ch' = h).
    { intros ch'. rewrite list_lookup_insert_ne by lia. rewrite list_lookup_middle by done. by intros [= <-]. }
    intros r1 r2 ch1 ch2 [Hr1|Hr1%list_elem_of_singleton]%elem_of_app [Hr2|Hr2%list_elem_of_singleton]%elem_of_app L1 L2 Ev; subst.
    + destruct (Hold _ _ Hr1 L1) as [G1 _], (Hold _ _ Hr2 L2) as [G2 _]. eauto.
    + destruct (Hold _ _ Hr1 L1) as [_ G1]. by rewrite Ev, (Hnew _ L2) in G1.
    + destruct (Hold _ _ Hr2 L2) as [_ G2]. by rewrite <- Ev, (Hnew _ L1) in G2.
    + done.
Qed.

(** The node after its children have been rearranged, or some dropped. *)
Lemma rearranged hp c c' r n n' om om' o o' : shows_tree hp c r n om o → shows_map (t_order n') c' om' → order_ om' = order_ o' → lockstep o' →
  (∀ id w, entries_ om' !! id = Some w → entries_ om !! id = Some w) → (∀ ref, ref ∈ t_children n' → ref ∈ t_children n) →
  Forall2 (shows_child hp c r o') (order_ o') (t_children n') → (∀ id i, t_child_index n' !! id = Some i ↔ order_ o' !! i = Some id) →
  (∀ h v, holds c h (Entry v) → holds c' h (Entry v)) → shows_node (<[r := n']> hp) c' r o'.
Proof.
  intros [Hn Hm Ho Hl Hf Hch Hix Hown] Hm' Ho' Hl' Hf' Hsub Hch' Hix' Hk. exists n', om'. split; try done.
  - apply list_lookup_insert_eq. by eapply lookup_lt_Some.
  - intros id w Hw. by eapply Hf, Hf'.
  - eapply children_mono; [exact Hch'| |exact Hk|done]. intros ref ch Hne Hr. by rewrite list_lookup_insert_ne.
  - assert (Hold : ∀ ref ch, ref ∈ t_children n' → <[r := n']> hp !! ref = Some ch → hp !! ref = Some ch).
    { intros ref ch Hr. destruct (child_held _ _ _ _ _ _ ref Hch (Hsub ref Hr)) as [Hne _]. by rewrite list_lookup_insert_ne. }
    intros r1 r2 ch1 ch2 H1 H2 L1 L2 Ev. eapply Hown; eauto.
Qed.

Lemma Forall2_mid {A B} (P : A → B → Prop) l1 x l2 k : Forall2 P (l1 ++ x :: l2) k →
  ∃ k1 y k2, k = k1 ++ y :: k2 ∧ length k1 = length l1 ∧ Forall2 P l1 k1 ∧ P x y ∧ Forall2 P l2 k2.
Proof.
  intros Hf. apply Forall2_app_inv_l in Hf as (k1 & k' & H1 & H2 & ->). inversion H2 as [|? y ? k2 Hy Hk2]; subst.
  exists k1, y, k2. split_and!; try done. symmetry. by eapply Forall2_length.
Qed.

Lemma remove_tree hp c r o k : shows_node hp c r o →
  ∃ hp' c', remove_child r k hp c = Some (bool_decide (is_Some (entries_ o !! k)), hp', c') ∧ shows_node hp' c' r (remove o k).2.
Proof.
  intros (n & om & Ht). pose proof Ht as [Hn Hm Ho Hl Hf Hch Hix Hown]. unfold remove_child. rewrite Hn. cbn [mbind option_bind].
  destruct (entries_ o !! k) as [v|] eqn:Ek.
  2: { rewrite (proj2 (index_none _ _ _ _ _ _ k Ht) Ek). exists hp, c. split; [done|]. unfold remove. rewrite Ek. by exists n, om. }
  destruct (order_split o k Hl) as (l1 & l2 & Eo & N1 & N2 & _ & Ef); [by eexists|].
  assert (Hat : order_ o !! length l1 = Some k) by (rewrite Eo; by apply list_lookup_middle). rewrite (proj2 (Hix k (length l1)) Hat).
  destruct (remove_ok (t_order n) c om k Hm) as (m' & c' & E & Hm' & _ & Hk). rewrite E. cbn [mbind option_bind].
  eexists _, c'. split; [done|]. pose proof (remove_lockstep o k Hl) as Hl'.
  assert (Eo' : order_ (remove o k).2 = l1 ++ l2) by (unfold remove; by rewrite Ek).
  assert (Ee' : ∀ id, id ≠ k → entries_ (remove o k).2 !! id = entries_ o !! id) by (intros id Hne; unfold remove; rewrite Ek; simpl; by rewrite lookup_delete_ne).
  rewrite Eo in Hch. destruct (Forall2_mid _ _ _ _ _ Hch) as (k1 & ref & k2 & Ec & Elen & F1 & _ & F2).
  assert (Eer : erase (t_children n) (length l1) = k1 ++ k2) by (rewrite Ec, <- Elen; apply erase_app).
  eapply rearranged; [exact Ht|exact Hm'| |exact Hl'|..]; simpl.
  - unfold remove. destruct (entries_ om !! k) eqn:Eom; [|by apply (map_entries _ _ _ _ _ _ k Ht) in Eom; congruence]. rewrite Ek. simpl. by rewrite Ho.
  - intros id w. unfold remove. destruct (entries_ om !! k) eqn:Eom; [|done]. simpl. rewrite lookup_delete_Some. by intros [_ ?].
  - intros ref'. rewrite Eer, Ec. set_solver.
  - rewrite Eer, Eo'. apply Forall2_app; (eapply children_mono; [eassumption|done|done|]); intros id Hid; apply Ee'; congruence.
  - intros id i. rewrite Eo', lookup_fmap. destruct (decide (id = k)) as [->|Hne].
    { rewrite lookup_delete_eq. split; [done|]. intros Hi%list_elem_of_lookup_2. set_solver. }
    rewrite lookup_delete_ne by done. rewrite <- (erase_app l1 l2 k), <- Eo.
    assert (Hmv : ∀ j, order_ o !! j = Some id → erase (order_ o) (length l1) !! (if length l1 <? j then j - 1 else j) = Some id).
    { intros j Hj. rewrite erase_lookup; [done|by eapply lookup_lt_Some|by eapply lookup_lt_Some|]. intros ->. congruence. }
    split.
    + intros (j & Hj & ->)%fmap_Some. apply Hix in Hj. by apply Hmv.
    + intros Hi. assert (Hid : id ∈ order_ o) by (apply list_elem_of_lookup_2 in Hi; rewrite Eo, erase_app in Hi; rewrite Eo; set_solver).
      apply list_elem_of_lookup_1 in Hid as [j Hj]. rewrite (proj2 (Hix id j) Hj). simpl. f_equal. eapply NoDup_lookup; [|by apply Hmv|exact Hi].
      rewrite Eo, erase_app, <- Eo'. apply Hl'.
  - intros h w Hw. exact (Hk h w Hw).
Qed.

Lemma move_tree hp c r o k to : shows_node hp c r o →
  ∃ hp' c', move_child r k to hp c = Some (bool_decide (is_Some (entries_ o !! k)), hp', c') ∧ shows_node hp' c' r (move_to o k to).2.
Proof.
  intros (n & om & Ht). pose proof Ht as [Hn Hm Ho Hl Hf Hch Hix Hown]. unfold move_child. rewrite Hn. cbn [mbind option_bind].
  destruct (entries_ o !! k) as [v|] eqn:Ek.
  2: { rewrite (proj2 (index_none _ _ _ _ _ _ k Ht) Ek). exists hp, c. split; [done|]. unfold move_to. rewrite (proj2 (position_None o k Hl) Ek). by exists n, om. }
  destruct (order_split o k Hl) as (l1 & l2 & Eo & N1 & N2 & Hp & Ef); [by eexists|].
  assert (Hat : order_ o !! length l1 = Some k) by (rewrite Eo; by apply list_lookup_middle). rewrite (proj2 (Hix k (length l1)) Hat).
  rewrite (children_length _ _ _ _ _ _ Ht). set (to' := Nat.min to (length (order_ o) - 1)).
  destruct (Nat.eqb_spec (length l1) to') as [Et|Hne].
  { exists hp, c. split; [done|]. unfold move_to. rewrite Hp. fold to'. rewrite (proj2 (Nat.eqb_eq _ _) Et). by exists n, om. }
  pose proof Hch as Hch0. rewrite Eo in Hch0. destruct (Forall2_mid _ _ _ _ _ Hch0) as (k1 & ref & k2 & Ec & Elen & F1 & Fx & F2).
  assert (Eer : erase (t_children n) (length l1) = k1 ++ k2) by (rewrite Ec, <- Elen; apply erase_app).
  assert (Hlen : length (order_ o) - 1 = length (l1 ++ l2)) by (rewrite Eo, !length_app; simpl; lia).
  rewrite Eer. assert (Ecat : t_children n !! length l1 = Some ref) by (rewrite Ec, <- Elen; by apply list_lookup_middle). rewrite Ecat. cbn [mbind option_bind].
  destruct (move_ok (t_order n) c om _ _ Hm (move_to_same (keyed (t_order n)) om k to' (sm_order _ _ _ Hm) (sm_lock _ _ _ Hm))) as (m' & c' & E & Hm' & _ & Hk).
  unfold map_move_to. rewrite E. cbn [mbind option_bind]. eexists _, c'. split; [done|].
  pose proof (move_to_order o k to Hl ltac:(by eexists)) as Emo. simpl in Emo. rewrite Ef, <- Hlen in Emo. fold to' in Emo.
  pose proof (move_to_lockstep o k to Hl) as Hl'.
  assert (Eom : order_ (move_to om k to').2 = order_ (move_to o k to).2).
  { destruct (move_to_same om o k to' Ho Hl) as (_ & E2 & _). rewrite E2. rewrite !(move_to_order o k) by (done || by eexists). simpl. rewrite Ef, <- Hlen. fold to'. by replace (Nat.min to' (length (order_ o) - 1)) with to' by (unfold to'; lia). }
  rewrite Emo in *.
  eapply rearranged; [exact Ht|exact Hm'|exact Eom|exact Hl'|..]; simpl.
  - intros id w. by rewrite move_to_entries.
  - intros ref'. by rewrite Ec, <- !Permutation_middle, take_drop.
  - assert (F : Forall2 (shows_child hp c r o) (take to' (l1 ++ l2) ++ k :: drop to' (l1 ++ l2)) (take to' (k1 ++ k2) ++ ref :: drop to' (k1 ++ k2))).
    { apply Forall2_app; [|constructor; [done|]]; [apply Forall2_take|apply Forall2_drop]; by apply Forall2_app. }
    by eapply children_mono; [exact F|..].
  - intros id i. assert (Hto : to' < length (order_ o)) by (apply lookup_lt_Some in Hat; lia).
    assert (Hmv : ∀ j, order_ o !! j = Some id → (take to' (l1 ++ l2) ++ k :: drop to' (l1 ++ l2)) !! shift (length l1) to' j = Some id).
    { intros j Hj. rewrite <- Hj, <- (shift_lookup (order_ o) (length l1) to' k j Hat Hto) by (by eapply lookup_lt_Some). by rewrite Eo, erase_app. }
    rewrite lookup_fmap. split.
    + intros (j & Hj & ->)%fmap_Some. apply Hix in Hj. by apply Hmv.
    + intros Hi. assert (Hid : id ∈ order_ o) by (apply list_elem_of_lookup_2 in Hi; rewrite <- Permutation_middle, take_drop in Hi; by rewrite Eo, <- Permutation_middle).
      apply list_elem_of_lookup_1 in Hid as [j Hj]. rewrite (proj2 (Hix id j) Hj). simpl. f_equal. eapply NoDup_lookup; [apply Hl'|by apply Hmv|exact Hi].
  - intros h w Hw. exact (Hk h w Hw).
Qed.

Lemma child_shown hp c r n om o k v : shows_tree hp c r n om o → entries_ o !! k = Some v →
  ∃ i ref ch, order_ o !! i = Some k ∧ t_children n !! i = Some ref ∧ child r k hp = Some ref ∧ ref ≠ r ∧ hp !! ref = Some ch ∧ t_id ch = k ∧ holds c (t_value ch) (Entry (inl v)).
Proof.
  intros [Hn Hm Ho Hl Hf Hch Hix Hown] Ek. assert (Hk : k ∈ order_ o) by (apply Hl; by eexists). apply list_elem_of_lookup_1 in Hk as [i Hi].
  destruct (Forall2_lookup_l _ _ _ _ _ Hch Hi) as (ref & Hr & Hne & ch & w & H1 & H2 & H3 & H4). exists i, ref, ch.
  assert (w = v) as -> by congruence. split_and!; try done. unfold child. rewrite Hn. simpl. by rewrite (proj2 (Hix k i) Hi).
Qed.

Lemma set_tree hp c r o k w v : shows_node hp c r o → entries_ o !! k = Some w →
  ∃ ref c', child r k hp = Some ref ∧ tree_set ref v hp c = Some c' ∧ shows_node hp c' r (set_value k v o).
Proof.
  intros (n & om & Ht) Ek. destruct (child_shown _ _ _ _ _ _ k w Ht Ek) as (i & ref & ch & Hi & Hr & Hc & Hne & Hch & Hid & Hh).
  pose proof Ht as [Hn Hm Ho Hl Hf HF Hix Hown].
  destruct (ctx_set_ok c (t_value ch) (Entry (inl v)) _ (sm_ctx _ _ _ Hm) Hh) as (c' & Es & Hc' & Hv & Hoth).
  exists ref, c'. split; [done|]. unfold tree_set. rewrite Hch. split; [done|].
  assert (Hkeep : ∀ h x, holds c h x → x ≠ Entry (inl w) → holds c' h x).
  { intros h x Hx Hxw. apply Hoth; [|done]. intros ->. apply ctx_get_ok in Hx, Hh. congruence. }
  pose proof (apply_diff_lockstep o (DUpdate k v) Hl) as Hl'. simpl in Hl'.
  assert (Eo : order_ (set_value k v o) = order_ o) by (unfold set_value; by rewrite Ek).
  assert (Ee : ∀ id, entries_ (set_value k v o) !! id = if decide (id = k) then Some v else entries_ o !! id).
  { intros id. unfold set_value. rewrite Ek. simpl. case_decide as E; [subst; by rewrite lookup_insert_eq|by rewrite lookup_insert_ne]. }
  exists n, om. split; [done| |by rewrite Eo|done|done| |by rewrite Eo|done].
  - destruct Hm as [M1 M2 M3 M4 M5 M6 M7 M8 M9]. split; try done.
    + intros k' h x E1 E2. refine (Hkeep h (Entry x) (M5 k' h x E1 E2) _). by rewrite (Hf _ _ E2).
    + by apply Hkeep.
    + by apply Hkeep.
  - rewrite Eo. apply Forall2_same_length_lookup_2; [by rewrite (children_length _ _ _ _ _ _ Ht)|]. intros j id ref' Hj Hj'.
    destruct (Forall2_lookup_lr _ _ _ _ _ _ HF Hj Hj') as (Hne' & ch' & v' & G1 & G2 & G3 & G4). split; [done|]. exists ch'. rewrite Ee.
    destruct (decide (id = k)) as [->|Hik].
    + assert (j = i) as -> by (eapply NoDup_lookup; [apply Hl|done|done]). assert (ref' = ref) as -> by congruence. assert (ch' = ch) as -> by congruence. by exists v.
    + exists v'. split_and!; try done. apply Hoth; [|done]. intros Ev. apply Hik. rewrite <- G3.
      assert (ref' = ref) as -> by (eapply Hown; [by eapply list_elem_of_lookup_2|by eapply list_elem_of_lookup_2|done..]). congruence.
Qed.

(** *** Differences *)
Lemma insert_node_ok hp c r o k v : shows_node hp c r o → ∃ ref hp' c', insert_child r k v hp c = Some (ref, hp', c') ∧ shows_node hp' c' r (KeyedOrder.insert o k v).2.
Proof.
  intros (n & om & Ht). destruct (entries_ o !! k) as [w|] eqn:Ek; [|by eapply insert_tree].
  destruct (child_shown _ _ _ _ _ _ k w Ht Ek) as (i & ref & ch & Hi & Hr & Hc & _). pose proof Ht as [Hn _ _ _ _ _ Hix _].
  unfold insert_child. rewrite Hn. cbn [mbind option_bind]. rewrite (proj2 (Hix k i) Hi), Hr. simpl. exists ref, hp, c. split; [done|].
  unfold KeyedOrder.insert. rewrite Ek. by exists n, om.
Qed.
Definition update_present o (op : DiffOp Id V) : Prop := match op with DUpdate k _ => is_Some (entries_ o !! k) | _ => True end.
(** Every update names a child that is there when its turn comes. *)
Fixpoint updates_present o (ops : list (DiffOp Id V)) : Prop :=
  match ops with [] => True | op :: ops => update_present o op ∧ updates_present (apply_diff o op) ops end.

Lemma apply_to_tree_ok ops : ∀ hp c r o, shows_node hp c r o → updates_present o ops →
  ∃ hp' c', apply_to_tree r ops hp c = Some (hp', c') ∧ shows_node hp' c' r (foldl apply_diff o ops).
Proof.
  induction ops as [|op ops IH]; intros hp c r o Hn; simpl; [by eexists _, _|]. intros [Hop Hops].
  assert (Hstep : ∃ hp' c', apply_to_tree1 r op hp c = Some (hp', c') ∧ shows_node hp' c' r (apply_diff o op)).
  { destruct op as [k v i|k|k i|k v]; simpl.
    - destruct (insert_node_ok hp c r o k v Hn) as (ref & hp1 & c1 & -> & Hn1). simpl. destruct (move_tree hp1 c1 r _ k i Hn1) as (hp2 & c2 & -> & Hn2). by eexists _, _.
    - destruct (remove_tree hp c r o k Hn) as (hp1 & c1 & -> & Hn1). by eexists _, _.
    - destruct (move_tree hp c r o k i Hn) as (hp1 & c1 & -> & Hn1). by eexists _, _.
    - destruct Hop as [w Hw]. destruct (set_tree hp c r o k w v Hn Hw) as (ref & c1 & -> & -> & Hn1). by eexists _, _. }
  destruct Hstep as (hp1 & c1 & -> & Hn1). simpl. by apply IH.
Qed.
Lemma updates_present_in ops : ∀ o, (∀ k v, DUpdate k v ∈ ops → is_Some (entries_ o !! k) ∧ DRemove k ∉ ops) → updates_present o ops.
Proof.
  induction ops as [|op ops IH]; intros o Hu; simpl; [done|]. split.
  - destruct op as [| | |k v]; try done. simpl. apply (Hu k v). by left.
  - apply IH. intros k v Hin. destruct (Hu k v) as [[w Hw] Hr]; [by right|]. split; [|intros Hd; apply Hr; by right].
    rewrite apply_diff_entries, Hw. case_decide as E; [|by eexists]. destruct op; simpl in *; subst; try by eexists. destruct Hr. by left.
Qed.
Lemma reconcile_updates_present o new : lockstep o → NoDup new.*1 → updates_present o (reconcile (contents o) new).
Proof.
  intros Hl Hn. destruct (contents_spec o Hl) as [C1 C2]. assert (Hnd : NoDup (contents o).*1) by (rewrite C1; apply Hl).
  apply updates_present_in. intros k v Hin. destruct (ops_about _ _ k _ Hnd Hn Hin eq_refl) as (Hv & w & Hw & _). split.
  - rewrite <- C2. exists w. by apply elem_of_list_to_map_1.
  - intros Hr. destruct (ops_about _ _ k _ Hnd Hn Hr eq_refl) as [_ []]. apply list_elem_of_fmap. by exists (k, v).
Qed.

(** *** Operation by operation *)
Inductive tree_op := TInsert (k : Id) (v : V) | TRemove (k : Id) | TMove (k : Id) (to : nat) | TSet (k : Id) (v : V)
  | TReconcile (old new : list (Id * V)) | TGet (k : Id) | TIds | TCount | THas (k : Id).
Inductive tree_answer := TDone | TBool (b : bool) | TGot (v : option V) | TKeys (l : list Id) | TLen (n : nat).

Definition tree_step r (op : tree_op) hp c : option (tree_answer * list (SourceTreeNode (H:=H) (Id:=Id)) * C) :=
  match op with
  | TInsert k v => '(_, hp, c) ← insert_child r k v hp c; Some (TDone, hp, c)
  | TRemove k => '(b, hp, c) ← remove_child r k hp c; Some (TBool b, hp, c)
  | TMove k to => '(b, hp, c) ← move_child r k to hp c; Some (TBool b, hp, c)
  | TSet k v => match child r k hp with Some ch => c ← tree_set ch v hp c; Some (TBool true, hp, c) | None => Some (TBool false, hp, c) end
  | TReconcile old new => '(hp, c) ← apply_to_tree r (reconcile old new) hp c; Some (TDone, hp, c)
  | TGet k => match child r k hp with Some ch => v ← tree_get ch hp c; Some (TGot (Some v), hp, c) | None => Some (TGot None, hp, c) end
  | TIds => l ← child_ids r hp c; Some (TKeys l, hp, c)
  | TCount => n ← child_count r hp c; Some (TLen n, hp, c)
  | THas k => Some (TBool (has_child r k hp), hp, c)
  end.
Definition tree_spec o (op : tree_op) : tree_answer * KeyedOrder Id V :=
  match op with
  | TInsert k v => (TDone, (KeyedOrder.insert o k v).2)
  | TRemove k => (TBool (bool_decide (is_Some (entries_ o !! k))), (remove o k).2)
  | TMove k to => (TBool (bool_decide (is_Some (entries_ o !! k))), (move_to o k to).2)
  | TSet k v => match entries_ o !! k with Some _ => (TBool true, set_value k v o) | None => (TBool false, o) end
  | TReconcile old new => (TDone, foldl apply_diff o (reconcile old new))
  | TGet k => (TGot (entries_ o !! k), o)
  | TIds => (TKeys (order_ o), o)
  | TCount => (TLen (length (order_ o)), o)
  | THas k => (TBool (bool_decide (is_Some (entries_ o !! k))), o)
  end.
(** A difference is taken from what the node shows, to distinct keys. *)
Definition tree_admits o (op : tree_op) : Prop := match op with TReconcile old new => old = contents o ∧ NoDup new.*1 | _ => True end.

Lemma child_none hp c r n om o k : shows_tree hp c r n om o → entries_ o !! k = None → child r k hp = None.
Proof. intros Ht Ek. unfold child. rewrite (st_node _ _ _ _ _ _ Ht). simpl. by rewrite (proj2 (index_none _ _ _ _ _ _ k Ht) Ek). Qed.

Lemma tree_step_ok hp c r o op : shows_node hp c r o → tree_admits o op →
  ∃ hp' c', tree_step r op hp c = Some ((tree_spec o op).1, hp', c') ∧ shows_node hp' c' r (tree_spec o op).2.
Proof.
  intros Hn Had. pose proof Hn as (n & om & Ht). destruct op as [k v|k|k to|k v|old new|k| | |k]; simpl.
  - destruct (insert_node_ok hp c r o k v Hn) as (ref & hp1 & c1 & -> & Hn1). by eexists _, _.
  - destruct (remove_tree hp c r o k Hn) as (hp1 & c1 & -> & Hn1). by eexists _, _.
  - destruct (move_tree hp c r o k to Hn) as (hp1 & c1 & -> & Hn1). by eexists _, _.
  - destruct (entries_ o !! k) as [w|] eqn:Ek; [|rewrite (child_none _ _ _ _ _ _ k Ht Ek); by eexists _, _].
    destruct (set_tree hp c r o k w v Hn Ek) as (ref & c1 & -> & -> & Hn1). by eexists _, _.
  - destruct Had as [-> Hnd]. destruct (apply_to_tree_ok (reconcile (contents o) new) hp c r o Hn) as (hp1 & c1 & -> & Hn1); [|by eexists _, _].
    by apply reconcile_updates_present; [apply Ht|].
  - destruct (entries_ o !! k) as [w|] eqn:Ek; [|rewrite (child_none _ _ _ _ _ _ k Ht Ek); by eexists _, _].
    destruct (child_shown _ _ _ _ _ _ k w Ht Ek) as (i & ref & ch & _ & _ & -> & _ & Hch & _ & Hh). unfold tree_get. rewrite Hch. simpl.
    rewrite (ctx_get_ok _ _ _ Hh). by eexists _, _.
  - unfold child_ids. rewrite (st_node _ _ _ _ _ _ Ht). simpl. rewrite (keys_ok _ _ _ (st_map _ _ _ _ _ _ Ht)), (st_order _ _ _ _ _ _ Ht). by eexists _, _.
  - unfold child_count. rewrite (st_node _ _ _ _ _ _ Ht). simpl. rewrite (len_ok _ _ _ (st_map _ _ _ _ _ _ Ht)), (st_order _ _ _ _ _ _ Ht). by eexists _, _.
  - eexists _, _. split; [|exact Hn]. unfold has_child. rewrite (st_node _ _ _ _ _ _ Ht). do 4 f_equal. apply bool_decide_ext.
    rewrite <- !not_eq_None_Some. apply not_iff_compat. by apply (index_none _ _ _ _ _ _ k Ht).
Qed.

Fixpoint tree_run r (ops : list tree_op) hp c : option (list tree_answer * list (SourceTreeNode (H:=H) (Id:=Id)) * C) :=
  match ops with
  | [] => Some ([], hp, c)
  | op :: ops => '(a, hp, c) ← tree_step r op hp c; '(l, hp, c) ← tree_run r ops hp c; Some (a :: l, hp, c)
  end.
Fixpoint tree_spec_run o (ops : list tree_op) : list tree_answer * KeyedOrder Id V :=
  match ops with
  | [] => ([], o)
  | op :: ops => let q := tree_spec o op in let l := tree_spec_run q.2 ops in (q.1 :: l.1, l.2)
  end.
Fixpoint tree_admits_all o (ops : list tree_op) : Prop :=
  match ops with [] => True | op :: ops => tree_admits o op ∧ tree_admits_all (tree_spec o op).2 ops end.
Lemma tree_run_ok ops : ∀ hp c r o, shows_node hp c r o → tree_admits_all o ops →
  ∃ hp' c', tree_run r ops hp c = Some ((tree_spec_run o ops).1, hp', c') ∧ shows_node hp' c' r (tree_spec_run o ops).2.
Proof.
  induction ops as [|op ops IH]; intros hp c r o Hn; simpl; [by eexists _, _|]. intros [Hop Hops].
  destruct (tree_step_ok hp c r o op Hn Hop) as (hp1 & c1 & -> & Hn1). simpl. destruct (IH hp1 c1 r _ Hn1 Hops) as (hp2 & c2 & -> & Hn2). by eexists _, _.
Qed.
End correct.
Arguments tree_op : clear implicits.

(** C36: A node of a source tree is a keyed order of its children's values:
    created in a settled context and driven through any insertions, removals,
    moves, writes to children, reconciliations of what it shows with distinct
    keys, and reads, it succeeds and answers as the keyed order does, and
    afterwards its child vector, its index and its reactive order still agree:
    the index holds exactly the positions of the ids. *)
Theorem source_tree_refines_order {C H Id V} `{SL : SourceContextLaws C H (FamilyValue (V + bool))} `{CC : ClearContext C H} `{CL : !ClearContextLaws C H (FamilyValue (V + bool))}
    `{CI : Countable Id} `{DV : EqDecision V} (c : C) (hp : list (SourceTreeNode (H:=H) (Id:=Id))) (root : Id) (v : V) (ops : list (tree_op Id V)) :
  ctx_ok c → tree_admits_all empty_order ops →
  ∃ hp0 c0 hp1 c1 n, tree_new root v hp c = Some (length hp, hp0, c0) ∧ tree_get (length hp) hp0 c0 = Some v ∧
    let r := tree_spec_run empty_order ops in
    tree_run (length hp) ops hp0 c0 = Some (r.1, hp1, c1) ∧ hp1 !! length hp = Some n ∧
    order_ (keyed (t_order n)) = order_ r.2 ∧ length (t_children n) = length (order_ r.2) ∧
    (∀ id i, t_child_index n !! id = Some i ↔ order_ r.2 !! i = Some id) ∧
    ∀ id w, entries_ r.2 !! id = Some w → ∃ ref ch, child (length hp) id hp1 = Some ref ∧ hp1 !! ref = Some ch ∧ t_id ch = id ∧ tree_get ref hp1 c1 = Some w.
Proof.
  intros Hc Had. destruct (tree_new_ok root v hp c Hc) as (hp0 & c0 & E0 & Hn0 & Hv). destruct (tree_run_ok ops hp0 c0 _ _ Hn0 Had) as (hp1 & c1 & E1 & n & om & Ht).
  exists hp0, c0, hp1, c1, n. cbv zeta. split_and!; [exact E0|exact Hv|exact E1|by eapply st_node| |by eapply children_length|by eapply st_index|].
  - rewrite (sm_order _ _ _ (st_map _ _ _ _ _ _ Ht)). by eapply st_order.
  - intros id w Ew. destruct (child_shown _ _ _ _ _ _ id w Ht Ew) as (i & ref & ch & _ & _ & H3 & _ & H5 & H6 & H7). exists ref, ch. split_and!; try done.
    unfold tree_get. rewrite H5. simpl. by rewrite (ctx_get_ok _ _ _ H7).
Qed.

Lemma source_tree_refines_order_witness :
  let ops := [TInsert 3 30; TInsert 1 10; TMove 3 1; TReconcile [(1, 10); (3, 30)] [(1, 11); (2, 20)]; TIds] in
  let c : Ctx (FamilyValue (nat + bool)) := empty_ctx in
  ctx_ok (T:=FamilyValue (nat + bool)) c ∧ tree_admits_all (empty_order : KeyedOrder nat nat) ops ∧
  (tree_spec_run (empty_order : KeyedOrder nat nat) ops).1 = [TDone; TDone; TBool true; TDone; TKeys [1; 2]] ∧
  ∃ hp0 c0 hp1 c1, tree_new 0 7 ([] : list (SourceTreeNode (H:=Handle) (Id:=nat))) c = Some (0, hp0, c0) ∧
    tree_run 0 ops hp0 c0 = Some ((tree_spec_run (empty_order : KeyedOrder nat nat) ops).1, hp1, c1).
Proof.
  cbv zeta. set (ops := [TInsert 3 30; TInsert 1 10; TMove 3 1; TReconcile [(1, 10); (3, 30)] [(1, 11); (2, 20)]; TIds]).
  assert (Had : tree_admits_all (empty_order : KeyedOrder nat nat) ops).
  { cbn [ops tree_admits_all tree_admits]. do 3 (split; [exact I|]). split; [|done]. split; [by vm_compute|]. apply (bool_decide_unpack _); by vm_compute. }
  split; [apply empty_ctx_ok|]. split; [exact Had|]. split; [by vm_compute|].
  destruct (source_tree_refines_order (H:=Handle) (empty_ctx : Ctx (FamilyValue (nat + bool))) [] 0 7 ops empty_ctx_ok Had)
    as (hp0 & c0 & hp1 & c1 & n & E0 & _ & E1 & _). by exists hp0, c0, hp1, c1.
Defined.
