(* ===== verification/Service.v ===== *)
(** * Service: health, readiness, discovery and the durable registry

    Models include/lazily/service.hpp: four cores (two maps of probes, a map of
    endpoints with their owners, a log with its projection) and the cells that
    publish a view of them after every operation (Reactive's refresh pattern).
    An ordered map is a finite map: its order decides no answer. *)
From S2P Require Import Prelude Kernel KernelCorrect Reactive.
From stdpp Require Import strings.
#[local] Open Scope Z_scope.

(** ** Health *)

(* include/lazily/service.hpp:32-36, Health *)
Inductive Health := Healthy | Degraded | Unhealthy.
#[export] Instance Health_eq_dec : EqDecision Health.
Proof. solve_decision. Defined.

(** A probe is up or not, and critical or not. *)
(* include/lazily/service.hpp:62-62, HealthCore (data members) *)
Definition HealthCore : Type := gmap string (bool * bool).
(* include/lazily/service.hpp:45-47, HealthCore::set *)
Definition health_set (name : string) (up critical : bool) (probes : gmap string (bool * bool)) : gmap string (bool * bool) := <[name := (up, critical)]> probes.
(* include/lazily/service.hpp:51-59, HealthCore::health *)
Definition health (probes : gmap string (bool * bool)) : Health :=
  if existsb (λ kv : string * (bool * bool), kv.2.2 && negb kv.2.1) (map_to_list probes) then Unhealthy
  else if existsb (λ kv : string * (bool * bool), negb kv.2.1) (map_to_list probes) then Degraded
  else Healthy.

Inductive health_op := HSet (name : string) (up critical : bool).
Definition health_step (m : gmap string (bool * bool)) (o : health_op) : () * gmap string (bool * bool) :=
  match o with HSet name up critical => ((), health_set name up critical m) end.

Section health.
Context {C H : Type} `{!SourceContext C H Health}.
Notation Cell := (Mirrored (H:=H) (S:=gmap string (bool * bool))).

(* include/lazily/service.hpp:68-68, HealthCell::HealthCell *)
Definition health_cell_new (c : C) : option (Cell * C) := '(h, c) ← ctx_source Healthy c; Some (mkMirrored ∅ h, c).
(* include/lazily/service.hpp:79-79, HealthCell::refresh *)
Definition health_refresh (cell : Cell) (c : C) : option C := ctx_set (mcell_ cell) (health (mcore_ cell)) c.
(* include/lazily/service.hpp:70-73, HealthCell::set *)
Definition health_cell_set (name : string) (up critical : bool) (cell : Cell) (c : C) : option (Cell * C) :=
  let cell := mkMirrored (health_set name up critical (mcore_ cell)) (mcell_ cell) in
  c ← health_refresh cell c; Some (cell, c).
Definition health_cell_step (cell : Cell) (o : health_op) (c : C) : option (() * Cell * C) :=
  '(cell, c) ← match o with HSet name up critical => health_cell_set name up critical cell c end; Some ((), cell, c).
(* include/lazily/service.hpp:75-75, HealthCell::health *)
Definition health_cell_health (cell : Cell) : Health := health (mcore_ cell).
End health.

(** ** Readiness *)

(* include/lazily/service.hpp:104-104, ReadinessCore (data members) *)
Definition ReadinessCore : Type := gmap string bool.
(* include/lazily/service.hpp:94-94, ReadinessCore::set *)
Definition readiness_set (name : string) (ready : bool) (conditions : gmap string bool) : gmap string bool := <[name := ready]> conditions.
(* include/lazily/service.hpp:96-101, ReadinessCore::ready *)
Definition ready (conditions : gmap string bool) : bool := negb (existsb (λ kv : string * bool, negb kv.2) (map_to_list conditions)).

Inductive ready_op := RSet (name : string) (value : bool).
Definition ready_step (m : gmap string bool) (o : ready_op) : () * gmap string bool :=
  match o with RSet name value => ((), readiness_set name value m) end.

Section readiness.
Context {C H : Type} `{!SourceContext C H bool}.
Notation Cell := (Mirrored (H:=H) (S:=gmap string bool)).

(* include/lazily/service.hpp:110-110, ReadinessCell::ReadinessCell *)
Definition readiness_cell_new (c : C) : option (Cell * C) := '(h, c) ← ctx_source true c; Some (mkMirrored ∅ h, c).
(* include/lazily/service.hpp:121-121, ReadinessCell::refresh *)
Definition readiness_refresh (cell : Cell) (c : C) : option C := ctx_set (mcell_ cell) (ready (mcore_ cell)) c.
(* include/lazily/service.hpp:112-115, ReadinessCell::set *)
Definition readiness_cell_set (name : string) (value : bool) (cell : Cell) (c : C) : option (Cell * C) :=
  let cell := mkMirrored (readiness_set name value (mcore_ cell)) (mcell_ cell) in
  c ← readiness_refresh cell c; Some (cell, c).
Definition readiness_cell_step (cell : Cell) (o : ready_op) (c : C) : option (() * Cell * C) :=
  '(cell, c) ← match o with RSet name value => readiness_cell_set name value cell c end; Some ((), cell, c).
(* include/lazily/service.hpp:117-117, ReadinessCell::ready *)
Definition readiness_cell_ready (cell : Cell) : bool := ready (mcore_ cell).
End readiness.

(** ** Discovery *)
Section discovery.
Context {P : Type} `{EqDecision P}.

(** A service has an endpoint and an owner. *)
(* include/lazily/service.hpp:170-170, DiscoveryCore (data members) *)
Definition DiscoveryCore : Type := gmap string (string * P).
(* include/lazily/service.hpp:138-140, DiscoveryCore::register_ *)
Definition discovery_register (service endpoint : string) (peer : P) (m : gmap string (string * P)) : gmap string (string * P) := <[service := (endpoint, peer)]> m.
(* include/lazily/service.hpp:142-142, DiscoveryCore::deregister *)
Definition discovery_deregister (service : string) (m : gmap string (string * P)) : gmap string (string * P) := delete service m.
(* include/lazily/service.hpp:145-153, DiscoveryCore::evict *)
Definition discovery_evict (peer : P) (m : gmap string (string * P)) : gmap string (string * P) := filter (λ kv, kv.2.2 ≠ peer) m.
(* include/lazily/service.hpp:155-159, DiscoveryCore::resolve *)
Definition resolve (service : string) (m : gmap string (string * P)) : option string := fst <$> m !! service.
(* include/lazily/service.hpp:162-167, DiscoveryCore::discovery *)
Definition discovery (m : gmap string (string * P)) : gmap string string := fst <$> m.

Inductive disc_op := DRegister (service endpoint : string) (peer : P) | DDeregister (service : string) | DEvict (peer : P).
Definition disc_step (m : gmap string (string * P)) (o : disc_op) : () * gmap string (string * P) :=
  match o with
  | DRegister service endpoint peer => ((), discovery_register service endpoint peer m)
  | DDeregister service => ((), discovery_deregister service m)
  | DEvict peer => ((), discovery_evict peer m)
  end.

Context {C H : Type} `{!SourceContext C H (gmap string string)}.
Notation Cell := (Mirrored (H:=H) (S:=gmap string (string * P))).

(* include/lazily/service.hpp:176-177, DiscoveryCell::DiscoveryCell *)
Definition discovery_cell_new (c : C) : option (Cell * C) := '(h, c) ← ctx_source ∅ c; Some (mkMirrored ∅ h, c).
(* include/lazily/service.hpp:203-203, DiscoveryCell::refresh *)
Definition discovery_refresh (cell : Cell) (c : C) : option C := ctx_set (mcell_ cell) (discovery (mcore_ cell)) c.
(* include/lazily/service.hpp:179-182, DiscoveryCell::register_ *)
Definition discovery_cell_register (service endpoint : string) (peer : P) (cell : Cell) (c : C) : option (Cell * C) :=
  let cell := mkMirrored (discovery_register service endpoint peer (mcore_ cell)) (mcell_ cell) in
  c ← discovery_refresh cell c; Some (cell, c).
(* include/lazily/service.hpp:184-187, DiscoveryCell::deregister *)
Definition discovery_cell_deregister (service : string) (cell : Cell) (c : C) : option (Cell * C) :=
  let cell := mkMirrored (discovery_deregister service (mcore_ cell)) (mcell_ cell) in
  c ← discovery_refresh cell c; Some (cell, c).
(* include/lazily/service.hpp:189-192, DiscoveryCell::evict *)
Definition discovery_cell_evict (peer : P) (cell : Cell) (c : C) : option (Cell * C) :=
  let cell := mkMirrored (discovery_evict peer (mcore_ cell)) (mcell_ cell) in
  c ← discovery_refresh cell c; Some (cell, c).
(* include/lazily/service.hpp:194-196, DiscoveryCell::resolve *)
Definition discovery_cell_resolve (service : string) (cell : Cell) : option string := resolve service (mcore_ cell).
(* include/lazily/service.hpp:198-198, DiscoveryCell::discovery *)
Definition discovery_cell_discovery (cell : Cell) (c : C) : option (gmap string string) := ctx_get (mcell_ cell) c.
Definition discovery_cell_step (cell : Cell) (o : disc_op) (c : C) : option (() * Cell * C) :=
  '(cell, c) ← match o with
    | DRegister service endpoint peer => discovery_cell_register service endpoint peer cell c
    | DDeregister service => discovery_cell_deregister service cell c
    | DEvict peer => discovery_cell_evict peer cell c
    end; Some ((), cell, c).
End discovery.

(** ** The durable registry *)

(* include/lazily/service.hpp:214-228, RegistryOp *)
Inductive RegistryOp := Register (service endpoint : string) | Deregister (service : string).

(* include/lazily/service.hpp:268-269, ServiceRegistryCore (data members) *)
Record ServiceRegistryCore := mkRegistry { log_ : list RegistryOp; projection_ : gmap string string }.
(* include/lazily/service.hpp:260-266, ServiceRegistryCore::apply *)
Definition registry_apply (m : gmap string string) (op : RegistryOp) : gmap string string :=
  match op with Register service endpoint => <[service := endpoint]> m | Deregister service => delete service m end.
(* include/lazily/service.hpp:236-240, ServiceRegistryCore::register_ *)
Definition registry_register (service endpoint : string) (r : ServiceRegistryCore) : ServiceRegistryCore :=
  let op := Register service endpoint in mkRegistry (log_ r ++ [op]) (registry_apply (projection_ r) op).
(* include/lazily/service.hpp:242-246, ServiceRegistryCore::deregister *)
Definition registry_deregister (service : string) (r : ServiceRegistryCore) : ServiceRegistryCore :=
  let op := Deregister service in mkRegistry (log_ r ++ [op]) (registry_apply (projection_ r) op).
(* include/lazily/service.hpp:249-254, ServiceRegistryCore::replay *)
Definition registry_replay (r : ServiceRegistryCore) : ServiceRegistryCore := mkRegistry (log_ r) (foldl registry_apply ∅ (log_ r)).

Inductive registry_call := CRegister (service endpoint : string) | CDeregister (service : string) | CReplay.
Definition registry_step (r : ServiceRegistryCore) (o : registry_call) : () * ServiceRegistryCore :=
  match o with
  | CRegister service endpoint => ((), registry_register service endpoint r)
  | CDeregister service => ((), registry_deregister service r)
  | CReplay => ((), registry_replay r)
  end.

Section registry.
Context {C H : Type} `{!SourceContext C H (gmap string string)}.
Notation Cell := (Mirrored (H:=H) (S:=ServiceRegistryCore)).

(* include/lazily/service.hpp:275-276, ServiceRegistry::ServiceRegistry *)
Definition registry_new (c : C) : option (Cell * C) := '(h, c) ← ctx_source ∅ c; Some (mkMirrored (mkRegistry [] ∅) h, c).
(* include/lazily/service.hpp:298-298, ServiceRegistry::refresh *)
Definition registry_refresh (cell : Cell) (c : C) : option C := ctx_set (mcell_ cell) (projection_ (mcore_ cell)) c.
(* include/lazily/service.hpp:278-281, ServiceRegistry::register_ *)
Definition registry_cell_register (service endpoint : string) (cell : Cell) (c : C) : option (Cell * C) :=
  let cell := mkMirrored (registry_register service endpoint (mcore_ cell)) (mcell_ cell) in
  c ← registry_refresh cell c; Some (cell, c).
(* include/lazily/service.hpp:283-286, ServiceRegistry::deregister *)
Definition registry_cell_deregister (service : string) (cell : Cell) (c : C) : option (Cell * C) :=
  let cell := mkMirrored (registry_deregister service (mcore_ cell)) (mcell_ cell) in
  c ← registry_refresh cell c; Some (cell, c).
(* include/lazily/service.hpp:288-291, ServiceRegistry::replay *)
Definition registry_cell_replay (cell : Cell) (c : C) : option (Cell * C) :=
  let cell := mkMirrored (registry_replay (mcore_ cell)) (mcell_ cell) in
  c ← registry_refresh cell c; Some (cell, c).
(* include/lazily/service.hpp:293-293, ServiceRegistry::projection *)
Definition registry_cell_projection (cell : Cell) (c : C) : option (gmap string string) := ctx_get (mcell_ cell) c.
Definition registry_cell_step (cell : Cell) (o : registry_call) (c : C) : option (() * Cell * C) :=
  '(cell, c) ← match o with
    | CRegister service endpoint => registry_cell_register service endpoint cell c
    | CDeregister service => registry_cell_deregister service cell c
    | CReplay => registry_cell_replay cell c
    end; Some ((), cell, c).
End registry.

(** ** The last word on a key *)

(** Maps written by operations of which each sets at most one key, and spares
    or removes what others hold. *)
Section last_word.
Context {V I : Type} (step : gmap string V → I → () * gmap string V) (sets : I → option (string * V)) (spares : string → V → I → Prop).

(** Some operation set the key so, and all after it spared that. *)
Definition last_word (ops : list I) (k : string) (v : V) : Prop :=
  ∃ i o, ops !! i = Some o ∧ sets o = Some (k, v) ∧ ∀ j o', (i < j)%nat → ops !! j = Some o' → spares k v o'.

Context (Hstep : ∀ m o k v, (step m o).2 !! k = Some v ↔ sets o = Some (k, v) ∨ (m !! k = Some v ∧ spares k v o)).

Lemma last_word_snoc ops o k v : last_word (ops ++ [o]) k v ↔ sets o = Some (k, v) ∨ (last_word ops k v ∧ spares k v o).
Proof.
  split.
  - intros (i & o1 & Hi & Hs & Hj). apply lookup_app_Some in Hi as [Hi|[Hlen Hi]].
    + right. split.
      * exists i, o1. split_and!; [done..|]. intros j o' Hij Ho. apply (Hj j); [done|]. by apply lookup_app_l_Some.
      * apply (Hj (length ops)); [by eapply lookup_lt_Some|]. by rewrite list_lookup_middle.
    + left. apply list_lookup_singleton_Some in Hi as [_ ->]. done.
  - intros [Hs|[(i & o1 & Hi & Hs & Hj) Hsp]].
    + exists (length ops), o. split_and!; [by rewrite list_lookup_middle|done|]. intros j o' Hl Hj.
      apply lookup_lt_Some in Hj. rewrite length_app in Hj. simpl in Hj. lia.
    + exists i, o1. split_and!; [by apply lookup_app_l_Some|done|]. intros j o' Hij Ho. apply lookup_app_Some in Ho as [Ho|[Hlen Ho]]; [by apply (Hj j)|].
      apply list_lookup_singleton_Some in Ho as [_ <-]. done.
Qed.
Lemma run_last_word ops k v : (core_run step ∅ ops).2 !! k = Some v ↔ last_word ops k v.
Proof.
  revert k v. induction ops as [|o ops IH] using rev_ind; intros k v.
  - simpl. rewrite lookup_empty. split; [done|]. intros (i & o & Hi & _). by rewrite lookup_nil in Hi.
  - rewrite core_run_snoc. simpl. by rewrite Hstep, IH, last_word_snoc.
Qed.
End last_word.

Lemma existsb_map {V} (f : string * V → bool) (m : gmap string V) : existsb f (map_to_list m) = true ↔ ∃ k v, m !! k = Some v ∧ f (k, v) = true.
Proof.
  rewrite List.existsb_exists. setoid_rewrite <- list_elem_of_In. split.
  - intros ([k v] & Hin%elem_of_map_to_list & Hf). eauto.
  - intros (k & v & Hm & Hf). exists (k, v). by rewrite elem_of_map_to_list.
Qed.

(** *** What sets and what spares a key *)

Definition probe_of (o : health_op) : option (string * (bool * bool)) := match o with HSet n up critical => Some (n, (up, critical)) end.
Definition probe_spared (k : string) (_ : bool * bool) (o : health_op) : Prop := match o with HSet n _ _ => n ≠ k end.
Definition condition_of (o : ready_op) : option (string * bool) := match o with RSet n b => Some (n, b) end.
Definition condition_spared (k : string) (_ : bool) (o : ready_op) : Prop := match o with RSet n _ => n ≠ k end.

Lemma insert_word {V} (m : gmap string V) n v k w : <[n := v]> m !! k = Some w ↔ Some (n, v) = Some (k, w) ∨ (m !! k = Some w ∧ n ≠ k).
Proof. rewrite lookup_insert_Some. naive_solver. Qed.

Lemma health_says ops :
  let m := (core_run health_step ∅ ops).2 in
  (health m = Unhealthy ↔ ∃ k, last_word probe_of probe_spared ops k (false, true)) ∧
  (health m = Healthy ↔ ∀ k v, last_word probe_of probe_spared ops k v → v.1 = true).
Proof.
  intros m.
  assert (Hm : ∀ k v, m !! k = Some v ↔ last_word probe_of probe_spared ops k v).
  { intros k v. apply run_last_word. intros m' [n up cr] k' v'. simpl. apply insert_word. }
  unfold health. destruct (existsb _ (map_to_list m)) eqn:E1; [|destruct (existsb (λ kv, negb kv.2.1) _) eqn:E2].
  - apply existsb_map in E1 as (k & [up cr] & Hk & Hf). simpl in Hf. destruct cr, up; try done. apply Hm in Hk. split; [split; [eauto|done]|].
    split; [done|]. intros Hall. by specialize (Hall _ _ Hk).
  - apply existsb_map in E2 as (k & [up cr] & Hk & Hf). simpl in Hf. destruct up; [done|]. apply Hm in Hk. split.
    + split; [done|]. intros (k' & Hk'). apply Hm in Hk'. assert (E : existsb (λ kv : string * (bool * bool), kv.2.2 && negb kv.2.1) (map_to_list m) = true) by (apply existsb_map; eauto). congruence.
    + split; [done|]. intros Hall. by specialize (Hall _ _ Hk).
  - split; [split; [done|]|split; [|done]].
    + intros (k' & Hk'). apply Hm in Hk'. assert (E : existsb (λ kv : string * (bool * bool), negb kv.2.1) (map_to_list m) = true) by (apply existsb_map; eauto). congruence.
    + intros _ k' [up cr] Hk'. apply Hm in Hk'. destruct up; [done|]. assert (E : existsb (λ kv : string * (bool * bool), negb kv.2.1) (map_to_list m) = true) by (apply existsb_map; eauto). congruence.
Qed.
Lemma readiness_says ops :
  let m := (core_run ready_step ∅ ops).2 in ready m = true ↔ ∀ k v, last_word condition_of condition_spared ops k v → v = true.
Proof.
  intros m.
  assert (Hm : ∀ k v, m !! k = Some v ↔ last_word condition_of condition_spared ops k v).
  { intros k v. apply run_last_word. intros m' [n b] k' v'. simpl. apply insert_word. }
  unfold ready. rewrite negb_true_iff, <- not_true_iff_false, existsb_map. setoid_rewrite Hm. split.
  - intros Hn k [] Hk; [done|]. destruct Hn. by exists k, false.
  - intros Hall (k & v & Hk & Hf). by rewrite (Hall k v Hk) in Hf.
Qed.

Section discovery_words.
Context {P : Type} `{EqDecision P}.
Definition endpoint_of (o : disc_op (P:=P)) : option (string * (string * P)) := match o with DRegister s e p => Some (s, (e, p)) | _ => None end.
Definition endpoint_spared (k : string) (v : string * P) (o : disc_op (P:=P)) : Prop :=
  match o with DRegister s _ _ | DDeregister s => s ≠ k | DEvict p => v.2 ≠ p end.
Lemma discovery_says (ops : list (disc_op (P:=P))) k e :
  discovery (core_run disc_step ∅ ops).2 !! k = Some e ↔ ∃ p, last_word endpoint_of endpoint_spared ops k (e, p).
Proof.
  assert (Hm : ∀ k v, (core_run disc_step ∅ ops).2 !! k = Some v ↔ last_word endpoint_of endpoint_spared ops k v).
  { intros k' v'. apply run_last_word. intros m' [s e' p|s|p] k1 v1; simpl.
    - unfold discovery_register. apply insert_word.
    - unfold discovery_deregister. rewrite lookup_delete_Some. naive_solver.
    - unfold discovery_evict. rewrite map_lookup_filter_Some. naive_solver. }
  unfold discovery. rewrite lookup_fmap, fmap_Some. setoid_rewrite Hm. split; [intros ([e' p] & ? & ->); eauto|intros [p ?]; by exists (e, p)].
Qed.
End discovery_words.

Definition registration_of (o : registry_call) : option (string * string) := match o with CRegister s e => Some (s, e) | _ => None end.
Definition registration_spared (k : string) (_ : string) (o : registry_call) : Prop :=
  match o with CRegister s _ | CDeregister s => s ≠ k | CReplay => True end.
(** What a call adds to the log. *)
Definition logged (o : registry_call) : option RegistryOp :=
  match o with CRegister s e => Some (Register s e) | CDeregister s => Some (Deregister s) | CReplay => None end.

Lemma registry_is_its_log ops :
  let r := (core_run registry_step (mkRegistry [] ∅) ops).2 in log_ r = omap logged ops ∧ projection_ r = foldl registry_apply ∅ (log_ r).
Proof.
  induction ops as [|o ops [IH1 IH2]] using rev_ind; [done|]. cbn zeta. rewrite core_run_snoc, omap_app. cbn [snd].
  set (r := (core_run registry_step (mkRegistry [] ∅) ops).2) in *.
  destruct o; simpl; rewrite <- ?IH1, ?foldl_app, ?IH2, ?app_nil_r; split; try done; simpl; by rewrite <- IH2.
Qed.
Lemma registry_says ops k e :
  projection_ (core_run registry_step (mkRegistry [] ∅) ops).2 !! k = Some e ↔ last_word registration_of registration_spared ops k e.
Proof.
  revert k e. induction ops as [|o ops IH] using rev_ind; intros k e.
  - simpl. rewrite lookup_empty. split; [done|]. intros (i & o & Hi & _). by rewrite lookup_nil in Hi.
  - destruct (registry_is_its_log ops) as [_ Hp]. rewrite core_run_snoc, last_word_snoc, <- IH. cbn [snd].
    set (r := (core_run registry_step (mkRegistry [] ∅) ops).2) in *. destruct o as [s e'|s|]; simpl.
    + rewrite lookup_insert_Some. naive_solver.
    + rewrite lookup_delete_Some. naive_solver.
    + rewrite <- Hp. naive_solver.
Qed.

(** ** The cells *)

(** C39: The service cells tell what was last reported.  Over any implementation
    of the context's sources, whatever calls are made: the health source reads
    Unhealthy exactly when the last report of some probe was down and critical,
    and Healthy exactly when the last report of every probe was up; the readiness
    source reads true exactly when the last report of every condition was ready;
    the discovery source holds an endpoint exactly when it was the last one
    registered for the service and neither the service was deregistered nor its
    owner evicted since; and the registry holds the last registrations not
    undone, equal to the fold of a log of all registrations and removals, whether
    or not it was replayed. *)
Theorem services_tell_last_reports {P C H : Type} `{EqDecision P}
    `{!SourceContext C H Health, !SourceContextLaws C H Health} `{!SourceContext C H bool, !SourceContextLaws C H bool}
    `{!SourceContext C H (gmap string string), !SourceContextLaws C H (gmap string string)}
    (hs : list health_op) (rs : list ready_op) (ds : list (disc_op (P:=P))) (gs : list registry_call) (c1 c2 c3 c4 : C) :
  ctx_ok (T:=Health) c1 → ctx_ok (T:=bool) c2 → ctx_ok (T:=gmap string string) c3 → ctx_ok (T:=gmap string string) c4 →
  (∃ cell cell' os c c', health_cell_new c1 = Some (cell, c) ∧ drive health_cell_step cell hs c = Some (os, cell', c') ∧
    ∃ v, ctx_get (mcell_ cell') c' = Some v ∧ health_cell_health cell' = v ∧
      (v = Unhealthy ↔ ∃ k, last_word probe_of probe_spared hs k (false, true)) ∧ (v = Healthy ↔ ∀ k p, last_word probe_of probe_spared hs k p → p.1 = true)) ∧
  (∃ cell cell' os c c', readiness_cell_new c2 = Some (cell, c) ∧ drive readiness_cell_step cell rs c = Some (os, cell', c') ∧
    ∃ v, ctx_get (mcell_ cell') c' = Some v ∧ readiness_cell_ready cell' = v ∧ (v = true ↔ ∀ k b, last_word condition_of condition_spared rs k b → b = true)) ∧
  (∃ cell cell' os c c', discovery_cell_new c3 = Some (cell, c) ∧ drive discovery_cell_step cell ds c = Some (os, cell', c') ∧
    ∃ v, discovery_cell_discovery cell' c' = Some v ∧ ∀ k e, (v !! k = Some e ↔ ∃ p, last_word endpoint_of endpoint_spared ds k (e, p)) ∧ discovery_cell_resolve k cell' = v !! k) ∧
  (∃ cell cell' os c c', registry_new c4 = Some (cell, c) ∧ drive registry_cell_step cell gs c = Some (os, cell', c') ∧
    ∃ v, registry_cell_projection cell' c' = Some v ∧ log_ (mcore_ cell') = omap logged gs ∧ v = foldl registry_apply ∅ (omap logged gs) ∧
      ∀ k e, v !! k = Some e ↔ last_word registration_of registration_spared gs k e).
Proof.
  intros Hc1 Hc2 Hc3 Hc4. split_and!.
  - destruct (refreshed_view health_step health (health_cell_new c1) health_cell_step ∅ hs c1 Hc1 eq_refl) as (h & d1 & d2 & E1 & E2 & Hg & _).
    { intros [s h] [n up cr] c'. unfold health_cell_step, health_cell_set, health_refresh, refreshed_step. simpl. by destruct (ctx_set _ _ c'). }
    eexists _, _, _, _, _. split_and!; [exact E1|exact E2|]. eexists. split; [exact Hg|]. split; [done|]. apply health_says.
  - destruct (refreshed_view ready_step ready (readiness_cell_new c2) readiness_cell_step ∅ rs c2 Hc2 eq_refl) as (h & d1 & d2 & E1 & E2 & Hg & _).
    { intros [s h] [n b] c'. unfold readiness_cell_step, readiness_cell_set, readiness_refresh, refreshed_step. simpl. by destruct (ctx_set _ _ c'). }
    eexists _, _, _, _, _. split_and!; [exact E1|exact E2|]. eexists. split; [exact Hg|]. split; [done|]. apply readiness_says.
  - destruct (refreshed_view disc_step discovery (discovery_cell_new c3) discovery_cell_step ∅ ds c3 Hc3) as (h & d1 & d2 & E1 & E2 & Hg & _).
    { unfold discovery_cell_new, discovery. by rewrite fmap_empty. }
    { intros [s h] [n e p|n|p] c'; unfold discovery_cell_step, discovery_cell_register, discovery_cell_deregister, discovery_cell_evict, discovery_refresh, refreshed_step; simpl;
        by destruct (ctx_set _ _ c'). }
    eexists _, _, _, _, _. split_and!; [exact E1|exact E2|]. eexists. split; [exact Hg|]. intros k e. split; [apply discovery_says|].
    unfold discovery_cell_resolve, resolve, discovery. by rewrite lookup_fmap.
  - destruct (refreshed_view registry_step projection_ (registry_new c4) registry_cell_step (mkRegistry [] ∅) gs c4 Hc4 eq_refl) as (h & d1 & d2 & E1 & E2 & Hg & _).
    { intros [s h] [n e|n|] c'; unfold registry_cell_step, registry_cell_register, registry_cell_deregister, registry_cell_replay, registry_refresh, refreshed_step; simpl;
        by destruct (ctx_set _ _ c'). }
    destruct (registry_is_its_log gs) as [L1 L2].
    eexists _, _, _, _, _. split_and!; [exact E1|exact E2|]. eexists. split; [exact Hg|]. split; [exact L1|]. split; [by rewrite L2, L1|]. apply registry_says.
Qed.

(** On the engine, with a registry that is restarted in between. *)
Definition calls : list registry_call := [CRegister "a" "x"; CRegister "b" "y"; CReplay; CRegister "a" "z"; CDeregister "b"].
Lemma services_tell_last_reports_witness :
  let c : Ctx (Health + (bool + gmap string string)) := empty_ctx in
  ∃ cell cell' os c1 c2, registry_new c = Some (cell, c1) ∧ drive registry_cell_step cell calls c1 = Some (os, cell', c2) ∧
    ∃ v, registry_cell_projection cell' c2 = Some v ∧ log_ (mcore_ cell') = omap logged calls ∧ v = foldl registry_apply ∅ (omap logged calls) ∧
      ∀ k e, v !! k = Some e ↔ last_word registration_of registration_spared calls k e.
Proof.
  intros c. destruct (services_tell_last_reports (P:=nat) [HSet "db" false true] [RSet "db" false] [DRegister "a" "x" 1%nat; DEvict 1%nat] calls c c c c
    (empty_ctx_ok (T:=Health)) (empty_ctx_ok (T:=bool)) (empty_ctx_ok (T:=gmap string string)) (empty_ctx_ok (T:=gmap string string))) as (_ & _ & _ & W).
  exact W.
Defined.
