(* ===== verification/Signaling.v ===== *)
(** * Signaling: the room in which peers meet

    Models include/lazily/signaling.hpp: the messages, the room with its
    connections, mailboxes and allow lists, and every operation.  Each holds the
    room's mutex from beginning to end.  Iterating the connections only pushes
    to their mailboxes or collects what is sorted afterwards, so the hash map is
    a finite map.  Text is its bytes. *)
From Stdlib Require Import String.
From S2P Require Import Prelude Bytes Json.
#[local] Open Scope Z_scope.
#[local] Open Scope lazily_scope.

(** ** Messages *)

(* include/lazily/signaling.hpp:21-21, SignalingMode *)
Inductive SignalingMode := Open | Allowlist.
#[export] Instance SignalingMode_eq_dec : EqDecision SignalingMode.
Proof. solve_decision. Defined.
(* include/lazily/signaling.hpp:24-47, ClientMessage *)
Inductive ClientMessage :=
  | ClientJoin (peer : Z) (capabilities : list (list Z))
  | ClientOffer (to : Z) (sdp : list Z)
  | ClientAnswer (to : Z) (sdp : list Z)
  | ClientIce (to : Z) (candidate : list Z)
  | ClientRelay (to : Z) (payload : list Z)
  | ClientLeave.
(* include/lazily/signaling.hpp:50-82, ServerMessage *)
Inductive ServerMessage :=
  | ServerWelcome (peer : Z) (peers : list Z)
  | ServerPeerJoined (peer : Z)
  | ServerPeerLeft (peer : Z)
  | ServerOffer (from : Z) (sdp : list Z)
  | ServerAnswer (from : Z) (sdp : list Z)
  | ServerIce (from : Z) (candidate : list Z)
  | ServerRelay (from : Z) (payload : list Z)
  | ServerError (code message : list Z).

(** ** The room *)

(* include/lazily/signaling.hpp:247-250, SignalingRoom::ConnState *)
Record ConnState := mkConn { conn_peer : option Z; outbound : list ServerMessage }.
Definition conn_new : ConnState := mkConn None [].
(* include/lazily/signaling.hpp:263-268, SignalingRoom (data members) *)
Record SignalingRoom := mkRoom {
  mode_ : SignalingMode; next_conn_id_ : Z; conns_ : gmap Z ConnState; peer_to_conn_ : gmap Z Z;
  join_allowed_ : gset Z; signal_allowed_ : gmap Z (gset Z) }.
Definition with_conns (cs : gmap Z ConnState) (r : SignalingRoom) : SignalingRoom :=
  mkRoom (mode_ r) (next_conn_id_ r) cs (peer_to_conn_ r) (join_allowed_ r) (signal_allowed_ r).
Definition with_index (ix : gmap Z Z) (r : SignalingRoom) : SignalingRoom :=
  mkRoom (mode_ r) (next_conn_id_ r) (conns_ r) ix (join_allowed_ r) (signal_allowed_ r).

(* include/lazily/signaling.hpp:88-89, SignalingRoom::SignalingRoom *)
Definition room_new (mode : SignalingMode) : SignalingRoom := mkRoom mode 1 ∅ ∅ ∅ ∅.

(* include/lazily/signaling.hpp:91-96, SignalingRoom::connect *)
Definition connect (r : SignalingRoom) : Z * SignalingRoom :=
  let id := next_conn_id_ r in
  (id, mkRoom (mode_ r) (id +64 1) (<[id := conn_new]> (conns_ r)) (peer_to_conn_ r) (join_allowed_ r) (signal_allowed_ r)).

Definition push_out (m : ServerMessage) (s : ConnState) : ConnState := mkConn (conn_peer s) (outbound s ++ [m]).
(** To every connection that has joined as another peer. *)
(* include/lazily/signaling.hpp:105-109, SignalingRoom::disconnect (loop) *)
Definition tell_others (peer : Z) (m : ServerMessage) (cs : gmap Z ConnState) : gmap Z ConnState :=
  (λ s, match conn_peer s with Some p => if p =? peer then s else push_out m s | None => s end) <$> cs.

(* include/lazily/signaling.hpp:98-112, SignalingRoom::disconnect *)
Definition disconnect (conn_id : Z) (r : SignalingRoom) : SignalingRoom :=
  match conns_ r !! conn_id with
  | None => r
  | Some it =>
      let r := match conn_peer it with
        | Some peer => with_conns (tell_others peer (ServerPeerLeft peer) (conns_ r)) (with_index (delete peer (peer_to_conn_ r)) r)
        | None => r
        end in
      with_conns (delete conn_id (conns_ r)) r
  end.

(* include/lazily/signaling.hpp:114-117, SignalingRoom::allow_join *)
Definition allow_join (peer : Z) (r : SignalingRoom) : SignalingRoom :=
  mkRoom (mode_ r) (next_conn_id_ r) (conns_ r) (peer_to_conn_ r) ({[peer]} ∪ join_allowed_ r) (signal_allowed_ r).
(* include/lazily/signaling.hpp:119-122, SignalingRoom::allow_signal *)
Definition allow_signal (from target : Z) (r : SignalingRoom) : SignalingRoom :=
  mkRoom (mode_ r) (next_conn_id_ r) (conns_ r) (peer_to_conn_ r) (join_allowed_ r)
    (<[from := {[target]} ∪ default ∅ (signal_allowed_ r !! from)]> (signal_allowed_ r)).

(* include/lazily/signaling.hpp:124-129, SignalingRoom::get_peer *)
Definition get_peer (conn_id : Z) (r : SignalingRoom) : option Z := it ← conns_ r !! conn_id; conn_peer it.
(** The peers of the connections that pass a test, sorted. *)
Definition peers_of (keep : Z → bool) (cs : gmap Z ConnState) : list Z :=
  merge_sort Z.le (omap (λ kv : Z * ConnState, p ← conn_peer kv.2; if keep p then Some p else None) (map_to_list cs)).
(* include/lazily/signaling.hpp:131-139, SignalingRoom::roster *)
Definition roster (r : SignalingRoom) : list Z := peers_of (λ _, true) (conns_ r).
(* include/lazily/signaling.hpp:141-148, SignalingRoom::size *)
Definition room_size (r : SignalingRoom) : nat :=
  length (filter (λ kv : Z * ConnState, is_Some (conn_peer kv.2)) (map_to_list (conns_ r))).

(** [operator[]] makes the connection where it is absent. *)
(* include/lazily/signaling.hpp:256-261, SignalingRoom::forward *)
Definition forward (target : Z) (m : ServerMessage) (r : SignalingRoom) : bool * SignalingRoom :=
  match peer_to_conn_ r !! target with
  | None => (false, r)
  | Some c => (true, with_conns (<[c := push_out m (default conn_new (conns_ r !! c))]> (conns_ r)) r)
  end.

Definition error (code message : list Z) : list ServerMessage := [ServerError code message].
(* include/lazily/signaling.hpp:155-190, SignalingRoom::process (ClientJoin) *)
Definition process_join (conn_id peer : Z) (r : SignalingRoom) : list ServerMessage * SignalingRoom :=
  match conns_ r !! conn_id with
  | None => (error (bytes_of "bad_message") (bytes_of "unknown connection"), r)
  | Some it =>
      if bool_decide (is_Some (conn_peer it)) then (error (bytes_of "already_joined") (bytes_of "connection already has a peer"), r)
      else if bool_decide (mode_ r = Allowlist) && negb (bool_decide (peer ∈ join_allowed_ r)) then
        (error (bytes_of "permission_denied") (bytes_of "peer not allowed to join"), r)
      else if bool_decide (is_Some (peer_to_conn_ r !! peer)) then (error (bytes_of "duplicate_peer") (bytes_of "peer already in room"), r)
      else
        let cs := <[conn_id := mkConn (Some peer) (outbound it)]> (conns_ r) in
        let peers := peers_of (λ p, negb (p =? peer)) cs in
        ([ServerWelcome peer peers],
         with_conns (tell_others peer (ServerPeerJoined peer) cs) (with_index (<[peer := conn_id]> (peer_to_conn_ r)) r))
  end.
(** What is forwarded, and to whom; the sender is the one the room knows. *)
(* include/lazily/signaling.hpp:203-220, SignalingRoom::process (forwarding) *)
Definition addressed (from : Z) (m : ClientMessage) : option (Z * ServerMessage) :=
  match m with
  | ClientOffer to sdp => Some (to, ServerOffer from sdp)
  | ClientAnswer to sdp => Some (to, ServerAnswer from sdp)
  | ClientIce to candidate => Some (to, ServerIce from candidate)
  | ClientRelay to payload => Some (to, ServerRelay from payload)
  | ClientJoin _ _ | ClientLeave => None
  end.
Definition not_in_session (target : Z) : list Z := bytes_of "peer " ++ to_string target ++ bytes_of " is not in this session".
(* include/lazily/signaling.hpp:193-226, SignalingRoom::process (forwarded messages) *)
Definition process_forward (conn_id : Z) (m : ClientMessage) (r : SignalingRoom) : list ServerMessage * SignalingRoom :=
  match get_peer conn_id r with
  | None => (error (bytes_of "not_joined") (bytes_of "connection has not joined"), r)
  | Some from =>
      match addressed from m with
      | None => ([], r)
      | Some (target, out) =>
          let '(delivered, r) := forward target out r in
          (if delivered then [] else error (bytes_of "unknown_target") (not_in_session target), r)
      end
  end.
(* include/lazily/signaling.hpp:151-229, SignalingRoom::process *)
Definition process (conn_id : Z) (m : ClientMessage) (r : SignalingRoom) : list ServerMessage * SignalingRoom :=
  match m with
  | ClientJoin peer _ => process_join conn_id peer r
  | ClientLeave => ([], r)
  | _ => process_forward conn_id m r
  end.
(* include/lazily/signaling.hpp:232-239, SignalingRoom::drain *)
Definition drain (conn_id : Z) (r : SignalingRoom) : list ServerMessage * SignalingRoom :=
  match conns_ r !! conn_id with
  | None => ([], r)
  | Some it => (outbound it, with_conns (<[conn_id := mkConn (conn_peer it) []]> (conns_ r)) r)
  end.

(** ** Histories *)

Inductive RoomOp :=
  | OConnect | ODisconnect (conn_id : Z) | OAllowJoin (peer : Z) | OAllowSignal (from target : Z)
  | OProcess (conn_id : Z) (m : ClientMessage) | ODrain (conn_id : Z).
(** What a call answers to whom, and the room after it. *)
Definition room_step (r : SignalingRoom) (o : RoomOp) : list ServerMessage * SignalingRoom :=
  match o with
  | OConnect => ([], (connect r).2)
  | ODisconnect c => ([], disconnect c r)
  | OAllowJoin p => ([], allow_join p r)
  | OAllowSignal f t => ([], allow_signal f t r)
  | OProcess c m => process c m r
  | ODrain c => drain c r
  end.
Definition run_room (mode : SignalingMode) (ops : list RoomOp) : SignalingRoom := (core_run room_step (room_new mode) ops).2.

(** What connection [c] was answered or handed by the calls, in order. *)
Definition answer_to (c : Z) (o : RoomOp) (l : list ServerMessage) : list ServerMessage :=
  match o with OProcess c' _ | ODrain c' => if c' =? c then l else [] | _ => [] end.
Definition received (mode : SignalingMode) (c : Z) (ops : list RoomOp) : list ServerMessage :=
  concat (zip_with (answer_to c) ops (core_run room_step (room_new mode) ops).1).
Definition mailbox (c : Z) (r : SignalingRoom) : list ServerMessage := default [] (outbound <$> conns_ r !! c).

(** What a client makes of it: the others it believes in the room. *)
Definition sees (others : gset Z) (m : ServerMessage) : gset Z :=
  match m with
  | ServerWelcome _ peers => list_to_set peers
  | ServerPeerJoined p => {[p]} ∪ others
  | ServerPeerLeft p => others ∖ {[p]}
  | _ => others
  end.
Definition forwarded (m : ServerMessage) : bool :=
  match m with ServerOffer _ _ | ServerAnswer _ _ | ServerIce _ _ | ServerRelay _ _ => true | _ => false end.
(** What a call forwards to connection [c] of the room [r]. *)
Definition sent_to (c : Z) (r : SignalingRoom) (o : RoomOp) : list ServerMessage :=
  match o with
  | OProcess s m =>
      match get_peer s r with
      | Some from => match addressed from m with Some (to, out) => if bool_decide (get_peer c r = Some to) then [out] else [] | None => [] end
      | None => []
      end
  | _ => []
  end.
Definition all_sent_to (mode : SignalingMode) (c : Z) (ops : list RoomOp) : list ServerMessage :=
  concat (imap (λ i o, sent_to c (run_room mode (take i ops)) o) ops).

(** ** The invariant *)

Lemma get_peer_conns c r p : get_peer c r = Some p ↔ ∃ s, conns_ r !! c = Some s ∧ conn_peer s = Some p.
Proof. unfold get_peer. apply bind_Some. Qed.
Lemma tell_others_lookup peer m cs c :
  tell_others peer m cs !! c = (λ s, match conn_peer s with Some p => if p =? peer then s else push_out m s | None => s end) <$> cs !! c.
Proof. apply lookup_fmap. Qed.
Lemma push_out_if_peer s peer m : conn_peer (match conn_peer s with Some p => if p =? peer then s else push_out m s | None => s end) = conn_peer s.
Proof. destruct (conn_peer s) as [p|] eqn:E; [destruct (p =? peer)|]; done. Qed.

Lemma get_peer_with cs r c : get_peer c (with_conns cs r) = cs !! c ≫= conn_peer.
Proof. done. Qed.

(** The index names the connection of every peer; ids are fresh; who has not
    joined has been told nothing; who has knows who else has; and each has been
    handed, or will be, exactly what was sent to it. *)
Record room_inv (r : SignalingRoom) (recv sent : Z → list ServerMessage) : Prop := {
  ri_index : ∀ p c, peer_to_conn_ r !! p = Some c ↔ get_peer c r = Some p;
  ri_fresh : ∀ c, is_Some (conns_ r !! c) → c < next_conn_id_ r;
  ri_quiet : ∀ c, get_peer c r = None → mailbox c r = [];
  ri_view : ∀ c p, get_peer c r = Some p → foldl sees ∅ (recv c ++ mailbox c r) = dom (peer_to_conn_ r) ∖ {[p]};
  ri_sent : ∀ c, is_Some (conns_ r !! c) ∨ next_conn_id_ r ≤ c → filter (λ m, forwarded m = true) (recv c ++ mailbox c r) = sent c;
  ri_allowed : mode_ r = Allowlist → dom (peer_to_conn_ r) ⊆ join_allowed_ r }.

Lemma room_ext r recv recv' sent sent' : (∀ c, recv c = recv' c) → (∀ c, sent c = sent' c) → room_inv r recv sent → room_inv r recv' sent'.
Proof. intros E1 E2 [I1 I2 I3 I4 I5 I6]. split; try done; intros c; rewrite <- E1, <- ?E2; eauto. Qed.

(** Answers that say nothing of the room. *)
Lemma answered_inv r recv sent g : room_inv r recv sent → (∀ c v, foldl sees v (g c) = v) → (∀ c, filter (λ m, forwarded m = true) (g c) = []) →
  room_inv r (λ c, recv c ++ g c) sent.
Proof.
  intros [I1 I2 I3 I4 I5 I6] Hv Hf. split; try done.
  - intros c p Hp. rewrite !foldl_app, Hv, <- foldl_app. by apply I4.
  - intros c Hc. rewrite <- app_assoc, !filter_app, Hf. simpl. rewrite <- filter_app. by apply I5.
Qed.

Lemma with_conns_id r : with_conns (conns_ r) r = r.
Proof. by destruct r. Qed.
Lemma lookup_conns_mailbox c r s : conns_ r !! c = Some s → mailbox c r = outbound s.
Proof. unfold mailbox. by intros ->. Qed.
Lemma get_peer_is_Some c r p : get_peer c r = Some p → is_Some (conns_ r !! c).
Proof. rewrite get_peer_conns. intros (s & E & _). eauto. Qed.

Lemma room_new_inv mode : room_inv (room_new mode) (λ _, []) (λ _, []).
Proof.
  split; simpl.
  - intros p c. unfold get_peer. simpl. by rewrite !lookup_empty.
  - intros c [? E]. by rewrite lookup_empty in E.
  - done.
  - intros c p E. unfold get_peer in E. simpl in E. by rewrite lookup_empty in E.
  - intros c _. unfold mailbox. simpl. by rewrite lookup_empty.
  - set_solver.
Qed.

Lemma connect_inv r recv sent : next_conn_id_ r + 1 < two64 → 0 ≤ next_conn_id_ r → room_inv r recv sent → room_inv (connect r).2 recv sent.
Proof.
  intros Hn H0 [I1 I2 I3 I4 I5 I6]. set (id := next_conn_id_ r).
  assert (Hid : conns_ r !! id = None) by (destruct (conns_ r !! id) eqn:E; [|done]; assert (id < id) by (apply I2; eauto); lia).
  assert (Hnx : next_conn_id_ (connect r).2 = id + 1) by (unfold connect; cbn [snd next_conn_id_]; by rewrite u64_small by (unfold is_u64; lia)).
  assert (Hp : ∀ c, get_peer c (connect r).2 = get_peer c r).
  { intros c. unfold get_peer. cbn. destruct (decide (id = c)) as [<-|]; [|by rewrite lookup_insert_ne]. rewrite lookup_insert_eq, Hid. done. }
  assert (Hm : ∀ c, mailbox c (connect r).2 = mailbox c r).
  { intros c. unfold mailbox. cbn. destruct (decide (id = c)) as [<-|]; [|by rewrite lookup_insert_ne]. rewrite lookup_insert_eq, Hid. done. }
  split; try done.
  - intros p c. rewrite Hp. apply I1.
  - intros c Hc. rewrite Hnx. cbn in Hc. apply lookup_insert_is_Some in Hc as [<-|[_ Hc]]; [unfold id; lia|]. apply I2 in Hc. unfold id. lia.
  - intros c. rewrite Hp, Hm. apply I3.
  - intros c p. rewrite Hp, Hm. apply I4.
  - intros c Hc. rewrite Hm. apply I5. rewrite Hnx in Hc. cbn in Hc. rewrite lookup_insert_is_Some in Hc. destruct Hc as [[<-|[_ ?]]|?]; [by right|by left|right; unfold id in *; lia].
Qed.

Lemma drain_inv c0 r recv sent : room_inv r recv sent → room_inv (drain c0 r).2 (λ c, recv c ++ answer_to c (ODrain c0) (drain c0 r).1) sent.
Proof.
  intros Hi. unfold drain. destruct (conns_ r !! c0) as [it|] eqn:Ec.
  2:{ eapply (room_ext _ recv _ sent); [|done|done]. intros c. simpl. case_match; by rewrite app_nil_r. }
  destruct Hi as [I1 I2 I3 I4 I5 I6]. cbn [fst snd answer_to].
  set (r' := with_conns _ r).
  assert (Hs : ∀ c, is_Some (conns_ r' !! c) → is_Some (conns_ r !! c)).
  { intros c. cbn. rewrite lookup_insert_is_Some. intros [<-|[_ ?]]; [by rewrite Ec|done]. }
  assert (Hp : ∀ c, get_peer c r' = get_peer c r).
  { intros c. unfold get_peer. cbn. destruct (decide (c0 = c)) as [<-|]; [|by rewrite lookup_insert_ne]. by rewrite lookup_insert_eq, Ec. }
  assert (Hm : ∀ c, (if c0 =? c then outbound it else []) ++ mailbox c r' = mailbox c r).
  { intros c. unfold mailbox. cbn. destruct (Z.eqb_spec c0 c) as [<-|]; [|by rewrite lookup_insert_ne]. rewrite lookup_insert_eq, Ec. cbn. by rewrite app_nil_r. }
  split; try done.
  - intros p c. rewrite Hp. apply I1.
  - intros c Hc. by apply I2, Hs.
  - intros c Hc. rewrite Hp in Hc. specialize (I3 c Hc). rewrite <- Hm in I3. by apply app_eq_nil in I3 as [_ ?].
  - intros c p. rewrite Hp, <- app_assoc, Hm. apply I4.
  - intros c Hc. rewrite <- app_assoc, Hm. apply I5. destruct Hc as [Hc|?]; [left; by apply Hs|by right].
Qed.

(** The mailbox of a connection after the others were told. *)
Lemma told_mailbox peer m cs c ix r : mailbox c (with_conns (tell_others peer m cs) (with_index ix r)) =
  mailbox c (with_conns cs r) ++ match get_peer c (with_conns cs r) with Some p => if p =? peer then [] else [m] | None => [] end.
Proof.
  unfold mailbox, get_peer. cbn. rewrite tell_others_lookup. destruct (cs !! c) as [s|]; [|done]. cbn.
  destruct (conn_peer s) as [p|]; [destruct (p =? peer)|]; cbn; by rewrite ?app_nil_r.
Qed.
Lemma told_peer peer m cs c ix r : get_peer c (with_conns (tell_others peer m cs) (with_index ix r)) = get_peer c (with_conns cs r).
Proof. unfold get_peer. cbn. rewrite tell_others_lookup. destruct (cs !! c) as [s|]; [|done]. cbn. apply push_out_if_peer. Qed.
Lemma told_conns peer m cs c ix r : is_Some (conns_ (with_conns (tell_others peer m cs) (with_index ix r)) !! c) ↔ is_Some (cs !! c).
Proof. cbn. rewrite tell_others_lookup. apply fmap_is_Some. Qed.

Lemma deleted_mailbox c0 c r : mailbox c (with_conns (delete c0 (conns_ r)) r) = if decide (c = c0) then [] else mailbox c r.
Proof. unfold mailbox. cbn. case_decide; [subst; by rewrite lookup_delete_eq|by rewrite lookup_delete_ne]. Qed.
Lemma deleted_peer c0 c r : get_peer c (with_conns (delete c0 (conns_ r)) r) = if decide (c = c0) then None else get_peer c r.
Proof. unfold get_peer. cbn. case_decide; [subst; by rewrite lookup_delete_eq|by rewrite lookup_delete_ne]. Qed.

(** A connection that has not joined goes away. *)
Lemma delete_inv c0 r recv sent : get_peer c0 r = None → room_inv r recv sent → room_inv (with_conns (delete c0 (conns_ r)) r) recv sent.
Proof.
  intros H0 [I1 I2 I3 I4 I5 I6].
  assert (Hp : ∀ c, get_peer c (with_conns (delete c0 (conns_ r)) r) = get_peer c r) by (intros c; rewrite deleted_peer; case_decide; [by subst|done]).
  assert (Hm : ∀ c, mailbox c (with_conns (delete c0 (conns_ r)) r) = mailbox c r) by (intros c; rewrite deleted_mailbox; case_decide; [subst; by rewrite I3|done]).
  split; try done.
  - intros p c. rewrite Hp. apply I1.
  - intros c Hc. apply I2. cbn in Hc. by apply lookup_delete_is_Some in Hc as [_ ?].
  - intros c. rewrite Hp, Hm. apply I3.
  - intros c p. rewrite Hp, Hm. apply I4.
  - intros c Hc. rewrite Hm. apply I5. destruct Hc as [Hc|?]; [left|by right]. cbn in Hc. by apply lookup_delete_is_Some in Hc as [_ ?].
Qed.

Lemma disconnect_inv c0 r recv sent : room_inv r recv sent → room_inv (disconnect c0 r) recv sent.
Proof.
  intros Hi. unfold disconnect. destruct (conns_ r !! c0) as [it|] eqn:Ec; [|done]. destruct (conn_peer it) as [peer|] eqn:Ep; cycle 1.
  { apply delete_inv; [|done]. unfold get_peer. by rewrite Ec. }
  destruct Hi as [I1 I2 I3 I4 I5 I6].
  set (r1 := with_conns (tell_others peer (ServerPeerLeft peer) (conns_ r)) (with_index (delete peer (peer_to_conn_ r)) r)).
  assert (H0 : get_peer c0 r = Some peer) by (apply get_peer_conns; eauto).
  assert (Hp : ∀ c, get_peer c (with_conns (delete c0 (conns_ r1)) r1) = if decide (c = c0) then None else get_peer c r).
  { intros c. rewrite deleted_peer. case_decide; [done|]. unfold r1. by rewrite told_peer. }
  assert (Huniq : ∀ c p, get_peer c r = Some p → c ≠ c0 → p ≠ peer).
  { intros c p Hc Hne ->. apply I1 in Hc, H0. congruence. }
  assert (Hm : ∀ c, mailbox c (with_conns (delete c0 (conns_ r1)) r1) =
    if decide (c = c0) then [] else mailbox c r ++ match get_peer c r with Some p => [ServerPeerLeft peer] | None => [] end).
  { intros c. rewrite deleted_mailbox. case_decide as Hc; [done|]. unfold r1. rewrite told_mailbox. f_equal. rewrite with_conns_id. destruct (get_peer c r) as [p|] eqn:E; [|done]. destruct (Z.eqb_spec p peer); [|done]. by destruct (Huniq c p E Hc). }
  assert (Hc : ∀ c, is_Some (conns_ (with_conns (delete c0 (conns_ r1)) r1) !! c) → c ≠ c0 ∧ is_Some (conns_ r !! c)).
  { intros c Hs. change (is_Some (delete c0 (conns_ r1) !! c)) in Hs. apply lookup_delete_is_Some in Hs as [? Hs]. split; [done|]. by apply told_conns in Hs. }
  split; try done.
  - intros p c. rewrite Hp. change (peer_to_conn_ _) with (delete peer (peer_to_conn_ r)). case_decide as Ec0.
    + subst c. split; [|done]. rewrite lookup_delete_Some, I1, H0. intros [? [= ?]]. done.
    + rewrite lookup_delete_Some, I1. split; [by intros []|]. intros Hpc. split; [|done]. intros <-. by destruct (Huniq _ _ Hpc Ec0).
  - intros c Hs. apply (I2 c). by apply Hc.
  - intros c. rewrite Hp, Hm. case_decide; [done|]. intros Hn. by rewrite Hn, I3.
  - intros c p. rewrite Hp, Hm. case_decide; [done|]. intros Hpc. rewrite Hpc, app_assoc, foldl_app, (I4 c p Hpc). cbn. rewrite dom_delete_L. set_solver.
  - intros c Hs. rewrite Hm. case_decide as Ec0.
    + subst c. destruct Hs as [Hs|Hs]; [by apply Hc in Hs as []|]. cbn in Hs. assert (c0 < next_conn_id_ r) by (apply I2; eauto). lia.
    + rewrite app_assoc, filter_app, I5; [destruct (get_peer c r); by rewrite app_nil_r|]. destruct Hs as [Hs|Hs]; [left; by apply Hc|by right].
  - intros Hmode. cbn. specialize (I6 Hmode). rewrite dom_delete_L. set_solver.
Qed.

Lemma elem_of_peers_of keep cs p : p ∈ peers_of keep cs ↔ keep p = true ∧ ∃ c s, cs !! c = Some s ∧ conn_peer s = Some p.
Proof.
  unfold peers_of. rewrite merge_sort_Permutation, list_elem_of_omap. split.
  - intros ([c s] & Hin & E). apply elem_of_map_to_list in Hin. simpl in E. destruct (conn_peer s) as [q|] eqn:Eq; [|done]. simpl in E.
    destruct (keep q) eqn:Ek; [|done]. injection E as ->. split; [done|]. by exists c, s.
  - intros (Hk & c & s & Hin & E). exists (c, s). split; [by apply elem_of_map_to_list|]. simpl. rewrite E. simpl. by rewrite Hk.
Qed.

Lemma errors_say_nothing c o code msg : (∀ v, foldl sees v (answer_to c o (error code msg)) = v) ∧ filter (λ m, forwarded m = true) (answer_to c o (error code msg)) = [].
Proof. destruct o; simpl; try case_match; done. Qed.
Lemma error_inv r recv sent o code msg : room_inv r recv sent → room_inv r (λ c, recv c ++ answer_to c o (error code msg)) sent.
Proof. intros Hi. apply answered_inv; [done|intros c; apply (errors_say_nothing c)|intros c; apply (errors_say_nothing c)]. Qed.

Lemma join_inv c0 peer caps r recv sent : room_inv r recv sent →
  room_inv (process_join c0 peer r).2 (λ c, recv c ++ answer_to c (OProcess c0 (ClientJoin peer caps)) (process_join c0 peer r).1) sent.
Proof.
  intros Hi. unfold process_join. destruct (conns_ r !! c0) as [it|] eqn:Ec; [|by apply error_inv].
  case_bool_decide as Hj; [by apply error_inv|]. destruct (bool_decide (mode_ r = Allowlist) && _) eqn:Ea; [by apply error_inv|].
  destruct (bool_decide (is_Some (peer_to_conn_ r !! peer))) eqn:Hd; [by apply error_inv|]. apply bool_decide_eq_false in Hd.
  assert (Hallow : mode_ r = Allowlist → peer ∈ join_allowed_ r).
  { intros Hmode. rewrite bool_decide_eq_true_2 in Ea by done. cbn in Ea. by apply negb_false_iff, bool_decide_eq_true in Ea. }
  clear Ea. destruct Hi as [I1 I2 I3 I4 I5 I6]. cbn [fst snd answer_to].
  apply eq_None_not_Some in Hj, Hd.
  set (cs := <[c0 := mkConn (Some peer) (outbound it)]> (conns_ r)). set (peers := peers_of _ cs). set (r1 := with_conns _ _).
  assert (H0 : get_peer c0 r = None) by (unfold get_peer; rewrite Ec; done).
  assert (Hout : outbound it = []) by (rewrite <- (lookup_conns_mailbox _ _ _ Ec); by apply I3).
  assert (Hp : ∀ c, get_peer c r1 = if decide (c = c0) then Some peer else get_peer c r).
  { intros c. unfold r1. rewrite told_peer. unfold get_peer, cs. cbn [conns_ with_conns]. case_decide; [subst c; by rewrite lookup_insert_eq|by rewrite lookup_insert_ne]. }
  assert (Hfree : ∀ c p, get_peer c r = Some p → p ≠ peer) by (intros c p Hcp ->; apply I1 in Hcp; congruence).
  assert (Hm : ∀ c, mailbox c r1 = if decide (c = c0) then [] else mailbox c r ++ match get_peer c r with Some p => [ServerPeerJoined peer] | None => [] end).
  { intros c. unfold r1. rewrite told_mailbox. unfold mailbox, get_peer at 1. unfold cs. cbn [conns_ with_conns]. case_decide as Hc.
    - subst c. rewrite lookup_insert_eq. cbn. rewrite Hout, Z.eqb_refl. done.
    - rewrite lookup_insert_ne by done. f_equal. fold (get_peer c r). destruct (get_peer c r) as [p|] eqn:E; [|done].
      destruct (Z.eqb_spec p peer) as [->|]; [by destruct (Hfree c peer E)|done]. }
  assert (Hs : ∀ c, is_Some (conns_ r1 !! c) ↔ is_Some (conns_ r !! c)).
  { intros c. unfold r1. rewrite told_conns. unfold cs. rewrite lookup_insert_is_Some'. split; [intros [<-|?]; [by rewrite Ec|done]|by right]. }
  assert (Hpeers : list_to_set peers = dom (peer_to_conn_ r) ∖ {[peer]}).
  { apply set_eq. intros p. rewrite elem_of_list_to_set, elem_of_difference, elem_of_singleton. unfold peers. rewrite elem_of_peers_of, negb_true_iff, Z.eqb_neq, elem_of_dom.
    split.
    - intros (Hne & c & s & Hc & Hcp). split; [|done]. unfold cs in Hc. apply lookup_insert_Some in Hc as [[<- <-]|[_ Hc]]; [cbn in Hcp; congruence|].
      exists c. apply I1, get_peer_conns. eauto.
    - intros ([c Hcp] & Hne). split; [done|]. apply I1, get_peer_conns in Hcp as (s & Hc & Hcp). exists c, s. split; [|done]. unfold cs. rewrite lookup_insert_ne; [done|].
      intros <-. rewrite Ec in Hc. injection Hc as <-. congruence. }
  assert (Hix : peer_to_conn_ r1 = <[peer := c0]> (peer_to_conn_ r)) by done.
  split; try done.
  - intros p c. rewrite Hp, Hix. case_decide as Hc.
    + subst c. rewrite lookup_insert_Some, I1, H0. split; [intros [[-> _]|[]]; done|]. intros [= ->]. by left.
    + rewrite lookup_insert_Some, I1. split; [intros [[_ ?]|[_ ?]]; congruence|]. intros Hcp. right. split; [|done]. intros <-. by destruct (Hfree c peer Hcp).
  - intros c Hc. apply (I2 c). by apply Hs.
  - intros c. rewrite Hp, Hm. case_decide; [done|]. intros Hn. by rewrite Hn, I3.
  - intros c p. rewrite Hp, Hm, Hix, dom_insert_L. case_decide as Hc.
    + subst c. intros [= <-]. rewrite Z.eqb_refl, app_nil_r, foldl_app. cbn. rewrite Hpeers. set_solver.
    + intros Hcp. rewrite (proj2 (Z.eqb_neq c0 c)) by done. rewrite app_nil_r, Hcp, app_assoc, foldl_app, (I4 c p Hcp). cbn. apply Hfree in Hcp. set_solver.
  - intros c Hc. rewrite Hm. assert (Hcc : is_Some (conns_ r !! c) ∨ next_conn_id_ r ≤ c) by (rewrite Hs in Hc; done). specialize (I5 c Hcc). rewrite <- I5. case_decide as Ec0.
    + subst c. rewrite Z.eqb_refl, app_nil_r, !filter_app. f_equal. by rewrite I3.
    + rewrite (proj2 (Z.eqb_neq c0 c)) by done. rewrite app_nil_r, app_assoc, filter_app. destruct (get_peer c r); cbn; by rewrite app_nil_r.
  - intros Hmode. rewrite Hix, dom_insert_L. cbn in Hmode. specialize (I6 Hmode). specialize (Hallow Hmode). cbn. set_solver.
Qed.

Lemma addressed_forwarded from m to out : addressed from m = Some (to, out) → forwarded out = true ∧ ∀ v, sees v out = v.
Proof. destruct m; simpl; intros; simplify_eq; done. Qed.

(** A message put into the mailbox of the connection the index names. *)
Lemma push_inv c0 to out r recv sent : peer_to_conn_ r !! to = Some c0 → forwarded out = true → (∀ v, sees v out = v) → room_inv r recv sent →
  room_inv (forward to out r).2 recv (λ c, sent c ++ if bool_decide (get_peer c r = Some to) then [out] else []).
Proof.
  intros E Hf Hv [I1 I2 I3 I4 I5 I6]. assert (H0 : get_peer c0 r = Some to) by by apply I1. apply get_peer_conns in H0 as (s0 & Ec & Ep).
  unfold forward. rewrite E, Ec. cbn [snd default]. set (r1 := with_conns _ _).
  assert (Hp : ∀ c, get_peer c r1 = get_peer c r).
  { intros c. unfold get_peer, r1. cbn [conns_ with_conns]. destruct (decide (c = c0)) as [->|]; [by rewrite lookup_insert_eq, Ec|by rewrite lookup_insert_ne]. }
  assert (Hs : ∀ c, is_Some (conns_ r1 !! c) → is_Some (conns_ r !! c)).
  { intros c. unfold r1. cbn [conns_ with_conns]. rewrite lookup_insert_is_Some'. intros [<-|?]; [by rewrite Ec|done]. }
  assert (Hm : ∀ c, mailbox c r1 = mailbox c r ++ if bool_decide (get_peer c r = Some to) then [out] else []).
  { intros c. unfold mailbox, r1. cbn [conns_ with_conns]. destruct (decide (c = c0)) as [->|Hne].
    - rewrite lookup_insert_eq, Ec, bool_decide_eq_true_2 by by apply I1. done.
    - rewrite lookup_insert_ne, bool_decide_eq_false_2; [by rewrite app_nil_r|intros Hc; apply I1 in Hc; congruence|done]. }
  split; try done.
  - intros p c. rewrite Hp. apply I1.
  - intros c Hc. by apply (I2 c), Hs.
  - intros c. rewrite Hp, Hm. intros Hn. rewrite I3, bool_decide_eq_false_2; [done|congruence|done].
  - intros c p. rewrite Hp, Hm. intros Hc. rewrite app_assoc, foldl_app, (I4 c p Hc). case_bool_decide; [apply Hv|done].
  - intros c Hc. rewrite Hm, app_assoc, filter_app, I5 by (destruct Hc as [Hc|Hc]; [left; by apply Hs|by right]). f_equal. case_bool_decide; [|done]. rewrite filter_cons_True; done.
Qed.

(** Nothing is sent where there is no receiver. *)
Lemma nothing_sent c s from m to out r : get_peer s r = Some from → addressed from m = Some (to, out) → (∀ c, get_peer c r ≠ Some to) → sent_to c r (OProcess s m) = [].
Proof. intros Hs Ha Hno. simpl. rewrite Hs, Ha. by rewrite bool_decide_eq_false_2. Qed.

Lemma forward_inv c0 m r recv sent : (∀ p caps, m ≠ ClientJoin p caps) → m ≠ ClientLeave → room_inv r recv sent →
  room_inv (process_forward c0 m r).2 (λ c, recv c ++ answer_to c (OProcess c0 m) (process_forward c0 m r).1) (λ c, sent c ++ sent_to c r (OProcess c0 m)).
Proof.
  intros Hj Hl Hi. unfold process_forward. destruct (get_peer c0 r) as [from|] eqn:Ep.
  2:{ eapply room_ext; [done| |apply error_inv; exact Hi]. intros c. simpl. by rewrite Ep, app_nil_r. }
  destruct (addressed from m) as [[to out]|] eqn:Ea; [|destruct m; try done; by destruct (Hj peer capabilities)].
  destruct (peer_to_conn_ r !! to) as [c1|] eqn:Et.
  - destruct (addressed_forwarded _ _ _ _ Ea) as [Hf Hv]. pose proof (push_inv c1 to out r recv sent Et Hf Hv Hi) as Hpush.
    unfold forward in *. rewrite Et in *. cbn [fst snd answer_to] in *. eapply room_ext; [| |exact Hpush].
    + intros c. simpl. case_match; by rewrite app_nil_r.
    + intros c. simpl. by rewrite Ep, Ea.
  - unfold forward. rewrite Et. cbn [fst snd]. eapply room_ext; [done| |apply error_inv; exact Hi]. intros c.
    rewrite (nothing_sent c c0 from m to out r Ep Ea); [by rewrite app_nil_r|]. intros c' Hc'. apply (ri_index _ _ _ Hi) in Hc'. congruence.
Qed.

Lemma room_step_inv r recv sent o : 0 ≤ next_conn_id_ r → next_conn_id_ r + 1 < two64 → room_inv r recv sent →
  room_inv (room_step r o).2 (λ c, recv c ++ answer_to c o (room_step r o).1) (λ c, sent c ++ sent_to c r o).
Proof.
  intros H0 Hn Hi.
  assert (Hquiet : ∀ r', room_inv r' recv sent → room_inv r' (λ c, recv c ++ []) (λ c, sent c ++ [])) by (intros r'; apply room_ext; intros; by rewrite app_nil_r).
  destruct o as [|c0|p|f t|c0 m|c0]; cbn [room_step fst snd]; try (apply Hquiet).
  - by apply connect_inv.
  - by apply disconnect_inv.
  - destruct Hi as [I1 I2 I3 I4 I5 I6]. split; try done. cbn. set_solver.
  - by destruct Hi.
  - destruct m; cbn [process]; try (apply forward_inv; done).
    + eapply room_ext; [done| |apply (join_inv c0 peer capabilities), Hi]. intros c. simpl. destruct (get_peer c0 r); by rewrite app_nil_r.
    + eapply room_ext; [| |exact Hi]; intros c; simpl; [by case_match; rewrite app_nil_r|destruct (get_peer c0 r); by rewrite app_nil_r].
  - eapply room_ext; [done| |by apply drain_inv]. intros c. simpl. by rewrite app_nil_r.
Qed.

Lemma step_next r o : next_conn_id_ (room_step r o).2 = match o with OConnect => next_conn_id_ r +64 1 | _ => next_conn_id_ r end.
Proof.
  destruct o as [|c|p|f t|c m|c]; try done; cbn.
  - unfold disconnect. destruct (conns_ r !! c) as [it|]; [|done]. by destruct (conn_peer it).
  - destruct m; cbn; unfold process_join, process_forward, forward; repeat case_match; simplify_eq; done.
  - unfold drain. by destruct (conns_ r !! c).
Qed.

Lemma received_snoc mode c ops o : received mode c (ops ++ [o]) = received mode c ops ++ answer_to c o (room_step (run_room mode ops) o).1.
Proof.
  unfold received, run_room. rewrite core_run_snoc. cbn [fst]. rewrite zip_with_app by (by rewrite length_core_run). rewrite concat_app. simpl. by rewrite app_nil_r.
Qed.
Lemma all_sent_snoc mode c ops o : all_sent_to mode c (ops ++ [o]) = all_sent_to mode c ops ++ sent_to c (run_room mode ops) o.
Proof.
  unfold all_sent_to. rewrite imap_app, concat_app. simpl. rewrite app_nil_r, Nat.add_0_r, take_app_length. f_equal.
  f_equal. apply imap_ext. intros i x Hi. rewrite take_app_le; [done|]. apply lookup_lt_Some in Hi. lia.
Qed.
Lemma run_snoc mode ops o : run_room mode (ops ++ [o]) = (room_step (run_room mode ops) o).2.
Proof. unfold run_room. by rewrite core_run_snoc. Qed.

Lemma run_inv mode ops : Z.of_nat (length ops) < two64 - 1 → 1 ≤ next_conn_id_ (run_room mode ops) ≤ 1 + Z.of_nat (length ops) ∧
  room_inv (run_room mode ops) (λ c, received mode c ops) (λ c, all_sent_to mode c ops).
Proof.
  induction ops as [|o ops IH] using rev_ind; intros Hl; [split; [by simpl|apply room_new_inv]|].
  rewrite length_app in *. simpl in Hl. destruct IH as [Hn Hi]; [lia|]. rewrite run_snoc, step_next. split.
  - destruct o; simpl; try lia. rewrite u64_small by (unfold is_u64; lia). lia.
  - eapply room_ext; [intros c; symmetry; apply received_snoc|intros c; symmetry; apply all_sent_snoc|]. apply room_step_inv; [lia|lia|done].
Qed.

(** ** What the room promises *)

Lemma run_mode mode ops : mode_ (run_room mode ops) = mode.
Proof.
  induction ops as [|o ops IH] using rev_ind; [done|]. rewrite run_snoc. rewrite <- IH at 2. generalize (run_room mode ops). intros r.
  destruct o as [|c|p|f t|c m|c]; try done; cbn.
  - unfold disconnect. destruct (conns_ r !! c) as [it|]; [|done]. by destruct (conn_peer it).
  - destruct m; cbn; unfold process_join, process_forward, forward; repeat case_match; simplify_eq; done.
  - unfold drain. by destruct (conns_ r !! c).
Qed.

Lemma elem_of_roster r p : p ∈ roster r ↔ ∃ c, get_peer c r = Some p.
Proof.
  unfold roster. rewrite elem_of_peers_of. split.
  - intros (_ & c & s & Hc & Hp). exists c. apply get_peer_conns. eauto.
  - intros [c Hc]. apply get_peer_conns in Hc as (s & Hc & Hp). split; [done|]. by exists c, s.
Qed.
Lemma roster_index r recv sent p : room_inv r recv sent → p ∈ roster r ↔ p ∈ dom (peer_to_conn_ r).
Proof. intros Hi. rewrite elem_of_roster, elem_of_dom. split; intros [c Hc]; exists c; by apply (ri_index _ _ _ Hi). Qed.
Lemma roster_length r : room_size r = length (roster r).
Proof.
  unfold room_size, roster, peers_of. rewrite merge_sort_Permutation. induction (map_to_list (conns_ r)) as [|[c s] l IH]; [done|].
  rewrite filter_cons. case_decide as Hd; simpl in *.
  - destruct Hd as [p ->]. simpl. by rewrite IH.
  - apply eq_None_not_Some in Hd. rewrite Hd. simpl. done.
Qed.

Lemma nodup_peers_of keep cs : (∀ c c' s s' p, cs !! c = Some s → cs !! c' = Some s' → conn_peer s = Some p → conn_peer s' = Some p → c = c') → NoDup (peers_of keep cs).
Proof.
  intros Hu. unfold peers_of. rewrite merge_sort_Permutation. pose proof (NoDup_fst_map_to_list cs) as Hnd.
  assert (Hin : ∀ c s, (c, s) ∈ map_to_list cs → cs !! c = Some s) by (intros; by apply elem_of_map_to_list). revert Hnd Hin.
  induction (map_to_list cs) as [|[c s] l IH]; intros Hnd Hin; [constructor|]. rewrite fmap_cons in Hnd. apply NoDup_cons in Hnd as [Hc Hnd].
  assert (IH' := IH Hnd (λ c s H, Hin c s (list_elem_of_further _ _ _ H))). simpl. destruct (conn_peer s) as [p|] eqn:Ep; simpl; [|done]. destruct (keep p); [|done].
  constructor; [|done]. rewrite list_elem_of_omap. intros ([c' s'] & Hin' & E). simpl in E. destruct (conn_peer s') as [q|] eqn:Eq; [|done]. simpl in E.
  destruct (keep q); [|done]. injection E as ->. apply Hc. assert (c = c') as -> by (eapply (Hu c c' s s' p); [apply Hin; left|apply Hin; by right|done|done]).
  apply list_elem_of_fmap. by exists (c', s').
Qed.

Lemma strictly_sorted (l : list Z) : StronglySorted Z.le l → NoDup l → StronglySorted Z.lt l.
Proof.
  induction 1 as [|x l _ IH Hx]; intros Hnd; [constructor|]. apply NoDup_cons in Hnd as [Hin Hnd]. constructor; [by apply IH|].
  rewrite Forall_forall in *. intros y Hy. specialize (Hx y Hy). assert (x ≠ y) by (intros ->; done). lia.
Qed.
Lemma peers_of_sorted keep cs : StronglySorted Z.le (peers_of keep cs).
Proof. apply StronglySorted_merge_sort; [intros ???; lia|intros ??; lia]. Qed.

(** C1: The room tells everyone the truth.  After any calls (fewer than 2^64): a
    peer has one connection, and was allowed in if the room has a list; the
    roster is sorted and lists who has joined, each once.  A client that begins
    with its welcome and follows what it is handed knows exactly the others.
    It is handed exactly the messages addressed to it while it was there, in
    order, each once and under the name its sender joined with.  A message to
    somebody absent is answered by an error, and no error changes the room. *)
Theorem room_tells_the_truth (mode : SignalingMode) (ops : list RoomOp) : Z.of_nat (length ops) < two64 - 1 →
  let r := run_room mode ops in
  (∀ c p, get_peer c r = Some p →
    (∀ c', get_peer c' r = Some p → c' = c) ∧ (mode = Allowlist → p ∈ join_allowed_ r) ∧
    foldl sees ∅ (received mode c ops ++ mailbox c r) = list_to_set (roster r) ∖ {[p]} ∧
    filter (λ m, forwarded m = true) (received mode c ops ++ mailbox c r) = all_sent_to mode c ops) ∧
  (∀ p, p ∈ roster r ↔ ∃ c, get_peer c r = Some p) ∧ StronglySorted Z.lt (roster r) ∧ room_size r = length (roster r) ∧
  (∀ c m from to out, get_peer c r = Some from → addressed from m = Some (to, out) →
    (to ∈ roster r → (process c m r).1 = []) ∧ (to ∉ roster r → (process c m r).1 = error (bytes_of "unknown_target") (not_in_session to))) ∧
  (∀ c m code msg, (process c m r).1 = error code msg → (process c m r).2 = r).
Proof.
  intros Hl r. destruct (run_inv mode ops Hl) as [_ Hi]. fold r in Hi.
  assert (Hset : list_to_set (roster r) = dom (peer_to_conn_ r)).
  { apply set_eq. intros p. rewrite elem_of_list_to_set. by eapply roster_index. }
  split_and!.
  - intros c p Hc. split_and!.
    + intros c' Hc'. apply (ri_index _ _ _ Hi) in Hc, Hc'. congruence.
    + intros ->. apply (ri_allowed _ _ _ Hi); [apply run_mode|]. apply elem_of_dom. exists c. by apply (ri_index _ _ _ Hi).
    + rewrite Hset. by apply (ri_view _ _ _ Hi).
    + apply (ri_sent _ _ _ Hi). left. by eapply get_peer_is_Some.
  - apply elem_of_roster.
  - apply strictly_sorted; [apply peers_of_sorted|]. apply nodup_peers_of. intros c c' s s' p H1 H2 H3 H4.
    assert (get_peer c r = Some p) as E1 by (apply get_peer_conns; eauto). assert (get_peer c' r = Some p) as E2 by (apply get_peer_conns; eauto).
    apply (ri_index _ _ _ Hi) in E1, E2. congruence.
  - apply roster_length.
  - intros c m from to out Hc Ha. rewrite (roster_index _ _ _ to Hi), elem_of_dom.
    assert (E : process c m r = process_forward c m r) by (by destruct m). rewrite E. unfold process_forward, forward. rewrite Hc, Ha.
    destruct (peer_to_conn_ r !! to); simpl; split; intros Hx; [done|by destruct Hx|by destruct Hx|done].
  - intros c m code msg. destruct m; cbn [process]; unfold process_join, process_forward, forward; repeat case_match; simplify_eq; done.
Qed.

(** Two peers meet, a third is refused, one writes to the other and leaves. *)
Definition meeting : list RoomOp :=
  [OConnect; OConnect; OConnect; OAllowJoin 7; OAllowJoin 9; OProcess 1 (ClientJoin 7 []); OProcess 3 (ClientJoin 8 []);
   OProcess 2 (ClientJoin 9 []); OProcess 2 (ClientOffer 7 [1; 2]); ODrain 1; OProcess 1 (ClientIce 9 [3]); OProcess 1 (ClientRelay 8 [4]); ODisconnect 2].
Lemma room_tells_the_truth_witness :
  let r := run_room Allowlist meeting in
  roster r = [7] ∧ received Allowlist 1 meeting ++ mailbox 1 r =
    [ServerWelcome 7 []; ServerPeerJoined 9; ServerOffer 9 [1; 2]; ServerError (bytes_of "unknown_target") (not_in_session 8); ServerPeerLeft 9] ∧
  foldl sees ∅ (received Allowlist 1 meeting ++ mailbox 1 r) = list_to_set (roster r) ∖ {[7]}.
Proof.
  intros r. split; [by vm_compute|]. split; [by vm_compute|]. destruct (room_tells_the_truth Allowlist meeting eq_refl) as [H _].
  destruct (H 1 7) as (_ & _ & W & _); [by vm_compute|]. exact W.
Defined.

(** The permissions to signal are written and never read: two rooms that differ
    in nothing else answer alike. *)
Lemma signal_permissions_are_not_read (c : Z) (m : ClientMessage) (r : SignalingRoom) (allowed : gmap Z (gset Z)) :
  let with_allowed r := mkRoom (mode_ r) (next_conn_id_ r) (conns_ r) (peer_to_conn_ r) (join_allowed_ r) allowed in
  process c m (with_allowed r) = ((process c m r).1, with_allowed (process c m r).2).
Proof.
  destruct r as [mo n cs ix ja sa]. destruct m; cbn [process]; unfold process_join, process_forward, forward, get_peer; cbn; repeat case_match; simplify_eq; done.
Qed.
