(* ===== verification/Transport.v ===== *)
(** * Transport: blob backends behind one interface, spilling and resolving

    Models include/lazily/transport.hpp.  The class [BlobBackend] is the
    adapter seam, [BlobBackendLaws] what it promises; the in-process backend
    (over Ipc's arena) and the shared-memory backend implement it, and so does
    any choice between two backends, which is how a router holds several.  The
    shared region is its bytes, header and slots included, so what two handles
    on one region share is what the code shares; a write is taken as one step.
    The outcomes of the system calls that open a region are arguments. *)
From Stdlib Require Import String.
From S2P Require Import Prelude Bytes Outbox Ipc.
#[local] Open Scope Z_scope.
#[local] Open Scope lazily_scope.

(** What a call does: it returns, throws, or touches memory not mapped. *)
Inductive Access (A : Type) := Ok (a : A) | Threw (what : string) | Fault.
Arguments Ok {A} a.
Arguments Threw {A} what.
Arguments Fault {A}.

(** A view that points nowhere is [None]. *)
(* include/lazily/transport.hpp:54-58, BlobView *)
Definition BlobView : Type := option (list Z).

(* include/lazily/transport.hpp:65-72, BlobBackend *)
Class BlobBackend (B : Type) := {
  bk_kind : B → BlobBackendKind;
  bk_write : list Z → B → Access ShmBlobRef * B;
  bk_read_view : ShmBlobRef → B → Access (option (list Z));
  bk_advance_epoch : B → B }.

(** What a write asks for, at the most. *)
Definition cost (bytes : list Z) : nat := 24 + length bytes.

(** A backend that is in order and has been asked for little enough can be asked
    for [n] bytes more.  A write that returns names the bytes by its descriptor;
    a named blob stays named and is read back, until the epoch advances. *)
Class BlobBackendLaws (B : Type) `{BlobBackend B} := {
  bk_ok : nat → B → Prop;
  bk_names : ShmBlobRef → list Z → B → Prop;
  bk_ok_le m n b : (m ≤ n)%nat → bk_ok n b → bk_ok m b;
  bk_write_ok n bytes b a b' : bk_ok (cost bytes + n) b → bk_write bytes b = (a, b') →
    bk_ok n b' ∧ bk_kind b' = bk_kind b ∧ (∀ r x, bk_names r x b → bk_names r x b') ∧
    match a with Ok r => bk_names r bytes b' ∧ backend r = bk_kind b | Threw _ => True | Fault => False end;
  bk_reads n r x b : bk_ok n b → bk_names r x b → x ≠ [] → bk_read_view r b = Ok (Some x);
  bk_advance_ok n b : bk_ok n b → bk_ok n (bk_advance_epoch b) ∧ bk_kind (bk_advance_epoch b) = bk_kind b ∧
    ∀ r x, bk_names r x b → bk_read_view r (bk_advance_epoch b) = Ok None }.

(** ** The backend in one address space *)

(** Whether [data()] of an empty vector is null is the library's choice. *)
Class EmptyVector := null_when_empty : bool.
Definition view_of `{EmptyVector} (bytes : list Z) : option (list Z) :=
  if bool_decide (bytes = []) && null_when_empty then None else Some bytes.

(* include/lazily/transport.hpp:93-93, InProcessBackend (data members) *)
Record InProcessBackend := mkInProcess { arena_ : ShmBlobArena }.
(* include/lazily/transport.hpp:78-78, InProcessBackend::InProcessBackend *)
Definition in_process_new (epoch : Z) : InProcessBackend := mkInProcess (arena_new epoch).
(* include/lazily/transport.hpp:80-84, InProcessBackend::write *)
Definition in_process_write (bytes : list Z) (b : InProcessBackend) : Access ShmBlobRef * InProcessBackend :=
  let '(r, a) := arena_write bytes (arena_ b) in
  (Ok (mkBlob (offset r) (len r) (generation r) (blob_epoch r) (checksum r) InProcess), mkInProcess a).
(* include/lazily/transport.hpp:85-89, InProcessBackend::read_view *)
Definition in_process_read_view `{EmptyVector} (r : ShmBlobRef) (b : InProcessBackend) : Access (option (list Z)) :=
  Ok (v ← Ipc.read_view r (arena_ b); view_of v).
(* include/lazily/transport.hpp:79-90, InProcessBackend *)
#[export] Instance in_process_backend `{EmptyVector} : BlobBackend InProcessBackend := {
  bk_kind _ := InProcess; bk_write := in_process_write; bk_read_view := in_process_read_view;
  bk_advance_epoch b := mkInProcess (Ipc.advance_epoch (arena_ b)) }.

Lemma view_of_nonempty `{EmptyVector} x : x ≠ [] → view_of x = Some x.
Proof. intros Hx. unfold view_of. by rewrite bool_decide_eq_false_2. Qed.

#[export, refine] Instance in_process_laws `{EmptyVector} : BlobBackendLaws InProcessBackend := {
  bk_ok _ b := epochs_agree (arena_ b);
  bk_names r x b := names r x (arena_ b) ∧ blob_epoch r = a_epoch (arena_ b); bk_ok_le := _; bk_write_ok := _; bk_reads := _; bk_advance_ok := _ }.
Proof.
  - done.
  - intros n bytes [a] res b' Hok [= <- <-]. cbn in *. split; [apply (step_epochs _ (ArenaWrite bytes)), Hok|]. split; [done|]. split.
    + intros r x [Hn He]. split; [apply (step_names _ _ _ (ArenaWrite bytes)), Hn|done].
    + split; [|done]. split; [|done]. apply write_names.
  - intros n r x [a] Hok [Hn He] Hx. cbn in *. unfold in_process_read_view. cbn. rewrite (read_view_names r x) by done. rewrite He, Z.eqb_refl. cbn. by rewrite view_of_nonempty.
  - intros n [a] Hok. cbn [arena_] in *. split; [apply (step_epochs _ ArenaAdvance), Hok|]. split; [done|]. intros r x [Hn He].
    assert (E : Ipc.read_view r (Ipc.advance_epoch a) = None); [|exact (f_equal (λ x : option (list Z), Ok (x ≫= view_of)) E)].
    change (Ipc.advance_epoch a) with (arena_step a ArenaAdvance). rewrite (read_view_names r x _ (step_names _ _ _ ArenaAdvance Hn) (step_epochs _ ArenaAdvance Hok)), He. simpl.
    by destruct (Z.eqb_spec (a_epoch a + 1) (a_epoch a)); [lia|].
Defined.

(** ** Bytes of a region *)

Fixpoint poke (off : Z) (bytes : list Z) (mem : gmap Z Z) : gmap Z Z :=
  match bytes with [] => mem | b :: bytes => <[off := b]> (poke (off + 1) bytes mem) end.
(** A region begins as zeroes. *)
Definition peek (off : Z) (n : nat) (mem : gmap Z Z) : list Z := (λ i, default 0 (mem !! i)) <$> seqZ off (Z.of_nat n).
Definition load (off : Z) (mem : gmap Z Z) : Z := read_u64 (peek off 8 mem).
Definition store (off v : Z) (mem : gmap Z Z) : gmap Z Z := poke off (append_u64 v) mem.

Lemma poke_lookup off bytes mem i : poke off bytes mem !! i = if decide (off ≤ i < off + Z.of_nat (length bytes)) then bytes !! Z.to_nat (i - off) else mem !! i.
Proof.
  revert off. induction bytes as [|b bytes IH]; intros off; simpl; [by rewrite decide_False by lia|].
  destruct (decide (i = off)) as [->|Hne].
  - rewrite lookup_insert_eq, decide_True by lia. by rewrite Z.sub_diag.
  - rewrite lookup_insert_ne, IH by done. destruct (decide (off + 1 ≤ i < off + 1 + Z.of_nat (length bytes))).
    + rewrite decide_True by lia. replace (Z.to_nat (i - off)) with (S (Z.to_nat (i - (off + 1)))) by lia. done.
    + by rewrite decide_False by lia.
Qed.
Lemma peek_poke off bytes mem : peek off (length bytes) (poke off bytes mem) = bytes.
Proof.
  apply list_eq. intros i. unfold peek. rewrite list_lookup_fmap. destruct (decide (i < length bytes)%nat) as [Hi|Hi].
  - rewrite lookup_seqZ_lt by lia. simpl. rewrite poke_lookup, decide_True by lia. replace (Z.to_nat (off + Z.of_nat i - off)) with i by lia.
    destruct (lookup_lt_is_Some_2 _ _ Hi) as [b ->]. done.
  - rewrite lookup_seqZ_ge by lia. by rewrite lookup_ge_None_2 by lia.
Qed.
Lemma peek_poke_ne off n off' bytes mem : off + Z.of_nat n ≤ off' ∨ off' + Z.of_nat (length bytes) ≤ off → peek off n (poke off' bytes mem) = peek off n mem.
Proof.
  intros Hd. unfold peek. apply list_fmap_ext. intros i x Hx. apply lookup_seqZ in Hx as [-> Hi]. rewrite poke_lookup, decide_False by lia. done.
Qed.
Lemma load_store off v mem : is_u64 v → load off (store off v mem) = v.
Proof.
  intros Hv. unfold load, store. change 8%nat with (length (append_u64 v)). rewrite peek_poke. rewrite <- (app_nil_r (append_u64 v)). by apply read_append_u64.
Qed.
Lemma load_store_ne off off' v mem : off + 8 ≤ off' ∨ off' + 8 ≤ off → load off (store off' v mem) = load off mem.
Proof. intros Hd. unfold load, store. by rewrite peek_poke_ne by (rewrite length_append_u64; lia). Qed.
Lemma load_poke_ne off off' bytes mem : off + 8 ≤ off' ∨ off' + Z.of_nat (length bytes) ≤ off → load off (poke off' bytes mem) = load off mem.
Proof. intros Hd. unfold load. by rewrite peek_poke_ne by lia. Qed.
Lemma peek_store_ne off n off' v mem : off + Z.of_nat n ≤ off' ∨ off' + 8 ≤ off → peek off n (store off' v mem) = peek off n mem.
Proof. intros Hd. unfold store. by rewrite peek_poke_ne by (rewrite length_append_u64; lia). Qed.

(** ** The backend in shared memory *)

(* include/lazily/transport.hpp:109-109, ShmBackend::kMagic *)
Definition kMagic : Z := 5501801464601530178.
(** The offsets of the header's words. *)
(* include/lazily/transport.hpp:110-116, ShmBackend::Header *)
Definition kCapacity : Z := 8.
Definition kBump : Z := 16.
Definition kGeneration : Z := 24.
Definition kEpoch : Z := 32.
Definition kHeaderBytes : Z := 40.
(** Three words: generation, length, checksum. *)
(* include/lazily/transport.hpp:117-121, ShmBackend::SlotHeader *)
Definition kSlotHeader : Z := 24.

(* include/lazily/transport.hpp:210-217, ShmBackend::fnv1a *)
Definition shm_fnv1a (data : list Z) : Z := foldl (λ h b, u64 (Z.lxor h b * 1099511628211)) 14695981039346656037 data.

(** A handle: how much it has mapped, and the region, shared with others. *)
(* include/lazily/transport.hpp:218-222, ShmBackend (data members) *)
Record ShmBackend := mkShm { capacity_ : Z; region : gmap Z Z }.
Definition with_region (m : gmap Z Z) (b : ShmBackend) : ShmBackend := mkShm (capacity_ b) m.

(** Whether each system call succeeds, and what the region holds, is given. *)
(* include/lazily/transport.hpp:127-153, ShmBackend::ShmBackend *)
Definition shm_new (name : string) (opened truncated mapped : bool) (capacity : Z) (create : bool) (mem : gmap Z Z) : Access ShmBackend :=
  if negb opened then Threw (String.append "ShmBackend: shm_open failed: " name)
  else if create && negb truncated then Threw "ShmBackend: ftruncate failed"
  else if negb mapped then Threw "ShmBackend: mmap failed"
  else if create then
    if capacity <? kHeaderBytes then Fault
    else Ok (mkShm capacity (store kEpoch 0 (store kGeneration 0 (store kBump kHeaderBytes (store kCapacity capacity (store 0 kMagic mem))))))
  else Ok (mkShm capacity mem).

(** The words before and the bytes of a slot. *)
(* include/lazily/transport.hpp:168-170, ShmBackend::write (slot) *)
Definition put_slot (off gen csum : Z) (bytes : list Z) (mem : gmap Z Z) : gmap Z Z :=
  poke (off + kSlotHeader) bytes (store (off + 16) csum (store (off + 8) (Z.of_nat (length bytes)) (store off gen mem))).
(* include/lazily/transport.hpp:160-174, ShmBackend::write *)
Definition shm_write (bytes : list Z) (b : ShmBackend) : Access ShmBlobRef * ShmBackend :=
  let m := region b in
  let need := kSlotHeader +64 Z.of_nat (length bytes) in
  let off := load kBump m in
  let m := store kBump (off +64 need) m in
  if load kCapacity m <? off +64 need then (Threw "ShmBackend: region full (bump allocator exhausted)", with_region m b)
  else
    let gen := load kGeneration m +64 1 in
    let m := store kGeneration gen m in
    let ep := load kEpoch m in
    let csum := shm_fnv1a bytes in
    if capacity_ b <? off + kSlotHeader + Z.of_nat (length bytes) then (Fault, with_region m b)
    else (Ok (mkBlob (to_i64 off) (to_i64 (Z.of_nat (length bytes))) (to_i64 gen) (to_i64 ep) (to_i64 csum) Shm), with_region (put_slot off gen csum bytes m) b).

(* include/lazily/transport.hpp:176-191, ShmBackend::read_view *)
Definition shm_read_view (r : ShmBlobRef) (b : ShmBackend) : Access (option (list Z)) :=
  let m := region b in
  if (offset r <? 0) || (load kCapacity m <? u64 (offset r) +64 kSlotHeader) then Ok None
  else
    let off := u64 (offset r) in
    if capacity_ b <? off + kSlotHeader then Fault
    else if negb (load off m =? u64 (generation r)) then Ok None
    else if negb (load (off + 8) m =? u64 (len r)) then Ok None
    else if negb (load (off + 16) m =? u64 (checksum r)) then Ok None
    else if negb (load kEpoch m =? u64 (blob_epoch r)) then Ok None
    else if load kCapacity m <? u64 (off + kSlotHeader + load (off + 8) m) then Ok None
    else if capacity_ b <? off + kSlotHeader + load (off + 8) m then Fault
    else Ok (Some (peek (off + kSlotHeader) (Z.to_nat (load (off + 8) m)) m)).

(* include/lazily/transport.hpp:193-193, ShmBackend::advance_epoch *)
Definition shm_advance_epoch (b : ShmBackend) : ShmBackend := with_region (store kEpoch (load kEpoch (region b) +64 1) (region b)) b.

(* include/lazily/transport.hpp:158-158, ShmBackend::kind *)
#[export] Instance shm_backend : BlobBackend ShmBackend := {
  bk_kind _ := Shm; bk_write := shm_write; bk_read_view := shm_read_view; bk_advance_epoch := shm_advance_epoch }.

(** The header of a region in order, asked for little enough. *)
Record shm_ok (n : nat) (b : ShmBackend) : Prop := {
  so_mapped : load kCapacity (region b) ≤ capacity_ b ≤ i64_max;
  so_bump : kHeaderBytes ≤ load kBump (region b) ∧ load kBump (region b) + Z.of_nat n < two64;
  so_generation : is_u64 (load kGeneration (region b));
  so_epoch : is_u64 (load kEpoch (region b)) }.
(** A slot below the bump, written and of this epoch. *)
Record shm_names (r : ShmBlobRef) (x : list Z) (b : ShmBackend) : Prop := {
  sn_offset : kHeaderBytes ≤ offset r ∧ offset r + kSlotHeader + Z.of_nat (length x) ≤ Z.min (load kBump (region b)) (load kCapacity (region b));
  sn_generation : load (offset r) (region b) = u64 (generation r);
  sn_len : load (offset r + 8) (region b) = Z.of_nat (length x) ∧ u64 (len r) = Z.of_nat (length x);
  sn_checksum : load (offset r + 16) (region b) = u64 (checksum r);
  sn_epoch : load kEpoch (region b) = u64 (blob_epoch r);
  sn_bytes : peek (offset r + kSlotHeader) (length x) (region b) = x }.

Lemma u64_to_i64 z : is_u64 z → u64 (to_i64 z) = z.
Proof.
  unfold is_u64, to_i64. intros Hz. destruct (Z.ltb_spec i64_max z); [|by rewrite u64_small].
  unfold u64. rewrite <- (Z_mod_plus_full _ 1). by rewrite Z.mul_1_l, Z.sub_add, Z.mod_small.
Qed.
Lemma to_i64_small z : z ≤ i64_max → to_i64 z = z.
Proof. unfold to_i64. destruct (Z.ltb_spec i64_max z); [lia|done]. Qed.
Lemma shm_fnv1a_u64 l : is_u64 (shm_fnv1a l).
Proof. unfold shm_fnv1a. induction l as [|b l IH] using rev_ind; [done|]. rewrite foldl_app. simpl. apply u64_range. Qed.

Ltac in_bounds := repeat match goal with |- context [?a <? ?b] => destruct (Z.ltb_spec a b); [lia|]; cbn [orb] end.
Ltac words := repeat first [rewrite load_store by (done || apply u64_range) | rewrite load_store_ne by (unfold kBump, kCapacity, kGeneration, kEpoch, kHeaderBytes, kSlotHeader in *; lia)
  | rewrite peek_store_ne by (unfold kBump, kCapacity, kGeneration, kEpoch, kHeaderBytes, kSlotHeader in *; lia)
  | rewrite load_poke_ne by (unfold kBump, kCapacity, kGeneration, kEpoch, kHeaderBytes, kSlotHeader in *; lia)
  | rewrite peek_poke_ne by (unfold kBump, kCapacity, kGeneration, kEpoch, kHeaderBytes, kSlotHeader in *; lia)].

#[local] Opaque load store poke peek shm_fnv1a.

(** What a write does that has room: the bump moves, the slot is written. *)
Lemma shm_write_cases n bytes b : shm_ok (cost bytes + n) b →
  let m := region b in let off := load kBump m in
  let m1 := store kBump (off + kSlotHeader + Z.of_nat (length bytes)) m in
  (load kCapacity m < off + kSlotHeader + Z.of_nat (length bytes) ∧ shm_write bytes b = (Threw "ShmBackend: region full (bump allocator exhausted)", with_region m1 b)) ∨
  (off + kSlotHeader + Z.of_nat (length bytes) ≤ load kCapacity m ∧
   let gen := load kGeneration m +64 1 in
   shm_write bytes b = (Ok (mkBlob off (Z.of_nat (length bytes)) (to_i64 gen) (to_i64 (load kEpoch m)) (to_i64 (shm_fnv1a bytes)) Shm),
     with_region (put_slot off gen (shm_fnv1a bytes) bytes (store kGeneration gen m1)) b)).
Proof.
  intros [Hmap Hb Hg He]. cbn zeta. unfold cost in *. unfold shm_write.
  rewrite (u64_small (kSlotHeader + Z.of_nat (length bytes))) by (unfold is_u64, kSlotHeader, kHeaderBytes in *; lia).
  rewrite (u64_small (load kBump (region b) + _)) by (unfold is_u64, kSlotHeader, kHeaderBytes in *; lia). rewrite Z.add_assoc.
  words. destruct (Z.ltb_spec (load kCapacity (region b)) (load kBump (region b) + kSlotHeader + Z.of_nat (length bytes))) as [Hfull|Hfit]; [by left|right].
  split; [done|]. destruct (Z.ltb_spec (capacity_ b) (load kBump (region b) + kSlotHeader + Z.of_nat (length bytes))); [lia|].
  rewrite (to_i64_small (load kBump (region b))), (to_i64_small (Z.of_nat (length bytes))) by (unfold kSlotHeader, kHeaderBytes in *; lia). done.
Qed.

(** What lies apart from what is written stays named. *)
Lemma shm_names_apart r x b m off : shm_names r x b → load kBump (region b) ≤ off →
  (∀ i n, i + Z.of_nat n ≤ off → (i + Z.of_nat n ≤ kBump ∨ kGeneration + 8 ≤ i) → peek i n m = peek i n (region b)) → off ≤ load kBump m →
  load kCapacity m = load kCapacity (region b) → shm_names r x (with_region m b).
Proof.
  intros [So Sg [Sl1 Sl2] Sc Se Sb] Hoff Hpk Hbump Hcap.
  assert (Hl : ∀ i, i + 8 ≤ off → kGeneration + 8 ≤ i → load i m = load i (region b)).
  { intros i H1 H2. Transparent load. unfold load. Opaque load. f_equal. apply Hpk; [lia|by right]. }
  assert (kHeaderBytes = 40 ∧ kSlotHeader = 24 ∧ kGeneration = 24 ∧ kEpoch = 32 ∧ kBump = 16) as (? & ? & ? & ? & ?) by done.
  split; cbn [region with_region].
  - rewrite Hcap. lia.
  - rewrite Hl by lia. done.
  - by rewrite Hl by lia.
  - rewrite Hl by lia. done.
  - rewrite Hl by lia. done.
  - rewrite Hpk by lia. done.
Qed.

Lemma shm_ok_le m n b : (m ≤ n)%nat → shm_ok n b → shm_ok m b.
Proof. intros Hle [H1 [H2 H3] H4 H5]. split; try done. split; [done|lia]. Qed.

#[export, refine] Instance shm_laws : BlobBackendLaws ShmBackend := {
  bk_ok := shm_ok; bk_names := shm_names; bk_ok_le := _; bk_write_ok := _; bk_reads := _; bk_advance_ok := _ }.
Proof.
  - exact shm_ok_le.
  - intros n bytes b a b' Hok E. pose proof (shm_write_cases n bytes b Hok) as Hw. pose proof Hok as [Hmap Hb Hg He]. cbn in E. cbn zeta in Hw.
    assert (kHeaderBytes = 40 ∧ kSlotHeader = 24 ∧ kGeneration = 24 ∧ kEpoch = 32 ∧ kBump = 16 ∧ kCapacity = 8) as (? & ? & ? & ? & ? & ?) by done. unfold cost in *.
    assert (Hu : is_u64 (load kBump (region b) + kSlotHeader + Z.of_nat (length bytes))) by (unfold is_u64; lia).
    destruct Hw as [[Hfull Hw]|[Hfit Hw]]; rewrite Hw in E; injection E as <- <-.
    + split; [split; cbn; words; try done; lia|]. split; [done|]. split; [|done].
      intros r x Hn. eapply shm_names_apart; [done|reflexivity| | |]; [|words; lia|by words].
      intros i k Hi Hk. apply peek_store_ne. lia.
    + set (gen := load kGeneration (region b) +64 1) in *. assert (is_u64 gen) by apply u64_range.
      assert (Hpk : ∀ i k, i + Z.of_nat k ≤ load kBump (region b) → (i + Z.of_nat k ≤ kBump ∨ kGeneration + 8 ≤ i) →
        peek i k (put_slot (load kBump (region b)) gen (shm_fnv1a bytes) bytes (store kGeneration gen (store kBump (load kBump (region b) + kSlotHeader + Z.of_nat (length bytes)) (region b)))) = peek i k (region b)).
      { intros i k Hi Hk. unfold put_slot. words. done. }
      split; [split; cbn [region with_region capacity_]; unfold put_slot; words; try done; lia|]. split; [done|]. split.
      * intros r x Hn. eapply shm_names_apart; [done|reflexivity|exact Hpk| |]; unfold put_slot; words; [lia|done].
      * split; [|done]. split; cbn [region with_region offset len generation checksum blob_epoch]; unfold put_slot.
        -- words. lia.
        -- words. by rewrite u64_to_i64.
        -- words. split; [|rewrite u64_small; [done|unfold is_u64; lia]]. rewrite load_store; [done|unfold is_u64; lia].
        -- words. rewrite load_store, u64_to_i64; [done|apply shm_fnv1a_u64|apply shm_fnv1a_u64].
        -- words. by rewrite u64_to_i64.
        -- apply peek_poke.
  - intros n r x b [Hmap Hb Hg He] [So Sg [Sl1 Sl2] Sc Se Sb] _. cbn. unfold shm_read_view.
    assert (kHeaderBytes = 40 ∧ kSlotHeader = 24) as (? & ?) by done. assert (i64_max < two64) by done.
    rewrite !(u64_small (offset r)) by (unfold is_u64; lia). rewrite (u64_small (offset r + kSlotHeader)) by (unfold is_u64; lia).
    rewrite Sg, Sl1, Sl2, Sc, Se, !Z.eqb_refl. cbn [negb]. rewrite u64_small by (unfold is_u64; lia).
    in_bounds. rewrite Nat2Z.id, Sb. done.
  - intros n b Hok. pose proof Hok as [Hmap [Hb1 Hb2] Hg He]. assert (kHeaderBytes = 40 ∧ kSlotHeader = 24 ∧ kGeneration = 24 ∧ kEpoch = 32 ∧ kBump = 16 ∧ kCapacity = 8) as (? & ? & ? & ? & ? & ?) by done.
    split; [|split; [done|]].
    + cbn. unfold shm_advance_epoch. split; cbn [region with_region capacity_]; words; try done. apply u64_range.
    + intros r x [So Sg [Sl1 Sl2] Sc Se Sb]. cbn. unfold shm_read_view, shm_advance_epoch. cbn [region with_region capacity_]. assert (i64_max < two64) by done.
      rewrite !(u64_small (offset r)) by (unfold is_u64; lia). words. rewrite (u64_small (offset r + kSlotHeader)) by (unfold is_u64; lia).
      rewrite Sg, Sl1, Sl2, Sc, !Z.eqb_refl. cbn [negb]. in_bounds.
      rewrite <- Se. destruct (Z.eqb_spec (load kEpoch (region b) +64 1) (load kEpoch (region b))) as [E|]; [|done]. exfalso. unfold is_u64, u64, two64 in He, E. Z.div_mod_to_equations. lia.
Defined.

Lemma shm_new_ok name capacity mem n : kHeaderBytes ≤ capacity ≤ i64_max → kHeaderBytes + Z.of_nat n < two64 →
  ∃ b, shm_new name true true true capacity true mem = Ok b ∧ shm_ok n b.
Proof.
  intros Hc Hn. assert (kHeaderBytes = 40 ∧ kSlotHeader = 24 ∧ kGeneration = 24 ∧ kEpoch = 32 ∧ kBump = 16 ∧ kCapacity = 8) as (? & ? & ? & ? & ? & ?) by done.
  assert (is_u64 capacity) by (assert (i64_max < two64) by done; unfold is_u64; lia).
  unfold shm_new. cbn [negb andb]. destruct (Z.ltb_spec capacity kHeaderBytes); [lia|]. eexists. split; [reflexivity|].
  split; cbn [region capacity_]; words; try done; lia.
Qed.

(** ** One backend or another *)

#[export] Instance sum_backend {A B} `{BlobBackend A, BlobBackend B} : BlobBackend (A + B) := {
  bk_kind b := match b with inl b => bk_kind b | inr b => bk_kind b end;
  bk_write bytes b := match b with inl b => let '(r, b) := bk_write bytes b in (r, inl b) | inr b => let '(r, b) := bk_write bytes b in (r, inr b) end;
  bk_read_view r b := match b with inl b => bk_read_view r b | inr b => bk_read_view r b end;
  bk_advance_epoch b := match b with inl b => inl (bk_advance_epoch b) | inr b => inr (bk_advance_epoch b) end }.
#[export, refine] Instance sum_laws {A B} `{BlobBackendLaws A, BlobBackendLaws B} : BlobBackendLaws (A + B) := {
  bk_ok n b := match b with inl b => bk_ok n b | inr b => bk_ok n b end;
  bk_names r x b := match b with inl b => bk_names r x b | inr b => bk_names r x b end;
  bk_ok_le := _; bk_write_ok := _; bk_reads := _; bk_advance_ok := _ }.
Proof.
  - intros m n [b|b]; [apply (bk_ok_le (B:=A))|apply (bk_ok_le (B:=B))].
  - intros n bytes [b|b] a b' Hok E; cbn in E; destruct (bk_write bytes b) as [r b1] eqn:Ew; injection E as <- <-; destruct (bk_write_ok n bytes b r b1 Hok Ew) as (? & ? & Hk & ?);
      (split; [done|]; split; [done|]; split; [intros r' x; apply Hk|done]).
  - intros n r x [b|b]; [apply (bk_reads (B:=A))|apply (bk_reads (B:=B))].
  - intros n [b|b] Hok; destruct (bk_advance_ok n b Hok) as (? & ? & Ha); (split; [done|]; split; [done|]; intros r x; apply Ha).
Defined.

(** ** Spilling *)
Section spill.
Context {B : Type} `{BlobBackend B} (threshold : nat).

(** The bytes are moved out of the value before the backend is asked: when it
    throws, the value is left empty. *)
(* include/lazily/transport.hpp:230-241, spill (IpcValue) *)
Definition spill_value (v : IpcValue) (b : B) : Access nat * IpcValue * B :=
  match v with
  | ValueInline bytes =>
      if (threshold <=? length bytes)%nat then
        let '(r, b) := bk_write bytes b in
        match r with
        | Ok ref => (Ok (length bytes), ValueSharedBlob ref, b)
        | Threw e => (Threw e, ValueInline [], b)
        | Fault => (Fault, ValueInline [], b)
        end
      else (Ok 0%nat, v, b)
  | ValueSharedBlob _ => (Ok 0%nat, v, b)
  end.
(* include/lazily/transport.hpp:250-258, spill (spill_state) *)
Definition spill_state (s : NodeState) (b : B) : Access nat * NodeState * B :=
  match s with
  | StatePayload bytes =>
      if (threshold <=? length bytes)%nat then
        let '(r, b) := bk_write bytes b in
        match r with
        | Ok ref => (Ok (length bytes), StateSharedBlob ref, b)
        | Threw e => (Threw e, StatePayload [], b)
        | Fault => (Fault, StatePayload [], b)
        end
      else (Ok 0%nat, s, b)
  | StateSharedBlob _ | StateOpaque => (Ok 0%nat, s, b)
  end.

(** Something spilled inside something else. *)
Definition spill_in {A C : Type} (wrap : A → C) (r : Access nat * A * B) : Access nat * C * B := let '(t, x, b) := r in (t, wrap x, b).
(* include/lazily/transport.hpp:260-261, spill (loop over nodes) *)
Definition spill_node (n : NodeSnapshot) (b : B) : Access nat * NodeSnapshot * B :=
  spill_in (λ s, mkNode (ns_node n) (ns_type_tag n) s (ns_key n)) (spill_state (ns_state n) b).
(* include/lazily/transport.hpp:263-275, spill (loop over delta operations) *)
Definition spill_delta_op (op : DeltaOp) (b : B) : Access nat * DeltaOp * B :=
  match op with
  | CellSet node payload => spill_in (CellSet node) (spill_value payload b)
  | SlotValue node payload => spill_in (SlotValue node) (spill_value payload b)
  | QueuePush node payload => spill_in (QueuePush node) (spill_value payload b)
  | NodeAdd node type_tag state key => spill_in (λ s, NodeAdd node type_tag s key) (spill_state state b)
  | _ => (Ok 0%nat, op, b)
  end.
(* include/lazily/transport.hpp:276-277, spill (loop over operations) *)
Definition spill_crdt_op (op : CrdtOp) (b : B) : Access nat * CrdtOp * B :=
  spill_in (mkCrdtOp (co_node op) (co_key op) (co_stamp op)) (spill_value (co_state op) b).

(** The loops: one after the other, until one throws. *)
Fixpoint spill_each {A : Type} (f : A → B → Access nat * A * B) (total : nat) (l : list A) (b : B) : Access nat * list A * B :=
  match l with
  | [] => (Ok total, [], b)
  | x :: l =>
      let '(t, x, b) := f x b in
      match t with
      | Ok n => spill_in (cons x) (spill_each f (total + n) l b)
      | t => (t, x :: l, b)
      end
  end.

(* include/lazily/transport.hpp:248-280, spill (IpcMessage) *)
Definition spill_message (m : IpcMessage) (b : B) : Access nat * IpcMessage * B :=
  match m with
  | MessageSnapshot s => spill_in (λ l, MessageSnapshot (mkSnapshot (s_epoch s) l (s_edges s) (s_roots s))) (spill_each spill_node 0 (s_nodes s) b)
  | MessageDelta d => spill_in (λ l, MessageDelta (mkDelta (base_epoch d) (d_epoch d) l)) (spill_each spill_delta_op 0 (d_ops d) b)
  | MessageCrdtSync c => spill_in (λ l, MessageCrdtSync (mkCrdtSync (frontier c) l)) (spill_each spill_crdt_op 0 (cs_ops c) b)
  | MessageResyncRequest _ | MessageOutboxAck _ => (Ok 0%nat, m, b)
  end.
End spill.

(** ** Resolving *)

(* include/lazily/transport.hpp:284-288, resolve *)
Definition resolve {B} `{BlobBackend B, EmptyVector} (v : IpcValue) (b : B) : Access (option (list Z)) :=
  match v with ValueInline bytes => Ok (view_of bytes) | ValueSharedBlob r => bk_read_view r b end.

#[export] Instance BlobBackendKind_countable : Countable BlobBackendKind.
Proof.
  apply (inj_countable' (λ k, match k with Shm => 0%nat | Arrow => 1%nat | InProcess => 2%nat end) (λ n, match n with 0%nat => Shm | 1%nat => Arrow | _ => InProcess end)).
  by intros [].
Qed.

(** The router holds pointers: positions in the list of backends that live. *)
Section router.
Context {B : Type} `{BlobBackend B, EmptyVector}.
(* include/lazily/transport.hpp:311-311, BlobRouter (data members) *)
Definition BlobRouter : Type := gmap BlobBackendKind nat.
(* include/lazily/transport.hpp:295-298, BlobRouter::register_backend *)
Definition register_backend (i : nat) (heap : list B) (r : gmap BlobBackendKind nat) : option (gmap BlobBackendKind nat) :=
  b ← heap !! i; Some (<[bk_kind b := i]> r).
(* include/lazily/transport.hpp:299-303, BlobRouter::read_view *)
Definition router_read_view (ref : ShmBlobRef) (heap : list B) (r : gmap BlobBackendKind nat) : Access (option (list Z)) :=
  match r !! backend ref with
  | None => Ok None
  | Some i => match heap !! i with Some b => bk_read_view ref b | None => Fault end
  end.
(* include/lazily/transport.hpp:304-308, BlobRouter::resolve *)
Definition router_resolve (v : IpcValue) (heap : list B) (r : gmap BlobBackendKind nat) : Access (option (list Z)) :=
  match v with ValueInline bytes => Ok (view_of bytes) | ValueSharedBlob ref => router_read_view ref heap r end.
End router.

(** ** What spilling keeps *)

(** The values a message carries, in order, and the message without them. *)
Definition state_sites (s : NodeState) : list IpcValue :=
  match s with StatePayload x => [ValueInline x] | StateSharedBlob r => [ValueSharedBlob r] | StateOpaque => [] end.
Definition op_sites (op : DeltaOp) : list IpcValue :=
  match op with CellSet _ v | SlotValue _ v | QueuePush _ v => [v] | NodeAdd _ _ s _ => state_sites s | _ => [] end.
Definition sites (m : IpcMessage) : list IpcValue :=
  match m with
  | MessageSnapshot s => s_nodes s ≫= λ n, state_sites (ns_state n)
  | MessageDelta d => d_ops d ≫= op_sites
  | MessageCrdtSync c => cs_ops c ≫= λ op, [co_state op]
  | _ => []
  end.
Definition blank_value (v : IpcValue) : IpcValue := ValueInline [].
Definition blank_state (s : NodeState) : NodeState := match s with StateOpaque => StateOpaque | _ => StatePayload [] end.
Definition blank_node (n : NodeSnapshot) : NodeSnapshot := mkNode (ns_node n) (ns_type_tag n) (blank_state (ns_state n)) (ns_key n).
Definition blank_op (op : DeltaOp) : DeltaOp :=
  match op with
  | CellSet n v => CellSet n (blank_value v) | SlotValue n v => SlotValue n (blank_value v) | QueuePush n v => QueuePush n (blank_value v)
  | NodeAdd n tag s key => NodeAdd n tag (blank_state s) key | op => op
  end.
Definition blank_crdt_op (op : CrdtOp) : CrdtOp := mkCrdtOp (co_node op) (co_key op) (co_stamp op) (blank_value (co_state op)).
Definition blank (m : IpcMessage) : IpcMessage :=
  match m with
  | MessageSnapshot s => MessageSnapshot (mkSnapshot (s_epoch s) (blank_node <$> s_nodes s) (s_edges s) (s_roots s))
  | MessageDelta d => MessageDelta (mkDelta (base_epoch d) (d_epoch d) (blank_op <$> d_ops d))
  | MessageCrdtSync c => MessageCrdtSync (mkCrdtSync (frontier c) (blank_crdt_op <$> cs_ops c))
  | m => m
  end.

(** What a list of values asks of the backend, and the bytes it moves there. *)
Definition long (threshold : nat) (v : IpcValue) : option (list Z) :=
  match v with ValueInline x => if (threshold <=? length x)%nat then Some x else None | ValueSharedBlob _ => None end.
Definition budget (threshold : nat) (vs : list IpcValue) : nat := sum_list (cost <$> omap (long threshold) vs).
Definition moved_bytes (threshold : nat) (vs : list IpcValue) : nat := sum_list (length <$> omap (long threshold) vs).

Section kept.
Context {B : Type} `{BlobBackendLaws B} (threshold : nat).

Lemma budget_app vs ws : budget threshold (vs ++ ws) = (budget threshold vs + budget threshold ws)%nat.
Proof. unfold budget. by rewrite omap_app, fmap_app, sum_list_with_app. Qed.
Lemma moved_bytes_app vs ws : moved_bytes threshold (vs ++ ws) = (moved_bytes threshold vs + moved_bytes threshold ws)%nat.
Proof. unfold moved_bytes. by rewrite omap_app, fmap_app, sum_list_with_app. Qed.

(** A value and what spilling makes of it. *)
Definition moved (b : B) (v v' : IpcValue) : Prop :=
  match long threshold v with
  | Some x => ∃ r, v' = ValueSharedBlob r ∧ bk_names r x b ∧ backend r = bk_kind b
  | None => v' = v
  end.
Record spilled (total n : nat) (vs vs' : list IpcValue) (t : Access nat) (b b' : B) : Prop := {
  sp_ok : bk_ok n b';
  sp_kind : bk_kind b' = bk_kind b;
  sp_names r x : bk_names r x b → bk_names r x b';
  sp_moved : match t with Ok k => k = (total + moved_bytes threshold vs)%nat ∧ Forall2 (moved b') vs vs' | Threw _ => True | Fault => False end }.

Lemma moved_later b b' v v' : bk_kind b' = bk_kind b → (∀ r x, bk_names r x b → bk_names r x b') → moved b v v' → moved b' v v'.
Proof. intros Hk Hn. unfold moved. destruct (long threshold v); [|done]. intros (r & ? & ? & ?). exists r. rewrite Hk. auto. Qed.

Lemma spilled_nothing total n b : bk_ok n b → spilled total n [] [] (Ok total) b b.
Proof. intros Hb. split; [done..|]. split; [unfold moved_bytes; simpl; lia|constructor]. Qed.

Lemma spilled_app total n k vs vs' b b1 ws ws' t b2 : spilled total (budget threshold ws + n) vs vs' (Ok k) b b1 → spilled k n ws ws' t b1 b2 →
  spilled total n (vs ++ ws) (vs' ++ ws') t b b2.
Proof.
  intros [O1 K1 N1 [-> M1]] [O2 K2 N2 M2]. split; [done|congruence|auto|]. destruct t as [k| |]; [|done..]. destruct M2 as [-> M2].
  split; [rewrite moved_bytes_app; lia|]. apply Forall2_app; [|done]. eapply Forall2_impl; [exact M1|]. intros v v'. by apply moved_later.
Qed.

(** A routine that spills what its argument carries, and changes nothing else. *)
Definition spills {A : Type} (f : A → B → Access nat * A * B) (sites_of : A → list IpcValue) (blank_of : A → A) : Prop :=
  ∀ n x b t x' b', bk_ok (budget threshold (sites_of x) + n) b → f x b = (t, x', b') → spilled 0 n (sites_of x) (sites_of x') t b b' ∧ blank_of x' = blank_of x.

Lemma spilled_short total n v b : bk_ok n b → long threshold v = None → spilled total n [v] [v] (Ok total) b b.
Proof.
  intros Hb Hv. split; [done..|]. unfold moved_bytes. cbn. rewrite Hv. split; [simpl; lia|]. constructor; [|constructor]. unfold moved. by rewrite Hv.
Qed.
Lemma spilled_long total n x v' v'' b a b' : bk_ok (budget threshold [ValueInline x] + n) b → (threshold <= length x)%nat → bk_write x b = (a, b') →
  (∀ r, a = Ok r → v' = ValueSharedBlob r) →
  spilled total n [ValueInline x] [match a with Ok _ => v' | _ => v'' end] (match a with Ok _ => Ok (total + length x)%nat | Threw e => Threw e | Fault => Fault end) b b'.
Proof.
  intros Hb Hx E Hv. assert (Hl : long threshold (ValueInline x) = Some x) by (simpl; destruct (Nat.leb_spec threshold (length x)); [done|lia]).
  assert (Hbu : budget threshold [ValueInline x] = cost x) by (unfold budget; cbn -[cost long]; rewrite Hl; cbn -[cost]; lia). rewrite Hbu in Hb.
  destruct (bk_write_ok n x b a b' Hb E) as (Ho & Hk & Hn & Ha). split; [done..|]. destruct a as [r| |]; [|done..]. rewrite (Hv r eq_refl). destruct Ha as [Ha1 Ha2].
  split; [unfold moved_bytes; cbn -[long]; rewrite Hl; simpl; lia|]. constructor; [|constructor]. unfold moved. rewrite Hl. exists r. split_and!; [done|done|congruence].
Qed.

Lemma spills_value : spills (spill_value threshold) (λ v, [v]) blank_value.
Proof.
  intros n [x|r] b t v' b' Hb E; simpl in E.
  - destruct (Nat.leb_spec threshold (length x)) as [Hx|Hx].
    + destruct (bk_write x b) as [a b1] eqn:Ew. pose proof (spilled_long 0 n x v' (ValueInline []) b a b1 Hb Hx Ew) as Hs. destruct a; injection E as <- <- <-; (split; [|done]); apply Hs; congruence.
    + injection E as <- <- <-. split; [|done]. assert (Hl : long threshold (ValueInline x) = None) by (simpl; destruct (Nat.leb_spec threshold (length x)); [lia|done]).
      apply spilled_short; [|done]. eapply bk_ok_le; [|exact Hb]. lia.
  - injection E as <- <- <-. split; [|done]. apply spilled_short; [|done]. eapply bk_ok_le; [|exact Hb]. lia.
Qed.
Lemma spills_state : spills (spill_state threshold) state_sites blank_state.
Proof.
  intros n [x|r|] b t v' b' Hb E; simpl in E.
  - destruct (Nat.leb_spec threshold (length x)) as [Hx|Hx].
    + destruct (bk_write x b) as [a b1] eqn:Ew.
      destruct a as [ref| |]; injection E as <- <- <-; (split; [|done]);
        [apply (spilled_long 0 n x (ValueSharedBlob ref) (ValueInline []) b _ b1 Hb Hx Ew)|apply (spilled_long 0 n x (ValueInline []) (ValueInline []) b _ b1 Hb Hx Ew)|
         apply (spilled_long 0 n x (ValueInline []) (ValueInline []) b _ b1 Hb Hx Ew)]; congruence.
    + injection E as <- <- <-. split; [|done]. assert (Hl : long threshold (ValueInline x) = None) by (simpl; destruct (Nat.leb_spec threshold (length x)); [lia|done]).
      apply spilled_short; [|done]. eapply bk_ok_le; [|exact Hb]. lia.
  - injection E as <- <- <-. split; [|done]. apply spilled_short; [|done]. eapply bk_ok_le; [|exact Hb]. lia.
  - injection E as <- <- <-. split; [|done]. apply spilled_nothing. eapply bk_ok_le; [|exact Hb]. lia.
Qed.

(** What spills a part spills the whole. *)
Lemma spills_in {A C} (f : A → B → Access nat * A * B) (sites_of : A → list IpcValue) (blank_of : A → A) (sites_of' : C → list IpcValue) (blank_of' : C → C)
    (wrap : A → C) n x b t y b' : spills f sites_of blank_of → (∀ a, sites_of' (wrap a) = sites_of a) → (∀ a a', blank_of a = blank_of a' → blank_of' (wrap a) = blank_of' (wrap a')) →
  bk_ok (budget threshold (sites_of' (wrap x)) + n) b → spill_in wrap (f x b) = (t, y, b') → spilled 0 n (sites_of' (wrap x)) (sites_of' y) t b b' ∧ blank_of' y = blank_of' (wrap x).
Proof.
  intros Hf Hs Hbl Hb E. rewrite Hs in *. destruct (f x b) as [[t1 x1] b1] eqn:Ef. injection E as <- <- <-. destruct (Hf n x b t1 x1 b1 Hb Ef) as [H1 H2].
  rewrite Hs. split; [done|]. by apply Hbl.
Qed.

Lemma spills_node : spills (spill_node threshold) (λ n, state_sites (ns_state n)) blank_node.
Proof.
  intros n [id tag s key] b t y b'. apply (spills_in (spill_state threshold) state_sites blank_state (λ n, state_sites (ns_state n)) blank_node (λ s, mkNode id tag s key) n s); [apply spills_state|done|].
  intros s1 s2 E. unfold blank_node. simpl. by rewrite E.
Qed.
Lemma spills_crdt_op : spills (spill_crdt_op threshold) (λ op, [co_state op]) blank_crdt_op.
Proof.
  intros n [id key st v] b t y b'. by apply (spills_in (spill_value threshold) (λ v, [v]) blank_value (λ op, [co_state op]) blank_crdt_op (mkCrdtOp id key st) n v); [apply spills_value|..].
Qed.
Lemma spills_delta_op : spills (spill_delta_op threshold) op_sites blank_op.
Proof.
  intros n op b t y b'. assert (Hnone : op_sites op = [] → spill_delta_op threshold op b = (Ok 0%nat, op, b) → bk_ok (budget threshold (op_sites op) + n) b →
    spill_delta_op threshold op b = (t, y, b') → spilled 0 n (op_sites op) (op_sites y) t b b' ∧ blank_op y = blank_op op).
  { intros Hs -> Hb [= <- <- <-]. split; [|done]. rewrite Hs in *. by apply spilled_nothing. }
  destruct op as [id v|id v|id|id tag s key| | | |id v| |]; try (by apply Hnone).
  - by apply (spills_in (spill_value threshold) (λ v, [v]) blank_value op_sites blank_op (CellSet id) n v); [apply spills_value|..].
  - by apply (spills_in (spill_value threshold) (λ v, [v]) blank_value op_sites blank_op (SlotValue id) n v); [apply spills_value|..].
  - apply (spills_in (spill_state threshold) state_sites blank_state op_sites blank_op (λ s, NodeAdd id tag s key) n s); [apply spills_state|done|]. intros s1 s2 E. simpl. by rewrite E.
  - by apply (spills_in (spill_value threshold) (λ v, [v]) blank_value op_sites blank_op (QueuePush id) n v); [apply spills_value|..].
Qed.
End kept.

Section messages.
Context {B : Type} `{BlobBackendLaws B} (threshold : nat).

(** A result that carries on from a total. *)
Lemma spilled_from total n vs vs' t (b b' : B) : spilled threshold 0 n vs vs' t b b' →
  spilled threshold total n vs vs' (match t with Ok k => Ok (total + k)%nat | t => t end) b b'.
Proof. intros [O K N M]. split; [done..|]. destruct t as [k| |]; [|done..]. by destruct M as [-> M]. Qed.

Lemma spill_each_ok {A} (f : A → B → Access nat * A * B) sites_of blank_of : spills threshold f sites_of blank_of → ∀ l total n b t l' b',
  bk_ok (budget threshold (l ≫= sites_of) + n) b → spill_each f total l b = (t, l', b') →
  spilled threshold total n (l ≫= sites_of) (l' ≫= sites_of) t b b' ∧ blank_of <$> l' = blank_of <$> l.
Proof.
  intros Hf. induction l as [|x l IH]; intros total n b t l' b' Hb E; simpl in E.
  { injection E as <- <- <-. split; [|done]. by apply spilled_nothing. }
  cbn [mbind list_bind] in Hb. rewrite budget_app, <- Nat.add_assoc in Hb. destruct (f x b) as [[t1 x1] b1] eqn:Ef. destruct (Hf _ x b t1 x1 b1 Hb Ef) as [Hs Hbl].
  apply (spilled_from total) in Hs. destruct t1 as [k|e|].
  - destruct (spill_each f (total + k) l b1) as [[t2 l2] b2] eqn:El. injection E as <- <- <-.
    destruct (IH _ n b1 t2 l2 b2 (sp_ok _ _ _ _ _ _ _ _ Hs) El) as [Hs2 Hbl2]. cbn [mbind list_bind fmap list_fmap]. split; [|by f_equal]. by eapply spilled_app.
  - injection E as <- <- <-. split; [|cbn [fmap list_fmap]; by f_equal]. destruct Hs as [O K N M]. split; [eapply bk_ok_le; [|exact O]; lia|done|done|done].
  - injection E as <- <- <-. by destruct (sp_moved _ _ _ _ _ _ _ _ Hs).
Qed.

Lemma spills_message : spills threshold (spill_message threshold) sites blank.
Proof.
  intros n m b t m' b' Hb E. destruct m as [s|d|c|e|e]; simpl in E.
  - destruct (spill_each _ 0 (s_nodes s) b) as [[t1 l1] b1] eqn:El. injection E as <- <- <-. destruct (spill_each_ok _ _ _ (spills_node threshold) _ 0 n b _ _ _ Hb El) as [H1 H2].
    split; [exact H1|]. simpl. by rewrite H2.
  - destruct (spill_each _ 0 (d_ops d) b) as [[t1 l1] b1] eqn:El. injection E as <- <- <-. destruct (spill_each_ok _ _ _ (spills_delta_op threshold) _ 0 n b _ _ _ Hb El) as [H1 H2].
    split; [exact H1|]. simpl. by rewrite H2.
  - destruct (spill_each _ 0 (cs_ops c) b) as [[t1 l1] b1] eqn:El. injection E as <- <- <-. destruct (spill_each_ok _ _ _ (spills_crdt_op threshold) _ 0 n b _ _ _ Hb El) as [H1 H2].
    split; [exact H1|]. simpl. by rewrite H2.
  - injection E as <- <- <-. split; [|done]. by apply spilled_nothing.
  - injection E as <- <- <-. split; [|done]. by apply spilled_nothing.
Qed.
End messages.

(** What a backend is after more was written to it. *)
Definition after_writes {B} `{BlobBackend B} (ws : list (list Z)) (b : B) : B := foldl (λ b w, (bk_write w b).2) b ws.
Lemma after_writes_ok {B} `{BlobBackendLaws B} ws : ∀ (b : B), bk_ok (sum_list (cost <$> ws)) b →
  bk_ok 0 (after_writes ws b) ∧ bk_kind (after_writes ws b) = bk_kind b ∧ ∀ r x, bk_names r x b → bk_names r x (after_writes ws b).
Proof.
  induction ws as [|w ws IH]; intros b Hb; [done|]. cbn [fmap list_fmap sum_list after_writes foldl] in *. destruct (bk_write w b) as [a b1] eqn:Ew.
  destruct (bk_write_ok _ w b a b1 Hb Ew) as (H1 & H2 & H3 & _). destruct (IH b1 H1) as (H4 & H5 & H6). cbn. unfold after_writes in *. rewrite H5, H2. split_and!; auto.
Qed.

(** C1: Spilling loses nothing.  Over any backend that keeps the laws, whatever
    the message: spilling touches no memory that is not mapped; what it does not
    move out it leaves alone, and nothing but payloads changes.  When it
    returns, it returns the bytes moved, every payload of the threshold or more
    has become a descriptor of this backend, and, whatever is written to it
    later and whichever router it is registered with, the receiver resolves the
    descriptor to the very bytes; once the epoch has advanced, to nothing. *)
Theorem spilling_loses_nothing {B} `{BlobBackendLaws B, EmptyVector} (threshold n : nat) (m m' : IpcMessage) (t : Access nat) (b b' : B) :
  (0 < threshold)%nat → bk_ok (budget threshold (sites m) + n) b → spill_message threshold m b = (t, m', b') →
  t ≠ Fault ∧ bk_ok n b' ∧ blank m' = blank m ∧ (∀ r x, bk_names r x b → bk_names r x b') ∧
  ∀ k, t = Ok k → k = moved_bytes threshold (sites m) ∧ length (sites m') = length (sites m) ∧
    ∀ i v v', sites m !! i = Some v → sites m' !! i = Some v' →
      match v with
      | ValueInline x =>
          if (threshold <=? length x)%nat then
            ∃ r, v' = ValueSharedBlob r ∧ backend r = bk_kind b ∧
              ∀ ws, (sum_list (cost <$> ws) ≤ n)%nat → let b2 := after_writes ws b' in
                resolve v' b2 = Ok (Some x) ∧ resolve v' (bk_advance_epoch b2) = Ok None ∧
                ∀ (router : gmap BlobBackendKind nat) heap at_, router !! bk_kind b = Some at_ → heap !! at_ = Some b2 → router_resolve v' heap router = Ok (Some x)
          else v' = v
      | ValueSharedBlob _ => v' = v
      end.
Proof.
  intros Hthr Hb E. destruct (spills_message threshold n m b t m' b' Hb E) as [[O K N M] Hbl]. split_and!; [by intros ->|done|done|done|].
  intros k ->. destruct M as [-> M]. split; [done|]. split; [symmetry; by eapply Forall2_length|]. intros i v v' Hv Hv'.
  pose proof (Forall2_lookup_lr _ _ _ _ _ _ M Hv Hv') as Hm. unfold moved, long in Hm. destruct v as [x|r]; [|done]. destruct (Nat.leb_spec threshold (length x)) as [Hx|]; [|done].
  destruct Hm as (r & -> & Hr & Hk). exists r. split; [done|]. split; [congruence|]. intros ws Hws. cbn zeta.
  destruct (after_writes_ok ws b') as (O2 & K2 & N2); [by eapply bk_ok_le|].
  assert (Hne : x ≠ []) by (intros ->; simpl in Hx; lia).
  assert (Hread : bk_read_view r (after_writes ws b') = Ok (Some x)) by (eapply bk_reads; eauto).
  split; [done|]. split; [eapply (bk_advance_ok 0 _ O2), N2; done|]. intros router heap at_ Hat Hheap. simpl. unfold router_read_view. rewrite Hk, K, Hat, Hheap. done.
Qed.

#[local] Transparent load store poke peek shm_fnv1a.

(** A delta over a region of two hundred bytes: the long payload goes out. *)
Definition small_region (capacity : Z) : ShmBackend := match shm_new "r" true true true capacity true ∅ with Ok b => b | _ => mkShm 0 ∅ end.
Definition mixed : IpcMessage := MessageDelta (mkDelta 4 5 [CellSet 1 (ValueInline [7; 8; 9; 10]); NodeRemove 3; QueuePush 2 (ValueInline [1])]).
Definition mixed_spilled : Access nat * IpcMessage * ShmBackend := spill_message 3 mixed (small_region 200).
Definition mixed_blob : ShmBlobRef := mkBlob 40 4 1 0 (to_i64 (shm_fnv1a [7; 8; 9; 10])) Shm.
Lemma small_region_ok : shm_ok 54 (small_region 200).
Proof.
  destruct (shm_new_ok "r" 200 ∅ 54) as (b & Eb & Hb); [done|done|]. assert (small_region 200 = b) as -> by (unfold small_region; by rewrite Eb). exact Hb.
Qed.
Lemma spilling_loses_nothing_witness :
  sites mixed_spilled.1.2 = [ValueSharedBlob mixed_blob; ValueInline [1]] ∧ blank mixed_spilled.1.2 = blank mixed ∧
  resolve (H0 := false) (ValueSharedBlob mixed_blob) (after_writes [[5; 5]] mixed_spilled.2) = Ok (Some [7; 8; 9; 10]).
Proof.
  assert (Et : mixed_spilled.1.1 = Ok 4%nat) by (vm_compute; reflexivity).
  assert (Es : sites mixed_spilled.1.2 = [ValueSharedBlob mixed_blob; ValueInline [1]]) by (vm_compute; reflexivity).
  assert (E : spill_message 3 mixed (small_region 200) = (mixed_spilled.1.1, mixed_spilled.1.2, mixed_spilled.2)).
  { unfold mixed_spilled. generalize (spill_message 3 mixed (small_region 200)). intros [[? ?] ?]. reflexivity. }
  split; [exact Es|].
  destruct (spilling_loses_nothing (H1 := false) 3 26 mixed _ _ (small_region 200) _ ltac:(lia) small_region_ok E) as (_ & _ & Hbl & _ & Hk).
  split; [exact Hbl|]. destruct (Hk 4%nat Et) as (_ & _ & Hat). rewrite Es in Hat.
  destruct (Hat 0%nat (ValueInline [7; 8; 9; 10]) (ValueSharedBlob mixed_blob) eq_refl eq_refl) as (r & Hr & _ & Hw).
  destruct (Hw [[5; 5]] (le_n 26)) as [Hres _]. exact Hres.
Defined.

(** ** What is lost and what is not checked *)

(** When the region is full in the middle of a message the payload at hand is
    gone, and the bump has passed the end, so no write succeeds again. *)
Lemma full_region_loses_payload :
  let '(t, m', b') := spill_message 3 mixed (small_region 67) in
  t = Threw "ShmBackend: region full (bump allocator exhausted)" ∧ sites m' = [ValueInline []; ValueInline [1]] ∧
  (∃ r, (shm_write [9] (small_region 67)).1 = Ok r) ∧ ∃ what, (shm_write [9] b').1 = Threw what.
Proof. vm_compute. split; [reflexivity|]. split; [reflexivity|]. split; eexists; reflexivity. Qed.

(** The checksum in the slot is compared with the one of the descriptor, not
    with the bytes: a blob that was damaged is handed out. *)
Lemma damaged_blob_is_read :
  match shm_write [7; 8; 9] (small_region 200) with
  | (Ok r, b) => shm_read_view r (mkShm (capacity_ b) (<[offset r + kSlotHeader := 0]> (region b))) = Ok (Some [0; 8; 9])
  | _ => False
  end.
Proof. vm_compute. done. Qed.

(** Nor is the backend's kind: a backend reads what names another. *)
Lemma backend_kind_is_not_checked (r : ShmBlobRef) (k : BlobBackendKind) (b : ShmBackend) :
  shm_read_view (mkBlob (offset r) (len r) (generation r) (blob_epoch r) (checksum r) k) b = shm_read_view r b.
Proof. done. Qed.

(** A handle that maps less than the creator writes and reads past its end. *)
Lemma smaller_mapping_faults :
  match shm_new "r" true true true 64 false (region (small_region 200)) with Ok b => (shm_write [7; 8; 9] b).1 = Fault | _ => False end.
Proof. vm_compute. done. Qed.

(** A slot header is three words and may begin at any offset. *)
Lemma slots_are_not_aligned :
  match shm_write [7] (small_region 200) with
  | (Ok _, b) => match shm_write [8] b with (Ok r, _) => offset r mod 8 ≠ 0 | _ => False end
  | _ => False
  end.
Proof. vm_compute. done. Qed.

(** An empty payload, spilled at threshold 0, resolves to nothing where the data
    of an empty vector is null. *)
Lemma empty_blob_does_not_resolve (null : EmptyVector) :
  let '(_, v, b) := spill_value 0 (ValueInline []) (in_process_new 0) in resolve v b = Ok (if null then None else Some []).
Proof. destruct null; reflexivity. Qed.
