(* ===== verification/ShmWriters.v ===== *)
(** * ShmWriters: several writers of one shared region

    Transport takes [ShmBackend::write] as one step; here it is the atomic steps
    it is made of, interleaved with those of other writers, of other processes
    too, on the same region, and with advances of the epoch.  Filling a slot is
    one step: nobody has a descriptor of it yet. *)
From Stdlib Require Import String.
From S2P Require Import Prelude Bytes Outbox Ipc Transport.
#[local] Open Scope Z_scope.
#[local] Open Scope lazily_scope.

(** Where a writer of some bytes is. *)
Inductive Writer :=
  | Wants (x : list Z)
  | Reserved (x : list Z) (off : Z)
  | Numbered (x : list Z) (off gen : Z)
  | Stamped (x : list Z) (off gen ep : Z)
  | Wrote (x : list Z) (r : ShmBlobRef)
  | Refused (x : list Z)      (* region full *)
  | Crashed (x : list Z).     (* outside of the mapping *)

(* include/lazily/transport.hpp:160-174, ShmBackend::write (steps) *)
Definition writer_step (w : Writer) (b : ShmBackend) : option (Writer * ShmBackend) :=
  let m := region b in
  match w with
  | Wants x =>
      let off := load kBump m in
      Some (Reserved x off, with_region (store kBump (off +64 (kSlotHeader +64 Z.of_nat (length x))) m) b)
  | Reserved x off =>
      if load kCapacity m <? off +64 (kSlotHeader +64 Z.of_nat (length x)) then Some (Refused x, b)
      else let gen := load kGeneration m +64 1 in Some (Numbered x off gen, with_region (store kGeneration gen m) b)
  | Numbered x off gen => Some (Stamped x off gen (load kEpoch m), b)
  | Stamped x off gen ep =>
      if capacity_ b <? off + kSlotHeader + Z.of_nat (length x) then Some (Crashed x, b)
      else Some (Wrote x (mkBlob (to_i64 off) (to_i64 (Z.of_nat (length x))) (to_i64 gen) (to_i64 ep) (to_i64 (shm_fnv1a x)) Shm), with_region (put_slot off gen (shm_fnv1a x) x m) b)
  | _ => None
  end.

Definition finished (w : Writer) : bool := match w with Wrote _ _ | Refused _ | Crashed _ => true | _ => false end.
Fixpoint alone (n : nat) (w : Writer) (b : ShmBackend) : Writer * ShmBackend :=
  match n with O => (w, b) | S n => match writer_step w b with Some (w, b) => alone n w b | None => (w, b) end end.
Definition outcome (x : list Z) (w : Writer) : Access ShmBlobRef :=
  match w with Wrote _ r => Ok r | Refused _ => Threw "ShmBackend: region full (bump allocator exhausted)" | _ => Fault end.

#[local] Opaque load store poke peek shm_fnv1a.

(** Alone, the steps are the write. *)
Lemma write_is_its_steps x b : let '(w, b') := alone 4 (Wants x) b in finished w = true ∧ shm_write x b = (outcome x w, b').
Proof.
  unfold shm_write. cbn [alone writer_step]. set (off := load kBump (region b)). set (need := kSlotHeader +64 Z.of_nat (length x)).
  cbn [with_region region capacity_]. destruct (load kCapacity (store kBump (off +64 need) (region b)) <? off +64 need) eqn:E1.
  - done.
  - cbn [alone writer_step with_region region capacity_]. destruct (capacity_ b <? off + kSlotHeader + Z.of_nat (length x)); done.
Qed.

(** ** Several writers *)

(** A step of the system: one of a writer's, or the epoch advances. *)
Inductive sys_step : list Writer * ShmBackend → list Writer * ShmBackend → Prop :=
  | sys_writer ws b i w w' b' : ws !! i = Some w → writer_step w b = Some (w', b') → sys_step (ws, b) (<[i := w']> ws, b')
  | sys_epoch ws b : sys_step (ws, b) (ws, shm_advance_epoch b).

(** The bytes of a slot, its header before them. *)
Definition slot_bytes (gen : Z) (x : list Z) : list Z := append_u64 gen ++ append_u64 (Z.of_nat (length x)) ++ append_u64 (shm_fnv1a x) ++ x.
(** Where the slot of a writer that has one lies. *)
Definition slot_of (w : Writer) : option (Z * Z) :=
  match w with
  | Reserved x off | Numbered x off _ | Stamped x off _ _ => Some (off, off + kSlotHeader + Z.of_nat (length x))
  | Wrote x r => Some (offset r, offset r + kSlotHeader + Z.of_nat (length x))
  | _ => None
  end.
Definition content (w : Writer) : list Z :=
  match w with Wants x | Reserved x _ | Numbered x _ _ | Stamped x _ _ _ | Wrote x _ | Refused x | Crashed x => x end.
Definition still_wanted (w : Writer) : nat := match w with Wants x => cost x | _ => 0 end.

Definition writer_ok (w : Writer) (b : ShmBackend) : Prop :=
  match w with
  | Numbered x off gen => off + kSlotHeader + Z.of_nat (length x) ≤ load kCapacity (region b) ∧ is_u64 gen
  | Stamped x off gen ep => off + kSlotHeader + Z.of_nat (length x) ≤ load kCapacity (region b) ∧ is_u64 gen ∧ is_u64 ep
  | Wrote x r => offset r + kSlotHeader + Z.of_nat (length x) ≤ load kCapacity (region b) ∧ is_u64 (u64 (generation r)) ∧ u64 (len r) = Z.of_nat (length x) ∧ u64 (checksum r) = shm_fnv1a x ∧
      peek (offset r) (24 + length x) (region b) = slot_bytes (u64 (generation r)) x
  | Crashed _ => False
  | _ => True
  end.

Record writers_inv (ws : list Writer) (b : ShmBackend) : Prop := {
  wi_shm : shm_ok (sum_list (still_wanted <$> ws)) b;
  wi_slot i w lo hi : ws !! i = Some w → slot_of w = Some (lo, hi) → kHeaderBytes ≤ lo ∧ hi ≤ load kBump (region b);
  wi_apart i j w w' lo hi lo' hi' : i ≠ j → ws !! i = Some w → ws !! j = Some w' → slot_of w = Some (lo, hi) → slot_of w' = Some (lo', hi') → hi ≤ lo' ∨ hi' ≤ lo;
  wi_writer i w : ws !! i = Some w → writer_ok w b }.

Lemma start_inv xs b : shm_ok (sum_list (cost <$> xs)) b → writers_inv (Wants <$> xs) b.
Proof.
  intros Hb. assert (Hw : ∀ i w, (Wants <$> xs) !! i = Some w → ∃ x, w = Wants x) by (intros i w; rewrite list_lookup_fmap, fmap_Some; intros (x & _ & ->); eauto).
  split.
  - rewrite <- list_fmap_compose. exact Hb.
  - intros i w lo hi Hi Hs. by destruct (Hw _ _ Hi) as [x ->].
  - intros i j w w' lo hi lo' hi' _ Hi _ Hs. by destruct (Hw _ _ Hi) as [x ->].
  - intros i w Hi. by destruct (Hw _ _ Hi) as [x ->].
Qed.

Lemma sum_list_insert {A} (f : A → nat) (l : list A) i x y : l !! i = Some x → (sum_list (f <$> <[i := y]> l) + f x = sum_list (f <$> l) + f y)%nat.
Proof. revert i. induction l as [|z l IH]; intros [|i]; simpl; intros E; simplify_eq; [lia|]. specialize (IH i E). unfold fmap in IH. lia. Qed.

(** A writer moves on: the others keep what they have if its slot and the header
    are all that changes. *)
Lemma moves_inv ws b i w w' b' : writers_inv ws b → ws !! i = Some w →
  shm_ok (sum_list (still_wanted <$> <[i := w']> ws)) b' → load kBump (region b) ≤ load kBump (region b') → load kCapacity (region b') = load kCapacity (region b) →
  (∀ lo hi, slot_of w' = Some (lo, hi) → kHeaderBytes ≤ lo ∧ hi ≤ load kBump (region b') ∧ (slot_of w = Some (lo, hi) ∨ load kBump (region b) ≤ lo)) →
  writer_ok w' b' →
  (∀ a n, kHeaderBytes ≤ a → a + Z.of_nat n ≤ load kBump (region b) → (∀ lo hi, slot_of w' = Some (lo, hi) → a + Z.of_nat n ≤ lo ∨ hi ≤ a) → peek a n (region b') = peek a n (region b)) →
  writers_inv (<[i := w']> ws) b'.
Proof.
  intros [I1 I2 I3 I4] Hi Hok Hbump Hcap Hslot Hw' Hpk.
  assert (Hat : ∀ j v, <[i := w']> ws !! j = Some v → (j = i ∧ v = w') ∨ (j ≠ i ∧ ws !! j = Some v)).
  { intros j v. destruct (decide (j = i)) as [->|Hne]; [|rewrite list_lookup_insert_ne by done; auto]. rewrite list_lookup_insert_eq by (by eapply lookup_lt_Some). intros [= <-]. by left. }
  assert (Hother : ∀ j v lo hi lo' hi', j ≠ i → ws !! j = Some v → slot_of v = Some (lo, hi) → slot_of w' = Some (lo', hi') → hi ≤ lo' ∨ hi' ≤ lo).
  { intros j v lo hi lo' hi' Hne Hj Hs Hs'. destruct (Hslot _ _ Hs') as (_ & _ & [Hsame|Hnew]); [by eapply (I3 j i)|]. destruct (I2 _ _ _ _ Hj Hs). lia. }
  split; [done| | |].
  - intros j v lo hi Hj Hs. destruct (Hat j v Hj) as [[-> ->]|[Hne Hj']]; [destruct (Hslot _ _ Hs) as (? & ? & _); done|]. destruct (I2 _ _ _ _ Hj' Hs). lia.
  - intros j k v v' lo hi lo' hi' Hjk Hj Hk Hs Hs'. destruct (Hat j v Hj) as [[-> ->]|[Hne Hj']], (Hat k v' Hk) as [[-> ->]|[Hne' Hk']]; [done| | |by eapply (I3 j k)].
    + destruct (Hother k v' lo' hi' lo hi Hne' Hk' Hs' Hs); lia.
    + destruct (Hother j v lo hi lo' hi' Hne Hj' Hs Hs'); lia.
  - intros j v Hj. destruct (Hat j v Hj) as [[-> ->]|[Hne Hj']]; [done|]. pose proof (I4 _ _ Hj') as Hv. destruct v as [x|x off|x off gen|x off gen ep|x r|x|x]; simpl in *; rewrite ?Hcap; try done.
    destruct Hv as (H1 & H2 & H3 & H4 & H5). split_and!; try done. rewrite <- H5. destruct (I2 j _ _ _ Hj' eq_refl) as [Hlo Hhi]. assert (kSlotHeader = 24) by done.
    apply Hpk; [done|lia|]. intros lo hi Hs. destruct (Hother j _ _ _ lo hi Hne Hj' eq_refl Hs); lia.
Qed.

#[local] Transparent peek.
Lemma peek_app off a n m : peek off (a + n) m = peek off a m ++ peek (off + Z.of_nat a) n m.
Proof. unfold peek. rewrite Nat2Z.inj_add, seqZ_app, fmap_app by lia. done. Qed.
Lemma length_peek off n m : length (peek off n m) = n.
Proof. unfold peek. rewrite length_fmap, length_seqZ. lia. Qed.
#[local] Opaque peek.
#[local] Transparent store.
Lemma peek_store off v m : peek off 8 (store off v m) = append_u64 v.
Proof. unfold store. apply (peek_poke off (append_u64 v)). Qed.
#[local] Opaque store.

Lemma peek_put_slot off gen x m : 0 ≤ off → peek off (24 + length x) (put_slot off gen (shm_fnv1a x) x m) = slot_bytes gen x.
Proof.
  intros Hoff. change (24 + length x)%nat with (8 + (8 + (8 + length x)))%nat. rewrite !peek_app. unfold put_slot, slot_bytes. assert (kSlotHeader = 24) by done.
  rewrite <- !Z.add_assoc. change (Z.of_nat 8) with 8. f_equal; [|f_equal; [|f_equal]].
  - words. apply peek_store.
  - words. apply peek_store.
  - change (8 + 8) with 16. words. apply peek_store.
  - change (8 + (8 + 8)) with kSlotHeader. apply peek_poke.
Qed.

Lemma slot_words off gen x m : is_u64 gen → is_u64 (Z.of_nat (length x)) → peek off (24 + length x) m = slot_bytes gen x →
  load off m = gen ∧ load (off + 8) m = Z.of_nat (length x) ∧ load (off + 16) m = shm_fnv1a x ∧ peek (off + kSlotHeader) (length x) m = x.
Proof.
  intros Hg Hl. change (24 + length x)%nat with (8 + (8 + (8 + length x)))%nat. rewrite !peek_app. unfold slot_bytes. rewrite <- !Z.add_assoc. change (Z.of_nat 8) with 8. change (8 + (8 + 8)) with kSlotHeader. change (8 + 8) with 16.
  intros E. apply app_inj_1 in E as [E1 E]; [|by rewrite length_peek, length_append_u64]. apply app_inj_1 in E as [E2 E]; [|by rewrite length_peek, length_append_u64].
  apply app_inj_1 in E as [E3 E]; [|by rewrite length_peek, length_append_u64].
  assert (Hload : ∀ o v, is_u64 v → peek o 8 m = append_u64 v → load o m = v).
  { intros o v Hv Ho. Transparent load. unfold load. Opaque load. rewrite Ho, <- (app_nil_r (append_u64 v)). by apply read_append_u64. }
  split_and!; [by apply Hload|by apply Hload|apply Hload; [apply shm_fnv1a_u64|done]|done].
Qed.

Lemma header_offsets : kHeaderBytes = 40 ∧ kSlotHeader = 24 ∧ kGeneration = 24 ∧ kEpoch = 32 ∧ kBump = 16 ∧ kCapacity = 8.
Proof. done. Qed.

Lemma writers_step_inv ws b ws' b' : sys_step (ws, b) (ws', b') → writers_inv ws b → writers_inv ws' b'.
Proof.
  intros Hs Hinv. pose proof header_offsets as (? & ? & ? & ? & ? & ?). assert (Hmax : i64_max < two64) by done.
  inversion Hs as [ws0 b0 i w w' b1 Hi Hw E1 E2|ws0 b0 E1 E2]; subst; clear Hs.
  2:{ destruct Hinv as [[Hm Hb Hg He] I2 I3 I4]. split; [| |done|].
      - unfold shm_advance_epoch. split; cbn [region with_region capacity_]; words; try done. apply u64_range.
      - intros i w lo hi Hi Hsl. unfold shm_advance_epoch. cbn [region with_region]. words. by eapply I2.
      - intros i w Hi. specialize (I4 i w Hi). unfold shm_advance_epoch. destruct w as [x|x off|x off gen|x off gen ep|x r|x|x]; simpl in *; words; try done.
        destruct (I2 i _ _ _ Hi eq_refl). words. done. }
  destruct Hinv as [Ok I2 I3 I4] eqn:EI. clear EI. pose proof Ok as [Hm Hb Hg He]. pose proof (I4 i w Hi) as Hwo.
  assert (Hsum : ∀ w', (sum_list (still_wanted <$> <[i := w']> ws) + still_wanted w = sum_list (still_wanted <$> ws) + still_wanted w')%nat) by (intros; by apply sum_list_insert).
  destruct w as [x|x off|x off gen|x off gen ep|x r|x|x]; simpl in Hw; try done.
  - injection Hw as <- <-. specialize (Hsum (Reserved x (load kBump (region b)))). simpl in Hsum. unfold cost in Hsum.
    rewrite (u64_small (kSlotHeader + Z.of_nat (length x))) by (unfold is_u64; lia). rewrite u64_small by (unfold is_u64; lia).
    eapply moves_inv; [exact Hinv|exact Hi|..]; cbn [region with_region capacity_ slot_of writer_ok].
    + split; cbn [region with_region capacity_]; words; try done; try lia. rewrite load_store; [lia|unfold is_u64; lia].
    + rewrite load_store; [lia|unfold is_u64; lia].
    + by words.
    + intros lo hi [= <- <-]. rewrite load_store; [lia|unfold is_u64; lia].
    + done.
    + intros a n Ha _ _. by words.
  - destruct (I2 i _ _ _ Hi eq_refl) as [Hlo Hhi]. rewrite (u64_small (kSlotHeader + Z.of_nat (length x))), u64_small in Hw by (unfold is_u64; lia).
    destruct (Z.ltb_spec (load kCapacity (region b)) (off + (kSlotHeader + Z.of_nat (length x)))) as [Hfull|Hfit]; injection Hw as <- <-.
    + specialize (Hsum (Refused x)). simpl in Hsum. eapply moves_inv; [exact Hinv|exact Hi|..]; try done. replace (sum_list _) with (sum_list (still_wanted <$> ws)) by lia. done.
    + specialize (Hsum (Numbered x off (load kGeneration (region b) +64 1))). simpl in Hsum. eapply moves_inv; [exact Hinv|exact Hi|..]; cbn [region with_region capacity_ slot_of writer_ok].
      * split; cbn [region with_region capacity_]; words; try done; try lia. apply u64_range.
      * by words.
      * by words.
      * intros lo hi [= <- <-]. words. auto.
      * words. split; [lia|apply u64_range].
      * intros a n Ha _ _. by words.
  - injection Hw as <- <-. specialize (Hsum (Stamped x off gen (load kEpoch (region b)))). simpl in Hsum. eapply moves_inv; [exact Hinv|exact Hi|..]; try done.
    + replace (sum_list _) with (sum_list (still_wanted <$> ws)) by lia. done.
    + intros lo hi Hlh. split_and!; [by eapply (I2 i)|by eapply (I2 i)|by left].
    + simpl in *. tauto.
  - destruct (I2 i _ _ _ Hi eq_refl) as [Hlo Hhi]. simpl in Hwo. destruct Hwo as (Hcap & Hgen & Hep). destruct (Z.ltb_spec (capacity_ b) (off + kSlotHeader + Z.of_nat (length x))); [lia|]. injection Hw as <- <-.
    rewrite (to_i64_small off), (to_i64_small (Z.of_nat (length x))) by lia.
    eapply moves_inv; [exact Hinv|exact Hi|..]; cbn [region with_region capacity_ slot_of writer_ok offset generation len checksum].
    + match goal with |- shm_ok (sum_list (still_wanted <$> <[i := ?w']> ws)) _ => specialize (Hsum w') end. simpl in Hsum.
      split; cbn [region with_region capacity_]; unfold put_slot; words; try done; lia.
    + unfold put_slot. by words.
    + unfold put_slot. by words.
    + intros lo hi [= <- <-]. unfold put_slot. words. auto.
    + rewrite !u64_to_i64 by (done || apply shm_fnv1a_u64). split_and!; [unfold put_slot; words; lia|done|rewrite u64_small; [done|unfold is_u64; lia]|done|].
      apply peek_put_slot. lia.
    + intros a n Ha Han Hd. specialize (Hd _ _ eq_refl). unfold put_slot. words. done.
Qed.

Lemma writers_reach ws b ws' b' : rtc sys_step (ws, b) (ws', b') → writers_inv ws b → writers_inv ws' b'.
Proof.
  intros Hr. remember (ws, b) as s eqn:Es. remember (ws', b') as s' eqn:Es'. revert ws b ws' b' Es Es'.
  induction Hr as [s|s [ws1 b1] s' Hs _ IH]; intros ws b ws' b' -> E; [by injection E as -> ->|].
  intros Hi. eapply IH; [done|exact E|]. by eapply writers_step_inv.
Qed.
Lemma step_content w b w' b' : writer_step w b = Some (w', b') → content w' = content w.
Proof. destruct w; simpl; repeat case_match; intros; by simplify_eq. Qed.
Lemma reach_content ws b ws' b' : rtc sys_step (ws, b) (ws', b') → content <$> ws' = content <$> ws.
Proof.
  intros Hr. remember (ws, b) as s eqn:Es. remember (ws', b') as s' eqn:Es'. revert ws b ws' b' Es Es'.
  induction Hr as [s|s [ws1 b1] s' Hs _ IH]; intros ws b ws' b' -> E; [by injection E as -> ->|].
  rewrite (IH ws1 b1 ws' b' eq_refl E). inversion Hs as [? ? i w w1 ? Hi Hw|]; subst; [|done].
  rewrite list_fmap_insert, (step_content _ _ _ _ Hw). apply list_insert_id. by rewrite list_lookup_fmap, Hi.
Qed.

(** A written slot is read back in its epoch and not in another. *)
Lemma wrote_reads ws b i x r : writers_inv ws b → ws !! i = Some (Wrote x r) →
  shm_read_view r b = Ok (if load kEpoch (region b) =? u64 (blob_epoch r) then Some x else None).
Proof.
  intros [[Hm Hb Hg He] I2 I3 I4] Hi. pose proof header_offsets as (? & ? & ? & ? & ? & ?). assert (Hmax : i64_max < two64) by done.
  destruct (I2 i _ _ _ Hi eq_refl) as [Hlo Hhi]. destruct (I4 i _ Hi) as (Hcap & Hgen & Hlen & Hsum & Hpk).
  destruct (slot_words (offset r) _ x (region b) Hgen) as (W1 & W2 & W3 & W4); [unfold is_u64; lia|done|].
  unfold shm_read_view. rewrite !(u64_small (offset r)) by (unfold is_u64; lia). rewrite (u64_small (offset r + kSlotHeader)) by (unfold is_u64; lia).
  rewrite W1, W2, W3, Hlen, Hsum, !Z.eqb_refl. cbn [negb]. rewrite (u64_small (offset r + kSlotHeader + Z.of_nat (length x))) by (unfold is_u64; lia). in_bounds.
  destruct (load kEpoch (region b) =? u64 (blob_epoch r)); [|done]. cbn [negb]. in_bounds. by rewrite Nat2Z.id, W4.
Qed.

(** How many steps of its own a writer is away from its end. *)
Definition steps_left (w : Writer) : nat := match w with Wants _ => 4 | Reserved _ _ => 3 | Numbered _ _ _ => 2 | Stamped _ _ _ _ => 1 | _ => 0 end.

(** C1: Writers of one region never meet.  Any number of them, their steps and
    advances of the epoch interleaved in any way: none touches memory outside of
    the mapping, the slots they reserve never overlap, each carries on with the
    bytes it was given and is done after four steps of its own, whatever the
    others do; and what one has written is read back by its descriptor to the
    very bytes as long as the epoch is the one it was stamped with, and to
    nothing in any other. *)
Theorem writers_never_meet (xs : list (list Z)) (b b' : ShmBackend) (ws : list Writer) :
  shm_ok (sum_list (cost <$> xs)) b → rtc sys_step (Wants <$> xs, b) (ws, b') →
  content <$> ws = xs ∧ (∀ i x, ws !! i ≠ Some (Crashed x)) ∧
  (∀ i j w w' lo hi lo' hi', i ≠ j → ws !! i = Some w → ws !! j = Some w' → slot_of w = Some (lo, hi) → slot_of w' = Some (lo', hi') → hi ≤ lo' ∨ hi' ≤ lo) ∧
  (∀ i w, ws !! i = Some w → finished w = false → ∃ w1 b1, writer_step w b' = Some (w1, b1) ∧ (steps_left w1 < steps_left w ≤ 4)%nat) ∧
  ∀ i x r, ws !! i = Some (Wrote x r) → shm_read_view r b' = Ok (if load kEpoch (region b') =? u64 (blob_epoch r) then Some x else None).
Proof.
  intros Hb Hr. pose proof (writers_reach _ _ _ _ Hr (start_inv xs b Hb)) as Hi. split_and!.
  - rewrite (reach_content _ _ _ _ Hr), <- list_fmap_compose. apply list_fmap_id.
  - intros i x E. by apply (wi_writer _ _ Hi) in E.
  - apply (wi_apart _ _ Hi).
  - intros i w _ Hf. destruct w; try done; simpl; try case_match; (eexists _, _; split; [reflexivity|simpl; lia]).
  - intros i x r. by apply wrote_reads.
Qed.

#[local] Transparent load store poke peek shm_fnv1a.

(** Two writers in turn: the first to reserve is the last to write. *)
Fixpoint in_turn (sched : list nat) (s : list Writer * ShmBackend) : option (list Writer * ShmBackend) :=
  match sched with
  | [] => Some s
  | i :: sched => w ← s.1 !! i; '(w, b) ← writer_step w s.2; in_turn sched (<[i := w]> s.1, b)
  end.
Lemma in_turn_reach sched : ∀ s s', in_turn sched s = Some s' → rtc sys_step s s'.
Proof.
  induction sched as [|i sched IH]; intros [ws b] s'; simpl; [intros [= <-]; reflexivity|].
  destruct (ws !! i) as [w|] eqn:Ei; [|done]. simpl. destruct (writer_step w b) as [[w' b']|] eqn:Ew; [|done]. simpl. intros E. eapply rtc_l; [by eapply sys_writer|by apply IH].
Qed.
Definition turns : list nat := [0; 1; 1; 0; 1; 1; 0; 0]%nat.
Definition two_payloads : list (list Z) := [[1; 2]; [3]].
Definition two_written : list Writer :=
  [Wrote [1; 2] (mkBlob 40 2 2 0 (to_i64 (shm_fnv1a [1; 2])) Shm); Wrote [3] (mkBlob 66 1 1 0 (to_i64 (shm_fnv1a [3])) Shm)].
Lemma two_payloads_fit : shm_ok (sum_list (cost <$> two_payloads)) (small_region 200).
Proof. apply (shm_ok_le _ 54); [apply Nat.leb_le; reflexivity|exact small_region_ok]. Qed.
Lemma writers_never_meet_witness : ∃ b', in_turn turns (Wants <$> two_payloads, small_region 200) = Some (two_written, b') ∧
  ∀ i x r, two_written !! i = Some (Wrote x r) → shm_read_view r b' = Ok (if load kEpoch (region b') =? u64 (blob_epoch r) then Some x else None).
Proof.
  assert (Ef : fst <$> in_turn turns (Wants <$> two_payloads, small_region 200) = Some two_written) by (vm_compute; reflexivity).
  destruct (in_turn turns (Wants <$> two_payloads, small_region 200)) as [[ws b']|] eqn:E; [|discriminate Ef].
  injection Ef as ->. exists b'. split; [reflexivity|].
  destruct (writers_never_meet two_payloads (small_region 200) b' two_written two_payloads_fit (in_turn_reach _ _ _ E)) as (_ & _ & _ & _ & W). exact W.
Defined.
