(* ===== verification/Timers.v ===== *)
(** * Timers: the timer, the timeout and the revision barrier

    Models include/lazily/stdlib.hpp, three observers that are told the time and
    latch what they decide.  Each call holds the object's lock, so it is a step;
    [RevisionBarrier::observe] lets go of the lock while it asks for the
    cancellation, and is two steps with any others in between.  The callbacks of
    [Timeout::poll] are asked only when they matter: they are given by what they
    would answer. *)
From S2P Require Import Prelude.
From stdpp Require Import strings.
#[local] Open Scope Z_scope.

(* include/lazily/stdlib.hpp:15-15, TimerError *)
Inductive TimerError := DeadlineOverflow | ClockRegression.
(** The deadline, or the error. *)
(* include/lazily/stdlib.hpp:23-27, checked_deadline *)
Definition checked_deadline (now duration : Z) : Z + TimerError :=
  if u64_max - now <? duration then inr DeadlineOverflow else inl (now + duration).

(** ** The timer *)

(* include/lazily/stdlib.hpp:63-66, Timer (data members) *)
Record Timer := mkTimer { tm_deadline : Z; tm_last : Z; tm_fired_at : option Z }.
(* include/lazily/stdlib.hpp:29-34, TimerObservation *)
Inductive TimerObservation := TPending (deadline : Z) | TFired (at_ : Z) | TUnavailable (deadline : Z) (e : TimerError).
(* include/lazily/stdlib.hpp:38-42, Timer::start *)
Definition timer_start (now duration : Z) : Timer + TimerError :=
  match checked_deadline now duration with inl d => inl (mkTimer d now None) | inr e => inr e end.
(* include/lazily/stdlib.hpp:45-57, Timer::observe *)
Definition timer_observe (t : Timer) (now : Z) : TimerObservation * Timer :=
  match tm_fired_at t with
  | Some f => (TFired f, t)
  | None =>
      if now <? tm_last t then (TUnavailable (tm_deadline t) ClockRegression, t)
      else if tm_deadline t <=? now then (TFired now, mkTimer (tm_deadline t) now (Some now))
      else (TPending (tm_deadline t), mkTimer (tm_deadline t) now None)
  end.

(** ** The timeout *)
Section timeout.
Context {T : Type}.

(* include/lazily/stdlib.hpp:69-69, TimeoutCancellation *)
Inductive TimeoutCancellation := CPending | CCancelled | CUnavailable.
(* include/lazily/stdlib.hpp:70-70, TimeoutOperationState *)
Inductive TimeoutOperationState := SPending | SCompleted | SUnavailable.
(* include/lazily/stdlib.hpp:72-81, TimeoutOperation *)
Inductive TimeoutOperation := OpPending | OpCompleted (value : T) | OpUnavailable.
(* include/lazily/stdlib.hpp:83-89, TimeoutObservation *)
Inductive TimeoutObservation :=
  | ObsPending (deadline : Z) | ObsCompleted (value : T) | ObsTimedOut | ObsCancelled | ObsUnavailable (reason : string).
(* include/lazily/stdlib.hpp:133-135, Timeout (data members) *)
Record Timeout := mkTimeout { to_deadline : Z; to_last : Z; to_terminal : option TimeoutObservation }.
(* include/lazily/stdlib.hpp:95-99, Timeout::start *)
Definition timeout_start (now duration : Z) : Timeout + TimerError :=
  match checked_deadline now duration with inl d => inl (mkTimeout d now None) | inr e => inr e end.
(* include/lazily/stdlib.hpp:127-130, Timeout::latch *)
Definition timeout_latch (t : Timeout) (o : TimeoutObservation) : TimeoutObservation * Timeout := (o, mkTimeout (to_deadline t) (to_last t) (Some o)).
(** A poll: the time and what the callbacks would answer. *)
Record Poll := mkPoll { p_now : Z; p_operation : TimeoutOperation; p_cancellation : TimeoutCancellation }.
(* include/lazily/stdlib.hpp:103-122, Timeout::poll *)
Definition timeout_poll (t : Timeout) (p : Poll) : TimeoutObservation * Timeout :=
  match to_terminal t with
  | Some o => (o, t)
  | None =>
      if p_now p <? to_last t then timeout_latch t (ObsUnavailable "clock_regression")
      else
        let t := mkTimeout (to_deadline t) (p_now p) (to_terminal t) in
        if to_deadline t <=? p_now p then timeout_latch t ObsTimedOut
        else
          match p_operation p, p_cancellation p with
          | OpCompleted v, _ => timeout_latch t (ObsCompleted v)
          | OpUnavailable, _ => timeout_latch t (ObsUnavailable "operation_unavailable")
          | OpPending, CCancelled => timeout_latch t ObsCancelled
          | OpPending, CUnavailable => timeout_latch t (ObsUnavailable "cancellation_unavailable")
          | OpPending, CPending => (ObsPending (to_deadline t), t)
          end
  end.
End timeout.

(** ** The barrier *)

(* include/lazily/stdlib.hpp:139-146, RevisionBarrierObservation::Outcome *)
Inductive Outcome := BPending | BSatisfied | BTimedOut | BCancelled | BDisposed | BUnavailable.
#[export] Instance Outcome_eq_dec : EqDecision Outcome.
Proof. solve_decision. Defined.
(* include/lazily/stdlib.hpp:138-150, RevisionBarrierObservation *)
Record BarrierObservation := mkBObs { bo_outcome : Outcome; bo_reason : string; bo_revision : Z; bo_generation : Z }.
(* include/lazily/stdlib.hpp:244-250, RevisionBarrier (data members) *)
Record RevisionBarrier := mkBarrier {
  revision_ : Z; required_revision_ : Z; generation_ : Z; deadline_ : option Z; last_now_ : option Z; terminal_ : option Outcome; terminal_reason_ : string }.
(* include/lazily/stdlib.hpp:154-156, RevisionBarrier::RevisionBarrier *)
Definition barrier_new (revision required : Z) (deadline : option Z) : RevisionBarrier := mkBarrier revision required 0 deadline None None "".
(* include/lazily/stdlib.hpp:238-241, RevisionBarrier::snapshot *)
Definition snapshot (b : RevisionBarrier) : BarrierObservation := mkBObs (default BPending (terminal_ b)) (terminal_reason_ b) (revision_ b) (generation_ b).
(* include/lazily/stdlib.hpp:231-236, RevisionBarrier::latch *)
Definition barrier_latch (o : Outcome) (reason : string) (b : RevisionBarrier) : BarrierObservation * RevisionBarrier :=
  let b := mkBarrier (revision_ b) (required_revision_ b) (generation_ b) (deadline_ b) (last_now_ b) (Some o) reason in (snapshot b, b).
(* include/lazily/stdlib.hpp:218-222, RevisionBarrier::accept_now *)
Definition accept_now (now : Z) (b : RevisionBarrier) : bool * RevisionBarrier :=
  if match last_now_ b with Some l => now <? l | None => false end then (false, b)
  else (true, mkBarrier (revision_ b) (required_revision_ b) (generation_ b) (deadline_ b) (Some now) (terminal_ b) (terminal_reason_ b)).
(* include/lazily/stdlib.hpp:224-229, RevisionBarrier::accept_revision *)
Definition accept_revision (revision : Z) (b : RevisionBarrier) : RevisionBarrier :=
  if revision_ b <? revision then mkBarrier revision (required_revision_ b) (u64 (generation_ b + 1)) (deadline_ b) (last_now_ b) (terminal_ b) (terminal_reason_ b) else b.
Definition due (now : Z) (b : RevisionBarrier) : bool := match deadline_ b with Some d => d <=? now | None => false end.
Definition met (predicate : bool) (b : RevisionBarrier) : bool := predicate && (required_revision_ b <=? revision_ b).

(** Up to the question for the cancellation, and after it. *)
(* include/lazily/stdlib.hpp:159-168, RevisionBarrier::observe (before the cancellation) *)
Definition observe_start (now : Z) (predicate : bool) (b : RevisionBarrier) : option BarrierObservation * RevisionBarrier :=
  match terminal_ b with
  | Some _ => (Some (snapshot b), b)
  | None =>
      let '(ok, b) := accept_now now b in
      if negb ok then let '(o, b) := barrier_latch BUnavailable "clock_regression" b in (Some o, b)
      else if due now b then let '(o, b) := barrier_latch BTimedOut "" b in (Some o, b)
      else if met predicate b then let '(o, b) := barrier_latch BSatisfied "" b in (Some o, b)
      else (None, b)
  end.
(* include/lazily/stdlib.hpp:170-178, RevisionBarrier::observe (after the cancellation) *)
Definition observe_end (c : TimeoutCancellation) (b : RevisionBarrier) : BarrierObservation * RevisionBarrier :=
  match terminal_ b with
  | Some _ => (snapshot b, b)
  | None =>
      match c with
      | CCancelled => barrier_latch BCancelled "" b
      | CUnavailable => barrier_latch BUnavailable "cancellation_unavailable" b
      | CPending => (snapshot b, b)
      end
  end.
(* include/lazily/stdlib.hpp:158-181, RevisionBarrier::observe *)
Definition barrier_observe (now : Z) (predicate : bool) (c : TimeoutCancellation) (b : RevisionBarrier) : BarrierObservation * RevisionBarrier :=
  match observe_start now predicate b with (Some o, b) => (o, b) | (None, b) => observe_end c b end.
(* include/lazily/stdlib.hpp:183-195, RevisionBarrier::register_recheck *)
Definition register_recheck (now observed : Z) (predicate : bool) (b : RevisionBarrier) : BarrierObservation * RevisionBarrier :=
  match terminal_ b with
  | Some _ => (snapshot b, b)
  | None =>
      let '(ok, b) := accept_now now b in
      if negb ok then barrier_latch BUnavailable "clock_regression" b
      else if due now b then barrier_latch BTimedOut "" b
      else
        let b := accept_revision observed b in
        if met predicate b then barrier_latch BSatisfied "" b else (snapshot b, b)
  end.
(* include/lazily/stdlib.hpp:197-204, RevisionBarrier::advance *)
Definition advance (revision : Z) (predicate : bool) (b : RevisionBarrier) : BarrierObservation * RevisionBarrier :=
  match terminal_ b with
  | Some _ => (snapshot b, b)
  | None =>
      let b := accept_revision revision b in
      if met predicate b then barrier_latch BSatisfied "" b else (snapshot b, b)
  end.
(* include/lazily/stdlib.hpp:206-210, RevisionBarrier::dispose *)
Definition barrier_dispose (b : RevisionBarrier) : BarrierObservation * RevisionBarrier :=
  match terminal_ b with None => barrier_latch BDisposed "" b | Some _ => (snapshot b, b) end.
(* include/lazily/stdlib.hpp:212-215, RevisionBarrier::receipt *)
Definition barrier_receipt (_ : string) (b : RevisionBarrier) : BarrierObservation * RevisionBarrier := (snapshot b, b).

(** ** What they answer *)

Lemma checked_deadline_ok now duration : is_u64 now → is_u64 duration →
  match checked_deadline now duration with inl d => is_u64 d ∧ d = now + duration | inr e => e = DeadlineOverflow ∧ ¬ is_u64 (now + duration) end.
Proof.
  unfold checked_deadline, is_u64, u64_max, two64. intros. destruct (Z.ltb_spec (18446744073709551615 - now) duration); [split; [done|]|split; [|done]]; lia.
Qed.

(** The last time accepted after these observations, nothing fired yet. *)
Definition clock_after (start : Z) (ns : list Z) : Z := foldl Z.max start ns.
Lemma clock_after_snoc start ns n : clock_after start (ns ++ [n]) = Z.max (clock_after start ns) n.
Proof. unfold clock_after. by rewrite foldl_app. Qed.

(** The timer answers by the first observation that is due, whatever the clock
    does: fired from then on, with that time; before, pending, unless the time is
    behind one already seen. *)
Lemma timer_fires_at_first_due (start duration : Z) (ns : list Z) (i : nat) (n : Z) :
  0 ≤ duration → start + duration ≤ u64_max → ns !! i = Some n →
  ∃ t, timer_start start duration = inl t ∧ ∀ o, (core_run timer_observe t ns).1 !! i = Some o →
    o = match head (filter (λ m, start + duration ≤ m) (take (S i) ns)) with
        | Some f => TFired f
        | None => if n <? clock_after start (take i ns) then TUnavailable (start + duration) ClockRegression else TPending (start + duration)
        end.
Proof.
  intros Hd Hmax Hi. unfold timer_start, checked_deadline. rewrite (proj2 (Z.ltb_ge _ _)) by lia. eexists. split; [done|].
  set (d := start + duration). set (t0 := mkTimer d start None).
  assert (Hrun : ∀ l, let t := (core_run timer_observe t0 l).2 in tm_deadline t = d ∧ tm_fired_at t = head (filter (λ m, d ≤ m) l) ∧
    (tm_fired_at t = None → tm_last t = clock_after start l ∧ tm_last t ≤ d ∧ filter (λ m, d ≤ m) l = [])).
  { intros l. induction l as [|m l IH] using rev_ind; [split_and!; [done..|]; intros _; split_and!; [done|unfold d; simpl; lia|done]|].
    cbn zeta. rewrite core_run_snoc. cbn [snd]. destruct IH as (E1 & E2 & E3).
    set (t := (core_run timer_observe t0 l).2) in *. rewrite filter_app, clock_after_snoc. unfold timer_observe. destruct (tm_fired_at t) as [f|] eqn:Ef.
    - simpl. rewrite Ef. split_and!; [done|destruct (filter _ l); [done|]; simpl in *; congruence|done].
    - destruct (E3 eq_refl) as (Hlast & Hle & El). rewrite El, E1.
      destruct (Z.ltb_spec m (tm_last t)) as [Hm|Hm]; [|destruct (Z.leb_spec d m) as [Hdm|Hdm]]; simpl; rewrite ?Ef, ?E1.
      + rewrite filter_cons_False by lia. split_and!; [done..|]. intros _. split_and!; [lia..|done].
      + rewrite filter_cons_True by lia. by split_and!.
      + rewrite filter_cons_False by lia. split_and!; [done..|]. intros _. split_and!; [lia..|done]. }
  intros o Ho. apply core_run_lookup in Ho as (x & Hx & ->). assert (x = n) as -> by congruence.
  destruct (Hrun (take i ns)) as (E1 & E2 & E3). set (t := (core_run timer_observe t0 (take i ns)).2) in *.
  rewrite (take_S_r _ _ _ Hi), filter_app. unfold timer_observe. destruct (tm_fired_at t) as [f|] eqn:Ef.
  - simpl. destruct (filter _ (take i ns)); [done|]. simpl in *. congruence.
  - destruct (E3 eq_refl) as (Hlast & Hle & El). rewrite El, E1, Hlast.
    destruct (Z.ltb_spec n (clock_after start (take i ns))); [|destruct (Z.leb_spec d n)]; simpl.
    + by rewrite filter_cons_False by lia.
    + by rewrite filter_cons_True.
    + by rewrite filter_cons_False by lia.
Qed.

(** *** The timeout *)
Section timeout_answers.
Context {T : Type}.
Implicit Types (ps : list (Poll (T:=T))).

(** What a poll decides on its own, at a clock and a deadline. *)
Definition verdict (d clock : Z) (p : Poll (T:=T)) : option TimeoutObservation :=
  if p_now p <? clock then Some (ObsUnavailable "clock_regression")
  else if d <=? p_now p then Some ObsTimedOut
  else match p_operation p, p_cancellation p with
    | OpCompleted v, _ => Some (ObsCompleted v)
    | OpUnavailable, _ => Some (ObsUnavailable "operation_unavailable")
    | OpPending, CCancelled => Some ObsCancelled
    | OpPending, CUnavailable => Some (ObsUnavailable "cancellation_unavailable")
    | OpPending, CPending => None
    end.
(** The first decision of a run of polls, each at the time of the one before. *)
Fixpoint decision (d clock : Z) ps : option TimeoutObservation :=
  match ps with [] => None | p :: ps => match verdict d clock p with Some o => Some o | None => decision d (p_now p) ps end end.

(** The timeout answers the first decision for ever, pending before it. *)
Lemma timeout_answers_first_decision (start duration : Z) ps (i : nat) o :
  is_u64 start → is_u64 duration → is_u64 (start + duration) →
  ∃ t, timeout_start start duration = inl t ∧ ((core_run timeout_poll t ps).1 !! i = Some o →
    o = default (ObsPending (start + duration)) (decision (start + duration) start (take (S i) ps))).
Proof.
  intros H1 H2 H3. pose proof (checked_deadline_ok start duration H1 H2) as Hc. unfold timeout_start. destruct (checked_deadline start duration) as [d|e]; [|by destruct Hc].
  destruct Hc as [_ ->]. eexists. split; [done|]. set (d := start + duration). clearbody d. clear H1 H2 H3.
  assert (Hfixed : ∀ ps i o v c, (core_run timeout_poll (mkTimeout d c (Some v)) ps).1 !! i = Some o → o = v).
  { clear. induction ps as [|p ps IH]; intros i o v c Ho; simpl in Ho; [done|]. specialize (IH (pred i) o v c).
    destruct (core_run timeout_poll _ ps) as [os s]. destruct i as [|i]; simpl in *; [congruence|auto]. }
  revert i start. induction ps as [|p ps IH]; intros i start; [done|]. simpl. unfold timeout_poll at 1. simpl.
  unfold verdict. destruct (p_now p <? start) eqn:Er; [|destruct (d <=? p_now p) eqn:Ed; [|destruct (p_operation p) eqn:Eo; [destruct (p_cancellation p) eqn:Ec|..]]]; simpl;
    match goal with |- context [core_run timeout_poll ?s ps] => specialize (IH (pred i) (p_now p)); pose proof (Hfixed ps (pred i) o) as Hf; destruct (core_run timeout_poll s ps) as [os s'] eqn:E end;
    destruct i as [|i]; simpl in *; try (intros [= <-]; by rewrite ?take_0); try (intros Ho; eapply Hf; by rewrite E); try exact IH.
Qed.
End timeout_answers.

(** *** The barrier *)

Inductive BarrierOp :=
  | ObserveStart (now : Z) (predicate : bool) | ObserveEnd (c : TimeoutCancellation)
  | Recheck (now observed : Z) (predicate : bool) | Advance (revision : Z) (predicate : bool) | Dispose | Receipt (r : string).
Definition barrier_step (b : RevisionBarrier) (o : BarrierOp) : option BarrierObservation * RevisionBarrier :=
  match o with
  | ObserveStart now p => observe_start now p b
  | ObserveEnd c => let '(o, b) := observe_end c b in (Some o, b)
  | Recheck now r p => let '(o, b) := register_recheck now r p b in (Some o, b)
  | Advance r p => let '(o, b) := advance r p b in (Some o, b)
  | Dispose => let '(o, b) := barrier_dispose b in (Some o, b)
  | Receipt r => let '(o, b) := barrier_receipt r b in (Some o, b)
  end.

(** Nothing moves a barrier that has decided. *)
Lemma decided_stays b o : is_Some (terminal_ b) → (barrier_step b o).2 = b ∧ ∀ a, (barrier_step b o).1 = Some a → a = snapshot b.
Proof.
  intros [t Ht]. destruct o; simpl; unfold observe_start, observe_end, register_recheck, advance, barrier_dispose, barrier_receipt; rewrite ?Ht; simpl; split; try done; naive_solver.
Qed.
(** What a step can do to a barrier that has not. *)
Lemma step_decides b o a : terminal_ b = None → (barrier_step b o).1 = Some a → let b' := (barrier_step b o).2 in
  a = snapshot b' ∧ revision_ b ≤ revision_ b' ∧ (revision_ b' = revision_ b → generation_ b' = generation_ b) ∧ (revision_ b < revision_ b' → generation_ b' = u64 (generation_ b + 1)) ∧
  required_revision_ b' = required_revision_ b ∧ deadline_ b' = deadline_ b ∧
  match terminal_ b' with
  | None => True
  | Some BSatisfied => required_revision_ b ≤ revision_ b' ∧ match o with ObserveStart _ p | Recheck _ _ p | Advance _ p => p = true | _ => False end
  | Some BTimedOut => ∃ d now, deadline_ b = Some d ∧ d ≤ now ∧ match o with ObserveStart n _ | Recheck n _ _ => n = now | _ => False end
  | Some BCancelled => o = ObserveEnd CCancelled
  | Some BDisposed => o = Dispose
  | Some BUnavailable => o = ObserveEnd CUnavailable ∨ ∃ l now, last_now_ b = Some l ∧ now < l ∧ match o with ObserveStart n _ | Recheck n _ _ => n = now | _ => False end
  | Some BPending => False
  end.
Proof.
  intros Ht. destruct o as [now p|c|now r p|r p| |r]; simpl; unfold observe_start, observe_end, register_recheck, advance, barrier_dispose, barrier_receipt, accept_now, accept_revision, due, met, barrier_latch;
    rewrite Ht; simpl; repeat (case_match; simplify_eq/=; zify_bools); intros [= <-]; simpl; rewrite ?Ht; split_and!; try done; try lia; eauto 7.
Qed.

(** A barrier decides once: an answer that is not pending is every later answer;
    the revision never goes back; satisfied means that the required revision was
    reached. *)
Lemma barrier_decides_once (revision required : Z) (deadline : option Z) (ops : list BarrierOp) (i j : nat) (a a' : BarrierObservation) :
  let answers := (core_run barrier_step (barrier_new revision required deadline) ops).1 in
  answers !! i = Some (Some a) → answers !! j = Some (Some a') → (i ≤ j)%nat →
  (bo_outcome a ≠ BPending → a' = a) ∧ revision ≤ bo_revision a ≤ bo_revision a' ∧ (bo_outcome a = BSatisfied → required ≤ bo_revision a).
Proof.
  set (S k := (core_run barrier_step (barrier_new revision required deadline) (take k ops)).2).
  assert (Hnext : ∀ k o, ops !! k = Some o → S (Datatypes.S k) = (barrier_step (S k) o).2) by (intros k o Ho; unfold S; by rewrite (take_S_r _ _ _ Ho), core_run_snoc).
  assert (Hmove : ∀ b o, revision_ b ≤ revision_ (barrier_step b o).2 ∧ required_revision_ (barrier_step b o).2 = required_revision_ b ∧
    (is_Some (terminal_ b) → (barrier_step b o).2 = b) ∧ ∀ x, (barrier_step b o).1 = Some x → x = snapshot (barrier_step b o).2).
  { intros b o. destruct (terminal_ b) as [t|] eqn:Et.
    - destruct (decided_stays b o) as [E1 E2]; [rewrite Et; eauto|]. rewrite E1. split_and!; done.
    - destruct ((barrier_step b o).1) as [x|] eqn:Ea.
      + destruct (step_decides b o x Et Ea) as (-> & ? & _ & _ & ? & _). split_and!; [done..|by intros [? ?]|by intros y [= <-]].
      + destruct o as [now p|c|now r p|r p| |r]; simpl in Ea; try solve [done|case_match; done]. split_and!; [..|by intros [? ?]|done];
          simpl; unfold observe_start, accept_now, barrier_latch in *; rewrite Et in *; repeat (case_match; simplify_eq/=); lia. }
  assert (Hlast : ∀ k l, (k ≤ l)%nat → (l ≤ length ops)%nat → revision_ (S k) ≤ revision_ (S l) ∧ (is_Some (terminal_ (S k)) → S l = S k)).
  { intros k l Hkl. induction Hkl as [|l Hkl IH]; intros Hl; [done|]. destruct (lookup_lt_is_Some_2 ops l Hl) as [o Ho]. rewrite (Hnext l o Ho).
    destruct IH as [IH1 IH2]; [lia|]. destruct (Hmove (S l) o) as (M1 & _ & M3 & _). split; [lia|]. intros Ht. rewrite IH2 in * by done. by apply M3. }
  assert (Hans : ∀ k x, (core_run barrier_step (barrier_new revision required deadline) ops).1 !! k = Some (Some x) → ∃ o, ops !! k = Some o ∧ (barrier_step (S k) o).1 = Some x ∧ x = snapshot (S (Datatypes.S k))).
  { intros k x (o & Ho & E)%core_run_lookup. fold (S k) in E. exists o. destruct (Hmove (S k) o) as (_ & _ & _ & M). rewrite (Hnext k o Ho). split_and!; try done. by apply M. }
  assert (Hreq : ∀ k, (k ≤ length ops)%nat → required_revision_ (S k) = required ∧ revision ≤ revision_ (S k) ∧ (terminal_ (S k) = Some BSatisfied → required ≤ revision_ (S k))).
  { induction k as [|k IH]; intros Hk; [done|]. destruct (lookup_lt_is_Some_2 ops k Hk) as [o Ho]. rewrite (Hnext k o Ho). destruct IH as (I1 & I2 & I3); [lia|].
    destruct (Hmove (S k) o) as (M1 & M2 & M3 & _). split_and!; [congruence|lia|]. intros Ht. destruct (terminal_ (S k)) as [t|] eqn:Et; [rewrite M3 in * by eauto; apply I3; congruence|].
    destruct ((barrier_step (S k) o).1) as [x|] eqn:Ea.
    - destruct (step_decides (S k) o x Et Ea) as (_ & _ & _ & _ & _ & _ & D). rewrite Ht in D. rewrite I1 in D. apply D.
    - destruct o as [now p|c|now r p|r p| |r]; simpl in Ea; try solve [done|case_match; done]. simpl in Ht. unfold observe_start, accept_now, barrier_latch in *. rewrite Et in *.
      repeat (case_match; simplify_eq/=); congruence. }
  intros answers Hi Hj Hij. destruct (Hans i a Hi) as (oi & Hoi & _ & ->), (Hans j a' Hj) as (oj & Hoj & _ & ->).
  assert (Hjl : (Datatypes.S j ≤ length ops)%nat) by (by eapply lookup_lt_Some). destruct (Hlast (Datatypes.S i) (Datatypes.S j)) as [L1 L2]; [lia|done|].
  destruct (Hreq (Datatypes.S i)) as (R1 & R2 & R3); [lia|]. split_and!; simpl; [|done|done|].
  - intros Ho. rewrite L2; [done|]. destruct (terminal_ (S (Datatypes.S i))); [eauto|done].
  - intros Ho. apply R3. destruct (terminal_ (S (Datatypes.S i))); [simpl in Ho; congruence|done].
Qed.
