(* ===== verification/RwLock.v ===== *)
(** * RwLock: the lock whose readers do not meet

    Models [ScalableRwLock] of include/lazily/thread_safe.hpp: every reader has a
    word of its own in a pool, a writer raises a flag and waits for every word to
    be 0.  The atomic operations involved are sequentially consistent, so a
    thread runs in atomic steps, interleaved with those of the others: one
    constructor of [Pc] per point between two of them.  A loop that spins is a
    step that does not move. *)
From S2P Require Import Prelude.
#[local] Open Scope nat_scope.

(* include/lazily/thread_safe.hpp:103-103, ScalableRwLock::kPool *)
Definition kPool : nat := 128.
(** The n-th thread to use a lock has this word; [next] counts in an [int]. *)
(* include/lazily/thread_safe.hpp:112-116, ScalableRwLock::my_slot *)
Definition my_slot (n : nat) : nat := n mod kPool.

Inductive Pc :=
  | Idle
  | Marked          (* lock_shared: the word is 1, the flag not yet looked at *)
  | BackingOff      (* the flag was up, the word is about to be 0 *)
  | Spinning        (* waiting for the flag *)
  | Reading
  | Holding         (* lock: the mutex is held, the flag not yet up *)
  | Draining (i : nat) (* the flag is up, the words before [i] were seen 0 *)
  | Writing
  | Releasing.      (* unlock: the flag is down, the mutex still held *)
#[export] Instance Pc_eq_dec : EqDecision Pc.
Proof. solve_decision. Defined.

(** The words that are 1, the flag, the owner of the mutex, and the threads. *)
(* include/lazily/thread_safe.hpp:108-110, ScalableRwLock (data members) *)
Record ScalableRwLock := mkLock { readers_ : gset nat; writer_waiting_ : bool; writer_mx_ : option nat; pcs : gmap nat Pc }.
(* include/lazily/thread_safe.hpp:119-119, ScalableRwLock::ScalableRwLock *)
Definition lock_new : ScalableRwLock := mkLock ∅ false None ∅.

Definition pc (s : ScalableRwLock) (t : nat) : Pc := default Idle (pcs s !! t).
Definition goto (t : nat) (p : Pc) (s : ScalableRwLock) : ScalableRwLock := mkLock (readers_ s) (writer_waiting_ s) (writer_mx_ s) (<[t := p]> (pcs s)).
Definition store_active (slot : nat) (b : bool) (s : ScalableRwLock) : ScalableRwLock :=
  mkLock (if b then {[slot]} ∪ readers_ s else readers_ s ∖ {[slot]}) (writer_waiting_ s) (writer_mx_ s) (pcs s).
Definition store_waiting (b : bool) (s : ScalableRwLock) : ScalableRwLock := mkLock (readers_ s) b (writer_mx_ s) (pcs s).
Definition set_mx (o : option nat) (s : ScalableRwLock) : ScalableRwLock := mkLock (readers_ s) (writer_waiting_ s) o (pcs s).

(** The next step of a call of [lock_shared] by thread [t], from [Idle] on. *)
(* include/lazily/thread_safe.hpp:122-135, ScalableRwLock::lock_shared *)
Definition lock_shared_step (t : nat) (s : ScalableRwLock) : option ScalableRwLock :=
  match pc s t with
  | Idle => Some (goto t Marked (store_active (my_slot t) true s))
  | Marked => Some (if negb (writer_waiting_ s) then goto t Reading s else goto t BackingOff s)
  | BackingOff => Some (goto t Spinning (store_active (my_slot t) false s))
  | Spinning => Some (if writer_waiting_ s then s else goto t Marked (store_active (my_slot t) true s))
  | _ => None
  end.
(* include/lazily/thread_safe.hpp:136-136, ScalableRwLock::unlock_shared *)
Definition unlock_shared_step (t : nat) (s : ScalableRwLock) : option ScalableRwLock :=
  match pc s t with Reading => Some (goto t Idle (store_active (my_slot t) false s)) | _ => None end.
(** The mutex blocks: no step while another holds it. *)
(* include/lazily/thread_safe.hpp:139-147, ScalableRwLock::lock *)
Definition lock_step (t : nat) (s : ScalableRwLock) : option ScalableRwLock :=
  match pc s t with
  | Idle => match writer_mx_ s with None => Some (goto t Holding (set_mx (Some t) s)) | Some _ => None end
  | Holding => Some (goto t (Draining 0) (store_waiting true s))
  | Draining i => Some (if i <? kPool then (if bool_decide (i ∈ readers_ s) then s else goto t (Draining (S i)) s) else goto t Writing s)
  | _ => None
  end.
(* include/lazily/thread_safe.hpp:148-151, ScalableRwLock::unlock *)
Definition unlock_step (t : nat) (s : ScalableRwLock) : option ScalableRwLock :=
  match pc s t with
  | Writing => Some (goto t Releasing (store_waiting false s))
  | Releasing => Some (goto t Idle (set_mx None s))
  | _ => None
  end.

Inductive LockCall := LockShared | UnlockShared | Lock | Unlock.
Definition call_step (c : LockCall) : nat → ScalableRwLock → option ScalableRwLock :=
  match c with LockShared => lock_shared_step | UnlockShared => unlock_shared_step | Lock => lock_step | Unlock => unlock_step end.
(** Of the first [n] threads any takes its next step. *)
Inductive reach (n : nat) : ScalableRwLock → Prop :=
  | reach_new : reach n lock_new
  | reach_step t c s s' : reach n s → t < n → call_step c t s = Some s' → reach n s'.

(** ** Exclusion *)

(** The word of a thread is 1. *)
Definition active_pc (p : Pc) : bool := match p with Marked | BackingOff | Reading => true | _ => false end.
(** The thread holds the mutex. *)
Definition owner_pc (p : Pc) : bool := match p with Holding | Draining _ | Writing | Releasing => true | _ => false end.
(** The thread has raised the flag. *)
Definition raised_pc (p : Pc) : bool := match p with Draining _ | Writing => true | _ => false end.

Section lock.
Context (n : nat) (Hn : n ≤ kPool).

Lemma own_slot t t' : t < n → t' < n → my_slot t = my_slot t' → t = t'.
Proof. intros. unfold my_slot in *. rewrite !Nat.mod_small in * by lia. done. Qed.

Record lock_inv (s : ScalableRwLock) : Prop := {
  li_range : ∀ t, pc s t ≠ Idle → t < n;
  li_words : ∀ i, i ∈ readers_ s ↔ ∃ t, my_slot t = i ∧ active_pc (pc s t) = true;
  li_owner : ∀ t, writer_mx_ s = Some t ↔ owner_pc (pc s t) = true;
  li_flag : writer_waiting_ s = true ↔ ∃ t, raised_pc (pc s t) = true;
  li_drained : ∀ w i t, pc s w = Draining i → pc s t = Reading → i ≤ my_slot t;
  li_writing : ∀ w t, pc s w = Writing → pc s t ≠ Reading }.

Lemma pc_goto t p s t' : pc (goto t p s) t' = if decide (t' = t) then p else pc s t'.
Proof. unfold pc, goto. simpl. case_decide; [subst; by rewrite lookup_insert_eq|by rewrite lookup_insert_ne]. Qed.
Lemma new_inv : lock_inv lock_new.
Proof. split; unfold pc; simpl; [intros t|intros i|intros t| |..]; try setoid_rewrite lookup_empty; simpl; try done; [set_solver|split; [done|by intros [? ?]]]. Qed.

(** A thread moves on: what that asks for. *)
Lemma move_inv s t p W F M : lock_inv s → t < n →
  (∀ i, i ∈ W ↔ if decide (i = my_slot t) then active_pc p = true else i ∈ readers_ s) →
  (owner_pc p = owner_pc (pc s t) ∧ M = writer_mx_ s) ∨ (owner_pc p = true ∧ writer_mx_ s = None ∧ M = Some t) ∨ (owner_pc p = false ∧ writer_mx_ s = Some t ∧ M = None) →
  (raised_pc p = raised_pc (pc s t) ∧ F = writer_waiting_ s) ∨ (raised_pc p = true ∧ F = true) ∨ (raised_pc p = false ∧ raised_pc (pc s t) = true ∧ F = false) →
  (∀ i, p = Draining i → ∀ r, r ≠ t → pc s r = Reading → i ≤ my_slot r) → (p = Writing → ∀ r, r ≠ t → pc s r ≠ Reading) →
  (p = Reading → writer_waiting_ s = false) →
  lock_inv (mkLock W F M (<[t := p]> (pcs s))).
Proof.
  intros [I0 I1 I2 I3 I4 I5] Hlt HW HM HF HD HWr HR.
  assert (Hpc : ∀ t', pc (mkLock W F M (<[t := p]> (pcs s))) t' = if decide (t' = t) then p else pc s t') by (intros; apply (pc_goto t p s)).
  assert (Hraised : ∀ q, raised_pc q = true → owner_pc q = true) by (by intros []).
  assert (Hone : ∀ a b, owner_pc (pc s a) = true → owner_pc (pc s b) = true → a = b).
  { intros a b Ha Hb. apply I2 in Ha, Hb. congruence. }
  assert (Hclear : writer_waiting_ s = false → ∀ w, raised_pc (pc s w) = false).
  { intros Hf w. destruct (raised_pc (pc s w)) eqn:E; [|done]. assert (writer_waiting_ s = true) by (apply I3; eauto). congruence. }
  assert (Hact : ∀ t', active_pc (pc s t') = true → t' < n) by (intros t' Ha; apply I0; by destruct (pc s t')).
  split; simpl; repeat setoid_rewrite Hpc.
  - intros t'. case_decide; [by subst|apply I0].
  - intros i. rewrite HW. case_decide as Ei.
    + split; [intros Ha; exists t; by rewrite decide_True|]. intros (t' & E & Ha). case_decide as Et; [done|]. subst i. apply own_slot in E; [done|by apply Hact|done].
    + rewrite I1. split; intros (t' & E & Ha); exists t'; (split; [done|]).
      * rewrite decide_False; [done|]. by intros ->.
      * rewrite decide_False in Ha; [done|]. by intros ->.
  - intros t'. case_decide as Et; [subst t'|].
    + destruct HM as [[E ->]|[(E & _ & ->)|(E & _ & ->)]]; rewrite E; [apply I2|done|done].
    + destruct HM as [[E ->]|[(E & Hno & ->)|(E & Hno & ->)]]; [apply I2| |]; rewrite <- I2, Hno; split; congruence.
  - destruct HF as [[E ->]|[[E ->]|(E & Er & ->)]].
    + rewrite I3. split; intros (t' & Ha).
      * exists t'. case_decide; [subst; by rewrite E|done].
      * case_decide; [exists t; by rewrite <- E|eauto].
    + split; [intros _; exists t; by rewrite decide_True|done].
    + split; [done|]. intros (t' & Ha). case_decide as Et; [congruence|]. destruct Et. by apply Hone; apply Hraised.
  - intros w i r. destruct (decide (w = t)) as [->|Hw], (decide (r = t)) as [->|Hr]; [intros -> ?; done|intros; by eapply HD|intros Hd Hp|apply I4].
    specialize (Hclear (HR Hp) w). by rewrite Hd in Hclear.
  - intros w r. destruct (decide (w = t)) as [->|Hw], (decide (r = t)) as [->|Hr]; [intros ->; done|intros; by apply HWr|intros Hd Hp|apply I5].
    specialize (Hclear (HR Hp) w). by rewrite Hd in Hclear.
Qed.

Lemma active_word s t : lock_inv s → t < n → (my_slot t ∈ readers_ s ↔ active_pc (pc s t) = true).
Proof.
  intros Hi Ht. rewrite (li_words _ Hi). split; [intros (t' & E & Ha)|eauto]. apply own_slot in E as ->; [done| |done]. apply (li_range _ Hi). by destruct (pc s t').
Qed.

(** The parts of [move_inv] that the places decide. *)
Ltac moves_on := match goal with E : pc ?s ?t = _ |- _ => apply (move_inv s t); simpl; rewrite ?E end;
  try solve [done|by left|by right; left|by right; right].

Lemma step_inv c t s s' : lock_inv s → t < n → call_step c t s = Some s' → lock_inv s'.
Proof.
  intros Hi Ht E. pose proof (active_word s t Hi Ht) as Hw. destruct c; simpl in E; unfold lock_shared_step, unlock_shared_step, lock_step, unlock_step in E;
    destruct (pc s t) as [| | | | | |i| |] eqn:Ep; simplify_eq.
  - moves_on. intros i. case_decide; [split; [done|set_solver]|set_solver].
  - destruct (writer_waiting_ s) eqn:Ef; simpl; moves_on; intros i; case_decide; subst; tauto.
  - moves_on. intros i. case_decide; set_solver.
  - destruct (writer_waiting_ s) eqn:Ef; [done|]. moves_on. intros i. case_decide; [split; [done|set_solver]|set_solver].
  - moves_on. intros i. case_decide; set_solver.
  - destruct (writer_mx_ s) eqn:Em; simplify_eq. moves_on. intros i. case_decide; subst; [tauto|done].
  - moves_on; [intros i; case_decide; subst; tauto|]. intros i [= <-] r _ _. lia.
  - destruct (Nat.ltb_spec i kPool) as [Hlt|Hge].
    + case_bool_decide as Hb; [done|]. moves_on; [intros j; case_decide; subst; tauto|].
      intros j [= <-] r _ Hr. pose proof (li_drained _ Hi t i r Ep Hr) as Hle. destruct (decide (i = my_slot r)) as [->|]; [|lia].
      destruct Hb. apply (active_word s r Hi); [apply (li_range _ Hi)|]; by rewrite Hr.
    + moves_on; [intros j; case_decide; subst; tauto|].
      intros _ r _ Hr. pose proof (li_drained _ Hi t i r Ep Hr). pose proof (Nat.mod_upper_bound r kPool ltac:(done)). unfold my_slot in *. lia.
  - moves_on. intros i. case_decide; subst; tauto.
  - moves_on; [intros i; case_decide; subst; tauto|]. right; right. split_and!; [done| |done]. apply (li_owner _ Hi). by rewrite Ep.
Qed.
Lemma reach_inv s : reach n s → lock_inv s.
Proof. induction 1 as [|t c s s' _ IH Ht E]; [apply new_inv|]. by eapply step_inv. Qed.
End lock.


(** A schedule: whose step, of which call. *)
Fixpoint run_lock (sched : list (nat * LockCall)) (s : ScalableRwLock) : option ScalableRwLock :=
  match sched with [] => Some s | (t, c) :: sched => s ← call_step c t s; run_lock sched s end.
Lemma run_reach n sched : ∀ s s', reach n s → forallb (λ p : nat * LockCall, p.1 <? n) sched = true → run_lock sched s = Some s' → reach n s'.
Proof.
  induction sched as [|[t c] sched IH]; intros s s' Hr Hall E; simpl in *; [by simplify_eq|]. apply andb_true_iff in Hall as [Ht Hall]. apply Nat.ltb_lt in Ht.
  destruct (call_step c t s) as [s1|] eqn:E1; [|done]. simpl in E. eapply IH; [|done|exact E]. by eapply reach_step.
Qed.

(** One thread reads, another goes through the whole pool and writes. *)
Definition read_then_write : list (nat * LockCall) :=
  [(0, LockShared); (0, LockShared); (1, Lock); (1, Lock); (2, LockShared); (2, LockShared); (0, UnlockShared); (2, LockShared)] ++ replicate 129 (1, Lock).

(** With more threads than words two of them share one: when one of two readers
    leaves, the word is 0 and a writer enters beside the other. *)
Definition shared_word : list (nat * LockCall) :=
  [(0, LockShared); (0, LockShared); (128, LockShared); (128, LockShared); (0, UnlockShared); (1, Lock); (1, Lock)] ++ replicate 129 (1, Lock).
Lemma shared_words_break_exclusion : ∃ s, reach 129 s ∧ pc s 1 = Writing ∧ pc s 128 = Reading.
Proof.
  destruct (run_lock shared_word lock_new) as [s|] eqn:E; [|vm_compute in E; discriminate E]. exists s. split; [exact (run_reach 129 shared_word lock_new s (reach_new 129) eq_refl E)|].
  assert (Es : (λ s, (pc s 1, pc s 128)) <$> run_lock shared_word lock_new = Some (Writing, Reading)) by (by vm_compute). rewrite E in Es. injection Es as H1 H2. split; assumption.
Qed.
