(* ===== verification/StableId.v ===== *)
(** * StableId: identities for blocks of text

    Models include/lazily/stable_id.hpp: the hash of a text up to its white
    space, keys of blocks, the longest common subsequence of words with the
    similarity it gives, the alignment of two versions of a document and the keys
    it hands on.  Texts are lists of bytes, white space is that of the "C" locale,
    and the similarity is computed in IEEE doubles (SpecFloat). *)
From Stdlib Require Import SpecFloat.
From S2P Require Import Prelude.
#[local] Open Scope Z_scope.

(** ** Words *)

(** [isspace]. *)
Definition is_space (c : Z) : bool := (c =? 32) || ((9 <=? c) && (c <=? 13)).
(* include/lazily/stable_id.hpp:114-115, split_words (white space) *)
Fixpoint skip_space (s : list Z) : list Z := match s with c :: s' => if is_space c then skip_space s' else s | [] => [] end.
(** The word at the front and the rest. *)
(* include/lazily/stable_id.hpp:118-119, split_words (word) *)
Fixpoint take_word (s : list Z) : list Z * list Z :=
  match s with c :: s' => if is_space c then ([], s) else let '(w, r) := take_word s' in (c :: w, r) | [] => ([], []) end.
(** Every turn takes a character at least. *)
Fixpoint words_from (fuel : nat) (s : list Z) : list (list Z) :=
  match fuel with
  | O => []
  | S fuel => match skip_space s with [] => [] | s => let '(w, r) := take_word s in w :: words_from fuel r end
  end.
(* include/lazily/stable_id.hpp:110-124, split_words *)
Definition split_words (text : list Z) : list (list Z) := words_from (length text) text.

(** The words, one space between. *)
Fixpoint unwords (ws : list (list Z)) : list Z := match ws with [] => [] | [w] => w | w :: ws => w ++ 32 :: unwords ws end.
(* include/lazily/stable_id.hpp:28-47, normalize *)
Definition normalize (text : list Z) : list Z := unwords (split_words text).

(* include/lazily/stable_id.hpp:19-26, fnv1a_64 *)
Definition fnv1a_64 (s : list Z) : Z := foldl (λ h c, u64 (Z.lxor h c * 1099511628211)) 14695981039346656037 s.
(* include/lazily/stable_id.hpp:49-49, content_hash *)
Definition content_hash (text : list Z) : Z := fnv1a_64 (normalize text).

(** ** Blocks and keys *)

(* include/lazily/stable_id.hpp:51-54, Block *)
Record Block := mkBlock { b_text : list Z; anchor : option (list Z) }.
(* include/lazily/stable_id.hpp:56-56, new_block *)
Definition new_block (text : list Z) : Block := mkBlock text None.
(* include/lazily/stable_id.hpp:57-59, new_anchored_block *)
Definition new_anchored_block (a text : list Z) : Block := mkBlock text (Some a).

(* include/lazily/stable_id.hpp:61-64, BlockKey *)
Inductive BlockKey := Anchored (anchor_value : list Z) | Content (content_value : Z).
(* include/lazily/stable_id.hpp:66-66, BlockKey::is_anchored *)
Definition is_anchored (k : BlockKey) : bool := match k with Anchored _ => true | Content _ => false end.
(* include/lazily/stable_id.hpp:67-67, BlockKey::is_content *)
Definition is_content (k : BlockKey) : bool := match k with Content _ => true | Anchored _ => false end.
(* include/lazily/stable_id.hpp:69-73, BlockKey::equals *)
Definition key_equals (k o : BlockKey) : bool :=
  match k, o with Anchored a, Anchored b => bool_decide (a = b) | Content a, Content b => a =? b | _, _ => false end.
(** A digit of the hexadecimal numeral, and [%016lx]. *)
Definition hex_digit (d : Z) : Z := if d <? 10 then 48 + d else 87 + d.
Fixpoint hex (n : nat) (v : Z) : list Z := match n with O => [] | S n => hex n (v / 16) ++ [hex_digit (v mod 16)] end.
(* include/lazily/stable_id.hpp:75-82, BlockKey::as_string *)
Definition key_as_string (k : BlockKey) : list Z := match k with Anchored a => [97; 58] ++ a | Content h => [99; 58] ++ hex 16 h end.
(* include/lazily/stable_id.hpp:85-87, anchored_block_key *)
Definition anchored_block_key (v : list Z) : BlockKey := Anchored v.
(* include/lazily/stable_id.hpp:88-88, content_block_key *)
Definition content_block_key (v : Z) : BlockKey := Content v.
(* include/lazily/stable_id.hpp:89-92, block_key_of *)
Definition block_key_of (b : Block) : BlockKey :=
  match anchor b with Some a => anchored_block_key a | None => content_block_key (content_hash (b_text b)) end.

(** ** The longest common subsequence *)

(** One row: [prev] is the row above from column [j-1] on, [left] the entry of
    this row at [j-1]. *)
(* include/lazily/stable_id.hpp:98-103, lcs_len (row) *)
Fixpoint lcs_row {A} `{EqDecision A} (x : A) (b : list A) (prev : list Z) (left : Z) : list Z :=
  match b, prev with
  | y :: b, p :: ((q :: _) as prev) => let v := if decide (x = y) then p + 1 else Z.max q left in v :: lcs_row x b prev v
  | _, _ => []
  end.
(* include/lazily/stable_id.hpp:97-106, lcs_len (loop) *)
Fixpoint lcs_rows {A} `{EqDecision A} (a b : list A) (prev : list Z) : list Z :=
  match a with [] => prev | x :: a => lcs_rows a b (0 :: lcs_row x b prev 0) end.
(* include/lazily/stable_id.hpp:94-108, lcs_len *)
Definition lcs_len {A} `{EqDecision A} (a b : list A) : Z :=
  if bool_decide (a = []) || bool_decide (b = []) then 0
  else nth (length b) (lcs_rows a b (replicate (S (length b)) 0)) 0.

(** Doubles. *)
Definition of_int (z : Z) : spec_float := binary_normalize 53 1024 z 0 false.
Definition d_ge (x y : spec_float) : bool := SFleb y x.
Definition d_gt (x y : spec_float) : bool := SFltb y x.
Definition half : spec_float := SFdiv 53 1024 (of_int 1) (of_int 2).

(* include/lazily/stable_id.hpp:126-133, similarity *)
Definition similarity (a b : list Z) : spec_float :=
  let wa := split_words a in let wb := split_words b in
  if bool_decide (wa = []) && bool_decide (wb = []) then of_int 1
  else if bool_decide (wa = []) || bool_decide (wb = []) then of_int 0
  else SFdiv 53 1024 (SFmul 53 1024 (of_int 2) (of_int (lcs_len wa wb))) (of_int (Z.of_nat (length wa + length wb))).

(** ** Alignment *)

(* include/lazily/stable_id.hpp:136-136, Match::Kind *)
Inductive MatchKind := Same | Edited | Inserted.
#[export] Instance MatchKind_eq_dec : EqDecision MatchKind.
Proof. solve_decision. Defined.
(* include/lazily/stable_id.hpp:135-140, Match *)
Record Match := mkMatch { m_kind : MatchKind; old_index : Z; m_sim : spec_float }.
(* include/lazily/stable_id.hpp:142-145, Alignment *)
Record Alignment := mkAlignment { new_matches : list Match; removed : list Z }.

(** The first unused old block with the key, from [oi] on. *)
(* include/lazily/stable_id.hpp:162-167, align (exact match) *)
Fixpoint first_equal (oi : nat) (keys : list BlockKey) (used : list bool) (nk : BlockKey) : option nat :=
  match keys, used with
  | k :: keys, u :: used => if negb u && key_equals k nk then Some oi else first_equal (S oi) keys used nk
  | _, _ => None
  end.
Definition inserted : Match := mkMatch Inserted (-1) (of_int 0).
(* include/lazily/stable_id.hpp:159-174, align (pass 1) *)
Fixpoint pass1 (keys : list BlockKey) (news : list Block) (used : list bool) : list Match * list bool :=
  match news with
  | [] => ([], used)
  | b :: news =>
      match first_equal 0 keys used (block_key_of b) with
      | Some oi => let '(ms, used) := pass1 keys news (<[oi := true]> used) in (mkMatch Same (Z.of_nat oi) (of_int 1) :: ms, used)
      | None => let '(ms, used) := pass1 keys news used in (inserted :: ms, used)
      end
  end.

(** Alike enough to be an edit. *)
Definition qualifies (s best : spec_float) : bool := d_ge s half && d_gt s best.
(* include/lazily/stable_id.hpp:181-188, align (best match) *)
Fixpoint best_similar (oi : nat) (olds : list Block) (used : list bool) (text : list Z) (best : option nat) (best_sim : spec_float) : option nat * spec_float :=
  match olds, used with
  | b :: olds, u :: used =>
      let s := similarity (b_text b) text in
      if negb u && qualifies s best_sim then best_similar (S oi) olds used text (Some oi) s else best_similar (S oi) olds used text best best_sim
  | _, _ => (best, best_sim)
  end.
(* include/lazily/stable_id.hpp:177-193, align (pass 2) *)
Fixpoint pass2 (olds news : list Block) (ms : list Match) (used : list bool) : list Match * list bool :=
  match news, ms with
  | b :: news, m :: ms =>
      if bool_decide (m_kind m = Inserted) then
        match best_similar 0 olds used (b_text b) None (of_int 0) with
        | (Some oi, s) => let '(ms, used) := pass2 olds news ms (<[oi := true]> used) in (mkMatch Edited (Z.of_nat oi) s :: ms, used)
        | (None, _) => let '(ms, used) := pass2 olds news ms used in (m :: ms, used)
        end
      else let '(ms, used) := pass2 olds news ms used in (m :: ms, used)
  | _, _ => ([], used)
  end.
(* include/lazily/stable_id.hpp:196-198, align (removed) *)
Fixpoint unused (oi : nat) (used : list bool) : list Z :=
  match used with [] => [] | u :: used => if u : bool then unused (S oi) used else Z.of_nat oi :: unused (S oi) used end.
(* include/lazily/stable_id.hpp:147-201, align *)
Definition align (olds news : list Block) : Alignment :=
  let keys := block_key_of <$> olds in
  let '(ms, used) := pass1 keys news (replicate (length olds) false) in
  let '(ms, used) := pass2 olds news ms used in
  mkAlignment ms (unused 0 used).

(* include/lazily/stable_id.hpp:211-218, assign_stable_keys (loop) *)
Definition key_for (old_keys : list (list Z)) (b : Block) (m : Match) : option (list Z) :=
  if bool_decide (m_kind m = Inserted) then Some (key_as_string (block_key_of b)) else old_keys !! Z.to_nat (old_index m).
(** [None]: an index out of range. *)
(* include/lazily/stable_id.hpp:203-220, assign_stable_keys *)
Definition assign_stable_keys (olds news : list Block) : option (list (list Z)) :=
  let old_keys := (λ b, key_as_string (block_key_of b)) <$> olds in
  mapM (λ p : Block * Match, key_for old_keys p.1 p.2) (zip news (new_matches (align olds news))).

(** ** White space does not count *)

(** A word: not empty, without white space. *)
Definition is_word (w : list Z) : Prop := w ≠ [] ∧ Forall (λ c, is_space c = false) w.

Lemma skip_space_head s c r : skip_space s = c :: r → is_space c = false.
Proof. induction s as [|d s IH]; simpl; [done|]. destruct (is_space d) eqn:E; [done|]. by intros [= -> ->]. Qed.
Lemma skip_space_shorter s : (length (skip_space s) ≤ length s)%nat.
Proof. induction s as [|d s IH]; simpl; [lia|]. destruct (is_space d); simpl; lia. Qed.
Lemma take_word_ok s : Forall (λ c, is_space c = false) (take_word s).1 ∧ (length (take_word s).2 ≤ length s)%nat.
Proof.
  induction s as [|c s [IH1 IH2]]; simpl; [split; [constructor|done]|]. destruct (is_space c) eqn:E; simpl; [split; [constructor|lia]|].
  destruct (take_word s) as [w r]. simpl in *. split; [by constructor|lia].
Qed.
Lemma words_from_ok fuel : ∀ s, Forall is_word (words_from fuel s).
Proof.
  induction fuel as [|fuel IH]; intros s; simpl; [constructor|]. destruct (skip_space s) as [|c r] eqn:E; [constructor|]. apply skip_space_head in E.
  simpl. rewrite E. destruct (take_word_ok r) as [Hw _]. destruct (take_word r) as [w r']. constructor; [|apply IH]. split; [done|]. by constructor.
Qed.
Lemma take_word_app w r : Forall (λ c, is_space c = false) w → match r with [] => True | c :: _ => is_space c = true end → take_word (w ++ r) = (w, r).
Proof.
  intros Hw Hr. induction Hw as [|c w Hc Hw IH]; simpl; [destruct r as [|c r]; [done|]; simpl; by rewrite Hr|]. by rewrite Hc, IH.
Qed.
Lemma words_from_unwords ws : Forall is_word ws → ∀ fuel, (length (unwords ws) ≤ fuel)%nat → words_from fuel (unwords ws) = ws.
Proof.
  induction 1 as [|w ws [Hne Hw] Hws IH]; intros fuel Hf; [by destruct fuel|].
  assert (Hhead : ∃ c w', w = c :: w' ∧ is_space c = false) by (destruct w as [|c w']; [done|]; inversion Hw; eauto).
  destruct Hhead as (c & w' & -> & Hc). destruct ws as [|w2 ws].
  - simpl in *. destruct fuel as [|fuel]; [lia|]. simpl. rewrite Hc. inversion Hw as [|? ? _ Hw']; subst.
    pose proof (take_word_app w' [] Hw' I) as E. rewrite app_nil_r in E. rewrite Hc, E. by destruct fuel.
  - change (unwords ((c :: w') :: w2 :: ws)) with ((c :: w') ++ 32 :: unwords (w2 :: ws)) in *. set (rest := unwords (w2 :: ws)) in *.
    rewrite length_app in Hf. destruct fuel as [|fuel]; [simpl in Hf; lia|]. cbn [words_from app skip_space]. rewrite Hc. cbn [take_word]. rewrite Hc.
    inversion Hw as [|? ? _ Hw']; subst. rewrite take_word_app by done. f_equal.
    assert (Hsame : words_from fuel (32 :: rest) = words_from fuel rest) by (by destruct fuel). rewrite Hsame. apply IH. simpl in Hf. lia.
Qed.
(** Normalising keeps the words, so texts with the same words have the same
    hash, and normalising again changes nothing. *)
Lemma normalize_keeps_words s : split_words (normalize s) = split_words s ∧ normalize (normalize s) = normalize s.
Proof.
  assert (E : split_words (normalize s) = split_words s) by (apply words_from_unwords; [apply words_from_ok|done]).
  split; [done|]. unfold normalize at 1. by rewrite E.
Qed.
Lemma hash_of_words s s' : split_words s = split_words s' → content_hash s = content_hash s'.
Proof. intros E. unfold content_hash, normalize. by rewrite E. Qed.

(** ** The subsequence is longest *)

Section lcs.
Context {A : Type} `{EqDecision A}.
Implicit Types (a b c : list A).

Definition is_lcs a b (n : Z) : Prop :=
  (∃ c, c `sublist_of` a ∧ c `sublist_of` b ∧ Z.of_nat (length c) = n) ∧ ∀ c, c `sublist_of` a → c `sublist_of` b → Z.of_nat (length c) ≤ n.

Lemma sublist_snoc c z a x : c ++ [z] `sublist_of` a ++ [x] → c `sublist_of` a ∧ (z = x ∨ c ++ [z] `sublist_of` a).
Proof.
  intros (c1 & c2 & E & H1 & H2)%sublist_app_r. assert (Hc2 : c2 = [] ∨ c2 = [x]).
  { inversion H2 as [|? ? ? H3|? ? ? H3]; subst; apply sublist_nil_r in H3; subst; [by right|by left]. }
  destruct Hc2 as [-> | ->].
  - rewrite app_nil_r in E. rewrite E. split; [|by right]. etrans; [|exact H1]. rewrite <- E. by apply sublist_inserts_r.
  - apply app_inj_tail in E as [-> ->]. split; [done|by left].
Qed.

Lemma lcs_nil_l b : is_lcs [] b 0.
Proof. split; [exists []; split_and!; [done|apply sublist_nil_l|done]|]. intros c ->%sublist_nil_r _. done. Qed.
Lemma lcs_nil_r a : is_lcs a [] 0.
Proof. split; [exists []; split_and!; [apply sublist_nil_l|done|done]|]. intros c _ ->%sublist_nil_r. done. Qed.
Lemma lcs_same a b x n : is_lcs a b n → is_lcs (a ++ [x]) (b ++ [x]) (n + 1).
Proof.
  intros [(c & Ha & Hb & Hn) Hmax]. split.
  - exists (c ++ [x]). split_and!; [by apply sublist_app..|]. rewrite length_app. simpl. lia.
  - intros d Hda Hdb. destruct d as [|z d _] using rev_ind; [specialize (Hmax [] (sublist_nil_l _) (sublist_nil_l _)); simpl in *; lia|].
    apply sublist_snoc in Hda as [Hda _], Hdb as [Hdb _]. specialize (Hmax d Hda Hdb). rewrite length_app. simpl. lia.
Qed.
Lemma lcs_differ a b x y n m : x ≠ y → is_lcs (a ++ [x]) b n → is_lcs a (b ++ [y]) m → is_lcs (a ++ [x]) (b ++ [y]) (Z.max n m).
Proof.
  intros Hxy [(c & Ca & Cb & Cn) Cmax] [(d & Da & Db & Dn) Dmax]. split.
  - destruct (Z.max_spec n m) as [[_ ->]|[_ ->]]; [exists d|exists c]; split_and!; try done; by apply sublist_inserts_r.
  - intros e Ea Eb. destruct e as [|z e _] using rev_ind; [specialize (Cmax [] (sublist_nil_l _) (sublist_nil_l _)); simpl in *; lia|].
    pose proof (sublist_snoc _ _ _ _ Ea) as [_ [->|Ea']]; [|specialize (Dmax _ Ea' Eb); lia].
    pose proof (sublist_snoc _ _ _ _ Eb) as [_ [E|Eb']]; [done|]. specialize (Cmax _ Ea Eb'). lia.
Qed.

(** A row holds the lengths for the prefixes of [b1 ++ b2] that contain [b1]. *)
Definition row_is a b1 b2 (row : list Z) : Prop :=
  length row = S (length b2) ∧ ∀ j v, row !! j = Some v → is_lcs a (b1 ++ take j b2) v.

Lemma row_cons a b1 y b2 v row : is_lcs a b1 v → row_is a (b1 ++ [y]) b2 row → row_is a b1 (y :: b2) (v :: row).
Proof.
  intros Hv [Hl Hr]. split; [simpl; lia|]. intros [|j] w Hj; simpl in Hj; [simplify_eq; by rewrite app_nil_r|]. simpl. specialize (Hr j w Hj).
  by rewrite <- app_assoc in Hr.
Qed.
Lemma row_tail a b1 y b2 v row : row_is a b1 (y :: b2) (v :: row) → is_lcs a b1 v ∧ row_is a (b1 ++ [y]) b2 row.
Proof.
  intros [Hl Hr]. split; [specialize (Hr O v eq_refl); by rewrite app_nil_r in Hr|]. split; [simpl in Hl; lia|]. intros j w Hj. specialize (Hr (S j) w Hj). by rewrite <- app_assoc.
Qed.
Lemma lcs_row_ok a x b2 : ∀ b1 prev left, row_is a b1 b2 prev → is_lcs (a ++ [x]) b1 left → row_is (a ++ [x]) b1 b2 (left :: lcs_row x b2 prev left).
Proof.
  induction b2 as [|y b2 IH]; intros b1 prev left Hp Hleft.
  - simpl. split; [done|]. intros [|j] w Hj; simpl in Hj; [simplify_eq; by rewrite app_nil_r|by rewrite lookup_nil in Hj].
  - destruct prev as [|p [|q prev]]; [by destruct Hp|by destruct Hp as [? _]|]. apply row_tail in Hp as [Hpv Hp]. cbn [lcs_row].
    set (v := if decide (x = y) then p + 1 else q `max` left). apply row_cons; [done|]. apply IH; [done|].
    assert (Hq : is_lcs a (b1 ++ [y]) q) by (destruct Hp as [_ Hr]; specialize (Hr O q eq_refl); by rewrite app_nil_r in Hr).
    unfold v. case_decide as Exy; [subst; by apply lcs_same|]. rewrite Z.max_comm. by apply lcs_differ.
Qed.
Lemma lcs_rows_ok a2 b : ∀ a1 prev, row_is a1 [] b prev → row_is (a1 ++ a2) [] b (lcs_rows a2 b prev).
Proof.
  induction a2 as [|x a2 IH]; intros a1 prev Hp; simpl; [by rewrite app_nil_r|]. replace (a1 ++ x :: a2) with ((a1 ++ [x]) ++ a2) by (by rewrite <- app_assoc).
  apply IH. apply lcs_row_ok; [done|apply lcs_nil_r].
Qed.

(** The length the code computes is that of a common subsequence, and no common
    subsequence is longer. *)
Lemma lcs_len_is_longest a b : is_lcs a b (lcs_len a b).
Proof.
  unfold lcs_len. case_bool_decide as Ea; [subst; apply lcs_nil_l|]. case_bool_decide as Eb; [subst; apply lcs_nil_r|]. simpl.
  assert (Hz : row_is [] [] b (replicate (S (length b)) 0)).
  { split; [by rewrite length_replicate|]. intros j v [-> _]%lookup_replicate. apply lcs_nil_l. }
  apply (lcs_rows_ok a) in Hz as [Hl Hr]. destruct (lookup_lt_is_Some_2 (lcs_rows a b (replicate (S (length b)) 0)) (length b)) as [v Hv]; [lia|].
  specialize (Hr _ _ Hv). rewrite app_nil_l, take_ge in Hr by lia. by rewrite (nth_lookup_Some _ _ _ _ Hv).
Qed.
End lcs.

(** ** The alignment *)

Lemma key_equals_eq k o : key_equals k o = true ↔ k = o.
Proof.
  destruct k as [a|a], o as [b|b]; simpl; [rewrite bool_decide_eq_true|done|done|rewrite Z.eqb_eq]; naive_solver.
Qed.
Lemma first_equal_some keys : ∀ used oi nk i, first_equal oi keys used nk = Some i →
  ∃ j, i = (oi + j)%nat ∧ keys !! j = Some nk ∧ used !! j = Some false ∧ ∀ j', (j' < j)%nat → keys !! j' = Some nk → used !! j' = Some true.
Proof.
  induction keys as [|k keys IH]; intros [|u used] oi nk i; simpl; try done. destruct u; simpl; [|destruct (key_equals k nk) eqn:E].
  - intros (j & -> & Hk & Hu & Hmin)%IH. exists (S j). split_and!; [lia|done|done|]. intros [|j'] Hj; simpl; [done|]. apply Hmin. lia.
  - intros [= <-]. apply key_equals_eq in E as ->. exists O. split_and!; [lia|done|done|lia].
  - intros (j & -> & Hk & Hu & Hmin)%IH. exists (S j). split_and!; [lia|done|done|]. intros [|j'] Hj; simpl; [|apply Hmin; lia].
    intros [= ->]. by rewrite (proj2 (key_equals_eq nk nk)) in E.
Qed.
Lemma first_equal_none keys : ∀ used oi nk, first_equal oi keys used nk = None → ∀ j, keys !! j = Some nk → used !! j ≠ Some false.
Proof.
  induction keys as [|k keys IH]; intros [|u used] oi nk E [|j] Hk Hu; simplify_eq/=.
  - by rewrite (proj2 (key_equals_eq nk nk)) in E.
  - destruct u; simpl in E; [by eapply IH|]. destruct (key_equals k nk); [done|]. by eapply IH.
Qed.

Lemma lookup_mark (used : list bool) (j oi : nat) : (j < length used)%nat → <[j:=true]> used !! oi = Some true ↔ oi = j ∨ used !! oi = Some true.
Proof.
  intros Hj. rewrite list_lookup_insert_Some. split; [intros [(-> & _)|[_ ?]]; [by left|by right]|]. intros [->|?]; [by left|].
  destruct (decide (j = oi)) as [->|]; [by left|by right].
Qed.
Lemma lookup_unmarked (used : list bool) (j oi : nat) : <[j:=true]> used !! oi = Some false → used !! oi = Some false.
Proof. intros [(_ & ? & _)|[_ ?]]%list_lookup_insert_Some; done. Qed.

(** The match takes this old block. *)
Definition takes (m : Match) (oi : nat) : Prop := m_kind m ≠ Inserted ∧ old_index m = Z.of_nat oi.

Record pass1_is (keys : list BlockKey) (news : list Block) (used : list bool) (ms : list Match) (used' : list bool) : Prop := {
  p1_len : length ms = length news ∧ length used' = length used;
  p1_used : ∀ oi, used' !! oi = Some true ↔ used !! oi = Some true ∨ ∃ m, m ∈ ms ∧ takes m oi;
  p1_each : ∀ ni m b, ms !! ni = Some m → news !! ni = Some b →
    (m = inserted ∧ ∀ oi, keys !! oi = Some (block_key_of b) → used' !! oi = Some true) ∨
    (m_kind m = Same ∧ ∃ oi, old_index m = Z.of_nat oi ∧ keys !! oi = Some (block_key_of b) ∧ used !! oi = Some false);
  p1_once : ∀ ni ni' m m' oi, ms !! ni = Some m → ms !! ni' = Some m' → takes m oi → takes m' oi → ni = ni' }.

Lemma pass1_ok keys news : ∀ used, length used = length keys → pass1_is keys news used (pass1 keys news used).1 (pass1 keys news used).2.
Proof.
  induction news as [|b news IH]; intros used Hl; simpl.
  { split; [done|intros oi; set_solver|by intros [|?]|by intros [|?]]. }
  destruct (first_equal 0 keys used (block_key_of b)) as [i|] eqn:E.
  - apply first_equal_some in E as (j & -> & Hk & Hu & _). simpl. assert (Hj : (j < length used)%nat) by (by eapply lookup_lt_Some).
    destruct (IH (<[j := true]> used)) as [[L1 L2] U Each Once]; [by rewrite length_insert|]. destruct (pass1 keys news (<[j:=true]> used)) as [ms used']. simpl in *.
    rewrite length_insert in L2.
    assert (Hins : ∀ oi, <[j:=true]> used !! oi = Some true ↔ oi = j ∨ used !! oi = Some true).
    { intros oi. by apply lookup_mark. }
    assert (Hfree : ∀ oi m, m ∈ ms → takes m oi → oi ≠ j).
    { intros oi m [n Hm]%list_elem_of_lookup_1 [T1 T2] ->. assert (Hb : is_Some (news !! n)) by (apply lookup_lt_is_Some; rewrite <- L1; by eapply lookup_lt_Some).
      destruct Hb as [b' Hb]. destruct (Each n m b' Hm Hb) as [[-> _]|(_ & oi & Eo & _ & Hf)]; [done|]. assert (oi = j) as -> by lia.
      rewrite list_lookup_insert_eq in Hf by done. done. }
    split.
    + simpl. lia.
    + intros oi. rewrite U, Hins. split.
      * intros [[->|?]|(m & Hm & Ht)]; [right|by left|right]; [exists (mkMatch Same (Z.of_nat j) (of_int 1)); split; [by left|done]|exists m; split; [by right|done]].
      * intros [?|(m & [->|Hm]%elem_of_cons & Ht)]; [by left; right| |right; eauto]. left; left. destruct Ht as [_ Ht]. simpl in Ht. lia.
    + intros [|ni] m b' Hm Hb; simpl in Hm, Hb; simplify_eq; [right; split; [done|]; by exists j|].
      destruct (Each ni m b' Hm Hb) as [?|(? & oi & ? & ? & Hf)]; [by left|right]. split; [done|]. exists oi. split_and!; try done.
      by eapply lookup_unmarked.
    + intros [|ni] [|ni'] m m' oi Hm Hm' Ht Ht'; simpl in *; simplify_eq; [done|..|f_equal; by eapply Once].
      * exfalso. eapply (Hfree oi m'); [by eapply list_elem_of_lookup_2|done|]. destruct Ht as [_ Ht]. simpl in Ht. lia.
      * exfalso. eapply (Hfree oi m); [by eapply list_elem_of_lookup_2|done|]. destruct Ht' as [_ Ht']. simpl in Ht'. lia.
  - pose proof (first_equal_none _ _ _ _ E) as Hnone. destruct (IH used Hl) as [[L1 L2] U Each Once]. destruct (pass1 keys news used) as [ms used']. simpl in *. split.
    + simpl. lia.
    + intros oi. rewrite U. split; (intros [?|(m & Hm & Ht)]; [by left|]); [right; exists m; split; [by right|done]|].
      apply elem_of_cons in Hm as [->|Hm]; [by destruct Ht|right; eauto].
    + intros [|ni] m b' Hm Hb; simpl in Hm, Hb; simplify_eq; [left|by eapply Each]. split; [done|]. intros oi Hk.
      apply U. left. destruct (used !! oi) as [[]|] eqn:Eu; [done|by destruct (Hnone oi Hk)|]. apply lookup_lt_Some in Hk. apply lookup_ge_None in Eu. lia.
    + intros [|ni] [|ni'] m m' oi Hm Hm' Ht Ht'; simpl in *; simplify_eq; [done|by destruct Ht|by destruct Ht'|f_equal; by eapply Once].
Qed.

(** Alike enough, with nothing better before. *)
Definition alike (o b : Block) : bool := qualifies (similarity (b_text o) (b_text b)) (of_int 0).

Lemma best_similar_ok text olds : ∀ used oi best s i s', best_similar oi olds used text best s = (Some i, s') →
  (best = Some i ∧ s' = s) ∨ ∃ j o, i = (oi + j)%nat ∧ olds !! j = Some o ∧ used !! j = Some false ∧ s' = similarity (b_text o) text ∧ d_ge s' half = true.
Proof.
  induction olds as [|o olds IH]; intros [|u used] oi best s i s'; simpl; try (intros [= -> ->]; by left).
  destruct (negb u && qualifies (similarity (b_text o) text) s) eqn:E; intros [[Eb Es]|(j & o' & -> & Ho & Hu & Es & Hd)]%IH.
  - right. simplify_eq. apply andb_true_iff in E as [Eu [Hd _]%andb_true_iff]. exists O, o. destruct u; [done|]. split_and!; [lia|done..].
  - right. exists (S j), o'. split_and!; [lia|done..].
  - by left.
  - right. exists (S j), o'. split_and!; [lia|done..].
Qed.
Lemma best_similar_none text olds : ∀ used oi best s s', best_similar oi olds used text best s = (None, s') →
  best = None ∧ ∀ j o, olds !! j = Some o → used !! j = Some false → qualifies (similarity (b_text o) text) s = false.
Proof.
  induction olds as [|o olds IH]; intros [|u used] oi best s s'; simpl; try (intros [= -> _]; split; [done|]; by intros [|?]).
  destruct (negb u && qualifies (similarity (b_text o) text) s) eqn:E; intros [Eb Hq]%IH; [done|]. split; [done|].
  intros [|j] o' Ho Hu; simpl in Ho, Hu; simplify_eq; [done|]. by apply (Hq j).
Qed.

(** What the second pass makes of a match. *)
Definition second_look (olds : list Block) (used used' : list bool) (b : Block) (m m' : Match) : Prop :=
  (m_kind m ≠ Inserted ∧ m' = m) ∨
  (m_kind m = Inserted ∧ m' = m ∧ ∀ oi o, olds !! oi = Some o → used' !! oi = Some false → alike o b = false) ∨
  (m_kind m = Inserted ∧ m_kind m' = Edited ∧ ∃ oi o, old_index m' = Z.of_nat oi ∧ olds !! oi = Some o ∧ used !! oi = Some false ∧
    m_sim m' = similarity (b_text o) (b_text b) ∧ d_ge (m_sim m') half = true).

Record pass2_is (olds news : list Block) (ms : list Match) (used : list bool) (ms' : list Match) (used' : list bool) : Prop := {
  p2_len : length ms' = length ms ∧ length used' = length used;
  p2_used : ∀ oi, used' !! oi = Some true ↔ used !! oi = Some true ∨ ∃ m, m ∈ ms' ∧ m_kind m = Edited ∧ old_index m = Z.of_nat oi;
  p2_each : ∀ ni m m' b, ms !! ni = Some m → ms' !! ni = Some m' → news !! ni = Some b → second_look olds used used' b m m';
  p2_once : ∀ ni ni' m m' oi, ms' !! ni = Some m → ms' !! ni' = Some m' → m_kind m = Edited → m_kind m' = Edited → old_index m = Z.of_nat oi → old_index m' = Z.of_nat oi → ni = ni' }.

Lemma pass2_ok olds news : ∀ ms used, length used = length olds → length ms = length news → (∀ m, m ∈ ms → m_kind m ≠ Edited) →
  pass2_is olds news ms used (pass2 olds news ms used).1 (pass2 olds news ms used).2.
Proof.
  induction news as [|b news IH]; intros [|m ms] used Hl Hlm Hno; cbn [pass2 length] in *; try lia.
  { split; [done|intros oi; set_solver|by intros [|?]|by intros [|?]]. }
  assert (Hno' : ∀ m, m ∈ ms → m_kind m ≠ Edited) by (intros ? ?; apply Hno; by right).
  assert (Hm : m_kind m ≠ Edited) by (apply Hno; by left).
  destruct (bool_decide (m_kind m = Inserted)) eqn:Ek; [apply bool_decide_eq_true in Ek; destruct (best_similar 0 olds used (b_text b) None (of_int 0)) as [[i|] s] eqn:E|apply bool_decide_eq_false in Ek].
  - apply best_similar_ok in E as [[? _]|(j & o & -> & Ho & Hu & Es & Hd)]; [done|]. simpl. assert (Hj : (j < length used)%nat) by (by eapply lookup_lt_Some).
    destruct (IH ms (<[j := true]> used)) as [[L1 L2] U Each Once]; [by rewrite length_insert|lia|done|].
    destruct (pass2 olds news ms (<[j:=true]> used)) as [ms' used']. simpl in *. rewrite length_insert in L2.
    assert (Hins : ∀ oi, <[j:=true]> used !! oi = Some true ↔ oi = j ∨ used !! oi = Some true).
    { intros oi. by apply lookup_mark. }
    assert (Hfree : ∀ oi m, m ∈ ms' → m_kind m = Edited → old_index m = Z.of_nat oi → oi ≠ j).
    { intros oi m' [n Hm']%list_elem_of_lookup_1 Hk Hi ->. assert (Hin : (n < length ms')%nat) by (by eapply lookup_lt_Some).
      destruct (lookup_lt_is_Some_2 ms n) as [m0 Hm0]; [lia|]. destruct (lookup_lt_is_Some_2 news n) as [b' Hb]; [lia|].
      destruct (Each n m0 m' b' Hm0 Hm' Hb) as [[_ ->]|[(K & -> & _)|(_ & _ & oi & o' & Eo & _ & Hf & _)]].
      - by apply (Hno' m0); [eapply list_elem_of_lookup_2|].
      - congruence.
      - assert (oi = j) as -> by lia. by rewrite list_lookup_insert_eq in Hf. }
    split.
    + simpl. lia.
    + intros oi. rewrite U, Hins. split.
      * intros [[->|?]|(m' & Hm' & Ht)]; [right|by left|right]; [exists (mkMatch Edited (Z.of_nat j) s); split; [by left|done]|exists m'; split; [by right|done]].
      * intros [?|(m' & [->|Hm']%elem_of_cons & Ht)]; [by left; right| |right; eauto]. left; left. destruct Ht as [_ Ht]. simpl in Ht. lia.
    + intros [|ni] m0 m' b' H0 H' Hb; cbn [lookup list_lookup] in *; simplify_eq.
      * right; right. split_and!; try done. exists j, o. by split_and!.
      * destruct (Each ni m0 m' b' H0 H' Hb) as [?|[?|(? & ? & oi & o' & ? & ? & Hf & ?)]]; [by left|by right; left|right; right]. split_and!; try done. exists oi, o'.
        split_and!; [done..|by eapply lookup_unmarked|tauto|tauto].
    + intros [|ni] [|ni'] m1 m2 oi H1 H2 K1 K2 I1 I2; cbn [lookup list_lookup] in *; simplify_eq; [done|..|f_equal; by eapply Once].
      * exfalso. eapply (Hfree oi m2); [by eapply list_elem_of_lookup_2|done|done|]. simpl in I1. lia.
      * exfalso. eapply (Hfree oi m1); [by eapply list_elem_of_lookup_2|done|done|]. simpl in I2. lia.
  - apply best_similar_none in E as [_ Hq]. destruct (IH ms used Hl ltac:(lia) Hno') as [[L1 L2] U Each Once]. destruct (pass2 olds news ms used) as [ms' used']. simpl in *. split.
    + simpl. lia.
    + intros oi. rewrite U. split; (intros [?|(m' & Hm' & Ht)]; [by left|]); [right; exists m'; split; [by right|done]|].
      apply elem_of_cons in Hm' as [->|Hm']; [by destruct Ht|right; eauto].
    + intros [|ni] m0 m' b' H0 H' Hb; cbn [lookup list_lookup] in *; simplify_eq; [|by eapply Each]. right; left. split_and!; try done. intros oi o Ho Hu. unfold alike. apply (Hq oi); [done|].
      destruct (used !! oi) as [[]|] eqn:Eu; [|done|]; [exfalso; assert (Ht : used' !! oi = Some true) by (apply U; by left); congruence|].
      apply lookup_ge_None in Eu. apply lookup_lt_Some in Hu. lia.
    + intros [|ni] [|ni'] m1 m2 oi H1 H2 K1 K2 I1 I2; cbn [lookup list_lookup] in *; simplify_eq; [done..|f_equal; by eapply Once].
  - destruct (IH ms used Hl ltac:(lia) Hno') as [[L1 L2] U Each Once]. destruct (pass2 olds news ms used) as [ms' used']. simpl in *. split.
    + simpl. lia.
    + intros oi. rewrite U. split; (intros [?|(m' & Hm' & Ht)]; [by left|]); [right; exists m'; split; [by right|done]|].
      apply elem_of_cons in Hm' as [->|Hm']; [by destruct Ht|right; eauto].
    + intros [|ni] m0 m' b' H0 H' Hb; cbn [lookup list_lookup] in *; simplify_eq; [|by eapply Each]. by left.
    + intros [|ni] [|ni'] m1 m2 oi H1 H2 K1 K2 I1 I2; cbn [lookup list_lookup] in *; simplify_eq; [done..|f_equal; by eapply Once].
Qed.

Lemma elem_of_unused used : ∀ oi x, x ∈ unused oi used ↔ ∃ j, x = Z.of_nat (oi + j) ∧ used !! j = Some false.
Proof.
  induction used as [|u used IH]; intros oi x; simpl; [split; [by intros ?%elem_of_nil|by intros (j & _ & ?)]|]. destruct u.
  - rewrite IH. split; intros (j & -> & Hu); [exists (S j); by rewrite Nat.add_succ_r|]. destruct j as [|j]; [done|]. exists j. by rewrite Nat.add_succ_r.
  - rewrite elem_of_cons, IH. split.
    + intros [->|(j & -> & Hu)]; [exists O; by rewrite Nat.add_0_r|exists (S j); by rewrite Nat.add_succ_r].
    + intros ([|j] & -> & Hu); [left; by rewrite Nat.add_0_r|right]. exists j. by rewrite Nat.add_succ_r.
Qed.
Lemma unused_sorted used : ∀ oi, StronglySorted Z.lt (unused oi used).
Proof.
  induction used as [|u used IH]; intros oi; simpl; [constructor|]. destruct u; [apply IH|]. constructor; [apply IH|]. apply Forall_forall.
  intros x (j & -> & _)%elem_of_unused. lia.
Qed.

(** C38: The alignment is a matching, exact where it can be.  Every block of the
    new version gets a verdict; no block of the old version is taken twice, and
    those taken by none are listed as removed, in order.  A block judged the same
    has the key of the old block it takes; one judged edited takes a block it is
    at least half alike, and then, as for one judged inserted, every old block
    with its key is taken by a block with that key; a block judged inserted is
    not alike any removed block.  The keys handed on are those of the old blocks
    taken and the block's own otherwise. *)
Theorem alignment_is_a_matching (olds news : list Block) :
  let ms := new_matches (align olds news) in
  let gone := removed (align olds news) in
  length ms = length news ∧ StronglySorted Z.lt gone ∧
  (∀ oi : nat, Z.of_nat oi ∈ gone ↔ (oi < length olds)%nat ∧ ∀ m, m ∈ ms → ¬ takes m oi) ∧
  (∀ ni ni' m m' oi, ms !! ni = Some m → ms !! ni' = Some m' → takes m oi → takes m' oi → ni = ni') ∧
  (∀ ni m b, ms !! ni = Some m → news !! ni = Some b →
    (m_kind m = Same ∧ ∃ oi o, old_index m = Z.of_nat oi ∧ olds !! oi = Some o ∧ block_key_of o = block_key_of b) ∨
    ((∀ oi o, olds !! oi = Some o → block_key_of o = block_key_of b →
       ∃ ni' m' b', ms !! ni' = Some m' ∧ news !! ni' = Some b' ∧ m_kind m' = Same ∧ old_index m' = Z.of_nat oi ∧ block_key_of b' = block_key_of b) ∧
     ((m_kind m = Edited ∧ ∃ oi o, old_index m = Z.of_nat oi ∧ olds !! oi = Some o ∧ m_sim m = similarity (b_text o) (b_text b) ∧ d_ge (m_sim m) half = true) ∨
      (m_kind m = Inserted ∧ ∀ oi o, olds !! oi = Some o → Z.of_nat oi ∈ gone → alike o b = false)))) ∧
  ∃ keys, assign_stable_keys olds news = Some keys ∧ length keys = length news ∧
    ∀ ni m b k, ms !! ni = Some m → news !! ni = Some b → keys !! ni = Some k →
      (m_kind m = Inserted ∧ k = key_as_string (block_key_of b)) ∨ ∃ oi o, takes m oi ∧ olds !! oi = Some o ∧ k = key_as_string (block_key_of o).
Proof.
  unfold assign_stable_keys, align. set (keys := block_key_of <$> olds).
  assert (Hk : ∀ oi k, keys !! oi = Some k ↔ ∃ o, olds !! oi = Some o ∧ block_key_of o = k).
  { intros oi k. unfold keys. rewrite list_lookup_fmap, fmap_Some. naive_solver. }
  destruct (pass1_ok keys news (replicate (length olds) false)) as [[A1 A2] AU AE AO]; [by rewrite length_replicate; unfold keys; rewrite length_fmap|].
  destruct (pass1 keys news (replicate (length olds) false)) as [ms1 u1]. simpl in *. rewrite length_replicate in A2.
  assert (Hfresh : ∀ oi, replicate (length olds) false !! oi ≠ Some true) by (intros oi [? _]%lookup_replicate; done).
  assert (Hat : ∀ ni m, ms1 !! ni = Some m → ∃ b, news !! ni = Some b).
  { intros ni m Hm. apply lookup_lt_is_Some. rewrite <- A1. by eapply lookup_lt_Some. }
  assert (Hno : ∀ m, m ∈ ms1 → m_kind m ≠ Edited).
  { intros m [ni Hm]%list_elem_of_lookup_1. destruct (Hat ni m Hm) as [b Hb]. destruct (AE ni m b Hm Hb) as [[-> _]|[-> _]]; done. }
  destruct (pass2_ok olds news ms1 u1 A2 A1 Hno) as [[B1 B2] BU BE BO]. destruct (pass2 olds news ms1 u1) as [ms2 u2]. simpl in *.
  assert (Hback : ∀ ni m, ms2 !! ni = Some m → ∃ m1 b, ms1 !! ni = Some m1 ∧ news !! ni = Some b ∧ second_look olds u1 u2 b m1 m).
  { intros ni m Hm. destruct (lookup_lt_is_Some_2 ms1 ni) as [m1 Hm1]; [rewrite <- B1; by eapply lookup_lt_Some|]. destruct (Hat ni m1 Hm1) as [b Hb]. eauto 6. }
  assert (Hfwd : ∀ ni m, ms1 !! ni = Some m → m_kind m = Same → ms2 !! ni = Some m).
  { intros ni m Hm Hs. destruct (lookup_lt_is_Some_2 ms2 ni) as [m2 Hm2]; [rewrite B1; by eapply lookup_lt_Some|]. destruct (Hat ni m Hm) as [b Hb].
    destruct (BE ni m m2 b Hm Hm2 Hb) as [[_ ->]|[(? & _)|(? & _)]]; [done|congruence..]. }
  assert (Hu1 : ∀ oi, u1 !! oi = Some true ↔ ∃ m, m ∈ ms1 ∧ takes m oi) by (intros oi; rewrite AU; naive_solver).
  assert (Hu2 : ∀ oi, u2 !! oi = Some true ↔ ∃ m, m ∈ ms2 ∧ takes m oi).
  { intros oi. rewrite BU, Hu1. split.
    - intros [(m & [ni Hm]%list_elem_of_lookup_1 & Ht)|(m & Hm & K & I)]; [|exists m; split; [done|split; [congruence|done]]].
      exists m. split; [|done]. eapply list_elem_of_lookup_2, Hfwd; [done|]. destruct (m_kind m) eqn:Ek; [done|by destruct (Hno m); [eapply list_elem_of_lookup_2|]|by destruct Ht].
    - intros (m & [ni Hm]%list_elem_of_lookup_1 & Ht). destruct (Hback ni m Hm) as (m1 & b & H1 & Hb & [[K ->]|[(K & -> & _)|(K & K2 & oi' & o & I & _)]]).
      + left. exists m1. split; [by eapply list_elem_of_lookup_2|done].
      + by destruct Ht.
      + right. exists m. split; [by eapply list_elem_of_lookup_2|]. split; [done|]. by destruct Ht. }
  assert (Hlive : ∀ oi, Z.of_nat oi ∈ unused 0 u2 ↔ u2 !! oi = Some false).
  { intros oi. rewrite elem_of_unused. split; [intros (j & E & Hj); by assert (oi = j) as -> by lia|intros; by exists oi]. }
  split_and!.
  - lia.
  - apply unused_sorted.
  - intros oi. rewrite Hlive. split.
    + intros Hf. split; [rewrite <- A2, <- B2; by eapply lookup_lt_Some|]. intros m Hm Ht. assert (u2 !! oi = Some true) by (apply Hu2; eauto). congruence.
    + intros [Hlt Hn]. destruct (lookup_lt_is_Some_2 u2 oi) as [[] Hu]; [lia| |done]. apply Hu2 in Hu as (m & Hm & Ht). by destruct (Hn m Hm).
  - intros ni ni' m m' oi Hm Hm' [T1 T2] [T1' T2'].
    destruct (Hback ni m Hm) as (m1 & b & H1 & Hb & [[K ->]|[(K & -> & _)|(K & K2 & oi1 & o & I & _ & F & _)]]), (Hback ni' m' Hm') as (m1' & b' & H1' & Hb' & [[K' ->]|[(K' & -> & _)|(K' & K2' & oi2 & o' & I' & _ & F' & _)]]); try done.
    + by eapply (AO ni ni' m1 m1' oi).
    + exfalso. assert (oi2 = oi) as -> by lia. assert (u1 !! oi = Some true); [|congruence]. apply Hu1. exists m1. split; [by eapply list_elem_of_lookup_2|done].
    + exfalso. assert (oi1 = oi) as -> by lia. assert (u1 !! oi = Some true); [|congruence]. apply Hu1. exists m1'. split; [by eapply list_elem_of_lookup_2|done].
    + by eapply (BO ni ni' m m' oi).
  - intros ni m b Hm Hb. destruct (Hback ni m Hm) as (m1 & b1 & H1 & Hb1 & Hlook). assert (b1 = b) as -> by congruence.
    destruct (AE ni m1 b H1 Hb) as [[-> Hall]|(K & oi & I & Hko & _)].
    + right. split.
      * intros oi o Ho E. assert (Hkey : keys !! oi = Some (block_key_of b)) by (apply Hk; eauto). specialize (Hall oi Hkey). apply Hu1 in Hall as (m' & [ni' Hm']%list_elem_of_lookup_1 & [T1 T2]).
        destruct (Hat ni' m' Hm') as [b' Hb']. destruct (AE ni' m' b' Hm' Hb') as [[-> _]|(K' & oi' & I' & Hko' & _)]; [done|]. assert (oi' = oi) as -> by lia.
        exists ni', m', b'. split_and!; try done; [by apply Hfwd|]. congruence.
      * destruct Hlook as [[K _]|[(_ & -> & Hq)|(_ & K2 & oi & o & I & Ho & _ & Es & Hd)]]; [done|right|left; eauto 8]. split; [done|]. intros oi o Ho Hg. apply (Hq oi o Ho). by apply Hlive.
    + left. destruct Hlook as [[_ ->]|[(? & _)|(? & _)]]; [|congruence..]. split; [done|]. apply Hk in Hko as (o & Ho & E). eauto.
  - set (old_keys := (λ b, key_as_string (block_key_of b)) <$> olds).
    assert (Hok : ∀ ni m b, ms2 !! ni = Some m → news !! ni = Some b → ∃ k, key_for old_keys b m = Some k ∧
      ((m_kind m = Inserted ∧ k = key_as_string (block_key_of b)) ∨ ∃ oi o, takes m oi ∧ olds !! oi = Some o ∧ k = key_as_string (block_key_of o))).
    { intros ni m b Hm Hb. unfold key_for. case_bool_decide as Ek; [eauto|].
      assert (Ht : ∃ oi o, old_index m = Z.of_nat oi ∧ olds !! oi = Some o).
      { destruct (Hback ni m Hm) as (m1 & b1 & H1 & Hb1 & [[K ->]|[(K & -> & _)|(K & K2 & oi & o & I & Ho & _)]]); [|done|eauto].
        destruct (AE ni m1 b1 H1 Hb1) as [[-> _]|(_ & oi & I & Hko & _)]; [done|]. apply Hk in Hko as (o & Ho & _). eauto. }
      destruct Ht as (oi & o & I & Ho). exists (key_as_string (block_key_of o)). split; [|right; by exists oi, o].
      rewrite I, Nat2Z.id. unfold old_keys. by rewrite list_lookup_fmap, Ho. }
    assert (Hsome : is_Some (mapM (λ p : Block * Match, key_for old_keys p.1 p.2) (zip news ms2))).
    { apply mapM_is_Some, Forall_forall. intros [b m] [ni Hp]%list_elem_of_lookup_1. apply lookup_zip_Some in Hp as [Hb Hm]. destruct (Hok ni m b Hm Hb) as (k & E & _). simpl. by exists k. }
    destruct Hsome as [ks Eks]. exists ks. split; [done|]. apply mapM_Some in Eks. split.
    + rewrite <- (Forall2_length _ _ _ Eks), length_zip. lia.
    + intros ni m b k Hm Hb Hki. destruct (Forall2_lookup_r _ _ _ _ _ Eks Hki) as ([b' m'] & Hp & E). apply lookup_zip_Some in Hp as [Hb' Hm']. simpl in *. simplify_eq.
      destruct (Hok ni m b Hm Hb) as (k' & E' & Hk'). assert (k' = k) as -> by congruence. exact Hk'.
Qed.
