(* ===== verification/LosslessTree.v ===== *)
(** * LosslessTree: the tree of text leaves

    Models include/lazily/lossless_tree_crdt.hpp over the character CRDT of
    TextCrdt.v: nodes with sort keys, tombstones and leaf texts, the operations
    with their log, and the buffer for those whose dependencies are missing.

    Leaf texts are shared pointers, so they live in a heap, which a replica and
    its forks have in common.  Hash maps are finite maps.  [None] stands for a
    call that does not return normally (an exception, or undefined behaviour).
    Where [std::sort] meets equal keys its order is unspecified: the model sorts
    with [merge_sort], and the theorems say where keys are distinct. *)
From S2P Require Import Prelude TextCrdt.
#[local] Open Scope Z_scope.

(** ** Data *)

(* include/lazily/lossless_tree_crdt.hpp:18-18, LeafKind *)
Inductive LeafKind := Token | Trivia | Raw | LError.
#[export] Instance LeafKind_eq_dec : EqDecision LeafKind.
Proof. solve_decision. Defined.

(* include/lazily/lossless_tree_crdt.hpp:20-35, TreeSortKey *)
Record TreeSortKey := mkSort { frac : list Z; sort_peer : Z }.
#[export] Instance TreeSortKey_eq_dec : EqDecision TreeSortKey.
Proof. solve_decision. Defined.

Fixpoint frac_compare (a b : list Z) : Z :=
  match a, b with
  | x :: a, y :: b => if negb (x =? y) then (if x <? y then -1 else 1) else frac_compare a b
  | [], [] => 0
  | [], _ => -1
  | _, [] => 1
  end.
(* include/lazily/lossless_tree_crdt.hpp:24-32, TreeSortKey::compare *)
Definition sort_compare (a b : TreeSortKey) : Z :=
  let c := frac_compare (frac a) (frac b) in
  if negb (c =? 0) then c
  else if negb (sort_peer a =? sort_peer b) then (if sort_peer a <? sort_peer b then -1 else 1) else 0.

(* include/lazily/lossless_tree_crdt.hpp:37-44, TreeNodeSeed *)
Inductive TreeNodeSeed := SeedElement (kind : list Z) | SeedLeaf (kind : LeafKind) (text : list Z).

(* include/lazily/lossless_tree_crdt.hpp:46-78, TreeOpKind *)
Inductive TreeOpKind :=
  | OpCreate (id : OpId) (parent : OpId) (sort : TreeSortKey) (seed : TreeNodeSeed)
  | OpTombstone (node : OpId)
  | OpReorder (node : OpId) (sort : TreeSortKey)
  | OpLeafEdit (node prev : OpId) (ops : list TextOp)
  | OpSplit (node new_id : OpId) (sort : TreeSortKey) (at_char : nat) (prev : OpId)
  | OpMerge (left right prev_left prev_right : OpId).
(* include/lazily/lossless_tree_crdt.hpp:81-84, TreeOp *)
Record TreeOp := mkTreeOp { op_id : OpId; op_kind : TreeOpKind }.

(** *** Frontiers *)

(* include/lazily/lossless_tree_crdt.hpp:90-92, TreeDotRange *)
Record TreeDotRange := mkDots { contiguous : Z; sparse : gset Z }.
Definition no_dots : TreeDotRange := mkDots 0 ∅.
(* include/lazily/lossless_tree_crdt.hpp:94-97, TreeDotRange::contains *)
Definition dots_contain (d : TreeDotRange) (n : Z) : bool := (n <=? contiguous d) || bool_decide (n ∈ sparse d).
(** Every turn takes a dot out of the sparse set. *)
(* include/lazily/lossless_tree_crdt.hpp:102-105, TreeDotRange::observe (loop) *)
Fixpoint compact (fuel : nat) (d : TreeDotRange) : TreeDotRange :=
  match fuel with
  | O => d
  | S fuel => if bool_decide (contiguous d + 1 ∈ sparse d) then compact fuel (mkDots (contiguous d + 1) (sparse d ∖ {[contiguous d + 1]})) else d
  end.
(* include/lazily/lossless_tree_crdt.hpp:99-106, TreeDotRange::observe *)
Definition dots_observe (d : TreeDotRange) (n : Z) : TreeDotRange :=
  if n <=? contiguous d then d
  else let d := mkDots (contiguous d) (sparse d ∪ {[n]}) in compact (size (sparse d)) d.

(* include/lazily/lossless_tree_crdt.hpp:110-110, TreeVersionFrontier *)
Definition TreeVersionFrontier : Type := gmap Z TreeDotRange.
(* include/lazily/lossless_tree_crdt.hpp:112-116, TreeVersionFrontier::contains *)
Definition frontier_contains (f : TreeVersionFrontier) (id : OpId) : bool :=
  match (f : gmap Z TreeDotRange) !! id_peer id with Some d => dots_contain d (counter id) | None => false end.
(* include/lazily/lossless_tree_crdt.hpp:118-118, TreeVersionFrontier::observe *)
Definition frontier_observe (f : TreeVersionFrontier) (id : OpId) : TreeVersionFrontier :=
  <[id_peer id := dots_observe (default no_dots ((f : gmap Z TreeDotRange) !! id_peer id)) (counter id)]> (f : gmap Z TreeDotRange).

(* include/lazily/lossless_tree_crdt.hpp:121-121, kTreeRoot *)
Definition kTreeRoot : OpId := mkId 0 0.

(** *** Keys *)

(** The first position where there is room between the two. *)
(* include/lazily/lossless_tree_crdt.hpp:137-143, tree_key_between (loop) *)
Fixpoint key_room (lo hi : list Z) : option (list Z) :=
  match lo, hi with
  | x :: lo, y :: hi => if (x <? y) && (1 <? y - x) then Some [(x + y) `quot` 2] else cons x <$> key_room lo hi
  | _, _ => None
  end.
(** [front] of an empty vector is undefined. *)
(* include/lazily/lossless_tree_crdt.hpp:123-147, tree_key_between *)
Definition tree_key_between (lo hi : option (list Z)) : option (list Z) :=
  match lo, hi with
  | None, None => Some [128]
  | None, Some hi => match hi with [] => None | x :: _ => Some (if 1 <? x then [x `quot` 2] else hi ++ [128]) end
  | Some lo, None => Some (lo ++ [128])
  | Some lo, Some hi => Some (default (lo ++ [128]) (key_room lo hi))
  end.

(** ** The replica *)

(* include/lazily/lossless_tree_crdt.hpp:149-160, TreeNode *)
Record TreeNode := mkNode {
  n_id : OpId; n_parent : option OpId; n_sort : TreeSortKey; n_sort_stamp : OpId;
  n_is_leaf : bool; n_leaf_kind : LeafKind; n_element_kind : list Z;
  n_text : option nat; n_tomb : option OpId; n_text_head : OpId }.

(** What [nodes_[id]] makes of an absent id. *)
Definition blank_node : TreeNode := mkNode (mkId 0 0) None (mkSort [] 0) (mkId 0 0) false Token [] None None (mkId 0 0).

(* include/lazily/lossless_tree_crdt.hpp:464-478, LosslessTreeCrdt *)
Record Tree := mkTree {
  peer_ : Z; counter_ : Z; nodes_ : gmap OpId TreeNode; children_ : gmap OpId (list OpId);
  log_ : list TreeOp; frontier_ : TreeVersionFrontier; buffered_ : list TreeOp }.
Notation Texts := (list TextCrdt).

Definition set_nodes (ns : gmap OpId TreeNode) (t : Tree) : Tree := mkTree (peer_ t) (counter_ t) ns (children_ t) (log_ t) (frontier_ t) (buffered_ t).
Definition set_node (id : OpId) (n : TreeNode) (t : Tree) : Tree := set_nodes (<[id := n]> (nodes_ t)) t.
Definition add_child (parent id : OpId) (t : Tree) : Tree :=
  mkTree (peer_ t) (counter_ t) (nodes_ t) (<[parent := default [] (children_ t !! parent) ++ [id]]> (children_ t)) (log_ t) (frontier_ t) (buffered_ t).
Definition set_counter (c : Z) (t : Tree) : Tree := mkTree (peer_ t) c (nodes_ t) (children_ t) (log_ t) (frontier_ t) (buffered_ t).
Definition set_buffered (b : list TreeOp) (t : Tree) : Tree := mkTree (peer_ t) (counter_ t) (nodes_ t) (children_ t) (log_ t) (frontier_ t) b.

Definition with_sort (s : TreeSortKey) (stamp : OpId) (n : TreeNode) : TreeNode :=
  mkNode (n_id n) (n_parent n) s stamp (n_is_leaf n) (n_leaf_kind n) (n_element_kind n) (n_text n) (n_tomb n) (n_text_head n).
Definition with_text (ref : nat) (head : OpId) (n : TreeNode) : TreeNode :=
  mkNode (n_id n) (n_parent n) (n_sort n) (n_sort_stamp n) (n_is_leaf n) (n_leaf_kind n) (n_element_kind n) (Some ref) (n_tomb n) head.
Definition with_tomb (d : OpId) (n : TreeNode) : TreeNode :=
  mkNode (n_id n) (n_parent n) (n_sort n) (n_sort_stamp n) (n_is_leaf n) (n_leaf_kind n) (n_element_kind n) (n_text n) (Some d) (n_text_head n).

(* include/lazily/lossless_tree_crdt.hpp:164-172, LosslessTreeCrdt::LosslessTreeCrdt *)
Definition tree_new (peer : Z) : Tree :=
  mkTree peer 0 {[kTreeRoot := mkNode kTreeRoot None (mkSort [128] peer) (mkId 0 peer) false Token [114; 111; 111; 116] None None (mkId 0 0)]} ∅ [] ∅ [].

(* include/lazily/lossless_tree_crdt.hpp:480-480, LosslessTreeCrdt::next_id *)
Definition tree_next_id (t : Tree) : OpId * Tree := (mkId (counter_ t + 1) (peer_ t), set_counter (counter_ t + 1) t).
(* include/lazily/lossless_tree_crdt.hpp:446-449, LosslessTreeCrdt::record *)
Definition record (op : TreeOp) (t : Tree) : Tree :=
  mkTree (peer_ t) (counter_ t) (nodes_ t) (children_ t) (log_ t ++ [op]) (frontier_observe (frontier_ t) (op_id op)) (buffered_ t).

(** A fresh text holding [s], put on the heap. *)
Definition new_text (peer : Z) (s : list Z) (tx : Texts) : option (nat * Texts) :=
  t ← insert_str (text_new peer) 0 s; Some (length tx, tx ++ [t]).
(** The text a leaf points to. *)
Definition node_text (n : TreeNode) (tx : Texts) : option TextCrdt := ref ← n_text n; tx !! ref.

(** The first live child after [after], in order of arrival. *)
(* include/lazily/lossless_tree_crdt.hpp:533-538, LosslessTreeCrdt::find_right_sibling (loop) *)
Fixpoint right_sibling (ns : gmap OpId TreeNode) (cs : list OpId) (after : option OpId) (found : bool) : option TreeSortKey :=
  match cs with
  | [] => None
  | c :: cs =>
      match ns !! c with
      | None => right_sibling ns cs after found
      | Some n =>
          if n_tomb n then right_sibling ns cs after found
          else if found then Some (n_sort n) else right_sibling ns cs after (bool_decide (after = Some c))
      end
  end.
(* include/lazily/lossless_tree_crdt.hpp:529-540, LosslessTreeCrdt::find_right_sibling *)
Definition find_right_sibling (t : Tree) (parent : OpId) (after : option OpId) : option TreeSortKey :=
  match children_ t !! parent with
  | None => None
  | Some cs => right_sibling (nodes_ t) cs after (bool_decide (after = None))
  end.

(** [nodes_[*after]]: an absent id is inserted. *)
Definition touch (after : option OpId) (t : Tree) : option (list Z) * Tree :=
  match after with
  | None => (None, t)
  | Some a => match nodes_ t !! a with Some n => (Some (frac (n_sort n)), t) | None => (Some [], set_node a blank_node t) end
  end.

(** The node a seed makes. *)
(* include/lazily/lossless_tree_crdt.hpp:184-199, LosslessTreeCrdt::create_node (node) *)
Definition seed_node (id : OpId) (parent : OpId) (sort : TreeSortKey) (stamp : OpId) (seed : TreeNodeSeed) (text_peer : Z) (tx : Texts) : option (TreeNode * Texts) :=
  match seed with
  | SeedElement kind => Some (mkNode id (Some parent) sort stamp false Token kind None None (mkId 0 0), tx)
  | SeedLeaf kind s => '(ref, tx) ← new_text text_peer s tx; Some (mkNode id (Some parent) sort stamp true kind [] (Some ref) None id, tx)
  end.

(* include/lazily/lossless_tree_crdt.hpp:174-206, LosslessTreeCrdt::create_node *)
Definition create_node (parent : OpId) (after : option OpId) (seed : TreeNodeSeed) (t : Tree) (tx : Texts) : option (OpId * Tree * Texts) :=
  let '(id, t) := tree_next_id t in
  match nodes_ t !! parent with
  | None => Some (id, t, tx)
  | Some _ =>
      let '(before, t) := touch after t in
      let next := find_right_sibling t parent after in
      key ← tree_key_between before (frac <$> next);
      let key := mkSort key (peer_ t) in
      '(node, tx) ← seed_node id parent key id seed (peer_ t) tx;
      let t := add_child parent id (set_node id node t) in
      Some (id, record (mkTreeOp id (OpCreate id parent key seed)) t, tx)
  end.

(* include/lazily/lossless_tree_crdt.hpp:208-216, LosslessTreeCrdt::tombstone_node *)
Definition tombstone_node (node_id : OpId) (t : Tree) : Tree :=
  match nodes_ t !! node_id with
  | None => t
  | Some n =>
      if match n_tomb n with Some d => id_ltb d node_id | None => false end then t
      else
        let '(id, t) := tree_next_id t in
        record (mkTreeOp id (OpTombstone node_id)) (set_node node_id (with_tomb id n) t)
  end.

(** The insertion of an absent [after] may invalidate the iterator the call
    holds. *)
(* include/lazily/lossless_tree_crdt.hpp:218-233, LosslessTreeCrdt::reorder_child *)
Definition reorder_child (node_id : OpId) (after : option OpId) (t : Tree) : option Tree :=
  match nodes_ t !! node_id with
  | None => Some t
  | Some n =>
      match n_parent n with
      | None => Some t
      | Some parent =>
          before ← match after with None => Some None | Some a => (λ m, Some (frac (n_sort m))) <$> nodes_ t !! a end;
          let next := find_right_sibling t parent after in
          key ← tree_key_between before (frac <$> next);
          let key := mkSort key (peer_ t) in
          let '(stamp, t) := tree_next_id t in
          Some (record (mkTreeOp stamp (OpReorder node_id key)) (set_node node_id (with_sort key stamp n) t))
      end
  end.

(* include/lazily/lossless_tree_crdt.hpp:248-251, LosslessTreeCrdt::edit_leaf (deletions) *)
Fixpoint delete_at (n : nat) (pos : nat) (x : TextCrdt) : option TextCrdt :=
  match n with
  | O => Some x
  | S n => len ← visible_len x; if (pos <? len)%nat then x ← text_del x pos; delete_at n pos x else Some x
  end.
(* include/lazily/lossless_tree_crdt.hpp:235-262, LosslessTreeCrdt::edit_leaf *)
Definition edit_leaf (node_id : OpId) (at_byte delete_bytes : nat) (insert : list Z) (t : Tree) (tx : Texts) : option (Tree * Texts) :=
  match nodes_ t !! node_id with
  | None => Some (t, tx)
  | Some n =>
      match n_is_leaf n, n_text n with
      | true, Some ref =>
          x ← tx !! ref;
          x ← delete_at delete_bytes at_byte (text_fork x (peer_ t));
          x ← (if bool_decide (insert = []) then Some x else insert_str x at_byte insert);
          let '(stamp, t) := tree_next_id t in
          let t := set_node node_id (with_text (length tx) stamp n) t in
          Some (record (mkTreeOp stamp (OpLeafEdit node_id (n_text_head n) (delta_since x ∅))) t, tx ++ [x])
      | _, _ => Some (t, tx)
      end
  end.

(** The byte starts a character. *)
Definition leads (b : Z) : bool := negb (Z.land b 192 =? 128).
(* include/lazily/lossless_tree_crdt.hpp:542-548, LosslessTreeCrdt::byte_to_char *)
Definition byte_to_char (s : list Z) (byte_offset : nat) : nat := length (filter (λ b, leads b = true) (take byte_offset s)).
(* include/lazily/lossless_tree_crdt.hpp:658-666, LosslessTreeCrdt::char_to_byte *)
Fixpoint char_to_byte (s : list Z) (char_offset : nat) : nat :=
  match s, char_offset with
  | b :: s, S n => S (char_to_byte s (if leads b then n else S n))
  | _, _ => O
  end.

(** A new leaf, the tail of a split. *)
Definition tail_leaf (id : OpId) (parent : option OpId) (sort : TreeSortKey) (stamp : OpId) (kind : LeafKind) (ref : nat) : TreeNode :=
  mkNode id parent sort stamp true kind [] (Some ref) None stamp.

(* include/lazily/lossless_tree_crdt.hpp:264-308, LosslessTreeCrdt::split_leaf *)
Definition split_leaf (node_id : OpId) (at_byte : nat) (t : Tree) (tx : Texts) : option (OpId * Tree * Texts) :=
  match nodes_ t !! node_id with
  | None => Some (mkId 0 0, t, tx)
  | Some n =>
      match n_is_leaf n, n_text n with
      | true, Some ref =>
          x ← tx !! ref; s ← text x;
          if (length s <? at_byte)%nat then None
          else
            let char_pos := byte_to_char s at_byte in
            let '(stamp, t) := tree_next_id t in
            let parent := default kTreeRoot (n_parent n) in
            '(href, tx) ← new_text (peer_ t) (take at_byte s) tx;
            let t := set_node node_id (with_text href stamp n) t in
            key ← tree_key_between (Some (frac (n_sort n))) None;
            let key := mkSort key (peer_ t) in
            '(tref, tx) ← new_text (id_peer stamp) (drop at_byte s) tx;
            let t := add_child parent stamp (set_node stamp (tail_leaf stamp (Some parent) key stamp (n_leaf_kind n) tref) t) in
            Some (stamp, record (mkTreeOp stamp (OpSplit node_id stamp key char_pos (n_text_head n))) t, tx)
      | _, _ => Some (mkId 0 0, t, tx)
      end
  end.

(** The joined text replaces the left one, the right node is entombed. *)
Definition joined (l r : OpId) (text_peer : Z) (head : OpId) (t : Tree) (tx : Texts) : option (Tree * Texts) :=
  ln ← nodes_ t !! l; rn ← nodes_ t !! r;
  lx ← node_text ln tx; rx ← node_text rn tx; ls ← text lx; rs ← text rx;
  '(ref, tx) ← new_text text_peer (ls ++ rs) tx;
  Some (set_node l (with_text ref head ln) t, tx).
Definition entomb (id d : OpId) (t : Tree) : Tree := set_nodes (alter (with_tomb d) id (nodes_ t)) t.
Definition both_leaves (l r : OpId) (t : Tree) : bool :=
  match nodes_ t !! l, nodes_ t !! r with Some ln, Some rn => n_is_leaf ln && n_is_leaf rn | _, _ => false end.

(* include/lazily/lossless_tree_crdt.hpp:310-329, LosslessTreeCrdt::merge_adjacent_leaves *)
Definition merge_adjacent_leaves (l r : OpId) (t : Tree) (tx : Texts) : option (Tree * Texts) :=
  if negb (both_leaves l r t) then Some (t, tx)
  else
    ln ← nodes_ t !! l; rn ← nodes_ t !! r;
    let '(stamp, t) := tree_next_id t in
    '(t, tx) ← joined l r (peer_ t) stamp t tx;
    let '(dead, t) := tree_next_id t in
    Some (record (mkTreeOp stamp (OpMerge l r (n_text_head ln) (n_text_head rn))) (entomb r dead t), tx).

(** *** Reading *)

Definition child_le (a b : TreeSortKey * OpId) : Prop := sort_compare a.1 b.1 ≤ 0.
#[export] Instance child_le_dec : RelDecision child_le.
Proof. intros a b. unfold child_le. apply _. Defined.

Definition has_node (t : Tree) (id : OpId) : bool := bool_decide (is_Some (nodes_ t !! id)).
Definition is_live (t : Tree) (c : OpId) : bool := match nodes_ t !! c with Some n => negb (bool_decide (is_Some (n_tomb n))) | None => false end.
(** The live children of a node, with their keys, sorted. *)
(* include/lazily/lossless_tree_crdt.hpp:559-566, LosslessTreeCrdt::render_node (children) *)
Definition sorted_children (t : Tree) (id : OpId) : list (TreeSortKey * OpId) :=
  merge_sort child_le (omap (λ c, n ← nodes_ t !! c; if is_live t c then Some (n_sort n, c) else None) (default [] (children_ t !! id))).
(** One turn per generation. *)
(* include/lazily/lossless_tree_crdt.hpp:550-571, LosslessTreeCrdt::render_node *)
Fixpoint render_node (fuel : nat) (t : Tree) (tx : Texts) (id : OpId) : option (list Z) :=
  match fuel with
  | O => None
  | S fuel =>
      match nodes_ t !! id with
      | None => Some []
      | Some n =>
          if bool_decide (is_Some (n_tomb n)) then Some []
          else
            match n_is_leaf n, n_text n with
            | true, Some ref => x ← tx !! ref; text x
            | _, _ => @concat Z <$> mapM (λ p : TreeSortKey * OpId, render_node fuel t tx p.2) (sorted_children t id)
            end
      end
  end.
(* include/lazily/lossless_tree_crdt.hpp:331-335, LosslessTreeCrdt::render *)
Definition render (t : Tree) (tx : Texts) : option (list Z) := render_node (S (size (nodes_ t))) t tx kTreeRoot.

(* include/lazily/lossless_tree_crdt.hpp:337-345, LosslessTreeCrdt::live_node_count *)
Definition live_node_count (t : Tree) : nat := length (filter (λ p : OpId * TreeNode, p.1 ≠ kTreeRoot ∧ n_tomb p.2 = None) (map_to_list (nodes_ t))).
(* include/lazily/lossless_tree_crdt.hpp:347-347, LosslessTreeCrdt::frontier *)
Definition frontier (t : Tree) : TreeVersionFrontier := frontier_ t.
(* include/lazily/lossless_tree_crdt.hpp:349-353, LosslessTreeCrdt::element_kind *)
Definition element_kind (t : Tree) (id : OpId) : option (list Z) := n ← nodes_ t !! id; if n_is_leaf n then None else Some (n_element_kind n).
(* include/lazily/lossless_tree_crdt.hpp:355-359, LosslessTreeCrdt::leaf_kind *)
Definition leaf_kind (t : Tree) (id : OpId) : option LeafKind := n ← nodes_ t !! id; if n_is_leaf n then Some (n_leaf_kind n) else None.
Definition live_children (t : Tree) (parent : OpId) : list OpId := filter (λ c, is_live t c = true) (default [] (children_ t !! parent)).
(** Every child has to be there: [at] throws. *)
(* include/lazily/lossless_tree_crdt.hpp:361-371, LosslessTreeCrdt::children *)
Definition children (t : Tree) (parent : OpId) : option (list OpId) :=
  if forallb (has_node t) (default [] (children_ t !! parent)) then Some (live_children t parent) else None.
(* include/lazily/lossless_tree_crdt.hpp:373-377, LosslessTreeCrdt::leaf_text *)
Definition leaf_text (t : Tree) (tx : Texts) (id : OpId) : option (list Z) :=
  n ← nodes_ t !! id; if n_is_leaf n then x ← node_text n tx; text x else None.

(** *** Exchange *)

Definition op_le (a b : TreeOp) : Prop := id_compare (op_id a) (op_id b) ≤ 0.
#[export] Instance op_le_dec : RelDecision op_le.
Proof. intros a b. unfold op_le. apply _. Defined.
(* include/lazily/lossless_tree_crdt.hpp:394-404, LosslessTreeCrdt::diff *)
Definition diff (t : Tree) (their : TreeVersionFrontier) : list TreeOp := merge_sort op_le (filter (λ op, frontier_contains their (op_id op) = false) (log_ t)).

(* include/lazily/lossless_tree_crdt.hpp:508-527, LosslessTreeCrdt::dependencies_ready *)
Definition dependencies_ready (t : Tree) (op : TreeOp) : bool :=
  match op_kind op with
  | OpCreate _ parent _ _ => has_node t parent
  | OpTombstone node | OpReorder node _ => has_node t node
  | OpLeafEdit node prev _ | OpSplit node _ _ _ prev => has_node t node && frontier_contains (frontier_ t) prev
  | OpMerge l r pl pr => has_node t l && has_node t r && frontier_contains (frontier_ t) pl && frontier_contains (frontier_ t) pr
  end.

(* include/lazily/lossless_tree_crdt.hpp:573-656, LosslessTreeCrdt::apply_op *)
Definition apply_op (op : TreeOp) (t : Tree) (tx : Texts) : option (Tree * Texts) :=
  match op_kind op with
  | OpCreate id parent sort seed =>
      if has_node t id then Some (t, tx)
      else '(n, tx) ← seed_node id parent sort (op_id op) seed (id_peer id) tx; Some (add_child parent id (set_node id n t), tx)
  | OpTombstone node =>
      match nodes_ t !! node with
      | Some n => if match n_tomb n with None => true | Some d => id_ltb (op_id op) d end then Some (set_node node (with_tomb (op_id op) n) t, tx) else Some (t, tx)
      | None => Some (t, tx)
      end
  | OpReorder node sort =>
      match nodes_ t !! node with
      | Some n => if id_ltb (n_sort_stamp n) (op_id op) then Some (set_node node (with_sort sort (op_id op) n) t, tx) else Some (t, tx)
      | None => Some (t, tx)
      end
  | OpLeafEdit node _ ops =>
      match nodes_ t !! node with
      | Some n =>
          match n_is_leaf n, n_text n with
          | true, Some ref => x ← tx !! ref; Some (set_node node (with_text ref (op_id op) n) t, <[ref := (apply_delta x ops).2]> tx)
          | _, _ => Some (t, tx)
          end
      | None => Some (t, tx)
      end
  | OpSplit node new_id sort at_char _ =>
      match nodes_ t !! node with
      | Some n =>
          match n_is_leaf n, n_text n with
          | true, Some ref =>
              x ← tx !! ref; s ← text x;
              let pos := char_to_byte s at_char in
              '(href, tx) ← new_text (id_peer node) (take pos s) tx;
              let t := set_node node (with_text href (op_id op) n) t in
              '(tref, tx) ← new_text (id_peer new_id) (drop pos s) tx;
              let t := set_node new_id (tail_leaf new_id (n_parent n) sort (op_id op) (n_leaf_kind n) tref) t in
              Some (match n_parent n with Some p => add_child p new_id t | None => t end, tx)
          | _, _ => Some (t, tx)
          end
      | None => Some (t, tx)
      end
  | OpMerge l r _ _ =>
      if negb (both_leaves l r t) then Some (t, tx)
      else '(t, tx) ← joined l r (peer_ t) (op_id op) t tx; Some (entomb r (op_id op) t, tx)
  end.

(** One pass over the buffer; the boolean is [progressed]. *)
(* include/lazily/lossless_tree_crdt.hpp:490-500, LosslessTreeCrdt::drain_buffered (pass) *)
Fixpoint drain_pass (pending : list TreeOp) (progressed : bool) (t : Tree) (tx : Texts) : option (bool * Tree * Texts) :=
  match pending with
  | [] => Some (progressed, t, tx)
  | op :: pending =>
      if frontier_contains (frontier_ t) (op_id op) then drain_pass pending progressed t tx
      else if dependencies_ready t op then '(t, tx) ← apply_op op t tx; drain_pass pending true (record op t) tx
      else drain_pass pending progressed (set_buffered (buffered_ t ++ [op]) t) tx
  end.
(** A pass that progresses leaves a shorter buffer. *)
(* include/lazily/lossless_tree_crdt.hpp:485-503, LosslessTreeCrdt::drain_buffered *)
Fixpoint drain_buffered (fuel : nat) (t : Tree) (tx : Texts) : option (Tree * Texts) :=
  match fuel with
  | O => None
  | S fuel =>
      '(progressed, t, tx) ← drain_pass (buffered_ t) false (set_buffered [] t) tx;
      if (progressed : bool) then drain_buffered fuel t tx else Some (t, tx)
  end.
(* include/lazily/lossless_tree_crdt.hpp:432-439, LosslessTreeCrdt::apply_update (loop) *)
Fixpoint receive (ops : list TreeOp) (t : Tree) : Tree :=
  match ops with
  | [] => t
  | op :: ops =>
      let t := if counter_ t <? counter (op_id op) then set_counter (counter (op_id op)) t else t in
      receive ops (if frontier_contains (frontier_ t) (op_id op) then t else set_buffered (buffered_ t ++ [op]) t)
  end.
(* include/lazily/lossless_tree_crdt.hpp:431-441, LosslessTreeCrdt::apply_update *)
Definition apply_update (ops : list TreeOp) (t : Tree) (tx : Texts) : option (Tree * Texts) :=
  let t := receive ops t in drain_buffered (S (length (buffered_ t))) t tx.

(** The copy points to the same leaf texts. *)
(* include/lazily/lossless_tree_crdt.hpp:451-461, LosslessTreeCrdt::fork *)
Definition tree_fork (t : Tree) (new_peer : Z) : Tree := mkTree new_peer (counter_ t) (nodes_ t) (children_ t) (log_ t) (frontier_ t) (buffered_ t).
