(* ===== verification/TreeConverge.v ===== *)
(** * TreeConverge: replicas of the tree of leaves

    What the operations of LosslessTree.v keep true and what an exchange brings
    about.  [tables] relates the nodes, children and leaf texts of a replica to
    its log; every operation keeps it, [apply_op] by [apply_fresh] and the local
    ones by the lemmas of "Local operations".  Of the buffer it is shown that the
    loop ends, loses nothing and keeps only what cannot be applied yet.  Two
    replicas with the same log show the same tree ([same_node] and the lemmas
    after it), and an exchange makes the logs the same ([catch_up]).

    Splits and merges of leaves are outside these theorems: they give texts to
    peers in a way the replicas do not share, see the last part of the file. *)
From S2P Require Import Prelude TextCrdt LosslessTree.
#[local] Open Scope Z_scope.

(** ** Frontiers hold what they have observed *)

Lemma compact_contains fuel : ∀ d n, dots_contain (compact fuel d) n = dots_contain d n.
Proof.
  induction fuel as [|fuel IH]; intros d n; simpl; [done|]. case_bool_decide as E; [|done]. rewrite IH. unfold dots_contain. simpl.
  apply eq_bool_prop_intro. rewrite !orb_True, !bool_decide_spec, !Is_true_true, !Z.leb_le. rewrite elem_of_difference, elem_of_singleton.
  destruct (decide (n = contiguous d + 1)) as [->|]; [split; [by right|left; lia]|]. split; [intros [?|[? _]]|intros [?|?]]; [left; lia|by right|left; lia|by right].
Qed.
Lemma dots_observe_contains d n m : dots_contain (dots_observe d n) m = dots_contain d m || (m =? n) || ((m <=? contiguous d) && (n =? m)).
Proof.
  unfold dots_observe. destruct (Z.leb_spec n (contiguous d)) as [Hn|Hn].
  - unfold dots_contain. destruct (Z.eqb_spec m n) as [->|]; [rewrite (proj2 (Z.leb_le n (contiguous d)) Hn); done|].
    rewrite (proj2 (Z.eqb_neq n m)) by done. by rewrite andb_false_r, !orb_false_r.
  - rewrite compact_contains. unfold dots_contain. simpl. destruct (Z.eqb_spec n m) as [->|Hne].
    + rewrite Z.eqb_refl, bool_decide_true by set_solver. by rewrite !orb_true_r.
    + rewrite (proj2 (Z.eqb_neq m n)) by done. rewrite andb_false_r, !orb_false_r. f_equal. apply bool_decide_ext. set_solver.
Qed.
Lemma frontier_observe_contains f id id' : 0 < counter id' → frontier_contains (frontier_observe f id) id' = true ↔ frontier_contains f id' = true ∨ id' = id.
Proof.
  intros Hpos. unfold frontier_contains, frontier_observe. destruct (decide (id_peer id' = id_peer id)) as [E|E].
  - rewrite E, lookup_insert_eq, dots_observe_contains. set (d := default no_dots _).
    assert (Hd : dots_contain d (counter id') = true ↔ match (f : gmap Z TreeDotRange) !! id_peer id with Some d => dots_contain d (counter id') | None => false end = true).
    { unfold d. destruct ((f : gmap Z TreeDotRange) !! id_peer id); [done|]. unfold dots_contain. simpl. rewrite orb_true_iff, Z.leb_le, bool_decide_eq_true. set_solver by lia. }
    rewrite !orb_true_iff, andb_true_iff, Hd, !Z.eqb_eq. split.
    + intros [[?|?]|[_ ?]]; [by left|right; by apply id_eq|right; by apply id_eq].
    + intros [?| ->]; [by left; left|left; by right].
  - rewrite lookup_insert_ne by done. split; [by left|]. intros [?| ->]; [done|]. by destruct E.
Qed.

(** ** The plain operations *)

(** An operation as a replica makes it, splits and merges apart. *)
Definition valid_tree_op (op : TreeOp) : Prop :=
  0 < counter (op_id op) ∧
  match op_kind op with
  | OpCreate id parent sort seed => id = op_id op ∧ id_lt parent id ∧ frac sort ≠ []
  | OpTombstone _ => True
  | OpReorder node sort => node ≠ kTreeRoot ∧ frac sort ≠ []
  | OpLeafEdit _ prev ops => 0 < counter prev ∧ Forall valid_op ops ∧ NoDup ops.*1
  | _ => False
  end.

(** What a list of operations says of a node: who made it, where it is placed
    and since when, and whether it is gone. *)
Definition created (l : list TreeOp) (id p : OpId) (s : TreeSortKey) (seed : TreeNodeSeed) : Prop := mkTreeOp id (OpCreate id p s seed) ∈ l.
Definition placed (l : list TreeOp) (id : OpId) (s : TreeSortKey) (st : OpId) : Prop :=
  (∃ p seed, st = id ∧ created l id p s seed) ∨ mkTreeOp st (OpReorder id s) ∈ l.
Definition buried (l : list TreeOp) (id : OpId) : Prop := ∃ st, mkTreeOp st (OpTombstone id) ∈ l.
Definition known_in (l : list TreeOp) (id : OpId) : Prop := ∃ op, op ∈ l ∧ op_id op = id.
Definition exists_in (l : list TreeOp) (id : OpId) : Prop := id = kTreeRoot ∨ ∃ p s seed, created l id p s seed.

(** What an operation needs to have come before. *)
Definition deps_in (l : list TreeOp) (op : TreeOp) : Prop :=
  match op_kind op with
  | OpCreate _ p _ _ => exists_in l p
  | OpTombstone n | OpReorder n _ => exists_in l n
  | OpLeafEdit n prev _ => exists_in l n ∧ known_in l prev
  | _ => False
  end.

(** The text a leaf starts with. *)
Definition seeded (p : Z) (s : list Z) : TextCrdt := default (text_new p) (insert_str (text_new p) 0 s).
(** What an operation says about the text of a leaf. *)
Definition source_of (id : OpId) (op : TreeOp) : option (gmap OpId TextElem) :=
  match op_kind op with
  | OpCreate i _ _ (SeedLeaf _ s) => if decide (i = id) then Some (elems (seeded (id_peer id) s)) else None
  | OpLeafEdit i _ ops => if decide (i = id) then Some (list_to_map ops) else None
  | _ => None
  end.
Definition source (l : list TreeOp) (id : OpId) (m : gmap OpId TextElem) : Prop := ∃ op, op ∈ l ∧ source_of id op = Some m.

(** The elements are those of the sources, each with the least tombstone. *)
Record text_of (P : gmap OpId TextElem → Prop) (el : gmap OpId TextElem) : Prop := {
  to_dom : ∀ j, is_Some (el !! j) ↔ ∃ m, P m ∧ is_Some (m !! j);
  to_from : ∀ j e, el !! j = Some e → ∃ m e', P m ∧ m !! j = Some e' ∧ ch e = ch e' ∧ origin e = origin e';
  to_dead : ∀ j e d, el !! j = Some e → deleted e = Some d → ∃ m e', P m ∧ m !! j = Some e' ∧ deleted e' = Some d;
  to_least : ∀ j e m e' d', el !! j = Some e → P m → m !! j = Some e' → deleted e' = Some d' → ∃ d, deleted e = Some d ∧ (d = d' ∨ id_lt d d') }.

Definition seed_shape (seed : TreeNodeSeed) (n : TreeNode) : Prop :=
  match seed with
  | SeedElement k => n_is_leaf n = false ∧ n_leaf_kind n = Token ∧ n_element_kind n = k
  | SeedLeaf k _ => n_is_leaf n = true ∧ n_leaf_kind n = k ∧ n_element_kind n = []
  end.

(** What the log says of a node. *)
Definition made_as (l : list TreeOp) (id : OpId) (n : TreeNode) : Prop := ∃ p s seed, created l id p s seed ∧ n_parent n = Some p ∧ seed_shape seed n.
Definition placed_as (l : list TreeOp) (id : OpId) (n : TreeNode) : Prop :=
  placed l id (n_sort n) (n_sort_stamp n) ∧ ∀ s st, placed l id s st → st = n_sort_stamp n ∨ id_lt st (n_sort_stamp n).
Definition tomb_is (l : list TreeOp) (id : OpId) (n : TreeNode) : Prop := is_Some (n_tomb n) ↔ buried l id.
Definition text_is (l : list TreeOp) (tx : Texts) (id : OpId) (n : TreeNode) : Prop :=
  n_is_leaf n = true → ∃ ref x, n_text n = Some ref ∧ tx !! ref = Some x ∧ text_ok x ∧ text_of (source l id) (elems x) ∧ 0 < counter (n_text_head n) ∧ known_in l (n_text_head n).

(** The tables say what the log says. *)
Record tables (l : list TreeOp) (ns : gmap OpId TreeNode) (cs : gmap OpId (list OpId)) (tx : Texts) : Prop := {
  tb_root : ∃ n, ns !! kTreeRoot = Some n ∧ n_parent n = None ∧ n_is_leaf n = false ∧ n_element_kind n = [114; 111; 111; 116] ∧ frac (n_sort n) ≠ [];
  tb_made : ∀ id n, ns !! id = Some n → id ≠ kTreeRoot → made_as l id n ∧ placed_as l id n;
  tb_tombs : ∀ id n, ns !! id = Some n → tomb_is l id n;
  tb_created : ∀ id, exists_in l id → is_Some (ns !! id);
  tb_children : ∀ p, NoDup (default [] (cs !! p)) ∧ ∀ c, c ∈ default [] (cs !! p) ↔ ∃ n, ns !! c = Some n ∧ n_parent n = Some p;
  tb_texts : ∀ id n, ns !! id = Some n → text_is l tx id n;
  tb_own : ∀ a b n m ref, ns !! a = Some n → ns !! b = Some m → n_is_leaf n = true → n_is_leaf m = true → n_text n = Some ref → n_text m = Some ref → a = b }.

Record log_inv (t : Tree) : Prop := {
  li_valid : Forall valid_tree_op (log_ t);
  li_unique : NoDup (op_id <$> log_ t);
  li_causal : ∀ l1 op l2, log_ t = l1 ++ op :: l2 → deps_in l1 op;
  li_frontier : ∀ id, 0 < counter id → frontier_contains (frontier_ t) id = true ↔ known_in (log_ t) id;
  li_counter : 0 ≤ counter_ t ∧ ∀ op, op ∈ log_ t → counter (op_id op) ≤ counter_ t }.

Definition tree_inv (t : Tree) (tx : Texts) : Prop := log_inv t ∧ tables (log_ t) (nodes_ t) (children_ t) tx.

(** *** One operation more *)

Lemma created_snoc l op id p s seed : created (l ++ [op]) id p s seed ↔ created l id p s seed ∨ op = mkTreeOp id (OpCreate id p s seed).
Proof. unfold created. rewrite elem_of_app, list_elem_of_singleton. naive_solver. Qed.
Lemma placed_snoc l op id s st : placed (l ++ [op]) id s st ↔
  placed l id s st ∨ (st = id ∧ ∃ p seed, op = mkTreeOp id (OpCreate id p s seed)) ∨ op = mkTreeOp st (OpReorder id s).
Proof.
  unfold placed. setoid_rewrite created_snoc. rewrite elem_of_app, list_elem_of_singleton. split.
  - intros [(p & seed & -> & [Hc|E])|[Hr|E]]; [left; left; eauto|right; left; eauto|left; by right|right; by right].
  - intros [[(p & seed & -> & Hc)|Hr]|[(-> & p & seed & E)|E]]; [left; eauto 6|right; by left|left; eauto 6|right; by right].
Qed.
Lemma buried_snoc l op id : buried (l ++ [op]) id ↔ buried l id ∨ ∃ st, op = mkTreeOp st (OpTombstone id).
Proof. unfold buried. setoid_rewrite elem_of_app. setoid_rewrite list_elem_of_singleton. naive_solver. Qed.
Lemma source_snoc l op id m : source (l ++ [op]) id m ↔ source l id m ∨ source_of id op = Some m.
Proof. unfold source. setoid_rewrite elem_of_app. setoid_rewrite list_elem_of_singleton. naive_solver. Qed.
Lemma known_snoc l op id : known_in (l ++ [op]) id ↔ known_in l id ∨ id = op_id op.
Proof. unfold known_in. setoid_rewrite elem_of_app. setoid_rewrite list_elem_of_singleton. naive_solver. Qed.
Lemma exists_snoc l op id : exists_in (l ++ [op]) id ↔ exists_in l id ∨ ∃ p s seed, op = mkTreeOp id (OpCreate id p s seed).
Proof. unfold exists_in. setoid_rewrite created_snoc. naive_solver. Qed.

(** The operation is about another node. *)
Definition op_node (op : TreeOp) : option OpId :=
  match op_kind op with OpCreate id _ _ _ => Some id | OpTombstone id | OpReorder id _ | OpLeafEdit id _ _ => Some id | _ => None end.

Lemma made_snoc l op id n : made_as l id n → made_as (l ++ [op]) id n.
Proof. intros (p & s & seed & Hc & ?). exists p, s, seed. split; [apply created_snoc; by left|done]. Qed.
Lemma placed_as_snoc l op id n : placed_as l id n → (∀ s st, op ≠ mkTreeOp st (OpReorder id s)) → (∀ p s seed, op ≠ mkTreeOp id (OpCreate id p s seed)) → placed_as (l ++ [op]) id n.
Proof.
  intros [Hp Hl] Hr Hc. split; [apply placed_snoc; by left|]. intros s st [Hp'|[(_ & p' & seed' & E)|E]]%placed_snoc; [eauto|by edestruct Hc|by edestruct Hr].
Qed.
Lemma tomb_is_snoc l op id n : tomb_is l id n → (∀ st, op ≠ mkTreeOp st (OpTombstone id)) → tomb_is (l ++ [op]) id n.
Proof. unfold tomb_is. intros Ht Hop. rewrite buried_snoc, Ht. naive_solver. Qed.
Lemma text_of_ext (P Q : gmap OpId TextElem → Prop) el : text_of P el → (∀ m, Q m ↔ P m) → text_of Q el.
Proof. intros [T1 T2 T3 T4] Hm. split; repeat setoid_rewrite Hm; done. Qed.
Lemma text_is_snoc l op tx id n : text_is l tx id n → source_of id op = None → text_is (l ++ [op]) tx id n.
Proof.
  intros Ht Hs Hl. destruct (Ht Hl) as (ref & x & ? & ? & ? & ? & ? & ?). exists ref, x. split_and!; [done..| |done|apply known_snoc; by left].
  eapply text_of_ext; [done|]. intros m. rewrite source_snoc, Hs. naive_solver.
Qed.
Lemma others_untouched op id : op_node op ≠ Some id → source_of id op = None ∧ (∀ st, op ≠ mkTreeOp st (OpTombstone id)) ∧ (∀ s st, op ≠ mkTreeOp st (OpReorder id s)) ∧ (∀ p s seed, op ≠ mkTreeOp id (OpCreate id p s seed)).
Proof.
  intros Hop. split_and!; [|by intros * ->..]. unfold source_of, op_node in *. destruct (op_kind op) as [i ? ? [|]|?|? ?|i ? ?| |]; try done; rewrite decide_False; congruence.
Qed.

(** One node of an operation that makes none changes. *)
Lemma tables_update l op id n n' ns cs tx tx' :
  tables l ns cs tx → op_node op = Some id → (∀ p s seed, op ≠ mkTreeOp id (OpCreate id p s seed)) → ns !! id = Some n →
  n_parent n' = n_parent n → n_is_leaf n' = n_is_leaf n → n_leaf_kind n' = n_leaf_kind n → n_element_kind n' = n_element_kind n →
  frac (n_sort n') ≠ [] → (id ≠ kTreeRoot → placed_as (l ++ [op]) id n') → tomb_is (l ++ [op]) id n' → text_is (l ++ [op]) tx' id n' →
  (∀ ref x, tx !! ref = Some x → (n_is_leaf n = true → n_text n ≠ Some ref) → tx' !! ref = Some x) →
  (n_is_leaf n = true → n_text n' = n_text n ∨ n_text n' = Some (length tx)) →
  tables (l ++ [op]) (<[id := n']> ns) cs tx'.
Proof.
  intros Ht Hop Hno Hn Hpar Hleaf Hlk Hek Hfr Hpl Htomb Htext Hkeep Hfresh.
  assert (Hoth : ∀ i, i ≠ id → source_of i op = None ∧ (∀ st, op ≠ mkTreeOp st (OpTombstone i)) ∧ (∀ s st, op ≠ mkTreeOp st (OpReorder i s)) ∧ (∀ p s seed, op ≠ mkTreeOp i (OpCreate i p s seed))).
  { intros i Hi. apply others_untouched. congruence. }
  assert (Hrefs : ∀ a m, a ≠ id → ns !! a = Some m → n_is_leaf m = true → ∀ ref, n_text m = Some ref → (ref < length tx)%nat ∧ (n_is_leaf n = true → n_text n ≠ Some ref)).
  { intros a m Ha Hm Hl ref Hr. destruct (tb_texts _ _ _ _ Ht _ _ Hm Hl) as (ref' & x & E1 & E2 & _). assert (ref' = ref) as -> by congruence.
    split; [by eapply lookup_lt_Some|]. intros Hln Hrn. apply Ha. by eapply (tb_own _ _ _ _ Ht). }
  assert (Hsome : ∀ i, is_Some (<[id := n']> ns !! i) ↔ is_Some (ns !! i)).
  { intros i. destruct (decide (i = id)) as [->|]; [rewrite lookup_insert_eq, Hn; split; eauto|by rewrite lookup_insert_ne]. }
  split.
  - destruct (tb_root _ _ _ _ Ht) as (r & Hr & R1 & R2 & R3 & R4). destruct (decide (id = kTreeRoot)) as [->|].
    + exists n'. rewrite lookup_insert_eq. simplify_eq. split_and!; congruence.
    + exists r. by rewrite lookup_insert_ne.
  - intros i m [[<- <-]|[Hi Hm]]%lookup_insert_Some Hroot.
    + destruct (tb_made _ _ _ _ Ht _ _ Hn Hroot) as [(p & s & seed & Hc & Hp & Hs) _]. split; [|by apply Hpl]. apply made_snoc. exists p, s, seed.
      split_and!; [done|congruence|]. unfold seed_shape in *. destruct seed; by rewrite Hleaf, Hlk, Hek.
    + destruct (tb_made _ _ _ _ Ht _ _ Hm Hroot). split; [by apply made_snoc|]. apply placed_as_snoc; [done|apply Hoth; congruence..].
  - intros i m [[<- <-]|[Hi Hm]]%lookup_insert_Some; [done|]. apply tomb_is_snoc; [by eapply tb_tombs|apply Hoth; congruence].
  - intros i Hi. apply Hsome. apply (tb_created _ _ _ _ Ht). apply exists_snoc in Hi as [Hi|(p & s & seed & ->)]; [done|].
    injection Hop as <-. by edestruct Hno.
  - intros p. destruct (tb_children _ _ _ _ Ht p) as [Hnd Hc]. split; [done|]. intros c. rewrite Hc. destruct (decide (c = id)) as [->|]; [|by rewrite lookup_insert_ne].
    rewrite lookup_insert_eq, Hn. split; intros (m & [= <-] & Hp); eexists; (split; [done|congruence]).
  - intros i m [[<- <-]|[Hi Hm]]%lookup_insert_Some; [done|]. intros Hl. assert (Hi' : i ≠ id) by congruence.
    destruct (text_is_snoc l op tx i m (tb_texts _ _ _ _ Ht _ _ Hm) (proj1 (Hoth i Hi')) Hl) as (ref & x & E1 & E2 & Hx). exists ref, x. split; [done|]. split; [|done].
    apply Hkeep; [done|]. by eapply Hrefs.
  - intros a b m1 m2 ref [[<- <-]|[Ha Hm1]]%lookup_insert_Some [[<- <-]|[Hb Hm2]]%lookup_insert_Some L1 L2 R1 R2; [done|..|by eapply (tb_own _ _ _ _ Ht)].
    + exfalso. rewrite Hleaf in L1. destruct (Hrefs b m2 ltac:(congruence) Hm2 L2 ref R2) as [Hlt Hne]. destruct (Hfresh L1) as [E|E]; [apply (Hne L1); congruence|].
      rewrite E in R1. simplify_eq. lia.
    + exfalso. rewrite Hleaf in L2. destruct (Hrefs a m1 ltac:(congruence) Hm1 L1 ref R1) as [Hlt Hne]. destruct (Hfresh L2) as [E|E]; [apply (Hne L2); congruence|].
      rewrite E in R2. simplify_eq. lia.
Qed.

(** Where the node stays: nothing is said of its place. *)
Lemma placed_as_same l op id n n' : placed_as l id n → n_sort n' = n_sort n → n_sort_stamp n' = n_sort_stamp n →
  (∀ s st, op ≠ mkTreeOp st (OpReorder id s)) → (∀ p s seed, op ≠ mkTreeOp id (OpCreate id p s seed)) → placed_as (l ++ [op]) id n'.
Proof. intros Hp E1 E2 Hr Hc. destruct (placed_as_snoc l op id n Hp Hr Hc). unfold placed_as. rewrite E1, E2. by split. Qed.
Lemma tables_frac l ns cs tx id n : Forall valid_tree_op l → tables l ns cs tx → ns !! id = Some n → frac (n_sort n) ≠ [].
Proof.
  intros Hv Ht Hn. destruct (decide (id = kTreeRoot)) as [->|Hr].
  - destruct (tb_root _ _ _ _ Ht) as (r & Hr & _ & _ & _ & ?). by simplify_eq.
  - destruct (tb_made _ _ _ _ Ht _ _ Hn Hr) as [_ [[(p & seed & _ & Hc)|Hc] _]]; rewrite Forall_forall in Hv; apply Hv in Hc; simpl in Hc; apply Hc.
Qed.

Lemma tables_tombstone l ns cs tx id st n n' : Forall valid_tree_op l → tables l ns cs tx → ns !! id = Some n →
  (∃ d, n' = with_tomb d n) ∨ (n' = n ∧ is_Some (n_tomb n)) → tables (l ++ [mkTreeOp st (OpTombstone id)]) (<[id := n']> ns) cs tx.
Proof.
  intros Hv Ht Hn Hn'. pose proof (tables_frac _ _ _ _ _ _ Hv Ht Hn).
  assert (Hsame : n_parent n' = n_parent n ∧ n_is_leaf n' = n_is_leaf n ∧ n_leaf_kind n' = n_leaf_kind n ∧ n_element_kind n' = n_element_kind n ∧
    n_sort n' = n_sort n ∧ n_sort_stamp n' = n_sort_stamp n ∧ n_text n' = n_text n ∧ n_text_head n' = n_text_head n ∧ is_Some (n_tomb n')).
  { destruct Hn' as [[d ->]|[-> ?]]; split_and!; done. }
  destruct Hsame as (E1 & E2 & E3 & E4 & E5 & E6 & E7 & E8 & Hdead). eapply (tables_update l (mkTreeOp st (OpTombstone id)) id n n' ns cs tx tx Ht); try done.
  - congruence.
  - intros Hr. eapply placed_as_same; [by eapply (tb_made _ _ _ _ Ht)|done..].
  - split; [|done]. intros _. apply buried_snoc. right. eauto.
  - intros Hl. rewrite E2 in Hl. destruct (text_is_snoc l (mkTreeOp st (OpTombstone id)) tx id n (tb_texts _ _ _ _ Ht _ _ Hn) eq_refl Hl) as (ref & x & Hx). exists ref, x. by rewrite E7, E8.
  - by left.
Qed.

Lemma tables_reorder l ns cs tx id st s n n' : Forall valid_tree_op (l ++ [mkTreeOp st (OpReorder id s)]) → tables l ns cs tx → ns !! id = Some n → ¬ known_in l st →
  (id_lt (n_sort_stamp n) st ∧ n' = with_sort s st n) ∨ (¬ id_lt (n_sort_stamp n) st ∧ n' = n) →
  tables (l ++ [mkTreeOp st (OpReorder id s)]) (<[id := n']> ns) cs tx.
Proof.
  intros [Hv Hop]%Forall_app Ht Hn Hnew Hn'. rewrite Forall_singleton in Hop. pose proof (tables_frac _ _ _ _ _ _ Hv Ht Hn).
  assert (Hroot : id ≠ kTreeRoot) by apply Hop. assert (Hs : frac s ≠ []) by apply Hop.
  assert (Hsame : n_parent n' = n_parent n ∧ n_is_leaf n' = n_is_leaf n ∧ n_leaf_kind n' = n_leaf_kind n ∧ n_element_kind n' = n_element_kind n ∧
    n_tomb n' = n_tomb n ∧ n_text n' = n_text n ∧ n_text_head n' = n_text_head n).
  { by destruct Hn' as [[_ ->]|[_ ->]]. }
  destruct Hsame as (E1 & E2 & E3 & E4 & E5 & E6 & E7). eapply (tables_update l (mkTreeOp st (OpReorder id s)) id n n' ns cs tx tx Ht); try done.
  - by destruct Hn' as [[_ ->]|[_ ->]].
  - intros _. destruct (tb_made _ _ _ _ Ht _ _ Hn Hroot) as [_ [Hp Hl]]. destruct Hn' as [[Hlt ->]|[Hlt ->]]; split; simpl.
    + apply placed_snoc. by right; right.
    + intros s' st' [Hp'|[(_ & ? & ? & ?)|[= ->]]]%placed_snoc; [|done|by left]. right. destruct (Hl _ _ Hp') as [->|]; [done|]. by eapply id_lt_trans.
    + apply placed_snoc. by left.
    + intros s' st' [Hp'|[(_ & ? & ? & ?)|[= <- <-]]]%placed_snoc; [eauto|done|].
      assert (Hk : known_in l (n_sort_stamp n)) by (destruct Hp as [(p & seed & -> & Hc)|Hc]; eexists; (split; [exact Hc|done])).
      assert (Hne : st ≠ n_sort_stamp n) by (by intros ->). right. destruct (decide (counter st = counter (n_sort_stamp n))); [destruct (decide (id_peer st = id_peer (n_sort_stamp n)))|]; unfold id_lt in *; [by destruct Hne; apply id_eq|lia|lia].
  - unfold tomb_is. rewrite E5. apply tomb_is_snoc; [by eapply tb_tombs|done].
  - intros Hl. rewrite E2 in Hl. destruct (text_is_snoc l (mkTreeOp st (OpReorder id s)) tx id n (tb_texts _ _ _ _ Ht _ _ Hn) eq_refl Hl) as (ref & x & Hx). exists ref, x. by rewrite E6, E7.
  - by left.
Qed.

(** *** Texts *)

(** Elements are added, and those there keep what they are; the new tombstones
    are on elements which had none. *)
Definition grows (el el' : gmap OpId TextElem) : Prop :=
  ∀ j e, el !! j = Some e → ∃ e', el' !! j = Some e' ∧ ch e' = ch e ∧ origin e' = origin e ∧ ∀ d, deleted e = Some d → deleted e' = Some d.
Lemma grows_refl el : grows el el.
Proof. intros j e He. by exists e. Qed.
Lemma grows_trans a b c : grows a b → grows b c → grows a c.
Proof.
  intros Hab Hbc j e He. destruct (Hab j e He) as (e1 & He1 & A1 & A2 & A3). destruct (Hbc j e1 He1) as (e2 & He2 & B1 & B2 & B3).
  exists e2. split_and!; [done|congruence..|]. intros d Hd. by apply B3, A3.
Qed.

Lemma insert_grows t i c : text_ok t → ∃ t', text_insert t i [c] = Some t' ∧ text_ok t' ∧ grows (elems t) (elems t').
Proof.
  intros Ht. destruct (text_insert_ok t i [c] Ht ltac:(done)) as (t' & n & E & Hok & Hn & Hel & _). exists t'. split_and!; [done..|].
  intros j e He. exists e. split_and!; [|done..]. rewrite Hel, lookup_insert_ne; [done|congruence].
Qed.
Lemma insert_str_grows s : ∀ t i, text_ok t → ∃ t', insert_str t i s = Some t' ∧ text_ok t' ∧ grows (elems t) (elems t').
Proof.
  induction s as [|c s IH]; intros t i Ht; [exists t; split_and!; [done..|apply grows_refl]|]. destruct (insert_grows t i c Ht) as (t1 & E1 & Ht1 & G1).
  destruct (IH t1 (S i) Ht1) as (t2 & E2 & Ht2 & G2). exists t2. split_and!; [cbn [insert_str]; by rewrite E1|done|by eapply grows_trans].
Qed.
Lemma document_live el x : valid_elems el → x ∈ document el → ∃ e, el !! x = Some e ∧ deleted e = None.
Proof.
  intros Hv. unfold document. generalize kTextRootKey as k. intros k. induction k as [k IH] using (key_ind el Hv). rewrite (under_eq el Hv), list_elem_of_bind.
  intros (c & [Hx|Hx]%elem_of_app & Hc%elem_of_kids); [|by apply (IH c)]. unfold shown in Hx. destruct (el !! c) as [e|] eqn:Ec; [|set_solver].
  destruct (deleted e) eqn:Ed; [set_solver|]. apply list_elem_of_singleton in Hx as ->. eauto.
Qed.
Lemma del_grows t i : text_ok t → ∃ t', text_del t i = Some t' ∧ text_ok t' ∧ grows (elems t) (elems t').
Proof.
  intros Ht. destruct (text_del_ok t i Ht) as (t' & E & Hok & _ & _). exists t'. split_and!; [done..|]. destruct Ht as [Hw Hc].
  unfold text_del in E. destruct (ensure_ok t Hw Hc) as (t1 & E1 & ->). rewrite E1 in E. simpl in E.
  destruct (document (elems t) !! i) as [x|] eqn:Ex; simplify_eq; [|apply grows_refl]. simpl.
  assert (Hx : ∃ e, elems t !! x = Some e ∧ deleted e = None) by (apply document_live; [apply Hw|]; by eapply list_elem_of_lookup_2).
  destruct Hx as (ex & Hex & Hlive). intros j e He. destruct (decide (j = x)) as [->|Hj].
  - rewrite lookup_alter_eq, He. eexists. split; [done|]. simpl. split_and!; [done..|]. intros d Hd. congruence.
  - rewrite lookup_alter_ne by done. by exists e.
Qed.
Lemma delete_at_grows n : ∀ pos t, text_ok t → ∃ t', delete_at n pos t = Some t' ∧ text_ok t' ∧ grows (elems t) (elems t').
Proof.
  induction n as [|n IH]; intros pos t Ht; [exists t; split_and!; [done..|apply grows_refl]|]. cbn [delete_at].
  unfold visible_len. rewrite visible_ids_ok by done. simpl. case_match; [|exists t; split_and!; [done..|apply grows_refl]].
  destruct (del_grows t pos Ht) as (t1 & E1 & Ht1 & G1). destruct (IH pos t1 Ht1) as (t2 & E2 & Ht2 & G2). exists t2. rewrite E1. split_and!; [done..|by eapply grows_trans].
Qed.

(** A text that has grown is what its sources and itself say. *)
Lemma text_of_grown (P Q : gmap OpId TextElem → Prop) el el' : text_of P el → grows el el' → (∀ m, Q m ↔ P m ∨ m = el') → text_of Q el'.
Proof.
  intros [T1 T2 T3 T4] Hg HQ. split.
  - intros j. split; [intros He; exists el'; split; [apply HQ; by right|done]|]. intros (m & [Hm| ->]%HQ & Hj); [|done].
    destruct (proj2 (T1 j)) as [e He]; [by exists m|]. destruct (Hg _ _ He) as (e' & ? & _). eauto.
  - intros j e He. exists el', e. split_and!; [apply HQ; by right|done..].
  - intros j e d He Hd. exists el', e. split_and!; [apply HQ; by right|done..].
  - intros j e m e1 d1 He [Hm| ->]%HQ Hj Hd; [|simplify_eq; eauto]. destruct (proj2 (T1 j)) as [e0 He0]; [exists m; by split; [|eauto]|].
    destruct (Hg _ _ He0) as (e' & He' & _ & _ & Hk). simplify_eq. destruct (T4 _ _ _ _ _ He0 Hm Hj Hd) as (d & Hd0 & Hle). exists d. split; [by apply Hk|done].
Qed.
(** A text that has taken in a source. *)
Lemma text_of_joined (P Q : gmap OpId TextElem → Prop) el el' m0 : text_of P el → (∀ j, el' !! j = join_opt (el !! j) (m0 !! j)) → (∀ m, Q m ↔ P m ∨ m = m0) → text_of Q el'.
Proof.
  intros [T1 T2 T3 T4] Hel HQ.
  assert (Hj : ∀ j e', el' !! j = Some e' → (∃ e, el !! j = Some e ∧ m0 !! j = None ∧ e' = e) ∨ (∃ e, el !! j = None ∧ m0 !! j = Some e ∧ e' = e) ∨
    ∃ e em, el !! j = Some e ∧ m0 !! j = Some em ∧ e' = mkElem (ch e) (origin e) (tomb (deleted e) (deleted em))).
  { intros j e' He'. rewrite Hel in He'. unfold join_opt in He'. destruct (el !! j) as [e|], (m0 !! j) as [em|]; simpl in He'; simplify_eq.
    - right; right. exists e, em. by rewrite join_elem_eq.
    - left; eauto.
    - right; left; eauto. }
  split.
  - intros j. rewrite Hel. split.
    + intros Hs. unfold join_opt in Hs. destruct (m0 !! j) as [em|] eqn:E; [exists m0; rewrite HQ, E; eauto|]. destruct (el !! j) as [e|] eqn:E'; [|by destruct Hs].
      destruct (proj1 (T1 j)) as (m & Hm & Hmj); [eauto|]. exists m. rewrite HQ. by split; [left|].
    + intros (m & [Hm| ->]%HQ & Hmj); unfold join_opt; [|destruct Hmj as [em ->]; destruct (el !! j); simpl; eauto].
      destruct (proj2 (T1 j)) as [e ->]; [eauto|]. destruct (m0 !! j); simpl; eauto.
  - intros j e' [(e & He & _ & ->)|[(e & _ & He & ->)|(e & em & He & _ & ->)]]%Hj.
    + destruct (T2 _ _ He) as (m & e1 & Hm & ?). exists m, e1. rewrite HQ. eauto.
    + exists m0, e. rewrite HQ. eauto.
    + destruct (T2 _ _ He) as (m & e1 & Hm & ?). exists m, e1. rewrite HQ. eauto.
  - intros j e' d [(e & He & _ & ->)|[(e & _ & He & ->)|(e & em & He & Hem & ->)]]%Hj Hd.
    + destruct (T3 _ _ _ He Hd) as (m & e1 & Hm & ?). exists m, e1. rewrite HQ. eauto.
    + exists m0, e. rewrite HQ. eauto.
    + simpl in Hd. assert (Hcase : deleted e = Some d ∨ deleted em = Some d).
      { unfold tomb, sticky in Hd. destruct (deleted em) as [dm|]; [|by left]. destruct (deleted e) as [de|]; [|by right]. destruct (id_ltb dm de); [by right|by left]. }
      destruct Hcase as [Hd'|Hd']; [|exists m0, em; rewrite HQ; eauto]. destruct (T3 _ _ _ He Hd') as (m & e1 & Hm & ?). exists m, e1. rewrite HQ. eauto.
  - intros j e' m e1 d1 He' Hm Hmj Hd1. apply Hj in He' as [(e & He & Hn & ->)|[(e & Hn & He & ->)|(e & em & He & Hem & ->)]].
    + apply HQ in Hm as [Hm| ->]; [eauto|congruence].
    + apply HQ in Hm as [Hm| ->]; [|simplify_eq; eauto]. destruct (proj2 (T1 j)) as [e2 ?]; [exists m; by split; [|eauto]|congruence].
    + simpl. apply HQ in Hm as [Hm| ->].
      * destruct (T4 _ _ _ _ _ He Hm Hmj Hd1) as (d & -> & Hle). destruct (deleted em) as [dm|]; simpl; [|eauto]. destruct (id_ltb dm d) eqn:El; [|eauto].
        apply id_ltb_lt in El. exists dm. split; [done|]. right. destruct Hle as [->|]; [done|by eapply id_lt_trans].
      * simplify_eq. rewrite Hd1. simpl. destruct (deleted e) as [d|]; simpl; [|eauto]. destruct (id_ltb d1 d) eqn:El; [eauto|]. exists d. split; [done|].
        apply id_ltb_ge in El. destruct (decide (counter d = counter d1)); [destruct (decide (id_peer d = id_peer d1)); [left; by apply id_eq|]|]; right; unfold id_lt in *; lia.
Qed.
(** The sources decide the text, when they agree on what an id stands for. *)
Definition agreeing (P : gmap OpId TextElem → Prop) : Prop :=
  ∀ m m' j e e', P m → P m' → m !! j = Some e → m' !! j = Some e' → ch e = ch e' ∧ origin e = origin e'.
Lemma text_of_unique P el el' : agreeing P → text_of P el → text_of P el' → el = el'.
Proof.
  intros Hag [A1 A2 A3 A4] [B1 B2 B3 B4]. apply map_eq. intros j.
  destruct (el !! j) as [e|] eqn:E, (el' !! j) as [e'|] eqn:E'; [|exfalso..|done].
  - f_equal. destruct (A2 _ _ E) as (m & em & Hm & Hmj & C1 & O1). destruct (B2 _ _ E') as (m' & em' & Hm' & Hmj' & C2 & O2).
    destruct (Hag _ _ _ _ _ Hm Hm' Hmj Hmj'). assert (Hd : deleted e = deleted e').
    { destruct (deleted e) as [d|] eqn:D.
      - destruct (A3 _ _ _ E D) as (k & ek & Hk & Hkj & Dk). destruct (B4 _ _ _ _ _ E' Hk Hkj Dk) as (d' & D' & Hle). rewrite D'. f_equal.
        destruct (B3 _ _ _ E' D') as (k' & ek' & Hk' & Hkj' & Dk'). destruct (A4 _ _ _ _ _ E Hk' Hkj' Dk') as (d2 & D2 & Hle').
        assert (d2 = d) as -> by congruence. destruct Hle as [?|Hle], Hle' as [?|Hle']; try done. by destruct (id_lt_irrefl d); eapply id_lt_trans.
      - destruct (deleted e') as [d'|] eqn:D'; [|done]. destruct (B3 _ _ _ E' D') as (k & ek & Hk & Hkj & Dk). destruct (A4 _ _ _ _ _ E Hk Hkj Dk) as (? & ? & _). congruence. }
    destruct e, e'. simpl in *. congruence.
  - destruct (proj2 (B1 j)) as [? ?]; [apply A1; eauto|congruence].
  - destruct (proj2 (A1 j)) as [? ?]; [apply B1; eauto|congruence].
Qed.

Lemma tables_leaf_edit l ns cs tx id st prev ops n ref x ref' x' tx' :
  Forall valid_tree_op (l ++ [mkTreeOp st (OpLeafEdit id prev ops)]) → tables l ns cs tx → ns !! id = Some n → n_is_leaf n = true → n_text n = Some ref → tx !! ref = Some x →
  text_ok x' → (text_of (source l id) (elems x) → text_of (source (l ++ [mkTreeOp st (OpLeafEdit id prev ops)]) id) (elems x')) →
  ref' = ref ∧ tx' = <[ref := x']> tx ∨ ref' = length tx ∧ tx' = tx ++ [x'] →
  tables (l ++ [mkTreeOp st (OpLeafEdit id prev ops)]) (<[id := with_text ref' st n]> ns) cs tx'.
Proof.
  intros [Hv Hop]%Forall_app Ht Hn Hl Hr Hx Hok Htext Hcase. rewrite Forall_singleton in Hop.
  assert (Hpos : 0 < counter st) by apply Hop.
  assert (Hlt : (ref < length tx)%nat) by (by eapply lookup_lt_Some).
  assert (Hx' : tx' !! ref' = Some x').
  { destruct Hcase as [[-> ->]|[-> ->]]; [by apply list_lookup_insert_eq|]. by rewrite lookup_app_r, Nat.sub_diag. }
  eapply (tables_update l _ id n _ ns cs tx tx' Ht); try done.
  - exact (tables_frac _ _ _ _ _ _ Hv Ht Hn).
  - intros Hroot. eapply placed_as_same; [by eapply (tb_made _ _ _ _ Ht)|done..].
  - apply tomb_is_snoc; [exact (tb_tombs _ _ _ _ Ht _ _ Hn)|done].
  - intros _. exists ref', x'. split_and!; [done..| |done|apply known_snoc; by right]. apply Htext.
    destruct (tb_texts _ _ _ _ Ht _ _ Hn Hl) as (? & ? & ? & ? & _ & ? & _). by simplify_eq.
  - intros r y Hy Hne. specialize (Hne Hl). destruct Hcase as [[-> ->]|[-> ->]]; [rewrite list_lookup_insert_ne; [done|congruence]|by apply lookup_app_l_Some].
  - intros _. destruct Hcase as [[-> _]|[-> _]]; [by left|by right].
Qed.

(** The operation does not concern a leaf: only the log grows. *)
Lemma tables_other l ns cs tx id st prev ops n :
  Forall valid_tree_op l → tables l ns cs tx → ns !! id = Some n → n_is_leaf n = false → tables (l ++ [mkTreeOp st (OpLeafEdit id prev ops)]) ns cs tx.
Proof.
  intros Hv Ht Hn Hl. rewrite <- (insert_id ns id n Hn). eapply (tables_update l _ id n _ ns cs tx tx Ht); try done.
  - exact (tables_frac _ _ _ _ _ _ Hv Ht Hn).
  - intros Hroot. eapply placed_as_same; [by eapply (tb_made _ _ _ _ Ht)|done..].
  - apply tomb_is_snoc; [exact (tb_tombs _ _ _ _ Ht _ _ Hn)|done].
  - intros Hl'. congruence.
  - by left.
Qed.

(** A seed makes a node and, for a leaf, its text. *)
Lemma seed_node_ok id p s seed peer tx : ∃ n tx', seed_node id p s id seed peer tx = Some (n, tx') ∧
  n_parent n = Some p ∧ n_sort n = s ∧ n_sort_stamp n = id ∧ n_tomb n = None ∧ seed_shape seed n ∧ (∀ r y, tx !! r = Some y → tx' !! r = Some y) ∧
  (n_is_leaf n = true → ∃ k str, seed = SeedLeaf k str ∧ n_text n = Some (length tx) ∧ n_text_head n = id ∧ tx' !! length tx = Some (seeded peer str) ∧ text_ok (seeded peer str)).
Proof.
  destruct seed as [k|k str]; unfold seed_node; [eexists _, _; by split_and!|].
  destruct (insert_str_grows str (text_new peer) 0 (text_new_ok peer)) as (x & E & Hok & _). assert (Hs : seeded peer str = x) by (unfold seeded; by rewrite E).
  unfold new_text. rewrite E. simpl. eexists _, _. split; [reflexivity|]. split_and!; try done.
  - intros r y Hy. simpl. by apply lookup_app_l_Some.
  - intros _. exists k, str. simpl. rewrite Hs. split_and!; try done. by rewrite lookup_app_r, Nat.sub_diag.
Qed.

Lemma tables_create l ns cs tx id p s seed n tx' :
  Forall valid_tree_op (l ++ [mkTreeOp id (OpCreate id p s seed)]) → tables l ns cs tx → ns !! id = None → (∀ op, op ∈ l → op_node op ≠ Some id) →
  seed_node id p s id seed (id_peer id) tx = Some (n, tx') →
  tables (l ++ [mkTreeOp id (OpCreate id p s seed)]) (<[id := n]> ns) (<[p := default [] (cs !! p) ++ [id]]> cs) tx'.
Proof.
  intros [Hv Hop]%Forall_app Ht Hn Hnew Hseed. rewrite Forall_singleton in Hop. destruct Hop as (Hpos & _ & Hlt & Hfr). simpl in Hpos, Hlt, Hfr.
  destruct (seed_node_ok id p s seed (id_peer id) tx) as (n' & tx'' & E & N1 & N2 & N3 & N4 & N5 & N6 & N7). rewrite Hseed in E. injection E as <- <-.
  set (op := mkTreeOp id (OpCreate id p s seed)). assert (Hroot : id ≠ kTreeRoot) by (intros ->; done).
  assert (Hoth : ∀ i, i ≠ id → source_of i op = None ∧ (∀ st, op ≠ mkTreeOp st (OpTombstone i)) ∧ (∀ s st, op ≠ mkTreeOp st (OpReorder i s)) ∧ (∀ p s seed, op ≠ mkTreeOp i (OpCreate i p s seed))).
  { intros i Hi. apply others_untouched. intros [= E]. congruence. }
  assert (Hrefs : ∀ a m ref, ns !! a = Some m → n_is_leaf m = true → n_text m = Some ref → (ref < length tx)%nat).
  { intros a m ref Hm Hl Hr. destruct (tb_texts _ _ _ _ Ht _ _ Hm Hl) as (ref' & x & E1 & E2 & _). simplify_eq. by eapply lookup_lt_Some. }
  split.
  - destruct (tb_root _ _ _ _ Ht) as (r & Hr & ?). exists r. by rewrite lookup_insert_ne.
  - intros i m [[<- <-]|[Hi Hm]]%lookup_insert_Some Hir.
    + split; [exists p, s, seed; split; [apply created_snoc; by right|done]|]. split.
      * apply placed_snoc. right; left. rewrite N2, N3. split; [done|]. by exists p, seed.
      * intros s' st [Hp|[(-> & _)|?]]%placed_snoc; [|rewrite N3; by left|done]. exfalso.
        destruct Hp as [(p' & seed' & _ & Hc)|Hc]; by eapply Hnew.
    + destruct (tb_made _ _ _ _ Ht _ _ Hm Hir). split; [by apply made_snoc|]. apply placed_as_snoc; [done|apply Hoth; congruence..].
  - intros i m [[<- <-]|[Hi Hm]]%lookup_insert_Some; [|apply tomb_is_snoc; [by eapply tb_tombs|apply Hoth; congruence]].
    unfold tomb_is. rewrite N4, buried_snoc. split; [by intros [? ?]|]. intros [[st Hb]|[st ?]]; [|done]. exfalso. by eapply Hnew.
  - intros i [Hi|(p' & s' & seed' & [= <- _ _ _])]%exists_snoc; [|rewrite lookup_insert_eq; eauto].
    destruct (decide (i = id)) as [->|]; [rewrite lookup_insert_eq; eauto|]. rewrite lookup_insert_ne by done. by apply (tb_created _ _ _ _ Ht).
  - intros q. destruct (tb_children _ _ _ _ Ht q) as [Hnd Hc].
    assert (Hid : id ∉ default [] (cs !! q)) by (rewrite Hc; intros (? & ? & _); congruence).
    assert (Hq : default [] (<[p:=default [] (cs !! p) ++ [id]]> cs !! q) = default [] (cs !! q) ++ if decide (q = p) then [id] else []).
    { case_decide as Hqp; [subst; by rewrite lookup_insert_eq|]. by rewrite lookup_insert_ne, app_nil_r. }
    rewrite Hq. split; [case_decide; [|by rewrite app_nil_r]; apply NoDup_app; split_and!; [done|set_solver|apply NoDup_singleton]|].
    intros c. rewrite elem_of_app, Hc. destruct (decide (c = id)) as [->|Hne].
    + rewrite lookup_insert_eq, Hn. split; [intros [(? & ? & _)|Hin]; [done|]|]; [case_decide; [subst|set_solver]; by exists n|].
      intros (m & [= <-] & Hm). right. rewrite decide_True by congruence. by left.
    + rewrite lookup_insert_ne by done. split; [intros [?|Hin]; [done|case_decide; set_solver]|by left].
  - intros i m [[<- <-]|[Hi Hm]]%lookup_insert_Some.
    + intros Hl. destruct (N7 Hl) as (k & str & -> & R1 & R2 & R3 & R4). exists (length tx), (seeded (id_peer id) str). rewrite R2. split_and!; try done; [|apply known_snoc; by right].
      assert (Hsrc : ∀ m, source (l ++ [op]) id m ↔ m = elems (seeded (id_peer id) str)).
      { intros m. rewrite source_snoc. simpl. unfold source_of. simpl. rewrite decide_True by done. split; [|intros ->; by right]. intros [(o & Ho & Hs)|[= <-]]; [|done].
        exfalso. apply (Hnew o Ho). destruct (decide (op_node o = Some id)) as [|Hne]; [done|]. apply others_untouched in Hne as [Hne _]. congruence. }
      split; setoid_rewrite Hsrc; [naive_solver..|]. intros j e ? e' d' He -> He' Hd'. simplify_eq. eauto.
    + intros Hl. destruct (text_is_snoc l op tx i m (tb_texts _ _ _ _ Ht _ _ Hm) (proj1 (Hoth i ltac:(congruence))) Hl) as (ref & x & E1 & E2 & Hx). exists ref, x. split; [done|]. split; [by apply N6|done].
  - intros a b m1 m2 ref [[<- <-]|[Ha Hm1]]%lookup_insert_Some [[<- <-]|[Hb Hm2]]%lookup_insert_Some L1 L2 R1 R2; [done|..|by eapply (tb_own _ _ _ _ Ht)].
    + destruct (N7 L1) as (? & ? & _ & R & _). pose proof (Hrefs _ _ _ Hm2 L2 R2). simplify_eq. lia.
    + destruct (N7 L2) as (? & ? & _ & R & _). pose proof (Hrefs _ _ _ Hm1 L1 R1). simplify_eq. lia.
Qed.

(** ** Taking an operation in *)

Record fresh_op (t : Tree) (op : TreeOp) : Prop := {
  fo_valid : valid_tree_op op;
  fo_new : ¬ known_in (log_ t) (op_id op);
  fo_deps : deps_in (log_ t) op;
  fo_counter : counter (op_id op) ≤ counter_ t }.

(** All but the tables is the same. *)
Definition same_log (t t' : Tree) : Prop :=
  peer_ t' = peer_ t ∧ counter_ t' = counter_ t ∧ log_ t' = log_ t ∧ frontier_ t' = frontier_ t ∧ buffered_ t' = buffered_ t.

Lemma exists_mono l l' id : l ⊆ l' → exists_in l id → exists_in l' id.
Proof. intros Hl [?|(p & s & seed & Hc)]; [by left|]. right. exists p, s, seed. by apply Hl. Qed.
Lemma known_mono l l' id : l ⊆ l' → known_in l id → known_in l' id.
Proof. intros Hl (o & Ho & ?). exists o. split; [by apply Hl|done]. Qed.
Lemma deps_mono l l' op : l ⊆ l' → deps_in l op → deps_in l' op.
Proof. intros Hl. unfold deps_in. destruct (op_kind op); try done; [by apply exists_mono..|]. intros [? ?]. split; [by eapply exists_mono|by eapply known_mono]. Qed.

Lemma causal_deps t op : log_inv t → op ∈ log_ t → deps_in (log_ t) op.
Proof.
  intros Hi (l1 & l2 & E)%list_elem_of_split. eapply deps_mono; [|by eapply (li_causal _ Hi)]. rewrite E. set_solver.
Qed.
Lemma node_exists t tx id : tree_inv t tx → has_node t id = true ↔ exists_in (log_ t) id.
Proof.
  intros [Hi Ht]. unfold has_node. rewrite bool_decide_eq_true. split; [|apply (tb_created _ _ _ _ Ht)]. intros [n Hn].
  destruct (decide (id = kTreeRoot)) as [->|Hr]; [by left|]. destruct (tb_made _ _ _ _ Ht _ _ Hn Hr) as [(p & s & seed & Hc & _) _]. right. by exists p, s, seed.
Qed.
(** The code's test is that what the operation needs is in the log. *)
Lemma ready_deps t tx op : tree_inv t tx → valid_tree_op op → dependencies_ready t op = true ↔ deps_in (log_ t) op.
Proof.
  intros Hi [_ Hv]. unfold dependencies_ready, deps_in. destruct (op_kind op); try done; [by apply (node_exists t tx)..|].
  rewrite andb_true_iff, (node_exists t tx) by done. destruct Hi as [Hi _]. by rewrite (li_frontier _ Hi) by apply Hv.
Qed.
Lemma id_known t tx id n : tree_inv t tx → nodes_ t !! id = Some n → id ≠ kTreeRoot → known_in (log_ t) id.
Proof. intros [_ Ht] Hn Hr. destruct (tb_made _ _ _ _ Ht _ _ Hn Hr) as [(p & s & seed & Hc & _) _]. by eexists. Qed.
Lemma no_node_no_op t tx id : tree_inv t tx → nodes_ t !! id = None → ∀ op, op ∈ log_ t → op_node op ≠ Some id.
Proof.
  intros [Hi Ht] Hn op Hop Hid. assert (He : exists_in (log_ t) id).
  { pose proof (causal_deps _ _ Hi Hop) as Hd. pose proof (li_valid _ Hi) as Hv. rewrite Forall_forall in Hv. specialize (Hv op Hop).
    destruct op as [i k]. unfold deps_in, op_node, valid_tree_op in *. destruct k; simpl in *; simplify_eq; [|tauto..].
    destruct Hv as (_ & -> & _). right. by eexists _, _, _. }
  apply (tb_created _ _ _ _ Ht) in He as [? ?]. congruence.
Qed.

Lemma record_log t t' op : log_inv t → same_log t t' → fresh_op t op → log_inv (record op t').
Proof.
  intros Hi (_ & E1 & E2 & E3 & _) Hf. split; unfold record; cbn [log_ counter_ frontier_]; rewrite ?E1, ?E2, ?E3.
  - apply Forall_app. split; [apply Hi|]. by constructor; [apply Hf|].
  - rewrite fmap_app. apply NoDup_app. split_and!; [apply Hi| |apply NoDup_singleton]. intros i (o & -> & Ho)%list_elem_of_fmap. simpl.
    rewrite list_elem_of_singleton. intros E. apply (fo_new _ _ Hf). by exists o.
  - intros l1 o l2 E. destruct l2 as [|o2 l2 _] using rev_ind.
    + apply app_inj_tail in E as [<- <-]. apply Hf.
    + rewrite app_comm_cons, app_assoc in E. apply app_inj_tail in E as [E _]. by eapply (li_causal _ Hi).
  - intros id Hpos. rewrite frontier_observe_contains, (li_frontier _ Hi), known_snoc by done. done.
  - split; [apply Hi|]. intros o [Ho|Ho%list_elem_of_singleton]%elem_of_app; [by apply Hi|subst; apply Hf].
Qed.

Lemma apply_fresh t tx op : tree_inv t tx → fresh_op t op →
  ∃ t' tx', apply_op op t tx = Some (t', tx') ∧ same_log t t' ∧ tree_inv (record op t') tx'.
Proof.
  intros Hinv Hf. pose proof Hinv as [Hi Ht].
  assert (Hv : Forall valid_tree_op (log_ t ++ [op])) by (apply Forall_app; split; [apply Hi|by constructor; [apply Hf|]]).
  assert (Hstep : ∀ t' tx', apply_op op t tx = Some (t', tx') → same_log t t' → tables (log_ t ++ [op]) (nodes_ t') (children_ t') tx' →
    ∃ t' tx', apply_op op t tx = Some (t', tx') ∧ same_log t t' ∧ tree_inv (record op t') tx').
  { intros t' tx' E Hs Htab. exists t', tx'. split_and!; [done..|]. split; [by eapply record_log|]. simpl. by rewrite (proj1 (proj2 (proj2 Hs))). }
  pose proof (fo_valid _ _ Hf) as Hop. pose proof (fo_new _ _ Hf) as Hnew. pose proof (fo_deps _ _ Hf) as Hd.
  destruct op as [i [id p s seed|id|id s|id prev ops|? ? ? ? ?|? ? ? ?]]; unfold deps_in, valid_tree_op in Hd, Hop; simpl in Hd, Hop, Hnew; try tauto.
  - destruct Hop as (Hpos & -> & _). assert (Hn : nodes_ t !! i = None).
    { destruct (nodes_ t !! i) as [n|] eqn:E; [|done]. destruct Hnew. eapply id_known; [done..|]. by intros ->. }
    destruct (seed_node_ok i p s seed (id_peer i) tx) as (n & tx' & E & _).
    eapply Hstep; [unfold apply_op, has_node; simpl; rewrite Hn, bool_decide_eq_false_2 by (by intros [? ?]); rewrite E; reflexivity|done|].
    simpl. eapply tables_create; [done..|by eapply no_node_no_op|done].
  - apply (tb_created _ _ _ _ Ht) in Hd as [n Hn]. unfold apply_op in *. simpl in *. rewrite Hn in *.
    destruct (match n_tomb n with None => true | Some d => id_ltb i d end) eqn:E.
    + eapply Hstep; [done|done|]. eapply tables_tombstone; [apply Hi|done..|]. left. eauto.
    + eapply Hstep; [done|done|]. rewrite <- (insert_id (nodes_ t) id n Hn) at 1. eapply tables_tombstone; [apply Hi|done..|]. right. destruct (n_tomb n); [eauto|done].
  - apply (tb_created _ _ _ _ Ht) in Hd as [n Hn]. unfold apply_op in *. simpl in *. rewrite Hn in *. destruct (id_ltb (n_sort_stamp n) i) eqn:E.
    + eapply Hstep; [done|done|]. eapply tables_reorder; [done..|]. left. by rewrite <- id_ltb_lt.
    + eapply Hstep; [done|done|]. rewrite <- (insert_id (nodes_ t) id n Hn) at 1. eapply tables_reorder; [done..|]. right. by rewrite <- id_ltb_ge.
  - destruct Hd as [He _]. apply (tb_created _ _ _ _ Ht) in He as [n Hn]. unfold apply_op in *. simpl in *. rewrite Hn in *. destruct (n_is_leaf n) eqn:El; cycle 1.
    { eapply Hstep; [done|done|]. eapply tables_other; [apply Hi|done..]. }
    destruct (tb_texts _ _ _ _ Ht _ _ Hn El) as (ref & x & Er & Ex & Hok & Htext & _). rewrite Er in *. simpl in *. rewrite Ex in *. simpl in *.
    destruct Hop as (_ & _ & Hops & Hnd).
    eapply Hstep; [done|done|]. simpl. eapply tables_leaf_edit; [done..| | |by left].
    + destruct (apply_delta_wf x ops (proj1 Hok) Hops) as [? Hvis]. split; [done|]. intros ?. congruence.
    + intros _. eapply text_of_joined; [done| |].
      * intros j. unfold apply_delta. rewrite absorb_all_elems by done. reflexivity.
      * intros m. rewrite source_snoc. unfold source_of. simpl. rewrite decide_True by done. naive_solver.
Qed.

(** *** The buffer *)

(** Inclusions follow from inclusions. *)
Ltac sets := repeat match goal with H : ?P |- _ => lazymatch type of P with Prop => lazymatch P with _ ⊆ _ => fail | _ => clear H end end end; set_solver.

Lemma inv_set_buffered b t tx : tree_inv t tx → tree_inv (set_buffered b t) tx.
Proof. intros [[] ?]. by split; [split|]. Qed.
Lemma inv_set_counter c t tx : counter_ t ≤ c → tree_inv t tx → tree_inv (set_counter c t) tx.
Proof.
  intros Hc [[? ? ? ? [H0 Hle]] ?]. split; [split; try done|done]. simpl. split; [lia|]. intros op Hop. specialize (Hle op Hop). lia.
Qed.

(** What waits is well made, and the counter is past it. *)
Definition waiting_ok (t : Tree) (ops : list TreeOp) : Prop := Forall (λ op, valid_tree_op op ∧ counter (op_id op) ≤ counter_ t) ops.

Lemma drain_pass_ok pending : ∀ p t tx, tree_inv t tx → waiting_ok t pending →
  ∃ p' t' tx' rest, drain_pass pending p t tx = Some (p', t', tx') ∧ tree_inv t' tx' ∧ peer_ t' = peer_ t ∧ counter_ t' = counter_ t ∧
    buffered_ t' = buffered_ t ++ rest ∧ rest ⊆ pending ∧ log_ t ⊆ log_ t' ∧ log_ t' ⊆ log_ t ++ pending ∧
    (∀ op, op ∈ pending → op ∈ rest ∨ known_in (log_ t') (op_id op)) ∧
    (length rest ≤ length pending)%nat ∧ (p = true → p' = true) ∧ (p = false → p' = true → (length rest < length pending)%nat) ∧
    (p' = false → log_ t' = log_ t ∧ ∀ op, op ∈ rest → dependencies_ready t op = false).
Proof.
  induction pending as [|op pending IH]; intros p t tx Hi Hw.
  { exists p, t, tx, []. rewrite app_nil_r. split_and!; try done; sets. }
  apply Forall_cons in Hw as [[Hv Hc] Hw]. simpl.
  destruct (frontier_contains (frontier_ t) (op_id op)) eqn:Ef; [|destruct (dependencies_ready t op) eqn:Ed].
  - destruct (IH p t tx Hi Hw) as (p' & t' & tx' & rest & E & I & P & C & B & R1 & L1 & L2 & K & N1 & N2 & N3 & N4). exists p', t', tx', rest.
    split_and!; try done; [sets..| |simpl; lia|intros ? ?; specialize (N3 ltac:(done) ltac:(done)); simpl; lia].
    intros o [->|Ho]%elem_of_cons; [|by apply K]. right. eapply known_mono; [done|]. by apply (li_frontier _ (proj1 Hi)); [apply Hv|].
  - assert (Hf : fresh_op t op).
    { split; try done; [|by apply (ready_deps t tx)]. intros Hk. apply (li_frontier _ (proj1 Hi)) in Hk; [congruence|apply Hv]. }
    destruct (apply_fresh t tx op Hi Hf) as (t1 & tx1 & E1 & (S1 & S2 & S3 & S4 & S5) & I1). rewrite E1. simpl.
    destruct (IH true (record op t1) tx1 I1) as (p' & t' & tx' & rest & E & I & P & C & B & R1 & L1 & L2 & K & N1 & N2 & N3 & N4); [unfold waiting_ok; simpl; by rewrite S2|].
    simpl in P, C, B, L1, L2. rewrite S1 in P. rewrite S2 in C. rewrite S3 in L1, L2. rewrite S5 in B. exists p', t', tx', rest. specialize (N2 eq_refl).
    split_and!; try done; [sets..| |simpl; lia|intros _ _; simpl; lia|congruence].
    intros o [->|Ho]%elem_of_cons; [|by apply K]. right. exists op. split; [apply L1, elem_of_app; right; by left|done].
  - destruct (IH p (set_buffered (buffered_ t ++ [op]) t) tx (inv_set_buffered _ _ _ Hi) Hw) as (p' & t' & tx' & rest & E & I & P & C & B & R1 & L1 & L2 & K & N1 & N2 & N3 & N4).
    exists p', t', tx', (op :: rest). simpl in *. rewrite B, <- app_assoc. split_and!; try done; [sets..| |lia|intros ? ?; specialize (N3 ltac:(done) ltac:(done)); lia|].
    + intros o [->|Ho]%elem_of_cons; [left; by left|]. destruct (K o Ho); [left; by right|by right].
    + intros ->. destruct (N4 eq_refl) as [? Hn]. split; [done|]. intros o [->|Ho]%elem_of_cons; [done|]. by apply Hn.
Qed.

(** The loop ends; nothing is lost, and what is left cannot be applied. *)
Lemma drain_buffered_ok fuel : ∀ t tx, (length (buffered_ t) < fuel)%nat → tree_inv t tx → waiting_ok t (buffered_ t) →
  ∃ t' tx', drain_buffered fuel t tx = Some (t', tx') ∧ tree_inv t' tx' ∧ peer_ t' = peer_ t ∧ counter_ t' = counter_ t ∧
    buffered_ t' ⊆ buffered_ t ∧ log_ t ⊆ log_ t' ∧ log_ t' ⊆ log_ t ++ buffered_ t ∧
    (∀ op, op ∈ buffered_ t → op ∈ buffered_ t' ∨ known_in (log_ t') (op_id op)) ∧
    ∀ op, op ∈ buffered_ t' → ¬ deps_in (log_ t') op.
Proof.
  induction fuel as [|fuel IH]; intros t tx Hf Hi Hw; [lia|]. cbn [drain_buffered].
  destruct (drain_pass_ok (buffered_ t) false (set_buffered [] t) tx (inv_set_buffered _ _ _ Hi) Hw) as
    (p' & t1 & tx1 & rest & E & I & P & C & B & R1 & L1 & L2 & K & N1 & N2 & N3 & N4).
  simpl in P, C, B, L1, L2. rewrite E. simpl. destruct p'.
  - specialize (N3 eq_refl eq_refl). destruct (IH t1 tx1) as (t' & tx' & E' & I' & P' & C' & B' & L1' & L2' & K' & N'); [rewrite B; lia|done| |].
    { rewrite B. unfold waiting_ok in *. rewrite C. apply Forall_forall. intros o Ho. rewrite Forall_forall in Hw. by apply Hw, R1. }
    rewrite B in B', L2', K'. exists t', tx'. split_and!; [done..|congruence|congruence|sets|sets| | |done].
    + intros o Ho. apply L2', elem_of_app in Ho as [Ho|Ho]; [by apply L2|]. apply elem_of_app. right. by apply R1.
    + intros o Ho. destruct (K o Ho) as [Ho'|Hk]; [by apply K'|]. right. by eapply known_mono.
  - destruct (N4 eq_refl) as [El Hn]. exists t1, tx1. rewrite B. split_and!; try done. intros o Ho Hd. specialize (Hn o Ho). simpl in El. rewrite El in Hd.
    unfold waiting_ok in Hw. rewrite Forall_forall in Hw. destruct (Hw o (R1 o Ho)) as [Hv _].
    apply (ready_deps (set_buffered [] t) tx o (inv_set_buffered _ _ _ Hi) Hv) in Hd. congruence.
Qed.

Lemma waiting_mono t t' ops : counter_ t ≤ counter_ t' → waiting_ok t ops → waiting_ok t' ops.
Proof. intros Hc Hw. eapply Forall_impl; [exact Hw|]. intros o [? ?]. split; [done|lia]. Qed.
Lemma receive_ok ops : ∀ t tx, tree_inv t tx → waiting_ok t (buffered_ t) → Forall valid_tree_op ops →
  tree_inv (receive ops t) tx ∧ waiting_ok (receive ops t) (buffered_ (receive ops t)) ∧ peer_ (receive ops t) = peer_ t ∧ counter_ t ≤ counter_ (receive ops t) ∧
  log_ (receive ops t) = log_ t ∧ buffered_ t ⊆ buffered_ (receive ops t) ∧ buffered_ (receive ops t) ⊆ buffered_ t ++ ops ∧
  (∀ op, op ∈ ops → op ∈ buffered_ (receive ops t) ∨ known_in (log_ t) (op_id op)).
Proof.
  induction ops as [|op ops IH]; intros t tx Hi Hw Hv; [simpl; split_and!; try done; sets|]. apply Forall_cons in Hv as [Hop Hv]. cbn [receive].
  set (t1 := if counter_ t <? counter (op_id op) then set_counter (counter (op_id op)) t else t).
  assert (H1 : tree_inv t1 tx ∧ counter_ t ≤ counter_ t1 ∧ counter (op_id op) ≤ counter_ t1 ∧ log_ t1 = log_ t ∧ buffered_ t1 = buffered_ t ∧ peer_ t1 = peer_ t ∧ frontier_ t1 = frontier_ t).
  { unfold t1. destruct (Z.ltb_spec (counter_ t) (counter (op_id op))); [|done]. split_and!; try done; [|simpl; lia]. apply inv_set_counter; [lia|done]. }
  destruct H1 as (I1 & C1 & C2 & L1 & B1 & P1 & F1).
  set (t2 := if frontier_contains (frontier_ t1) (op_id op) then t1 else set_buffered (buffered_ t1 ++ [op]) t1).
  assert (H2 : tree_inv t2 tx ∧ waiting_ok t2 (buffered_ t2) ∧ counter_ t2 = counter_ t1 ∧ log_ t2 = log_ t ∧ peer_ t2 = peer_ t ∧ buffered_ t ⊆ buffered_ t2 ∧
    buffered_ t2 ⊆ buffered_ t ++ [op] ∧ (op ∈ buffered_ t2 ∨ known_in (log_ t) (op_id op))).
  { unfold t2. destruct (frontier_contains (frontier_ t1) (op_id op)) eqn:Ef.
    - split_and!; try done; rewrite ?B1; [by eapply waiting_mono|sets|sets|]. right. rewrite <- L1. apply (li_frontier _ (proj1 I1)); [apply Hop|done].
    - split_and!; simpl; try done; rewrite ?B1; [by apply inv_set_buffered| |sets|sets|left; apply elem_of_app; right; by left]. apply Forall_app. split; [by eapply waiting_mono|]. by constructor. }
  destruct H2 as (I2 & W2 & C3 & L2 & P2 & B2 & B3 & K2).
  destruct (IH t2 tx I2 W2 Hv) as (I & W & P & C & L & B4 & B5 & K). split_and!; [done..|congruence|lia|congruence|sets|sets|].
  intros o [->|Ho]%elem_of_cons; [destruct K2; [left; by apply B4|by right]|]. rewrite <- L2. by apply K.
Qed.

Lemma apply_update_ok ops t tx : tree_inv t tx → waiting_ok t (buffered_ t) → Forall valid_tree_op ops →
  ∃ t' tx', apply_update ops t tx = Some (t', tx') ∧ tree_inv t' tx' ∧ waiting_ok t' (buffered_ t') ∧ peer_ t' = peer_ t ∧ counter_ t ≤ counter_ t' ∧
    log_ t ⊆ log_ t' ∧ log_ t' ⊆ log_ t ++ buffered_ t ++ ops ∧ buffered_ t' ⊆ buffered_ t ++ ops ∧
    (∀ op, op ∈ buffered_ t ++ ops → op ∈ buffered_ t' ∨ known_in (log_ t') (op_id op)) ∧
    ∀ op, op ∈ buffered_ t' → ¬ deps_in (log_ t') op.
Proof.
  intros Hi Hw Hv. destruct (receive_ok ops t tx Hi Hw Hv) as (I & W & P & C & L & B1 & B2 & K).
  destruct (drain_buffered_ok (S (length (buffered_ (receive ops t)))) (receive ops t) tx ltac:(lia) I W) as (t' & tx' & E & I' & P' & C' & B' & L1 & L2 & K' & N).
  rewrite L in L1, L2. exists t', tx'. split_and!; try done.
  - unfold waiting_ok in *. rewrite C'. rewrite Forall_forall in W |- *. intros o Ho. by apply W, B'.
  - congruence.
  - lia.
  - sets.
  - sets.
  - intros o [Ho|Ho]%elem_of_app; [by apply K', B1|]. destruct (K o Ho) as [Ho'|Hk]; [by apply K'|]. right. by eapply known_mono.
Qed.

(** ** Local operations *)

Lemma key_room_ok lo : ∀ hi k, key_room lo hi = Some k → k ≠ [].
Proof.
  induction lo as [|x lo IH]; intros [|y hi] k; simpl; try done. case_match; [by intros [= <-]|]. intros (k' & _ & ->)%fmap_Some. done.
Qed.
Lemma key_between_ok lo hi : hi ≠ Some [] → ∃ k, tree_key_between lo hi = Some k ∧ k ≠ [].
Proof.
  intros Hhi. destruct lo as [lo|], hi as [hi|]; simpl.
  - eexists. split; [done|]. destruct (key_room lo hi) as [k|] eqn:E; simpl; [by eapply key_room_ok|by destruct lo].
  - eexists. split; [done|]. by destruct lo.
  - destruct hi as [|x hi]; [done|]. eexists. split; [done|]. by case_match.
  - eexists. by split.
Qed.
Lemma right_sibling_node ns cs after : ∀ found s, right_sibling ns cs after found = Some s → ∃ c n, ns !! c = Some n ∧ s = n_sort n.
Proof.
  induction cs as [|c cs IH]; intros found s; simpl; [done|]. destruct (ns !! c) as [n|] eqn:E; [|apply IH]. destruct (n_tomb n); [apply IH|].
  destruct found; [intros [= <-]; eauto|apply IH].
Qed.
(** The key a call computes for a place between siblings. *)
Lemma key_ok t tx parent after before : tree_inv t tx → ∃ k, tree_key_between before (frac <$> find_right_sibling t parent after) = Some k ∧ k ≠ [].
Proof.
  intros [Hi Ht]. apply key_between_ok. destruct (find_right_sibling t parent after) as [s|] eqn:E; [|done]. simpl. intros [= E'].
  unfold find_right_sibling in E. destruct (children_ t !! parent) as [cs|]; [|done]. apply right_sibling_node in E as (c & n & Hn & ->).
  by eapply tables_frac; [apply Hi|..].
Qed.

Lemma node_counter t tx id n : tree_inv t tx → nodes_ t !! id = Some n → counter id ≤ counter_ t.
Proof.
  intros Hi Hn. destruct (decide (id = kTreeRoot)) as [->|Hr]; [simpl; apply Hi|]. destruct (id_known t tx id n Hi Hn Hr) as (o & Ho & <-). by apply Hi.
Qed.
Lemma next_fresh t tx : tree_inv t tx → ¬ known_in (log_ t) (mkId (counter_ t + 1) (peer_ t)) ∧ nodes_ t !! mkId (counter_ t + 1) (peer_ t) = None.
Proof.
  intros Hi. split; [intros (o & Ho & E); pose proof (proj2 (li_counter _ (proj1 Hi)) o Ho) as Hc; rewrite E in Hc; simpl in Hc; lia|].
  destruct (nodes_ t !! mkId (counter_ t + 1) (peer_ t)) as [n|] eqn:E; [|done]. pose proof (node_counter _ _ _ _ Hi E) as Hc. simpl in Hc. lia.
Qed.

(** The moment a call has its id. *)
Lemma stamped_ok t tx : tree_inv t tx → waiting_ok t (buffered_ t) →
  tree_inv (set_counter (counter_ t + 1) t) tx ∧ waiting_ok (set_counter (counter_ t + 1) t) (buffered_ t).
Proof. intros Hi Hw. split; [apply inv_set_counter; [lia|done]|]. eapply waiting_mono; [|done]. simpl. lia. Qed.
(** A call ends by recording a fresh operation with its tables. *)
Lemma recorded_ok t t' tx tx' k : tree_inv t tx → waiting_ok t (buffered_ t) → same_log (set_counter (counter_ t + 1) t) t' →
  valid_tree_op (mkTreeOp (mkId (counter_ t + 1) (peer_ t)) k) → deps_in (log_ t) (mkTreeOp (mkId (counter_ t + 1) (peer_ t)) k) →
  tables (log_ t ++ [mkTreeOp (mkId (counter_ t + 1) (peer_ t)) k]) (nodes_ t') (children_ t') tx' →
  let t'' := record (mkTreeOp (mkId (counter_ t + 1) (peer_ t)) k) t' in tree_inv t'' tx' ∧ waiting_ok t'' (buffered_ t'').
Proof.
  intros Hi Hw Hs Hv Hd Ht. destruct (stamped_ok t tx Hi Hw) as [Hi1 Hw1]. pose proof Hs as (S1 & S2 & S3 & S4 & S5). split.
  - split; [|simpl; by rewrite S3]. eapply record_log; [apply Hi1|done|]. split; [done| |done|simpl; lia]. by apply (next_fresh t tx).
  - unfold waiting_ok in *. simpl. by rewrite S2, S5.
Qed.

Lemma create_node_ok parent after seed t tx : tree_inv t tx → waiting_ok t (buffered_ t) → (∀ a, after = Some a → is_Some (nodes_ t !! a)) →
  ∃ t' tx', create_node parent after seed t tx = Some (mkId (counter_ t + 1) (peer_ t), t', tx') ∧ tree_inv t' tx' ∧ waiting_ok t' (buffered_ t') ∧
    (is_Some (nodes_ t !! parent) → ∃ key, log_ t' = log_ t ++ [mkTreeOp (mkId (counter_ t + 1) (peer_ t)) (OpCreate (mkId (counter_ t + 1) (peer_ t)) parent key seed)]).
Proof.
  intros Hi Hw Ha. destruct (stamped_ok t tx Hi Hw) as [Hi1 Hw1]. destruct (next_fresh t tx Hi) as [Hnew Hnone]. unfold create_node, tree_next_id.
  cbn [nodes_ set_counter]. destruct (nodes_ t !! parent) as [pn|] eqn:Ep; [|eexists _, _; split_and!; [done..|by intros [? ?]]].
  set (t1 := set_counter (counter_ t + 1) t) in *. set (id := mkId (counter_ t + 1) (peer_ t)) in *.
  assert (Htouch : touch after t1 = (match after with Some a => n ← nodes_ t !! a; Some (frac (n_sort n)) | None => None end, t1)).
  { unfold touch. destruct after as [a|]; [|done]. destruct (Ha a eq_refl) as [n Hn]. cbn [t1 nodes_ set_counter]. by rewrite Hn. }
  rewrite Htouch. destruct (key_ok t1 tx parent after (match after with Some a => n ← nodes_ t !! a; Some (frac (n_sort n)) | None => None end) Hi1) as (k & Ek & Hk).
  rewrite Ek. cbn [mbind option_bind]. destruct (seed_node_ok id parent (mkSort k (peer_ t1)) seed (peer_ t1) tx) as (n & tx' & Es & _). rewrite Es. cbn [mbind option_bind].
  eexists _, _. split; [done|]. match goal with |- ?A ∧ ?B ∧ ?C => assert (A ∧ B) as [? ?]; [|split_and!; [done..|intros _; by eexists]] end.
  assert (He : exists_in (log_ t) parent) by (apply (node_exists t tx); [done|]; unfold has_node; rewrite Ep; by apply bool_decide_eq_true).
  assert (Hlt : id_lt parent id) by (pose proof (node_counter _ _ _ _ Hi Ep); left; simpl; lia).
  assert (Hv : valid_tree_op (mkTreeOp id (OpCreate id parent (mkSort k (peer_ t1)) seed))).
  { split; [simpl; pose proof (proj1 (li_counter _ (proj1 Hi))); lia|]. by split_and!. }
  apply (recorded_ok t _ tx tx'); try done. apply (tables_create _ _ _ tx); try done.
  - apply Forall_app. split; [apply Hi|by apply Forall_singleton].
  - apply Hi.
  - by apply (no_node_no_op t tx).
Qed.

Lemma tombstone_node_ok id t tx : tree_inv t tx → waiting_ok t (buffered_ t) →
  tree_inv (tombstone_node id t) tx ∧ waiting_ok (tombstone_node id t) (buffered_ (tombstone_node id t)).
Proof.
  intros Hi Hw. unfold tombstone_node. destruct (nodes_ t !! id) as [n|] eqn:En; [|done]. case_match; [done|]. cbn [tree_next_id].
  apply (recorded_ok t _ tx tx); try done.
  - split; [simpl; pose proof (proj1 (li_counter _ (proj1 Hi))); lia|done].
  - apply (node_exists t tx); [done|]. unfold has_node. rewrite En. by apply bool_decide_eq_true.
  - eapply tables_tombstone; [apply Hi|apply Hi|done|]. left. eauto.
Qed.

Lemma reorder_child_ok id after t tx : tree_inv t tx → waiting_ok t (buffered_ t) → (∀ a, after = Some a → is_Some (nodes_ t !! a)) →
  ∃ t', reorder_child id after t = Some t' ∧ tree_inv t' tx ∧ waiting_ok t' (buffered_ t').
Proof.
  intros Hi Hw Ha. unfold reorder_child. destruct (nodes_ t !! id) as [n|] eqn:En; [|by exists t]. destruct (n_parent n) as [p|] eqn:Ep; [|by exists t].
  assert (Hr : id ≠ kTreeRoot). { intros ->. destruct (tb_root _ _ _ _ (proj2 Hi)) as (r & ? & ? & _). congruence. }
  assert (Hb : ∃ before, match after with None => Some None | Some a => (λ m, Some (frac (n_sort m))) <$> nodes_ t !! a end = Some before).
  { destruct after as [a|]; [|eauto]. destruct (Ha a eq_refl) as [m ->]. simpl. eauto. }
  destruct Hb as [before ->]. cbn [mbind option_bind]. destruct (key_ok t tx p after before Hi) as (k & -> & Hk). cbn [mbind option_bind tree_next_id].
  eexists. split; [done|]. destruct (next_fresh t tx Hi) as [Hnew _]. set (id' := mkId (counter_ t + 1) (peer_ t)) in *.
  assert (Hv : valid_tree_op (mkTreeOp id' (OpReorder id (mkSort k (peer_ t))))).
  { split; [simpl; pose proof (proj1 (li_counter _ (proj1 Hi))); lia|done]. }
  apply (recorded_ok t _ tx tx); try done.
  - apply (node_exists t tx); [done|]. unfold has_node. rewrite En. by apply bool_decide_eq_true.
  - eapply tables_reorder; try done; [apply Forall_app; split; [apply Hi|by apply Forall_singleton]|apply Hi|]. left. split; [|done].
    destruct (tb_made _ _ _ _ (proj2 Hi) _ _ En Hr) as [_ [Hp _]].
    assert (Hs : known_in (log_ t) (n_sort_stamp n)) by (destruct Hp as [(p' & seed & -> & Hc)|Hc]; eexists; (split; [exact Hc|done])).
    destruct Hs as (o & Ho & <-). pose proof (proj2 (li_counter _ (proj1 Hi)) o Ho). left. simpl. lia.
Qed.

Lemma fork_text_ok x p : text_ok x → text_ok (text_fork x p).
Proof. intros Hx. destruct (edit_ok x (ForkTo p) Hx I) as (y & E & Hy). simpl in E. by simplify_eq. Qed.
Lemma whole_delta x : valid_elems (elems x) → delta_since x ∅ = map_to_list (elems x).
Proof.
  intros Hv. unfold delta_since. apply list_filter_id. intros [i e] Hin%elem_of_map_to_list. destruct (Hv i e Hin) as [Hpos _]. unfold unknown_to. simpl.
  rewrite lookup_empty. simpl. by rewrite (proj2 (Z.ltb_lt 0 (counter i))).
Qed.

Lemma edit_leaf_ok id at_byte n ins t tx : tree_inv t tx → waiting_ok t (buffered_ t) →
  ∃ t' tx', edit_leaf id at_byte n ins t tx = Some (t', tx') ∧ tree_inv t' tx' ∧ waiting_ok t' (buffered_ t').
Proof.
  intros Hi Hw. unfold edit_leaf. destruct (nodes_ t !! id) as [nd|] eqn:En; [|by eexists _, _].
  destruct (n_is_leaf nd) eqn:El; [|by eexists _, _]. destruct (tb_texts _ _ _ _ (proj2 Hi) _ _ En El) as (ref & x & Er & Ex & Hok & Htext & Hpos & Hk).
  rewrite Er, Ex. cbn [mbind option_bind]. destruct (delete_at_grows n at_byte _ (fork_text_ok x (peer_ t) Hok)) as (x1 & -> & Hok1 & G1). cbn [mbind option_bind].
  assert (H2 : ∃ x2, (if bool_decide (ins = []) then Some x1 else insert_str x1 at_byte ins) = Some x2 ∧ text_ok x2 ∧ grows (elems x1) (elems x2)).
  { case_bool_decide; [exists x1; split_and!; [done..|apply grows_refl]|by apply insert_str_grows]. }
  destruct H2 as (x2 & -> & Hok2 & G2). cbn [mbind option_bind tree_next_id]. eexists _, _. split; [done|].
  set (id' := mkId (counter_ t + 1) (peer_ t)) in *. pose proof (whole_delta x2 (proj1 (proj1 Hok2))) as Hdelta. rewrite Hdelta.
  assert (Hv : valid_tree_op (mkTreeOp id' (OpLeafEdit id (n_text_head nd) (map_to_list (elems x2))))).
  { split; [simpl; pose proof (proj1 (li_counter _ (proj1 Hi))); lia|]. simpl. split_and!; [done|apply valid_elems_ops, Hok2|apply NoDup_fst_map_to_list]. }
  apply (recorded_ok t _ tx _); try done.
  - split; [|done]. apply (node_exists t tx); [done|]. unfold has_node. rewrite En. by apply bool_decide_eq_true.
  - eapply tables_leaf_edit; try done; [apply Forall_app; split; [apply Hi|by apply Forall_singleton]|apply Hi| |by right].
    intros Ht. eapply (text_of_grown _ _ (elems x) (elems x2) Ht); [by eapply grows_trans|]. intros m. rewrite source_snoc. unfold source_of. simpl.
    rewrite decide_True, list_to_map_to_list by done. naive_solver.
Qed.

(** ** The order of siblings *)

Lemma frac_compare_eq a : ∀ b, frac_compare a b = 0 ↔ a = b.
Proof.
  induction a as [|x a IH]; intros [|y b]; simpl; try done. destruct (Z.eqb_spec x y) as [->|Hne]; simpl; [rewrite IH; naive_solver|].
  split; [destruct (x <? y); lia|by intros [= -> _]].
Qed.
Lemma frac_compare_swap a : ∀ b, frac_compare b a = - frac_compare a b.
Proof.
  induction a as [|x a IH]; intros [|y b]; simpl; try done. rewrite (Z.eqb_sym y x). destruct (Z.eqb_spec x y) as [->|Hne]; simpl; [apply IH|].
  destruct (Z.ltb_spec x y), (Z.ltb_spec y x); lia.
Qed.
Lemma frac_compare_trans a : ∀ b c, frac_compare a b < 0 → frac_compare b c < 0 → frac_compare a c < 0.
Proof.
  induction a as [|x a IH]; intros [|y b] [|z c]; simpl; try done. destruct (Z.eqb_spec x y) as [->|], (Z.eqb_spec y z) as [->|]; simpl; try done; [apply IH| |].
  - destruct (Z.eqb_spec x z); [done|]. by destruct (x <? z).
  - destruct (Z.eqb_spec x z); simpl; destruct (Z.ltb_spec x y), (Z.ltb_spec y z), (Z.ltb_spec x z); lia.
Qed.
Lemma sort_compare_eq a b : sort_compare a b = 0 ↔ a = b.
Proof.
  unfold sort_compare. destruct a as [f p], b as [g q]. simpl. destruct (Z.eqb_spec (frac_compare f g) 0) as [E|E]; simpl.
  - apply frac_compare_eq in E as ->. destruct (Z.eqb_spec p q) as [->|]; simpl; [done|]. split; [destruct (p <? q); lia|by intros [= ->]].
  - split; [done|]. intros [= -> ->]. by destruct E; apply frac_compare_eq.
Qed.
Lemma sort_compare_swap a b : sort_compare b a = - sort_compare a b.
Proof.
  unfold sort_compare. rewrite (frac_compare_swap (frac a)). destruct (Z.eqb_spec (frac_compare (frac a) (frac b)) 0) as [->|E]; simpl.
  - rewrite (Z.eqb_sym (sort_peer b)). destruct (Z.eqb_spec (sort_peer a) (sort_peer b)) as [->|]; simpl; [done|].
    destruct (Z.ltb_spec (sort_peer a) (sort_peer b)), (Z.ltb_spec (sort_peer b) (sort_peer a)); lia.
  - destruct (Z.eqb_spec (- frac_compare (frac a) (frac b)) 0); simpl; lia.
Qed.
#[export] Instance child_le_trans : Transitive child_le.
Proof.
  intros [[f p] i] [[g q] j] [[h r] k]. unfold child_le, sort_compare. simpl.
  destruct (Z.eqb_spec (frac_compare f g) 0) as [E1|E1], (Z.eqb_spec (frac_compare g h) 0) as [E2|E2]; simpl.
  - apply frac_compare_eq in E1 as ->, E2 as ->. rewrite (proj2 (Z.eqb_eq _ 0)) by (by apply frac_compare_eq). simpl.
    destruct (Z.eqb_spec p q), (Z.eqb_spec q r), (Z.eqb_spec p r); simpl; try destruct (Z.ltb_spec p q); try destruct (Z.ltb_spec q r); try destruct (Z.ltb_spec p r); lia.
  - apply frac_compare_eq in E1 as ->. intros _ ?. destruct (Z.eqb_spec (frac_compare g h) 0); simpl; [lia|done].
  - apply frac_compare_eq in E2 as ->. intros ? _. destruct (Z.eqb_spec (frac_compare f h) 0); simpl; [lia|done].
  - intros H1 H2. pose proof (frac_compare_trans f g h ltac:(lia) ltac:(lia)). destruct (Z.eqb_spec (frac_compare f h) 0); simpl; lia.
Qed.
#[export] Instance child_le_total : Total child_le.
Proof. intros a b. unfold child_le. rewrite (sort_compare_swap a.1 b.1). lia. Qed.

(** ** The operations decide the tree *)

Lemma op_unique l o o' : NoDup (op_id <$> l) → o ∈ l → o' ∈ l → op_id o = op_id o' → o = o'.
Proof.
  intros Hnd [i Hi]%list_elem_of_lookup_1 [j Hj]%list_elem_of_lookup_1 E. assert (i = j) as ->; [|congruence].
  eapply (NoDup_lookup _ i j (op_id o) Hnd); rewrite list_lookup_fmap; [by rewrite Hi|]. rewrite Hj. simpl. by rewrite E.
Qed.
Lemma placed_once l id s s' st : NoDup (op_id <$> l) → placed l id s st → placed l id s' st → s = s'.
Proof.
  intros Hnd [(p & seed & -> & Hc)|Hc] [(p' & seed' & E & Hc')|Hc']; try subst st; pose proof (op_unique _ _ _ Hnd Hc Hc' eq_refl) as Ho; congruence.
Qed.
Lemma same_last l id n m : NoDup (op_id <$> l) → placed_as l id n → placed_as l id m → n_sort n = n_sort m.
Proof.
  intros Hnd [P1 L1] [P2 L2]. assert (Hst : n_sort_stamp n = n_sort_stamp m).
  { destruct (L1 _ _ P2) as [|H1]; [done|]. destruct (L2 _ _ P1) as [|H2]; [done|]. destruct (id_lt_irrefl (n_sort_stamp n)). by eapply id_lt_trans. }
  eapply placed_once; [done..|]. by rewrite Hst.
Qed.

Lemma all_there t tx p : tree_inv t tx → forallb (has_node t) (default [] (children_ t !! p)) = true.
Proof.
  intros Hi. apply List.forallb_forall. intros c Hc%list_elem_of_In. apply (tb_children _ _ _ _ (proj2 Hi)) in Hc as (n & Hn & _).
  apply bool_decide_eq_true. eauto.
Qed.

(** Two replicas with the same operations, which agree on the texts. *)
Section same.
Context (t u : Tree) (tx ux : Texts) (Ht : tree_inv t tx) (Hu : tree_inv u ux) (Hops : ∀ op, op ∈ log_ t ↔ op ∈ log_ u)
  (Hag : ∀ id, agreeing (source (log_ t) id)).

Lemma created_iff id p s seed : created (log_ u) id p s seed ↔ created (log_ t) id p s seed.
Proof. unfold created. by rewrite Hops. Qed.
Lemma placed_iff id s st : placed (log_ u) id s st ↔ placed (log_ t) id s st.
Proof. unfold placed. rewrite Hops. by setoid_rewrite created_iff. Qed.

(** What a reader sees of a node. *)
Definition same_node (n m : TreeNode) : Prop :=
  n_parent n = n_parent m ∧ n_is_leaf n = n_is_leaf m ∧ (n_is_leaf n = true → n_leaf_kind n = n_leaf_kind m) ∧ n_element_kind n = n_element_kind m ∧
  (is_Some (n_tomb n) ↔ is_Some (n_tomb m)) ∧ (n_parent n ≠ None → n_sort n = n_sort m) ∧
  (n_is_leaf n = true → ∃ r r' x y, n_text n = Some r ∧ n_text m = Some r' ∧ tx !! r = Some x ∧ ux !! r' = Some y ∧ text x = text y ∧ is_Some (text x)).

Lemma same_presence id : is_Some (nodes_ t !! id) ↔ is_Some (nodes_ u !! id).
Proof.
  pose proof (node_exists t tx id Ht) as H1. pose proof (node_exists u ux id Hu) as H2. unfold has_node in *. rewrite bool_decide_eq_true in H1, H2.
  rewrite H1, H2. unfold exists_in. by setoid_rewrite created_iff.
Qed.
Lemma same_text id n m : nodes_ t !! id = Some n → nodes_ u !! id = Some m → n_is_leaf n = true → n_is_leaf m = true →
  ∃ r r' x y, n_text n = Some r ∧ n_text m = Some r' ∧ tx !! r = Some x ∧ ux !! r' = Some y ∧ text x = text y ∧ is_Some (text x).
Proof.
  intros Hn Hm Ln Lm. destruct (tb_texts _ _ _ _ (proj2 Ht) _ _ Hn Ln) as (r & x & ? & ? & Hx & Tx & _).
  destruct (tb_texts _ _ _ _ (proj2 Hu) _ _ Hm Lm) as (r' & y & ? & ? & Hy & Ty & _). exists r, r', x, y.
  assert (E : elems x = elems y).
  { eapply (text_of_unique (source (log_ t) id)); [apply Hag|done|]. eapply text_of_ext; [exact Ty|]. intros k. unfold source. by setoid_rewrite Hops. }
  rewrite !text_document, E by done. split_and!; done.
Qed.
Lemma nodes_same id n m : nodes_ t !! id = Some n → nodes_ u !! id = Some m → same_node n m.
Proof.
  intros Hn Hm. assert (Htomb : is_Some (n_tomb n) ↔ is_Some (n_tomb m)).
  { pose proof (tb_tombs _ _ _ _ (proj2 Ht) _ _ Hn) as E1. pose proof (tb_tombs _ _ _ _ (proj2 Hu) _ _ Hm) as E2. unfold tomb_is in *. rewrite E1, E2. unfold buried. by setoid_rewrite Hops. }
  destruct (decide (id = kTreeRoot)) as [->|Hr].
  - destruct (tb_root _ _ _ _ (proj2 Ht)) as (n' & ? & P1 & L1 & K1 & _), (tb_root _ _ _ _ (proj2 Hu)) as (m' & ? & P2 & L2 & K2 & _). simplify_eq.
    split_and!; congruence.
  - destruct (tb_made _ _ _ _ (proj2 Ht) _ _ Hn Hr) as [(p & s & seed & Hc & Hp & Hs) Hl]. destruct (tb_made _ _ _ _ (proj2 Hu) _ _ Hm Hr) as [(p' & s' & seed' & Hc' & Hp' & Hs') [Pl' Ll']].
    apply (proj1 (created_iff _ _ _ _)) in Hc'. pose proof (op_unique _ _ _ (li_unique _ (proj1 Ht)) Hc Hc' eq_refl) as E. injection E as <- <- <-.
    assert (Hleaf : n_is_leaf n = n_is_leaf m) by (destruct seed; simpl in *; naive_solver congruence).
    split_and!; [congruence|done|destruct seed; simpl in *; naive_solver congruence|destruct seed; simpl in *; naive_solver congruence|done| |].
    + intros _. eapply same_last; [by apply (li_unique _ (proj1 Ht))|done|]. split; [by apply (proj1 (placed_iff _ _ _))|]. intros s1 st Hp1. eapply Ll'. by apply (proj2 (placed_iff _ _ _)).
    + intros L. eapply same_text; [done..|congruence].
Qed.
Lemma same_live c : is_live t c = is_live u c.
Proof.
  unfold is_live. pose proof (same_presence c) as Hp. destruct (nodes_ t !! c) as [n|] eqn:En, (nodes_ u !! c) as [m|] eqn:Em.
  - f_equal. apply bool_decide_ext. by apply (nodes_same c n m En Em).
  - by destruct (proj1 Hp) as [? ?].
  - by destruct (proj2 Hp) as [? ?].
  - done.
Qed.
Lemma same_children p : default [] (children_ t !! p) ≡ₚ default [] (children_ u !! p).
Proof.
  destruct (tb_children _ _ _ _ (proj2 Ht) p) as [N1 C1], (tb_children _ _ _ _ (proj2 Hu) p) as [N2 C2]. apply NoDup_Permutation; [done..|].
  intros c. rewrite C1, C2. split; intros (n & Hn & Hp).
  - destruct (proj1 (same_presence c)) as [m Hm]; [eauto|]. exists m. destruct (nodes_same c n m Hn Hm) as [E _]. split; [done|congruence].
  - destruct (proj2 (same_presence c)) as [m Hm]; [eauto|]. exists m. destruct (nodes_same c m n Hm Hn) as [E _]. split; [done|congruence].
Qed.
Lemma same_reading id : element_kind t id = element_kind u id ∧ leaf_kind t id = leaf_kind u id ∧ leaf_text t tx id = leaf_text u ux id ∧ (∃ cs ds, children t id = Some cs ∧ children u id = Some ds ∧ cs ≡ₚ ds).
Proof.
  assert (Hc : live_children t id ≡ₚ live_children u id).
  { unfold live_children. rewrite (list_filter_iff _ (λ c, is_live u c = true)) by (intros c; by rewrite same_live). by rewrite same_children. }
  assert (Hc' : ∃ cs ds, children t id = Some cs ∧ children u id = Some ds ∧ cs ≡ₚ ds).
  { exists (live_children t id), (live_children u id). unfold children. by rewrite (all_there t tx id Ht), (all_there u ux id Hu). }
  unfold element_kind, leaf_kind, leaf_text, node_text. pose proof (same_presence id) as Hp. destruct (nodes_ t !! id) as [n|] eqn:En, (nodes_ u !! id) as [m|] eqn:Em; simpl.
  - destruct (nodes_same id n m En Em) as (_ & L & K & E & _ & _ & T). rewrite <- L. split_and!; [by rewrite E|destruct (n_is_leaf n); [by rewrite K|done]| |done].
    destruct (n_is_leaf n); [|done]. destruct (T eq_refl) as (r & r' & x & y & -> & -> & E1 & E2 & E3 & _). simpl. by rewrite E1, E2.
  - by destruct (proj1 Hp) as [? ?].
  - by destruct (proj2 Hp) as [? ?].
  - done.
Qed.
Lemma same_count : live_node_count t = live_node_count u.
Proof.
  unfold live_node_count. rewrite <- !(length_fmap fst). apply Permutation_length, NoDup_Permutation.
  1-2: eapply sublist_NoDup; [refine (NoDup_fst_map_to_list (nodes_ _))|apply fmap_sublist, sublist_filter].
  assert (Hin : ∀ v c, c ∈ (filter (λ p : OpId * TreeNode, p.1 ≠ kTreeRoot ∧ n_tomb p.2 = None) (map_to_list (nodes_ v))).*1 ↔ c ≠ kTreeRoot ∧ is_live v c = true).
  { intros v c. rewrite list_elem_of_fmap. unfold is_live. split.
    - intros ([i n] & -> & [[Hr Hn] Hin%elem_of_map_to_list]%list_elem_of_filter). simpl in *. rewrite Hin, Hn. done.
    - intros [Hr Hl]. destruct (nodes_ v !! c) as [n|] eqn:En; [|done]. exists (c, n). split; [done|]. apply list_elem_of_filter. rewrite elem_of_map_to_list. simpl.
      split; [|done]. split; [done|]. destruct (n_tomb n); [|done]. exfalso. rewrite bool_decide_true in Hl; [done|eauto]. }
  intros c. by rewrite !Hin, same_live.
Qed.

(** Live siblings have keys of their own. *)
Definition keys_apart : Prop := ∀ p c d n m, c ∈ live_children t p → d ∈ live_children t p → nodes_ t !! c = Some n → nodes_ t !! d = Some m → n_sort n = n_sort m → c = d.

Lemma elem_of_sorted v p (x : TreeSortKey * OpId) : x ∈ sorted_children v p ↔ x.2 ∈ live_children v p ∧ ∃ n, nodes_ v !! x.2 = Some n ∧ n_sort n = x.1.
Proof.
  unfold sorted_children, live_children. rewrite merge_sort_Permutation, list_elem_of_omap, list_elem_of_filter. destruct x as [s c]. simpl. split.
  - intros (c' & Hc & E). destruct (nodes_ v !! c') as [n|] eqn:En; [|done]. simpl in E. destruct (is_live v c') eqn:El; [|done]. simplify_eq. split_and!; [done..|]. by exists n.
  - intros ([Hl Hc] & n & Hn & <-). exists c. split; [done|]. rewrite Hn, Hl. done.
Qed.
Lemma same_sorted p : keys_apart → sorted_children t p = sorted_children u p.
Proof.
  intros Hk. assert (Hperm : sorted_children t p ≡ₚ sorted_children u p).
  { unfold sorted_children. rewrite !merge_sort_Permutation.
    assert (E : omap (λ c, n ← nodes_ t !! c; if is_live t c then Some (n_sort n, c) else None) (default [] (children_ t !! p)) =
      omap (λ c, n ← nodes_ u !! c; if is_live u c then Some (n_sort n, c) else None) (default [] (children_ t !! p))).
    { assert (Hin : ∀ c, c ∈ default [] (children_ t !! p) → ∃ n, nodes_ t !! c = Some n ∧ n_parent n = Some p) by (intros c; apply (proj2 (tb_children _ _ _ _ (proj2 Ht) p))).
      revert Hin. generalize (default [] (children_ t !! p)). intros l. induction l as [|c l IH]; intros Hin; [done|]. csimpl. rewrite IH by (intros; apply Hin; by right).
      destruct (Hin c ltac:(by left)) as (n & Hn & Hp). destruct (proj1 (same_presence c)) as [m Hm]; [eauto|]. rewrite Hn, Hm, same_live. simpl.
      destruct (nodes_same c n m Hn Hm) as (_ & _ & _ & _ & _ & Hs & _). rewrite Hs by congruence. done. }
    rewrite E. by rewrite same_children. }
  apply (StronglySorted_unique_strong child_le); [|apply StronglySorted_merge_sort; apply _..|done].
  intros x y Hx Hy Hxy Hyx. rewrite <- Hperm in Hy. apply elem_of_sorted in Hx as (Hx & n & Hn & En), Hy as (Hy & m & Hm & Em).
  assert (Es : x.1 = y.1). { apply sort_compare_eq. unfold child_le in *. rewrite sort_compare_swap in Hyx. lia. }
  destruct x as [s c], y as [s' d]. simpl in *. assert (c = d) by (eapply Hk; [exact Hx|exact Hy|done|done|congruence]). congruence.
Qed.
Lemma same_render fuel : keys_apart → ∀ id, render_node fuel t tx id = render_node fuel u ux id.
Proof.
  intros Hk. induction fuel as [|fuel IH]; intros id; [done|]. simpl. pose proof (same_presence id) as Hp.
  destruct (nodes_ t !! id) as [n|] eqn:En, (nodes_ u !! id) as [m|] eqn:Em; [|by destruct (proj1 Hp) as [? ?]|by destruct (proj2 Hp) as [? ?]|done].
  destruct (nodes_same id n m En Em) as (_ & L & _ & _ & D & _ & T). rewrite (bool_decide_ext _ _ D), <- L. case_match; [done|].
  assert (Hkids : mapM (λ p : TreeSortKey * OpId, render_node fuel t tx p.2) (sorted_children t id) = mapM (λ p : TreeSortKey * OpId, render_node fuel u ux p.2) (sorted_children u id)).
  { rewrite same_sorted by done. apply mapM_ext. intros x. apply IH. }
  destruct (n_is_leaf n); [|by rewrite Hkids]. destruct (T eq_refl) as (r & r' & x & y & -> & -> & E1 & E2 & E3 & _). simpl. by rewrite E1, E2.
Qed.
Lemma same_size : size (nodes_ t) = size (nodes_ u).
Proof.
  rewrite <- !size_dom. f_equal. apply set_eq. intros id. rewrite !elem_of_dom. apply same_presence.
Qed.
End same.

(** *** Rendering ends *)

Definition newer (t : Tree) (id : OpId) : gset OpId := filter (id_lt id) (dom (nodes_ t)).
Lemma child_newer t tx p c : tree_inv t tx → c ∈ live_children t p → id_lt p c ∧ c ∈ dom (nodes_ t).
Proof.
  intros [Hi Ht] [_ Hc]%list_elem_of_filter. apply (tb_children _ _ _ _ Ht) in Hc as (n & Hn & Hp). split; [|apply elem_of_dom; eauto].
  assert (Hr : c ≠ kTreeRoot) by (intros ->; destruct (tb_root _ _ _ _ Ht) as (? & ? & ? & _); congruence).
  destruct (tb_made _ _ _ _ Ht _ _ Hn Hr) as [(p' & s & seed & Hc & Hp' & _) _]. pose proof (li_valid _ Hi) as Hv. rewrite Forall_forall in Hv.
  apply Hv in Hc as (_ & _ & Hlt & _). congruence.
Qed.
Lemma render_total t tx : tree_inv t tx → ∀ fuel id, (size (newer t id) < fuel)%nat → is_Some (render_node fuel t tx id).
Proof.
  intros Hi. induction fuel as [|fuel IH]; intros id Hf; [lia|]. simpl. destruct (nodes_ t !! id) as [n|] eqn:En; [|by eexists]. case_match; [by eexists|].
  assert (Hkids : is_Some (mapM (λ p : TreeSortKey * OpId, render_node fuel t tx p.2) (sorted_children t id))).
  { apply mapM_is_Some, Forall_forall. intros x Hx. apply IH. apply elem_of_sorted in Hx as [Hx _]. destruct (child_newer t tx id x.2 Hi Hx) as [Hlt Hd].
    assert (newer t x.2 ⊂ newer t id); [|pose proof (subset_size _ _ ltac:(eassumption)); lia]. unfold newer. split.
    - intros i. rewrite !elem_of_filter. intros [? ?]. split; [by eapply id_lt_trans|done].
    - intros Hsub. assert (Hin : x.2 ∈ filter (id_lt id) (dom (nodes_ t))) by (by apply elem_of_filter). apply Hsub, elem_of_filter in Hin as [Hin _]. by apply id_lt_irrefl in Hin. }
  destruct (n_is_leaf n) eqn:El.
  - destruct (tb_texts _ _ _ _ (proj2 Hi) _ _ En El) as (r & x & -> & E & Hok & _). rewrite E. simpl. rewrite text_document by done. by eexists.
  - destruct Hkids as [k ->]. by eexists.
Qed.
Lemma render_ok t tx : tree_inv t tx → is_Some (render t tx).
Proof.
  intros Hi. apply (render_total t tx Hi). pose proof (subseteq_size (newer t kTreeRoot) (dom (nodes_ t)) ltac:(intros i; unfold newer; rewrite elem_of_filter; tauto)) as Hle.
  rewrite size_dom in Hle. lia.
Qed.

(** ** Runs *)

Inductive TreeAct :=
  | Create (parent : OpId) (after : option OpId) (seed : TreeNodeSeed)
  | Bury (id : OpId)
  | Move (id : OpId) (after : option OpId)
  | EditLeaf (id : OpId) (at_byte delete_bytes : nat) (insert : list Z)
  | Update (ops : list TreeOp).
Definition tree_act (a : TreeAct) (t : Tree) (tx : Texts) : option (Tree * Texts) :=
  match a with
  | Create parent after seed => '(_, t, tx) ← create_node parent after seed t tx; Some (t, tx)
  | Bury id => Some (tombstone_node id t, tx)
  | Move id after => t ← reorder_child id after t; Some (t, tx)
  | EditLeaf id at_byte n s => edit_leaf id at_byte n s t tx
  | Update ops => apply_update ops t tx
  end.
(** The sibling named is there, and what is received is well made. *)
Definition allowed (a : TreeAct) (t : Tree) : Prop :=
  match a with
  | Create _ (Some a) _ | Move _ (Some a) => is_Some (nodes_ t !! a)
  | Update ops => Forall valid_tree_op ops
  | _ => True
  end.
(** The states of a replica. *)
Inductive reaches (peer : Z) : Tree → Texts → Prop :=
  | reaches_new : reaches peer (tree_new peer) []
  | reaches_act a t tx t' tx' : reaches peer t tx → allowed a t → tree_act a t tx = Some (t', tx') → reaches peer t' tx'.

Lemma new_ok peer : tree_inv (tree_new peer) [] ∧ waiting_ok (tree_new peer) [].
Proof.
  split; [|constructor]. split; [split|]; cbn [log_ nodes_ children_ counter_ frontier_ tree_new]; try done.
  - constructor.
  - by intros [] ? ?.
  - intros id _. split; [done|by intros (? & ?%elem_of_nil & _)].
  - split; [done|]. by intros ? ?%elem_of_nil.
  - split.
    + eexists. rewrite lookup_singleton_eq. by split_and!.
    + intros id n [<- <-]%lookup_singleton_Some. done.
    + intros id n [<- <-]%lookup_singleton_Some. split; [by intros [? ?]|]. by intros (? & ?%elem_of_nil).
    + intros id [->|(? & ? & ? & ?%elem_of_nil)]; [|done]. rewrite lookup_singleton_eq. eauto.
    + intros p. rewrite lookup_empty. split; [constructor|]. intros c. split; [by intros ?%elem_of_nil|]. intros (n & [<- <-]%lookup_singleton_Some & ?). done.
    + intros id n [<- <-]%lookup_singleton_Some. done.
    + intros a b n m ref [<- <-]%lookup_singleton_Some. done.
Qed.
Lemma act_ok a t tx : tree_inv t tx → waiting_ok t (buffered_ t) → allowed a t →
  ∃ t' tx', tree_act a t tx = Some (t', tx') ∧ tree_inv t' tx' ∧ waiting_ok t' (buffered_ t').
Proof.
  intros Hi Hw Ha. destruct a as [p after seed|id|id after|id b n s|ops]; simpl in *.
  - destruct (create_node_ok p after seed t tx Hi Hw) as (t' & tx' & -> & ? & ? & _); [by intros a ->|]. simpl. eauto.
  - destruct (tombstone_node_ok id t tx Hi Hw). eauto.
  - destruct (reorder_child_ok id after t tx Hi Hw) as (t' & -> & ? & ?); [by intros a ->|]. simpl. eauto.
  - by apply edit_leaf_ok.
  - destruct (apply_update_ok ops t tx Hi Hw Ha) as (t' & tx' & ? & ? & ? & _). eauto.
Qed.
Lemma reaches_ok peer t tx : reaches peer t tx → tree_inv t tx ∧ waiting_ok t (buffered_ t).
Proof.
  induction 1 as [|a t tx t' tx' _ [Hi Hw] Ha E]; [apply new_ok|]. destruct (act_ok a t tx Hi Hw Ha) as (? & ? & E' & ?). rewrite E in E'. by simplify_eq.
Qed.

(** ** Exchange *)

(** An id stands for one operation. *)
Definition unambiguous (l : list TreeOp) : Prop := ∀ o o', o ∈ l → o' ∈ l → op_id o = op_id o' → o = o'.

Lemma elem_of_diff u f op : op ∈ diff u f ↔ op ∈ log_ u ∧ frontier_contains f (op_id op) = false.
Proof. unfold diff. rewrite merge_sort_Permutation, list_elem_of_filter. tauto. Qed.

Lemma catch_up t tx u ux : tree_inv t tx → waiting_ok t (buffered_ t) → tree_inv u ux → unambiguous (log_ t ++ buffered_ t ++ log_ u) →
  ∃ t' tx', apply_update (diff u (frontier t)) t tx = Some (t', tx') ∧ tree_inv t' tx' ∧ waiting_ok t' (buffered_ t') ∧ peer_ t' = peer_ t ∧
    log_ t ⊆ log_ t' ∧ log_ u ⊆ log_ t' ∧ log_ t' ⊆ log_ t ++ buffered_ t ++ log_ u ∧ ∀ op, op ∈ buffered_ t' → ¬ deps_in (log_ t') op.
Proof.
  intros Hi Hw Hu Hun.
  assert (Hv : Forall valid_tree_op (diff u (frontier t))).
  { apply Forall_forall. intros o [Ho _]%elem_of_diff. pose proof (li_valid _ (proj1 Hu)) as Hv. rewrite Forall_forall in Hv. by apply Hv. }
  destruct (apply_update_ok _ t tx Hi Hw Hv) as (t' & tx' & E & I & W & P & _ & L1 & L2 & _ & K & N).
  assert (Hfrom : log_ t' ⊆ log_ t ++ buffered_ t ++ log_ u).
  { intros o Ho. apply L2 in Ho. rewrite !elem_of_app in Ho |- *. destruct Ho as [?|[?|[? _]%elem_of_diff]]; auto. }
  exists t', tx'. split_and!; try done.
  assert (Hpre : ∀ l1 l2, log_ u = l1 ++ l2 → l1 ⊆ log_ t').
  { intros l1. induction l1 as [|o l1 IH] using rev_ind; intros l2 El; [apply list_subseteq_nil|]. rewrite <- app_assoc in El. simpl in El. specialize (IH _ El).
    intros o' [Ho'|Ho'%list_elem_of_singleton]%elem_of_app; [by apply IH|subst o']. assert (Hou : o ∈ log_ u) by (rewrite El; set_solver).
    pose proof (deps_mono _ _ _ IH (li_causal _ (proj1 Hu) _ _ _ El)) as Hd.
    assert (Hk : known_in (log_ t') (op_id o)).
    { destruct (frontier_contains (frontier_ t) (op_id o)) eqn:Ef.
      - eapply known_mono; [exact L1|]. apply (li_frontier _ (proj1 Hi)); [|done]. pose proof (li_valid _ (proj1 Hu)) as Hvu. rewrite Forall_forall in Hvu. by apply Hvu.
      - destruct (K o) as [Hb|?]; [|by destruct (N o Hb)|done]. apply elem_of_app. right. by apply elem_of_diff. }
    destruct Hk as (o' & Ho' & Eo). rewrite <- (Hun o' o); [done|by apply Hfrom| |done]. rewrite !elem_of_app. by right; right. }
  apply (Hpre _ []). by rewrite app_nil_r.
Qed.

Lemma source_mono l l' id m : l ⊆ l' → source l id m → source l' id m.
Proof. intros Hl (o & Ho & ?). exists o. split; [by apply Hl|done]. Qed.


(** *** Checks that evaluate *)

#[export] Instance TextElem_eq_dec : EqDecision TextElem.
Proof. solve_decision. Defined.
#[export] Instance TreeNodeSeed_eq_dec : EqDecision TreeNodeSeed.
Proof. solve_decision. Defined.
#[export] Instance TreeOpKind_eq_dec : EqDecision TreeOpKind.
Proof. solve_decision. Defined.
#[export] Instance TreeOp_eq_dec : EqDecision TreeOp.
Proof. solve_decision. Defined.
#[export] Instance valid_tree_op_dec op : Decision (valid_tree_op op).
Proof. unfold valid_tree_op, valid_op. destruct (op_kind op); apply _. Defined.
#[export] Instance allowed_dec a t : Decision (allowed a t).
Proof. destruct a as [p [after|] seed|id|id [after|]|id b n s|ops]; simpl; apply _. Defined.

Fixpoint tree_run (acts : list TreeAct) (t : Tree) (tx : Texts) : option (Tree * Texts) :=
  match acts with
  | [] => Some (t, tx)
  | a :: acts => if decide (allowed a t) then '(t, tx) ← tree_act a t tx; tree_run acts t tx else None
  end.
Lemma run_reaches peer acts : ∀ t tx t' tx', reaches peer t tx → tree_run acts t tx = Some (t', tx') → reaches peer t' tx'.
Proof.
  induction acts as [|a acts IH]; intros t tx t' tx' Hr E; simpl in E; [by simplify_eq|]. case_decide as Ha; [|done].
  destruct (tree_act a t tx) as [[t1 tx1]|] eqn:E1; [|done]. simpl in E. eapply IH; [|exact E]. by eapply reaches_act.
Qed.

Definition one_op_per_id (l : list TreeOp) : bool := forallb (λ o, forallb (λ o', negb (bool_decide (op_id o = op_id o')) || bool_decide (o = o')) l) l.
Lemma unambiguous_check l : one_op_per_id l = true → unambiguous l.
Proof.
  intros Hl o o' Ho%list_elem_of_In Ho'%list_elem_of_In E. unfold one_op_per_id in Hl. rewrite List.forallb_forall in Hl. specialize (Hl o Ho).
  rewrite List.forallb_forall in Hl. specialize (Hl o' Ho'). rewrite bool_decide_eq_true_2 in Hl by done. by apply bool_decide_eq_true in Hl.
Qed.
Definition elements_agree (m m' : gmap OpId TextElem) : bool :=
  forallb (λ '(j, e), match m' !! j with Some e' => bool_decide (ch e = ch e') && bool_decide (origin e = origin e') | None => true end) (map_to_list m).
Definition texts_agree (l : list TreeOp) : bool :=
  forallb (λ o, forallb (λ o', match id ← op_node o; m ← source_of id o; m' ← source_of id o'; Some (elements_agree m m') with Some b => b | None => true end) l) l.
Lemma agreeing_check l : texts_agree l = true → ∀ id, agreeing (source l id).
Proof.
  intros Hl id m m' j e e' (o & Ho%list_elem_of_In & Em) (o' & Ho'%list_elem_of_In & Em') He He'. unfold texts_agree in Hl. rewrite List.forallb_forall in Hl. specialize (Hl o Ho).
  rewrite List.forallb_forall in Hl. specialize (Hl o' Ho').
  assert (Hid : op_node o = Some id). { destruct (decide (op_node o = Some id)) as [|Hne]; [done|]. apply others_untouched in Hne as [Hne _]. congruence. }
  rewrite Hid in Hl. simpl in Hl. rewrite Em, Em' in Hl. simpl in Hl. unfold elements_agree in Hl. rewrite List.forallb_forall in Hl.
  apply elem_of_map_to_list, list_elem_of_In in He. specialize (Hl _ He). simpl in Hl. rewrite He' in Hl. by zify_bools.
Qed.

(** *** Two writers *)

Definition tok (s : list Z) : TreeNodeSeed := SeedLeaf Token s.
(** The first makes two leaves and types in one of them; the second starts from
    that, types in the same leaf, moves it and makes another; meanwhile the first
    goes on, and has received something typed in the new leaf too early. *)
Definition author : option (Tree * Texts) :=
  tree_run [Create kTreeRoot None (tok [97; 98]); Create kTreeRoot (Some (mkId 1 1)) (tok [99]); EditLeaf (mkId 1 1) 1 0 [120]] (tree_new 1) [].
Definition the_tree (r : option (Tree * Texts)) : Tree := default (tree_new 0) (fst <$> r).
Definition the_texts (r : option (Tree * Texts)) : Texts := default [] (snd <$> r).
Definition reviser : option (Tree * Texts) :=
  tree_run [Update (diff (the_tree author) ∅); EditLeaf (mkId 1 1) 0 1 [121]; Move (mkId 1 1) (Some (mkId 2 1)); Create kTreeRoot None (tok [100]); EditLeaf (mkId 6 2) 1 0 [101]] (tree_new 2) [].
Definition author_later : option (Tree * Texts) :=
  tree_run [Update (filter (λ op, op_id op = mkId 7 2) (log_ (the_tree reviser))); EditLeaf (mkId 1 1) 2 1 [122; 122]; Bury (mkId 2 1)] (the_tree author) (the_texts author).
Lemma run_reached peer acts t tx : reaches peer t tx → is_Some (tree_run acts t tx) → reaches peer (the_tree (tree_run acts t tx)) (the_texts (tree_run acts t tx)).
Proof. intros Hr [[t' tx'] E]. rewrite E. by eapply run_reaches. Qed.

(** The check that no two live siblings have equal keys. *)
Definition sibling_keys_differ (t : Tree) : bool := forallb (λ '(p, _), bool_decide (NoDup (fst <$> sorted_children t p))) (map_to_list (children_ t)).
Lemma keys_check t : sibling_keys_differ t = true → keys_apart t.
Proof.
  intros Hall p c d n m Hc Hd Hn Hm E. unfold sibling_keys_differ in Hall. rewrite List.forallb_forall in Hall.
  destruct (children_ t !! p) as [cs|] eqn:Ecs; [|unfold live_children in Hc; rewrite Ecs in Hc; by apply elem_of_nil in Hc].
  apply elem_of_map_to_list, list_elem_of_In in Ecs. specialize (Hall _ Ecs). simpl in Hall. apply bool_decide_eq_true in Hall.
  assert (Hin : ∀ x y, nodes_ t !! x = Some y → x ∈ live_children t p → (n_sort y, x) ∈ sorted_children t p) by (intros x y Hy Hx; apply elem_of_sorted; eauto).
  destruct (list_elem_of_lookup_1 _ _ (Hin _ _ Hn Hc)) as [i Hi], (list_elem_of_lookup_1 _ _ (Hin _ _ Hm Hd)) as [j Hj].
  assert (i = j) as ->; [|congruence]. eapply (NoDup_lookup _ i j (n_sort n) Hall); rewrite list_lookup_fmap; [by rewrite Hi|by rewrite Hj, E].
Qed.

Lemma author_reached : reaches 1 (the_tree author) (the_texts author).
Proof. unfold author. apply run_reached; [apply reaches_new|vm_compute; by eexists]. Qed.
Lemma author_later_reached : reaches 1 (the_tree author_later) (the_texts author_later).
Proof. unfold author_later. apply run_reached; [apply author_reached|vm_compute; by eexists]. Qed.
Lemma reviser_reached : reaches 2 (the_tree reviser) (the_texts reviser).
Proof. unfold reviser. apply run_reached; [apply reaches_new|vm_compute; by eexists]. Qed.


(** ** What the code does in the corners *)

Definition after_run (r : option (OpId * Tree * Texts)) : Tree * Texts := match r with Some (_, t, tx) => (t, tx) | None => (tree_new 0, []) end.
(** A replica with a leaf, and what another makes of all its operations. *)
Definition with_leaf (s : list Z) : Tree * Texts := after_run (create_node kTreeRoot None (tok s) (tree_new 1) []).
Definition copied (t : Tree) : option (Tree * Texts) := apply_update (diff t ∅) (tree_new 2) [].

(** [char_to_byte] stops behind the first byte of the last character: where the
    splitting replica has the leaves "é" and "b", the others get a lone lead
    byte and the rest. *)
Lemma split_cuts_characters :
  let '(t, tx) := with_leaf [195; 169; 98] in
  match split_leaf (mkId 1 1) 2 t tx with
  | Some (tail, t, tx) =>
      (leaf_text t tx (mkId 1 1), leaf_text t tx tail) = (Some [195; 169], Some [98]) ∧
      ((λ '(u, ux), (leaf_text u ux (mkId 1 1), leaf_text u ux tail)) <$> copied t) = Some (Some [195], Some [169; 98])
  | None => False
  end.
Proof. by vm_compute. Qed.

Definition fronted : Tree * Texts :=
  let '(t, tx) := with_leaf [97] in
  let '(t, tx) := after_run (create_node kTreeRoot None (tok [98]) t tx) in
  after_run (create_node kTreeRoot None (tok [99]) t tx).
(** [find_right_sibling] goes by arrival, not by key: of three leaves each put at
    the front, the last two have the same key. *)
Lemma front_keys_collide :
  let t := fronted.1 in
  n_sort <$> nodes_ t !! mkId 2 1 = n_sort <$> nodes_ t !! mkId 3 1 ∧ ¬ keys_apart t.
Proof.
  split_and!; [by vm_compute..|]. intros Hk. assert (E : mkId 2 1 = mkId 3 1); [|done].
  eapply (Hk kTreeRoot); [| |vm_compute; reflexivity|vm_compute; reflexivity|reflexivity].
  - apply (bool_decide_eq_true_1 (mkId 2 1 ∈ live_children fronted.1 kTreeRoot)). by vm_compute.
  - apply (bool_decide_eq_true_1 (mkId 3 1 ∈ live_children fronted.1 kTreeRoot)). by vm_compute.
Qed.

(** A merge gives the joined text to the peer that takes it in, so the elements
    of a later edit are new to the others, which show the text twice. *)
Lemma edit_after_merge_doubles :
  let '(t, tx) := with_leaf [97] in
  let '(t, tx) := after_run (create_node kTreeRoot (Some (mkId 1 1)) (tok [98]) t tx) in
  match '(t, tx) ← merge_adjacent_leaves (mkId 1 1) (mkId 2 1) t tx; edit_leaf (mkId 1 1) 2 0 [33] t tx with
  | Some (t, tx) => render t tx = Some [97; 98; 33] ∧ ('(u, ux) ← copied t; render u ux) ≠ Some [97; 98; 33]
  | None => False
  end.
Proof. by vm_compute. Qed.

(** A fork points to the leaf texts of the original: an edit applied to the fork
    shows in the original, which has not heard of it. *)
Lemma fork_shares_texts :
  let '(t, tx) := with_leaf [97] in
  let f := tree_fork t 3 in
  match '(u, ux) ← copied t; edit_leaf (mkId 1 1) 1 0 [98] u ux with
  | Some (u, _) =>
      match apply_update (diff u (frontier f)) f tx with
      | Some (f', tx') => leaf_text f' tx' (mkId 1 1) = Some [97; 98] ∧ leaf_text t tx' (mkId 1 1) = Some [97; 98] ∧ frontier_contains (frontier t) (mkId 2 2) = false
      | None => False
      end
  | None => False
  end.
Proof. by vm_compute. Qed.

(** Naming a sibling that has not arrived inserts a blank node under its id;
    when the sibling does arrive it is taken for known and never shown. *)
Lemma absent_sibling_swallowed :
  let '(u, ux) := with_leaf [98] in
  let '(t, tx) := after_run (create_node kTreeRoot (Some (mkId 1 1)) (tok [97]) (tree_new 2) []) in
  match apply_update (diff u (frontier t)) t tx with
  | Some (t, tx) => render t tx = Some [97] ∧ known_in (log_ t) (mkId 1 1) ∧ render u ux = Some [98]
  | None => False
  end.
Proof. vm_compute. split_and!; [done| |done]. eexists. split; [by right; left|done]. Qed.
